(* ===== verification/_CoqProject ===== *)
-Q . S2P
Prelude.v
RustStr.v
RustNet.v
ActionClasses.v
Core.v
Mapping.v
MappingGlob.v
MappingHost.v
Redaction.v
Decision.v
MappingTable.v
Json.v
Normalizer.v
Lru.v
Revocation.v
CapabilityMap.v
CapabilityValidation.v
Session.v
PersistentSession.v
Cedar.v
Constraint.v
Runtime.v
AuditRecord.v
Pipeline.v
SecretRewrite.v
SecretStore.v
SecretProvider.v
BodyEncoding.v
Composio.v
Handler.v
LocalExec.v
AuthorityIssuance.v
AuthorityRevocation.v
AuthorityClient.v
RevocationFeed.v
Seccomp.v
EgressGuard.v
AuditEvent.v
AuditWal.v
AuditGrpc.v
RustPath.v
SandboxMounts.v
SandboxSeals.v
InterceptBody.v
InterceptHosts.v
InterceptFraming.v
InterceptHttp.v
InterceptHooks.v
SecretMatcher.v
SecretGateway.v
SecretBroker.v
SecretRegistry.v
Credentials.v
HttpConnector.v
ConnectionStore.v
LoginClient.v
LoginSession.v
ControlPlane.v
LoginCallback.v
StackStop.v
