(* ===== verification/Prelude.v ===== *)
(** * OpenFirma: a verification library

    OpenFirma puts a sidecar between an AI agent and the network.  Every
    outbound request is intercepted, classified, checked against a signed
    capability token and a Cedar policy bundle, given credentials, audited and
    only then forwarded; secrets are replaced by placeholders on the agent's
    side and put back on the way out.  An Authority issues tokens, policies and
    revocations; a launcher runs the agent in a sandbox.  This library models
    the decision path, the code around it and its counterparts, and proves the
    properties that make them a reference monitor: nothing is forwarded unless
    every check passed, failures deny, and state and audit say what happened.

    ** The program and the files

    Paths are under [src/crates]; [sidecar] is [firma-sidecar/src].

    - [Prelude]: results, machine integers, tactics, generic lemmas.
    - [RustStr], [RustNet]: what the code uses of Rust's [str], integer parsing
      and [std::net].  A [String] is the list of its bytes.

    Classification of a request:
    - [ActionClasses]: [firma-core/action_class.rs], [sidecar/enforcement/registry.rs].
    - [Core]: [firma-core] claims, scopes, envelopes, reasons, remediation
      directives, [firma-identifiers/session_id.rs].
    - [Mapping], [MappingGlob], [MappingHost]: [firma-core/mapping.rs]; the
      definitions, the wildcard matcher and overlap search, host normalisation.
    - [Redaction]: [sidecar/normalizer/redaction.rs].
    - [MappingTable]: [sidecar/normalizer/mapping.rs] and the rule configuration
      of [sidecar/config/enforcement.rs].
    - [Json]: the JSON values the code builds and reads.
    - [Normalizer]: [sidecar/normalizer/mod.rs], from a raw request to a
      normalized envelope, with the git metadata of pushes and REST calls.
    - [Composio]: [sidecar/composio]; one HTTP request that carries governed
      tool calls becomes a batch of envelopes.

    Enforcement:
    - [Decision]: [sidecar/enforcement/decision.rs] and [error.rs].
    - [Lru]: the [lru] crate as an interface with its laws, and [Mutex].
    - [Revocation]: [sidecar/enforcement/revocation]; a Bloom filter of atomic
      words confirmed by an LRU set; the interface [RevocationStore].
    - [CapabilityMap], [CapabilityValidation]: Stage 1.
    - [Session], [PersistentSession]: [sidecar/enforcement/session]; the
      interface [SessionStateStore] with its laws and both backends.
    - [Cedar]: [cedar_evaluator.rs] over the [cedar-policy] crate as a
      parameter, and the entities of [firma-core/cedar.rs].
    - [Constraint]: [constraint_enforcement.rs], Stage 2; the interface
      [PolicyEvaluation].
    - [Runtime]: [sidecar/authority_client/readiness.rs] and
      [swappable_policy.rs], [sidecar/pipeline/snapshot.rs].
    - [AuditRecord]: the payload and its extraction from a decision.
    - [Pipeline]: [sidecar/pipeline/mod.rs] and [transport_admission.rs], which
      compose all of the above for one request and for a Composio batch.

    Handling and secrets:
    - [SecretRewrite], [SecretStore], [BodyEncoding]: [sidecar/secret_rewrite.rs],
      [secret_store.rs], [body_encoding.rs]; finding, masking and rehydrating
      secrets in bodies of every content type, and bounded decompression.
    - [SecretProvider]: [firma-secret-provider/spec]; which vault commands are
      mediated, passed or blocked.
    - [SecretMatcher]: [firma-secret-provider/matcher]; the secrets in the output
      of a vault, found and replaced by placeholders.
    - [SecretGateway]: [firma-secret-provider/gateway] and [store.rs]; the
      dictionary of secrets behind its socket, server and client.
    - [SecretBroker]: [firma-secret-provider/broker], [firma-run/secret] and
      [firma/bin/firma-secret-shim.rs]; a vault command run outside the sandbox
      on behalf of the shim inside.
    - [SecretRegistry]: [firma-secret-provider/registry.rs], the built-in
      integrations.
    - [Credentials], [HttpConnector]: [sidecar/credential], [sidecar/connector]
      and their configuration; the credentials a request is given and the bytes
      that leave.
    - [Handler]: [sidecar/handler.rs], the whole request handler, against an
      abstract monitor.
    - [InterceptBody], [InterceptHosts], [InterceptFraming], [InterceptHttp]:
      [sidecar/interceptor/http.rs] and [https_mitm.rs]; the budget of request
      bodies, the destination a request names, the bytes of tunnels and
      upgrades, and the proxy itself over the interface [Guard] that the handler
      implements.
    - [InterceptHooks]: [sidecar/interceptor/unix_socket.rs] and [grpc.rs] over
      the same interface.
    - [LocalExec]: [sidecar/local_exec] and [firma-run/mediator.rs]; privileged
      local commands with operator approval, endpoint and client.

    Audit:
    - [AuditEvent]: [sidecar/audit/builder.rs], [firma-audit-schema].
    - [AuditWal]: [sidecar/audit/sink/wal] and [submission.rs], on a disk that
      can fail and crash.
    - [AuditGrpc]: [sidecar/audit/sink/grpc.rs], the buffering sink, its bounded
      file and its reconnects.

    Authority and its client:
    - [AuthorityIssuance]: [firma-authority/issuance.rs], [cedar_loader.rs],
      [authorized_clients.rs].
    - [AuthorityRevocation]: [firma-authority/revocation.rs].
    - [AuthorityClient]: [sidecar/authority_client] and [backoff.rs]; the
      concurrent tasks that keep policy and revocations current.
    - [RevocationFeed]: [firma-authority/service.rs], the revocation stream,
      composed with the client.

    Sandbox:
    - [Seccomp]: [firma-run/seccomp.rs], the filter compiler on a BPF machine,
      and its artifact store.
    - [EgressGuard]: [firma-run/egress_guard.rs], the connect supervisor.
    - [RustPath]: what the code uses of [std::path], [firma-fs] and the
      configuration candidates of [firma-config-loader].
    - [SandboxMounts], [SandboxSeals]: [firma-run/backend/linux_bwrap], the
      planner of the sandbox's mounts, and what its plans hide.

    Login:
    - [ConnectionStore]: [firma-connection-store]; the saved connection and its
      secret, in a private file and the credential store of the system.
    - [LoginClient]: [firma-login/protocol.rs], [origin.rs], [refusal.rs] and
      [firma-config-utils/http.rs]; the requests to the Control Plane.
    - [LoginSession]: [firma-login/session.rs]; renewals of the saved login over
      the interface [SessionStore] that the connection store implements.
    - [ControlPlane]: [firma-login/control_plane]; starting and closing a run.
    - [LoginCallback]: [firma-login/redirect.rs]; the redirect of the browser.

    Processes:
    - [StackStop]: [firma-process-orchestrator/stop.rs], [state_lease.rs],
      [topology.rs] and [firma-runtime-state/pidfile.rs]; stopping a stack.

    ** How state and effects are modelled

    Fallible code returns [Result]; [let?] is the [?] operator.  State behind a
    lock or an atomic is passed explicitly: a store is a value, an operation
    returns the new one, a poisoned lock is a field.  Clock readings are
    arguments, in nanoseconds.  A [watch] channel or an [ArcSwap] is its current
    value.  In [Pipeline] a [Moment] collects what one evaluation reads from
    outside (readiness, clocks, the end of the policy task, the credential
    provider) and what other requests do to the session store between two of its
    accesses, so the theorems hold under interleaving; the revocation filter's
    loads each read the filter at their own moment.  Concurrent tasks
    ([AuthorityClient], [RevocationFeed], [InterceptBody]) and processes over one file
    ([AuthorityRevocation], [AuditWal]) are step functions over the shared
    state, with reachability by lists of steps.  A future that can be dropped at
    an await ([LoginSession], [ControlPlane]) returns [Awaited]; a crash
    ([AuditWal], [ConnectionStore]) falls between two of the changes an operation
    lists, and may undo what was not flushed.  Unsigned counters are in [Z]
    with saturation or truncation written out; [f64] is [spec_float].

    Code that is not in the repository is a class with the laws the code relies
    on, such as [HttpCrate], [LruCrate], [CedarCrate], [SerdeJson],
    [FormUrlencoded], [UnicodeNfc], [Xxh3], [Sha256], [TokenVerifier] (PASETO),
    [LogJson], [QuickXml], [AhoCorasick], [BodyCodecs], [UrlParse],
    [TokenSigner], [Rfc3339], [BpfMachine], [EventSigner], [WalJson],
    [AuthorityParts], [HeaderValueParse], [RecordJson], [UrlText], [UrlView] and
    [TokenJson].  Every
    law class has an instance in the library, which the [Samples] modules use to
    evaluate theorems on concrete inputs.

    ** What the theorems show

    - Mediation ([Pipeline], [Handler]): a forwarded request passed every stage
      under one generation that was fresh on arrival and at release; a batch is
      all or nothing; a good request is admitted; the handler refines a monitor
      that lets at most one authorised call leave, and always answers.
    - Interception ([InterceptHttp], [InterceptHosts], [InterceptFraming],
      [InterceptBody]): a tunnel opens only after a decision on the destination
      it dials, a decrypted request is held to its tunnel, every response is
      audited, an upgrade request carries what it should, and bodies stay within
      a shared budget under any interleaving.
    - State ([Pipeline], [Session], [PersistentSession]): the exact effect of a
      request on its session; the policy judges a call on its own count under
      concurrency; the provenance chain is tamper evident; replay restores the
      records.
    - Secrets ([Handler], [SecretRewrite], [SecretStore], [SecretProvider],
      [SecretMatcher], [SecretGateway], [SecretBroker], [SecretRegistry]):
      rehydration is all or nothing, masking is exact, vault commands outside
      the rules are blocked, decompression is bounded; the broker shows the agent
      placeholders only and runs a command at most once, the gateway behaves as
      one dictionary over links that fail anywhere, and the built-in
      integrations force their output options.
    - Dispatch ([HttpConnector], [Credentials]): what is handed to the HTTP client
      is what was judged, and with it go only credentials of its host.
    - Login ([ConnectionStore], [LoginSession], [LoginCallback],
      [ControlPlane]): a saved connection changes atomically, a renewable
      credential is never spent under two keys, only the redirect of the attempt
      completes it, and a start is never repeated.
    - Processes ([StackStop]): a teardown ends, is orderly, and removes only what
      is known to be done with.
    - Audit ([Pipeline], [Handler], [AuditEvent], [AuditWal], [AuditGrpc]):
      decision, attribution and redaction; the payload agrees with the response;
      events are tamper evident; the journal loses nothing, keeps runs apart and
      empties itself; the buffering sink accounts for every event on a sound disk
      and paces its reconnects.
    - Stage 1 and 2 ([CapabilityMap], [CapabilityValidation], [Revocation],
      [Constraint], [Cedar]): sound validation, one agent per process, no false
      negative of revocation, failing closed, a faithful context.
    - Classification ([Normalizer], [MappingTable], [MappingGlob],
      [MappingHost], [Composio]): the most specific rule wins, wildcards and
      overlap are decided exactly, batches are well formed.
    - Approval ([LocalExec]): a privileged command runs only as approved, and
      the launcher's polling ends.
    - Authority ([AuthorityIssuance], [AuthorityRevocation], [AuthorityClient],
      [RevocationFeed]): grants are exact, reloads coherent, revocations reach
      Stage 1, readiness is earned, freshness is watched.
    - Sandbox ([Seccomp], [EgressGuard], [SandboxSeals]): the filter is exact
      and trusted, loopback is guarded, and with mount targets that hold no
      symbolic link no path of the sandbox shows the control plane, a process file
      system of the host, configuration or login state.
    - Limits of the statements.  Composio calls pass the checks of a batch but
      carry no placeholders ([Handler]); the session effect of a request is exact
      when no other touches the store meanwhile ([Pipeline]); redirects that the
      HTTP client follows on its own are outside [HttpConnector]; an approval
      binds the fingerprint of a command, which identifies the command when no
      part of it holds a NUL byte ([LocalExec]); the replay of a session log needs
      appends that succeeded ([PersistentSession]), and the books of the buffering
      sink a disk that reads, truncates and compacts ([AuditGrpc]).  [bwrap]
      resolves links of a target when it mounts, and [is_file] those of a CA file:
      [SandboxMounts] tells files by path.  A file renamed into place keeps its
      bytes through a crash, since it was synced before ([ConnectionStore]).
    - Where the code differs from its documentation, a lemma shows it, in the
      [Samples] modules or as [hard_forbid_lifted],
      [persistent_eviction_resets], [composite_blocked_modify_kept].

    ** Fuel

    Loops that are not structural carry fuel that is proved or evidently
    enough: [redact_loop], [receive_pack_loop], the span searches of
    [SecretRewrite] and [collect_loop] consume at least one byte per round and
    start with the length; [overlap_loop] visits each pair of positions once and
    [glob_patterns_overlap_correct] shows the bound is never reached;
    [host_is_canonical] strips at least one byte per call; [governance_loop]
    polls at most the wait divided by the interval, plus one;
    [resolve_loop] drops one component per round; [preface_loop] reads the 32
    bytes of the source's buffer at most; [refresh_loop] counts the attempts of
    the source, [post_loop_fuel] shows that [post_loop] never runs out, and
    [soft_loop_ends] and [hard_loop_ends] that a teardown polls at most once per
    interval.

    ** Not modelled

    The accept loops of the interceptors and the certificates of the local CA
    (network I/O on hyper, tonic and rustls), the stdout and file sinks, PASETO
    encoding, the rest of the launcher (routing, process set-up), configuration
    loading, rule discovery on disk, agent resolution, virtual-machine runners,
    starting and supervising processes, and the user interfaces.  The next part by importance
    is the launcher's routing. *)

From stdpp Require Export base option strings list gmap pretty.
From Stdlib Require Export ZArith Lia Ascii.

#[global] Set Default Goal Selector "!".
#[global] Arguments String.append !_ _ / : simpl nomatch.

(** ** Results: Rust's [Result<A, E>] and the [?] operator *)

Inductive Result (A E : Type) : Type :=
| Ok (a : A)
| Err (e : E).
Arguments Ok {A E} a.
Arguments Err {A E} e.

Declare Scope rust_scope.
Delimit Scope rust_scope with rust.
Open Scope rust_scope.

(** [let? p := e in k] is [let p = e?; k]. *)
Notation "'let?' p ':=' e 'in' k" :=
  (match e with Ok p => k | Err err => Err err end)
  (at level 10, p pattern, e at level 100, k at level 200) : rust_scope.

Definition map_err {A E F : Type} (f : E → F) (r : Result A E) : Result A F :=
  match r with Ok a => Ok a | Err e => Err (f e) end.

Definition ok_or {A E : Type} (o : option A) (e : E) : Result A E :=
  match o with Some a => Ok a | None => Err e end.

Definition result_ok {A E : Type} (r : Result A E) : option A :=
  match r with Ok a => Some a | Err _ => None end.

Definition is_ok {A E : Type} (r : Result A E) : bool :=
  match r with Ok _ => true | Err _ => false end.

(** ** Machine integers: values in [Z], the width written out *)

Definition u32_max : Z := 2 ^ 32 - 1.
Definition u64_max : Z := 2 ^ 64 - 1.
Definition i64_max : Z := 2 ^ 63 - 1.
Definition i64_min : Z := - 2 ^ 63.

Definition wrap_u64 (z : Z) : Z := z mod 2 ^ 64.

(** [u64::saturating_add]. *)
Definition sat_add_u64 (a b : Z) : Z := Z.min (a + b) u64_max.

(** [i64::try_from(x).unwrap_or(i64::MAX)] on an unsigned value. *)
Definition i64_of_unsigned (z : Z) : Z :=
  if decide (z ≤ i64_max)%Z then z else i64_max.

Definition is_u64 (z : Z) : Prop := (0 ≤ z ≤ u64_max)%Z.

(** ** Tactics *)

(** Split the first [match] or [if] of the goal or of a hypothesis on its
    scrutinee, keep the equation, discard impossible branches. *)
Ltac split_match :=
  match goal with
  | |- context [match ?x with _ => _ end] => destruct x eqn:?
  | H : context [match ?x with _ => _ end] |- _ => destruct x eqn:?
  end; simplify_eq/=.

Ltac split_matches := repeat (split_match; try done).

(** Turn boolean connectives and comparisons into propositions. *)
Ltac boolify :=
  repeat match goal with
  | H : (_ && _)%bool = true |- _ => apply andb_true_iff in H as [? ?]
  | H : (_ || _)%bool = false |- _ => apply orb_false_iff in H as [? ?]
  | H : negb _ = true |- _ => apply negb_true_iff in H
  | H : negb _ = false |- _ => apply negb_false_iff in H
  | H : bool_decide _ = true |- _ => apply bool_decide_eq_true in H
  | H : bool_decide _ = false |- _ => apply bool_decide_eq_false in H
  | H : (_ =? _)%Z = true |- _ => apply Z.eqb_eq in H
  | H : (_ =? _)%Z = false |- _ => apply Z.eqb_neq in H
  | H : (_ <=? _)%Z = true |- _ => apply Z.leb_le in H
  | H : (_ <=? _)%Z = false |- _ => apply Z.leb_gt in H
  | H : (_ <? _)%Z = true |- _ => apply Z.ltb_lt in H
  | H : (_ <? _)%Z = false |- _ => apply Z.ltb_ge in H
  end.

Create HintDb firma.

(** ** Facts on the numeric helpers *)

Lemma sat_add_u64_bound a b :
  is_u64 a → (0 ≤ b)%Z → is_u64 (sat_add_u64 a b).
Proof. unfold is_u64, sat_add_u64, u64_max. lia. Qed.

Lemma sat_add_u64_exact a b :
  (a + b ≤ u64_max)%Z → sat_add_u64 a b = (a + b)%Z.
Proof. unfold sat_add_u64. lia. Qed.

Lemma sat_add_u64_mono a b :
  is_u64 a → (0 ≤ b)%Z → (a ≤ sat_add_u64 a b)%Z.
Proof. unfold is_u64, sat_add_u64. lia. Qed.

Lemma i64_of_unsigned_bound z :
  (0 ≤ z)%Z → (0 ≤ i64_of_unsigned z ≤ i64_max)%Z.
Proof. unfold i64_of_unsigned, i64_max. case_decide; lia. Qed.

#[export] Hint Resolve sat_add_u64_bound sat_add_u64_mono
  i64_of_unsigned_bound : firma.

(** ** Results *)

Lemma map_err_ok {A E F} (f : E → F) (r : Result A E) a :
  map_err f r = Ok a ↔ r = Ok a.
Proof. destruct r; naive_solver. Qed.

Lemma ok_or_ok {A E} (o : option A) (e : E) a :
  ok_or o e = Ok a ↔ o = Some a.
Proof. destruct o; naive_solver. Qed.

(** ** Lists *)

Lemma existsb_In {A} (f : A → bool) (l : list A) :
  existsb f l = true ↔ ∃ x, x ∈ l ∧ f x = true.
Proof.
  rewrite existsb_exists. setoid_rewrite list_elem_of_In. done.
Qed.

Lemma existsb_not_In {A} (f : A → bool) (l : list A) :
  existsb f l = false ↔ ∀ x, x ∈ l → f x = false.
Proof.
  induction l as [|a l IH]; simpl.
  - split; [intros _ x H; inversion H|done].
  - rewrite orb_false_iff, IH. setoid_rewrite elem_of_cons. naive_solver.
Qed.

(** The first index at which a predicate holds (Rust's [Iterator::position]). *)
Fixpoint position {A} (f : A → bool) (l : list A) : option nat :=
  match l with
  | [] => None
  | x :: l' => if f x then Some 0 else S <$> position f l'
  end.

Lemma position_Some {A} (f : A → bool) (l : list A) i :
  position f l = Some i →
  (∃ x, l !! i = Some x ∧ f x = true) ∧
  (∀ j x, j < i → l !! j = Some x → f x = false).
Proof.
  revert i. induction l as [|a l IH]; intros i; simpl; [done|].
  destruct (f a) eqn:Ha; intros H; simplify_eq/=.
  - split; [eauto|]. intros j x Hj. lia.
  - destruct (position f l) as [k|] eqn:Hk; simplify_eq/=.
    destruct (IH k eq_refl) as [Hx Hj]. split; [done|].
    intros [|j] x Hlt Hl; simplify_eq/=; [done|]. apply (Hj j); [lia|done].
Qed.

Lemma position_None {A} (f : A → bool) (l : list A) :
  position f l = None ↔ ∀ x, x ∈ l → f x = false.
Proof.
  induction l as [|a l IH]; simpl.
  - split; [intros _ x H; inversion H|done].
  - destruct (f a) eqn:Ha; simpl.
    + split; [done|]. intros H. rewrite (H a) in Ha; [done|]. left.
    + rewrite fmap_None, IH. setoid_rewrite elem_of_cons. naive_solver.
Qed.

Lemma Forall_existsb_false {A} (f : A → bool) (l : list A) :
  existsb f l = false ↔ Forall (λ x, f x = false) l.
Proof. rewrite existsb_not_In, Forall_forall. done. Qed.
