(* ===== verification/RustStr.v ===== *)
(** * Rust strings

    A Rust [str]/[String] is its sequence of UTF-8 bytes, a [string]; a
    [Vec<u8>] or [&[u8]] is a [string] too.  This file gives the operations of
    Rust's standard library on them that the modelled code calls.  Searches and
    comparisons with ASCII patterns are the same on bytes as on characters, so
    they are written on bytes; whitespace trimming and splitting follow
    [char::is_whitespace] on the UTF-8 encoding. *)

From S2P Require Import Prelude.

#[local] Open Scope string_scope.

Definition byte (a : ascii) : Z := Z.of_N (Ascii.N_of_ascii a).

Definition in_range (lo hi : Z) (a : ascii) : bool :=
  (lo <=? byte a)%Z && (byte a <=? hi)%Z.

(** ** ASCII classes ([u8::is_ascii_digit] and the like) *)

Definition is_ascii_digit : ascii → bool := in_range 48 57.
Definition is_ascii_upper : ascii → bool := in_range 65 90.
Definition is_ascii_lower : ascii → bool := in_range 97 122.
Definition is_ascii_alphanumeric (a : ascii) : bool :=
  is_ascii_digit a || is_ascii_upper a || is_ascii_lower a.
Definition is_ascii_hexdigit (a : ascii) : bool :=
  is_ascii_digit a || in_range 65 70 a || in_range 97 102 a.
(** [char::is_ascii_whitespace]: space, tab, LF, FF, CR. *)
Definition is_ascii_whitespace (a : ascii) : bool :=
  (byte a =? 32)%Z || (byte a =? 9)%Z || (byte a =? 10)%Z ||
  (byte a =? 12)%Z || (byte a =? 13)%Z.
Definition is_ascii (a : ascii) : bool := (byte a <? 128)%Z.

Definition ascii_lower (a : ascii) : ascii :=
  if is_ascii_upper a then Ascii.ascii_of_N (Ascii.N_of_ascii a + 32) else a.

Definition ascii_upper (a : ascii) : ascii :=
  if is_ascii_lower a then Ascii.ascii_of_N (Z.to_N (byte a - 32)%Z) else a.

(** ** Traversals *)

Fixpoint str_map (f : ascii → ascii) (s : string) : string :=
  match s with "" => "" | String a s' => String (f a) (str_map f s') end.

Fixpoint str_forallb (f : ascii → bool) (s : string) : bool :=
  match s with "" => true | String a s' => f a && str_forallb f s' end.

Definition to_ascii_lowercase : string → string := str_map ascii_lower.
Definition to_ascii_uppercase : string → string := str_map ascii_upper.

Definition eq_ignore_ascii_case (s t : string) : bool :=
  bool_decide (to_ascii_lowercase s = to_ascii_lowercase t).

Fixpoint contains_char (c : ascii) (s : string) : bool :=
  match s with
  | "" => false
  | String a s' => bool_decide (a = c) || contains_char c s'
  end.

(** [s.matches(c).count()]. *)
Fixpoint count_char (c : ascii) (s : string) : nat :=
  match s with
  | "" => 0
  | String a s' => (if decide (a = c) then 1 else 0) + count_char c s'
  end.

Definition is_empty (s : string) : bool := bool_decide (s = "").

(** ** Prefixes and suffixes *)

Fixpoint strip_prefix (p s : string) : option string :=
  match p, s with
  | "", _ => Some s
  | String a p', String b s' => if decide (a = b) then strip_prefix p' s' else None
  | String _ _, "" => None
  end.

Definition starts_with (p s : string) : bool :=
  match strip_prefix p s with Some _ => true | None => false end.

Fixpoint strip_suffix (q s : string) : option string :=
  if decide (s = q) then Some ""
  else match s with
       | "" => None
       | String a s' => String a <$> strip_suffix q s'
       end.

Definition ends_with (q s : string) : bool :=
  match strip_suffix q s with Some _ => true | None => false end.

Fixpoint trim_start_char (c : ascii) (s : string) : string :=
  match s with
  | String a s' => if decide (a = c) then trim_start_char c s' else s
  | "" => ""
  end.

(** [s.trim_end_matches(c)]. *)
Fixpoint trim_end_char (c : ascii) (s : string) : string :=
  match s with
  | "" => ""
  | String a s' =>
      match trim_end_char c s' with
      | "" => if decide (a = c) then "" else String a ""
      | t => String a t
      end
  end.

(** ** Splitting *)

(** [s.split_once(c)]: at the first occurrence. *)
Fixpoint split_once (c : ascii) (s : string) : option (string * string) :=
  match s with
  | "" => None
  | String a s' =>
      if decide (a = c) then Some ("", s')
      else prod_map (String a) id <$> split_once c s'
  end.

(** [s.rsplit_once(c)]: at the last occurrence. *)
Fixpoint rsplit_once (c : ascii) (s : string) : option (string * string) :=
  match s with
  | "" => None
  | String a s' =>
      match rsplit_once c s' with
      | Some (l, r) => Some (String a l, r)
      | None => if decide (a = c) then Some ("", s') else None
      end
  end.

(** [s.split_once(p)] for a two-byte pattern. *)
Fixpoint split_once2 (c d : ascii) (s : string) : option (string * string) :=
  match s with
  | String a (String b s' as t) =>
      if decide (a = c ∧ b = d) then Some ("", s')
      else prod_map (String a) id <$> split_once2 c d t
  | _ => None
  end.

(** [s.split(c).collect()]: never empty. *)
Fixpoint split_char (c : ascii) (s : string) : list string :=
  match s with
  | "" => [""]
  | String a s' =>
      if decide (a = c) then "" :: split_char c s'
      else match split_char c s' with
           | w :: ws => String a w :: ws
           | [] => [String a ""]
           end
  end.

(** [parts.join(sep)]. *)
Fixpoint join (sep : string) (l : list string) : string :=
  match l with
  | [] => ""
  | [w] => w
  | w :: ws => w +:+ sep +:+ join sep ws
  end.

(** [str::lines] and [BufRead::lines]: split at line feeds, a carriage return before one is dropped, and
    nothing follows the last line feed. *)
Definition strip_cr (line : string) : string := default line (strip_suffix (String "013"%char "") line).

Fixpoint lines_of (segments : list string) : list string :=
  match segments with
  | [] => []
  | [last] => if decide (last = "") then [] else [last]
  | line :: segments => strip_cr line :: lines_of segments
  end.

Definition str_lines (s : string) : list string := lines_of (split_char "010"%char s).

(** ** Unicode whitespace on the UTF-8 encoding *)

Definition ws1 (a : ascii) : bool :=
  in_range 9 13 a || (byte a =? 32)%Z.
(** U+0085 and U+00A0. *)
Definition ws2 (a b : ascii) : bool :=
  (byte a =? 194)%Z && ((byte b =? 133)%Z || (byte b =? 160)%Z).
(** U+1680, U+2000-200A, U+2028, U+2029, U+202F, U+205F, U+3000. *)
Definition ws3 (a b c : ascii) : bool :=
  ((byte a =? 225) && (byte b =? 154) && (byte c =? 128))%Z ||
  ((byte a =? 226)%Z && (byte b =? 128)%Z &&
     (in_range 128 138 c || in_range 168 169 c || (byte c =? 175)%Z)) ||
  ((byte a =? 226) && (byte b =? 129) && (byte c =? 159))%Z ||
  ((byte a =? 227) && (byte b =? 128) && (byte c =? 128))%Z.

Fixpoint trim_start (s : string) : string :=
  match s with
  | "" => ""
  | String a s1 =>
      if ws1 a then trim_start s1
      else match s1 with
           | String b s2 =>
               if ws2 a b then trim_start s2
               else match s2 with
                    | String c s3 => if ws3 a b c then trim_start s3 else s
                    | "" => s
                    end
           | "" => s
           end
  end.

(** Byte by byte; a suffix that starts inside a character starts with a
    continuation byte, which no whitespace encoding does. *)
Fixpoint trim_end (s : string) : string :=
  match s with
  | "" => ""
  | String a s' =>
      if decide (trim_start s = "") then "" else String a (trim_end s')
  end.

Definition trim (s : string) : string := trim_end (trim_start s).

Definition push_word (w : string) (ws : list string) : list string :=
  if decide (w = "") then ws else w :: ws.

(** [s.split_whitespace().collect()]; [acc] is the current word. *)
Fixpoint split_ws (acc s : string) : list string :=
  match s with
  | "" => push_word acc []
  | String a s1 =>
      if ws1 a then push_word acc (split_ws "" s1)
      else match s1 with
           | String b s2 =>
               if ws2 a b then push_word acc (split_ws "" s2)
               else match s2 with
                    | String c s3 =>
                        if ws3 a b c then push_word acc (split_ws "" s3)
                        else split_ws (acc +:+ String a "") s1
                    | "" => split_ws (acc +:+ String a "") s1
                    end
           | "" => push_word (acc +:+ String a "") []
           end
  end.
Definition split_whitespace (s : string) : list string := split_ws "" s.

(** ** Parsing integers: [str::parse::<uN>] and [from_str_radix] *)

Inductive IntErrorKind := IEmpty | IInvalidDigit | IPosOverflow.

(** [ParseIntError]'s [Display]. *)
Definition int_error_display (e : IntErrorKind) : string :=
  match e with
  | IEmpty => "cannot parse integer from empty string"
  | IInvalidDigit => "invalid digit found in string"
  | IPosOverflow => "number too large to fit in target type"
  end.

(** [char::to_digit]. *)
Definition to_digit (radix : Z) (a : ascii) : option Z :=
  let d :=
    if is_ascii_digit a then Some (byte a - 48)%Z
    else if is_ascii_lower a then Some (byte a - 87)%Z
    else if is_ascii_upper a then Some (byte a - 55)%Z
    else None in
  match d with
  | Some d => if (d <? radix)%Z then Some d else None
  | None => None
  end.

(** The digit loop: the multiplication is checked before the digit is read,
    its overflow reported after an invalid digit. *)
Fixpoint parse_digits (radix max acc : Z) (s : string) : Result Z IntErrorKind :=
  match s with
  | "" => Ok acc
  | String a s' =>
      match to_digit radix a with
      | None => Err IInvalidDigit
      | Some d =>
          if (acc * radix <=? max)%Z && (acc * radix + d <=? max)%Z
          then parse_digits radix max (acc * radix + d) s'
          else Err IPosOverflow
      end
  end.

Definition from_str_radix (radix max : Z) (s : string) : Result Z IntErrorKind :=
  match s with
  | "" => Err IEmpty
  | String a "" =>
      if decide (a = "+"%char ∨ a = "-"%char) then Err IInvalidDigit
      else parse_digits radix max 0 s
  | String a s' =>
      if decide (a = "+"%char) then parse_digits radix max 0 s'
      else parse_digits radix max 0 s
  end.

Definition parse_u16 : string → Result Z IntErrorKind := from_str_radix 10 (2 ^ 16 - 1).
Definition parse_u32 : string → Result Z IntErrorKind := from_str_radix 10 u32_max.
Definition parse_u64 : string → Result Z IntErrorKind := from_str_radix 10 u64_max.

(** Decimal [Display] of an unsigned integer. *)
Definition display_uint (z : Z) : string := pretty (Z.to_N z).

(** ** UTF-8 validity ([str::from_utf8]) *)

Definition is_cont : ascii → bool := in_range 128 191.

Fixpoint utf8_valid (s : string) : bool :=
  match s with
  | "" => true
  | String a s1 =>
      if is_ascii a then utf8_valid s1
      else match s1 with
      | String b s2 =>
          if in_range 194 223 a then is_cont b && utf8_valid s2
          else match s2 with
          | String c s3 =>
              if in_range 224 239 a then
                (if (byte a =? 224)%Z then in_range 160 191 b
                 else if (byte a =? 237)%Z then in_range 128 159 b
                 else is_cont b)
                && is_cont c && utf8_valid s3
              else match s3 with
              | String d s4 =>
                  if in_range 240 244 a then
                    (if (byte a =? 240)%Z then in_range 144 191 b
                     else if (byte a =? 244)%Z then in_range 128 143 b
                     else is_cont b)
                    && is_cont c && is_cont d && utf8_valid s4
                  else false
              | "" => false
              end
          | "" => false
          end
      | "" => false
      end
  end.

(** ** [{:?}] of a string and of a list of strings

    ASCII follows [str::escape_debug]; the bytes of non-ASCII characters are
    kept, which is what [Debug] prints for printable characters. *)

Definition hex_digit (d : Z) : ascii :=
  Ascii.ascii_of_N (Z.to_N (if (d <? 10)%Z then 48 + d else 87 + d)%Z).

Definition escape_byte (a : ascii) : string :=
  let n := byte a in
  if (n =? 34)%Z then "\" +:+ String a ""
  else if (n =? 92)%Z then "\\"
  else if (n =? 10)%Z then "\n"
  else if (n =? 13)%Z then "\r"
  else if (n =? 9)%Z then "\t"
  else if (n =? 0)%Z then "\0"
  else if (n <? 16)%Z then "\u{" +:+ String (hex_digit n) "}"
  else if (n <? 32)%Z || (n =? 127)%Z then
    "\u{" +:+ String (hex_digit (n / 16)) (String (hex_digit (n mod 16)) "}")
  else String a "".

Fixpoint escape_str (s : string) : string :=
  match s with "" => "" | String a s' => escape_byte a +:+ escape_str s' end.

Definition quote : string := String "034"%char "".

Definition debug_str (s : string) : string := quote +:+ escape_str s +:+ quote.

Definition debug_list (l : list string) : string :=
  "[" +:+ join ", " (debug_str <$> l) +:+ "]".

(** ** Lemmas: appending *)

Lemma str_app_nil_r s : s +:+ "" = s.
Proof. induction s as [|a s IH]; simpl; [done|]. by rewrite IH. Qed.

Lemma str_app_assoc s t u : s +:+ (t +:+ u) = (s +:+ t) +:+ u.
Proof. induction s as [|a s IH]; simpl; [done|]. by rewrite IH. Qed.

Lemma str_length_app s t :
  String.length (s +:+ t) = String.length s + String.length t.
Proof. induction s; simpl; lia. Qed.

Lemma str_app_inj_l s t u : s +:+ t = s +:+ u → t = u.
Proof. induction s; intros; simplify_eq/=; auto. Qed.

Lemma str_cons_app a s : String a s = String a "" +:+ s.
Proof. done. Qed.

(** ** Lemmas: prefixes and suffixes *)

Lemma strip_prefix_Some p s r : strip_prefix p s = Some r ↔ s = p +:+ r.
Proof.
  revert s r. induction p as [|a p IH]; intros s r; simpl.
  - split; intros; by simplify_eq/=.
  - destruct s as [|b s]; [split; intros; simplify_eq/=|].
    case_decide; subst; [rewrite IH|]; split; intros; by simplify_eq/=.
Qed.

Lemma starts_with_spec p s : starts_with p s = true ↔ ∃ r, s = p +:+ r.
Proof.
  unfold starts_with. setoid_rewrite <-strip_prefix_Some.
  destruct (strip_prefix p s); naive_solver.
Qed.

Lemma strip_suffix_Some q s r : strip_suffix q s = Some r ↔ s = r +:+ q.
Proof.
  revert r. induction s as [|a s IH]; intros r; simpl; case_decide as Hq.
  - subst. split; intros H; simplify_eq/=; [done|].
    by destruct r; simplify_eq/=.
  - split; intros H; simplify_eq/=. by destruct r; simplify_eq/=.
  - subst. split; intros H; simplify_eq/=; [done|].
    apply (f_equal String.length) in H as Hl.
    rewrite str_length_app in Hl. simpl in Hl. destruct r; simpl in Hl; [done|lia].
  - split; intros H.
    + destruct (strip_suffix q s) as [r'|] eqn:Hs; simplify_eq/=.
      f_equal. by apply IH.
    + destruct r as [|b r]; simplify_eq/=. rewrite (proj2 (IH r)) by done. done.
Qed.

Lemma ends_with_spec q s : ends_with q s = true ↔ ∃ r, s = r +:+ q.
Proof.
  unfold ends_with. setoid_rewrite <-strip_suffix_Some.
  destruct (strip_suffix q s); naive_solver.
Qed.

(** ** Lemmas: splitting *)

Lemma contains_char_app c s t :
  contains_char c (s +:+ t) = contains_char c s || contains_char c t.
Proof. induction s; simpl; [done|]. by rewrite IHs, orb_assoc. Qed.

Lemma split_once_Some c s l r :
  split_once c s = Some (l, r) ↔
  s = l +:+ String c r ∧ contains_char c l = false.
Proof.
  revert l r. induction s as [|a s IH]; intros l r; simpl.
  - split; [done|]. intros [H _]. destruct l; simplify_eq/=.
  - case_decide as Ha; subst.
    + split.
      * intros H; simplify_eq/=. done.
      * intros [H Hc]. destruct l; simplify_eq/=; [done|].
        rewrite bool_decide_true in Hc by done. done.
    + rewrite fmap_Some. split.
      * intros ([l' r'] & (-> & Hc)%IH & ?). simplify_eq/=.
        split; [done|]. by rewrite bool_decide_false.
      * intros [H Hc]. destruct l as [|b l]; simplify_eq/=.
        rewrite bool_decide_false in Hc by done.
        exists (l, r). split; [by apply IH|done].
Qed.

Lemma split_once_None c s : split_once c s = None ↔ contains_char c s = false.
Proof.
  induction s as [|a s IH]; simpl; [done|]. case_decide; subst.
  - by rewrite bool_decide_true.
  - rewrite bool_decide_false, fmap_None by done. done.
Qed.

Lemma split_char_ne c s : split_char c s ≠ [].
Proof. induction s; simpl; [done|]. case_decide; [done|]. by destruct split_char. Qed.

(** Joining the pieces of a split restores the string. *)
Lemma join_split c s : join (String c "") (split_char c s) = s.
Proof.
  induction s as [|a s IH]; simpl; [done|].
  pose proof (split_char_ne c s) as Hne.
  case_decide; subst.
  - destruct (split_char c s) eqn:E; [done|]. simpl in *. by rewrite IH.
  - destruct (split_char c s) as [|w [|w' ws]] eqn:E; [done|..];
      simpl in *; by rewrite <-IH.
Qed.

Lemma split_char_no_sep c s : Forall (λ w, contains_char c w = false) (split_char c s).
Proof.
  induction s as [|a s IH]; simpl; [repeat constructor|].
  case_decide; subst; [by constructor|].
  pose proof (split_char_ne c s). destruct (split_char c s); [done|].
  apply Forall_cons in IH as [? ?]. constructor; [|done].
  simpl. by rewrite bool_decide_false.
Qed.

(** ** Lemmas: lowercasing *)

Lemma is_ascii_upper_lower a : is_ascii_upper (ascii_lower a) = false.
Proof. destruct a as [[] [] [] [] [] [] [] []]; vm_compute; done. Qed.

Lemma ascii_lower_idemp a : ascii_lower (ascii_lower a) = ascii_lower a.
Proof.
  unfold ascii_lower at 1. by rewrite is_ascii_upper_lower.
Qed.

Lemma to_ascii_lowercase_idemp s :
  to_ascii_lowercase (to_ascii_lowercase s) = to_ascii_lowercase s.
Proof.
  induction s as [|a s IH]; [done|]. unfold to_ascii_lowercase in *. simpl.
  by rewrite IH, ascii_lower_idemp.
Qed.

Lemma str_map_app f s t : str_map f (s +:+ t) = str_map f s +:+ str_map f t.
Proof. induction s as [|a s IH]; simpl; [done|]. by rewrite IH. Qed.

Lemma str_map_length f s : String.length (str_map f s) = String.length s.
Proof. induction s; simpl; auto. Qed.

Lemma str_forallb_app f s t :
  str_forallb f (s +:+ t) = str_forallb f s && str_forallb f t.
Proof. induction s; simpl; [done|]. by rewrite IHs, andb_assoc. Qed.

Lemma str_forallb_impl (f g : ascii → bool) s :
  (∀ a, f a = true → g a = true) → str_forallb f s = true → str_forallb g s = true.
Proof. intros H. induction s as [|a s IH]; [done|]. simpl. rewrite !andb_true_iff. intuition. Qed.

(** A byte whose class lowercasing does not change into [c]'s keeps [c]'s
    occurrences. *)
Lemma ascii_lower_eq c a :
  is_ascii_lower c = false → is_ascii_upper c = false →
  ascii_lower a = c ↔ a = c.
Proof.
  intros Hl Hu. split; intros H.
  - unfold ascii_lower in H. destruct (is_ascii_upper a) eqn:Ha; [|done].
    subst c. exfalso. revert Hl Ha. clear.
    destruct a as [[] [] [] [] [] [] [] []]; vm_compute; done.
  - subst. unfold ascii_lower. by rewrite Hu.
Qed.

(** ** Lemmas: decimal printing and parsing *)

Lemma small_N_cases d : (d < 10)%N → d ∈ [0;1;2;3;4;5;6;7;8;9]%N.
Proof. intros. apply list_elem_of_In. simpl. lia. Qed.

Lemma parse_digits_pretty_go max x s :
  (Z.of_N x ≤ max)%Z →
  parse_digits 10 max 0 (pretty_N_go x s) = parse_digits 10 max (Z.of_N x) s.
Proof.
  revert s. induction x as [x IH] using (well_founded_induction N.lt_wf_0); intros s Hx.
  destruct (decide (x = 0%N)) as [->|Hne]; [done|].
  rewrite pretty_N_go_step by lia.
  rewrite IH; [|apply N.div_lt; lia|].
  2:{ rewrite N2Z.inj_div. etrans; [apply Z.div_le_upper_bound with (q := Z.of_N x); lia|done]. }
  assert (∀ d, (d < 10)%N → to_digit 10 (pretty_N_char d) = Some (Z.of_N d)) as Hd.
  { intros d Hin%small_N_cases.
    repeat (apply elem_of_cons in Hin as [->|Hin]; [reflexivity|]). inversion Hin. }
  assert ((x `mod` 10 < 10)%N) as Hm by (apply N.mod_lt; lia).
  simpl. rewrite (Hd _ Hm). rewrite N2Z.inj_div, N2Z.inj_mod. simpl.
  pose proof (Z.div_mod (Z.of_N x) 10 ltac:(lia)) as Hdm.
  pose proof (Z.mod_pos_bound (Z.of_N x) 10 ltac:(lia)).
  replace (Z.of_N x / 10 * 10 + Z.of_N x `mod` 10)%Z with (Z.of_N x) by lia.
  assert ((Z.of_N x / 10 * 10 <=? max)%Z = true) as -> by (apply Z.leb_le; lia).
  assert ((Z.of_N x <=? max)%Z = true) as -> by (apply Z.leb_le; lia). done.
Qed.

Lemma pretty_go_digits x s :
  str_forallb is_ascii_digit s = true →
  str_forallb is_ascii_digit (pretty_N_go x s) = true.
Proof.
  revert s. induction x as [x IH] using (well_founded_induction N.lt_wf_0); intros s Hs.
  destruct (decide (x = 0%N)) as [->|Hne]; [done|].
  rewrite pretty_N_go_step by lia. apply IH; [apply N.div_lt; lia|].
  simpl. apply andb_true_iff. split; [|done].
  pose proof (small_N_cases (x `mod` 10)%N (N.mod_lt x 10 ltac:(lia))) as Hin.
  revert Hin. generalize (x `mod` 10)%N. intros d Hin.
  repeat (apply elem_of_cons in Hin as [->|Hin]; [reflexivity|]). inversion Hin.
Qed.

Lemma pretty_go_nonempty x s : s ≠ "" → pretty_N_go x s ≠ "".
Proof.
  revert s. induction x as [x IH] using (well_founded_induction N.lt_wf_0); intros s Hs.
  destruct (decide (x = 0%N)) as [->|Hne]; [done|].
  rewrite pretty_N_go_step by lia. apply IH; [apply N.div_lt; lia|done].
Qed.

Lemma display_uint_digits z : str_forallb is_ascii_digit (display_uint z) = true.
Proof.
  unfold display_uint, pretty, pretty_N. case_decide; [done|]. by apply pretty_go_digits.
Qed.

Lemma display_uint_nonempty z : display_uint z ≠ "".
Proof.
  unfold display_uint, pretty, pretty_N. case_decide as Hz; [done|].
  rewrite pretty_N_go_step by lia. by apply pretty_go_nonempty.
Qed.

Lemma from_str_radix_digits radix max s :
  s ≠ "" → str_forallb is_ascii_digit s = true →
  from_str_radix radix max s = parse_digits radix max 0 s.
Proof.
  intros Hne Hd. destruct s as [|a s]; [done|]. simpl in Hd.
  apply andb_true_iff in Hd as [Ha _]. unfold from_str_radix.
  destruct s; case_decide as H; try done.
  - by destruct H as [-> | ->].
  - by subst.
Qed.

(** Printing then parsing an unsigned integer that fits gives it back. *)
Lemma parse_display max z :
  (0 ≤ z ≤ max)%Z → from_str_radix 10 max (display_uint z) = Ok z.
Proof.
  intros Hz. rewrite from_str_radix_digits
    by (apply display_uint_nonempty || apply display_uint_digits).
  unfold display_uint, pretty, pretty_N. case_decide as H0.
  - assert (z = 0)%Z as -> by lia. cbn [parse_digits].
    change (to_digit 10 "0"%char) with (Some 0%Z). cbn iota.
    by rewrite (proj2 (Z.leb_le (0 * 10) max)), (proj2 (Z.leb_le (0 * 10 + 0) max)) by lia.
  - rewrite parse_digits_pretty_go by lia. simpl. by rewrite Z2N.id by lia.
Qed.

Lemma parse_digits_range radix max acc s v :
  (0 ≤ radix)%Z → (0 ≤ acc ≤ max)%Z → parse_digits radix max acc s = Ok v → (0 ≤ v ≤ max)%Z.
Proof.
  intros Hr. revert acc. induction s as [|a s IH]; intros acc Hacc; simpl.
  { by intros [= <-]. }
  destruct (to_digit radix a) as [d|] eqn:Hd; [|done].
  assert (0 ≤ d)%Z.
  { revert Hd. unfold to_digit.
    unfold is_ascii_digit, is_ascii_lower, is_ascii_upper, in_range.
    repeat case_match; intros; simplify_eq; boolify; lia. }
  destruct (_ && _) eqn:E; [|done]. boolify. apply IH. nia.
Qed.

Lemma from_str_radix_range radix max s v :
  (0 ≤ radix)%Z → (0 ≤ max)%Z → from_str_radix radix max s = Ok v → (0 ≤ v ≤ max)%Z.
Proof.
  intros Hr Hm. unfold from_str_radix.
  assert (0 ≤ 0 ≤ max)%Z as H0 by lia.
  destruct s as [|a [|b s]]; [done|..]; case_decide; intros H'; try done;
    eauto using parse_digits_range.
Qed.

(** ** Splitting at a known separator *)

Lemma split_char_app c l r :
  contains_char c l = false → split_char c (l +:+ String c r) = l :: split_char c r.
Proof.
  induction l as [|a l IH]; simpl; intros H.
  - by rewrite decide_True.
  - apply orb_false_iff in H as [Ha%bool_decide_eq_false Hl].
    by rewrite decide_False, IH by done.
Qed.

Lemma split_char_single c l : contains_char c l = false → split_char c l = [l].
Proof.
  induction l as [|a l IH]; simpl; intros H; [done|].
  apply orb_false_iff in H as [Ha%bool_decide_eq_false Hl].
  by rewrite decide_False, IH by done.
Qed.

Lemma split_once_app c l r :
  contains_char c l = false → split_once c (l +:+ String c r) = Some (l, r).
Proof.
  induction l as [|a l IH]; simpl; intros H.
  - by rewrite decide_True.
  - apply orb_false_iff in H as [Ha%bool_decide_eq_false Hl].
    by rewrite decide_False, IH by done.
Qed.

(** Lines of finished lines without carriage returns. *)
Lemma str_lines_cons l rest :
  contains_char "010"%char l = false → str_lines (l +:+ String "010"%char rest) = strip_cr l :: str_lines rest.
Proof.
  intros Hl. unfold str_lines. rewrite split_char_app by done. pose proof (split_char_ne "010"%char rest).
  by destruct (split_char "010"%char rest).
Qed.

(** A valid prefix can be taken off. *)
Lemma utf8_valid_app s t : utf8_valid s = true → utf8_valid t = true → utf8_valid (s +:+ t) = true.
Proof.
  intros Hs Ht. remember (String.length s) as n eqn:En. assert (Hn : (String.length s ≤ n)%nat) by lia. clear En.
  revert s Hs Hn. induction n as [|n IH]; intros s Hs Hn; [by destruct s; simpl in *; [|lia]|].
  destruct s as [|a s1]; [done|]. simpl in *. destruct (is_ascii a); [apply IH; [done|lia]|].
  destruct s1 as [|b s2]; [done|]. simpl in *.
  destruct (in_range 194 223 a); [apply andb_true_iff in Hs as [-> Hs]; apply IH; [done|lia]|].
  destruct s2 as [|c s3]; [done|]. simpl in *.
  destruct (in_range 224 239 a); [apply andb_true_iff in Hs as [-> Hs]; apply IH; [done|lia]|].
  destruct s3 as [|d s4]; [done|]. simpl in *.
  destruct (in_range 240 244 a); [apply andb_true_iff in Hs as [-> Hs]; apply IH; [done|lia]|done].
Qed.
