(* ===== verification/RustNet.v ===== *)
(** * [str::parse::<Ipv6Addr>()]

    Rust's [core::net::parser]: a hand-written parser that consumes the whole
    input.  Each reader returns the rest of the input on success and restores
    it on failure. *)

From S2P Require Import Prelude RustStr.

#[local] Open Scope string_scope.

(** [read_number]'s loop with a digit limit. *)
Fixpoint read_digits (radix : Z) (fuel : nat) (acc : Z) (s : string) : option (Z * nat * string) :=
  match s with
  | String a s' =>
      match to_digit radix a with
      | Some d =>
          match fuel with
          | O => None
          | S fuel' =>
              match read_digits radix fuel' (acc * radix + d) s' with
              | Some (v, n, r) => Some (v, S n, r)
              | None => None
              end
          end
      | None => Some (acc, 0, s)
      end
  | "" => Some (acc, 0, "")
  end.

Definition read_number (radix : Z) (max_digits : nat) (max : Z) (allow_zero_prefix : bool)
    (s : string) : option (Z * string) :=
  match read_digits radix max_digits 0 s with
  | None => None
  | Some (v, n, r) =>
      if Nat.eqb n 0 then None
      else if negb allow_zero_prefix && starts_with "0" s && Nat.ltb 1 n then None
      else if (v <=? max)%Z then Some (v, r) else None
  end.

Definition read_given_char (c : ascii) (s : string) : option string :=
  match s with
  | String a s' => if decide (a = c) then Some s' else None
  | "" => None
  end.

(** [read_separator]: the separator precedes every element but the first. *)
Definition read_separator {A} (sep : ascii) (index : nat)
    (inner : string → option (A * string)) (s : string) : option (A * string) :=
  if Nat.ltb 0 index
  then match read_given_char sep s with Some s' => inner s' | None => None end
  else inner s.

Fixpoint read_ipv4_groups (index : nat) (left : nat) (s : string) : option (unit * string) :=
  match left with
  | O => Some (tt, s)
  | S left' =>
      match read_separator "."%char index (read_number 10 3 255 false) s with
      | Some (_, s') => read_ipv4_groups (S index) left' s'
      | None => None
      end
  end.
Definition read_ipv4_addr : string → option (unit * string) := read_ipv4_groups 0 4.

(** [read_groups]: the number of 16-bit groups read, whether the last two came
    from an embedded IPv4 address, and the rest of the input. *)
Fixpoint read_groups (i left : nat) (s : string) : nat * bool * string :=
  match left with
  | O => (i, false, s)
  | S left' =>
      match (if Nat.ltb 0 left' then read_separator ":"%char i read_ipv4_addr s else None) with
      | Some (_, s') => (i + 2, true, s')
      | None =>
          match read_separator ":"%char i (read_number 16 4 65535 true) s with
          | Some (_, s') => read_groups (S i) left' s'
          | None => (i, false, s)
          end
      end
  end.

Definition read_ipv6_addr (s : string) : option string :=
  let '(head_size, head_ipv4, s1) := read_groups 0 8 s in
  if Nat.eqb head_size 8 then Some s1
  else if head_ipv4 then None
  else match read_given_char ":"%char s1 with
       | None => None
       | Some s2 =>
           match read_given_char ":"%char s2 with
           | None => None
           | Some s3 => let '(_, _, s4) := read_groups 0 (8 - (head_size + 1)) s3 in Some s4
           end
       end.

(** [address.parse::<Ipv6Addr>().is_ok()]. *)
Definition parses_ipv6 (s : string) : bool :=
  match read_ipv6_addr s with Some "" => true | _ => false end.

Example parses_ipv6_examples :
  map parses_ipv6 ["::1"; "::"; "fe80::1"; "1:2:3:4:5:6:7:8"; "::ffff:1.2.3.4";
                   "1:2:3:4:5:6:7"; "1::2::3"; "12345::"; "::1.2.3.04"; ""]
  = [true; true; true; true; true; false; false; false; false; false].
Proof. vm_compute. reflexivity. Qed.
