(* ===== verification/ActionClasses.v ===== *)
(** * Canonical action classes

    [firma-core/src/action_class.rs]: the catalog, its wire names, parsing, and
    the Sidecar's registry view of it
    ([firma-sidecar/src/enforcement/registry.rs]). *)

From S2P Require Import Prelude.

#[local] Open Scope string_scope.

Module ActionClass.

Inductive ActionClass :=
| AccountPermissionChange
| BrowserPurchase
| CalendarCreate
| CalendarDelete
| CalendarRead
| CalendarUpdate
| CodeDestructive
| CodeMerge
| CodeRead
| CodeReviewRead
| CodeReviewSubmit
| CodeWrite
| CommunicationExternalDelete
| CommunicationExternalDraft
| CommunicationExternalFilter
| CommunicationExternalManage
| CommunicationExternalRead
| CommunicationExternalSend
| CommunicationInternalSend
| CredentialRead
| CredentialWrite
| CustomerRead
| CustomerWrite
| DocumentDelete
| DocumentRead
| DocumentSchemaWrite
| DocumentWrite
| FilesystemDelete
| FilesystemRead
| FilesystemWrite
| IssueRead
| IssueWrite
| MemoryCrossNamespaceRead
| MemoryCrossNamespaceWrite
| NotificationManage
| PaymentCancel
| PaymentCatalogWrite
| PaymentDispute
| PaymentMethodManage
| PaymentMethodSetup
| PaymentPayout
| PaymentPurchase
| PaymentRead
| PaymentRefund
| PaymentSubscription
| PaymentTax
| PaymentTransfer
| RepoAdmin
| RepoLifecycle
| SecurityAlertRead
| SystemExecute
| SystemInstall.

#[export] Instance action_class_eq_dec : EqDecision ActionClass.
Proof. solve_decision. Defined.

(** [ActionClass::ALL]. *)
Definition ALL : list ActionClass :=
  [AccountPermissionChange;
   BrowserPurchase;
   CalendarCreate;
   CalendarDelete;
   CalendarRead;
   CalendarUpdate;
   CodeDestructive;
   CodeMerge;
   CodeRead;
   CodeReviewRead;
   CodeReviewSubmit;
   CodeWrite;
   CommunicationExternalDelete;
   CommunicationExternalDraft;
   CommunicationExternalFilter;
   CommunicationExternalManage;
   CommunicationExternalRead;
   CommunicationExternalSend;
   CommunicationInternalSend;
   CredentialRead;
   CredentialWrite;
   CustomerRead;
   CustomerWrite;
   DocumentDelete;
   DocumentRead;
   DocumentSchemaWrite;
   DocumentWrite;
   FilesystemDelete;
   FilesystemRead;
   FilesystemWrite;
   IssueRead;
   IssueWrite;
   MemoryCrossNamespaceRead;
   MemoryCrossNamespaceWrite;
   NotificationManage;
   PaymentCancel;
   PaymentCatalogWrite;
   PaymentDispute;
   PaymentMethodManage;
   PaymentMethodSetup;
   PaymentPayout;
   PaymentPurchase;
   PaymentRead;
   PaymentRefund;
   PaymentSubscription;
   PaymentTax;
   PaymentTransfer;
   RepoAdmin;
   RepoLifecycle;
   SecurityAlertRead;
   SystemExecute;
   SystemInstall].

(** [ActionClass::as_str]. *)
Definition as_str (c : ActionClass) : string :=
  match c with
  | AccountPermissionChange => "account.permission.change"
  | BrowserPurchase => "browser.purchase"
  | CalendarCreate => "calendar.create"
  | CalendarDelete => "calendar.delete"
  | CalendarRead => "calendar.read"
  | CalendarUpdate => "calendar.update"
  | CodeDestructive => "code.destructive"
  | CodeMerge => "code.merge"
  | CodeRead => "code.read"
  | CodeReviewRead => "code.review.read"
  | CodeReviewSubmit => "code.review.submit"
  | CodeWrite => "code.write"
  | CommunicationExternalDelete => "communication.external.delete"
  | CommunicationExternalDraft => "communication.external.draft"
  | CommunicationExternalFilter => "communication.external.filter"
  | CommunicationExternalManage => "communication.external.manage"
  | CommunicationExternalRead => "communication.external.read"
  | CommunicationExternalSend => "communication.external.send"
  | CommunicationInternalSend => "communication.internal.send"
  | CredentialRead => "credential.read"
  | CredentialWrite => "credential.write"
  | CustomerRead => "customer.read"
  | CustomerWrite => "customer.write"
  | DocumentDelete => "document.delete"
  | DocumentRead => "document.read"
  | DocumentSchemaWrite => "document.schema.write"
  | DocumentWrite => "document.write"
  | FilesystemDelete => "filesystem.delete"
  | FilesystemRead => "filesystem.read"
  | FilesystemWrite => "filesystem.write"
  | IssueRead => "issue.read"
  | IssueWrite => "issue.write"
  | MemoryCrossNamespaceRead => "memory.cross_namespace.read"
  | MemoryCrossNamespaceWrite => "memory.cross_namespace.write"
  | NotificationManage => "notification.manage"
  | PaymentCancel => "payment.cancel"
  | PaymentCatalogWrite => "payment.catalog.write"
  | PaymentDispute => "payment.dispute"
  | PaymentMethodManage => "payment.method.manage"
  | PaymentMethodSetup => "payment.method.setup"
  | PaymentPayout => "payment.payout"
  | PaymentPurchase => "payment.purchase"
  | PaymentRead => "payment.read"
  | PaymentRefund => "payment.refund"
  | PaymentSubscription => "payment.subscription"
  | PaymentTax => "payment.tax"
  | PaymentTransfer => "payment.transfer"
  | RepoAdmin => "repo.admin"
  | RepoLifecycle => "repo.lifecycle"
  | SecurityAlertRead => "security.alert.read"
  | SystemExecute => "system.execute"
  | SystemInstall => "system.install"
  end.

(** [UnknownActionClass]. *)
Record UnknownActionClass := { unknown_name : string }.

(** [<ActionClass as FromStr>::from_str]: the arms of the match in order. *)
Definition from_str (s : string) : Result ActionClass UnknownActionClass :=
  if String.eqb s "account.permission.change" then Ok AccountPermissionChange else
  if String.eqb s "browser.purchase" then Ok BrowserPurchase else
  if String.eqb s "calendar.create" then Ok CalendarCreate else
  if String.eqb s "calendar.delete" then Ok CalendarDelete else
  if String.eqb s "calendar.read" then Ok CalendarRead else
  if String.eqb s "calendar.update" then Ok CalendarUpdate else
  if String.eqb s "code.destructive" then Ok CodeDestructive else
  if String.eqb s "code.merge" then Ok CodeMerge else
  if String.eqb s "code.read" then Ok CodeRead else
  if String.eqb s "code.review.read" then Ok CodeReviewRead else
  if String.eqb s "code.review.submit" then Ok CodeReviewSubmit else
  if String.eqb s "code.write" then Ok CodeWrite else
  if String.eqb s "communication.external.delete" then Ok CommunicationExternalDelete else
  if String.eqb s "communication.external.draft" then Ok CommunicationExternalDraft else
  if String.eqb s "communication.external.filter" then Ok CommunicationExternalFilter else
  if String.eqb s "communication.external.manage" then Ok CommunicationExternalManage else
  if String.eqb s "communication.external.read" then Ok CommunicationExternalRead else
  if String.eqb s "communication.external.send" then Ok CommunicationExternalSend else
  if String.eqb s "communication.internal.send" then Ok CommunicationInternalSend else
  if String.eqb s "credential.read" then Ok CredentialRead else
  if String.eqb s "credential.write" then Ok CredentialWrite else
  if String.eqb s "customer.read" then Ok CustomerRead else
  if String.eqb s "customer.write" then Ok CustomerWrite else
  if String.eqb s "document.delete" then Ok DocumentDelete else
  if String.eqb s "document.read" then Ok DocumentRead else
  if String.eqb s "document.schema.write" then Ok DocumentSchemaWrite else
  if String.eqb s "document.write" then Ok DocumentWrite else
  if String.eqb s "filesystem.delete" then Ok FilesystemDelete else
  if String.eqb s "filesystem.read" then Ok FilesystemRead else
  if String.eqb s "filesystem.write" then Ok FilesystemWrite else
  if String.eqb s "issue.read" then Ok IssueRead else
  if String.eqb s "issue.write" then Ok IssueWrite else
  if String.eqb s "memory.cross_namespace.read" then Ok MemoryCrossNamespaceRead else
  if String.eqb s "memory.cross_namespace.write" then Ok MemoryCrossNamespaceWrite else
  if String.eqb s "notification.manage" then Ok NotificationManage else
  if String.eqb s "payment.cancel" then Ok PaymentCancel else
  if String.eqb s "payment.catalog.write" then Ok PaymentCatalogWrite else
  if String.eqb s "payment.dispute" then Ok PaymentDispute else
  if String.eqb s "payment.method.manage" then Ok PaymentMethodManage else
  if String.eqb s "payment.method.setup" then Ok PaymentMethodSetup else
  if String.eqb s "payment.payout" then Ok PaymentPayout else
  if String.eqb s "payment.purchase" then Ok PaymentPurchase else
  if String.eqb s "payment.read" then Ok PaymentRead else
  if String.eqb s "payment.refund" then Ok PaymentRefund else
  if String.eqb s "payment.subscription" then Ok PaymentSubscription else
  if String.eqb s "payment.tax" then Ok PaymentTax else
  if String.eqb s "payment.transfer" then Ok PaymentTransfer else
  if String.eqb s "repo.admin" then Ok RepoAdmin else
  if String.eqb s "repo.lifecycle" then Ok RepoLifecycle else
  if String.eqb s "security.alert.read" then Ok SecurityAlertRead else
  if String.eqb s "system.execute" then Ok SystemExecute else
  if String.eqb s "system.install" then Ok SystemInstall else
  Err {| unknown_name := s |}.

(** [<ActionClass as Display>::fmt]. *)
Definition to_string : ActionClass → string := as_str.

(** [<ActionClass as Ord>::cmp]: by wire name. *)
Definition cmp (a b : ActionClass) : comparison := String.compare (as_str a) (as_str b).

Lemma from_str_as_str c : from_str (as_str c) = Ok c.
Proof. destruct c; vm_compute; reflexivity. Qed.

Lemma from_str_sound s c : from_str s = Ok c → as_str c = s.
Proof.
  unfold from_str.
  repeat (match goal with
          | |- (if String.eqb ?s ?lit then _ else _) = _ → _ =>
              destruct (String.eqb s lit) eqn:?Hs;
              [intros [= <-]; by apply String.eqb_eq in Hs|clear Hs]
          end).
  done.
Qed.

Lemma as_str_inj : Inj (=) (=) as_str.
Proof.
  intros a b H. pose proof (from_str_as_str a) as Ha.
  rewrite H, from_str_as_str in Ha. by injection Ha.
Qed.

Lemma ALL_complete c : c ∈ ALL.
Proof. apply list_elem_of_In. destruct c; vm_compute; tauto. Qed.

Lemma ALL_NoDup : NoDup ALL.
Proof. apply (bool_decide_unpack _). vm_compute. exact I. Qed.

Lemma from_str_err s e :
  from_str s = Err e → unknown_name e = s ∧ s ∉ (as_str <$> ALL).
Proof.
  intros H. split.
  - revert H. unfold from_str.
    repeat (match goal with
            | |- (if ?b then _ else _) = _ → _ => destruct b; [done|]
            end).
    by intros [= <-].
  - intros (c & -> & _)%list_elem_of_fmap. by rewrite from_str_as_str in H.
Qed.

(** [Ord] is consistent with [Eq]: two classes compare equal only when they are
    the same. *)
Lemma cmp_eq a b : cmp a b = Eq ↔ a = b.
Proof.
  unfold cmp. split.
  - intros H%String.compare_eq_iff. by apply as_str_inj.
  - intros ->. pose proof (String.compare_antisym (as_str b) (as_str b)) as H.
    by destruct (String.compare _ _).
Qed.

End ActionClass.

(** ** The Sidecar's registry view *)

Module Registry.
Import ActionClass.

Record ActionClassRegistry := { classes : list ActionClass }.

(** [ActionClassRegistry::v0_1]. *)
Definition v0_1 : ActionClassRegistry := {| classes := ALL |}.

(** [ActionClassRegistry::contains]. *)
Definition contains (r : ActionClassRegistry) (name : string) : bool :=
  match from_str name with
  | Ok c => bool_decide (c ∈ classes r)
  | Err _ => false
  end.

Lemma contains_v0_1 name : contains v0_1 name = true ↔ ∃ c, name = as_str c.
Proof.
  unfold contains. split.
  - destruct (from_str name) as [c|] eqn:H; [|done]. intros _.
    exists c. by apply from_str_sound in H.
  - intros [c ->]. rewrite from_str_as_str. apply bool_decide_eq_true.
    apply ALL_complete.
Qed.

(** The action-class registry and the wire names agree: parsing inverts
    printing, a string parses to a class exactly when it is that class's name,
    and the registry contains exactly the names of the classes; a string that
    is not a name is an error that carries it. *)
Theorem action_class_roundtrip s :
  (∀ c, from_str (as_str c) = Ok c) ∧
  (contains v0_1 s = true ↔ ∃ c, s = as_str c) ∧
  match from_str s with
  | Ok c => as_str c = s ∧ c ∈ ALL
  | Err e => unknown_name e = s ∧ contains v0_1 s = false
  end.
Proof.
  split_and!; [apply from_str_as_str|apply contains_v0_1|].
  destruct (from_str s) as [c|e] eqn:E; [auto using from_str_sound, ALL_complete|].
  split; [by apply from_str_err in E as [? _]|]. unfold contains. by rewrite E.
Qed.

End Registry.
