(* ===== verification/Core.v ===== *)
(** * Protocol types of [firma-core]

    Identifiers ([firma-identifiers]), capability claims ([token/mod.rs]), deny
    and abort reasons and AARM remediation directives ([decision.rs]), the
    execution envelope ([envelope.rs]) and injected credentials
    ([credential.rs]).

    An [AgentId] or [TokenId] is its canonical [Display] string; a
    [DateTime<Utc>] is its nanoseconds since the epoch; a [Duration] its
    nanoseconds.  The [http] crate is the parameter [HttpCrate]. *)

From Stdlib Require Import SpecFloat.
From S2P Require Import Prelude RustStr ActionClasses.

#[local] Open Scope string_scope.

(** ** The [http] crate

    An [http::Method] is its token, an [http::uri::Authority] its text, a
    [HeaderName] its lower-case text. *)

Class HttpCrate := {
  HeaderMap : Type;
  hm_iter : HeaderMap → list (string * string);
  (** [HeaderMap::append] over an iterator *)
  hm_from_iter : list (string * string) → HeaderMap;
  (** [HeaderMap::remove] *)
  hm_remove : string → HeaderMap → HeaderMap;
  (** [HeaderName::from_bytes]; the error is its [Display] *)
  header_name_from_bytes : string → Result string string;
  (** [Authority::from_str]; the error is its [Display] *)
  authority_from_str : string → Result string string;
}.

(** The documented behaviour of [http] the code relies on. *)
Class HttpCrateLaws (H : HttpCrate) := {
  hm_from_iter_elem : ∀ l kv, kv ∈ hm_iter (hm_from_iter l) ↔ kv ∈ l;
  hm_remove_elem : ∀ n m kv,
    kv ∈ hm_iter (hm_remove n m) ↔ kv ∈ hm_iter m ∧ fst kv ≠ n;
}.

Definition Method := string.
Definition Authority := string.

(** ** Identifiers *)

Definition AgentId := string.
Definition TokenId := string.

Inductive InvalidSessionIdError := SidEmpty | SidInvalidFormat.

Definition SessionId := string.

(** [SessionId::try_from(String)], also [from_str]. *)
Definition session_id_try_from (value : string) : Result SessionId InvalidSessionIdError :=
  if is_empty value then Err SidEmpty
  else if (128 <? Z.of_nat (String.length value))%Z ||
          negb (str_forallb (λ a, is_ascii_alphanumeric a || bool_decide (a = "-"%char)
                                  || bool_decide (a = "_"%char)) value)
  then Err SidInvalidFormat
  else Ok value.

(** ** Capability claims *)

Inductive TokenError :=
| ParseFailure (reason : string)
| SignatureInvalid (reason : string)
| Expired (token_id : TokenId)
| Revoked (token_id : TokenId)
| Malformed (reason : string).

(** [TokenError]'s [Display]. *)
Definition token_error_display (e : TokenError) : string :=
  match e with
  | ParseFailure r => "token parse failure: " +:+ r
  | SignatureInvalid r => "token signature invalid: " +:+ r
  | Expired t => "token expired: " +:+ t
  | Revoked t => "token revoked: " +:+ t
  | Malformed r => "token malformed: " +:+ r
  end.

Record CapabilityClaims := {
  token_id : TokenId;
  agent_id : AgentId;
  session_id : SessionId;
  action_set : list string;
  resource_scope : string;
  issued_at : Z;
  expiry : Z;
  context_hash : string;
}.

(** [CapabilitySeed]: the plain-string mirror of the claims written to disk. *)
Record CapabilitySeed := {
  seed_raw_token : string;
  seed_token_id : TokenId;
  seed_agent_id : string;
  seed_session_id : string;
  seed_action_set : list string;
  seed_resource_scope : string;
  seed_issued_at : Z;
  seed_expiry : Z;
  seed_context_hash : string;
}.

(** [CapabilitySeed::from_claims]. *)
Definition seed_from_claims (claims : CapabilityClaims) (raw_token : string) : CapabilitySeed :=
  {| seed_raw_token := raw_token;
     seed_token_id := token_id claims;
     seed_agent_id := agent_id claims;
     seed_session_id := session_id claims;
     seed_action_set := action_set claims;
     seed_resource_scope := resource_scope claims;
     seed_issued_at := issued_at claims;
     seed_expiry := expiry claims;
     seed_context_hash := context_hash claims |}.

(** [starts_with_plus_slash]: [zip] stops at the shorter side. *)
Fixpoint zip_all_eq (s t : string) : bool :=
  match s, t with
  | String a s', String b t' => bool_decide (a = b) && zip_all_eq s' t'
  | _, _ => true
  end.

Definition starts_with_plus_slash (resource scope : string) : bool :=
  Nat.ltb (String.length scope) (String.length resource) &&
  zip_all_eq resource (scope +:+ "/").

(** [matches_resource_scope]. *)
Definition matches_resource_scope (scope resource : string) : bool :=
  if bool_decide (scope = "*") then true
  else match strip_suffix "/*" scope with
       | Some prefix =>
           bool_decide (resource = prefix) || starts_with_plus_slash resource prefix
       | None => bool_decide (resource = scope) || starts_with_plus_slash resource scope
       end.

(** ** Deny and abort reasons *)

Inductive AbortReason :=
| ConnectorTimeoutA | ConnectorFailure | ConnectorInvalidRequestA
| CredentialInjectionFailedA | CredentialInjectionBlocked | BatchAtomicity.

(** [AbortReason::code]. *)
Definition abort_code (r : AbortReason) : string :=
  match r with
  | ConnectorTimeoutA => "CONNECTOR_TIMEOUT"
  | ConnectorFailure => "CONNECTOR_FAILURE"
  | ConnectorInvalidRequestA => "CONNECTOR_INVALID_REQUEST"
  | CredentialInjectionFailedA => "CREDENTIAL_INJECTION_FAILED"
  | CredentialInjectionBlocked => "CREDENTIAL_INJECTION_BLOCKED"
  | BatchAtomicity => "BATCH_ATOMICITY"
  end.

Inductive DenyReason :=
| TokenInvalid | TokenExpired | TokenRevoked | PolicyDenied | ScopeViolation
| ToolNotInScope | MalformedRequest | AuthorityUnavailable | PolicyBundleStale
| PolicyBundleNotReady | RevocationCacheNotReady | FailClosed | EnforcementTimeout
| CredentialInjectionFailed | ConnectorTimeout | ConnectorNetworkError
| ConnectorInvalidRequest | UnclassifiedIntent | TenantMismatch | LoopbackBlocked
| StepUpRequired | Deferred.

#[export] Instance deny_reason_eq_dec : EqDecision DenyReason.
Proof. solve_decision. Defined.
#[export] Instance abort_reason_eq_dec : EqDecision AbortReason.
Proof. solve_decision. Defined.

(** [DenyReason]'s [Display]. *)
Definition deny_reason_display (r : DenyReason) : string :=
  match r with
  | TokenInvalid => "token invalid"
  | TokenExpired => "token expired"
  | TokenRevoked => "token revoked"
  | PolicyDenied => "policy denied"
  | ScopeViolation => "scope violation"
  | ToolNotInScope => "tool not in scope"
  | MalformedRequest => "malformed request"
  | AuthorityUnavailable => "authority unavailable"
  | PolicyBundleStale => "policy bundle stale"
  | PolicyBundleNotReady => "policy bundle not ready"
  | RevocationCacheNotReady => "revocation cache not ready"
  | FailClosed => "fail closed"
  | EnforcementTimeout => "enforcement timeout"
  | CredentialInjectionFailed => "credential injection failed"
  | ConnectorTimeout => "connector timeout"
  | ConnectorNetworkError => "connector network error"
  | ConnectorInvalidRequest => "connector invalid request"
  | UnclassifiedIntent => "unclassified intent"
  | TenantMismatch => "tenant mismatch"
  | LoopbackBlocked => "loopback blocked"
  | StepUpRequired => "step up required"
  | Deferred => "deferred"
  end.

(** ** HTTP methods *)

Inductive HttpMethod := GET | POST | PUT | DELETE | PATCH | HEAD | OPTIONS | CONNECT.

#[export] Instance http_method_eq_dec : EqDecision HttpMethod.
Proof. solve_decision. Defined.

(** [HttpMethod::as_str]. *)
Definition http_method_as_str (m : HttpMethod) : string :=
  match m with
  | GET => "GET" | POST => "POST" | PUT => "PUT" | DELETE => "DELETE"
  | PATCH => "PATCH" | HEAD => "HEAD" | OPTIONS => "OPTIONS" | CONNECT => "CONNECT"
  end.

(** [<HttpMethod as FromStr>::from_str]; the error carries the input. *)
Definition http_method_from_str (s : string) : Result HttpMethod string :=
  if String.eqb s "GET" then Ok GET else
  if String.eqb s "POST" then Ok POST else
  if String.eqb s "PUT" then Ok PUT else
  if String.eqb s "DELETE" then Ok DELETE else
  if String.eqb s "PATCH" then Ok PATCH else
  if String.eqb s "HEAD" then Ok HEAD else
  if String.eqb s "OPTIONS" then Ok OPTIONS else
  if String.eqb s "CONNECT" then Ok CONNECT else Err s.

(** [HttpMethod::try_from(&Method)]: the same table on the method's token. *)
Definition http_method_try_from (m : Method) : Result HttpMethod Method :=
  http_method_from_str m.

Section WithHttp.
Context `{!HttpCrate}.

(** ** Execution envelope *)

Record HttpParams := {
  hp_method : HttpMethod;
  hp_headers : HeaderMap;
  hp_body : option string;
  hp_query : gmap string string;
}.

Record DbQueryParams := {
  query_name : string;
  bindings : gmap string string;
  db_name : string;
  read_only : bool;
}.

Record ToolUseParams := {
  tool_name : string;
  tool_input : gmap string string;
}.

Inductive ActionParams :=
| Http (p : HttpParams)
| DbQuery (p : DbQueryParams)
| ToolUse (p : ToolUseParams).

Record ExecutionIntent := {
  action_class : string;
  resource : gmap string string;
  params : ActionParams;
  raw_transport : string;
  raw_action_ref : string;
}.

(** [ExecutionIntent::resource_display]. *)
Definition resource_display (i : ExecutionIntent) : string :=
  default "" (resource i !! "host") +:+ default "" (resource i !! "path").

(** [ExecutionIntent::policy_resource_display]. *)
Definition policy_resource_display (i : ExecutionIntent) : string :=
  default (resource_display i) (resource i !! "policy_resource").

(** [ExecutionIntent::resource_map_from]. *)
Definition resource_map_from (host_path : string) : gmap string string :=
  let stripped :=
    default host_path
      (match strip_prefix "https://" host_path with
       | Some r => Some r
       | None => strip_prefix "http://" host_path
       end) in
  let '(host, path) :=
    match split_once "/"%char stripped with
    | Some (h, p) => (h, String "/"%char p)
    | None => (stripped, "")
    end in
  <["path" := path]> (<["host" := host]> ∅).

Record ExecutionMetadata := {
  md_session_id : SessionId;
  md_agent_id : AgentId;
  md_timestamp : Z;
  md_trace_id : option string;
  md_risk_score : option spec_float;
  md_thread_id : option string;
  md_parent_action_id : option string;
}.

Record ExecutionEnvelope := {
  env_intent : ExecutionIntent;
  capability : string;
  metadata : ExecutionMetadata;
  provenance : option string;
}.

(** [ExecutionEnvelope::new]. *)
Definition envelope_new (i : ExecutionIntent) (cap : string) (md : ExecutionMetadata)
    (prov : option string) : ExecutionEnvelope :=
  {| env_intent := i; capability := cap; metadata := md; provenance := prov |}.

(** ** AARM R4 remediation directives *)

Inductive ModificationError :=
| EmptyValue
| EmptyHeaderName
| InvalidHeaderName (raw : string) (source : string)
| UnknownKind (value : string)
| UnsupportedModificationTarget.

(** [ModificationError]'s [Display]. *)
Definition modification_error_display (e : ModificationError) : string :=
  match e with
  | EmptyValue => "modify annotation value must not be empty"
  | EmptyHeaderName => "redact_header: header name must not be empty"
  | InvalidHeaderName raw source => "invalid header name `" +:+ raw +:+ "`: " +:+ source
  | UnknownKind value =>
      "unknown @modify kind; expected `redact_header:<name>`, got: " +:+ debug_str value
  | UnsupportedModificationTarget =>
      "modification targets HTTP headers but the action is not HTTP"
  end.

Inductive ModificationSpec := RedactHeader (name : string).

Definition MODIFICATION_REDACT_HEADER : string := "redact_header:".

(** [ModificationSpec::parse]. *)
Definition modification_parse (annotation : string) : Result ModificationSpec ModificationError :=
  let value := trim annotation in
  if is_empty value then Err EmptyValue
  else match strip_prefix MODIFICATION_REDACT_HEADER value with
       | Some name =>
           let name := trim name in
           if is_empty name then Err EmptyHeaderName
           else let? header_name :=
                  map_err (InvalidHeaderName name) (header_name_from_bytes name) in
                Ok (RedactHeader header_name)
       | None => Err (UnknownKind value)
       end.

(** [ModificationSpec::apply]: the mutated envelope. *)
Definition modification_apply (m : ModificationSpec) (e : ExecutionEnvelope)
    : Result ExecutionEnvelope ModificationError :=
  match params (env_intent e) with
  | Http p =>
      match m with
      | RedactHeader name =>
          let i := env_intent e in
          Ok {| env_intent :=
                  {| action_class := action_class i; resource := resource i;
                     params := Http {| hp_method := hp_method p;
                                       hp_headers := hm_remove name (hp_headers p);
                                       hp_body := hp_body p; hp_query := hp_query p |};
                     raw_transport := raw_transport i; raw_action_ref := raw_action_ref i |};
                capability := capability e; metadata := metadata e;
                provenance := provenance e |}
      end
  | DbQuery _ | ToolUse _ => Err UnsupportedModificationTarget
  end.

(** [ModificationSpec]'s [Display]. *)
Definition modification_display (m : ModificationSpec) : string :=
  match m with RedactHeader name => "redacted_header:" +:+ name end.

(** [StepUpSpec] and [DeferDuration]: their constructors validate. *)
Record StepUpSpec := { challenge_text : string }.

Definition step_up_new (value : string) : Result StepUpSpec ModificationError :=
  if is_empty (trim value) then Err EmptyValue else Ok {| challenge_text := value |}.

Record DeferDuration := { defer_nanos : Z }.

Definition defer_new (duration : Z) : Result DeferDuration ModificationError :=
  if (duration =? 0)%Z then Err EmptyValue else Ok {| defer_nanos := duration |}.

(** ** Injected credentials *)

Record InjectedCredentials := { cred_headers : gmap string string }.

Definition credentials_empty : InjectedCredentials := {| cred_headers := ∅ |}.

Inductive CredentialInjectionError :=
| UnknownConnector (connector_id : string)
| FetchFailed (connector_id : string) (reason : string).

End WithHttp.

(** A concrete reading of [http], for evaluation: a header map is the list of
    its fields, any text is an authority. *)
Definition list_http : HttpCrate := {|
  HeaderMap := list (string * string);
  hm_iter := id;
  hm_from_iter := id;
  hm_remove n := filter (λ kv, kv.1 ≠ n);
  header_name_from_bytes s := Ok (to_ascii_lowercase s);
  authority_from_str s := Ok s;
|}.

Lemma list_http_laws : HttpCrateLaws list_http.
Proof. split; [done|]. intros n m kv. simpl. rewrite list_elem_of_filter. tauto. Qed.

(** ** Resource scopes *)

Lemma zip_all_eq_prefix t s :
  (String.length t ≤ String.length s)%nat →
  zip_all_eq s t = true ↔ ∃ r, s = t +:+ r.
Proof.
  revert s. induction t as [|b t IH]; intros s Hlen; simpl.
  - split; [|by destruct s]. intros _. by exists s.
  - destruct s as [|a s]; simpl in *; [lia|].
    rewrite andb_true_iff, bool_decide_eq_true, IH by lia.
    split; [intros [-> [r ->]]; by exists r|]. intros [r H]. simplify_eq. eauto.
Qed.

Lemma starts_with_plus_slash_spec resource scope :
  starts_with_plus_slash resource scope = true ↔
  ∃ r, resource = scope +:+ "/" +:+ r.
Proof.
  unfold starts_with_plus_slash.
  rewrite andb_true_iff, Nat.ltb_lt. split.
  - intros [Hlen Hz]. apply zip_all_eq_prefix in Hz as [r ->].
    + exists r. by rewrite str_app_assoc.
    + rewrite str_length_app. simpl. lia.
  - intros [r ->]. rewrite !str_length_app; simpl. split; [lia|].
    apply zip_all_eq_prefix; [rewrite !str_length_app; simpl; lia|].
    exists r. by rewrite <-str_app_assoc.
Qed.

(** The path or host a scope is rooted at: the scope without a final "/*". *)
Definition scope_base (scope : string) : string :=
  default scope (strip_suffix "/*" scope).

(** [base] covers itself and what lies below it, on a "/" boundary. *)
Definition covers (base resource : string) : Prop :=
  resource = base ∨ ∃ r, resource = base +:+ "/" +:+ r.

Lemma matches_resource_scope_iff scope resource :
  matches_resource_scope scope resource = true ↔
  scope = "*" ∨ covers (scope_base scope) resource.
Proof.
  unfold matches_resource_scope, scope_base, covers.
  case_bool_decide as Hs; [naive_solver|].
  destruct (strip_suffix "/*" scope); simpl;
    rewrite orb_true_iff, bool_decide_eq_true, starts_with_plus_slash_spec; naive_solver.
Qed.

(** A token's resource scope stops at a path boundary: it covers its base
    (the scope without a final slash and star) and what lies below it after a
    slash, and nothing else unless it is a lone star; a resource that continues
    the base with any other byte, a sibling host or path, is outside. *)
Theorem resource_scope_boundary scope resource :
  (matches_resource_scope scope resource = true ↔
     scope = "*" ∨ covers (scope_base scope) resource) ∧
  (∀ a rest, scope ≠ "*" → a ≠ "/"%char →
     matches_resource_scope scope (scope_base scope +:+ String a rest) = false).
Proof.
  split; [apply matches_resource_scope_iff|]. intros a rest Hs Ha. apply not_true_is_false.
  rewrite matches_resource_scope_iff. intros [?|[Heq|[r Heq]]]; [done| |].
  - apply (f_equal String.length) in Heq. rewrite str_length_app in Heq. simpl in Heq. lia.
  - apply str_app_inj_l in Heq. by injection Heq.
Qed.

(** ** HTTP methods and modifications *)

Lemma http_method_from_as m : http_method_from_str (http_method_as_str m) = Ok m.
Proof. by destruct m. Qed.

Lemma http_method_from_sound s m :
  http_method_from_str s = Ok m → http_method_as_str m = s.
Proof.
  unfold http_method_from_str.
  repeat (match goal with
          | |- (if String.eqb ?s ?lit then _ else _) = _ → _ =>
              destruct (String.eqb_spec s lit); [intros [= <-]; done|]
          end).
  done.
Qed.

Lemma deny_reason_display_inj : Inj (=) (=) deny_reason_display.
Proof. intros [] []; vm_compute; congruence. Qed.

Lemma abort_code_inj : Inj (=) (=) abort_code.
Proof. intros [] []; vm_compute; congruence. Qed.

Section Modification.
Context `{!HttpCrate} `{!HttpCrateLaws _}.

Definition http_headers (e : ExecutionEnvelope) : list (string * string) :=
  match params (env_intent e) with Http p => hm_iter (hp_headers p) | _ => [] end.

Lemma modification_apply_http m e e' :
  modification_apply m e = Ok e' →
  ∃ name, m = RedactHeader name ∧
  (∀ kv, kv ∈ http_headers e' ↔ kv ∈ http_headers e ∧ fst kv ≠ name) ∧
  action_class (env_intent e') = action_class (env_intent e) ∧
  resource (env_intent e') = resource (env_intent e) ∧
  capability e' = capability e ∧ metadata e' = metadata e ∧
  provenance e' = provenance e.
Proof.
  destruct m as [name]. unfold modification_apply, http_headers.
  destruct (params (env_intent e)); intros [= <-]. simpl.
  exists name. split_and!; try done. intros kv. apply hm_remove_elem.
Qed.

(** A modification does what the policy asked and nothing else: applied to
    an HTTP call it removes every header with the name and no other, leaving
    the action, the resource, the token, the metadata and the provenance as
    they are; any other kind of call is an error, never an unmodified call. *)
Theorem modification_apply_exact name e :
  match modification_apply (RedactHeader name) e with
  | Ok e' =>
      (∀ kv, kv ∈ http_headers e' ↔ kv ∈ http_headers e ∧ fst kv ≠ name) ∧
      action_class (env_intent e') = action_class (env_intent e) ∧
      resource (env_intent e') = resource (env_intent e) ∧
      capability e' = capability e ∧ metadata e' = metadata e ∧
      provenance e' = provenance e
  | Err _ => ∀ p, params (env_intent e) ≠ Http p
  end.
Proof.
  destruct (modification_apply (RedactHeader name) e) as [e'|err] eqn:E.
  - by apply modification_apply_http in E as (n & [= <-] & Happ).
  - intros p Hp. unfold modification_apply in E. by rewrite Hp in E.
Qed.

End Modification.

(** ** Samples *)

Module Samples.
#[local] Existing Instances list_http list_http_laws.

Definition sample_call : ExecutionEnvelope :=
  envelope_new
    {| action_class := "code.read"; resource := resource_map_from "h/p";
       params := Http {| hp_method := GET; hp_headers := [("x-token", "s"); ("accept", "x")];
                         hp_body := None; hp_query := ∅ |};
       raw_transport := "https"; raw_action_ref := "GET /p" |} "raw"
    {| md_session_id := "s"; md_agent_id := "a"; md_timestamp := 0; md_trace_id := None;
       md_risk_score := None; md_thread_id := None; md_parent_action_id := None |} None.

Lemma modification_apply_exact_witness :
  ∃ e', modification_apply (RedactHeader "x-token") sample_call = Ok e' ∧
    (("x-token", "s") ∉ http_headers e').
Proof.
  pose proof (modification_apply_exact "x-token" sample_call) as H.
  destruct (modification_apply (RedactHeader "x-token") sample_call) as [e'|] eqn:E;
    [|vm_compute in E; discriminate].
  exists e'. split; [reflexivity|]. destruct H as [H _]. rewrite H. intros [_ Hn].
  apply Hn. reflexivity.
Defined.
End Samples.
