(* ===== verification/Mapping.v ===== *)
(** * Mapping patterns: matching, ordering and host normalisation

    [firma-core/src/mapping.rs]: the glob matcher and the overlap test of two
    globs, the authority splitter behind every host comparison, rule
    specificity, and the validation of authored and managed rules. *)

From S2P Require Import Prelude RustStr RustNet ActionClasses Core.

#[local] Open Scope string_scope.

Definition star : ascii := "*"%char.

(** ** Glob matching *)

Definition str_bytes : string → list ascii := String.list_ascii_of_string.

(** The '*' pass: a running "or" over the reachable positions. *)
Fixpoint star_pass (seen : bool) (reachable : list bool) : list bool :=
  match reachable with
  | [] => []
  | p :: rest => let seen := seen || p in seen :: star_pass seen rest
  end.

(** The literal pass: [for index in (1..=value.len()).rev()], in place. *)
Fixpoint literal_pass (token : ascii) (value : list ascii) (index : nat)
    (reachable : list bool) : list bool :=
  match index with
  | O => reachable
  | S i =>
      literal_pass token value i
        (<[S i := default false (reachable !! i) &&
                  bool_decide (value !! i = Some token)]> reachable)
  end.

Definition glob_step (value : list ascii) (reachable : list bool) (token : ascii) : list bool :=
  if decide (token = star) then star_pass false reachable
  else <[0 := false]> (literal_pass token value (length value) reachable).

(** [glob_match]. *)
Definition glob_match (pattern value : string) : bool :=
  if bool_decide (pattern = "*") then true
  else if negb (contains_char star pattern) then bool_decide (pattern = value)
  else
    let value := str_bytes value in
    let reachable := true :: replicate (length value) false in
    let reachable := foldl (glob_step value) reachable (str_bytes pattern) in
    default false (reachable !! length value).

(** ** Overlap of two globs: a breadth-first search over pairs of positions *)

Definition token_at (l : list ascii) (i : nat) : option ascii := l !! i.

Definition overlap_successors (left right : list ascii) (st : nat * nat) : list (nat * nat) :=
  let '(i, j) := st in
  let lt := token_at left i in
  let rt := token_at right j in
  (if decide (lt = Some star) then [(S i, j)] else []) ++
  (if decide (rt = Some star) then [(i, S j)] else []) ++
  match lt, rt with
  | Some a, Some b =>
      if decide (a = star) then
        if decide (b = star) then [(i, j)] else [(i, S j)]
      else if decide (b = star) then [(S i, j)]
      else if decide (a = b) then [(S i, S j)] else []
  | _, _ => []
  end.

(** The loop of [glob_patterns_overlap]; [None] when the fuel runs out. *)
Fixpoint overlap_loop (fuel : nat) (left right : list ascii)
    (pending : list (nat * nat)) (visited : gset (nat * nat)) : option bool :=
  match fuel with
  | O => None
  | S fuel =>
      match pending with
      | [] => Some false
      | st :: pending =>
          if decide (st ∈ visited) then overlap_loop fuel left right pending visited
          else
            let visited := {[st]} ∪ visited in
            if decide (st = (length left, length right)) then Some true
            else overlap_loop fuel left right
                   (pending ++ overlap_successors left right st) visited
      end
  end.

(** Every state is expanded at most once and adds at most three entries. *)
Definition overlap_fuel (left right : list ascii) : nat :=
  2 + 4 * (S (length left) * S (length right)).

(** [glob_patterns_overlap]. *)
Definition glob_patterns_overlap (left right : string) : bool :=
  let left := str_bytes left in
  let right := str_bytes right in
  default false (overlap_loop (overlap_fuel left right) left right [(0, 0)] ∅).

(** ** Authorities *)

(** [is_valid_port]. *)
Definition is_valid_port (port : string) : bool :=
  negb (is_empty port) && str_forallb is_ascii_digit port.

(** [canonical_port]. *)
Definition canonical_port (port : string) : string :=
  match parse_u32 port with
  | Ok number => display_uint number
  | Err _ => port
  end.

(** [split_authority]. *)
Definition split_authority (host : string) : string * option string :=
  let lower := to_ascii_lowercase (trim_end_char "."%char host) in
  let '(name, port) :=
    match rsplit_once ":"%char lower with
    | Some (name, port) =>
        if negb (is_empty name) && negb (contains_char ":"%char name) && is_valid_port port
        then (name, Some port) else (lower, None)
    | None => (lower, None)
    end in
  (trim_end_char "."%char name, canonical_port <$> port).

(** [split_ipv6_authority]. *)
Definition split_ipv6_authority (host : string) : string * option string :=
  let lower := to_ascii_lowercase host in
  match split_once2 "]"%char ":"%char lower with
  | Some (name, port) =>
      if is_valid_port port then (name +:+ "]", Some (canonical_port port)) else (lower, None)
  | None => (lower, None)
  end.

(** [split_mapping_authority]. *)
Definition split_mapping_authority (authority : string) : string * option string :=
  let trimmed := trim authority in
  if starts_with "[" trimmed then split_ipv6_authority trimmed else split_authority trimmed.

(** [normalize_mapping_host]. *)
Definition normalize_mapping_host (host : string) : string :=
  let '(name, port) := split_mapping_authority host in
  match port with
  | None => name
  | Some port =>
      if bool_decide (port = "443") || bool_decide (port = "80") then name
      else name +:+ ":" +:+ port
  end.

(** [mapping_specificity]. *)
Definition mapping_specificity (has_method : bool) (host_pattern : string)
    (path_pattern : option string) : nat :=
  (if contains_char star host_pattern then 0 else 100) +
  (if has_method then 10 else 0) +
  match path_pattern with
  | Some path =>
      5 + length (filter (λ segment, segment ≠ "") (split_char "/"%char path)) +
      (if contains_char star path then 0 else 10)
  | None => 0
  end.

(** ** Validation of rules *)

Definition label_ok (label : string) : bool :=
  negb (is_empty label) && Nat.leb (String.length label) 63 &&
  negb (starts_with "-" label) && negb (ends_with "-" label) &&
  str_forallb (λ a, is_ascii_alphanumeric a || bool_decide (a = "-"%char) ||
                    bool_decide (a = star)) label.

(** [mapping_host_is_canonical]; it calls itself on the shorter name before a
    wildcard port. *)
Fixpoint host_is_canonical (fuel : nat) (host : string) : bool :=
  match fuel with
  | O => false
  | S fuel =>
      if is_empty host || negb (bool_decide (normalize_mapping_host host = host)) then false
      else
        let rest :=
          let '(name, port) := split_mapping_authority host in
          let bad_port :=
            match port with
            | None => false
            | Some port =>
                match parse_u16 port with Ok p => (p =? 0)%Z | Err _ => true end
            end in
          if bad_port then false
          else if bool_decide (name = "*") then true
          else match strip_prefix "[" name ≫= strip_suffix "]" with
               | Some address => parses_ipv6 address
               | None =>
                   Nat.leb (String.length name) 253 &&
                   forallb label_ok (split_char "."%char name)
               end in
        match rsplit_once ":"%char host with
        | Some (name, port) =>
            if contains_char star port then
              Nat.leb (String.length port) 5 &&
              str_forallb (λ a, is_ascii_digit a || bool_decide (a = star)) port &&
              (negb (contains_char ":"%char name) ||
               (starts_with "[" name && ends_with "]" name)) &&
              host_is_canonical fuel name
            else rest
        | None => rest
        end
  end.

Definition mapping_host_is_canonical (host : string) : bool :=
  host_is_canonical (S (String.length host)) host.

Inductive ManagedMappingRuleError := MHost | MMethod | MPath | MActionClass.

(** [validate_managed_rule]. *)
Definition validate_managed_rule (method : option string) (host : string)
    (path : option string) (action_class : string) : Result unit ManagedMappingRuleError :=
  if negb (mapping_host_is_canonical host) then Err MHost
  else if match method with
          | Some m => negb (is_ok (http_method_from_str m))
          | None => false
          end then Err MMethod
  else if match path with
          | Some p => is_empty p || Nat.ltb 4096 (String.length p) ||
                      contains_char "000"%char p
          | None => false
          end then Err MPath
  else if negb (is_ok (ActionClass.from_str action_class)) then Err MActionClass
  else Ok tt.

Definition contains_bracket (s : string) : bool :=
  contains_char "["%char s || contains_char "]"%char s.

(** The name before a valid port, or the whole text. *)
Definition name_before_port (s : string) : string :=
  match rsplit_once ":"%char s with
  | Some (name, port) => if is_valid_port port then name else s
  | None => s
  end.

(** [validate_authored_mapping_host]. *)
Definition validate_authored_mapping_host (host : string) : Result unit string :=
  let host := trim host in
  if is_empty host then Err "host must not be empty"
  else
    let malformed :=
      match strip_prefix "[" host with
      | None => contains_bracket host || Nat.ltb 1 (count_char ":"%char host)
      | Some bracketed =>
          match split_once "]"%char bracketed with
          | None => true
          | Some (name, suffix) =>
              is_empty name || contains_bracket name ||
              (negb (contains_char ":"%char name) && negb (contains_char star name)) ||
              (negb (is_empty suffix) &&
               match strip_prefix ":" suffix with
               | None => true
               | Some port =>
                   is_empty port || contains_char ":"%char port || contains_bracket port
               end)
          end
      end in
    if malformed then
      Err ("host pattern '" +:+ host +:+
           "' is not a valid authority; use at most one port suffix and bracket IPv6 literals")
    else
      let normalized := normalize_mapping_host host in
      if is_empty normalized || starts_with ":" normalized then
        Err ("host pattern '" +:+ host +:+
             "' normalizes to a host with an empty name and can never match")
      else if bool_decide (normalized = "*") && negb (bool_decide (host = "*")) then
        Err ("host pattern '" +:+ host +:+
             "' would normalize to the bare catch-all '*'; write '*' explicitly if that is intended")
      else
        let normalized_name := name_before_port normalized in
        let written_name := name_before_port (trim_end_char "."%char host) in
        if bool_decide (normalized_name = "*") && negb (bool_decide (written_name = "*")) then
          Err ("host pattern '" +:+ host +:+
               "' would normalize its name to the catch-all '*'; write the '*' explicitly if that is intended")
        else Ok tt.

Example normalize_examples :
  map normalize_mapping_host
    ["API.GitHub.COM."; "api.openai.com:443"; "host.:8443"; "[::1]:443"; "a:080"; "a:0443."; "::1"]
  = ["api.github.com"; "api.openai.com"; "host:8443"; "[::1]"; "a"; "a"; "::1"].
Proof. vm_compute. reflexivity. Qed.

Example glob_examples :
  (glob_match "*.example.com" "a.example.com", glob_match "/v1/*" "/v2/x",
   glob_match "a*b*c" "aXbYc", glob_patterns_overlap "a*" "*b", glob_patterns_overlap "a*" "b*")
  = (true, false, true, true, false).
Proof. vm_compute. reflexivity. Qed.
