(* ===== verification/MappingGlob.v ===== *)
(** * Correctness of the glob matcher and of the overlap test

    The dynamic-programming matcher of [glob_match] decides the declarative
    relation [globs]; the breadth-first search of [glob_patterns_overlap]
    always ends within its fuel and decides whether two patterns have a common
    match. *)

From S2P Require Import Prelude RustStr RustNet ActionClasses Core Mapping.

#[local] Open Scope nat_scope.

(** [globs p v]: the tokens [p] match the bytes [v]; '*' matches any run. *)
Inductive globs : list ascii → list ascii → Prop :=
| globs_nil : globs [] []
| globs_lit c p v : c ≠ star → globs p v → globs (c :: p) (c :: v)
| globs_star p w v : globs p v → globs (star :: p) (w ++ v).

#[export] Hint Constructors globs : firma.

Lemma globs_app p q v :
  globs (p ++ q) v ↔ ∃ v1 v2, v = v1 ++ v2 ∧ globs p v1 ∧ globs q v2.
Proof.
  split.
  - revert v. induction p as [|c p IH]; intros v H; simpl in *.
    + exists [], v. eauto with firma.
    + inversion H as [|c' p' v' Hc H'|p' w v' H']; subst.
      * destruct (IH _ H') as (v1 & v2 & -> & ? & ?).
        exists (c :: v1), v2. eauto with firma.
      * destruct (IH _ H') as (v1 & v2 & -> & ? & ?).
        exists (w ++ v1), v2. rewrite (assoc_L (++)). eauto with firma.
  - intros (v1 & v2 & -> & H1 & H2).
    induction H1; simpl; [done|..].
    + by constructor.
    + rewrite <-(assoc_L (++)). by constructor.
Qed.

Lemma globs_snoc_star p v :
  globs (p ++ [star]) v ↔ ∃ j, j ≤ length v ∧ globs p (take j v).
Proof.
  rewrite globs_app. split.
  - intros (v1 & v2 & -> & H & _). exists (length v1). rewrite length_app.
    split; [lia|]. by rewrite take_app_length.
  - intros (j & Hj & H). exists (take j v), (drop j v).
    rewrite take_drop. split_and!; try done.
    rewrite <-(app_nil_r (drop j v)). constructor. constructor.
Qed.

Lemma globs_snoc_lit p c v :
  c ≠ star → globs (p ++ [c]) v ↔ ∃ v', v = v' ++ [c] ∧ globs p v'.
Proof.
  intros Hc. rewrite globs_app. split.
  - intros (v1 & v2 & -> & H & H2). exists v1. split; [|done]. f_equal.
    inversion H2 as [|? ? ? ? H3|]; subst; [|done]. by inversion H3.
  - intros (v' & -> & H). exists v', [c]. eauto with firma.
Qed.

(** ** The two passes *)

Lemma star_pass_length seen r : length (star_pass seen r) = length r.
Proof. revert seen. induction r; intros; simpl; auto. Qed.

Lemma star_pass_lookup seen r i b :
  star_pass seen r !! i = Some b →
  b = true ↔ seen = true ∨ ∃ j, j ≤ i ∧ r !! j = Some true.
Proof.
  revert seen i. induction r as [|p r IH]; intros seen i; simpl; [done|].
  destruct i as [|i]; simpl.
  - intros [= <-]. rewrite orb_true_iff. split.
    + intros [|]; [by left|]. right. exists 0. subst. done.
    + intros [|(j & Hj & H)]; [by left|]. destruct j; [|lia]. simpl in H.
      right. congruence.
  - intros H%IH. rewrite H, orb_true_iff. split.
    + intros [[|]|(j & Hj & ?)]; [by left| |].
      * right. exists 0. subst. split; [lia|done].
      * right. exists (S j). split; [lia|done].
    + intros [|(j & Hj & Hl)]; [auto|]. destruct j as [|j]; simpl in Hl.
      * left. right. congruence.
      * right. exists j. split; [lia|done].
Qed.

Lemma literal_pass_length t v n r : length (literal_pass t v n r) = length r.
Proof.
  revert r. induction n as [|n IH]; intros r; simpl; [done|].
  by rewrite IH, length_insert.
Qed.

Lemma literal_pass_lookup t v n r i :
  n < length r →
  literal_pass t v n r !! i =
    if decide (1 ≤ i ≤ n)
    then Some (default false (r !! pred i) && bool_decide (v !! pred i = Some t))
    else r !! i.
Proof.
  revert r. induction n as [|n IH]; intros r Hn; simpl.
  { case_decide; [lia|done]. }
  rewrite IH by (rewrite length_insert; lia).
  destruct (decide (1 ≤ i ≤ n)), (decide (1 ≤ i ≤ S n)); try lia.
  - destruct i as [|i]; simpl; [lia|]. rewrite list_lookup_insert_ne by lia. done.
  - assert (i = S n) as -> by lia. by rewrite list_lookup_insert_eq by lia.
  - by rewrite list_lookup_insert_ne by lia.
Qed.

(** ** The invariant of the token loop *)

Definition reaches (v q : list ascii) (r : list bool) : Prop :=
  length r = S (length v) ∧
  ∀ i b, r !! i = Some b → b = true ↔ globs q (take i v).

Lemma reaches_init v : reaches v [] (true :: replicate (length v) false).
Proof.
  split; [simpl; by rewrite length_replicate|].
  intros [|i] b; simpl.
  - intros [= <-]. split; [intros _; constructor|done].
  - intros [-> Hi]%lookup_replicate. split; [done|].
    intros H. destruct v; simpl in *; [lia|inversion H].
Qed.

Lemma reaches_step v q r c :
  reaches v q r → reaches v (q ++ [c]) (glob_step v r c).
Proof.
  intros [Hlen Hr]. unfold glob_step. case_decide as Hc.
  - subst c. split; [by rewrite star_pass_length|].
    intros i b Hib. pose proof (lookup_lt_Some _ _ _ Hib) as Hi.
    rewrite star_pass_length in Hi.
    rewrite (star_pass_lookup _ _ _ _ Hib), globs_snoc_star.
    split.
    + intros [?|(j & Hj & Hrj)]; [done|]. exists j. rewrite length_take. split; [lia|].
      rewrite take_take, Nat.min_l by lia. by apply (Hr j true).
    + intros (j & Hj & Hg). right. exists j. rewrite length_take in Hj.
      split; [lia|]. rewrite take_take, Nat.min_l in Hg by lia.
      destruct (lookup_lt_is_Some_2 r j) as [b' Hb']; [lia|].
      rewrite Hb'. f_equal. by apply (Hr j b').
  - split; [by rewrite length_insert, literal_pass_length|].
    intros i b. destruct (decide (i = 0)) as [->|Hi0].
    + rewrite list_lookup_insert_eq by (rewrite literal_pass_length; lia).
      intros [= <-]. split; [done|]. intros (v' & Hv & _)%globs_snoc_lit; [|done].
      by destruct v'.
    + rewrite list_lookup_insert_ne, literal_pass_lookup by lia. case_decide as Hi.
      * intros [= <-]. destruct i as [|i]; [done|]. simpl.
        rewrite andb_true_iff, bool_decide_eq_true, globs_snoc_lit by done.
        destruct (lookup_lt_is_Some_2 r i) as [b' Hb']; [lia|]. rewrite Hb'. simpl.
        rewrite (Hr _ _ Hb'). split.
        -- intros [Hg Hv]. exists (take i v). split; [|done]. by apply take_S_r.
        -- intros (v' & Hv & Hg).
           destruct (lookup_lt_is_Some_2 v i) as [x Hx]; [lia|].
           rewrite (take_S_r _ _ x) in Hv by done. apply app_inj_tail in Hv as [<- ->].
           done.
      * intros Hl%lookup_lt_Some. lia.
Qed.

Lemma reaches_fold v p q r :
  reaches v q r → reaches v (q ++ p) (foldl (glob_step v) r p).
Proof.
  revert q r. induction p as [|c p IH]; intros q r H; simpl.
  - by rewrite app_nil_r.
  - rewrite cons_middle, (assoc_L (++)). apply IH. by apply reaches_step.
Qed.

Lemma contains_star_in s : contains_char star s = true ↔ star ∈ str_bytes s.
Proof.
  induction s as [|a s IH]; simpl; [split; [done|intros H; inversion H]|].
  rewrite orb_true_iff, bool_decide_eq_true, IH, elem_of_cons. naive_solver.
Qed.

Lemma globs_no_star p v : star ∉ p → globs p v ↔ p = v.
Proof.
  intros Hp. split.
  - intros H. induction H; [done| |by destruct Hp; left].
    f_equal. apply IHglobs. intros ?. apply Hp. by right.
  - intros <-. induction p as [|c p IH]; constructor.
    + intros ->. apply Hp. left.
    + apply IH. intros ?. apply Hp. by right.
Qed.

Lemma str_bytes_inj s t : str_bytes s = str_bytes t ↔ s = t.
Proof.
  split; [|by intros ->]. intros H.
  rewrite <-(String.string_of_list_ascii_of_string s),
          <-(String.string_of_list_ascii_of_string t). unfold str_bytes in H. by rewrite H.
Qed.

(** The matcher decides the relation, fast paths included. *)
Lemma glob_match_globs p v :
  glob_match p v = true ↔ globs (str_bytes p) (str_bytes v).
Proof.
  unfold glob_match. case_bool_decide as Hstar.
  { subst p. split; [|done]. intros _. simpl.
    rewrite <-(app_nil_r (str_bytes v)). by repeat constructor. }
  destruct (contains_char star p) eqn:Hc; simpl.
  - destruct (reaches_fold (str_bytes v) (str_bytes p) [] _ (reaches_init _)) as [Hl Hr].
    set (r := foldl _ _ _) in *.
    destruct (lookup_lt_is_Some_2 r (length (str_bytes v))) as [b Hb]; [lia|].
    rewrite Hb. simpl. rewrite (Hr _ _ Hb). by rewrite firstn_all.
  - rewrite bool_decide_eq_true, globs_no_star.
    + by rewrite str_bytes_inj.
    + intros H%contains_star_in. congruence.
Qed.

(** ** Overlap: the search graph *)

Section Overlap.
Context (left right : list ascii).

Definition accepting : nat * nat := (length left, length right).

Definition edge (s t : nat * nat) : Prop := t ∈ overlap_successors left right s.

(** The remaining patterns have a common match. *)
Definition joinable (s : nat * nat) : Prop :=
  ∃ v, globs (drop (fst s) left) v ∧ globs (drop (snd s) right) v.

Definition in_grid (s : nat * nat) : Prop :=
  fst s ≤ length left ∧ snd s ≤ length right.

Lemma drop_token (l : list ascii) i c : l !! i = Some c → drop i l = c :: drop (S i) l.
Proof. intros. by apply drop_S. Qed.

Lemma overlap_successors_length s : length (overlap_successors left right s) ≤ 3.
Proof.
  destruct s as [i j]. unfold overlap_successors.
  rewrite !length_app. repeat (case_decide || case_match); simpl; lia.
Qed.

Lemma edge_cases i j t :
  edge (i, j) t →
  (t = (S i, j) ∧ left !! i = Some star) ∨
  (t = (i, S j) ∧ right !! j = Some star) ∨
  (t = (i, j)) ∨
  (∃ b, t = (i, S j) ∧ left !! i = Some star ∧ right !! j = Some b ∧ b ≠ star) ∨
  (∃ a, t = (S i, j) ∧ right !! j = Some star ∧ left !! i = Some a ∧ a ≠ star) ∨
  (∃ a, t = (S i, S j) ∧ left !! i = Some a ∧ right !! j = Some a ∧ a ≠ star).
Proof.
  unfold edge, overlap_successors, token_at.
  rewrite !elem_of_app. intros [H|[H|H]].
  - case_decide; [|by apply not_elem_of_nil in H]. apply list_elem_of_singleton in H. auto.
  - case_decide; [|by apply not_elem_of_nil in H]. apply list_elem_of_singleton in H. auto.
  - destruct (left !! i) eqn:?, (right !! j) eqn:?;
      repeat case_decide; subst; try (by apply not_elem_of_nil in H);
      apply list_elem_of_singleton in H; naive_solver.
Qed.

Lemma edge_in_grid s t : in_grid s → edge s t → in_grid t.
Proof.
  destruct s as [i j]. unfold in_grid. intros [Hi Hj] H%edge_cases. simpl in *.
  destruct_or!; destruct_and?; try destruct H as (? & H); destruct_and?; subst; simpl;
    repeat match goal with
           | H : _ !! _ = Some _ |- _ => apply lookup_lt_Some in H
           end; lia.
Qed.

Lemma edge_joinable s t : edge s t → joinable t → joinable s.
Proof.
  destruct s as [i j]. intros H%edge_cases (v & Hl & Hr). unfold joinable. simpl.
  destruct H as [[-> H]|[[-> H]|[->|[(b & -> & H1 & H2 & Hb)|[(a & -> & H1 & H2 & Ha)|
    (a & -> & H1 & H2 & Ha)]]]]]; simpl in *.
  - exists v. rewrite (drop_token left i star) by done. split; [|done].
    by apply (globs_star _ []).
  - exists v. rewrite (drop_token right j star) by done. split; [done|].
    by apply (globs_star _ []).
  - by exists v.
  - exists (b :: v). rewrite (drop_token right j b) by done. split; [|by constructor].
    rewrite (drop_token left i star) in Hl |- * by done.
    inversion Hl as [|? ? ? ? |p w v' Hv]; subst; [done|]. by apply (globs_star _ (b :: w)).
  - exists (a :: v). rewrite (drop_token left i a) by done. split; [by constructor|].
    rewrite (drop_token right j star) in Hr |- * by done.
    inversion Hr as [|? ? ? ? |p w v' Hv]; subst; [done|]. by apply (globs_star _ (a :: w)).
  - exists (a :: v).
    rewrite (drop_token left i a), (drop_token right j a) by done. by split; constructor.
Qed.

Lemma edge_left_star i j : left !! i = Some star → edge (i, j) (S i, j).
Proof.
  intros H. unfold edge, overlap_successors, token_at. rewrite decide_True by done.
  rewrite elem_of_app. left. by apply list_elem_of_singleton.
Qed.

Lemma edge_right_star i j : right !! j = Some star → edge (i, j) (i, S j).
Proof.
  intros H. unfold edge, overlap_successors, token_at.
  rewrite (decide_True (P := right !! j = Some star)) by done.
  rewrite !elem_of_app. right. left. by apply list_elem_of_singleton.
Qed.

Lemma edge_tokens i j a b :
  left !! i = Some a → right !! j = Some b →
  (a = star → b ≠ star → edge (i, j) (i, S j)) ∧
  (a ≠ star → b = star → edge (i, j) (S i, j)) ∧
  (a ≠ star → a = b → edge (i, j) (S i, S j)).
Proof.
  intros Hl Hr. unfold edge, overlap_successors, token_at. rewrite Hl, Hr.
  split_and!; intros; subst; rewrite !elem_of_app; right; right;
    repeat case_decide; simplify_eq; by apply list_elem_of_singleton.
Qed.

(** From a joinable state one edge leads to a joinable state nearer the end. *)
Lemma joinable_progress i j :
  in_grid (i, j) → joinable (i, j) → (i, j) ≠ accepting →
  ∃ t, edge (i, j) t ∧ joinable t ∧ i + j < fst t + snd t.
Proof.
  intros [Hi Hj] (v & Hl & Hr) Hne. simpl in *.
  destruct (left !! i) as [a|] eqn:Ha; destruct (right !! j) as [b|] eqn:Hb.
  - destruct (edge_tokens i j a b Ha Hb) as (E1 & E2 & E3).
    pose proof (drop_token _ _ _ Ha) as Hda. pose proof (drop_token _ _ _ Hb) as Hdb.
    rewrite Hda in Hl. rewrite Hdb in Hr.
    inversion Hl as [|a' p v1 Hna Hl'|p w1 v1 Hl']; subst;
      inversion Hr as [|b' p' v2 Hnb Hr'|p' w2 v2 Hr']; subst.
    + exists (S i, S j). simpl. split_and!; [auto| |lia]. by exists v1.
    + destruct w2 as [|c w2]; simplify_eq/=.
      * exists (i, S j). simpl. split_and!; [by apply edge_right_star| |lia].
        exists (a :: v1). simpl. rewrite Hda. split; [by constructor|done].
      * exists (S i, j). simpl. split_and!; [auto| |lia].
        exists (w2 ++ v2). simpl. split; [done|]. rewrite Hdb. by constructor.
    + destruct w1 as [|c w1]; simplify_eq/=.
      * exists (S i, j). simpl. split_and!; [by apply edge_left_star| |lia].
        exists (b :: v2). simpl. rewrite Hdb. split; [done|by constructor].
      * exists (i, S j). simpl. split_and!; [auto| |lia].
        exists (w1 ++ v1). simpl. split; [|done]. rewrite Hda. by constructor.
    + match goal with H : w2 ++ v2 = w1 ++ v1 |- _ => rename H into E end.
      apply app_eq_inv in E as [(k & -> & ->)|(k & -> & ->)].
      * exists (S i, j). simpl. split_and!; [by apply edge_left_star| |lia].
        exists (k ++ v2). simpl. split; [done|]. rewrite Hdb. by constructor.
      * exists (i, S j). simpl. split_and!; [by apply edge_right_star| |lia].
        exists (k ++ v1). simpl. split; [|done]. rewrite Hda. by constructor.
  - rewrite (drop_token _ _ _ Ha) in Hl. apply lookup_ge_None in Hb.
    rewrite (drop_ge right j) in Hr by done. inversion Hr; subst.
    inversion Hl as [| |p w v1 Hl' E1 E2]; subst.
    apply app_eq_nil in E2 as [-> ->].
    exists (S i, j). simpl. split_and!; [by apply edge_left_star| |lia].
    exists []. simpl. split; [done|]. by rewrite drop_ge.
  - rewrite (drop_token _ _ _ Hb) in Hr. apply lookup_ge_None in Ha.
    rewrite (drop_ge left i) in Hl by done. inversion Hl; subst.
    inversion Hr as [| |p w v1 Hr' E1 E2]; subst.
    apply app_eq_nil in E2 as [-> ->].
    exists (i, S j). simpl. split_and!; [by apply edge_right_star| |lia].
    exists []. simpl. split; [|done]. by rewrite drop_ge.
  - apply lookup_ge_None in Ha, Hb. exfalso. apply Hne. unfold accepting. f_equal; lia.
Qed.

Lemma joinable_reach s : in_grid s → joinable s → rtc edge s accepting.
Proof.
  remember (length left + length right - (fst s + snd s)) as n eqn:Hn.
  revert s Hn. induction n as [n IH] using lt_wf_ind. intros [i j] Hn Hg Hjoin.
  destruct (decide ((i, j) = accepting)) as [->|Hne]; [done|].
  destruct (joinable_progress i j Hg Hjoin Hne) as (t & He & Ht & Hlt).
  apply rtc_l with t; [done|].
  pose proof (edge_in_grid _ _ Hg He) as Hgt. destruct Hgt as [? ?].
  eapply IH; [|reflexivity|by split|done]. simpl in *. destruct Hg; simpl in *. lia.
Qed.

Lemma reach_joinable s : rtc edge s accepting → joinable s.
Proof.
  intros H. remember accepting as f. induction H as [|s t f He _ IH]; subst.
  - exists []. unfold accepting. simpl. rewrite !drop_all. split; constructor.
  - eapply edge_joinable; [done|]. by apply IH.
Qed.

(** ** Overlap: the search *)

Definition grid : gset (nat * nat) :=
  list_to_set (i ← seq 0 (S (length left)); (λ j, (i, j)) <$> seq 0 (S (length right))).

Lemma elem_of_grid s : s ∈ grid ↔ in_grid s.
Proof.
  destruct s as [i j]. unfold grid, in_grid.
  rewrite elem_of_list_to_set, list_elem_of_bind. cbn [fst snd]. split.
  - intros (i' & (j' & [= <- <-] & Hj)%list_elem_of_fmap & Hi).
    apply elem_of_seq in Hi, Hj. lia.
  - intros [Hi Hj]. exists i. split.
    + apply list_elem_of_fmap. exists j. split; [done|]. apply elem_of_seq. lia.
    + apply elem_of_seq. lia.
Qed.

Lemma list_to_set_size_le (l : list (nat * nat)) :
  size (list_to_set l : gset (nat * nat)) ≤ length l.
Proof.
  induction l as [|x l IH]; [done|].
  cbn [list_to_set length]. rewrite size_union_alt, size_singleton.
  assert (size ((list_to_set l : gset (nat * nat)) ∖ {[x]}) ≤
          size (list_to_set l : gset (nat * nat))) by (apply subseteq_size; set_solver).
  lia.
Qed.

Lemma grid_size : size grid ≤ S (length left) * S (length right).
Proof.
  unfold grid. etrans; [apply list_to_set_size_le|].
  assert (∀ (m : list nat) n k,
    length (i ← seq k n; (λ j, (i, j)) <$> m) ≤ n * length m) as Hlen.
  { intros m n. induction n as [|n IH]; intros k; [simpl; lia|].
    rewrite <-cons_seq, bind_cons, length_app, length_fmap.
    specialize (IH (S k)). lia. }
  etrans; [apply Hlen|]. by rewrite length_seq.
Qed.

Lemma grid_shrinks (st : nat * nat) (V : gset (nat * nat)) :
  st ∈ grid → st ∉ V → size (grid ∖ ({[st]} ∪ V)) < size (grid ∖ V).
Proof.
  intros Hg HV. apply subset_size. split; [set_solver|].
  intros H. specialize (H st). rewrite !elem_of_difference in H. set_solver.
Qed.

(** What the loop knows: the accepting state has not been popped, visited
    states had their successors queued, and everything is reachable. *)
Definition search_inv (pending : list (nat * nat)) (visited : gset (nat * nat)) : Prop :=
  (accepting ∉ visited) ∧
  (∀ s t, s ∈ visited → edge s t → t ∈ visited ∨ t ∈ pending) ∧
  (∀ s, s ∈ visited ∨ s ∈ pending → rtc edge (0, 0) s) ∧
  ((0, 0) ∈ visited ∨ (0, 0) ∈ pending).

Lemma reach_grid s : rtc edge (0, 0) s → s ∈ grid.
Proof.
  intros H. apply elem_of_grid.
  assert (in_grid (0, 0)) as H0 by (split; simpl; lia). revert H0.
  induction H; [done|]. eauto using edge_in_grid.
Qed.

Lemma search_inv_closed visited :
  search_inv [] visited → ¬ rtc edge (0, 0) accepting.
Proof.
  intros (Ha & Hs & _ & H0) Hr. apply Ha.
  assert ((0, 0) ∈ visited) as Hv by (destruct H0 as [|H0]; [done|by apply not_elem_of_nil in H0]).
  clear H0 Ha. revert Hv. induction Hr as [|s t u He _ IH]; intros Hv; [done|].
  apply IH. destruct (Hs s t Hv He) as [|Ht]; [done|by apply not_elem_of_nil in Ht].
Qed.

Lemma search_inv_skip (st : nat * nat) pending visited :
  st ∈ visited → search_inv (st :: pending) visited → search_inv pending visited.
Proof. intros Hst (Ha & Hs & Hr & H0). unfold search_inv. set_solver. Qed.

Lemma search_inv_expand (st : nat * nat) pending visited :
  st ≠ accepting → search_inv (st :: pending) visited →
  search_inv (pending ++ overlap_successors left right st) ({[st]} ∪ visited).
Proof.
  intros Hst (Ha & Hs & Hr & H0). unfold search_inv. split_and!.
  - set_solver.
  - intros s t [->%elem_of_singleton|Hv]%elem_of_union He.
    + right. apply elem_of_app. by right.
    + destruct (Hs s t Hv He) as [|[->|]%elem_of_cons]; set_solver.
  - intros s [[->%elem_of_singleton|Hv]%elem_of_union|[Hp|He]%elem_of_app]; [set_solver..|].
    eapply rtc_r; [apply (Hr st); set_solver|done].
  - set_solver.
Qed.

Lemma overlap_loop_correct fuel pending visited :
  length pending + 4 * size (grid ∖ visited) < fuel →
  search_inv pending visited →
  ∃ b, overlap_loop fuel left right pending visited = Some b ∧
       (b = true ↔ rtc edge (0, 0) accepting).
Proof.
  revert pending visited. induction fuel as [|fuel IH]; intros pending visited Hf Hinv; [lia|].
  destruct pending as [|st pending]; simpl.
  { exists false. split; [done|]. split; [done|]. intros H. by apply search_inv_closed in Hinv. }
  case_decide as Hv.
  { apply IH; [simpl in *; lia|]. by eapply search_inv_skip. }
  assert (rtc edge (0, 0) st) as Hst by (destruct Hinv as (_ & _ & Hr & _); set_solver).
  case_decide as Hacc.
  { exists true. split; [done|]. subst. done. }
  apply IH; [|by apply search_inv_expand].
  pose proof (grid_shrinks st visited (reach_grid _ Hst) Hv).
  pose proof (overlap_successors_length st). rewrite length_app. simpl in Hf. lia.
Qed.

End Overlap.

Lemma glob_patterns_overlap_iff l r :
  glob_patterns_overlap l r = true ↔
  ∃ v, glob_match l v = true ∧ glob_match r v = true.
Proof.
  unfold glob_patterns_overlap.
  set (L := str_bytes l). set (R := str_bytes r).
  destruct (overlap_loop_correct L R (overlap_fuel L R) [(0, 0)] ∅) as (b & Hb & Hiff).
  - pose proof (grid_size L R) as Hs. unfold overlap_fuel. simpl length.
    rewrite difference_empty_L. lia.
  - split_and!; [set_solver| |set_solver|set_solver]. set_solver.
  - rewrite Hb. simpl. rewrite Hiff. split.
    + intros (v & Hl & Hr)%reach_joinable. simpl in *.
      exists (String.string_of_list_ascii v).
      by rewrite !glob_match_globs; unfold str_bytes;
        rewrite String.list_ascii_of_string_of_list_ascii.
    + intros (v & Hl & Hr). rewrite glob_match_globs in Hl, Hr.
      apply joinable_reach; [split; simpl; lia|]. by exists (str_bytes v).
Qed.

(** The wildcard matcher is correct: the dynamic program over byte
    positions, with its fast paths, accepts a value exactly when the pattern
    generates it, a star standing for any sequence of bytes and every other
    byte for itself. *)
Theorem glob_match_correct p v :
  glob_match p v = true ↔ globs (str_bytes p) (str_bytes v).
Proof. apply glob_match_globs. Qed.

(** [C27] The overlap check is exact and its worklist search terminates within
    its bound: two patterns are reported as overlapping exactly when some
    sequence of bytes is generated by both. *)
Theorem glob_patterns_overlap_correct l r :
  glob_patterns_overlap l r = true ↔
  ∃ v, globs (str_bytes l) v ∧ globs (str_bytes r) v.
Proof.
  rewrite glob_patterns_overlap_iff. split.
  - intros (v & Hl & Hr). exists (str_bytes v). by rewrite <-!glob_match_globs.
  - intros (v & Hl & Hr). exists (String.string_of_list_ascii v).
    rewrite !glob_match_globs. unfold str_bytes.
    by rewrite String.list_ascii_of_string_of_list_ascii.
Qed.
