(* ===== verification/MappingHost.v ===== *)
(** * Host normalisation

    Every spelling of a host that names the same endpoint (letter case,
    trailing dots, a default port) has one normal form, and normal forms are
    fixed points, so a request host and a rule host cannot disagree in form. *)

From S2P Require Import Prelude RustStr RustNet ActionClasses Core Mapping.

#[local] Open Scope string_scope.

(** ASCII without whitespace: what an HTTP authority is made of. *)
Definition visible (a : ascii) : bool := is_ascii a && negb (ws1 a).
Definition visible_str (s : string) : bool := str_forallb visible s.

Lemma ws2_not_ascii a b : is_ascii a = true → ws2 a b = false.
Proof.
  unfold is_ascii, ws2. intros ?%Z.ltb_lt. apply andb_false_iff. left.
  apply Z.eqb_neq. lia.
Qed.

Lemma ws3_not_ascii a b c : is_ascii a = true → ws3 a b c = false.
Proof.
  unfold is_ascii, ws3. intros ?%Z.ltb_lt.
  assert (∀ n, (128 ≤ n)%Z → (byte a =? n)%Z = false) as H' by (intros; apply Z.eqb_neq; lia).
  by rewrite !H' by lia.
Qed.

Lemma trim_start_visible s : visible_str s = true → trim_start s = s.
Proof.
  destruct s as [|a s]; [done|]. cbn. intros [[Ha Hw%negb_true_iff]%andb_true_iff _]%andb_true_iff.
  rewrite Hw. destruct s as [|b s]; [done|]. rewrite ws2_not_ascii by done.
  destruct s; [done|]. by rewrite ws3_not_ascii.
Qed.

Lemma trim_end_visible s : visible_str s = true → trim_end s = s.
Proof.
  induction s as [|a s IH]; [done|]. intros H. cbn [trim_end].
  rewrite trim_start_visible by done. case_decide; [done|].
  cbn in H. apply andb_true_iff in H as [_ H]. by rewrite IH.
Qed.

Lemma trim_visible s : visible_str s = true → trim s = s.
Proof. intros H. unfold trim. by rewrite trim_start_visible, trim_end_visible. Qed.

Lemma visible_lower s : visible_str s = true → visible_str (to_ascii_lowercase s) = true.
Proof.
  unfold visible_str, to_ascii_lowercase.
  assert (∀ a, visible a = true → visible (ascii_lower a) = true) as H.
  { intros [[] [] [] [] [] [] [] []]; vm_compute; done. }
  induction s as [|a s IH]; [done|]. simpl.
  intros [Ha Hs]%andb_true_iff. apply andb_true_iff. auto.
Qed.

(** ** Dots and colons *)

Lemma trim_end_char_snoc c s : trim_end_char c (s +:+ String c "") = trim_end_char c s.
Proof.
  induction s as [|a s IH]; simpl; [by rewrite decide_True|]. by rewrite IH.
Qed.

Lemma trim_end_char_idemp c s : trim_end_char c (trim_end_char c s) = trim_end_char c s.
Proof.
  induction s as [|a s IH]; simpl; [done|].
  destruct (trim_end_char c s) as [|b t] eqn:E.
  - case_decide; [done|]. simpl. by rewrite decide_False.
  - cbn [trim_end_char] in IH |- *. by rewrite IH.
Qed.

Lemma trim_end_char_ne c s a : a ≠ c → trim_end_char c (s +:+ String a "") = s +:+ String a "".
Proof.
  intros Ha. induction s as [|b s IH]; simpl; [by rewrite decide_False|].
  rewrite IH. by destruct s.
Qed.

Lemma lower_trim_end c s :
  is_ascii_lower c = false → is_ascii_upper c = false →
  trim_end_char c (to_ascii_lowercase s) = to_ascii_lowercase (trim_end_char c s).
Proof.
  intros Hl Hu. unfold to_ascii_lowercase.
  induction s as [|a s IH]; simpl; [done|]. rewrite IH.
  destruct (trim_end_char c s) as [|b t]; simpl; [|done].
  destruct (decide (a = c)) as [->|Hne].
  - rewrite decide_True; [done|]. by apply ascii_lower_eq.
  - rewrite decide_False; [done|]. rewrite ascii_lower_eq by done. done.
Qed.

Lemma contains_char_lower c s :
  is_ascii_lower c = false → is_ascii_upper c = false →
  contains_char c (to_ascii_lowercase s) = contains_char c s.
Proof.
  intros Hl Hu. induction s as [|a s IH]; [done|]. unfold to_ascii_lowercase in *. simpl.
  rewrite IH. f_equal. apply bool_decide_ext. by apply ascii_lower_eq.
Qed.

Lemma contains_trim_end d c s :
  contains_char d s = false → contains_char d (trim_end_char c s) = false.
Proof.
  induction s as [|a s IH]; [done|]. simpl. intros [Ha Hs]%orb_false_iff.
  specialize (IH Hs). destruct (trim_end_char c s).
  - destruct (decide (a = c)); [done|]. cbn. by rewrite orb_false_iff.
  - cbn in *. by rewrite orb_false_iff.
Qed.

Lemma rsplit_once_app c l r :
  contains_char c r = false → rsplit_once c (l +:+ String c r) = Some (l, r).
Proof.
  intros Hr. assert (rsplit_once c r = None) as Hn.
  { clear l. induction r as [|a r IH]; [done|]. simpl in *.
    apply orb_false_iff in Hr as [Ha Hr]. rewrite IH by done.
    apply bool_decide_eq_false in Ha. by rewrite decide_False. }
  induction l as [|a l IH]; simpl.
  - rewrite Hn. by rewrite decide_True.
  - by rewrite IH.
Qed.

Lemma rsplit_once_Some c s l r :
  rsplit_once c s = Some (l, r) → s = l +:+ String c r ∧ contains_char c r = false.
Proof.
  revert l r. induction s as [|a s IH]; intros l r; simpl; [done|].
  destruct (rsplit_once c s) as [[l' r']|] eqn:E.
  - intros [= <- <-]. destruct (IH _ _ eq_refl) as [-> ?]. done.
  - case_decide; [|done]. intros [= <- <-]. subst. split; [done|].
    clear IH. induction s as [|b s IH]; [done|]. simpl in *.
    destruct (rsplit_once c s) as [[]|]; [done|]. case_decide; [done|].
    rewrite bool_decide_false by done. by apply IH.
Qed.

Lemma rsplit_once_None c s : rsplit_once c s = None ↔ contains_char c s = false.
Proof.
  split; intros H.
  - destruct (contains_char c s) eqn:Hc; [|done]. exfalso. revert H Hc.
    induction s as [|a s IH]; [done|]. simpl.
    destruct (rsplit_once c s) as [[]|]; [done|]. case_decide; [done|].
    rewrite bool_decide_false by done. auto.
  - destruct (rsplit_once c s) as [[l r]|] eqn:E; [|done].
    apply rsplit_once_Some in E as [-> _]. rewrite contains_char_app in H. simpl in H.
    rewrite bool_decide_true in H by done. by rewrite orb_true_r in H.
Qed.

(** ** Ports *)

Lemma digits_no_char c s :
  is_ascii_digit c = false → str_forallb is_ascii_digit s = true → contains_char c s = false.
Proof.
  intros Hc. induction s as [|a s IH]; [done|]. simpl. intros [Ha Hs]%andb_true_iff.
  rewrite IH by done. rewrite bool_decide_false; [done|]. by intros ->; rewrite Hc in Ha.
Qed.

Lemma is_valid_port_spec p :
  is_valid_port p = true ↔ p ≠ "" ∧ str_forallb is_ascii_digit p = true.
Proof.
  unfold is_valid_port, is_empty. rewrite andb_true_iff, negb_true_iff, bool_decide_eq_false. done.
Qed.

Lemma canonical_port_valid p :
  is_valid_port p = true → is_valid_port (canonical_port p) = true.
Proof.
  intros Hp. unfold canonical_port. destruct (parse_u32 p); [|done].
  apply is_valid_port_spec. split; [apply display_uint_nonempty|apply display_uint_digits].
Qed.

Lemma canonical_port_idemp p : canonical_port (canonical_port p) = canonical_port p.
Proof.
  unfold canonical_port at 2 3. destruct (parse_u32 p) as [n|] eqn:E.
  - unfold canonical_port, parse_u32. rewrite parse_display; [done|].
    by eapply from_str_radix_range; [..|exact E].
  - unfold canonical_port. by rewrite E.
Qed.

Lemma digits_visible s : str_forallb is_ascii_digit s = true → visible_str s = true.
Proof.
  assert (∀ a, is_ascii_digit a = true → visible a = true) as H.
  { intros [[] [] [] [] [] [] [] []]; vm_compute; done. }
  induction s as [|a s IH]; [done|]. cbn. intros [Ha Hs]%andb_true_iff.
  apply andb_true_iff. auto.
Qed.

Lemma digits_lower s : str_forallb is_ascii_digit s = true → to_ascii_lowercase s = s.
Proof.
  assert (∀ a, is_ascii_digit a = true → ascii_lower a = a) as H.
  { intros [[] [] [] [] [] [] [] []]; vm_compute; done. }
  unfold to_ascii_lowercase. induction s as [|a s IH]; [done|]. cbn.
  intros [Ha Hs]%andb_true_iff. by rewrite IH, H.
Qed.

(** The last character of a digit string is not a dot. *)
Lemma digits_trim_dot l p :
  p ≠ "" → str_forallb is_ascii_digit p = true →
  trim_end_char "."%char (l +:+ p) = l +:+ p.
Proof.
  intros Hne Hd.
  assert (∃ q a, p = q +:+ String a "" ∧ a ≠ "."%char) as (q & a & -> & Ha).
  { clear l. induction p as [|a p IH]; [done|]. cbn in Hd. apply andb_true_iff in Hd as [Ha Hp].
    destruct p as [|b p].
    - exists "", a. split; [done|]. by intros ->.
    - destruct IH as (q & c & -> & Hc); [done|done|]. exists (String a q), c. done. }
  rewrite str_app_assoc. by apply trim_end_char_ne.
Qed.

(** ** Brackets *)

Lemma starts_bracket_cons a s : starts_with "[" (String a s) = bool_decide (a = "["%char).
Proof.
  unfold starts_with. simpl. destruct (decide ("["%char = a)) as [<-|].
  - by rewrite bool_decide_true.
  - by rewrite bool_decide_false by congruence.
Qed.

Lemma starts_bracket_lower s : starts_with "[" (to_ascii_lowercase s) = starts_with "[" s.
Proof.
  destruct s as [|a s]; [done|]. unfold to_ascii_lowercase. simpl str_map.
  rewrite !starts_bracket_cons. apply bool_decide_ext. by apply ascii_lower_eq.
Qed.

(** A prefix of a text without an opening bracket has none. *)
Lemma starts_bracket_prefix l r :
  starts_with "[" (l +:+ r) = false → starts_with "[" l = false.
Proof. destruct l as [|a l]; [done|]. simpl. by rewrite !starts_bracket_cons. Qed.

Lemma trim_end_char_prefix c s : ∃ r, s = trim_end_char c s +:+ r.
Proof.
  induction s as [|a s [r IH]]; [by exists ""|]. simpl.
  destruct (trim_end_char c s) as [|b t].
  - destruct (decide (a = c)).
    + by eexists.
    + exists s. done.
  - exists r. simpl in *. by rewrite IH at 1.
Qed.

Lemma visible_trim_end c s :
  visible_str s = true → visible_str (trim_end_char c s) = true.
Proof.
  destruct (trim_end_char_prefix c s) as [r Hr]. rewrite Hr at 1.
  unfold visible_str. rewrite str_forallb_app. by intros [? _]%andb_true_iff.
Qed.

Lemma split_once2_Some c d s l r :
  split_once2 c d s = Some (l, r) → s = l +:+ String c (String d r).
Proof.
  revert l. induction s as [|a [|b s] IH]; intros l; [done..|].
  cbn [split_once2]. destruct (decide _) as [[-> ->]|].
  - intros [= <- <-]. done.
  - change (match s with "" => _ | _ => _ end) with (split_once2 c d (String b s)).
    destruct (split_once2 c d (String b s)) as [[l' r']|] eqn:E; [|done].
    intros [= <- <-]. simpl. by rewrite (IH l' eq_refl).
Qed.

(** The first occurrence only depends on the text before it. *)
Lemma split_once2_again c d s l r r' :
  c ≠ d → split_once2 c d s = Some (l, r) →
  split_once2 c d (l +:+ String c "") = None ∧
  split_once2 c d (l +:+ String c (String d r')) = Some (l, r').
Proof.
  intros Hcd. revert l. induction s as [|a [|b s] IH]; intros l; [done..|].
  cbn [split_once2]. destruct (decide _) as [[-> ->]|Hne].
  - intros [= <- <-]. simpl. by rewrite decide_True.
  - change (match s with "" => _ | _ => _ end) with (split_once2 c d (String b s)).
    destruct (split_once2 c d (String b s)) as [[l' r0]|] eqn:E; [|done].
    intros [= <- <-]. destruct (IH l' eq_refl) as [H1 H2].
    pose proof (split_once2_Some _ _ _ _ _ E) as Hs.
    assert (∀ t, split_once2 c d (String a l' +:+ String c t)
              = prod_map (String a) id <$> split_once2 c d (l' +:+ String c t)) as Hstep.
    { intros t. destruct l' as [|e l']; simpl in Hs; injection Hs as -> Hs; simpl.
      - rewrite decide_False by tauto. done.
      - by rewrite decide_False by tauto. }
    rewrite !Hstep, H1, H2. done.
Qed.

(** ** Normal forms *)

Lemma trim_end_dots c d s :
  str_forallb (λ a, bool_decide (a = c)) d = true →
  trim_end_char c (s +:+ d) = trim_end_char c s.
Proof.
  revert s. induction d as [|a d IH]; intros s; [by rewrite str_app_nil_r|].
  simpl. intros [->%bool_decide_eq_true Hd]%andb_true_iff.
  rewrite (str_cons_app c d), str_app_assoc, IH by done. apply trim_end_char_snoc.
Qed.

(** [split_authority] on a name without a port, and on one with a port. *)
Lemma split_authority_plain h :
  contains_char ":"%char h = false →
  split_authority h = (to_ascii_lowercase (trim_end_char "."%char h), None).
Proof.
  intros Hc. unfold split_authority.
  replace (rsplit_once ":"%char _) with (@None (string * string)).
  - simpl. by rewrite lower_trim_end, trim_end_char_idemp by done.
  - symmetry. apply rsplit_once_None. rewrite contains_char_lower by done.
    by apply contains_trim_end.
Qed.

Lemma split_authority_port h p d :
  contains_char ":"%char h = false → h ≠ "" → is_valid_port p = true →
  str_forallb (λ a, bool_decide (a = "."%char)) d = true →
  split_authority (h +:+ ":" +:+ p +:+ d)
  = (to_ascii_lowercase (trim_end_char "."%char h), Some (canonical_port p)).
Proof.
  intros Hc Hne Hp Hd. pose proof Hp as [Hpne Hdig]%is_valid_port_spec.
  unfold split_authority. rewrite !str_app_assoc, trim_end_dots by done.
  rewrite digits_trim_dot by done. unfold to_ascii_lowercase at 1. rewrite !str_map_app.
  fold to_ascii_lowercase. rewrite (digits_lower p) by done.
  change (to_ascii_lowercase ":") with ":". rewrite <-str_app_assoc. simpl (":" +:+ p).
  rewrite rsplit_once_app by (by apply digits_no_char).
  replace (is_empty (to_ascii_lowercase h)) with false
    by (destruct h; [done|unfold is_empty; by rewrite bool_decide_false]).
  rewrite contains_char_lower, Hc, Hp by done. simpl.
  by rewrite lower_trim_end.
Qed.

Lemma split_mapping_plain h :
  visible_str h = true → starts_with "[" h = false →
  split_mapping_authority h = split_authority h.
Proof. intros Hv Hb. unfold split_mapping_authority. by rewrite trim_visible, Hb. Qed.

Lemma split_mapping_bracket h :
  visible_str h = true → starts_with "[" h = true →
  split_mapping_authority h = split_ipv6_authority h.
Proof. intros Hv Hb. unfold split_mapping_authority. by rewrite trim_visible, Hb. Qed.

Lemma normalize_plain h :
  visible_str h = true → starts_with "[" h = false → contains_char ":"%char h = false →
  normalize_mapping_host h = to_ascii_lowercase (trim_end_char "."%char h).
Proof.
  intros. unfold normalize_mapping_host.
  by rewrite split_mapping_plain, split_authority_plain.
Qed.

Definition default_port (p : string) : bool :=
  bool_decide (p = "443") || bool_decide (p = "80").

Lemma visible_app s t : visible_str (s +:+ t) = visible_str s && visible_str t.
Proof. unfold visible_str. apply str_forallb_app. Qed.

Lemma visible_port p : is_valid_port p = true → visible_str p = true.
Proof. intros [_ H]%is_valid_port_spec. by apply digits_visible. Qed.

(** Putting a canonical port back on a canonical name changes nothing. *)
Lemma normalize_rejoin n p :
  visible_str n = true → starts_with "[" n = false → contains_char ":"%char n = false →
  to_ascii_lowercase (trim_end_char "."%char n) = n →
  is_valid_port p = true → canonical_port p = p → default_port p = false →
  normalize_mapping_host (n +:+ ":" +:+ p) = n +:+ ":" +:+ p.
Proof.
  intros Hv Hb Hc Hn Hp Hcp Hd.
  assert (visible_str (n +:+ ":" +:+ p) = true) as Hv'.
  { by rewrite !visible_app, Hv, (visible_port p). }
  unfold normalize_mapping_host.
  destruct (decide (n = "")) as [->|Hne].
  - pose proof Hp as [Hpne Hdig]%is_valid_port_spec.
    rewrite split_mapping_plain by done. unfold split_authority.
    change ("" +:+ ":" +:+ p) with (":" +:+ p).
    rewrite (digits_trim_dot ":" p) by done.
    change (to_ascii_lowercase (":" +:+ p)) with (":" +:+ to_ascii_lowercase p).
    rewrite digits_lower by done. simpl.
    pose proof (rsplit_once_app ":"%char "" p (digits_no_char ":"%char p eq_refl Hdig)) as E.
    simpl in E. rewrite E. simpl. pose proof (digits_trim_dot ":" p Hpne Hdig) as T. simpl in T. by rewrite T.
  - rewrite split_mapping_plain; [|done|].
    + rewrite <-(str_app_nil_r p) at 1. rewrite split_authority_port by done.
      rewrite Hn, Hcp. unfold default_port in Hd. by rewrite Hd.
    + destruct n; [done|]. simpl. by rewrite starts_bracket_cons in *.
Qed.

Lemma substring_app_l s t : String.substring 0 (String.length s) (s +:+ t) = s.
Proof. induction s as [|a s IH]; simpl; [by destruct t|]. by rewrite IH. Qed.

(** The shape of a split authority: what the name and the port are. *)
Lemma split_authority_cases h n p :
  visible_str h = true → starts_with "[" h = false → split_authority h = (n, p) →
  visible_str n = true ∧ starts_with "[" n = false ∧
  to_ascii_lowercase (trim_end_char "."%char n) = n ∧
  match p with
  | None => split_authority n = (n, None)
  | Some p => contains_char ":"%char n = false ∧ is_valid_port p = true ∧ canonical_port p = p
  end.
Proof.
  intros Hv Hb. unfold split_authority at 1.
  set (L := to_ascii_lowercase (trim_end_char "."%char h)).
  assert (visible_str L = true) as HvL by (by apply visible_lower, visible_trim_end).
  assert (starts_with "[" L = false) as HbL.
  { unfold L. rewrite starts_bracket_lower.
    destruct (trim_end_char_prefix "."%char h) as [r Hr]. rewrite Hr in Hb.
    by eapply starts_bracket_prefix. }
  assert (trim_end_char "."%char L = L) as HtL.
  { unfold L. by rewrite lower_trim_end, trim_end_char_idemp. }
  assert (to_ascii_lowercase L = L) as HlL by apply to_ascii_lowercase_idemp.
  destruct (rsplit_once ":"%char L) as [[name port]|] eqn:E; cycle 1.
  { simpl. intros [= <- <-]. rewrite !HtL. split_and!; [done..|].
    unfold split_authority. rewrite HtL, HlL, E. by rewrite HtL. }
  destruct (negb (is_empty name) && _ && _) eqn:Hcond; cycle 1.
  { simpl. intros [= <- <-]. rewrite !HtL. split_and!; [done..|].
    unfold split_authority. rewrite HtL, HlL, E, Hcond. by rewrite HtL. }
  intros [= <- <-]. apply andb_true_iff in Hcond as [[_ Hc%negb_true_iff]%andb_true_iff Hp].
  apply rsplit_once_Some in E as [HL _].
  rewrite HL, visible_app in HvL. apply andb_true_iff in HvL as [HvL _].
  rewrite HL in HbL. apply starts_bracket_prefix in HbL.
  assert (to_ascii_lowercase name = name) as Hln.
  { rewrite HL in HlL. unfold to_ascii_lowercase in HlL. rewrite str_map_app in HlL.
    fold to_ascii_lowercase in HlL. apply (f_equal (String.substring 0 (String.length name))) in HlL.
    rewrite <-(str_map_length ascii_lower name) in HlL at 1.
    by rewrite !substring_app_l in HlL. }
  split_and!.
  - by apply visible_trim_end.
  - destruct (trim_end_char_prefix "."%char name) as [r Hr]. rewrite Hr in HbL.
    by eapply starts_bracket_prefix.
  - by rewrite trim_end_char_idemp, <-lower_trim_end, Hln.
  - by apply contains_trim_end.
  - by apply canonical_port_valid.
  - apply canonical_port_idemp.
Qed.

Lemma normalize_bracket_idemp h :
  visible_str h = true → starts_with "[" h = true →
  normalize_mapping_host (normalize_mapping_host h) = normalize_mapping_host h.
Proof.
  intros Hv Hb. unfold normalize_mapping_host at 2 3.
  rewrite split_mapping_bracket by done. unfold split_ipv6_authority.
  set (L := to_ascii_lowercase h).
  assert (visible_str L = true) as HvL by (by apply visible_lower).
  assert (starts_with "[" L = true) as HbL by (unfold L; by rewrite starts_bracket_lower).
  assert (to_ascii_lowercase L = L) as HlL by apply to_ascii_lowercase_idemp.
  assert (split_ipv6_authority L = (L, None) → normalize_mapping_host L = L) as Hfix.
  { intros E. unfold normalize_mapping_host. by rewrite split_mapping_bracket, E. }
  destruct (split_once2 "]"%char ":"%char L) as [[name port]|] eqn:E; cycle 1.
  { apply Hfix. unfold split_ipv6_authority. by rewrite HlL, E. }
  destruct (is_valid_port port) eqn:Hp; cycle 1.
  { apply Hfix. unfold split_ipv6_authority. by rewrite HlL, E, Hp. }
  pose proof (split_once2_Some _ _ _ _ _ E) as HL.
  assert (to_ascii_lowercase (name +:+ "]") = name +:+ "]") as Hln.
  { rewrite HL, (str_cons_app "]"), str_app_assoc in HlL.
    unfold to_ascii_lowercase in *. rewrite str_map_app in HlL.
    apply (f_equal (String.substring 0 (String.length (name +:+ "]")))) in HlL.
    rewrite <-(str_map_length ascii_lower (name +:+ "]")) in HlL at 1.
    by rewrite !substring_app_l in HlL. }
  assert (visible_str (name +:+ "]") = true) as Hvn.
  { rewrite HL, (str_cons_app "]"), str_app_assoc, visible_app in HvL.
    by apply andb_true_iff in HvL as [? _]. }
  assert (∀ t, starts_with "[" (name +:+ String "]"%char t) = true) as Hbn.
  { intros t. rewrite HL in HbL. destruct name as [|a name]; [done|].
    simpl in *. by rewrite starts_bracket_cons in *. }
  assert ("]"%char ≠ ":"%char) as Hne by done.
  destruct (split_once2_again _ _ _ _ _ (canonical_port port) Hne E) as [H1 H2].
  pose proof (canonical_port_valid _ Hp) as Hcp.
  destruct (bool_decide (canonical_port port = "443") || bool_decide (canonical_port port = "80"))
    eqn:Hdef; unfold normalize_mapping_host.
  - rewrite split_mapping_bracket by done. unfold split_ipv6_authority. by rewrite Hln, H1.
  - assert (to_ascii_lowercase ((name +:+ "]") +:+ ":" +:+ canonical_port port)
            = (name +:+ "]") +:+ ":" +:+ canonical_port port) as Hlow.
    { unfold to_ascii_lowercase in *. rewrite !str_map_app in *. rewrite Hln.
      fold to_ascii_lowercase. rewrite (digits_lower (canonical_port port)); [done|].
      by apply is_valid_port_spec in Hcp as [_ ?]. }
    rewrite split_mapping_bracket.
    + unfold split_ipv6_authority. rewrite Hlow, <-str_app_assoc. simpl ("]" +:+ _).
      rewrite H2, Hcp, canonical_port_idemp, Hdef. by rewrite <-str_app_assoc.
    + by rewrite (visible_app (name +:+ "]")), Hvn, visible_app, (visible_port _ Hcp).
    + rewrite <-str_app_assoc. apply Hbn.
Qed.

Lemma normalize_plain_idemp h :
  visible_str h = true → starts_with "[" h = false →
  normalize_mapping_host (normalize_mapping_host h) = normalize_mapping_host h.
Proof.
  intros Hv Hb. unfold normalize_mapping_host at 2 3. rewrite split_mapping_plain by done.
  destruct (split_authority h) as [n p] eqn:E.
  destruct (split_authority_cases h n p Hv Hb E) as (Hvn & Hbn & Hn & Hp).
  destruct p as [p|].
  - destruct Hp as (Hc & Hp & Hcp). fold (default_port p).
    destruct (default_port p) eqn:Hd.
    + by rewrite normalize_plain.
    + by apply normalize_rejoin.
  - unfold normalize_mapping_host. by rewrite split_mapping_plain, Hp.
Qed.

(** Host normalisation is idempotent on every authority made of visible
    ASCII, bracketed IPv6 literals and explicit ports included: the form stored
    in a compiled mapping rule and the form a request host is reduced to are
    both fixed points, so neither side can be re-normalised into a different
    rule key. *)
Theorem normalize_mapping_host_idempotent h :
  visible_str h = true →
  normalize_mapping_host (normalize_mapping_host h) = normalize_mapping_host h.
Proof.
  intros Hv. destruct (starts_with "[" h) eqn:Hb.
  - by apply normalize_bracket_idemp.
  - by apply normalize_plain_idemp.
Qed.

Lemma normalize_mapping_host_idempotent_witness :
  normalize_mapping_host (normalize_mapping_host "[2001:DB8::1]:08443")
  = normalize_mapping_host "[2001:DB8::1]:08443"
  ∧ normalize_mapping_host "[2001:DB8::1]:08443" = "[2001:db8::1]:8443".
Proof.
  split; [|vm_compute; reflexivity].
  apply (normalize_mapping_host_idempotent "[2001:DB8::1]:08443"). vm_compute. reflexivity.
Defined.

(** A host cannot evade a rule by being spelled differently: any letter
    case, any number of trailing dots on the name, an explicit default port
    (443 or 80, leading zeros included) and trailing dots after it all
    normalise to the same name, the lower-cased name without trailing dots. *)
Theorem normalize_mapping_host_spelling name name' dots port dots' :
  visible_str name' = true → starts_with "[" name' = false →
  contains_char ":"%char name' = false → name' ≠ "" →
  to_ascii_lowercase name' = to_ascii_lowercase name →
  str_forallb (λ a, bool_decide (a = "."%char)) dots = true →
  str_forallb (λ a, bool_decide (a = "."%char)) dots' = true →
  is_valid_port port = true → default_port (canonical_port port) = true →
  let canonical := trim_end_char "."%char (to_ascii_lowercase name) in
  normalize_mapping_host (name' +:+ dots) = canonical ∧
  normalize_mapping_host (name' +:+ dots +:+ ":" +:+ port +:+ dots') = canonical.
Proof.
  intros Hv Hb Hc Hne Hl Hd Hd' Hp Hdef. cbv zeta.
  assert (∀ d, str_forallb (λ a, bool_decide (a = "."%char)) d = true →
               visible_str d = true ∧ contains_char ":"%char d = false) as Hdots.
  { clear. induction d as [|a d IH]; [done|]. simpl.
    intros [->%bool_decide_eq_true H]%andb_true_iff. by apply IH. }
  destruct (Hdots _ Hd) as [Hvd Hcd]. destruct (Hdots _ Hd') as [Hvd' _].
  assert (starts_with "[" (name' +:+ dots) = false) as Hb'.
  { destruct name'; [done|]. simpl. by rewrite starts_bracket_cons in *. }
  assert (contains_char ":"%char (name' +:+ dots) = false) as Hc'.
  { by rewrite contains_char_app, Hc, Hcd. }
  rewrite <-Hl, lower_trim_end by done. split.
  - rewrite normalize_plain; [by rewrite trim_end_dots| |done..]. by rewrite visible_app, Hv, Hvd.
  - unfold normalize_mapping_host. rewrite str_app_assoc, split_mapping_plain.
    + rewrite split_authority_port; [|done|by destruct name'|done..].
      fold (default_port (canonical_port port)). rewrite Hdef. by rewrite trim_end_dots.
    + by rewrite !visible_app, Hv, Hvd, (visible_port _ Hp), Hvd'.
    + destruct name'; [done|]. simpl. by rewrite starts_bracket_cons in *.
Qed.

Lemma normalize_mapping_host_spelling_witness :
  normalize_mapping_host "API.github.COM.." = "api.github.com" ∧
  normalize_mapping_host "API.github.COM..:00443." = "api.github.com".
Proof.
  apply (normalize_mapping_host_spelling "api.github.com" "API.github.COM" ".." "00443" ".");
    vm_compute; congruence.
Defined.
