(* ===== verification/Redaction.v ===== *)
(** * Query redaction ([normalizer/redaction.rs])

    The index-scanning redactor of the source, its per-pair reference
    definition, and their equality.  [form_urlencoded] is a parameter: the
    decoded name of the first pair of a key. *)

From S2P Require Import Prelude RustStr.

#[local] Open Scope string_scope.

(** ** Byte offsets into a text *)

Fixpoint str_drop (n : nat) (s : string) : string :=
  match n, s with
  | S n, String _ s => str_drop n s
  | _, _ => s
  end.

Fixpoint str_take (n : nat) (s : string) : string :=
  match n, s with
  | S n, String a s => String a (str_take n s)
  | _, _ => ""
  end.

(** [&s[lo..hi]]. *)
Definition slice (lo hi : nat) (s : string) : string := str_take (hi - lo) (str_drop lo s).

(** [s.find(c)] and [s.rfind(c)]. *)
Fixpoint str_find (c : ascii) (s : string) : option nat :=
  match s with
  | "" => None
  | String a s => if decide (a = c) then Some 0 else S <$> str_find c s
  end.

Fixpoint str_rfind (c : ascii) (s : string) : option nat :=
  match s with
  | "" => None
  | String a s =>
      match str_rfind c s with
      | Some n => Some (S n)
      | None => if decide (a = c) then Some 0 else None
      end
  end.

(** [s[..n].chars().next_back()] when that character is ASCII: its byte. *)
Fixpoint last_byte (s : string) : option ascii :=
  match s with
  | "" => None
  | String a "" => Some a
  | String _ s => last_byte s
  end.

(** [s.get(start..)] for [start <= s.len()]: [None] inside a character. *)
Definition str_get_from (start : nat) (s : string) : option string :=
  match str_drop start s with
  | String a _ as suffix => if is_cont a then None else Some suffix
  | "" => Some ""
  end.

(** ** The redactor *)

Definition DEFAULT_SENSITIVE_QUERY_PARAMS : list string :=
  ["api_key"; "apikey"; "api-key"; "key"; "token"; "access_token"; "access-token";
   "refresh_token"; "auth"; "password"; "passwd"; "pwd"; "secret"; "signature"; "sig";
   "sas"; "bearer"; "authorization"; "credential"; "credentials"; "private_key";
   "privatekey"].

(** [form_urlencoded::parse(key).next()], the name only. *)
Class FormUrlencoded := form_first_name : string → option string.

Definition REDACTED : string := "[REDACTED]".
Definition amp : ascii := "&"%char.
Definition equals : ascii := "="%char.

(** The characters that may precede a sensitive suffix in a key. *)
Definition key_boundary (c : ascii) : bool :=
  existsb (λ d, bool_decide (c = d)) ["?"%char; "("%char; "["%char; "039"%char; "034"%char]
  || is_ascii_whitespace c.

Definition param_matches (decoded param : string) : bool :=
  if is_empty param || Nat.ltb (String.length decoded) (String.length param) then false
  else
    let start := (String.length decoded - String.length param)%nat in
    match str_get_from start decoded with
    | Some suffix => eq_ignore_ascii_case suffix param
    | None => false
    end &&
    (Nat.eqb start 0 ||
     match last_byte (str_take start decoded) with
     | Some c => key_boundary c
     | None => false
     end).

Section Redact.
Context {FU : FormUrlencoded} (sensitive_params : list string).

(** [is_sensitive_query_key]. *)
Definition is_sensitive_query_key (key : string) : bool :=
  match form_first_name key with
  | Some decoded => existsb (param_matches decoded) sensitive_params
  | None => false
  end.

(** The [while let] of [redact_query_params]; each round moves [scan_from]
    past an equals sign, so the length of the text is enough fuel. *)
Fixpoint redact_loop (fuel : nat) (value result : string) (copied_until scan_from : nat)
    : string :=
  match fuel with
  | O => result +:+ str_drop copied_until value
  | S fuel =>
      match str_find equals (str_drop scan_from value) with
      | None => result +:+ str_drop copied_until value
      | Some relative_eq =>
          let eq := (scan_from + relative_eq)%nat in
          let key_start :=
            match str_rfind amp (slice scan_from eq value) with
            | Some pos => (scan_from + pos + 1)%nat
            | None => scan_from
            end in
          if negb (is_sensitive_query_key (slice key_start eq value)) then
            redact_loop fuel value result copied_until (eq + 1)
          else
            let value_start := (eq + 1)%nat in
            let value_end :=
              match str_find amp (str_drop value_start value) with
              | Some pos => (value_start + pos)%nat
              | None => String.length value
              end in
            redact_loop fuel value
              (result +:+ slice copied_until value_start value +:+ REDACTED)
              value_end value_end
      end
  end.

(** [redact_query_params]. *)
Definition redact_query_params (value : string) : string :=
  redact_loop (String.length value) value "" 0 0.

(** ** Reference: redact each pair on its own *)

(** In a pair, the value after the first sensitive name is replaced; the text
    after a harmless name is scanned for further names. *)
Fixpoint redact_pair (fuel : nat) (pair : string) : string :=
  match fuel with
  | O => pair
  | S fuel =>
      match split_once equals pair with
      | None => pair
      | Some (key, rest) =>
          key +:+ String equals
            (if is_sensitive_query_key key then REDACTED else redact_pair fuel rest)
      end
  end.

Definition redact_pairs (value : string) : string :=
  join "&" ((λ pair, redact_pair (S (String.length pair)) pair) <$> split_char amp value).

End Redact.

(** [redact_default_query_params]. *)
Definition redact_default_query_params `{!FormUrlencoded} (value : string) : string :=
  redact_query_params DEFAULT_SENSITIVE_QUERY_PARAMS value.

(** ** Offsets and splits *)

Lemma str_take_drop n s : str_take n s +:+ str_drop n s = s.
Proof. revert s. induction n as [|n IH]; intros [|a s]; simpl; try done. by rewrite IH. Qed.

Lemma str_drop_drop n m s : str_drop n (str_drop m s) = str_drop (m + n) s.
Proof.
  revert s. induction m as [|m IH]; intros s; [done|].
  destruct s; simpl; [by destruct n|apply IH].
Qed.

Lemma str_take_str_drop n m s : str_take (n - m) (str_drop m s) = str_drop m (str_take n s).
Proof.
  revert n m. induction s as [|a s IH]; intros n m.
  - destruct m; simpl; destruct n; try done; by destruct (_ - _)%nat.
  - destruct m as [|m]; simpl; [by rewrite Nat.sub_0_r|].
    destruct n as [|n]; simpl; [done|]. apply IH.
Qed.

Lemma str_drop_length n s : String.length (str_drop n s) = String.length s - n.
Proof. revert s. induction n as [|n IH]; intros [|a s]; simpl; try done. Qed.

Lemma str_drop_all s n : (String.length s ≤ n)%nat → str_drop n s = "".
Proof.
  revert n. induction s as [|a s IH]; intros [|n]; simpl; try done; [lia|].
  intros. apply IH. lia.
Qed.

Lemma str_drop_app n s t : n = String.length s → str_drop n (s +:+ t) = t.
Proof. intros ->. by induction s. Qed.

Lemma str_take_app n s t : n = String.length s → str_take n (s +:+ t) = s.
Proof. intros ->. induction s as [|a s IH]; simpl; [by destruct t|]. by rewrite IH. Qed.

Lemma str_find_Some c s n :
  str_find c s = Some n →
  ∃ l r, s = l +:+ String c r ∧ String.length l = n ∧ contains_char c l = false.
Proof.
  revert n. induction s as [|a s IH]; intros n; simpl; [done|]. case_decide as Ha.
  - intros [= <-]. subst. by exists "", s.
  - destruct (str_find c s) as [m|]; [|done]. intros [= <-].
    destruct (IH m eq_refl) as (l & r & -> & <- & Hl).
    exists (String a l), r. split_and!; [done..|]. simpl. by rewrite bool_decide_false.
Qed.

Lemma str_find_None c s : str_find c s = None → contains_char c s = false.
Proof.
  induction s as [|a s IH]; simpl; [done|]. case_decide as Ha; [done|].
  destruct (str_find c s); [done|]. intros _. rewrite bool_decide_false by done. auto.
Qed.

Lemma str_rfind_Some c s n :
  str_rfind c s = Some n →
  ∃ l r, s = l +:+ String c r ∧ String.length l = n ∧ contains_char c r = false.
Proof.
  revert n. induction s as [|a s IH]; intros n; simpl; [done|].
  destruct (str_rfind c s) as [m|] eqn:E.
  - intros [= <-]. destruct (IH m eq_refl) as (l & r & -> & <- & Hl).
    by exists (String a l), r.
  - case_decide as Ha; [|done]. intros [= <-]. subst. exists "", s. split_and!; [done..|].
    clear IH. induction s as [|b s IH]; [done|]. simpl in *.
    destruct (str_rfind c s); [done|]. case_decide; [done|].
    rewrite bool_decide_false by done. auto.
Qed.

Lemma str_rfind_None c s : str_rfind c s = None → contains_char c s = false.
Proof.
  induction s as [|a s IH]; simpl; [done|].
  destruct (str_rfind c s); [done|]. case_decide; [done|]. intros _.
  rewrite bool_decide_false by done. auto.
Qed.

(** ** The two redactors agree *)

Section Equivalence.
Context {FU : FormUrlencoded} (sensitive_params : list string).
Abbreviation sensitive := (is_sensitive_query_key sensitive_params).
Abbreviation pair_fuel := (redact_pair sensitive_params).
Abbreviation ref := (redact_pairs sensitive_params).

Definition ref_pair (p : string) : string := pair_fuel (S (String.length p)) p.

Lemma redact_pair_fuel f f' p :
  (String.length p < f)%nat → (String.length p < f')%nat → pair_fuel f p = pair_fuel f' p.
Proof.
  revert f' p. induction f as [|f IH]; intros f' p Hf Hf'; [lia|].
  destruct f' as [|f']; [lia|]. simpl.
  destruct (split_once equals p) as [[k r]|] eqn:E; [|done].
  apply split_once_Some in E as [-> _]. rewrite str_length_app in *. simpl in *.
  case_match; [done|]. by rewrite (IH f') by lia.
Qed.

Lemma ref_pair_plain p : contains_char equals p = false → ref_pair p = p.
Proof. intros H. unfold ref_pair. simpl. apply split_once_None in H. by rewrite H. Qed.

Lemma ref_pair_eq k r :
  contains_char equals k = false →
  ref_pair (k +:+ String equals r)
  = k +:+ String equals (if sensitive k then REDACTED else ref_pair r).
Proof.
  intros H. unfold ref_pair. simpl. rewrite split_once_app by done.
  case_match; [done|]. rewrite (redact_pair_fuel _ (S (String.length r)));
    [done| |lia]. rewrite str_length_app. simpl. lia.
Qed.

Lemma join_cons w ws : ws ≠ [] → join "&" (w :: ws) = w +:+ String amp (join "&" ws).
Proof. by destruct ws. Qed.

Lemma ref_cons l r :
  contains_char amp l = false → ref (l +:+ String amp r) = ref_pair l +:+ String amp (ref r).
Proof.
  intros H. unfold redact_pairs. rewrite split_char_app by done.
  rewrite fmap_cons, join_cons; [done|]. intros E%fmap_nil_inv. by apply split_char_ne in E.
Qed.

Lemma ref_single l : contains_char amp l = false → ref l = ref_pair l.
Proof. intros H. unfold redact_pairs. by rewrite split_char_single. Qed.

(** Cut a text at its first ampersand. *)
Lemma amp_cut s :
  contains_char amp s = false ∨
  ∃ l r, s = l +:+ String amp r ∧ contains_char amp l = false.
Proof.
  destruct (str_find amp s) as [n|] eqn:E.
  - apply str_find_Some in E as (l & r & -> & _ & H). right. eauto.
  - left. by apply str_find_None.
Qed.

Lemma ref_prefix p s :
  contains_char equals p = false → ref (p +:+ String amp s) = p +:+ String amp (ref s).
Proof.
  induction p as [p IH] using (induction_ltof1 _ String.length). unfold ltof in IH.
  intros Hp. destruct (amp_cut p) as [Ha|(l & r & -> & Ha)].
  - by rewrite ref_cons, ref_pair_plain.
  - rewrite contains_char_app in Hp. apply orb_false_iff in Hp as [Hl Hr].
    simpl in Hr. rewrite <-str_app_assoc. simpl.
    rewrite ref_cons, ref_pair_plain by done. rewrite IH.
    + by rewrite <-str_app_assoc.
    + rewrite str_length_app. simpl. lia.
    + done.
Qed.

Lemma ref_no_equals s : contains_char equals s = false → ref s = s.
Proof.
  intros H. destruct (str_rfind amp s) as [n|] eqn:E.
  - apply str_rfind_Some in E as (l & r & -> & _ & Hr).
    rewrite contains_char_app in H. apply orb_false_iff in H as [Hl Hr'].
    rewrite ref_prefix, ref_single, ref_pair_plain by done. done.
  - apply str_rfind_None in E. by rewrite ref_single, ref_pair_plain.
Qed.

(** What the reference does at the first equals sign of a segment. *)
Lemma ref_key key post :
  contains_char equals key = false → contains_char amp key = false →
  (sensitive key = false → ref (key +:+ String equals post) = key +:+ String equals (ref post)) ∧
  (sensitive key = true → ∀ v t, post = v +:+ t → contains_char amp v = false →
     (t = "" ∨ ∃ t', t = String amp t') →
     ref (key +:+ String equals post) = key +:+ String equals (REDACTED +:+ ref t)).
Proof.
  intros He Ha.
  assert (∀ v, contains_char amp v = false →
               contains_char amp (key +:+ String equals v) = false) as Hkv.
  { intros v Hv. rewrite contains_char_app, Ha. simpl. done. }
  split.
  - intros Hs. destruct (amp_cut post) as [Hp|(v & t & -> & Hv)].
    + rewrite !ref_single, ref_pair_eq, Hs by auto. done.
    + rewrite (ref_cons v) by done.
      change (String equals (v +:+ String amp t)) with (String equals v +:+ String amp t).
      rewrite str_app_assoc, ref_cons, ref_pair_eq, Hs by auto.
      by rewrite <-str_app_assoc.
  - intros Hs v t -> Hv [->|[t' ->]].
    + rewrite str_app_nil_r, (ref_single (key +:+ _)), ref_pair_eq, Hs by auto. done.
    + change (String equals (v +:+ String amp t')) with (String equals v +:+ String amp t').
      rewrite str_app_assoc, ref_cons, ref_pair_eq, Hs by auto.
      rewrite <-str_app_assoc. pose proof (ref_cons "" t' eq_refl) as Hr. simpl in Hr. by rewrite Hr.
Qed.

(** One round of the scan, on the text it has not scanned yet. *)
Definition scan_key (s : string) (eq : nat) : string :=
  match str_rfind amp (str_take eq s) with
  | Some pos => str_drop (pos + 1) (str_take eq s)
  | None => str_take eq s
  end.

Lemma ref_scan s l post :
  s = l +:+ String equals post → contains_char equals l = false →
  let key := scan_key s (String.length l) in
  (sensitive key = false → ref s = l +:+ String equals (ref post)) ∧
  (sensitive key = true → ∀ v t, post = v +:+ t → contains_char amp v = false →
     (t = "" ∨ ∃ t', t = String amp t') →
     ref s = l +:+ String equals (REDACTED +:+ ref t)).
Proof.
  intros -> Hl. unfold scan_key. rewrite str_take_app by done. cbv zeta.
  destruct (str_rfind amp l) as [n|] eqn:E.
  - apply str_rfind_Some in E as (p & key & -> & <- & Hk).
    rewrite contains_char_app in Hl. apply orb_false_iff in Hl as [Hp Hl].
    replace (str_drop _ _) with key.
    2: { rewrite (str_cons_app amp key), str_app_assoc. symmetry. apply str_drop_app.
         by rewrite str_length_app. }
    rewrite <-str_app_assoc. simpl (String amp key +:+ _).
    destruct (ref_key key post) as [H1 H2]; [done..|].
    rewrite ref_prefix by done. split.
    + intros Hs. rewrite H1 by done. by rewrite <-str_app_assoc.
    + intros Hs v t -> Hv Ht. rewrite (H2 Hs v t) by done. by rewrite <-str_app_assoc.
  - apply str_rfind_None in E. by apply ref_key.
Qed.

Lemma slice_split copied scan value :
  (copied ≤ scan)%nat →
  slice copied scan value +:+ str_drop scan value = str_drop copied value.
Proof.
  intros H. unfold slice. replace scan with (copied + (scan - copied))%nat at 2 by lia.
  rewrite <-str_drop_drop. apply str_take_drop.
Qed.

Lemma slice_extend copied scan value l r :
  (copied ≤ scan)%nat → str_drop scan value = l +:+ r →
  slice copied (scan + String.length l) value = slice copied scan value +:+ l.
Proof.
  intros Hle Hd. unfold slice.
  pose proof (slice_split copied scan value Hle) as Hs. rewrite Hd in Hs.
  assert (scan ≤ String.length value ∨ l = "")%nat as [Hlen| ->].
  { destruct (decide (scan ≤ String.length value)%nat); [by left|right].
    rewrite str_drop_all in Hd by lia. by destruct l. }
  - fold (slice copied scan value). rewrite <-Hs, str_app_assoc. apply str_take_app. rewrite str_length_app.
    enough (String.length (slice copied scan value) = scan - copied)%nat by lia.
    pose proof (f_equal String.length (slice_split copied scan value Hle)) as Hl.
    rewrite str_length_app, !str_drop_length in Hl. lia.
  - simpl. by rewrite Nat.add_0_r, str_app_nil_r.
Qed.

Lemma scan_key_slice scan value eq :
  let key_start := match str_rfind amp (slice scan (scan + eq) value) with
                   | Some pos => (scan + pos + 1)%nat | None => scan end in
  slice key_start (scan + eq) value = scan_key (str_drop scan value) eq.
Proof.
  unfold scan_key, slice. replace (scan + eq - scan)%nat with eq by lia. cbv zeta.
  destruct (str_rfind amp (str_take eq (str_drop scan value))) as [pos|] eqn:E.
  - replace (scan + pos + 1)%nat with (scan + (pos + 1))%nat by lia.
    rewrite <-str_drop_drop. generalize (str_drop scan value). intros s.
    replace (scan + eq - (scan + (pos + 1)))%nat with (eq - (pos + 1))%nat by lia.
    apply str_take_str_drop.
  - by replace (scan + eq - scan)%nat with eq by lia.
Qed.

Lemma redact_loop_ref fuel value result copied scan :
  (copied ≤ scan)%nat → (String.length (str_drop scan value) ≤ fuel)%nat →
  redact_loop sensitive_params fuel value result copied scan
  = result +:+ slice copied scan value +:+ ref (str_drop scan value).
Proof.
  revert result copied scan.
  induction fuel as [|fuel IH]; intros result copied scan Hle Hf; simpl.
  - destruct (str_drop scan value) eqn:E; [|simpl in Hf; lia].
    change (ref "") with "". rewrite <-(slice_split copied scan) by done. by rewrite E.
  - destruct (str_find equals (str_drop scan value)) as [eq|] eqn:E.
    2: { apply str_find_None in E. rewrite ref_no_equals by done.
         by rewrite slice_split. }
    apply str_find_Some in E as (l & post & Hd & <- & Hl).
    rewrite scan_key_slice. destruct (ref_scan _ l post Hd Hl) as [H1 H2].
    assert (str_drop (scan + String.length l + 1) value = post) as Hpost.
    { rewrite <-Nat.add_assoc, <-str_drop_drop, Hd, (str_cons_app equals post), str_app_assoc.
      apply str_drop_app. by rewrite str_length_app. }
    assert (slice copied (scan + String.length l + 1) value
            = slice copied scan value +:+ l +:+ String equals "") as Hsl.
    { rewrite <-(slice_extend copied scan value (l +:+ String equals "") post) by
        (rewrite ?Hd, <-?str_app_assoc; done).
      f_equal. rewrite str_length_app. simpl. lia. }
    rewrite Hd, str_length_app in Hf. simpl in Hf.
    destruct (sensitive (scan_key (str_drop scan value) (String.length l))) eqn:Hs; simpl.
    + rewrite Hpost. destruct (str_find amp post) as [pos|] eqn:Ea.
      * apply str_find_Some in Ea as (v & t & -> & <- & Hv).
        assert (str_drop (scan + String.length l + 1 + String.length v) value
                = String amp t) as Ht.
        { rewrite <-str_drop_drop, Hpost. by apply str_drop_app. }
        rewrite IH by (try done; rewrite Ht; rewrite str_length_app in Hf; simpl in *; lia).
        rewrite Ht, (H2 eq_refl v (String amp t)) by eauto. rewrite Hsl.
        unfold slice at 2. rewrite Nat.sub_diag. simpl.
        rewrite <-!str_app_assoc. done.
      * apply str_find_None in Ea.
        rewrite IH by (try done; rewrite str_drop_all; simpl; lia).
        rewrite str_drop_all by done.
        rewrite (H2 eq_refl post "") by (rewrite ?str_app_nil_r; auto). rewrite Hsl.
        unfold slice at 2. rewrite Nat.sub_diag. simpl.
        rewrite <-!str_app_assoc. done.
    + rewrite IH by (try lia; rewrite Hpost; lia).
      rewrite Hpost, H1, Hsl by done. rewrite <-!str_app_assoc. done.
Qed.

(** The redactor that scans a diagnostic once with byte offsets computes
    the per-pair reference for every text and every list of sensitive names:
    split at ampersands, and in each pair replace what follows the first
    sensitive name; the scan always terminates within its fuel. *)
Theorem redact_query_params_reference value :
  redact_query_params sensitive_params value = redact_pairs sensitive_params value.
Proof.
  unfold redact_query_params. rewrite redact_loop_ref by (simpl; lia). done.
Qed.

(** A sensitive name is never followed by anything but the marker. *)
Lemma ref_pair_no_amp p : contains_char amp p = false → contains_char amp (ref_pair p) = false.
Proof.
  induction p as [p IH] using (induction_ltof1 _ String.length). unfold ltof in IH.
  intros Hp. destruct (split_once equals p) as [[k r]|] eqn:E.
  - apply split_once_Some in E as [-> Hk]. rewrite ref_pair_eq by done.
    rewrite contains_char_app in Hp |- *. apply orb_false_iff in Hp as [-> Hr]. simpl in *.
    case_match; [done|]. apply IH; [rewrite str_length_app; simpl; lia|done].
  - apply split_once_None in E. by rewrite ref_pair_plain.
Qed.

Lemma split_join_amp l :
  l ≠ [] → Forall (λ w, contains_char amp w = false) l → split_char amp (join "&" l) = l.
Proof.
  intros Hne H. induction H as [|w l Hw Hl IH]; [done|].
  destruct l as [|w' l]; [by apply split_char_single|].
  rewrite join_cons, split_char_app by done. by rewrite IH.
Qed.

Lemma split_ref s : split_char amp (ref s) = ref_pair <$> split_char amp s.
Proof.
  unfold redact_pairs. apply split_join_amp.
  - intros E%fmap_nil_inv. by apply split_char_ne in E.
  - pose proof (split_char_no_sep amp s) as H. rewrite Forall_fmap.
    eapply Forall_impl; [exact H|]. intros w. apply ref_pair_no_amp.
Qed.

(** In a text cut at ampersands, a pair whose name (the text before its first
    equals sign) is sensitive has exactly the marker as its value. *)
Definition no_secret (value : string) : Prop :=
  ∀ pair name secret,
    pair ∈ split_char amp value → split_once equals pair = Some (name, secret) →
    is_sensitive_query_key sensitive_params name = true → secret = REDACTED.

Lemma redacted_no_secret value : no_secret (redact_query_params sensitive_params value).
Proof.
  unfold no_secret, redact_query_params. intros pair name secret.
  rewrite redact_loop_ref by (simpl; lia).
  change (slice 0 0 value) with "". simpl. rewrite split_ref.
  intros (p & -> & Hp)%list_elem_of_fmap Hsplit Hs.
  destruct (split_once equals p) as [[k r]|] eqn:E.
  - apply split_once_Some in E as [-> Hk]. rewrite ref_pair_eq in Hsplit by done.
    rewrite split_once_app in Hsplit by done. injection Hsplit as -> <-. by rewrite Hs.
  - pose proof E as E'. apply split_once_None in E'. rewrite ref_pair_plain in Hsplit by done.
    congruence.
Qed.

Lemma empty_no_secret : no_secret "".
Proof. intros pair name secret ->%list_elem_of_singleton. done. Qed.

(** No sensitive value survives redaction: in the redacted text, cut at
    ampersands, a pair whose name (the text before its first equals sign) is
    sensitive has exactly the marker as its value. *)
Theorem redact_query_params_no_secret value pair name secret :
  pair ∈ split_char amp (redact_query_params sensitive_params value) →
  split_once equals pair = Some (name, secret) →
  is_sensitive_query_key sensitive_params name = true → secret = REDACTED.
Proof. apply redacted_no_secret. Qed.

End Equivalence.

(** A parser that takes the key as it is, for evaluation. *)
Definition plain_form : FormUrlencoded := λ key, if is_empty key then None else Some key.

Lemma redact_query_params_no_secret_witness :
  let _ := plain_form in
  redact_query_params DEFAULT_SENSITIVE_QUERY_PARAMS "q=1&API_KEY=hunter2&x=token=abc"
    = "q=1&API_KEY=[REDACTED]&x=token=[REDACTED]" ∧
  "[REDACTED]" = REDACTED.
Proof.
  split; [vm_compute; reflexivity|].
  apply (redact_query_params_no_secret (FU := plain_form) DEFAULT_SENSITIVE_QUERY_PARAMS
           "q=1&API_KEY=hunter2&x=token=abc" "API_KEY=[REDACTED]" "API_KEY").
  - vm_compute. right. left.
  - vm_compute. reflexivity.
  - vm_compute. reflexivity.
Defined.
