(* ===== verification/Decision.v ===== *)
(** * Enforcement decisions ([enforcement/decision.rs], [enforcement/error.rs])

    The decision type every stage returns, the identity slot the pipeline fills
    after Stage 1, and the fail-closed conversion of internal errors. *)

From S2P Require Import Prelude RustStr ActionClasses Core.

#[local] Open Scope string_scope.

Inductive CapabilityValidationStage := TokenSelection | TokenValidationS.
Inductive ConstraintEnforcementStage := ScopeCheck | BundleFreshness | PolicyEvaluationS.

Inductive EnforcementStage :=
| Normalization
| CapabilityValidation (s : CapabilityValidationStage)
| ConstraintEnforcement (s : ConstraintEnforcementStage)
| CredentialInjection.

#[export] Instance cv_stage_eq_dec : EqDecision CapabilityValidationStage.
Proof. solve_decision. Defined.
#[export] Instance ce_stage_eq_dec : EqDecision ConstraintEnforcementStage.
Proof. solve_decision. Defined.
#[export] Instance stage_eq_dec : EqDecision EnforcementStage.
Proof. solve_decision. Defined.

Record DenyIdentity := {
  di_token_id : string;
  di_agent_id : string;
  di_context_hash : string;
}.

#[export] Instance deny_identity_eq_dec : EqDecision DenyIdentity.
Proof. solve_decision. Defined.

(** [DenyIdentity::from_claims]. *)
Definition identity_from_claims (c : CapabilityClaims) : DenyIdentity :=
  {| di_token_id := token_id c; di_agent_id := agent_id c; di_context_hash := context_hash c |}.

Section WithHttp.
Context `{!HttpCrate}.

(** [NormalizedEnvelope]: what the normalizer can fill. *)
Record NormalizedEnvelope := {
  ne_intent : ExecutionIntent;
  ne_timestamp : Z;
}.

Inductive EnforcementDecision :=
| Allow (claims : CapabilityClaims) (envelope : ExecutionEnvelope)
    (credentials : InjectedCredentials)
| Deny (reason : DenyReason) (stage : EnforcementStage) (detail : string)
    (envelope : option NormalizedEnvelope) (identity : option DenyIdentity)
| Abort (reason : AbortReason) (detail : string) (identity : option DenyIdentity)
| Passthrough (detail : string)
| Modify (claims : CapabilityClaims) (envelope : ExecutionEnvelope)
    (modifications : ModificationSpec) (credentials : InjectedCredentials)
| StepUp (claims : option CapabilityClaims) (envelope : option NormalizedEnvelope)
    (challenge : string) (retry_after_ms : Z) (identity : option DenyIdentity)
| Defer (claims : option CapabilityClaims) (envelope : option NormalizedEnvelope)
    (retry_after_ms : Z) (identity : option DenyIdentity).

(** [EnforcementDecision::with_identity]. *)
Definition with_identity (d : EnforcementDecision) (i : DenyIdentity) : EnforcementDecision :=
  match d with
  | Deny reason stage detail env _ => Deny reason stage detail env (Some i)
  | Abort reason detail _ => Abort reason detail (Some i)
  | StepUp c e ch r _ => StepUp c e ch r (Some i)
  | Defer c e r _ => Defer c e r (Some i)
  | Allow _ _ _ | Modify _ _ _ _ | Passthrough _ => d
  end.

(** [EnforcementDecision::is_allow] and [is_deny]. *)
Definition is_allow (d : EnforcementDecision) : bool :=
  match d with Allow _ _ _ => true | _ => false end.

Definition is_deny (d : EnforcementDecision) : bool :=
  match d with Deny _ _ _ _ _ => true | _ => false end.

(** ** Internal errors *)

Inductive EnforcementError :=
| NormalizationFailed (detail : string)
| NoMatchingToken (detail : string)
| TokenValidation (e : TokenError)
| ScopeViolationE (detail : string)
| PolicyDeniedE (detail : string)
| PolicyBundleStaleE
| Config (msg : string).

(** [token_error_to_deny_reason]. *)
Definition token_error_to_deny_reason (e : TokenError) : DenyReason :=
  match e with
  | Expired _ => TokenExpired
  | Revoked _ => TokenRevoked
  | _ => TokenInvalid
  end.

(** [EnforcementError::into_deny]. *)
Definition into_deny (e : EnforcementError) (stage : EnforcementStage) : EnforcementDecision :=
  let '(reason, detail) :=
    match e with
    | NormalizationFailed detail => (UnclassifiedIntent, detail)
    | NoMatchingToken detail => (TokenInvalid, detail)
    | TokenValidation e => (token_error_to_deny_reason e, token_error_display e)
    | ScopeViolationE detail => (ScopeViolation, detail)
    | PolicyDeniedE detail => (PolicyDenied, detail)
    | PolicyBundleStaleE => (PolicyBundleStale, "policy bundle TTL expired")
    | Config msg => (MalformedRequest, msg)
    end in
  Deny reason stage detail None None.

(** A decision that lets the call proceed to a connector. *)
Definition permits (d : EnforcementDecision) : Prop :=
  match d with Allow _ _ _ | Modify _ _ _ _ => True | _ => False end.

Lemma into_deny_is_deny e stage : is_deny (into_deny e stage) = true.
Proof. by destruct e. Qed.

Lemma into_deny_blocks e stage : ¬ permits (into_deny e stage).
Proof. destruct e; simpl; tauto. Qed.

Lemma with_identity_permits d i : permits (with_identity d i) ↔ permits d.
Proof. by destruct d. Qed.

End WithHttp.

#[export] Hint Resolve into_deny_is_deny into_deny_blocks : firma.
