(* ===== verification/MappingTable.v ===== *)
(** * Mapping tables ([normalizer/mapping.rs], [config/enforcement.rs])

    Validation and compilation of mapping rules into a table ordered by
    descending specificity, and the first-match lookup. *)

From Stdlib Require Import Sorting.Sorted.
From S2P Require Import Prelude RustStr RustNet ActionClasses Core Mapping MappingGlob.

#[local] Open Scope string_scope.

(** ** Configuration *)

Record MappingRuleConfig := {
  cfg_method : option Method;
  cfg_host : string;
  cfg_path : option string;
  cfg_action_class : string;
}.

Record MappingRulesFile := { file_rules : list MappingRuleConfig }.

(** [HttpMethod::iter()]. *)
Definition http_methods : list HttpMethod :=
  [GET; POST; PUT; DELETE; PATCH; HEAD; OPTIONS; CONNECT].

(** [MappingRuleConfig::validate]. *)
Definition rule_config_validate (r : MappingRuleConfig) : Result unit string :=
  let? _ := validate_authored_mapping_host (cfg_host r) in
  if is_empty (trim (cfg_action_class r)) then Err "action_class must not be empty"
  else match cfg_method r with
       | Some m =>
           if is_ok (http_method_from_str m) then Ok tt
           else Err ("invalid HTTP method '" +:+ m +:+ "'; expected one of: " +:+
                     join ", " (http_method_as_str <$> http_methods))
       | None => Ok tt
       end.

Definition rule_prefix (i : nat) (e : string) : string :=
  "rule " +:+ pretty i +:+ ": " +:+ e.

(** [MappingRulesFile::validate]: the first invalid rule, by index. *)
Fixpoint rules_validate (i : nat) (rules : list MappingRuleConfig) : Result unit string :=
  match rules with
  | [] => Ok tt
  | r :: rules =>
      let? _ := map_err (rule_prefix i) (rule_config_validate r) in
      rules_validate (S i) rules
  end.

Definition rules_file_validate (f : MappingRulesFile) : Result unit string :=
  rules_validate 0 (file_rules f).

(** ** Compiled rules *)

Inductive MappingTableError :=
| InvalidRulesFile (message : string)
| DuplicateRule (index : nat) (rule : MappingRuleConfig)
| NonExistingActionClass (index : nat) (rule : MappingRuleConfig).

Record MappingRule := {
  mr_method : option Method;
  host_pattern : string;
  path_pattern : option string;
  mr_action_class : string;
  specificity : nat;
}.

Record MappingTable := { rules : list MappingRule }.

Inductive MatchResult :=
| Matched (r : MappingRule)
| UnclassifiedProtected.

(** [MappingTable::empty_protected]. *)
Definition empty_protected : MappingTable := {| rules := [] |}.

(** [MappingRule::compute_specificity]. *)
Definition compute_specificity (method : option Method) (host : string) (path : option string)
    : nat :=
  mapping_specificity (bool_decide (is_Some method)) host path.

(** The matcher a rule is identified by, hosts in normal form. *)
Definition rule_key (r : MappingRuleConfig) : option Method * string * string :=
  (cfg_method r, normalize_mapping_host (cfg_host r), default "" (cfg_path r)).

(** First loop of [compile]: reject duplicate matchers. *)
Fixpoint check_duplicates (i : nat) (seen : list (option Method * string * string))
    (rs : list MappingRuleConfig) : Result unit MappingTableError :=
  match rs with
  | [] => Ok tt
  | r :: rs' =>
      if decide (rule_key r ∈ seen) then Err (DuplicateRule i r)
      else check_duplicates (S i) (rule_key r :: seen) rs'
  end.

Definition compile_rule (r : MappingRuleConfig) : MappingRule :=
  let host := normalize_mapping_host (cfg_host r) in
  {| mr_method := cfg_method r; host_pattern := host; path_pattern := cfg_path r;
     mr_action_class := cfg_action_class r;
     specificity := compute_specificity (cfg_method r) host (cfg_path r) |}.

(** Second loop of [compile]. *)
Fixpoint compile_rules (registry : Registry.ActionClassRegistry) (i : nat) (rs : list MappingRuleConfig)
    : Result (list MappingRule) MappingTableError :=
  match rs with
  | [] => Ok []
  | r :: rs' =>
      if negb (Registry.contains registry (cfg_action_class r))
      then Err (NonExistingActionClass i r)
      else let? rest := compile_rules registry (S i) rs' in Ok (compile_rule r :: rest)
  end.

(** [sort_by_key(Reverse(specificity))]: a stable sort, so a rule stays before
    later rules of the same specificity. *)
Fixpoint insert_rule (r : MappingRule) (l : list MappingRule) : list MappingRule :=
  match l with
  | [] => [r]
  | x :: l' => if Nat.leb (specificity x) (specificity r) then r :: l else x :: insert_rule r l'
  end.

Definition sort_rules (l : list MappingRule) : list MappingRule := foldr insert_rule [] l.

(** [MappingTable::compile]. *)
Definition compile (file : MappingRulesFile) (registry : Registry.ActionClassRegistry)
    : Result MappingTable MappingTableError :=
  let? _ := check_duplicates 0 [] (file_rules file) in
  let? rs := compile_rules registry 0 (file_rules file) in
  Ok {| rules := sort_rules rs |}.

(** [MappingTable::from_config]. *)
Definition from_config (file : MappingRulesFile) (registry : Registry.ActionClassRegistry)
    : Result MappingTable MappingTableError :=
  let? _ := map_err InvalidRulesFile (rules_file_validate file) in
  compile file registry.

(** [ManagedMappingRuleError]'s [Display]. *)
Definition managed_rule_error_display (e : ManagedMappingRuleError) : string :=
  match e with
  | MHost => "invalid normalized host"
  | MMethod => "invalid HTTP method"
  | MPath => "invalid path"
  | MActionClass => "unknown action class"
  end.

Fixpoint managed_validate (i : nat) (rs : list MappingRuleConfig)
    : Result unit MappingTableError :=
  match rs with
  | [] => Ok tt
  | r :: rs' =>
      let? _ := map_err (λ e, InvalidRulesFile (rule_prefix i (managed_rule_error_display e)))
                  (validate_managed_rule (cfg_method r) (cfg_host r) (cfg_path r)
                     (cfg_action_class r)) in
      managed_validate (S i) rs'
  end.

(** [MappingTable::from_managed_rules]. *)
Definition from_managed_rules (rs : list MappingRuleConfig)
    : Result MappingTable MappingTableError :=
  let? _ := managed_validate 0 rs in
  compile {| file_rules := rs |} Registry.v0_1.

(** [MappingTable::rule_matches]. *)
Definition rule_matches (rule : MappingRule) (method : Method) (host : Authority)
    (path : string) : bool :=
  if match mr_method rule with Some m => negb (bool_decide (m = method)) | None => false end
  then false
  else if negb (glob_match (host_pattern rule) host) then false
  else match path_pattern rule with
       | Some pattern => glob_match pattern path
       | None => true
       end.

Fixpoint first_match (rs : list MappingRule) (method : Method) (host : Authority)
    (path : string) : MatchResult :=
  match rs with
  | [] => UnclassifiedProtected
  | rule :: rs' =>
      if rule_matches rule method host path then Matched rule
      else first_match rs' method host path
  end.

(** [MappingTable::find_match]. *)
Definition find_match (t : MappingTable) (method : Method) (host : Authority) (path : string)
    : MatchResult := first_match (rules t) method host path.

(** [mapping::normalize_dispatch_host]. *)
Definition normalize_dispatch_host (host : string) (is_https : bool) : string :=
  let '(name, port) := split_mapping_authority host in
  let default_port := if is_https then "443" else "80" in
  match port with
  | Some port => if bool_decide (port = default_port) then name else name +:+ ":" +:+ port
  | None => name
  end.

(** ** Facts *)

(** More specific first. *)
Definition more_specific (a b : MappingRule) : Prop := (specificity b ≤ specificity a)%nat.

Lemma insert_rule_perm r l : insert_rule r l ≡ₚ r :: l.
Proof.
  induction l as [|x l IH]; simpl; [done|]. case_match; [done|].
  rewrite IH. apply perm_swap.
Qed.

Lemma sort_rules_perm l : sort_rules l ≡ₚ l.
Proof. induction l as [|r l IH]; simpl; [done|]. by rewrite insert_rule_perm, IH. Qed.

Lemma insert_rule_sorted r l :
  StronglySorted more_specific l → StronglySorted more_specific (insert_rule r l).
Proof.
  induction 1 as [|x l Hl IH Hx]; simpl; [repeat constructor|].
  destruct (Nat.leb_spec (specificity x) (specificity r)) as [Hle|Hgt].
  - constructor; [by constructor|]. constructor; [done|].
    eapply Forall_impl; [exact Hx|]. unfold more_specific. intros y. simpl. lia.
  - constructor; [done|]. rewrite insert_rule_perm. constructor; [|done].
    unfold more_specific. lia.
Qed.

Lemma sort_rules_sorted l : StronglySorted more_specific (sort_rules l).
Proof. induction l; simpl; [constructor|]. by apply insert_rule_sorted. Qed.

(** The order of rules of one specificity is kept. *)
Lemma insert_rule_stable r l n :
  StronglySorted more_specific l →
  filter (λ x, specificity x = n) (insert_rule r l) = filter (λ x, specificity x = n) (r :: l).
Proof.
  induction 1 as [|x l Hl IH Hx]; [done|]. simpl insert_rule.
  destruct (Nat.leb_spec (specificity x) (specificity r)) as [Hle|Hgt]; [done|].
  rewrite !filter_cons, IH, filter_cons.
  repeat case_decide; try done. lia.
Qed.

Lemma sort_rules_stable l n :
  filter (λ x, specificity x = n) (sort_rules l) = filter (λ x, specificity x = n) l.
Proof.
  induction l as [|r l IH]; simpl sort_rules; [done|].
  change (foldr insert_rule [] (r :: l)) with (insert_rule r (sort_rules l)).
  rewrite insert_rule_stable by apply sort_rules_sorted.
  by rewrite !filter_cons, IH.
Qed.

Lemma rule_matches_spec rule method host path :
  rule_matches rule method host path = true ↔
  (∀ m, mr_method rule = Some m → m = method) ∧
  glob_match (host_pattern rule) host = true ∧
  (∀ p, path_pattern rule = Some p → glob_match p path = true).
Proof.
  unfold rule_matches.
  destruct (mr_method rule) as [m|]; [case_bool_decide|]; simpl;
    destruct (glob_match (host_pattern rule) host); simpl;
    destruct (path_pattern rule); naive_solver.
Qed.

(** ** Lookup *)

Section Lookup.
Context (method : Method) (host : Authority) (path : string).
Abbreviation matches r := (rule_matches r method host path).
Abbreviation first l := (first_match l method host path).

Lemma first_match_insert r l :
  StronglySorted more_specific l →
  first (insert_rule r l) =
  if matches r then
    match first l with
    | Matched b => if Nat.leb (specificity b) (specificity r) then Matched r else Matched b
    | UnclassifiedProtected => Matched r
    end
  else first l.
Proof.
  induction 1 as [|x l Hl IH Hx]; simpl; [by case_match|].
  destruct (Nat.leb_spec (specificity x) (specificity r)) as [Hle|Hgt]; simpl.
  - destruct (matches r) eqn:Hr; [|done]. destruct (matches x) eqn:Hm.
    + apply Nat.leb_le in Hle. by rewrite Hle.
    + destruct (first l) as [b|] eqn:Hf; [|done].
      assert (b ∈ l) as Hb.
      { clear -Hf. induction l as [|y l IH]; simpl in Hf; [done|].
        destruct (matches y); [injection Hf as ->; left|right; auto]. }
      rewrite Forall_forall in Hx. specialize (Hx b Hb). unfold more_specific in Hx.
      assert ((specificity b <=? specificity r)%nat = true) as ->; [apply Nat.leb_le; lia|done].
  - destruct (matches x) eqn:Hm; [|done]. destruct (matches r); [|done].
    apply Nat.leb_gt in Hgt. by rewrite Hgt.
Qed.

(** [res] is the most specific matching rule of [l], the earliest among equals. *)
Definition best_match (l : list MappingRule) (res : MatchResult) : Prop :=
  match res with
  | Matched r =>
      ∃ i, l !! i = Some r ∧ matches r = true ∧
      ∀ j r', l !! j = Some r' → matches r' = true →
        (specificity r' < specificity r)%nat ∨
        specificity r' = specificity r ∧ (i ≤ j)%nat
  | UnclassifiedProtected => ∀ r, r ∈ l → matches r = false
  end.

Lemma best_match_cons_skip r l res :
  matches r = false → best_match l res → best_match (r :: l) res.
Proof.
  intros Hr. destruct res as [b|]; simpl.
  - intros (i & Hi & Hb & Hmax). exists (S i). split_and!; [done..|].
    intros [|j] r' Hj Hm; simplify_eq/=; [congruence|].
    destruct (Hmax j r' Hj Hm) as [|[]]; [by left|right; lia].
  - intros H x [->|Hx]%elem_of_cons; auto.
Qed.

Lemma sort_rules_best l : best_match l (first (sort_rules l)).
Proof.
  induction l as [|r l IH]; [intros r Hr; inversion Hr|].
  change (sort_rules (r :: l)) with (insert_rule r (sort_rules l)).
  rewrite first_match_insert by apply sort_rules_sorted.
  destruct (matches r) eqn:Hr; [|by apply best_match_cons_skip].
  destruct (first (sort_rules l)) as [b|] eqn:Hf.
  - destruct IH as (i & Hi & Hb & Hmax).
    destruct (Nat.leb_spec (specificity b) (specificity r)) as [Hle|Hgt].
    + exists 0. split_and!; [done..|]. intros [|j] r' Hj Hm; simplify_eq/=; [right; lia|].
      destruct (Hmax j r' Hj Hm) as [|[]]; [left|]; [lia|].
      destruct (decide (specificity r' = specificity r)); [right|left]; lia.
    + exists (S i). split_and!; [done..|]. intros [|j] r' Hj Hm; simplify_eq/=; [by left|].
      destruct (Hmax j r' Hj Hm) as [|[]]; [by left|right; lia].
  - exists 0. split_and!; [done..|]. intros [|j] r' Hj Hm; simplify_eq/=; [right; lia|].
    rewrite (IH r') in Hm; [done|]. by eapply list_elem_of_lookup_2.
Qed.

End Lookup.

(** ** Compilation *)

Lemma check_duplicates_ok i seen rs :
  is_ok (check_duplicates i seen rs) = true ↔
  NoDup (rule_key <$> rs) ∧ (∀ k, k ∈ rule_key <$> rs → k ∉ seen).
Proof.
  revert i seen. induction rs as [|r rs IH]; intros i seen; simpl.
  - split; [intros _; split; [constructor|]; intros k Hk; inversion Hk|done].
  - case_decide as Hs; simpl.
    + split; [done|]. intros [_ H]. exfalso. apply (H (rule_key r)); [left|done].
    + rewrite IH, NoDup_cons. setoid_rewrite elem_of_cons. naive_solver.
Qed.

Lemma compile_rules_ok reg i rs out :
  compile_rules reg i rs = Ok out →
  out = compile_rule <$> rs ∧
  Forall (λ r, Registry.contains reg (cfg_action_class r) = true) rs.
Proof.
  revert i out. induction rs as [|r rs IH]; intros i out; simpl.
  - intros [= <-]. done.
  - destruct (Registry.contains reg (cfg_action_class r)) eqn:Hr; simpl; [|done].
    destruct (compile_rules reg (S i) rs) as [rest|] eqn:Hc; [|done]. intros [= <-].
    destruct (IH _ _ Hc) as [-> ?]. by repeat constructor.
Qed.

Lemma compile_rules_total reg i rs :
  Forall (λ r, Registry.contains reg (cfg_action_class r) = true) rs →
  is_ok (compile_rules reg i rs) = true.
Proof.
  intros H. revert i. induction H as [|r rs Hr H IH]; intros i; simpl; [done|].
  rewrite Hr. simpl. specialize (IH (S i)). by destruct (compile_rules reg (S i) rs).
Qed.

Lemma compile_inv file reg t :
  compile file reg = Ok t →
  rules t = sort_rules (compile_rule <$> file_rules file) ∧
  Forall (λ r, Registry.contains reg (cfg_action_class r) = true) (file_rules file) ∧
  NoDup (rule_key <$> file_rules file).
Proof.
  unfold compile. destruct (check_duplicates 0 [] (file_rules file)) eqn:Hd; [|done].
  destruct (compile_rules reg 0 (file_rules file)) eqn:Hc; [|done]. intros [= <-].
  apply compile_rules_ok in Hc as [-> ?]. split_and!; [done..|].
  apply (proj1 (check_duplicates_ok 0 [] (file_rules file))). by rewrite Hd.
Qed.

Lemma managed_validate_ok i rs :
  is_ok (managed_validate i rs) = true ↔
  Forall (λ r, validate_managed_rule (cfg_method r) (cfg_host r) (cfg_path r)
                 (cfg_action_class r) = Ok tt) rs.
Proof.
  revert i. induction rs as [|r rs IH]; intros i; simpl; [by split; constructor|].
  rewrite Forall_cons.
  destruct (validate_managed_rule _ _ _ _) as [[]|]; simpl; [|naive_solver].
  rewrite IH. naive_solver.
Qed.

Lemma validate_managed_rule_class m h p a :
  validate_managed_rule m h p a = Ok tt → Registry.contains Registry.v0_1 a = true.
Proof.
  unfold validate_managed_rule.
  destruct (ActionClass.from_str a) as [c|] eqn:E; simpl; [|by repeat case_match].
  intros _. apply Registry.contains_v0_1. exists c. by apply ActionClass.from_str_sound in E.
Qed.

(** The rule a request is classified under is the most specific matching
    rule of the compiled file, and the earliest one in the file among equally
    specific ones; it carries a registered action class.  When no rule of the
    file matches, the request is unclassified and protected, never passed. *)
Theorem find_match_most_specific file registry table method host path :
  compile file registry = Ok table →
  best_match method host path (compile_rule <$> file_rules file)
    (find_match table method host path) ∧
  (∀ r, find_match table method host path = Matched r →
     Registry.contains registry (mr_action_class r) = true).
Proof.
  intros (Hr & Hreg & _)%compile_inv. unfold find_match. rewrite Hr.
  pose proof (sort_rules_best method host path (compile_rule <$> file_rules file)) as Hb.
  split; [done|]. intros r Hm. rewrite Hm in Hb. destruct Hb as (i & Hi & _).
  apply list_lookup_fmap_Some in Hi as (c & -> & Hc).
  rewrite Forall_forall in Hreg. apply (Hreg c). by eapply list_elem_of_lookup_2.
Qed.

(** A managed rule list is accepted exactly when every rule passes the
    canonical rule language and no two rules have the same matcher; nothing
    else makes compilation fail, and nothing else is accepted. *)
Theorem from_managed_rules_accepts rs :
  is_ok (from_managed_rules rs) = true ↔
  Forall (λ r, validate_managed_rule (cfg_method r) (cfg_host r) (cfg_path r)
                 (cfg_action_class r) = Ok tt) rs ∧
  NoDup (rule_key <$> rs).
Proof.
  unfold from_managed_rules, compile. rewrite <-(managed_validate_ok 0 rs).
  pose proof (check_duplicates_ok 0 [] rs) as Hd. simpl.
  assert (∀ k, k ∈ rule_key <$> rs → k ∉ []) as Hn by (intros k _ Hk; inversion Hk).
  destruct (managed_validate 0 rs) as [[]|] eqn:Hv; simpl; [|naive_solver].
  assert (is_ok (compile_rules Registry.v0_1 0 rs) = true) as Hc.
  { apply compile_rules_total. apply (f_equal is_ok) in Hv. apply managed_validate_ok in Hv.
    eapply Forall_impl; [exact Hv|]. intros r. apply validate_managed_rule_class. }
  destruct (check_duplicates 0 [] rs) as [[]|]; simpl in *; [|naive_solver].
  destruct (compile_rules Registry.v0_1 0 rs); simpl in *; naive_solver.
Qed.

Definition sample_rule (m : option Method) (h : string) (p : option string) (a : string)
    : MappingRuleConfig :=
  {| cfg_method := m; cfg_host := h; cfg_path := p; cfg_action_class := a |}.

Definition sample_file : MappingRulesFile :=
  {| file_rules :=
       [sample_rule None "*" None "code.review.read";
        sample_rule (Some "POST") "API.github.com." (Some "/repos/*") "code.write";
        sample_rule None "api.github.com" (Some "/repos/*") "code.read"] |}.

Lemma find_match_most_specific_witness :
  ∃ table, compile sample_file Registry.v0_1 = Ok table ∧
  best_match "POST" "api.github.com" "/repos/x" (compile_rule <$> file_rules sample_file)
    (find_match table "POST" "api.github.com" "/repos/x").
Proof.
  eexists. split; [vm_compute; reflexivity|].
  apply (find_match_most_specific sample_file Registry.v0_1). vm_compute. reflexivity.
Defined.
