(* ===== verification/Json.v ===== *)
(** * JSON values ([serde_json::Value])

    A JSON object is a map by key; numbers are integers or floats, as
    [serde_json] keeps them apart.  Parsing and printing are parameters. *)

From Stdlib Require Import SpecFloat.
From S2P Require Import Prelude.

Inductive Json :=
| JNull
| JBool (b : bool)
| JInt (z : Z)
| JFloat (f : spec_float)
| JString (s : string)
| JArray (l : list Json)
| JObject (m : gmap string Json).

(** [Value::get(key)] and [Value::as_str]. *)
Definition json_get (key : string) (v : Json) : option Json :=
  match v with JObject m => m !! key | _ => None end.

Definition json_as_str (v : Json) : option string :=
  match v with JString s => Some s | _ => None end.

(** [serde_json::from_slice]; the error is its [Display]. *)
Class SerdeJson := json_from_slice : string → Result Json string.
