(* ===== verification/Normalizer.v ===== *)
(** * Intent normalizer ([normalizer/mod.rs])

    From a raw intercepted request to the canonical envelope: host and path
    canonicalisation, classification, git metadata, header sanitisation.
    Unicode NFC, [form_urlencoded] and [serde_json] are parameters, and so is
    the clock reading. *)

From S2P Require Import Prelude RustStr RustNet ActionClasses Core Mapping MappingGlob.
From S2P Require Import MappingHost Redaction Decision MappingTable Json.

#[local] Open Scope string_scope.

(** [str::nfc().collect()] of [unicode_normalization]. *)
Class UnicodeNfc := nfc : string → string.

(** ** Paths *)

Definition slash : ascii := "/"%char.

(** The character loop of [normalize_path]. *)
Fixpoint collapse_slashes (prev_was_slash : bool) (s : string) : string :=
  match s with
  | "" => ""
  | String ch s =>
      if decide (ch = slash) then
        if prev_was_slash then collapse_slashes true s
        else String ch (collapse_slashes true s)
      else String ch (collapse_slashes false s)
  end.

(** One segment of [resolve_dot_segments]; the vector is kept reversed. *)
Definition resolve_segment (result : list string) (segment : string) : list string :=
  if decide (segment = "" ∨ segment = ".") then result
  else if decide (segment = "..") then tail result
  else segment :: result.

Fixpoint push_segments (segs : list string) : string :=
  match segs with
  | [] => ""
  | seg :: segs => String slash (seg +:+ push_segments segs)
  end.

(** [resolve_dot_segments]. *)
Definition resolve_dot_segments (path : string) : string :=
  let result := rev (fold_left resolve_segment (split_char slash path) []) in
  let out := push_segments result in
  if is_empty out then String slash "" else out.

(** [s[..s.len() - 1]]. *)
Definition drop_last (s : string) : string := str_take (String.length s - 1) s.

(** [normalize_path] up to the NFC step. *)
Definition canonical_path (path : string) : string :=
  let path := default path (head (split_char "#"%char path)) in
  let collapsed := collapse_slashes false path in
  let resolved := resolve_dot_segments collapsed in
  if Nat.ltb 1 (String.length resolved) && ends_with "/" resolved
  then drop_last resolved else resolved.

(** [normalize_path]. *)
Definition normalize_path `{!UnicodeNfc} (path : string) : string :=
  let trimmed := canonical_path path in
  if negb (str_forallb is_ascii trimmed) then nfc trimmed else trimmed.

(** ** Hosts, providers and headers *)

Definition GITHUB_HOSTS : list string := ["api.github.com"; "github.com"].
Definition STRIPE_HOSTS : list string := ["api.stripe.com"].
Definition GMAIL_HOSTS : list string := ["gmail.googleapis.com"].

(** [provider_for_host]. *)
Definition provider_for_host (host : Authority) : option string :=
  if bool_decide (host ∈ GITHUB_HOSTS) then Some "github"
  else if bool_decide (host ∈ STRIPE_HOSTS) then Some "stripe"
  else if bool_decide (host ∈ GMAIL_HOSTS) then Some "gmail"
  else None.

Definition SENSITIVE_HEADERS : list string :=
  ["authorization"; "cookie"; "set-cookie"; "proxy-authorization"; "x-api-key"].

(** [parse_query_string]: later pairs win, as [HashMap::from_iter] inserts. *)
Definition query_pair (pair : string) : option (string * string) :=
  match str_find "="%char pair with
  | Some eq_pos => Some (str_take eq_pos pair, str_drop (eq_pos + 1) pair)
  | None => None
  end.

Definition parse_query_string (query : string) : gmap string string :=
  fold_left (λ m kv, <[fst kv := snd kv]> m) (omap query_pair (split_char "&"%char query)) ∅.

(** ** Git metadata *)

Record GithubRepo := { owner : string; repo : string }.
Record GithubRestRef := { rest_repo : GithubRepo; rest_git_ref : option string }.
Record ReceivePackUpdate := { git_ref : string; operation : string }.

(** [parse_github_git_repo]. *)
Definition parse_github_git_repo (path : string) : option GithubRepo :=
  match split_char slash (trim_start_char slash path) with
  | o :: repo_segment :: _ =>
      if is_empty o then None
      else
        let r := default repo_segment (strip_suffix ".git" repo_segment) in
        if is_empty r then None else Some {| owner := o; repo := r |}
  | _ => None
  end.

(** [is_git_object_id] and [is_zero_object_id]. *)
Definition is_git_object_id (value : string) : bool :=
  (Nat.eqb (String.length value) 40 || Nat.eqb (String.length value) 64) &&
  str_forallb is_ascii_hexdigit value.

Definition is_zero_object_id (value : string) : bool :=
  is_git_object_id value && str_forallb (λ a, bool_decide (a = "0"%char)) value.

Definition malformed (what : string) : string :=
  "malformed git-receive-pack request: " +:+ what.

(** [parse_receive_pack_command]. *)
Definition parse_receive_pack_command (payload : string) : Result ReceivePackUpdate string :=
  if negb (utf8_valid payload) then Err (malformed "command is not UTF-8")
  else
    let line := trim_end_char "010"%char payload in
    let command := match split_once "000"%char line with Some (c, _) => c | None => line end in
    let fields := split_whitespace command in
    let? old_id := ok_or (fields !! 0) (malformed "missing old object id") in
    let? new_id := ok_or (fields !! 1) (malformed "missing new object id") in
    let? ref_name := ok_or (fields !! 2) (malformed "missing ref name") in
    if negb (is_git_object_id old_id) || negb (is_git_object_id new_id)
    then Err (malformed "invalid object id")
    else if negb (starts_with "refs/" ref_name) then Err (malformed "invalid ref name")
    else Ok {| git_ref := ref_name;
               operation := if is_zero_object_id new_id then "delete" else "write" |}.

(** The packet loop of [parse_receive_pack_update], on the bytes from [pos];
    each packet consumes at least four bytes. *)
Fixpoint receive_pack_loop (fuel : nat) (rest : string) (selected : option ReceivePackUpdate)
    : Result (option ReceivePackUpdate) string :=
  match fuel with
  | O => Ok selected
  | S fuel =>
      if is_empty rest then Ok selected
      else if Nat.ltb (String.length rest) 4 then Err (malformed "truncated pkt-line")
      else
        let len_hex := str_take 4 rest in
        if negb (utf8_valid len_hex) then Err (malformed "non-UTF-8 pkt-line length")
        else
          match from_str_radix 16 u64_max len_hex with
          | Err _ => Err (malformed "invalid pkt-line length")
          | Ok len =>
              let rest := str_drop 4 rest in
              if (len =? 0)%Z then Ok selected
              else if (len <? 4)%Z then Err (malformed "invalid pkt-line length")
              else
                let payload_len := Z.to_nat (len - 4) in
                if Nat.ltb (String.length rest) payload_len
                then Err (malformed "truncated pkt-line payload")
                else
                  let? update := parse_receive_pack_command (str_take payload_len rest) in
                  match selected with
                  | Some _ =>
                      Err "unsupported git-receive-pack request: multiple ref update commands"
                  | None => receive_pack_loop fuel (str_drop payload_len rest) (Some update)
                  end
          end
  end.

(** [parse_receive_pack_update]. *)
Definition parse_receive_pack_update (body : string) : Result ReceivePackUpdate string :=
  let? selected := receive_pack_loop (S (String.length body)) body None in
  ok_or selected (malformed "no ref update commands").

(** [git_ref_type]. *)
Definition git_ref_type (r : string) : string :=
  if starts_with "refs/heads/" r then "branch"
  else if starts_with "refs/tags/" r then "tag"
  else "ref".

(** [git_operation_for_rest_method]. *)
Definition git_operation_for_rest_method (method : Method) (action_class : string) : string :=
  if bool_decide (method = "DELETE") || bool_decide (action_class = "code.destructive")
  then "delete"
  else if bool_decide (method = "GET") then "read" else "write".

Definition insert_github_repo_metadata (resource : gmap string string) (r : GithubRepo)
    : gmap string string :=
  <["git_repo" := repo r]> (<["git_owner" := owner r]> (<["git_provider" := "github"]> resource)).

Section Json.
Context `{!SerdeJson}.

(** [parse_ref_from_json_body]. *)
Definition parse_ref_from_json_body (body : option string) : Result (option string) string :=
  match body with
  | None => Ok None
  | Some body =>
      if is_empty body then Ok None
      else
        let? json := map_err
          (λ err, "malformed GitHub git refs request: request body is not JSON: " +:+ err)
          (json_from_slice body) in
        Ok (json_get "ref" json ≫= json_as_str)
  end.

Definition nonempty_segment (o : option string) (e : string) : Result string string :=
  match o with
  | Some value => if is_empty value then Err e else Ok value
  | None => Err e
  end.

(** [parse_github_rest_ref]. *)
Definition parse_github_rest_ref (path : string) (body : option string)
    : Result (option GithubRestRef) string :=
  let segments := split_char slash (trim_start_char slash path) in
  if Nat.ltb (length segments) 5 || negb (bool_decide (segments !! 0 = Some "repos"))
     || negb (bool_decide (segments !! 3 = Some "git"))
     || negb (bool_decide (segments !! 4 = Some "refs"))
  then Ok None
  else
    let? o := nonempty_segment (segments !! 1)
                "malformed GitHub git refs request: missing owner" in
    let? r := nonempty_segment (segments !! 2)
                "malformed GitHub git refs request: missing repo" in
    let suffix := drop 5 segments in
    let? g := match suffix with
              | [] => parse_ref_from_json_body body
              | _ => Ok (Some ("refs/" +:+ join "/" suffix))
              end in
    Ok (Some {| rest_repo := {| owner := o; repo := r |}; rest_git_ref := g |}).

End Json.

(** ** The normalizer *)

Section Normalize.
Context `{!HttpCrate} `{!SerdeJson} `{!UnicodeNfc} `{!FormUrlencoded}.

Record RawRequest := {
  rq_method : Method;
  rq_host : Authority;
  rq_path : string;
  rq_headers : HeaderMap;
  rq_body : option string;
  rq_is_https : bool;
}.

Record IntentNormalizer := {
  mapping_table : MappingTable;
  sensitive_query_params : list string;
}.

(** [IntentNormalizer::new], [with_mapping_table], [with_custom_query_params]. *)
Definition normalizer_new (t : MappingTable) : IntentNormalizer :=
  {| mapping_table := t; sensitive_query_params := DEFAULT_SENSITIVE_QUERY_PARAMS |}.

Definition with_mapping_table (n : IntentNormalizer) (t : MappingTable) : IntentNormalizer :=
  {| mapping_table := t; sensitive_query_params := sensitive_query_params n |}.

Definition with_custom_query_params (t : MappingTable) (custom : list string)
    : IntentNormalizer :=
  {| mapping_table := t;
     sensitive_query_params :=
       fold_left (λ merged param,
         if existsb (λ p, eq_ignore_ascii_case p param) merged then merged
         else (merged ++ [param])%list)
       custom DEFAULT_SENSITIVE_QUERY_PARAMS |}.

(** [IntentNormalizer::redact_query]. *)
Definition redact_query (n : IntentNormalizer) (value : string) : string :=
  redact_query_params (sensitive_query_params n) value.

(** [sanitize_headers]. *)
Definition sanitize_headers (headers : HeaderMap) : HeaderMap :=
  hm_from_iter (filter (λ kv, kv.1 ∉ SENSITIVE_HEADERS) (hm_iter headers)).

(** [normalize_host]. *)
Definition normalize_host (host : Authority) : Result Authority string :=
  authority_from_str (normalize_mapping_host host).

(** "<what>: <method> <path> (host: <host>)". *)
Definition describe (what : string) (r : RawRequest) : string :=
  what +:+ ": " +:+ rq_method r +:+ " " +:+ rq_path r +:+ " (host: " +:+ rq_host r +:+ ")".

(** [git_normalization_deny]. *)
Definition git_normalization_deny (r : RawRequest) (detail : string) : EnforcementDecision :=
  into_deny (NormalizationFailed (describe detail r)) Normalization.

(** [enrich_github_smart_http_metadata]: the action class and the resource. *)
Definition enrich_github_smart_http_metadata (r : RawRequest) (normalized_path : string)
    (resource : gmap string string) (action_class : string)
    : Result (string * gmap string string) EnforcementDecision :=
  match parse_github_git_repo normalized_path with
  | None => Ok (action_class, resource)
  | Some repo =>
      let resource := insert_github_repo_metadata resource repo in
      if ends_with "/info/refs" normalized_path then
        Ok (action_class, <["git_operation" := "read"]> resource)
      else if ends_with "/git-upload-pack" normalized_path then
        Ok (action_class, <["git_operation" := "read"]> resource)
      else if ends_with "/git-receive-pack" normalized_path then
        let? body := ok_or (rq_body r)
          (git_normalization_deny r
             "malformed git-receive-pack request: missing request body") in
        let? update := map_err (git_normalization_deny r) (parse_receive_pack_update body) in
        let resource :=
          <["git_operation" := operation update]>
            (<["git_ref_type" := git_ref_type (git_ref update)]>
              (<["git_ref" := git_ref update]> resource)) in
        if bool_decide (operation update = "delete") then Ok ("code.destructive", resource)
        else Ok (action_class, resource)
      else Ok (action_class, resource)
  end.

(** [enrich_github_rest_ref_metadata]. *)
Definition enrich_github_rest_ref_metadata (r : RawRequest) (normalized_path : string)
    (query_params : gmap string string) (resource : gmap string string) (action_class : string)
    : Result (string * gmap string string) EnforcementDecision :=
  let? parsed := map_err (git_normalization_deny r)
                   (parse_github_rest_ref normalized_path (rq_body r)) in
  match parsed with
  | None => Ok (action_class, resource)
  | Some rest_ref =>
      let resource := insert_github_repo_metadata resource (rest_repo rest_ref) in
      let resource :=
        match rest_git_ref rest_ref with
        | Some g => <["git_ref" := g]> (<["git_ref_type" := git_ref_type g]> resource)
        | None => resource
        end in
      let operation := git_operation_for_rest_method (rq_method r) action_class in
      let resource := <["git_operation" := operation]> resource in
      let resource :=
        if bool_decide (query_params !! "service" = Some "git-receive-pack")
        then <["git_operation" := "read"]> resource else resource in
      Ok (action_class, resource)
  end.

(** [enrich_github_git_metadata]. *)
Definition enrich_github_git_metadata (r : RawRequest) (normalized_host : Authority)
    (normalized_path : string) (query_params resource : gmap string string)
    (action_class : string) : Result (string * gmap string string) EnforcementDecision :=
  if bool_decide (normalized_host = "github.com") then
    enrich_github_smart_http_metadata r normalized_path resource action_class
  else if bool_decide (normalized_host = "api.github.com") then
    enrich_github_rest_ref_metadata r normalized_path query_params resource action_class
  else Ok (action_class, resource).

(** [IntentNormalizer::normalize]; [now] is [runtime_timestamp()]. *)
Definition normalize (n : IntentNormalizer) (now : Z) (r : RawRequest)
    : Result NormalizedEnvelope EnforcementDecision :=
  let '(path_without_query, query_string) :=
    default (rq_path r, "") (split_once "?"%char (rq_path r)) in
  let normalized_path := normalize_path path_without_query in
  match normalize_host (rq_host r) with
  | Err _ =>
      Err (into_deny (NormalizationFailed (describe "invalid HTTP host" r)) Normalization)
  | Ok normalized_host =>
      let '(sanitized_path, query_params) :=
        if is_empty query_string then (normalized_path, ∅)
        else (normalized_path +:+ "?" +:+ redact_query n query_string,
              parse_query_string query_string) in
      match find_match (mapping_table n) (rq_method r) normalized_host normalized_path with
      | Matched rule =>
          let raw_action_ref := rq_method r +:+ " " +:+ rq_path r in
          let raw_transport := if rq_is_https r then "https" else "http" in
          let dispatch_host := normalize_dispatch_host (rq_host r) (rq_is_https r) in
          let resource := <["path" := sanitized_path]> (<["host" := dispatch_host]> ∅) in
          let resource :=
            match provider_for_host normalized_host with
            | Some provider => <["provider" := provider]> resource
            | None => resource
            end in
          let? enriched := enrich_github_git_metadata r normalized_host normalized_path
                             query_params resource (mr_action_class rule) in
          match http_method_try_from (rq_method r) with
          | Err _ =>
              Err (into_deny (NormalizationFailed (describe "unrecognized HTTP method" r))
                     Normalization)
          | Ok http_method =>
              Ok {| ne_intent :=
                      {| action_class := enriched.1; resource := enriched.2;
                         params := Http {| hp_method := http_method;
                                           hp_headers := sanitize_headers (rq_headers r);
                                           hp_body := rq_body r; hp_query := query_params |};
                         raw_transport := raw_transport;
                         raw_action_ref := raw_action_ref |};
                    ne_timestamp := now |}
          end
      | UnclassifiedProtected =>
          Err (into_deny (NormalizationFailed
                 (describe "protected action could not be classified" r)) Normalization)
      end
  end.

End Normalize.

(** ** Path canonicalisation *)

(** The segments a path names once "." and ".." are resolved. *)
Definition segments (path : string) : list string :=
  rev (fold_left resolve_segment
         (split_char slash (default path (head (split_char "#"%char path)))) []).

Definition good_segment (s : string) : Prop :=
  s ≠ "" ∧ s ≠ "." ∧ s ≠ ".." ∧ contains_char slash s = false ∧
  contains_char "#"%char s = false.

Definition render (segs : list string) : string :=
  match segs with [] => "/" | _ => push_segments segs end.

Definition fragmentless (path : string) : string :=
  default path (head (split_char "#"%char path)).

Lemma split_slash_cons s : split_char slash (String slash s) = "" :: split_char slash s.
Proof. done. Qed.

Lemma split_char_cons_ne c a s :
  a ≠ c → ∃ w ws, split_char c s = w :: ws ∧ split_char c (String a s) = String a w :: ws.
Proof.
  intros Ha. simpl. rewrite decide_False by done.
  destruct (split_char c s) as [|w ws] eqn:E; [by apply split_char_ne in E|eauto].
Qed.

(** Collapsing slashes only removes empty segments. *)
Lemma collapse_segments s :
  (∀ b, filter (λ w, w ≠ "") (split_char slash (collapse_slashes b s))
        = filter (λ w, w ≠ "") (split_char slash s)) ∧
  head (split_char slash (collapse_slashes false s)) = head (split_char slash s) ∧
  filter (λ w, w ≠ "") (tail (split_char slash (collapse_slashes false s)))
  = filter (λ w, w ≠ "") (tail (split_char slash s)).
Proof.
  induction s as [|a s (IHb & IHh & IHt)]; [by split_and!; [intros []|..]|].
  cbn [collapse_slashes]. destruct (decide (a = slash)) as [->|Ha].
  - rewrite !split_slash_cons. split_and!; [|done|apply IHb].
    intros []; rewrite ?split_slash_cons, !filter_cons, !decide_False by tauto; apply IHb.
  - destruct (split_char_cons_ne slash a s Ha) as (w & ws & E & ->).
    destruct (split_char_cons_ne slash a (collapse_slashes false s) Ha)
      as (w' & ws' & E' & ->).
    rewrite E, E' in *. simpl in *. injection IHh as ->.
    split_and!; [intros _|done..].
    by rewrite !filter_cons, !decide_True, IHt by done.
Qed.

Lemma fold_resolve_filter l acc :
  fold_left resolve_segment (filter (λ w, w ≠ "") l) acc = fold_left resolve_segment l acc.
Proof.
  revert acc. induction l as [|w l IH]; intros acc; [done|]. rewrite filter_cons. simpl.
  case_decide as Hw; simpl; [apply IH|]. rewrite IH. f_equal.
  unfold resolve_segment. rewrite decide_True; [done|]. left. by destruct (decide (w = "")).
Qed.

Lemma fold_resolve_collapse s acc :
  fold_left resolve_segment (split_char slash (collapse_slashes false s)) acc
  = fold_left resolve_segment (split_char slash s) acc.
Proof.
  rewrite <-fold_resolve_filter. destruct (collapse_segments s) as [-> _].
  apply fold_resolve_filter.
Qed.

(** What every segment of a resolved path satisfies. *)
Lemma fold_resolve_Forall (P : string → Prop) l acc :
  Forall P l → Forall (λ s, s ≠ "" ∧ s ≠ "." ∧ s ≠ ".." ∧ P s) acc →
  Forall (λ s, s ≠ "" ∧ s ≠ "." ∧ s ≠ ".." ∧ P s) (fold_left resolve_segment l acc).
Proof.
  intros Hl. revert acc. induction Hl as [|w l Hw Hl IH]; intros acc Hacc; [done|].
  simpl. apply IH. unfold resolve_segment. case_decide as H1; [done|].
  case_decide as H2; [destruct Hacc; simpl; [constructor|done]|].
  constructor; [|done]. naive_solver.
Qed.

Lemma split_char_Forall_app c (P : string → Prop) s :
  (∀ l m r, s = l +:+ m +:+ r → P m) → Forall P (split_char c s).
Proof.
  intros HP. rewrite Forall_forall. intros w Hw. cut (∃ l r, s = l +:+ w +:+ r).
  { intros (l & r & ->). by eapply HP. }
  clear HP. revert w Hw. induction s as [|a s IH]; intros w; simpl.
  - intros ->%list_elem_of_singleton. by exists "", "".
  - case_decide as Ha.
    + intros [->|Hw]%elem_of_cons; [by exists "", (String a s)|].
      destruct (IH w Hw) as (l & r & ->). by exists (String a l), r.
    + destruct (split_char c s) as [|v ws] eqn:E; [by apply split_char_ne in E|].
      intros [->|Hw]%elem_of_cons.
      * destruct s as [|b s]; simpl in E; [injection E as <- <-; by exists "", ""|].
        pose proof (join_split c (String b s)) as J. simpl split_char in J.
        rewrite E in J. destruct ws as [|v' ws].
        -- simpl in J. exists "", "". simpl. rewrite str_app_nil_r. by rewrite J.
        -- simpl in J. exists "", (String c "" +:+ join (String c "") (v' :: ws)).
           simpl. by rewrite <-J.
      * destruct (IH w) as (l & r & ->); [by right|]. by exists (String a l), r.
Qed.

Lemma contains_char_mid c l m r :
  contains_char c (l +:+ m +:+ r) = false → contains_char c m = false.
Proof. rewrite !contains_char_app. by intros [_ [? _]%orb_false_iff]%orb_false_iff. Qed.

Lemma fragmentless_no_hash path : contains_char "#"%char (fragmentless path) = false.
Proof.
  unfold fragmentless. pose proof (split_char_no_sep "#"%char path) as H.
  destruct (split_char "#"%char path) as [|w ws] eqn:E; [by apply split_char_ne in E|].
  by inversion H.
Qed.

Lemma segments_good path : Forall good_segment (segments path).
Proof.
  unfold segments. apply Forall_rev.
  apply (fold_resolve_Forall
           (λ s, contains_char slash s = false ∧ contains_char "#"%char s = false));
    [|constructor].
  apply Forall_and. split; [apply split_char_no_sep|]. apply split_char_Forall_app.
  intros l m r E. pose proof (fragmentless_no_hash path) as H. unfold fragmentless in H.
  rewrite E in H. by eapply contains_char_mid.
Qed.

Lemma push_segments_app l s : push_segments (l ++ [s]) = push_segments l +:+ String slash s.
Proof.
  induction l as [|x l IH]; simpl; [by rewrite str_app_nil_r|].
  by rewrite IH, str_app_assoc.
Qed.

Lemma push_segments_end l : Forall good_segment l → ends_with "/" (push_segments l) = false.
Proof.
  destruct l as [|s l _] using rev_ind; [done|].
  intros [_ [(Hne & _ & _ & Hs & _) _]%Forall_cons]%Forall_app.
  rewrite push_segments_app. destruct (ends_with "/" _) eqn:E; [|done].
  apply ends_with_spec in E as [r Hr]. exfalso. apply Hne.
  pose proof (rsplit_once_app slash (push_segments l) s Hs) as H1. rewrite Hr in H1.
  pose proof (rsplit_once_app slash r "" eq_refl) as H2. unfold slash in *. congruence.
Qed.

Lemma canonical_path_render path : canonical_path path = render (segments path).
Proof.
  unfold canonical_path, resolve_dot_segments. rewrite fold_resolve_collapse.
  fold (segments path). pose proof (segments_good path) as H.
  destruct (segments path) as [|s l] eqn:E; [done|]. rewrite <-E in *.
  assert (push_segments (segments path) ≠ "") as Hne by (by rewrite E).
  unfold is_empty. rewrite bool_decide_false by done.
  rewrite push_segments_end, andb_false_r by done. by rewrite E.
Qed.

Lemma split_push_segments l :
  Forall good_segment l → split_char slash (push_segments l) = "" :: l.
Proof.
  intros H. induction H as [|s l (_ & _ & _ & Hs & _) Hl IH]; [done|].
  cbn [push_segments]. rewrite split_slash_cons. f_equal.
  destruct l as [|s' l]; simpl push_segments.
  - rewrite str_app_nil_r. by apply split_char_single.
  - rewrite split_char_app by done. simpl push_segments in IH. rewrite split_slash_cons in IH.
    by injection IH as ->.
Qed.

Lemma resolve_good acc s : good_segment s → resolve_segment acc s = s :: acc.
Proof. intros (? & ? & ? & _). unfold resolve_segment. by rewrite !decide_False by tauto. Qed.

Lemma fold_resolve_good l acc :
  Forall good_segment l → fold_left resolve_segment l acc = (rev l ++ acc)%list.
Proof.
  intros H. revert acc. induction H as [|s l Hs Hl IH]; intros acc; [done|].
  simpl. rewrite IH, <-app_assoc. f_equal. by apply resolve_good.
Qed.

Lemma push_segments_no_hash l :
  Forall good_segment l → contains_char "#"%char (push_segments l) = false.
Proof.
  induction 1 as [|s l (_ & _ & _ & _ & Hs) Hl IH]; [done|]. simpl.
  by rewrite contains_char_app, Hs, IH.
Qed.

Lemma segments_render l : Forall good_segment l → segments (render l) = l.
Proof.
  intros H. unfold segments. destruct (decide (l = [])) as [->|Hne]; [done|].
  assert (render l = push_segments l) as -> by by destruct l.
  rewrite (split_char_single "#"%char) by (by apply push_segments_no_hash). simpl.
  rewrite split_push_segments by done. simpl.
  rewrite fold_resolve_good, app_nil_r by done. apply rev_involutive.
Qed.

Lemma render_ascii path :
  str_forallb is_ascii path = true → str_forallb is_ascii (render (segments path)) = true.
Proof.
  intros Ha.
  assert (Forall (λ s, str_forallb is_ascii s = true) (segments path)) as H.
  { apply (Forall_impl (λ s, s ≠ "" ∧ s ≠ "." ∧ s ≠ ".." ∧ str_forallb is_ascii s = true));
      [|tauto].
    unfold segments. apply Forall_rev, (fold_resolve_Forall
      (λ s, str_forallb is_ascii s = true)); [|constructor].
    apply split_char_Forall_app. intros l m r E.
    assert (Forall (λ w, ∃ l r, path = l +:+ w +:+ r) (split_char "#"%char path)) as Hsub
      by (apply split_char_Forall_app; eauto).
    destruct (split_char "#"%char path) as [|w ws] eqn:Es; [by apply split_char_ne in Es|].
    apply Forall_cons in Hsub as [(l' & r' & Hp) _]. simpl in E. subst w.
    rewrite Hp, !str_forallb_app in Ha. by boolify. }
  assert (str_forallb is_ascii (push_segments (segments path)) = true) as Hp.
  { induction H as [|x y Hx Hy IH]; [done|]. simpl. by rewrite str_forallb_app, Hx, IH. }
  by destruct (segments path).
Qed.

(** ** Spellings of one path *)

Lemma fragmentless_app p q :
  contains_char "#"%char p = false → fragmentless (p +:+ q) = p +:+ fragmentless q.
Proof.
  unfold fragmentless. induction p as [|a p IH]; simpl; [done|].
  intros [Ha%bool_decide_eq_false Hp]%orb_false_iff. rewrite decide_False by done.
  specialize (IH Hp).
  destruct (split_char "#"%char (p +:+ q)) eqn:E; [by apply split_char_ne in E|].
  destruct (split_char "#"%char q) eqn:E'; [by apply split_char_ne in E'|].
  simpl in *. by rewrite IH.
Qed.

Lemma split_char_app_sep c p q :
  split_char c (p +:+ String c q) = (split_char c p ++ split_char c q)%list.
Proof.
  induction p as [|a p IH]; simpl; [by rewrite decide_True|].
  rewrite IH. case_decide; [done|].
  destruct (split_char c p) eqn:E; [by apply split_char_ne in E|done].
Qed.

(** The resolved segments of a path after a given prefix. *)
Definition resolve_from (acc : list string) (path : string) : list string :=
  rev (fold_left resolve_segment (split_char slash (fragmentless path)) acc).

Definition prefix_acc (p : string) : list string :=
  fold_left resolve_segment (split_char slash p) [].

Lemma segments_prefix p q :
  contains_char "#"%char p = false →
  segments (p +:+ String slash q) = resolve_from (prefix_acc p) q.
Proof.
  intros Hp. unfold segments, resolve_from, prefix_acc. fold (fragmentless (p +:+ String slash q)).
  rewrite (str_cons_app slash q), fragmentless_app by done.
  rewrite fragmentless_app by done. simpl (String slash "" +:+ _).
  by rewrite split_char_app_sep, fold_left_app.
Qed.

(** A leading piece of the rest is resolved first. *)
Lemma resolve_from_prefix acc w q :
  contains_char "#"%char w = false →
  resolve_from acc (w +:+ String slash q)
  = resolve_from (fold_left resolve_segment (split_char slash w) acc) q.
Proof.
  intros Hw. unfold resolve_from. rewrite (str_cons_app slash q), !fragmentless_app by done.
  simpl (String slash "" +:+ _). by rewrite split_char_app_sep, fold_left_app.
Qed.

Section Detours.
Context (p q : string) (Hp : contains_char "#"%char p = false).

Lemma segments_detour seg :
  good_segment seg →
  segments (p +:+ "/" +:+ seg +:+ "/../" +:+ q) = segments (p +:+ "/" +:+ q).
Proof using Hp.
  intros Hg. pose proof Hg as (_ & _ & _ & Hs & Hh).
  change ("/" +:+ seg +:+ "/../" +:+ q) with (String slash (seg +:+ "/../" +:+ q)).
  change ("/" +:+ q) with (String slash q). rewrite !segments_prefix by done.
  change ("/../" +:+ q) with ("/.." +:+ String slash q).
  rewrite (str_app_assoc seg), resolve_from_prefix.
  - change "/.." with (String slash ".."). rewrite split_char_app_sep, fold_left_app.
    rewrite (split_char_single slash seg) by done. f_equal. simpl.
    by rewrite (resolve_good (prefix_acc p) seg).
  - by rewrite contains_char_app, Hh.
Qed.

Lemma segments_dot : segments (p +:+ "/./" +:+ q) = segments (p +:+ "/" +:+ q).
Proof using Hp.
  change ("/./" +:+ q) with (String slash ("." +:+ String slash q)).
  change ("/" +:+ q) with (String slash q). rewrite !segments_prefix by done.
  by rewrite resolve_from_prefix.
Qed.

Lemma segments_slash2 : segments (p +:+ "//" +:+ q) = segments (p +:+ "/" +:+ q).
Proof using Hp.
  change ("//" +:+ q) with (String slash ("" +:+ String slash q)).
  change ("/" +:+ q) with (String slash q). rewrite !segments_prefix by done.
  by rewrite resolve_from_prefix.
Qed.

Lemma segments_trailing : segments (p +:+ "/") = segments p.
Proof using Hp.
  change "/" with (String slash ""). rewrite segments_prefix by done.
  unfold segments. fold (fragmentless p). rewrite <-(str_app_nil_r p) at 2.
  rewrite fragmentless_app by done. change (fragmentless "") with "".
  by rewrite str_app_nil_r.
Qed.

Lemma segments_fragment frag : segments (p +:+ "#" +:+ frag) = segments p.
Proof using Hp.
  unfold segments. fold (fragmentless (p +:+ "#" +:+ frag)) (fragmentless p).
  rewrite <-(str_app_nil_r p) at 2. by rewrite !(fragmentless_app p).
Qed.
End Detours.

Lemma segments_root q : segments ("/../" +:+ q) = segments ("/" +:+ q).
Proof.
  pose proof (segments_prefix "" (".." +:+ String slash q) eq_refl) as H1.
  pose proof (segments_prefix "" q eq_refl) as H2.
  etrans; [exact H1|]. etrans; [|symmetry; exact H2].
  exact (resolve_from_prefix (prefix_acc "") ".." q eq_refl).
Qed.

(** Path canonicalisation yields a normal form: the path is "/" followed
    by segments none of which is empty, "." or "..", contains a slash or a
    fragment mark, so no traversal written with dots is left (a percent-encoded
    dot is a character like any other); the form is a fixed point, and an ASCII path is returned in this form as it is
    (a non-ASCII one is NFC-normalised after it). *)
Theorem normalize_path_canonical `{!UnicodeNfc} path :
  (∃ segs, canonical_path path = render segs ∧ Forall good_segment segs) ∧
  canonical_path (canonical_path path) = canonical_path path ∧
  (normalize_path path = canonical_path path ∨
   str_forallb is_ascii path = false ∧ normalize_path path = nfc (canonical_path path)).
Proof.
  rewrite !canonical_path_render. pose proof (segments_good path) as Hg. split_and!.
  - eauto.
  - by rewrite segments_render.
  - unfold normalize_path. rewrite canonical_path_render.
    destruct (str_forallb is_ascii path) eqn:Ha.
    + rewrite render_ascii by done. by left.
    + destruct (str_forallb is_ascii (render (segments path))); auto.
Qed.

(** A path cannot evade a rule by a detour: inserting a segment and its
    "..", a "." segment, a doubled slash, a trailing slash or a fragment
    anywhere in the path, or ".." at the root, gives the same normalised
    path, so the same rule and the same scope decide. *)
Theorem normalize_path_detour `{!UnicodeNfc} p seg q frag :
  contains_char "#"%char p = false → good_segment seg →
  normalize_path (p +:+ "/" +:+ seg +:+ "/../" +:+ q) = normalize_path (p +:+ "/" +:+ q) ∧
  normalize_path (p +:+ "/./" +:+ q) = normalize_path (p +:+ "/" +:+ q) ∧
  normalize_path (p +:+ "//" +:+ q) = normalize_path (p +:+ "/" +:+ q) ∧
  normalize_path ("/../" +:+ q) = normalize_path ("/" +:+ q) ∧
  normalize_path (p +:+ "/") = normalize_path p ∧
  normalize_path (p +:+ "#" +:+ frag) = normalize_path p.
Proof.
  intros Hp Hseg. unfold normalize_path. rewrite !canonical_path_render.
  split_and!; rewrite ?segments_detour, ?segments_dot, ?segments_slash2, ?segments_root,
    ?segments_trailing, ?segments_fragment by done; done.
Qed.

Lemma normalize_path_detour_witness :
  let _ : UnicodeNfc := id in
  normalize_path ("/v1/chat" +:+ "/" +:+ "x" +:+ "/../" +:+ "admin") = "/v1/chat/admin" ∧
  normalize_path ("/v1/chat" +:+ "/" +:+ "admin") = "/v1/chat/admin" ∧
  normalize_path ("/v1/chat" +:+ "/" +:+ "x" +:+ "/../" +:+ "admin")
  = normalize_path ("/v1/chat" +:+ "/" +:+ "admin").
Proof.
  split; [vm_compute; reflexivity|split; [vm_compute; reflexivity|]].
  apply (normalize_path_detour "/v1/chat" "x" "admin" "").
  - vm_compute. reflexivity.
  - unfold good_segment. split_and!; vm_compute; congruence.
Defined.

(** ** The packet reader *)

(** A pkt-line stream: its header, and the payloads before the flush packet or
    the end of the body. *)
Definition pkt_header (h : string) (len : Z) : Prop :=
  String.length h = 4 ∧ utf8_valid h = true ∧ from_str_radix 16 u64_max h = Ok len.

Inductive pkt_lines : string → list string → Prop :=
| pkt_end : pkt_lines "" []
| pkt_flush h rest : pkt_header h 0 → pkt_lines (h +:+ rest) []
| pkt_line h len payload rest ps :
    pkt_header h len → (4 ≤ len)%Z → Z.of_nat (String.length payload) = (len - 4)%Z →
    pkt_lines rest ps → pkt_lines (h +:+ payload +:+ rest) (payload :: ps).

Lemma str_take_length n s : (n ≤ String.length s)%nat → String.length (str_take n s) = n.
Proof.
  intros H. pose proof (f_equal String.length (str_take_drop n s)) as E.
  rewrite str_length_app, str_drop_length in E. lia.
Qed.

Lemma is_empty_spec s : is_empty s = true ↔ s = "".
Proof. unfold is_empty. apply bool_decide_eq_true. Qed.

(** A stream starts with a readable header, and with the packet it announces. *)
Lemma pkt_lines_head rest ps :
  pkt_lines rest ps → rest ≠ "" →
  (4 ≤ String.length rest)%nat ∧ utf8_valid (str_take 4 rest) = true ∧
  ∃ len, from_str_radix 16 u64_max (str_take 4 rest) = Ok len ∧
    (len = 0 ∨ 4 ≤ len ∧ len - 4 ≤ Z.of_nat (String.length (str_drop 4 rest)))%Z.
Proof.
  intros [|h tl (Hl & Hu & Hr)|h len pl tl ps' (Hl & Hu & Hr) H4 Hpl Hps] Hne; [done|..];
    rewrite str_take_app, str_drop_app, !str_length_app by done;
    (split_and!; [lia|done|eexists; split; [done|lia]]).
Qed.

(** One packet of the loop: what it reads, or the error. *)
Lemma receive_pack_step fuel rest selected :
  let next := receive_pack_loop (S fuel) rest selected in
  (rest = "" ∧ next = Ok selected) ∨
  (∃ h tl, rest = h +:+ tl ∧ pkt_header h 0 ∧ next = Ok selected) ∨
  (∃ h len payload tl, rest = h +:+ payload +:+ tl ∧ pkt_header h len ∧ (4 ≤ len)%Z ∧
     Z.of_nat (String.length payload) = (len - 4)%Z ∧
     next = (let? update := parse_receive_pack_command payload in
             match selected with
             | Some _ => Err "unsupported git-receive-pack request: multiple ref update commands"
             | None => receive_pack_loop fuel tl (Some update)
             end)) ∨
  (∃ e, next = Err e ∧ ∀ ps, ¬ pkt_lines rest ps).
Proof.
  cbn [receive_pack_loop]. cbv zeta.
  destruct (is_empty rest) eqn:He; [left; by apply is_empty_spec in He|right].
  assert (rest ≠ "") as Hne by (intros ->; done).
  destruct (Nat.ltb_spec (String.length rest) 4) as [Hlt|Hge].
  { right; right. eexists. split; [done|]. intros ps [? _]%pkt_lines_head; [lia|done]. }
  destruct (utf8_valid (str_take 4 rest)) eqn:Hu; cbn [negb].
  2: { right; right. eexists. split; [done|]. intros ps (_ & ? & _)%pkt_lines_head; congruence. }
  destruct (from_str_radix 16 u64_max (str_take 4 rest)) as [len|] eqn:Hr.
  2: { right; right. eexists. split; [done|].
       intros ps (_ & _ & ? & ? & _)%pkt_lines_head; congruence. }
  assert (String.length (str_take 4 rest) = 4) as Hl4 by (by apply str_take_length).
  pose proof (str_take_drop 4 rest) as Hsplit.
  destruct (Z.eqb_spec len 0) as [->|Hz].
  { left. exists (str_take 4 rest), (str_drop 4 rest). by rewrite Hsplit. }
  assert (∀ ps, pkt_lines rest ps →
    (4 ≤ len ∧ len - 4 ≤ Z.of_nat (String.length (str_drop 4 rest)))%Z) as Hinv.
  { intros ps (_ & _ & len' & Hr' & Hlen)%pkt_lines_head; [|done].
    rewrite Hr in Hr'. injection Hr' as <-. lia. }
  destruct (Z.ltb_spec len 4) as [H4|H4].
  { right; right. eexists. split; [done|]. intros ps [? _]%Hinv. lia. }
  destruct (Nat.ltb_spec (String.length (str_drop 4 rest)) (Z.to_nat (len - 4))) as [Hs|Hs].
  { right; right. eexists. split; [done|]. intros ps [_ ?]%Hinv. lia. }
  right; left. exists (str_take 4 rest), len, (str_take (Z.to_nat (len - 4)) (str_drop 4 rest)),
    (str_drop (Z.to_nat (len - 4)) (str_drop 4 rest)).
  rewrite str_take_drop, Hsplit, str_take_length by lia. split_and!; try done. lia.
Qed.

Lemma pkt_lines_inv rest ps :
  pkt_lines rest ps →
  (rest = "" ∧ ps = []) ∨ (pkt_header (str_take 4 rest) 0 ∧ ps = []) ∨
  (∃ len ps', pkt_header (str_take 4 rest) len ∧ (4 ≤ len)%Z ∧
     ps = str_take (Z.to_nat (len - 4)) (str_drop 4 rest) :: ps' ∧
     pkt_lines (str_drop (Z.to_nat (len - 4)) (str_drop 4 rest)) ps').
Proof.
  intros [|h tl Hh|h len pl tl ps' Hh H4 Hpl Hps]; [by left|right; left|right; right].
  - rewrite str_take_app; [done|]. symmetry. apply Hh.
  - assert (4 = String.length h) as Hl by (symmetry; apply Hh).
    exists len, ps'. rewrite (str_take_app 4), !(str_drop_app 4) by done.
    rewrite str_take_app, str_drop_app by lia. done.
Qed.

Lemma pkt_header_det h len len' : pkt_header h len → pkt_header h len' → len = len'.
Proof. intros (_ & _ & H) (_ & _ & H'). congruence. Qed.

Lemma pkt_header_empty len : ¬ pkt_header (str_take 4 "") len.
Proof. by intros [? _]. Qed.

(** A stream that starts with a packet lists its payload first. *)
Lemma pkt_lines_line_inv h len pl tl ps :
  pkt_header h len → (4 ≤ len)%Z → Z.of_nat (String.length pl) = (len - 4)%Z →
  pkt_lines (h +:+ pl +:+ tl) ps → ∃ ps', ps = pl :: ps' ∧ pkt_lines tl ps'.
Proof.
  intros Hh H4 Hpl H'. assert (4 = String.length h) as Hl by (symmetry; apply Hh).
  apply pkt_lines_inv in H' as [[E _]|[[Hh' _]|(len' & ps0 & Hh' & _ & Eps & Hps')]].
  - by destruct h.
  - rewrite str_take_app in Hh' by done. pose proof (pkt_header_det _ _ _ Hh Hh'). lia.
  - rewrite str_take_app in Hh' by done. pose proof (pkt_header_det _ _ _ Hh Hh') as <-.
    rewrite !(str_drop_app 4) in * by done. rewrite str_take_app in Eps by lia.
    rewrite str_drop_app in Hps' by lia. eauto.
Qed.

(** A stream is read in one way. *)
Lemma pkt_lines_det rest ps ps' : pkt_lines rest ps → pkt_lines rest ps' → ps = ps'.
Proof.
  intros H. revert ps'.
  induction H as [|h tl Hh|h len pl tl ps Hh H4 Hpl Hps IH]; intros ps' H'.
  - apply pkt_lines_inv in H' as [[_ ->]|[[[]%pkt_header_empty _]|(? & ? & []%pkt_header_empty & _)]].
    done.
  - assert (4 = String.length h) as Hl by (symmetry; apply Hh).
    apply pkt_lines_inv in H' as [[_ ->]|[[_ ->]|(len & ? & Hh' & H4 & _)]]; [done..|].
    rewrite str_take_app in Hh' by done. pose proof (pkt_header_det _ _ _ Hh Hh'). lia.
  - apply (pkt_lines_line_inv h len) in H' as (ps0 & -> & H'); [|done..].
    f_equal. by apply IH.
Qed.

Lemma receive_pack_selected fuel rest u r :
  (String.length rest < fuel)%nat →
  receive_pack_loop fuel rest (Some u) = Ok r ↔ r = Some u ∧ pkt_lines rest [].
Proof.
  intros Hf. destruct fuel as [|fuel]; [lia|].
  destruct (receive_pack_step fuel rest (Some u))
    as [[-> ->]|[(h & tl & -> & Hh & ->)|[(h & len & pl & tl & -> & Hh & H4 & Hpl & ->)|(e & -> & He)]]].
  - split; [intros [= <-]; split; [done|constructor]|by intros [-> _]].
  - split; [intros [= <-]; split; [done|by constructor]|by intros [-> _]].
  - split; [by destruct (parse_receive_pack_command pl)|]. intros [_ Hps]. exfalso.
    by apply (pkt_lines_line_inv h len) in Hps as (? & ? & _).
  - split; [done|]. intros [_ Hps]. by destruct (He []).
Qed.

(** The git push parser accepts a body exactly when it is a pkt-line
    stream with one ref-update command before the flush packet or the end, and
    that command is well formed: a push of several refs, a truncated packet or
    an empty stream is always an error, and every byte is accounted for
    within the fuel. *)
Theorem parse_receive_pack_update_one_command body u :
  parse_receive_pack_update body = Ok u ↔
  ∃ payload, pkt_lines body [payload] ∧ parse_receive_pack_command payload = Ok u.
Proof.
  unfold parse_receive_pack_update.
  destruct (receive_pack_step (String.length body) body None)
    as [[Hb ->]|[(h & tl & Hb & Hh & ->)|[(h & len & pl & tl & Hb & Hh & H4 & Hpl & ->)|(e & -> & He)]]].
  - split; [done|]. intros (p & Hp & _). rewrite Hb in Hp.
    by pose proof (pkt_lines_det _ _ _ Hp pkt_end).
  - split; [done|]. intros (p & Hp & _). rewrite Hb in Hp.
    by pose proof (pkt_lines_det _ _ _ Hp (pkt_flush h tl Hh)).
  - assert (String.length tl < String.length body)%nat as Hlen.
    { destruct Hh as [Hl _]. rewrite Hb, !str_length_app. lia. }
    destruct (parse_receive_pack_command pl) as [u'|e] eqn:Hc.
    + split.
      * intros H. destruct (receive_pack_loop (String.length body) tl (Some u')) as [r|] eqn:E;
          [|done]. apply receive_pack_selected in E as [-> Hps]; [|done].
        injection H as <-. exists pl. split; [|done]. rewrite Hb. by econstructor.
      * intros (p & Hp & Hu). rewrite Hb in Hp.
        apply (pkt_lines_line_inv h len) in Hp as (? & [= -> <-] & Hps); [|done..].
        destruct (receive_pack_selected (String.length body) tl u' (Some u') Hlen) as [_ Hr].
        rewrite Hr by done. simpl. congruence.
    + split; [done|]. intros (p & Hp & Hu). rewrite Hb in Hp.
      apply (pkt_lines_line_inv h len) in Hp as (? & [= -> <-] & Hps); [congruence|done..].
  - split; [done|]. intros (p & Hp & _). by destruct (He [p]).
Qed.

(** ** The normalizer *)

Section NormalizeFacts.
Context {HC : HttpCrate} {HL : HttpCrateLaws HC} {SJ : SerdeJson} {UN : UnicodeNfc}
  {FU : FormUrlencoded}.

Lemma sanitize_headers_spec h kv :
  kv ∈ hm_iter (sanitize_headers h) ↔ kv ∈ hm_iter h ∧ kv.1 ∉ SENSITIVE_HEADERS.
Proof. unfold sanitize_headers. rewrite hm_from_iter_elem, list_elem_of_filter. tauto. Qed.

(** A normalisation failure. *)
Definition unclassified (d : EnforcementDecision) : Prop :=
  ∃ detail, d = Deny UnclassifiedIntent Normalization detail None None.

Lemma git_deny_unclassified r detail : unclassified (git_normalization_deny r detail).
Proof. eexists. reflexivity. Qed.

Lemma map_err_deny {A} r (x : Result A string) d :
  map_err (git_normalization_deny r) x = Err d → unclassified d.
Proof. destruct x; intros [= <-]. apply git_deny_unclassified. Qed.

Lemma enrich_err r host path query res cls d :
  enrich_github_git_metadata r host path query res cls = Err d → unclassified d.
Proof.
  unfold enrich_github_git_metadata. case_bool_decide.
  - unfold enrich_github_smart_http_metadata.
    destruct (parse_github_git_repo path); [|done].
    destruct (ends_with "/info/refs" path); [done|].
    destruct (ends_with "/git-upload-pack" path); [done|].
    destruct (ends_with "/git-receive-pack" path); [|done].
    destruct (rq_body r); simpl; [|intros [= <-]; apply git_deny_unclassified].
    destruct (map_err _ _) eqn:E; [by case_bool_decide|].
    intros [= <-]. by eapply map_err_deny.
  - case_bool_decide; [|done]. unfold enrich_github_rest_ref_metadata.
    destruct (map_err _ _) as [[]|] eqn:E; [done..|].
    intros [= <-]. by eapply map_err_deny.
Qed.

(** Enrichment keeps the host, path and provider, and the class unless the
    request deletes a ref. *)
Lemma lookup_git_metadata k res g :
  k ∈ ["host"; "path"; "provider"] →
  insert_github_repo_metadata res g !! k = res !! k.
Proof.
  intros Hk. unfold insert_github_repo_metadata.
  repeat (apply elem_of_cons in Hk as [->|Hk]; [by rewrite !lookup_insert_ne|]). inversion Hk.
Qed.

Lemma lookup_insert_core k k' v (res : gmap string string) :
  k ∈ ["host"; "path"; "provider"] → k' ∈ ["git_ref"; "git_ref_type"; "git_operation"] →
  <[k' := v]> res !! k = res !! k.
Proof.
  intros Hk Hk'. rewrite lookup_insert_ne; [done|]. intros ->.
  repeat (apply elem_of_cons in Hk as [->|Hk];
          [repeat (apply elem_of_cons in Hk' as [?|Hk']; [done|]); inversion Hk'|]).
  inversion Hk.
Qed.

Ltac core_keys :=
  rewrite ?lookup_insert_core, ?lookup_git_metadata by (done || set_solver); done.

Lemma enrich_ok r host path query res cls cls' res' :
  enrich_github_git_metadata r host path query res cls = Ok (cls', res') →
  (cls' = cls ∨ cls' = "code.destructive" ∧ host = "github.com" ∧ ends_with "/git-receive-pack" path = true) ∧
  ∀ k, k ∈ ["host"; "path"; "provider"] → res' !! k = res !! k.
Proof.
  unfold enrich_github_git_metadata. case_bool_decide.
  - unfold enrich_github_smart_http_metadata.
    destruct (parse_github_git_repo path); [|intros [= <- <-]; auto].
    destruct (ends_with "/info/refs" path); [intros [= <- <-]; split; [auto|intros; core_keys]|].
    destruct (ends_with "/git-upload-pack" path);
      [intros [= <- <-]; split; [auto|intros; core_keys]|].
    destruct (ends_with "/git-receive-pack" path) eqn:?;
      [|intros [= <- <-]; split; [auto|intros; core_keys]].
    destruct (rq_body r); simpl; [|done]. destruct (map_err _ _); [|done].
    case_bool_decide; intros [= <- <-]; (split; [auto|intros; core_keys]).
  - case_bool_decide; [|intros [= <- <-]; auto]. unfold enrich_github_rest_ref_metadata.
    destruct (map_err _ _) as [[rr|]|]; [|intros [= <- <-]; auto|done].
    intros [= <- <-]. split; [auto|]. intros k Hk.
    case_bool_decide; destruct (rest_git_ref rr); core_keys.
Qed.

Lemma normalize_err n now r d : normalize n now r = Err d → unclassified d.
Proof.
  unfold normalize. destruct (default _ _) as [p q].
  destruct (normalize_host (rq_host r)) as [host|]; [|intros [= <-]; by eexists].
  destruct (if is_empty q then _ else _) as [sp qp].
  destruct (find_match _ _ _ _) as [rule|]; [|intros [= <-]; by eexists].
  destruct (enrich_github_git_metadata _ _ _ _ _ _) eqn:E;
    [|intros [= <-]; by eapply enrich_err].
  destruct (http_method_try_from (rq_method r)); [done|intros [= <-]; by eexists].
Qed.

(** Normalisation fails closed: whatever goes wrong (an invalid host, no
    matching rule, malformed git metadata, an unknown method), the result is a
    denial for an unclassified intent raised by the normalizer. *)
Theorem normalize_fails_closed n now r d :
  normalize n now r = Err d →
  ∃ detail, d = Deny UnclassifiedIntent Normalization detail None None.
Proof. apply normalize_err. Qed.

(** ** Facts: the query *)

(** The last pair of a query named [k], as it is written between the ampersands,
    has the value [v]. *)
Definition last_written (query k v : string) : Prop :=
  ∃ before after, split_char "&"%char query = (before ++ (k +:+ "=" +:+ v) :: after)%list ∧
    contains_char "="%char k = false ∧ ∀ w, k +:+ "=" +:+ w ∉ after.

Lemma query_pair_spec piece k v :
  query_pair piece = Some (k, v) ↔ piece = k +:+ "=" +:+ v ∧ contains_char "="%char k = false.
Proof.
  unfold query_pair. revert k. induction piece as [|a piece IH]; intros k; simpl.
  { split; [done|]. by destruct k as [|? k]; [intros [? _]|intros [? _]]. }
  case_decide as Ha.
  - subst. simpl. split.
    + intros [= <- <-]. done.
    + intros [H Hk]. destruct k as [|b k]; [by simplify_eq/=|]. simpl in *. injection H as <- ->.
      by rewrite bool_decide_eq_true_2 in Hk.
  - destruct k as [|b k].
    { split; [by destruct (str_find "="%char piece)|]. by intros [[= ->] _]. }
    specialize (IH k). destruct (str_find "="%char piece) as [n|]; simpl in *.
    + split.
      * intros [= <- Hk Hv]. destruct IH as [[-> Hc] _]; [by rewrite Hk, Hv|]. split; [done|].
        rewrite Hc. by rewrite bool_decide_eq_false_2.
      * intros [[= <- ->] [_ Hk]%orb_false_iff]. destruct IH as [_ IH].
        specialize (IH (conj eq_refl Hk)). by injection IH as -> ->.
    + split; [done|]. intros [[= -> ->] [_ Hk]%orb_false_iff]. destruct IH as [_ IH].
      by specialize (IH (conj eq_refl Hk)).
Qed.

Lemma query_fold_spec k v pieces : ∀ m : gmap string string,
  fold_left (λ m kv, <[fst kv := snd kv]> m) (omap query_pair pieces) m !! k = Some v ↔
  (∃ before piece after, pieces = (before ++ piece :: after)%list ∧ query_pair piece = Some (k, v) ∧
     ∀ p w, p ∈ after → query_pair p ≠ Some (k, w)) ∨
  ((∀ p w, p ∈ pieces → query_pair p ≠ Some (k, w)) ∧ m !! k = Some v).
Proof.
  induction pieces as [|piece pieces IH]; intros m; simpl.
  { split; [intros H; right; split; [by intros ? ? ?%elem_of_nil|done]|].
    intros [(before & ? & ? & H & _)|[_ ?]]; [by destruct before|done]. }
  destruct (query_pair piece) as [[k' v']|] eqn:E; simpl; rewrite IH; clear IH.
  - split.
    + intros [(before & p & after & -> & Hp & Ha)|[Hn Hm]].
      * left. exists (piece :: before), p, after. done.
      * apply lookup_insert_Some in Hm as [[-> ->]|[Hne Hm]].
        -- left. exists [], piece, pieces. done.
        -- right. split; [|done]. intros p w [->|Hp]%elem_of_cons; [congruence|by apply Hn].
    + intros [(before & p & after & Heq & Hp & Ha)|[Hn Hm]].
      * destruct before as [|b before]; simplify_eq/=.
        -- right. split; [done|]. apply lookup_insert_eq.
        -- left. by exists before, p, after.
      * right. split; [intros p w Hp; apply Hn; by right|].
        rewrite lookup_insert_ne; [done|]. intros ->. apply (Hn piece v'); [left|done].
  - split.
    + intros [(before & p & after & -> & Hp & Ha)|[Hn Hm]].
      * left. exists (piece :: before), p, after. done.
      * right. split; [|done]. intros p w [->|Hp]%elem_of_cons; [congruence|by apply Hn].
    + intros [(before & p & after & Heq & Hp & Ha)|[Hn Hm]].
      * destruct before as [|b before]; simplify_eq/=. left. by exists before, p, after.
      * right. split; [intros p w Hp; apply Hn; by right|done].
Qed.

(** The parsed pairs are those written, the last of each name. *)
Lemma parse_query_string_spec query k v :
  parse_query_string query !! k = Some v ↔ last_written query k v.
Proof.
  unfold parse_query_string, last_written. rewrite query_fold_spec, lookup_empty. split.
  - intros [(before & piece & after & Hs & [-> Hk]%query_pair_spec & Ha)|[_ ?]]; [|done].
    exists before, after. split_and!; [done..|]. intros w Hin. apply (Ha _ w Hin). by apply query_pair_spec.
  - intros (before & after & Hs & Hk & Ha). left. exists before, (k +:+ "=" +:+ v), after.
    split_and!; [done|by apply query_pair_spec|]. intros p w Hin [-> _]%query_pair_spec. by apply (Ha w).
Qed.

(** The canonical path of a request, and the rest of it shown in a resource. *)
Definition request_path (r : RawRequest) : string :=
  normalize_path (default (rq_path r) (fst <$> split_once "?"%char (rq_path r))).

(** What a normalised request carries: the class of the most specific
    matching rule for the canonical host and path (or the destructive class
    for a ref deletion), the dispatch host, the path with its query redacted,
    a standard method, every header but the sensitive ones, the body as it
    came and the time given. *)
Theorem normalize_sound n now r env :
  normalize n now r = Ok env →
  ∃ host rule p,
    normalize_host (rq_host r) = Ok host ∧
    find_match (mapping_table n) (rq_method r) host (request_path r) = Matched rule ∧
    (action_class (ne_intent env) = mr_action_class rule ∨
     action_class (ne_intent env) = "code.destructive" ∧ host = "github.com" ∧
       ends_with "/git-receive-pack" (request_path r) = true) ∧
    resource (ne_intent env) !! "host" =
      Some (normalize_dispatch_host (rq_host r) (rq_is_https r)) ∧
    (resource (ne_intent env) !! "path" = Some (request_path r) ∨
     ∃ q, split_once "?"%char (rq_path r) = Some q ∧
       resource (ne_intent env) !! "path" =
         Some (request_path r +:+ "?" +:+ redact_query n q.2)) ∧
    params (ne_intent env) = Http p ∧ http_method_as_str (hp_method p) = rq_method r ∧
    (∀ kv, kv ∈ hm_iter (hp_headers p) ↔
           kv ∈ hm_iter (rq_headers r) ∧ kv.1 ∉ SENSITIVE_HEADERS) ∧
    hp_body p = rq_body r ∧ ne_timestamp env = now.
Proof.
  unfold normalize, request_path.
  destruct (default (rq_path r, "") (split_once "?"%char (rq_path r))) as [pa q] eqn:Hq.
  assert (default (rq_path r) (fst <$> split_once "?"%char (rq_path r)) = pa) as ->
    by (destruct (split_once "?"%char (rq_path r)) as [[]|]; simpl in *; congruence).
  destruct (normalize_host (rq_host r)) as [host|] eqn:Hh; [|done].
  destruct (if is_empty q then _ else _) as [sp qp] eqn:Hsp.
  destruct (find_match _ _ _ _) as [rule|] eqn:Hm; [|done].
  set (res := match provider_for_host host with Some _ => _ | None => _ end).
  destruct (enrich_github_git_metadata _ _ _ _ _ _) as [[cls res']|] eqn:E; [|done].
  destruct (http_method_try_from (rq_method r)) as [m|] eqn:Hme; [|done]. intros [= <-]. simpl.
  apply enrich_ok in E as [Hcls Hres].
  assert (res !! "path" = Some sp ∧
          res !! "host" = Some (normalize_dispatch_host (rq_host r) (rq_is_https r))) as [Hp Hho].
  { unfold res. destruct (provider_for_host host); rewrite !lookup_insert; simpl;
      rewrite ?lookup_insert_ne, ?lookup_insert_eq by done; done. }
  eexists host, rule, _. split_and!; try done.
  - by rewrite Hres by set_solver.
  - rewrite Hres, Hp by set_solver.
    destruct (is_empty q) eqn:Hqe; injection Hsp as <- _; [by left|right].
    destruct (split_once "?"%char (rq_path r)) as [[p' q']|] eqn:Hs; simpl in *; simplify_eq.
    eexists. split; [done|]. done.
  - by apply http_method_from_sound.
  - intros kv. apply sanitize_headers_spec.
Qed.

(** Two suffixes of one text are comparable. *)
Lemma suffix_comparable r1 r2 a b :
  r1 +:+ a = r2 +:+ b → (String.length a ≤ String.length b)%nat → ends_with a b = true.
Proof.
  revert r1. induction r2 as [|x r2 IH]; intros r1 E Hl.
  - apply ends_with_spec. exists r1. by rewrite E.
  - destruct r1 as [|y r1]; simpl in E.
    + subst a. simpl in Hl. rewrite str_length_app in Hl. lia.
    + injection E as _ E. eauto.
Qed.

Lemma ends_with_other a b s :
  ends_with b s = true → ends_with a b = false → ends_with b a = false → ends_with a s = false.
Proof.
  intros [r ->]%ends_with_spec Hab Hba. destruct (ends_with a (r +:+ b)) eqn:E; [|done].
  apply ends_with_spec in E as [r' E].
  destruct (Nat.le_ge_cases (String.length a) (String.length b)) as [Hl|Hl].
  - rewrite (suffix_comparable r' r a b) in Hab by done. done.
  - rewrite (suffix_comparable r r' b a) in Hba by done. done.
Qed.

(** A git push to github.com is normalised only if its body holds exactly
    one ref update; the ref and the operation are recorded in the resource, and
    a push that deletes the ref is classified destructive whatever the rule
    says. *)
Theorem normalize_git_push n now r env repo :
  normalize n now r = Ok env →
  normalize_host (rq_host r) = Ok "github.com" →
  parse_github_git_repo (request_path r) = Some repo →
  ends_with "/git-receive-pack" (request_path r) = true →
  ∃ body u, rq_body r = Some body ∧ parse_receive_pack_update body = Ok u ∧
    resource (ne_intent env) !! "git_ref" = Some (git_ref u) ∧
    resource (ne_intent env) !! "git_operation" = Some (operation u) ∧
    (operation u = "delete" → action_class (ne_intent env) = "code.destructive").
Proof.
  unfold normalize, request_path.
  destruct (default (rq_path r, "") (split_once "?"%char (rq_path r))) as [pa q] eqn:Hq.
  assert (default (rq_path r) (fst <$> split_once "?"%char (rq_path r)) = pa) as ->
    by (destruct (split_once "?"%char (rq_path r)) as [[]|]; simpl in *; congruence).
  intros Hn Hh Hrepo Hend. rewrite Hh in Hn.
  destruct (if is_empty q then _ else _) as [sp qp].
  destruct (find_match _ _ _ _) as [rule|]; [|done].
  destruct (enrich_github_git_metadata _ _ _ _ _ _) as [[cls res']|] eqn:E; [|done].
  destruct (http_method_try_from (rq_method r)) as [m|]; [|done]. injection Hn as <-. simpl.
  unfold enrich_github_git_metadata, enrich_github_smart_http_metadata in E.
  rewrite bool_decide_true, Hrepo in E by done.
  rewrite (ends_with_other "/info/refs" "/git-receive-pack"),
    (ends_with_other "/git-upload-pack" "/git-receive-pack"), Hend in E by done.
  destruct (rq_body r) as [body|]; simpl in E; [|done].
  destruct (parse_receive_pack_update body) as [u|] eqn:Hu; simpl in E; [|done].
  exists body, u. split_and!; [done..| | |];
    case_bool_decide; injection E as <- <-;
    rewrite ?lookup_insert_eq, ?lookup_insert_ne, ?lookup_insert_eq by done;
    rewrite ?lookup_insert_ne, ?lookup_insert_eq by done; done.
Qed.

End NormalizeFacts.

(** ** Samples *)

Module Samples.
#[local] Existing Instances list_http list_http_laws plain_form.
#[local] Instance no_json : SerdeJson := λ _, Err "not JSON".
#[local] Instance ascii_nfc : UnicodeNfc := id.

Definition zeros : string := "0000000000000000000000000000000000000000".
Definition ones : string := "1111111111111111111111111111111111111111".

Definition push_body : string :=
  "0065" +:+ ones +:+ " " +:+ zeros +:+ " refs/heads/main" +:+ "0000PACK".

Definition push_rules : MappingTable :=
  {| rules := [compile_rule (sample_rule (Some "POST") "github.com" None "code.write")] |}.

Definition push : RawRequest :=
  {| rq_method := "POST"; rq_host := "GitHub.com:443";
     rq_path := "/o//r.git/./git-receive-pack?token=s3cret";
     rq_headers := [("accept", "x"); ("authorization", "Bearer y")];
     rq_body := Some push_body; rq_is_https := true |}.

Definition pushed : Result NormalizedEnvelope EnforcementDecision :=
  normalize (normalizer_new push_rules) 7 push.

Lemma normalize_git_push_witness :
  ∃ env, pushed = Ok env ∧ ∃ body u, rq_body push = Some body ∧
    parse_receive_pack_update body = Ok u ∧
    (operation u = "delete" → action_class (ne_intent env) = "code.destructive").
Proof.
  destruct pushed as [env|] eqn:E; [|vm_compute in E; discriminate].
  exists env. split; [reflexivity|].
  destruct (normalize_git_push (normalizer_new push_rules) 7 push env
    {| owner := "o"; repo := "r" |} E) as (body & u & Hb & Hu & _ & _ & Hd);
    [vm_compute; reflexivity..|].
  exists body, u. exact (conj Hb (conj Hu Hd)).
Defined.

Lemma normalize_sound_witness :
  ∃ env, pushed = Ok env ∧
    resource (ne_intent env) !! "host" = Some (normalize_dispatch_host "GitHub.com:443" true).
Proof.
  destruct pushed as [env|] eqn:E; [|vm_compute in E; discriminate].
  exists env. split; [reflexivity|].
  destruct (normalize_sound (normalizer_new push_rules) 7 push env E)
    as (host & rule & p & _ & _ & _ & Hh & _). exact Hh.
Defined.

Example pushed_fields :
  match pushed with
  | Ok env => (action_class (ne_intent env), map_to_list (resource (ne_intent env)))
  | Err _ => ("", [])
  end
  = ("code.destructive",
     [("git_owner", "o"); ("git_operation", "delete"); ("git_ref_type", "branch");
      ("git_ref", "refs/heads/main"); ("git_repo", "r"); ("git_provider", "github");
      ("host", "github.com"); ("path", "/o/r.git/git-receive-pack?token=[REDACTED]");
      ("provider", "github")]).
Proof. vm_compute. reflexivity. Qed.

Lemma normalize_fails_closed_witness :
  ∃ d detail, normalize (normalizer_new empty_protected) 7 push = Err d ∧
    d = Deny UnclassifiedIntent Normalization detail None None.
Proof.
  destruct (normalize (normalizer_new empty_protected) 7 push) as [|d] eqn:E;
    [vm_compute in E; discriminate|].
  destruct (normalize_fails_closed (normalizer_new empty_protected) 7 push d E)
    as [detail Hd].
  exists d, detail. exact (conj eq_refl Hd).
Defined.
End Samples.
