(* ===== verification/Lru.v ===== *)
(** * The [lru] crate, as an interface

    What the revocation cache and the session stores use of
    [lru::LruCache<String, V>], the documented laws they rely on, and a
    concrete cache (most recent entry first) that satisfies them. *)

From S2P Require Import Prelude.

Class LruCrate := {
  LruCache : Type → Type;
  (** [LruCache::new(cap)] for a non-zero capacity [S n] *)
  lru_new {V} : nat → LruCache V;
  lru_cap {V} : LruCache V → nat;
  lru_keys {V} : LruCache V → gset string;
  lru_peek {V} : string → LruCache V → option V;
  lru_put {V} : string → V → LruCache V → LruCache V;
  (** [get] marks the entry as recently used *)
  lru_get {V} : string → LruCache V → option V * LruCache V;
  (** [get_or_insert_mut(k, || d)] followed by a mutation [f] of the value *)
  lru_entry {V} : string → V → (V → V) → LruCache V → LruCache V;
}.

Class LruCrateLaws (L : LruCrate) := {
  lru_keys_spec {V} k (c : LruCache V) : k ∈ lru_keys c ↔ is_Some (lru_peek k c);
  lru_peek_new {V} n k : lru_peek k (lru_new (V:=V) n) = None;
  lru_cap_new {V} n : lru_cap (lru_new (V:=V) n) = S n;
  lru_peek_put_same {V} k v (c : LruCache V) : lru_peek k (lru_put k v c) = Some v;
  (** another entry is kept or evicted, never altered *)
  lru_peek_put_other {V} k k' v (c : LruCache V) :
    k ≠ k' → lru_peek k' (lru_put k v c) = lru_peek k' c ∨ lru_peek k' (lru_put k v c) = None;
  (** nothing is evicted while there is room *)
  lru_put_room {V} k k' v (c : LruCache V) :
    k ≠ k' → k ∈ lru_keys c ∨ (size (lru_keys c) < lru_cap c)%nat →
    lru_peek k' (lru_put k v c) = lru_peek k' c;
  lru_cap_put {V} k v (c : LruCache V) : lru_cap (lru_put k v c) = lru_cap c;
  lru_get_fst {V} k (c : LruCache V) : fst (lru_get k c) = lru_peek k c;
  lru_get_snd {V} k k' (c : LruCache V) : lru_peek k' (snd (lru_get k c)) = lru_peek k' c;
  lru_peek_entry_same {V} k d f (c : LruCache V) :
    lru_peek k (lru_entry k d f c) = Some (f (default d (lru_peek k c)));
  lru_peek_entry_other {V} k k' d f (c : LruCache V) :
    k ≠ k' →
    lru_peek k' (lru_entry k d f c) = lru_peek k' c ∨ lru_peek k' (lru_entry k d f c) = None;
  lru_entry_room {V} k k' d f (c : LruCache V) :
    k ≠ k' → k ∈ lru_keys c ∨ (size (lru_keys c) < lru_cap c)%nat →
    lru_peek k' (lru_entry k d f c) = lru_peek k' c;
  lru_cap_entry {V} k d f (c : LruCache V) : lru_cap (lru_entry k d f c) = lru_cap c;
}.

(** ** A concrete cache *)

Module Assoc.
Section Assoc.
Context {V : Type}.

Fixpoint find (k : string) (l : list (string * V)) : option V :=
  match l with
  | [] => None
  | (k', v) :: l => if decide (k' = k) then Some v else find k l
  end.

Definition remove (k : string) (l : list (string * V)) : list (string * V) :=
  filter (λ p, p.1 ≠ k) l.

Lemma find_is_Some k l : is_Some (find k l) ↔ k ∈ l.*1.
Proof.
  induction l as [|[k' v] l IH]; simpl.
  - split; [by intros []|intros H; inversion H].
  - rewrite elem_of_cons. case_decide; naive_solver.
Qed.

Lemma find_remove_other k k' l : k ≠ k' → find k' (remove k l) = find k' l.
Proof.
  intros Hne. induction l as [|[x v] l IH]; [done|]. unfold remove in *.
  rewrite filter_cons. simpl. destruct (decide (x = k)) as [->|Hx].
  - rewrite decide_False by tauto. by rewrite IH, decide_False.
  - rewrite decide_True by done. simpl. by rewrite IH.
Qed.

Lemma remove_keys k l k' : k' ∈ (remove k l).*1 ↔ k' ∈ l.*1 ∧ k' ≠ k.
Proof.
  unfold remove. rewrite !list_elem_of_fmap. split.
  - intros ([x v] & -> & [Hx Hl]%list_elem_of_filter). split; [by exists (x, v)|done].
  - intros [([x v] & -> & Hl) Hne]. exists (x, v). by rewrite list_elem_of_filter.
Qed.

Lemma remove_NoDup k l : NoDup l.*1 → NoDup (remove k l).*1.
Proof.
  unfold remove. induction l as [|[x v] l IH]; [done|]. rewrite filter_cons. simpl.
  intros [Hx Hl]%NoDup_cons. case_decide; [|auto]. simpl. apply NoDup_cons. split; [|auto].
  intros [? _]%(remove_keys k l). done.
Qed.

Lemma remove_length k l : (length (remove k l) ≤ length l)%nat.
Proof. apply length_filter. Qed.

Lemma remove_length_in k l : k ∈ l.*1 → (length (remove k l) < length l)%nat.
Proof.
  induction l as [|[x v] l IH]; simpl; [intros H; inversion H|].
  unfold remove in *. rewrite filter_cons, elem_of_cons. simpl.
  pose proof (length_filter (λ p : string * V, p.1 ≠ k) l).
  case_decide as Hx; simpl; [intros [->|?]; [done|]|lia].
  enough (length (filter (λ p : string * V, p.1 ≠ k) l) < length l)%nat by lia. auto.
Qed.

Lemma find_take n k l : find k (take n l) = find k l ∨ find k (take n l) = None.
Proof.
  revert n. induction l as [|[x v] l IH]; intros [|n]; simpl; auto.
  case_decide; auto.
Qed.

Record t := {
  cap_pred : nat;
  entries : list (string * V);
  entries_NoDup : NoDup entries.*1;
  entries_length : (length entries ≤ S cap_pred)%nat;
}.

Definition push (k : string) (v : V) (c : t) : list (string * V) :=
  take (S (cap_pred c)) ((k, v) :: remove k (entries c)).

Lemma push_NoDup k v c : NoDup (push k v c).*1.
Proof.
  unfold push. rewrite fmap_take.
  eapply sublist_NoDup; [|apply sublist_take]. simpl. apply NoDup_cons. split.
  - intros [_ ?]%remove_keys. done.
  - apply remove_NoDup, entries_NoDup.
Qed.

Lemma push_length k v c : (length (push k v c) ≤ S (cap_pred c))%nat.
Proof. unfold push. rewrite length_take. lia. Qed.

Definition put (k : string) (v : V) (c : t) : t :=
  {| cap_pred := cap_pred c; entries := push k v c;
     entries_NoDup := push_NoDup k v c; entries_length := push_length k v c |}.

Lemma nil_NoDup : NoDup (([] : list (string * V)).*1).
Proof. constructor. Qed.

Lemma nil_length n : (length ([] : list (string * V)) ≤ S n)%nat.
Proof. simpl. lia. Qed.

Definition new (n : nat) : t :=
  {| cap_pred := n; entries := []; entries_NoDup := nil_NoDup; entries_length := nil_length n |}.

Definition peek (k : string) (c : t) : option V := find k (entries c).

Definition get (k : string) (c : t) : option V * t :=
  match peek k c with
  | Some v => (Some v, put k v c)
  | None => (None, c)
  end.

Definition entry (k : string) (d : V) (f : V → V) (c : t) : t :=
  put k (f (default d (peek k c))) c.

Definition keys (c : t) : gset string := list_to_set (entries c).*1.

Lemma size_keys c : size (keys c) = length (entries c).
Proof.
  unfold keys. rewrite size_list_to_set by apply entries_NoDup. apply length_fmap.
Qed.

Lemma keys_spec k c : k ∈ keys c ↔ is_Some (peek k c).
Proof. unfold keys, peek. by rewrite elem_of_list_to_set, find_is_Some. Qed.

Lemma peek_put_same k v c : peek k (put k v c) = Some v.
Proof. unfold peek, put, push. simpl. by rewrite decide_True. Qed.

Lemma peek_put_other k k' v c :
  k ≠ k' → peek k' (put k v c) = peek k' c ∨ peek k' (put k v c) = None.
Proof.
  intros Hne. unfold peek, put, push. cbn [entries take find].
  rewrite decide_False by done.
  destruct (find_take (cap_pred c) k' (remove k (entries c))) as [->| ->]; [left|by right].
  by apply find_remove_other.
Qed.

Lemma put_room k k' v c :
  k ≠ k' → k ∈ keys c ∨ (size (keys c) < S (cap_pred c))%nat →
  peek k' (put k v c) = peek k' c.
Proof.
  intros Hne Hroom. unfold peek, put, push. cbn [entries take find].
  rewrite decide_False by done. rewrite take_ge.
  - by apply find_remove_other.
  - rewrite size_keys in Hroom. destruct Hroom as [Hk|Hlt].
    + unfold keys in Hk. apply elem_of_list_to_set, remove_length_in in Hk.
      pose proof (entries_length c). lia.
    + pose proof (remove_length k (entries c)). lia.
Qed.

Lemma get_snd k k' c : peek k' (snd (get k c)) = peek k' c.
Proof.
  unfold get. destruct (peek k c) as [v|] eqn:E; [|done]. simpl.
  destruct (decide (k = k')) as [<-|Hne]; [by rewrite peek_put_same|].
  apply put_room; [done|]. left. apply keys_spec. eauto.
Qed.

End Assoc.
Arguments t : clear implicits.
End Assoc.

Definition assoc_lru : LruCrate := {|
  LruCache := Assoc.t;
  lru_new := @Assoc.new;
  lru_cap V c := S (Assoc.cap_pred c);
  lru_keys := @Assoc.keys;
  lru_peek := @Assoc.peek;
  lru_put := @Assoc.put;
  lru_get := @Assoc.get;
  lru_entry := @Assoc.entry;
|}.

Lemma assoc_lru_laws : LruCrateLaws assoc_lru.
Proof.
  split; intros; simpl; try done.
  - apply Assoc.keys_spec.
  - apply Assoc.peek_put_same.
  - by apply Assoc.peek_put_other.
  - by apply Assoc.put_room.
  - unfold Assoc.get. by destruct (Assoc.peek k c).
  - apply Assoc.get_snd.
  - apply Assoc.peek_put_same.
  - by apply Assoc.peek_put_other.
  - by apply Assoc.put_room.
Qed.

(** ** [std::sync::Mutex]: [lock] fails once a holder panicked *)

Record Mutex (A : Type) := { poisoned : bool; guarded : A }.
Arguments poisoned {A} _.
Arguments guarded {A} _.
Arguments Build_Mutex {A} _ _.

Definition mutex_new {A} (a : A) : Mutex A := {| poisoned := false; guarded := a |}.
