(* ===== verification/Revocation.v ===== *)
(** * Revocation cache ([enforcement/revocation/])

    The atomic Bloom filter, the LRU set, the counters and the store that
    combines them, against the [RevocationStore] interface of [firma-core].
    xxh3 and the floating-point sizing formula of the filter are parameters. *)

From Stdlib Require Import SpecFloat.
From S2P Require Import Prelude RustStr ActionClasses Core Lru.

#[local] Open Scope Z_scope.

(** [xxhash_rust::xxh3::xxh3_128]. *)
Class Xxh3 := xxh3_128 : string → Z.

(** The [f64] formula of [AtomicBloom::new]: [bit_count_float.ceil() as u64] and
    [((bit_count_float / n) * ln2).ceil() as u32] for a capacity and a rate. *)
Class BloomSizing := bloom_sizing : Z → spec_float → Z * Z.

(** ** Configuration *)

Record FalsePositiveRate := { rate : spec_float }.

Definition f64_one : spec_float := S754_finite false 4503599627370496 (-52).

(** [FalsePositiveRate::new]. *)
Definition false_positive_rate_new (r : spec_float) : option FalsePositiveRate :=
  if SFltb (S754_zero false) r && SFltb r f64_one then Some {| rate := r |} else None.

Record RevocationConfig := {
  rc_capacity : Z;
  rc_fpr : FalsePositiveRate;
  (** [S n] for the source's non-zero [n + 1] *)
  rc_lru_capacity : nat;
}.

(** ** Bloom filter *)

Record AtomicBloom := {
  bits : list Z;
  bit_count : Z;
  hash_count : Z;
}.

(** [AtomicBloom::new]. *)
Definition bloom_new `{!BloomSizing} (capacity : Z) (fpr : FalsePositiveRate) : AtomicBloom :=
  let '(bit_ceil, hash_ceil) := bloom_sizing capacity (rate fpr) in
  let bit_count := Z.max bit_ceil 64 in
  let word_count := (bit_count + 63) / 64 in
  {| bits := replicate (Z.to_nat word_count) 0;
     bit_count := bit_count;
     hash_count := Z.max hash_ceil 1 |}.

Section Bloom.
Context `{!Xxh3}.

(** [AtomicBloom::hashes]. *)
Definition hashes (key : string) : Z * Z :=
  let hash := xxh3_128 key in
  (Z.land hash (2 ^ 64 - 1), wrap_u64 (Z.shiftr hash 64)).

(** The bit probed for an index, its word and its mask. *)
Definition probe (b : AtomicBloom) (key : string) (index : Z) : Z :=
  let '(first, second) := hashes key in
  wrap_u64 (first + wrap_u64 (index * second)) mod bit_count b.

Definition probe_word (b : AtomicBloom) (key : string) (index : Z) : nat :=
  Z.to_nat (probe b key index / 64).

Definition probe_mask (b : AtomicBloom) (key : string) (index : Z) : Z :=
  wrap_u64 (Z.shiftl 1 (probe b key index mod 64)).

(** [self.bits[word].load()]; [bloom_in_bounds] shows the index is valid. *)
Definition load (b : AtomicBloom) (word : nat) : Z := default 0 (bits b !! word).

(** [self.bits[word].fetch_or(mask)] for one index. *)
Definition fetch_or (b : AtomicBloom) (key : string) (index : Z) : AtomicBloom :=
  let word := probe_word b key index in
  {| bits := <[word := Z.lor (load b word) (probe_mask b key index)]> (bits b);
     bit_count := bit_count b; hash_count := hash_count b |}.

(** [0..self.hash_count]. *)
Definition indices (b : AtomicBloom) : list Z := seqZ 0 (hash_count b).

(** [AtomicBloom::insert]. *)
Definition bloom_insert (b : AtomicBloom) (key : string) : AtomicBloom :=
  fold_left (λ b index, fetch_or b key index) (indices b) b.

(** One iteration of [contains]: is the bit of this index set? *)
Definition probe_set (b : AtomicBloom) (key : string) (index : Z) : bool :=
  negb (Z.land (load b (probe_word b key index)) (probe_mask b key index) =? 0).

(** [AtomicBloom::contains] when the load of index [i] sees the filter as
    [loads i]: other threads may write between the loads. *)
Definition bloom_contains_at (b : AtomicBloom) (loads : Z → AtomicBloom) (key : string) : bool :=
  forallb (λ index, probe_set (loads index) key index) (indices b).

(** [AtomicBloom::contains] without interference. *)
Definition bloom_contains (b : AtomicBloom) (key : string) : bool :=
  bloom_contains_at b (λ _, b) key.

End Bloom.

(** ** Counters *)

Record RevocationMetrics := {
  bloom_hits : Z;
  lru_hits : Z;
  bloom_positive_lru_miss : Z;
  revocations_total : Z;
}.

Definition metrics_default : RevocationMetrics := Build_RevocationMetrics 0 0 0 0.

(** [record_bloom_hit], [record_lru_hit], [record_lru_miss],
    [record_revocation]: [fetch_add] wraps around. *)
Definition record_bloom_hit (m : RevocationMetrics) : RevocationMetrics :=
  Build_RevocationMetrics (wrap_u64 (bloom_hits m + 1)) (lru_hits m)
    (bloom_positive_lru_miss m) (revocations_total m).

Definition record_lru_hit (m : RevocationMetrics) : RevocationMetrics :=
  Build_RevocationMetrics (bloom_hits m) (wrap_u64 (lru_hits m + 1))
    (bloom_positive_lru_miss m) (revocations_total m).

Definition record_lru_miss (m : RevocationMetrics) : RevocationMetrics :=
  Build_RevocationMetrics (bloom_hits m) (lru_hits m)
    (wrap_u64 (bloom_positive_lru_miss m + 1)) (revocations_total m).

Definition record_revocation (m : RevocationMetrics) : RevocationMetrics :=
  Build_RevocationMetrics (bloom_hits m) (lru_hits m)
    (bloom_positive_lru_miss m) (wrap_u64 (revocations_total m + 1)).

(** ** The interface of [firma-core]

    [RevocationStore] returns the new store, since implementations use interior
    mutability. *)

Class RevocationStore (S : Type) := {
  is_revoked : S → TokenId → Result bool TokenError * S;
  add_revocation : S → TokenId → Result unit TokenError * S;
}.

(** What Stage 1 needs of a store: [revoked] marks are set by [add_revocation],
    survive every operation, and are reported. *)
Class RevocationLaws (S : Type) `{!RevocationStore S} := {
  rs_ok : S → Prop;
  revoked : S → TokenId → Prop;
  add_revocation_ok s t : rs_ok s → rs_ok (snd (add_revocation s t));
  is_revoked_ok s t : rs_ok s → rs_ok (snd (is_revoked s t));
  add_revocation_marks s t : rs_ok s → revoked (snd (add_revocation s t)) t;
  add_revocation_keeps s t t' : rs_ok s → revoked s t' → revoked (snd (add_revocation s t)) t';
  is_revoked_keeps s t t' : rs_ok s → revoked s t' → revoked (snd (is_revoked s t)) t';
  is_revoked_reports s t : rs_ok s → revoked s t → fst (is_revoked s t) = Ok true;
}.

(** ** The Bloom + LRU store *)

Section Store.
Context `{!Xxh3} `{!LruCrate}.

(** [LruSet::insert] and [LruSet::contains]; a poisoned lock does nothing. *)
Definition LruSet := Mutex (LruCache unit).

Definition lru_set_insert (l : LruSet) (key : string) : LruSet :=
  if poisoned l then l
  else {| poisoned := false; guarded := lru_put key tt (guarded l) |}.

Definition lru_set_contains (l : LruSet) (key : string) : bool * LruSet :=
  if poisoned l then (false, l)
  else let '(found, c) := lru_get key (guarded l) in
       (bool_decide (is_Some found), {| poisoned := false; guarded := c |}).

Record BloomLruRevocationStore := {
  bloom : AtomicBloom;
  lru : LruSet;
  metrics : RevocationMetrics;
}.

(** [BloomLruRevocationStore::new]. *)
Definition store_new `{!BloomSizing} (cfg : RevocationConfig) : BloomLruRevocationStore :=
  {| bloom := bloom_new (rc_capacity cfg) (rc_fpr cfg);
     lru := mutex_new (lru_new (rc_lru_capacity cfg));
     metrics := metrics_default |}.

(** [is_revoked]. *)
Definition bloom_is_revoked (s : BloomLruRevocationStore) (token_id : TokenId)
    : Result bool TokenError * BloomLruRevocationStore :=
  if negb (bloom_contains (bloom s) token_id) then (Ok false, s)
  else
    let m := record_bloom_hit (metrics s) in
    let '(hit, l) := lru_set_contains (lru s) token_id in
    let m := if hit then record_lru_hit m else record_lru_miss m in
    (Ok true, {| bloom := bloom s; lru := l; metrics := m |}).

(** [add_revocation]. *)
Definition bloom_add_revocation (s : BloomLruRevocationStore) (token_id : TokenId)
    : Result unit TokenError * BloomLruRevocationStore :=
  (Ok tt, {| bloom := bloom_insert (bloom s) token_id;
             lru := lru_set_insert (lru s) token_id;
             metrics := record_revocation (metrics s) |}).

#[export] Instance bloom_lru_store : RevocationStore BloomLruRevocationStore := {|
  is_revoked := bloom_is_revoked;
  add_revocation := bloom_add_revocation;
|}.

End Store.

(** ** Bits *)

Lemma land_pow2_zero x k : 0 ≤ k → (Z.land x (2 ^ k) =? 0) = negb (Z.testbit x k).
Proof.
  intros Hk. destruct (Z.testbit x k) eqn:E; simpl.
  - apply Z.eqb_neq. intros H. apply (f_equal (λ z, Z.testbit z k)) in H.
    rewrite Z.land_spec, Z.pow2_bits_true, E, Z.bits_0 in H by done. done.
  - apply Z.eqb_eq, Z.bits_inj'. intros n Hn. rewrite Z.land_spec, Z.bits_0.
    destruct (decide (n = k)) as [->|Hne]; [by rewrite E|].
    rewrite Z.pow2_bits_false by lia. apply andb_false_r.
Qed.

Section BloomFacts.
Context {XX : Xxh3}.

(** A filter as [new] sizes it. *)
Definition bloom_ok (b : AtomicBloom) : Prop :=
  64 ≤ bit_count b ∧ 1 ≤ hash_count b ∧
  Z.of_nat (length (bits b)) = (bit_count b + 63) / 64.

Lemma bloom_new_ok {BS : BloomSizing} capacity fpr : bloom_ok (bloom_new capacity fpr).
Proof.
  unfold bloom_new, bloom_ok. destruct (bloom_sizing capacity (rate fpr)) as [x y].
  cbn [bits bit_count hash_count]. rewrite length_replicate. split_and!; try lia.
  rewrite Z2Nat.id; [done|]. apply Z.div_pos; lia.
Qed.

Lemma probe_range b key i : bloom_ok b → 0 ≤ probe b key i < bit_count b.
Proof.
  intros (H & _). unfold probe. destruct (hashes key). apply Z.mod_pos_bound. lia.
Qed.

(** No probe indexes outside the words. *)
Lemma bloom_in_bounds b key i :
  bloom_ok b → (probe_word b key i < length (bits b))%nat.
Proof.
  intros Hok. pose proof (probe_range b key i Hok) as Hp. destruct Hok as (_ & _ & Hl).
  unfold probe_word. apply Nat2Z.inj_lt. rewrite Hl, Z2Nat.id by (apply Z.div_pos; lia).
  apply Z.div_lt_upper_bound; [lia|].
  pose proof (Z.div_mod (bit_count b + 63) 64). pose proof (Z.mod_pos_bound (bit_count b + 63) 64).
  lia.
Qed.

Lemma probe_mod b key i : 0 ≤ probe b key i mod 64 < 64.
Proof. apply Z.mod_pos_bound. lia. Qed.

Lemma probe_mask_pow b key i : probe_mask b key i = 2 ^ (probe b key i mod 64).
Proof.
  unfold probe_mask. pose proof (probe_mod b key i) as Hm.
  rewrite Z.shiftl_mul_pow2, Z.mul_1_l by lia. unfold wrap_u64. apply Z.mod_small.
  split; [apply Z.pow_nonneg; lia|]. apply Z.pow_lt_mono_r; lia.
Qed.

Lemma probe_set_testbit b key i :
  probe_set b key i = Z.testbit (load b (probe_word b key i)) (probe b key i mod 64).
Proof.
  unfold probe_set. rewrite probe_mask_pow, land_pow2_zero by apply probe_mod.
  apply negb_involutive.
Qed.

(** [b'] has the shape of [b] and at least its bits. *)
Definition bloom_le (b b' : AtomicBloom) : Prop :=
  bit_count b' = bit_count b ∧ hash_count b' = hash_count b ∧
  length (bits b') = length (bits b) ∧
  ∀ w n, Z.testbit (load b w) n = true → Z.testbit (load b' w) n = true.

#[export] Instance bloom_le_preorder : PreOrder bloom_le.
Proof.
  split; [by intros b|]. intros a b c (H1 & H2 & H3 & H4) (H1' & H2' & H3' & H4').
  split_and!; try congruence. auto.
Qed.

Lemma bloom_le_ok b b' : bloom_le b b' → bloom_ok b → bloom_ok b'.
Proof. intros (H1 & H2 & H3 & _) (? & ? & ?). unfold bloom_ok. by rewrite H1, H2, H3. Qed.

Lemma bloom_le_probe b b' key i :
  bloom_le b b' → probe_word b' key i = probe_word b key i ∧ probe b' key i = probe b key i.
Proof. intros (H & _). unfold probe_word, probe. by rewrite H. Qed.

Lemma probe_set_mono b b' key i :
  bloom_le b b' → probe_set b key i = true → probe_set b' key i = true.
Proof.
  intros Hle. rewrite !probe_set_testbit.
  destruct (bloom_le_probe _ _ key i Hle) as [-> ->]. apply Hle.
Qed.

Lemma load_fetch_or b key i w :
  bloom_ok b →
  load (fetch_or b key i) w
  = if decide (w = probe_word b key i) then Z.lor (load b w) (probe_mask b key i) else load b w.
Proof.
  intros Hok. unfold fetch_or, load. cbn [bits].
  pose proof (bloom_in_bounds b key i Hok) as Hb. case_decide as Hw.
  - subst w. by rewrite list_lookup_insert_eq by done.
  - by rewrite list_lookup_insert_ne by done.
Qed.

Lemma fetch_or_le b key i : bloom_ok b → bloom_le b (fetch_or b key i).
Proof.
  intros Hok. split_and!; try done.
  - unfold fetch_or. cbn [bits]. apply length_insert.
  - intros w n Hn. rewrite load_fetch_or by done. case_decide; [|done].
    by rewrite Z.lor_spec, Hn.
Qed.

Lemma fetch_or_set b key i : bloom_ok b → probe_set (fetch_or b key i) key i = true.
Proof.
  intros Hok. destruct (bloom_le_probe _ _ key i (fetch_or_le b key i Hok)) as [Hw Hp].
  rewrite probe_set_testbit, Hw, Hp, load_fetch_or by done.
  rewrite decide_True by done. rewrite Z.lor_spec, probe_mask_pow.
  rewrite Z.pow2_bits_true by apply probe_mod. apply orb_true_r.
Qed.

Lemma bloom_insert_fold l b key :
  bloom_ok b →
  let b' := fold_left (λ b index, fetch_or b key index) l b in
  bloom_le b b' ∧ ∀ i, i ∈ l → probe_set b' key i = true.
Proof.
  revert b. induction l as [|i l IH]; intros b Hok; simpl.
  - split; [done|]. intros i Hi. inversion Hi.
  - pose proof (fetch_or_le b key i Hok) as Hle.
    destruct (IH _ (bloom_le_ok _ _ Hle Hok)) as [Hle' Hset]. split; [by etrans|].
    intros j [->|Hj]%elem_of_cons; [|by apply Hset].
    eapply probe_set_mono; [exact Hle'|]. by apply fetch_or_set.
Qed.

Lemma bloom_insert_le b key : bloom_ok b → bloom_le b (bloom_insert b key).
Proof. intros H. by apply bloom_insert_fold. Qed.

Lemma bloom_contains_at_mono b loads key :
  (∀ i, i ∈ indices b → probe_set b key i = true) →
  (∀ i, bloom_le b (loads i)) → bloom_contains_at b loads key = true.
Proof.
  intros Hset Hle. unfold bloom_contains_at. apply forallb_forall.
  intros i Hi%list_elem_of_In. eapply probe_set_mono; [apply Hle|auto].
Qed.

Lemma bloom_contains_mono b b' key :
  bloom_le b b' → bloom_contains b key = true → bloom_contains b' key = true.
Proof.
  intros Hle. unfold bloom_contains, bloom_contains_at, indices.
  destruct Hle as (H1 & H2 & H3 & H4). rewrite H2, !forallb_forall. intros H i Hi.
  eapply probe_set_mono; [|by apply H]. by split_and!.
Qed.

Lemma bloom_insert_sets b key i :
  bloom_ok b → i ∈ indices (bloom_insert b key) → probe_set (bloom_insert b key) key i = true.
Proof.
  intros Hok. destruct (bloom_insert_fold (indices b) b key Hok) as [(_ & H2 & _) Hset].
  change (hash_count (bloom_insert b key) = hash_count b) in H2.
  intros Hi. apply Hset. unfold indices in Hi |- *. by rewrite H2 in Hi.
Qed.

Lemma bloom_insert_contains b key :
  bloom_ok b → bloom_contains (bloom_insert b key) key = true.
Proof.
  intros Hok. apply bloom_contains_at_mono; [intros i Hi; by apply bloom_insert_sets|done].
Qed.

(** A write by any thread: one [fetch_or] of an insertion of any key. *)
Inductive bloom_write : AtomicBloom → AtomicBloom → Prop :=
| write_bit b key i : bloom_write b (fetch_or b key i).

Lemma bloom_writes_le b b' : bloom_ok b → rtc bloom_write b b' → bloom_le b b'.
Proof.
  intros Hok H. induction H as [|b c d [b0 key i] Hr IH]; [done|].
  pose proof (fetch_or_le b0 key i Hok) as Hle. etrans; [exact Hle|].
  apply IH. by eapply bloom_le_ok.
Qed.

(** [C25] The lock-free filter has no false negative under concurrency: once an
    insertion has completed, a membership test answers yes whatever bits other
    threads set before and between its loads, and no probe of the test or of
    the insertion indexes outside the words, so neither panics. *)
Theorem bloom_no_false_negative b key loads :
  bloom_ok b → (∀ i, rtc bloom_write (bloom_insert b key) (loads i)) →
  bloom_contains_at (bloom_insert b key) loads key = true ∧
  ∀ key' i, (probe_word (bloom_insert b key) key' i < length (bits (bloom_insert b key)))%nat.
Proof.
  intros Hok Hl.
  assert (bloom_ok (bloom_insert b key)) as Hok'
    by (by eapply bloom_le_ok; [apply bloom_insert_le|]).
  split; [|intros; by apply bloom_in_bounds].
  apply bloom_contains_at_mono.
  - intros i Hi. by apply bloom_insert_sets.
  - intros i. by apply bloom_writes_le.
Qed.

End BloomFacts.

(** ** The store *)

Section StoreFacts.
Context {XX : Xxh3} {LC : LruCrate}.

Lemma is_revoked_bloom s t : bloom (snd (bloom_is_revoked s t)) = bloom s.
Proof.
  unfold bloom_is_revoked. case_match; [done|]. by destruct (lru_set_contains (lru s) t).
Qed.

Lemma is_revoked_result s t :
  fst (bloom_is_revoked s t) = Ok (bloom_contains (bloom s) t).
Proof.
  unfold bloom_is_revoked. destruct (bloom_contains (bloom s) t); [|done].
  by destruct (lru_set_contains (lru s) t).
Qed.

#[export] Program Instance bloom_lru_laws : RevocationLaws BloomLruRevocationStore := {|
  rs_ok s := bloom_ok (bloom s);
  revoked s t := bloom_contains (bloom s) t = true;
|}.
Next Obligation. intros s t H. by eapply bloom_le_ok; [apply bloom_insert_le|]. Qed.
Next Obligation. intros s t H. simpl. by rewrite is_revoked_bloom. Qed.
Next Obligation. intros s t H. by apply bloom_insert_contains. Qed.
Next Obligation.
  intros s t t' H. apply bloom_contains_mono. by apply bloom_insert_le.
Qed.
Next Obligation. intros s t t' H. simpl. by rewrite is_revoked_bloom. Qed.
Next Obligation. intros s t H Hr. simpl. by rewrite is_revoked_result, Hr. Qed.

End StoreFacts.

(** ** Any sequence of calls, against the interface *)

Inductive RevocationOp := AddRevocation (t : TokenId) | IsRevoked (t : TokenId).

Section Terminal.
Context {S : Type} {RS : RevocationStore S} {L : RevocationLaws S}.

Definition rev_step (s : S) (op : RevocationOp) : S :=
  match op with
  | AddRevocation t => snd (add_revocation s t)
  | IsRevoked t => snd (is_revoked s t)
  end.

Definition rev_run (s : S) (ops : list RevocationOp) : S := fold_left rev_step ops s.

Lemma rev_run_ok s ops : rs_ok s → rs_ok (rev_run s ops).
Proof.
  revert s. induction ops as [|[t|t] ops IH]; intros s H; simpl; [done|..];
    apply IH; [by apply add_revocation_ok|by apply is_revoked_ok].
Qed.

Lemma rev_run_revoked s ops t : rs_ok s → revoked s t → revoked (rev_run s ops) t.
Proof.
  revert s. induction ops as [|[u|u] ops IH]; intros s H Hr; simpl; [done|..]; apply IH;
    auto using add_revocation_ok, is_revoked_ok, add_revocation_keeps, is_revoked_keeps.
Qed.
End Terminal.

(** Revoked is terminal: in a store built by [new], whatever lookups and
    revocations come before and after, once a token has been revoked every
    later lookup reports it revoked, even after the confirmed-entry cache has
    evicted it or its lock is poisoned. *)
Theorem revoked_is_terminal {XX : Xxh3} {LC : LruCrate} {BS : BloomSizing} cfg before t after :
  let s := rev_run (store_new cfg) before in
  fst (is_revoked (rev_run (snd (add_revocation s t)) after) t) = Ok true.
Proof.
  cbv zeta. set (s := rev_run (store_new cfg) before).
  assert (rs_ok s) as Hs by (apply rev_run_ok, bloom_new_ok).
  apply is_revoked_reports.
  - by apply rev_run_ok, add_revocation_ok.
  - apply rev_run_revoked; [by apply add_revocation_ok|by apply add_revocation_marks].
Qed.

(** ** Samples *)

Definition sample_hash : Xxh3 := λ s,
  Z.of_nat (String.length s) * 18446744073709551629 + 7.
Definition sample_sizing : BloomSizing := λ _ _, (128, 3).
Definition sample_rate : FalsePositiveRate :=
  {| rate := S754_finite false 7378697629483821 (-66) |}.

Lemma bloom_no_false_negative_witness :
  let _ := sample_hash in let _ := sample_sizing in
  let b := bloom_new 10 sample_rate in
  bloom_contains_at (bloom_insert b "tok")
    (λ i, if i =? 0 then bloom_insert b "tok"
          else fetch_or (bloom_insert b "tok") "other" 1) "tok" = true.
Proof.
  apply (bloom_no_false_negative (XX := sample_hash) (@bloom_new sample_sizing 10 sample_rate)
           "tok").
  - vm_compute. done.
  - intros i. destruct (i =? 0); [reflexivity|]. eapply rtc_l; [|reflexivity]. constructor.
Defined.
