(* ===== verification/CapabilityMap.v ===== *)
(** * Capability token selection ([enforcement/capability_map.rs])

    Pre-provisioned tokens indexed by action class, and the selection of the
    best match for a session, an action class and a resource. *)

From S2P Require Import Prelude RustStr ActionClasses Core Decision.

#[local] Open Scope string_scope.

Record CapabilityEntry := {
  raw_token : string;
  claims : CapabilityClaims;
}.

Record CapabilityMap := {
  entries : list CapabilityEntry;
  by_action : gmap string (list nat);
  wildcard_indices : list nat;
}.

Definition star_action : string := "*".

(** The inner loop of [CapabilityMap::new]: one action of entry [idx]. *)
Definition index_action (idx : nat) (st : gmap string (list nat) * list nat) (action : string)
    : gmap string (list nat) * list nat :=
  if bool_decide (action = star_action) then (st.1, (st.2 ++ [idx])%list)
  else (<[action := (default [] (st.1 !! action) ++ [idx])%list]> st.1, st.2).

(** The outer loop, from entry [idx]. *)
Fixpoint index_entries (idx : nat) (st : gmap string (list nat) * list nat)
    (es : list CapabilityEntry) : gmap string (list nat) * list nat :=
  match es with
  | [] => st
  | e :: es =>
      index_entries (S idx) (fold_left (index_action idx) (action_set (claims e)) st) es
  end.

(** [CapabilityMap::new]. *)
Definition capability_map_new (es : list CapabilityEntry) : CapabilityMap :=
  let '(by_action, wildcard) := index_entries 0 (∅, []) es in
  {| entries := es; by_action := by_action; wildcard_indices := wildcard |}.

(** [CapabilityMap::match_score]. *)
Definition match_score (c : CapabilityClaims) (action_class resource : string) : Z :=
  let has_wildcard_action := bool_decide (star_action ∈ action_set c) in
  let has_exact_action := bool_decide (action_class ∈ action_set c) in
  if negb has_exact_action && negb has_wildcard_action then 0%Z
  else
    let score := if has_exact_action then 100%Z else 10%Z in
    if bool_decide (resource_scope c = "*") then (score + 1)%Z
    else if matches_resource_scope (resource_scope c) resource then (score + 50)%Z
    else if negb (is_empty (resource_scope c)) then 0%Z
    else score.

(** [CapabilityMap::is_better_than]. *)
Definition is_better_than (candidate current : CapabilityClaims) : bool :=
  match Nat.compare (length (action_set candidate)) (length (action_set current)) with
  | Lt => true
  | Gt => false
  | Eq =>
      let cand_specific := negb (bool_decide (resource_scope candidate = "*")) in
      let curr_specific := negb (bool_decide (resource_scope current = "*")) in
      match cand_specific, curr_specific with
      | true, false => true
      | false, true => false
      | _, _ => (issued_at current <? issued_at candidate)%Z
      end
  end.

(** [CapabilityMap::should_replace]. *)
Definition should_replace (score : Z) (entry : CapabilityEntry)
    (best_match : option (Z * CapabilityEntry)) : bool :=
  if (score =? 0)%Z then false
  else match best_match with
       | None => true
       | Some (best_score, best_entry) =>
           (best_score <? score)%Z ||
           ((score =? best_score)%Z && is_better_than (claims entry) (claims best_entry))
       end.

(** The body of the two selection loops, for one index. *)
Definition consider (m : CapabilityMap) (session action resource : string)
    (best : option (Z * CapabilityEntry)) (idx : nat) : option (Z * CapabilityEntry) :=
  match entries m !! idx with
  | None => best
  | Some entry =>
      if negb (bool_decide (session_id (claims entry) = session)) then best
      else
        let score := match_score (claims entry) action resource in
        if should_replace score entry best then Some (score, entry) else best
  end.

Definition best_entry (m : CapabilityMap) (session action resource : string)
    : option (Z * CapabilityEntry) :=
  let best := fold_left (consider m session action resource)
                (default [] (by_action m !! action)) None in
  fold_left (consider m session action resource) (wildcard_indices m) best.

(** [CapabilityMap::select]. *)
Definition select `{!HttpCrate} (m : CapabilityMap) (session action resource : string)
    : Result CapabilityEntry EnforcementDecision :=
  ok_or (snd <$> best_entry m session action resource)
    (into_deny
       (NoMatchingToken ("no capability token covers action '" +:+ action +:+
                         "' on resource '" +:+ resource +:+ "'"))
       (CapabilityValidation TokenSelection)).

(** ** The index *)

(** What the index holds: position [i] is listed for an action exactly when
    entry [i] has it. *)
Definition indexed (st : gmap string (list nat) * list nat) (action : string) : list nat :=
  if bool_decide (action = star_action) then st.2 else default [] (st.1 !! action).

Lemma index_action_spec idx st a b i :
  i ∈ indexed (index_action idx st a) b ↔ i ∈ indexed st b ∨ (i = idx ∧ a = b).
Proof.
  unfold index_action, indexed.
  repeat case_bool_decide; subst; simpl;
    rewrite ?elem_of_app, ?list_elem_of_singleton; try naive_solver.
  destruct (decide (a = b)) as [->|Hne].
  - rewrite lookup_insert_eq. simpl. rewrite elem_of_app, list_elem_of_singleton. naive_solver.
  - rewrite lookup_insert_ne by done. naive_solver.
Qed.

Lemma index_actions_spec idx st actions b i :
  i ∈ indexed (fold_left (index_action idx) actions st) b ↔
  i ∈ indexed st b ∨ (i = idx ∧ b ∈ actions).
Proof.
  revert st. induction actions as [|a actions IH]; intros st; simpl.
  - split; [auto|]. intros [?|[_ H]]; [done|inversion H].
  - rewrite IH, index_action_spec, elem_of_cons. naive_solver.
Qed.

Lemma index_entries_spec idx st es b i :
  i ∈ indexed (index_entries idx st es) b ↔
  i ∈ indexed st b ∨ ∃ j e, i = (idx + j)%nat ∧ es !! j = Some e ∧ b ∈ action_set (claims e).
Proof.
  revert idx st. induction es as [|e es IH]; intros idx st; simpl.
  - split; [auto|]. intros [?|(j & e & _ & H & _)]; [done|]. by rewrite lookup_nil in H.
  - rewrite IH, index_actions_spec. split.
    + intros [[?|[-> ?]]|(j & e' & -> & Hj & Hb)]; [by left|right|right].
      * exists 0, e. split_and!; [lia|done..].
      * exists (S j), e'. split_and!; [lia|done..].
    + intros [?|([|j] & e' & -> & Hj & Hb)]; simplify_eq/=; [auto| |].
      * left; right. split; [lia|done].
      * right. exists j, e'. split_and!; [lia|done..].
Qed.

Lemma map_new_entries es : entries (capability_map_new es) = es.
Proof. unfold capability_map_new. by destruct (index_entries 0 (∅, []) es). Qed.

Lemma indexed_new es b i :
  i ∈ indexed (index_entries 0 (∅, []) es) b ↔ ∃ e, es !! i = Some e ∧ b ∈ action_set (claims e).
Proof.
  rewrite index_entries_spec. split.
  - intros [Hx|(j & e & -> & ? & ?)]; [|eauto]. exfalso. unfold indexed in Hx.
    case_bool_decide; simpl in Hx; [|rewrite lookup_empty in Hx]; inversion Hx.
  - intros (e & ? & ?). right. eauto.
Qed.

(** The wildcard is never a key of the per-action index. *)
Lemma index_entries_star idx st es :
  st.1 !! star_action = None → (index_entries idx st es).1 !! star_action = None.
Proof.
  revert idx st. induction es as [|e es IH]; intros idx st Hst; [done|]. simpl. apply IH.
  clear IH. revert st Hst. induction (action_set (claims e)) as [|a l IH]; intros st Hst; [done|].
  simpl. apply IH. unfold index_action. case_bool_decide; simpl; [done|].
  by rewrite lookup_insert_ne.
Qed.

(** The positions [select] visits. *)
Definition visited (m : CapabilityMap) (action : string) : list nat :=
  (default [] (by_action m !! action) ++ wildcard_indices m)%list.

(** They are those of the entries that list the action or the wildcard, so every
    index is in range and no candidate is missed. *)
Lemma visited_new es action i :
  i ∈ visited (capability_map_new es) action ↔
  ∃ e, es !! i = Some e ∧
    (action ∈ action_set (claims e) ∨ star_action ∈ action_set (claims e)).
Proof.
  pose proof (indexed_new es action i) as Ha. pose proof (indexed_new es star_action i) as Hs.
  pose proof (index_entries_star 0 (∅, []) es (lookup_empty _)) as Hn.
  unfold visited, capability_map_new.
  destruct (index_entries 0 (∅, []) es) as [ba wi]. simpl in *. rewrite elem_of_app.
  unfold indexed in Ha, Hs. rewrite bool_decide_true in Hs by done. simpl in *.
  case_bool_decide as Hac; simpl in *.
  - subst action. rewrite Hn. simpl. rewrite Hs.
    split; [intros [Hx|?]; [inversion Hx|naive_solver]|naive_solver].
  - rewrite Ha, Hs. naive_solver.
Qed.

(** ** Ranking *)

Section Select.
Context (es : list CapabilityEntry) (session action resource : string).
Abbreviation score e := (match_score (claims e) action resource).
Abbreviation m := (capability_map_new es).

(** [a] ranks strictly above [b]. *)
Definition ranks_above (a b : CapabilityEntry) : Prop :=
  (score b < score a)%Z ∨ score a = score b ∧ is_better_than (claims a) (claims b) = true.

Lemma is_better_trans a b c :
  is_better_than a b = true → is_better_than b c = true → is_better_than a c = true.
Proof.
  unfold is_better_than.
  destruct (Nat.compare_spec (length (action_set a)) (length (action_set b)));
    destruct (Nat.compare_spec (length (action_set b)) (length (action_set c)));
    destruct (Nat.compare_spec (length (action_set a)) (length (action_set c)));
    try done; try lia;
    repeat case_bool_decide; simpl; try done; rewrite ?Z.ltb_lt; lia.
Qed.

Lemma ranks_above_trans a b c : ranks_above a b → ranks_above b c → ranks_above a c.
Proof.
  unfold ranks_above. intros [?|[-> ?]] [?|[Hbc ?]]; rewrite <-?Hbc in *; auto; [left; lia|].
  right. split; [done|]. by eapply is_better_trans.
Qed.

(** A candidate for the request: of the session, and covering the request. *)
Definition eligible (e : CapabilityEntry) : Prop :=
  session_id (claims e) = session ∧ score e ≠ 0%Z.

(** [best] is an eligible entry among the visited ones that none outranks. *)
Definition best_of (seen : list nat) (best : option (Z * CapabilityEntry)) : Prop :=
  match best with
  | None => ∀ i e, i ∈ seen → es !! i = Some e → ¬ eligible e
  | Some (sc, b) =>
      sc = score b ∧ eligible b ∧ (∃ i, i ∈ seen ∧ es !! i = Some b) ∧
      ∀ i e, i ∈ seen → es !! i = Some e → eligible e → ¬ ranks_above e b
  end.

Lemma should_replace_spec e best :
  should_replace (score e) e best = true ↔
  score e ≠ 0%Z ∧ match best with
              | None => True
              | Some (sc, b) => (sc < score e)%Z ∨
                  score e = sc ∧ is_better_than (claims e) (claims b) = true
              end.
Proof.
  unfold should_replace. destruct (Z.eqb_spec (score e) 0); [naive_solver|].
  destruct best as [[sc b]|]; [|naive_solver].
  rewrite orb_true_iff, andb_true_iff, Z.ltb_lt, Z.eqb_eq. naive_solver.
Qed.

Lemma ranks_above_irrefl e : ¬ ranks_above e e.
Proof.
  intros [?|[_ H]]; [lia|]. unfold is_better_than in H. rewrite Nat.compare_refl in H.
  by case_bool_decide; simpl in H; rewrite Z.ltb_irrefl in H.
Qed.

(** The next position changes nothing, or gives a new best entry. *)
Lemma best_of_skip seen best i :
  best_of seen best →
  (∀ e, es !! i = Some e → eligible e →
     match best with None => False | Some (_, b) => ¬ ranks_above e b end) →
  best_of (seen ++ [i])%list best.
Proof.
  intros Hb Hi. destruct best as [[sc b]|]; simpl in *.
  - destruct Hb as (-> & Hel & (j & Hj & Hjb) & Hmax). split_and!; [done|done| |].
    + exists j. rewrite elem_of_app. auto.
    + intros k e [Hk| ->%list_elem_of_singleton]%elem_of_app; eauto.
  - intros k e [Hk| ->%list_elem_of_singleton]%elem_of_app; eauto.
Qed.

Lemma best_of_take seen best i e :
  best_of seen best → es !! i = Some e → eligible e →
  match best with None => True | Some (_, b) => ranks_above e b end →
  best_of (seen ++ [i])%list (Some (score e, e)).
Proof.
  intros Hb He Hel Hr. split_and!; [done|done| |].
  - exists i. rewrite elem_of_app, list_elem_of_singleton. auto.
  - intros k e' [Hk| ->%list_elem_of_singleton]%elem_of_app Hke Hel' Hra.
    + destruct best as [[sc b]|]; simpl in *; [|by eapply Hb].
      destruct Hb as (_ & _ & _ & Hmax). eapply Hmax; [done..|]. by eapply ranks_above_trans.
    + rewrite He in Hke. injection Hke as <-. by eapply ranks_above_irrefl.
Qed.

Lemma best_of_consider seen best i :
  best_of seen best → best_of (seen ++ [i])%list (consider m session action resource best i).
Proof.
  intros Hb. unfold consider. rewrite map_new_entries.
  destruct (es !! i) as [e|] eqn:He; [|apply best_of_skip; [done|congruence]].
  case_bool_decide as Hs; simpl.
  2: { apply best_of_skip; [done|]. intros e' ? [? _]. congruence. }
  destruct (should_replace (score e) e best) eqn:Hr.
  - apply should_replace_spec in Hr as [Hsc Hr]. eapply best_of_take; [done..|].
    destruct best as [[sc b]|]; [|done]. by destruct Hb as (-> & _).
  - apply not_true_iff_false in Hr. rewrite should_replace_spec in Hr.
    apply best_of_skip; [done|]. intros e' He' [_ Hsc].
    assert (e' = e) as -> by congruence.
    destruct best as [[sc b]|]; [|tauto]. destruct Hb as (-> & _). intros Hra. by apply Hr.
Qed.

Lemma best_of_fold seen l best :
  best_of seen best →
  best_of (seen ++ l)%list (fold_left (consider m session action resource) l best).
Proof.
  revert seen best. induction l as [|i l IH]; intros seen best Hb; simpl.
  - by rewrite app_nil_r.
  - rewrite (cons_middle i seen l), app_assoc. by apply IH, best_of_consider.
Qed.

Lemma best_entry_best : best_of (visited m action) (best_entry m session action resource).
Proof.
  unfold best_entry, visited. apply best_of_fold. rewrite <-(app_nil_l (default [] _)).
  apply best_of_fold. intros i e Hi. inversion Hi.
Qed.

Lemma score_zero e :
  action ∉ action_set (claims e) → star_action ∉ action_set (claims e) → score e = 0%Z.
Proof. intros. unfold match_score. by rewrite !bool_decide_false by done. Qed.

Lemma score_covers e :
  score e ≠ 0%Z →
  (action ∈ action_set (claims e) ∨ star_action ∈ action_set (claims e)) ∧
  (resource_scope (claims e) = "" ∨
   matches_resource_scope (resource_scope (claims e)) resource = true).
Proof.
  unfold match_score. intros H. split.
  - destruct (decide (action ∈ action_set (claims e))); [by left|].
    destruct (decide (star_action ∈ action_set (claims e))); [by right|].
    by rewrite !bool_decide_false in H by done.
  - destruct (negb _ && negb _); [done|]. case_bool_decide as Hw.
    { right. unfold matches_resource_scope. by rewrite bool_decide_true. }
    destruct (matches_resource_scope _ _) eqn:E; [by right|].
    destruct (is_empty (resource_scope (claims e))) eqn:Em; [|done].
    left. unfold is_empty in Em. by apply bool_decide_eq_true in Em.
Qed.

Lemma eligible_visited i e :
  es !! i = Some e → eligible e → i ∈ visited m action.
Proof.
  intros He [_ Hs]. apply visited_new. exists e. split; [done|].
  by apply score_covers in Hs as [? _].
Qed.

End Select.

(** Token selection is optimal and isolated: over the map built from any
    list of tokens, the selected token belongs to the request's session, lists
    its action (or the wildcard), has a scope that is empty or covers its
    resource, and no other such token of the session outranks it (score, then
    fewest actions, then a specific scope, then the latest issue); selection
    fails only when the session has no such token, as a denial by the
    selection stage.  The index finds what a scan of all tokens would. *)
Theorem select_optimal `{!HttpCrate} es session action resource :
  match select (capability_map_new es) session action resource with
  | Ok e =>
      e ∈ es ∧ session_id (claims e) = session ∧
      (action ∈ action_set (claims e) ∨ star_action ∈ action_set (claims e)) ∧
      (resource_scope (claims e) = "" ∨
       matches_resource_scope (resource_scope (claims e)) resource = true) ∧
      (∀ e', e' ∈ es → eligible session action resource e' →
         ¬ ranks_above action resource e' e)
  | Err d =>
      (∃ detail, d = Deny TokenInvalid (CapabilityValidation TokenSelection) detail None None) ∧
      (∀ e', e' ∈ es → ¬ eligible session action resource e')
  end.
Proof.
  pose proof (best_entry_best es session action resource) as Hb. unfold select.
  destruct (best_entry _ _ _ _) as [[sc e]|]; simpl in *.
  - destruct Hb as (_ & Hel & (i & Hi & He) & Hmax).
    destruct (score_covers action resource e) as [Ha Hr]; [apply Hel|].
    split_and!; try done; [by eapply list_elem_of_lookup_2|apply Hel|].
    intros e' [j Hj]%list_elem_of_lookup Hel'. eapply Hmax; [|done..].
    by eapply eligible_visited.
  - split; [by eexists|]. intros e' [j Hj]%list_elem_of_lookup Hel'.
    eapply Hb; [|done..]. by eapply eligible_visited.
Qed.
