(* ===== verification/CapabilityValidation.v ===== *)
(** * Stage 1: capability validation ([enforcement/capability_validation.rs])

    Selection, verification, expiry, revocation and the single-agent tenancy of
    a sidecar process.  The token verifier is the trait object of the source,
    an argument here; the revocation store is any instance of the interface. *)

From S2P Require Import Prelude RustStr ActionClasses Core Decision Lru Revocation CapabilityMap.

#[local] Open Scope string_scope.

(** [dyn TokenVerifier]: [verify]. *)
Class TokenVerifier := verify : string → Result CapabilityClaims TokenError.

Record ValidatedCapability := {
  vc_raw_token : string;
  vc_claims : CapabilityClaims;
}.

Section Validator.
Context {HC : HttpCrate} {TV : TokenVerifier} {RS : Type} {RSt : RevocationStore RS}.

(** The state behind a [CapabilityValidator]: the swappable map, the revocation
    store and the first agent seen ([OnceLock]). *)
Record CapabilityValidator := {
  capability_map : CapabilityMap;
  revocation : RS;
  first_agent_id : option AgentId;
}.

(** [CapabilityValidator::new]. *)
Definition validator_new (m : CapabilityMap) (r : RS) : CapabilityValidator :=
  {| capability_map := m; revocation := r; first_agent_id := None |}.

Definition with_revocation (v : CapabilityValidator) (r : RS) : CapabilityValidator :=
  {| capability_map := capability_map v; revocation := r; first_agent_id := first_agent_id v |}.

Definition stage1 : EnforcementStage := CapabilityValidation TokenValidationS.

(** [CapabilityValidator::validate]; [now] is [Utc::now()]. *)
Definition validate (v : CapabilityValidator) (now : Z) (raw_token : string)
    : Result CapabilityClaims EnforcementDecision * CapabilityValidator :=
  match verify raw_token with
  | Err e => (Err (into_deny (TokenValidation e) stage1), v)
  | Ok c =>
      if (expiry c <=? now)%Z then
        (Err (into_deny (TokenValidation (Expired (token_id c))) stage1), v)
      else
        let '(answer, r) := is_revoked (revocation v) (token_id c) in
        let v := with_revocation v r in
        match answer with
        | Err e => (Err (into_deny (TokenValidation e) stage1), v)
        | Ok true => (Err (into_deny (TokenValidation (Revoked (token_id c))) stage1), v)
        | Ok false => (Ok c, v)
        end
  end.

(** [CapabilityValidator::enforce]. *)
Definition enforce_stage1 (v : CapabilityValidator) (now : Z) (envelope : NormalizedEnvelope)
    (session : string)
    : Result ValidatedCapability EnforcementDecision * CapabilityValidator :=
  let resource_display := policy_resource_display (ne_intent envelope) in
  match select (capability_map v) session (action_class (ne_intent envelope)) resource_display with
  | Err d => (Err d, v)
  | Ok entry =>
      match validate v now (raw_token entry) with
      | (Err d, v) => (Err d, v)
      | (Ok c, v) =>
          let first_agent := default (agent_id c) (first_agent_id v) in
          let v := {| capability_map := capability_map v; revocation := revocation v;
                      first_agent_id := Some first_agent |} in
          if negb (bool_decide (first_agent = agent_id c)) then
            (Err (Deny TenantMismatch stage1
                    ("agent_id '" +:+ agent_id c +:+
                     "' does not match first observed agent_id '" +:+ first_agent +:+ "'")
                    (Some envelope) (Some (identity_from_claims c))), v)
          else (Ok {| vc_raw_token := raw_token entry; vc_claims := c |}, v)
      end
  end.

(** ** Facts *)

Lemma validate_map v now t : capability_map (snd (validate v now t)) = capability_map v.
Proof.
  unfold validate. destruct (verify t); [|done]. case_match; [done|].
  destruct (is_revoked _ _) as [[[]|] ?]; done.
Qed.

Lemma validate_agent v now t : first_agent_id (snd (validate v now t)) = first_agent_id v.
Proof.
  unfold validate. destruct (verify t); [|done]. case_match; [done|].
  destruct (is_revoked _ _) as [[[]|] ?]; done.
Qed.

Lemma validate_store v now t :
  revocation (snd (validate v now t)) = revocation v ∨
  ∃ id, revocation (snd (validate v now t)) = snd (is_revoked (revocation v) id).
Proof.
  unfold validate. destruct (verify t) as [c|]; [|by left]. case_match; [by left|].
  right. exists (token_id c). destruct (is_revoked _ _) as [[[]|] ?]; done.
Qed.

Lemma validate_ok v now t c :
  fst (validate v now t) = Ok c →
  verify t = Ok c ∧ (now < expiry c)%Z ∧
  fst (is_revoked (revocation v) (token_id c)) = Ok false.
Proof.
  unfold validate. destruct (verify t) as [c'|]; [|done].
  destruct (Z.leb_spec (expiry c') now); [done|].
  destruct (is_revoked _ _) as [[[]|] ?] eqn:E; intros [= ->]. by rewrite E.
Qed.

Lemma validate_err v now t d :
  fst (validate v now t) = Err d →
  ∃ e, d = into_deny (TokenValidation e) stage1.
Proof.
  unfold validate. destruct (verify t) as [c'|]; [|intros [= <-]; eauto].
  destruct (expiry c' <=? now)%Z; [intros [= <-]; eauto|].
  destruct (is_revoked _ _) as [[[]|] ?]; intros [= <-]; eauto.
Qed.

Lemma enforce_stage1_ok v now env session vc :
  fst (enforce_stage1 v now env session) = Ok vc →
  ∃ entry,
    select (capability_map v) session (action_class (ne_intent env))
      (policy_resource_display (ne_intent env)) = Ok entry ∧
    vc_raw_token vc = raw_token entry ∧
    fst (validate v now (raw_token entry)) = Ok (vc_claims vc) ∧
    first_agent_id (snd (enforce_stage1 v now env session)) = Some (agent_id (vc_claims vc)) ∧
    (∀ a, first_agent_id v = Some a → a = agent_id (vc_claims vc)).
Proof.
  unfold enforce_stage1. destruct (select _ _ _ _) as [entry|]; [|done].
  pose proof (validate_agent v now (raw_token entry)) as Ha.
  destruct (validate v now (raw_token entry)) as [[c|] v'] eqn:Hv; simpl in *; [|done].
  rewrite Ha. case_bool_decide as Hc; simpl; intros [= <-]; simpl.
  exists entry. split_and!; [done..|by rewrite Hv|by rewrite Hc|].
  intros a E. by rewrite E in Hc.
Qed.

Lemma enforce_stage1_err v now env session d :
  fst (enforce_stage1 v now env session) = Err d →
  ∃ reason s detail ne id, d = Deny reason (CapabilityValidation s) detail ne id ∧
    reason ∈ [TokenInvalid; TokenExpired; TokenRevoked; TenantMismatch].
Proof.
  unfold enforce_stage1.
  destruct (select _ _ _ _) as [entry|d'] eqn:Hs.
  - destruct (validate v now (raw_token entry)) as [[c|d'] v'] eqn:Hv; simpl.
    + case_bool_decide; simpl; [done|]. intros [= <-]. repeat eexists. set_solver.
    + intros [= <-]. destruct (validate_err v now (raw_token entry) d') as [e ->];
        [by rewrite Hv|].
      unfold into_deny. repeat eexists. destruct e; set_solver.
  - intros [= <-]. unfold select, ok_or in Hs.
    destruct (snd <$> _) in Hs; [done|]. injection Hs as <-. repeat eexists. set_solver.
Qed.

(** The agent binding is set once. *)
Lemma enforce_stage1_agent v now env session a :
  first_agent_id v = Some a →
  first_agent_id (snd (enforce_stage1 v now env session)) = Some a.
Proof.
  intros Ha. unfold enforce_stage1. destruct (select _ _ _ _) as [entry|]; [|done].
  pose proof (validate_agent v now (raw_token entry)) as Hv.
  destruct (validate v now (raw_token entry)) as [[c|] v']; simpl in *; [|congruence].
  case_bool_decide; simpl; rewrite Hv, Ha; done.
Qed.

Lemma enforce_stage1_map v now env session :
  capability_map (snd (enforce_stage1 v now env session)) = capability_map v.
Proof.
  unfold enforce_stage1. destruct (select _ _ _ _) as [entry|]; [|done].
  pose proof (validate_map v now (raw_token entry)) as Hv.
  destruct (validate v now (raw_token entry)) as [[c|] v']; simpl in *; [|done].
  by case_bool_decide.
Qed.

Lemma enforce_stage1_store v now env session :
  revocation (snd (enforce_stage1 v now env session)) = revocation v ∨
  ∃ id, revocation (snd (enforce_stage1 v now env session)) = snd (is_revoked (revocation v) id).
Proof.
  unfold enforce_stage1. destruct (select _ _ _ _) as [entry|]; [|by left].
  pose proof (validate_store v now (raw_token entry)) as Hv.
  destruct (validate v now (raw_token entry)) as [[c|] v']; simpl in *; [|done].
  by case_bool_decide.
Qed.

(** ** A validator over time

    Between requests the background tasks replace the map and add revocations. *)

Inductive ValidatorStep : CapabilityValidator → list CapabilityClaims → CapabilityValidator → Prop :=
| step_reload v m :
    ValidatorStep v []
      {| capability_map := m; revocation := revocation v; first_agent_id := first_agent_id v |}
| step_revoke v t :
    ValidatorStep v [] (with_revocation v (snd (add_revocation (revocation v) t)))
| step_request v now env session :
    ValidatorStep v
      (match fst (enforce_stage1 v now env session) with
       | Ok vc => [vc_claims vc]
       | Err _ => []
       end)
      (snd (enforce_stage1 v now env session)).

Inductive ValidatorRun : CapabilityValidator → list CapabilityClaims → CapabilityValidator → Prop :=
| run_nil v : ValidatorRun v [] v
| run_step v l v' l' v'' :
    ValidatorStep v l v' → ValidatorRun v' l' v'' → ValidatorRun v (l ++ l')%list v''.

(** Every admitted claim belongs to the agent the validator is bound to. *)
Lemma validator_step_agent v l v' :
  ValidatorStep v l v' →
  (∀ a, first_agent_id v = Some a → first_agent_id v' = Some a) ∧
  (∀ c, c ∈ l → first_agent_id v' = Some (agent_id c)).
Proof.
  intros [v0 m|v0 t|v0 now env session]; simpl.
  - split; [done|]. intros c Hc. inversion Hc.
  - split; [done|]. intros c Hc. inversion Hc.
  - split; [intros a; apply enforce_stage1_agent|].
    destruct (fst (enforce_stage1 v0 now env session)) as [vc|] eqn:E.
    + intros c ->%list_elem_of_singleton.
      by apply enforce_stage1_ok in E as (_ & _ & _ & _ & ? & _).
    + intros c Hc. inversion Hc.
Qed.

Lemma validator_run_agent v l v' :
  ValidatorRun v l v' →
  (∀ a, first_agent_id v = Some a → first_agent_id v' = Some a) ∧
  (∀ c, c ∈ l → first_agent_id v' = Some (agent_id c)).
Proof.
  induction 1 as [v|v l v' l' v'' Hs Hr [IH1 IH2]].
  - split; [done|]. intros c Hc. inversion Hc.
  - apply validator_step_agent in Hs as [H1 H2]. split; [auto|].
    intros c [Hc|Hc]%elem_of_app; auto.
Qed.

(** What an admission by Stage 1 says of the token. *)
Definition good_token {L : RevocationLaws RS} (v : CapabilityValidator) (now : Z)
    (env : NormalizedEnvelope) (session : string) (vc : ValidatedCapability) : Prop :=
  (∃ entry, select (capability_map v) session (action_class (ne_intent env))
              (policy_resource_display (ne_intent env)) = Ok entry ∧
            vc_raw_token vc = raw_token entry) ∧
  verify (vc_raw_token vc) = Ok (vc_claims vc) ∧
  (now < expiry (vc_claims vc))%Z ∧
  ¬ revoked (revocation v) (token_id (vc_claims vc)) ∧
  (∀ a, first_agent_id v = Some a → a = agent_id (vc_claims vc)).

Lemma enforce_stage1_good {L : RevocationLaws RS} v now env session vc :
  rs_ok (revocation v) → fst (enforce_stage1 v now env session) = Ok vc →
  good_token v now env session vc.
Proof.
  intros Hok (entry & Hs & Hr & Hv & _ & Ha)%enforce_stage1_ok.
  apply validate_ok in Hv as (Hve & Hex & Hrev). unfold good_token. rewrite Hr.
  split_and!; [eauto|done|done| |done].
  intros Hrv. rewrite is_revoked_reports in Hrev by done. done.
Qed.

(** [C19] Single-agent tenancy: in any run of one sidecar process, with its map
    reloaded and tokens revoked at any point, all the requests Stage 1 admits
    carry tokens of one and the same agent. *)
Theorem single_agent_tenancy v admitted v' c1 c2 :
  ValidatorRun v admitted v' → c1 ∈ admitted → c2 ∈ admitted → agent_id c1 = agent_id c2.
Proof.
  intros [_ H]%validator_run_agent H1%H H2%H. congruence.
Qed.

(** Stage 1 admits only a good token: its result is the verifier's claims
    for the selected token of the session; the token is unexpired at the time
    of the check, not marked revoked in the store, and of the agent the process
    is bound to.  Everything else is a denial by the validation stages. *)
Theorem enforce_stage1_sound {L : RevocationLaws RS} v now env session :
  rs_ok (revocation v) →
  match fst (enforce_stage1 v now env session) with
  | Ok vc =>
      (∃ entry, select (capability_map v) session (action_class (ne_intent env))
                  (policy_resource_display (ne_intent env)) = Ok entry ∧
                vc_raw_token vc = raw_token entry) ∧
      verify (vc_raw_token vc) = Ok (vc_claims vc) ∧
      (now < expiry (vc_claims vc))%Z ∧
      ¬ revoked (revocation v) (token_id (vc_claims vc)) ∧
      (∀ a, first_agent_id v = Some a → a = agent_id (vc_claims vc))
  | Err d =>
      ∃ reason s detail ne id, d = Deny reason (CapabilityValidation s) detail ne id ∧
        reason ∈ [TokenInvalid; TokenExpired; TokenRevoked; TenantMismatch]
  end.
Proof.
  intros Hok. destruct (fst (enforce_stage1 v now env session)) as [vc|d] eqn:E.
  - by apply enforce_stage1_good.
  - by eapply enforce_stage1_err.
Qed.

End Validator.

(** ** Samples *)

Module Samples.
Definition sample_claims (agent : AgentId) (token : TokenId) : CapabilityClaims :=
  {| token_id := token; agent_id := agent; session_id := "s"; action_set := ["code.read"];
     resource_scope := "api.github.com/repos/*"; issued_at := 1; expiry := 100;
     context_hash := "h" |}.

(** A verifier that accepts three tokens. *)
Definition sample_verifier : TokenVerifier := λ raw,
  if String.eqb raw "raw-1" then Ok (sample_claims "alice" "tok-1")
  else if String.eqb raw "raw-2" then Ok (sample_claims "bob" "tok-2")
  else if String.eqb raw "raw-3" then Ok (sample_claims "alice" "tok-3")
  else Err (SignatureInvalid "bad").

Definition sample_entry (raw : string) (c : CapabilityClaims) : CapabilityEntry :=
  {| raw_token := raw; claims := c |}.

#[local] Existing Instances list_http sample_verifier sample_hash sample_sizing assoc_lru.

Definition sample_store : BloomLruRevocationStore :=
  store_new {| rc_capacity := 10; rc_fpr := sample_rate; rc_lru_capacity := 1 |}.

Definition sample_envelope : NormalizedEnvelope :=
  {| ne_intent := {| action_class := "code.read";
                     resource := resource_map_from "api.github.com/repos/x";
                     params := Http {| hp_method := GET; hp_headers := []; hp_body := None;
                                       hp_query := ∅ |};
                     raw_transport := "https"; raw_action_ref := "GET /repos/x" |};
     ne_timestamp := 5 |}.

Definition sample_validator : CapabilityValidator :=
  validator_new (capability_map_new [sample_entry "raw-1" (sample_claims "alice" "tok-1")])
    sample_store.

Lemma enforce_stage1_sound_witness :
  rs_ok (revocation sample_validator) ∧
  ∃ vc, fst (enforce_stage1 sample_validator 50 sample_envelope "s") = Ok vc ∧
    (50 < expiry (vc_claims vc))%Z.
Proof.
  assert (rs_ok (revocation sample_validator)) as Hok by apply bloom_new_ok.
  split; [exact Hok|].
  pose proof (enforce_stage1_sound sample_validator 50 sample_envelope "s" Hok) as H.
  destruct (fst (enforce_stage1 sample_validator 50 sample_envelope "s")) as [vc|d] eqn:E;
    [|vm_compute in E; discriminate].
  exists vc. split; [reflexivity|]. apply H.
Defined.

Definition after_first : CapabilityValidator :=
  snd (enforce_stage1 sample_validator 50 sample_envelope "s").

(** The map is then reloaded with a renewed token of the same agent. *)
Definition reloaded : CapabilityValidator :=
  {| capability_map :=
       capability_map_new [sample_entry "raw-3" (sample_claims "alice" "tok-3")];
     revocation := revocation after_first; first_agent_id := first_agent_id after_first |}.

Lemma single_agent_tenancy_witness :
  ∃ v', ValidatorRun sample_validator
          [sample_claims "alice" "tok-1"; sample_claims "alice" "tok-3"] v' ∧
        agent_id (sample_claims "alice" "tok-1") = agent_id (sample_claims "alice" "tok-3").
Proof.
  exists (snd (enforce_stage1 reloaded 60 sample_envelope "s")).
  assert (ValidatorRun sample_validator
      ([sample_claims "alice" "tok-1"] ++ ([] ++ ([sample_claims "alice" "tok-3"] ++ [])))%list
      (snd (enforce_stage1 reloaded 60 sample_envelope "s"))) as Hrun.
  { eapply run_step; [|eapply run_step; [apply (step_reload after_first)|
      eapply run_step; [|apply run_nil]]].
    - pose proof (step_request sample_validator 50 sample_envelope "s") as H.
      replace (match fst _ with Ok _ => _ | Err _ => _ end)
        with [sample_claims "alice" "tok-1"] in H by (vm_compute; reflexivity). exact H.
    - pose proof (step_request reloaded 60 sample_envelope "s") as H.
      replace (match fst _ with Ok _ => _ | Err _ => _ end)
        with [sample_claims "alice" "tok-3"] in H by (vm_compute; reflexivity). exact H. }
  split; [exact Hrun|].
  apply (single_agent_tenancy sample_validator _ _ (sample_claims "alice" "tok-1")
           (sample_claims "alice" "tok-3") Hrun); [left|right; left].
Defined.
End Samples.
