(* ===== verification/Session.v ===== *)
(** * Session state ([enforcement/session/state.rs])

    Per-session counters, the bounded prior-action history and the provenance
    chain; the [SessionStateStore] interface with its laws; the in-memory LRU
    store.  SHA-256 is a parameter. *)

From Stdlib Require Import SpecFloat.
From S2P Require Import Prelude RustStr ActionClasses Core Lru.

#[local] Open Scope string_scope.

(** [hex::encode(Sha256::digest(bytes))]. *)
Class Sha256 := sha256_hex : string → string.

(** ** Records *)

Inductive Outcome := OAllow | OModify | ODeny | OStepUp | ODefer | OAbort.

#[export] Instance outcome_eq_dec : EqDecision Outcome.
Proof. solve_decision. Defined.

Record ActionOutcome := {
  ao_action_class : string;
  ao_resource : string;
  ao_outcome : Outcome;
}.

Definition HISTORY_CAP : nat := 8.

Record RuntimeSignals := {
  rs_action_count : Z;
  rs_risk_score : spec_float;
  rs_deny_count : Z;
  rs_history : list ActionOutcome;
  rs_last_provenance : option string;
}.

Definition f64_zero : spec_float := S754_zero false.

(** [RuntimeSignals::default()]. *)
Definition signals_default : RuntimeSignals :=
  {| rs_action_count := 0; rs_risk_score := f64_zero; rs_deny_count := 0;
     rs_history := []; rs_last_provenance := None |}.

(** Saturating [as i64]. *)
Definition saturate_i64 (z : Z) : Z := Z.max i64_min (Z.min z i64_max).

(** [f64::floor] as an integer, for a finite value. *)
Definition floor_finite (s : bool) (m : positive) (e : Z) : Z :=
  let signed := if s then (- Z.pos m)%Z else Z.pos m in
  if (0 <=? e)%Z then (signed * 2 ^ e)%Z else (signed / 2 ^ (- e))%Z.

(** [RuntimeSignals::risk_score_long]. *)
Definition risk_score_long (s : RuntimeSignals) : Z :=
  match rs_risk_score s with
  | S754_nan => i64_max
  | S754_zero _ => 0
  | S754_infinity false => i64_max
  | S754_infinity true => i64_min
  | S754_finite sign m e => saturate_i64 (floor_finite sign m e)
  end.

Record SessionRecord := {
  action_count : Z;
  risk_score : spec_float;
  deny_count : Z;
  history : list ActionOutcome;
  last_provenance : option string;
}.

(** [SessionRecord::default()]. *)
Definition record_default : SessionRecord :=
  {| action_count := 0; risk_score := f64_zero; deny_count := 0; history := [];
     last_provenance := None |}.

(** [SessionRecord::push_outcome]. *)
Definition push_outcome (r : SessionRecord) (cls res : string) (o : Outcome) : SessionRecord :=
  let denies := if decide (o = ODeny) then sat_add_u64 (deny_count r) 1 else deny_count r in
  let kept := if Nat.leb HISTORY_CAP (length (history r)) then tail (history r)
              else history r in
  {| action_count := action_count r; risk_score := risk_score r; deny_count := denies;
     history := (kept ++ [{| ao_action_class := cls; ao_resource := res; ao_outcome := o |}])%list;
     last_provenance := last_provenance r |}.

(** [record.action_count = record.action_count.saturating_add(1)]. *)
Definition bump_action (r : SessionRecord) : SessionRecord :=
  {| action_count := sat_add_u64 (action_count r) 1; risk_score := risk_score r;
     deny_count := deny_count r; history := history r; last_provenance := last_provenance r |}.

Definition set_provenance (p : string) (r : SessionRecord) : SessionRecord :=
  {| action_count := action_count r; risk_score := risk_score r; deny_count := deny_count r;
     history := history r; last_provenance := Some p |}.

(** The conversion of [signals]. *)
Definition signals_of (r : SessionRecord) : RuntimeSignals :=
  {| rs_action_count := action_count r; rs_risk_score := risk_score r;
     rs_deny_count := deny_count r; rs_history := history r;
     rs_last_provenance := last_provenance r |}.

Definition newline : ascii := "010"%char.

(** [next_provenance]. *)
Definition next_provenance `{!Sha256} (prev : option string) (context_hash cls res : string)
    : string :=
  sha256_hex (default "" prev +:+ String newline
             (context_hash +:+ String newline (cls +:+ String newline res))).

Definition advance_record `{!Sha256} (context_hash cls res : string) (r : SessionRecord)
    : SessionRecord :=
  set_provenance (next_provenance (last_provenance r) context_hash cls res) r.

(** ** The interface *)

Class SessionStateStore (St : Type) := {
  record_action : St → SessionId → Z * St;
  signals : St → SessionId → RuntimeSignals;
  record_outcome : St → SessionId → string → string → Outcome → St;
  advance_provenance : St → SessionId → string → string → string → string * St;
}.

(** What the pipeline relies on: a store keeps one record per session; an
    operation updates the record of its session and leaves any other record as
    it is or forgets it.  [ss_ok] is a store whose lock is not poisoned. *)
Class SessionStateLaws (St : Type) `{!Sha256} `{!SessionStateStore St} := {
  ss_ok : St → Prop;
  record_of : St → SessionId → SessionRecord;
  signals_record s sid : ss_ok s → signals s sid = signals_of (record_of s sid);
  record_action_ok s sid : ss_ok s → ss_ok (snd (record_action s sid));
  record_action_count s sid :
    ss_ok s → fst (record_action s sid) = sat_add_u64 (action_count (record_of s sid)) 1;
  record_action_same s sid :
    ss_ok s → record_of (snd (record_action s sid)) sid = bump_action (record_of s sid);
  record_action_other s sid sid' :
    ss_ok s → sid ≠ sid' →
    record_of (snd (record_action s sid)) sid' = record_of s sid' ∨
    record_of (snd (record_action s sid)) sid' = record_default;
  record_outcome_ok s sid c r o : ss_ok s → ss_ok (record_outcome s sid c r o);
  record_outcome_same s sid c r o :
    ss_ok s → record_of (record_outcome s sid c r o) sid = push_outcome (record_of s sid) c r o;
  record_outcome_other s sid sid' c r o :
    ss_ok s → sid ≠ sid' →
    record_of (record_outcome s sid c r o) sid' = record_of s sid' ∨
    record_of (record_outcome s sid c r o) sid' = record_default;
  advance_ok s sid h c r : ss_ok s → ss_ok (snd (advance_provenance s sid h c r));
  advance_anchor s sid h c r :
    ss_ok s → fst (advance_provenance s sid h c r)
              = next_provenance (last_provenance (record_of s sid)) h c r;
  advance_same s sid h c r :
    ss_ok s → record_of (snd (advance_provenance s sid h c r)) sid
              = advance_record h c r (record_of s sid);
  advance_other s sid sid' h c r :
    ss_ok s → sid ≠ sid' →
    record_of (snd (advance_provenance s sid h c r)) sid' = record_of s sid' ∨
    record_of (snd (advance_provenance s sid h c r)) sid' = record_default;
}.

(** ** The in-memory store *)

Section LruStore.
Context {SH : Sha256} {LC : LruCrate}.

Definition LruSessionStateStore := Mutex (LruCache SessionRecord).

(** [LruSessionStateStore::new]. *)
Definition lru_session_new (n : nat) : LruSessionStateStore := mutex_new (lru_new n).

Definition update_record (s : LruSessionStateStore) (sid : SessionId)
    (f : SessionRecord → SessionRecord) : LruSessionStateStore :=
  {| poisoned := false; guarded := lru_entry sid record_default f (guarded s) |}.

(** The record a reference returned by [get_or_insert_mut] points to. *)
Definition cached (s : LruSessionStateStore) (sid : SessionId) : SessionRecord :=
  default record_default (lru_peek sid (guarded s)).

(** [record_action]. *)
Definition lru_record_action (s : LruSessionStateStore) (sid : SessionId)
    : Z * LruSessionStateStore :=
  if poisoned s then (1, s)%Z
  else (action_count (bump_action (cached s sid)), update_record s sid bump_action).

(** [signals]. *)
Definition lru_signals (s : LruSessionStateStore) (sid : SessionId) : RuntimeSignals :=
  if poisoned s then signals_default
  else match lru_peek sid (guarded s) with
       | Some r => signals_of r
       | None => signals_default
       end.

(** [record_outcome]. *)
Definition lru_record_outcome (s : LruSessionStateStore) (sid : SessionId) (cls res : string)
    (o : Outcome) : LruSessionStateStore :=
  if poisoned s then s else update_record s sid (λ r, push_outcome r cls res o).

(** [advance_provenance]. *)
Definition lru_advance_provenance (s : LruSessionStateStore) (sid : SessionId)
    (h cls res : string) : string * LruSessionStateStore :=
  if poisoned s then ("", s)
  else (next_provenance (last_provenance (cached s sid)) h cls res,
        update_record s sid (advance_record h cls res)).

#[export] Instance lru_session_store : SessionStateStore LruSessionStateStore := {|
  record_action := lru_record_action;
  signals := lru_signals;
  record_outcome := lru_record_outcome;
  advance_provenance := lru_advance_provenance;
|}.

Context {LL : LruCrateLaws LC}.

Lemma cached_update s sid f : cached (update_record s sid f) sid = f (cached s sid).
Proof. unfold cached, update_record. simpl. by rewrite lru_peek_entry_same. Qed.

Lemma cached_update_other s sid sid' f :
  sid ≠ sid' → cached (update_record s sid f) sid' = cached s sid' ∨
               cached (update_record s sid f) sid' = record_default.
Proof.
  intros Hne. unfold cached, update_record. simpl.
  destruct (lru_peek_entry_other sid sid' record_default f (guarded s) Hne) as [->| ->]; auto.
Qed.

Ltac unpoisoned H :=
  simpl; unfold lru_record_action, lru_signals, lru_record_outcome, lru_advance_provenance;
  rewrite H.

#[export] Program Instance lru_session_laws : SessionStateLaws LruSessionStateStore := {|
  ss_ok s := poisoned s = false;
  record_of := cached;
|}.
Next Obligation.
  intros s sid H. unpoisoned H. unfold cached. by destruct (lru_peek sid (guarded s)).
Qed.
Next Obligation. intros s sid H. by unpoisoned H. Qed.
Next Obligation. intros s sid H. by unpoisoned H. Qed.
Next Obligation. intros s sid H. unpoisoned H. apply cached_update. Qed.
Next Obligation. intros s sid sid' H Hne. unpoisoned H. by apply cached_update_other. Qed.
Next Obligation. intros s sid c r o H. by unpoisoned H. Qed.
Next Obligation.
  intros s sid c r o H. unpoisoned H. apply (cached_update s sid (λ x, push_outcome x c r o)).
Qed.
Next Obligation.
  intros s sid sid' c r o H Hne. unpoisoned H. by apply cached_update_other.
Qed.
Next Obligation. intros s sid h c r H. by unpoisoned H. Qed.
Next Obligation. intros s sid h c r H. by unpoisoned H. Qed.
Next Obligation.
  intros s sid h c r H. unpoisoned H. apply (cached_update s sid (advance_record h c r)).
Qed.
Next Obligation.
  intros s sid sid' h c r H Hne. unpoisoned H. by apply cached_update_other.
Qed.

End LruStore.

(** ** Any store over time *)

Inductive SessionOp :=
| RecordAction (sid : SessionId)
| RecordOutcome (sid : SessionId) (cls res : string) (o : Outcome)
| AdvanceProvenance (sid : SessionId) (h cls res : string).

Definition op_session (op : SessionOp) : SessionId :=
  match op with
  | RecordAction sid | RecordOutcome sid _ _ _ | AdvanceProvenance sid _ _ _ => sid
  end.

(** What an operation does to the record of its session. *)
Definition op_effect `{!Sha256} (op : SessionOp) (r : SessionRecord) : SessionRecord :=
  match op with
  | RecordAction _ => bump_action r
  | RecordOutcome _ c res o => push_outcome r c res o
  | AdvanceProvenance _ h c res => advance_record h c res r
  end.

(** The operations of a session, in order. *)
Definition session_ops (sid : SessionId) (ops : list SessionOp) : list SessionOp :=
  filter (λ op, op_session op = sid) ops.

Section Runs.
Context {SH : Sha256} {St : Type} {SS : SessionStateStore St} {SL : SessionStateLaws St}.

Definition session_step (s : St) (op : SessionOp) : St :=
  match op with
  | RecordAction sid => snd (record_action s sid)
  | RecordOutcome sid c r o => record_outcome s sid c r o
  | AdvanceProvenance sid h c r => snd (advance_provenance s sid h c r)
  end.

Definition session_run (s : St) (ops : list SessionOp) : St := fold_left session_step ops s.

Lemma session_step_ok s op : ss_ok s → ss_ok (session_step s op).
Proof.
  destruct op; simpl; auto using record_action_ok, record_outcome_ok, advance_ok.
Qed.

Lemma session_run_ok s ops : ss_ok s → ss_ok (session_run s ops).
Proof. revert s. induction ops; simpl; auto using session_step_ok. Qed.

Lemma session_step_same s op :
  ss_ok s → record_of (session_step s op) (op_session op) = op_effect op (record_of s (op_session op)).
Proof.
  destruct op; simpl; auto using record_action_same, record_outcome_same, advance_same.
Qed.

Lemma session_step_other s op sid :
  ss_ok s → op_session op ≠ sid →
  record_of (session_step s op) sid = record_of s sid ∨
  record_of (session_step s op) sid = record_default.
Proof.
  destruct op; simpl; auto using record_action_other, record_outcome_other, advance_other.
Qed.

(** A record is what a suffix of its session's operations makes of the initial
    record or, after an eviction, of a fresh one. *)
Lemma session_run_suffix s ops sid :
  ss_ok s →
  (record_of (session_run s ops) sid
     = fold_left (λ r op, op_effect op r) (session_ops sid ops) (record_of s sid)) ∨
  ∃ earlier later, session_ops sid ops = (earlier ++ later)%list ∧
    record_of (session_run s ops) sid
    = fold_left (λ r op, op_effect op r) later record_default.
Proof.
  revert s. induction ops as [|op ops IH]; intros s Hs; simpl; [by left|].
  pose proof (session_step_ok s op Hs) as Hs'. unfold session_ops. rewrite filter_cons.
  case_decide as Hop; simpl.
  - subst sid. rewrite <-session_step_same by done.
    destruct (IH _ Hs') as [->|(e & l & He & Hl)]; [by left|right].
    exists (op :: e), l. unfold session_ops in He. by rewrite He.
  - destruct (session_step_other s op sid Hs Hop) as [Hr|Hr];
      destruct (IH _ Hs') as [H|(e & l & He & Hl)]; rewrite ?Hr in *.
    + by left.
    + right. eauto.
    + right. exists [], (session_ops sid ops). eauto.
    + right. eauto.
Qed.

(** The first record of a run is fresh. *)
Lemma session_run_fresh s ops sid :
  ss_ok s → record_of s sid = record_default →
  ∃ earlier later, session_ops sid ops = (earlier ++ later)%list ∧
    record_of (session_run s ops) sid
    = fold_left (λ r op, op_effect op r) later record_default.
Proof.
  intros Hs Hf. destruct (session_run_suffix s ops sid Hs) as [H|H]; [|done].
  rewrite Hf in H. exists [], (session_ops sid ops). eauto.
Qed.
End Runs.

(** ** Histories *)

Definition outcomes_of (ops : list SessionOp) : list ActionOutcome :=
  omap (λ op, match op with
              | RecordOutcome _ c r o =>
                  Some {| ao_action_class := c; ao_resource := r; ao_outcome := o |}
              | _ => None
              end) ops.

Definition is_record_action (op : SessionOp) : bool :=
  match op with RecordAction _ => true | _ => false end.

Definition actions_of (ops : list SessionOp) : nat :=
  length (filter (λ op, is_record_action op = true) ops).

Definition denials (l : list ActionOutcome) : nat :=
  length (filter (λ a, ao_outcome a = ODeny) l).

(** The last [n] elements. *)
Definition last_n {A} (n : nat) (l : list A) : list A := drop (length l - n) l.

Lemma last_n_snoc {A} n (l : list A) x :
  last_n (S n) (l ++ [x]) = (last_n n l ++ [x])%list.
Proof.
  unfold last_n. rewrite length_app. simpl.
  replace (length l + 1 - S n)%nat with (length l - n)%nat by lia.
  rewrite drop_app. replace (length l - n - length l)%nat with 0%nat by lia. done.
Qed.

Lemma last_n_length {A} n (l : list A) : length (last_n n l) = Nat.min n (length l).
Proof. unfold last_n. rewrite length_drop. lia. Qed.

Lemma last_n_push {A} n (l : list A) x :
  last_n (S n) (l ++ [x])
  = ((if Nat.leb (S n) (length (last_n (S n) l)) then tail (last_n (S n) l)
      else last_n (S n) l) ++ [x])%list.
Proof.
  rewrite last_n_snoc. f_equal. rewrite last_n_length. unfold last_n.
  destruct (Nat.leb_spec (S n) (Nat.min (S n) (length l))) as [Hle|Hlt].
  - replace (length l - n)%nat with (S (length l - S n)) by lia.
    replace (S (length l - S n)) with (length l - S n + 1)%nat by lia.
    rewrite <-drop_drop. by destruct (drop (length l - S n) l).
  - replace (length l - n)%nat with 0%nat by lia.
    replace (length l - S n)%nat with 0%nat by lia. done.
Qed.

Section Histories.
Context {SH : Sha256}.

Lemma op_effects ops :
  let r := fold_left (λ r op, op_effect op r) ops record_default in
  history r = last_n HISTORY_CAP (outcomes_of ops) ∧
  action_count r = Z.min (Z.of_nat (actions_of ops)) u64_max ∧
  deny_count r = Z.min (Z.of_nat (denials (outcomes_of ops))) u64_max.
Proof.
  induction ops as [|op ops (IHh & IHa & IHd)] using rev_ind; [done|]. cbv zeta in *.
  rewrite fold_left_app. simpl. set (r := fold_left _ ops record_default) in *.
  unfold outcomes_of, actions_of, denials in *. rewrite omap_app, !filter_app, !length_app.
  destruct op as [sid|sid c res o|sid h c res]; simpl;
    rewrite ?app_nil_r, ?filter_app, ?length_app; simpl; rewrite ?Nat.add_0_r.
  - split_and!; [done| |done]. unfold sat_add_u64. rewrite IHa. lia.
  - split_and!; [| done|].
    + rewrite IHh. symmetry. apply (last_n_push 7).
    + rewrite IHd. rewrite filter_cons. simpl.
      repeat case_decide; simpl; try done; unfold sat_add_u64; lia.
  - done.
Qed.

(** A session's record in any store is exact: after any operations on any
    sessions, the history is the last eight outcomes recorded for the session
    since it was last evicted, oldest first, and the counters are the numbers
    of actions and of denials in that stretch, saturating at the width of
    [u64] instead of wrapping; so the history never exceeds eight entries. *)
Theorem session_record_exact {St : Type} {SS : SessionStateStore St} {SL : SessionStateLaws St}
    s ops sid :
  ss_ok s → record_of s sid = record_default →
  ∃ earlier later, session_ops sid ops = (earlier ++ later)%list ∧
    let r := record_of (session_run s ops) sid in
    history r = last_n HISTORY_CAP (outcomes_of later) ∧
    (length (history r) ≤ HISTORY_CAP)%nat ∧
    action_count r = Z.min (Z.of_nat (actions_of later)) u64_max ∧
    deny_count r = Z.min (Z.of_nat (denials (outcomes_of later))) u64_max.
Proof.
  intros Hs Hf. destruct (session_run_fresh s ops sid Hs Hf) as (e & l & He & Hr).
  exists e, l. split; [done|]. cbv zeta. rewrite Hr.
  destruct (op_effects l) as (-> & -> & ->). split_and!; [done| |done..].
  rewrite last_n_length. lia.
Qed.

(** ** Provenance *)

(** A link of the chain: context hash, action class and resource. *)
Definition Link : Type := string * string * string.

Definition chain (links : list Link) : option string :=
  fold_left (λ prev l, Some (next_provenance prev l.1.1 l.1.2 l.2)) links None.

Definition links_of (ops : list SessionOp) : list Link :=
  omap (λ op, match op with
              | AdvanceProvenance _ h c r => Some (h, c, r)
              | _ => None
              end) ops.

Lemma chain_snoc links l :
  chain (links ++ [l])%list = Some (next_provenance (chain links) l.1.1 l.1.2 l.2).
Proof. unfold chain. by rewrite fold_left_app. Qed.

Lemma op_effects_chain ops :
  last_provenance (fold_left (λ r op, op_effect op r) ops record_default)
  = chain (links_of ops).
Proof.
  induction ops as [|op ops IH] using rev_ind; [done|].
  unfold links_of, chain in *. rewrite omap_app, !fold_left_app. simpl.
  destruct op; simpl; [done..|]. by rewrite IH.
Qed.

(** A link whose hash and class have no line break, as context hashes and
    canonical action classes have none. *)
Definition link_ok (l : Link) : Prop :=
  contains_char newline l.1.1 = false ∧ contains_char newline l.1.2 = false.

Context (sha_inj : Inj (=) (=) sha256_hex)
  (sha_text : ∀ s, sha256_hex s ≠ "" ∧ contains_char newline (sha256_hex s) = false).

Lemma app_newline_inj a b s t :
  contains_char newline a = false → contains_char newline b = false →
  a +:+ String newline s = b +:+ String newline t → a = b ∧ s = t.
Proof.
  revert b. induction a as [|x a IH]; intros [|y b]; simpl; intros Ha Hb E.
  - by injection E.
  - injection E as <- _. by rewrite bool_decide_true in Hb.
  - injection E as -> _. by rewrite bool_decide_true in Ha.
  - injection E as -> E. apply orb_false_iff in Ha as [_ Ha], Hb as [_ Hb].
    destruct (IH b Ha Hb E) as [-> ->]. done.
Qed.

Lemma chain_anchor links a :
  chain links = Some a → a ≠ "" ∧ contains_char newline a = false.
Proof.
  destruct links as [|l links _] using rev_ind; [done|]. rewrite chain_snoc.
  intros [= <-]. apply sha_text.
Qed.

Lemma chain_prev_text links : contains_char newline (default "" (chain links)) = false.
Proof. destruct (chain links) eqn:E; [|done]. by apply chain_anchor in E as [_ ?]. Qed.

Lemma chain_inj l1 l2 :
  Forall link_ok l1 → Forall link_ok l2 → chain l1 = chain l2 → l1 = l2.
Proof.
  revert l2. induction l1 as [|x l1 IH] using rev_ind; intros l2 H1 H2 E.
  - destruct l2 as [|y l2 _] using rev_ind; [done|].
    by rewrite chain_snoc in E.
  - destruct l2 as [|y l2 _] using rev_ind.
    { by rewrite chain_snoc in E. }
    apply Forall_app in H1 as [H1 [[Hx1 Hx2] _]%Forall_cons].
    apply Forall_app in H2 as [H2 [[Hy1 Hy2] _]%Forall_cons].
    rewrite !chain_snoc in E. injection E as E%sha_inj.
    apply app_newline_inj in E as [Ep E]; [|apply chain_prev_text..].
    apply app_newline_inj in E as [Eh E]; [|done..].
    apply app_newline_inj in E as [Ec Er]; [|done..].
    assert (l1 = l2) as ->.
    { apply IH; [done..|]. destruct (chain l1) eqn:C1, (chain l2) eqn:C2; simpl in Ep.
      - by rewrite Ep.
      - by apply chain_anchor in C1 as [? _].
      - by apply chain_anchor in C2 as [? _].
      - done. }
    do 2 f_equal. destruct x as [[]], y as [[]]; simpl in *; congruence.
Qed.

(** The provenance chain is tamper evident: if two histories of admitted
    actions, recorded by any operations on any two stores for sessions that
    were not evicted, end in the same anchor, they list the same actions in
    the same order: no link can be altered, dropped, added or reordered.
    (SHA-256 is idealised as injective.) *)
Theorem provenance_tamper_evident {St : Type} {SS : SessionStateStore St}
    {SL : SessionStateLaws St} s1 s2 sid1 sid2 ops1 ops2 :
  ss_ok s1 → ss_ok s2 →
  record_of (session_run s1 ops1) sid1
    = fold_left (λ r op, op_effect op r) (session_ops sid1 ops1) record_default →
  record_of (session_run s2 ops2) sid2
    = fold_left (λ r op, op_effect op r) (session_ops sid2 ops2) record_default →
  Forall link_ok (links_of (session_ops sid1 ops1)) →
  Forall link_ok (links_of (session_ops sid2 ops2)) →
  rs_last_provenance (signals (session_run s1 ops1) sid1)
    = rs_last_provenance (signals (session_run s2 ops2) sid2) →
  links_of (session_ops sid1 ops1) = links_of (session_ops sid2 ops2).
Proof using sha_inj sha_text.
  intros Hs1 Hs2 H1 H2 L1 L2. rewrite !signals_record by (by apply session_run_ok). simpl.
  rewrite H1, H2, !op_effects_chain. by apply chain_inj.
Qed.

End Histories.

(** ** Samples *)

Module Samples.

(** An injective stand-in for SHA-256: the input in hexadecimal. *)
Definition hi (a : ascii) : ascii := hex_digit (byte a / 16).
Definition lo (a : ascii) : ascii := hex_digit (byte a mod 16).

Fixpoint hex (s : string) : string :=
  match s with
  | "" => ""
  | String a s => String (hi a) (String (lo a) (hex s))
  end.

Definition hex_sha : Sha256 := λ s, "x" +:+ hex s.

Definition unhex (c d : ascii) : ascii :=
  let digit c := default 0%Z (to_digit 16 c) in
  ascii_of_N (Z.to_N (digit c * 16 + digit d)).

Lemma unhex_hex a : unhex (hi a) (lo a) = a.
Proof. destruct a as [[] [] [] [] [] [] [] []]; vm_compute; reflexivity. Qed.

Lemma hex_inj : Inj (=) (=) hex.
Proof.
  intros s. induction s as [|a s IH]; intros [|b t]; simpl; [done..|].
  intros [= H1 H2 H3%IH]. subst. f_equal. by rewrite <-(unhex_hex a), <-(unhex_hex b), H1, H2.
Qed.

Lemma hex_no_newline s : contains_char newline (hex s) = false.
Proof.
  assert (∀ a, hi a ≠ newline ∧ lo a ≠ newline) as H.
  { intros [[] [] [] [] [] [] [] []]; vm_compute; split; congruence. }
  induction s as [|a s IH]; [done|]. simpl. destruct (H a).
  by rewrite !bool_decide_false, IH.
Qed.

Lemma hex_sha_inj : Inj (=) (=) (@sha256_hex hex_sha).
Proof. intros s t [= H%hex_inj]. done. Qed.

Lemma hex_sha_text s :
  @sha256_hex hex_sha s ≠ "" ∧ contains_char newline (@sha256_hex hex_sha s) = false.
Proof. split; [done|]. apply (hex_no_newline s). Qed.

#[local] Existing Instances hex_sha assoc_lru assoc_lru_laws.

Definition two_sessions : list SessionOp :=
  [RecordAction "a"; RecordOutcome "a" "code.read" "h/p" ODeny; RecordAction "b";
   AdvanceProvenance "a" "h1" "code.read" "h/p"; RecordAction "a"].

Lemma session_record_exact_witness :
  let s := lru_session_new 4 in
  ss_ok s ∧ record_of s "a" = record_default ∧
  ∃ earlier later, session_ops "a" two_sessions = (earlier ++ later)%list ∧
    history (record_of (session_run s two_sessions) "a") = last_n 8 (outcomes_of later).
Proof.
  assert (ss_ok (lru_session_new 4)) as Hok by reflexivity.
  assert (record_of (lru_session_new 4) "a" = record_default) as Hf by reflexivity.
  split; [exact Hok|split; [exact Hf|]].
  destruct (session_record_exact (lru_session_new 4) two_sessions "a" Hok Hf)
    as (e & l & He & Hh & _).
  exists e, l. split; [exact He|exact Hh].
Defined.

Lemma provenance_tamper_evident_witness :
  let s := lru_session_new 4 in
  rs_last_provenance (signals (session_run s two_sessions) "a")
    = rs_last_provenance (signals (session_run s (rev two_sessions)) "a") ∧
  links_of (session_ops "a" two_sessions) = links_of (session_ops "a" (rev two_sessions)).
Proof.
  split; [vm_compute; reflexivity|].
  apply (provenance_tamper_evident hex_sha_inj hex_sha_text
           (lru_session_new 4) (lru_session_new 4) "a" "a" two_sessions (rev two_sessions));
    try (vm_compute; reflexivity).
  - repeat constructor; vm_compute; reflexivity.
  - repeat constructor; vm_compute; reflexivity.
Defined.
End Samples.
