(* ===== verification/PersistentSession.v ===== *)
(** * Persistent session state ([enforcement/session/persistent.rs])

    The JSONL-backed store: every update is applied to the in-memory cache and
    appended to a log; opening the store replays the log.  Parameters: the JSON
    form of a log entry, the iteration order of a [HashMap], the [lru] cache.
    The outcome of each write is part of the file's state. *)

From Stdlib Require Import SpecFloat.
From S2P Require Import Prelude RustStr ActionClasses Core Mapping MappingHost Lru Session.

#[local] Open Scope string_scope.

(** ** Log entries *)

Record LogEntry := {
  le_sid : string;
  le_action_count : Z;
  le_risk_score : spec_float;
  le_deny_count : Z;
  le_history : list ActionOutcome;
  le_last_provenance : option string;
}.

(** [serde_json::to_string] and [from_str] at [LogEntry]. *)
Class LogJson := {
  entry_to_string : LogEntry → Result string string;
  entry_from_str : string → Result LogEntry string;
}.

Definition carriage_return : string := String "013"%char "".

(** A line of a log file: text without a line break or a final carriage return,
    and not blank. *)
Definition log_line (line : string) : Prop :=
  contains_char newline line = false ∧ ends_with carriage_return line = false ∧
  utf8_valid line = true ∧ is_empty (trim line) = false.

(** JSON round-trips an entry with the risk score V1 stores (0.0), on one line. *)
Class LogJsonLaws (J : LogJson) :=
  entry_round_trip e :
    le_risk_score e = f64_zero →
    ∃ line, entry_to_string e = Ok line ∧ entry_from_str line = Ok e ∧ log_line line.

(** Iteration over a [HashMap]: some order of its entries. *)
Class HashIter := hash_iter : gmap string SessionRecord → list (string * SessionRecord).
Class HashIterLaws (H : HashIter) :=
  hash_iter_perm m : hash_iter m ≡ₚ map_to_list m.

(** ** The log file *)

(** Its text, and the outcomes of the next appends: [None] for a complete write
    (also when the list is over), [Some p] for a failure after writing [p]. *)
Record LogFile := { content : string; outcomes : list (option string) }.

(** [writeln!(file, "{line}")]; a failure is logged and ignored. *)
Definition append_line (f : LogFile) (line : string) : LogFile :=
  match outcomes f with
  | Some partial :: os => {| content := content f +:+ partial; outcomes := os |}
  | None :: os =>
      {| content := content f +:+ line +:+ String newline ""; outcomes := os |}
  | [] => {| content := content f +:+ line +:+ String newline ""; outcomes := [] |}
  end.

Section Persistent.
Context {SH : Sha256} {LC : LruCrate} {LJ : LogJson} {HI : HashIter}.

Record Inner := { cache : LruCache SessionRecord; file : LogFile }.

Definition PersistentSessionStateStore := Mutex Inner.

(** ** Replay *)

Definition record_of_entry (e : LogEntry) : SessionRecord :=
  {| action_count := le_action_count e; risk_score := le_risk_score e;
     deny_count := le_deny_count e; history := le_history e;
     last_provenance := le_last_provenance e |}.

(** The loop over the lines; a line that is not UTF-8 is a read error. *)
Fixpoint replay_lines (latest : gmap string SessionRecord) (lines : list string)
    : option (gmap string SessionRecord) :=
  match lines with
  | [] => Some latest
  | line :: lines =>
      if negb (utf8_valid line) then None
      else if is_empty (trim line) then replay_lines latest lines
      else match entry_from_str line with
           | Ok e => replay_lines (<[le_sid e := record_of_entry e]> latest) lines
           | Err _ => replay_lines latest lines
           end
  end.

(** The loop that fills the cache. *)
Definition cache_put (c : LruCache SessionRecord) (kv : string * SessionRecord)
    : LruCache SessionRecord :=
  match session_id_try_from kv.1 with
  | Ok sid => lru_put sid kv.2 c
  | Err _ => c
  end.

Definition fill_cache (cap : nat) (latest : gmap string SessionRecord)
    : LruCache SessionRecord :=
  fold_left cache_put (hash_iter latest) (lru_new cap).

(** The state of the log's path. *)
Inductive LogPath := NotFound | Unreadable (text : string) | Readable (text : string).

(** [replay]: [None] is an I/O error. *)
Definition replay (p : LogPath) (cap : nat) : option (LruCache SessionRecord) :=
  match p with
  | NotFound => Some (lru_new cap)
  | Unreadable _ => None
  | Readable text => fill_cache cap <$> replay_lines ∅ (str_lines text)
  end.

(** [PersistentSessionStateStore::open], when opening for append succeeds; the
    file then appends after what is already there. *)
Definition persistent_open (p : LogPath) (os : list (option string)) (cap : nat)
    : PersistentSessionStateStore :=
  mutex_new
    {| cache := default (lru_new cap) (replay p cap);
       file := {| content := match p with
                              | Readable text | Unreadable text => text
                              | NotFound => ""
                              end;
                  outcomes := os |} |}.

(** ** Updates *)

Definition cached_record (i : Inner) (sid : SessionId) : SessionRecord :=
  default record_default (lru_peek sid (cache i)).

Definition entry_of (sid : SessionId) (r : SessionRecord) : LogEntry :=
  {| le_sid := sid; le_action_count := action_count r; le_risk_score := risk_score r;
     le_deny_count := deny_count r; le_history := history r;
     le_last_provenance := last_provenance r |}.

(** Update the cached record, then append its snapshot to the log; a failure to
    serialize or to write does not undo the update. *)
Definition update_and_log (i : Inner) (sid : SessionId) (f : SessionRecord → SessionRecord)
    : Inner :=
  {| cache := lru_entry sid record_default f (cache i);
     file := match entry_to_string (entry_of sid (f (cached_record i sid))) with
             | Ok line => append_line (file i) line
             | Err _ => file i
             end |}.

Definition updated (s : PersistentSessionStateStore) (sid : SessionId)
    (f : SessionRecord → SessionRecord) : PersistentSessionStateStore :=
  {| poisoned := false; guarded := update_and_log (guarded s) sid f |}.

(** [record_action], [signals], [record_outcome], [advance_provenance]. *)
Definition persistent_record_action (s : PersistentSessionStateStore) (sid : SessionId)
    : Z * PersistentSessionStateStore :=
  if poisoned s then (1, s)%Z
  else (action_count (bump_action (cached_record (guarded s) sid)), updated s sid bump_action).

Definition persistent_signals (s : PersistentSessionStateStore) (sid : SessionId)
    : RuntimeSignals :=
  if poisoned s then signals_default
  else match lru_peek sid (cache (guarded s)) with
       | Some r => signals_of r
       | None => signals_default
       end.

Definition persistent_record_outcome (s : PersistentSessionStateStore) (sid : SessionId)
    (cls res : string) (o : Outcome) : PersistentSessionStateStore :=
  if poisoned s then s else updated s sid (λ r, push_outcome r cls res o).

Definition persistent_advance_provenance (s : PersistentSessionStateStore) (sid : SessionId)
    (h cls res : string) : string * PersistentSessionStateStore :=
  if poisoned s then ("", s)
  else (next_provenance (last_provenance (cached_record (guarded s) sid)) h cls res,
        updated s sid (advance_record h cls res)).

#[export] Instance persistent_store : SessionStateStore PersistentSessionStateStore := {|
  record_action := persistent_record_action;
  signals := persistent_signals;
  record_outcome := persistent_record_outcome;
  advance_provenance := persistent_advance_provenance;
|}.

Context {LL : LruCrateLaws LC}.

Definition persisted (s : PersistentSessionStateStore) (sid : SessionId) : SessionRecord :=
  cached_record (guarded s) sid.

Lemma persisted_update s sid f : persisted (updated s sid f) sid = f (persisted s sid).
Proof.
  unfold persisted, updated, update_and_log, cached_record. simpl.
  by rewrite lru_peek_entry_same.
Qed.

Lemma persisted_update_other s sid sid' f :
  sid ≠ sid' → persisted (updated s sid f) sid' = persisted s sid' ∨
               persisted (updated s sid f) sid' = record_default.
Proof.
  intros Hne. unfold persisted, updated, update_and_log, cached_record. simpl.
  destruct (lru_peek_entry_other sid sid' record_default f (cache (guarded s)) Hne)
    as [->| ->]; auto.
Qed.

Ltac open_lock H :=
  simpl; unfold persistent_record_action, persistent_signals, persistent_record_outcome,
    persistent_advance_provenance; rewrite H.

#[export] Program Instance persistent_laws : SessionStateLaws PersistentSessionStateStore := {|
  ss_ok s := poisoned s = false;
  record_of := persisted;
|}.
Next Obligation.
  intros s sid H. open_lock H. unfold persisted, cached_record.
  by destruct (lru_peek sid (cache (guarded s))).
Qed.
Next Obligation. intros s sid H. by open_lock H. Qed.
Next Obligation. intros s sid H. by open_lock H. Qed.
Next Obligation. intros s sid H. open_lock H. apply persisted_update. Qed.
Next Obligation. intros s sid sid' H Hne. open_lock H. by apply persisted_update_other. Qed.
Next Obligation. intros s sid c r o H. by open_lock H. Qed.
Next Obligation.
  intros s sid c r o H. open_lock H. apply (persisted_update s sid (λ x, push_outcome x c r o)).
Qed.
Next Obligation.
  intros s sid sid' c r o H Hne. open_lock H. by apply persisted_update_other.
Qed.
Next Obligation. intros s sid h c r H. by open_lock H. Qed.
Next Obligation. intros s sid h c r H. by open_lock H. Qed.
Next Obligation.
  intros s sid h c r H. open_lock H. apply (persisted_update s sid (advance_record h c r)).
Qed.
Next Obligation.
  intros s sid sid' h c r H Hne. open_lock H. by apply persisted_update_other.
Qed.

(** ** The log is a faithful record *)

Definition unlines (ls : list string) : string :=
  foldr (λ l text, l +:+ String newline text) "" ls.

Lemma unlines_app ls l : unlines (ls ++ [l]) = unlines ls +:+ l +:+ String newline "".
Proof.
  induction ls as [|x ls IH]; simpl; [done|]. rewrite IH. by rewrite <-str_app_assoc.
Qed.

Lemma str_lines_unlines ls : Forall log_line ls → str_lines (unlines ls) = ls.
Proof.
  induction 1 as [|l ls (Hl & Hcr & _) _ IH]; [done|]. simpl. rewrite str_lines_cons by done. rewrite IH.
  unfold strip_cr. unfold ends_with in Hcr. change (String "013"%char "") with carriage_return.
  by destruct (strip_suffix carriage_return l).
Qed.

Context {LJL : LogJsonLaws LJ} {HIL : HashIterLaws HI}.

Lemma replay_lines_app m ls line :
  replay_lines m (ls ++ [line]) = replay_lines m ls ≫= (λ m', replay_lines m' [line]).
Proof.
  revert m. induction ls as [|x ls IH]; intros m; [done|]. simpl.
  destruct (utf8_valid x); simpl; [|done]. destruct (is_empty (trim x)); [apply IH|].
  destruct (entry_from_str x); apply IH.
Qed.

(** The log text is a list of complete lines that replays to [latest], which
    holds the current record of every cached session. *)
Definition logged (i : Inner) (latest : gmap string SessionRecord) : Prop :=
  outcomes (file i) = [] ∧
  (∃ ls, content (file i) = unlines ls ∧ Forall log_line ls ∧
         replay_lines ∅ ls = Some latest) ∧
  (∀ sid r, lru_peek sid (cache i) = Some r →
     latest !! sid = Some r ∧ risk_score r = f64_zero).

Lemma logged_update i latest sid f :
  (∀ r, risk_score (f r) = risk_score r) → logged i latest →
  logged (update_and_log i sid f) (<[sid := f (cached_record i sid)]> latest).
Proof.
  intros Hf (Ho & (ls & Hc & Hls & Hr) & Hp). set (r := cached_record i sid).
  assert (risk_score (f r) = f64_zero) as Hrisk.
  { rewrite Hf. unfold r, cached_record. destruct (lru_peek sid (cache i)) as [r0|] eqn:E; [|done].
    by apply Hp in E as [_ ?]. }
  destruct (entry_round_trip (entry_of sid (f r)) Hrisk) as (line & Hto & Hfrom & Hline).
  unfold update_and_log. fold r. rewrite Hto. unfold append_line. rewrite Ho.
  split_and!; simpl; [done| |].
  - exists (ls ++ [line])%list. rewrite Hc, unlines_app. split_and!; [done|apply Forall_app; split; [done|by apply Forall_singleton]|].
    rewrite replay_lines_app, Hr. simpl. destruct Hline as (_ & _ & -> & ->).
    rewrite Hfrom. simpl. by destruct (f r).
  - intros sid' r'. destruct (decide (sid = sid')) as [<-|Hne].
    + rewrite lru_peek_entry_same. intros [= <-]. by rewrite lookup_insert_eq.
    + rewrite lookup_insert_ne by done.
      destruct (lru_peek_entry_other sid sid' record_default f (cache i) Hne) as [->| ->];
        [apply Hp|done].
Qed.

Lemma op_effect_risk op r : risk_score (op_effect op r) = risk_score r.
Proof. by destruct op. Qed.

Lemma session_step_logged s op latest :
  poisoned s = false → logged (guarded s) latest →
  logged (guarded (session_step s op))
    (<[op_session op := op_effect op (cached_record (guarded s) (op_session op))]> latest).
Proof.
  intros Hp Hl. destruct op as [sid|sid c r o|sid h c r]; simpl; open_lock Hp; simpl.
  - by apply logged_update.
  - by apply (logged_update _ _ sid (λ x, push_outcome x c r o)).
  - by apply (logged_update _ _ sid (advance_record h c r)).
Qed.

Lemma session_run_logged s ops latest :
  poisoned s = false → logged (guarded s) latest →
  ∃ latest', logged (guarded (session_run s ops)) latest' ∧
    dom latest' ⊆ dom latest ∪ list_to_set (op_session <$> ops).
Proof.
  revert s latest. induction ops as [|op ops IH]; intros s latest Hp Hl; simpl.
  - exists latest. split; [done|set_solver].
  - assert (poisoned (session_step s op) = false) as Hp'
      by exact (session_step_ok (SL := persistent_laws) s op Hp).
    destruct (IH _ _ Hp' (session_step_logged s op latest Hp Hl)) as (l' & Hl' & Hd).
    exists l'. split; [done|]. rewrite dom_insert_L in Hd. set_solver.
Qed.

(** ** Filling the cache *)

Lemma fill_fold l c :
  NoDup l.*1 → Forall (λ kv, session_id_try_from kv.1 = Ok kv.1) l →
  (∀ k, k ∈ l.*1 → k ∉ lru_keys c) →
  (size (lru_keys c) + length l ≤ lru_cap c)%nat →
  ∀ k, lru_peek k (fold_left cache_put l c)
       = match (list_to_map l : gmap string SessionRecord) !! k with
         | Some r => Some r
         | None => lru_peek k c
         end.
Proof.
  revert c. induction l as [|[x r] l IH]; intros c Hnd Hv Hf Hroom k; [by simpl; rewrite lookup_empty|].
  simpl in *. apply NoDup_cons in Hnd as [Hx Hnd]. apply Forall_cons in Hv as [Hvx Hv].
  simpl in Hvx. unfold cache_put at 2. simpl. rewrite Hvx.
  assert (∀ k, lru_peek k (lru_put x r c) = if decide (x = k) then Some r else lru_peek k c) as Hput.
  { intros k'. case_decide as Hk; [subst; apply lru_peek_put_same|].
    apply lru_put_room; [done|]. right. lia. }
  assert (lru_keys (lru_put x r c) = {[x]} ∪ lru_keys c) as Hkeys.
  { apply set_eq. intros k'. rewrite elem_of_union, elem_of_singleton, !lru_keys_spec, Hput.
    case_decide; naive_solver. }
  assert (x ∉ lru_keys c) as Hxc by (apply Hf; left).
  rewrite IH; [|done|done| |].
  - rewrite Hput. destruct (decide (x = k)) as [<-|Hne].
    + rewrite lookup_insert_eq.
      by rewrite (not_elem_of_list_to_map_1 l x).
    + by rewrite lookup_insert_ne.
  - intros k' Hk'. rewrite Hkeys. assert (k' ∉ lru_keys c) by (apply Hf; by right).
    assert (k' ≠ x) by (by intros ->). set_solver.
  - rewrite Hkeys, size_union, size_singleton, lru_cap_put by set_solver. lia.
Qed.

Lemma fill_cache_peek cap latest k :
  (size (dom latest) ≤ S cap)%nat →
  (∀ sid, sid ∈ dom latest → session_id_try_from sid = Ok sid) →
  lru_peek k (fill_cache cap latest) = latest !! k.
Proof.
  intros Hsize Hv. unfold fill_cache.
  pose proof (hash_iter_perm latest) as Hperm.
  assert (NoDup (hash_iter latest).*1) as Hnd.
  { rewrite Hperm. apply NoDup_fst_map_to_list. }
  rewrite fill_fold; [|done| | |].
  - rewrite lru_peek_new, (list_to_map_proper _ _ Hnd Hperm), list_to_map_to_list.
    by destruct (latest !! k).
  - rewrite Hperm. apply Forall_forall. intros [x r] Hx%elem_of_map_to_list. apply Hv.
    simpl. apply elem_of_dom. eauto.
  - intros x _. rewrite lru_keys_spec, lru_peek_new. by intros [].
  - assert (lru_keys (lru_new (V:=SessionRecord) cap) = ∅) as ->.
    { apply set_eq. intros x. rewrite lru_keys_spec, lru_peek_new. split; [by intros []|set_solver]. }
    rewrite size_empty, lru_cap_new, Hperm, length_map_to_list, <-size_dom. lia.
Qed.

(** [C26] Session state survives a restart when nothing is lost on the way: open a
    store on a path where there is no log, run any operations with valid session
    ids while every write succeeds, then open the log again with room for all
    the sessions of those operations; every session still in the old cache has
    the same record in the new one: counters, history and provenance anchor.  (A
    failed append is ignored by the code and its record is then missing from the
    log.) *)
Theorem persistent_restart ops cap cap' :
  (∀ op, op ∈ ops → session_id_try_from (op_session op) = Ok (op_session op)) →
  (size (list_to_set (op_session <$> ops) : gset string) ≤ S cap')%nat →
  let s := session_run (persistent_open NotFound [] cap) ops in
  let reopened := persistent_open (Readable (content (file (guarded s)))) [] cap' in
  ∀ sid r, lru_peek sid (cache (guarded s)) = Some r →
    lru_peek sid (cache (guarded reopened)) = Some r.
Proof.
  intros Hv Hsize s reopened sid r Hr.
  assert (logged (guarded (persistent_open NotFound [] cap)) ∅) as H0.
  { split_and!; [done|by exists []|]. simpl. intros k r'. by rewrite lru_peek_new. }
  destruct (session_run_logged (persistent_open NotFound [] cap) ops ∅ eq_refl H0) as (latest & (_ & (ls & Hc & Hls & Hrep) & Hp) & Hd).
  change (content (file (guarded s)) = unlines ls) in Hc.
  apply Hp in Hr as [Hr _]. unfold reopened. rewrite Hc. simpl.
  rewrite str_lines_unlines, Hrep by done. simpl.
  rewrite dom_empty_L, union_empty_l_L in Hd.
  rewrite fill_cache_peek; [done| |].
  - etrans; [by apply subseteq_size|done].
  - intros x Hx%Hd. apply elem_of_list_to_set, list_elem_of_fmap in Hx as (op & -> & Hop). auto.
Qed.

(** Eviction resets a session even with the persistent backend: when a
    session is not in the cache, its next action counts as the first one
    whatever the log holds for it, and that reset count is what the log then
    records last. *)
Theorem persistent_eviction_resets s sid :
  poisoned s = false → lru_peek sid (cache (guarded s)) = None →
  fst (record_action s sid) = 1%Z ∧
  lru_peek sid (cache (guarded (snd (record_action s sid)))) = Some (bump_action record_default) ∧
  (outcomes (file (guarded s)) = [] →
   ∃ line, entry_from_str line = Ok (entry_of sid (bump_action record_default)) ∧
     content (file (guarded (snd (record_action s sid))))
     = content (file (guarded s)) +:+ line +:+ String newline "").
Proof.
  intros Hp He. simpl. open_lock Hp. unfold updated, update_and_log, cached_record. simpl.
  rewrite He. simpl. split_and!; [done|by rewrite lru_peek_entry_same, He|]. intros Ho.
  destruct (entry_round_trip (entry_of sid (bump_action record_default)) eq_refl)
    as (line & -> & Hfrom & _).
  exists line. split; [done|]. unfold append_line. by rewrite Ho.
Qed.

End Persistent.

(** ** Samples *)

Module Samples.

(** A line format for entries with risk score 0.0: the binary digits of their
    [Countable] encoding. *)
Fixpoint bits (p : positive) : string :=
  match p with
  | xH => "1"
  | xO p => String "0"%char (bits p)
  | xI p => String "1"%char (bits p)
  end.

Fixpoint unbits (s : string) : option positive :=
  match s with
  | "" => None
  | String a "" => if decide (a = "1"%char) then Some xH else None
  | String a s => (if decide (a = "1"%char) then xI else xO) <$> unbits s
  end.

Lemma unbits_bits p : unbits (bits p) = Some p.
Proof.
  induction p as [p IH|p IH|]; [..|done]; simpl;
    (destruct (bits p) eqn:E; [by destruct p|]; by rewrite IH).
Qed.

Lemma bits_line p : log_line (bits p).
Proof.
  split_and!.
  - induction p as [p IH|p IH|]; simpl; done.
  - destruct (ends_with carriage_return (bits p)) eqn:E; [|done].
    apply ends_with_spec in E as [r Hr].
    assert (contains_char "013"%char (bits p) = false) as Hc.
    { clear. induction p as [p IH|p IH|]; simpl; done. }
    rewrite Hr, contains_char_app in Hc. simpl in Hc. by rewrite orb_true_r in Hc.
  - induction p as [p IH|p IH|]; simpl; done.
  - rewrite trim_visible.
    + unfold is_empty. apply bool_decide_eq_false. by destruct p.
    + induction p as [p IH|p IH|]; simpl; done.
Qed.

#[local] Instance outcome_countable : Countable Outcome.
Proof.
  refine (inj_countable'
    (λ o, match o with OAllow => 0 | OModify => 1 | ODeny => 2 | OStepUp => 3 | ODefer => 4
                     | OAbort => 5 end)
    (λ n, match n with 0 => OAllow | 1 => OModify | 2 => ODeny | 3 => OStepUp | 4 => ODefer
                     | _ => OAbort end) _)%nat.
  by intros [].
Defined.

#[local] Instance action_outcome_eq_dec : EqDecision ActionOutcome.
Proof. solve_decision. Defined.

#[local] Instance action_outcome_countable : Countable ActionOutcome.
Proof.
  refine (inj_countable' (λ a, (ao_action_class a, ao_resource a, ao_outcome a))
            (λ t, {| ao_action_class := t.1.1; ao_resource := t.1.2; ao_outcome := t.2 |}) _).
  by intros [].
Defined.

Definition entry_tuple (e : LogEntry) :=
  (le_sid e, le_action_count e, le_deny_count e, le_history e, le_last_provenance e).

Definition bit_json : LogJson := {|
  entry_to_string e :=
    match le_risk_score e with
    | S754_zero false => Ok (bits (encode (entry_tuple e)))
    | _ => Err "unsupported risk score"
    end;
  entry_from_str s :=
    match unbits s ≫= decode with
    | Some (sid, a, d, h, p) =>
        Ok {| le_sid := sid; le_action_count := a; le_risk_score := f64_zero;
              le_deny_count := d; le_history := h; le_last_provenance := p |}
    | None => Err "malformed"
    end;
|}.

Lemma bit_json_laws : LogJsonLaws bit_json.
Proof.
  intros [sid a r d h p]. simpl. intros ->. eexists. split; [done|]. split; [|apply bits_line].
  rewrite unbits_bits. simpl. by rewrite decode_encode.
Qed.

Definition map_order : HashIter := map_to_list.

Lemma map_order_laws : HashIterLaws map_order.
Proof. by intros m. Qed.

#[local] Existing Instances Session.Samples.hex_sha assoc_lru assoc_lru_laws bit_json bit_json_laws
  map_order map_order_laws.

Definition sample_ops : list SessionOp :=
  [RecordAction "s1"; RecordOutcome "s1" "code.read" "h/p" OAllow;
   AdvanceProvenance "s1" "h" "code.read" "h/p"; RecordAction "s2"].

Definition before_restart : PersistentSessionStateStore :=
  session_run (persistent_open NotFound [] 3) sample_ops.

Definition s1_record : SessionRecord :=
  op_effect (AdvanceProvenance "s1" "h" "code.read" "h/p")
    (push_outcome (bump_action record_default) "code.read" "h/p" OAllow).

Lemma persistent_restart_witness :
  lru_peek "s1" (cache (guarded before_restart)) = Some s1_record ∧
  lru_peek "s1" (cache (guarded (persistent_open
    (Readable (content (file (guarded before_restart)))) [] 1))) = Some s1_record.
Proof.
  assert (lru_peek "s1" (cache (guarded before_restart)) = Some s1_record) as H
    by (vm_compute; reflexivity).
  split; [exact H|]. apply (persistent_restart sample_ops 3 1); [| |exact H].
  - intros op Hop. repeat (apply elem_of_cons in Hop as [->|Hop]; [vm_compute; reflexivity|]).
    inversion Hop.
  - vm_compute. lia.
Defined.

(** A cache of one session: the second session evicts the first. *)
Definition evicted : PersistentSessionStateStore :=
  session_run (persistent_open NotFound [] 0)
    [RecordAction "s1"; RecordAction "s1"; RecordAction "s1"; RecordAction "s2"].

Lemma persistent_eviction_resets_witness :
  poisoned evicted = false ∧ lru_peek "s1" (cache (guarded evicted)) = None ∧
  fst (record_action evicted "s1") = 1%Z.
Proof.
  assert (poisoned evicted = false) as Hp by (vm_compute; reflexivity).
  assert (lru_peek "s1" (cache (guarded evicted)) = None) as He by (vm_compute; reflexivity).
  split; [exact Hp|split; [exact He|]].
  apply (persistent_eviction_resets evicted "s1" Hp He).
Defined.
End Samples.
