(* ===== verification/Cedar.v ===== *)
(** * Cedar policy evaluation ([enforcement/cedar_evaluator.rs], [firma-core/cedar.rs])

    Loading a policy bundle, the remediation annotations of its [forbid]
    policies, and the verdict for one request.  The [cedar-policy] crate is the
    parameter [CedarCrate]; error values carry the [Display] text of Cedar's
    errors. *)

From S2P Require Import Prelude RustStr ActionClasses Core Decision Json.

#[local] Open Scope string_scope.

(** ** The [cedar_policy] crate *)

Definition PolicyId := string.

Inductive Effect := Permit | Forbid.

#[export] Instance effect_eq_dec : EqDecision Effect.
Proof. solve_decision. Defined.

(** [cedar_policy::Policy]: id, effect and annotations. *)
Record CedarPolicy := {
  policy_id : PolicyId;
  effect : Effect;
  annotations : gmap string string;
}.

Inductive CedarDecision := CedarAllow | CedarDeny.

(** [cedar_policy::Response]: the decision and [diagnostics().reason()]. *)
Record Response := {
  decision : CedarDecision;
  reason : list PolicyId;
}.

(** [cedar_policy::EntityUid]: a parsed type name and an opaque id. *)
Record EntityUid := { type_name : string; entity_id : string }.

(** [cedar_policy::Entity]: its uid and its attributes. *)
Record Entity := { entity_uid : EntityUid; attrs : gmap string string }.

Class CedarCrate := {
  PolicySet : Type;
  CedarSchema : Type;
  CedarContext : Type;
  CedarRequest : Type;
  CedarEntities : Type;
  policy_set_parse : string → Result PolicySet string;
  (** [PolicySet::policies()] *)
  policies : PolicySet → list CedarPolicy;
  schema_parse : string → Result CedarSchema string;
  (** [str::parse::<EntityTypeName>] *)
  type_name_parse : string → Result string string;
  (** [Entity::new] with no parents *)
  entity_new : EntityUid → gmap string string → Result Entity string;
  context_from_json_value : Json → CedarSchema → EntityUid → Result CedarContext string;
  request_new : EntityUid → EntityUid → EntityUid → CedarContext → CedarSchema →
    Result CedarRequest string;
  (** [Entities::from_entities(_, None)] *)
  entities_from : list Entity → Result CedarEntities string;
  is_authorized : CedarRequest → PolicySet → CedarEntities → Response;
}.

(** The [Display] of [std::str::Utf8Error] for a text that is not UTF-8. *)
Class Utf8ErrorText := utf8_error : string → string.

(** ** Bundles *)

Record PolicyBundle := {
  pb_version : string;
  pb_policies : string;
  pb_entity_schema : string;
  pb_ttl_seconds : Z;
}.

(** [PolicyBundle::new]. *)
Definition policy_bundle_new (version pols schema : string) (ttl : Z) : PolicyBundle :=
  {| pb_version := version; pb_policies := pols; pb_entity_schema := schema;
     pb_ttl_seconds := ttl |}.

(** ** Entities *)

Inductive FirmaEntityUid := UAgent (id : AgentId) | UAction (id : string) | UResource (id : string).

Inductive ResourceEntityError := REUid (e : string) | REAttr (e : string).

Definition resource_entity_error_display (e : ResourceEntityError) : string :=
  match e with
  | REUid e => "invalid resource entity uid: " +:+ e
  | REAttr e => "invalid resource entity attributes: " +:+ e
  end.

(** ** Errors *)

Inductive CedarEvaluatorError :=
| InvalidUtf8 (e : string)
| EmptyPolicies
| MissingSchema
| PolicyParse (e : string)
| SchemaParse (e : string)
| EntityUidParse (e : string)
| ResourceEntity (e : ResourceEntityError)
| EntityStore (e : string)
| ContextBuild (e : string)
| RequestBuild (e : string)
| MalformedAnnotation (policy_id annotation raw_value reason : string)
| ConflictingAnnotations (policy_id annotations : string)
| AnnotationOnPermit (policy_id annotations : string).

(** [CedarEvaluatorError]'s [Display]. *)
Definition evaluator_error_display (e : CedarEvaluatorError) : string :=
  match e with
  | InvalidUtf8 e => "policy bytes are not valid UTF-8: " +:+ e
  | EmptyPolicies => "policy bundle contains no policy statements"
  | MissingSchema => "policy bundle contains no entity schema; schema is required"
  | PolicyParse e => "failed to parse Cedar policies: " +:+ e
  | SchemaParse e => "failed to parse Cedar schema: " +:+ e
  | EntityUidParse e => "invalid entity UID: " +:+ e
  | ResourceEntity e =>
      "failed to build resource entity: " +:+ resource_entity_error_display e
  | EntityStore e => "failed to build Cedar entity store: " +:+ e
  | ContextBuild e => "failed to build Cedar context: " +:+ e
  | RequestBuild e => "failed to build Cedar request: " +:+ e
  | MalformedAnnotation id a raw r =>
      "malformed @" +:+ a +:+ " annotation on policy `" +:+ id +:+ "`: " +:+ r +:+
      " (raw: " +:+ raw +:+ ")"
  | ConflictingAnnotations id a =>
      "policy `" +:+ id +:+ "` carries multiple remediation annotations: " +:+ a
  | AnnotationOnPermit id a =>
      "policy `" +:+ id +:+ "` (permit) carries remediation annotation(s) that only apply " +:+
      "to forbid policies: " +:+ a
  end.

(** ** Remediation *)

Inductive Remediation :=
| RModify (spec : ModificationSpec)
| RStepUp (spec : StepUpSpec)
| RDefer (d : DeferDuration).

Definition ANNOTATION_MODIFY : string := "modify".
Definition ANNOTATION_STEP_UP : string := "step_up".
Definition ANNOTATION_DEFER : string := "defer".

(** [PolicyVerdict] of [constraint_enforcement.rs]. *)
Inductive PolicyVerdict :=
| VAllow
| VDeny
| VModify (modifications : ModificationSpec)
| VStepUp (challenge : StepUpSpec)
| VDefer (backoff : Z).

(** The annotations of a policy that [present] collects. *)
Definition present_annotations (p : CedarPolicy) : list string :=
  filter (λ a, is_Some (annotations p !! a))
    [ANNOTATION_MODIFY; ANNOTATION_STEP_UP; ANNOTATION_DEFER].

(** [pick_remediation]'s [rank]. *)
Definition rank (r : Remediation) : nat :=
  match r with RStepUp _ => 3 | RDefer _ => 2 | RModify _ => 1 end.

(** [max_by_key]: the last of the greatest. *)
Definition pick_step (best : option Remediation) (r : Remediation) : option Remediation :=
  match best with
  | None => Some r
  | Some b => if Nat.leb (rank b) (rank r) then Some r else Some b
  end.

Definition pick_remediation (candidates : list Remediation) : option Remediation :=
  fold_left pick_step candidates None.

Definition nanos_per_milli : Z := 1000000.
Definition nanos_per_sec : Z := 1000000000.

Section Cedar.
Context {HC : HttpCrate} {CC : CedarCrate} {UE : Utf8ErrorText}.

(** [<EntityUid as TryFrom<FirmaEntityUid>>::try_from]. *)
Definition entity_uid_try_from (u : FirmaEntityUid) : Result EntityUid string :=
  let '(type_name_str, id) :=
    match u with
    | UAgent id => ("Firma::Agent", id)
    | UAction id => ("Firma::Action", id)
    | UResource id => ("Firma::Resource", id)
    end in
  let? t := type_name_parse type_name_str in
  Ok {| type_name := t; entity_id := id |}.

(** The attributes of a resource entity: [host] and [path] when not empty. *)
Definition resource_attrs (resource : string) : gmap string string :=
  let parts := resource_map_from resource in
  let add (m : gmap string string) (key : string) :=
    match parts !! key with
    | Some v => if is_empty v then m else <[key := v]> m
    | None => m
    end in
  add (add (<["id" := resource]> ∅) "host") "path".

(** [FirmaEntityUid::resource_entity]. *)
Definition resource_entity (resource : string) : Result Entity ResourceEntityError :=
  let? uid := map_err REUid (entity_uid_try_from (UResource resource)) in
  map_err REAttr (entity_new uid (resource_attrs resource)).

Definition malformed_annotation (p : CedarPolicy) (a raw r : string) : CedarEvaluatorError :=
  MalformedAnnotation (policy_id p) a raw r.

(** The value of the one annotation of a [forbid] policy. *)
Definition parse_remediation (p : CedarPolicy) : Result (option Remediation) CedarEvaluatorError :=
  match annotations p !! ANNOTATION_MODIFY with
  | Some value =>
      let? spec := map_err (λ e, malformed_annotation p ANNOTATION_MODIFY value
                                   (modification_error_display e))
                     (modification_parse value) in
      Ok (Some (RModify spec))
  | None =>
      match annotations p !! ANNOTATION_STEP_UP with
      | Some value =>
          let? spec := map_err (λ e, malformed_annotation p ANNOTATION_STEP_UP value
                                       (modification_error_display e))
                         (step_up_new value) in
          Ok (Some (RStepUp spec))
      | None =>
          match annotations p !! ANNOTATION_DEFER with
          | Some value =>
              match parse_u64 value with
              | Ok ms =>
                  if (ms =? 0)%Z then
                    Err (malformed_annotation p ANNOTATION_DEFER value
                           "defer duration must be > 0")
                  else
                    let? d := map_err (λ e, malformed_annotation p ANNOTATION_DEFER value
                                              (modification_error_display e))
                                (defer_new (ms * nanos_per_milli)) in
                    Ok (Some (RDefer d))
              | Err e =>
                  Err (malformed_annotation p ANNOTATION_DEFER value (int_error_display e))
              end
          | None => Ok None
          end
      end
  end.

(** The body of [build_remediation_map]'s loop, for one policy. *)
Definition policy_remediation (p : CedarPolicy)
    : Result (option Remediation) CedarEvaluatorError :=
  let present := present_annotations p in
  if bool_decide (present = []) then Ok None
  else if negb (bool_decide (effect p = Forbid)) then
    Err (AnnotationOnPermit (policy_id p) (join ", " present))
  else if Nat.ltb 1 (length present) then
    Err (ConflictingAnnotations (policy_id p) (join ", " present))
  else parse_remediation p.

Fixpoint remediation_loop (map : gmap PolicyId Remediation) (ps : list CedarPolicy)
    : Result (gmap PolicyId Remediation) CedarEvaluatorError :=
  match ps with
  | [] => Ok map
  | p :: ps =>
      let? r := policy_remediation p in
      remediation_loop (match r with Some r => <[policy_id p := r]> map | None => map end) ps
  end.

(** [build_remediation_map]. *)
Definition build_remediation_map (ps : PolicySet)
    : Result (gmap PolicyId Remediation) CedarEvaluatorError :=
  remediation_loop ∅ (policies ps).

Record CedarPolicyEvaluator := {
  policy_set : PolicySet;
  schema : CedarSchema;
  ce_version : string;
  received_at : Z;
  ttl_secs : Z;
  remediation : gmap PolicyId Remediation;
}.

(** [CedarPolicyEvaluator::from_bundle]; [now] is [Instant::now()]. *)
Definition from_bundle (now : Z) (b : PolicyBundle)
    : Result CedarPolicyEvaluator CedarEvaluatorError :=
  if negb (utf8_valid (pb_policies b)) then Err (InvalidUtf8 (utf8_error (pb_policies b)))
  else if is_empty (trim (pb_policies b)) then Err EmptyPolicies
  else
    let? ps := map_err PolicyParse (policy_set_parse (pb_policies b)) in
    if is_empty (pb_entity_schema b) then Err MissingSchema
    else if negb (utf8_valid (pb_entity_schema b)) then
      Err (InvalidUtf8 (utf8_error (pb_entity_schema b)))
    else
      let? sc := map_err SchemaParse (schema_parse (pb_entity_schema b)) in
      let? rem := build_remediation_map ps in
      Ok {| policy_set := ps; schema := sc; ce_version := pb_version b; received_at := now;
            ttl_secs := pb_ttl_seconds b; remediation := rem |}.

(** [CedarPolicyEvaluator::evaluate_response]. *)
Definition evaluate_response (e : CedarPolicyEvaluator) (principal : AgentId)
    (action resource : string) (context : Json) : Result Response CedarEvaluatorError :=
  let? principal_uid := map_err EntityUidParse (entity_uid_try_from (UAgent principal)) in
  let? action_uid := map_err EntityUidParse (entity_uid_try_from (UAction action)) in
  let? res := map_err ResourceEntity (resource_entity resource) in
  let? ctx := map_err ContextBuild (context_from_json_value context (schema e) action_uid) in
  let? request := map_err RequestBuild
                    (request_new principal_uid action_uid (entity_uid res) ctx (schema e)) in
  let? entities := map_err EntityStore (entities_from [res]) in
  Ok (is_authorized request (policy_set e) entities).

(** [evaluate]. *)
Definition cedar_evaluate (e : CedarPolicyEvaluator) (principal : AgentId)
    (action resource : string) (context : Json) : Result bool string :=
  let? r := map_err evaluator_error_display
              (evaluate_response e principal action resource context) in
  Ok (match decision r with CedarAllow => true | CedarDeny => false end).

Definition lift (r : option Remediation) : PolicyVerdict :=
  match r with
  | Some (RModify spec) => VModify spec
  | Some (RStepUp spec) => VStepUp spec
  | Some (RDefer d) => VDefer (defer_nanos d)
  | None => VDeny
  end.

(** [evaluate_verdict]. *)
Definition cedar_evaluate_verdict (e : CedarPolicyEvaluator) (principal : AgentId)
    (action resource : string) (context : Json) : Result PolicyVerdict string :=
  let? r := map_err evaluator_error_display
              (evaluate_response e principal action resource context) in
  match decision r with
  | CedarAllow => Ok VAllow
  | CedarDeny =>
      let candidates := omap (λ id, remediation e !! id) (reason r) in
      Ok (lift (pick_remediation candidates))
  end.

(** [is_fresh] at the instant [now]: [elapsed().as_secs() < ttl]. *)
Definition cedar_is_fresh (e : CedarPolicyEvaluator) (now : Z) : bool :=
  (Z.max 0 (now - received_at e) / nanos_per_sec <? ttl_secs e)%Z.

(** ** Facts *)

Lemma pick_step_rank best r :
  ∃ b, pick_step best r = Some b ∧ (rank r ≤ rank b)%nat ∧
    (∀ b0, best = Some b0 → (rank b0 ≤ rank b)%nat) ∧ (b = r ∨ best = Some b).
Proof.
  destruct best as [b0|]; simpl.
  - destruct (Nat.leb_spec (rank b0) (rank r)).
    + exists r. split_and!; [done|lia|naive_solver|by left].
    + exists b0. split_and!; [done|lia|naive_solver|by right].
  - exists r. split_and!; [done|lia|done|by left].
Qed.

Lemma pick_fold l best r :
  fold_left pick_step l best = Some r →
  (r ∈ l ∨ best = Some r) ∧ (∀ x, x ∈ l → (rank x ≤ rank r)%nat) ∧
  (∀ b, best = Some b → (rank b ≤ rank r)%nat).
Proof.
  revert best. induction l as [|x l IH]; intros best; simpl.
  - intros ->. split_and!; [by right|intros y Hy; inversion Hy|naive_solver].
  - intros H. destruct (pick_step_rank best x) as (b & Hb & Hxb & Hbb & Hor).
    rewrite Hb in H. destruct (IH _ H) as (H1 & H2 & H3). specialize (H3 b eq_refl).
    split_and!.
    + destruct H1 as [?|[= ->]]; [left; by right|].
      destruct Hor as [->|?]; [left; left|by right].
    + intros y [->|Hy]%elem_of_cons; [lia|auto].
    + intros b0 Hb0. specialize (Hbb b0 Hb0). lia.
Qed.

Lemma pick_fold_None l best :
  fold_left pick_step l best = None ↔ l = [] ∧ best = None.
Proof.
  revert best. induction l as [|x l IH]; intros best; simpl; [naive_solver|].
  rewrite IH. destruct (pick_step_rank best x) as (b & -> & _). naive_solver.
Qed.

(** The choice among the remediations that fired. *)
Lemma pick_remediation_spec l :
  match pick_remediation l with
  | Some r => r ∈ l ∧ ∀ x, x ∈ l → (rank x ≤ rank r)%nat
  | None => l = []
  end.
Proof.
  unfold pick_remediation. destruct (fold_left pick_step l None) as [r|] eqn:E.
  - apply pick_fold in E as ([?|?] & ? & _); [done|done].
  - by apply pick_fold_None in E as [? _].
Qed.

(** ** Bundles *)

(** A policy the loader accepts: no remediation annotation, or a [forbid] with
    exactly one, whose value is valid. *)
Definition annotation_valid (a value : string) : Prop :=
  if bool_decide (a = ANNOTATION_MODIFY) then is_ok (modification_parse value) = true
  else if bool_decide (a = ANNOTATION_STEP_UP) then trim value ≠ ""
  else ∃ ms, parse_u64 value = Ok ms ∧ ms ≠ 0%Z.

Definition policy_accepted (p : CedarPolicy) : Prop :=
  present_annotations p = [] ∨
  effect p = Forbid ∧
  ∃ a value, present_annotations p = [a] ∧ annotations p !! a = Some value ∧
             annotation_valid a value.

Definition present_one (p : CedarPolicy) (a : string) : list string :=
  match annotations p !! a with Some _ => [a] | None => [] end.

Lemma present_cases p :
  present_annotations p =
  (present_one p ANNOTATION_MODIFY ++ present_one p ANNOTATION_STEP_UP ++
   present_one p ANNOTATION_DEFER)%list.
Proof.
  assert (∀ a l, filter (λ a, is_Some (annotations p !! a)) (a :: l)
    = (present_one p a ++ filter (λ a, is_Some (annotations p !! a)) l)%list) as Hc.
  { intros a l. rewrite filter_cons. unfold present_one. case_decide as Hd.
    - destruct Hd as [x Hx]. by rewrite Hx.
    - apply eq_None_not_Some in Hd. by rewrite Hd. }
  unfold present_annotations. rewrite !Hc. simpl. by rewrite app_nil_r.
Qed.

Lemma defer_new_ok ms :
  ms ≠ 0%Z → defer_new (ms * nanos_per_milli) = Ok {| defer_nanos := ms * nanos_per_milli |}.
Proof.
  intros H. unfold defer_new. rewrite (proj2 (Z.eqb_neq _ _)); [done|].
  unfold nanos_per_milli. lia.
Qed.

Lemma parse_remediation_ok p a value :
  present_annotations p = [a] → annotations p !! a = Some value →
  (∃ r, parse_remediation p = Ok (Some r)) ∧ annotation_valid a value ∨
  (∃ e, parse_remediation p = Err e) ∧ ¬ annotation_valid a value.
Proof.
  rewrite present_cases. unfold parse_remediation, present_one.
  destruct (annotations p !! ANNOTATION_MODIFY) as [m|] eqn:Em;
    destruct (annotations p !! ANNOTATION_STEP_UP) as [u|] eqn:Eu;
    destruct (annotations p !! ANNOTATION_DEFER) as [d|] eqn:Ed;
    intros [= <-] Ha; simplify_eq; unfold annotation_valid; simpl.
  - destruct (modification_parse m); simpl; [left|right]; naive_solver.
  - unfold step_up_new, is_empty.
    destruct (decide (trim u = "")) as [Ht|Hne].
    + rewrite bool_decide_true by done. right. naive_solver.
    + rewrite bool_decide_false by done. left. naive_solver.
  - destruct (parse_u64 d) as [ms|] eqn:Ep; [|right; naive_solver].
    destruct (Z.eqb_spec ms 0); [right; naive_solver|].
    rewrite defer_new_ok by done. left. naive_solver.
Qed.

Lemma present_lookup p a :
  a ∈ present_annotations p → ∃ value, annotations p !! a = Some value.
Proof. unfold present_annotations. by intros [? _]%list_elem_of_filter. Qed.

Lemma policy_remediation_ok p :
  is_ok (policy_remediation p) = true ↔ policy_accepted p.
Proof.
  unfold policy_remediation, policy_accepted.
  case_bool_decide as Hn; simpl; [tauto|].
  case_bool_decide as He; simpl; [|naive_solver].
  destruct (present_annotations p) as [|a [|b l]] eqn:Hp; simpl; [done| |naive_solver].
  destruct (present_lookup p a) as [value Hv]; [rewrite Hp; left|].
  destruct (parse_remediation_ok p a value Hp Hv) as [[[r ->] Hok]|[[e ->] Hno]]; simpl.
  - split; [|done]. intros _. right. split; [done|]. eauto.
  - split; [done|]. intros [?|(_ & a' & v' & [= <-] & Hv' & Hok)]; [done|]. congruence.
Qed.

Lemma policy_remediation_forbid p r :
  policy_remediation p = Ok (Some r) → effect p = Forbid.
Proof.
  unfold policy_remediation. case_bool_decide; [done|]. by case_bool_decide.
Qed.

Lemma remediation_loop_ok m ps :
  is_ok (remediation_loop m ps) = true ↔ Forall policy_accepted ps.
Proof.
  revert m. induction ps as [|p ps IH]; intros m; simpl; [by split; constructor|].
  rewrite Forall_cons, <-policy_remediation_ok.
  destruct (policy_remediation p); simpl; [rewrite IH|]; naive_solver.
Qed.

Lemma remediation_loop_lookup m ps out id r :
  remediation_loop m ps = Ok out → out !! id = Some r →
  m !! id = Some r ∨
  ∃ p, p ∈ ps ∧ policy_id p = id ∧ policy_remediation p = Ok (Some r).
Proof.
  revert m. induction ps as [|p ps IH]; intros m; simpl; [intros [= <-]; by left|].
  destruct (policy_remediation p) as [rem|] eqn:Hp; [|done]. intros Hl Ho.
  destruct (IH _ Hl Ho) as [Hm|(q & Hq & Hid & Hr)]; [|right; exists q; set_solver].
  destruct rem as [r0|]; [|by left].
  destruct (decide (policy_id p = id)) as [Hid|Hne].
  - rewrite Hid, lookup_insert_eq in Hm. injection Hm as ->. right. exists p. set_solver.
  - rewrite lookup_insert_ne in Hm by done. by left.
Qed.

(** The loader accepts a policy set exactly when each policy has no
    remediation annotation, or is a [forbid] with exactly one whose value is
    valid; and every remediation it records comes from a [forbid] policy of the
    set with that id. *)
Theorem build_remediation_map_accepts ps :
  (is_ok (build_remediation_map ps) = true ↔ Forall policy_accepted (policies ps)) ∧
  ∀ m id r, build_remediation_map ps = Ok m → m !! id = Some r →
    ∃ p, p ∈ policies ps ∧ policy_id p = id ∧ effect p = Forbid ∧
         policy_remediation p = Ok (Some r).
Proof.
  split; [apply remediation_loop_ok|]. intros m id r Hm Hr.
  destruct (remediation_loop_lookup _ _ _ _ _ Hm Hr) as [Hx|(p & Hp & Hid & Hpr)];
    [by rewrite lookup_empty in Hx|].
  exists p. split_and!; try done. by eapply policy_remediation_forbid.
Qed.

(** The remediations of the policies that fired. *)
Definition fired (e : CedarPolicyEvaluator) (r : Response) : list Remediation :=
  omap (λ id, remediation e !! id) (reason r).

Lemma verdict_response e principal action resource context v :
  cedar_evaluate_verdict e principal action resource context = Ok v →
  ∃ r, evaluate_response e principal action resource context = Ok r ∧
    v = match decision r with
        | CedarAllow => VAllow
        | CedarDeny => lift (pick_remediation (fired e r))
        end.
Proof.
  unfold cedar_evaluate_verdict.
  destruct (evaluate_response _ _ _ _ _) as [r|]; simpl; [|done]. intros H. exists r.
  split; [done|]. destruct (decision r); by injection H as <-.
Qed.

(** The verdict of a request follows Cedar's decision and the documented
    precedence: a Cedar allow is an allow; a Cedar deny becomes a step-up when
    a step-up policy fired, else a deferral when a deferral policy fired, else
    a modification when a modification policy fired, with the directive of one
    of the policies that fired, and else stays a deny. *)
Theorem evaluate_verdict_precedence e principal action resource context v :
  cedar_evaluate_verdict e principal action resource context = Ok v →
  ∃ r, evaluate_response e principal action resource context = Ok r ∧
    match v with
    | VAllow => decision r = CedarAllow
    | VStepUp spec => decision r = CedarDeny ∧ RStepUp spec ∈ fired e r
    | VDefer n => decision r = CedarDeny ∧
        (∃ d, RDefer d ∈ fired e r ∧ defer_nanos d = n) ∧ ∀ s, RStepUp s ∉ fired e r
    | VModify spec => decision r = CedarDeny ∧ RModify spec ∈ fired e r ∧
        (∀ s, RStepUp s ∉ fired e r) ∧ ∀ d, RDefer d ∉ fired e r
    | VDeny => decision r = CedarDeny ∧ fired e r = []
    end.
Proof.
  intros (r & Hr & ->)%verdict_response. exists r. split; [done|].
  destruct (decision r); [done|]. pose proof (pick_remediation_spec (fired e r)) as H.
  destruct (pick_remediation (fired e r)) as [[spec|spec|d]|]; simpl; try naive_solver.
  - destruct H as [Hin Hmax]. split_and!; try done.
    + intros s Hs%Hmax. simpl in Hs. lia.
    + intros d Hd%Hmax. simpl in Hd. lia.
  - destruct H as [Hin Hmax]. split_and!; try done; [by exists d|].
    intros s Hs%Hmax. simpl in Hs. lia.
Qed.

(** A [forbid] without an annotation does not stay a denial when an
    annotated one fires with it: if the only policies that fired are an
    unannotated one and a modification one, the verdict is the modification,
    which lets the call proceed. *)
Theorem hard_forbid_lifted e principal action resource context r hard soft spec :
  evaluate_response e principal action resource context = Ok r →
  decision r = CedarDeny → reason r = [hard; soft] →
  remediation e !! hard = None → remediation e !! soft = Some (RModify spec) →
  cedar_evaluate_verdict e principal action resource context = Ok (VModify spec).
Proof.
  intros Hr Hd Hre Hh Hs. unfold cedar_evaluate_verdict. rewrite Hr. simpl.
  rewrite Hd, Hre. simpl. by rewrite Hh, Hs.
Qed.

(** A stale bundle stays stale. *)
Lemma cedar_is_fresh_antitone e now now' :
  (now ≤ now')%Z → cedar_is_fresh e now' = true → cedar_is_fresh e now = true.
Proof.
  unfold cedar_is_fresh. rewrite !Z.ltb_lt. intros Hle H.
  eapply Z.le_lt_trans; [|exact H]. apply Z.div_le_mono; unfold nanos_per_sec; lia.
Qed.

End Cedar.

(** ** Samples *)

Module Samples.

(** A small engine in which every policy matches every request. *)
Definition toy_response (ps : list CedarPolicy) : Response :=
  let forbids := filter (λ p, effect p = Forbid) ps in
  let permits := filter (λ p, effect p = Permit) ps in
  match forbids, permits with
  | [], [] => {| decision := CedarDeny; reason := [] |}
  | [], _ => {| decision := CedarAllow; reason := policy_id <$> permits |}
  | _, _ => {| decision := CedarDeny; reason := policy_id <$> forbids |}
  end.

Definition toy_policies : list CedarPolicy :=
  [{| policy_id := "p0"; effect := Permit; annotations := ∅ |};
   {| policy_id := "p1"; effect := Forbid; annotations := ∅ |};
   {| policy_id := "p2"; effect := Forbid;
      annotations := {[ "modify" := "redact_header:X-Token" ]} |}].

Definition toy_cedar : CedarCrate := {|
  PolicySet := list CedarPolicy;
  CedarSchema := unit;
  CedarContext := Json;
  CedarRequest := EntityUid * EntityUid * EntityUid * Json;
  CedarEntities := list Entity;
  policy_set_parse s := if String.eqb s "none" then Ok [] else Ok toy_policies;
  policies := id;
  schema_parse _ := Ok tt;
  type_name_parse := Ok;
  entity_new u a := Ok {| entity_uid := u; attrs := a |};
  context_from_json_value j _ _ := Ok j;
  request_new p a r c _ := Ok (p, a, r, c);
  entities_from := Ok;
  is_authorized _ ps _ := toy_response ps;
|}.

Definition toy_utf8 : Utf8ErrorText := λ _, "invalid utf-8".

#[local] Existing Instances list_http toy_cedar toy_utf8.

Definition toy_bundle : PolicyBundle := policy_bundle_new "v1" "policies" "schema" 60.

Definition toy_evaluator : CedarPolicyEvaluator :=
  {| policy_set := toy_policies; schema := tt; ce_version := "v1"; received_at := 0;
     ttl_secs := 60; remediation := {[ "p2" := RModify (RedactHeader "x-token") ]} |}.

Example toy_bundle_loads : from_bundle 0 toy_bundle = Ok toy_evaluator.
Proof. vm_compute. reflexivity. Qed.

Lemma hard_forbid_lifted_witness :
  cedar_evaluate_verdict toy_evaluator "alice" "code.read" "api.github.com/x" JNull
  = Ok (VModify (RedactHeader "x-token")).
Proof.
  apply (hard_forbid_lifted toy_evaluator "alice" "code.read" "api.github.com/x" JNull
           {| decision := CedarDeny; reason := ["p1"; "p2"] |} "p1" "p2");
    vm_compute; reflexivity.
Defined.

Lemma evaluate_verdict_precedence_witness :
  ∃ r, evaluate_response toy_evaluator "alice" "code.read" "api.github.com/x" JNull = Ok r ∧
    decision r = CedarDeny ∧ RModify (RedactHeader "x-token") ∈ fired toy_evaluator r.
Proof.
  destruct (evaluate_verdict_precedence toy_evaluator "alice" "code.read" "api.github.com/x"
    JNull (VModify (RedactHeader "x-token"))) as (r & Hr & Hd & Hm & _);
    [vm_compute; reflexivity|].
  exists r. exact (conj Hr (conj Hd Hm)).
Defined.
End Samples.
