(* ===== verification/Constraint.v ===== *)
(** * Stage 2: constraint enforcement ([enforcement/constraint_enforcement.rs])

    Scope check, bundle availability and freshness, the Cedar context, and the
    policy verdict, synchronous and under a timeout.  The policy engine is any
    instance of [PolicyEvaluation]; the JSON text of the action parameters is a
    parameter. *)

From S2P Require Import Prelude RustStr ActionClasses Core Decision Json Session Cedar.

#[local] Open Scope string_scope.

(** The [PolicyEvaluation] trait; [is_fresh] reads the clock. *)
Class PolicyEvaluation (P : Type) := {
  evaluate_verdict : P → AgentId → string → string → Json → Result PolicyVerdict string;
  is_fresh : P → Z → bool;
  is_available : P → bool;
  version : P → option string;
}.

(** [CedarPolicyEvaluator] implements it, with the default [is_available]. *)
#[export] Instance cedar_policy_evaluation {HC : HttpCrate} {CC : CedarCrate}
    : PolicyEvaluation CedarPolicyEvaluator := {|
  evaluate_verdict := cedar_evaluate_verdict;
  is_fresh := cedar_is_fresh;
  is_available _ := true;
  version e := Some (ce_version e);
|}.

(** [serde_json::to_string(&envelope.intent.params)]. *)
Class ParamsJson `{!HttpCrate} := params_to_string : ActionParams → Result string string.

Definition ce (s : ConstraintEnforcementStage) : EnforcementStage := ConstraintEnforcement s.

(** [TimeDelta::num_seconds] truncates towards zero. *)
Definition num_seconds (nanos : Z) : Z := Z.quot nanos nanos_per_sec.

(** [DateTime::timestamp_millis] rounds down. *)
Definition timestamp_millis (nanos : Z) : Z := (nanos / nanos_per_milli)%Z.

(** First occurrences, in order: the [filter_map] over a [HashSet]. *)
Fixpoint first_seen (seen : list string) (l : list ActionOutcome) : list string :=
  match l with
  | [] => []
  | o :: l =>
      if decide (ao_action_class o ∈ seen) then first_seen seen l
      else ao_action_class o :: first_seen (ao_action_class o :: seen) l
  end.

Definition prior_action_classes (s : RuntimeSignals) : list string :=
  first_seen [] (rs_history s).

Definition last_resource (s : RuntimeSignals) : string :=
  match last (rs_history s) with Some o => ao_resource o | None => "" end.

Definition GIT_KEYS : list string :=
  ["git_provider"; "git_owner"; "git_repo"; "git_ref"; "git_ref_type"; "git_operation"].

Definition COMPOSIO_KEYS : list string :=
  ["composio_toolkit"; "composio_tool_slug"; "composio_user_id"; "composio_account";
   "composio_session_id"].

Section Constraint.
Context {HC : HttpCrate} {PJ : ParamsJson}.

(** A Stage 2 denial. *)
Definition deny2 (reason : DenyReason) (s : ConstraintEnforcementStage) (detail : string)
    (envelope : NormalizedEnvelope) : EnforcementDecision :=
  Deny reason (ce s) detail (Some envelope) None.

(** [ConstraintEnforcer::check_scope]. *)
Definition check_scope (envelope : NormalizedEnvelope) (claims : CapabilityClaims)
    : Result unit EnforcementDecision :=
  let action := action_class (ne_intent envelope) in
  let resource := policy_resource_display (ne_intent envelope) in
  let out_of_scope :=
    deny2 ScopeViolation ScopeCheck
      ("resource '" +:+ resource +:+ "' not in token's scope '" +:+ resource_scope claims +:+ "'")
      envelope in
  if bool_decide ("*" ∈ action_set claims) then
    if matches_resource_scope (resource_scope claims) resource then Ok tt else Err out_of_scope
  else if bool_decide (action ∈ action_set claims) then
    if matches_resource_scope (resource_scope claims) resource then Ok tt else Err out_of_scope
  else
    Err (deny2 ScopeViolation ScopeCheck
           ("action '" +:+ action +:+ "' not in token's allowed set: " +:+
            debug_list (action_set claims)) envelope).

(** [invalid_composio_batch]. *)
Definition invalid_composio_batch (envelope : NormalizedEnvelope) : EnforcementDecision :=
  deny2 FailClosed PolicyEvaluationS "invalid Composio batch context; failing closed" envelope.

Definition insert_present (keep : string → bool) (resource : gmap string string)
    (context : gmap string Json) (key : string) : gmap string Json :=
  match resource !! key with
  | Some value => if keep value then <[key := JString value]> context else context
  | None => context
  end.

(** [insert_composio_context]. *)
Definition insert_composio_context (context : gmap string Json) (envelope : NormalizedEnvelope)
    : Result (gmap string Json) EnforcementDecision :=
  let res := resource (ne_intent envelope) in
  let context :=
    fold_left (insert_present (λ v, negb (is_empty v)) res) COMPOSIO_KEYS context in
  match res !! "composio_batch_index", res !! "composio_batch_size" with
  | None, None => Ok context
  | Some index, Some size =>
      match parse_u32 index, parse_u32 size with
      | Ok index, Ok size =>
          if (size =? 0)%Z || (50 <? size)%Z || (size <=? index)%Z
          then Err (invalid_composio_batch envelope)
          else Ok (<["composio_batch_size" := JInt size]>
                     (<["composio_batch_index" := JInt index]> context))
      | _, _ => Err (invalid_composio_batch envelope)
      end
  | _, _ => Err (invalid_composio_batch envelope)
  end.

Definition session_duration_s (envelope : NormalizedEnvelope) (claims : CapabilityClaims) : Z :=
  Z.max (num_seconds (ne_timestamp envelope - issued_at claims)) 0.

(** The fixed part of the context. *)
Definition base_context (envelope : NormalizedEnvelope) (claims : CapabilityClaims)
    (signals : RuntimeSignals) (params : string) : gmap string Json :=
  list_to_map
    [("session_id", JString (session_id claims));
     ("timestamp_ms", JInt (timestamp_millis (ne_timestamp envelope)));
     ("params", JString params);
     ("risk_score", JInt (risk_score_long signals));
     ("budget_remaining", JInt i64_max);
     ("session_duration_s", JInt (session_duration_s envelope claims));
     ("action_count", JInt (i64_of_unsigned (rs_action_count signals)));
     ("raw_transport", JString (raw_transport (ne_intent envelope)));
     ("transfer_amount", JInt 0);
     ("daily_cumulative_amount", JInt 0);
     ("transfers_last_10m", JInt 0);
     ("same_payee_count_30m", JInt 0);
     ("session_transfer_count", JInt 0);
     ("deny_count", JInt (i64_of_unsigned (rs_deny_count signals)));
     ("prior_action_classes", JArray (JString <$> prior_action_classes signals));
     ("last_resource", JString (last_resource signals))].

(** [ConstraintEnforcer::build_context]. *)
Definition build_context (envelope : NormalizedEnvelope) (claims : CapabilityClaims)
    (signals : RuntimeSignals) : Result Json EnforcementDecision :=
  let? params := map_err
    (λ err, deny2 FailClosed PolicyEvaluationS
              ("failed to serialize intent params; failing closed: " +:+ err) envelope)
    (params_to_string (params (ne_intent envelope))) in
  let context := base_context envelope claims signals params in
  let context :=
    fold_left (insert_present (λ _, true) (resource (ne_intent envelope))) GIT_KEYS context in
  let? context := insert_composio_context context envelope in
  Ok (JObject context).

Section Evaluate.
Context {P : Type} {PE : PolicyEvaluation P}.

Definition evaluation_failed (envelope : NormalizedEnvelope) (err : string)
    : EnforcementDecision :=
  deny2 FailClosed PolicyEvaluationS
    ("policy evaluation failed; failing closed: " +:+ err) envelope.

Definition policy_denied (envelope : NormalizedEnvelope) : EnforcementDecision :=
  deny2 PolicyDenied PolicyEvaluationS
    ("policy denied action '" +:+ action_class (ne_intent envelope) +:+ "' on resource '" +:+
     policy_resource_display (ne_intent envelope) +:+ "'") envelope.

(** The final step of both evaluations: a policy denial is an error. *)
Definition hard_deny (envelope : NormalizedEnvelope) (v : PolicyVerdict)
    : Result PolicyVerdict EnforcementDecision :=
  match v with VDeny => Err (policy_denied envelope) | _ => Ok v end.

(** The guards and the context both evaluations start with. *)
Definition prepare (policy : P) (now : Z) (envelope : NormalizedEnvelope)
    (claims : CapabilityClaims) (signals : RuntimeSignals) : Result Json EnforcementDecision :=
  let? _ := check_scope envelope claims in
  if negb (is_available policy) then
    Err (deny2 FailClosed BundleFreshness "policy bundle unavailable; failing closed" envelope)
  else if negb (is_fresh policy now) then
    Err (deny2 PolicyBundleStale BundleFreshness "policy bundle unavailable or stale" envelope)
  else build_context envelope claims signals.

(** [ConstraintEnforcer::evaluate]; [now] is the instant [is_fresh] reads. *)
Definition evaluate (policy : P) (now : Z) (envelope : NormalizedEnvelope)
    (claims : CapabilityClaims) (signals : RuntimeSignals)
    : Result PolicyVerdict EnforcementDecision :=
  let? context := prepare policy now envelope claims signals in
  let? verdict := map_err (evaluation_failed envelope)
    (evaluate_verdict policy (agent_id claims) (action_class (ne_intent envelope))
       (policy_resource_display (ne_intent envelope)) context) in
  hard_deny envelope verdict.

(** How [tokio::time::timeout] over the blocking task ends. *)
Inductive TaskOutcome := Completed | TimedOut | JoinFailed (err : string).

(** [ConstraintEnforcer::evaluate_with_timeout]; [timeout] in nanoseconds. *)
Definition evaluate_with_timeout (policy : P) (now : Z) (envelope : NormalizedEnvelope)
    (claims : CapabilityClaims) (signals : RuntimeSignals) (timeout : Z) (task : TaskOutcome)
    : Result PolicyVerdict EnforcementDecision :=
  let? context := prepare policy now envelope claims signals in
  let? verdict :=
    match task with
    | TimedOut =>
        Err (deny2 EnforcementTimeout PolicyEvaluationS
               ("stage 2 policy evaluation timed out after " +:+
                display_uint (timeout / nanos_per_milli) +:+ " ms") envelope)
    | JoinFailed err =>
        Err (deny2 FailClosed PolicyEvaluationS
               ("policy evaluation task failed; failing closed: " +:+ err) envelope)
    | Completed =>
        map_err (evaluation_failed envelope)
          (evaluate_verdict policy (agent_id claims) (action_class (ne_intent envelope))
             (policy_resource_display (ne_intent envelope)) context)
    end in
  hard_deny envelope verdict.

(** ** Facts *)

(** The token's own grant: its action set and its resource scope. *)
Definition in_scope (envelope : NormalizedEnvelope) (claims : CapabilityClaims) : Prop :=
  ("*" ∈ action_set claims ∨ action_class (ne_intent envelope) ∈ action_set claims) ∧
  matches_resource_scope (resource_scope claims)
    (policy_resource_display (ne_intent envelope)) = true.

(** A Stage 2 denial of the request, without an identity yet. *)
Definition stage2_deny (envelope : NormalizedEnvelope) (d : EnforcementDecision) : Prop :=
  ∃ reason s detail, d = Deny reason (ConstraintEnforcement s) detail (Some envelope) None.

Lemma deny2_stage2 reason s detail env : stage2_deny env (deny2 reason s detail env).
Proof. unfold stage2_deny, deny2, ce. eauto. Qed.
Hint Resolve deny2_stage2 : firma.

Lemma check_scope_spec env claims :
  match check_scope env claims with
  | Ok _ => in_scope env claims
  | Err d => stage2_deny env d
  end.
Proof.
  unfold check_scope, in_scope. repeat case_bool_decide; repeat case_match;
    simplify_eq/=; eauto with firma.
Qed.

Lemma insert_composio_err ctx env d :
  insert_composio_context ctx env = Err d → stage2_deny env d.
Proof.
  unfold insert_composio_context. intros H. repeat case_match; simplify_eq;
    unfold invalid_composio_batch; eauto with firma.
Qed.

Lemma build_context_err env claims signals d :
  build_context env claims signals = Err d → stage2_deny env d.
Proof.
  unfold build_context. destruct (params_to_string _); simpl; [|intros [= <-]; eauto with firma].
  destruct (insert_composio_context _ _) eqn:E; [done|].
  intros [= <-]. by eapply insert_composio_err.
Qed.

Lemma prepare_spec policy now env claims signals :
  match prepare policy now env claims signals with
  | Ok ctx => in_scope env claims ∧ is_available policy = true ∧ is_fresh policy now = true ∧
              build_context env claims signals = Ok ctx
  | Err d => stage2_deny env d
  end.
Proof.
  unfold prepare. pose proof (check_scope_spec env claims) as Hs.
  destruct (check_scope env claims) as [[]|d]; [|done].
  destruct (is_available policy); simpl; [|eauto with firma].
  destruct (is_fresh policy now); simpl; [|eauto with firma].
  destruct (build_context env claims signals) eqn:E; [done|]. by eapply build_context_err.
Qed.

Lemma hard_deny_spec env v :
  match hard_deny env v with
  | Ok v' => v' = v ∧ v ≠ VDeny
  | Err d => stage2_deny env d
  end.
Proof. destruct v; simpl; try done. unfold policy_denied. eauto with firma. Qed.

(** What a pass of Stage 2 says of the request. *)
Definition stage2_pass (policy : P) (now : Z) (env : NormalizedEnvelope)
    (claims : CapabilityClaims) (signals : RuntimeSignals) (task : TaskOutcome)
    (v : PolicyVerdict) : Prop :=
  in_scope env claims ∧ is_available policy = true ∧ is_fresh policy now = true ∧
  task = Completed ∧ v ≠ VDeny ∧
  ∃ ctx, build_context env claims signals = Ok ctx ∧
    evaluate_verdict policy (agent_id claims) (action_class (ne_intent env))
      (policy_resource_display (ne_intent env)) ctx = Ok v.

Lemma evaluate_with_timeout_spec policy now env claims signals timeout task :
  match evaluate_with_timeout policy now env claims signals timeout task with
  | Ok v => stage2_pass policy now env claims signals task v
  | Err d => stage2_deny env d
  end.
Proof.
  unfold evaluate_with_timeout. pose proof (prepare_spec policy now env claims signals) as Hp.
  destruct (prepare policy now env claims signals) as [ctx|d]; [|done].
  destruct Hp as (Hs & Ha & Hf & Hc). destruct task as [| |err]; [|apply deny2_stage2..].
  destruct (evaluate_verdict policy _ _ _ ctx) as [v|e] eqn:Ev; simpl.
  - pose proof (hard_deny_spec env v) as Hd. destruct (hard_deny env v) as [v'|d]; [|done].
    destruct Hd as [-> Hv]. split_and!; try done. eauto.
  - apply deny2_stage2.
Qed.

(** The evaluation under a timeout that does not fire is the plain one. *)
Lemma evaluate_with_timeout_completed policy now env claims signals timeout :
  evaluate_with_timeout policy now env claims signals timeout Completed
  = evaluate policy now env claims signals.
Proof. reflexivity. Qed.

(** Stage 2 fails closed: it passes a request only when the token grants
    its action and its resource, a fresh bundle is available, the context was
    built, the evaluation completed within its time and the engine returned
    that verdict, which is not a denial; every other case, the engine's errors
    and timeouts included, is a denial of the request by Stage 2. *)
Theorem evaluate_with_timeout_fails_closed policy now env claims signals timeout task :
  match evaluate_with_timeout policy now env claims signals timeout task with
  | Ok v =>
      in_scope env claims ∧ is_available policy = true ∧ is_fresh policy now = true ∧
      task = Completed ∧ v ≠ VDeny ∧
      ∃ ctx, build_context env claims signals = Ok ctx ∧
        evaluate_verdict policy (agent_id claims) (action_class (ne_intent env))
          (policy_resource_display (ne_intent env)) ctx = Ok v
  | Err d =>
      ∃ reason s detail, d = Deny reason (ConstraintEnforcement s) detail (Some env) None
  end.
Proof. apply evaluate_with_timeout_spec. Qed.

End Evaluate.

(** ** The Cedar context *)

Lemma insert_present_fold keep res keys ctx k :
  fold_left (insert_present keep res) keys ctx !! k =
  match res !! k with
  | Some v => if bool_decide (k ∈ keys) && keep v then Some (JString v) else ctx !! k
  | None => ctx !! k
  end.
Proof.
  revert ctx. induction keys as [|key keys IH]; intros ctx; simpl.
  - by destruct (res !! k).
  - rewrite IH. unfold insert_present. destruct (decide (key = k)) as [->|Hne].
    + destruct (res !! k) as [v|] eqn:Hr; [|done].
      rewrite (bool_decide_true (k ∈ k :: keys)) by left.
      destruct (keep v); simpl; rewrite ?andb_false_r, ?andb_true_r; [|done].
      case_bool_decide; [done|]. by rewrite lookup_insert_eq.
    + replace (bool_decide (k ∈ key :: keys)) with (bool_decide (k ∈ keys)).
      2: { apply bool_decide_ext. rewrite elem_of_cons. naive_solver. }
      assert ((match res !! key with
               | Some value => if keep value then <[key := JString value]> ctx else ctx
               | None => ctx
               end) !! k = ctx !! k) as ->; [|done].
      destruct (res !! key) as [v|]; [|done]. destruct (keep v); [|done].
      by rewrite lookup_insert_ne.
Qed.

Lemma first_seen_spec seen l :
  NoDup (first_seen seen l) ∧
  ∀ c, c ∈ first_seen seen l ↔ (c ∉ seen) ∧ ∃ o, o ∈ l ∧ ao_action_class o = c.
Proof.
  revert seen. induction l as [|o l IH]; intros seen; simpl.
  - split; [constructor|]. intros c. split; [intros H; inversion H|].
    intros (_ & o & H & _). inversion H.
  - case_decide as Ho.
    + destruct (IH seen) as [Hn Hc]. split; [done|]. intros c. rewrite Hc.
      setoid_rewrite elem_of_cons. naive_solver.
    + destruct (IH (ao_action_class o :: seen)) as [Hn Hc]. split.
      * apply NoDup_cons. split; [|done]. rewrite Hc, not_elem_of_cons. naive_solver.
      * intros c. rewrite elem_of_cons, Hc, not_elem_of_cons. setoid_rewrite elem_of_cons.
        destruct (decide (c = ao_action_class o)); naive_solver.
Qed.

(** Where the context comes from. *)
Lemma build_context_inv env claims signals j :
  build_context env claims signals = Ok j →
  ∃ text m, params_to_string (params (ne_intent env)) = Ok text ∧ j = JObject m ∧
    insert_composio_context
      (fold_left (insert_present (λ _, true) (resource (ne_intent env))) GIT_KEYS
         (base_context env claims signals text)) env = Ok m.
Proof.
  unfold build_context. destruct (params_to_string _) as [text|]; simpl; [|done].
  destruct (insert_composio_context _ _) as [m|] eqn:E; [|done]. intros [= <-]. eauto.
Qed.

(** A key that Composio metadata does not use is left alone. *)
Lemma composio_lookup ctx env m k :
  insert_composio_context ctx env = Ok m →
  k ∉ COMPOSIO_KEYS → k ≠ "composio_batch_index" → k ≠ "composio_batch_size" →
  m !! k = ctx !! k.
Proof.
  unfold insert_composio_context. intros H Hk Hi Hs.
  assert (fold_left (insert_present (λ v, negb (is_empty v)) (resource (ne_intent env)))
            COMPOSIO_KEYS ctx !! k = ctx !! k) as Hf.
  { rewrite insert_present_fold, bool_decide_false by done.
    by destruct (resource (ne_intent env) !! k). }
  repeat case_match; simplify_eq; try done. by rewrite !lookup_insert_ne.
Qed.

Lemma composio_batch ctx env m i n :
  insert_composio_context ctx env = Ok m →
  ctx !! "composio_batch_index" = None → ctx !! "composio_batch_size" = None →
  m !! "composio_batch_index" = Some (JInt i) → m !! "composio_batch_size" = Some (JInt n) →
  (0 ≤ i < n)%Z ∧ (n ≤ 50)%Z.
Proof.
  unfold insert_composio_context. intros H Hi Hs.
  assert (∀ k, k ∉ COMPOSIO_KEYS → ctx !! k = None →
    fold_left (insert_present (λ v, negb (is_empty v)) (resource (ne_intent env)))
      COMPOSIO_KEYS ctx !! k = None) as Hf.
  { intros k Hk Hc. rewrite insert_present_fold, bool_decide_false by done.
    by destruct (resource (ne_intent env) !! k). }
  destruct (resource (ne_intent env) !! "composio_batch_index") as [si|],
    (resource (ne_intent env) !! "composio_batch_size") as [sn|]; try done.
  2: { injection H as <-. rewrite Hf; [done|set_solver|done]. }
  destruct (parse_u32 si) as [i'|] eqn:Ei, (parse_u32 sn) as [n'|]; try done.
  destruct (_ || _) eqn:Hb in H; [done|]. injection H as <-.
  rewrite lookup_insert_ne, lookup_insert_eq, lookup_insert_eq by done.
  intros [= <-] [= <-]. boolify.
  apply from_str_radix_range in Ei; [lia|done|done].
Qed.

(** The keys Composio metadata uses. *)
Definition composio_key (k : string) : bool :=
  bool_decide (k ∈ "composio_batch_index" :: "composio_batch_size" :: COMPOSIO_KEYS).

Lemma composio_key_false k :
  composio_key k = false →
  (k ∉ COMPOSIO_KEYS) ∧ k ≠ "composio_batch_index" ∧ k ≠ "composio_batch_size".
Proof.
  intros H%bool_decide_eq_false. rewrite !elem_of_cons in H. tauto.
Qed.

Lemma git_keys_apart k : k ∈ GIT_KEYS → composio_key k = false.
Proof.
  assert (Forall (λ k, composio_key k = false) GIT_KEYS) as H by (repeat constructor).
  rewrite Forall_forall in H. apply H.
Qed.

Lemma git_keys_base env claims signals text k :
  k ∈ GIT_KEYS → base_context env claims signals text !! k = None.
Proof.
  assert (Forall (λ k, base_context env claims signals text !! k = None) GIT_KEYS) as H
    by (repeat constructor).
  rewrite Forall_forall in H. apply H.
Qed.

(** A key outside the git and Composio metadata has its fixed value. *)
Lemma build_context_base env claims signals m k v :
  build_context env claims signals = Ok (JObject m) →
  bool_decide (k ∈ GIT_KEYS) = false → composio_key k = false →
  (∀ text, base_context env claims signals text !! k = v) → m !! k = v.
Proof.
  intros (text & m' & Ht & [= <-] & Hm)%build_context_inv Hg Hc Hb.
  apply composio_key_false in Hc as (Hc & Hi & Hs).
  rewrite (composio_lookup _ _ _ k Hm) by done. rewrite insert_present_fold, Hg, Hb.
  by destruct (resource (ne_intent env) !! k).
Qed.

(** What Cedar is told about the session is what the store recorded: the
    context carries the session's action and denial counts and risk score as
    non-wrapping [i64] values, the distinct prior action classes of the
    history, the last resource, and the git metadata of the resource as it is;
    a Composio batch position is within a batch of at most fifty. *)
Theorem build_context_faithful env claims signals m :
  build_context env claims signals = Ok (JObject m) →
  m !! "session_id" = Some (JString (session_id claims)) ∧
  m !! "action_count" = Some (JInt (i64_of_unsigned (rs_action_count signals))) ∧
  m !! "deny_count" = Some (JInt (i64_of_unsigned (rs_deny_count signals))) ∧
  m !! "risk_score" = Some (JInt (risk_score_long signals)) ∧
  m !! "last_resource" = Some (JString (last_resource signals)) ∧
  (∃ classes, m !! "prior_action_classes" = Some (JArray (JString <$> classes)) ∧
     NoDup classes ∧
     ∀ c, c ∈ classes ↔ ∃ o, o ∈ rs_history signals ∧ ao_action_class o = c) ∧
  (∀ k, k ∈ GIT_KEYS → m !! k = JString <$> (resource (ne_intent env) !! k)) ∧
  (∀ i n, m !! "composio_batch_index" = Some (JInt i) →
          m !! "composio_batch_size" = Some (JInt n) → (0 ≤ i < n ∧ n ≤ 50)%Z).
Proof.
  intros H. split_and!.
  1-5: apply (build_context_base _ _ _ _ _ _ H); reflexivity.
  - exists (prior_action_classes signals). split.
    + apply (build_context_base _ _ _ _ _ _ H); reflexivity.
    + destruct (first_seen_spec [] (rs_history signals)) as [Hn Hc]. split; [done|].
      intros c. unfold prior_action_classes. rewrite Hc. set_solver.
  - apply build_context_inv in H as (text & m' & Ht & [= <-] & Hm). intros k Hg.
    destruct (composio_key_false k (git_keys_apart k Hg)) as (Hc & Hi & Hs).
    rewrite (composio_lookup _ _ _ k Hm) by done.
    rewrite insert_present_fold, bool_decide_true, git_keys_base by done.
    by destruct (resource (ne_intent env) !! k).
  - apply build_context_inv in H as (text & m' & Ht & [= <-] & Hm). intros i n Hi Hn.
    eapply (composio_batch _ _ _ i n Hm); try done;
      rewrite insert_present_fold, bool_decide_false by (by apply (bool_decide_eq_false_1 _));
      case_match; reflexivity.
Qed.
End Constraint.

(** ** Samples *)

Module Samples.
#[local] Existing Instances list_http.
#[local] Instance no_params : ParamsJson := λ _, Ok "{}".

Definition batch_envelope : NormalizedEnvelope :=
  {| ne_intent := {| action_class := "code.read";
                     resource := {[ "host" := "h"; "path" := "/p"; "git_ref" := "refs/heads/x";
                                    "composio_batch_index" := "1";
                                    "composio_batch_size" := "2" ]};
                     params := Http {| hp_method := GET; hp_headers := []; hp_body := None;
                                       hp_query := ∅ |};
                     raw_transport := "https"; raw_action_ref := "GET /p" |};
     ne_timestamp := 5 |}.

Definition batch_claims : CapabilityClaims :=
  {| token_id := "t"; agent_id := "a"; session_id := "s"; action_set := ["code.read"];
     resource_scope := "h/*"; issued_at := 1; expiry := 100; context_hash := "c" |}.

Definition batch_context : gmap string Json :=
  match build_context batch_envelope batch_claims signals_default with
  | Ok (JObject m) => m
  | _ => ∅
  end.

Lemma build_context_faithful_witness :
  build_context batch_envelope batch_claims signals_default = Ok (JObject batch_context) ∧
  batch_context !! "action_count" = Some (JInt (i64_of_unsigned 0)) ∧
  batch_context !! "git_ref"
  = JString <$> (resource (ne_intent batch_envelope) !! "git_ref").
Proof.
  assert (build_context batch_envelope batch_claims signals_default
          = Ok (JObject batch_context)) as E by (vm_compute; reflexivity).
  split; [exact E|].
  destruct (build_context_faithful batch_envelope batch_claims signals_default batch_context E)
    as (_ & Ha & _ & _ & _ & _ & Hg & _).
  split; [exact Ha|]. apply Hg. apply list_elem_of_In. vm_compute. tauto.
Defined.
End Samples.
