(* ===== verification/Runtime.v ===== *)
(** * Runtime generations and readiness

    [authority_client/readiness.rs]: the readiness flags the Authority streams
    write and the request path reads.  [authority_client/swappable_policy.rs]:
    the compiled generation (policy, normalizer, deadline) that is swapped
    atomically and pinned per request.  [pipeline/snapshot.rs]: the final
    admission check against the pin.

    A [watch] channel is its current value; [send_if_modified] and
    [send_modify] run their closure under the channel's lock, so an operation
    of [ReadinessFlag] is one step on that value. *)

From S2P Require Import Prelude RustStr ActionClasses Core Redaction MappingTable Decision Json.
From S2P Require Import Normalizer Session Cedar Constraint.

#[local] Open Scope string_scope.

(** ** Readiness *)

Definition RUN_REJECTED_DETAIL : string := "the Authority rejected this run".

Record ReadinessState := {
  policy_bundle_ready : bool;
  policy_bundle_fresh : bool;
  revocation_ready : bool;
  run_rejected : bool;
}.

(** [ReadinessState::default]. *)
Definition readiness_default : ReadinessState :=
  {| policy_bundle_ready := false; policy_bundle_fresh := false; revocation_ready := false;
     run_rejected := false |}.

(** [ReadinessState::fully_ready] and [serving]. *)
Definition fully_ready (s : ReadinessState) : bool :=
  negb (run_rejected s) && policy_bundle_ready s && revocation_ready s.

Definition serving (s : ReadinessState) : bool := fully_ready s && policy_bundle_fresh s.

(** [ReadinessFlag::mark_policy_bundle_swapped]. *)
Definition mark_policy_bundle_swapped (s : ReadinessState) : ReadinessState :=
  if run_rejected s then s
  else {| policy_bundle_ready := true; policy_bundle_fresh := true;
          revocation_ready := revocation_ready s; run_rejected := run_rejected s |}.

(** [ReadinessFlag::reject_run]. *)
Definition reject_run (s : ReadinessState) : ReadinessState :=
  {| policy_bundle_ready := false; policy_bundle_fresh := false;
     revocation_ready := revocation_ready s; run_rejected := true |}.

(** [ReadinessFlag::refresh_policy_bundle_freshness]; [is_fresh] is what the
    closure answers, if it is called. *)
Definition refresh_policy_bundle_freshness (s : ReadinessState) (is_fresh : bool)
    : option bool * ReadinessState :=
  let fresh := negb (run_rejected s) && is_fresh in
  if Bool.eqb (policy_bundle_fresh s) fresh then (None, s)
  else (Some fresh,
        {| policy_bundle_ready := policy_bundle_ready s; policy_bundle_fresh := fresh;
           revocation_ready := revocation_ready s; run_rejected := run_rejected s |}).

(** [ReadinessFlag::set_revocation_ready]. *)
Definition set_revocation_ready (s : ReadinessState) (ready : bool) : ReadinessState :=
  {| policy_bundle_ready := policy_bundle_ready s; policy_bundle_fresh := policy_bundle_fresh s;
     revocation_ready := ready; run_rejected := run_rejected s |}.

(** [ReadinessView::all_ready]. *)
Definition all_ready : ReadinessState :=
  {| policy_bundle_ready := true; policy_bundle_fresh := true; revocation_ready := true;
     run_rejected := false |}.

(** [ReadinessFlag::wait_until_fully_ready]: the value it returns at, over the
    values the channel goes through; [None] while it still waits. *)
Fixpoint wait_until_fully_ready (values : list ReadinessState) : option ReadinessState :=
  match values with
  | [] => None
  | s :: values =>
      if policy_bundle_ready s && revocation_ready s then Some s
      else wait_until_fully_ready values
  end.

(** One operation of a writer. *)
Inductive ReadinessOp :=
| BundleSwapped
| RunRejected
| FreshnessRefreshed (is_fresh : bool)
| RevocationReady (ready : bool).

Definition readiness_step (s : ReadinessState) (op : ReadinessOp) : ReadinessState :=
  match op with
  | BundleSwapped => mark_policy_bundle_swapped s
  | RunRejected => reject_run s
  | FreshnessRefreshed f => snd (refresh_policy_bundle_freshness s f)
  | RevocationReady r => set_revocation_ready s r
  end.

Definition readiness_run (s : ReadinessState) (ops : list ReadinessOp) : ReadinessState :=
  fold_left readiness_step ops s.

(** The values a writer publishes, the initial one first. *)
Fixpoint readiness_trace (s : ReadinessState) (ops : list ReadinessOp) : list ReadinessState :=
  s :: match ops with [] => [] | op :: ops => readiness_trace (readiness_step s op) ops end.

(** A rejected run has no bundle, fresh or not. *)
Definition readiness_inv (s : ReadinessState) : Prop :=
  (run_rejected s = true → policy_bundle_ready s = false ∧ policy_bundle_fresh s = false).

Lemma readiness_step_inv s op : readiness_inv s → readiness_inv (readiness_step s op).
Proof.
  destruct s as [[] [] [] []], op as [| |[]|[]]; unfold readiness_inv; simpl; intuition congruence.
Qed.

Lemma readiness_step_rejected s op :
  run_rejected s = true → run_rejected (readiness_step s op) = true.
Proof. destruct s as [[] [] [] []], op as [| |[]|[]]; simpl; done. Qed.

Lemma readiness_run_rejected s ops :
  readiness_inv s → run_rejected s = true →
  readiness_inv (readiness_run s ops) ∧ run_rejected (readiness_run s ops) = true.
Proof.
  revert s. induction ops as [|op ops IH]; intros s Hi Hr; simpl; [done|].
  apply IH; auto using readiness_step_inv, readiness_step_rejected.
Qed.

Lemma reject_run_inv s : readiness_inv (reject_run s).
Proof. done. Qed.

(** A rejected run is terminal: after the Authority rejects the run, no
    sequence of bundle publications, freshness refreshes and revocation
    barriers makes the sidecar ready or serving again, whatever the state was;
    and [wait_until_fully_ready] does not return on any later value. *)
Theorem run_rejection_terminal s ops :
  let s' := readiness_run (reject_run s) ops in
  run_rejected s' = true ∧ policy_bundle_ready s' = false ∧
  fully_ready s' = false ∧ serving s' = false ∧
  wait_until_fully_ready (readiness_trace (reject_run s) ops) = None.
Proof.
  cbv zeta. destruct (readiness_run_rejected (reject_run s) ops) as [Hi Hr]; [done..|].
  unfold serving, fully_ready. rewrite Hr. simpl. split_and!; [done| | done..| ].
  { by apply Hi. }
  generalize (reject_run_inv s) (eq_refl : run_rejected (reject_run s) = true).
  generalize (reject_run s). clear Hi Hr. induction ops as [|op ops IH]; intros r Hi Hr; simpl.
  - destruct (Hi Hr) as [-> _]. done.
  - destruct (Hi Hr) as [-> _]. simpl.
    apply IH; auto using readiness_step_inv, readiness_step_rejected.
Qed.

(** ** Generations *)

Section Generations.
Context {HC : HttpCrate} {P : Type} {PE : PolicyEvaluation P}.

Record RuntimeSnapshot := {
  rt_policy : P;
  rt_normalizer : IntentNormalizer;
  rt_ttl_seconds : Z;
  rt_version : option string;
}.

Record PublishedSnapshot := {
  pub_policy : P;
  pub_normalizer : IntentNormalizer;
  pub_deadline : Z;
  pub_ttl_seconds : Z;
  pub_version : option string;
}.

(** [deadline]; [now] is [Instant::now()]. *)
Definition deadline (now ttl_seconds : Z) : Z := (now + ttl_seconds * nanos_per_sec)%Z.

(** [RuntimeSnapshot::into_published]. *)
Definition into_published (now : Z) (s : RuntimeSnapshot) : PublishedSnapshot :=
  {| pub_policy := rt_policy s; pub_normalizer := rt_normalizer s;
     pub_deadline := deadline now (rt_ttl_seconds s);
     pub_ttl_seconds := rt_ttl_seconds s; pub_version := rt_version s |}.

(** [impl PolicyEvaluation for PublishedSnapshot]. *)
#[export] Instance published_policy : PolicyEvaluation PublishedSnapshot := {|
  evaluate_verdict s := evaluate_verdict (pub_policy s);
  is_fresh s now := (now <? pub_deadline s)%Z;
  is_available s := is_available (pub_policy s);
  version := pub_version;
|}.

(** [SwappablePolicyEvaluation]: the [ArcSwap]'s current generation. *)
Record SwappablePolicyEvaluation := { inner : PublishedSnapshot }.

Definition from_snapshot (now : Z) (s : RuntimeSnapshot) : SwappablePolicyEvaluation :=
  {| inner := into_published now s |}.

Definition swap_snapshot (_ : SwappablePolicyEvaluation) (now : Z) (s : RuntimeSnapshot)
    : SwappablePolicyEvaluation := {| inner := into_published now s |}.

(** [SwappablePolicyEvaluation::load]. *)
Definition load (h : SwappablePolicyEvaluation) : PublishedSnapshot := inner h.

(** [impl PolicyEvaluation for SwappablePolicyEvaluation]. *)
#[export] Instance swappable_policy : PolicyEvaluation SwappablePolicyEvaluation := {|
  evaluate_verdict h := evaluate_verdict (load h);
  is_fresh h := is_fresh (load h);
  is_available h := is_available (load h);
  version h := version (load h);
|}.

(** ** The pin's final check ([pipeline/snapshot.rs]) *)

(** [stale_bundle_deny]. *)
Definition stale_bundle_deny (envelope : option NormalizedEnvelope)
    (identity : option DenyIdentity) : EnforcementDecision :=
  Deny PolicyBundleStale (ConstraintEnforcement BundleFreshness)
    "policy bundle unavailable or stale" envelope identity.

Definition pin_fresh (snapshot : option PublishedSnapshot) (now : Z) : bool :=
  match snapshot with None => true | Some s => is_fresh s now end.

(** [reject_expired_pin]; [now] is the instant [is_fresh] reads. *)
Definition reject_expired_pin (decision : EnforcementDecision)
    (snapshot : option PublishedSnapshot) (now : Z) : EnforcementDecision :=
  if pin_fresh snapshot now then decision
  else match decision with
       | Allow claims envelope _ | Modify claims envelope _ _ =>
           stale_bundle_deny
             (Some {| ne_intent := env_intent envelope;
                      ne_timestamp := md_timestamp (metadata envelope) |})
             (Some (identity_from_claims claims))
       | Passthrough _ => stale_bundle_deny None None
       | other => other
       end.

(** A decision that forwards bytes upstream. *)
Definition forwards (d : EnforcementDecision) : Prop :=
  match d with Allow _ _ _ | Modify _ _ _ _ | Passthrough _ => True | _ => False end.

Lemma permits_forwards d : permits d → forwards d.
Proof. by destruct d. Qed.

Lemma reject_expired_pin_forwards d snapshot now :
  forwards (reject_expired_pin d snapshot now) →
  pin_fresh snapshot now = true ∧ reject_expired_pin d snapshot now = d.
Proof. unfold reject_expired_pin. destruct (pin_fresh snapshot now); [done|]. by destruct d. Qed.

Lemma reject_expired_pin_fresh d snapshot now :
  pin_fresh snapshot now = true → reject_expired_pin d snapshot now = d.
Proof. unfold reject_expired_pin. by intros ->. Qed.

End Generations.

Arguments RuntimeSnapshot : clear implicits.
Arguments PublishedSnapshot : clear implicits.
Arguments SwappablePolicyEvaluation : clear implicits.

(** [DenyAllPolicyEvaluation]; [evaluate_verdict] is the trait's default over
    [evaluate], which answers [Ok(false)]. *)
Inductive DenyAllPolicyEvaluation := DenyAll.

#[export] Instance deny_all_policy : PolicyEvaluation DenyAllPolicyEvaluation := {|
  evaluate_verdict _ _ _ _ _ := Ok VDeny;
  is_fresh _ _ := false;
  is_available _ := true;
  version _ := None;
|}.

#[export] Hint Resolve permits_forwards : firma.
