(* ===== verification/AuditRecord.v ===== *)
(** * Audit payloads of enforcement decisions

    [firma-audit-schema]: the recorded outcome.  [audit/mod.rs]: the payload
    the request path sends to the sinks.  [pipeline/mod.rs]: the extraction of
    the payload from a decision.  [pipeline/transport_admission.rs]: the
    redaction with the pinned generation's parameter names. *)

From S2P Require Import Prelude RustStr ActionClasses Core Redaction MappingTable Decision Json.
From S2P Require Import Normalizer Session Cedar Constraint Runtime.

#[local] Open Scope string_scope.

(** [firma_audit_schema::Decision]. *)
Inductive AuditDecision := DAllow | DDeny | DAbort | DModify | DStepUp | DDefer.

(** Its [repr(u8)] value. *)
Definition audit_decision_repr (d : AuditDecision) : Z :=
  match d with
  | DAllow => 1 | DDeny => 2 | DAbort => 3 | DModify => 4 | DStepUp => 5 | DDefer => 6
  end.

Record AuditPayload := {
  ap_session_id : string;
  ap_token_id : string;
  ap_agent_id : string;
  ap_action : string;
  ap_resource : string;
  ap_decision : AuditDecision;
  ap_deny_reason : string;
  ap_enforcement_latency_us : Z;
  ap_context_hash : string;
  ap_bundle_version : string;
  ap_dispatch_status : Z;
  ap_dispatch_latency_us : Z;
  ap_response_size : Z;
  ap_provenance : string;
  ap_thread_id : string;
  ap_parent_action_id : string;
}.

Record AuditDecisionFields := {
  f_token_id : string;
  f_agent_id : string;
  f_action : string;
  f_resource : string;
  f_decision_code : AuditDecision;
  f_deny_reason : string;
  f_context_hash : string;
  f_bundle_version : string;
  f_provenance : string;
  f_thread_id : string;
  f_parent_action_id : string;
}.

(** [x as i64] on an unsigned value. *)
Definition wrap_i64 (z : Z) : Z := ((z + 2 ^ 63) mod 2 ^ 64 - 2 ^ 63)%Z.

Section Audit.
Context {HC : HttpCrate} {FU : FormUrlencoded}.

(** [redact_sensitive_query_params] is [redact_default_query_params]. *)
Abbreviation redact_sensitive_query_params := redact_default_query_params.

(** [raw_request_action_label]. *)
Definition raw_request_action_label (r : RawRequest) : string :=
  if bool_decide (rq_method r = "CONNECT") then "network.connect"
  else "raw.http." +:+ rq_method r.

(** [sanitize_audit_reason]. *)
Definition sanitize_audit_reason (reason : string) : string :=
  redact_sensitive_query_params reason.

(** [raw_request_resource_display]. *)
Definition raw_request_resource_display (r : RawRequest) : string := rq_host r +:+ rq_path r.

(** [deny_identity_fields]. *)
Definition deny_identity_fields (identity : option DenyIdentity) : string * string * string :=
  match identity with
  | None => ("", "", "")
  | Some id => (di_token_id id, di_agent_id id, di_context_hash id)
  end.

(** [identity_or_claims_fields]. *)
Definition identity_or_claims_fields (identity : option DenyIdentity)
    (claims : option CapabilityClaims) : string * string * string :=
  match identity, claims with
  | Some id, _ => (di_token_id id, di_agent_id id, di_context_hash id)
  | None, Some c => (token_id c, agent_id c, context_hash c)
  | None, None => ("", "", "")
  end.

(** [remediation_action_resource], also the pair of the [Deny] branch. *)
Definition remediation_action_resource (envelope : option NormalizedEnvelope) (r : RawRequest)
    : string * string :=
  match envelope with
  | None => (raw_request_action_label r,
             redact_sensitive_query_params (raw_request_resource_display r))
  | Some e => (action_class (ne_intent e),
               redact_sensitive_query_params (policy_resource_display (ne_intent e)))
  end.

(** The fields of an admitted call. *)
Definition admitted_fields (claims : CapabilityClaims) (envelope : ExecutionEnvelope)
    (code : AuditDecision) (reason : string) (bundle_version : option string)
    : AuditDecisionFields :=
  {| f_token_id := token_id claims; f_agent_id := agent_id claims;
     f_action := action_class (env_intent envelope);
     f_resource := redact_sensitive_query_params (policy_resource_display (env_intent envelope));
     f_decision_code := code; f_deny_reason := reason;
     f_context_hash := context_hash claims;
     f_bundle_version := default "" bundle_version;
     f_provenance := default "" (provenance envelope);
     f_thread_id := default "" (md_thread_id (metadata envelope));
     f_parent_action_id := default "" (md_parent_action_id (metadata envelope)) |}.

(** The fields of a call that was not dispatched, or of a passthrough. *)
Definition blocked_fields (who : string * string * string) (what : string * string)
    (code : AuditDecision) (reason : string) (bundle_version : option string)
    : AuditDecisionFields :=
  let '(token, agent, hash) := who in
  let '(action, resource) := what in
  {| f_token_id := token; f_agent_id := agent; f_action := action; f_resource := resource;
     f_decision_code := code; f_deny_reason := reason; f_context_hash := hash;
     f_bundle_version := default "" bundle_version;
     f_provenance := ""; f_thread_id := ""; f_parent_action_id := "" |}.

(** [audit_decision_fields]. *)
Definition audit_decision_fields (decision : EnforcementDecision) (request : RawRequest)
    (bundle_version : option string) : AuditDecisionFields :=
  match decision with
  | Allow claims envelope _ => admitted_fields claims envelope DAllow "" bundle_version
  | Deny reason _ detail envelope identity =>
      blocked_fields (deny_identity_fields identity)
        (remediation_action_resource envelope request) DDeny
        (sanitize_audit_reason (deny_reason_display reason +:+ ": " +:+ detail)) bundle_version
  | Abort reason detail identity =>
      blocked_fields (deny_identity_fields identity)
        (remediation_action_resource None request) DAbort
        (sanitize_audit_reason (abort_code reason +:+ ": " +:+ detail)) bundle_version
  | Passthrough _ =>
      blocked_fields ("", "", "") (remediation_action_resource None request) DAllow ""
        bundle_version
  | Modify claims envelope modifications _ =>
      admitted_fields claims envelope DModify
        (sanitize_audit_reason (modification_display modifications)) bundle_version
  | StepUp claims envelope challenge retry_after_ms identity =>
      blocked_fields (identity_or_claims_fields identity claims)
        (remediation_action_resource envelope request) DStepUp
        (sanitize_audit_reason (deny_reason_display StepUpRequired +:+ ": " +:+ challenge +:+
           "; retry_after_ms: " +:+ display_uint retry_after_ms)) bundle_version
  | Defer claims envelope retry_after_ms identity =>
      blocked_fields (identity_or_claims_fields identity claims)
        (remediation_action_resource envelope request) DDefer
        (sanitize_audit_reason (deny_reason_display Deferred +:+ ": retry_after_ms: " +:+
           display_uint retry_after_ms)) bundle_version
  end.

(** [audit_payload_from_decision]; the latency is a [Duration]. *)
Definition audit_payload_from_decision (decision : EnforcementDecision) (request : RawRequest)
    (session : string) (enforcement_latency : Z) (bundle_version : option string)
    : AuditPayload :=
  let fields := audit_decision_fields decision request bundle_version in
  {| ap_session_id :=
       match decision with
       | Allow _ envelope _ | Modify _ envelope _ _ => md_session_id (metadata envelope)
       | _ => session
       end;
     ap_token_id := f_token_id fields; ap_agent_id := f_agent_id fields;
     ap_action := f_action fields; ap_resource := f_resource fields;
     ap_decision := f_decision_code fields; ap_deny_reason := f_deny_reason fields;
     ap_enforcement_latency_us := wrap_i64 (enforcement_latency / 1000);
     ap_context_hash := f_context_hash fields; ap_bundle_version := f_bundle_version fields;
     ap_dispatch_status := 0; ap_dispatch_latency_us := 0; ap_response_size := 0;
     ap_provenance := f_provenance fields; ap_thread_id := f_thread_id fields;
     ap_parent_action_id := f_parent_action_id fields |}.

(** Field updates of the payload. *)
Definition set_ap_decision (d : AuditDecision) (reason : string) (a : AuditPayload)
    : AuditPayload :=
  {| ap_session_id := ap_session_id a; ap_token_id := ap_token_id a;
     ap_agent_id := ap_agent_id a; ap_action := ap_action a; ap_resource := ap_resource a;
     ap_decision := d; ap_deny_reason := reason;
     ap_enforcement_latency_us := ap_enforcement_latency_us a;
     ap_context_hash := ap_context_hash a; ap_bundle_version := ap_bundle_version a;
     ap_dispatch_status := ap_dispatch_status a;
     ap_dispatch_latency_us := ap_dispatch_latency_us a; ap_response_size := ap_response_size a;
     ap_provenance := ap_provenance a; ap_thread_id := ap_thread_id a;
     ap_parent_action_id := ap_parent_action_id a |}.

Definition set_ap_action_resource (action resource : string) (a : AuditPayload) : AuditPayload :=
  {| ap_session_id := ap_session_id a; ap_token_id := ap_token_id a;
     ap_agent_id := ap_agent_id a; ap_action := action; ap_resource := resource;
     ap_decision := ap_decision a; ap_deny_reason := ap_deny_reason a;
     ap_enforcement_latency_us := ap_enforcement_latency_us a;
     ap_context_hash := ap_context_hash a; ap_bundle_version := ap_bundle_version a;
     ap_dispatch_status := ap_dispatch_status a;
     ap_dispatch_latency_us := ap_dispatch_latency_us a; ap_response_size := ap_response_size a;
     ap_provenance := ap_provenance a; ap_thread_id := ap_thread_id a;
     ap_parent_action_id := ap_parent_action_id a |}.

(** [ManagedAuditRedaction::apply] and [redact_managed_audit]. *)
Definition redaction_apply (normalizer : option IntentNormalizer) (a : AuditPayload)
    : AuditPayload :=
  match normalizer with
  | Some n =>
      set_ap_decision (ap_decision a) (redact_query n (ap_deny_reason a))
        (set_ap_action_resource (ap_action a) (redact_query n (ap_resource a)) a)
  | None => a
  end.

Definition redact_managed_audit {P : Type} (snapshot : option (PublishedSnapshot P))
    (a : AuditPayload) : AuditPayload :=
  redaction_apply (pub_normalizer <$> snapshot) a.

(** ** Facts *)

(** The outcome a decision is recorded as. *)
Definition decision_code (d : EnforcementDecision) : AuditDecision :=
  match d with
  | Allow _ _ _ | Passthrough _ => DAllow
  | Deny _ _ _ _ _ => DDeny
  | Abort _ _ _ => DAbort
  | Modify _ _ _ _ => DModify
  | StepUp _ _ _ _ _ => DStepUp
  | Defer _ _ _ _ => DDefer
  end.

Lemma blocked_fields_code who what code reason bv :
  f_decision_code (blocked_fields who what code reason bv) = code.
Proof. by destruct who as [[] ?], what. Qed.

Lemma audit_payload_decision d r sid lat bv :
  ap_decision (audit_payload_from_decision d r sid lat bv) = decision_code d.
Proof.
  destruct d; simpl; try done; by rewrite blocked_fields_code.
Qed.

(** Who a decision is attributed to. *)
Definition attribution (d : EnforcementDecision) : string * string * string :=
  match d with
  | Allow c _ _ | Modify c _ _ _ => (token_id c, agent_id c, context_hash c)
  | Deny _ _ _ _ i | Abort _ _ i => deny_identity_fields i
  | StepUp c _ _ _ i | Defer c _ _ i => identity_or_claims_fields i c
  | Passthrough _ => ("", "", "")
  end.

Definition payload_identity (a : AuditPayload) : string * string * string :=
  (ap_token_id a, ap_agent_id a, ap_context_hash a).

Lemma audit_payload_identity d r sid lat bv :
  payload_identity (audit_payload_from_decision d r sid lat bv) = attribution d.
Proof.
  unfold payload_identity.
  destruct d as [| ? ? ? [] []|? ? []| | |[] [] ? ? []|[] [] ? []]; reflexivity.
Qed.

Lemma redaction_apply_decision n a : ap_decision (redaction_apply n a) = ap_decision a.
Proof. by destruct n. Qed.

Lemma redaction_apply_identity n a : payload_identity (redaction_apply n a) = payload_identity a.
Proof. by destruct n. Qed.

Lemma redaction_apply_session n a : ap_session_id (redaction_apply n a) = ap_session_id a.
Proof. by destruct n. Qed.

(** A payload whose diagnostic texts name no secret. *)
Definition payload_clean (params : list string) (a : AuditPayload) : Prop :=
  no_secret params (ap_resource a) ∧ no_secret params (ap_deny_reason a).

Lemma audit_payload_clean d r sid lat bv :
  payload_clean DEFAULT_SENSITIVE_QUERY_PARAMS (audit_payload_from_decision d r sid lat bv).
Proof.
  unfold payload_clean.
  destruct d as [| ? ? ? [] []|? ? []| | |[] [] ? ? []|[] [] ? []]; simpl; split;
    first [apply redacted_no_secret | apply empty_no_secret].
Qed.

Lemma redaction_apply_clean n a :
  payload_clean (sensitive_query_params n) (redaction_apply (Some n) a).
Proof. split; apply redacted_no_secret. Qed.

Lemma attribution_with_identity d c :
  is_deny d = true →
  attribution (with_identity d (identity_from_claims c))
  = (token_id c, agent_id c, context_hash c).
Proof. by destruct d. Qed.

Lemma attribution_reject_expired {P : Type} {PE : PolicyEvaluation P} d
    (snapshot : option (PublishedSnapshot P)) now :
  attribution (reject_expired_pin d snapshot now) = attribution d.
Proof. unfold reject_expired_pin. destruct (pin_fresh snapshot now); [done|]. by destruct d. Qed.

End Audit.

Create Rewrite HintDb firma_audit.
#[export] Hint Rewrite @audit_payload_decision @audit_payload_identity
  @redaction_apply_decision @redaction_apply_identity @redaction_apply_session : firma_audit.
