(* ===== verification/Pipeline.v ===== *)
(** * The enforcement pipeline ([pipeline/mod.rs], [pipeline/transport_admission.rs])

    Normalisation, Stage 1, Stage 2, provenance, credential injection and
    audit composed as the code composes them, for one request and for an
    ordered batch of Composio actions with one transport.

    The shared state a request changes is the validator (revocation cache and
    agent binding) and the session store; it is passed explicitly.  What a
    request reads from outside (clocks, readiness, the credential provider, how
    the policy task ended) and the updates other requests make between two
    accesses to the session store are the fields of a [Moment]. *)

From Stdlib Require Import SpecFloat.
From S2P Require Import Prelude RustStr ActionClasses Core Redaction MappingTable Decision Json.
From S2P Require Import Normalizer Lru Revocation CapabilityMap CapabilityValidation Session.
From S2P Require Import Cedar Constraint Runtime AuditRecord.

#[local] Open Scope string_scope.

Definition STEP_UP_RETRY_AFTER_MS : Z := 500.

Record ComposioContext := {
  cc_toolkit : string;
  cc_tool_slug : string;
  cc_user_id : option string;
  cc_connected_account_id : option string;
  cc_session_id : option string;
  cc_batch_index : option Z;
  cc_batch_size : option Z;
}.

(** [extract_host]. *)
Definition extract_host (resource : string) : string :=
  default resource (head (split_char "/"%char resource)).

(** [derive_thread_id]. *)
Definition derive_thread_id `{!Sha256} (sid : SessionId) : string :=
  sha256_hex ("firma:thread:" +:+ sid).

(** [x == 0.0]. *)
Definition is_f64_zero (f : spec_float) : bool :=
  match f with S754_zero _ => true | _ => false end.

(** [u64::try_from(x).unwrap_or(u64::MAX)] on an unsigned value. *)
Definition u64_of_unsigned (z : Z) : Z := if (z <=? u64_max)%Z then z else u64_max.

(** The session outcome of a verdict. *)
Definition policy_outcome (v : PolicyVerdict) : Outcome :=
  match v with
  | VAllow => OAllow | VModify _ => OModify | VDeny => ODeny
  | VStepUp _ => OStepUp | VDefer _ => ODefer
  end.

Definition set_action_count (n : Z) (s : RuntimeSignals) : RuntimeSignals :=
  {| rs_action_count := n; rs_risk_score := rs_risk_score s; rs_deny_count := rs_deny_count s;
     rs_history := rs_history s; rs_last_provenance := rs_last_provenance s |}.

Section Pipeline.
Context {HC : HttpCrate} {SJ : SerdeJson} {UN : UnicodeNfc} {FU : FormUrlencoded}
  {PJ : ParamsJson} {TV : TokenVerifier} {RS : Type} {RSt : RevocationStore RS}
  {SH : Sha256} {St : Type} {SS : SessionStateStore St}
  {P : Type} {PE : PolicyEvaluation P} {Q : Type} {QE : PolicyEvaluation Q}.

Record ComposioAction := {
  ca_envelope : NormalizedEnvelope;
  ca_context : ComposioContext;
}.

(** [dyn CredentialInjector]: [inject]. *)
Definition CredentialInjector : Type :=
  ExecutionEnvelope → string → string → Result InjectedCredentials CredentialInjectionError.

(** The immutable parts of [EnforcementPipeline]: the startup policy and
    normalizer, the Stage 2 timeout and the handle of the current generation. *)
Record EnforcementPipeline := {
  constraint_enforcer : Q;
  pl_normalizer : IntentNormalizer;
  stage2_timeout : option Z;
  runtime_snapshot : option (SwappablePolicyEvaluation P);
}.

(** The state requests share. *)
Record PipelineState := {
  capability_validator : CapabilityValidator (RS := RS);
  session_state_store : St;
}.

(** What one evaluation of a normalized action reads from outside. *)
Record Moment := {
  at_readiness : ReadinessState;
  at_validate : Z;
  at_stage2 : Z;
  at_task : TaskOutcome;
  at_inject : CredentialInjector;
  at_latency : Z;
  at_final : Z;
  race_signals : St → St;
  race_outcome : St → St;
  race_provenance : St → St;
}.

(** What the admission before it reads: readiness, the instant of the pin's
    freshness check and [runtime_timestamp()]. *)
Record Arrival := {
  ar_readiness : ReadinessState;
  ar_now : Z;
  ar_timestamp : Z;
  ar_latency : Z;
}.

Definition with_validator (st : PipelineState) (v : CapabilityValidator) : PipelineState :=
  {| capability_validator := v; session_state_store := session_state_store st |}.

Definition with_sessions (st : PipelineState) (s : St) : PipelineState :=
  {| capability_validator := capability_validator st; session_state_store := s |}.

(** [EnforcementPipeline::check_readiness]. *)
Definition check_readiness (r : ReadinessState) : Result unit EnforcementDecision :=
  if run_rejected r then
    Err (Deny PolicyBundleNotReady (ConstraintEnforcement BundleFreshness) RUN_REJECTED_DETAIL
           None None)
  else if negb (policy_bundle_ready r) then
    Err (Deny PolicyBundleNotReady (ConstraintEnforcement BundleFreshness)
           "policy bundle has not been loaded" None None)
  else if negb (revocation_ready r) then
    Err (Deny RevocationCacheNotReady (CapabilityValidation TokenValidationS)
           "revocation cache has not completed initial sync" None None)
  else Ok tt.

(** The Stage 2 call, with or without a timeout. *)
Definition stage2 {Pol : Type} {PolE : PolicyEvaluation Pol} (p : EnforcementPipeline)
    (policy : Pol) (m : Moment) (normalized : NormalizedEnvelope) (claims : CapabilityClaims)
    (sig : RuntimeSignals) : Result PolicyVerdict EnforcementDecision :=
  match stage2_timeout p with
  | Some timeout =>
      evaluate_with_timeout policy (at_stage2 m) normalized claims sig timeout (at_task m)
  | None => evaluate policy (at_stage2 m) normalized claims sig
  end.

(** The verdicts that do not dispatch, or the modification to apply. *)
Definition lift_verdict (verdict : PolicyVerdict) (normalized : NormalizedEnvelope)
    (claims : CapabilityClaims) : Result (option ModificationSpec) EnforcementDecision :=
  let identity := Some (identity_from_claims claims) in
  match verdict with
  | VStepUp challenge =>
      Err (StepUp (Some claims) (Some normalized) (challenge_text challenge)
             STEP_UP_RETRY_AFTER_MS identity)
  | VDefer backoff =>
      Err (Defer (Some claims) (Some normalized)
             (u64_of_unsigned (backoff / nanos_per_milli)) identity)
  | VDeny =>
      Err (Deny PolicyDenied (ConstraintEnforcement PolicyEvaluationS)
             ("policy denied action '" +:+ action_class (ne_intent normalized) +:+
              "' on resource '" +:+ policy_resource_display (ne_intent normalized) +:+ "'")
             (Some normalized) identity)
  | VAllow => Ok None
  | VModify modifications => Ok (Some modifications)
  end.

(** The envelope of an admitted call; [anchor] is the new provenance. *)
Definition assemble_envelope (normalized : NormalizedEnvelope) (cap : ValidatedCapability)
    (sig : RuntimeSignals) (anchor : string) : ExecutionEnvelope :=
  envelope_new (ne_intent normalized) (vc_raw_token cap)
    {| md_session_id := session_id (vc_claims cap);
       md_agent_id := agent_id (vc_claims cap);
       md_timestamp := ne_timestamp normalized;
       md_trace_id := None;
       md_risk_score := if is_f64_zero (rs_risk_score sig) then None
                        else Some (rs_risk_score sig);
       md_thread_id := Some (derive_thread_id (session_id (vc_claims cap)));
       md_parent_action_id := rs_last_provenance sig |}
    (if is_empty anchor then None else Some anchor).

(** Credential injection and the final decision of an admitted call. *)
Definition inject_credentials (m : Moment) (claims : CapabilityClaims)
    (envelope : ExecutionEnvelope) (modifications : option ModificationSpec)
    : EnforcementDecision :=
  let target := resource_display (env_intent envelope) in
  let admitted_with credentials :=
    match modifications with
    | Some spec => Modify claims envelope spec credentials
    | None => Allow claims envelope credentials
    end in
  match at_inject m envelope (extract_host target) target with
  | Ok credentials => admitted_with credentials
  | Err (UnknownConnector _) => admitted_with credentials_empty
  | Err (FetchFailed connector_id reason) =>
      Abort CredentialInjectionFailedA ("connector " +:+ connector_id +:+ ": " +:+ reason)
        (Some (identity_from_claims claims))
  end.

(** [EnforcementPipeline::enforce_normalized_inner]. *)
Definition enforce_normalized_inner {Pol : Type} {PolE : PolicyEvaluation Pol}
    (p : EnforcementPipeline) (policy : Pol) (m : Moment) (st : PipelineState)
    (normalized : NormalizedEnvelope) (session : string) : EnforcementDecision * PipelineState :=
  match check_readiness (at_readiness m) with
  | Err deny => (deny, st)
  | Ok _ =>
  match enforce_stage1 (capability_validator st) (at_validate m) normalized session with
  | (Err deny, v) => (deny, with_validator st v)
  | (Ok cap, v) =>
  let claims := vc_claims cap in
  let sid := session_id claims in
  let action_class := action_class (ne_intent normalized) in
  let resource := policy_resource_display (ne_intent normalized) in
  let '(count, store) := record_action (session_state_store st) sid in
  let store := race_signals m store in
  let sig := set_action_count count (signals store sid) in
  let store := race_outcome m store in
  match stage2 p policy m normalized claims sig with
  | Err deny =>
      let store := record_outcome store sid action_class resource ODeny in
      (with_identity deny (identity_from_claims claims),
       with_sessions (with_validator st v) store)
  | Ok verdict =>
  let store := record_outcome store sid action_class resource (policy_outcome verdict) in
  match lift_verdict verdict normalized claims with
  | Err d => (d, with_sessions (with_validator st v) store)
  | Ok modifications =>
  let store := race_provenance m store in
  let '(anchor, store) :=
    advance_provenance store sid (context_hash claims) action_class resource in
  let envelope := assemble_envelope normalized cap sig anchor in
  (inject_credentials m claims envelope modifications, with_sessions (with_validator st v) store)
  end end end end.

(** [EnforcementPipeline::enforce_inner]. *)
Definition enforce_inner {Pol : Type} {PolE : PolicyEvaluation Pol} (p : EnforcementPipeline)
    (normalizer : IntentNormalizer) (policy : Pol) (a : Arrival) (m : Moment)
    (st : PipelineState) (request : RawRequest) (session : string)
    : EnforcementDecision * PipelineState :=
  match normalize normalizer (ar_timestamp a) request with
  | Err decision => (decision, st)
  | Ok envelope => enforce_normalized_inner p policy m st envelope session
  end.

(** [EnforcementPipeline::pinned]. *)
Definition pinned (p : EnforcementPipeline) : option (PublishedSnapshot P) :=
  load <$> runtime_snapshot p.

(** The enforcer bound to the pin, or the startup one: its policy version. *)
Definition policy_version (p : EnforcementPipeline) (snapshot : option (PublishedSnapshot P))
    : option string :=
  match snapshot with
  | Some pin => version pin
  | None => version (constraint_enforcer p)
  end.

(** [EnforcementPipeline::pinned_generation_admission]. *)
Definition pinned_generation_admission (a : Arrival) (snapshot : option (PublishedSnapshot P))
    : Result unit EnforcementDecision :=
  match snapshot with
  | None => Ok tt
  | Some pin =>
      let? _ := check_readiness (ar_readiness a) in
      if is_fresh pin (ar_now a) then Ok tt else Err (stale_bundle_deny None None)
  end.

(** [EnforcementPipeline::managed_transport_admission]. *)
Definition managed_transport_admission (a : Arrival) (request : RawRequest)
    (snapshot : option (PublishedSnapshot P)) : Result unit EnforcementDecision :=
  match snapshot with
  | None => Ok tt
  | Some pin =>
      let? _ := pinned_generation_admission a (Some pin) in
      let? _ := normalize (pub_normalizer pin) (ar_timestamp a) request in
      Ok tt
  end.

Definition denied_by_normalization (d : EnforcementDecision) : bool :=
  match d with Deny _ Normalization _ _ _ => true | _ => false end.

(** The decision of [enforce] before the audit. *)
Definition enforce_decision (p : EnforcementPipeline) (a : Arrival) (m : Moment)
    (st : PipelineState) (request : RawRequest) (session : string)
    : EnforcementDecision * PipelineState :=
  let snapshot := pinned p in
  let '(decision, st) :=
    match pinned_generation_admission a snapshot with
    | Err deny => (deny, st)
    | Ok _ =>
        match snapshot with
        | Some pin => enforce_inner p (pub_normalizer pin) pin a m st request session
        | None => enforce_inner p (pl_normalizer p) (constraint_enforcer p) a m st request session
        end
    end in
  (reject_expired_pin decision snapshot (at_final m), st).

(** [EnforcementPipeline::enforce]. *)
Definition enforce (p : EnforcementPipeline) (a : Arrival) (m : Moment) (st : PipelineState)
    (request : RawRequest) (session : string)
    : (EnforcementDecision * AuditPayload) * PipelineState :=
  let snapshot := pinned p in
  let bundle_version := policy_version p snapshot in
  let '(decision, st) := enforce_decision p a m st request session in
  let audit_version :=
    if denied_by_normalization decision && bool_decide (runtime_snapshot p = None)
    then None else bundle_version in
  let payload :=
    audit_payload_from_decision decision request session (at_latency m) audit_version in
  ((decision, redact_managed_audit snapshot payload), st).

(** [EnforcementPipeline::audit_protocol_denial]. *)
Definition audit_protocol_denial (p : EnforcementPipeline) (decision : EnforcementDecision)
    (request : RawRequest) (session : string) : AuditPayload :=
  let snapshot := load <$> runtime_snapshot p in
  redact_managed_audit snapshot
    (audit_payload_from_decision decision request session 0 (policy_version p snapshot)).

(** [EnforcementPipeline::composio_passthrough]; [final] and [final'] are the
    instants of the last two freshness checks. *)
Definition composio_passthrough (p : EnforcementPipeline) (a : Arrival) (final final' : Z)
    (request : RawRequest) (session : string) : EnforcementDecision * AuditPayload :=
  let snapshot := load <$> runtime_snapshot p in
  let decision :=
    match managed_transport_admission a request snapshot with
    | Err deny => deny
    | Ok _ => Passthrough "recognized Composio non-execution request"
    end in
  let version := snapshot ≫= version in
  let audited d :=
    redact_managed_audit snapshot (audit_payload_from_decision d request session 0 version) in
  if negb (pin_fresh snapshot final) then
    let decision := reject_expired_pin decision snapshot final' in
    (decision, audited decision)
  else (decision, audited decision).

(** ** Composite enforcement *)

Record CompositeActionResult := {
  cr_decision : EnforcementDecision;
  cr_audit_payload : AuditPayload;
}.

Inductive CompositeDisposition :=
| Dispatch (envelope : ExecutionEnvelope) (credentials : InjectedCredentials)
| Block (blocker_index : nat).

Record CompositeEnforcement := {
  children : list CompositeActionResult;
  disposition : CompositeDisposition;
}.

(** [empty_composite_fail_closed]. *)
Definition empty_composite_fail_closed (request : RawRequest) (session : string)
    (bundle_version : option string) : CompositeEnforcement :=
  let decision :=
    Deny FailClosed Normalization
      "Composio composite enforcement received no actions; failing closed" None None in
  {| children := [{| cr_decision := decision;
                     cr_audit_payload :=
                       audit_payload_from_decision decision request session 0 bundle_version |}];
     disposition := Block 0 |}.

(** [is_composio_blocker]. *)
Definition is_composio_blocker (d : EnforcementDecision) : bool := negb (is_allow d).

Definition is_abort (d : EnforcementDecision) : bool :=
  match d with Abort _ _ _ => true | _ => false end.

Definition is_admitted (d : EnforcementDecision) : bool :=
  match d with Allow _ _ _ | Modify _ _ _ _ => true | _ => false end.

(** [rewrite_as_atomic_abort]. *)
Definition rewrite_as_atomic_abort (detail : string) (child : CompositeActionResult)
    : CompositeActionResult :=
  let identity :=
    match cr_decision child with
    | Allow claims _ _ | Modify claims _ _ _ => Some (identity_from_claims claims)
    | Deny _ _ _ _ identity | Abort _ _ identity
    | StepUp _ _ _ _ identity | Defer _ _ _ identity => identity
    | Passthrough _ => None
    end in
  {| cr_decision := Abort BatchAtomicity detail identity;
     cr_audit_payload :=
       set_ap_decision DAbort (abort_code BatchAtomicity +:+ ": " +:+ detail)
         (cr_audit_payload child) |}.

(** [operational_abort_blocker]: the index and the rewritten children. *)
Definition operational_abort_blocker (l : list CompositeActionResult)
    (credential_disagreement : bool) : option nat * list CompositeActionResult :=
  match position (λ c, is_abort (cr_decision c)) l with
  | None => (None, l)
  | Some abort_index =>
      (Some abort_index,
       if credential_disagreement then l
       else imap (λ index child,
              if negb (Nat.eqb index abort_index) && is_admitted (cr_decision child)
              then rewrite_as_atomic_abort
                     "another Composio action in the atomic request aborted" child
              else child) l)
  end.

(** The credentials of an admitted decision. *)
Definition admitted_credentials (d : EnforcementDecision) : option InjectedCredentials :=
  match d with
  | Allow _ _ credentials | Modify _ _ _ credentials => Some credentials
  | _ => None
  end.

(** [admitted_credentials_disagree]. *)
Definition admitted_credentials_disagree (l : list CompositeActionResult) : bool :=
  match omap (λ c, cred_headers <$> admitted_credentials (cr_decision c)) l with
  | [] => false
  | first :: rest => existsb (λ candidate, negb (bool_decide (candidate = first))) rest
  end.

(** [first_admitted_transport]. *)
Definition first_admitted_transport (l : list CompositeActionResult)
    : option (ExecutionEnvelope * InjectedCredentials) :=
  head (omap (λ c, match cr_decision c with
                   | Allow _ envelope credentials | Modify _ envelope _ credentials =>
                       Some (envelope, credentials)
                   | _ => None
                   end) l).

(** One child: evaluated under the pin, audited as its own action. *)
Definition composite_child (p : EnforcementPipeline) (a : Arrival)
    (admission : Result unit EnforcementDecision) (request : RawRequest) (session : string)
    (st : PipelineState) (action : ComposioAction) (m : Moment)
    : CompositeActionResult * PipelineState :=
  let snapshot := pinned p in
  let '(decision, st) :=
    match admission with
    | Err deny => (deny, st)
    | Ok _ =>
        match snapshot with
        | Some pin => enforce_normalized_inner p pin m st (ca_envelope action) session
        | None =>
            enforce_normalized_inner p (constraint_enforcer p) m st (ca_envelope action) session
        end
    end in
  let decision := reject_expired_pin decision snapshot (at_final m) in
  let payload :=
    audit_payload_from_decision decision request session (at_latency m + ar_latency a)
      (policy_version p snapshot) in
  let intent := ne_intent (ca_envelope action) in
  let payload :=
    set_ap_action_resource (action_class intent)
      (redact_default_query_params (policy_resource_display intent)) payload in
  ({| cr_decision := decision; cr_audit_payload := redact_managed_audit snapshot payload |}, st).

(** The loop over the actions, in input order. *)
Fixpoint composite_children (p : EnforcementPipeline) (a : Arrival)
    (admission : Result unit EnforcementDecision) (request : RawRequest) (session : string)
    (st : PipelineState) (actions : list (ComposioAction * Moment))
    : list CompositeActionResult * PipelineState :=
  match actions with
  | [] => ([], st)
  | (action, m) :: actions =>
      let '(child, st) := composite_child p a admission request session st action m in
      let '(rest, st) := composite_children p a admission request session st actions in
      (child :: rest, st)
  end.

(** The disposition of evaluated children. *)
Definition composite_disposition (l : list CompositeActionResult) : CompositeEnforcement :=
  let policy_blocker := position (λ c, is_composio_blocker (cr_decision c)) l in
  let credential_disagreement :=
    bool_decide (policy_blocker = None) && admitted_credentials_disagree l in
  let l :=
    if credential_disagreement then
      rewrite_as_atomic_abort "admitted Composio actions produced different credentials" <$> l
    else l in
  let first_blocker := if credential_disagreement then Some 0 else policy_blocker in
  match operational_abort_blocker l credential_disagreement with
  | (Some abort_index, l) => {| children := l; disposition := Block abort_index |}
  | (None, l) =>
      match first_blocker with
      | Some blocker_index =>
          {| children :=
               if credential_disagreement then l
               else (λ c, if is_allow (cr_decision c) then
                            rewrite_as_atomic_abort
                              "another Composio action in the atomic request was blocked" c
                          else c) <$> l;
             disposition := Block blocker_index |}
      | None =>
          match first_admitted_transport l with
          | None =>
              {| children :=
                   rewrite_as_atomic_abort "Composio batch admitted no action to dispatch" <$> l;
                 disposition := Block 0 |}
          | Some (envelope, credentials) =>
              {| children := l; disposition := Dispatch envelope credentials |}
          end
      end
  end.

(** [EnforcementPipeline::enforce_composite]; each action comes with what its
    evaluation reads from outside. *)
Definition enforce_composite (p : EnforcementPipeline) (a : Arrival) (st : PipelineState)
    (request : RawRequest) (session : string) (actions : list (ComposioAction * Moment))
    : CompositeEnforcement * PipelineState :=
  let snapshot := pinned p in
  match actions with
  | [] => (empty_composite_fail_closed request session (policy_version p snapshot), st)
  | _ =>
      let admission := managed_transport_admission a request snapshot in
      let '(l, st) := composite_children p a admission request session st actions in
      (composite_disposition l, st)
  end.

(** ** Facts: one normalized action *)

Lemma check_readiness_ok r :
  check_readiness r = Ok tt ↔ fully_ready r = true.
Proof. unfold check_readiness, fully_ready. by destruct r as [[] [] [] []]. Qed.

Lemma check_readiness_err r d : check_readiness r = Err d → is_deny d = true.
Proof. unfold check_readiness. destruct r as [[] [] [] []]; intros [= <-]; done. Qed.

(** How the policy task ends: without a timeout the call is synchronous. *)
Definition task_outcome (p : EnforcementPipeline) (m : Moment) : TaskOutcome :=
  match stage2_timeout p with Some _ => at_task m | None => Completed end.

Lemma stage2_spec {Pol} {PolE : PolicyEvaluation Pol} p (policy : Pol) m env claims sig :
  match stage2 p policy m env claims sig with
  | Ok v =>
      stage2_pass policy (at_stage2 m) env claims sig
        (task_outcome p m) v
  | Err d => stage2_deny env d
  end.
Proof.
  unfold stage2, task_outcome. destruct (stage2_timeout p) as [t|]; [apply evaluate_with_timeout_spec|].
  rewrite <-(evaluate_with_timeout_completed _ _ _ _ _ 0). apply evaluate_with_timeout_spec.
Qed.

(** The signals Stage 2 sees and the store it leaves. *)
Definition seen_signals (m : Moment) (s : St) (sid : SessionId) : RuntimeSignals :=
  let '(count, s) := record_action s sid in
  set_action_count count (signals (race_signals m s) sid).

(** The verdict that admits a call as Allow or as Modify. *)
Definition verdict_of (modifications : option ModificationSpec) : PolicyVerdict :=
  match modifications with Some spec => VModify spec | None => VAllow end.

Lemma lift_verdict_spec v env claims :
  match lift_verdict v env claims with
  | Ok mods => v = verdict_of mods
  | Err d => ¬ forwards d ∧ is_abort d = false ∧
      attribution d = (token_id claims, agent_id claims, context_hash claims)
  end.
Proof. destruct v; simpl; tauto. Qed.

Lemma inject_credentials_cases m claims envelope mods :
  (∃ credentials,
     (at_inject m envelope (extract_host (resource_display (env_intent envelope)))
        (resource_display (env_intent envelope)) = Ok credentials ∨
      credentials = credentials_empty ∧
      ∃ id, at_inject m envelope (extract_host (resource_display (env_intent envelope)))
              (resource_display (env_intent envelope)) = Err (UnknownConnector id)) ∧
     inject_credentials m claims envelope mods =
       match mods with
       | Some spec => Modify claims envelope spec credentials
       | None => Allow claims envelope credentials
       end) ∨
  (∃ detail, inject_credentials m claims envelope mods =
     Abort CredentialInjectionFailedA detail (Some (identity_from_claims claims))).
Proof.
  unfold inject_credentials. cbv zeta. destruct (at_inject m envelope _ _) as [cr|[id|id r]]; eauto.
  left. exists credentials_empty. eauto 6.
Qed.

(** What an admission of [env] by the stages under [policy] rests on: the run is
    ready; Stage 1 found a good token; Stage 2 passed on the signals of the
    verified session with the verdict the decision expresses; the envelope is
    assembled from these and the credentials are the provider's, or none. *)
Definition admitted_through {RL : RevocationLaws RS} {Pol : Type} {PolE : PolicyEvaluation Pol}
    (p : EnforcementPipeline) (policy : Pol) (m : Moment) (st : PipelineState)
    (env : NormalizedEnvelope) (session : string) (d : EnforcementDecision) : Prop :=
  ∃ cap mods anchor credentials,
    let claims := vc_claims cap in
    let sig := seen_signals m (session_state_store st) (session_id claims) in
    let envelope := assemble_envelope env cap sig anchor in
    fully_ready (at_readiness m) = true ∧
    good_token (capability_validator st) (at_validate m) env session cap ∧
    stage2_pass policy (at_stage2 m) env claims sig (task_outcome p m) (verdict_of mods) ∧
    (∃ host target, at_inject m envelope host target = Ok credentials ∨
       credentials = credentials_empty ∧
       ∃ id, at_inject m envelope host target = Err (UnknownConnector id)) ∧
    d = match mods with
        | Some spec => Modify claims envelope spec credentials
        | None => Allow claims envelope credentials
        end.

Lemma stage2_deny_blocks env d i : stage2_deny env d → ¬ forwards (with_identity d i).
Proof. intros (? & ? & ? & ->). simpl. tauto. Qed.

Lemma enforce_stage1_blocks v now env session d v' :
  enforce_stage1 v now env session = (Err d, v') → is_deny d = true.
Proof.
  intros H. destruct (enforce_stage1_err v now env session d) as (? & ? & ? & ? & ? & -> & _);
    [by rewrite H|done].
Qed.

Lemma is_deny_not_forwards d : is_deny d = true → ¬ forwards d.
Proof. destruct d; simpl; intros; try done; tauto. Qed.

(** The stages forward only what they admit. *)
Lemma enforce_normalized_admits {RL : RevocationLaws RS} {Pol} {PolE : PolicyEvaluation Pol}
    p (policy : Pol) m st env session :
  rs_ok (revocation (capability_validator st)) →
  forwards (fst (enforce_normalized_inner p policy m st env session)) →
  admitted_through p policy m st env session
    (fst (enforce_normalized_inner p policy m st env session)).
Proof.
  intros Hrs. unfold enforce_normalized_inner.
  destruct (check_readiness (at_readiness m)) as [[]|d] eqn:Hready.
  2: { intros H. by apply check_readiness_err, is_deny_not_forwards in Hready. }
  apply check_readiness_ok in Hready.
  destruct (enforce_stage1 _ _ env session) as [[cap|d] v] eqn:Hs1.
  2: { intros H. by apply enforce_stage1_blocks, is_deny_not_forwards in Hs1. }
  destruct (record_action _ _) as [count store] eqn:Hra.
  set (sig := set_action_count count _).
  assert (sig = seen_signals m (session_state_store st) (session_id (vc_claims cap))) as Hsig.
  { unfold seen_signals. by rewrite Hra. }
  pose proof (stage2_spec p policy m env (vc_claims cap) sig) as Hs2.
  destruct (stage2 p policy m env (vc_claims cap) sig) as [verdict|d].
  2: { intros H. by apply (stage2_deny_blocks _ _ (identity_from_claims (vc_claims cap))) in Hs2. }
  pose proof (lift_verdict_spec verdict env (vc_claims cap)) as Hl.
  destruct (lift_verdict verdict env (vc_claims cap)) as [mods|d]; [|simpl; tauto].
  destruct (advance_provenance _ _ _ _ _) as [anchor store'] eqn:Hadv. simpl. subst verdict.
  pose proof (inject_credentials_cases m (vc_claims cap) (assemble_envelope env cap sig anchor) mods)
    as [(credentials & Hc & Hd)|(detail & Hd)]; rewrite Hd; [|simpl; tauto].
  intros _. exists cap, mods, anchor, credentials. cbv zeta. rewrite <-Hsig.
  split_and!; [done| |done|eauto|done].
  apply enforce_stage1_good; [done|]. by rewrite Hs1.
Qed.

(** [enforce] without its audit. *)
Lemma enforce_unfold p a m st request session :
  let r := enforce_decision p a m st request session in
  fst (fst (enforce p a m st request session)) = fst r ∧
  snd (enforce p a m st request session) = snd r.
Proof. cbv zeta. unfold enforce. by destruct (enforce_decision p a m st request session). Qed.

Lemma pinned_admission_ok a pin :
  pinned_generation_admission a (Some pin) = Ok tt →
  fully_ready (ar_readiness a) = true ∧ is_fresh pin (ar_now a) = true.
Proof.
  unfold pinned_generation_admission. destruct (check_readiness _) as [[]|] eqn:Hr; [|done].
  apply check_readiness_ok in Hr. by destruct (is_fresh pin (ar_now a)).
Qed.

Lemma pinned_admission_err a snapshot d :
  pinned_generation_admission a snapshot = Err d → is_deny d = true.
Proof.
  unfold pinned_generation_admission. destruct snapshot as [pin|]; [|done].
  destruct (check_readiness _) as [[]|] eqn:Hr.
  - by destruct (is_fresh pin (ar_now a)); intros [= <-].
  - intros [= <-]. by eapply check_readiness_err.
Qed.

Lemma enforce_inner_admits {RL : RevocationLaws RS} {Pol} {PolE : PolicyEvaluation Pol}
    p n (policy : Pol) a m st request session :
  rs_ok (revocation (capability_validator st)) →
  forwards (fst (enforce_inner p n policy a m st request session)) →
  ∃ env, normalize n (ar_timestamp a) request = Ok env ∧
    admitted_through p policy m st env session
      (fst (enforce_inner p n policy a m st request session)).
Proof.
  intros Hrs. unfold enforce_inner.
  destruct (normalize n (ar_timestamp a) request) as [env|d] eqn:Hn.
  - intros Hf. exists env. split; [done|]. by apply enforce_normalized_admits.
  - apply normalize_err in Hn as [detail ->]. simpl. tauto.
Qed.

Lemma enforce_decision_admits {RL : RevocationLaws RS} p a m st request session :
  rs_ok (revocation (capability_validator st)) →
  let d := fst (enforce_decision p a m st request session) in
  forwards d →
  match pinned p with
  | Some pin =>
      fully_ready (ar_readiness a) = true ∧
      is_fresh pin (ar_now a) = true ∧ is_fresh pin (at_final m) = true ∧
      ∃ env, normalize (pub_normalizer pin) (ar_timestamp a) request = Ok env ∧
        admitted_through p pin m st env session d
  | None =>
      ∃ env, normalize (pl_normalizer p) (ar_timestamp a) request = Ok env ∧
        admitted_through p (constraint_enforcer p) m st env session d
  end.
Proof.
  intros Hrs. cbv zeta. unfold enforce_decision.
  destruct (pinned_generation_admission a (pinned p)) as [[]|d] eqn:Ha.
  2: { apply pinned_admission_err, is_deny_not_forwards in Ha. simpl.
       intros Hf. destruct (reject_expired_pin_forwards _ _ _ Hf) as [_ Heq].
       by rewrite Heq in Hf. }
  destruct (pinned p) as [pin|].
  - pose proof (enforce_inner_admits p (pub_normalizer pin) pin a m st request session Hrs) as He.
    destruct (enforce_inner p _ pin a m st request session) as [d st']. simpl in *.
    intros Hf. destruct (reject_expired_pin_forwards _ _ _ Hf) as [Hp Heq].
    rewrite Heq in Hf |- *. apply pinned_admission_ok in Ha as [? ?]. auto.
  - pose proof (enforce_inner_admits p (pl_normalizer p) (constraint_enforcer p) a m st request
      session Hrs) as He.
    destruct (enforce_inner p _ (constraint_enforcer p) a m st request session) as [d st'].
    simpl in *. rewrite reject_expired_pin_fresh by done. apply He.
Qed.

(** [C1] Complete mediation: [enforce] lets a request through only as an Allow
    or Modify that passed every stage.  The request was classified by the
    pinned (or startup) normalizer; the run is ready; Stage 1 verified an
    unexpired, unrevoked token of the bound agent for the session; the token's
    scope covers the action; the policy, available and fresh, returned that
    very verdict on the verified session's signals; and a pinned generation is
    fresh on arrival and still fresh when the decision is released. *)
Theorem enforce_complete_mediation {RL : RevocationLaws RS} p a m st request session :
  rs_ok (revocation (capability_validator st)) →
  let d := fst (fst (enforce p a m st request session)) in
  forwards d →
  match pinned p with
  | Some pin =>
      fully_ready (ar_readiness a) = true ∧
      is_fresh pin (ar_now a) = true ∧ is_fresh pin (at_final m) = true ∧
      ∃ env, normalize (pub_normalizer pin) (ar_timestamp a) request = Ok env ∧
        admitted_through p pin m st env session d
  | None =>
      ∃ env, normalize (pl_normalizer p) (ar_timestamp a) request = Ok env ∧
        admitted_through p (constraint_enforcer p) m st env session d
  end.
Proof.
  intros Hrs. cbv zeta. destruct (enforce_unfold p a m st request session) as [-> _].
  by apply enforce_decision_admits.
Qed.

(** ** Facts: the session store *)

(** The verdict's effect on the session, as operations on the store. *)
Definition request_ops (env : NormalizedEnvelope) (claims : CapabilityClaims) (o : Outcome)
    : list SessionOp :=
  let sid := session_id claims in
  let cls := action_class (ne_intent env) in
  let res := policy_resource_display (ne_intent env) in
  (RecordAction sid :: RecordOutcome sid cls res o ::
    match o with
    | OAllow | OModify => [AdvanceProvenance sid (context_hash claims) cls res]
    | _ => []
    end)%list.

(** The outcome recorded for a decision that passed Stage 1: a call whose
    credentials could not be fetched keeps its policy outcome. *)
Definition outcome_of_decision (d : EnforcementDecision) (o : Outcome) : Prop :=
  match d with
  | Allow _ _ _ => o = OAllow
  | Modify _ _ _ _ => o = OModify
  | Deny _ _ _ _ _ => o = ODeny
  | StepUp _ _ _ _ _ => o = OStepUp
  | Defer _ _ _ _ => o = ODefer
  | Abort _ _ _ => o = OAllow ∨ o = OModify
  | Passthrough _ => False
  end.

(** No other request touches the store in between. *)
Definition undisturbed (m : Moment) : Prop :=
  ∀ s, race_signals m s = s ∧ race_outcome m s = s ∧ race_provenance m s = s.

Lemma lift_verdict_outcome v env claims d :
  lift_verdict v env claims = Err d → v ≠ VDeny →
  outcome_of_decision d (policy_outcome v) ∧
  policy_outcome v ≠ OAllow ∧ policy_outcome v ≠ OModify.
Proof. by destruct v; intros [= <-]. Qed.

Lemma inject_credentials_outcome m claims envelope mods :
  outcome_of_decision (inject_credentials m claims envelope mods)
    (policy_outcome (verdict_of mods)).
Proof.
  destruct (inject_credentials_cases m claims envelope mods) as [(c & _ & ->)|(detail & ->)];
    destruct mods; simpl; auto.
Qed.

(** The same after normalization; nothing is recorded before Stage 1 passes. *)
Lemma enforce_normalized_effect {Pol} {PolE : PolicyEvaluation Pol}
    p (policy : Pol) m st env session :
  undisturbed m →
  let '(d, st') := enforce_normalized_inner p policy m st env session in
  (is_deny d = true ∧ session_state_store st' = session_state_store st ∧
     (fully_ready (at_readiness m) = false ∨
      fst (enforce_stage1 (capability_validator st) (at_validate m) env session) = Err d)) ∨
  (∃ cap o,
     fst (enforce_stage1 (capability_validator st) (at_validate m) env session) = Ok cap ∧
     outcome_of_decision d o ∧
     session_state_store st'
     = session_run (session_state_store st) (request_ops env (vc_claims cap) o)).
Proof.
  intros Hu. unfold enforce_normalized_inner.
  destruct (check_readiness (at_readiness m)) as [[]|d] eqn:Hready.
  2: { left. split_and!; [by eapply check_readiness_err|done|]. left.
       apply not_true_is_false. intros H%check_readiness_ok. congruence. }
  destruct (enforce_stage1 _ _ env session) as [[cap|d] v] eqn:Hs1.
  2: { left. split_and!; [by eapply enforce_stage1_blocks|done|by right]. }
  destruct (record_action _ _) as [count store] eqn:Hra.
  set (sig := set_action_count count _).
  pose proof (stage2_spec p policy m env (vc_claims cap) sig) as Hs2.
  destruct (Hu store) as (-> & -> & _).
  assert (∀ l, session_run (session_state_store st) (RecordAction (session_id (vc_claims cap)) :: l)
               = session_run store l) as Hrun.
  { intros l. unfold session_run. simpl. by rewrite Hra. }
  destruct (stage2 p policy m env (vc_claims cap) sig) as [verdict|d].
  - destruct (lift_verdict verdict env (vc_claims cap)) as [mods|d] eqn:Hl.
    + pose proof (lift_verdict_spec verdict env (vc_claims cap)) as Hv. rewrite Hl in Hv.
      destruct (advance_provenance _ _ _ _ _) as [anchor store'] eqn:Hadv. right.
      exists cap, (policy_outcome verdict). subst verdict.
      split_and!; [done|apply inject_credentials_outcome|].
      unfold request_ops. rewrite Hrun. destruct (Hu (record_outcome store
        (session_id (vc_claims cap)) (action_class (ne_intent env))
        (policy_resource_display (ne_intent env)) (policy_outcome (verdict_of mods))))
        as (_ & _ & Hp). rewrite Hp in Hadv.
      destruct mods; simpl in *; by rewrite Hadv.
    + right. exists cap, (policy_outcome verdict).
      destruct (lift_verdict_outcome _ _ _ _ Hl) as (Ho & Ha & Hm); [by apply Hs2|].
      split_and!; [done|done|]. unfold request_ops. rewrite Hrun.
      by destruct (policy_outcome verdict).
  - right. exists cap, ODeny. destruct Hs2 as (? & ? & ? & ->).
    split_and!; [done..|]. unfold request_ops. by rewrite Hrun.
Qed.

(** The normalizer a request is classified by. *)
Definition request_normalizer (p : EnforcementPipeline) : IntentNormalizer :=
  match pinned p with Some pin => pub_normalizer pin | None => pl_normalizer p end.

(** The same for the request; what was recorded stays when the pinned generation
    expires before the decision is released. *)
Lemma enforce_inner_effect {Pol} {PolE : PolicyEvaluation Pol} p n (policy : Pol) a m st request session :
  undisturbed m →
  let '(d, st') := enforce_inner p n policy a m st request session in
  (is_deny d = true ∧ session_state_store st' = session_state_store st ∧
     (∀ env, normalize n (ar_timestamp a) request = Ok env → fully_ready (at_readiness m) = true →
        fst (enforce_stage1 (capability_validator st) (at_validate m) env session) = Err d)) ∨
  (∃ env cap o,
     normalize n (ar_timestamp a) request = Ok env ∧
     fst (enforce_stage1 (capability_validator st) (at_validate m) env session) = Ok cap ∧
     outcome_of_decision d o ∧
     session_state_store st'
     = session_run (session_state_store st) (request_ops env (vc_claims cap) o)).
Proof.
  intros Hu. unfold enforce_inner. destruct (normalize n (ar_timestamp a) request) as [env|d] eqn:Hn.
  - pose proof (enforce_normalized_effect p policy m st env session Hu) as H.
    destruct (enforce_normalized_inner p policy m st env session) as [d st'].
    destruct H as [(Hd & Hs & Hw)|(cap & o & H)]; [left|right; eauto].
    split_and!; [done..|]. intros env' [= <-] Hr. destruct Hw; [congruence|done].
  - left. apply normalize_err in Hn as [detail ->]. done.
Qed.

Lemma reject_expired_pin_outcome d snapshot now o :
  outcome_of_decision d o →
  outcome_of_decision (reject_expired_pin (P := P) d snapshot now) o ∨
  ((o = OAllow ∨ o = OModify) ∧ pin_fresh (P := P) snapshot now = false ∧
     is_deny (reject_expired_pin (P := P) d snapshot now) = true).
Proof. unfold reject_expired_pin. destruct (pin_fresh snapshot now); [by left|]. destruct d; naive_solver. Qed.

Lemma reject_expired_pin_deny d snapshot now :
  is_deny d = true → reject_expired_pin (P := P) d snapshot now = d.
Proof. unfold reject_expired_pin. destruct (pin_fresh snapshot now); [done|]. by destruct d. Qed.

(** [C7] What a request does to the session state, when no other request touches
    the store meanwhile.  A request stopped before or by Stage 1 leaves the store
    as it is.  A request that passes Stage 1 counts one action and records one
    outcome in the session of the verified token, whatever session the caller
    named, and the provenance chain advances exactly when the policy admitted the
    call.  The outcome is that of the policy: it is the one of the decision,
    except that an admitted call whose credentials cannot be fetched is aborted,
    and one whose generation expires before the release is denied. *)
Theorem enforce_session_effect p a m st request session :
  undisturbed m →
  let '((d, _), st') := enforce p a m st request session in
  (is_deny d = true ∧ session_state_store st' = session_state_store st ∧
     (∀ env, pinned_generation_admission a (pinned p) = Ok tt →
        normalize (request_normalizer p) (ar_timestamp a) request = Ok env →
        fully_ready (at_readiness m) = true →
        fst (enforce_stage1 (capability_validator st) (at_validate m) env session) = Err d)) ∨
  (∃ env cap o,
     normalize (request_normalizer p) (ar_timestamp a) request = Ok env ∧
     fst (enforce_stage1 (capability_validator st) (at_validate m) env session) = Ok cap ∧
     (outcome_of_decision d o ∨
      ((o = OAllow ∨ o = OModify) ∧ pin_fresh (pinned p) (at_final m) = false ∧ is_deny d = true)) ∧
     session_state_store st'
     = session_run (session_state_store st) (request_ops env (vc_claims cap) o)).
Proof.
  intros Hu. destruct (enforce_unfold p a m st request session) as [Hd Hst].
  destruct (enforce p a m st request session) as [[d payload] st']. simpl in Hd, Hst. subst d st'.
  unfold enforce_decision, request_normalizer.
  destruct (pinned_generation_admission a (pinned p)) as [[]|d] eqn:Ha.
  2:{ apply pinned_admission_err in Ha. left. simpl. rewrite reject_expired_pin_deny by done. done. }
  assert (∀ Pol (PolE : PolicyEvaluation Pol) n (policy : Pol),
    let '(d, st') := enforce_inner p n policy a m st request session in
    let d := reject_expired_pin d (pinned p) (at_final m) in
    (is_deny d = true ∧ session_state_store st' = session_state_store st ∧
       (∀ env, Ok (E := EnforcementDecision) tt = Ok tt → normalize n (ar_timestamp a) request = Ok env →
          fully_ready (at_readiness m) = true →
          fst (enforce_stage1 (capability_validator st) (at_validate m) env session) = Err d)) ∨
    (∃ env cap o,
       normalize n (ar_timestamp a) request = Ok env ∧
       fst (enforce_stage1 (capability_validator st) (at_validate m) env session) = Ok cap ∧
       (outcome_of_decision d o ∨
        ((o = OAllow ∨ o = OModify) ∧ pin_fresh (pinned p) (at_final m) = false ∧ is_deny d = true)) ∧
       session_state_store st' = session_run (session_state_store st) (request_ops env (vc_claims cap) o)))
    as Hin.
  { intros Pol PolE n policy. pose proof (enforce_inner_effect p n policy a m st request session Hu) as H.
    destruct (enforce_inner p n policy a m st request session) as [d st'].
    destruct H as [(Hd & Hs & Hw)|(env & cap & o & Hn & Hc & Ho & Hs)].
    - left. simpl. rewrite reject_expired_pin_deny by done. auto.
    - right. exists env, cap, o. split_and!; [done..| |done]. by apply reject_expired_pin_outcome. }
  destruct (pinned p) as [pin|].
  - specialize (Hin _ _ (pub_normalizer pin) pin). by destruct (enforce_inner _ _ _ _ _ _ _ _).
  - specialize (Hin _ _ (pl_normalizer p) (constraint_enforcer p)). by destruct (enforce_inner _ _ _ _ _ _ _ _).
Qed.

(** [C8] A call is judged on its own count under concurrency: whatever other
    requests do to the session store between the calls of this one, the policy
    that admits it was given an action count of exactly one more than the
    session had when this request counted itself. *)
Theorem policy_sees_own_count {RL : RevocationLaws RS} {SL : SessionStateLaws St}
    {Pol} {PolE : PolicyEvaluation Pol} p (policy : Pol) m st env session :
  rs_ok (revocation (capability_validator st)) → ss_ok (session_state_store st) →
  permits (fst (enforce_normalized_inner p policy m st env session)) →
  ∃ cap ctx verdict,
    verify (vc_raw_token cap) = Ok (vc_claims cap) ∧
    evaluate_verdict policy (agent_id (vc_claims cap)) (action_class (ne_intent env))
      (policy_resource_display (ne_intent env)) (JObject ctx) = Ok verdict ∧
    (verdict = VAllow ∨ ∃ spec, verdict = VModify spec) ∧
    ctx !! "action_count" = Some (JInt (i64_of_unsigned (sat_add_u64
      (action_count (record_of (session_state_store st) (session_id (vc_claims cap)))) 1))).
Proof.
  intros Hrs Hss Hp%permits_forwards.
  apply (enforce_normalized_admits p policy m st env session Hrs) in Hp
    as (cap & mods & anchor & credentials & _ & Ht & Hs2 & _).
  destruct Hs2 as (_ & _ & _ & _ & _ & j & Hctx & Hev).
  destruct (build_context_inv _ _ _ _ Hctx) as (text & ctx & _ & -> & _).
  exists cap, ctx, (verdict_of mods).
  split_and!; [by apply Ht|done|destruct mods; simpl; eauto|].
  rewrite (build_context_base _ _ _ _ "action_count" _ Hctx eq_refl eq_refl (λ _, eq_refl)).
  unfold seen_signals. pose proof (record_action_count (session_state_store st)
    (session_id (vc_claims cap)) Hss) as Hc.
  destruct (record_action _ _) as [count store]. simpl in *. by rewrite Hc.
Qed.

(** ** Facts: the audit *)

Lemma enforce_normalized_attribution {Pol} {PolE : PolicyEvaluation Pol}
    p (policy : Pol) m st env session cap :
  fully_ready (at_readiness m) = true →
  fst (enforce_stage1 (capability_validator st) (at_validate m) env session) = Ok cap →
  attribution (fst (enforce_normalized_inner p policy m st env session))
  = (token_id (vc_claims cap), agent_id (vc_claims cap), context_hash (vc_claims cap)).
Proof.
  intros Hr%check_readiness_ok. unfold enforce_normalized_inner. rewrite Hr.
  destruct (enforce_stage1 _ _ env session) as [r v]. simpl. intros ->.
  destruct (record_action _ _) as [count store]. set (sig := set_action_count count _).
  pose proof (stage2_spec p policy m env (vc_claims cap) sig) as Hs2.
  destruct (stage2 p policy m env (vc_claims cap) sig) as [verdict|d].
  2: { destruct Hs2 as (? & ? & ? & ->). done. }
  pose proof (lift_verdict_spec verdict env (vc_claims cap)) as Hl.
  destruct (lift_verdict verdict env (vc_claims cap)) as [mods|d]; [|by apply Hl].
  destruct (advance_provenance _ _ _ _ _) as [anchor store']. simpl.
  destruct (inject_credentials_cases m (vc_claims cap) (assemble_envelope env cap sig anchor) mods)
    as [(c & _ & ->)|(detail & ->)]; by destruct mods.
Qed.

(** The normalizer a request is classified with. *)
Definition current_normalizer (p : EnforcementPipeline) : IntentNormalizer :=
  match pinned p with Some pin => pub_normalizer pin | None => pl_normalizer p end.

(** The parameter names an audit payload is redacted with. *)
Definition redacted_params (p : EnforcementPipeline) : list string :=
  match pinned p with
  | Some pin => sensitive_query_params (pub_normalizer pin)
  | None => DEFAULT_SENSITIVE_QUERY_PARAMS
  end.

Lemma enforce_decision_attribution p a m st request session env cap :
  pinned_generation_admission a (pinned p) = Ok tt →
  normalize (current_normalizer p) (ar_timestamp a) request = Ok env →
  fully_ready (at_readiness m) = true →
  fst (enforce_stage1 (capability_validator st) (at_validate m) env session) = Ok cap →
  attribution (fst (enforce_decision p a m st request session))
  = (token_id (vc_claims cap), agent_id (vc_claims cap), context_hash (vc_claims cap)).
Proof.
  unfold enforce_decision, current_normalizer, enforce_inner. intros -> Hn Hr Hs.
  destruct (pinned p) as [pin|]; rewrite Hn;
    (destruct (enforce_normalized_inner p _ m st env session) as [d st'] eqn:He; simpl;
     rewrite attribution_reject_expired; change d with (fst (d, st')); rewrite <-He;
     by apply enforce_normalized_attribution).
Qed.

(** The audit record of a request is faithful: it names the decision that
    was made; once Stage 1 has verified a token it attributes the decision,
    denials and aborts included, to that token, its agent and its context hash;
    and neither its resource nor its reason shows the value of a sensitive
    query parameter of the generation that classified the request. *)
Theorem enforce_audit_faithful p a m st request session :
  let '((d, payload), _) := enforce p a m st request session in
  ap_decision payload = decision_code d ∧
  payload_clean (redacted_params p) payload ∧
  (∀ env cap,
     pinned_generation_admission a (pinned p) = Ok tt →
     normalize (current_normalizer p) (ar_timestamp a) request = Ok env →
     fully_ready (at_readiness m) = true →
     fst (enforce_stage1 (capability_validator st) (at_validate m) env session) = Ok cap →
     payload_identity payload
     = (token_id (vc_claims cap), agent_id (vc_claims cap), context_hash (vc_claims cap))).
Proof.
  pose proof (enforce_decision_attribution p a m st request session) as Hat.
  unfold enforce, redacted_params, redact_managed_audit.
  destruct (enforce_decision p a m st request session) as [d st']. simpl in Hat.
  split_and!.
  - by autorewrite with firma_audit.
  - destruct (pinned p) as [pin|]; [apply redaction_apply_clean|apply audit_payload_clean].
  - intros env cap Ha Hn Hr Hs. autorewrite with firma_audit. by apply (Hat env cap).
Qed.

(** ** Facts: composite enforcement *)

(** The audit payload of a child names its decision. *)
Definition child_consistent (c : CompositeActionResult) : Prop :=
  ap_decision (cr_audit_payload c) = decision_code (cr_decision c).

Lemma rewrite_consistent detail c : child_consistent (rewrite_as_atomic_abort detail c).
Proof. done. Qed.

Lemma rewrite_not_admitted detail c :
  is_admitted (cr_decision (rewrite_as_atomic_abort detail c)) = false.
Proof. done. Qed.

Lemma is_allow_admitted d : is_allow d = true → is_admitted d = true.
Proof. by destruct d. Qed.

Lemma position_bound {A} (f : A → bool) l i : position f l = Some i → i < length l.
Proof. intros [(x & Hx & _) _]%position_Some. by apply lookup_lt_Some in Hx. Qed.

(** The children of a batch that is dispatched: all allowed, one credential. *)
Definition dispatchable (l : list CompositeActionResult) (envelope : ExecutionEnvelope)
    (credentials : InjectedCredentials) : Prop :=
  (∃ c claims rest, l = c :: rest ∧ cr_decision c = Allow claims envelope credentials) ∧
  Forall (λ c, ∃ claims e, cr_decision c = Allow claims e credentials) l.

Lemma credentials_agree l credentials :
  Forall (λ c, is_allow (cr_decision c) = true) l →
  Forall (λ h, h = cred_headers credentials)
    (omap (λ c, cred_headers <$> admitted_credentials (cr_decision c)) l) →
  Forall (λ c, ∃ claims e, cr_decision c = Allow claims e credentials) l.
Proof.
  induction 1 as [|c l Hc Hl IH]; simpl; [constructor|].
  destruct (cr_decision c) as [claims e cr| | | | | |] eqn:E; try done. simpl.
  intros [Hh Ht]%Forall_cons. constructor; [|by apply IH].
  exists claims, e. rewrite E. destruct cr, credentials. simpl in Hh. by subst.
Qed.

Lemma all_allowed_dispatchable l envelope credentials :
  Forall (λ c, is_allow (cr_decision c) = true) l →
  admitted_credentials_disagree l = false →
  first_admitted_transport l = Some (envelope, credentials) →
  dispatchable l envelope credentials.
Proof.
  intros Hl Hd Hf. pose proof Hl as Hl'. destruct Hl' as [|c l Hc Hl']; [done|].
  unfold first_admitted_transport, admitted_credentials_disagree in *. simpl in *.
  destruct (cr_decision c) as [claims e cr| | | | | |] eqn:E; try done.
  simpl in *. injection Hf as -> ->. split; [by eauto 6|].
  apply credentials_agree; [done|]. simpl. rewrite E. simpl. constructor; [done|].
  apply Forall_existsb_false in Hd. eapply Forall_impl; [exact Hd|].
  intros h Hh. simpl in Hh. by apply negb_false_iff, bool_decide_eq_true in Hh.
Qed.

(** After an operational abort, no other child is left admitted. *)
Lemma operational_abort_spec l disagree i l' :
  operational_abort_blocker l disagree = (Some i, l') →
  length l' = length l ∧
  (∃ c, l' !! i = Some c ∧ is_abort (cr_decision c) = true) ∧
  (Forall child_consistent l → Forall child_consistent l') ∧
  (disagree = false → Forall (λ c, is_admitted (cr_decision c) = false) l').
Proof.
  unfold operational_abort_blocker.
  destruct (position (λ c, is_abort (cr_decision c)) l) as [k|] eqn:Hk; [|done].
  apply position_Some in Hk as [(c & Hc & Ha) _]. intros [= <- <-].
  destruct disagree; [split_and!; [done|by eauto|done|done]|]. rewrite length_imap.
  split_and!; [done| | |].
  - exists c. rewrite list_lookup_imap, Hc. simpl. by rewrite Nat.eqb_refl.
  - rewrite !Forall_lookup. intros Hl j x. rewrite list_lookup_imap.
    destruct (l !! j) as [y|] eqn:Hy; intros [= <-]. case_match; [done|by eapply Hl].
  - intros _. rewrite Forall_lookup. intros j x. rewrite list_lookup_imap.
    destruct (l !! j) as [y|] eqn:Hy; intros [= <-].
    destruct (Nat.eqb_spec j k) as [->|Hne]; simpl.
    + rewrite Hc in Hy. injection Hy as ->. by destruct (cr_decision y).
    + destruct (is_admitted (cr_decision y)) eqn:E; [done|by rewrite E].
Qed.

Lemma operational_abort_none l disagree l' :
  operational_abort_blocker l disagree = (None, l') →
  l' = l ∧ Forall (λ c, is_abort (cr_decision c) = false) l.
Proof.
  unfold operational_abort_blocker.
  destruct (position (λ c, is_abort (cr_decision c)) l) eqn:Hk; [done|]. intros [= <-].
  split; [done|]. rewrite Forall_forall. by apply position_None.
Qed.

(** What the disposition of evaluated children guarantees. *)
Definition disposition_sound (l : list CompositeActionResult) (r : CompositeEnforcement) : Prop :=
  length (children r) = length l ∧ Forall child_consistent (children r) ∧
  match disposition r with
  | Dispatch envelope credentials =>
      children r = l ∧ dispatchable l envelope credentials
  | Block i =>
      (∃ c, children r !! i = Some c ∧ is_allow (cr_decision c) = false) ∧
      Forall (λ c, is_allow (cr_decision c) = false) (children r)
  end.

Lemma forall_rewritten detail l :
  Forall (λ c, is_allow (cr_decision c) = false) (rewrite_as_atomic_abort detail <$> l) ∧
  Forall child_consistent (rewrite_as_atomic_abort detail <$> l).
Proof. by split; rewrite Forall_fmap; apply Forall_true. Qed.

Lemma is_abort_not_allow d : is_abort d = true → is_allow d = false.
Proof. by destruct d. Qed.

Lemma not_admitted_not_allow d : is_admitted d = false → is_allow d = false.
Proof. by destruct d. Qed.

(** A child blocks: nothing is left allowed. *)
Lemma disposition_blocked l b :
  Forall child_consistent l →
  position (λ c, is_composio_blocker (cr_decision c)) l = Some b →
  disposition_sound l (composite_disposition l).
Proof.
  intros Hc Hb. unfold disposition_sound, composite_disposition. rewrite Hb. simpl.
  destruct (operational_abort_blocker l false) as [[i|] l'] eqn:Ha.
  - apply operational_abort_spec in Ha as (Hlen & (c & Hi & Hab) & Hcons & Hadm). simpl.
    split_and!; [done|by apply Hcons|eauto using is_abort_not_allow|].
    eapply Forall_impl; [by apply Hadm|]. intros x. apply not_admitted_not_allow.
  - apply operational_abort_none in Ha as [-> _]. simpl. rewrite length_fmap.
    apply position_Some in Hb as [(c & Hi & Hbl) _]. split_and!; [done| | |].
    + rewrite Forall_fmap. eapply Forall_impl; [exact Hc|]. intros x Hx. simpl.
      by destruct (is_allow (cr_decision x)).
    + rewrite list_lookup_fmap, Hi. unfold is_composio_blocker in Hbl.
      apply negb_true_iff in Hbl. simpl. rewrite Hbl. by eauto.
    + rewrite Forall_fmap. apply Forall_true. intros x. simpl.
      by destruct (is_allow (cr_decision x)) eqn:E.
Qed.

Lemma disagree_nonempty l : admitted_credentials_disagree l = true → l ≠ [].
Proof. by destruct l. Qed.

Lemma all_allowed_transport l :
  l ≠ [] → Forall (λ c, is_allow (cr_decision c) = true) l →
  is_Some (first_admitted_transport l).
Proof.
  intros Hne Hl. destruct Hl as [|c l Hc _]; [done|]. unfold first_admitted_transport. simpl.
  by destruct (cr_decision c).
Qed.

(** Every child is allowed: one dispatch if the credentials agree. *)
Lemma disposition_allowed l :
  l ≠ [] → Forall child_consistent l →
  position (λ c, is_composio_blocker (cr_decision c)) l = None →
  disposition_sound l (composite_disposition l).
Proof.
  intros Hne Hc Hb. pose proof Hb as Hall. rewrite position_None in Hall.
  assert (Forall (λ c, is_allow (cr_decision c) = true) l) as Hl.
  { rewrite Forall_forall. intros x Hx. by apply negb_false_iff, Hall. }
  unfold disposition_sound, composite_disposition. rewrite Hb. simpl.
  destruct (admitted_credentials_disagree l) eqn:Hd.
  - set (l1 := rewrite_as_atomic_abort _ <$> l).
    destruct (forall_rewritten "admitted Composio actions produced different credentials" l)
      as [Hna Hco]. fold l1 in Hna, Hco.
    assert (length l1 = length l) as Hlen by apply length_fmap.
    destruct (operational_abort_blocker l1 true) as [[i|] l'] eqn:Ha; simpl.
    + unfold operational_abort_blocker in Ha.
      destruct (position (λ c, is_abort (cr_decision c)) l1) as [k|] eqn:Hk; [|done].
      injection Ha as <- <-. apply position_Some in Hk as [(c & Hi & Hab) _].
      split_and!; [done..|by eauto using is_abort_not_allow|done].
    + apply operational_abort_none in Ha as [-> Hab]. exfalso. subst l1.
      destruct l as [|x l]; [done|]. by inversion Hab.
  - destruct (operational_abort_blocker l false) as [[i|] l'] eqn:Ha; simpl.
    + unfold operational_abort_blocker in Ha.
      destruct (position (λ c, is_abort (cr_decision c)) l) as [k|] eqn:Hk; [|done].
      apply position_Some in Hk as [(c & Hi & Hab) _].
      rewrite Forall_lookup in Hl. apply Hl in Hi. by apply is_abort_not_allow in Hab; congruence.
    + apply operational_abort_none in Ha as [-> _].
      destruct (all_allowed_transport l Hne Hl) as [[envelope credentials] Hf]. rewrite Hf. simpl.
      split_and!; [done..|by apply all_allowed_dispatchable].
Qed.

Lemma composite_disposition_sound l :
  l ≠ [] → Forall child_consistent l → disposition_sound l (composite_disposition l).
Proof.
  intros Hne Hc.
  destruct (position (λ c, is_composio_blocker (cr_decision c)) l) as [b|] eqn:Hb.
  - by eapply disposition_blocked.
  - by apply disposition_allowed.
Qed.

Lemma composite_child_consistent p a adm request session st action m :
  child_consistent (fst (composite_child p a adm request session st action m)).
Proof.
  unfold composite_child, child_consistent, redact_managed_audit.
  destruct (match adm with Ok _ => _ | Err _ => _ end) as [d st']. simpl.
  rewrite redaction_apply_decision. unfold set_ap_action_resource.
  cbn [ap_decision]. apply audit_payload_decision.
Qed.

Lemma composite_children_consistent p a adm request session st actions :
  let l := fst (composite_children p a adm request session st actions) in
  length l = length actions ∧ Forall child_consistent l.
Proof.
  cbv zeta. revert st. induction actions as [|[action m] actions IH]; intros st; simpl; [done|].
  pose proof (composite_child_consistent p a adm request session st action m) as Hc.
  destruct (composite_child p a adm request session st action m) as [c st1].
  specialize (IH st1). destruct (composite_children p a adm request session st1 actions).
  simpl in *. destruct IH as [-> IH]. auto.
Qed.

(** The checks of one action under the generation of the call. *)
Definition action_admitted {RL : RevocationLaws RS} (p : EnforcementPipeline) (m : Moment)
    (st : PipelineState) (env : NormalizedEnvelope) (session : string)
    (d : EnforcementDecision) : Prop :=
  match pinned p with
  | Some pin => admitted_through p pin m st env session d
  | None => admitted_through p (constraint_enforcer p) m st env session d
  end.

Lemma enforce_normalized_store_ok {RL : RevocationLaws RS} {Pol} {PolE : PolicyEvaluation Pol}
    p (policy : Pol) m st env session :
  rs_ok (revocation (capability_validator st)) →
  rs_ok (revocation (capability_validator
    (snd (enforce_normalized_inner p policy m st env session)))).
Proof.
  intros Hrs. unfold enforce_normalized_inner.
  destruct (check_readiness _); [|done].
  pose proof (enforce_stage1_store (capability_validator st) (at_validate m) env session) as Hst.
  destruct (enforce_stage1 _ _ env session) as [r v]. simpl in Hst.
  assert (rs_ok (revocation v)) as Hv.
  { destruct Hst as [->|[id ->]]; [done|]. by apply is_revoked_ok. }
  destruct r as [cap|d]; [|done]. destruct (record_action _ _) as [count store].
  destruct (stage2 _ _ _ _ _ _) as [verdict|d]; [|done].
  destruct (lift_verdict _ _ _) as [mods|d]; [|done].
  by destruct (advance_provenance _ _ _ _ _).
Qed.

Lemma managed_admission_err a request snapshot d :
  managed_transport_admission a request snapshot = Err d → is_deny d = true.
Proof.
  unfold managed_transport_admission. destruct snapshot as [pin|]; [|done].
  destruct (pinned_generation_admission a (Some pin)) as [[]|] eqn:Ha.
  - destruct (normalize _ _ request) eqn:Hn; [done|]. intros [= <-].
    apply normalize_err in Hn as [detail ->]. done.
  - intros [= <-]. by eapply pinned_admission_err.
Qed.

(** One child: what a forwarding decision rests on, and the state it leaves. *)
Lemma composite_child_admits {RL : RevocationLaws RS} p a request session st action m :
  let adm := managed_transport_admission a request (pinned p) in
  rs_ok (revocation (capability_validator st)) →
  let '(c, st') := composite_child p a adm request session st action m in
  rs_ok (revocation (capability_validator st')) ∧
  (forwards (cr_decision c) →
     adm = Ok tt ∧ pin_fresh (pinned p) (at_final m) = true ∧
     action_admitted p m st (ca_envelope action) session (cr_decision c)).
Proof.
  cbv zeta. intros Hrs. unfold composite_child, action_admitted.
  destruct (managed_transport_admission a request (pinned p)) as [[]|d] eqn:Ha.
  - destruct (pinned p) as [pin|].
    + pose proof (enforce_normalized_admits p pin m st (ca_envelope action) session Hrs) as Hadm.
      pose proof (enforce_normalized_store_ok p pin m st (ca_envelope action) session Hrs) as Hok.
      destruct (enforce_normalized_inner p pin m st _ session) as [d st']. simpl in *.
      split; [done|]. intros Hf. destruct (reject_expired_pin_forwards _ _ _ Hf) as [Hp Heq].
      rewrite Heq in Hf |- *. auto.
    + pose proof (enforce_normalized_admits p (constraint_enforcer p) m st (ca_envelope action)
        session Hrs) as Hadm.
      pose proof (enforce_normalized_store_ok p (constraint_enforcer p) m st (ca_envelope action)
        session Hrs) as Hok.
      destruct (enforce_normalized_inner p _ m st _ session) as [d st']. simpl in *.
      rewrite reject_expired_pin_fresh by done. auto.
  - apply managed_admission_err, is_deny_not_forwards in Ha. simpl. split; [done|].
    intros Hf. destruct (reject_expired_pin_forwards _ _ _ Hf) as [_ Heq].
    by rewrite Heq in Hf.
Qed.

(** The evidence for one child of a dispatched batch. *)
Definition child_dispatched {RL : RevocationLaws RS} (p : EnforcementPipeline)
    (session : string) (credentials : InjectedCredentials) (am : ComposioAction * Moment)
    (c : CompositeActionResult) : Prop :=
  ∃ st claims e, cr_decision c = Allow claims e credentials ∧
    pin_fresh (pinned p) (at_final am.2) = true ∧
    action_admitted p am.2 st (ca_envelope am.1) session (cr_decision c).

Lemma composite_children_dispatched {RL : RevocationLaws RS} p a request session st actions
    credentials :
  let adm := managed_transport_admission a request (pinned p) in
  rs_ok (revocation (capability_validator st)) →
  Forall (λ c, ∃ claims e, cr_decision c = Allow claims e credentials)
    (fst (composite_children p a adm request session st actions)) →
  Forall2 (child_dispatched p session credentials) actions
    (fst (composite_children p a adm request session st actions)).
Proof.
  cbv zeta. revert st. induction actions as [|[action m] actions IH]; intros st Hrs; simpl;
    [constructor|].
  pose proof (composite_child_admits p a request session st action m Hrs) as Hc.
  destruct (composite_child p a _ request session st action m) as [c st1].
  destruct Hc as [Hrs1 Hc]. specialize (IH st1 Hrs1).
  destruct (composite_children p a _ request session st1 actions) as [rest st2]. simpl in *.
  intros [(claims & e & Hd) Hrest]%Forall_cons. constructor; [|by apply IH].
  destruct Hc as (_ & Hp & Hadm); [by rewrite Hd|]. exists st, claims, e. auto.
Qed.

(** [C2] A batch is atomic.  It is dispatched, once, only if it is not empty,
    its transport is admitted, every action in it passed every check under the
    one pinned generation with the verdict Allow, and all of them carry the
    same credentials, which are those used.  Otherwise it is blocked: the
    blocking child exists and no child is left allowed, in its decision or in
    its audit record. *)
Theorem composite_atomic {RL : RevocationLaws RS} p a st request session actions :
  rs_ok (revocation (capability_validator st)) →
  let r := fst (enforce_composite p a st request session actions) in
  match disposition r with
  | Dispatch envelope credentials =>
      actions ≠ [] ∧
      Forall2 (child_dispatched p session credentials) actions (children r) ∧
      managed_transport_admission a request (pinned p) = Ok tt ∧
      (∃ c claims, head (children r) = Some c ∧
                   cr_decision c = Allow claims envelope credentials)
  | Block i =>
      (∃ c, children r !! i = Some c ∧ is_allow (cr_decision c) = false) ∧
      Forall (λ c, is_allow (cr_decision c) = false ∧
                   ap_decision (cr_audit_payload c) = decision_code (cr_decision c)) (children r)
  end.
Proof.
  intros Hrs. cbv zeta. unfold enforce_composite. destruct actions as [|[action m] actions].
  { simpl. split; [by eauto|]. by repeat constructor. }
  set (acts := (action, m) :: actions).
  set (adm := managed_transport_admission a request (pinned p)).
  pose proof (composite_children_consistent p a adm request session st acts) as [Hlen Hcons].
  pose proof (composite_children_dispatched p a request session st acts) as Hdisp.
  pose proof (composite_child_admits p a request session st action m Hrs) as Hhead.
  cbv zeta in Hdisp, Hhead. fold adm in Hdisp, Hhead.
  destruct (composite_child p a adm request session st action m) as [c0 st0] eqn:E0.
  assert (∃ rest, fst (composite_children p a adm request session st acts) = c0 :: rest) as Hc0.
  { simpl. rewrite E0. destruct (composite_children p a adm request session st0 actions). eauto. }
  destruct (composite_children p a adm request session st acts) as [l st'].
  cbn [fst] in Hlen, Hcons, Hdisp, Hc0. destruct Hc0 as [rest ->].
  pose proof (composite_disposition_sound (c0 :: rest)) as (_ & Hco & Hs); [done|done|]. simpl.
  destruct (disposition (composite_disposition (c0 :: rest))) as [envelope credentials|i].
  - destruct Hs as [-> [(c & claims & rest' & [= <- <-] & Hd) Hall]].
    split_and!; [done|by apply Hdisp| |by eauto].
    apply Hhead. by rewrite Hd.
  - destruct Hs as [Hi Hall]. split; [done|].
    rewrite Forall_lookup in Hall, Hco. rewrite Forall_lookup. intros j x Hx.
    split; [by eapply Hall|by eapply Hco].
Qed.

(** A batch blocked by a Modify verdict and not by an abort records that
    child as modified although nothing is dispatched: its decision and its
    audit payload are left as they were. *)
Theorem composite_blocked_modify_kept l i c :
  Forall (λ c, is_abort (cr_decision c) = false) l →
  l !! i = Some c → decision_code (cr_decision c) = DModify →
  (∃ j, disposition (composite_disposition l) = Block j) ∧
  children (composite_disposition l) !! i = Some c.
Proof.
  intros Hab Hi Hm. unfold composite_disposition.
  destruct (position (λ c, is_composio_blocker (cr_decision c)) l) as [b|] eqn:Hb.
  2: { rewrite position_None in Hb. apply list_elem_of_lookup_2 in Hi. apply Hb in Hi.
       unfold is_composio_blocker in Hi. by destruct (cr_decision c). }
  simpl. unfold operational_abort_blocker.
  destruct (position (λ c, is_abort (cr_decision c)) l) as [k|] eqn:Hk.
  { apply position_Some in Hk as [(x & Hx & Hx') _]. rewrite Forall_lookup in Hab.
    apply Hab in Hx. congruence. }
  simpl. split; [by eauto|]. rewrite list_lookup_fmap, Hi. simpl.
  by destruct (cr_decision c).
Qed.

(** Catalog discovery is forwarded without enforcement only if, where a
    generation is pinned, the run is ready, the pin is fresh on arrival and at
    the last check, and its mappings classify the request; and the recorded
    outcome is that of the decision. *)
Theorem composio_passthrough_admitted p a final final' request session :
  (final ≤ final')%Z →
  let '(d, payload) := composio_passthrough p a final final' request session in
  ap_decision payload = decision_code d ∧
  (forwards d → ∀ pin, pinned p = Some pin →
     fully_ready (ar_readiness a) = true ∧
     is_fresh pin (ar_now a) = true ∧ is_fresh pin final = true ∧
     is_ok (normalize (pub_normalizer pin) (ar_timestamp a) request) = true).
Proof.
  intros Hle. unfold composio_passthrough, redact_managed_audit, pinned.
  destruct (load <$> runtime_snapshot p) as [pin|] eqn:Hpin.
  2: { cbn [pin_fresh negb]. split; [|done]. by rewrite redaction_apply_decision, audit_payload_decision. }
  pose proof (managed_admission_err a request (Some pin)) as Herr.
  unfold managed_transport_admission in *.
  destruct (pin_fresh (Some pin) final) eqn:Hf; cbn [negb].
  - split; [by rewrite redaction_apply_decision, audit_payload_decision|].
    destruct (pinned_generation_admission a (Some pin)) as [[]|d] eqn:Ha.
    2: { intros H. by apply pinned_admission_err, is_deny_not_forwards in Ha. }
    apply pinned_admission_ok in Ha as [Hr Hfr].
    destruct (normalize _ _ request) as [e|d] eqn:Hn.
    + intros _ pin' [= <-]. rewrite Hn. auto.
    + intros H. apply normalize_err in Hn as [detail ->]. done.
  - split; [by rewrite redaction_apply_decision, audit_payload_decision|].
    intros [Hp _]%reject_expired_pin_forwards. simpl in *.
    apply Z.ltb_lt in Hp. apply Z.ltb_ge in Hf. lia.
Qed.

(** ** Facts: a good request is admitted *)

Lemma enforce_normalized_complete {Pol} {PolE : PolicyEvaluation Pol}
    p (policy : Pol) m st env session cap mods :
  fully_ready (at_readiness m) = true →
  fst (enforce_stage1 (capability_validator st) (at_validate m) env session) = Ok cap →
  stage2 p policy m env (vc_claims cap)
    (seen_signals m (session_state_store st) (session_id (vc_claims cap)))
  = Ok (verdict_of mods) →
  ∃ anchor,
    fst (enforce_normalized_inner p policy m st env session)
    = inject_credentials m (vc_claims cap)
        (assemble_envelope env cap
           (seen_signals m (session_state_store st) (session_id (vc_claims cap))) anchor) mods.
Proof.
  intros Hr%check_readiness_ok. unfold enforce_normalized_inner, seen_signals. rewrite Hr.
  destruct (enforce_stage1 _ _ env session) as [r v]. simpl. intros ->.
  destruct (record_action _ _) as [count store]. intros ->.
  destruct mods as [spec|]; simpl;
    destruct (advance_provenance _ _ _ _ _) as [anchor store'] eqn:E; by exists anchor.
Qed.

(** [C9] No stage blocks a good request: on a ready run and a generation that
    stays fresh, a request that is classified, carries a token Stage 1 accepts
    and gets Allow (or Modify) from Stage 2 is allowed (or modified), for the
    verified claims and the classified intent, with the credentials the provider
    returns for its target, or with none where the provider does not know it;
    only credentials that cannot be fetched abort it. *)
Theorem enforce_admits_good p a m st request session pin env cap mods :
  pinned p = Some pin →
  fully_ready (ar_readiness a) = true → is_fresh pin (ar_now a) = true →
  normalize (pub_normalizer pin) (ar_timestamp a) request = Ok env →
  fully_ready (at_readiness m) = true →
  fst (enforce_stage1 (capability_validator st) (at_validate m) env session) = Ok cap →
  stage2 p pin m env (vc_claims cap)
    (seen_signals m (session_state_store st) (session_id (vc_claims cap)))
  = Ok (verdict_of mods) →
  is_fresh pin (at_final m) = true →
  ∃ envelope,
    env_intent envelope = ne_intent env ∧ capability envelope = vc_raw_token cap ∧
    md_session_id (metadata envelope) = session_id (vc_claims cap) ∧
    let admitted_with credentials :=
      match mods with
      | Some spec => Modify (vc_claims cap) envelope spec credentials
      | None => Allow (vc_claims cap) envelope credentials
      end in
    let target := resource_display (ne_intent env) in
    fst (fst (enforce p a m st request session)) =
      match at_inject m envelope (extract_host target) target with
      | Ok credentials => admitted_with credentials
      | Err (UnknownConnector _) => admitted_with credentials_empty
      | Err (FetchFailed id reason) =>
          Abort CredentialInjectionFailedA ("connector " +:+ id +:+ ": " +:+ reason)
            (Some (identity_from_claims (vc_claims cap)))
      end.
Proof.
  intros Hpin Har Hfr Hn Hr Hs1 Hs2 Hfin.
  destruct (enforce_unfold p a m st request session) as [-> _].
  destruct (enforce_normalized_complete p pin m st env session cap mods Hr Hs1 Hs2)
    as [anchor Hd].
  eexists. split_and!; [..|unfold enforce_decision, enforce_inner, pinned_generation_admission].
  4: { apply check_readiness_ok in Har. rewrite Hpin, Har, Hfr, Hn.
       destruct (enforce_normalized_inner p pin m st env session) as [d st']. simpl in Hd |- *.
       rewrite Hd, reject_expired_pin_fresh by done. reflexivity. }
  all: reflexivity.
Qed.

End Pipeline.

(** ** Samples *)

Module Samples.
Import CapabilityValidation.Samples.
#[local] Existing Instances list_http list_http_laws plain_form sample_verifier sample_hash
  sample_sizing assoc_lru assoc_lru_laws Session.Samples.hex_sha.
#[local] Instance no_json : SerdeJson := λ _, Err "not JSON".
#[local] Instance ascii_nfc : UnicodeNfc := id.
#[local] Instance no_params : ParamsJson := λ _, Ok "{}".

(** A policy with one verdict. *)
Inductive SamplePolicy := Always (v : PolicyVerdict).

#[local] Instance sample_policy : PolicyEvaluation SamplePolicy := {|
  evaluate_verdict '(Always v) _ _ _ _ := Ok v;
  is_fresh _ _ := true;
  is_available _ := true;
  version _ := Some "v1";
|}.

Definition sample_rules : MappingTable :=
  {| rules := [compile_rule (sample_rule (Some "GET") "api.github.com" None "code.read")] |}.

Definition sample_generation (v : PolicyVerdict) : RuntimeSnapshot SamplePolicy :=
  {| rt_policy := Always v; rt_normalizer := normalizer_new sample_rules; rt_ttl_seconds := 60;
     rt_version := Some "v1" |}.

Definition sample_pipeline (v : PolicyVerdict)
    : EnforcementPipeline (P := SamplePolicy) (Q := SamplePolicy) :=
  {| constraint_enforcer := Always VDeny; pl_normalizer := normalizer_new empty_protected;
     stage2_timeout := Some 1000000000%Z;
     runtime_snapshot := Some (from_snapshot 0 (sample_generation v)) |}.

Definition sample_state : PipelineState (St := LruSessionStateStore) :=
  {| capability_validator := sample_validator; session_state_store := lru_session_new 4 |}.

Definition sample_arrival : Arrival :=
  {| ar_readiness := all_ready; ar_now := 10; ar_timestamp := 7; ar_latency := 1000 |}.

Definition sample_credentials : InjectedCredentials :=
  {| cred_headers := {[ "authorization" := "Bearer k" ]} |}.

Definition sample_moment : Moment (St := LruSessionStateStore) :=
  {| at_readiness := all_ready; at_validate := 50; at_stage2 := 20; at_task := Completed;
     at_inject := λ _ _ _, Ok sample_credentials; at_latency := 5000; at_final := 30;
     race_signals := id; race_outcome := id; race_provenance := id |}.

Definition sample_request : RawRequest :=
  {| rq_method := "GET"; rq_host := "api.github.com"; rq_path := "/repos/x?token=s3cret";
     rq_headers := []; rq_body := None; rq_is_https := true |}.

Definition sample_enforce (v : PolicyVerdict) :=
  enforce (sample_pipeline v) sample_arrival sample_moment sample_state sample_request "s".

Example sample_allowed :
  let '((d, payload), st) := sample_enforce VAllow in
  (is_allow d, ap_decision payload, ap_agent_id payload, ap_resource payload,
   rs_action_count (signals (session_state_store st) "s"))
  = (true, DAllow, "alice", "api.github.com/repos/x?token=[REDACTED]", 1%Z).
Proof. vm_compute. reflexivity. Qed.

Lemma sample_rs_ok : rs_ok (revocation (capability_validator sample_state)).
Proof. apply bloom_new_ok. Qed.

Lemma enforce_complete_mediation_witness :
  let d := fst (fst (sample_enforce VAllow)) in
  is_allow d = true ∧
  ∃ env, normalize (normalizer_new sample_rules) 7 sample_request = Ok env ∧
    admitted_through (sample_pipeline VAllow)
      (into_published 0 (sample_generation VAllow)) sample_moment sample_state env "s" d.
Proof.
  split; [vm_compute; reflexivity|].
  destruct (enforce_complete_mediation (sample_pipeline VAllow) sample_arrival sample_moment
              sample_state sample_request "s" sample_rs_ok) as (_ & _ & _ & env & Hn & Ha).
  - vm_compute. exact I.
  - exists env. exact (conj Hn Ha).
Defined.

(** The classified form of the request. *)
Definition sample_classified : NormalizedEnvelope :=
  match normalize (normalizer_new sample_rules) 7 sample_request with
  | Ok env => env
  | Err _ => sample_envelope
  end.

Definition sample_capability : ValidatedCapability :=
  {| vc_raw_token := "raw-1"; vc_claims := sample_claims "alice" "tok-1" |}.

Lemma enforce_admits_good_witness :
  ∃ envelope, fst (fst (sample_enforce (VModify (RedactHeader "x-token"))))
    = Modify (sample_claims "alice" "tok-1") envelope (RedactHeader "x-token")
        sample_credentials.
Proof.
  destruct (enforce_admits_good (sample_pipeline (VModify (RedactHeader "x-token")))
      sample_arrival sample_moment sample_state sample_request "s"
      (into_published 0 (sample_generation (VModify (RedactHeader "x-token"))))
      sample_classified sample_capability (Some (RedactHeader "x-token")))
    as (envelope & _ & _ & _ & Hd);
    [reflexivity|reflexivity|vm_compute; reflexivity|vm_compute; reflexivity|reflexivity
    |vm_compute; reflexivity|vm_compute; reflexivity|vm_compute; reflexivity|].
  exists envelope. exact Hd.
Defined.

Definition sample_pin (v : PolicyVerdict) : PublishedSnapshot SamplePolicy :=
  into_published 0 (sample_generation v).

Lemma enforce_session_effect_witness :
  ∃ env cap o d payload st',
    enforce (sample_pipeline VAllow) sample_arrival sample_moment sample_state sample_request "s"
      = ((d, payload), st') ∧
    outcome_of_decision d o ∧
    session_state_store st'
    = session_run (session_state_store sample_state) (request_ops env (vc_claims cap) o).
Proof.
  pose proof (enforce_session_effect (sample_pipeline VAllow) sample_arrival sample_moment
    sample_state sample_request "s" (λ _, conj eq_refl (conj eq_refl eq_refl))) as H.
  assert (is_deny (fst (fst (enforce (sample_pipeline VAllow) sample_arrival sample_moment
    sample_state sample_request "s"))) = false) as Hn by (vm_compute; reflexivity).
  destruct (enforce _ _ _ _ _ _) as [[d payload] st'] eqn:E. simpl in Hn.
  destruct H as [(Hd & _ & _)|(env & cap & o & _ & _ & [Ho|(_ & _ & Hd)] & Hs)].
  - rewrite Hn in Hd. discriminate.
  - exists env, cap, o, d, payload, st'. exact (conj eq_refl (conj Ho Hs)).
  - rewrite Hn in Hd. discriminate.
Defined.

(** Another request of the session is counted in between. *)
Definition racing_moment : Moment (St := LruSessionStateStore) :=
  {| at_readiness := all_ready; at_validate := 50; at_stage2 := 20; at_task := Completed;
     at_inject := λ _ _ _, Err (UnknownConnector "api.github.com"); at_latency := 5000;
     at_final := 30; race_signals := λ s, snd (record_action s "s"); race_outcome := id;
     race_provenance := id |}.

Lemma policy_sees_own_count_witness :
  ∃ cap (ctx : gmap string Json),
    verify (vc_raw_token cap) = Ok (vc_claims cap) ∧
    ctx !! "action_count" = Some (JInt (i64_of_unsigned (sat_add_u64
      (action_count (record_of (lru_session_new 4) (session_id (vc_claims cap)))) 1))).
Proof.
  destruct (policy_sees_own_count (sample_pipeline VAllow) (sample_pin VAllow) racing_moment
    sample_state sample_envelope "s" sample_rs_ok) as (cap & ctx & v & Hv & _ & _ & Hc).
  - reflexivity.
  - vm_compute. exact I.
  - exists cap, ctx. exact (conj Hv Hc).
Defined.

Definition sample_action : ComposioAction :=
  {| ca_envelope := sample_envelope;
     ca_context := {| cc_toolkit := "github"; cc_tool_slug := "GITHUB_GET_REPO";
                      cc_user_id := None; cc_connected_account_id := None;
                      cc_session_id := None; cc_batch_index := None; cc_batch_size := None |} |}.

Definition sample_batch (v : PolicyVerdict) : CompositeEnforcement :=
  fst (enforce_composite (sample_pipeline v) sample_arrival sample_state sample_request "s"
         [(sample_action, sample_moment); (sample_action, sample_moment)]).

Lemma composite_atomic_witness :
  ∃ envelope credentials,
    disposition (sample_batch VAllow) = Dispatch envelope credentials ∧
    Forall2 (child_dispatched (sample_pipeline VAllow) "s" credentials)
      [(sample_action, sample_moment); (sample_action, sample_moment)]
      (children (sample_batch VAllow)).
Proof.
  pose proof (composite_atomic (sample_pipeline VAllow) sample_arrival sample_state
    sample_request "s" [(sample_action, sample_moment); (sample_action, sample_moment)]
    sample_rs_ok) as H.
  cbv zeta in H. unfold sample_batch.
  destruct (disposition (fst (enforce_composite _ _ _ _ _ _))) as [envelope credentials|i] eqn:E;
    [|vm_compute in E; discriminate].
  exists envelope, credentials. split; [reflexivity|]. apply H.
Defined.

(** Credentials that differ between the actions block the batch. *)
Example sample_batch_disagrees :
  let r := fst (enforce_composite (sample_pipeline VAllow) sample_arrival sample_state
                  sample_request "s"
                  [(sample_action, sample_moment); (sample_action, racing_moment)]) in
  (disposition r, ap_decision ∘ cr_audit_payload <$> children r)
  = (Block 0, [DAbort; DAbort]).
Proof. vm_compute. reflexivity. Qed.

Definition modified_child : CompositeActionResult :=
  let '((d, payload), _) := sample_enforce (VModify (RedactHeader "x-token")) in
  {| cr_decision := d; cr_audit_payload := payload |}.

Lemma composite_blocked_modify_kept_witness :
  (∃ j, disposition (composite_disposition [modified_child]) = Block j) ∧
  ap_decision (cr_audit_payload modified_child) = DModify ∧
  children (composite_disposition [modified_child]) !! 0 = Some modified_child.
Proof.
  destruct (composite_blocked_modify_kept [modified_child] 0 modified_child) as [Hj Hc].
  - repeat constructor.
  - reflexivity.
  - vm_compute. reflexivity.
  - exact (conj Hj (conj (eq_refl DModify <: ap_decision (cr_audit_payload modified_child) = DModify) Hc)).
Defined.

Lemma composio_passthrough_admitted_witness :
  let '(d, _) := composio_passthrough (sample_pipeline VDeny) sample_arrival 40 41
                   sample_request "s" in
  d = Passthrough "recognized Composio non-execution request" ∧
  is_fresh (sample_pin VDeny) 40 = true.
Proof.
  pose proof (composio_passthrough_admitted (sample_pipeline VDeny) sample_arrival 40 41
    sample_request "s" ltac:(lia)) as H.
  assert (fst (composio_passthrough (sample_pipeline VDeny) sample_arrival 40 41
    sample_request "s") = Passthrough "recognized Composio non-execution request") as Hd
    by (vm_compute; reflexivity).
  destruct (composio_passthrough _ _ _ _ _ _) as [d payload]. simpl in Hd.
  split; [exact Hd|]. destruct H as [_ H].
  destruct (H ltac:(by rewrite Hd) (sample_pin VDeny) eq_refl) as (_ & _ & Hf & _). exact Hf.
Defined.
End Samples.
