(* ===== verification/SecretRewrite.v ===== *)
(** * Secret rewriting ([secret_rewrite.rs], [collect_placeholders])

    The rewriter of request and response bodies: which content type a body
    has, where a secret's value or a placeholder token lies in it, and the
    substitution at given byte ranges.  A body is the list of its bytes, a
    [Range<usize>] a pair of offsets.  Slicing out of range panics in the code
    and is [None] here.

    The [json-escape], [quick-xml], [form_urlencoded], [serde_json], [mime] and
    [type-safe-id] crates are parameters. *)

From stdpp Require Import sorting.
From S2P Require Import Prelude RustStr.

#[local] Open Scope string_scope.
#[local] Open Scope nat_scope.
#[local] Open Scope list_scope.

Abbreviation Bytes := (list ascii).

Record Range := mk_range { range_start : nat; range_end : nat }.

Definition range_zero : Range := mk_range 0 0.
#[export] Instance range_inhabited : Inhabited Range := populate range_zero.
#[export] Instance range_eq_dec : EqDecision Range.
Proof. solve_decision. Defined.

Definition bytes_of (s : string) : Bytes := String.list_ascii_of_string s.
Definition string_of (b : Bytes) : string := String.string_of_list_ascii b.

(** [&body[s..e]]. *)
Definition slice (b : Bytes) (s e : nat) : option Bytes :=
  if bool_decide (s ≤ e ∧ e ≤ length b) then Some (take (e - s) (drop s b)) else None.

(** [window h p n] is [h[p..p + n]] where the caller has checked the bounds. *)
Definition window (h : Bytes) (p n : nat) : Bytes := take n (drop p h).

Definition dquote : ascii := "034"%char.
Definition backslash : ascii := "092"%char.

Definition byte_at (b : Bytes) (i : nat) (c : ascii) : bool := bool_decide (b !! i = Some c).

(** ** Content types *)

Inductive ContentType := CtJson | CtFormEncoded | CtXml | CtRaw.

#[export] Instance content_type_eq_dec : EqDecision ContentType.
Proof. solve_decision. Defined.

(** A parsed [headers::ContentType]: type, subtype and suffix of its [Mime]. *)
Record Mime := { mime_type : string; mime_subtype : string; mime_suffix : option string }.

(** [ContentType::from_header]. *)
Definition ct_from_header (header : option Mime) : Result (option ContentType) unit :=
  match header with
  | None => Ok None
  | Some m =>
      let app := bool_decide (mime_type m = "application") in
      let txt := bool_decide (mime_type m = "text") in
      let sub s := bool_decide (mime_subtype m = s) in
      let suf s := bool_decide (mime_suffix m = Some s) in
      if (app && sub "json") || suf "json" then Ok (Some CtJson)
      else if app && sub "x-www-form-urlencoded" then Ok (Some CtFormEncoded)
      else if ((app || txt) && sub "xml") || (app && suf "xml") then Ok (Some CtXml)
      else if txt || (app && sub "octet-stream") then Ok (Some CtRaw)
      else Err tt
  end.

(** [ContentType::sniff]. *)
Definition ct_sniff (body : Bytes) : Result ContentType unit :=
  match head (filter (λ b, is_ascii_whitespace b = false) body) with
  | Some "{"%char | Some "["%char => Ok CtJson
  | Some "<"%char => Ok CtXml
  | _ => if bool_decide ("="%char ∈ body) then Ok CtFormEncoded else Err tt
  end.

(** [ContentType::resolve]. *)
Definition ct_resolve (header : option Mime) (body : Bytes) : Result ContentType unit :=
  let? ct := ct_from_header header in
  match ct with Some c => Ok c | None => ct_sniff body end.

(** ** Substitution *)

Record RehydrateOp := { ro_range : Range; ro_secret : string }.

Record MaskOp := { mo_range : Range; mo_placeholder : string }.

(** The loop of [mask_body] and of [apply_ops]: [cursor] is the end of what is
    copied; each edit is its range and the bytes put there. *)
Fixpoint splice (body : Bytes) (cursor : nat) (edits : list (Range * Bytes)) : option Bytes :=
  match edits with
  | [] => slice body cursor (length body)
  | (r, text) :: edits =>
      gap ← slice body cursor (range_start r);
      rest ← splice body (range_end r) edits;
      Some (gap ++ text ++ rest)
  end.

(** [mask_body]. *)
Definition mask_body (body : Bytes) (ops : list MaskOp) : option Bytes :=
  splice body 0 ((λ op, (mo_range op, bytes_of (mo_placeholder op))) <$> ops).

(** [apply_ops]. *)
Definition apply_ops (body : Bytes) (ops : list RehydrateOp)
    (encode : string → ContentType → string) (ct : ContentType) : option Bytes :=
  splice body 0 ((λ op, (ro_range op, bytes_of (encode (ro_secret op) ct))) <$> ops).

(** ** Word-bounded search *)

(** [is_word_byte]. *)
Definition is_word_byte (b : ascii) : bool :=
  is_ascii_alphanumeric b || bool_decide (b = "-"%char) || bool_decide (b = "_"%char).

Definition word_at (h : Bytes) (i : nat) : bool :=
  match h !! i with Some b => is_word_byte b | None => false end.

(** The test of one position: the window, [left_ok] and [right_ok]. *)
Definition bounded_match (h needle : Bytes) (pos : nat) : bool :=
  bool_decide (window h pos (length needle) = needle) &&
  (Nat.eqb pos 0 || negb (word_at h (pos - 1))) &&
  (Nat.eqb (pos + length needle) (length h) || negb (word_at h (pos + length needle))).

Fixpoint word_bounded_loop (fuel : nat) (h needle : Bytes) (pos : nat) : list Range :=
  match fuel with
  | O => []
  | S fuel =>
      if bool_decide (pos + length needle ≤ length h) then
        if bounded_match h needle pos then
          mk_range pos (pos + length needle)
            :: word_bounded_loop fuel h needle (pos + length needle)
        else word_bounded_loop fuel h needle (S pos)
      else []
  end.

(** [find_word_bounded_spans]. *)
Definition find_word_bounded_spans (h needle : Bytes) : list Range :=
  match needle with [] => [] | _ => word_bounded_loop (S (length h)) h needle 0 end.

Definition shift_range (k : nat) (r : Range) : Range :=
  mk_range (k + range_start r) (k + range_end r).

(** ** Decoded content *)

Record DecodedContent := { decoded : Bytes; raw : list Range }.

Definition dc_empty : DecodedContent := {| decoded := []; raw := [] |}.

(** [DecodedContent::push], and a run of bytes with one raw range. *)
Definition dc_push (d : DecodedContent) (b : ascii) (r : Range) : DecodedContent :=
  {| decoded := decoded d ++ [b]; raw := raw d ++ [r] |}.

Definition dc_push_all (d : DecodedContent) (bs : Bytes) (r : Range) : DecodedContent :=
  fold_left (λ d b, dc_push d b r) bs d.

(** [DecodedContent::find_word_bounded_raw_spans]; [raw_index_in_range] shows
    that neither index is out of range. *)
Definition find_word_bounded_raw_spans (d : DecodedContent) (secret : Bytes) : list Range :=
  (λ span, mk_range (range_start (raw d !!! range_start span))
                    (range_end (raw d !!! (range_end span - 1))))
  <$> find_word_bounded_spans (decoded d) secret.

(** *** JSON string contents *)

Inductive UnescapedToken :=
| Literal (bytes : Bytes)
| Unescaped (ch : Bytes).

(** [json_escape::token::unescape]: each item a token or an error; a [char] is
    its UTF-8 encoding. *)
Class JsonUnescape := json_unescape : Bytes → list (Result UnescapedToken unit).

(** The raw length of the escape of [ch] at [cursor]. *)
Definition json_escape_len (content : Bytes) (cursor : nat) (ch : Bytes) : nat :=
  if Nat.eqb (length ch) 4 then 12
  else if byte_at content (cursor + 1) "u"%char then 6
  else 2.

(** A literal run decodes to itself. *)
Fixpoint dc_push_literal (d : DecodedContent) (bs : Bytes) (cursor : nat) : DecodedContent :=
  match bs with
  | [] => d
  | b :: bs => dc_push_literal (dc_push d b (mk_range cursor (cursor + 1))) bs (S cursor)
  end.

Fixpoint decode_json_tokens (content : Bytes) (tokens : list (Result UnescapedToken unit))
    (cursor : nat) (out : DecodedContent) : option DecodedContent :=
  match tokens with
  | [] => Some out
  | Err _ :: _ => None
  | Ok (Literal l) :: tokens =>
      decode_json_tokens content tokens (cursor + length l) (dc_push_literal out l cursor)
  | Ok (Unescaped ch) :: tokens =>
      let n := json_escape_len content cursor ch in
      decode_json_tokens content tokens (cursor + n)
        (dc_push_all out ch (mk_range cursor (cursor + n)))
  end.

Section Decoders.
Context {JU : JsonUnescape}.

(** [decode_json_content]. *)
Definition decode_json_content (content : Bytes) : option DecodedContent :=
  decode_json_tokens content (json_unescape content) 0 dc_empty.

(** The inner loop of [find_json_string_spans]: the end and [has_escape]. *)
Fixpoint json_literal_end (fuel : nat) (body : Bytes) (j : nat) (has_escape : bool) : nat * bool :=
  match fuel with
  | O => (j, has_escape)
  | S fuel =>
      match body !! j with
      | None => (j, has_escape)
      | Some b =>
          if bool_decide (b = dquote) then (j, has_escape)
          else if bool_decide (b = backslash) then
            json_literal_end fuel body (j + if byte_at body (j + 1) "u"%char then 6 else 2) true
          else json_literal_end fuel body (j + 1) has_escape
      end
  end.

(** The spans of one literal's content. *)
Definition json_content_spans (content secret : Bytes) (has_escape : bool) : list Range :=
  if has_escape then
    match decode_json_content content with
    | Some d => find_word_bounded_raw_spans d secret
    | None => []
    end
  else find_word_bounded_spans content secret.

Fixpoint json_spans_loop (fuel : nat) (body secret : Bytes) (i : nat) : list Range :=
  match fuel with
  | O => []
  | S fuel =>
      match body !! i with
      | None => []
      | Some b =>
          if bool_decide (b = dquote) then
            let '(j, has_escape) := json_literal_end (S (length body)) body (i + 1) false in
            let content_end := Nat.min j (length body) in
            (if byte_at body content_end dquote then
               shift_range (i + 1) <$>
                 json_content_spans (window body (i + 1) (content_end - (i + 1))) secret has_escape
             else [])
            ++ json_spans_loop fuel body secret (content_end + 1)
          else json_spans_loop fuel body secret (i + 1)
      end
  end.

(** [find_json_string_spans]. *)
Definition find_json_string_spans (body secret : Bytes) : list Range :=
  json_spans_loop (S (length body)) body secret 0.

End Decoders.

(** *** Form values *)

(** [hex_digit]. *)
Definition form_hex_digit (b : option ascii) : option Z :=
  match b with
  | Some b =>
      if in_range 48 57 b then Some (byte b - 48)%Z
      else if in_range 97 102 b then Some (byte b - 97 + 10)%Z
      else if in_range 65 70 b then Some (byte b - 65 + 10)%Z
      else None
  | None => None
  end.

#[global] Arguments form_hex_digit _ : simpl never.

(** [hi << 4 | lo] of two hexadecimal digits. *)
Definition hex_byte (hi lo : Z) : ascii :=
  Ascii.ascii_of_N (Z.to_N (Z.lor (Z.shiftl hi 4) lo)).

Fixpoint decode_form_loop (fuel : nat) (value : Bytes) (i : nat) (out : DecodedContent)
    : DecodedContent :=
  match fuel with
  | O => out
  | S fuel =>
      match value !! i with
      | None => out
      | Some b =>
          if bool_decide (b = "+"%char) then
            decode_form_loop fuel value (i + 1) (dc_push out " "%char (mk_range i (i + 1)))
          else if bool_decide (b = "%"%char) then
            match form_hex_digit (value !! (i + 1)), form_hex_digit (value !! (i + 2)) with
            | Some hi, Some lo =>
                decode_form_loop fuel value (i + 3)
                  (dc_push out (hex_byte hi lo) (mk_range i (i + 3)))
            | _, _ =>
                decode_form_loop fuel value (i + 1) (dc_push out "%"%char (mk_range i (i + 1)))
            end
          else decode_form_loop fuel value (i + 1) (dc_push out b (mk_range i (i + 1)))
      end
  end.

(** [decode_form_content]. *)
Definition decode_form_content (value : Bytes) : DecodedContent :=
  decode_form_loop (S (length value)) value 0 dc_empty.

(** [slice::split(|b| b == sep)]. *)
Fixpoint split_bytes (sep : ascii) (b : Bytes) : list Bytes :=
  match b with
  | [] => [[]]
  | c :: b =>
      if bool_decide (c = sep) then [] :: split_bytes sep b
      else match split_bytes sep b with
           | w :: ws => (c :: w) :: ws
           | [] => [[c]]
           end
  end.

Definition form_value_start (kv : Bytes) : nat :=
  match position (λ b, bool_decide (b = "="%char)) kv with Some p => p + 1 | None => 0 end.

(** The spans of one form value. *)
Definition form_content_spans (value secret : Bytes) : list Range :=
  if bool_decide ("%"%char ∈ value) || bool_decide ("+"%char ∈ value)
  then find_word_bounded_raw_spans (decode_form_content value) secret
  else find_word_bounded_spans value secret.

Fixpoint form_spans_loop (pairs : list Bytes) (secret : Bytes) (offset : nat) : list Range :=
  match pairs with
  | [] => []
  | kv :: pairs =>
      let value_start := form_value_start kv in
      (shift_range (offset + value_start) <$>
         form_content_spans (drop value_start kv) secret)
      ++ form_spans_loop pairs secret (offset + length kv + 1)
  end.

(** [find_form_value_spans]. *)
Definition find_form_value_spans (body secret : Bytes) : list Range :=
  form_spans_loop (split_bytes "&"%char body) secret 0.

(** *** XML text and attributes *)

(** [quick_xml::escape::unescape] on a reference, as the UTF-8 bytes of the
    characters it decodes to; [None] when it fails. *)
Class QuickXml := {
  xml_unescape : string → option (list Bytes);
  quick_xml_escape : string → string;
}.

(** [serde_json::to_string] of a string; [form_urlencoded::byte_serialize]. *)
Class SecretEncoders := {
  serde_json_to_string : string → Result string string;
  byte_serialize : string → string;
}.

Definition is_byte (c : ascii) (b : ascii) : bool := bool_decide (b = c).

Section Finders.
Context {JU : JsonUnescape} {QX : QuickXml} {SE : SecretEncoders}.

Fixpoint decode_xml_loop (fuel : nat) (content : Bytes) (i : nat) (out : DecodedContent)
    : DecodedContent :=
  match fuel with
  | O => out
  | S fuel =>
      match content !! i with
      | None => out
      | Some b =>
          let literal := decode_xml_loop fuel content (i + 1) (dc_push out b (mk_range i (i + 1))) in
          if is_byte "&"%char b then
            match position (is_byte ";"%char) (drop (i + 1) content) with
            | None => literal
            | Some rel_end =>
                let entity_end := i + 1 + rel_end in
                let entity := string_of (window content i (entity_end + 1 - i)) in
                match (if utf8_valid entity then xml_unescape entity else None) with
                | Some [ch] =>
                    decode_xml_loop fuel content (entity_end + 1)
                      (dc_push_all out ch (mk_range i (entity_end + 1)))
                | _ => literal
                end
            end
          else literal
      end
  end.

(** [decode_xml_content]. *)
Definition decode_xml_content (content : Bytes) : DecodedContent :=
  decode_xml_loop (S (length content)) content 0 dc_empty.

(** The spans of one text node or attribute value. *)
Definition xml_content_spans (content secret : Bytes) : list Range :=
  if bool_decide ("&"%char ∈ content)
  then find_word_bounded_raw_spans (decode_xml_content content) secret
  else find_word_bounded_spans content secret.

Fixpoint xml_attribute_loop (fuel : nat) (tag secret : Bytes) (offset i : nat) : list Range :=
  match fuel with
  | O => []
  | S fuel =>
      match tag !! i with
      | None => []
      | Some q =>
          if is_byte dquote q || is_byte "039"%char q then
            let content_start := i + 1 in
            match position (is_byte q) (drop content_start tag) with
            | None => []
            | Some rel_end =>
                (shift_range (offset + content_start) <$>
                   xml_content_spans (window tag content_start rel_end) secret)
                ++ xml_attribute_loop fuel tag secret offset (content_start + rel_end + 1)
            end
          else xml_attribute_loop fuel tag secret offset (i + 1)
      end
  end.

(** [find_xml_attribute_spans]. *)
Definition find_xml_attribute_spans (tag secret : Bytes) (offset : nat) : list Range :=
  xml_attribute_loop (S (length tag)) tag secret offset 0.

Fixpoint xml_text_loop (fuel : nat) (body secret : Bytes) (i : nat) : list Range :=
  match fuel with
  | O => []
  | S fuel =>
      match body !! i with
      | None => []
      | Some b =>
          if is_byte "<"%char b then
            match position (is_byte ">"%char) (drop i body) with
            | None => []
            | Some rel =>
                find_xml_attribute_spans (window body i (rel + 1)) secret i
                ++ xml_text_loop fuel body secret (i + rel + 1)
            end
          else
            let text_end :=
              match position (is_byte "<"%char) (drop i body) with
              | Some p => i + p
              | None => length body
              end in
            (shift_range i <$> xml_content_spans (window body i (text_end - i)) secret)
            ++ xml_text_loop fuel body secret text_end
      end
  end.

(** [find_xml_text_spans]. *)
Definition find_xml_text_spans (body secret : Bytes) : list Range :=
  xml_text_loop (S (length body)) body secret 0.

(** The [Raw] branch: every window equal to the secret. *)
Definition find_raw_spans (body secret : Bytes) : list Range :=
  match secret with
  | [] => []
  | _ =>
      (λ s, mk_range s (s + length secret)) <$>
        filter (λ s, window body s (length secret) = secret)
               (seq 0 (length body + 1 - length secret))
  end.

(** [find_decoded_secret_spans]. *)
Definition find_decoded_secret_spans (body : Bytes) (ct : ContentType) (secret : string)
    : list Range :=
  match ct with
  | CtJson => find_json_string_spans body (bytes_of secret)
  | CtFormEncoded => find_form_value_spans body (bytes_of secret)
  | CtXml => find_xml_text_spans body (bytes_of secret)
  | CtRaw => find_raw_spans body (bytes_of secret)
  end.

(** ** Encoding *)

(** [json_escape]. *)
Definition json_escape (input : string) : string :=
  let quoted := default "" (result_ok (serde_json_to_string input)) in
  default "" (strip_prefix (String dquote "") quoted ≫= strip_suffix (String dquote "")).

(** [form_encode] and [xml_escape]. *)
Definition form_encode (input : string) : string := byte_serialize input.
Definition xml_escape (input : string) : string := quick_xml_escape input.

(** [encode_secret]. *)
Definition encode_secret (secret : string) (ct : ContentType) : string :=
  match ct with
  | CtJson => json_escape secret
  | CtFormEncoded => form_encode secret
  | CtXml => xml_escape secret
  | CtRaw => secret
  end.

(** [rehydrate_body]. *)
Definition rehydrate_body (body : Bytes) (ct : ContentType) (ops : list RehydrateOp)
    : option Bytes := apply_ops body ops encode_secret ct.

End Finders.

(** ** Placeholders *)

Definition PLACEHOLDER_PREFIX : string := "fsp_".
Definition PLACEHOLDER_SUFFIX_LEN : nat := 26.

(** [SecretPlaceholder::from_str]: [true] when the token parses.  A placeholder
    is its canonical text. *)
Class PlaceholderParse := placeholder_parses : string → bool.

(** A token is the prefix and 26 alphanumeric characters. *)
Class PlaceholderLaws (PP : PlaceholderParse) := {
  placeholder_shape : ∀ s, placeholder_parses s = true →
    ∃ suffix, s = PLACEHOLDER_PREFIX +:+ suffix ∧
      String.length suffix = PLACEHOLDER_SUFFIX_LEN ∧
      str_forallb is_ascii_alphanumeric suffix = true;
}.

Definition prefix_bytes : Bytes := bytes_of PLACEHOLDER_PREFIX.

(** The end of the alphanumeric run from [i]. *)
Fixpoint alnum_run (b : Bytes) : nat :=
  match b with
  | c :: b => if is_ascii_alphanumeric c then S (alnum_run b) else 0
  | [] => 0
  end.

Section Placeholders.
Context {PP : PlaceholderParse}.

(** [(lo..=hi).rev().find_map(..)]: [n] candidates are left, the next ends at
    [lo + n - 1]. *)
Fixpoint candidate_end (body : Bytes) (i lo n : nat) : option (string * nat) :=
  match n with
  | O => None
  | S n =>
      let token := string_of (window body i (lo + n - i)) in
      if utf8_valid token && placeholder_parses token then Some (token, lo + n)
      else candidate_end body i lo n
  end.

Fixpoint collect_loop (fuel : nat) (body : Bytes) (i : nat) (result : list string)
    : list string :=
  match fuel with
  | O => result
  | S fuel =>
      if bool_decide (i + length prefix_bytes ≤ length body) then
        if bool_decide (window body i (length prefix_bytes) = prefix_bytes) then
          let path_start := i + length prefix_bytes in
          let run_end := path_start + alnum_run (drop path_start body) in
          let max_candidate_end := Nat.min run_end (path_start + PLACEHOLDER_SUFFIX_LEN) in
          match candidate_end body i path_start (S (max_candidate_end - path_start)) with
          | Some (placeholder, consumed_end) =>
              collect_loop fuel body consumed_end
                (if bool_decide (placeholder ∈ result) then result else result ++ [placeholder])
          | None => collect_loop fuel body (i + 1) result
          end
        else collect_loop fuel body (i + 1) result
      else result
  end.

(** [collect_placeholders]. *)
Definition collect_placeholders (body : Bytes) : list string :=
  collect_loop (S (length body)) body 0 [].

End Placeholders.

(** ** Facts: bytes and windows *)

Lemma string_of_bytes_of s : string_of (bytes_of s) = s.
Proof. apply String.string_of_list_ascii_of_string. Qed.

Lemma bytes_of_string_of b : bytes_of (string_of b) = b.
Proof. apply String.list_ascii_of_string_of_list_ascii. Qed.

Lemma length_bytes_of s : length (bytes_of s) = String.length s.
Proof. induction s as [|a s IH]; [done|]. cbn. by f_equal. Qed.

Lemma bytes_of_app s t : bytes_of (s +:+ t) = bytes_of s ++ bytes_of t.
Proof. induction s as [|a s IH]; [done|]. cbn. by f_equal. Qed.

Lemma length_window h p n : length (window h p n) = Nat.min n (length h - p).
Proof. unfold window. rewrite length_take, length_drop. done. Qed.

Lemma window_lookup h p n i : i < n → window h p n !! i = h !! (p + i).
Proof. intros Hi. unfold window. by rewrite lookup_take_lt, lookup_drop by lia. Qed.

Lemma window_app_mid pre w post n :
  n = length w → window (pre ++ w ++ post) (length pre) n = w.
Proof. intros ->. unfold window. by rewrite drop_app_length, take_app_length. Qed.

Lemma slice_some b s e :
  s ≤ e → e ≤ length b → slice b s e = Some (take (e - s) (drop s b)).
Proof. intros. unfold slice. by rewrite bool_decide_eq_true_2. Qed.

Lemma position_lt {A} (f : A → bool) l i : position f l = Some i → i < length l.
Proof. intros H. apply position_Some in H as [[x [Hx _]] _]. by eapply lookup_lt_Some. Qed.

(** ** Facts: spans *)

Definition span_ok (n : nat) (r : Range) : Prop :=
  range_start r < range_end r ∧ range_end r ≤ n.

Definition spans_ok (n : nat) (l : list Range) : Prop := Forall (span_ok n) l.

Lemma spans_ok_weaken n m l : n ≤ m → spans_ok n l → spans_ok m l.
Proof. intros Hnm H. eapply Forall_impl; [exact H|]. unfold span_ok. intros; lia. Qed.

Lemma spans_ok_shift k n l : spans_ok n l → spans_ok (k + n) (shift_range k <$> l).
Proof.
  unfold spans_ok. rewrite Forall_fmap. intros H. eapply Forall_impl; [exact H|].
  intros [s e]. unfold span_ok. cbn. lia.
Qed.

(** Spans of a piece of the body, moved to where the piece lies. *)
Lemma spans_ok_piece k n m l :
  spans_ok n l → k + n ≤ m → spans_ok m (shift_range k <$> l).
Proof. intros H Hm. eapply spans_ok_weaken; [exact Hm|]. by apply spans_ok_shift. Qed.

Lemma word_bounded_sound fuel h needle pos r :
  r ∈ word_bounded_loop fuel h needle pos →
  pos ≤ range_start r ∧ range_end r = range_start r + length needle ∧
  range_end r ≤ length h ∧ bounded_match h needle (range_start r) = true.
Proof.
  revert pos. induction fuel as [|fuel IH]; intros pos; simpl; [by intros ?%elem_of_nil|].
  case_bool_decide as Hp; [|by intros ?%elem_of_nil].
  destruct (bounded_match h needle pos) eqn:E.
  - rewrite elem_of_cons. intros [->|Hr]; simpl; [split_and!; [lia..|done]|].
    apply IH in Hr. intuition lia.
  - intros Hr. apply IH in Hr. intuition lia.
Qed.

Lemma word_bounded_complete fuel h needle pos p :
  needle ≠ [] → length h < pos + fuel → pos ≤ p → p + length needle ≤ length h →
  bounded_match h needle p = true →
  ∃ r, r ∈ word_bounded_loop fuel h needle pos ∧ range_start r ≤ p < range_end r.
Proof.
  intros Hn. assert (0 < length needle) by (destruct needle; simpl; [done|lia]).
  revert pos. induction fuel as [|fuel IH]; intros pos Hf Hp Hb Hm; [lia|]. simpl.
  rewrite bool_decide_eq_true_2 by lia.
  destruct (bounded_match h needle pos) eqn:E.
  - destruct (decide (p < pos + length needle)).
    + exists (mk_range pos (pos + length needle)). simpl. split; [left|lia].
    + destruct (IH (pos + length needle)) as (r & Hr & ?); [lia..|done|].
      exists r. split; [by right|lia].
  - destruct (decide (p = pos)) as [->|]; [congruence|].
    apply (IH (S pos)); [lia..|done].
Qed.

(** Occurrences are reported: each word-bounded occurrence starts inside a span. *)
Lemma find_word_bounded_complete h needle p :
  needle ≠ [] → p + length needle ≤ length h → bounded_match h needle p = true →
  ∃ r, r ∈ find_word_bounded_spans h needle ∧ range_start r ≤ p < range_end r.
Proof.
  intros Hn Hp Hm. unfold find_word_bounded_spans. destruct needle; [done|].
  apply word_bounded_complete; [done|lia..|done].
Qed.

Lemma find_word_bounded_spec h needle r :
  r ∈ find_word_bounded_spans h needle →
  range_start r < range_end r ∧ range_end r ≤ length h ∧
  range_end r = range_start r + length needle ∧ bounded_match h needle (range_start r) = true.
Proof.
  unfold find_word_bounded_spans. destruct needle as [|c needle]; [by intros ?%elem_of_nil|].
  intros Hr. apply word_bounded_sound in Hr. simpl in *. intuition lia.
Qed.

Lemma find_word_bounded_ok h needle : spans_ok (length h) (find_word_bounded_spans h needle).
Proof.
  apply Forall_forall. intros r Hr. apply find_word_bounded_spec in Hr. split; tauto.
Qed.

Lemma find_word_bounded_self s :
  s ≠ [] → find_word_bounded_spans s s = [mk_range 0 (length s)].
Proof.
  intros Hs. destruct s as [|c s]; [done|]. set (n := c :: s).
  unfold find_word_bounded_spans. unfold n at 1. cbn [word_bounded_loop].
  rewrite bool_decide_eq_true_2 by lia.
  assert (bounded_match n n 0 = true) as ->.
  { unfold bounded_match, window. rewrite drop_0, take_ge by lia.
    rewrite bool_decide_eq_true_2 by done. rewrite !Nat.add_0_l, !Nat.eqb_refl. done. }
  f_equal. destruct (length n) as [|m] eqn:Hm; [done|].
  cbn [word_bounded_loop]. rewrite bool_decide_eq_false_2; [done|lia].
Qed.

(** ** Facts: decoded content *)

(** Every decoded byte has a raw range; the ranges are not empty, start in
    order, at [lo] at the latest, and end at [hi] at the latest. *)
Record dc_ok (lo hi : nat) (d : DecodedContent) : Prop := {
  dc_len : length (decoded d) = length (raw d);
  dc_range : ∀ i r, raw d !! i = Some r →
    range_start r < range_end r ∧ range_start r ≤ lo ∧ range_end r ≤ hi;
  dc_mono : ∀ i j ri rj, i ≤ j → raw d !! i = Some ri → raw d !! j = Some rj →
    range_start ri ≤ range_start rj;
}.

Lemma dc_empty_ok lo hi : dc_ok lo hi dc_empty.
Proof. split; [done|intros i r H|intros i j ri rj _ H]; by destruct i. Qed.

Lemma dc_ok_weaken lo hi lo' hi' d : dc_ok lo hi d → lo ≤ lo' → hi ≤ hi' → dc_ok lo' hi' d.
Proof.
  intros [Hl Hr Hm] ? ?. split; [done| |done]. intros i r Hi. destruct (Hr i r Hi) as (? & ? & ?). lia.
Qed.

Lemma dc_push_ok lo hi s e d b :
  dc_ok lo hi d → lo ≤ s → s < e → hi ≤ e → dc_ok s e (dc_push d b (mk_range s e)).
Proof.
  intros [Hl Hr Hm] ? ? ?. split; simpl.
  - rewrite !length_app. simpl. lia.
  - intros i r Hi. apply lookup_app_Some in Hi as [Hi|[_ Hi]].
    + destruct (Hr i r Hi) as (? & ? & ?). lia.
    + apply list_lookup_singleton_Some in Hi as [_ <-]. simpl. lia.
  - intros i j ri rj Hij Hi Hj.
    apply lookup_app_Some in Hi as [Hi|[Hi1 Hi]]; apply lookup_app_Some in Hj as [Hj|[Hj1 Hj]].
    + eauto.
    + apply list_lookup_singleton_Some in Hj as [_ <-]. destruct (Hr i ri Hi) as (? & ? & ?).
      simpl. lia.
    + apply lookup_lt_Some in Hj. lia.
    + apply list_lookup_singleton_Some in Hi as [_ <-].
      apply list_lookup_singleton_Some in Hj as [_ <-]. done.
Qed.

Lemma dc_push_one_ok c d b : dc_ok c c d → dc_ok (c + 1) (c + 1) (dc_push d b (mk_range c (c + 1))).
Proof. intros H. eapply dc_ok_weaken; [eapply dc_push_ok; [exact H|lia..]|lia..]. Qed.

Lemma dc_push_all_ok c e d bs :
  dc_ok c c d → c < e → dc_ok e e (dc_push_all d bs (mk_range c e)).
Proof.
  intros H Hc. assert (dc_ok c e d) as He by (eapply dc_ok_weaken; [exact H|lia..]).
  clear H. unfold dc_push_all. revert d He. induction bs as [|b bs IH]; intros d He; simpl.
  - eapply dc_ok_weaken; [exact He|lia..].
  - apply IH. eapply dc_push_ok; [exact He|lia..].
Qed.

Lemma dc_push_literal_ok bs : ∀ c d,
  dc_ok c c d → dc_ok (c + length bs) (c + length bs) (dc_push_literal d bs c).
Proof.
  induction bs as [|b bs IH]; intros c d H; simpl.
  - by rewrite Nat.add_0_r.
  - replace (c + S (length bs)) with (S c + length bs) by lia. apply IH.
    replace (S c) with (c + 1) by lia. by apply dc_push_one_ok.
Qed.

(** The indices [find_word_bounded_raw_spans] uses are in range. *)
Lemma raw_index_in_range lo hi d secret span :
  dc_ok lo hi d → span ∈ find_word_bounded_spans (decoded d) secret →
  is_Some (raw d !! range_start span) ∧ is_Some (raw d !! (range_end span - 1)).
Proof.
  intros [Hl _ _] Hs. apply find_word_bounded_spec in Hs as (? & ? & _).
  split; apply lookup_lt_is_Some_2; lia.
Qed.

Lemma raw_spans_ok lo hi d secret :
  dc_ok lo hi d → spans_ok hi (find_word_bounded_raw_spans d secret).
Proof.
  intros Hd. apply Forall_forall. intros r. unfold find_word_bounded_raw_spans.
  rewrite list_elem_of_fmap. intros (span & -> & Hs).
  destruct (raw_index_in_range _ _ _ _ _ Hd Hs) as [[a Ha] [b Hb]].
  rewrite (list_lookup_total_correct _ _ _ Ha), (list_lookup_total_correct _ _ _ Hb).
  apply find_word_bounded_spec in Hs as (? & _). destruct Hd as [_ Hr Hm].
  unfold span_ok. simpl. destruct (Hr _ _ Hb) as (? & ? & ?).
  assert (range_start a ≤ range_start b) by (eapply Hm; [|exact Ha|exact Hb]; lia). lia.
Qed.

Lemma lookup_None_len {A} (l : list A) i : l !! i = None → length l ≤ i.
Proof. apply lookup_ge_None. Qed.

Lemma decode_form_ok fuel value i out :
  dc_ok i i out → i ≤ length value →
  dc_ok (length value) (length value) (decode_form_loop fuel value i out).
Proof.
  revert i out. induction fuel as [|fuel IH]; intros i out Ho Hi; simpl.
  { eapply dc_ok_weaken; [exact Ho|lia..]. }
  destruct (value !! i) as [b|] eqn:Hb; [|eapply dc_ok_weaken; [exact Ho|lia..]].
  apply lookup_lt_Some in Hb as Hlt.
  assert (∀ b, dc_ok (length value) (length value)
    (decode_form_loop fuel value (i + 1) (dc_push out b (mk_range i (i + 1))))) as H1.
  { intros c. apply IH; [by apply dc_push_one_ok|lia]. }
  destruct (bool_decide (b = "+"%char)); [apply H1|].
  destruct (bool_decide (b = "%"%char)); [|apply H1].
  destruct (form_hex_digit (value !! (i + 1))), (form_hex_digit (value !! (i + 2))) eqn:E2;
    try apply H1.
  destruct (value !! (i + 2)) eqn:Hl; [|done]. apply lookup_lt_Some in Hl.
  apply IH; [|lia]. eapply dc_ok_weaken; [eapply dc_push_ok; [exact Ho|lia..]|lia..].
Qed.

(** *** JSON *)

(** How RFC 8259 strings lex: literal runs without a backslash, two-byte
    escapes, [\uXXXX] and surrogate pairs of two of them. *)
Inductive json_lexes : Bytes → list (Result UnescapedToken unit) → Prop :=
| lex_end : json_lexes [] []
| lex_error content e : json_lexes content [Err e]
| lex_literal l rest ts :
    backslash ∉ l → json_lexes rest ts → json_lexes (l ++ rest) (Ok (Literal l) :: ts)
| lex_simple c ch rest ts :
    c ≠ "u"%char → length ch = 1 → json_lexes rest ts →
    json_lexes (backslash :: c :: rest) (Ok (Unescaped ch) :: ts)
| lex_unicode hex ch rest ts :
    length hex = 4 → length ch < 4 → json_lexes rest ts →
    json_lexes (backslash :: "u"%char :: hex ++ rest) (Ok (Unescaped ch) :: ts)
| lex_pair hex ch rest ts :
    length hex = 10 → length ch = 4 → json_lexes rest ts →
    json_lexes (backslash :: "u"%char :: hex ++ rest) (Ok (Unescaped ch) :: ts).

Class JsonUnescapeLaws (JU : JsonUnescape) :=
  json_unescape_lexes : ∀ content, json_lexes content (json_unescape content).

Lemma byte_at_app pre l i c : byte_at (pre ++ l) (length pre + i) c = byte_at l i c.
Proof. unfold byte_at. rewrite lookup_app_r by lia. do 2 f_equal. by rewrite Nat.add_sub_swap, Nat.sub_diag by lia. Qed.

(** The code's escape lengths are the lengths of the escapes. *)
Lemma json_escape_len_simple pre c ch rest :
  c ≠ "u"%char → length ch = 1 →
  json_escape_len (pre ++ backslash :: c :: rest) (length pre) ch = 2.
Proof.
  intros Hc Hl. unfold json_escape_len. rewrite Hl, byte_at_app. simpl.
  unfold byte_at. simpl. rewrite bool_decide_eq_false_2; [done|congruence].
Qed.

Lemma json_escape_len_unicode pre ch rest :
  length ch < 4 →
  json_escape_len (pre ++ backslash :: "u"%char :: rest) (length pre) ch = 6.
Proof.
  intros Hl. unfold json_escape_len. rewrite byte_at_app.
  by rewrite (proj2 (Nat.eqb_neq (length ch) 4)) by lia.
Qed.

Lemma decode_json_ok content : ∀ ts pre rest out d,
  content = pre ++ rest → json_lexes rest ts → dc_ok (length pre) (length pre) out →
  decode_json_tokens content ts (length pre) out = Some d →
  dc_ok (length content) (length content) d.
Proof.
  intros ts. induction ts as [|t ts IH]; intros pre rest out d Hc Hx Ho Hd.
  { simpl in Hd. injection Hd as <-. eapply dc_ok_weaken; [exact Ho|..];
      rewrite Hc, length_app; lia. }
  assert (∀ piece rest' n o, rest = piece ++ rest' → length piece = n → json_lexes rest' ts →
    dc_ok (length pre + n) (length pre + n) o →
    decode_json_tokens content ts (length pre + n) o = Some d →
    dc_ok (length content) (length content) d) as Hstep.
  { intros piece rest' n o -> <- Hl Hok Hdec. rewrite <- length_app in Hok, Hdec.
    eapply (IH (pre ++ piece) rest'); [by rewrite <- app_assoc|done..]. }
  inversion Hx; subst; simpl in Hd; [done|..].
  - eapply Hstep; [reflexivity|reflexivity|done| |exact Hd]. by apply dc_push_literal_ok.
  - rewrite json_escape_len_simple in Hd by done.
    eapply (Hstep [backslash; c]); [reflexivity|reflexivity|done| |exact Hd].
    apply dc_push_all_ok; [done|lia].
  - rewrite json_escape_len_unicode in Hd by done.
    eapply (Hstep (backslash :: "u"%char :: hex) _ 6); [reflexivity|simpl; lia|done| |exact Hd].
    apply dc_push_all_ok; [done|lia].
  - replace (json_escape_len _ _ ch) with 12 in Hd by (unfold json_escape_len; by replace (length ch) with 4).
    eapply (Hstep (backslash :: "u"%char :: hex) _ 12); [reflexivity|simpl; lia|done| |exact Hd].
    apply dc_push_all_ok; [done|lia].
Qed.

Lemma json_literal_end_ge fuel body : ∀ j b, j ≤ fst (json_literal_end fuel body j b).
Proof.
  induction fuel as [|fuel IH]; intros j b; simpl; [done|].
  destruct (body !! j); [|done]. case_bool_decide; [done|]. case_bool_decide.
  - etransitivity; [|apply IH]. lia.
  - etransitivity; [|apply IH]. lia.
Qed.

Section FinderFacts.
Context {JU : JsonUnescape} {JL : JsonUnescapeLaws JU} {QX : QuickXml}.

Lemma json_content_spans_ok content secret e :
  spans_ok (length content) (json_content_spans content secret e).
Proof.
  unfold json_content_spans. destruct e; [|apply find_word_bounded_ok].
  destruct (decode_json_content content) as [d|] eqn:Hd; [|constructor].
  eapply raw_spans_ok, (decode_json_ok content _ [] content dc_empty d); [done| | |exact Hd].
  - apply json_unescape_lexes.
  - apply dc_empty_ok.
Qed.

Lemma json_spans_loop_ok fuel body secret : ∀ i,
  spans_ok (length body) (json_spans_loop fuel body secret i).
Proof.
  induction fuel as [|fuel IH]; intros i; cbn [json_spans_loop]; [constructor|].
  destruct (body !! i) as [b|] eqn:Hb; [|constructor]. apply lookup_lt_Some in Hb.
  case_bool_decide; [|apply IH].
  pose proof (json_literal_end_ge (S (length body)) body (i + 1) false) as Hge.
  destruct (json_literal_end (S (length body)) body (i + 1) false) as [j e]. simpl in Hge.
  apply Forall_app_2; [|apply IH].
  destruct (byte_at body (Nat.min j (length body)) dquote); [|constructor].
  eapply spans_ok_piece; [apply json_content_spans_ok|]. rewrite length_window. lia.
Qed.

Lemma form_content_spans_ok value secret :
  spans_ok (length value) (form_content_spans value secret).
Proof.
  unfold form_content_spans. destruct (_ || _); [|apply find_word_bounded_ok].
  eapply raw_spans_ok, decode_form_ok; [apply dc_empty_ok|lia].
Qed.

Lemma form_value_start_le kv : form_value_start kv ≤ length kv.
Proof.
  unfold form_value_start. destruct (position _ kv) eqn:E; [|lia]. apply position_lt in E. lia.
Qed.

Lemma split_bytes_length sep b :
  sum_list_with (λ w, length w + 1) (split_bytes sep b) = length b + 1.
Proof.
  induction b as [|c b IH]; simpl; [done|]. case_bool_decide; simpl; [lia|].
  destruct (split_bytes sep b); simpl in *; lia.
Qed.

Lemma form_spans_loop_ok secret pairs : ∀ offset n,
  offset + sum_list_with (λ w, length w + 1) pairs ≤ n + 1 →
  spans_ok n (form_spans_loop pairs secret offset).
Proof.
  induction pairs as [|kv pairs IH]; intros offset n Hn; simpl in *; [constructor|].
  apply Forall_app_2; [|apply IH; lia].
  eapply spans_ok_piece; [apply form_content_spans_ok|].
  rewrite length_drop. pose proof (form_value_start_le kv). lia.
Qed.

Lemma decode_xml_ok fuel content : ∀ i out,
  dc_ok i i out → i ≤ length content →
  dc_ok (length content) (length content) (decode_xml_loop fuel content i out).
Proof.
  induction fuel as [|fuel IH]; intros i out Ho Hi; simpl.
  { eapply dc_ok_weaken; [exact Ho|lia..]. }
  destruct (content !! i) as [b|] eqn:Hb; [|eapply dc_ok_weaken; [exact Ho|lia..]].
  apply lookup_lt_Some in Hb.
  assert (dc_ok (length content) (length content)
    (decode_xml_loop fuel content (i + 1) (dc_push out b (mk_range i (i + 1))))) as H1.
  { apply IH; [by apply dc_push_one_ok|lia]. }
  destruct (is_byte "&"%char b); [|exact H1].
  destruct (position _ _) as [rel|] eqn:Hp; [|exact H1].
  apply position_lt in Hp. rewrite length_drop in Hp.
  destruct (if utf8_valid _ then _ else _) as [[|ch []]|]; try exact H1.
  apply IH; [|lia]. apply dc_push_all_ok; [done|lia].
Qed.

Lemma xml_content_spans_ok content secret :
  spans_ok (length content) (xml_content_spans content secret).
Proof.
  unfold xml_content_spans. case_bool_decide; [|apply find_word_bounded_ok].
  eapply raw_spans_ok, decode_xml_ok; [apply dc_empty_ok|lia].
Qed.

Lemma xml_attribute_loop_ok fuel tag secret offset n : ∀ i,
  offset + length tag ≤ n → spans_ok n (xml_attribute_loop fuel tag secret offset i).
Proof.
  intros i Hn. revert i. induction fuel as [|fuel IH]; intros i; simpl; [constructor|].
  destruct (tag !! i) as [q|] eqn:Hq; [|constructor].
  destruct (_ || _); [|apply IH].
  destruct (position _ _) as [rel|] eqn:Hp; [|constructor].
  apply position_lt in Hp. rewrite length_drop in Hp.
  apply Forall_app_2; [|apply IH].
  eapply spans_ok_piece; [apply xml_content_spans_ok|]. rewrite length_window. lia.
Qed.

Lemma xml_text_loop_ok fuel body secret : ∀ i,
  spans_ok (length body) (xml_text_loop fuel body secret i).
Proof.
  induction fuel as [|fuel IH]; intros i; simpl; [constructor|].
  destruct (body !! i) as [b|] eqn:Hb; [|constructor]. apply lookup_lt_Some in Hb.
  destruct (is_byte "<"%char b).
  - destruct (position _ _) as [rel|] eqn:Hp; [|constructor].
    apply position_lt in Hp. rewrite length_drop in Hp.
    apply Forall_app_2; [|apply IH]. apply xml_attribute_loop_ok. rewrite length_window. lia.
  - apply Forall_app_2; [|apply IH].
    eapply spans_ok_piece; [apply xml_content_spans_ok|]. rewrite length_window.
    destruct (position _ _) as [p|] eqn:Hp; [|lia].
    apply position_lt in Hp. rewrite length_drop in Hp. lia.
Qed.

Lemma find_raw_spans_spec body secret r :
  r ∈ find_raw_spans body secret ↔
  secret ≠ [] ∧ range_end r = range_start r + length secret ∧ range_end r ≤ length body ∧
  window body (range_start r) (length secret) = secret.
Proof.
  unfold find_raw_spans. destruct secret as [|c s]; [split; [by intros ?%elem_of_nil|naive_solver]|].
  rewrite list_elem_of_fmap. setoid_rewrite list_elem_of_filter. setoid_rewrite elem_of_seq.
  split.
  - intros (p & -> & Hw & Hp). cbn [range_start range_end length] in *. split_and!; [done|lia..|done].
  - intros (_ & He & Hl & Hw). exists (range_start r). destruct r as [p e]; cbn [range_start range_end length] in *.
    subst. split_and!; [done|done|lia..].
Qed.

(** Whatever the content type, the spans found lie in the body. *)
Lemma find_decoded_secret_spans_ok body ct secret :
  spans_ok (length body) (find_decoded_secret_spans body ct secret).
Proof.
  destruct ct; simpl.
  - apply json_spans_loop_ok.
  - apply form_spans_loop_ok. rewrite split_bytes_length. lia.
  - apply xml_text_loop_ok.
  - apply Forall_forall. intros r Hr. apply find_raw_spans_spec in Hr as (Hs & He & Hl & _).
    split; [|done]. destruct (bytes_of secret); [done|]. simpl in *. lia.
Qed.

End FinderFacts.

(** ** Facts: substitution *)

(** Edits in order, disjoint and inside the body from [cursor] on. *)
Fixpoint edits_ok (cursor n : nat) (rs : list Range) : Prop :=
  match rs with
  | [] => cursor ≤ n
  | r :: rs => cursor ≤ range_start r ∧ range_start r ≤ range_end r ∧ edits_ok (range_end r) n rs
  end.

Definition covered (rs : list Range) (p : nat) : Prop :=
  ∃ r, r ∈ rs ∧ range_start r ≤ p < range_end r.

Definition coveredb (rs : list Range) (p : nat) : bool :=
  existsb (λ r, Nat.leb (range_start r) p && Nat.ltb p (range_end r)) rs.

Lemma coveredb_spec rs p : coveredb rs p = true ↔ covered rs p.
Proof.
  unfold coveredb, covered. rewrite existsb_In.
  split; intros (r & Hr & H); exists r; (split; [done|]).
  - apply andb_true_iff in H as [?%Nat.leb_le ?%Nat.ltb_lt]. lia.
  - apply andb_true_iff. rewrite Nat.leb_le, Nat.ltb_lt. lia.
Qed.

(** The bytes of [body], whose first is at [off], that no range covers. *)
Fixpoint uncovered (rs : list Range) (off : nat) (body : Bytes) : Bytes :=
  match body with
  | [] => []
  | b :: body => (if coveredb rs off then [] else [b]) ++ uncovered rs (S off) body
  end.

(** Gaps and texts in turn, starting and ending with a gap. *)
Fixpoint weave (gaps texts : list Bytes) : Bytes :=
  match gaps, texts with
  | g :: gaps, t :: texts => g ++ t ++ weave gaps texts
  | g :: _, [] => g
  | [], _ => []
  end.

(** Where the tokens of a weaving lie when it starts at [off]. *)
Fixpoint token_ranges (off : nat) (gaps tokens : list Bytes) : list Range :=
  match gaps, tokens with
  | g :: gaps, t :: tokens =>
      let start := off + length g in
      mk_range start (start + length t) :: token_ranges (start + length t) gaps tokens
  | _, _ => []
  end.

(** What the body has in each range. *)
Definition texts_at (body : Bytes) (rs : list Range) : list Bytes :=
  (λ r, window body (range_start r) (range_end r - range_start r)) <$> rs.

Lemma edits_ok_le rs : ∀ cursor n, edits_ok cursor n rs → cursor ≤ n.
Proof.
  induction rs as [|r rs IH]; intros cursor n H; simpl in *; [done|].
  destruct H as (? & ? & H). apply IH in H. lia.
Qed.

Lemma edits_ok_after rs : ∀ cursor n r, edits_ok cursor n rs → r ∈ rs → cursor ≤ range_start r.
Proof.
  induction rs as [|r0 rs IH]; intros cursor n r H Hr; [by apply elem_of_nil in Hr|].
  destruct H as (? & ? & H). apply elem_of_cons in Hr as [->|Hr]; [done|].
  specialize (IH _ _ _ H Hr). lia.
Qed.

Lemma uncovered_app rs l1 : ∀ off l2,
  uncovered rs off (l1 ++ l2) = uncovered rs off l1 ++ uncovered rs (off + length l1) l2.
Proof.
  induction l1 as [|b l1 IH]; intros off l2; simpl; [by rewrite Nat.add_0_r|].
  rewrite IH, <- app_assoc. do 3 f_equal. lia.
Qed.

Lemma uncovered_all rs l : ∀ off,
  (∀ p, off ≤ p < off + length l → ¬ covered rs p) → uncovered rs off l = l.
Proof.
  induction l as [|b l IH]; intros off H; simpl; [done|].
  destruct (coveredb rs off) eqn:E.
  { apply coveredb_spec in E. exfalso. apply (H off); [simpl; lia|done]. }
  simpl. f_equal. apply IH. intros p Hp. apply H. simpl. lia.
Qed.

Lemma uncovered_none rs l : ∀ off,
  (∀ p, off ≤ p < off + length l → covered rs p) → uncovered rs off l = [].
Proof.
  induction l as [|b l IH]; intros off H; simpl; [done|].
  assert (coveredb rs off = true) as -> by (apply coveredb_spec, H; simpl; lia).
  apply IH. intros p Hp. apply H. simpl. lia.
Qed.

Lemma uncovered_ext rs rs' l : ∀ off,
  (∀ p, off ≤ p < off + length l → covered rs p ↔ covered rs' p) →
  uncovered rs off l = uncovered rs' off l.
Proof.
  induction l as [|b l IH]; intros off H; simpl; [done|].
  assert (coveredb rs off = coveredb rs' off) as ->.
  { apply eq_true_iff_eq. rewrite !coveredb_spec. apply H. simpl. lia. }
  f_equal. apply IH. intros p Hp. apply H. simpl. lia.
Qed.

Lemma covered_cons r rs p :
  covered (r :: rs) p ↔ range_start r ≤ p < range_end r ∨ covered rs p.
Proof. unfold covered. setoid_rewrite elem_of_cons. naive_solver. Qed.

Lemma drop_split_at (body : Bytes) c s e :
  c ≤ s → s ≤ e → e ≤ length body →
  drop c body = take (s - c) (drop c body) ++ window body s (e - s) ++ drop e body.
Proof.
  intros. unfold window. replace (drop s body) with (drop (s - c) (drop c body)).
  2:{ rewrite drop_drop. f_equal. lia. }
  replace (drop e body) with (drop (e - s) (drop (s - c) (drop c body))).
  2:{ rewrite !drop_drop. f_equal. lia. }
  by rewrite !take_drop.
Qed.

(** The substitution copies exactly the bytes no edit covers, in order, and
    puts each text between the gaps: the body is the same gaps with what it had
    in the ranges of the edits. *)
Lemma splice_spec body edits : ∀ cursor,
  edits_ok cursor (length body) (fst <$> edits) →
  ∃ gaps, splice body cursor edits = Some (weave gaps (snd <$> edits)) ∧
    length gaps = S (length edits) ∧
    concat gaps = uncovered (fst <$> edits) cursor (drop cursor body) ∧
    drop cursor body = weave gaps (texts_at body (fst <$> edits)) ∧
    token_ranges cursor gaps (texts_at body (fst <$> edits)) = fst <$> edits.
Proof.
  induction edits as [|[r t] edits IH]; intros cursor H; simpl in *.
  - exists [drop cursor body]. rewrite slice_some by lia.
    rewrite take_ge by (rewrite length_drop; lia). simpl. rewrite app_nil_r.
    split_and!; [done|done| |done|done]. symmetry. apply uncovered_all. intros p _ (r & Hr & _).
    by apply elem_of_nil in Hr.
  - destruct H as (H1 & H2 & H). pose proof (edits_ok_le _ _ _ H) as H3.
    destruct (IH _ H) as (gaps & Hs & Hl & Hc & Hw & Hr). unfold texts_at in *.
    exists (take (range_start r - cursor) (drop cursor body) :: gaps).
    rewrite slice_some, Hs by lia. simpl. split_and!; [done|by rewrite Hl| | |].
    2:{ etransitivity; [apply (drop_split_at body cursor (range_start r) (range_end r)); lia|].
        do 2 f_equal. exact Hw. }
    2:{ rewrite length_take, length_drop, length_window.
        replace (cursor + _) with (range_start r) by lia.
        replace (range_start r + _) with (range_end r) by lia.
        etransitivity; [|exact (f_equal (cons r) Hr)]. by destruct r. }
    rewrite Hc. rewrite (drop_split_at body cursor (range_start r) (range_end r)) at 2 by lia.
    rewrite !uncovered_app. f_equal.
    { symmetry. apply uncovered_all. intros p. rewrite length_take, length_drop, covered_cons.
      intros Hp [?|(r' & Hr' & ?)]; [lia|]. pose proof (edits_ok_after _ _ _ _ H Hr'). lia. }
    rewrite length_take, length_drop, length_window.
    rewrite (uncovered_none _ (window _ _ _)); simpl.
    + replace (cursor + _ + _) with (range_end r) by lia. apply uncovered_ext.
      intros p Hp. rewrite covered_cons. split; [by right|]. intros [?|?]; [lia|done].
    + intros p. rewrite length_window, covered_cons. intros Hp. left. lia.
Qed.

(** ** Facts: form values *)

(** The [application/x-www-form-urlencoded] serializer: unreserved bytes as they
    are, a space as [+], any other byte as [%XX] in upper case. *)
Definition form_unreserved (b : ascii) : bool :=
  is_ascii_alphanumeric b || bool_decide (b ∈ ["*"%char; "-"%char; "."%char; "_"%char]).

Definition upper_hex (d : Z) : ascii :=
  Ascii.ascii_of_N (Z.to_N (if (d <? 10)%Z then 48 + d else 55 + d)).

Definition form_serialize_byte (b : ascii) : Bytes :=
  if form_unreserved b then [b]
  else if bool_decide (b = " "%char) then ["+"%char]
  else ["%"%char; upper_hex (byte b / 16); upper_hex (byte b mod 16)].

#[global] Arguments form_serialize_byte _ : simpl never.

Definition form_serialize (s : string) : string :=
  string_of (concat (form_serialize_byte <$> bytes_of s)).

Class FormSerializeLaws (SE : SecretEncoders) :=
  byte_serialize_spec : ∀ s, byte_serialize s = form_serialize s.

(** What the serializer makes of one byte is one step of the decoder. *)
Definition form_step (w : Bytes) (b : ascii) : bool :=
  match w with
  | [c] => (bool_decide (c = b) && negb (bool_decide (c = "+"%char)) &&
            negb (bool_decide (c = "%"%char)))
           || (bool_decide (c = "+"%char) && bool_decide (b = " "%char))
  | [p; h; l] =>
      bool_decide (p = "%"%char) &&
      match form_hex_digit (Some h), form_hex_digit (Some l) with
      | Some hi, Some lo => bool_decide (hex_byte hi lo = b)
      | _, _ => false
      end
  | _ => false
  end.

Lemma form_serialize_byte_step b : form_step (form_serialize_byte b) b = true.
Proof. destruct b as [[] [] [] [] [] [] [] []]; vm_compute; reflexivity. Qed.

Lemma form_serialize_byte_clean b : "&"%char ∉ form_serialize_byte b.
Proof.
  intros H. apply (bool_decide_eq_true_2 ("&"%char ∈ form_serialize_byte b)) in H. revert H.
  destruct b as [[] [] [] [] [] [] [] []]; vm_compute; discriminate.
Qed.

Lemma decode_form_step fuel pre w b rest out :
  form_step w b = true →
  decode_form_loop (S fuel) (pre ++ w ++ rest) (length pre) out =
  decode_form_loop fuel (pre ++ w ++ rest) (length pre + length w)
    (dc_push out b (mk_range (length pre) (length pre + length w))).
Proof.
  intros Hw. simpl.
  assert (∀ i, (pre ++ w ++ rest) !! (length pre + i) = (w ++ rest) !! i) as Hl.
  { intros i. rewrite lookup_app_r by lia. f_equal. lia. }
  rewrite <- (Nat.add_0_r (length pre)) at 1. rewrite !Hl.
  destruct w as [|c [|h [|l []]]]; try done; simpl in *.
  - apply orb_true_iff in Hw as [Hw|Hw]; boolify; subst.
    + by rewrite !bool_decide_eq_false_2.
    + done.
  - destruct (form_hex_digit (Some h)), (form_hex_digit (Some l)); boolify; by subst.
Qed.

Definition form_ser (s : Bytes) : Bytes := concat (form_serialize_byte <$> s).

Lemma form_ser_cons b s : form_ser (b :: s) = form_serialize_byte b ++ form_ser s.
Proof. done. Qed.

Lemma form_ser_length s : length s ≤ length (form_ser s).
Proof.
  induction s as [|b s IH]; [done|]. rewrite form_ser_cons, length_app.
  pose proof (form_serialize_byte_step b) as H. destruct (form_serialize_byte b); [done|].
  simpl. lia.
Qed.

(** Decoding what the serializer wrote gives the bytes back; the raw ranges of
    the first and last byte bound the written text. *)
Lemma decode_form_ser s : ∀ fuel pre out,
  length s < fuel →
  ∃ rs, decode_form_loop fuel (pre ++ form_ser s) (length pre) out
        = {| decoded := decoded out ++ s; raw := raw out ++ rs |} ∧
    length rs = length s ∧
    (s ≠ [] → range_start <$> head rs = Some (length pre) ∧
              range_end <$> last rs = Some (length pre + length (form_ser s))).
Proof.
  induction s as [|b s IH]; intros fuel pre out Hf.
  - exists []. destruct fuel; [lia|]. unfold form_ser. simpl.
    rewrite app_nil_r, lookup_ge_None_2 by lia. rewrite !app_nil_r. by destruct out.
  - destruct fuel as [|fuel]; [simpl in *; lia|]. rewrite form_ser_cons.
    rewrite (decode_form_step _ _ _ b) by apply form_serialize_byte_step.
    set (w := form_serialize_byte b). rewrite <- length_app, app_assoc.
    edestruct (IH fuel (pre ++ w)) as (rs & -> & Hl & Hh); [simpl in *; lia|].
    exists (mk_range (length pre) (length (pre ++ w)) :: rs). simpl.
    rewrite <- !app_assoc. split_and!; [done|by rewrite Hl|]. intros _. split; [done|].
    rewrite last_cons. destruct s as [|b' s].
    { destruct rs; [|done]. simpl. rewrite !length_app. simpl. f_equal. lia. }
    destruct Hh as [_ He]; [done|]. destruct (last rs); [|done]. simpl in *.
    simplify_eq. f_equal. rewrite !length_app in *. lia.
Qed.

Lemma form_ser_plain s :
  "%"%char ∉ form_ser s → "+"%char ∉ form_ser s → form_ser s = s.
Proof.
  induction s as [|b s IH]; [done|]. rewrite form_ser_cons. intros Hp Hs.
  rewrite elem_of_app in Hp, Hs. rewrite IH by tauto.
  pose proof (form_serialize_byte_step b) as H.
  destruct (form_serialize_byte b) as [|c [|h [|l []]]]; try done; simpl in *.
  - apply orb_true_iff in H as [H|H]; boolify; subst; [done|].
    exfalso. apply Hs. left. left.
  - boolify. subst. exfalso. apply Hp. left. left.
Qed.

Lemma form_content_spans_ser s :
  s ≠ [] → form_content_spans (form_ser s) s = [mk_range 0 (length (form_ser s))].
Proof.
  intros Hs. unfold form_content_spans. destruct (_ || _) eqn:E.
  - destruct (decode_form_ser s (S (length (form_ser s))) [] dc_empty) as (rs & Hd & Hl & Hh).
    { pose proof (form_ser_length s). lia. }
    cbn [app length] in Hd, Hh. unfold decode_form_content, find_word_bounded_raw_spans.
    rewrite Hd. cbn [decoded raw dc_empty app]. rewrite find_word_bounded_self by done. destruct (Hh Hs) as [H1 H2]. simpl.
    destruct rs as [|r rs]; [by destruct s|]. cbn in H1. injection H1 as H1. do 2 f_equal; [exact H1|].
    rewrite last_lookup in H2. rewrite <- Hl.
    replace (length (r :: rs) - 1) with (pred (length (r :: rs))) by lia.
    destruct ((r :: rs) !! pred (length (r :: rs))) as [x|] eqn:Ex; [|done].
    rewrite (list_lookup_total_correct _ _ _ Ex). by simplify_eq/=.
  - boolify. rewrite form_ser_plain by done. by apply find_word_bounded_self.
Qed.

Lemma split_bytes_ne sep b : split_bytes sep b ≠ [].
Proof. destruct b as [|c b]; simpl; [done|]. case_bool_decide; [done|]. by destruct (split_bytes sep b). Qed.

Lemma split_bytes_app sep l r : split_bytes sep (l ++ sep :: r) = split_bytes sep l ++ split_bytes sep r.
Proof.
  induction l as [|c l IH]; simpl; [by rewrite bool_decide_eq_true_2|].
  rewrite IH. case_bool_decide; [done|].
  pose proof (split_bytes_ne sep l). by destruct (split_bytes sep l).
Qed.

Lemma split_bytes_single sep l : sep ∉ l → split_bytes sep l = [l].
Proof.
  induction l as [|c l IH]; simpl; [done|]. rewrite not_elem_of_cons. intros [Hc Hl].
  by rewrite bool_decide_eq_false_2, IH by done.
Qed.

Lemma form_spans_loop_app secret l1 : ∀ l2 off,
  form_spans_loop (l1 ++ l2) secret off =
  form_spans_loop l1 secret off ++
  form_spans_loop l2 secret (off + sum_list_with (λ w, length w + 1) l1).
Proof.
  induction l1 as [|w l1 IH]; intros l2 off; simpl; [by rewrite Nat.add_0_r|].
  rewrite IH, <- app_assoc. do 3 f_equal. lia.
Qed.

Lemma form_ser_clean s : "&"%char ∉ form_ser s.
Proof.
  induction s as [|b s IH]; [apply not_elem_of_nil|]. rewrite form_ser_cons, elem_of_app.
  intros [H|H]; [by apply form_serialize_byte_clean in H|done].
Qed.

Lemma form_value_start_key key value :
  "="%char ∉ key → form_value_start (key ++ "="%char :: value) = length key + 1.
Proof.
  intros Hk. unfold form_value_start.
  assert (position (λ b, bool_decide (b = "="%char)) (key ++ "="%char :: value)
          = Some (length key)) as ->; [|done].
  induction key as [|c key IH]; [done|]. apply not_elem_of_cons in Hk as [Hc Hk]. simpl.
  rewrite bool_decide_eq_false_2 by congruence. by rewrite IH.
Qed.

(** A field of a form body: where it starts and ends. *)
Definition field_start (before : Bytes) : Prop := before = [] ∨ ∃ b, before = b ++ ["&"%char].
Definition field_end (after : Bytes) : Prop := after = [] ∨ ∃ b, after = "&"%char :: b.

Lemma form_spans_field before field after secret r :
  field_start before → field_end after → "&"%char ∉ field →
  r ∈ form_content_spans (drop (form_value_start field) field) secret →
  shift_range (length before + form_value_start field) r
    ∈ find_form_value_spans (before ++ field ++ after) secret.
Proof.
  intros Hb Ha Hf Hr. unfold find_form_value_spans.
  assert (∀ off, shift_range (off + form_value_start field) r
    ∈ form_spans_loop (split_bytes "&"%char (field ++ after)) secret off) as H.
  { intros off. destruct Ha as [->|[b ->]].
    - rewrite app_nil_r, split_bytes_single by done. simpl.
      apply elem_of_app. left. by apply list_elem_of_fmap_2.
    - rewrite split_bytes_app, split_bytes_single by done. simpl.
      apply elem_of_app. left. by apply list_elem_of_fmap_2. }
  destruct Hb as [->|[b ->]]; [by apply (H 0)|].
  rewrite <- app_assoc. cbn [app]. rewrite split_bytes_app, form_spans_loop_app.
  apply elem_of_app. right. rewrite split_bytes_length, length_app. apply H.
Qed.

Section FormEcho.
Context {JU : JsonUnescape} {QX : QuickXml} {SE : SecretEncoders} {FS : FormSerializeLaws SE}.

Lemma form_encode_ser secret : bytes_of (form_encode secret) = form_ser (bytes_of secret).
Proof. unfold form_encode. rewrite byte_serialize_spec. apply bytes_of_string_of. Qed.

(** A secret that went out form-encoded is found when the response echoes
    it: the exact bytes [encode_secret] wrote for it, as the value of any field
    of a form body, are one of the spans [find_decoded_secret_spans] reports,
    although some of the secret's bytes may be percent-encoded. *)
Theorem form_echo_found before key after secret :
  field_start before → field_end after →
  "&"%char ∉ key → "="%char ∉ key → secret ≠ "" →
  let value := bytes_of (encode_secret secret CtFormEncoded) in
  let start := length before + length key + 1 in
  mk_range start (start + length value) ∈
    find_decoded_secret_spans (before ++ (key ++ "="%char :: value) ++ after) CtFormEncoded secret.
Proof.
  intros Hb Ha Hk He Hs. cbn [encode_secret find_decoded_secret_spans]. rewrite form_encode_ser.
  cbv zeta. set (v := form_ser (bytes_of secret)).
  pose proof (form_spans_field before (key ++ "="%char :: v) after (bytes_of secret)
                (mk_range 0 (length v)) Hb Ha) as H.
  rewrite form_value_start_key in H by done.
  unfold shift_range in H. cbn [range_start range_end] in H.
  replace (length before + (length key + 1) + 0) with (length before + length key + 1) in H by lia.
  replace (length before + (length key + 1)) with (length before + length key + 1) in H by lia.
  apply H.
  - rewrite elem_of_app, elem_of_cons. intros [?|[?|H1]]; [done|done|].
    by apply form_ser_clean in H1.
  - replace (key ++ "="%char :: v) with ((key ++ ["="%char]) ++ v) by by rewrite <- app_assoc.
    rewrite drop_app_length' by (rewrite length_app; done). unfold v.
    rewrite form_content_spans_ser by (by destruct secret). left.
Qed.

End FormEcho.

(** ** Facts: placeholders *)

Definition token_len : nat := length prefix_bytes + PLACEHOLDER_SUFFIX_LEN.

Lemma utf8_valid_ascii s : str_forallb is_ascii s = true → utf8_valid s = true.
Proof.
  induction s as [|a s IH]; [done|]. simpl. intros [Ha Hs]%andb_true_iff.
  rewrite Ha. by apply IH.
Qed.

Lemma alnum_is_ascii a : is_ascii_alphanumeric a = true → is_ascii a = true.
Proof. destruct a as [[] [] [] [] [] [] [] []]; vm_compute; done. Qed.

Lemma str_forallb_bytes f s : str_forallb f s = true → Forall (λ a, f a = true) (bytes_of s).
Proof.
  induction s as [|a s IH]; [constructor|]. simpl. intros [? ?]%andb_true_iff.
  constructor; [done|by apply IH].
Qed.

Lemma alnum_run_app l r :
  Forall (λ a, is_ascii_alphanumeric a = true) l → length l ≤ alnum_run (l ++ r).
Proof. induction 1 as [|a l Ha _ IH]; simpl; [lia|]. rewrite Ha. lia. Qed.

Section PlaceholderFacts.
Context {PP : PlaceholderParse} {PL : PlaceholderLaws PP}.

(** A placeholder token written at offset [k]. *)
Definition token_at (body : Bytes) (k : nat) (t : string) : Prop :=
  placeholder_parses t = true ∧ window body k token_len = bytes_of t.

Lemma placeholder_bytes t :
  placeholder_parses t = true →
  ∃ suffix, bytes_of t = prefix_bytes ++ suffix ∧ length suffix = PLACEHOLDER_SUFFIX_LEN ∧
    Forall (λ a, is_ascii_alphanumeric a = true) suffix ∧ utf8_valid t = true.
Proof.
  intros H. destruct (placeholder_shape t H) as (s & -> & Hl & Ha).
  exists (bytes_of s). rewrite bytes_of_app, length_bytes_of.
  split_and!; [done|done|by apply str_forallb_bytes|]. apply utf8_valid_ascii.
  rewrite str_forallb_app. apply andb_true_iff. split; [done|].
  eapply str_forallb_impl; [|exact Ha]. apply alnum_is_ascii.
Qed.

Lemma placeholder_length t : placeholder_parses t = true → length (bytes_of t) = token_len.
Proof.
  intros H. destruct (placeholder_bytes t H) as (s & -> & Hl & _).
  by rewrite length_app, Hl.
Qed.

(** The bytes of a token: its prefix, its alphanumeric suffix. *)
Lemma token_at_parts body k t :
  token_at body k t →
  k + token_len ≤ length body ∧ window body k (length prefix_bytes) = prefix_bytes ∧
  PLACEHOLDER_SUFFIX_LEN ≤ alnum_run (drop (k + length prefix_bytes) body) ∧
  (∀ i b, length prefix_bytes ≤ i → i < token_len → body !! (k + i) = Some b →
     is_ascii_alphanumeric b = true) ∧ body !! (k + 3) = Some "_"%char.
Proof.
  intros [Hp Hw]. pose proof (placeholder_length t Hp) as Hl.
  destruct (placeholder_bytes t Hp) as (s & Hb & Hs & Ha & _).
  assert (k + token_len ≤ length body) as Hk.
  { rewrite <- Hw, length_window in Hl. pose proof (eq_refl : token_len = 30). lia. }
  assert (drop k body = prefix_bytes ++ s ++ drop (k + token_len) body) as Hd.
  { rewrite app_assoc, <- Hb, <- Hw. unfold window.
    by rewrite <- drop_drop, take_drop. }
  assert (∀ i, body !! (k + i) = (prefix_bytes ++ s ++ drop (k + token_len) body) !! i) as Hi.
  { intros i. by rewrite <- Hd, lookup_drop. }
  split_and!; [done| | | |].
  - unfold window. rewrite Hd. by rewrite take_app_length.
  - rewrite <- drop_drop, Hd, drop_app_length, <- Hs. by apply alnum_run_app.
  - intros i b H1 H2. rewrite Hi, lookup_app_r, lookup_app_l
      by (rewrite ?Hs; unfold token_len in *; lia).
    intros H. by eapply Forall_lookup_1 in Ha; [|exact H].
  - by rewrite Hi.
Qed.

Lemma candidate_end_sound body i n t e :
  n ≤ S PLACEHOLDER_SUFFIX_LEN →
  candidate_end body i (i + length prefix_bytes) n = Some (t, e) →
  e = i + token_len ∧ token_at body i t.
Proof.
  induction n as [|n IH]; intros Hn; cbn [candidate_end]; [done|].
  destruct (_ && _) eqn:E; [|apply IH; lia]. apply andb_true_iff in E as [_ Hp].
  intros [= <- <-]. pose proof (placeholder_length _ Hp) as Hl.
  rewrite bytes_of_string_of, length_window in Hl.
  assert (n = PLACEHOLDER_SUFFIX_LEN) as ->.
  { pose proof (eq_refl : token_len = 30). pose proof (eq_refl : length prefix_bytes = 4).
    unfold PLACEHOLDER_SUFFIX_LEN in *. lia. }
  split; [by rewrite <- Nat.add_assoc|]. split; [exact Hp|].
  rewrite bytes_of_string_of. f_equal. rewrite <- Nat.add_assoc, Nat.add_comm, Nat.add_sub. done.
Qed.

Lemma candidate_end_complete body i t :
  token_at body i t →
  candidate_end body i (i + length prefix_bytes) (S PLACEHOLDER_SUFFIX_LEN)
  = Some (t, i + token_len).
Proof.
  intros [Hp Hw]. cbn [candidate_end].
  replace (i + length prefix_bytes + PLACEHOLDER_SUFFIX_LEN - i) with token_len
    by (unfold token_len; lia).
  rewrite Hw, string_of_bytes_of, Hp.
  destruct (placeholder_bytes t Hp) as (_ & _ & _ & _ & ->). cbn [andb]. do 2 f_equal.
  by rewrite <- Nat.add_assoc.
Qed.

(** One round of the scan: no token at [i], or a token and the jump past it. *)
Lemma collect_step fuel body i result :
  i + length prefix_bytes ≤ length body →
  (∃ t, token_at body i t ∧
     collect_loop (S fuel) body i result =
     collect_loop fuel body (i + token_len)
       (if bool_decide (t ∈ result) then result else result ++ [t])) ∨
  ((∀ t, ¬ token_at body i t) ∧
     collect_loop (S fuel) body i result = collect_loop fuel body (i + 1) result).
Proof.
  intros Hi. cbn [collect_loop]. rewrite bool_decide_eq_true_2 by done.
  case_bool_decide as Hw.
  2:{ right. split; [|done]. intros t Ht. by apply token_at_parts in Ht as (_ & ? & _). }
  set (ps := i + length prefix_bytes).
  set (n := S _). destruct (candidate_end body i ps n) as [[t e]|] eqn:E.
  - left. exists t. apply candidate_end_sound in E as [-> Ht]; [done|].
    unfold n. lia.
  - right. split; [|done]. intros t Ht. assert (n = S PLACEHOLDER_SUFFIX_LEN) as Hn.
    { apply token_at_parts in Ht as (_ & _ & Hr & _). unfold n, ps in *. lia. }
    rewrite Hn in E. unfold ps in E. by rewrite (candidate_end_complete body i t Ht) in E.
Qed.

Lemma collect_stop fuel body i result :
  length body < i + length prefix_bytes → collect_loop fuel body i result = result.
Proof. intros Hi. destruct fuel; [done|]. cbn [collect_loop]. by rewrite bool_decide_eq_false_2 by lia. Qed.

Lemma elem_of_push (t u : string) l :
  t ∈ (if bool_decide (u ∈ l) then l else l ++ [u]) ↔ t ∈ l ∨ t = u.
Proof. case_bool_decide; [naive_solver|]. rewrite elem_of_app, list_elem_of_singleton. done. Qed.

Lemma collect_sound fuel body : ∀ i result,
  NoDup result →
  NoDup (collect_loop fuel body i result) ∧
  (∀ t, t ∈ collect_loop fuel body i result → t ∈ result ∨ ∃ k, token_at body k t) ∧
  (∀ t, t ∈ result → t ∈ collect_loop fuel body i result).
Proof.
  induction fuel as [|fuel IH]; intros i result Hn; [cbn; auto|].
  destruct (decide (i + length prefix_bytes ≤ length body)).
  2:{ rewrite collect_stop by lia. auto. }
  destruct (collect_step fuel body i result) as [(t & Ht & ->)|[_ ->]]; [done| |by apply IH].
  edestruct (IH (i + token_len)) as (H1 & H2 & H3).
  2:{ split_and!; [exact H1| |].
      - intros u [Hu|Hu]%H2; [|by right]. apply elem_of_push in Hu as [?| ->]; eauto.
      - intros u Hu. apply H3, elem_of_push. by left. }
  case_bool_decide; [done|]. apply NoDup_app. split_and!; [done| |apply NoDup_singleton].
  intros u Hu Hv. apply list_elem_of_singleton in Hv. by subst.
Qed.

Lemma collect_complete fuel body k t : ∀ i result,
  NoDup result → length body < i + fuel → i ≤ k → token_at body k t →
  ∃ k' t', t' ∈ collect_loop fuel body i result ∧ token_at body k' t' ∧ k' ≤ k < k' + token_len.
Proof.
  pose proof (eq_refl : token_len = 30) as HT. pose proof (eq_refl : length prefix_bytes = 4) as HP.
  induction fuel as [|fuel IH]; intros i result Hn Hf Hi Ht;
    pose proof (token_at_parts _ _ _ Ht) as (Hk & _); [lia|].
  destruct (collect_step fuel body i result) as [(u & Hu & ->)|[Hno ->]]; [lia| |].
  - set (res := if bool_decide (u ∈ result) then result else result ++ [u]).
    assert (NoDup res) as Hr.
    { unfold res. case_bool_decide; [done|]. apply NoDup_app.
      split_and!; [done| |apply NoDup_singleton].
      intros v Hv1 Hv2. apply list_elem_of_singleton in Hv2. by subst. }
    destruct (decide (i + token_len ≤ k)); [apply IH; [done|lia..|done]|].
    exists i, u. split_and!; [|done|lia..].
    apply (collect_sound fuel body (i + token_len) res Hr), elem_of_push. by right.
  - destruct (decide (i = k)) as [->|]; [by destruct (Hno t)|]. apply IH; [done|lia..|done].
Qed.

(** Two tokens overlap in three bytes at most: the underscore of the second is
    past the first one's alphanumeric suffix. *)
Lemma token_overlap body k k' t t' :
  token_at body k t → token_at body k' t' → k' < k → k' + 27 ≤ k.
Proof.
  intros H H' Hlt. apply token_at_parts in H as (_ & _ & _ & _ & H).
  apply token_at_parts in H' as (_ & _ & _ & H' & _).
  destruct (decide (k' + 27 ≤ k)); [done|]. exfalso.
  specialize (H' (k + 3 - k') "_"%char). replace (k' + (k + 3 - k')) with (k + 3) in H' by lia.
  discriminate H'; [..|exact H]; pose proof (eq_refl : token_len = 30);
    pose proof (eq_refl : length prefix_bytes = 4); lia.
Qed.

(** [collect_placeholders] returns each placeholder token of the body once
    and nothing else; the scan ends, and the only tokens it may leave out are
    those that share their first three bytes with the end of one it returned,
    so tokens written next to each other without a separator are all found. *)
Theorem collect_placeholders_exact body :
  NoDup (collect_placeholders body) ∧
  (∀ t, t ∈ collect_placeholders body → ∃ k, token_at body k t) ∧
  (∀ k t, token_at body k t → t ∈ collect_placeholders body ∨
     ∃ k' t', t' ∈ collect_placeholders body ∧ token_at body k' t' ∧
       k' + 27 ≤ k < k' + token_len).
Proof.
  unfold collect_placeholders.
  destruct (collect_sound (S (length body)) body 0 [] NoDup_nil_2) as (H1 & H2 & _).
  split_and!; [done| |].
  - intros t [H|H]%H2; [by apply elem_of_nil in H|done].
  - intros k t Ht. edestruct (collect_complete (S (length body)) body k t 0 [])
      as (k' & t' & Hin & Ht' & Hk); [apply NoDup_nil_2|lia..|done|].
    destruct (decide (k' = k)) as [->|].
    + left. destruct Ht as [_ Hw], Ht' as [_ Hw']. rewrite Hw' in Hw.
      apply (f_equal string_of) in Hw. rewrite !string_of_bytes_of in Hw. by subst.
    + right. exists k', t'. split_and!; [done..| |lia]. eapply token_overlap; [exact Ht|exact Ht'|lia].
Qed.

End PlaceholderFacts.

(** ** Samples *)

(** A concrete reading of the crates: a token is the prefix and 26 digits or
    lower-case letters; no JSON or XML escape decodes. *)
Module Samples.

Definition alnum_placeholder : PlaceholderParse := λ s,
  match strip_prefix PLACEHOLDER_PREFIX s with
  | Some suffix => Nat.eqb (String.length suffix) PLACEHOLDER_SUFFIX_LEN
                   && str_forallb is_ascii_alphanumeric suffix
  | None => false
  end.
#[export] Existing Instance alnum_placeholder.

#[export] Instance alnum_placeholder_laws : PlaceholderLaws alnum_placeholder.
Proof.
  split. intros s. unfold placeholder_parses, alnum_placeholder.
  destruct (strip_prefix PLACEHOLDER_PREFIX s) as [suffix|] eqn:E; [|done].
  intros [Hl Ha]%andb_true_iff. exists suffix. apply strip_prefix_Some in E.
  apply Nat.eqb_eq in Hl. done.
Qed.

#[export] Instance no_json : JsonUnescape := λ content,
  if bool_decide (backslash ∈ content) then [Err tt] else [Ok (Literal content)].

#[export] Instance no_json_laws : JsonUnescapeLaws no_json.
Proof.
  intros content. unfold json_unescape, no_json. case_bool_decide; [constructor|].
  rewrite <- (app_nil_r content) at 1. by repeat constructor.
Qed.

#[export] Instance no_xml : QuickXml := {| xml_unescape _ := None; quick_xml_escape s := s |}.

#[export] Instance form_encoders : SecretEncoders := {|
  serde_json_to_string s := Ok (String dquote (s +:+ String dquote ""));
  byte_serialize := form_serialize;
|}.

#[export] Instance form_encoders_laws : FormSerializeLaws form_encoders.
Proof. done. Qed.

(** A secret with a reserved byte and a space, echoed in the second of three
    fields. *)
Lemma form_echo_found_witness :
  mk_range 10 17 ∈ find_decoded_secret_spans (bytes_of "a=1&token=p%40+ss&b=2")
                     CtFormEncoded "p@ ss".
Proof.
  assert (field_start (bytes_of "a=1&")) as H1 by (right; by exists (bytes_of "a=1")).
  assert (field_end (bytes_of "&b=2")) as H2 by (right; by exists (bytes_of "b=2")).
  assert (("&"%char ∉ bytes_of "token") ∧ ("="%char ∉ bytes_of "token")) as [H3 H4]
    by (vm_compute; set_solver).
  pose proof (form_echo_found (bytes_of "a=1&") (bytes_of "token") (bytes_of "&b=2") "p@ ss"
                H1 H2 H3 H4) as H.
  vm_compute in H. vm_compute. by apply H.
Defined.

Example two_tokens :
  collect_placeholders
    (bytes_of "x fsp_01234567890123456789012345fsp_abcdefghijklmnopqrstuvwxyz.")
  = ["fsp_01234567890123456789012345"; "fsp_abcdefghijklmnopqrstuvwxyz"].
Proof. vm_compute. reflexivity. Qed.

Lemma collect_placeholders_exact_witness :
  ∃ k, token_at (bytes_of "x fsp_abcdefghijklmnopqrstuvwxyz.") k "fsp_abcdefghijklmnopqrstuvwxyz".
Proof.
  destruct (collect_placeholders_exact (bytes_of "x fsp_abcdefghijklmnopqrstuvwxyz."))
    as (_ & Hs & _).
  apply Hs. vm_compute. left.
Defined.

End Samples.
