(* ===== verification/SecretStore.v ===== *)
(** * The per-request secret store ([secret_store.rs])

    The dictionary from placeholders to secrets that one request-response cycle
    uses: the ranges of the request body to rehydrate, the ranges of the
    response body to mask.  The [BTreeMap] is a finite map iterated in key
    order; [aho-corasick] is a parameter with the documented behaviour of a
    leftmost, non-overlapping search. *)

From stdpp Require Import sorting.
From S2P Require Import Prelude RustStr SecretRewrite.

#[local] Open Scope string_scope.
#[local] Open Scope nat_scope.
#[local] Open Scope list_scope.

Definition MIN_MASKABLE_SECRET_LEN : nat := 8.

(** [AhoCorasick::builder().match_kind(LeftmostLongest)]: [build], and
    [find_iter] with the pattern's index and the range of each match. *)
Class AhoCorasick := {
  ac_matcher : Type;
  ac_build : list Bytes → Result ac_matcher string;
  ac_find_iter : ac_matcher → Bytes → list (nat * Range);
}.

Class AhoCorasickLaws (AC : AhoCorasick) := {
  ac_find_ordered : ∀ pats m h, ac_build pats = Ok m → [] ∉ pats →
    edits_ok 0 (length h) (snd <$> ac_find_iter m h);
  ac_find_sound : ∀ pats m h i r, ac_build pats = Ok m → [] ∉ pats →
    (i, r) ∈ ac_find_iter m h →
    ∃ p, pats !! i = Some p ∧ range_end r = range_start r + length p ∧
      window h (range_start r) (length p) = p;
  ac_find_complete : ∀ pats m h p k, ac_build pats = Ok m → [] ∉ pats →
    p ∈ pats → k + length p ≤ length h → window h k (length p) = p →
    ∃ i r, (i, r) ∈ ac_find_iter m h ∧ range_start r ≤ k < range_end r;
}.

(** [BTreeMap::iter]: in key order. *)
Definition key_le (a b : string * string) : Prop := String.leb (fst a) (fst b) = true.
#[export] Instance key_le_dec a b : Decision (key_le a b).
Proof. unfold key_le. apply _. Defined.

Definition btree_iter (m : gmap string string) : list (string * string) :=
  merge_sort key_le (map_to_list m).

(** [sort_by_key(|op| op.range.start)], a stable sort. *)
Definition start_le (a b : MaskOp) : Prop := range_start (mo_range a) ≤ range_start (mo_range b).
#[export] Instance start_le_dec a b : Decision (start_le a b).
Proof. unfold start_le. apply _. Defined.

Section Store.
Context {AC : AhoCorasick} {JU : JsonUnescape} {QX : QuickXml}.

Record MatcherPlaceholders := { matcher : option ac_matcher; placeholders : list string }.

Definition matcher_default : MatcherPlaceholders := {| matcher := None; placeholders := [] |}.

Record SidecarSecretStore := {
  by_placeholder : gmap string string;
  rehydrate : MatcherPlaceholders;
}.

(** [MatcherPlaceholders::rebuild]. *)
Definition mp_rebuild (entries : list (string * Bytes)) : Result MatcherPlaceholders string :=
  match entries with
  | [] => Ok matcher_default
  | _ =>
      let? m := ac_build (snd <$> entries) in
      Ok {| matcher := Some m; placeholders := fst <$> entries |}
  end.

(** [MatcherPlaceholders::find_ops]. *)
Definition find_ops {T} (mp : MatcherPlaceholders) (haystack : Bytes)
    (make : Range → string → option T) : list T :=
  match matcher mp with
  | None => []
  | Some m =>
      omap (λ '(i, r), p ← placeholders mp !! i; make r p) (ac_find_iter m haystack)
  end.

(** [SidecarSecretStore::new] and [len]. *)
Definition secret_store_new : SidecarSecretStore :=
  {| by_placeholder := ∅; rehydrate := matcher_default |}.

Definition store_len (s : SidecarSecretStore) : nat := size (by_placeholder s).

(** [rebuild_matchers]. *)
Definition rebuild_matchers (m : gmap string string) : Result MatcherPlaceholders string :=
  mp_rebuild ((λ kv, (fst kv, bytes_of (fst kv))) <$> btree_iter m).

(** [SidecarSecretStore::insert]. *)
Definition store_insert (s : SidecarSecretStore) (placeholder secret : string)
    : Result SidecarSecretStore string :=
  let m := <[placeholder := secret]> (by_placeholder s) in
  let? mp := rebuild_matchers m in
  Ok {| by_placeholder := m; rehydrate := mp |}.

(** [SidecarSecretStore::rehydrate_ops]. *)
Definition rehydrate_ops (s : SidecarSecretStore) (haystack : Bytes) : list RehydrateOp :=
  find_ops (rehydrate s) haystack
    (λ r p, secret ← by_placeholder s !! p; Some {| ro_range := r; ro_secret := secret |}).

(** Every span of every secret long enough to mask, with its placeholder. *)
Definition candidate_ops (s : SidecarSecretStore) (haystack : Bytes) (ct : ContentType)
    : list MaskOp :=
  flat_map (λ kv, (λ r, {| mo_range := r; mo_placeholder := fst kv |}) <$>
                    find_decoded_secret_spans haystack ct (snd kv))
    (filter (λ kv, MIN_MASKABLE_SECRET_LEN ≤ String.length (snd kv))
       (btree_iter (by_placeholder s))).

(** One step of the fold; the kept operations, newest first. *)
Definition mask_step (kept : list MaskOp) (op : MaskOp) : list MaskOp :=
  match kept with
  | [] => [op]
  | lst :: earlier =>
      let r := mo_range op in let l := mo_range lst in
      if Nat.ltb (range_start r) (range_end l) then
        if Nat.eqb (range_start r) (range_start l)
           && Nat.ltb (range_end l - range_start l) (range_end r - range_start r)
        then op :: earlier
        else if Nat.ltb (range_end l) (range_end r) then
          {| mo_range := mk_range (range_end l) (range_end r);
             mo_placeholder := mo_placeholder op |} :: kept
        else kept
      else op :: kept
  end.

(** [SidecarSecretStore::mask_ops]. *)
Definition mask_ops (s : SidecarSecretStore) (haystack : Bytes) (ct : ContentType)
    : list MaskOp :=
  reverse (fold_left mask_step (merge_sort start_le (candidate_ops s haystack ct)) []).

(** ** Masking *)

Abbreviation ranges ops := (mo_range <$> ops).

(** The kept operations, newest first: not empty, in range, in order. *)
Fixpoint kept_ok (n : nat) (kept : list MaskOp) : Prop :=
  match kept with
  | [] => True
  | op :: kept =>
      span_ok n (mo_range op) ∧
      (∀ op', op' ∈ kept → range_end (mo_range op') ≤ range_start (mo_range op)) ∧
      kept_ok n kept
  end.

(** The bytes between the latest start seen and the end of the newest kept
    operation are covered. *)
Definition filled (at_most : nat) (kept : list MaskOp) : Prop :=
  ∀ op p, head kept = Some op → at_most ≤ p < range_end (mo_range op) → covered (ranges kept) p.

Lemma covered_elem ops op p :
  op ∈ ops → range_start (mo_range op) ≤ p < range_end (mo_range op) → covered (ranges ops) p.
Proof. intros Ho Hp. exists (mo_range op). split; [by apply list_elem_of_fmap_2|done]. Qed.

Lemma mask_step_ok n s kept op :
  kept_ok n kept → filled s kept → s ≤ range_start (mo_range op) → span_ok n (mo_range op) →
  kept_ok n (mask_step kept op) ∧ filled (range_start (mo_range op)) (mask_step kept op) ∧
  (∀ p, covered (ranges (mask_step kept op)) p ↔ covered (mo_range op :: ranges kept) p).
Proof.
  intros Hk Hf Hs Ho. destruct kept as [|lst kept]; simpl.
  { split; [|split]; [| |done].
    - split; [done|split; [|done]]. by intros ? ?%elem_of_nil.
    - intros op' p [= <-] Hp. by apply (covered_elem [op] op); [left|]. }
  destruct Hk as (Hl & Hd & Hk). pose proof Ho as [Ho1 Ho2]. pose proof Hl as [Hl1 Hl2].
  assert (∀ r, range_end (mo_range lst) ≤ r → ∀ op', op' ∈ lst :: kept →
            range_end (mo_range op') ≤ r) as Hall.
  { intros r Hr op' [->|Ho']%elem_of_cons; [done|]. specialize (Hd _ Ho'). lia. }
  destruct (Nat.ltb_spec (range_start (mo_range op)) (range_end (mo_range lst))) as [Hlt|Hge].
  2:{ split; [|split]; [|intros op' p [= <-] Hp|done].
      - split; [done|]. split; [by apply Hall|done].
      - apply covered_cons. by left. }
  destruct (_ && _) eqn:Ereplace.
  { apply andb_true_iff in Ereplace as [He%Nat.eqb_eq Hn%Nat.ltb_lt].
    split; [|split]; [|intros op' p [= <-] Hp|].
    - split; [done|]. split; [|done]. intros op' Ho'. specialize (Hd _ Ho'). lia.
    - apply covered_cons. by left.
    - intros p. rewrite !fmap_cons, !covered_cons. split; [tauto|].
      intros [?|[?|?]]; [tauto| |tauto]. left. lia. }
  assert (∀ p, range_start (mo_range op) ≤ p < range_end (mo_range lst) →
            covered (ranges (lst :: kept)) p) as Hfill.
  { intros p Hp. apply (Hf lst); [done|lia]. }
  destruct (Nat.ltb_spec (range_end (mo_range lst)) (range_end (mo_range op))) as [Hx|Hx].
  - assert (∀ p, range_start (mo_range op) ≤ p < range_end (mo_range op) →
      range_end (mo_range lst) ≤ p < range_end (mo_range op) ∨
      covered (ranges (lst :: kept)) p) as Hsplit.
    { intros p Hp. destruct (decide (range_end (mo_range lst) ≤ p)); [left; lia|].
      right. apply Hfill. lia. }
    split; [|split]; [|intros op' p [= <-] Hp|].
    + split; [split; simpl; lia|]. split; [by apply Hall|done].
    + apply covered_cons. by apply Hsplit.
    + intros p. split; intros [Hp|Hp]%covered_cons; apply covered_cons;
        [left; simpl in Hp; lia|by right|by apply Hsplit|by right].
  - split; [done|split]; [intros op' p [= <-] Hp; by apply Hfill|].
    intros p. split; [intros H; apply covered_cons; by right|].
    intros [?|?]%covered_cons; [|done]. apply Hfill. lia.
Qed.

Lemma mask_fold_ok n : ∀ ops s kept,
  StronglySorted start_le ops → kept_ok n kept → filled s kept →
  Forall (λ op, s ≤ range_start (mo_range op) ∧ span_ok n (mo_range op)) ops →
  kept_ok n (fold_left mask_step ops kept) ∧
  (∀ p, covered (ranges (fold_left mask_step ops kept)) p ↔
        covered (ranges ops) p ∨ covered (ranges kept) p).
Proof.
  induction ops as [|op ops IH]; intros s kept Hs Hk Hf Ho; simpl.
  { split; [done|]. intros p. split; [by right|]. intros [(r & Hr & _)|?]; [|done].
    by apply elem_of_nil in Hr. }
  apply Forall_cons in Ho as [[Hs1 Hs2] Ho]. apply StronglySorted_inv in Hs as [Hs Hall].
  destruct (mask_step_ok n s kept op Hk Hf Hs1 Hs2) as (Hk' & Hf' & Hc).
  destruct (IH _ _ Hs Hk' Hf') as [H1 H2].
  { rewrite Forall_forall in *. intros op' Ho'. split; [by apply Hall|by apply Ho]. }
  split; [done|]. intros p. rewrite H2, Hc.
  split; [intros [?|[?|?]%covered_cons]|intros [[?|?]%covered_cons|?]];
    rewrite ?covered_cons; tauto.
Qed.

Lemma edits_ok_snoc r n : ∀ l c,
  edits_ok c (range_start r) l → range_start r ≤ range_end r → range_end r ≤ n →
  edits_ok c n (l ++ [r]).
Proof. induction l as [|x l IH]; intros c H ? ?; simpl in *; [done|]. intuition. Qed.

Lemma kept_ok_edits n kept : ∀ m,
  kept_ok n kept → (∀ op, op ∈ kept → range_end (mo_range op) ≤ m) →
  edits_ok 0 m (ranges (reverse kept)).
Proof.
  induction kept as [|op kept IH]; intros m Hk Hm; [simpl; lia|].
  destruct Hk as ([H1 _] & Hd & Hk). rewrite reverse_cons, fmap_app.
  apply edits_ok_snoc; [by apply IH|lia|]. apply Hm. left.
Qed.

Lemma kept_ok_end n kept : kept_ok n kept → ∀ op, op ∈ kept → range_end (mo_range op) ≤ n.
Proof.
  induction kept as [|op kept IH]; intros Hk op' Ho; [by apply elem_of_nil in Ho|].
  destruct Hk as ([_ ?] & _ & Hk). apply elem_of_cons in Ho as [->|Ho]; [done|by apply IH].
Qed.

Lemma covered_proper rs rs' p : (∀ r, r ∈ rs ↔ r ∈ rs') → covered rs p ↔ covered rs' p.
Proof. intros H. unfold covered. by setoid_rewrite H. Qed.

#[local] Instance start_le_total : Total start_le.
Proof. intros a b. unfold start_le. lia. Qed.
#[local] Instance start_le_trans : Transitive start_le.
Proof. intros a b c. unfold start_le. lia. Qed.

(** The spans of the secrets long enough to mask. *)
Definition secret_spans (s : SidecarSecretStore) (body : Bytes) (ct : ContentType) : list Range :=
  ranges (candidate_ops s body ct).

Lemma elem_of_btree_iter m k v : (k, v) ∈ btree_iter m ↔ m !! k = Some v.
Proof. unfold btree_iter. by rewrite merge_sort_Permutation, elem_of_map_to_list. Qed.

Lemma elem_of_candidates s body ct op :
  op ∈ candidate_ops s body ct ↔
  ∃ secret, by_placeholder s !! mo_placeholder op = Some secret ∧
    MIN_MASKABLE_SECRET_LEN ≤ String.length secret ∧
    mo_range op ∈ find_decoded_secret_spans body ct secret.
Proof.
  unfold candidate_ops. rewrite list_elem_of_In, in_flat_map.
  setoid_rewrite <- list_elem_of_In. setoid_rewrite list_elem_of_filter.
  setoid_rewrite list_elem_of_fmap. split.
  - intros ([k v] & [Hl Hkv] & r & -> & Hr). exists v. apply elem_of_btree_iter in Hkv. done.
  - intros (v & Hv & Hl & Hr). exists (mo_placeholder op, v).
    split; [split; [done|by apply elem_of_btree_iter]|]. exists (mo_range op). by destruct op.
Qed.

Section Masking.
Context {JL : JsonUnescapeLaws JU}.

Lemma candidates_ok s body ct : Forall (λ op, span_ok (length body) (mo_range op)) (candidate_ops s body ct).
Proof.
  apply Forall_forall. intros op (v & _ & _ & Hr)%elem_of_candidates.
  pose proof (find_decoded_secret_spans_ok body ct v) as H.
  unfold spans_ok in H. rewrite Forall_forall in H. by apply H.
Qed.

(** The operations are in order, disjoint and in range, and cover exactly the
    bytes of the spans found. *)
Lemma mask_ops_ok s body ct :
  edits_ok 0 (length body) (ranges (mask_ops s body ct)) ∧
  (∀ p, covered (ranges (mask_ops s body ct)) p ↔ covered (secret_spans s body ct) p).
Proof.
  unfold mask_ops, secret_spans. set (cand := candidate_ops s body ct).
  destruct (mask_fold_ok (length body) (merge_sort start_le cand) 0 []) as [Hk Hc].
  - apply StronglySorted_merge_sort; apply _.
  - done.
  - by intros ? ? [=].
  - rewrite merge_sort_Permutation. eapply Forall_impl; [apply candidates_ok|]. intros; split; [lia|done].
  - split; [eapply kept_ok_edits; [done|]; by apply kept_ok_end|]. intros p.
    rewrite (covered_proper _ (ranges (fold_left mask_step (merge_sort start_le cand) []))).
    2:{ intros r. by rewrite fmap_reverse, elem_of_reverse. }
    rewrite Hc. rewrite (covered_proper (ranges (merge_sort _ _)) (ranges cand)).
    2:{ intros r. by rewrite merge_sort_Permutation. }
    split; [|by left]. intros [?|(r & Hr & _)]; [done|]. by apply elem_of_nil in Hr.
Qed.

Lemma mask_step_placeholder kept op op' :
  op' ∈ mask_step kept op →
  mo_placeholder op' = mo_placeholder op ∨ op' ∈ kept.
Proof.
  destruct kept as [|lst kept]; simpl; [intros ->%list_elem_of_singleton; by left|].
  repeat case_match; rewrite ?elem_of_cons; naive_solver.
Qed.

Lemma mask_fold_placeholder ops : ∀ kept op,
  op ∈ fold_left mask_step ops kept →
  op ∈ kept ∨ ∃ op', op' ∈ ops ∧ mo_placeholder op = mo_placeholder op'.
Proof.
  induction ops as [|o ops IH]; intros kept op; simpl; [by left|].
  intros [H|(op' & Ho & He)]%IH; [|right; exists op'; split; [by right|done]].
  apply mask_step_placeholder in H as [H|H]; [|by left].
  right. exists o. split; [left|done].
Qed.

Lemma mask_ops_placeholder s body ct op :
  op ∈ mask_ops s body ct → is_Some (by_placeholder s !! mo_placeholder op).
Proof.
  unfold mask_ops. rewrite elem_of_reverse.
  intros [H|(op' & Ho & ->)]%mask_fold_placeholder; [by apply elem_of_nil in H|].
  rewrite merge_sort_Permutation in Ho. apply elem_of_candidates in Ho as (v & -> & _). eauto.
Qed.

Lemma mask_body_weave s body ct :
  ∃ gaps,
    mask_body body (mask_ops s body ct)
    = Some (weave gaps ((λ op, bytes_of (mo_placeholder op)) <$> mask_ops s body ct)) ∧
    length gaps = S (length (mask_ops s body ct)) ∧
    concat gaps = uncovered (secret_spans s body ct) 0 body.
Proof.
  destruct (mask_ops_ok s body ct) as [Hok Hcov]. unfold mask_body.
  destruct (splice_spec body ((λ op, (mo_range op, bytes_of (mo_placeholder op))) <$>
              mask_ops s body ct) 0) as (gaps & Hs & Hl & Hc & _).
  { by rewrite <- list_fmap_compose. }
  exists gaps. rewrite Hs, <- !list_fmap_compose in *. rewrite length_fmap in Hl.
  split_and!; [done|done|]. rewrite Hc, drop_0. apply uncovered_ext. intros p _. apply Hcov.
Qed.

(** [C20] Masking a response never panics and is exact: for every store, body and
    content type the masked body is the bytes outside the found secret spans, in
    order, with placeholders of the store in the gaps, and no byte inside a span
    is copied, although spans of different secrets may nest or cross; in a raw
    body every occurrence of a stored secret of at least eight bytes is a span. *)
Theorem mask_exact s body ct :
  (∃ gaps,
     mask_body body (mask_ops s body ct)
     = Some (weave gaps ((λ op, bytes_of (mo_placeholder op)) <$> mask_ops s body ct)) ∧
     length gaps = S (length (mask_ops s body ct)) ∧
     concat gaps = uncovered (secret_spans s body ct) 0 body) ∧
  (∀ op, op ∈ mask_ops s body ct → is_Some (by_placeholder s !! mo_placeholder op)) ∧
  (∀ ph secret k, by_placeholder s !! ph = Some secret →
     MIN_MASKABLE_SECRET_LEN ≤ String.length secret →
     k + String.length secret ≤ length body →
     window body k (String.length secret) = bytes_of secret →
     mk_range k (k + String.length secret) ∈ secret_spans s body CtRaw).
Proof.
  split_and!.
  - apply mask_body_weave.
  - intros op. apply mask_ops_placeholder.
  - intros ph secret k Hs Hl Hk Hw. apply list_elem_of_fmap.
    exists {| mo_range := mk_range k (k + String.length secret); mo_placeholder := ph |}.
    split; [done|]. apply elem_of_candidates. exists secret. split_and!; [done|done|].
    apply find_raw_spans_spec. rewrite length_bytes_of. simpl. split_and!; [|done..].
    destruct secret; [unfold MIN_MASKABLE_SECRET_LEN in Hl; simpl in Hl; lia|done].
Qed.

End Masking.

(** ** Rehydration *)

(** The automaton is the one of the current placeholders. *)
Definition store_ok (s : SidecarSecretStore) : Prop :=
  rebuild_matchers (by_placeholder s) = Ok (rehydrate s).

Lemma secret_store_new_ok : store_ok secret_store_new.
Proof.
  unfold store_ok, rebuild_matchers, btree_iter. cbn [by_placeholder secret_store_new].
  by rewrite map_to_list_empty.
Qed.

Lemma store_insert_ok s ph secret s' :
  store_insert s ph secret = Ok s' →
  store_ok s' ∧ by_placeholder s' = <[ph := secret]> (by_placeholder s).
Proof.
  unfold store_insert. destruct (rebuild_matchers _) as [mp|] eqn:E; [|done].
  by intros [= <-].
Qed.

Section Rehydration.
Context {AL : AhoCorasickLaws AC} {SE : SecretEncoders}.

(** The automaton of a store, its patterns and their placeholders. *)
Lemma store_matcher s m :
  store_ok s → matcher (rehydrate s) = Some m →
  ac_build (bytes_of <$> placeholders (rehydrate s)) = Ok m ∧
  (∀ ph, ph ∈ placeholders (rehydrate s) ↔ is_Some (by_placeholder s !! ph)).
Proof.
  unfold store_ok, rebuild_matchers. set (l := btree_iter (by_placeholder s)).
  assert (∀ ph, ph ∈ fst <$> l ↔ is_Some (by_placeholder s !! ph)) as Hl.
  { intros ph. rewrite list_elem_of_fmap. split.
    - intros ([k v] & -> & H%elem_of_btree_iter). eauto.
    - intros [v H%elem_of_btree_iter]. by exists (ph, v). }
  destruct l as [|kv l]; simpl; [by intros [= <-]|].
  destruct (ac_build _) as [m'|] eqn:E; [|done]. intros [= <-] [= ->]. simpl in *.
  rewrite <- !list_fmap_compose in *. done.
Qed.

Lemma store_empty s ph :
  store_ok s → matcher (rehydrate s) = None → ¬ is_Some (by_placeholder s !! ph).
Proof.
  unfold store_ok, rebuild_matchers. intros H Hm [v Hv]. apply elem_of_btree_iter in Hv.
  destruct (btree_iter (by_placeholder s)); [by apply elem_of_nil in Hv|]. simpl in H.
  destruct (ac_build _); [|done]. injection H as H. by rewrite <- H in Hm.
Qed.

Definition known (s : SidecarSecretStore) (ph : string) : Prop := is_Some (by_placeholder s !! ph).

(** Every match becomes an operation with the secret of its placeholder. *)
Lemma rehydrate_ops_spec s m body :
  store_ok s → (¬ known s "") → matcher (rehydrate s) = Some m →
  (ro_range <$> rehydrate_ops s body) = (snd <$> ac_find_iter m body) ∧
  (∀ op, op ∈ rehydrate_ops s body → ∃ ph, by_placeholder s !! ph = Some (ro_secret op) ∧
     range_end (ro_range op) = range_start (ro_range op) + String.length ph ∧
     window body (range_start (ro_range op)) (String.length ph) = bytes_of ph).
Proof.
  intros Hok He Hm. destruct (store_matcher s m Hok Hm) as [Hb Hp].
  assert ([] ∉ bytes_of <$> placeholders (rehydrate s)) as Hne.
  { intros (ph & Hph & Hin)%list_elem_of_fmap. apply Hp in Hin. destruct ph; [done|discriminate]. }
  unfold rehydrate_ops, find_ops. rewrite Hm.
  assert (∀ i r, (i, r) ∈ ac_find_iter m body → ∃ ph secret,
    placeholders (rehydrate s) !! i = Some ph ∧ by_placeholder s !! ph = Some secret ∧
    range_end r = range_start r + String.length ph ∧
    window body (range_start r) (String.length ph) = bytes_of ph) as H.
  { intros i r Hir. destruct (ac_find_sound _ _ _ _ _ Hb Hne Hir) as (p & Hi & Hr & Hw).
    rewrite list_lookup_fmap in Hi. destruct (placeholders (rehydrate s) !! i) as [ph|] eqn:E; [|done].
    simpl in Hi. injection Hi as <-. rewrite length_bytes_of in Hr, Hw.
    destruct (proj1 (Hp ph)) as [v Hv]; [by eapply list_elem_of_lookup_2|]. eauto 10. }
  induction (ac_find_iter m body) as [|[i r] l IH]; simpl.
  { split; [done|]. by intros op ?%elem_of_nil. }
  destruct (H i r) as (ph & v & -> & Hv & Hr & Hw); [left|]. simpl. rewrite Hv. simpl.
  destruct IH as [IH1 IH2]; [intros; apply H; by right|]. split; [exact (f_equal (cons r) IH1)|].
  intros op [->|Hop]%elem_of_cons; [|by apply IH2]. exists ph. done.
Qed.

(** [out] is [text] with every token that has a secret replaced by that secret,
    encoded for the content type: between the same gaps there is a token in the
    one and its own secret in the other, and every occurrence of a token of
    [known_as] starts inside a replaced one. *)
Definition rehydrated_as (known_as : string → string → Prop) (ct : ContentType) (text out : Bytes) : Prop :=
  ∃ (gaps : list Bytes) (tokens : list (string * string)),
    length gaps = S (length tokens) ∧
    text = weave gaps ((λ e, bytes_of e.1) <$> tokens) ∧
    out = weave gaps ((λ e, bytes_of (encode_secret e.2 ct)) <$> tokens) ∧
    (∀ ph secret, (ph, secret) ∈ tokens → known_as ph secret) ∧
    (∀ ph secret k, known_as ph secret → k + String.length ph ≤ length text →
       window text k (String.length ph) = bytes_of ph →
       covered (token_ranges 0 gaps ((λ e, bytes_of e.1) <$> tokens)) k).

Lemma rehydrated_as_iff (K K' : string → string → Prop) ct text out :
  (∀ ph v, K ph v ↔ K' ph v) → rehydrated_as K' ct text out → rehydrated_as K ct text out.
Proof.
  intros H (gaps & tokens & Hl & Ht & Ho & Hk & Hc). exists gaps, tokens. split_and!; [done..| |].
  - intros. by apply H, Hk.
  - intros ph v k Hv. apply (Hc ph v). by apply H.
Qed.

(** The tokens an operation list replaces. *)
Lemma ops_tokens s body ops :
  (∀ op, op ∈ ops → ∃ ph, by_placeholder s !! ph = Some (ro_secret op) ∧
     range_end (ro_range op) = range_start (ro_range op) + String.length ph ∧
     window body (range_start (ro_range op)) (String.length ph) = bytes_of ph) →
  ∃ tokens : list (string * string),
    length tokens = length ops ∧
    texts_at body (ro_range <$> ops) = (λ e, bytes_of e.1) <$> tokens ∧
    (ro_secret <$> ops) = tokens.*2 ∧
    (∀ ph secret, (ph, secret) ∈ tokens → by_placeholder s !! ph = Some secret).
Proof.
  induction ops as [|op ops IH]; intros H.
  { exists []. split_and!; [done..|]. by intros ? ? ?%elem_of_nil. }
  destruct IH as (tokens & Hl & Ht & Hs & Hk); [intros; apply H; by right|].
  destruct (H op) as (ph & Hp & Hr & Hw); [left|]. exists ((ph, ro_secret op) :: tokens). split_and!.
  - simpl. by rewrite Hl.
  - rewrite !fmap_cons. etransitivity; [|exact (f_equal (cons (bytes_of ph)) Ht)].
    unfold texts_at. rewrite fmap_cons, Hr. replace (_ + _ - _) with (String.length ph) by lia. by rewrite Hw.
  - rewrite !fmap_cons. by rewrite Hs.
  - intros ph' v [[= -> ->]|Hin]%elem_of_cons; [done|by apply Hk].
Qed.

(** Rehydration never panics and replaces exactly the tokens of the store. *)
Lemma rehydrate_exact s body ct :
  store_ok s → (¬ known s "") →
  ∃ out, rehydrate_body body ct (rehydrate_ops s body) = Some out ∧
    rehydrated_as (λ ph secret, by_placeholder s !! ph = Some secret) ct body out.
Proof.
  intros Hok He. destruct (matcher (rehydrate s)) as [m|] eqn:Hm.
  2:{ assert (rehydrate_ops s body = []) as -> by (unfold rehydrate_ops, find_ops; by rewrite Hm).
      exists body. unfold rehydrate_body, apply_ops. simpl.
      rewrite slice_some, Nat.sub_0_r, take_ge by (rewrite ?length_drop; lia).
      split; [done|]. exists [body], []. split_and!; [done..| |].
      - by intros ? ? ?%elem_of_nil.
      - intros ph v k Hk. destruct (store_empty s ph Hok Hm). by eexists. }
  destruct (rehydrate_ops_spec s m body Hok He Hm) as [Hr Hops].
  destruct (store_matcher s m Hok Hm) as [Hb Hp].
  assert ([] ∉ bytes_of <$> placeholders (rehydrate s)) as Hne.
  { intros (ph & Hph & Hin)%list_elem_of_fmap. apply Hp in Hin. destruct ph; [done|discriminate]. }
  destruct (ops_tokens s body _ Hops) as (tokens & Hl & Ht & Hsec & Hk).
  unfold rehydrate_body, apply_ops.
  destruct (splice_spec body ((λ op, (ro_range op, bytes_of (encode_secret (ro_secret op) ct))) <$>
              rehydrate_ops s body) 0) as (gaps & Hs & Hg & _ & Hw & Hrs).
  { rewrite <- list_fmap_compose.
    change (edits_ok 0 (length body) (ro_range <$> rehydrate_ops s body)). rewrite Hr.
    by eapply ac_find_ordered. }
  rewrite <- !list_fmap_compose in *. rewrite length_fmap in Hg.
  change (fst ∘ (λ op, (ro_range op, bytes_of (encode_secret (ro_secret op) ct)))) with ro_range in *.
  rewrite Ht in Hw, Hrs. eexists. split; [exact Hs|]. exists gaps, tokens. split_and!.
  - by rewrite Hg, Hl.
  - by rewrite <- Hw, drop_0.
  - f_equal. change (snd ∘ _) with ((λ v, bytes_of (encode_secret v ct)) ∘ ro_secret).
    by rewrite list_fmap_compose, Hsec, <- list_fmap_compose.
  - done.
  - intros ph v k Hv Hlen Hwin. rewrite Hrs, Hr.
    destruct (ac_find_complete _ _ body (bytes_of ph) k Hb Hne) as (i & r & Hir & Hrk).
    + apply list_elem_of_fmap_2. apply Hp. by eexists.
    + by rewrite length_bytes_of.
    + by rewrite length_bytes_of.
    + exists r. split; [|done]. apply list_elem_of_fmap. by exists (i, r).
Qed.

End Rehydration.
End Store.

(** ** Samples: a search that tries the patterns at each position in turn *)

Module Samples.
Import SecretRewrite.Samples.

Definition match_at (pats : list Bytes) (h : Bytes) (pos : nat) : option nat :=
  position (λ p, bool_decide (window h pos (length p) = p)) pats.

Fixpoint search_loop (fuel : nat) (pats : list Bytes) (h : Bytes) (pos : nat)
    : list (nat * Range) :=
  match fuel with
  | O => []
  | S fuel =>
      if bool_decide (pos < length h) then
        match match_at pats h pos with
        | Some i =>
            let n := length (pats !!! i) in
            (i, mk_range pos (pos + n)) :: search_loop fuel pats h (pos + Nat.max n 1)
        | None => search_loop fuel pats h (pos + 1)
        end
      else []
  end.

Definition search_ac : AhoCorasick := {|
  ac_matcher := list Bytes;
  ac_build l := Ok l;
  ac_find_iter pats h := search_loop (S (length h)) pats h 0;
|}.
#[export] Existing Instance search_ac.

Lemma match_at_Some pats h pos i :
  match_at pats h pos = Some i →
  pats !! i = Some (pats !!! i) ∧ window h pos (length (pats !!! i)) = pats !!! i.
Proof.
  intros [[p [Hp Hw]] _]%position_Some. rewrite (list_lookup_total_correct _ _ _ Hp).
  by apply bool_decide_eq_true in Hw.
Qed.

Lemma search_step pats h pos i :
  [] ∉ pats → match_at pats h pos = Some i →
  0 < length (pats !!! i) ∧ pos + length (pats !!! i) ≤ length h.
Proof.
  intros Hn [Hi Hw]%match_at_Some. apply list_elem_of_lookup_2 in Hi.
  apply (f_equal length) in Hw. rewrite length_window in Hw.
  assert (0 < length (pats !!! i)) by (destruct (pats !!! i); [done|simpl; lia]). lia.
Qed.

Lemma search_ordered pats h : [] ∉ pats → ∀ fuel pos,
  pos ≤ length h → edits_ok pos (length h) (snd <$> search_loop fuel pats h pos).
Proof.
  intros Hn. assert (∀ rs a b n, edits_ok b n rs → a ≤ b → edits_ok a n rs) as Hmono.
  { intros [|r rs] a b n H Hab; simpl in *; [lia|]. intuition lia. }
  induction fuel as [|fuel IH]; intros pos Hp; simpl; [done|].
  case_bool_decide; [|done]. destruct (match_at pats h pos) as [i|] eqn:E.
  - destruct (search_step _ _ _ _ Hn E). simpl. split_and!; [lia..|].
    replace (Nat.max _ 1) with (length (pats !!! i)) by lia. apply IH. lia.
  - eapply Hmono; [apply IH; lia|lia].
Qed.

Lemma search_sound pats h i r : ∀ fuel pos,
  (i, r) ∈ search_loop fuel pats h pos →
  ∃ p, pats !! i = Some p ∧ range_end r = range_start r + length p ∧
    window h (range_start r) (length p) = p.
Proof.
  induction fuel as [|fuel IH]; intros pos; simpl; [by intros ?%elem_of_nil|].
  case_bool_decide; [|by intros ?%elem_of_nil].
  destruct (match_at pats h pos) as [j|] eqn:E; [|apply IH].
  intros [[= -> ->]|H']%elem_of_cons; [|by eapply IH].
  apply match_at_Some in E as [E1 E2]. by exists (pats !!! j).
Qed.

Lemma search_complete pats h p k : [] ∉ pats → p ∈ pats → k + length p ≤ length h →
  window h k (length p) = p → ∀ fuel pos, length h < pos + fuel → pos ≤ k →
  ∃ i r, (i, r) ∈ search_loop fuel pats h pos ∧ range_start r ≤ k < range_end r.
Proof.
  intros Hn Hp Hk Hw. assert (0 < length p) by (destruct p; [done|simpl; lia]).
  induction fuel as [|fuel IH]; intros pos Hf Hpos; [lia|]. simpl.
  rewrite bool_decide_eq_true_2 by lia. destruct (match_at pats h pos) as [i|] eqn:E.
  - destruct (search_step _ _ _ _ Hn E).
    destruct (decide (k < pos + length (pats !!! i))).
    + exists i, (mk_range pos (pos + length (pats !!! i))). split; [left|simpl; lia].
    + destruct (IH (pos + Nat.max (length (pats !!! i)) 1)) as (j & r & Hin & ?); [lia..|].
      exists j, r. split; [by right|done].
  - destruct (decide (pos = k)) as [->|]; [|apply IH; lia].
    unfold match_at in E. rewrite position_None in E. specialize (E p Hp).
    by apply bool_decide_eq_false in E.
Qed.

#[export] Instance search_ac_laws : AhoCorasickLaws search_ac.
Proof.
  split.
  - intros pats m h [= <-] Hn. apply search_ordered; [done|lia].
  - intros pats m h i r [= <-] Hn. apply search_sound.
  - intros pats m h p k [= <-] Hn Hp Hk Hw. apply (search_complete pats h p k); [done..|lia|lia].
Qed.

Definition two_secrets : SidecarSecretStore :=
  match store_insert secret_store_new "fsp_a" "hunter2-hunter2" with
  | Ok s => match store_insert s "fsp_b" "hunter2-password" with Ok s => s | Err _ => secret_store_new end
  | Err _ => secret_store_new
  end.

(** Two secrets that cross: [hunter2-hunter2] and [hunter2-password] share
    [hunter2]; both are masked to their last byte. *)
Lemma mask_exact_witness :
  (string_of <$> mask_body (bytes_of "x=hunter2-hunter2-password.")
                   (mask_ops two_secrets (bytes_of "x=hunter2-hunter2-password.") CtRaw)
   = Some "x=fsp_afsp_b.") ∧
  ∃ gaps, concat gaps = bytes_of "x=.".
Proof.
  split; [vm_compute; reflexivity|].
  destruct (mask_exact two_secrets (bytes_of "x=hunter2-hunter2-password.") CtRaw)
    as ((gaps & _ & _ & H) & _). exists gaps. rewrite H. vm_compute. reflexivity.
Defined.

Example two_tokens_rehydrated :
  string_of <$> rehydrate_body (bytes_of "k=fsp_afsp_b") CtRaw
                  (rehydrate_ops two_secrets (bytes_of "k=fsp_afsp_b"))
  = Some "k=hunter2-hunter2hunter2-password".
Proof. vm_compute. reflexivity. Qed.

End Samples.
