(* ===== verification/SecretProvider.v ===== *)
(** * Secret-provider specs ([firma-secret-provider/src/spec])

    Which vault commands and HTTP paths are blocked, mediated or passed
    through, and how a mediated command line is normalised.  The matcher that
    extracts secrets from an output is a type parameter, as in the source. *)

From S2P Require Import Prelude RustStr Mapping.

#[local] Open Scope string_scope.
#[local] Open Scope nat_scope.
#[local] Open Scope list_scope.

Inductive MatchingResolution (M : Type) :=
| UseMatcher (m : M)
| PassThrough
| Blocked.
Arguments UseMatcher {M} m.
Arguments PassThrough {M}.
Arguments Blocked {M}.

(** [MatcherRule<A, B>]. *)
Inductive MatcherRule (A B : Type) :=
| SensitiveCommand (a : A)
| SafeCommand (b : B)
| BlockedCommand (b : B).
Arguments SensitiveCommand {A B} a.
Arguments SafeCommand {A B} b.
Arguments BlockedCommand {A B} b.

Definition as_sensitive_command {A B} (r : MatcherRule A B) : option A :=
  match r with SensitiveCommand a => Some a | _ => None end.
Definition as_safe_command {A B} (r : MatcherRule A B) : option B :=
  match r with SafeCommand b => Some b | _ => None end.
Definition as_blocked_command {A B} (r : MatcherRule A B) : option B :=
  match r with BlockedCommand b => Some b | _ => None end.

(** ** HTTP vaults ([spec/http.rs]) *)

Section Http.
Context {M : Type}.

Record PathAndMatcher := { pm_path : option string; pm_matcher : M }.
Record PathOnly := { po_path : string }.

Record HttpIntegrationSpec := {
  hi_provider_id : string;
  hi_host : string;
  hi_matchers : list (MatcherRule PathAndMatcher PathOnly);
}.

(** [HttpIntegrationSpec::matcher_for]. *)
Definition matcher_for (spec : HttpIntegrationSpec) (path : string) : MatchingResolution M :=
  let rules := hi_matchers spec in
  if existsb (λ rule, glob_match (po_path rule) path) (omap as_blocked_command rules) then Blocked
  else match find (λ rule, match pm_path rule with
                           | None => true
                           | Some glob => glob_match glob path
                           end) (omap as_sensitive_command rules) with
       | Some rule => UseMatcher (pm_matcher rule)
       | None =>
           if existsb (λ rule, glob_match (po_path rule) path) (omap as_safe_command rules)
           then PassThrough else Blocked
       end.

End Http.
Arguments PathAndMatcher : clear implicits.
Arguments HttpIntegrationSpec : clear implicits.

(** ** CLI vaults ([spec/cli.rs]) *)

Record FlagSpec := {
  fs_name : string;
  takes_value : bool;
  allow_attached_value : bool;
}.

#[export] Instance flag_spec_eq_dec : EqDecision FlagSpec.
Proof. solve_decision. Defined.

Inductive CommandMatch := Exact | Prefix.
Inductive CommandMatchResult := CMatches | CDoesNotMatch | CMalformed.

#[export] Instance command_match_result_eq_dec : EqDecision CommandMatchResult.
Proof. solve_decision. Defined.

(** [match_option_token]. *)
Definition match_option_token (arg : string) (option : FlagSpec) : bool :=
  bool_decide (arg = fs_name option)
  || match strip_prefix (fs_name option) arg with
     | Some rest => starts_with "=" rest
     | None => false
     end
  || (allow_attached_value option &&
      match strip_prefix (fs_name option) arg with
      | Some rest => negb (is_empty rest)
      | None => false
      end).

(** The argument carries its own value. *)
Definition has_embedded_value (arg : string) (option : FlagSpec) : bool :=
  match strip_prefix (fs_name option) arg with
  | Some rest => starts_with "=" rest || (negb (is_empty rest) && allow_attached_value option)
  | None => false
  end.

Definition is_dashdash (arg : string) : bool := bool_decide (arg = "--").

(** [take_while(|arg| arg != "--")]. *)
Fixpoint before_dashdash (args : list string) : list string :=
  match args with
  | [] => []
  | arg :: args => if is_dashdash arg then [] else arg :: before_dashdash args
  end.

(** [contains_any_option]. *)
Definition contains_any_option (args : list string) (options : list FlagSpec) : bool :=
  existsb (λ arg, existsb (match_option_token arg) options) (before_dashdash args).

(** [remove_options]; [skip] is a pending [iter.next()]. *)
Fixpoint remove_loop (options : list FlagSpec) (skip : bool) (args : list string) : list string :=
  match args with
  | [] => []
  | arg :: args =>
      if skip then remove_loop options false args
      else if is_dashdash arg then arg :: args
      else match find (match_option_token arg) options with
           | None => arg :: remove_loop options false args
           | Some option =>
               remove_loop options (takes_value option && negb (has_embedded_value arg option)) args
           end
  end.

Definition remove_options (args : list string) (options : list FlagSpec) : list string :=
  remove_loop options false args.

(** The scan of [command_matches]: the command words and [malformed].  [value]
    is an option's pending value. *)
Fixpoint scan_words (options : list FlagSpec) (ended value : bool) (args : list string)
    : list string * bool :=
  match args with
  | [] => ([], value)
  | arg :: args =>
      if value then
        let '(words, malformed) := scan_words options (ended || is_dashdash arg) false args in
        (words, is_dashdash arg || malformed)
      else if negb ended && is_dashdash arg then scan_words options true false args
      else match (if ended then None else find (match_option_token arg) options) with
           | Some option =>
               scan_words options ended
                 (takes_value option && negb (has_embedded_value arg option)) args
           | None =>
               if negb ended && starts_with "-" arg then scan_words options ended false args
               else let '(words, malformed) := scan_words options ended false args in
                    (arg :: words, malformed)
           end
  end.

(** The words against the command. *)
Definition words_match (kind : CommandMatch) (words command : list string) : bool :=
  match kind with
  | Exact => bool_decide (words = command)
  | Prefix =>
      forallb (λ '(a, e), bool_decide (a = e)) (zip words command)
      && Nat.leb (length command) (length words)
  end.

(** [command_matches]. *)
Definition command_matches (args command : list string) (kind : CommandMatch)
    (integration_options command_options : list FlagSpec) : CommandMatchResult :=
  let '(words, malformed) := scan_words (integration_options ++ command_options) false false args in
  if negb (words_match kind words command) then CDoesNotMatch
  else if malformed then CMalformed
  else CMatches.

Record CommandPattern := { cp_argv : list string; cp_match_kind : CommandMatch }.

(** [CommandPattern::match_args]. *)
Definition match_args (p : CommandPattern) (args : list string)
    (integration_options command_options : list FlagSpec) : CommandMatchResult :=
  command_matches args (cp_argv p) (cp_match_kind p) integration_options command_options.

(** ** Binary names ([broker/mod.rs]) *)

Inductive BinaryNameError := BnEmpty | BnNotBasename (value : string).

(** [BinaryName::new]. *)
Definition binary_name_new (value : string) : Result string BinaryNameError :=
  if is_empty value then Err BnEmpty
  else if bool_decide (value = ".") || bool_decide (value = "..")
          || existsb (λ c, contains_char c value) ["/"%char; "092"%char; ":"%char; "000"%char]
  then Err (BnNotBasename value)
  else Ok value.

Inductive CliIntegrationConfigError :=
| InvalidBinaryName (source : BinaryNameError)
| EmptyOptionName
| EmptyArgv
| AttachedValueWithoutValue (name : string)
| ConflictingOptionDefinition (name : string).

Section Cli.
Context {M : Type}.

Record CommandAndMatcher := {
  cm_command : CommandPattern;
  cm_matcher : M;
  cm_stripped_options : list FlagSpec;
  cm_append_options : list string;
}.

Definition CliMatcherRule : Type := MatcherRule CommandAndMatcher CommandPattern.

Record CliIntegrationSpec := {
  ci_binary_name : string;
  ci_provider_id : string;
  ci_credential_env_vars : list string;
  ci_stripped_options : list FlagSpec;
  ci_forbidden_options : list FlagSpec;
  ci_matchers : list CliMatcherRule;
}.

(** [validate_consistent_options]: [seen] are the options before. *)
Fixpoint validate_consistent_from (seen options : list FlagSpec)
    : Result unit CliIntegrationConfigError :=
  match options with
  | [] => Ok tt
  | option :: options =>
      if existsb (λ previous, bool_decide (fs_name previous = fs_name option)
                              && negb (bool_decide (previous = option))) seen
      then Err (ConflictingOptionDefinition (fs_name option))
      else validate_consistent_from (seen ++ [option]) options
  end.

Definition validate_consistent_options (options : list FlagSpec)
    : Result unit CliIntegrationConfigError := validate_consistent_from [] options.

(** The check of each option on its own. *)
Fixpoint validate_each_option (options : list FlagSpec) : Result unit CliIntegrationConfigError :=
  match options with
  | [] => Ok tt
  | option :: options =>
      if is_empty (fs_name option) then Err EmptyOptionName
      else if negb (takes_value option) && allow_attached_value option
      then Err (AttachedValueWithoutValue (fs_name option))
      else validate_each_option options
  end.

(** The integration's options against one command's. *)
Fixpoint validate_against (stripped integration : list FlagSpec)
    : Result unit CliIntegrationConfigError :=
  match integration with
  | [] => Ok tt
  | o :: integration =>
      if existsb (λ p, negb (bool_decide (p = o)))
           (filter (λ p, fs_name p = fs_name o) stripped)
      then Err (ConflictingOptionDefinition (fs_name o))
      else validate_against stripped integration
  end.

Fixpoint validate_commands (integration : list FlagSpec) (commands : list CommandAndMatcher)
    : Result unit CliIntegrationConfigError :=
  match commands with
  | [] => Ok tt
  | rule :: commands =>
      let? _ := validate_consistent_options (cm_stripped_options rule) in
      let? _ := validate_against (cm_stripped_options rule) integration in
      validate_commands integration commands
  end.

(** [CliIntegrationSpec::new]; [params] has the fields of the result. *)
Definition cli_spec_new (params : CliIntegrationSpec)
    : Result CliIntegrationSpec CliIntegrationConfigError :=
  let commands := omap as_sensitive_command (ci_matchers params) in
  let? _ := map_err InvalidBinaryName (binary_name_new (ci_binary_name params)) in
  let? _ := validate_consistent_options (ci_stripped_options params) in
  let? _ := validate_consistent_options (ci_forbidden_options params) in
  let? _ := validate_each_option
              (ci_stripped_options params ++ ci_forbidden_options params ++
               flat_map cm_stripped_options commands) in
  let? _ := validate_commands (ci_stripped_options params) commands in
  Ok params.

(** The sensitive rules of [resolve_args], in order. *)
Fixpoint resolve_sensitive (spec : CliIntegrationSpec) (args : list string)
    (rules : list CommandAndMatcher) : option (MatchingResolution M) :=
  match rules with
  | [] => None
  | rule :: rules =>
      match match_args (cm_command rule) args (ci_stripped_options spec)
              (cm_stripped_options rule) with
      | CMatches => Some (UseMatcher (cm_matcher rule))
      | CMalformed => Some Blocked
      | CDoesNotMatch => resolve_sensitive spec args rules
      end
  end.

(** The safe rules, and [Blocked] when none matches. *)
Fixpoint resolve_safe (spec : CliIntegrationSpec) (args : list string)
    (rules : list CommandPattern) : MatchingResolution M :=
  match rules with
  | [] => Blocked
  | rule :: rules =>
      match match_args rule args (ci_stripped_options spec) [] with
      | CMatches => PassThrough
      | CMalformed => Blocked
      | CDoesNotMatch => resolve_safe spec args rules
      end
  end.

(** [CliIntegrationSpec::resolve_args]. *)
Definition resolve_args (spec : CliIntegrationSpec) (args : list string) : MatchingResolution M :=
  if contains_any_option args (ci_forbidden_options spec) then Blocked
  else if existsb (λ rule, negb (bool_decide
            (match_args rule args (ci_stripped_options spec) [] = CDoesNotMatch)))
          (omap as_blocked_command (ci_matchers spec))
  then Blocked
  else match resolve_sensitive spec args (omap as_sensitive_command (ci_matchers spec)) with
       | Some r => r
       | None => resolve_safe spec args (omap as_safe_command (ci_matchers spec))
       end.

(** [splice(i..i, added)] before the first ["--"], or at the end. *)
Definition insert_before_dashdash (args added : list string) : list string :=
  let i := default (length args) (position is_dashdash args) in
  take i args ++ added ++ drop i args.

(** [CliIntegrationSpec::rewrite_args]. *)
Definition rewrite_args (spec : CliIntegrationSpec) (args : list string) : list string :=
  match find (λ rule, bool_decide
           (match_args (cm_command rule) args (ci_stripped_options spec)
              (cm_stripped_options rule) = CMatches))
          (omap as_sensitive_command (ci_matchers spec)) with
  | None => args
  | Some rule =>
      insert_before_dashdash (remove_options args (cm_stripped_options rule))
        (cm_append_options rule)
  end.

(** ** Facts *)

(** No argument before ["--"] is one of the options. *)
Definition free_of (options : list FlagSpec) (args : list string) : Prop :=
  ∀ arg option, arg ∈ before_dashdash args → option ∈ options →
    match_option_token arg option = false.

Lemma contains_any_option_false args options :
  contains_any_option args options = false ↔ free_of options args.
Proof.
  unfold contains_any_option, free_of. rewrite existsb_not_In.
  setoid_rewrite existsb_not_In. naive_solver.
Qed.

Lemma resolve_sensitive_spec spec args rules :
  match resolve_sensitive spec args rules with
  | None => ∀ rule, rule ∈ rules →
      match_args (cm_command rule) args (ci_stripped_options spec) (cm_stripped_options rule)
      = CDoesNotMatch
  | Some Blocked => True
  | Some PassThrough => False
  | Some (UseMatcher m) => ∃ rule,
      find (λ rule, bool_decide (match_args (cm_command rule) args (ci_stripped_options spec)
                                   (cm_stripped_options rule) = CMatches)) rules = Some rule ∧
      m = cm_matcher rule
  end.
Proof.
  induction rules as [|rule rules IH]; simpl; [by intros ? ?%elem_of_nil|].
  destruct (match_args (cm_command rule) _ _ _) eqn:E; simpl; [by exists rule| |done].
  destruct (resolve_sensitive spec args rules) as [[m| |]|]; [done..|].
  intros r [->|Hr]%elem_of_cons; [done|by apply IH].
Qed.

Lemma resolve_safe_spec spec args rules :
  match resolve_safe spec args rules with
  | PassThrough => ∃ rule, rule ∈ rules ∧ match_args rule args (ci_stripped_options spec) [] = CMatches
  | Blocked => True
  | UseMatcher _ => False
  end.
Proof.
  induction rules as [|rule rules IH]; simpl; [done|].
  destruct (match_args rule _ _ _) eqn:E; [exists rule; split; [left|done]| |done].
  destruct (resolve_safe spec args rules); [done| |done].
  destruct IH as (r & Hr & Hm). exists r. split; [by right|done].
Qed.

(** The gates every invocation that runs has passed. *)
Definition invocation_open (spec : CliIntegrationSpec) (args : list string) : Prop :=
  free_of (ci_forbidden_options spec) args ∧
  (∀ rule, rule ∈ omap as_blocked_command (ci_matchers spec) →
     match_args rule args (ci_stripped_options spec) [] = CDoesNotMatch).

(** The rule of a mediated invocation. *)
Definition mediating_rule (spec : CliIntegrationSpec) (args : list string)
    : option CommandAndMatcher :=
  find (λ rule, bool_decide (match_args (cm_command rule) args (ci_stripped_options spec)
                               (cm_stripped_options rule) = CMatches))
    (omap as_sensitive_command (ci_matchers spec)).

Lemma resolve_args_open spec args :
  resolve_args spec args ≠ Blocked → invocation_open spec args.
Proof.
  unfold resolve_args, invocation_open. destruct (contains_any_option _ _) eqn:Ef; [done|].
  apply contains_any_option_false in Ef.
  destruct (existsb _ _) eqn:Eb; [done|]. intros _. split; [done|]. intros rule Hr.
  rewrite existsb_not_In in Eb. specialize (Eb rule Hr). by boolify.
Qed.

(** The classification of a vault command line fails closed: an invocation
    is run only if no forbidden option occurs before the end-of-options mark and
    no blocked command matches, malformed ones included; its output is passed
    through only if a safe command matches exactly and no sensitive one does;
    it is mediated only with the matcher of the sensitive rule whose options
    [rewrite_args] normalises. *)
Theorem resolve_args_fails_closed spec args :
  match resolve_args spec args with
  | Blocked => True
  | PassThrough => invocation_open spec args ∧
      (∀ rule, rule ∈ omap as_sensitive_command (ci_matchers spec) →
         match_args (cm_command rule) args (ci_stripped_options spec) (cm_stripped_options rule)
         = CDoesNotMatch) ∧
      ∃ rule, rule ∈ omap as_safe_command (ci_matchers spec) ∧
        match_args rule args (ci_stripped_options spec) [] = CMatches
  | UseMatcher m => invocation_open spec args ∧
      ∃ rule, mediating_rule spec args = Some rule ∧ m = cm_matcher rule ∧
        rewrite_args spec args =
          insert_before_dashdash (remove_options args (cm_stripped_options rule))
            (cm_append_options rule)
  end.
Proof.
  pose proof (resolve_args_open spec args) as Ho. revert Ho. unfold resolve_args.
  destruct (contains_any_option _ _); [done|]. destruct (existsb _ _); [done|].
  pose proof (resolve_sensitive_spec spec args (omap as_sensitive_command (ci_matchers spec))) as Hs.
  destruct (resolve_sensitive _ _ _) as [[m| |]|]; [|done|done|].
  - destruct Hs as (rule & Hf & ->). intros Ho. split; [by apply Ho|].
    exists rule. unfold rewrite_args. rewrite Hf. done.
  - pose proof (resolve_safe_spec spec args (omap as_safe_command (ci_matchers spec))) as Hp.
    destruct (resolve_safe _ _ _); [done| |done]. intros Ho. split; [by apply Ho|done].
Qed.

End Cli.
Arguments CommandAndMatcher : clear implicits.
Arguments CliIntegrationSpec : clear implicits.

(** ** HTTP paths *)

(** The order of the rules: blocked, then sensitive, then safe, else blocked. *)
Lemma matcher_for_spec {M} (spec : HttpIntegrationSpec M) path :
  match matcher_for spec path with
  | PassThrough =>
      (∃ rule, rule ∈ omap as_safe_command (hi_matchers spec) ∧
         glob_match (po_path rule) path = true) ∧
      (∀ rule, rule ∈ omap as_blocked_command (hi_matchers spec) →
         glob_match (po_path rule) path = false)
  | UseMatcher m =>
      (∃ rule, rule ∈ omap as_sensitive_command (hi_matchers spec) ∧ m = pm_matcher rule) ∧
      (∀ rule, rule ∈ omap as_blocked_command (hi_matchers spec) →
         glob_match (po_path rule) path = false)
  | Blocked => True
  end.
Proof.
  unfold matcher_for. destruct (existsb _ _) eqn:Eb; [done|].
  rewrite existsb_not_In in Eb. destruct (find _ _) as [rule|] eqn:Ef.
  - apply find_some in Ef as [Hin _]. split; [|done]. exists rule.
    split; [by apply list_elem_of_In|done].
  - destruct (existsb _ _) eqn:Es; [|done]. apply existsb_In in Es as (rule & ? & ?). eauto.
Qed.

(** ** Samples *)

Module Samples.

Definition list_rule : CommandAndMatcher nat :=
  {| cm_command := {| cp_argv := ["secret"; "list"]; cp_match_kind := Exact |};
     cm_matcher := 7;
     cm_stripped_options := [{| fs_name := "--output"; takes_value := true;
                                allow_attached_value := false |}];
     cm_append_options := ["--output"; "json"] |}.

Definition vault_cli : CliIntegrationSpec nat :=
  {| ci_binary_name := "vault"; ci_provider_id := "v"; ci_credential_env_vars := [];
     ci_stripped_options := [{| fs_name := "--profile"; takes_value := true;
                                allow_attached_value := false |}];
     ci_forbidden_options := [];
     ci_matchers := [SensitiveCommand list_rule] |}.

(** The options of a mediated command are replaced, after any value. *)
Example rewrite_ok :
  rewrite_args vault_cli ["secret"; "--output=table"; "list"]
  = ["secret"; "list"; "--output"; "json"].
Proof. reflexivity. Qed.

(** An integration option whose value spells a stripped option: the scan reads
    [--output] as the value of [--profile], the rewrite removes it, and the
    appended [--output] becomes the value, so the command that runs does not
    have the normalised output format and no longer matches its rule. *)
Example rewrite_swallowed :
  cli_spec_new vault_cli = Ok vault_cli ∧
  resolve_args vault_cli ["secret"; "list"; "--profile"; "--output"] = UseMatcher 7 ∧
  rewrite_args vault_cli ["secret"; "list"; "--profile"; "--output"]
    = ["secret"; "list"; "--profile"; "--output"; "json"] ∧
  resolve_args vault_cli ["secret"; "list"; "--profile"; "--output"; "json"] = Blocked.
Proof. vm_compute. auto. Qed.

End Samples.
