(* ===== verification/BodyEncoding.v ===== *)
(** * Body encodings ([body_encoding.rs])

    Bodies that are searched for placeholders or secrets are decoded first and
    encoded again afterwards.  The compression crates are parameters: a decoder
    is a reader, the bytes it yields and the error it then fails with, if any;
    an encoder maps bytes to bytes or an error.  [spawn_blocking] may fail to
    join; its outcome is an argument. *)

From S2P Require Import Prelude RustStr ActionClasses Core SecretRewrite.

#[local] Open Scope string_scope.
#[local] Open Scope nat_scope.
#[local] Open Scope list_scope.

Inductive DeflateEncoding := RawDeflate | Zlib.

Inductive SupportedEncoding :=
| Gzip
| Deflate (encoding : DeflateEncoding)
| Brotli
| Zstd.

#[export] Instance supported_encoding_eq_dec : EqDecision SupportedEncoding.
Proof. unfold EqDecision. intros [|[]| |] [|[]| |]; (left; reflexivity) || (right; discriminate). Defined.

Inductive BodyEncodingError :=
| UnsupportedEncoding (name : string)
| DecodeError (error : string)
| DecompressedTooLarge (limit : nat)
| EncodeError (error : string)
| JoinFailed (error : string).

(** [BodyEncodingError]'s [Display]. *)
Definition body_encoding_error_display (e : BodyEncodingError) : string :=
  match e with
  | UnsupportedEncoding n =>
      ("content-encoding " +:+ quote +:+ n +:+ quote +:+ " cannot be decoded by this layer")%string
  | DecodeError e => ("failed to decompress body: " +:+ e)%string
  | DecompressedTooLarge limit =>
      ("decompressed body exceeds the " +:+ display_uint (Z.of_nat limit) +:+ "-byte limit")%string
  | EncodeError e => ("failed to compress body: " +:+ e)%string
  | JoinFailed e => ("background (de)compression task failed: " +:+ e)%string
  end.

(** A [Read]: what it yields until the end or an error. *)
Record Reader := { yields : Bytes; fails : option string }.

Class BodyCodecs := {
  gz_reader : Bytes → Reader;
  zlib_reader : Bytes → Reader;
  deflate_reader : Bytes → Reader;
  brotli_reader : Bytes → Reader;
  (** [zstd::stream::read::Decoder::new] may fail *)
  zstd_reader : Bytes → Result Reader string;
  codec_encode : SupportedEncoding → Bytes → Result Bytes string;
}.

(** [reader.take(limit).read_to_end(&mut out)]: an error past the limit is
    not reached. *)
Definition take_read_to_end (r : Reader) (limit : nat) : Result Bytes string :=
  if bool_decide (limit ≤ length (yields r)) then Ok (take limit (yields r))
  else match fails r with Some e => Err e | None => Ok (yields r) end.

(** [bounded_read_to_end]; [usize] and [u64] have one width, so the limit is
    [max + 1], saturating. *)
Definition bounded_read_to_end (r : Reader) (max : nat) : Result Bytes BodyEncodingError :=
  let read_limit := Z.to_nat (Z.min (Z.of_nat max + 1) u64_max) in
  let? out := map_err DecodeError (take_read_to_end r read_limit) in
  if bool_decide (max < length out) then Err (DecompressedTooLarge max) else Ok out.

(** [HeaderMap::get] and [contains_key]: the first value under the name. *)
Definition header_get `{!HttpCrate} (name : string) (h : HeaderMap) : option string :=
  snd <$> find (λ kv, bool_decide (fst kv = name)) (hm_iter h).

Definition header_contains `{!HttpCrate} (name : string) (h : HeaderMap) : bool :=
  existsb (λ kv, bool_decide (fst kv = name)) (hm_iter h).

(** [HeaderMap::insert]: replaces every value under the name. *)
Definition header_insert `{!HttpCrate} (name value : string) (h : HeaderMap) : HeaderMap :=
  hm_from_iter (hm_iter (hm_remove name h) ++ [(name, value)]).

(** [HeaderValue::to_str]: visible ASCII, spaces and tabs. *)
Definition to_str (value : string) : option string :=
  if str_forallb (λ b, in_range 32 126 b || in_range 9 9 b) value then Some value else None.

Section Encodings.
Context {HC : HttpCrate} {BC : BodyCodecs}.

(** [SupportedEncoding::from_headers]. *)
Definition encoding_from_headers (h : HeaderMap) : Result (option SupportedEncoding) string :=
  match header_get "content-encoding" h ≫= to_str with
  | None => Ok None
  | Some value =>
      let name := trim value in
      if bool_decide (name = "") || bool_decide (name = "identity") then Ok None
      else if bool_decide (name = "gzip") then Ok (Some Gzip)
      else if bool_decide (name = "deflate") then Ok (Some (Deflate RawDeflate))
      else if bool_decide (name = "br") then Ok (Some Brotli)
      else if bool_decide (name = "zstd") then Ok (Some Zstd)
      else Err name
  end.

(** [SupportedEncoding::decode]: the bytes and the encoding, which records the
    flavour of deflate that worked. *)
Definition encoding_decode (enc : SupportedEncoding) (body : Bytes) (max : nat)
    : Result (Bytes * SupportedEncoding) BodyEncodingError :=
  match enc with
  | Gzip => let? out := bounded_read_to_end (gz_reader body) max in Ok (out, Gzip)
  | Deflate _ =>
      match bounded_read_to_end (zlib_reader body) max with
      | Ok out => Ok (out, Deflate Zlib)
      | Err _ =>
          let? out := bounded_read_to_end (deflate_reader body) max in Ok (out, Deflate RawDeflate)
      end
  | Brotli => let? out := bounded_read_to_end (brotli_reader body) max in Ok (out, Brotli)
  | Zstd =>
      let? r := map_err DecodeError (zstd_reader body) in
      let? out := bounded_read_to_end r max in Ok (out, Zstd)
  end.

(** [SupportedEncoding::encode]. *)
Definition encoding_encode (enc : SupportedEncoding) (body : Bytes)
    : Result Bytes BodyEncodingError := map_err EncodeError (codec_encode enc body).

(** The end of a [spawn_blocking] task: [Some e] when it did not join. *)
Definition joined {A} (join : option string) (r : Result A BodyEncodingError)
    : Result A BodyEncodingError :=
  match join with Some e => Err (JoinFailed e) | None => r end.

(** [decode_body]. *)
Definition decode_body (body : Bytes) (h : HeaderMap) (max : nat) (join : option string)
    : Result (Bytes * option SupportedEncoding) BodyEncodingError :=
  let? enc := map_err UnsupportedEncoding (encoding_from_headers h) in
  match enc with
  | None => Ok (body, None)
  | Some enc =>
      let? (out, enc) := joined join (encoding_decode enc body max) in Ok (out, Some enc)
  end.

(** [encode_body]. *)
Definition encode_body (plaintext : Bytes) (enc : option SupportedEncoding) (join : option string)
    : Result Bytes BodyEncodingError :=
  match enc with
  | None => Ok plaintext
  | Some enc => joined join (encoding_encode enc plaintext)
  end.

(** ** Facts *)

Lemma bounded_read_ok r max out :
  (Z.of_nat max < u64_max)%Z →
  bounded_read_to_end r max = Ok out ↔
  length (yields r) ≤ max ∧ fails r = None ∧ out = yields r.
Proof.
  intros Hmax. unfold bounded_read_to_end, take_read_to_end.
  replace (Z.to_nat _) with (S max) by lia.
  destruct (decide (S max ≤ length (yields r))) as [Hl|Hl].
  - rewrite (bool_decide_eq_true_2 (S max ≤ _)) by done. simpl.
    rewrite length_take_le by done. rewrite bool_decide_eq_true_2 by lia. split; [done|lia].
  - rewrite (bool_decide_eq_false_2 (S max ≤ _)) by done.
    destruct (fails r); simpl; [naive_solver|]. rewrite bool_decide_eq_false_2 by lia.
    split; [intros [= <-]; split; [lia|done]|intros (_ & _ & ->); done].
Qed.

(** [C21] No body is inflated past the configured limit: what [decode_body]
    returns for an encoded body is at most [max] bytes, and is everything the
    decoder yields; a decoder that yields more, or fails, is an error, so a
    truncated prefix is never inspected in place of the body. *)
Theorem decode_body_bounded body h max join out enc :
  (Z.of_nat max < u64_max)%Z →
  decode_body body h max join = Ok (out, Some enc) →
  length out ≤ max ∧
  ∃ r, fails r = None ∧ yields r = out ∧
    (r ∈ [gz_reader body; zlib_reader body; deflate_reader body; brotli_reader body] ∨
     zstd_reader body = Ok r).
Proof.
  intros Hmax. unfold decode_body. destruct (encoding_from_headers h) as [[e|]|]; [|done..].
  destruct join as [j|]; [done|]. cbn [map_err joined].
  assert (∀ r o, bounded_read_to_end r max = Ok o → length o ≤ max ∧ fails r = None ∧ yields r = o) as H.
  { intros r o Hr. apply bounded_read_ok in Hr as (? & ? & ->); done. }
  destruct e as [|d| |]; cbn [encoding_decode].
  - destruct (bounded_read_to_end (gz_reader body) max) eqn:E; [|done]. intros [= <- <-].
    apply H in E as (? & ? & ?). split; [done|]. exists (gz_reader body). set_solver.
  - destruct (bounded_read_to_end (zlib_reader body) max) eqn:E.
    + intros [= <- <-]. apply H in E as (? & ? & ?). split; [done|]. exists (zlib_reader body). set_solver.
    + destruct (bounded_read_to_end (deflate_reader body) max) eqn:E2; [|done]. intros [= <- <-].
      apply H in E2 as (? & ? & ?). split; [done|]. exists (deflate_reader body). set_solver.
  - destruct (bounded_read_to_end (brotli_reader body) max) eqn:E; [|done]. intros [= <- <-].
    apply H in E as (? & ? & ?). split; [done|]. exists (brotli_reader body). set_solver.
  - destruct (zstd_reader body) as [r|] eqn:Ez; [|done]. cbn [map_err].
    destruct (bounded_read_to_end r max) eqn:E; [|done]. intros [= <- <-].
    apply H in E as (? & ? & ?). split; [done|]. exists r. split_and!; [done..|by right].
Qed.

End Encodings.

(** ** Samples: a codec that drops or adds a one-byte mark *)

Module Samples.
#[local] Existing Instance list_http.

Definition mark_reader (b : Bytes) : Reader :=
  match b with
  | m :: rest => if bool_decide (m = "z"%char) then {| yields := rest; fails := None |}
                 else {| yields := []; fails := Some "bad mark" |}
  | [] => {| yields := []; fails := Some "empty" |}
  end.

#[export] Instance mark_codecs : BodyCodecs := {|
  gz_reader := mark_reader; zlib_reader := mark_reader; deflate_reader := mark_reader;
  brotli_reader := mark_reader; zstd_reader b := Ok (mark_reader b);
  codec_encode _ b := Ok ("z"%char :: b);
|}.

Lemma decode_body_bounded_witness :
  decode_body (bytes_of "zabc") [("content-encoding", "gzip")] 3 None
    = Ok (bytes_of "abc", Some Gzip) ∧
  length (bytes_of "abc") ≤ 3.
Proof.
  assert (decode_body (bytes_of "zabc") [("content-encoding", "gzip")] 3 None
            = Ok (bytes_of "abc", Some Gzip)) as H by (vm_compute; reflexivity).
  split; [exact H|].
  destruct (decode_body_bounded _ _ 3 None _ _ ltac:(vm_compute; reflexivity) H) as [Hl _].
  exact Hl.
Defined.

End Samples.
