(* ===== verification/Composio.v ===== *)
(** * The Composio decoder ([composio/mod.rs], [composio/catalog.rs])

    Composio multiplexes many tools over two hosts.  Before generic
    normalisation a request to one of them is decoded: a discovery call passes
    through, an execution or an account-lifecycle call becomes one or more
    logical actions for the pipeline, anything else is denied.  The catalog
    pins the tools, their versions and their action classes.

    A [serde_json::Value] is a tree whose objects keep their entries in order
    ([serde_json] is built with ordered maps here); the parser is a parameter
    that may yield objects with repeated keys, which the decoder refuses. *)

From Stdlib Require Import SpecFloat.
From S2P Require Import Prelude RustStr ActionClasses Core Mapping MappingHost Redaction.
From S2P Require Import MappingTable Decision Json Normalizer Pipeline.

#[local] Open Scope string_scope.
#[local] Open Scope nat_scope.
#[local] Open Scope list_scope.

Definition BACKEND_HOST : string := "backend.composio.dev".
Definition APP_HOST : string := "app.composio.dev".
Definition MAX_MULTI_ACTIONS : nat := 50.
Definition PROTECTED_HOSTS : list string := [BACKEND_HOST; APP_HOST].
Definition LIFECYCLE_WRITE_ACTION_CLASS : string := "account.permission.change".
Definition LIFECYCLE_READ_ACTION_CLASS : string := "credential.read".
Definition LIFECYCLE_TOOLKIT : string := "composio".

Inductive VersionPolicy := Required | Optional.

#[export] Instance version_policy_eq_dec : EqDecision VersionPolicy.
Proof. solve_decision. Defined.

(** ** JSON values *)

#[warnings="-register-all"]
Inductive Value :=
| VNull
| VBool (b : bool)
| VInt (z : Z)
| VFloat (f : spec_float)
| VString (s : string)
| VArray (l : list Value)
| VObject (l : list (string * Value)).

(** [serde_json::Deserializer::from_slice] and [end], before the strict
    visitor. *)
Class JsonTree := json_tree : string → option Value.

Definition f64_finite (f : spec_float) : bool :=
  match f with S754_infinity _ | S754_nan => false | _ => true end.

(** [StrictJsonVisitor]: refuses a repeated key. *)
Fixpoint strict_value (v : Value) : option Value :=
  match v with
  | VFloat f => if f64_finite f then Some v else None
  | VArray l =>
      VArray <$>
        (fix go (l : list Value) : option (list Value) :=
           match l with
           | [] => Some []
           | x :: l => y ← strict_value x; ys ← go l; Some (y :: ys)
           end) l
  | VObject l =>
      VObject <$>
        (fix go (seen : list string) (l : list (string * Value)) : option (list (string * Value)) :=
           match l with
           | [] => Some []
           | (k, x) :: l =>
               if bool_decide (k ∈ seen) then None
               else y ← strict_value x; ys ← go (k :: seen) l; Some ((k, y) :: ys)
           end) [] l
  | v => Some v
  end.

(** [parse_json_without_duplicate_keys]. *)
Definition parse_json_without_duplicate_keys `{!JsonTree} (body : string) : option Value :=
  json_tree body ≫= strict_value.

Abbreviation Obj := (list (string * Value)).

(** [Map::get], [contains_key], [value_as_str], [as_object], [as_array]. *)
Definition obj_get (key : string) (o : Obj) : option Value :=
  snd <$> find (λ kv, bool_decide (fst kv = key)) o.

Definition value_as_str (v : Value) : option string := match v with VString s => Some s | _ => None end.
Definition as_object (v : Value) : option Obj := match v with VObject o => Some o | _ => None end.
Definition as_array (v : Value) : option (list Value) :=
  match v with VArray l => Some l | _ => None end.
Definition is_null (v : Value) : bool := match v with VNull => true | _ => false end.

(** [str::is_empty] as a [filter]. *)
Definition non_empty (s : string) : option string := if is_empty s then None else Some s.

(** [string_field]. *)
Definition string_field (o : Obj) (key : string) : option string :=
  (obj_get key o ≫= value_as_str) ≫= non_empty.

(** ** The catalog *)

Record CatalogEntry := { ce_toolkit : string; ce_version : string; ce_action_class : string }.

Record SourceTool := { st_toolkit : string; st_version : string; st_slug : string }.
Record CatalogSource := { cs_toolkit : string; cs_version : string; cs_tools : list SourceTool }.
Record CatalogMapping := {
  cmap_toolkit : string;
  cmap_version : string;
  cmap_mappings : gmap string (option string);
}.

Inductive CatalogError :=
| MalformedSource | MalformedMapping | VersionMismatch | DuplicateSlug | WrongToolkitPrefix
| ToolMetadataMismatch | UnknownActionClassC | MissingMapping | SourceMappingDifference.

(** [serde_json::from_str] of the two files. *)
Class CatalogJson := {
  source_from_str : string → option CatalogSource;
  mapping_from_str : string → option CatalogMapping;
}.

(** The loop of [validate_pair] over the tools: the slugs seen. *)
Fixpoint validate_tools (source : CatalogSource) (prefix : string) (seen : gset string)
    (tools : list SourceTool) : Result (gset string) CatalogError :=
  match tools with
  | [] => Ok seen
  | tool :: tools =>
      if negb (bool_decide (st_toolkit tool = cs_toolkit source))
         || negb (bool_decide (st_version tool = cs_version source))
      then Err ToolMetadataMismatch
      else if negb (starts_with prefix (st_slug tool)) then Err WrongToolkitPrefix
      else if bool_decide (st_slug tool ∈ seen) then Err DuplicateSlug
      else validate_tools source prefix ({[st_slug tool]} ∪ seen) tools
  end.

(** The classes of the mapping, in the iteration order of the map; the first
    offending entry decides which of the two errors is returned. *)
Fixpoint validate_classes (classes : list (option string)) : Result unit CatalogError :=
  match classes with
  | [] => Ok tt
  | None :: _ => Err MissingMapping
  | Some c :: classes =>
      match ActionClass.from_str c with
      | Err _ => Err UnknownActionClassC
      | Ok _ => validate_classes classes
      end
  end.

(** [validate_pair]. *)
Definition validate_pair (source : CatalogSource) (mapping : CatalogMapping)
    : Result unit CatalogError :=
  if negb (bool_decide (cs_toolkit source = cmap_toolkit mapping))
     || negb (bool_decide (cs_version source = cmap_version mapping))
  then Err VersionMismatch
  else
    let? slugs := validate_tools source (to_ascii_uppercase (cs_toolkit source) +:+ "_") ∅
                    (cs_tools source) in
    if negb (Nat.eqb (size slugs) (size (cmap_mappings mapping)))
       || negb (forallb (λ slug, bool_decide (is_Some (cmap_mappings mapping !! slug)))
                  (elements slugs))
    then Err SourceMappingDifference
    else validate_classes (snd <$> map_to_list (cmap_mappings mapping)).

(** The entries of one source. *)
Fixpoint insert_tools (source : CatalogSource) (mapping : CatalogMapping)
    (entries : gmap string CatalogEntry) (tools : list SourceTool)
    : Result (gmap string CatalogEntry) CatalogError :=
  match tools with
  | [] => Ok entries
  | tool :: tools =>
      match cmap_mappings mapping !! st_slug tool with
      | None => Err SourceMappingDifference
      | Some None => Err MissingMapping
      | Some (Some action_class) =>
          if bool_decide (is_Some (entries !! st_slug tool)) then Err DuplicateSlug
          else insert_tools source mapping
                 (<[st_slug tool := {| ce_toolkit := cs_toolkit source;
                                       ce_version := cs_version source;
                                       ce_action_class := action_class |}]> entries) tools
      end
  end.

Section Catalog.
Context {CJ : CatalogJson}.

Record ComposioCatalogs := { cat_entries : gmap string CatalogEntry }.

(** [ComposioCatalogs::from_json_pairs]. *)
Fixpoint from_pairs (entries : gmap string CatalogEntry) (pairs : list (string * string))
    : Result (gmap string CatalogEntry) CatalogError :=
  match pairs with
  | [] => Ok entries
  | (source_json, mapping_json) :: pairs =>
      let? source := ok_or (source_from_str source_json) MalformedSource in
      let? mapping := ok_or (mapping_from_str mapping_json) MalformedMapping in
      let? _ := validate_pair source mapping in
      let? entries := insert_tools source mapping entries (cs_tools source) in
      from_pairs entries pairs
  end.

Definition from_json_pairs (pairs : list (string * string))
    : Result ComposioCatalogs CatalogError :=
  let? entries := from_pairs ∅ pairs in Ok {| cat_entries := entries |}.

(** [ComposioCatalogs::lookup], [len]. *)
Definition cat_lookup (c : ComposioCatalogs) (slug : string) : option CatalogEntry :=
  cat_entries c !! slug.

Definition cat_len (c : ComposioCatalogs) : nat := size (cat_entries c).

End Catalog.

(** ** Hosts and paths *)

Definition colon : ascii := ":"%char.
Definition dot : ascii := "."%char.

(** [canonical_host]. *)
Definition canonical_host (host : string) : string :=
  let normalized := to_ascii_lowercase (trim_end_char dot (trim host)) in
  let without_port :=
    match rsplit_once colon normalized with
    | Some (name, port) =>
        if negb (is_empty name) && negb (is_empty port) && str_forallb is_ascii_digit port
        then name else normalized
    | None => normalized
    end in
  trim_end_char dot without_port.

(** [is_protected_host]. *)
Definition is_protected_host (host : Authority) : bool :=
  bool_decide (canonical_host host = BACKEND_HOST) || bool_decide (canonical_host host = APP_HOST).

(** [path_only]. *)
Definition path_only (path : string) : string :=
  match split_once "?"%char path with Some (p, _) => p | None => path end.

(** [path.split('/').filter(..)]. *)
Definition path_parts (path : string) : list string :=
  filter (λ s, s ≠ "") (split_char slash path).

Definition is_api_version (s : string) : bool :=
  bool_decide (s = "v3") || bool_decide (s = "v3.1").

Definition eqs (a b : string) : bool := bool_decide (a = b).

(** What follows [api/v3] or [api/v3.1]. *)
Definition api_rest (parts : list string) : option (list string) :=
  match parts with
  | a :: v :: rest => if eqs a "api" && is_api_version v then Some rest else None
  | _ => None
  end.

(** [is_mcp_route]. *)
Definition is_mcp_route (parts : list string) : bool :=
  match parts with
  | [a; v; b; c] =>
      (eqs a "tool_router" && is_api_version v && eqs c "mcp")
      || (eqs a "api" && is_api_version v && eqs b "mcp" && negb (eq_ignore_ascii_case c "servers"))
  | _ => false
  end.

Definition is_mcp_path (path : string) : bool := is_mcp_route (path_parts path).

(** [mcp_session_id]. *)
Definition mcp_session_id (path : string) : option string :=
  match path_parts path with
  | [a; v; b; c] =>
      if eqs a "tool_router" && is_api_version v && eqs c "mcp" then Some b
      else if eqs a "api" && is_api_version v && eqs b "mcp" then Some c
      else None
  | _ => None
  end.

(** [is_recognized_non_execution_path]. *)
Definition is_recognized_non_execution_path (host path : string) : bool :=
  let parts := path_parts path in
  if is_mcp_route parts then true
  else if eqs host APP_HOST then false
  else match api_rest parts with
       | Some (t :: rest) =>
           if eqs t "tools" then match rest with [] | [_] => true | _ => false end
           else if eqs t "toolkits" then true
           else if eqs t "tool_router" then
             match rest with
             | s :: rest =>
                 eqs s "session" &&
                 match rest with
                 | [] | [_] => true
                 | [_; w] => eqs w "tools" || eqs w "toolkits" || eqs w "search" || eqs w "link"
                 | _ => false
                 end
             | [] => false
             end
           else false
       | _ => false
       end.

(** [LifecycleRoute] and [classify_lifecycle_route]. *)
Inductive LifecycleRoute :=
| Family (noun : string) (account_id : option string) (is_collection : bool)
| SessionRoute (session_id : string)
| SessionLink (session_id : string).

Definition classify_lifecycle_route (path : string) : option LifecycleRoute :=
  match api_rest (path_parts path) with
  | Some (t :: rest) =>
      if eqs t "connected_accounts" || eqs t "auth_configs" then
        let is_link := eqs t "connected_accounts" && bool_decide (head rest = Some "link") in
        Some (Family (if eqs t "connected_accounts" then "CONNECTED_ACCOUNT" else "AUTH_CONFIG")
                (if eqs t "connected_accounts" && negb is_link then head rest else None)
                (match rest with [] => true | _ => false end || is_link))
      else if eqs t "tool_router" then
        match rest with
        | [s; session_id] => if eqs s "session" then Some (SessionRoute session_id) else None
        | [s; session_id; l] =>
            if eqs s "session" && eqs l "link" then Some (SessionLink session_id) else None
        | _ => None
        end
      else None
  | _ => None
  end.

(** ** Decoding *)

Record ProtocolDenial := { pd_code : string; pd_detail : string }.

Section Decode.
Context {HC : HttpCrate} {JT : JsonTree}.

Inductive DecodeResult :=
| Unrelated
| DPassthrough
| Actions (actions : list ComposioAction)
| DDenied (denial : ProtocolDenial).

Definition deny (code detail : string) : DecodeResult :=
  DDenied {| pd_code := code; pd_detail := detail |}.

Definition insert_optional (key : string) (value : option string) (resource : gmap string string)
    : gmap string string :=
  match value with Some v => <[key := v]> resource | None => resource end.

(** [logical_envelope]; [now] is [Utc::now()]. *)
Definition logical_envelope (now : Z) (request : RawRequest) (action_class : string)
    (context : ComposioContext) (method : HttpMethod) : NormalizedEnvelope :=
  let resource : gmap string string :=
    <["composio_tool_slug" := cc_tool_slug context]>
    (<["composio_toolkit" := cc_toolkit context]>
    (<["policy_resource" := "composio://" +:+ cc_toolkit context +:+ "/" +:+ cc_tool_slug context]>
    (<["provider" := "composio"]>
    (<["path" := path_only (rq_path request)]>
    (<["host" := normalize_dispatch_host (rq_host request) (rq_is_https request)]> ∅))))) in
  let resource := insert_optional "composio_user_id" (cc_user_id context) resource in
  let resource := insert_optional "composio_account" (cc_connected_account_id context) resource in
  let resource := insert_optional "composio_session_id" (cc_session_id context) resource in
  let resource := insert_optional "composio_batch_index" (display_uint <$> cc_batch_index context)
                    resource in
  let resource := insert_optional "composio_batch_size" (display_uint <$> cc_batch_size context)
                    resource in
  {| ne_intent :=
       {| action_class := action_class; resource := resource;
          params := Http {| hp_method := method; hp_headers := hm_from_iter [];
                            hp_body := None; hp_query := ∅ |};
          raw_transport := if rq_is_https request then "https" else "http";
          raw_action_ref := http_method_as_str method +:+ " " +:+ path_only (rq_path request) |};
     ne_timestamp := now |}.

(** [action_for_tool]. *)
Definition action_for_tool (now : Z) (request : RawRequest) (slug : string)
    (version user_id account session_id : option string) (batch : option (Z * Z))
    (policy : VersionPolicy) (catalogs : ComposioCatalogs)
    : Result ComposioAction ProtocolDenial :=
  match cat_lookup catalogs slug with
  | None =>
      Err {| pd_code := "unknown_tool";
             pd_detail := "Composio tool is not in a pinned local catalog" |}
  | Some entry =>
      let versioned :=
        match version with
        | Some v =>
            if negb (eqs v (ce_version entry)) then
              Some {| pd_code := "version_mismatch";
                      pd_detail := "Composio toolkit version does not match the pinned catalog" |}
            else None
        | None =>
            if bool_decide (policy = Required) then
              Some {| pd_code := "unpinned_tool";
                      pd_detail := "Composio execution requires a pinned toolkit version" |}
            else None
        end in
      match versioned with
      | Some denial => Err denial
      | None =>
          let context :=
            {| cc_toolkit := ce_toolkit entry; cc_tool_slug := slug; cc_user_id := user_id;
               cc_connected_account_id := account; cc_session_id := session_id;
               cc_batch_index := fst <$> batch; cc_batch_size := snd <$> batch |} in
          Ok {| ca_envelope := logical_envelope now request (ce_action_class entry) context POST;
                ca_context := context |}
      end
  end.

(** [decode_tool]. *)
Definition decode_tool (now : Z) (request : RawRequest) (slug : string)
    (version user_id account session_id : option string) (batch : option (Z * Z))
    (policy : VersionPolicy) (catalogs : ComposioCatalogs) : DecodeResult :=
  match action_for_tool now request slug version user_id account session_id batch policy
          catalogs with
  | Ok action => Actions [action]
  | Err denial => DDenied denial
  end.

Definition or_else {A} (a b : option A) : option A := match a with Some x => Some x | None => b end.

Definition invalid_multi : ProtocolDenial :=
  {| pd_code := "malformed_payload"; pd_detail := "invalid Composio multi-execute payload" |}.

(** The loop of [decode_multi]: [index] of the next tool out of [size]. *)
Fixpoint multi_loop (now : Z) (request : RawRequest) (session_id : option string)
    (policy : VersionPolicy) (catalogs : ComposioCatalogs) (index size : Z) (tools : list Value)
    : Result (list ComposioAction) ProtocolDenial :=
  match tools with
  | [] => Ok []
  | tool :: tools =>
      let? tool := ok_or (as_object tool) invalid_multi in
      let? slug := ok_or (string_field tool "tool_slug") invalid_multi in
      let? action :=
        action_for_tool now request slug (string_field tool "version") (string_field tool "user_id")
          (or_else (string_field tool "account") (string_field tool "connected_account_id"))
          session_id (Some (index, size)) policy catalogs in
      let? rest := multi_loop now request session_id policy catalogs (index + 1) size tools in
      Ok (action :: rest)
  end.

(** [decode_multi]; the list is short enough for the [u32] conversions. *)
Definition decode_multi (now : Z) (request : RawRequest) (arguments : option Obj)
    (session_id : option string) (policy : VersionPolicy) (catalogs : ComposioCatalogs)
    : DecodeResult :=
  match (arguments ≫= obj_get "tools") ≫= as_array with
  | None => DDenied invalid_multi
  | Some tools =>
      if Nat.eqb (length tools) 0 || Nat.ltb MAX_MULTI_ACTIONS (length tools) then
        deny "invalid_batch_size" "Composio multi-execute requires between 1 and 50 tools"
      else match multi_loop now request session_id policy catalogs 0 (Z.of_nat (length tools)) tools with
           | Ok actions => Actions actions
           | Err denial => DDenied denial
           end
  end.

Definition invalid_execution : DecodeResult :=
  deny "malformed_payload" "invalid Composio execution payload".

(** [decode_meta]. *)
Definition decode_meta (now : Z) (request : RawRequest) (slug : string) (arguments : option Obj)
    (session_id : option string) (policy : VersionPolicy) (catalogs : ComposioCatalogs)
    : DecodeResult :=
  if eqs slug "COMPOSIO_MULTI_EXECUTE_TOOL" then
    decode_multi now request arguments session_id policy catalogs
  else if eqs slug "COMPOSIO_EXECUTE_TOOL" then
    match arguments with
    | None => invalid_execution
    | Some arguments =>
        match string_field arguments "tool_slug" with
        | None => invalid_execution
        | Some child_slug =>
            decode_tool now request child_slug (string_field arguments "version")
              (string_field arguments "user_id")
              (or_else (string_field arguments "account")
                 (string_field arguments "connected_account_id"))
              session_id None policy catalogs
        end
    end
  else if eqs slug "COMPOSIO_SEARCH_TOOLS" || eqs slug "COMPOSIO_GET_TOOL_SCHEMAS" then DPassthrough
  else if eqs slug "COMPOSIO_REMOTE_BASH_TOOL" || eqs slug "COMPOSIO_REMOTE_WORKBENCH" then
    deny "remote_execution_unsupported" "Composio shell and workbench execution are unsupported"
  else deny "unsupported_meta_tool" "unsupported Composio meta-tool".

Definition starts_composio (slug : string) : bool := starts_with "COMPOSIO_" slug.

Definition invalid_rpc : DecodeResult :=
  deny "malformed_payload" "invalid Composio JSON-RPC payload".

(** [decode_mcp]. *)
Definition decode_mcp (now : Z) (request : RawRequest) (payload : Obj)
    (catalogs : ComposioCatalogs) : DecodeResult :=
  match string_field payload "method" with
  | None => invalid_rpc
  | Some method =>
  if negb (eqs method "tools/call") then
    if eqs method "initialize" || eqs method "notifications/initialized" || eqs method "ping"
       || eqs method "tools/list"
    then DPassthrough
    else deny "unsupported_mcp_method" "unsupported Composio JSON-RPC method"
  else match obj_get "params" payload ≫= as_object with
  | None => invalid_rpc
  | Some params =>
  match string_field params "name" with
  | None => invalid_rpc
  | Some slug =>
      let arguments := obj_get "arguments" params ≫= as_object in
      let session_id := mcp_session_id (path_only (rq_path request)) in
      if starts_composio slug then decode_meta now request slug arguments session_id Optional catalogs
      else
        let account := arguments ≫= λ a, or_else (string_field a "account")
                                           (string_field a "connected_account_id") in
        let version := arguments ≫= λ a, string_field a "version" in
        decode_tool now request slug version None account session_id None Optional catalogs
  end end end.

(** [decode_direct]. *)
Definition decode_direct (now : Z) (request : RawRequest) (payload : Obj) (slug : string)
    (catalogs : ComposioCatalogs) : DecodeResult :=
  if eqs slug "proxy" then
    deny "raw_proxy_unsupported" "Composio raw proxy execution is unsupported"
  else decode_tool now request slug (string_field payload "version")
         (string_field payload "user_id") (string_field payload "connected_account_id")
         None None Required catalogs.

(** [decode_session]. *)
Definition decode_session (now : Z) (request : RawRequest) (payload : Obj)
    (session_id : option string) (catalogs : ComposioCatalogs) : DecodeResult :=
  match obj_get "experimental" payload with
  | Some _ => deny "custom_tools_unsupported" "experimental Composio custom tools are unsupported"
  | None =>
      match string_field payload "tool_slug" with
      | None => invalid_execution
      | Some slug =>
          if starts_composio slug then
            decode_meta now request slug (obj_get "arguments" payload ≫= as_object) session_id
              Optional catalogs
          else decode_tool now request slug (string_field payload "version")
                 (string_field payload "user_id") (string_field payload "account") session_id
                 None Optional catalogs
      end
  end.

(** [decode_meta_route]. *)
Definition decode_meta_route (now : Z) (request : RawRequest) (payload : Obj)
    (session_id : option string) (catalogs : ComposioCatalogs) : DecodeResult :=
  match string_field payload "tool_slug" with
  | None => invalid_execution
  | Some slug =>
      decode_meta now request slug (obj_get "arguments" payload ≫= as_object) session_id
        Optional catalogs
  end.

Definition unsupported_route : DecodeResult :=
  deny "unsupported_route" "unsupported Composio route".

Definition lifecycle_context (slug : string) (user_id account session_id : option string)
    : ComposioContext :=
  {| cc_toolkit := LIFECYCLE_TOOLKIT; cc_tool_slug := slug; cc_user_id := user_id;
     cc_connected_account_id := account; cc_session_id := session_id;
     cc_batch_index := None; cc_batch_size := None |}.

(** [lifecycle_action]. *)
Definition lifecycle_action (now : Z) (request : RawRequest) (action_class slug : string)
    (session_id account : option string) : DecodeResult :=
  match http_method_try_from (rq_method request) with
  | Err _ => unsupported_route
  | Ok method =>
      let context := lifecycle_context slug None account session_id in
      Actions [{| ca_envelope := logical_envelope now request action_class context method;
                  ca_context := context |}]
  end.

Definition invalid_selection : ProtocolDenial :=
  {| pd_code := "malformed_payload"; pd_detail := "invalid Composio session account selection" |}.

(** The two loops of [selected_session_accounts]: the accounts and the total. *)
Fixpoint select_ids (ids : list Value) (accounts : list string) (total : nat)
    : Result (list string * nat) ProtocolDenial :=
  match ids with
  | [] => Ok (accounts, total)
  | id :: ids =>
      let? id := ok_or (value_as_str id ≫= non_empty) invalid_selection in
      let total := S total in
      if Nat.ltb MAX_MULTI_ACTIONS total then
        Err {| pd_code := "invalid_batch_size";
               pd_detail := "Composio session account selections are limited to 50 account entries" |}
      else select_ids ids
             (if bool_decide (id ∈ accounts) then accounts else accounts ++ [id]) total
  end.

Fixpoint select_toolkits (by_toolkit : Obj) (accounts : list string) (total : nat)
    : Result (list string) ProtocolDenial :=
  match by_toolkit with
  | [] => Ok accounts
  | (_, ids) :: rest =>
      let? ids := ok_or (as_array ids) invalid_selection in
      let? (accounts, total) := select_ids ids accounts total in
      select_toolkits rest accounts total
  end.

(** [selected_session_accounts]. *)
Definition selected_session_accounts (payload : Obj)
    : Result (option (list string)) ProtocolDenial :=
  match obj_get "connected_accounts" payload with
  | None | Some VNull => Ok None
  | Some selected =>
      let? by_toolkit := ok_or (as_object selected) invalid_selection in
      let? accounts := select_toolkits by_toolkit [] 0 in
      Ok (match accounts with [] => None | _ => Some accounts end)
  end.

(** [session_perimeter_actions]. *)
Definition session_perimeter_actions (now : Z) (request : RawRequest) (slug : string)
    (session_id user_id : option string) (payload : Obj) : DecodeResult :=
  match http_method_try_from (rq_method request) with
  | Err _ => unsupported_route
  | Ok method =>
      match selected_session_accounts payload with
      | Err denial => DDenied denial
      | Ok accounts =>
          let bound := match accounts with None => [None] | Some l => Some <$> l end in
          Actions ((λ account,
             let context := lifecycle_context slug user_id account session_id in
             {| ca_envelope :=
                  logical_envelope now request LIFECYCLE_WRITE_ACTION_CLASS context method;
                ca_context := context |}) <$> bound)
      end
  end.

(** [decode_session_creation] and [decode_session_update]. *)
Definition decode_session_creation (now : Z) (request : RawRequest) (payload : Obj)
    : DecodeResult :=
  session_perimeter_actions now request "COMPOSIO_CREATE_SESSION" None
    (string_field payload "user_id") payload.

Definition invalid_session : DecodeResult :=
  deny "malformed_payload" "invalid Composio session payload".

Definition decode_session_update (now : Z) (request : RawRequest) (session_id : string)
    : DecodeResult :=
  match rq_body request with
  | None =>
      lifecycle_action now request LIFECYCLE_WRITE_ACTION_CLASS "COMPOSIO_UPDATE_SESSION"
        (Some session_id) None
  | Some body =>
      match parse_json_without_duplicate_keys body with
      | None => invalid_session
      | Some payload =>
          match as_object payload with
          | None => invalid_session
          | Some payload =>
              session_perimeter_actions now request "COMPOSIO_UPDATE_SESSION" (Some session_id)
                None payload
          end
      end
  end.

Definition method_in (request : RawRequest) (methods : list string) : bool :=
  bool_decide (rq_method request ∈ methods).

(** [decode_lifecycle_write]. *)
Definition decode_lifecycle_write (now : Z) (request : RawRequest) (host : string)
    : option DecodeResult :=
  if negb (eqs host BACKEND_HOST) || negb (method_in request ["POST"; "PUT"; "PATCH"; "DELETE"])
  then None
  else match classify_lifecycle_route (path_only (rq_path request)) with
       | None => None
       | Some (Family noun account_id is_collection) =>
           let verb :=
             if method_in request ["POST"] && is_collection then "CREATE"
             else if method_in request ["DELETE"] then "DELETE" else "UPDATE" in
           Some (lifecycle_action now request LIFECYCLE_WRITE_ACTION_CLASS
                   ("COMPOSIO_" +:+ verb +:+ "_" +:+ noun) None account_id)
       | Some (SessionRoute session_id) =>
           if method_in request ["POST"] then None
           else if method_in request ["DELETE"] then
             Some (lifecycle_action now request LIFECYCLE_WRITE_ACTION_CLASS
                     "COMPOSIO_DELETE_SESSION" (Some session_id) None)
           else Some (decode_session_update now request session_id)
       | Some (SessionLink session_id) =>
           if method_in request ["POST"] then
             Some (lifecycle_action now request LIFECYCLE_WRITE_ACTION_CLASS
                     "COMPOSIO_LINK_SESSION_ACCOUNT" (Some session_id) None)
           else None
       end.

(** [decode_lifecycle_read]. *)
Definition decode_lifecycle_read (now : Z) (request : RawRequest) (host : string)
    : option DecodeResult :=
  if negb (eqs host BACKEND_HOST) || negb (method_in request ["GET"; "HEAD"; "OPTIONS"]) then None
  else match classify_lifecycle_route (path_only (rq_path request)) with
       | Some (Family noun account_id is_collection) =>
           let verb := if is_collection then "LIST" else "GET" in
           Some (lifecycle_action now request LIFECYCLE_READ_ACTION_CLASS
                   ("COMPOSIO_" +:+ verb +:+ "_" +:+ noun) None account_id)
       | _ => None
       end.

(** [decode_backend]. *)
Definition decode_backend (now : Z) (request : RawRequest) (payload : Obj)
    (catalogs : ComposioCatalogs) : DecodeResult :=
  match decode_lifecycle_write now request BACKEND_HOST with
  | Some result => result
  | None =>
      match api_rest (path_parts (path_only (rq_path request))) with
      | Some [a; b; slug] =>
          if eqs a "tools" && eqs b "execute" then decode_direct now request payload slug catalogs
          else unsupported_route
      | Some [a; b; session_id; w] =>
          if eqs a "tool_router" && eqs b "session" && eqs w "execute" then
            decode_session now request payload (Some session_id) catalogs
          else if eqs a "tool_router" && eqs b "session" && eqs w "execute_meta" then
            decode_meta_route now request payload (Some session_id) catalogs
          else unsupported_route
      | Some [a; b] =>
          if eqs a "tool_router" && eqs b "session" then
            decode_session_creation now request payload
          else unsupported_route
      | _ => unsupported_route
      end
  end.

(** [decode_protected]. *)
Definition decode_protected (now : Z) (request : RawRequest) (host : string)
    (catalogs : ComposioCatalogs) : DecodeResult :=
  if negb (eqs (rq_method request) "POST") then
    match or_else (decode_lifecycle_write now request host)
            (decode_lifecycle_read now request host) with
    | Some result => result
    | None =>
        let path := path_only (rq_path request) in
        if negb (is_recognized_non_execution_path host path) then unsupported_route
        else
          let allowed :=
            if is_mcp_path path then method_in request ["GET"; "HEAD"; "OPTIONS"; "DELETE"]
            else method_in request ["GET"; "HEAD"; "OPTIONS"] in
          if allowed then DPassthrough else unsupported_route
    end
  else match rq_body request with
  | None => invalid_execution
  | Some body =>
  match parse_json_without_duplicate_keys body with
  | None => invalid_execution
  | Some (VArray _) =>
      deny "json_rpc_batch_unsupported" "Composio JSON-RPC batches are unsupported"
  | Some (VObject object) =>
      if is_mcp_path (path_only (rq_path request)) then decode_mcp now request object catalogs
      else if eqs host APP_HOST then unsupported_route
      else decode_backend now request object catalogs
  | Some _ => invalid_execution
  end end.

(** [is_lifecycle_read]. *)
Definition is_lifecycle_read (r : DecodeResult) : bool :=
  match r with
  | Actions actions =>
      negb (Nat.eqb (length actions) 0) &&
      forallb (λ a, eqs (cc_toolkit (ca_context a)) LIFECYCLE_TOOLKIT
                    && eqs (action_class (ne_intent (ca_envelope a))) LIFECYCLE_READ_ACTION_CLASS)
        actions
  | _ => false
  end.

Definition is_actions (r : DecodeResult) : bool :=
  match r with Actions _ => true | _ => false end.

(** [decode]; [now] is the clock of [logical_envelope]. *)
Definition decode (now : Z) (request : RawRequest) (catalogs : ComposioCatalogs) : DecodeResult :=
  let host := canonical_host (rq_host request) in
  if negb (eqs host BACKEND_HOST) && negb (eqs host APP_HOST) then Unrelated
  else if contains_char "?"%char (rq_path request) && is_mcp_path (path_only (rq_path request)) then
    deny "query_string_unsupported" "Composio MCP requests must not carry a query string"
  else
    let result := decode_protected now request host catalogs in
    if is_actions result && contains_char "?"%char (rq_path request)
       && negb (is_lifecycle_read result)
    then deny "query_string_unsupported" "Composio governed requests must not carry a query string"
    else result.

(** ** Facts: governed actions *)

(** How an action relates to the request and to the catalog: its envelope
    carries no header, body or query of the request, and its class is the one
    the catalog pins for its tool, or a lifecycle class. *)
Definition governed (now : Z) (request : RawRequest) (catalogs : ComposioCatalogs)
    (a : ComposioAction) : Prop :=
  ∃ cls method,
    ca_envelope a = logical_envelope now request cls (ca_context a) method ∧
    ((cc_toolkit (ca_context a) = LIFECYCLE_TOOLKIT ∧
      (cls = LIFECYCLE_WRITE_ACTION_CLASS ∨ cls = LIFECYCLE_READ_ACTION_CLASS)) ∨
     (∃ entry, cat_lookup catalogs (cc_tool_slug (ca_context a)) = Some entry ∧
        cc_toolkit (ca_context a) = ce_toolkit entry ∧ cls = ce_action_class entry)).

(** A decoded result: the actions are governed and between 1 and 50. *)
Definition governed_result (now : Z) (request : RawRequest) (catalogs : ComposioCatalogs)
    (r : DecodeResult) : Prop :=
  match r with
  | Actions l => Forall (governed now request catalogs) l ∧ 1 ≤ length l ≤ MAX_MULTI_ACTIONS
  | Unrelated => False
  | _ => True
  end.

Section Facts.
Context (now : Z) (request : RawRequest) (catalogs : ComposioCatalogs).

Abbreviation ok := (governed_result now request catalogs).

Lemma deny_ok c d : ok (deny c d).
Proof. done. Qed.

Lemma action_for_tool_governed slug v u acc sid b pol a :
  action_for_tool now request slug v u acc sid b pol catalogs = Ok a →
  governed now request catalogs a ∧
  cc_batch_index (ca_context a) = fst <$> b ∧ cc_batch_size (ca_context a) = snd <$> b.
Proof.
  unfold action_for_tool. destruct (cat_lookup catalogs slug) as [entry|] eqn:E; [|done].
  destruct (match v with Some _ => _ | None => _ end); [done|]. intros [= <-]. simpl.
  split; [|done]. exists (ce_action_class entry), POST. split; [done|]. right. by exists entry.
Qed.

Lemma decode_tool_ok slug v u acc sid b pol :
  ok (decode_tool now request slug v u acc sid b pol catalogs).
Proof.
  unfold decode_tool. destruct (action_for_tool _ _ _ _ _ _ _ _ _ _) as [a|] eqn:E; [|done].
  apply action_for_tool_governed in E as [H _]. split; [by constructor|].
  unfold MAX_MULTI_ACTIONS. simpl. lia.
Qed.

Lemma multi_loop_spec sid pol size : ∀ tools index l,
  multi_loop now request sid pol catalogs index size tools = Ok l →
  length l = length tools ∧ Forall (governed now request catalogs) l ∧
  (∀ i a, l !! i = Some a →
     cc_batch_index (ca_context a) = Some (index + Z.of_nat i)%Z ∧
     cc_batch_size (ca_context a) = Some size).
Proof.
  induction tools as [|tool tools IH]; intros index l; simpl; [by intros [= <-]|].
  destruct (as_object tool) as [o|]; simpl; [|done].
  destruct (string_field o "tool_slug") as [slug|]; simpl; [|done].
  destruct (action_for_tool _ _ _ _ _ _ _ _ _ _) as [a|] eqn:Ea; [|done].
  destruct (multi_loop _ _ _ _ _ _ _ tools) as [rest|] eqn:El; [|done].
  intros [= <-]. apply action_for_tool_governed in Ea as (Hg & Hi & Hs).
  destruct (IH _ _ El) as (Hl & Hall & Hidx). split_and!; [simpl; by f_equal|by constructor|].
  intros [|i] b Hb; simpl in Hb.
  - injection Hb as <-. rewrite Hi, Hs. simpl. by rewrite Z.add_0_r.
  - destruct (Hidx i b Hb) as [H1 H2]. split; [|done]. rewrite H1. f_equal. lia.
Qed.

Lemma decode_multi_ok args sid pol : ok (decode_multi now request args sid pol catalogs).
Proof.
  unfold decode_multi. destruct ((args ≫= obj_get "tools") ≫= as_array) as [tools|]; [|done].
  destruct (_ || _) eqn:E; [done|]. apply orb_false_iff in E as [E1%Nat.eqb_neq E2%Nat.ltb_ge].
  destruct (multi_loop _ _ _ _ _ _ _ _) as [l|] eqn:El; [|done].
  apply multi_loop_spec in El as (Hl & Hg & _). split; [done|lia].
Qed.

Lemma decode_meta_ok slug args sid pol : ok (decode_meta now request slug args sid pol catalogs).
Proof.
  unfold decode_meta. destruct (eqs slug _); [apply decode_multi_ok|].
  destruct (eqs slug _).
  { destruct args as [args|]; [|done]. destruct (string_field args _); [|done].
    apply decode_tool_ok. }
  destruct (_ || _); [done|]. by destruct (_ || _).
Qed.

Lemma decode_mcp_ok payload : ok (decode_mcp now request payload catalogs).
Proof.
  unfold decode_mcp. destruct (string_field payload "method") as [m|]; [|done].
  destruct (negb _); [by destruct (_ || _)|].
  destruct (obj_get "params" payload ≫= as_object) as [params|]; [|done].
  destruct (string_field params "name") as [slug|]; [|done].
  destruct (starts_composio slug); [apply decode_meta_ok|apply decode_tool_ok].
Qed.

Lemma lifecycle_governed cls ctx m :
  cc_toolkit ctx = LIFECYCLE_TOOLKIT →
  cls = LIFECYCLE_WRITE_ACTION_CLASS ∨ cls = LIFECYCLE_READ_ACTION_CLASS →
  governed now request catalogs
    {| ca_envelope := logical_envelope now request cls ctx m; ca_context := ctx |}.
Proof. intros Ht Hc. exists cls, m. split; [done|]. by left. Qed.

Lemma lifecycle_action_ok cls slug sid acc :
  cls = LIFECYCLE_WRITE_ACTION_CLASS ∨ cls = LIFECYCLE_READ_ACTION_CLASS →
  ok (lifecycle_action now request cls slug sid acc).
Proof.
  intros Hc. unfold lifecycle_action. destruct (http_method_try_from _); [|done].
  split; [|unfold MAX_MULTI_ACTIONS; simpl; lia]. constructor; [|constructor].
  by apply lifecycle_governed.
Qed.

Lemma select_ids_spec ids : ∀ accounts total l total',
  select_ids ids accounts total = Ok (l, total') →
  length accounts ≤ total → total ≤ MAX_MULTI_ACTIONS →
  length l ≤ total' ∧ total' ≤ MAX_MULTI_ACTIONS ∧
  (∀ x, x ∈ accounts → x ∈ l) ∧ (∀ x, VString x ∈ ids → x ∈ l).
Proof.
  induction ids as [|id ids IH]; intros accounts total l total'; simpl.
  { intros [= <- <-] ? ?. split_and!; [done..|]. by intros x ?%elem_of_nil. }
  destruct (value_as_str id ≫= non_empty) as [x|] eqn:Ex; simpl; [|done].
  destruct (Nat.ltb_spec MAX_MULTI_ACTIONS (S total)); [done|]. intros Hs Hl _.
  assert (id = VString x) as ->.
  { destruct id; try done. simpl in Ex. unfold non_empty in Ex.
    destruct (is_empty s); [done|]. by injection Ex as ->. }
  apply IH in Hs as (H1 & H2 & H3 & H4); [|case_bool_decide; rewrite ?length_app; simpl; lia|lia].
  split_and!; [done|done| |].
  - intros y Hy. apply H3. case_bool_decide; [done|]. apply elem_of_app. by left.
  - intros y [[= ->]|Hy]%elem_of_cons; [|by apply H4]. apply H3.
    case_bool_decide; [done|]. apply elem_of_app. right. left.
Qed.

Lemma select_toolkits_spec by_toolkit : ∀ accounts total l,
  select_toolkits by_toolkit accounts total = Ok l →
  length accounts ≤ total → total ≤ MAX_MULTI_ACTIONS →
  length l ≤ MAX_MULTI_ACTIONS ∧ (∀ x, x ∈ accounts → x ∈ l) ∧
  (∀ k ids x, (k, VArray ids) ∈ by_toolkit → VString x ∈ ids → x ∈ l).
Proof.
  induction by_toolkit as [|[k ids] rest IH]; intros accounts total l; simpl.
  { intros [= <-] ? ?. split_and!; [lia|done|]. by intros ? ? ? ?%elem_of_nil. }
  destruct (as_array ids) as [ids'|] eqn:Ei; simpl; [|done].
  destruct (select_ids ids' accounts total) as [[acc t]|] eqn:Es; [|done].
  intros Hl H1 H2. apply select_ids_spec in Es as (H3 & H4 & H5 & H6); [|done..].
  destruct (IH _ _ _ Hl H3 H4) as (H7 & H8 & H9). split_and!; [done|by auto|].
  intros k' ids'' x [[= -> <-]|Hin]%elem_of_cons Hx; [|by eapply H9].
  injection Ei as <-. apply H8, H6, Hx.
Qed.

Lemma selected_accounts_bound payload l :
  selected_session_accounts payload = Ok (Some l) → 1 ≤ length l ≤ MAX_MULTI_ACTIONS.
Proof.
  unfold selected_session_accounts. destruct (obj_get _ _) as [v|]; [|done].
  destruct v; try done; simpl.
  destruct (select_toolkits _ [] 0) as [acc|] eqn:E; [|done].
  apply select_toolkits_spec in E as (H & _); [|simpl; lia..].
  destruct acc; [done|]. intros [= <-]. simpl in *. lia.
Qed.

Lemma perimeter_ok slug sid uid payload :
  ok (session_perimeter_actions now request slug sid uid payload).
Proof.
  unfold session_perimeter_actions. destruct (http_method_try_from _); [|done].
  destruct (selected_session_accounts payload) as [acc|] eqn:E; [|done]. split.
  - apply Forall_fmap, Forall_true. intros x. apply lifecycle_governed; [done|by left].
  - rewrite length_fmap. destruct acc as [l|].
    + apply selected_accounts_bound in E. by rewrite length_fmap.
    + unfold MAX_MULTI_ACTIONS. simpl. lia.
Qed.

Lemma lifecycle_write_ok host r :
  decode_lifecycle_write now request host = Some r → ok r.
Proof.
  unfold decode_lifecycle_write. destruct (_ || _); [done|].
  destruct (classify_lifecycle_route _) as [[noun acc coll|sid|sid]|]; [| | |done].
  - intros [= <-]. apply lifecycle_action_ok. by left.
  - destruct (method_in _ _); [done|]. destruct (method_in _ _); intros [= <-].
    + apply lifecycle_action_ok. by left.
    + unfold decode_session_update. destruct (rq_body request) as [body|].
      2:{ apply lifecycle_action_ok. by left. }
      destruct (parse_json_without_duplicate_keys body) as [v|]; [|done].
      destruct (as_object v); [|done]. apply perimeter_ok.
  - destruct (method_in _ _); [|done]. intros [= <-]. apply lifecycle_action_ok. by left.
Qed.

Lemma lifecycle_read_ok host r :
  decode_lifecycle_read now request host = Some r → ok r.
Proof.
  unfold decode_lifecycle_read. destruct (_ || _); [done|].
  destruct (classify_lifecycle_route _) as [[noun acc coll|sid|sid]|]; [|done..].
  intros [= <-]. apply lifecycle_action_ok. by right.
Qed.

Lemma decode_backend_ok payload : ok (decode_backend now request payload catalogs).
Proof.
  unfold decode_backend. destruct (decode_lifecycle_write _ _ _) eqn:E.
  { by eapply lifecycle_write_ok. }
  destruct (api_rest _) as [[|a [|b [|slug [|w []]]]]|]; try done.
  - destruct (_ && _); [|done]. apply perimeter_ok.
  - destruct (_ && _); [|done]. unfold decode_direct. destruct (eqs slug _); [done|].
    apply decode_tool_ok.
  - destruct (_ && _).
    { unfold decode_session. destruct (obj_get _ _); [done|]. destruct (string_field _ _); [|done].
      destruct (starts_composio _); [apply decode_meta_ok|apply decode_tool_ok]. }
    destruct (_ && _); [|done]. unfold decode_meta_route.
    destruct (string_field _ _); [|done]. apply decode_meta_ok.
Qed.

Lemma decode_protected_ok host : ok (decode_protected now request host catalogs).
Proof.
  unfold decode_protected. destruct (negb _).
  - destruct (decode_lifecycle_write _ _ _) eqn:Ew; simpl; [by eapply lifecycle_write_ok|].
    destruct (decode_lifecycle_read _ _ _) eqn:Er; simpl; [by eapply lifecycle_read_ok|].
    destruct (negb _); [done|]. by destruct (if is_mcp_path _ then _ else _).
  - destruct (rq_body request) as [body|]; [|done].
    destruct (parse_json_without_duplicate_keys body) as [[| | | | | |o]|]; try done.
    destruct (is_mcp_path _); [apply decode_mcp_ok|]. destruct (eqs _ _); [done|].
    apply decode_backend_ok.
Qed.

End Facts.
Lemma is_protected_host_eqs host :
  is_protected_host host =
  negb (negb (eqs (canonical_host host) BACKEND_HOST) && negb (eqs (canonical_host host) APP_HOST)).
Proof. unfold is_protected_host, eqs. by do 2 case_bool_decide. Qed.

Lemma governed_clean now request catalogs a :
  governed now request catalogs a →
  ∃ m, params (ne_intent (ca_envelope a)) =
    Http {| hp_method := m; hp_headers := hm_from_iter []; hp_body := None; hp_query := ∅ |}.
Proof. intros (cls & m & -> & _). by exists m. Qed.

(** [C22] Whatever a request to a Composio host decodes to, its actions are
    governed: there are between one and fifty of them; each is classified by the
    entry the pinned catalog has for its exact tool slug, or is an account
    lifecycle action; none carries a header, a body or a query of the request;
    and a query string is only left on account-lifecycle reads. *)
Theorem decode_governed now request catalogs :
  match decode now request catalogs with
  | Actions l =>
      1 ≤ length l ≤ MAX_MULTI_ACTIONS ∧
      Forall (governed now request catalogs) l ∧
      Forall (λ a, ∃ m, params (ne_intent (ca_envelope a)) =
                Http {| hp_method := m; hp_headers := hm_from_iter []; hp_body := None;
                        hp_query := ∅ |}) l ∧
      (contains_char "?"%char (rq_path request) = true →
       Forall (λ a, action_class (ne_intent (ca_envelope a)) = LIFECYCLE_READ_ACTION_CLASS ∧
                    cc_toolkit (ca_context a) = LIFECYCLE_TOOLKIT) l)
  | Unrelated => is_protected_host (rq_host request) = false
  | _ => is_protected_host (rq_host request) = true
  end.
Proof.
  unfold decode. rewrite is_protected_host_eqs. set (host := canonical_host (rq_host request)).
  destruct (negb (eqs host BACKEND_HOST) && negb (eqs host APP_HOST)) eqn:Eh; simpl; [done|].
  destruct (contains_char _ _ && is_mcp_path _); [done|].
  pose proof (decode_protected_ok now request catalogs host) as H.
  destruct (decode_protected now request host catalogs) as [| |l|]; [done|done| |done].
  destruct H as [Hg Hl]. cbn [is_actions andb].
  destruct (contains_char "?"%char (rq_path request)) eqn:Eq; cbn [andb].
  2:{ split_and!; [lia..|done| |done]. by eapply Forall_impl; [exact Hg|]; apply governed_clean. }
  destruct (is_lifecycle_read (Actions l)) eqn:Er; [cbn [negb]|done].
  split_and!; [lia..|done| |].
  { by eapply Forall_impl; [exact Hg|]; apply governed_clean. }
  intros _. apply andb_true_iff in Er as [_ Er]. rewrite forallb_forall in Er.
  apply Forall_forall. intros a Ha. specialize (Er a). rewrite <- list_elem_of_In in Er.
  specialize (Er Ha). apply andb_true_iff in Er as [E1 E2]. unfold eqs in *. by boolify.
Qed.

(** The calls that may pass through with a [POST]: the discovery methods of the
    JSON-RPC surface and the two search meta-tools. *)
Definition discovery_meta (slug : option string) : Prop :=
  slug = Some "COMPOSIO_SEARCH_TOOLS" ∨ slug = Some "COMPOSIO_GET_TOOL_SCHEMAS".

Definition discovery_payload (o : Obj) : Prop :=
  (∃ m, string_field o "method" = Some m ∧
     m ∈ ["initialize"; "notifications/initialized"; "ping"; "tools/list"]) ∨
  discovery_meta (string_field o "tool_slug") ∨
  (∃ params, obj_get "params" o ≫= as_object = Some params ∧
     discovery_meta (string_field params "name")).

Lemma decode_tool_not_passthrough now request slug v u acc sid b pol catalogs :
  decode_tool now request slug v u acc sid b pol catalogs ≠ DPassthrough.
Proof. unfold decode_tool. by destruct (action_for_tool _ _ _ _ _ _ _ _ _ _). Qed.

Lemma decode_meta_passthrough now request slug args sid pol catalogs :
  decode_meta now request slug args sid pol catalogs = DPassthrough →
  discovery_meta (Some slug).
Proof.
  unfold decode_meta, decode_multi.
  destruct (eqs slug "COMPOSIO_MULTI_EXECUTE_TOOL"); [split_matches|].
  destruct (eqs slug "COMPOSIO_EXECUTE_TOOL").
  { destruct args as [args|]; [|done]. destruct (string_field args _); [|done].
    by intros ?%decode_tool_not_passthrough. }
  unfold eqs, discovery_meta.
  case_bool_decide; [by left; subst|]. case_bool_decide; [by right; subst|]. simpl. split_matches.
Qed.

Lemma decode_mcp_passthrough now request o catalogs :
  decode_mcp now request o catalogs = DPassthrough → discovery_payload o.
Proof.
  unfold decode_mcp. destruct (string_field o "method") as [m|] eqn:Em; [|done].
  unfold eqs. destruct (negb _).
  { intros H. left. exists m. split; [done|]. revert H.
    do 3 (case_bool_decide; [subst; intros _; set_solver|]).
    case_bool_decide; [subst; intros _; set_solver|]. done. }
  destruct (obj_get "params" o ≫= as_object) as [ps|] eqn:Ep; [|done].
  destruct (string_field ps "name") as [slug|] eqn:En; [|done].
  destruct (starts_composio slug); [|by intros ?%decode_tool_not_passthrough].
  intros H%decode_meta_passthrough. right. right. exists ps. by rewrite En.
Qed.

Lemma lifecycle_action_not_passthrough now request cls slug sid acc :
  lifecycle_action now request cls slug sid acc ≠ DPassthrough.
Proof. unfold lifecycle_action. by destruct (http_method_try_from _). Qed.

Lemma perimeter_not_passthrough now request slug sid uid payload :
  session_perimeter_actions now request slug sid uid payload ≠ DPassthrough.
Proof. unfold session_perimeter_actions. split_matches. Qed.

Lemma lifecycle_write_not_passthrough now request host :
  decode_lifecycle_write now request host ≠ Some DPassthrough.
Proof.
  unfold decode_lifecycle_write, decode_session_update. intros H. split_matches;
    try (by eapply lifecycle_action_not_passthrough); by eapply perimeter_not_passthrough.
Qed.

Lemma lifecycle_read_not_passthrough now request host :
  decode_lifecycle_read now request host ≠ Some DPassthrough.
Proof.
  unfold decode_lifecycle_read. intros H. split_matches; by eapply lifecycle_action_not_passthrough.
Qed.

Lemma decode_backend_passthrough now request o catalogs :
  decode_backend now request o catalogs = DPassthrough → discovery_payload o.
Proof.
  unfold decode_backend. destruct (decode_lifecycle_write _ _ _) eqn:E.
  { intros ->. by apply lifecycle_write_not_passthrough in E. }
  destruct (api_rest _) as [[|a [|b [|slug [|w []]]]]|]; try done.
  - destruct (_ && _); [|done]. by intros ?%perimeter_not_passthrough.
  - destruct (_ && _); [|done]. unfold decode_direct. destruct (eqs slug _); [done|].
    by intros ?%decode_tool_not_passthrough.
  - destruct (_ && _); [|destruct (_ && _); [|done]].
    + unfold decode_session. destruct (obj_get _ _); [done|].
      destruct (string_field o "tool_slug") eqn:Es; [|done].
      destruct (starts_composio _); [|by intros ?%decode_tool_not_passthrough].
      intros H%decode_meta_passthrough. right. left. by rewrite Es.
    + unfold decode_meta_route. destruct (string_field o "tool_slug") eqn:Es; [|done].
      intros H%decode_meta_passthrough. right. left. by rewrite Es.
Qed.

(** A route that discloses credentials is never a recognised discovery route. *)
Lemma family_not_recognized host path noun acc coll :
  classify_lifecycle_route path = Some (Family noun acc coll) →
  is_recognized_non_execution_path host path = false.
Proof.
  unfold classify_lifecycle_route, is_recognized_non_execution_path.
  destruct (path_parts path) as [|a [|v [|t rest]]]; simpl; try done; [by destruct (_ && _)|].
  destruct (eqs a "api" && is_api_version v) eqn:Ea; [|done].
  apply andb_true_iff in Ea as [Ea Ev]. unfold eqs in *. boolify. subst a.
  destruct (_ || _) eqn:Et.
  2:{ destruct (bool_decide (t = "tool_router")); [|done]. split_matches. }
  intros _. rewrite bool_decide_eq_false_2 by done. cbn [andb orb].
  apply orb_true_iff in Et as [Et|Et]; boolify; subst t;
    destruct rest as [|c []]; cbn; by destruct (bool_decide (host = APP_HOST)).
Qed.

(** Nothing is forwarded ungoverned to a Composio host but discovery: a
    passthrough without [POST] is a read (or an MCP session teardown) on a
    recognised route that is not a connected-account or auth-config route; a
    passthrough with [POST] carries a JSON object that is a discovery call. *)
Theorem decode_passthrough_sound now request catalogs :
  decode now request catalogs = DPassthrough →
  is_protected_host (rq_host request) = true ∧
  ((rq_method request ≠ "POST" ∧
    is_recognized_non_execution_path (canonical_host (rq_host request)) (path_only (rq_path request))
      = true ∧
    (rq_method request ∈ ["GET"; "HEAD"; "OPTIONS"] ∨
     (rq_method request = "DELETE" ∧ is_mcp_path (path_only (rq_path request)) = true)) ∧
    (∀ noun acc coll, classify_lifecycle_route (path_only (rq_path request))
                      ≠ Some (Family noun acc coll))) ∨
   (rq_method request = "POST" ∧
    ∃ body o, rq_body request = Some body ∧
      parse_json_without_duplicate_keys body = Some (VObject o) ∧ discovery_payload o)).
Proof.
  unfold decode. rewrite is_protected_host_eqs. set (host := canonical_host (rq_host request)).
  destruct (negb (eqs host BACKEND_HOST) && negb (eqs host APP_HOST)); [done|].
  destruct (contains_char _ _ && is_mcp_path _); [done|].
  destruct (is_actions _ && _ && _); [done|]. intros H. split; [done|]. revert H.
  unfold decode_protected. unfold eqs at 1. case_bool_decide as Hm; cbn [negb].
  - intros H. right. split; [done|]. revert H. destruct (rq_body request) as [body|]; [|done].
    destruct (parse_json_without_duplicate_keys body) as [[| | | | | |o]|] eqn:Ep; try done.
    destruct (is_mcp_path _).
    { intros H%decode_mcp_passthrough. by exists body, o. }
    destruct (eqs _ _); [done|]. intros H%decode_backend_passthrough. by exists body, o.
  - destruct (decode_lifecycle_write _ _ _) eqn:Ew; simpl.
    { intros ->. by apply lifecycle_write_not_passthrough in Ew. }
    destruct (decode_lifecycle_read _ _ _) eqn:Er; simpl.
    { intros ->. by apply lifecycle_read_not_passthrough in Er. }
    destruct (is_recognized_non_execution_path _ _) eqn:Ei; simpl; [|done].
    destruct (if is_mcp_path _ then _ else _) eqn:Ea; [|done]. intros _. left.
    split_and!; [done|done| |].
    + unfold method_in in Ea. destruct (is_mcp_path _); boolify; set_solver.
    + intros noun acc coll Hc. by rewrite (family_not_recognized _ _ _ _ _ Hc) in Ei.
Qed.

End Decode.

(** ** Facts: session accounts *)

Section Sessions.
Context {HC : HttpCrate}.

(** A session cannot be bound to an account policy does not see: when a
    session write decodes into actions, every account identifier listed under
    [connected_accounts] is the account of one of them. *)
Theorem session_accounts_governed now request slug sid uid payload by_toolkit l :
  obj_get "connected_accounts" payload = Some (VObject by_toolkit) →
  session_perimeter_actions now request slug sid uid payload = Actions l →
  ∀ toolkit ids account, (toolkit, VArray ids) ∈ by_toolkit → VString account ∈ ids →
  ∃ a, a ∈ l ∧ cc_connected_account_id (ca_context a) = Some account ∧
    resource (ne_intent (ca_envelope a)) !! "composio_account" = Some account.
Proof.
  intros Hget. unfold session_perimeter_actions, selected_session_accounts. rewrite Hget. simpl.
  destruct (http_method_try_from _) as [m|]; [|done].
  destruct (select_toolkits by_toolkit [] 0) as [acc|] eqn:E; [|done].
  apply select_toolkits_spec in E as (_ & _ & Hall); [|simpl; lia..]. intros [= <-] tk ids x Hin Hx.
  assert (x ∈ acc) as Hacc by eauto.
  destruct acc as [|y acc]; [by apply elem_of_nil in Hacc|]. set (l := y :: acc) in *.
  eexists. split; [apply list_elem_of_fmap; exists (Some x); split; [reflexivity|]|].
  { by apply list_elem_of_fmap_2. }
  split; [done|]. simpl. destruct sid, uid; simpl; by simplify_map_eq.
Qed.

End Sessions.

(** ** Facts: the catalog *)

Section CatalogFacts.
Context {CJ : CatalogJson}.

Lemma validate_tools_spec source prefix : ∀ tools seen slugs,
  validate_tools source prefix seen tools = Ok slugs →
  Forall (λ t, st_version t = cs_version source ∧ starts_with prefix (st_slug t) = true) tools ∧
  NoDup (st_slug <$> tools).
Proof.
  assert (∀ tools seen slugs, validate_tools source prefix seen tools = Ok slugs →
    Forall (λ t, st_version t = cs_version source ∧ starts_with prefix (st_slug t) = true) tools ∧
    NoDup (st_slug <$> tools) ∧ Forall (λ t, st_slug t ∉ seen) tools) as H.
  { induction tools as [|t tools IH]; intros seen slugs; simpl; [intros _; split_and!; constructor|].
    destruct (_ || _) eqn:E1; [done|]. destruct (starts_with prefix (st_slug t)) eqn:E2; [|done].
    cbn [negb]. destruct (bool_decide (st_slug t ∈ seen)) eqn:E3; [done|]. intros (H1 & H2 & H3)%IH.
    apply orb_false_iff in E1 as [_ E1]. boolify. split_and!.
    - by constructor.
    - constructor; [|done]. intros (t' & Heq & Ht')%list_elem_of_fmap.
      rewrite Forall_forall in H3. apply (H3 t'); [done|]. set_solver.
    - constructor; [done|]. eapply Forall_impl; [exact H3|]. set_solver. }
  intros tools seen slugs (H1 & H2 & _)%H. done.
Qed.

Lemma validate_classes_spec l :
  validate_classes l = Ok tt → Forall (λ o, ∃ c cls, o = Some c ∧ ActionClass.from_str c = Ok cls) l.
Proof.
  induction l as [|[c|] l IH]; simpl; [constructor| |done].
  destruct (ActionClass.from_str c) as [cls|] eqn:E; [|done]. intros H.
  constructor; [by exists c, cls|by apply IH].
Qed.

(** What a reviewed entry is: a tool of a source whose toolkit and version it
    has, under the toolkit's prefix, mapped to a canonical action class. *)
Definition reviewed (slug : string) (entry : CatalogEntry) : Prop :=
  starts_with (to_ascii_uppercase (ce_toolkit entry) +:+ "_") slug = true ∧
  ∃ cls, ActionClass.from_str (ce_action_class entry) = Ok cls.

Definition all_reviewed (entries : gmap string CatalogEntry) : Prop :=
  ∀ slug entry, entries !! slug = Some entry → reviewed slug entry.

Lemma insert_tools_reviewed source mapping : ∀ tools entries entries',
  Forall (λ t, starts_with (to_ascii_uppercase (cs_toolkit source) +:+ "_") (st_slug t) = true) tools →
  (∀ slug c, cmap_mappings mapping !! slug = Some (Some c) →
     ∃ cls, ActionClass.from_str c = Ok cls) →
  all_reviewed entries → insert_tools source mapping entries tools = Ok entries' →
  all_reviewed entries' ∧ entries ⊆ entries' ∧
  Forall (λ t, ∃ e, entries' !! st_slug t = Some e ∧ ce_version e = cs_version source) tools.
Proof.
  induction tools as [|t tools IH]; intros entries entries' Hp Hc Hr; simpl.
  { intros [= <-]. split_and!; [done|done|constructor]. }
  apply Forall_cons in Hp as [Hp1 Hp].
  destruct (cmap_mappings mapping !! st_slug t) as [[c|]|] eqn:E; [|done..].
  case_bool_decide as Hd; [done|]. intros Hi. apply IH in Hi as (H1 & H2 & H3); [|done|done|].
  - assert (entries !! st_slug t = None) as Hn by (by apply eq_None_not_Some).
    split_and!; [done| |].
    + etransitivity; [by apply insert_subseteq|exact H2].
    + constructor; [|done]. eexists.
      split; [eapply lookup_weaken; [by rewrite lookup_insert_eq|exact H2]|done].
  - intros slug entry Hs. apply lookup_insert_Some in Hs as [[<- <-]|[_ Hs]]; [|by apply Hr].
    split; [done|]. by eapply Hc.
Qed.

Lemma validate_pair_spec source mapping :
  validate_pair source mapping = Ok tt →
  Forall (λ t, starts_with (to_ascii_uppercase (cs_toolkit source) +:+ "_") (st_slug t) = true)
    (cs_tools source) ∧
  (∀ slug c, cmap_mappings mapping !! slug = Some (Some c) →
     ∃ cls, ActionClass.from_str c = Ok cls).
Proof.
  unfold validate_pair. destruct (_ || _); [done|].
  destruct (validate_tools _ _ _ _) as [slugs|] eqn:E; [|done].
  destruct (_ || _); [done|]. intros Hv. apply validate_tools_spec in E as [E _].
  split; [eapply Forall_impl; [exact E|]; by intros ? [_ ?]|]. intros slug c Hs.
  apply validate_classes_spec in Hv. rewrite Forall_forall in Hv.
  destruct (Hv (Some c)) as (c' & cls & [= <-] & Hc); [|by exists cls].
  apply list_elem_of_fmap. exists (slug, Some c). split; [done|].
  by apply elem_of_map_to_list.
Qed.

Lemma from_pairs_spec : ∀ pairs entries entries',
  all_reviewed entries → from_pairs entries pairs = Ok entries' →
  all_reviewed entries' ∧ entries ⊆ entries' ∧
  Forall (λ '(src, _), ∃ source, source_from_str src = Some source ∧
    Forall (λ t, ∃ e, entries' !! st_slug t = Some e ∧ ce_version e = cs_version source)
      (cs_tools source)) pairs.
Proof.
  induction pairs as [|[src map] pairs IH]; intros entries entries' Hr; simpl.
  { intros [= <-]. split_and!; [done|done|constructor]. }
  destruct (source_from_str src) as [source|] eqn:Es; simpl; [|done].
  destruct (mapping_from_str map) as [mapping|]; simpl; [|done].
  destruct (validate_pair source mapping) as [[]|] eqn:Ev; [|done].
  apply validate_pair_spec in Ev as [Hp Hc].
  destruct (insert_tools source mapping entries (cs_tools source)) as [e1|] eqn:Ei; [|done].
  apply insert_tools_reviewed in Ei as (H1 & H2 & H3); [|done..].
  intros Hf. apply IH in Hf as (H4 & H5 & H6); [|done]. split_and!; [done|by etransitivity|].
  constructor; [|done]. exists source. split; [done|]. eapply Forall_impl; [exact H3|].
  intros t (e & He & Hv). exists e. split; [by eapply lookup_weaken|done].
Qed.

(** A loaded catalog is exactly reviewed: every entry is under its
    toolkit's slug prefix and maps to a canonical action class, and every tool
    of every source file is in it at its source's version. *)
Theorem catalog_reviewed pairs c :
  from_json_pairs pairs = Ok c →
  (∀ slug entry, cat_lookup c slug = Some entry → reviewed slug entry) ∧
  Forall (λ '(src, _), ∃ source, source_from_str src = Some source ∧
    Forall (λ t, ∃ e, cat_lookup c (st_slug t) = Some e ∧ ce_version e = cs_version source)
      (cs_tools source)) pairs.
Proof.
  unfold from_json_pairs, cat_lookup. destruct (from_pairs ∅ pairs) as [entries|] eqn:E; [|done].
  intros [= <-]. apply from_pairs_spec in E as (H1 & _ & H2).
  - done.
  - intros slug entry H. by rewrite lookup_empty in H.
Qed.

End CatalogFacts.

(** ** Dot segments

    The decoder compares path segments as they are written; the connector's
    URL parser resolves [".."] before the request leaves.  [normalize_path] is
    the resolution generic normalisation uses. *)

Section DotSegments.
Context {HC : HttpCrate} {JT : JsonTree}.

Definition detour_path : string := "/api/v3/toolkits/../connected_accounts".

Definition backend_get (headers : HeaderMap) (path : string) : RawRequest :=
  {| rq_method := "GET"; rq_host := BACKEND_HOST; rq_path := path; rq_headers := headers;
     rq_body := None; rq_is_https := true |}.

(** A read of the connected accounts is governed under its own path, but the
    same resource reached through a dot segment below [toolkits] is classified
    as discovery and passes through, for every catalog and every header. *)
Theorem dot_segment_passthrough now headers catalogs :
  normalize_path (H := λ s, s) detour_path = "/api/v3/connected_accounts" ∧
  decode now (backend_get headers detour_path) catalogs = DPassthrough ∧
  ∃ a, decode now (backend_get headers "/api/v3/connected_accounts") catalogs = Actions [a] ∧
    action_class (ne_intent (ca_envelope a)) = LIFECYCLE_READ_ACTION_CLASS.
Proof. split_and!; [vm_compute; reflexivity..|]. eexists. split; vm_compute; reflexivity. Qed.

End DotSegments.

(** ** Samples *)

Module Samples.
#[local] Existing Instance list_http.

Definition mail_source : CatalogSource :=
  {| cs_toolkit := "gmail"; cs_version := "1";
     cs_tools := [{| st_toolkit := "gmail"; st_version := "1"; st_slug := "GMAIL_SEND" |}] |}.

Definition mail_mapping : CatalogMapping :=
  {| cmap_toolkit := "gmail"; cmap_version := "1";
     cmap_mappings := {["GMAIL_SEND" := Some "communication.external.send"]} |}.

#[local] Instance mail_json : CatalogJson := {|
  source_from_str _ := Some mail_source;
  mapping_from_str _ := Some mail_mapping;
|}.

Definition mail_catalog : ComposioCatalogs :=
  match from_json_pairs [("s", "m")] with Ok c => c | Err _ => {| cat_entries := ∅ |} end.

Lemma catalog_reviewed_witness :
  cat_len mail_catalog = 1 ∧ ∃ e, cat_lookup mail_catalog "GMAIL_SEND" = Some e ∧ ce_version e = "1".
Proof.
  assert (from_json_pairs [("s", "m")] = Ok mail_catalog) as H by (vm_compute; reflexivity).
  split; [vm_compute; reflexivity|].
  destruct (catalog_reviewed [("s", "m")] mail_catalog H) as [_ Hs].
  apply Forall_cons in Hs as [(source & [= <-] & Ht) _].
  apply Forall_cons in Ht as [Ht _]. exact Ht.
Defined.

(** A body is the value it is parsed to: one session payload, one discovery. *)
Definition session_body : Value :=
  VObject [("user_id", VString "u");
           ("connected_accounts", VObject [("gmail", VArray [VString "ca_1"; VString "ca_2"])])].

#[local] Instance sample_json : JsonTree := λ body,
  if eqs body "list" then Some (VObject [("method", VString "tools/list")]) else Some session_body.

Definition session_request : RawRequest :=
  {| rq_method := "POST"; rq_host := "Backend.Composio.Dev.:8443";
     rq_path := "/api/v3/tool_router/session"; rq_headers := []; rq_body := Some "session";
     rq_is_https := true |}.

Example session_two_accounts :
  match decode 0 session_request mail_catalog with
  | Actions l => (λ a, cc_connected_account_id (ca_context a)) <$> l = [Some "ca_1"; Some "ca_2"]
  | _ => False
  end.
Proof. vm_compute. reflexivity. Qed.

Definition session_payload : Obj := match session_body with VObject o => o | _ => [] end.
Definition session_selection : Obj := [("gmail", VArray [VString "ca_1"; VString "ca_2"])].
Definition session_actions : list ComposioAction :=
  match session_perimeter_actions 0 session_request "COMPOSIO_CREATE_SESSION" None None
          session_payload with
  | Actions l => l
  | _ => []
  end.

Lemma session_accounts_governed_witness :
  ∃ a, a ∈ session_actions ∧ cc_connected_account_id (ca_context a) = Some "ca_2".
Proof.
  destruct (session_accounts_governed 0 session_request "COMPOSIO_CREATE_SESSION" None None
              session_payload session_selection session_actions) with "gmail"
    [VString "ca_1"; VString "ca_2"] "ca_2" as (a & Ha & Hc & _).
  - reflexivity.
  - vm_compute. reflexivity.
  - left.
  - right. left.
  - by exists a.
Defined.

Definition list_request : RawRequest :=
  {| rq_method := "POST"; rq_host := APP_HOST; rq_path := "/tool_router/v3/s1/mcp";
     rq_headers := []; rq_body := Some "list"; rq_is_https := true |}.

Lemma decode_passthrough_sound_witness :
  decode 0 list_request mail_catalog = DPassthrough ∧
  is_protected_host (rq_host list_request) = true.
Proof.
  assert (decode 0 list_request mail_catalog = DPassthrough) as H by (vm_compute; reflexivity).
  split; [exact H|]. by destruct (decode_passthrough_sound 0 list_request mail_catalog H).
Defined.

End Samples.
