(* ===== verification/Handler.v ===== *)
(** * The request handler ([handler.rs], [connector/registry.rs])

    The path every interceptor shares after it has built a [RawRequest]:
    enforcement, secret rehydration, the pre-dispatch gate, the connector, HTTP
    secret interception, masking, the response and the audit payload.

    A function returns its result with the effects it has on the outside, in
    order: what is handed to a connector, asked of or pushed to the secret
    gateway, and sent to the audit channel.  What it reads from outside is an
    [Env].  Connectors and the gateway are functions of the environment;
    extraction of secrets from a vault's response is the class [SecretExtract]. *)

From S2P Require Import Prelude RustStr ActionClasses Core Mapping Redaction MappingTable Decision Json.
From S2P Require Import Normalizer Lru Revocation CapabilityMap CapabilityValidation Session.
From S2P Require Import Cedar Constraint Runtime AuditRecord Pipeline Composio.
From S2P Require Import SecretRewrite SecretStore BodyEncoding SecretProvider.

#[local] Open Scope string_scope.

(** ** Parameters *)

(** [reqwest::Url::parse] and [host_str]. *)
Class UrlParse := url_host_str : string → option string.

(** A text without a colon has no scheme: it does not parse as an absolute URL. *)
Class UrlParseLaws (U : UrlParse) :=
  url_needs_scheme : ∀ s, contains_char ":"%char s = false → url_host_str s = None.

(** The [headers] crate's parse of a content type. *)
Class MimeParse := mime_parse : string → option Mime.

(** [CompiledMatcher::rewrite]: given the placeholders [SecretPlaceholder::new]
    would mint, the rewritten output and the extracted secrets with the
    placeholder and the domains of each. *)
Class SecretExtract (M : Type) :=
  matcher_rewrite : M → Bytes → list string →
    Result (Bytes * list (string * string * list string)) string.

(** ** [{:?}] of a [Duration] *)

(** The digits of [fmt_decimal] after the point, at most [n], without trailing
    zeros. *)
Fixpoint frac_digits (n : nat) (frac divisor : Z) : string :=
  match n with
  | O => ""
  | S n =>
      if (frac =? 0)%Z then ""
      else display_uint (frac / divisor) +:+ frac_digits n (frac mod divisor) (divisor / 10)
  end.

Definition fmt_decimal (whole frac divisor : Z) (suffix : string) : string :=
  display_uint whole +:+
  (if (frac =? 0)%Z then "" else "." +:+ frac_digits 9 frac divisor) +:+ suffix.

(** [impl Debug for Duration]; the micro sign is two bytes. *)
Definition duration_debug (nanos : Z) : string :=
  let secs := (nanos / 1000000000)%Z in
  let sub := (nanos mod 1000000000)%Z in
  if (0 <? secs)%Z then fmt_decimal secs sub 100000000 "s"
  else if (1000000 <=? sub)%Z then fmt_decimal (sub / 1000000) (sub mod 1000000) 100000 "ms"
  else if (1000 <=? sub)%Z then
    fmt_decimal (sub / 1000) (sub mod 1000) 100 (String "194"%char (String "181"%char "s"))
  else fmt_decimal sub 0 1 "ns".

(** ** Responses *)

Inductive DenialContext := CtxTool | CtxApi.

#[export] Instance denial_context_eq_dec : EqDecision DenialContext.
Proof. solve_decision. Defined.

Definition FAIL_CLOSED_PASSTHROUGH : string :=
  "enforcement returned an unclassified passthrough; failing closed".

(** [unexpected_passthrough]. *)
Definition unexpected_passthrough : DenyReason * string := (FailClosed, FAIL_CLOSED_PASSTHROUGH).

Definition DEFAULT_MAX_DECOMPRESSED_BODY_BYTES : N := 16 * 1024 * 1024.

Section Types.
Context {HC : HttpCrate}.

Record TransportView := {
  tv_envelope : ExecutionEnvelope;
  tv_credentials : InjectedCredentials;
}.

Record ConnectorResponse := {
  cn_status : Z;
  cn_headers : HeaderMap;
  cn_body : string;
  cn_dispatch_latency : Z;
  cn_response_size : Z;
}.

Inductive ConnectorError :=
| CTimeout (duration : Z)
| CNetwork (detail : string)
| CInvalidRequest (detail : string).

(** [dyn Connector]: what [dispatch] answers. *)
Definition Connector : Type := TransportView → Result ConnectorResponse ConnectorError.

Record ConnectorRegistry := {
  reg_hosts : gmap string Connector;
  reg_default : Connector;
}.

(** [ConnectorRegistry::new], [register_host], [select]. *)
Definition registry_new (default : Connector) : ConnectorRegistry :=
  {| reg_hosts := ∅; reg_default := default |}.

Definition register_host (r : ConnectorRegistry) (host : string) (c : Connector)
    : ConnectorRegistry :=
  {| reg_hosts := <[host := c]> (reg_hosts r); reg_default := reg_default r |}.

Definition registry_select (r : ConnectorRegistry) (host : string) : Connector :=
  default (reg_default r) (reg_hosts r !! host).

Record DispatchedResponse := { dr_status : Z; dr_headers : HeaderMap; dr_body : string }.

Inductive HandledResponse :=
| HOk (d : DispatchedResponse)
| HPassthrough (d : DispatchedResponse)
| HDeny (reason : DenyReason) (detail : string) (context : DenialContext)
| HAborted (reason : AbortReason) (detail : string).

Inductive ConnectDecision :=
| ConnectAllow
| ConnectDeny (reason : DenyReason) (detail : string)
| ConnectAbort (reason : AbortReason) (detail : string).

Inductive UpgradeAuthorization :=
| UpgradeAllow (credentials : InjectedCredentials) (payload : AuditPayload)
| UpgradeDeny (reason : DenyReason) (detail : string)
| UpgradeAbort (reason : AbortReason) (detail : string).

(** [denial_context_from_params] and [denial_context_of]. *)
Definition denial_context_from_params (p : ActionParams) : DenialContext :=
  match p with ToolUse _ => CtxTool | Http _ | DbQuery _ => CtxApi end.

Definition denial_context_of (e : option NormalizedEnvelope) : DenialContext :=
  match e with None => CtxApi | Some e => denial_context_from_params (params (ne_intent e)) end.

(** ** Overrides of the audit payload *)

(** [rehydrate_fail_closed_response]. *)
Definition rehydrate_fail_closed_response (a : AuditPayload) (context : DenialContext)
    (error : string) : HandledResponse * AuditPayload :=
  let detail := "secret placeholders could not be resolved; failing closed: " +:+ error in
  (HDeny FailClosed detail context,
   set_ap_decision DDeny (deny_reason_display FailClosed +:+ ": " +:+ detail) a).

(** [secret_abort_response]. *)
Definition secret_abort_response (a : AuditPayload) (reason : AbortReason) (detail : string)
    : HandledResponse * AuditPayload :=
  (HAborted reason detail, set_ap_decision DAbort (abort_code reason +:+ ": " +:+ detail) a).

(** [http_secret_blocked_response]. *)
Definition http_secret_blocked_response (a : AuditPayload) (provider_id : string)
    : HandledResponse * AuditPayload :=
  let detail := "HTTP secret provider " +:+ quote +:+ provider_id +:+ quote +:+
                " blocks this command" in
  (HAborted CredentialInjectionBlocked detail,
   set_ap_decision DAbort (abort_code CredentialInjectionBlocked +:+ ": " +:+ detail) a).

(** [deny_response], [step_up_response], [defer_response]. *)
Definition deny_response (reason : DenyReason) (detail : string) (e : option NormalizedEnvelope)
    : HandledResponse := HDeny reason detail (denial_context_of e).

Definition step_up_response (challenge : string) (e : option NormalizedEnvelope)
    : HandledResponse := HDeny StepUpRequired challenge (denial_context_of e).

Definition retry_detail (ms : Z) : string := "retry_after_ms: " +:+ display_uint ms.

Definition defer_response (ms : Z) (e : option NormalizedEnvelope) : HandledResponse :=
  HDeny Deferred (retry_detail ms) (denial_context_of e).

(** [pre_dispatch_gate]; the rehydration result is [Err detail] or not. *)
Definition pre_dispatch_gate (run_rejected : bool) (rehydrate_error : option string)
    (blocked_provider : option string) (context : DenialContext) (a : AuditPayload)
    : option (HandledResponse * AuditPayload) :=
  if run_rejected then
    Some (HDeny PolicyBundleNotReady RUN_REJECTED_DETAIL context,
          set_ap_decision DDeny
            (deny_reason_display PolicyBundleNotReady +:+ ": " +:+ RUN_REJECTED_DETAIL) a)
  else match rehydrate_error with
       | Some detail => Some (rehydrate_fail_closed_response a context detail)
       | None =>
           match blocked_provider with
           | Some provider_id => Some (http_secret_blocked_response a provider_id)
           | None => None
           end
       end.

(** [response_from_blocking_decision]. *)
Definition response_from_blocking_decision (d : EnforcementDecision) : HandledResponse :=
  match d with
  | Deny reason _ detail envelope _ => HDeny reason detail (denial_context_of envelope)
  | Abort reason detail _ => HAborted reason detail
  | Modify _ envelope _ _ =>
      HDeny FailClosed "Composio argument modification is unsupported; failing closed"
        (denial_context_from_params (params (env_intent envelope)))
  | StepUp _ envelope challenge _ _ => HDeny StepUpRequired challenge (denial_context_of envelope)
  | Defer _ envelope ms _ => HDeny Deferred (retry_detail ms) (denial_context_of envelope)
  | Allow _ _ _ | Passthrough _ =>
      HDeny FailClosed "Composio aggregate selected a non-blocking result; failing closed" CtxApi
  end.

(** ** Dispatch outcomes *)

Record DispatchOutcome := {
  decision_override : option (AuditDecision * string);
  oc_status : Z;
  oc_latency_us : Z;
  oc_response_size : Z;
}.

(** [DispatchOutcome::abort_from_connector]; also the timeout's literal. *)
Definition abort_from_connector (reason : AbortReason) (detail : string) : DispatchOutcome :=
  {| decision_override := Some (DAbort, abort_code reason +:+ ": " +:+ detail);
     oc_status := 0; oc_latency_us := 0; oc_response_size := 0 |}.

Definition set_ap_dispatch (status latency size : Z) (a : AuditPayload) : AuditPayload :=
  {| ap_session_id := ap_session_id a; ap_token_id := ap_token_id a;
     ap_agent_id := ap_agent_id a; ap_action := ap_action a; ap_resource := ap_resource a;
     ap_decision := ap_decision a; ap_deny_reason := ap_deny_reason a;
     ap_enforcement_latency_us := ap_enforcement_latency_us a;
     ap_context_hash := ap_context_hash a; ap_bundle_version := ap_bundle_version a;
     ap_dispatch_status := status; ap_dispatch_latency_us := latency; ap_response_size := size;
     ap_provenance := ap_provenance a; ap_thread_id := ap_thread_id a;
     ap_parent_action_id := ap_parent_action_id a |}.

(** [DispatchOutcome::enrich_ref]. *)
Definition enrich (o : DispatchOutcome) (a : AuditPayload) : AuditPayload :=
  let a := set_ap_dispatch (oc_status o) (oc_latency_us o) (oc_response_size o) a in
  match decision_override o with
  | Some (decision, reason) => set_ap_decision decision reason a
  | None => a
  end.

(** [dispatch_latency_us] and [i64_from_usize]. *)
Definition dispatch_latency_us (duration : Z) : Z := i64_of_unsigned (duration / 1000).
Definition i64_from_usize (value : Z) : Z := i64_of_unsigned value.

(** [dispatched_from]. *)
Definition dispatched_from (r : ConnectorResponse) : DispatchedResponse :=
  {| dr_status := cn_status r; dr_headers := cn_headers r; dr_body := cn_body r |}.

(** ** Requests as they are dispatched *)

(** [strip_firma_headers]. *)
Definition strip_firma_headers (h : HeaderMap) : HeaderMap :=
  hm_from_iter (filter (λ kv, starts_with "x-firma-" kv.1 = false) (hm_iter h)).

(** [hydrate_dispatch_http_fields]. *)
Definition hydrate_dispatch_http_fields (e : ExecutionEnvelope) (request : RawRequest)
    : ExecutionEnvelope :=
  match params (env_intent e) with
  | Http p =>
      let i := env_intent e in
      let query :=
        match split_once "?"%char (rq_path request) with
        | Some (_, query) => if is_empty query then hp_query p else parse_query_string query
        | None => hp_query p
        end in
      {| env_intent :=
           {| action_class := action_class i; resource := resource i;
              params := Http {| hp_method := hp_method p;
                                hp_headers := strip_firma_headers (rq_headers request);
                                hp_body := rq_body request; hp_query := query |};
              raw_transport := raw_transport i; raw_action_ref := raw_action_ref i |};
         capability := capability e; metadata := metadata e; provenance := provenance e |}
  | DbQuery _ | ToolUse _ => e
  end.

(** [apply_modification_to_request]. *)
Definition apply_modification_to_request (m : ModificationSpec) (r : RawRequest) : RawRequest :=
  match m with
  | RedactHeader name =>
      {| rq_method := rq_method r; rq_host := rq_host r; rq_path := rq_path r;
         rq_headers := hm_remove name (rq_headers r); rq_body := rq_body r;
         rq_is_https := rq_is_https r |}
  end.

Definition PASSTHROUGH_AGENT_ID : string := "agt_01j0000000e008000000000001".
Definition PASSTHROUGH_SESSION_ID : string := "_passthrough_".

(** [passthrough_envelope]; [now] is [Utc::now()], the error the method. *)
Definition passthrough_envelope (now : Z) (request : RawRequest) (session : string)
    : Result ExecutionEnvelope Method :=
  let? method := http_method_try_from (rq_method request) in
  Ok (envelope_new
    {| action_class := "passthrough";
       resource := <["path" := rq_path request]> (<["host" := rq_host request]> ∅);
       params := Http {| hp_method := method; hp_headers := strip_firma_headers (rq_headers request);
                         hp_body := rq_body request; hp_query := ∅ |};
       raw_transport := if rq_is_https request then "https" else "http";
       raw_action_ref := rq_method request +:+ " " +:+ rq_path request |} ""
    {| md_session_id := match session_id_try_from session with
                        | Ok s => s | Err _ => PASSTHROUGH_SESSION_ID end;
       md_agent_id := PASSTHROUGH_AGENT_ID; md_timestamp := now; md_trace_id := None;
       md_risk_score := None; md_thread_id := None; md_parent_action_id := None |} None).

(** [InvalidMethod]'s [Display], and [handle_error]. *)
Definition invalid_method_display (m : Method) : string := "Invalid method " +:+ m.

Definition handle_error (detail : string) : HandledResponse :=
  HAborted ConnectorInvalidRequestA detail.

(** ** Effects *)

Inductive Effect :=
| EResolve (placeholders : list string) (host : string)
| EDispatch (view : TransportView)
| EPush (placeholder secret : string) (domains : list string)
| EAudit (payload : AuditPayload).

End Types.

Section Handler.
Context {HC : HttpCrate} {SJ : SerdeJson} {UN : UnicodeNfc} {FU : FormUrlencoded}
  {PJ : ParamsJson} {TV : TokenVerifier} {RS : Type} {RSt : RevocationStore RS}
  {SH : Sha256} {St : Type} {SS : SessionStateStore St}
  {P : Type} {PE : PolicyEvaluation P} {Q : Type} {QE : PolicyEvaluation Q}
  {JT : JsonTree} {UP : UrlParse} {MP : MimeParse} {BC : BodyCodecs}
  {AC : AhoCorasick} {JU : JsonUnescape} {QX : QuickXml} {SE : SecretEncoders}
  {PP : PlaceholderParse} {M : Type} {SX : SecretExtract M}.

Record RequestHandler := {
  rh_composio_catalogs : option ComposioCatalogs;
  rh_connector_registry : ConnectorRegistry;
  rh_pipeline : EnforcementPipeline (P := P) (Q := Q);
  rh_gateway : bool;
  rh_http_secret_mediation : option (list (HttpIntegrationSpec M));
  rh_max_decompressed_body_bytes : N;
}.

(** [RequestHandler::new] and the builder methods. *)
Definition handler_new (pipeline : EnforcementPipeline (P := P) (Q := Q))
    (registry : ConnectorRegistry) : RequestHandler :=
  {| rh_composio_catalogs := None; rh_connector_registry := registry; rh_pipeline := pipeline;
     rh_gateway := false; rh_http_secret_mediation := None;
     rh_max_decompressed_body_bytes := DEFAULT_MAX_DECOMPRESSED_BODY_BYTES |}.

Definition with_max_decompressed_body_bytes (h : RequestHandler) (max : N) : RequestHandler :=
  {| rh_composio_catalogs := rh_composio_catalogs h;
     rh_connector_registry := rh_connector_registry h; rh_pipeline := rh_pipeline h;
     rh_gateway := rh_gateway h; rh_http_secret_mediation := rh_http_secret_mediation h;
     rh_max_decompressed_body_bytes := max |}.

Definition with_gateway_client (h : RequestHandler) : RequestHandler :=
  {| rh_composio_catalogs := rh_composio_catalogs h;
     rh_connector_registry := rh_connector_registry h; rh_pipeline := rh_pipeline h;
     rh_gateway := true; rh_http_secret_mediation := rh_http_secret_mediation h;
     rh_max_decompressed_body_bytes := rh_max_decompressed_body_bytes h |}.

Definition with_http_secret_providers (h : RequestHandler)
    (providers : list (HttpIntegrationSpec M)) : RequestHandler :=
  {| rh_composio_catalogs := rh_composio_catalogs h;
     rh_connector_registry := rh_connector_registry h; rh_pipeline := rh_pipeline h;
     rh_gateway := rh_gateway h;
     rh_http_secret_mediation :=
       match providers with [] => rh_http_secret_mediation h | _ => Some providers end;
     rh_max_decompressed_body_bytes := rh_max_decompressed_body_bytes h |}.

Definition with_composio_catalogs (h : RequestHandler) (catalogs : ComposioCatalogs)
    : RequestHandler :=
  {| rh_composio_catalogs := Some catalogs;
     rh_connector_registry := rh_connector_registry h; rh_pipeline := rh_pipeline h;
     rh_gateway := rh_gateway h; rh_http_secret_mediation := rh_http_secret_mediation h;
     rh_max_decompressed_body_bytes := rh_max_decompressed_body_bytes h |}.

(** The cap as a length. *)
Definition body_cap (h : RequestHandler) : nat := N.to_nat (rh_max_decompressed_body_bytes h).

(** What handling one request reads from outside; [en_join n] is the end of the
    [n]-th blocking task. *)
Record Env := {
  en_arrival : Arrival;
  en_moment : Moment (St := St);
  en_action_moment : nat → Moment (St := St);
  en_final : Z;
  en_final' : Z;
  en_now : Z;
  en_run_rejected : bool;
  en_resolve : list string → string → Result (Result (list string) string) string;
  en_push : string → string → list string → Result unit string;
  en_fresh : list string;
  en_join : nat → option string;
}.

(** ** Rehydration *)

(** [typed_get::<headers::ContentType>()]. *)
Definition content_type_of (h : HeaderMap) : option Mime :=
  header_get "content-type" h ≫= mime_parse.

(** [ContentType::resolve(..).unwrap_or(Raw)]. *)
Definition resolve_or_raw (h : HeaderMap) (plaintext : Bytes) : ContentType :=
  match ct_resolve (content_type_of h) plaintext with Ok ct => ct | Err _ => CtRaw end.

Definition fix_content_length (h : HeaderMap) (body : Bytes) : HeaderMap :=
  if header_contains "content-length" h
  then header_insert "content-length" (display_uint (Z.of_nat (length body))) h
  else h.

Definition with_body (r : RawRequest) (body : Bytes) : RawRequest :=
  {| rq_method := rq_method r; rq_host := rq_host r; rq_path := rq_path r;
     rq_headers := fix_content_length (rq_headers r) body;
     rq_body := Some (string_of body); rq_is_https := rq_is_https r |}.

(** The loop that fills the store. *)
Fixpoint fill_store (s : SidecarSecretStore) (pairs : list (string * string))
    : Result SidecarSecretStore string :=
  match pairs with
  | [] => Ok s
  | (placeholder, secret) :: pairs =>
      match store_insert s placeholder secret with
      | Err e =>
          Err ("secret gateway: failed to build store entry for " +:+ placeholder +:+ ": " +:+
               "failed to build secret matcher: " +:+ e)
      | Ok s => fill_store s pairs
      end
  end.

(** From the placeholders found to the store of all of them. *)
Definition resolve_store (env : Env) (placeholders : list string) (host : string)
    : Result SidecarSecretStore string :=
  match en_resolve env placeholders host with
  | Ok (Ok results) =>
      let? store := fill_store secret_store_new (zip placeholders results) in
      if negb (Nat.eqb (store_len store) (length placeholders)) then
        Err ("secret gateway: resolved " +:+ display_uint (Z.of_nat (store_len store)) +:+ " of " +:+
             display_uint (Z.of_nat (length placeholders)) +:+ " placeholders")
      else Ok store
  | Ok (Err e) => Err ("secret gateway: placeholder resolution failed: " +:+ e)
  | Err e => Err ("secret gateway: batch resolve failed: " +:+ e)
  end.

(** The rewritten request once every placeholder has its secret; a rewrite out
    of range would panic ([None]). *)
Definition substitute (env : Env) (request : RawRequest) (plaintext : Bytes)
    (encoding : option SupportedEncoding) (store : SidecarSecretStore)
    : option (RawRequest * Result (option SidecarSecretStore) string) :=
  rehydrated ← rehydrate_body plaintext (resolve_or_raw (rq_headers request) plaintext)
                 (rehydrate_ops store plaintext);
  Some (match encode_body rehydrated encoding (en_join env 1) with
        | Err error =>
            (request, Err ("secret gateway: rehydrated request body failed to re-compress: " +:+
                           body_encoding_error_display error))
        | Ok final_body => (with_body request final_body, Ok (Some store))
        end).

(** [RequestHandler::rehydrate_request]. *)
Definition rehydrate_request (h : RequestHandler) (env : Env) (request : RawRequest)
    : option (RawRequest * Result (option SidecarSecretStore) string) * list Effect :=
  if negb (rh_gateway h) then (Some (request, Ok None), [])
  else match rq_body request with
  | None => (Some (request, Ok None), [])
  | Some body =>
  if is_empty body then (Some (request, Ok None), [])
  else
    let '(plaintext, encoding, decode_error) :=
      match decode_body (bytes_of body) (rq_headers request) (body_cap h)
              (en_join env 0) with
      | Ok (plaintext, encoding) => (plaintext, encoding, None)
      | Err error => (bytes_of body, None, Some error)
      end in
    let placeholders := collect_placeholders plaintext in
    match placeholders with
    | [] => (Some (request, Ok None), [])
    | _ =>
        match decode_error with
        | Some error =>
            (Some (request,
               Err ("secret gateway: request body looks like it contains placeholders but its " +:+
                    "content-encoding could not be decoded to rehydrate them safely: " +:+
                    body_encoding_error_display error)), [])
        | None =>
            (match resolve_store env placeholders (rq_host request) with
             | Err detail => Some (request, Err detail)
             | Ok store => substitute env request plaintext encoding store
             end, [EResolve placeholders (rq_host request)])
        end
    end
  end.

(** ** Dispatch *)

(** [extract_host] and the connector it selects. *)
Definition select_connector (h : RequestHandler) (e : ExecutionEnvelope) : Connector :=
  registry_select (rh_connector_registry h)
    (default "" (url_host_str (resource_display (env_intent e)))).

(** [RequestHandler::dispatch]. *)
Definition dispatch (h : RequestHandler) (e : ExecutionEnvelope) (credentials : InjectedCredentials)
    : HandledResponse * DispatchOutcome * list Effect :=
  let view := {| tv_envelope := e; tv_credentials := credentials |} in
  let effects := [EDispatch view] in
  match select_connector h e view with
  | Ok response =>
      (HOk (dispatched_from response),
       {| decision_override := None; oc_status := cn_status response;
          oc_latency_us := dispatch_latency_us (cn_dispatch_latency response);
          oc_response_size := i64_from_usize (cn_response_size response) |}, effects)
  | Err (CTimeout duration) =>
      let detail := "connector timeout after " +:+ duration_debug duration in
      (HAborted ConnectorTimeoutA detail, abort_from_connector ConnectorTimeoutA detail, effects)
  | Err (CNetwork detail) =>
      (HAborted ConnectorFailure detail, abort_from_connector ConnectorFailure detail, effects)
  | Err (CInvalidRequest detail) =>
      (HAborted ConnectorInvalidRequestA detail,
       abort_from_connector ConnectorInvalidRequestA detail, effects)
  end.

(** [RequestHandler::dispatch_allow]. *)
Definition dispatch_allow (h : RequestHandler) (e : ExecutionEnvelope) (request : RawRequest)
    (credentials : InjectedCredentials) (a : AuditPayload)
    : HandledResponse * AuditPayload * list Effect :=
  let '(response, outcome, effects) :=
    dispatch h (hydrate_dispatch_http_fields e request) credentials in
  (response, enrich outcome a, effects).

(** [RequestHandler::dispatch_modify]. *)
Definition dispatch_modify (h : RequestHandler) (e : ExecutionEnvelope) (request : RawRequest)
    (credentials : InjectedCredentials) (modifications : ModificationSpec) (a : AuditPayload)
    : HandledResponse * AuditPayload * list Effect :=
  let dispatch_envelope := hydrate_dispatch_http_fields e request in
  match modification_apply modifications dispatch_envelope with
  | Err _ =>
      let detail := "modification could not be applied; failing closed" in
      (HDeny FailClosed detail
         (denial_context_from_params (params (env_intent dispatch_envelope))),
       set_ap_decision DDeny (deny_reason_display FailClosed +:+ ": " +:+ detail) a, [])
  | Ok dispatch_envelope =>
      let '(response, outcome, effects) := dispatch h dispatch_envelope credentials in
      (response, enrich outcome a, effects)
  end.

Definition result_err {A E} (r : Result A E) : option E :=
  match r with Ok _ => None | Err e => Some e end.

(** [RequestHandler::dispatch_decision]. *)
Definition dispatch_decision (h : RequestHandler) (env : Env) (decision : EnforcementDecision)
    (rehydrate_error blocked_provider : option string) (request : RawRequest) (a : AuditPayload)
    : HandledResponse * AuditPayload * list Effect :=
  let gate e := pre_dispatch_gate (en_run_rejected env) rehydrate_error blocked_provider
                  (denial_context_from_params (params (env_intent e))) a in
  match decision with
  | Allow _ envelope credentials =>
      match gate envelope with
      | Some (response, a) => (response, a, [])
      | None => dispatch_allow h envelope request credentials a
      end
  | Modify _ envelope modifications credentials =>
      match gate envelope with
      | Some (response, a) => (response, a, [])
      | None => dispatch_modify h envelope request credentials modifications a
      end
  | Passthrough _ =>
      let '(reason, detail) := unexpected_passthrough in (deny_response reason detail None, a, [])
  | Deny reason _ detail envelope _ => (deny_response reason detail envelope, a, [])
  | Abort reason detail _ => (HAborted reason detail, a, [])
  | StepUp _ envelope challenge _ _ => (step_up_response challenge envelope, a, [])
  | Defer _ envelope ms _ => (defer_response ms envelope, a, [])
  end.

(** ** HTTP secret providers *)

(** [RequestHandler::http_secret_provider_decision]. *)
Definition http_secret_provider_decision (h : RequestHandler) (request : RawRequest)
    : option (string * MatchingResolution M) :=
  providers ← rh_http_secret_mediation h;
  let host := normalize_mapping_host (rq_host request) in
  p ← find (λ p, glob_match (normalize_mapping_host (hi_host p)) host) providers;
  Some (hi_provider_id p, matcher_for p (rq_path request)).

Definition blocked_provider_of (h : RequestHandler) (request : RawRequest) : option string :=
  match http_secret_provider_decision h request with
  | Some (provider_id, Blocked) => Some provider_id
  | _ => None
  end.

Definition InterceptAbort : Type := AbortReason * string.

Definition provider_detail (provider_id rest : string) : string :=
  "HTTP secret provider " +:+ quote +:+ provider_id +:+ quote +:+ rest.

(** The pushes, in order, until one fails. *)
Fixpoint push_all (env : Env) (provider_id : string) (total done_ : nat)
    (pushes : list (string * string * list string)) : Result unit InterceptAbort * list Effect :=
  match pushes with
  | [] => (Ok tt, [])
  | (placeholder, value, domains) :: pushes =>
      match en_push env placeholder value domains with
      | Err error =>
          (Err (CredentialInjectionFailedA,
             provider_detail provider_id
               (" extracted " +:+ display_uint (Z.of_nat total) +:+ " secret(s) but failed to push " +:+
                "one to the broker (" +:+ placeholder +:+ "): " +:+ error +:+ ". " +:+
                display_uint (Z.of_nat done_) +:+ " already-pushed placeholder(s) stay registered in " +:+
                "the broker because the gateway protocol has no remove operation to roll them back.")),
           [EPush placeholder value domains])
      | Ok _ =>
          let '(r, effects) := push_all env provider_id total (S done_) pushes in
          (r, EPush placeholder value domains :: effects)
      end
  end.

Definition replace_body (d : DispatchedResponse) (body : Bytes) : DispatchedResponse :=
  {| dr_status := dr_status d; dr_headers := fix_content_length (dr_headers d) body;
     dr_body := string_of body |}.

(** [decode_for_inspection] and [recompress_after_rewrite]. *)
Definition decode_for_inspection (h : RequestHandler) (env : Env) (d : DispatchedResponse)
    (provider_id : string) : Result (Bytes * option SupportedEncoding) InterceptAbort :=
  match decode_body (bytes_of (dr_body d)) (dr_headers d) (body_cap h) (en_join env 2) with
  | Ok decoded => Ok decoded
  | Err error =>
      Err (CredentialInjectionFailedA,
        provider_detail provider_id
          (" response body could not be decoded for secret inspection: " +:+
           body_encoding_error_display error))
  end.

Definition recompress_after_rewrite (env : Env) (rewritten : Bytes)
    (encoding : option SupportedEncoding) (provider_id : string) : Result Bytes InterceptAbort :=
  match encode_body rewritten encoding (en_join env 3) with
  | Ok final_body => Ok final_body
  | Err error =>
      Err (CredentialInjectionFailedA,
        provider_detail provider_id
          (" extracted a secret but failed to re-compress the response body: " +:+
           body_encoding_error_display error))
  end.

(** [RequestHandler::rewrite_with_http_intercept]. *)
Definition rewrite_with_http_intercept (h : RequestHandler) (env : Env) (d : DispatchedResponse)
    (provider_id : string) (m : M) : Result DispatchedResponse InterceptAbort * list Effect :=
  match decode_for_inspection h env d provider_id with
  | Err e => (Err e, [])
  | Ok (plaintext, encoding) =>
      match matcher_rewrite m plaintext (en_fresh env) with
      | Err error =>
          (Err (CredentialInjectionFailedA,
             provider_detail provider_id
               (" response did not match its configured schema: " +:+ error)), [])
      | Ok (rewritten, pushes) =>
          match push_all env provider_id (length pushes) 0 pushes with
          | (Err e, effects) => (Err e, effects)
          | (Ok _, effects) =>
              (let? final_body := recompress_after_rewrite env rewritten encoding provider_id in
               Ok (replace_body d final_body), effects)
          end
      end
  end.

(** The two arms that carry a body. *)
Definition body_of (r : HandledResponse) : option DispatchedResponse :=
  match r with HOk d | HPassthrough d => Some d | _ => None end.

Definition with_dispatched (r : HandledResponse) (d : DispatchedResponse) : HandledResponse :=
  match r with HOk _ => HOk d | HPassthrough _ => HPassthrough d | other => other end.

(** [RequestHandler::intercept_http_secrets]. *)
Definition intercept_http_secrets (h : RequestHandler) (env : Env) (request : RawRequest)
    (response : HandledResponse) (a : AuditPayload)
    : HandledResponse * AuditPayload * list Effect :=
  match http_secret_provider_decision h request with
  | Some (provider_id, UseMatcher m) =>
      match body_of response with
      | None => (response, a, [])
      | Some d =>
          if negb (rh_gateway h) then
            let '(r, a) :=
              secret_abort_response a CredentialInjectionFailedA
                (provider_detail provider_id " matched but no secret gateway is configured") in
            (r, a, [])
          else
            match rewrite_with_http_intercept h env d provider_id m with
            | (Ok d, effects) => (with_dispatched response d, a, effects)
            | (Err (reason, detail), effects) =>
                let '(r, a) := secret_abort_response a reason detail in (r, a, effects)
            end
      end
  | _ => (response, a, [])
  end.

(** ** Masking *)

(** [mask_dispatched]; [None] would be a panic. *)
Definition mask_dispatched (h : RequestHandler) (env : Env) (d : DispatchedResponse)
    (store : SidecarSecretStore) : option (Result DispatchedResponse InterceptAbort) :=
  if is_empty (dr_body d) then Some (Ok d)
  else match decode_body (bytes_of (dr_body d)) (dr_headers d) (body_cap h)
               (en_join env 4) with
  | Err error =>
      Some (Err (CredentialInjectionFailedA,
        "response body could not be decoded for secret masking: " +:+
        body_encoding_error_display error))
  | Ok (plaintext, encoding) =>
      let ops := mask_ops store plaintext (resolve_or_raw (dr_headers d) plaintext) in
      match ops with
      | [] => Some (Ok d)
      | _ =>
          masked ← mask_body plaintext ops;
          Some (match encode_body masked encoding (en_join env 5) with
                | Err error =>
                    Err (CredentialInjectionFailedA,
                      "masked response body failed to re-compress: " +:+
                      body_encoding_error_display error)
                | Ok final_body => Ok (replace_body d final_body)
                end)
      end
  end.

(** [mask_handled_response]. *)
Definition mask_handled_response (h : RequestHandler) (env : Env) (response : HandledResponse)
    (store : SidecarSecretStore) (a : AuditPayload) : option (HandledResponse * AuditPayload) :=
  match body_of response with
  | None => Some (response, a)
  | Some d =>
      r ← mask_dispatched h env d store;
      Some (match r with
            | Ok d => (with_dispatched response d, a)
            | Err (reason, detail) => secret_abort_response a reason detail
            end)
  end.

(** ** The Composio path *)

(** [RequestHandler::forward_composio_observed]. *)
Definition forward_composio_observed (h : RequestHandler) (env : Env) (request : RawRequest)
    (session : string) (a : AuditPayload) : HandledResponse * list Effect :=
  match passthrough_envelope (en_now env) request session with
  | Ok envelope =>
      let '(response, outcome, effects) := dispatch h envelope credentials_empty in
      (match response with HOk d => HPassthrough d | other => other end,
       effects ++ [EAudit (enrich outcome a)])
  | Err method => (handle_error (invalid_method_display method), [EAudit a])
  end%list.

(** [RequestHandler::handle_composio_passthrough]. *)
Definition handle_composio_passthrough (h : RequestHandler) (env : Env) (request : RawRequest)
    (session : string) : HandledResponse * list Effect :=
  match composio_passthrough (rh_pipeline h) (en_arrival env) (en_final env) (en_final' env)
          request session with
  | (Passthrough _, a) => forward_composio_observed h env request session a
  | (decision, a) => (response_from_blocking_decision decision, [EAudit a])
  end.

(** [RequestHandler::handle_composio_actions]. *)
Definition handle_composio_actions (h : RequestHandler) (env : Env)
    (st : PipelineState (RS := RS) (St := St)) (request : RawRequest) (session : string)
    (actions : list ComposioAction) : HandledResponse * list Effect * PipelineState :=
  let '(result, st) :=
    enforce_composite (rh_pipeline h) (en_arrival env) st request session
      (imap (λ i a, (a, en_action_moment env i)) actions) in
  match disposition result with
  | Dispatch envelope credentials =>
      let '(response, outcome, effects) :=
        dispatch h (hydrate_dispatch_http_fields envelope request) credentials in
      (response,
       effects ++ ((λ c, EAudit (enrich outcome (cr_audit_payload c))) <$> children result), st)
  | Block blocker_index =>
      (match children result !! blocker_index with
       | None => HDeny FailClosed "Composio aggregate result had no blocker; failing closed" CtxApi
       | Some child => response_from_blocking_decision (cr_decision child)
       end,
       (λ c, EAudit (cr_audit_payload c)) <$> children result, st)
  end%list.

(** The decision of a protocol denial. *)
Definition protocol_denial (denial : ProtocolDenial) : EnforcementDecision :=
  Deny MalformedRequest Normalization (pd_code denial +:+ ": " +:+ pd_detail denial) None None.

(** [RequestHandler::handle_composio]; [None] when the request is unrelated. *)
Definition handle_composio (h : RequestHandler) (env : Env)
    (st : PipelineState (RS := RS) (St := St)) (request : RawRequest) (session : string)
    : option (HandledResponse * list Effect * PipelineState) :=
  catalogs ← rh_composio_catalogs h;
  match decode (en_now env) request catalogs with
  | Unrelated => None
  | DPassthrough =>
      Some (handle_composio_passthrough h env request session, st)
  | Actions actions => Some (handle_composio_actions h env st request session actions)
  | DDenied denial =>
      let decision := protocol_denial denial in
      Some (response_from_blocking_decision decision,
            [EAudit (audit_protocol_denial (rh_pipeline h) decision request session)], st)
  end.

(** ** [RequestHandler::handle] *)

Definition dispatches (d : EnforcementDecision) : bool :=
  match d with Allow _ _ _ | Modify _ _ _ _ => true | _ => false end.

(** The request and the rehydration result the rest of [handle] works on. *)
Definition rehydrate_if_dispatched (h : RequestHandler) (env : Env) (decision : EnforcementDecision)
    (request : RawRequest)
    : option (RawRequest * Result (option SidecarSecretStore) string) * list Effect :=
  if dispatches decision then rehydrate_request h env request
  else (Some (request, Ok None), []).

(** After enforcement: the response, or [None] for a panic, with the payload to
    send. *)
Definition handle_enforced (h : RequestHandler) (env : Env) (decision : EnforcementDecision)
    (a : AuditPayload) (request : RawRequest)
    : option (HandledResponse * AuditPayload) * list Effect :=
  let '(prepared, effects0) := rehydrate_if_dispatched h env decision request in
  match prepared with
  | None => (None, effects0)
  | Some (request, rehydrate_result) =>
      let '(response, a, effects1) :=
        dispatch_decision h env decision (result_err rehydrate_result)
          (blocked_provider_of h request) request a in
      let '(response, a, effects2) := intercept_http_secrets h env request response a in
      (match rehydrate_result with
       | Ok (Some store) => mask_handled_response h env response store a
       | _ => Some (response, a)
       end, effects0 ++ effects1 ++ effects2)
  end%list.

Definition handle (h : RequestHandler) (env : Env) (st : PipelineState (RS := RS) (St := St))
    (request : RawRequest) (session : string)
    : option HandledResponse * list Effect * PipelineState :=
  match handle_composio h env st request session with
  | Some (response, effects, st) => (Some response, effects, st)
  | None =>
      let '((decision, a), st) :=
        enforce (rh_pipeline h) (en_arrival env) (en_moment env) st request session in
      match handle_enforced h env decision a request with
      | (None, effects) => (None, effects, st)
      | (Some (response, a), effects) => (Some response, effects ++ [EAudit a], st)
      end
  end%list.

(** ** CONNECT and upgrades *)

(** [RequestHandler::handle_connect]. *)
Definition handle_connect (h : RequestHandler) (env : Env)
    (st : PipelineState (RS := RS) (St := St)) (request : RawRequest) (session : string)
    : ConnectDecision * list Effect * PipelineState :=
  let '((decision, a), st) :=
    enforce (rh_pipeline h) (en_arrival env) (en_moment env) st request session in
  let established := set_ap_dispatch 200 (ap_dispatch_latency_us a) (ap_response_size a) a in
  let '(outcome, a) :=
    match decision with
    | Allow _ _ _ => (ConnectAllow, established)
    | Passthrough _ => (ConnectDeny (fst unexpected_passthrough) (snd unexpected_passthrough), a)
    | Modify _ _ _ _ => (ConnectAllow, established)
    | Deny reason _ detail _ _ => (ConnectDeny reason detail, a)
    | Abort reason detail _ => (ConnectAbort reason detail, a)
    | StepUp _ _ challenge _ _ => (ConnectDeny StepUpRequired challenge, a)
    | Defer _ _ ms _ => (ConnectDeny Deferred (retry_detail ms), a)
    end in
  (outcome, [EAudit a], st).

(** [RequestHandler::authorize_upgrade]: the authorization, and the request
    headers it changed, which the caller does not get. *)
Definition authorize_upgrade (h : RequestHandler) (env : Env)
    (st : PipelineState (RS := RS) (St := St)) (request : RawRequest) (session : string)
    : UpgradeAuthorization * list Effect * PipelineState :=
  if is_protected_host (rq_host request) then
    let detail := "Composio protocol upgrades are unsupported" in
    (UpgradeDeny FailClosed detail,
     [EAudit (audit_protocol_denial (rh_pipeline h) (Deny FailClosed Normalization detail None None)
                request session)], st)
  else
    let '((decision, a), st) :=
      enforce (rh_pipeline h) (en_arrival env) (en_moment env) st request session in
    match decision with
    | Allow _ _ credentials => (UpgradeAllow credentials a, [], st)
    | Modify _ _ modifications credentials =>
        let _ := apply_modification_to_request modifications request in
        (UpgradeAllow credentials a, [], st)
    | Passthrough _ =>
        (UpgradeDeny (fst unexpected_passthrough) (snd unexpected_passthrough), [EAudit a], st)
    | Deny reason _ detail _ _ => (UpgradeDeny reason detail, [EAudit a], st)
    | Abort reason detail _ => (UpgradeAbort reason detail, [EAudit a], st)
    | StepUp _ _ challenge _ _ => (UpgradeDeny StepUpRequired challenge, [EAudit a], st)
    | Defer _ _ ms _ => (UpgradeDeny Deferred (retry_detail ms), [EAudit a], st)
    end.

(** [emit_upgrade_audit], [emit_upgrade_abort_audit]. *)
Definition emit_upgrade_audit (a : AuditPayload) (status response_size : Z) : Effect :=
  EAudit (set_ap_dispatch status 0 (i64_of_unsigned response_size) a).

Definition emit_upgrade_abort_audit (a : AuditPayload) (reason : AbortReason) (detail : string)
    : Effect :=
  EAudit (set_ap_dispatch 0 0 0
            (set_ap_decision DAbort (abort_code reason +:+ ": " +:+ detail) a)).

(** A payload with no identity. *)
Definition synthetic_payload (session action resource : string) (decision : AuditDecision)
    (reason : string) : AuditPayload :=
  {| ap_session_id := session; ap_token_id := ""; ap_agent_id := ""; ap_action := action;
     ap_resource := resource; ap_decision := decision; ap_deny_reason := reason;
     ap_enforcement_latency_us := 0; ap_context_hash := ""; ap_bundle_version := "";
     ap_dispatch_status := 0; ap_dispatch_latency_us := 0; ap_response_size := 0;
     ap_provenance := ""; ap_thread_id := ""; ap_parent_action_id := "" |}.

(** [emit_connect_relay_failure_audit] and [emit_synthetic_deny]. *)
Definition emit_connect_relay_failure_audit (session host detail : string) : Effect :=
  EAudit (synthetic_payload session "network.connect" (host +:+ "/") DAbort
            ("CONNECT_RELAY_FAILURE: " +:+ detail)).

Definition emit_synthetic_deny (session action resource : string) (reason : DenyReason)
    (detail : string) : Effect :=
  EAudit (synthetic_payload session action resource DDeny
            (deny_reason_display reason +:+ ": " +:+ detail)).

(** ** Facts: enforcement never passes a request through *)

Definition is_passthrough (d : EnforcementDecision) : bool :=
  match d with Passthrough _ => true | _ => false end.

Lemma is_deny_not_passthrough d : is_deny d = true → is_passthrough d = false.
Proof. by destruct d. Qed.

Lemma enforce_normalized_not_passthrough {Pol} {PolE : PolicyEvaluation Pol}
    p (policy : Pol) m (st : PipelineState (RS := RS) (St := St)) env session :
  is_passthrough (fst (enforce_normalized_inner (P := P) (Q := Q) p policy m st env session)) = false.
Proof.
  unfold enforce_normalized_inner.
  destruct (check_readiness (at_readiness m)) as [[]|d] eqn:Hr.
  2:{ by apply check_readiness_err, is_deny_not_passthrough in Hr. }
  destruct (enforce_stage1 _ _ env session) as [[cap|d] v] eqn:Hs1.
  2:{ by apply enforce_stage1_blocks, is_deny_not_passthrough in Hs1. }
  destruct (record_action _ _) as [count store]. set (sig := set_action_count count _).
  pose proof (stage2_spec p policy m env (vc_claims cap) sig) as Hs2.
  destruct (stage2 p policy m env (vc_claims cap) sig) as [verdict|d].
  2:{ destruct Hs2 as (? & ? & ? & ->). done. }
  destruct (lift_verdict verdict env (vc_claims cap)) as [mods|d] eqn:Hl.
  2:{ unfold lift_verdict in Hl. destruct verdict; simplify_eq; done. }
  destruct (advance_provenance _ _ _ _ _) as [anchor store']. simpl.
  destruct (inject_credentials_cases m (vc_claims cap) (assemble_envelope env cap sig anchor) mods)
    as [(credentials & _ & ->)|(detail & ->)]; [by destruct mods|done].
Qed.

Lemma enforce_not_passthrough p a m (st : PipelineState (RS := RS) (St := St)) request session :
  is_passthrough (fst (fst (enforce (P := P) (Q := Q) p a m st request session))) = false.
Proof.
  destruct (enforce_unfold p a m st request session) as [-> _]. unfold enforce_decision.
  assert (∀ d snapshot now, is_passthrough d = false →
    is_passthrough (reject_expired_pin (P := P) d snapshot now) = false) as Hrej.
  { intros d snapshot now Hd. unfold reject_expired_pin. destruct (pin_fresh _ _); [done|].
    by destruct d. }
  assert (∀ Pol (PolE : PolicyEvaluation Pol) n (policy : Pol),
    is_passthrough (fst (enforce_inner p n policy a m st request session)) = false) as Hin.
  { intros Pol PolE n policy. unfold enforce_inner.
    destruct (normalize n _ request) eqn:En; [apply enforce_normalized_not_passthrough|].
    apply normalize_err in En as [detail ->]. done. }
  destruct (pinned_generation_admission a (pinned p)) as [[]|d] eqn:Ha.
  - destruct (pinned p) as [pin|].
    + specialize (Hin _ _ (pub_normalizer pin) pin). destruct (enforce_inner _ _ _ _ _ _ _ _).
      by apply Hrej.
    + specialize (Hin _ _ (pl_normalizer p) (constraint_enforcer p)).
      destruct (enforce_inner _ _ _ _ _ _ _ _). by apply Hrej.
  - apply Hrej. by apply pinned_admission_err, is_deny_not_passthrough in Ha.
Qed.

(** ** The abstract monitor

    The specification of the handler: a request goes through the phases below,
    one effect at a time.  The gateway is asked at most once and first; a call
    reaches a connector at most once and before anything is audited, and only with
    an authorization, which says whether the gateway had to be asked; audits end
    the run. *)

Inductive Phase := PStart | PResolved | PDispatched | PAudited.

(** What a decision sends of a request: the enforced envelope with the request's
    transport fields, modified as the decision says. *)
Definition sends (d : EnforcementDecision) (request : RawRequest) (view : TransportView) : Prop :=
  match d with
  | Allow _ e credentials =>
      view = {| tv_envelope := hydrate_dispatch_http_fields e request; tv_credentials := credentials |}
  | Modify _ e spec credentials =>
      tv_credentials view = credentials ∧
      modification_apply spec (hydrate_dispatch_http_fields e request) = Ok (tv_envelope view)
  | _ => False
  end.

(** The text rehydration scans: the decoded body, or the body as it is. *)
Definition scanned (h : RequestHandler) (env : Env) (request : RawRequest) (body : string) : Bytes :=
  match decode_body (bytes_of body) (rq_headers request) (body_cap h)
          (en_join env 0) with
  | Ok (plaintext, _) => plaintext
  | Err _ => bytes_of body
  end.

(** What may authorize a dispatch: an admitted call of [enforce] of a live run
    whose provider does not block it, with the enforced modification applied to
    what is sent, and whose placeholders were resolved if it has any
    ([resolved]); an admitted batch; or admitted discovery, which carries neither
    capability nor credentials.  A Composio call is sent as it came: no
    placeholder of it is ever resolved. *)
Inductive authorized (h : RequestHandler) (env : Env)
    (st : PipelineState (RS := RS) (St := St)) (request : RawRequest) (session : string)
    : bool → TransportView → Prop :=
| auth_single d a st' view request' result :
    handle_composio h env st request session = None →
    enforce (rh_pipeline h) (en_arrival env) (en_moment env) st request session = ((d, a), st') →
    sends d request' view →
    en_run_rejected env = false →
    fst (rehydrate_request h env request) = Some (request', Ok result) →
    blocked_provider_of h request' = None →
    authorized h env st request session (bool_decide (is_Some result)) view
| auth_batch catalogs actions e view :
    rh_composio_catalogs h = Some catalogs →
    decode (en_now env) request catalogs = Actions actions →
    disposition (fst (enforce_composite (rh_pipeline h) (en_arrival env) st request session
                        (imap (λ i a, (a, en_action_moment env i)) actions)))
      = Dispatch e (tv_credentials view) →
    tv_envelope view = hydrate_dispatch_http_fields e request →
    authorized h env st request session false view
| auth_discovery catalogs detail a view :
    rh_composio_catalogs h = Some catalogs →
    decode (en_now env) request catalogs = DPassthrough →
    composio_passthrough (rh_pipeline h) (en_arrival env) (en_final env) (en_final' env) request
      session = (Passthrough detail, a) →
    tv_credentials view = credentials_empty →
    capability (tv_envelope view) = "" →
    authorized h env st request session false view.

(** What the gateway may be asked: for the placeholders of the request, for its host. *)
Definition asked (h : RequestHandler) (env : Env) (request : RawRequest) (placeholders : list string)
    (host : string) : Prop :=
  ∃ body, rq_body request = Some body ∧ placeholders = collect_placeholders (scanned h env request body) ∧
    placeholders ≠ [] ∧ host = rq_host request.

(** What a monitor lets through: a question to the gateway, and a call, with
    whether the gateway was asked before it. *)
Record Monitor := {
  may_ask : list string → string → Prop;
  may_send : bool → TransportView → Prop;
}.

Definition request_monitor (h : RequestHandler) (env : Env)
    (st : PipelineState (RS := RS) (St := St)) (request : RawRequest) (session : string) : Monitor :=
  {| may_ask := asked h env request; may_send := authorized h env st request session |}.

(** One effect of the monitor. *)
Inductive monitor_step (ok : Monitor) : Phase → Effect → Phase → Prop :=
| step_resolve placeholders host :
    may_ask ok placeholders host → monitor_step ok PStart (EResolve placeholders host) PResolved
| step_dispatch resolved view :
    may_send ok resolved view →
    monitor_step ok (if resolved : bool then PResolved else PStart) (EDispatch view) PDispatched
| step_push placeholder secret domains :
    monitor_step ok PDispatched (EPush placeholder secret domains) PDispatched
| step_audit p payload : monitor_step ok p (EAudit payload) PAudited.

Inductive monitor_run (ok : Monitor) : Phase → list Effect → Phase → Prop :=
| run_nil p : monitor_run ok p [] p
| run_cons p e q es r :
    monitor_step ok p e q → monitor_run ok q es r → monitor_run ok p (e :: es) r.

Lemma monitor_run_app ok p es1 q es2 r :
  monitor_run ok p es1 q → monitor_run ok q es2 r → monitor_run ok p (es1 ++ es2)%list r.
Proof. induction 1; [done|]. intros ?. econstructor; eauto. Qed.

Lemma monitor_run_audits {A} ok p (payload : A → AuditPayload) l :
  l ≠ [] → monitor_run ok p ((λ c, EAudit (payload c)) <$> l) PAudited.
Proof.
  assert (∀ l, monitor_run ok PAudited ((λ c, EAudit (payload c)) <$> l) PAudited) as H.
  { clear l. induction l as [|b l IH]; [constructor|]. econstructor; [apply step_audit|done]. }
  destruct l as [|a l]; [done|]. intros _. econstructor; [apply step_audit|apply H].
Qed.

Lemma monitor_run_audit ok p payload : monitor_run ok p [EAudit payload] PAudited.
Proof. econstructor; [apply step_audit|constructor]. Qed.

(** Before the end there is no audit. *)
Lemma monitor_run_unaudited ok p es q payload :
  monitor_run ok p es q → q ≠ PAudited → EAudit payload ∉ es.
Proof.
  assert (∀ p' es' q', monitor_run ok p' es' q' → p' = PAudited → q' = PAudited) as Hend.
  { induction 1 as [|? ? ? ? ? Hs ? IH]; [done|]. intros ->. apply IH.
    by inversion Hs as [| [] | |]. }
  induction 1 as [|p e q es r Hs Hr IH]; intros Hq; [by intros ?%elem_of_nil|].
  rewrite not_elem_of_cons. split; [|by apply IH]. intros <-. inversion Hs; simplify_eq.
  by apply Hq, (Hend _ _ _ Hr).
Qed.

Lemma monitor_run_pushes ok env provider_id total n pushes :
  monitor_run ok PDispatched (snd (push_all env provider_id total n pushes)) PDispatched.
Proof.
  revert n. induction pushes as [|[[ph v] ds] pushes IH]; intros n; simpl; [constructor|].
  destruct (en_push env ph v ds); simpl.
  - specialize (IH (S n)). destruct (push_all _ _ _ _ pushes). simpl in *.
    econstructor; [apply step_push|done].
  - econstructor; [apply step_push|constructor].
Qed.

Definition forwarded (r : HandledResponse) : bool :=
  match r with HOk _ | HPassthrough _ => true | _ => false end.

(** A run of dispatch: nothing was sent and nothing is forwarded, or one call was. *)
Definition dispatch_run (ok : TransportView → Prop) (r : HandledResponse) (effects : list Effect)
    : Prop :=
  (effects = [] ∧ forwarded r = false) ∨ (∃ view, effects = [EDispatch view] ∧ ok view).

Lemma dispatch_runs h ok e credentials :
  ok {| tv_envelope := e; tv_credentials := credentials |} →
  let '(r, _, effects) := dispatch h e credentials in dispatch_run ok r effects.
Proof. intros Hok. unfold dispatch. repeat case_match; simplify_eq; right; eauto. Qed.

Lemma pre_dispatch_gate_none rejected e b ctx a :
  pre_dispatch_gate rejected e b ctx a = None → rejected = false ∧ e = None ∧ b = None.
Proof. unfold pre_dispatch_gate. by destruct rejected, e, b. Qed.

Lemma pre_dispatch_gate_blocks rejected e b ctx a r a' :
  pre_dispatch_gate rejected e b ctx a = Some (r, a') → forwarded r = false.
Proof.
  unfold pre_dispatch_gate, rehydrate_fail_closed_response, http_secret_blocked_response.
  intros H. repeat case_match; by simplify_eq.
Qed.

Lemma dispatch_decision_runs (ok : TransportView → Prop) h env d re bp request a :
  (∀ view, sends d request view → en_run_rejected env = false → re = None → bp = None → ok view) →
  let '(r, _, effects) := dispatch_decision h env d re bp request a in
  (effects = [] ∧ forwarded r = false) ∨ (∃ view, effects = [EDispatch view] ∧ ok view ∧ re = None).
Proof.
  assert (∀ r effects, re = None → dispatch_run ok r effects →
    (effects = [] ∧ forwarded r = false) ∨ (∃ view, effects = [EDispatch view] ∧ ok view ∧ re = None)) as Hrun'.
  { intros r effects Hre [?|(view & ? & ?)]; [by left|right; eauto]. }
  intros Hok. destruct d as [claims e credentials| | | |claims e spec credentials| |]; simpl.
  all: try (left; done).
  - destruct (pre_dispatch_gate _ _ _ _ _) as [[r a']|] eqn:Hg.
    { left. by apply pre_dispatch_gate_blocks in Hg. }
    apply pre_dispatch_gate_none in Hg as (Hrun & -> & ->). unfold dispatch_allow.
    pose proof (dispatch_runs h ok (hydrate_dispatch_http_fields e request) credentials) as H.
    destruct (dispatch _ _ _) as [[r o] effects]. by apply Hrun', H, Hok.
  - destruct (pre_dispatch_gate _ _ _ _ _) as [[r a']|] eqn:Hg.
    { left. by apply pre_dispatch_gate_blocks in Hg. }
    apply pre_dispatch_gate_none in Hg as (Hrun & -> & ->). unfold dispatch_modify.
    destruct (modification_apply spec _) as [e'|err] eqn:Hm; [|by left].
    pose proof (dispatch_runs h ok e' credentials) as H.
    destruct (dispatch _ _ _) as [[r o] effects]. by apply Hrun', H, Hok.
Qed.

Lemma intercept_runs ok h env request r a :
  let '(r', _, effects) := intercept_http_secrets h env request r a in
  (forwarded r' = true → forwarded r = true) ∧
  (forwarded r = false → effects = []) ∧
  monitor_run ok PDispatched effects PDispatched.
Proof.
  unfold intercept_http_secrets.
  assert (monitor_run ok PDispatched [] PDispatched) as Hnil by constructor.
  destruct (http_secret_provider_decision h request) as [[id [m| |]]|]; try done.
  destruct (body_of r) as [d|] eqn:Hb; [|done].
  assert (forwarded r = true) as Hf by (by destruct r).
  destruct (negb _); simpl; [by rewrite Hf|].
  unfold rewrite_with_http_intercept.
  destruct (decode_for_inspection _ _ _ _) as [[plaintext enc]|e]; simpl;
    [|destruct e; simpl; by rewrite Hf].
  destruct (matcher_rewrite _ _ _) as [[rewritten pushes]|]; simpl; [|by rewrite Hf].
  pose proof (monitor_run_pushes ok env id (length pushes) 0 pushes) as Hp.
  destruct (push_all _ _ _ _ _) as [[|e] effects]; simpl in *.
  - destruct (recompress_after_rewrite _ _ _ _) as [|e]; simpl; [by rewrite Hf|].
    destruct e; simpl; by rewrite Hf.
  - destruct e. simpl. by rewrite Hf.
Qed.

(** Whether the gateway was asked, when there is a request to send. *)
Definition was_resolved (result : Result (option SidecarSecretStore) string) : bool :=
  match result with Ok (Some _) => true | _ => false end.

Lemma rehydrate_if_dispatched_runs ok h env d request :
  (∀ placeholders host, asked h env request placeholders host → may_ask ok placeholders host) →
  let '(prepared, effects) := rehydrate_if_dispatched h env d request in
  ∃ p, p ≠ PAudited ∧ monitor_run ok PStart effects p ∧
    (∀ request' result, prepared = Some (request', Ok result) →
       p = if bool_decide (is_Some result) then PResolved else PStart).
Proof.
  intros Hask. unfold rehydrate_if_dispatched, rehydrate_request, asked, scanned in *.
  assert (∀ r : RawRequest, ∃ p, p ≠ PAudited ∧ monitor_run ok PStart [] p ∧
    (∀ request' result, Some (r, Ok None : Result (option SidecarSecretStore) string) = Some (request', Ok result) →
       p = if bool_decide (is_Some result) then PResolved else PStart)) as Hnil.
  { intros r. exists PStart. split_and!; [done|constructor|]. by intros ? ? [= <- <-]. }
  destruct (dispatches d); [|done]. destruct (negb _); [done|].
  destruct (rq_body request) as [body|]; [|done]. destruct (is_empty body); [done|].
  destruct (decode_body _ _ _ _) as [[plaintext enc]|err] eqn:Hd.
  2:{ destruct (collect_placeholders _) as [|ph l]; [done|]. exists PStart. split_and!; [done|constructor|done]. }
  destruct (collect_placeholders plaintext) as [|ph l] eqn:Hp; [done|]. exists PResolved. split_and!; [done| |].
  - econstructor; [apply step_resolve, Hask; exists body; by rewrite Hd, Hp|constructor].
  - intros request' result. destruct (resolve_store _ _ _) as [store|]; [|done]. unfold substitute.
    destruct (rehydrate_body _ _ _); [|done]. simpl. destruct (encode_body _ _ _); by intros [= <- <-].
Qed.

Lemma mask_handled_forwarded h env r store a r' a' :
  mask_handled_response h env r store a = Some (r', a') → forwarded r' = true → forwarded r = true.
Proof. unfold mask_handled_response. destruct (body_of r) eqn:Hb; [by destruct r|]. congruence. Qed.

(** The run of a request after enforcement. *)
Lemma handle_enforced_runs (ok : Monitor) h env d a request :
  (∀ placeholders host, asked h env request placeholders host → may_ask ok placeholders host) →
  (∀ view request' result,
     sends d request' view → en_run_rejected env = false →
     fst (rehydrate_request h env request) = Some (request', Ok result) →
     blocked_provider_of h request' = None → may_send ok (bool_decide (is_Some result)) view) →
  let '(o, effects) := handle_enforced h env d a request in
  (∃ p, p ≠ PAudited ∧ monitor_run ok PStart effects p) ∧
  (∀ r a', o = Some (r, a') → forwarded r = true → ∃ view, EDispatch view ∈ effects).
Proof.
  intros Hask Hok. unfold handle_enforced.
  pose proof (rehydrate_if_dispatched_runs ok h env d request Hask) as Hp.
  destruct (rehydrate_if_dispatched h env d request) as [[[request' result]|] effects0] eqn:Ep;
    destruct Hp as (p & Hph & Hp & Hres); [|by split; [eauto|]].
  pose proof (dispatch_decision_runs (may_send ok (was_resolved result)) h env d (result_err result)
                (blocked_provider_of h request') request' a) as Hd.
  destruct (dispatch_decision _ _ _ _ _ _ _) as [[r1 a1] effects1] eqn:Ed.
  pose proof (intercept_runs ok h env request' r1 a1) as Hi.
  destruct (intercept_http_secrets _ _ _ _ _) as [[r2 a2] effects2].
  destruct Hi as (Hf & Hnil & Hi).
  destruct Hd as [[-> Hno]|(view & -> & Hview & Hre)].
  { intros view Hs Hrun Hre Hb. destruct result as [result|]; [|done].
    assert (fst (rehydrate_request h env request) = Some (request', Ok result)) as Hr.
    { unfold rehydrate_if_dispatched in Ep. destruct d; try done; simpl in Ep; by rewrite Ep. }
    specialize (Hok view request' result Hs Hrun Hr Hb). by destruct result. }
  - rewrite (Hnil Hno). rewrite !app_nil_r. split; [eauto|]. intros r a' Hr Hfr.
    assert (forwarded r2 = true); [|rewrite Hf in Hno; done].
    destruct result as [[store|]|]; [by eapply mask_handled_forwarded|congruence..].
  - destruct result as [result|]; [|done]. rewrite (Hres _ _ eq_refl) in Hp. split.
    + exists PDispatched. split; [done|]. eapply monitor_run_app; [done|].
      eapply monitor_run_app; [|done]. econstructor; [|constructor].
      apply step_dispatch. by destruct result.
    + intros _ _ _ _. exists view. rewrite !elem_of_app, list_elem_of_singleton. auto.
Qed.

(** ** Facts: the Composio path *)

Lemma enforce_composite_audits p a (st : PipelineState (RS := RS) (St := St)) request session actions :
  children (fst (enforce_composite (P := P) (Q := Q) p a st request session actions)) ≠ [].
Proof.
  unfold enforce_composite. destruct actions as [|x actions]; [done|].
  set (acts := x :: actions). set (adm := managed_transport_admission a request (pinned p)).
  pose proof (composite_children_consistent p a adm request session st acts) as [Hlen Hcons].
  destruct (composite_children p a adm request session st acts) as [l st']. simpl in *.
  destruct (composite_disposition_sound l) as (Hl & _ & Hs); [by destruct l|done|].
  destruct (disposition (composite_disposition l)).
  - destruct Hs as [-> _]. by destruct l.
  - destruct Hs as [(c & Hc & _) _]. by destruct (children (composite_disposition l)).
Qed.

Lemma composio_actions_runs (ok : Monitor) h env st request session actions :
  (∀ e credentials,
     disposition (fst (enforce_composite (rh_pipeline h) (en_arrival env) st request session
                         (imap (λ i a, (a, en_action_moment env i)) actions)))
     = Dispatch e credentials →
     may_send ok false
       {| tv_envelope := hydrate_dispatch_http_fields e request; tv_credentials := credentials |}) →
  let '(r, effects, _) := handle_composio_actions h env st request session actions in
  monitor_run ok PStart effects PAudited ∧
  (forwarded r = true → ∃ view, EDispatch view ∈ effects).
Proof.
  intros Hok. unfold handle_composio_actions.
  pose proof (enforce_composite_audits (rh_pipeline h) (en_arrival env) st request session
                (imap (λ i a, (a, en_action_moment env i)) actions)) as Hne.
  destruct (enforce_composite _ _ _ _ _ _) as [result st']. simpl in *.
  destruct (disposition result) as [e credentials|i].
  - pose proof (dispatch_runs h (may_send ok false) (hydrate_dispatch_http_fields e request) credentials) as Hd.
    destruct (dispatch _ _ _) as [[r o] effects].
    assert (∀ p, monitor_run ok p
      ((λ c, EAudit (enrich o (cr_audit_payload c))) <$> children result) PAudited) as Ha.
    { intros p. by apply (monitor_run_audits ok p (λ c, enrich o (cr_audit_payload c))). }
    destruct Hd as [[-> Hf]|(view & -> & Hv)]; [by apply Hok|by rewrite Hf|].
    split; [|intros _; exists view; by left].
    econstructor; [by apply (step_dispatch ok false)|apply Ha].
  - split; [|by destruct (children result !! i) as [[[] ?]|]].
    by apply (monitor_run_audits ok PStart cr_audit_payload).
Qed.

Lemma composio_passthrough_runs (ok : Monitor) h env request session :
  (∀ detail a view,
     composio_passthrough (rh_pipeline h) (en_arrival env) (en_final env) (en_final' env) request
       session = (Passthrough detail, a) →
     tv_credentials view = credentials_empty → capability (tv_envelope view) = "" → may_send ok false view) →
  let '(r, effects) := handle_composio_passthrough h env request session in
  monitor_run ok PStart effects PAudited ∧
  (forwarded r = true → ∃ view, EDispatch view ∈ effects).
Proof.
  intros Hok. unfold handle_composio_passthrough.
  destruct (composio_passthrough _ _ _ _ _ _) as [d a].
  destruct d as [| | |detail| | |]; try (split; [apply monitor_run_audit|done]).
  unfold forward_composio_observed.
  destruct (passthrough_envelope (en_now env) request session) as [e|m] eqn:He.
  2:{ split; [apply monitor_run_audit|done]. }
  pose proof (dispatch_runs h (may_send ok false) e credentials_empty) as Hd.
  destruct (dispatch h e credentials_empty) as [[r o] effects].
  destruct Hd as [[-> Hf]|(view & -> & Hv)].
  { apply (Hok detail a); [done..|]. simpl. unfold passthrough_envelope in He.
    destruct (http_method_try_from _); by simplify_eq/=. }
  - split; [apply monitor_run_audit|by destruct r].
  - split; [|intros _; exists view; by left].
    econstructor; [by apply (step_dispatch ok false)|apply monitor_run_audit].
Qed.

(** ** Claims: mediation *)

(** [C3] The handler refines its monitor.  For every request, whatever the
    connectors and the secret gateway answer, its effects are a run of the
    monitor above: at most one call leaves, and it is an authorized one; a
    request of the ordinary path whose placeholders are replaced is sent only
    after the gateway was asked for exactly its placeholders and its host, and
    one without placeholders, or of the Composio path, without asking; secrets of
    a response are only pushed after a call; an audit payload is sent for every
    request that gets a response, and nothing but audits follows it.  A response
    is only ever forwarded from such a call. *)
Theorem handle_refines_monitor h env st request session :
  let '(r, effects, _) := handle h env st request session in
  (∃ p, monitor_run (request_monitor h env st request session) PStart effects p ∧
        (is_Some r → p = PAudited)) ∧
  (∀ response, r = Some response → forwarded response = true →
     ∃ view, EDispatch view ∈ effects).
Proof.
  unfold handle. destruct (handle_composio h env st request session) as [[[r effects] st']|] eqn:Hc.
  - assert (monitor_run (request_monitor h env st request session) PStart effects PAudited ∧
      (forwarded r = true → ∃ view, EDispatch view ∈ effects)) as [Hr Hf];
      [|split; [by exists PAudited|intros response [= <-]; done]].
    unfold handle_composio in Hc. destruct (rh_composio_catalogs h) as [catalogs|] eqn:Hcat; [|done].
    simpl in Hc. destruct (decode (en_now env) request catalogs) as [| |actions|denial] eqn:Hd; [done|..].
    + pose proof (composio_passthrough_runs (request_monitor h env st request session) h env request
                    session) as H.
      destruct (handle_composio_passthrough h env request session). simplify_eq.
      apply H. intros. by eapply auth_discovery.
    + pose proof (composio_actions_runs (request_monitor h env st request session) h env st request
                    session actions) as H.
      destruct (handle_composio_actions _ _ _ _ _ _) as [[r' es] st'']. simplify_eq.
      apply H. intros. by eapply auth_batch.
    + simplify_eq. split; [apply monitor_run_audit|done].
  - destruct (enforce _ _ _ _ _ _) as [[d a] st'] eqn:He.
    pose proof (handle_enforced_runs (request_monitor h env st request session) h env d a request) as H.
    destruct (handle_enforced h env d a request) as [[[r a']|] effects];
      (destruct H as [(p & _ & Hp) Hf]; [done|by intros; eapply auth_single|]).
    + split.
      * exists PAudited. split; [|done]. eapply monitor_run_app; [done|apply monitor_run_audit].
      * intros response [= <-] Hr. destruct (Hf r a' eq_refl Hr) as [view Hv].
        exists view. rewrite elem_of_app. by left.
    + split; [exists p; split; [done|by intros [? ?]]|done].
Qed.

(** ** Facts: the audit payload follows the response *)

(** The payload says what the caller got. *)
Definition agrees (r : HandledResponse) (a : AuditPayload) : Prop :=
  match r with
  | HOk d => (ap_decision a = DAllow ∨ ap_decision a = DModify) ∧ ap_dispatch_status a = dr_status d
  | HPassthrough _ => False
  | HDeny _ _ _ => ap_decision a = DDeny ∨ ap_decision a = DStepUp ∨ ap_decision a = DDefer
  | HAborted _ _ => ap_decision a = DAbort
  end.

Lemma pre_dispatch_gate_agrees rejected e b ctx a r a' :
  pre_dispatch_gate rejected e b ctx a = Some (r, a') → agrees r a'.
Proof.
  unfold pre_dispatch_gate, rehydrate_fail_closed_response, http_secret_blocked_response.
  intros H. repeat case_match; simplify_eq; simpl; auto.
Qed.

Lemma dispatch_agrees h e credentials a :
  ap_decision a = DAllow ∨ ap_decision a = DModify →
  let '(r, o, _) := dispatch h e credentials in agrees r (enrich o a).
Proof.
  intros Ha. unfold dispatch.
  destruct (select_connector _ _ _) as [response|[]]; simpl; auto.
Qed.

Lemma dispatch_decision_agrees h env d re bp request a :
  is_passthrough d = false → ap_decision a = decision_code d →
  let '(r, a', _) := dispatch_decision h env d re bp request a in agrees r a'.
Proof.
  intros Hp Ha. destruct d as [claims e credentials| | | |claims e spec credentials| |]; simpl; auto.
  - destruct (pre_dispatch_gate _ _ _ _ _) as [[r a']|] eqn:Hg.
    { by eapply pre_dispatch_gate_agrees. }
    unfold dispatch_allow.
    pose proof (dispatch_agrees h (hydrate_dispatch_http_fields e request) credentials a) as H.
    destruct (dispatch _ _ _) as [[r o] effects]. auto.
  - done.
  - destruct (pre_dispatch_gate _ _ _ _ _) as [[r a']|] eqn:Hg.
    { by eapply pre_dispatch_gate_agrees. }
    unfold dispatch_modify. destruct (modification_apply spec _) as [e'|err]; simpl; [|auto].
    pose proof (dispatch_agrees h e' credentials a) as H.
    destruct (dispatch _ _ _) as [[r o] effects]. auto.
Qed.

Lemma body_of_with_dispatched r d d' a :
  body_of r = Some d → dr_status d' = dr_status d → agrees r a → agrees (with_dispatched r d') a.
Proof. destruct r; simpl; [|done..]. by intros [= ->] ->. Qed.

Lemma intercept_agrees h env request r a :
  agrees r a → let '(r', a', _) := intercept_http_secrets h env request r a in agrees r' a'.
Proof.
  intros Ha. unfold intercept_http_secrets.
  destruct (http_secret_provider_decision h request) as [[id [m| |]]|]; try done.
  destruct (body_of r) as [d|] eqn:Hb; [|done]. destruct (negb _); simpl; [done|].
  assert (∀ d', fst (rewrite_with_http_intercept h env d id m) = Ok d' → dr_status d' = dr_status d).
  { intros d'. unfold rewrite_with_http_intercept.
    repeat case_match; simpl; by intros [= <-]. }
  destruct (rewrite_with_http_intercept h env d id m) as [[d'|[reason detail]] effects]; [|done].
  eapply body_of_with_dispatched; eauto.
Qed.

Lemma mask_agrees h env r store a r' a' :
  agrees r a → mask_handled_response h env r store a = Some (r', a') → agrees r' a'.
Proof.
  intros Ha. unfold mask_handled_response. destruct (body_of r) as [d|] eqn:Hb; [|congruence].
  destruct (mask_dispatched h env d store) as [[d'|[reason detail]]|] eqn:Hm; [|by intros [= <- <-]|done].
  intros [= <- <-]. eapply body_of_with_dispatched; [done| |done].
  unfold mask_dispatched in Hm. destruct (is_empty _); [congruence|].
  destruct (decode_body _ _ _ _) as [[plaintext enc]|]; [|done].
  destruct (mask_ops _ _ _) as [|op ops]; [congruence|].
  destruct (mask_body _ _) as [masked|]; simpl in Hm; [|done].
  destruct (encode_body _ _ _); by simplify_eq.
Qed.

Lemma enforce_code p a m (st : PipelineState (RS := RS) (St := St)) request session :
  ap_decision (snd (fst (enforce (P := P) (Q := Q) p a m st request session)))
  = decision_code (fst (fst (enforce p a m st request session))).
Proof.
  unfold enforce, redact_managed_audit. destruct (enforce_decision _ _ _ _ _ _). simpl.
  by autorewrite with firma_audit.
Qed.

Lemma handle_enforced_agrees h env d a request :
  is_passthrough d = false → ap_decision a = decision_code d →
  let '(o, effects) := handle_enforced h env d a request in
  (∀ b, EAudit b ∉ effects) ∧ (∀ r a', o = Some (r, a') → agrees r a').
Proof.
  intros Hp Ha. pose proof (handle_enforced_runs {| may_ask := λ _ _, True; may_send := λ _ _, True |} h env d a request) as Hr.
  destruct (handle_enforced h env d a request) as [o effects] eqn:He.
  destruct Hr as [(p & Hne & Hrun) _]; [done..|].
  split; [intros b; by eapply monitor_run_unaudited|]. intros r a' ->.
  unfold handle_enforced in He. destruct (rehydrate_if_dispatched h env d request) as [[[request' result]|] es0]; [|done].
  pose proof (dispatch_decision_agrees h env d (result_err result) (blocked_provider_of h request')
                request' a Hp Ha) as Hd.
  destruct (dispatch_decision _ _ _ _ _ _ _) as [[r1 a1] es1].
  pose proof (intercept_agrees h env request' r1 a1 Hd) as Hi.
  destruct (intercept_http_secrets _ _ _ _ _) as [[r2 a2] es2].
  destruct result as [[store|]|]; simplify_eq; [|done..]. by eapply mask_agrees.
Qed.

(** [C5] The audit record of a request that is not handled as a Composio one says
    what its caller got, whatever happened after enforcement: a forwarded response is recorded as allowed or
    modified with the upstream's status, a refusal as a denial, a step-up or a
    deferral, an abort as an abort; and it is the last effect and the only
    audit of the request. *)
Theorem handle_audit_consistent h env st request session response :
  handle_composio h env st request session = None →
  fst (fst (handle h env st request session)) = Some response →
  ∃ pre a,
    snd (fst (handle h env st request session)) = (pre ++ [EAudit a])%list ∧
    (∀ b, EAudit b ∉ pre) ∧ agrees response a.
Proof.
  unfold handle. intros ->.
  pose proof (enforce_not_passthrough (rh_pipeline h) (en_arrival env) (en_moment env) st request
                session) as Hnp.
  pose proof (enforce_code (rh_pipeline h) (en_arrival env) (en_moment env) st request session) as Hc.
  destruct (enforce _ _ _ _ _ _) as [[d a] st']. simpl in Hnp, Hc.
  pose proof (handle_enforced_agrees h env d a request Hnp Hc) as H.
  destruct (handle_enforced h env d a request) as [[[r a']|] effects]; [|done].
  destruct H as [Hno Ha]. simpl. intros [= <-]. exists effects, a'. auto.
Qed.

(** ** Facts: rehydration *)

Section Laws.
Context {JL : JsonUnescapeLaws JU} {AL : AhoCorasickLaws AC} {PL : PlaceholderLaws PP}.

Lemma fill_store_spec pairs : ∀ s s',
  fill_store s pairs = Ok s' → store_ok s →
  store_ok s' ∧ (∀ ph, known s' ph ↔ known s ph ∨ ph ∈ pairs.*1) ∧
  (NoDup pairs.*1 → ∀ ph v, (ph, v) ∈ pairs → by_placeholder s' !! ph = Some v) ∧
  (∀ ph, ph ∉ pairs.*1 → by_placeholder s' !! ph = by_placeholder s !! ph).
Proof.
  induction pairs as [|[ph0 v0] pairs IH]; intros s s'; simpl.
  { intros [= <-] Hs. split_and!; [done| |by intros _ ph v ?%elem_of_nil|done].
    intros ph. rewrite elem_of_nil. tauto. }
  destruct (store_insert s ph0 v0) as [s1|] eqn:Hi; [|done]. intros Hf Hs.
  apply store_insert_ok in Hi as [Hs1 Hb1].
  destruct (IH s1 s' Hf Hs1) as (Hok & Hk & Hv & Hkeep). split_and!; [done|..].
  - intros ph. rewrite Hk, elem_of_cons. unfold known. rewrite Hb1, lookup_insert_is_Some. 
    destruct (decide (ph0 = ph)); naive_solver.
  - rewrite NoDup_cons. intros [Hn Hnd] ph v [[= -> ->]|Hin]%elem_of_cons; [|by apply Hv].
    rewrite Hkeep, Hb1 by done. apply lookup_insert_eq.
  - intros ph. rewrite not_elem_of_cons. intros [Hne Hn]. rewrite Hkeep, Hb1 by done.
    by apply lookup_insert_ne.
Qed.

Lemma resolve_store_spec env phs host store :
  NoDup phs → resolve_store env phs host = Ok store →
  ∃ results, en_resolve env phs host = Ok (Ok results) ∧ store_ok store ∧
    (∀ ph, known store ph ↔ ph ∈ phs) ∧
    (∀ ph v, by_placeholder store !! ph = Some v ↔ (ph, v) ∈ zip phs results).
Proof.
  unfold resolve_store. intros Hnd. destruct (en_resolve env phs host) as [[results|]|]; [|done..].
  destruct (fill_store secret_store_new (zip phs results)) as [s|] eqn:Hf; simpl; [|done].
  destruct (Nat.eqb_spec (store_len s) (length phs)) as [Hlen|]; simpl; [|done].
  intros [= ->]. exists results. destruct (fill_store_spec _ _ _ Hf secret_store_new_ok) as (Hok & Hk & Hv & _).
  assert ((zip phs results).*1 `sublist_of` phs) as Hsub.
  { clear. revert results. induction phs as [|x phs IH]; intros [|y results]; simpl;
      [done..|apply sublist_nil_l|by constructor]. }
  assert (∀ ph, known store ph ↔ ph ∈ (zip phs results).*1) as Hk'.
  { intros ph. rewrite Hk. split; [intros [[? [=]]|?]|]; auto. }
  specialize (Hv (sublist_NoDup _ _ Hnd Hsub)). split; [done|]. split; [done|]. split.
  2:{ intros ph v. split; [|apply Hv]. intros Hs.
      assert (ph ∈ (zip phs results).*1) as ([ph' v'] & -> & Hin)%list_elem_of_fmap by (apply Hk'; by eexists).
      pose proof (Hv _ _ Hin) as Hs'. simpl in *. simplify_eq. done. }
  assert (dom (by_placeholder store) ≡ list_to_set phs) as Hdom.
  { apply set_subseteq_size_equiv.
    - intros ph Hph%elem_of_dom. apply elem_of_list_to_set. apply Hk' in Hph.
      by eapply elem_of_submseteq, sublist_submseteq.
    - rewrite size_list_to_set, size_dom by done. unfold store_len in Hlen. lia. }
  intros ph. rewrite <- (elem_of_list_to_set (C := gset string)), <- Hdom. apply symmetry, elem_of_dom.
Qed.

Lemma collected_tokens body :
  NoDup (collect_placeholders body) ∧ "" ∉ collect_placeholders body.
Proof.
  unfold collect_placeholders.
  destruct (collect_sound (S (length body)) body 0 [] NoDup_nil_2) as (H1 & H2 & _).
  split; [done|]. intros [H|(k & Hp & _)]%H2; [by apply elem_of_nil in H|].
  apply placeholder_shape in Hp as (suffix & Heq & _). discriminate.
Qed.

Lemma substitute_total env request plaintext encoding store :
  store_ok store → (¬ known store "") → is_Some (substitute env request plaintext encoding store).
Proof.
  intros Hok He. unfold substitute.
  destruct (rehydrate_exact store plaintext (resolve_or_raw (rq_headers request) plaintext) Hok He)
    as (out & -> & _). by eexists.
Qed.

Lemma rehydrate_request_total h env request : is_Some (fst (rehydrate_request h env request)).
Proof.
  unfold rehydrate_request. destruct (negb _); [by eexists|].
  destruct (rq_body request) as [body|]; [|by eexists]. destruct (is_empty body); [by eexists|].
  destruct (match decode_body _ _ _ _ with Ok _ => _ | Err _ => _ end) as [[plaintext enc] err].
  destruct (collected_tokens plaintext) as [Hnd Hne].
  destruct (collect_placeholders plaintext) as [|ph l] eqn:Hc; [by eexists|].
  destruct err; [by eexists|]. cbn [fst].
  destruct (resolve_store env (ph :: l) (rq_host request)) as [store|] eqn:Hr; [|by eexists].
  apply resolve_store_spec in Hr as (results & _ & Hok & Hk & _); [|done].
  apply substitute_total; [done|]. by rewrite Hk.
Qed.

Lemma mask_handled_response_total h env r store a : is_Some (mask_handled_response h env r store a).
Proof.
  unfold mask_handled_response. destruct (body_of r) as [d|]; [|by eexists].
  enough (is_Some (mask_dispatched h env d store)) as [x ->] by (by eexists).
  unfold mask_dispatched. destruct (is_empty _); [by eexists|].
  destruct (decode_body _ _ _ _) as [[plaintext enc]|]; [|by eexists].
  destruct (mask_body_weave store plaintext (resolve_or_raw (dr_headers d) plaintext))
    as (gaps & Hm & _). revert Hm.
  destruct (mask_ops _ _ _) as [|op ops]; [by eexists|]. intros ->. by eexists.
Qed.

(** [C6] Handling a request always ends with a response: no slice of the secret
    rewriting is out of range, for any body, store and upstream. *)
Theorem handle_total h env st request session :
  is_Some (fst (fst (handle h env st request session))).
Proof.
  unfold handle. destruct (handle_composio _ _ _ _ _) as [[[r effects] st']|]; [by eexists|].
  destruct (enforce _ _ _ _ _ _) as [[d a] st'].
  assert (is_Some (fst (handle_enforced h env d a request))) as [[r a'] Hr].
  2:{ destruct (handle_enforced h env d a request) as [o effects]. simpl in Hr. subst. by eexists. }
  unfold handle_enforced. assert (is_Some (fst (rehydrate_if_dispatched h env d request))) as [[request' result] Hp].
  { unfold rehydrate_if_dispatched. destruct (dispatches d); [apply rehydrate_request_total|by eexists]. }
  destruct (rehydrate_if_dispatched h env d request) as [prepared effects]. simpl in Hp. subst.
  destruct (dispatch_decision _ _ _ _ _ _ _) as [[r1 a1] es1].
  destruct (intercept_http_secrets _ _ _ _ _) as [[r2 a2] es2]. simpl.
  destruct result as [[store|]|]; [apply mask_handled_response_total|by eexists..].
Qed.

(** [C4] Rehydration is all or nothing.  With a gateway, a request with a body is
    left as it is if the scanned text has no placeholder; it is refused,
    unchanged; or the gateway resolved all the placeholders found, for the host of
    the request, and the body sent is the decoded text, encoded again as it came,
    in which every occurrence of a placeholder is replaced by the secret the
    gateway returned for that very placeholder, in the encoding of the content
    type, and every other byte is kept; the store for masking the response holds
    exactly these pairs. *)
Theorem rehydrate_request_exact h env request body :
  rh_gateway h = true → rq_body request = Some body → body ≠ "" →
  let text := scanned h env request body in
  match fst (rehydrate_request h env request) with
  | None => False
  | Some (request', Err _) => request' = request ∧ collect_placeholders text ≠ []
  | Some (request', Ok None) => request' = request ∧ collect_placeholders text = []
  | Some (request', Ok (Some store)) =>
      ∃ results encoding out final,
        decode_body (bytes_of body) (rq_headers request) (body_cap h) (en_join env 0) = Ok (text, encoding) ∧
        en_resolve env (collect_placeholders text) (rq_host request) = Ok (Ok results) ∧
        (∀ ph, known store ph ↔ ph ∈ collect_placeholders text) ∧
        (∀ ph v, by_placeholder store !! ph = Some v ↔ (ph, v) ∈ zip (collect_placeholders text) results) ∧
        rehydrated_as (λ ph v, (ph, v) ∈ zip (collect_placeholders text) results)
          (resolve_or_raw (rq_headers request) text) text out ∧
        encode_body out encoding (en_join env 1) = Ok final ∧
        request' = with_body request final
  end.
Proof.
  intros Hg Hb Hne. cbv zeta. unfold rehydrate_request, scanned. rewrite Hg, Hb. cbn [negb].
  destruct (is_empty body) eqn:Hemp; [by destruct body|].
  destruct (decode_body _ _ _ _) as [[text encoding]|err].
  2:{ by destruct (collect_placeholders (bytes_of body)). }
  destruct (collected_tokens text) as [Hnd Hn].
  destruct (collect_placeholders text) as [|ph l]; [done|]. cbn [fst].
  destruct (resolve_store env (ph :: l) (rq_host request)) as [store|] eqn:Hr; [|done].
  apply resolve_store_spec in Hr as (results & Hres & Hok & Hk & Hv); [|done]. unfold substitute.
  destruct (rehydrate_exact store text (resolve_or_raw (rq_headers request) text) Hok)
    as (out & -> & Hout); [by rewrite Hk|]. simpl.
  destruct (encode_body _ _ _) as [final|err] eqn:He; [|done].
  exists results, encoding, out, final. do 4 (split; [done|]). split; [|done].
  eapply rehydrated_as_iff; [|exact Hout]. intros. symmetry. apply Hv.
Qed.

End Laws.

(** ** Connector selection *)

(** A connector registered for a host is never used: the connector is looked
    up under the host of a URL parse of [<host><path>], a text without a scheme,
    so for every call without a colon in its resource, registering an override
    changes nothing about its dispatch. *)
Theorem host_override_ignored {UL : UrlParseLaws UP} h h' host c e credentials :
  rh_connector_registry h' = register_host (rh_connector_registry h) host c →
  host ≠ "" → contains_char ":"%char (resource_display (env_intent e)) = false →
  dispatch h' e credentials = dispatch h e credentials.
Proof.
  intros Hr Hh Hc. unfold dispatch, select_connector, registry_select.
  rewrite Hr, url_needs_scheme by done. simpl. by rewrite lookup_insert_ne.
Qed.

End Handler.

Arguments RequestHandler {HC P Q} M.

(** ** Samples *)

Module Samples.
Import Pipeline.Samples CapabilityValidation.Samples.
#[local] Existing Instances list_http list_http_laws plain_form sample_verifier sample_hash
  sample_sizing assoc_lru Session.Samples.hex_sha Pipeline.Samples.no_json ascii_nfc no_params
  sample_policy BodyEncoding.Samples.mark_codecs SecretRewrite.Samples.alnum_placeholder
  SecretRewrite.Samples.alnum_placeholder_laws SecretRewrite.Samples.no_json
  SecretRewrite.Samples.no_json_laws SecretRewrite.Samples.no_xml
  SecretRewrite.Samples.form_encoders SecretStore.Samples.search_ac
  SecretStore.Samples.search_ac_laws Composio.Samples.sample_json.

#[local] Instance schemed_url : UrlParse := λ s,
  if contains_char ":"%char s then Some s else None.
#[local] Instance schemed_url_laws : UrlParseLaws schemed_url.
Proof. intros s H. unfold url_host_str, schemed_url. by rewrite H. Qed.

#[local] Instance no_mime : MimeParse := λ _, None.

(** A matcher with nothing to extract. *)
#[local] Instance keep_all : SecretExtract unit := λ _ body _, Ok (body, []).

Definition echo (view : TransportView) : Result ConnectorResponse ConnectorError :=
  match params (env_intent (tv_envelope view)) with
  | Http p => Ok {| cn_status := 201; cn_headers := []; cn_body := default "" (hp_body p);
                    cn_dispatch_latency := 3000; cn_response_size := 9 |}
  | _ => Err (CInvalidRequest "not HTTP")
  end.

Definition refuse (view : TransportView) : Result ConnectorResponse ConnectorError :=
  Err (CNetwork "refused").

Definition sample_handler (v : PolicyVerdict) : RequestHandler (P := SamplePolicy) (Q := SamplePolicy) unit :=
  {| rh_composio_catalogs := None; rh_connector_registry := registry_new echo;
     rh_pipeline := sample_pipeline v; rh_gateway := true; rh_http_secret_mediation := None;
     rh_max_decompressed_body_bytes := 4096 |}.

Definition token : string := "fsp_ABCDEFGHIJKLMNOPQRSTUVWXYZ".

Definition sample_env : Env (St := LruSessionStateStore) :=
  {| en_arrival := sample_arrival; en_moment := sample_moment; en_action_moment _ := sample_moment;
     en_final := 30; en_final' := 31; en_now := 10; en_run_rejected := false;
     en_resolve phs _ := Ok (Ok ((λ _, "hunter2-hunter2") <$> phs)); en_push _ _ _ := Ok tt;
     en_fresh := []; en_join _ := None |}.

Definition post (body : string) : RawRequest :=
  {| rq_method := "GET"; rq_host := "api.github.com"; rq_path := "/repos/x"; rq_headers := [];
     rq_body := Some body; rq_is_https := true |}.

#[local] Abbreviation run v body :=
  (handle (sample_handler v) sample_env sample_state (post body) "s").

(** The upstream sees the secret, the caller its placeholder. *)
Example secret_not_echoed :
  match run VAllow ("pw=" +:+ token) with
  | (Some (HOk d), [EResolve phs _; EDispatch view; EAudit a], _) =>
      phs = [token] ∧ dr_body d = "pw=" +:+ token ∧ ap_dispatch_status a = 201%Z ∧
      match params (env_intent (tv_envelope view)) with
      | Http p => hp_body p = Some "pw=hunter2-hunter2"
      | _ => False
      end
  | _ => False
  end.
Proof. vm_compute. split_and!; reflexivity. Qed.

Lemma handle_audit_consistent_witness :
  ∃ response pre a, fst (fst (run VAllow "x")) = Some response ∧
    snd (fst (run VAllow "x")) = (pre ++ [EAudit a])%list ∧ agrees response a.
Proof.
  assert (match fst (fst (run VAllow "x")) with Some _ => True | None => False end) as E
    by (vm_compute; exact I).
  pose proof (handle_audit_consistent (sample_handler VAllow) sample_env sample_state (post "x") "s")
    as H.
  destruct (fst (fst (run VAllow "x"))) as [response|]; [|destruct E].
  destruct (H response eq_refl eq_refl) as (pre & a & Heq & _ & Ha).
  exists response, pre, a. auto.
Defined.

Lemma handle_total_witness :
  is_Some (fst (fst (run VAllow ("k=" +:+ token +:+ token)))).
Proof. apply handle_total. Defined.

Lemma rehydrate_request_exact_witness :
  ∃ request' store,
    fst (rehydrate_request (sample_handler VAllow) sample_env (post ("pw=" +:+ token)))
      = Some (request', Ok (Some store)) ∧ known store token.
Proof.
  pose proof (rehydrate_request_exact (sample_handler VAllow) sample_env (post ("pw=" +:+ token))
                ("pw=" +:+ token) eq_refl eq_refl ltac:(discriminate)) as H. cbv zeta in H.
  assert (match fst (rehydrate_request (sample_handler VAllow) sample_env (post ("pw=" +:+ token)))
          with Some (_, Ok (Some _)) => True | _ => False end) as E by (vm_compute; exact I).
  assert (token ∈ collect_placeholders
            (scanned (sample_handler VAllow) sample_env (post ("pw=" +:+ token)) ("pw=" +:+ token)))
    as Ht by (vm_compute; left).
  destruct (fst (rehydrate_request _ _ _)) as [[request' [[store|]|]]|]; try destruct E.
  exists request', store. split; [reflexivity|]. destruct H as (? & ? & ? & ? & _ & _ & Hk & _).
  by apply Hk.
Defined.

Definition overridden : RequestHandler (P := SamplePolicy) (Q := SamplePolicy) unit :=
  {| rh_composio_catalogs := None;
     rh_connector_registry := register_host (registry_new echo) "api.github.com" refuse;
     rh_pipeline := sample_pipeline VAllow; rh_gateway := true; rh_http_secret_mediation := None;
     rh_max_decompressed_body_bytes := 4096 |}.

Definition sample_call : option ExecutionEnvelope :=
  match run VAllow "x" with
  | (_, EDispatch view :: _, _) => Some (tv_envelope view)
  | _ => None
  end.

Lemma host_override_ignored_witness :
  ∃ e, sample_call = Some e ∧
    dispatch overridden e credentials_empty = dispatch (sample_handler VAllow) e credentials_empty.
Proof.
  assert (match sample_call with
          | Some e => contains_char ":"%char (resource_display (env_intent e)) = false
          | None => False
          end) as H by (vm_compute; reflexivity).
  destruct sample_call as [e|]; [|destruct H]. exists e. split; [reflexivity|].
  apply (host_override_ignored (sample_handler VAllow) overridden "api.github.com" refuse);
    [reflexivity|discriminate|exact H].
Defined.

(** A provider that trusts [/repos/public/*] and extracts from the rest. *)
Definition mediated : RequestHandler (P := SamplePolicy) (Q := SamplePolicy) unit :=
  {| rh_composio_catalogs := None; rh_connector_registry := registry_new echo;
     rh_pipeline := sample_pipeline VAllow; rh_gateway := true;
     rh_http_secret_mediation :=
       Some [{| hi_provider_id := "vault"; hi_host := "api.github.com";
                hi_matchers := [SensitiveCommand {| pm_path := Some "/repos/x/*"; pm_matcher := tt |};
                                SafeCommand {| po_path := "/repos/public/*" |}] |}];
     rh_max_decompressed_body_bytes := 4096 |}.

Definition at_path (path : string) : RawRequest :=
  {| rq_method := "GET"; rq_host := "api.github.com"; rq_path := path; rq_headers := [];
     rq_body := None; rq_is_https := true |}.

(** The provider's rule is chosen on the path as written, the call goes to the
    path as normalised: with a dot segment a response of the sensitive command
    is passed through as one of the safe command. *)
Lemma provider_rule_on_raw_path :
  normalize_path "/repos/public/../x/db" = "/repos/x/db" ∧
  http_secret_provider_decision mediated (at_path "/repos/x/db") = Some ("vault", UseMatcher tt) ∧
  http_secret_provider_decision mediated (at_path "/repos/public/../x/db")
    = Some ("vault", PassThrough) ∧
  match handle mediated sample_env sample_state (at_path "/repos/public/../x/db") "s" with
  | (Some (HOk _), [EDispatch view; EAudit _], _) =>
      resource_display (env_intent (tv_envelope view)) = "api.github.com/repos/x/db"
  | _ => False
  end.
Proof. split_and!; vm_compute; reflexivity. Qed.

End Samples.
