(* ===== verification/LocalExec.v ===== *)
(** * Local execution governance

    [local_exec/token_store.rs], [local_exec/handler.rs] and the connection
    handler of [local_exec/endpoint.rs] in the sidecar, and the client
    [firma-run/src/mediator.rs].

    The handler is written against the trait [TokenStore]: the class of that
    name, with [TokenStoreLaws] the promise its theorems use; the in-memory
    store discharges it.  Operations take the clock reading they make; a fresh
    token id is an argument of [issue].  Every operation of the in-memory store
    runs under its mutex, whose guard is recovered when poisoned, so an
    operation is one step on the map. *)

From S2P Require Import Prelude RustStr Runtime Session.

#[local] Open Scope string_scope.

(** ** Tokens *)

Inductive TokenState := TPending | TApproved | TConsumed | TExpired | TRevoked.

#[export] Instance token_state_eq_dec : EqDecision TokenState.
Proof. solve_decision. Defined.

Record HitlToken := {
  tk_fingerprint : string;
  tk_session_id : string;
  tk_sandbox_id : string;
  tk_agent_id : option string;
  tk_expires_at : Z;
  tk_state : TokenState;
}.

Inductive TokenValidationResult :=
| Valid | Unknown | StillPending | ExpiredT | AlreadyConsumed | RevokedT
| FingerprintMismatch | ContextMismatch.

Inductive ApproveResult := ApproveOk | ApproveNotFound | ApproveConsumed | ApproveRevoked | ApproveExpired.

Inductive RevokeResult := RevokeOk | RevokeNotFound | RevokeConsumed | RevokeExpired.

(** ** The interface *)

Class TokenStore (TS : Type) := {
  ts_issue : TS → Z → string → string → string → string → option string → TS;
  ts_validate_and_consume :
    TS → Z → string → string → string → string → option string → TokenValidationResult * TS;
  ts_approve : TS → Z → string → ApproveResult * TS;
  ts_revoke : TS → Z → string → RevokeResult * TS;
  ts_prune_expired : TS → Z → TS;
}.

(** ** The in-memory store *)

Record InMemoryTokenStore := {
  tokens : gmap string HitlToken;
  store_ttl : Z;
  expiry_grace : Z;
}.

Definition set_tokens (m : gmap string HitlToken) (s : InMemoryTokenStore) : InMemoryTokenStore :=
  {| tokens := m; store_ttl := store_ttl s; expiry_grace := expiry_grace s |}.

Definition set_token_state (st : TokenState) (t : HitlToken) : HitlToken :=
  {| tk_fingerprint := tk_fingerprint t; tk_session_id := tk_session_id t;
     tk_sandbox_id := tk_sandbox_id t; tk_agent_id := tk_agent_id t;
     tk_expires_at := tk_expires_at t; tk_state := st |}.

(** [token.state = st] under the guard. *)
Definition write_state (s : InMemoryTokenStore) (id : string) (t : HitlToken) (st : TokenState)
    : InMemoryTokenStore := set_tokens (<[id := set_token_state st t]> (tokens s)) s.

Definition nanos_per_min : Z := 60 * 1000000000.

(** [InMemoryTokenStore::new]. *)
Definition token_store_new (ttl : Z) : InMemoryTokenStore :=
  {| tokens := ∅; store_ttl := ttl; expiry_grace := 5 * nanos_per_min |}.

(** [InMemoryTokenStore::issue]. *)
Definition issue (s : InMemoryTokenStore) (now : Z) (token_id fingerprint session sandbox : string)
    (agent : option string) : InMemoryTokenStore :=
  set_tokens
    (<[token_id :=
         {| tk_fingerprint := fingerprint; tk_session_id := session; tk_sandbox_id := sandbox;
            tk_agent_id := agent; tk_expires_at := now + store_ttl s; tk_state := TPending |}]>
       (tokens s)) s.

(** [InMemoryTokenStore::validate_and_consume]. *)
Definition validate_and_consume (s : InMemoryTokenStore) (now : Z)
    (token_id fingerprint session sandbox : string) (agent : option string)
    : TokenValidationResult * InMemoryTokenStore :=
  match tokens s !! token_id with
  | None => (Unknown, s)
  | Some token =>
      match tk_state token with
      | TConsumed => (AlreadyConsumed, s)
      | TRevoked => (RevokedT, s)
      | TExpired => (ExpiredT, s)
      | TPending | TApproved =>
          if (tk_expires_at token <=? now)%Z then (ExpiredT, write_state s token_id token TExpired)
          else if negb (bool_decide (tk_fingerprint token = fingerprint)) then
            (FingerprintMismatch, s)
          else if negb (bool_decide (tk_session_id token = session))
                  || negb (bool_decide (tk_sandbox_id token = sandbox)) then
            (ContextMismatch, s)
          else if match tk_agent_id token with
                  | Some stored => negb (bool_decide (agent = Some stored))
                  | None => false
                  end then
            (ContextMismatch, s)
          else if bool_decide (tk_state token = TPending) then (StillPending, s)
          else (Valid, write_state s token_id token TConsumed)
      end
  end.

(** [InMemoryTokenStore::approve]. *)
Definition approve (s : InMemoryTokenStore) (now : Z) (token_id : string)
    : ApproveResult * InMemoryTokenStore :=
  match tokens s !! token_id with
  | None => (ApproveNotFound, s)
  | Some token =>
      match tk_state token with
      | TPending =>
          if (tk_expires_at token <=? now)%Z
          then (ApproveExpired, write_state s token_id token TExpired)
          else (ApproveOk, write_state s token_id token TApproved)
      | TApproved => (ApproveOk, s)
      | TConsumed => (ApproveConsumed, s)
      | TRevoked => (ApproveRevoked, s)
      | TExpired => (ApproveExpired, s)
      end
  end.

(** [InMemoryTokenStore::revoke]. *)
Definition revoke (s : InMemoryTokenStore) (now : Z) (token_id : string)
    : RevokeResult * InMemoryTokenStore :=
  match tokens s !! token_id with
  | None => (RevokeNotFound, s)
  | Some token =>
      match tk_state token with
      | TPending | TApproved =>
          if (tk_expires_at token <=? now)%Z
          then (RevokeExpired, write_state s token_id token TExpired)
          else (RevokeOk, write_state s token_id token TRevoked)
      | TRevoked => (RevokeOk, s)
      | TConsumed => (RevokeConsumed, s)
      | TExpired => (RevokeExpired, s)
      end
  end.

(** [InMemoryTokenStore::prune_expired]; the duration since the expiry saturates
    at zero. *)
Definition prune_expired (s : InMemoryTokenStore) (now : Z) : InMemoryTokenStore :=
  set_tokens
    (filter (λ kv, (Z.max 0 (now - tk_expires_at kv.2) < expiry_grace s)%Z) (tokens s)) s.

#[export] Instance in_memory_token_store : TokenStore InMemoryTokenStore := {|
  ts_issue := issue;
  ts_validate_and_consume := validate_and_consume;
  ts_approve := approve;
  ts_revoke := revoke;
  ts_prune_expired := prune_expired;
|}.

(** ** Requests and responses *)

Record LocalExecRequest := {
  le_action : string;
  le_executable : string;
  le_args : list string;
  le_sandbox_id : string;
  le_session_id : string;
  le_agent_id : option string;
  le_profile : string;
  le_hitl_mode : string;
  le_request_fingerprint : option string;
  le_approval_token : option string;
}.

Inductive LocalExecDecision := LAllow | LDeny | LPendingHitl.

Record LocalExecResponse := {
  lr_decision : LocalExecDecision;
  lr_reason : option string;
  lr_approval_token : option string;
  lr_retry_after_ms : option Z;
}.

Record LocalExecManagementRequest := { lm_action : string; lm_token_id : string }.

Inductive ManagementOutcome :=
| MOk | MNotFound | MAlreadyConsumed | MAlreadyRevoked | MExpired | MUnsupportedAction.

Record LocalExecManagementResponse := {
  lmr_outcome : ManagementOutcome;
  lmr_reason : option string;
}.

Inductive DefaultAction := ActAllow | ActDeny | ActPendingHitl.

Record LocalExecHandlerConfig := {
  default_action : DefaultAction;
  expected_sandbox_id : option string;
  token_ttl : Z;
  retry_after_ms : Z;
}.

Definition LOCAL_EXEC : string := "local.exec".
Definition LOCAL_EXEC_APPROVE : string := "local.exec.approve".
Definition LOCAL_EXEC_REVOKE : string := "local.exec.revoke".

(** The function [deny] of the handler. *)
Definition deny_exec (reason : string) : LocalExecResponse :=
  {| lr_decision := LDeny; lr_reason := Some reason; lr_approval_token := None;
     lr_retry_after_ms := None |}.

Definition allow_exec (reason : string) : LocalExecResponse :=
  {| lr_decision := LAllow; lr_reason := Some reason; lr_approval_token := None;
     lr_retry_after_ms := None |}.

(** [management_response_from_approve] and [management_response_from_revoke]. *)
Definition management_response_from_approve (r : ApproveResult) : LocalExecManagementResponse :=
  match r with
  | ApproveOk => {| lmr_outcome := MOk; lmr_reason := None |}
  | ApproveNotFound => {| lmr_outcome := MNotFound; lmr_reason := Some "token not found" |}
  | ApproveConsumed =>
      {| lmr_outcome := MAlreadyConsumed; lmr_reason := Some "token was already consumed by firma-run" |}
  | ApproveRevoked =>
      {| lmr_outcome := MAlreadyRevoked; lmr_reason := Some "token was already revoked" |}
  | ApproveExpired => {| lmr_outcome := MExpired; lmr_reason := Some "token has expired" |}
  end.

Definition management_response_from_revoke (r : RevokeResult) : LocalExecManagementResponse :=
  match r with
  | RevokeOk => {| lmr_outcome := MOk; lmr_reason := None |}
  | RevokeNotFound => {| lmr_outcome := MNotFound; lmr_reason := Some "token not found" |}
  | RevokeConsumed =>
      {| lmr_outcome := MAlreadyConsumed; lmr_reason := Some "token was already consumed by firma-run" |}
  | RevokeExpired => {| lmr_outcome := MExpired; lmr_reason := Some "token has expired" |}
  end.

(** ** Fingerprints *)

Definition nul : ascii := "000"%char.

(** The bytes both sides hash. *)
Definition fingerprint_text (executable : string) (args : list string) (session sandbox : string)
    (agent : option string) : string :=
  executable +:+ String nul
    (foldr (λ arg rest, arg +:+ String nul rest)
       (session +:+ String nul (sandbox +:+ String nul (default "" agent))) args).

(** The sidecar's [compute_fingerprint]. *)
Definition compute_fingerprint `{!Sha256} (r : LocalExecRequest) : string :=
  sha256_hex (fingerprint_text (le_executable r) (le_args r) (le_session_id r) (le_sandbox_id r)
                (le_agent_id r)).

(** firma-run's [compute_request_fingerprint]. *)
Definition compute_request_fingerprint `{!Sha256} (executable : string) (args : list string)
    (session sandbox : string) (agent : option string) : string :=
  sha256_hex (fingerprint_text executable args session sandbox agent).

(** ** The handler *)

Section LocalExecHandler.
Context {SH : Sha256} {TS : Type} {TSO : TokenStore TS}.

(** [LocalExecHandler::handle_fresh_request]. *)
Definition handle_fresh_request (cfg : LocalExecHandlerConfig) (s : TS) (now : Z) (fresh : string)
    (request : LocalExecRequest) : LocalExecResponse * TS :=
  match default_action cfg with
  | ActAllow => (allow_exec "policy allows execution", s)
  | ActDeny => (deny_exec "policy denies execution", s)
  | ActPendingHitl =>
      ({| lr_decision := LPendingHitl; lr_reason := Some "awaiting human approval";
          lr_approval_token := Some fresh; lr_retry_after_ms := Some (retry_after_ms cfg) |},
       ts_issue s now fresh (compute_fingerprint request) (le_session_id request)
         (le_sandbox_id request) (le_agent_id request))
  end.

(** The response to a validation result. *)
Definition retry_response (cfg : LocalExecHandlerConfig) (token_id : string)
    (result : TokenValidationResult) : LocalExecResponse :=
  match result with
  | Valid => allow_exec "approval token validated and consumed"
  | StillPending =>
      {| lr_decision := LPendingHitl; lr_reason := Some "awaiting operator approval";
         lr_approval_token := Some token_id; lr_retry_after_ms := Some (retry_after_ms cfg) |}
  | RevokedT => deny_exec "approval token revoked by operator"
  | Unknown => deny_exec "approval token not found"
  | ExpiredT => deny_exec "approval token expired"
  | AlreadyConsumed => deny_exec "approval token already consumed (single-use enforcement)"
  | FingerprintMismatch =>
      deny_exec "approval token fingerprint mismatch — request context changed"
  | ContextMismatch => deny_exec "approval token context mismatch (session, sandbox, or agent)"
  end.

(** [LocalExecHandler::handle_token_retry]. *)
Definition handle_token_retry (cfg : LocalExecHandlerConfig) (s : TS) (now : Z)
    (request : LocalExecRequest) (token_id : string) : LocalExecResponse * TS :=
  let fingerprint := compute_fingerprint request in
  if match le_request_fingerprint request with
     | Some client => negb (bool_decide (client = fingerprint))
     | None => false
     end then
    (deny_exec "request fingerprint mismatch on token retry", s)
  else
    let '(result, s) :=
      ts_validate_and_consume s now token_id fingerprint (le_session_id request)
        (le_sandbox_id request) (le_agent_id request) in
    (retry_response cfg token_id result, s).

(** [LocalExecHandler::decide]; [rejected] is what the readiness view, if there
    is one, says of the run. *)
Definition decide_exec (cfg : LocalExecHandlerConfig) (s : TS) (now : Z) (fresh : string)
    (rejected : bool) (request : LocalExecRequest) : LocalExecResponse * TS :=
  if rejected then (deny_exec RUN_REJECTED_DETAIL, s)
  else if match expected_sandbox_id cfg with
          | Some expected => negb (bool_decide (le_sandbox_id request = expected))
          | None => false
          end then
    (deny_exec "sandbox identity does not match this sidecar", s)
  else if negb (bool_decide (le_action request = LOCAL_EXEC)) then
    (deny_exec "unsupported action for local-exec endpoint", s)
  else match le_approval_token request with
       | Some token_id => handle_token_retry cfg s now request token_id
       | None => handle_fresh_request cfg s now fresh request
       end.

(** [LocalExecHandler::decide_management]. *)
Definition decide_management (s : TS) (now : Z) (request : LocalExecManagementRequest)
    : LocalExecManagementResponse * TS :=
  if bool_decide (lm_action request = LOCAL_EXEC_APPROVE) then
    let '(result, s) := ts_approve s now (lm_token_id request) in
    (management_response_from_approve result, s)
  else if bool_decide (lm_action request = LOCAL_EXEC_REVOKE) then
    let '(result, s) := ts_revoke s now (lm_token_id request) in
    (management_response_from_revoke result, s)
  else
    ({| lmr_outcome := MUnsupportedAction;
        lmr_reason := Some ("unsupported management action '" +:+ lm_action request +:+ "'") |}, s).

(** ** The endpoint ([endpoint.rs])

    A connection carries one line.  The JSON reader of each request type is a
    parameter; its error is the text of the [serde_json] error. *)

Class LocalExecJson := {
  peek_action : string → Result string string;
  request_from_str : string → Result LocalExecRequest string;
  management_from_str : string → Result LocalExecManagementRequest string;
}.

Context {LJ : LocalExecJson}.

Definition MAX_REQUEST_LINE_BYTES : Z := 64 * 1024.

Inductive Reply :=
| GovernanceReply (r : LocalExecResponse)
| ManagementReply (r : LocalExecManagementResponse).

(** [handle_connection]: [peer] is the result of the peer check, [line] the line
    that was read, or why it was not. *)
Definition handle_connection (cfg : LocalExecHandlerConfig) (s : TS) (now : Z) (fresh : string)
    (rejected : bool) (peer : Result unit string) (line : Result string string)
    : Result Reply string * TS :=
  match peer, line with
  | Err e, _ => (Err e, s)
  | Ok _, Err e => (Err e, s)
  | Ok _, Ok line =>
      if (MAX_REQUEST_LINE_BYTES <? Z.of_nat (String.length line))%Z then
        (Err ("local-exec: request line exceeds " +:+ display_uint MAX_REQUEST_LINE_BYTES +:+
              " bytes (fail-closed)"), s)
      else
        let trimmed := trim line in
        if is_empty trimmed then (Err "local-exec: empty request line", s)
        else match peek_action trimmed with
        | Err e => (Ok (GovernanceReply (deny_exec ("malformed request: " +:+ e))), s)
        | Ok action =>
            if bool_decide (action = LOCAL_EXEC) then
              match request_from_str trimmed with
              | Err e => (Ok (GovernanceReply (deny_exec ("malformed request: " +:+ e))), s)
              | Ok request =>
                  let '(response, s) := decide_exec cfg s now fresh rejected request in
                  (Ok (GovernanceReply response), s)
              end
            else if bool_decide (action = LOCAL_EXEC_APPROVE)
                    || bool_decide (action = LOCAL_EXEC_REVOKE) then
              match management_from_str trimmed with
              | Err e =>
                  (Ok (ManagementReply
                         {| lmr_outcome := MUnsupportedAction;
                            lmr_reason := Some ("malformed management request: " +:+ e) |}), s)
              | Ok request =>
                  let '(response, s) := decide_management s now request in
                  (Ok (ManagementReply response), s)
              end
            else
              (Ok (GovernanceReply (deny_exec ("unknown action '" +:+ action +:+ "'"))), s)
        end
  end.

End LocalExecHandler.

(** ** The client ([firma-run/src/mediator.rs]) *)

Record MediatorRequest := {
  mq_action : string;
  mq_executable : string;
  mq_args : list string;
  mq_sandbox_id : string;
  mq_session_id : string;
  mq_agent_id : option string;
  mq_profile : string;
  mq_hitl_mode : string;
  mq_request_fingerprint : string;
  mq_approval_token : option string;
}.

Record MediatorResponse := {
  mp_decision : string;
  mp_reason : option string;
  mp_approval_token : option string;
  mp_retry_after_ms : option Z;
}.

(** The errors these parts return. *)
Inductive RunError :=
  | Governance (detail : string)
  | Internal (detail : string)
  | ConfigValidation (detail : string).

Inductive CommandMediatorHitlMode := SyncWait | AsyncToken.

Record CommandMediatorConfig := {
  mc_hitl_mode : CommandMediatorHitlMode;
  mc_hitl_max_wait : Z;
}.

Record RunIdentity := {
  ri_sandbox_id : string;
  ri_session_id : string;
  ri_execution_profile : string;
}.

Section Mediator.
Context {SH : Sha256}.

(** The request of [call_mediator]. *)
Definition mediator_request (cfg : CommandMediatorConfig) (identity : RunIdentity)
    (executable : string) (args : list string) (agent : option string) (fingerprint : string)
    (approval_token : option string) : MediatorRequest :=
  {| mq_action := LOCAL_EXEC; mq_executable := executable; mq_args := args;
     mq_sandbox_id := ri_sandbox_id identity; mq_session_id := ri_session_id identity;
     mq_agent_id := agent; mq_profile := ri_execution_profile identity;
     mq_hitl_mode := match mc_hitl_mode cfg with SyncWait => "sync_wait" | AsyncToken => "async_token" end;
     mq_request_fingerprint := fingerprint; mq_approval_token := approval_token |}.

Definition nanos_per_ms : Z := 1000000.

Definition retry_after (r : MediatorResponse) : Z := default 500%Z (mp_retry_after_ms r) * nanos_per_ms.

(** [Duration]'s debug output is in the message of one error. *)
Context (show_duration : Z → string).

(** [handle_pending_hitl]; [now] is the clock before the sleep. *)
Definition handle_pending_hitl (cfg : CommandMediatorConfig) (response : MediatorResponse)
    (now deadline : Z) : Result string RunError :=
  match mc_hitl_mode cfg with
  | SyncWait =>
      Err (Governance "governance denied execution: approval required (sync_wait mode fail-closed)")
  | AsyncToken =>
      match mp_approval_token response with
      | Some token =>
          if is_empty (trim token) then
            Err (Governance
                   "governance denied execution: missing approval_token in pending_hitl response")
          else if (deadline <=? now + retry_after response)%Z then
            Err (Governance
                   ("governance denied execution: HITL approval wait exceeded hitl_max_wait=" +:+
                    show_duration (mc_hitl_max_wait cfg) +:+ " (fail-closed)"))
          else Ok token
      | None =>
          Err (Governance
                 "governance denied execution: missing approval_token in pending_hitl response")
      end
  end.

(** What the client meets: [md_call n] the [n]-th exchange, transport and JSON
    included, [md_now n] the clock after it, [md_start] the clock at the start,
    and [FIRMA_AGENT_ID]. *)
Record MediatorEnv := {
  md_agent : option string;
  md_start : Z;
  md_now : nat → Z;
  md_call : nat → MediatorRequest → Result MediatorResponse RunError;
}.

(** The agent variable that is used. *)
Definition mediator_agent (env : MediatorEnv) : option string :=
  match md_agent env with
  | Some v => if is_empty (trim v) then None else Some v
  | None => None
  end.

(** The loop of [enforce_local_command_governance] from exchange [n];
    [None] is fuel that ran out. *)
Fixpoint governance_loop (fuel : nat) (cfg : CommandMediatorConfig) (env : MediatorEnv)
    (request : option string → MediatorRequest) (deadline : Z) (n : nat)
    (approval_token : option string) : option (Result unit RunError) :=
  match fuel with
  | O => None
  | S fuel =>
      match md_call env n (request approval_token) with
      | Err e => Some (Err e)
      | Ok response =>
          if bool_decide (mp_decision response = "allow") then Some (Ok tt)
          else if bool_decide (mp_decision response = "deny") then
            Some (Err (Governance ("governance denied execution: " +:+
                                   default "policy denied execution" (mp_reason response))))
          else if bool_decide (mp_decision response = "pending_hitl") then
            match handle_pending_hitl cfg response (md_now env n) deadline with
            | Err e => Some (Err e)
            | Ok token => governance_loop fuel cfg env request deadline (S n) (Some token)
            end
          else
            Some (Err (Governance ("local-exec governance returned unsupported decision '" +:+
                                   mp_decision response +:+ "'")))
      end
  end.

(** The requests of one call. *)
Definition governance_request (cfg : CommandMediatorConfig) (env : MediatorEnv)
    (identity : RunIdentity) (executable : string) (args : list string)
    (approval_token : option string) : MediatorRequest :=
  let agent := mediator_agent env in
  mediator_request cfg identity executable args agent
    (compute_request_fingerprint executable args (ri_session_id identity) (ri_sandbox_id identity)
       agent) approval_token.

(** [enforce_local_command_governance]. *)
Definition enforce_local_command_governance (fuel : nat) (cfg : CommandMediatorConfig)
    (env : MediatorEnv) (identity : RunIdentity) (executable : string) (args : list string)
    : option (Result unit RunError) :=
  governance_loop fuel cfg env (governance_request cfg env identity executable args)
    (md_start env + mc_hitl_max_wait cfg) 0 None.

End Mediator.

(** ** What a token store promises

    Only live tokens can be consumed: those issued and neither consumed,
    revoked, expired nor pruned. *)

Record Live := {
  lv_fingerprint : string;
  lv_session : string;
  lv_sandbox : string;
  lv_agent : option string;
  lv_expires : Z;
  lv_approved : bool;
}.

Definition lv_approve (l : Live) : Live :=
  {| lv_fingerprint := lv_fingerprint l; lv_session := lv_session l; lv_sandbox := lv_sandbox l;
     lv_agent := lv_agent l; lv_expires := lv_expires l; lv_approved := true |}.

(** A request of the context a token is bound to. *)
Definition bound_to (l : Live) (fingerprint session sandbox : string) (agent : option string) : Prop :=
  lv_fingerprint l = fingerprint ∧ lv_session l = session ∧ lv_sandbox l = sandbox ∧
  (∀ a, lv_agent l = Some a → agent = Some a).

Class TokenStoreLaws (TS : Type) `{!TokenStore TS} := {
  live : TS → gmap string Live;
  ts_ttl : TS → Z;
  live_issue s now id fp se sb ag :
    live (ts_issue s now id fp se sb ag)
    = <[id := {| lv_fingerprint := fp; lv_session := se; lv_sandbox := sb; lv_agent := ag;
                 lv_expires := now + ts_ttl s; lv_approved := false |}]> (live s);
  live_validate s now id fp se sb ag :
    match ts_validate_and_consume s now id fp se sb ag with
    | (Valid, s') => ∃ l, live s !! id = Some l ∧ bound_to l fp se sb ag ∧ lv_approved l = true ∧
                          (now < lv_expires l)%Z ∧ live s' = delete id (live s)
    | (_, s') => live s' ⊆ live s
    end;
  validate_complete s now id fp se sb ag l :
    live s !! id = Some l → bound_to l fp se sb ag → lv_approved l = true →
    (now < lv_expires l)%Z → fst (ts_validate_and_consume s now id fp se sb ag) = Valid;
  live_approve s now id :
    match ts_approve s now id with
    | (ApproveOk, s') => ∃ l, live s !! id = Some l ∧ live s' = <[id := lv_approve l]> (live s)
    | (_, s') => live s' ⊆ live s
    end;
  live_revoke s now id :
    match ts_revoke s now id with
    | (RevokeOk, s') => live s' = delete id (live s)
    | (_, s') => live s' ⊆ live s
    end;
  live_prune s now : live (ts_prune_expired s now) ⊆ live s;
  ttl_stable s now id fp se sb ag :
    ts_ttl (ts_issue s now id fp se sb ag) = ts_ttl s ∧
    ts_ttl (snd (ts_validate_and_consume s now id fp se sb ag)) = ts_ttl s ∧
    ts_ttl (snd (ts_approve s now id)) = ts_ttl s ∧
    ts_ttl (snd (ts_revoke s now id)) = ts_ttl s ∧ ts_ttl (ts_prune_expired s now) = ts_ttl s;
}.

(** The in-memory store keeps its promise. *)
Definition live_of (t : HitlToken) : option Live :=
  let l approved :=
    Some {| lv_fingerprint := tk_fingerprint t; lv_session := tk_session_id t;
            lv_sandbox := tk_sandbox_id t; lv_agent := tk_agent_id t;
            lv_expires := tk_expires_at t; lv_approved := approved |} in
  match tk_state t with TPending => l false | TApproved => l true | _ => None end.

Definition live_tokens (s : InMemoryTokenStore) : gmap string Live := omap live_of (tokens s).

Lemma omap_delete_spent (m : gmap string HitlToken) id t :
  live_of t = None → omap live_of (<[id := t]> m) = delete id (omap live_of m).
Proof. intros Ht. by rewrite omap_insert_None. Qed.

Lemma live_write_state s id t st :
  live_tokens (write_state s id t st) =
  match live_of (set_token_state st t) with
  | Some l => <[id := l]> (live_tokens s)
  | None => delete id (live_tokens s)
  end.
Proof.
  unfold live_tokens, write_state. cbn [tokens set_tokens].
  destruct (live_of (set_token_state st t)) as [l|] eqn:E.
  - by apply omap_insert_Some.
  - by apply omap_delete_spent.
Qed.

Lemma live_lookup s id : live_tokens s !! id = tokens s !! id ≫= live_of.
Proof. apply lookup_omap. Qed.

Lemma context_bound t l fp se sb ag :
  live_of t = Some l →
  bound_to l fp se sb ag ↔
  negb (bool_decide (tk_fingerprint t = fp)) = false ∧
  negb (bool_decide (tk_session_id t = se)) || negb (bool_decide (tk_sandbox_id t = sb)) = false ∧
  match tk_agent_id t with Some stored => negb (bool_decide (ag = Some stored)) | None => false end
  = false.
Proof.
  intros Hl. assert (lv_fingerprint l = tk_fingerprint t ∧ lv_session l = tk_session_id t ∧
    lv_sandbox l = tk_sandbox_id t ∧ lv_agent l = tk_agent_id t) as (Hf & Hs & Hb & Ha).
  { unfold live_of in Hl. by destruct (tk_state t); simplify_eq. }
  unfold bound_to. rewrite Hf, Hs, Hb, Ha, orb_false_iff, !negb_false_iff, !bool_decide_eq_true.
  destruct (tk_agent_id t); [rewrite negb_false_iff, bool_decide_eq_true|]; naive_solver.
Qed.

Lemma in_memory_validate s now id fp se sb ag :
  match validate_and_consume s now id fp se sb ag with
  | (Valid, s') => ∃ l, live_tokens s !! id = Some l ∧ bound_to l fp se sb ag ∧
                        lv_approved l = true ∧ (now < lv_expires l)%Z ∧
                        live_tokens s' = delete id (live_tokens s)
  | (_, s') => live_tokens s' ⊆ live_tokens s
  end.
Proof.
  unfold validate_and_consume. destruct (tokens s !! id) as [t|] eqn:Ht; [|done].
  destruct (tk_state t) eqn:Hst; try done.
  all: destruct (tk_expires_at t <=? now)%Z eqn:He; [rewrite live_write_state; apply delete_subseteq|].
  all: destruct (negb (bool_decide (tk_fingerprint t = fp))) eqn:Hf; [done|].
  all: destruct (negb _ || negb _) eqn:Hc; [done|].
  all: destruct (match tk_agent_id t with Some _ => _ | None => _ end) eqn:Ha; [done|].
  all: simpl.
  - done.
  - eexists. split_and!; [by rewrite live_lookup, Ht; simpl; unfold live_of; rewrite Hst| |done| |].
    + eapply context_bound; [unfold live_of; by rewrite Hst|done].
    + simpl. boolify. lia.
    + apply live_write_state.
Qed.

#[export] Program Instance in_memory_laws : TokenStoreLaws InMemoryTokenStore := {|
  live := live_tokens;
  ts_ttl := store_ttl;
  live_validate := in_memory_validate;
|}.
Next Obligation. intros. unfold live_tokens. simpl. by apply omap_insert_Some. Qed.
Next Obligation.
  intros s now id fp se sb ag l Hl Hb Ha Hn. simpl in *. unfold validate_and_consume.
  rewrite live_lookup in Hl. destruct (tokens s !! id) as [t|]; simpl in Hl; [|done].
  destruct (proj1 (context_bound _ _ _ _ _ _ Hl) Hb) as (-> & -> & ->).
  unfold live_of in Hl. destruct (tk_state t) eqn:Hst; simplify_eq/=.
  by rewrite (proj2 (Z.leb_gt _ _)).
Qed.
Next Obligation.
  intros s now id. simpl. unfold approve. destruct (tokens s !! id) as [t|] eqn:Ht; [|done].
  destruct (tk_state t) eqn:Hst; try done.
  - destruct (tk_expires_at t <=? now)%Z; [rewrite live_write_state; apply delete_subseteq|].
    rewrite live_write_state, live_lookup, Ht. simpl. unfold live_of at 1. rewrite Hst. eauto.
  - rewrite live_lookup, Ht. simpl. unfold live_of at 1. rewrite Hst. eexists. split; [done|].
    symmetry. apply insert_id. rewrite live_lookup, Ht. simpl. unfold live_of. by rewrite Hst.
Qed.
Next Obligation.
  intros s now id. simpl. unfold revoke. destruct (tokens s !! id) as [t|] eqn:Ht; [|done].
  destruct (tk_state t) eqn:Hst; try done.
  1,2: destruct (tk_expires_at t <=? now)%Z; rewrite live_write_state; [apply delete_subseteq|done].
  symmetry. apply delete_id. rewrite live_lookup, Ht. simpl. unfold live_of. by rewrite Hst.
Qed.
Next Obligation.
  intros s now. simpl. apply map_subseteq_spec. intros id l. rewrite !live_lookup. simpl.
  rewrite map_lookup_filter. destruct (tokens s !! id); simpl; [|done]. by case_guard.
Qed.
Next Obligation.
  intros s now id fp se sb ag. simpl. split_and!; [done|..|done].
  - unfold validate_and_consume. destruct (tokens s !! id) as [t|]; [|done].
    destruct (tk_state t); repeat case_match; done.
  - unfold approve. repeat case_match; done.
  - unfold revoke. repeat case_match; done.
Qed.

(** ** Fingerprints identify commands *)

Definition nul_free (s : string) : Prop := contains_char nul s = false.

Definition nul_free_request (r : LocalExecRequest) : Prop :=
  nul_free (le_executable r) ∧ Forall nul_free (le_args r) ∧ nul_free (le_session_id r) ∧
  nul_free (le_sandbox_id r) ∧ nul_free (default "" (le_agent_id r)).

Definition same_command (r r' : LocalExecRequest) : Prop :=
  le_executable r = le_executable r' ∧ le_args r = le_args r' ∧
  le_session_id r = le_session_id r' ∧ le_sandbox_id r = le_sandbox_id r' ∧
  default "" (le_agent_id r) = default "" (le_agent_id r').

Lemma split_fingerprint_text exe args se sb ag :
  nul_free exe → Forall nul_free args → nul_free se → nul_free sb → nul_free (default "" ag) →
  split_char nul (fingerprint_text exe args se sb ag) = (exe :: args ++ [se; sb; default "" ag])%list.
Proof.
  intros He Ha Hs Hb Hg. unfold fingerprint_text. rewrite split_char_app by done. f_equal.
  induction Ha as [|arg args Harg Hargs IH]; simpl.
  - rewrite !split_char_app by done. by rewrite split_char_single.
  - rewrite split_char_app by done. by rewrite IH.
Qed.

Section Facts.
Context {SH : Sha256}.

Definition request_text (r : LocalExecRequest) : string :=
  fingerprint_text (le_executable r) (le_args r) (le_session_id r) (le_sandbox_id r) (le_agent_id r).

(** Two texts with one digest. *)
Definition collide (a b : string) : Prop := a ≠ b ∧ sha256_hex a = sha256_hex b.

(** What the store compares: the fingerprint, the session, the sandbox and,
    where the token has one, the agent. *)
Definition same_binding (r r' : LocalExecRequest) : Prop :=
  compute_fingerprint r = compute_fingerprint r' ∧ le_session_id r = le_session_id r' ∧
  le_sandbox_id r = le_sandbox_id r' ∧ (∀ a, le_agent_id r = Some a → le_agent_id r' = Some a).

Lemma fingerprint_identifies r r' :
  compute_fingerprint r = compute_fingerprint r' → nul_free_request r → nul_free_request r' →
  same_command r r' ∨ collide (request_text r) (request_text r').
Proof.
  intros Hf (He1 & Ha1 & Hs1 & Hb1 & Hg1) (He2 & Ha2 & Hs2 & Hb2 & Hg2).
  destruct (decide (request_text r = request_text r')) as [Ht|Hne]; [left|by right].
  apply (f_equal (split_char nul)) in Ht. unfold request_text in Ht.
  rewrite !split_fingerprint_text in Ht by done.
  injection Ht as He Hargs. apply app_inj_2 in Hargs as [Ha [= ? ? ?]]; [|done]. done.
Qed.

Lemma fingerprint_binds {SI : Inj (=) (=) sha256_hex} r r' :
  nul_free_request r → nul_free_request r' →
  compute_fingerprint r = compute_fingerprint r' → same_command r r'.
Proof.
  intros H1 H2 Hf. destruct (fingerprint_identifies r r' Hf H1 H2) as [Hs|[Hne He]]; [done|].
  by apply (inj sha256_hex) in He.
Qed.

(** ** Runs of the endpoint: requests, operator commands and pruning, in any order *)

Inductive Input :=
| InDecide (now : Z) (fresh : string) (rejected : bool) (r : LocalExecRequest)
| InManage (now : Z) (m : LocalExecManagementRequest)
| InPrune (now : Z).

Inductive Output :=
| OutExec (r : LocalExecResponse)
| OutManage (r : LocalExecManagementResponse)
| OutNone.

Context {TS : Type} {TSO : TokenStore TS} {TL : TokenStoreLaws TS}.

Definition exec_step (cfg : LocalExecHandlerConfig) (s : TS) (i : Input) : Output * TS :=
  match i with
  | InDecide now fresh rejected r =>
      let '(resp, s) := decide_exec cfg s now fresh rejected r in (OutExec resp, s)
  | InManage now m => let '(resp, s) := decide_management s now m in (OutManage resp, s)
  | InPrune now => (OutNone, ts_prune_expired s now)
  end.

Inductive exec_run (cfg : LocalExecHandlerConfig) (s0 : TS) : list (Input * Output) → TS → Prop :=
| run_start : exec_run cfg s0 [] s0
| run_step h s i : exec_run cfg s0 h s →
    exec_run cfg s0 (h ++ [(i, fst (exec_step cfg s i))])%list (snd (exec_step cfg s i)).

(** Events of a run. *)
Definition issues (e : Input * Output) (id : string) (now : Z) (r : LocalExecRequest) : Prop :=
  ∃ rejected resp, e = (InDecide now id rejected r, OutExec resp) ∧ le_approval_token r = None ∧
    lr_decision resp = LPendingHitl ∧ lr_approval_token resp = Some id.

Definition consumes (e : Input * Output) (id : string) (now : Z) (r : LocalExecRequest) : Prop :=
  ∃ fresh rejected resp, e = (InDecide now fresh rejected r, OutExec resp) ∧
    le_approval_token r = Some id ∧ lr_decision resp = LAllow.

Definition manages (action : string) (e : Input * Output) (id : string) : Prop :=
  ∃ now, e = (InManage now {| lm_action := action; lm_token_id := id |},
              OutManage {| lmr_outcome := MOk; lmr_reason := None |}).

Definition issued_for (l : Live) (r : LocalExecRequest) : Prop :=
  lv_fingerprint l = compute_fingerprint r ∧ lv_session l = le_session_id r ∧
  lv_sandbox l = le_sandbox_id r ∧ lv_agent l = le_agent_id r.

(** Where a live token comes from. *)
Definition origin (h : list (Input * Output)) (ttl : Z) (id : string) (l : Live) : Prop :=
  ∃ i now r, (∃ e, h !! i = Some e ∧ issues e id now r) ∧
    issued_for l r ∧ lv_expires l = (now + ttl)%Z ∧
    (lv_approved l = true → ∃ j e, i < j ∧ h !! j = Some e ∧ manages LOCAL_EXEC_APPROVE e id) ∧
    (∀ k e, i < k → h !! k = Some e →
       (∀ now' r', ¬ consumes e id now' r') ∧ ¬ manages LOCAL_EXEC_REVOKE e id).

Definition accounted (h : list (Input * Output)) (ttl : Z) (s : TS) : Prop :=
  ts_ttl s = ttl ∧ ∀ id l, live s !! id = Some l → origin h ttl id l.

(** An event that neither consumes nor revokes a token keeps its origin. *)
Definition harmless (e : Input * Output) (id : string) : Prop :=
  (∀ now r, ¬ consumes e id now r) ∧ ¬ manages LOCAL_EXEC_REVOKE e id.

Lemma origin_snoc h ttl id l e :
  origin h ttl id l → harmless e id → origin (h ++ [e])%list ttl id l.
Proof.
  intros (i & now & r & (e0 & He0 & Hi) & Hf & Hx & Ha & Hk) [Hc Hr]. exists i, now, r.
  split_and!; [|done|done| |].
  - exists e0. split; [by apply lookup_app_l_Some|done].
  - intros Hap. destruct (Ha Hap) as (j & e' & Hj & He' & Hm). exists j, e'.
    split_and!; [done|by apply lookup_app_l_Some|done].
  - intros k e' Hik [Hlt|[_ Hlt]]%lookup_app_Some; [by apply (Hk k)|].
    apply list_lookup_singleton_Some in Hlt as [_ <-]. done.
Qed.

Lemma accounted_weaken h ttl s s' e :
  accounted h ttl s → ts_ttl s' = ts_ttl s → live s' ⊆ live s →
  (∀ id, is_Some (live s' !! id) → harmless e id) → accounted (h ++ [e])%list ttl s'.
Proof.
  intros [Ht Ho] Ht' Hsub Hh. split; [congruence|]. intros id l Hl.
  apply origin_snoc; [|by apply Hh]. apply Ho. by eapply lookup_weaken.
Qed.

Lemma accounted_retry cfg h ttl s now fresh rejected r token :
  accounted h ttl s → le_approval_token r = Some token →
  let '(resp, s') := handle_token_retry cfg s now r token in
  accounted (h ++ [(InDecide now fresh rejected r, OutExec resp)])%list ttl s'.
Proof.
  intros Hacc Htok. unfold handle_token_retry.
  destruct (match le_request_fingerprint r with Some _ => _ | None => _ end).
  { apply (accounted_weaken _ _ s); [done..|]. intros id _. split; [|by intros [? [=]]].
    by intros now' r' (? & ? & ? & [= <- <- <- <- <-] & _ & [=]). }
  set (fp := compute_fingerprint r).
  pose proof (live_validate s now token fp (le_session_id r) (le_sandbox_id r) (le_agent_id r)) as Hv.
  destruct (ttl_stable s now token fp (le_session_id r) (le_sandbox_id r) (le_agent_id r))
    as (_ & Ht & _).
  destruct (ts_validate_and_consume _ _ _ _ _ _ _) as [result s']. simpl in Ht.
  assert (live s' ⊆ live s) as Hsub.
  { destruct result; try done. destruct Hv as (l & _ & _ & _ & _ & ->). apply delete_subseteq. }
  apply (accounted_weaken _ _ s); [done..|]. intros id [l Hl]. split; [|by intros [? [=]]].
  intros now' r' (? & ? & resp & [= <- <- <- <- <-] & Hid & Hallow). rewrite Htok in Hid.
  injection Hid as <-. destruct result; try discriminate Hallow.
  destruct Hv as (l' & _ & _ & _ & _ & Hd). by rewrite Hd, lookup_delete_eq in Hl.
Qed.

Lemma accounted_fresh cfg h ttl s now fresh rejected r :
  accounted h ttl s → le_approval_token r = None →
  let '(resp, s') := handle_fresh_request cfg s now fresh r in
  accounted (h ++ [(InDecide now fresh rejected r, OutExec resp)])%list ttl s'.
Proof.
  intros Hacc Htok.
  assert (∀ resp id, harmless (InDecide now fresh rejected r, OutExec resp) id) as Hh.
  { intros resp id. split; [|by intros [? [=]]].
    by intros now' r' (? & ? & ? & [= <- <- <- <- <-] & Hid & _); rewrite Htok in Hid. }
  unfold handle_fresh_request. destruct (default_action cfg).
  1,2: by apply (accounted_weaken _ _ s).
  destruct Hacc as [Ht Ho]. split.
  { by rewrite (proj1 (ttl_stable s now fresh _ _ _ _)). }
  intros id l. rewrite live_issue, lookup_insert_Some. intros [[<- <-]|[Hne Hl]].
  2:{ apply origin_snoc; [by apply Ho|apply Hh]. }
  exists (length h), now, r. split_and!; [|done|by rewrite <- Ht|done|].
  - eexists. split; [by apply list_lookup_middle|]. by eexists _, _.
  - intros k e Hk [?%lookup_lt_Some|[_ Hs]]%lookup_app_Some; [lia|].
    apply list_lookup_singleton_Some in Hs as [? _]. lia.
Qed.

Lemma accounted_manage h ttl s now m :
  accounted h ttl s →
  let '(resp, s') := decide_management s now m in
  accounted (h ++ [(InManage now m, OutManage resp)])%list ttl s'.
Proof.
  intros Hacc. unfold decide_management. destruct m as [action id]. simpl.
  destruct (ttl_stable s now id "" "" "" None) as (_ & _ & Hta & Htr & _).
  assert (∀ e resp, e = (InManage now {| lm_action := action; lm_token_id := id |}, OutManage resp) →
    (action = LOCAL_EXEC_REVOKE → lmr_outcome resp ≠ MOk) → ∀ id', harmless e id') as Hh.
  { intros e resp -> Hr id'. split; [by intros ? ? (? & ? & ? & [=] & _)|].
    intros [now' [= <- -> <- ->]]. by apply Hr. }
  case_bool_decide as Ha; [|case_bool_decide as Hr].
  - pose proof (live_approve s now id) as Hv. destruct (ts_approve s now id) as [result s'].
    simpl in Hta.
    assert (∀ id', harmless (InManage now {| lm_action := action; lm_token_id := id |},
      OutManage (management_response_from_approve result)) id') as Hh' by
      (eapply Hh; [done|by subst]).
    destruct result; try by apply (accounted_weaken _ _ s).
    destruct Hv as (l & Hl & Hs'), Hacc as [Ht Ho]. split; [congruence|].
    intros id' l'. rewrite Hs', lookup_insert_Some. intros [[<- <-]|[Hne Hl']].
    2:{ apply origin_snoc; [by apply Ho|done]. }
    destruct (origin_snoc _ _ _ _ _ (Ho _ _ Hl) (Hh' id)) as (i & now' & r & Hi & Hf & Hx & _ & Hk).
    exists i, now', r. split_and!; [done|done|done| |done].
    intros _. exists (length h). eexists. split_and!; [|by apply list_lookup_middle|].
    + destruct Hi as (e & Hi%lookup_app_Some & Hiss). destruct Hi as [?%lookup_lt_Some|[_ Hi]]; [done|].
      apply list_lookup_singleton_Some in Hi as [_ <-]. by destruct Hiss as (? & ? & [=] & _).
    + eexists. by subst action.
  - pose proof (live_revoke s now id) as Hv. destruct (ts_revoke s now id) as [result s'].
    simpl in Htr.
    destruct result; [|apply (accounted_weaken _ _ s); [done..|]; intros id' _; by eapply Hh..].
    apply (accounted_weaken _ _ s); [done|done|rewrite Hv; apply delete_subseteq|].
    intros id' [l Hl]. split; [by intros ? ? (? & ? & ? & [=] & _)|].
    intros [now' [= <- -> <-]]. by rewrite Hv, lookup_delete_eq in Hl.
  - apply (accounted_weaken _ _ s); [done..|]. intros id' _. by eapply Hh.
Qed.

Lemma deny_harmless now fresh rejected r reason id :
  harmless (InDecide now fresh rejected r, OutExec (deny_exec reason)) id.
Proof.
  split; [|by intros [? [=]]]. by intros now' r' (? & ? & ? & [= <- <- <- <- <-] & _ & [=]).
Qed.

Lemma accounted_step cfg h ttl s i :
  accounted h ttl s →
  accounted (h ++ [(i, fst (exec_step cfg s i))])%list ttl (snd (exec_step cfg s i)).
Proof.
  intros Hacc. destruct i as [now fresh rejected r|now m|now]; simpl.
  - unfold decide_exec.
    assert (∀ reason, accounted (h ++ [(InDecide now fresh rejected r, OutExec (deny_exec reason))])%list
      ttl s) as Hdeny.
    { intros reason. apply (accounted_weaken _ _ s); [done..|]. intros id _. apply deny_harmless. }
    destruct rejected; [apply Hdeny|].
    destruct (match expected_sandbox_id cfg with Some _ => _ | None => _ end); [apply Hdeny|].
    destruct (negb _); [apply Hdeny|]. destruct (le_approval_token r) as [token|] eqn:Htok.
    + pose proof (accounted_retry cfg h ttl s now fresh false r token Hacc Htok) as H.
      by destruct (handle_token_retry cfg s now r token).
    + pose proof (accounted_fresh cfg h ttl s now fresh false r Hacc Htok) as H.
      by destruct (handle_fresh_request cfg s now fresh r).
  - pose proof (accounted_manage h ttl s now m Hacc) as H. by destruct (decide_management s now m).
  - apply (accounted_weaken _ _ s); [done|by apply (ttl_stable s now "" "" "" "" None)|apply live_prune|].
    intros id _. split; [by intros ? ? (? & ? & ? & [=] & _)|by intros [? [=]]].
Qed.

Lemma accounted_run cfg s0 h s :
  live s0 = ∅ → exec_run cfg s0 h s → accounted h (ts_ttl s0) s.
Proof.
  intros H0. induction 1 as [|h s i Hrun IH]; [|by apply accounted_step].
  split; [done|]. intros id l Hl. by rewrite H0, lookup_empty in Hl.
Qed.

(** The state in which an event of a run took place. *)
Lemma exec_run_at cfg s0 h s n i o :
  exec_run cfg s0 h s → h !! n = Some (i, o) →
  ∃ s', exec_run cfg s0 (take n h) s' ∧ o = fst (exec_step cfg s' i).
Proof.
  intros Hrun. revert n. induction Hrun as [|h s j Hrun IH]; intros n; [by rewrite lookup_nil|].
  intros [Hn|[Hge Hn]]%lookup_app_Some.
  - rewrite take_app_le by (apply lookup_lt_Some in Hn; lia). by apply IH.
  - apply list_lookup_singleton_Some in Hn as [Hlen Heq]. replace n with (length h) by lia.
    rewrite take_app_length. injection Heq as <- <-. eauto.
Qed.

(** A consumption is a valid retry. *)
Lemma consumes_valid cfg s now fresh rejected r resp id :
  fst (exec_step cfg s (InDecide now fresh rejected r)) = OutExec resp →
  le_approval_token r = Some id → lr_decision resp = LAllow →
  fst (ts_validate_and_consume s now id (compute_fingerprint r) (le_session_id r) (le_sandbox_id r)
         (le_agent_id r)) = Valid.
Proof.
  intros Hs Htok Hal. simpl in Hs. unfold decide_exec in Hs. rewrite Htok in Hs.
  destruct rejected; [by simplify_eq/=|].
  destruct (match expected_sandbox_id cfg with Some _ => _ | None => _ end); [by simplify_eq/=|].
  destruct (negb _); [by simplify_eq/=|]. unfold handle_token_retry in Hs.
  destruct (match le_request_fingerprint r with Some _ => _ | None => _ end); [by simplify_eq/=|].
  destruct (ts_validate_and_consume _ _ _ _ _ _ _) as [[] s']; simplify_eq/=; done.
Qed.

Lemma consumption_origin cfg s0 h s n e id now r :
  live s0 = ∅ → exec_run cfg s0 h s → h !! n = Some e → consumes e id now r →
  ∃ i j now0 r0, i < j < n ∧
    (∃ e, h !! i = Some e ∧ issues e id now0 r0) ∧
    (∃ e, h !! j = Some e ∧ manages LOCAL_EXEC_APPROVE e id) ∧
    same_binding r0 r ∧ (now < now0 + ts_ttl s0)%Z ∧
    (∀ k e, i < k < n → h !! k = Some e →
       (∀ now' r', ¬ consumes e id now' r') ∧ ¬ manages LOCAL_EXEC_REVOKE e id).
Proof.
  intros H0 Hrun Hn (fresh & rejected & resp & -> & Htok & Hal).
  destruct (exec_run_at _ _ _ _ _ _ _ Hrun Hn) as (s' & Hrun' & Hout).
  destruct (accounted_run _ _ _ _ H0 Hrun') as [_ Hacc].
  pose proof (consumes_valid _ _ _ _ _ _ _ _ (eq_sym Hout) Htok Hal) as Hv.
  pose proof (live_validate s' now id (compute_fingerprint r) (le_session_id r) (le_sandbox_id r)
                (le_agent_id r)) as Hl.
  destruct (ts_validate_and_consume _ _ _ _ _ _ _) as [res s'']. simpl in Hv. subst res.
  destruct Hl as (l & Hl & Hb & Hap & Hnow & _).
  destruct (Hacc _ _ Hl) as (i & now0 & r0 & (ei & Hi & Hiss) & Hf & Hx & Ha & Hk).
  destruct (Ha Hap) as (j & ej & Hij & Hj & Hm).
  apply lookup_take_Some in Hi as [Hi Hin], Hj as [Hj Hjn].
  exists i, j, now0, r0. split_and!; [done|done|eauto|eauto| | |].
  - destruct Hf as (Hf & Hse & Hsb & Hag), Hb as (Hbf & Hbse & Hbsb & Hbag).
    split_and!; [congruence..|]. intros a Ha0. apply Hbag. congruence.
  - rewrite <- Hx. done.
  - intros k e Hik He. apply (Hk k); [lia|]. apply lookup_take_Some. split; [done|lia].
Qed.

(** No two issued tokens share an id: what [ApprovalTokenId::generate] gives. *)
Definition distinct_ids (h : list (Input * Output)) : Prop :=
  ∀ i j e e' id now r now' r', h !! i = Some e → h !! j = Some e' →
    issues e id now r → issues e' id now' r' → i = j.

Lemma consumed_once cfg s0 h s m n e e' id now r now' r' :
  live s0 = ∅ → exec_run cfg s0 h s → distinct_ids h →
  h !! m = Some e → consumes e id now r → h !! n = Some e' → consumes e' id now' r' → ¬ (m < n).
Proof.
  intros H0 Hrun Hd Hm Hcm Hn Hcn Hlt.
  destruct (consumption_origin _ _ _ _ _ _ _ _ _ H0 Hrun Hm Hcm)
    as (i & ? & ? & ? & Hi & (ei & Hei & Hiss) & _).
  destruct (consumption_origin _ _ _ _ _ _ _ _ _ H0 Hrun Hn Hcn)
    as (i' & ? & ? & ? & Hi' & (ei' & Hei' & Hiss') & _ & _ & _ & Hk).
  assert (i = i') as <- by (by eapply (Hd i i')).
  destruct (Hk m e ltac:(lia) Hm) as [Hc _]. by eapply Hc.
Qed.

(** The history behind an allowed request. *)
Definition approved_before (h : list (Input * Output)) (ttl : Z) (n : nat) (now : Z)
    (r : LocalExecRequest) : Prop :=
  ∃ id i j now0 r0,
    le_approval_token r = Some id ∧ i < j < n ∧
    (∃ e, h !! i = Some e ∧ issues e id now0 r0) ∧
    (∃ e, h !! j = Some e ∧ manages LOCAL_EXEC_APPROVE e id) ∧
    same_binding r0 r ∧ (now < now0 + ttl)%Z ∧
    (∀ k e, i < k < n → h !! k = Some e → ¬ manages LOCAL_EXEC_REVOKE e id) ∧
    (∀ m e now' r', h !! m = Some e → consumes e id now' r' → m = n).

Lemma allowed_approved cfg s0 h s n now fresh rejected r resp :
  default_action cfg = ActPendingHitl → live s0 = ∅ → exec_run cfg s0 h s →
  distinct_ids h →
  h !! n = Some (InDecide now fresh rejected r, OutExec resp) → lr_decision resp = LAllow →
  approved_before h (ts_ttl s0) n now r.
Proof.
  intros Hact H0 Hrun Hd Hn Hal.
  assert (∃ id, le_approval_token r = Some id) as [id Hid].
  { destruct (exec_run_at _ _ _ _ _ _ _ Hrun Hn) as (s' & _ & Hout). simpl in Hout.
    unfold decide_exec, handle_fresh_request in Hout. rewrite Hact in Hout.
    destruct (le_approval_token r) as [id|]; [by exists id|].
    repeat case_match; by simplify_eq/=. }
  assert (consumes (InDecide now fresh rejected r, OutExec resp) id now r) as Hc by (by eexists _, _, _).
  destruct (consumption_origin _ _ _ _ _ _ _ _ _ H0 Hrun Hn Hc)
    as (i & j & now0 & r0 & Hij & Hi & Hj & Hf & Hx & Hk).
  exists id, i, j, now0, r0. split_and!; [done|lia|lia|done|done|done|done|by intros; eapply Hk|].
  intros m e now' r' Hm Hcm.
  pose proof (consumed_once _ _ _ _ _ _ _ _ _ _ _ _ _ H0 Hrun Hd Hm Hcm Hn Hc).
  pose proof (consumed_once _ _ _ _ _ _ _ _ _ _ _ _ _ H0 Hrun Hd Hn Hc Hm Hcm). lia.
Qed.

(** [C23] Human approval is what it says.  In any run of the endpoint, with
    requests, operator commands and pruning in any order, against any store
    that keeps its promise, where the default action is pending approval and no
    two issued tokens share an id: whenever an execution is allowed, the request
    carries a token that was issued earlier in the run to a request with the same
    fingerprint, session, sandbox and, where that one named an agent, agent; that
    an operator approved after that and nobody revoked before; that has not
    expired; and no other request of the whole run is allowed by it.  Where
    neither request holds a NUL byte, the executable and the arguments are the
    same too, unless the two texts hashed are a collision of SHA-256. *)
Theorem local_exec_approved cfg s0 h s n now fresh rejected r resp :
  default_action cfg = ActPendingHitl → live s0 = ∅ → exec_run cfg s0 h s → distinct_ids h →
  h !! n = Some (InDecide now fresh rejected r, OutExec resp) → lr_decision resp = LAllow →
  ∃ id i j now0 r0,
    le_approval_token r = Some id ∧ i < j < n ∧
    (∃ e, h !! i = Some e ∧ issues e id now0 r0) ∧
    (∃ e, h !! j = Some e ∧ manages LOCAL_EXEC_APPROVE e id) ∧
    same_binding r0 r ∧
    (nul_free_request r0 → nul_free_request r →
     same_command r0 r ∨ collide (request_text r0) (request_text r)) ∧
    (now < now0 + ts_ttl s0)%Z ∧
    (∀ k e, i < k < n → h !! k = Some e → ¬ manages LOCAL_EXEC_REVOKE e id) ∧
    (∀ m e now' r', h !! m = Some e → consumes e id now' r' → m = n).
Proof.
  intros Hact H0 Hrun Hd Hn Hal.
  destruct (allowed_approved cfg s0 h s n now fresh rejected r resp Hact H0 Hrun Hd Hn Hal)
    as (id & i & j & now0 & r0 & Hid & Hij & Hi & Hj & Hb & Hx & Hk & Hu).
  exists id, i, j, now0, r0. split_and!; try done; try lia. apply fingerprint_identifies, Hb.
Qed.

(** ** The client *)

Context (show_duration : Z → string).

Lemma governance_loop_allowed fuel cfg env request deadline : ∀ n token,
  governance_loop show_duration fuel cfg env request deadline n token = Some (Ok tt) →
  ∃ m token' resp, md_call env m (request token') = Ok resp ∧ mp_decision resp = "allow".
Proof.
  induction fuel as [|fuel IH]; intros n token; [done|]. cbn [governance_loop].
  destruct (md_call env n (request token)) as [resp|] eqn:Hc; [|done].
  case_bool_decide; [by eauto|]. case_bool_decide; [done|]. case_bool_decide; [|done].
  destruct (handle_pending_hitl _ _ _ _ _); [apply IH|done].
Qed.

Lemma governance_loop_ends cfg env request d :
  (0 < d)%Z →
  (∀ n q resp, md_call env n q = Ok resp → mp_decision resp = "pending_hitl" →
     (d ≤ retry_after resp ∧ md_now env n + retry_after resp ≤ md_now env (S n))%Z) →
  ∀ fuel n token,
    (md_start env + Z.of_nat n * d ≤ md_now env n)%Z →
    (Z.of_nat n * d ≤ mc_hitl_max_wait cfg < (Z.of_nat n + Z.of_nat fuel) * d)%Z →
    is_Some (governance_loop show_duration fuel cfg env request
               (md_start env + mc_hitl_max_wait cfg) n token).
Proof.
  intros Hd Hclock. induction fuel as [|fuel IH]; intros n token Hnow Hfuel; [lia|].
  cbn [governance_loop]. destruct (md_call env n (request token)) as [resp|] eqn:Hc; [|by eexists].
  case_bool_decide; [by eexists|]. case_bool_decide; [by eexists|].
  case_bool_decide as Hp; [|by eexists].
  destruct (Hclock _ _ _ Hc Hp) as [Hr Hs].
  destruct (handle_pending_hitl show_duration cfg resp (md_now env n) _) as [tok|] eqn:Hh; [|by eexists].
  assert (md_now env n + retry_after resp < md_start env + mc_hitl_max_wait cfg)%Z as Hdl.
  { unfold handle_pending_hitl in Hh. repeat case_match; simplify_eq. boolify. lia. }
  apply IH; nia.
Qed.

(** Waiting for approval ends: if every pending answer asks for a wait of at
    least [d] and the clock advances by the wait, the client returns after at
    most as many exchanges as waits of [d] fit into the configured maximum,
    plus one. *)
Theorem governance_terminates cfg env identity executable args d :
  (0 < d)%Z → (0 ≤ mc_hitl_max_wait cfg)%Z → (md_start env ≤ md_now env 0)%Z →
  (∀ n q resp, md_call env n q = Ok resp → mp_decision resp = "pending_hitl" →
     (d ≤ retry_after resp ∧ md_now env n + retry_after resp ≤ md_now env (S n))%Z) →
  is_Some (enforce_local_command_governance show_duration
             (S (Z.to_nat (mc_hitl_max_wait cfg / d))) cfg env identity executable args).
Proof.
  intros Hd Hw Hs Hclock. apply (governance_loop_ends cfg env _ d Hd Hclock); [lia|].
  rewrite Nat2Z.inj_succ, Z2Nat.id by (apply Z.div_pos; lia).
  pose proof (Z.mul_succ_div_gt (mc_hitl_max_wait cfg) d Hd). lia.
Qed.

(** ** Client and endpoint together *)

(** What serialising on one side and parsing on the other makes of a message. *)
Definition wire_request (q : MediatorRequest) : LocalExecRequest :=
  {| le_action := mq_action q; le_executable := mq_executable q; le_args := mq_args q;
     le_sandbox_id := mq_sandbox_id q; le_session_id := mq_session_id q;
     le_agent_id := mq_agent_id q; le_profile := mq_profile q; le_hitl_mode := mq_hitl_mode q;
     le_request_fingerprint := Some (mq_request_fingerprint q);
     le_approval_token := mq_approval_token q |}.

Definition wire_decision (d : LocalExecDecision) : string :=
  match d with LAllow => "allow" | LDeny => "deny" | LPendingHitl => "pending_hitl" end.

Definition wire_response (r : LocalExecResponse) : MediatorResponse :=
  {| mp_decision := wire_decision (lr_decision r); mp_reason := lr_reason r;
     mp_approval_token := lr_approval_token r; mp_retry_after_ms := lr_retry_after_ms r |}.

(** The client's answers are the endpoint's, of a run. *)
Definition answered_by (env : MediatorEnv) (h : list (Input * Output)) : Prop :=
  ∀ n q resp, md_call env n q = Ok resp →
    ∃ m now fresh rejected out,
      h !! m = Some (InDecide now fresh rejected (wire_request q), OutExec out) ∧
      resp = wire_response out.

(** Both sides hash the same bytes. *)
Lemma fingerprints_agree cfg env identity executable args token :
  compute_fingerprint (wire_request (governance_request cfg env identity executable args token))
  = mq_request_fingerprint (governance_request cfg env identity executable args token).
Proof. done. Qed.

Definition nul_free_run (h : list (Input * Output)) : Prop :=
  ∀ i now fresh rejected r o, h !! i = Some (InDecide now fresh rejected r, o) → nul_free_request r.

(** End to end: if the launcher's check lets a command run and its answers
    come from an endpoint that asks for approval, then during the endpoint's
    run an operator approved a token issued for exactly this executable with
    these arguments in the launcher's session and sandbox, and that token was
    used for this launch only. *)
Theorem launch_approved {SI : Inj (=) (=) sha256_hex} fuel ccfg env identity executable args
    cfg s0 h s :
  enforce_local_command_governance show_duration fuel ccfg env identity executable args
    = Some (Ok tt) →
  answered_by env h → default_action cfg = ActPendingHitl → live s0 = ∅ →
  exec_run cfg s0 h s → distinct_ids h → nul_free_run h →
  ∃ id i j n now0 r0 e,
    i < j < n ∧ h !! i = Some e ∧ issues e id now0 r0 ∧
    (∃ e, h !! j = Some e ∧ manages LOCAL_EXEC_APPROVE e id) ∧
    le_executable r0 = executable ∧ le_args r0 = args ∧
    le_session_id r0 = ri_session_id identity ∧ le_sandbox_id r0 = ri_sandbox_id identity ∧
    (∀ m e now' r', h !! m = Some e → consumes e id now' r' → m = n).
Proof.
  intros Hok Hans Hact H0 Hrun Hd Hnul.
  apply governance_loop_allowed in Hok as (k & token & resp & Hcall & Hallow).
  destruct (Hans _ _ _ Hcall) as (n & now & fresh & rejected & out & Hn & ->).
  assert (lr_decision out = LAllow) as Hal by (by destruct out as [[] ? ? ?]).
  destruct (allowed_approved cfg s0 h s n now fresh rejected _ out Hact H0 Hrun Hd Hn Hal)
    as (id & i & j & now0 & r0 & _ & Hij & (e & Hi & Hiss) & Hj & [Hf _] & _ & _ & Hu).
  apply fingerprint_binds in Hf as (He & Ha & Hs & Hb & _); [| |by eapply Hnul].
  2:{ destruct Hiss as (? & ? & -> & _). by eapply Hnul. }
  exists id, i, j, n, now0, r0, e. split_and!; try done; lia.
Qed.

End Facts.

(** ** Samples *)

Module Samples.
#[local] Existing Instance Session.Samples.hex_sha.

Definition cfg : LocalExecHandlerConfig :=
  {| default_action := ActPendingHitl; expected_sandbox_id := Some "sbx_1"; token_ttl := 1000;
     retry_after_ms := 5 |}.

Definition client_cfg : CommandMediatorConfig :=
  {| mc_hitl_mode := AsyncToken; mc_hitl_max_wait := 60 * nanos_per_ms |}.

Definition identity : RunIdentity :=
  {| ri_sandbox_id := "sbx_1"; ri_session_id := "s"; ri_execution_profile := "generic" |}.

Definition s0 : InMemoryTokenStore := token_store_new (token_ttl cfg).

(** The launcher asks, asks again, and once more after the approval. *)
Definition env (answer : nat → MediatorRequest → Result MediatorResponse RunError) : MediatorEnv :=
  {| md_agent := None; md_start := 0; md_now n := (Z.of_nat n * 5 * nanos_per_ms)%Z; md_call := answer |}.

Definition asks (token : option string) : LocalExecRequest :=
  wire_request (governance_request client_cfg (env (λ _ _, Err (Internal ""))) identity "/bin/ls"
                  ["-l"] token).

Definition inputs : list Input :=
  [InDecide 10 "apt_1" false (asks None); InDecide 20 "apt_2" false (asks (Some "apt_1"));
   InManage 30 {| lm_action := LOCAL_EXEC_APPROVE; lm_token_id := "apt_1" |}; InPrune 35;
   InDecide 40 "apt_3" false (asks (Some "apt_1")); InDecide 50 "apt_4" false (asks (Some "apt_1"))].

Fixpoint trace (s : InMemoryTokenStore) (l : list Input) : list (Input * Output) :=
  match l with
  | [] => []
  | i :: l => let '(o, s) := exec_step cfg s i in (i, o) :: trace s l
  end.

Definition decisions (h : list (Input * Output)) : list LocalExecDecision :=
  omap (λ e, match e.2 with OutExec r => Some (lr_decision r) | _ => None end) h.

Example asked_approved_spent :
  decisions (trace s0 inputs) = [LPendingHitl; LPendingHitl; LAllow; LDeny].
Proof. vm_compute. reflexivity. Qed.

Lemma trace_run l : ∀ h s, exec_run cfg s0 h s → ∃ s', exec_run cfg s0 (h ++ trace s l)%list s'.
Proof.
  induction l as [|i l IH]; intros h s Hr; simpl; [exists s; by rewrite app_nil_r|].
  apply (run_step _ _ _ _ i) in Hr. apply IH in Hr as [s' Hr].
  destruct (exec_step cfg s i) as [o s1]. exists s'. by rewrite <- app_assoc in Hr.
Qed.

Lemma sample_distinct : distinct_ids (trace s0 inputs).
Proof.
  assert (∀ i e id now r, trace s0 inputs !! i = Some e → issues e id now r → i = 0) as H.
  { intros i e id now r Hi (rej & resp & -> & Hn & _). vm_compute in Hi.
    do 6 (destruct i as [|i]; [by simplify_eq|]). done. }
  intros i j e e' id now r now' r' Hi Hj H1 H2. transitivity 0; [|symmetry]; by eapply H.
Qed.

Lemma sample_nul_free : nul_free_run (trace s0 inputs).
Proof.
  intros i now fresh rej r o Hi. vm_compute in Hi.
  do 6 (destruct i as [|i]; [simplify_eq; try by repeat constructor|]). done.
Qed.

(** One argument with a NUL inside and two arguments without have one
    fingerprint: an approval of either admits the other. *)
Definition with_args (args : list string) : LocalExecRequest :=
  {| le_action := ""; le_executable := "/bin/rm"; le_args := args; le_sandbox_id := "sbx_1";
     le_session_id := "s"; le_agent_id := None; le_profile := le_profile (asks None);
     le_hitl_mode := le_hitl_mode (asks None); le_request_fingerprint := None;
     le_approval_token := None |}.

Lemma nul_in_argument_collides :
  let joined := ("-r" +:+ String nul "/tmp")%string in
  compute_fingerprint (with_args [joined]) = compute_fingerprint (with_args ["-r"; "/tmp"]) ∧
  ¬ same_command (with_args [joined]) (with_args ["-r"; "/tmp"]).
Proof. split; [vm_compute; reflexivity|]. intros (_ & [=] & _). Qed.

Lemma local_exec_approved_witness :
  ∃ i j, i < j < 4 ∧ (∃ e, trace s0 inputs !! j = Some e ∧ manages LOCAL_EXEC_APPROVE e "apt_1").
Proof.
  destruct (trace_run inputs [] s0 (run_start _ _)) as [s Hr].
  destruct (local_exec_approved cfg s0 (trace s0 inputs) s 4 40
              "apt_3" false (asks (Some "apt_1"))
              (allow_exec "approval token validated and consumed"))
    as (id & i & j & now0 & r0 & Hid & Hij & _ & Hj & _).
  - reflexivity.
  - reflexivity.
  - exact Hr.
  - exact sample_distinct.
  - vm_compute. reflexivity.
  - reflexivity.
  - injection Hid as <-. exists i, j. split; [exact Hij|exact Hj].
Defined.

#[local] Instance mediator_request_eq_dec : EqDecision MediatorRequest.
Proof. solve_decision. Defined.

(** The endpoint's answers to the launcher, by exchange. *)
Definition question (token : option string) : MediatorRequest :=
  governance_request client_cfg (env (λ _ _, Err (Internal ""))) identity "/bin/ls" ["-l"] token.

Definition pending (reason : string) : LocalExecResponse :=
  {| lr_decision := LPendingHitl; lr_reason := Some reason; lr_approval_token := Some "apt_1";
     lr_retry_after_ms := Some 5%Z |}.

Definition exchange (n : nat) : option (MediatorRequest * LocalExecResponse) :=
  match n with
  | 0 => Some (question None, pending "awaiting human approval")
  | 1 => Some (question (Some "apt_1"), pending "awaiting operator approval")
  | 2 => Some (question (Some "apt_1"), allow_exec "approval token validated and consumed")
  | _ => None
  end.

Definition answers (n : nat) (q : MediatorRequest) : Result MediatorResponse RunError :=
  match exchange n with
  | Some (q', out) => if decide (q = q') then Ok (wire_response out) else Err (Internal "")
  | None => Err (Internal "")
  end.

Lemma governance_terminates_witness :
  is_Some (enforce_local_command_governance (λ _, "") 13 client_cfg (env answers) identity
             "/bin/ls" ["-l"]).
Proof.
  apply (governance_terminates (λ _, "") client_cfg (env answers) identity "/bin/ls" ["-l"]
           (5 * nanos_per_ms)); [reflexivity|discriminate|discriminate|].
  intros n q resp. cbn [md_call env]. unfold answers.
  destruct n as [|[|[|n]]]; cbn [exchange]; [..|discriminate].
  all: case_decide; [|discriminate]. all: intros [= <-] H1; try discriminate H1.
  all: split; discriminate.
Defined.

Lemma sample_answered : answered_by (env answers) (trace s0 inputs).
Proof.
  intros n q resp. cbn [md_call env]. unfold answers.
  destruct n as [|[|[|n]]]; cbn [exchange]; [..|discriminate].
  all: case_decide as Hq; [|discriminate]. all: intros [= <-]; rewrite Hq.
  - exists 0, 10%Z, "apt_1", false. eexists. split; [vm_compute; reflexivity|reflexivity].
  - exists 1, 20%Z, "apt_2", false. eexists. split; [vm_compute; reflexivity|reflexivity].
  - exists 4, 40%Z, "apt_3", false. eexists. split; [vm_compute; reflexivity|reflexivity].
Qed.

Lemma launch_approved_witness :
  enforce_local_command_governance (λ _, "") 13 client_cfg (env answers) identity "/bin/ls" ["-l"]
    = Some (Ok tt) ∧
  ∃ id j, (∃ e, trace s0 inputs !! j = Some e ∧ manages LOCAL_EXEC_APPROVE e id).
Proof.
  assert (enforce_local_command_governance (λ _, "") 13 client_cfg (env answers) identity
            "/bin/ls" ["-l"] = Some (Ok tt)) as H by (vm_compute; reflexivity).
  split; [exact H|]. destruct (trace_run inputs [] s0 (run_start _ _)) as [s Hr].
  assert (live s0 = ∅) as H0 by reflexivity.
  destruct (launch_approved (SI := Session.Samples.hex_sha_inj) (λ _, "") 13 client_cfg (env answers)
              identity "/bin/ls" ["-l"] cfg s0 (trace s0 inputs) s H sample_answered
              eq_refl H0 Hr sample_distinct sample_nul_free)
    as (id & i & j & n & now0 & r0 & e & _ & _ & _ & Hj & _).
  exists id, j. exact Hj.
Defined.

End Samples.
