(* ===== verification/AuthorityIssuance.v ===== *)
(** * Capability issuance ([firma-authority/src/issuance.rs], [service.rs],
      [authorized_clients.rs])

    The Authority evaluates every requested action on its own and signs a token
    for the permitted subset.  The Cedar engine is the class the sidecar's
    evaluator uses; the signer, the clock and the generated token id are
    parameters. *)

From stdpp Require Import sorting.
From S2P Require Import Prelude RustStr ActionClasses Core MappingHost Json Session Cedar.

#[local] Open Scope string_scope.

(** ** Ordered sets of strings ([BTreeSet<String>]) *)

Definition str_le (a b : string) : Prop := String.leb a b = true.
#[export] Instance str_le_dec a b : Decision (str_le a b).
Proof. unfold str_le. apply _. Defined.

(** [iter().collect::<BTreeSet<_>>()], in its order. *)
Definition btree_set (l : list string) : list string := merge_sort str_le (remove_dups l).

Lemma elem_of_btree_set x l : x ∈ btree_set l ↔ x ∈ l.
Proof. unfold btree_set. by rewrite merge_sort_Permutation, elem_of_remove_dups. Qed.

Lemma btree_set_nodup l : NoDup (btree_set l).
Proof. unfold btree_set. rewrite merge_sort_Permutation. apply NoDup_remove_dups. Qed.

(** ** Requests and results *)

Record IssuanceRequest := {
  ir_agent_id : AgentId;
  ir_session_id : SessionId;
  ir_requested_actions : list string;
  ir_resource_scope : string;
  ir_requested_ttl_seconds : Z;
}.

Record IssuanceResult := { is_raw_token : string; is_claims : CapabilityClaims }.

Inductive IssuanceError :=
| Denied (reason message : string)
| Sign (e : string).

(** [service.rs]'s [CedarDecision]. *)
Inductive IssuanceDecision :=
| GrantAllow (granted : list string)
| GrantDeny (reason message : string).

Definition no_policies : IssuanceDecision := GrantDeny "NO_POLICIES" "no Cedar policies loaded".
Definition no_action : IssuanceDecision := GrantDeny "NO_ACTIONS" "no actions requested".
Definition no_authorized_actions : IssuanceDecision :=
  GrantDeny "NO_AUTHORIZED_ACTIONS" "no requested action classes are authorized by policy".
Definition invalid_request (msg : string) : IssuanceDecision := GrantDeny "INVALID_REQUEST" msg.
Definition context_build (action reason : string) : IssuanceDecision :=
  GrantDeny "CONTEXT_BUILD_FAILED"
    ("failed to build Cedar context for '" +:+ action +:+ "': " +:+ reason).
Definition cedar_evaluation_failed : IssuanceDecision :=
  GrantDeny "INVALID_REQUEST" "Cedar policy evaluation failed".

(** [clamp_ttl]: [requested] is an [i32], [max] a non-zero [u32]. *)
Definition clamp_ttl (requested max : Z) : Z :=
  if (requested <=? 0)%Z then max else Z.min requested max.

(** [compute_context_hash]. *)
Definition compute_context_hash `{!Sha256} (agent : string) (actions : list string)
    (resource version : string) : string :=
  sha256_hex (agent +:+ "|" +:+ foldr (λ a rest, a +:+ "," +:+ rest) "" actions +:+ "|" +:+
              resource +:+ "|" +:+ version).

(** ** Evaluation *)

Section Issuance.
Context {CC : CedarCrate} {SH : Sha256}.

(** [diagnostics().errors()] of an evaluation. *)
Class CedarDiagnostics := evaluation_errors : CedarRequest → PolicySet → CedarEntities → list string.

(** [TokenSigner::sign]; the error is its text. *)
Class TokenSigner := sign : CapabilityClaims → Result string string.

Context {CD : CedarDiagnostics} {TS : TokenSigner}.

(** The context of an issuance request. *)
Definition issuance_context (session : SessionId) (timestamp_ms : Z) : Json :=
  JObject (list_to_map
    [("session_id", JString session); ("timestamp_ms", JInt timestamp_ms); ("params", JString "{}");
     ("risk_score", JInt 0); ("session_duration_s", JInt 0); ("action_count", JInt 0);
     ("raw_transport", JString "https"); ("deny_count", JInt 0);
     ("prior_action_classes", JArray []); ("last_resource", JString ""); ("transfer_amount", JInt 0);
     ("daily_cumulative_amount", JInt 0); ("transfers_last_10m", JInt 0);
     ("same_payee_count_30m", JInt 0); ("session_transfer_count", JInt 0)]).

(** What Cedar says of one action: [Err] ends the issuance. *)
Definition evaluate_action (ps : PolicySet) (schema : CedarSchema) (principal resource : EntityUid)
    (entities : CedarEntities) (context : Json) (action : string) : Result bool IssuanceDecision :=
  match entity_uid_try_from (UAction action) with
  | Err e => Err (invalid_request ("invalid action: " +:+ e))
  | Ok action_uid =>
      match context_from_json_value context schema action_uid with
      | Err e => Err (context_build action e)
      | Ok cedar_context =>
          match request_new principal action_uid resource cedar_context schema with
          | Err e => Err (invalid_request e)
          | Ok request =>
              match evaluation_errors request ps entities with
              | _ :: _ => Err cedar_evaluation_failed
              | [] =>
                  Ok (match decision (is_authorized request ps entities) with
                      | CedarDeny => false
                      | CedarAllow => true
                      end)
              end
          end
      end
  end.

(** The loop over the requested actions. *)
Fixpoint grant_loop (evaluate : string → Result bool IssuanceDecision) (actions : list string)
    : Result (list string) IssuanceDecision :=
  match actions with
  | [] => Ok []
  | action :: actions =>
      match evaluate action with
      | Err d => Err d
      | Ok permitted =>
          let? granted := grant_loop evaluate actions in
          Ok (if permitted then action :: granted else granted)
      end
  end.

(** [evaluate_cedar_policy]; [now_ms] is the clock in milliseconds. *)
Definition evaluate_cedar_policy (ps : PolicySet) (schema : CedarSchema) (now_ms : Z)
    (agent : AgentId) (session : SessionId) (actions : list string) (resource : string)
    : IssuanceDecision :=
  match policies ps with
  | [] => no_policies
  | _ =>
      match actions with
      | [] => no_action
      | _ =>
          match entity_uid_try_from (UAgent agent) with
          | Err e => invalid_request ("invalid agent_id: " +:+ e)
          | Ok principal =>
              match resource_entity resource with
              | Err e => invalid_request ("invalid resource: " +:+ resource_entity_error_display e)
              | Ok entity =>
                  match entities_from [entity] with
                  | Err e => invalid_request ("invalid resource entity store: " +:+ e)
                  | Ok entities =>
                      match grant_loop (evaluate_action ps schema principal (entity_uid entity)
                                          entities (issuance_context session now_ms))
                              (btree_set actions) with
                      | Err d => d
                      | Ok [] => no_authorized_actions
                      | Ok granted => GrantAllow granted
                      end
                  end
              end
          end
      end
  end.

(** The snapshot of a policy store. *)
Record PolicySnapshot := { sn_policy_set : PolicySet; sn_schema : CedarSchema; sn_version : string }.

(** [issuance::issue_capability]; [now_ms] and [now] are the two clock readings,
    [fresh] the generated token id; [version] is read after the snapshot. *)
Definition issue_capability (snapshot : PolicySnapshot) (version : string) (max_ttl now_ms now : Z)
    (fresh : TokenId) (req : IssuanceRequest) : Result IssuanceResult IssuanceError :=
  match evaluate_cedar_policy (sn_policy_set snapshot) (sn_schema snapshot) now_ms (ir_agent_id req)
          (ir_session_id req) (ir_requested_actions req) (ir_resource_scope req) with
  | GrantDeny reason message => Err (Denied reason message)
  | GrantAllow granted =>
      let ttl := clamp_ttl (ir_requested_ttl_seconds req) max_ttl in
      let claims :=
        {| token_id := fresh; agent_id := ir_agent_id req; session_id := ir_session_id req;
           action_set := granted; resource_scope := ir_resource_scope req; issued_at := now;
           expiry := now + ttl * nanos_per_sec;
           context_hash := compute_context_hash (ir_agent_id req) granted (ir_resource_scope req)
                             version |} in
      match sign claims with
      | Err e => Err (Sign e)
      | Ok raw_token => Ok {| is_raw_token := raw_token; is_claims := claims |}
      end
  end.

(** ** The gRPC reply *)

Record ProtoToken := {
  pt_token_id : string;
  pt_agent_id : string;
  pt_session_id : string;
  pt_action_set : list string;
  pt_resource_scope : string;
  pt_issued_at : Z * Z;
  pt_expiry : Z * Z;
  pt_context_hash : string;
  pt_signature : string;
  pt_policy_bundle_version : option string;
}.

(** [to_proto_timestamp]: seconds and the nanoseconds below them. *)
Definition to_proto_timestamp (nanos : Z) : Z * Z :=
  (nanos / nanos_per_sec, nanos mod nanos_per_sec)%Z.

(** [build_proto_token]. *)
Definition build_proto_token (claims : CapabilityClaims) (signature version : string) : ProtoToken :=
  {| pt_token_id := token_id claims; pt_agent_id := agent_id claims;
     pt_session_id := session_id claims; pt_action_set := action_set claims;
     pt_resource_scope := resource_scope claims;
     pt_issued_at := to_proto_timestamp (issued_at claims);
     pt_expiry := to_proto_timestamp (expiry claims); pt_context_hash := context_hash claims;
     pt_signature := signature; pt_policy_bundle_version := Some version |}.

Inductive IssueReply :=
| Granted (token : ProtoToken)
| Refused (deny_reason deny_message : string).

Inductive Status := InvalidArgument (detail : string) | InternalStatus (detail : string).

Record IssueCapabilityRequest := {
  icr_agent_id : string;
  icr_session_id : string;
  icr_requested_actions : list string;
  icr_resource_scope : string;
  icr_requested_ttl_seconds : Z;
}.

(** [str::parse::<AgentId>]; the error is its text. *)
Class AgentIdParse := agent_id_parse : string → Result AgentId string.
Context {AP : AgentIdParse}.

Definition session_id_error_display (e : InvalidSessionIdError) : string :=
  match e with
  | SidEmpty => "session id must not be empty"
  | SidInvalidFormat =>
      "session id must be 1–128 characters: letters, digits, hyphens, or underscores"
  end.

(** [AuthorityService::issue_capability]; [bundle_version] is that of the
    enforcement store. *)
Definition service_issue_capability (snapshot : PolicySnapshot) (version bundle_version : string)
    (max_ttl now_ms now : Z) (fresh : TokenId) (req : IssueCapabilityRequest)
    : Result IssueReply Status :=
  match agent_id_parse (icr_agent_id req) with
  | Err e => Err (InvalidArgument ("invalid agent_id: " +:+ e))
  | Ok agent =>
      match session_id_try_from (icr_session_id req) with
      | Err e => Err (InvalidArgument ("invalid session_id: " +:+ session_id_error_display e))
      | Ok session =>
          match issue_capability snapshot version max_ttl now_ms now fresh
                  {| ir_agent_id := agent; ir_session_id := session;
                     ir_requested_actions := icr_requested_actions req;
                     ir_resource_scope := icr_resource_scope req;
                     ir_requested_ttl_seconds := icr_requested_ttl_seconds req |} with
          | Ok out => Ok (Granted (build_proto_token (is_claims out) (is_raw_token out) bundle_version))
          | Err (Denied reason message) => Ok (Refused reason message)
          | Err (Sign _) => Err (InternalStatus "token signing failed")
          end
      end
  end.

(** ** Facts *)

Lemma grant_loop_spec evaluate actions granted :
  grant_loop evaluate actions = Ok granted →
  granted `sublist_of` actions ∧
  (∀ a, a ∈ actions → ∃ b, evaluate a = Ok b) ∧
  (∀ a, a ∈ granted ↔ a ∈ actions ∧ evaluate a = Ok true).
Proof.
  revert granted. induction actions as [|a actions IH]; intros granted; simpl.
  { intros [= <-]. split_and!; [done|by intros a ?%elem_of_nil|]. intros a. rewrite elem_of_nil. tauto. }
  destruct (evaluate a) as [permitted|] eqn:Ea; [|done].
  destruct (grant_loop evaluate actions) as [rest|]; [|done].
  destruct (IH rest eq_refl) as (Hs & He & Hg). intros [= <-]. split_and!.
  - destruct permitted; by constructor.
  - intros x [->|Hx]%elem_of_cons; eauto.
  - intros x. rewrite elem_of_cons. destruct permitted; [rewrite elem_of_cons|]; rewrite Hg.
    + split; [intros [->|[? ?]]; auto|intros [[->|?] ?]; auto].
    + split; [intros [? ?]; auto|intros [[->|?] Hx]; [congruence|auto]].
Qed.

Lemma grant_loop_err ps schema principal resource entities context actions granted :
  grant_loop (evaluate_action ps schema principal resource entities context) actions
  ≠ Err (GrantAllow granted).
Proof.
  induction actions as [|a actions IH]; simpl; [done|].
  assert (evaluate_action ps schema principal resource entities context a ≠ Err (GrantAllow granted)).
  { unfold evaluate_action. by repeat case_match. }
  destruct (evaluate_action _ _ _ _ _ _ a) as [[]|]; [..|congruence].
  all: destruct (grant_loop _ actions); congruence.
Qed.

(** The issuance policy permits an action on a resource for an agent. *)
Definition permitted (snapshot : PolicySnapshot) (now_ms : Z) (req : IssuanceRequest)
    (action : string) : Prop :=
  ∃ principal action_uid entity entities context request,
    entity_uid_try_from (UAgent (ir_agent_id req)) = Ok principal ∧
    entity_uid_try_from (UAction action) = Ok action_uid ∧
    resource_entity (ir_resource_scope req) = Ok entity ∧ entities_from [entity] = Ok entities ∧
    context_from_json_value (issuance_context (ir_session_id req) now_ms) (sn_schema snapshot)
      action_uid = Ok context ∧
    request_new principal action_uid (entity_uid entity) context (sn_schema snapshot) = Ok request ∧
    evaluation_errors request (sn_policy_set snapshot) entities = [] ∧
    decision (is_authorized request (sn_policy_set snapshot) entities) = CedarAllow.

Lemma evaluate_action_true ps schema principal resource entities context action :
  evaluate_action ps schema principal resource entities context action = Ok true →
  ∃ action_uid cedar_context request,
    entity_uid_try_from (UAction action) = Ok action_uid ∧
    context_from_json_value context schema action_uid = Ok cedar_context ∧
    request_new principal action_uid resource cedar_context schema = Ok request ∧
    evaluation_errors request ps entities = [] ∧
    decision (is_authorized request ps entities) = CedarAllow.
Proof.
  unfold evaluate_action. destruct (entity_uid_try_from _) as [uid|]; [|done].
  destruct (context_from_json_value _ _ _) as [c|] eqn:Ec; [|done].
  destruct (request_new _ _ _ _ _) as [r|] eqn:Er; [|done].
  destruct (evaluation_errors _ _ _) eqn:Ee; [|done].
  destruct (decision _) eqn:Ed; [|done]. eauto 10.
Qed.

Lemma evaluate_cedar_policy_grants snapshot now_ms req granted :
  evaluate_cedar_policy (sn_policy_set snapshot) (sn_schema snapshot) now_ms (ir_agent_id req)
    (ir_session_id req) (ir_requested_actions req) (ir_resource_scope req) = GrantAllow granted →
  policies (sn_policy_set snapshot) ≠ [] ∧ granted ≠ [] ∧ NoDup granted ∧
  (∀ a, a ∈ granted → a ∈ ir_requested_actions req ∧ permitted snapshot now_ms req a) ∧
  (∀ a, a ∈ ir_requested_actions req → permitted snapshot now_ms req a → a ∈ granted).
Proof.
  unfold evaluate_cedar_policy. destruct (policies _) as [|p0 ps0] eqn:Hp; [done|].
  destruct (ir_requested_actions req) as [|x l] eqn:Hreq; [done|]. rewrite <- Hreq. clear Hreq x l.
  destruct (entity_uid_try_from (UAgent _)) as [principal|] eqn:Hpr; [|done].
  destruct (resource_entity _) as [entity|] eqn:Hre; [|done].
  destruct (entities_from _) as [entities|] eqn:Hes; [|done].
  destruct (grant_loop _ _) as [g|d] eqn:Hg; [|intros ->; by apply grant_loop_err in Hg].
  apply grant_loop_spec in Hg as (Hsub & Hok & Hg). destruct g as [|a0 g]; [done|].
  intros [= <-]. split_and!; [done|done| | |].
  - eapply sublist_NoDup; [|exact Hsub]. apply btree_set_nodup.
  - intros a [Ha He]%Hg. rewrite elem_of_btree_set in Ha. split; [done|].
    apply evaluate_action_true in He as (uid & c & r & ? & ? & ? & ? & ?).
    exists principal, uid, entity, entities, c, r. done.
  - intros a Ha (pr & uid & en & es & c & r & Hpr' & Huid & Hre' & Hes' & Hc & Hr & He & Hd).
    rewrite Hpr in Hpr'. rewrite Hre in Hre'. injection Hpr' as <-. injection Hre' as <-.
    rewrite Hes in Hes'. injection Hes' as <-. apply Hg. rewrite elem_of_btree_set. split; [done|].
    unfold evaluate_action. by rewrite Huid, Hc, Hr, He, Hd.
Qed.

Lemma clamp_ttl_bounds requested max :
  (0 < max)%Z → (0 < clamp_ttl requested max ≤ max)%Z ∧
  ((0 < requested)%Z → (clamp_ttl requested max ≤ requested)%Z).
Proof. unfold clamp_ttl. destruct (Z.leb_spec requested 0); lia. Qed.

(** [C24] The Authority grants no more than policy allows.  A token is issued only
    for actions that were requested and that the issuance policy permits, one
    by one and without evaluation errors, for this agent, session and resource;
    for all of those, and at least one; the claims name the requester's agent,
    session and scope; and the lifetime is positive, at most the configured
    maximum and at most what was asked for. *)
Theorem issue_capability_exact snapshot version max_ttl now_ms now fresh req out :
  (0 < max_ttl)%Z →
  issue_capability snapshot version max_ttl now_ms now fresh req = Ok out →
  let c := is_claims out in
  (∀ a, a ∈ action_set c ↔ a ∈ ir_requested_actions req ∧ permitted snapshot now_ms req a) ∧
  action_set c ≠ [] ∧ NoDup (action_set c) ∧
  agent_id c = ir_agent_id req ∧ session_id c = ir_session_id req ∧
  resource_scope c = ir_resource_scope req ∧ token_id c = fresh ∧ sign c = Ok (is_raw_token out) ∧
  ∃ ttl, expiry c = (issued_at c + ttl * nanos_per_sec)%Z ∧ (0 < ttl ≤ max_ttl)%Z ∧
    ((0 < ir_requested_ttl_seconds req)%Z → (ttl ≤ ir_requested_ttl_seconds req)%Z).
Proof.
  intros Hmax. unfold issue_capability. destruct (evaluate_cedar_policy _ _ _ _ _ _ _) eqn:He; [|done].
  apply evaluate_cedar_policy_grants in He as (_ & Hne & Hnd & Hs & Hc).
  destruct (sign _) eqn:Hsign; [|done]. intros [= <-]. cbn -[clamp_ttl].
  split_and!; try done.
  { intros x. split; [apply Hs|intros [? ?]; by apply Hc]. }
  destruct (clamp_ttl_bounds (ir_requested_ttl_seconds req) max_ttl Hmax). eauto.
Qed.

End Issuance.

(** ** The policy store ([cedar_loader.rs]) *)

(** The bundle that is streamed. *)
Record AuthorityBundle := {
  ab_version : string;
  ab_policies : string;
  ab_entity_schema : string;
  ab_ttl_seconds : Z;
  ab_mappings : option string;
}.

(** What one load reads: the [.cedar] files in name order, or that there is no
    directory; the schema source; the encoded mapping snapshot of a store with
    mappings. *)
Record PolicyInputs := {
  in_policy_files : Result (list string) string;
  in_schema : Result string string;
  in_mappings : option (Result string string);
}.

Definition MAX_STREAM_BYTES : Z := 16 * 1024 * 1024.

(** [snapshot_version]. *)
Definition version_text (policies schema : string) (mappings : option string) : string :=
  display_uint (Z.of_nat (String.length policies)) +:+ ":" +:+ policies +:+
  display_uint (Z.of_nat (String.length schema)) +:+ ":" +:+ schema +:+ default "" mappings.

Definition snapshot_version `{!Sha256} (policies schema : string) (mappings : option string) : string :=
  sha256_hex (version_text policies schema mappings).

Definition concat_files (files : list string) : string := foldr String.append "" files.

Section PolicyStore.
Context {CC : CedarCrate} {SH : Sha256}.

(** [PolicySet::new], [validate_policies] and the encoded length of the update
    that carries a bundle. *)
Class PolicyLoading := {
  policy_set_new : PolicySet;
  validate_policies : PolicySet → CedarSchema → Result unit string;
  update_len : AuthorityBundle → Z;
}.
Context {PLd : PolicyLoading}.

Record PolicyStore := {
  st_policy_set : PolicySet;
  st_schema : CedarSchema;
  st_bundle : AuthorityBundle;
}.

(** [read_policies]. *)
Definition read_policies (files : list string) : Result PolicySet string :=
  match files with
  | [] => Ok policy_set_new
  | _ => map_err (λ e, "cedar policy parse error: " +:+ e) (policy_set_parse (concat_files files))
  end.

(** [validate_bundle_size]. *)
Definition validate_bundle_size (b : AuthorityBundle) : Result unit string :=
  if (update_len b <=? MAX_STREAM_BYTES)%Z then Ok tt
  else Err "enforcement snapshot exceeds the 16 MiB stream limit".

(** [load_inner]; also what [reload] computes before the swap. *)
Definition load_inner (inputs : PolicyInputs) (ttl : Z) : Result PolicyStore string :=
  let? files := in_policy_files inputs in
  let? policy_set := read_policies files in
  let? schema_src := in_schema inputs in
  let? schema := map_err (λ e, "cedar schema parse error: " +:+ e) (schema_parse schema_src) in
  let? _ := validate_policies policy_set schema in
  let policies_src := concat_files files in
  let? mappings := match in_mappings inputs with
                   | None => Ok None
                   | Some (Ok m) => Ok (Some m)
                   | Some (Err e) => Err e
                   end in
  let bundle := {| ab_version := snapshot_version policies_src schema_src mappings;
                   ab_policies := policies_src; ab_entity_schema := schema_src;
                   ab_ttl_seconds := ttl; ab_mappings := mappings |} in
  let? _ := validate_bundle_size bundle in
  Ok {| st_policy_set := policy_set; st_schema := schema; st_bundle := bundle |}.

(** [reload]: an error keeps the previous generation. *)
Definition reload (s : PolicyStore) (inputs : PolicyInputs) : Result unit string * PolicyStore :=
  match load_inner inputs (ab_ttl_seconds (st_bundle s)) with
  | Err e => (Err e, s)
  | Ok new =>
      if bool_decide (ab_version (st_bundle s) = ab_version (st_bundle new)) then (Ok tt, s)
      else (Ok tt, new)
  end.

(** ** Facts *)

Lemma str_app_length_inj s s' t t' :
  String.length s = String.length s' → s +:+ t = s' +:+ t' → s = s' ∧ t = t'.
Proof.
  revert s'. induction s as [|a s IH]; intros [|b s'] Hl; simpl; try discriminate Hl; [done|].
  intros [= -> H]. destruct (IH s' ltac:(simpl in Hl; lia) H) as [-> ->]. done.
Qed.

(** A length, a colon, that many bytes and a rest determine the bytes and the rest. *)
Lemma length_prefixed_inj s s' t t' :
  display_uint (Z.of_nat (String.length s)) +:+ ":" +:+ s +:+ t =
  display_uint (Z.of_nat (String.length s')) +:+ ":" +:+ s' +:+ t' → s = s' ∧ t = t'.
Proof.
  assert (∀ z, contains_char ":"%char (display_uint z) = false) as Hd.
  { intros z. apply digits_no_char; [done|apply display_uint_digits]. }
  intros H. apply (f_equal (split_once ":"%char)) in H.
  change (":" +:+ s +:+ t) with (String ":"%char (s +:+ t)) in H.
  change (":" +:+ s' +:+ t') with (String ":"%char (s' +:+ t')) in H.
  rewrite !split_once_app in H by apply Hd. injection H as Hl Hr.
  apply str_app_length_inj; [|done]. unfold display_uint in Hl. apply (inj pretty) in Hl. lia.
Qed.

Lemma snapshot_version_inj {SI : Inj (=) (=) sha256_hex} p s m p' s' m' :
  snapshot_version p s m = snapshot_version p' s' m' →
  p = p' ∧ s = s' ∧ default "" m = default "" m'.
Proof.
  unfold snapshot_version. intros H. apply (inj sha256_hex) in H. unfold version_text in H.
  apply length_prefixed_inj in H as [-> H]. by apply length_prefixed_inj in H as [-> ->].
Qed.

(** The generation in use is the one that is streamed. *)
Definition generation_of (s : PolicyStore) (files : list string) (schema_src : string)
    (mappings : option string) : Prop :=
  read_policies files = Ok (st_policy_set s) ∧ schema_parse schema_src = Ok (st_schema s) ∧
  validate_policies (st_policy_set s) (st_schema s) = Ok tt ∧
  ab_policies (st_bundle s) = concat_files files ∧ ab_entity_schema (st_bundle s) = schema_src ∧
  ab_mappings (st_bundle s) = mappings ∧
  ab_version (st_bundle s) = snapshot_version (concat_files files) schema_src mappings ∧
  (update_len (st_bundle s) ≤ MAX_STREAM_BYTES)%Z.

Definition coherent (s : PolicyStore) : Prop := ∃ files schema_src mappings, generation_of s files schema_src mappings.

Lemma load_inner_spec inputs ttl s :
  load_inner inputs ttl = Ok s →
  ∃ files schema_src mappings,
    in_policy_files inputs = Ok files ∧ in_schema inputs = Ok schema_src ∧
    in_mappings inputs = Ok <$> mappings ∧ generation_of s files schema_src mappings ∧
    ab_ttl_seconds (st_bundle s) = ttl.
Proof.
  unfold load_inner, map_err. destruct (in_policy_files inputs) as [files|]; [|done].
  destruct (read_policies files) as [ps|] eqn:Hps; [|done].
  destruct (in_schema inputs) as [src|]; [|done].
  destruct (schema_parse src) as [sch|] eqn:Hsch; [|done].
  destruct (validate_policies ps sch) as [[]|] eqn:Hv; [|done].
  destruct (in_mappings inputs) as [[m|]|]; [|done|];
    unfold validate_bundle_size; destruct (update_len _ <=? _)%Z eqn:Hlen; try done;
    intros [= <-]; boolify.
  - exists files, src, (Some m). by split_and!.
  - exists files, src, None. by split_and!.
Qed.

(** The stores a sequence of reloads goes through. *)
Inductive reloads (s0 : PolicyStore) : PolicyStore → Prop :=
| reloads_start : reloads s0 s0
| reloads_step s inputs : reloads s0 s → reloads s0 (snd (reload s inputs)).

(** Hot reload never mixes generations: from a loaded store, after any
    sequence of reloads of any inputs, valid or not, the policy set and schema
    that are evaluated are the parse of the sources in the bundle that is
    streamed, strictly validated and within the stream limit, and its version
    names them; and a reload that reports success leaves exactly the sources it
    read, also where it found nothing changed. *)
Theorem reload_coherent {SI : Inj (=) (=) sha256_hex} inputs0 ttl s0 s inputs :
  load_inner inputs0 ttl = Ok s0 → reloads s0 s →
  coherent s ∧
  (fst (reload s inputs) = Ok tt →
   ∃ files schema_src mappings,
     in_policy_files inputs = Ok files ∧ in_schema inputs = Ok schema_src ∧
     in_mappings inputs = Ok <$> mappings ∧
     let b := st_bundle (snd (reload s inputs)) in
     ab_policies b = concat_files files ∧ ab_entity_schema b = schema_src ∧
     default "" (ab_mappings b) = default "" mappings).
Proof.
  intros Hload Hr. assert (coherent s) as Hco.
  { induction Hr as [|s inputs' Hr IH].
    - apply load_inner_spec in Hload as (f & sc & m & _ & _ & _ & Hg & _). by exists f, sc, m.
    - unfold reload. destruct (load_inner inputs' _) as [new|] eqn:Hn; [|done].
      case_bool_decide; [done|].
      apply load_inner_spec in Hn as (f & sc & m & _ & _ & _ & Hg & _). by exists f, sc, m. }
  split; [done|]. unfold reload. destruct (load_inner inputs _) as [new|] eqn:Hn; [|done].
  apply load_inner_spec in Hn as (f & sc & m & Hf & Hsc & Hm & Hg & _). intros _.
  exists f, sc, m. split; [done|split; [done|split; [done|]]]. destruct Hg as (_ & _ & _ & Hp & He & Hmm & Hv & _).
  case_bool_decide as Heq; [|cbn; rewrite Hp, He, Hmm; auto].
  destruct Hco as (f' & sc' & m' & _ & _ & _ & Hp' & He' & Hm' & Hv' & _).
  rewrite Hv, Hv' in Heq. apply snapshot_version_inj in Heq as (Hpp & Hss & Hmm').
  cbn. rewrite Hp', He', Hm'. auto.
Qed.

End PolicyStore.

(** ** Authorized clients ([authorized_clients.rs]) *)

(** [AuthorizedClientSet::load] from the identities of a parsed file; a blank
    one is a parse error. *)
Definition client_set_load (identities : list string) : Result (gset string) string :=
  if existsb (λ i, is_empty (trim i)) identities
  then Err "client identity must not be empty or whitespace-only"
  else Ok (list_to_set identities).

(** [AuthorizedClientSet::contains] and [len]. *)
Definition client_set_contains (s : gset string) (identity : string) : bool :=
  bool_decide (identity ∈ s).

Definition client_set_len (s : gset string) : nat := size s.

(** ** Samples *)

Module Samples.
Import Cedar.Samples.

(** An engine that permits reading code and nothing else. *)
#[local] Instance reader_cedar : CedarCrate := {|
  PolicySet := list CedarPolicy;
  CedarSchema := unit;
  CedarContext := Json;
  CedarRequest := EntityUid * EntityUid * EntityUid * Json;
  CedarEntities := list Entity;
  policy_set_parse s := Ok toy_policies;
  policies := id;
  schema_parse _ := Ok tt;
  type_name_parse := Ok;
  entity_new u a := Ok {| entity_uid := u; attrs := a |};
  context_from_json_value j _ _ := Ok j;
  request_new p a r c _ := Ok (p, a, r, c);
  entities_from := Ok;
  is_authorized '(_, a, _, _) _ _ :=
    {| decision := if bool_decide (entity_id a = "code.read") then CedarAllow else CedarDeny;
       reason := [] |};
|}.
#[local] Existing Instance Session.Samples.hex_sha.
#[local] Instance no_errors : CedarDiagnostics := λ _ _ _, [].
#[local] Instance plain_signer : TokenSigner := λ c, Ok ("v4.public." +:+ token_id c).

Definition snapshot : PolicySnapshot :=
  {| sn_policy_set := toy_policies; sn_schema := tt; sn_version := "v1" |}.

Definition request : IssuanceRequest :=
  {| ir_agent_id := "alice"; ir_session_id := "s";
     ir_requested_actions := ["code.write"; "code.read"; "code.read"];
     ir_resource_scope := "api.github.com/*"; ir_requested_ttl_seconds := 900 |}.

Definition issued : Result IssuanceResult IssuanceError :=
  issue_capability snapshot "v1" 600 5 1000 "ctok_1" request.

Lemma issue_capability_exact_witness :
  match issued with
  | Ok out => action_set (is_claims out) = ["code.read"] ∧
              expiry (is_claims out) = (1000 + 600 * nanos_per_sec)%Z ∧
              permitted snapshot 5 request "code.read"
  | Err _ => False
  end.
Proof.
  destruct issued as [out|e] eqn:E; [|vm_compute in E; discriminate].
  destruct (issue_capability_exact snapshot "v1" 600 5 1000 "ctok_1" request out eq_refl E)
    as (Ha & _).
  vm_compute in E. injection E as <-. split; [reflexivity|]. split; [reflexivity|].
  apply (Ha "code.read"). vm_compute. left.
Defined.

#[local] Instance loading : PolicyLoading := {|
  policy_set_new := ([] : list CedarPolicy);
  validate_policies _ _ := Ok tt;
  update_len b := Z.of_nat (String.length (ab_policies b));
|}.

Definition inputs (p : string) : PolicyInputs :=
  {| in_policy_files := Ok [p; "permit;"]; in_schema := Ok "schema"; in_mappings := Some (Ok "m") |}.

Definition store (p : string) : PolicyStore :=
  match load_inner (inputs p) 60 with
  | Ok s => s
  | Err _ => {| st_policy_set := ([] : list CedarPolicy); st_schema := tt;
                st_bundle := {| ab_version := ""; ab_policies := ""; ab_entity_schema := "";
                                ab_ttl_seconds := 0; ab_mappings := None |} |}
  end.

Lemma reload_coherent_witness :
  coherent (snd (reload (store "a") (inputs "b"))) ∧
  ab_policies (st_bundle (snd (reload (store "a") (inputs "b")))) = "bpermit;".
Proof.
  assert (load_inner (inputs "a") 60 = Ok (store "a")) as H by (vm_compute; reflexivity).
  destruct (reload_coherent (SI := Session.Samples.hex_sha_inj) (inputs "a") 60 (store "a")
              (snd (reload (store "a") (inputs "b"))) (inputs "b") H
              (reloads_step _ _ _ (reloads_start _))) as [Hc _].
  split; [exact Hc|vm_compute; reflexivity].
Defined.

End Samples.
