(* ===== verification/AuthorityRevocation.v ===== *)
(** * The Authority's revocation store ([firma-authority/src/revocation.rs])

    The revocation file is the source of truth; the memory of a process is
    ingested from it.  Clock readings are arguments.  The text of a time and the
    shape of a token id are parameters with their documented form. *)

From stdpp Require Import sorting.
From S2P Require Import Prelude RustStr Core Cedar AuthorityIssuance.

#[local] Open Scope string_scope.

(** ** Parameters *)

(** [str::parse::<TokenId>] on canonical text: a [ctok] TypeID. *)
Class TokenIdFormat := valid_token_id : string → bool.

Definition id_char (c : ascii) : bool := is_ascii_alphanumeric c || bool_decide (c = "_"%char).

Class TokenIdLaws (TF : TokenIdFormat) := {
  token_id_shape : ∀ s, valid_token_id s = true → s ≠ "" ∧ str_forallb id_char s = true;
}.

(** [DateTime::to_rfc3339] and [parse_from_rfc3339]. *)
Class Rfc3339 := { rfc3339_print : Z → string; rfc3339_parse : string → option Z }.

Definition graphic : ascii → bool := in_range 33 126.

Class Rfc3339Laws (RF : Rfc3339) := {
  rfc3339_roundtrip : ∀ t, rfc3339_parse (rfc3339_print t) = Some t;
  rfc3339_shape : ∀ t, rfc3339_print t ≠ "" ∧ str_forallb graphic (rfc3339_print t) = true;
}.

(** ** Entries *)

Record RevocationEntry := { re_token_id : TokenId; re_reason : string; re_timestamp : Z }.

Definition nanos_per_minute : Z := 60 * nanos_per_sec.

Definition REVOCATION_SET_SKEW_MARGIN : Z := 5 * nanos_per_minute.

Record RevocationFileStore := {
  rv_entries : gmap string RevocationEntry;
  rv_token_ttl : Z;
  rv_skew_margin : Z;
}.

Definition store_empty (token_ttl : Z) : RevocationFileStore :=
  {| rv_entries := ∅; rv_token_ttl := token_ttl; rv_skew_margin := REVOCATION_SET_SKEW_MARGIN |}.

Definition set_entries (m : gmap string RevocationEntry) (s : RevocationFileStore)
    : RevocationFileStore :=
  {| rv_entries := m; rv_token_ttl := rv_token_ttl s; rv_skew_margin := rv_skew_margin s |}.

Definition tab : ascii := "009"%char.
Definition line_feed : ascii := "010"%char.

Section Store.
Context {TF : TokenIdFormat} {RF : Rfc3339}.

(** [RevocationStore::parse_line]. *)
Definition parse_line (line : string) (fallback : Z) : option RevocationEntry :=
  let line := trim line in
  if is_empty line then None
  else
    let '(raw_id, rest) :=
      match split_once tab line with Some (id, rest) => (id, Some rest) | None => (line, None) end in
    if negb (valid_token_id raw_id) then None
    else
      Some match rest ≫= split_once tab with
           | Some (raw_ts, reason) =>
               {| re_token_id := raw_id; re_reason := reason;
                  re_timestamp := default fallback (rfc3339_parse raw_ts) |}
           | None =>
               {| re_token_id := raw_id; re_reason := "file-based revocation";
                  re_timestamp := fallback |}
           end.

(** [RevocationStore::is_expired]. *)
Definition is_expired (s : RevocationFileStore) (e : RevocationEntry) (now : Z) : bool :=
  (re_timestamp e + rv_token_ttl s + rv_skew_margin s <? now)%Z.

(** [content.lines()]: what it does beyond splitting, dropping a carriage return
    before the line feed and an empty last piece, [parse_line] does too. *)
Definition content_lines (content : string) : list string := split_char line_feed content.

(** The loop of [load_from_content] and of [reload_from_file]: the entries that
    are new, in order, and the store. *)
Fixpoint ingest (s : RevocationFileStore) (now : Z) (lines : list string)
    : list RevocationEntry * RevocationFileStore :=
  match lines with
  | [] => ([], s)
  | line :: lines =>
      match parse_line line now with
      | None => ingest s now lines
      | Some e =>
          if is_expired s e now then ingest s now lines
          else if bool_decide (is_Some (rv_entries s !! re_token_id e)) then ingest s now lines
          else
            let '(new, s) := ingest (set_entries (<[re_token_id e := e]> (rv_entries s)) s) now lines in
            (e :: new, s)
      end
  end.

(** [RevocationStore::load_from_content]: how many were added. *)
Definition load_from_content (s : RevocationFileStore) (now : Z) (content : string)
    : nat * RevocationFileStore :=
  let '(new, s) := ingest s now (content_lines content) in (length new, s).

(** [RevocationStore::try_new]: [content] is the file, if it is there, or why it
    cannot be read; [in_runtime] says whether the caller runs inside an
    asynchronous runtime, where [RwLock::blocking_write] panics ([None]). *)
Definition try_new (in_runtime : bool) (content : option (Result string string)) (token_ttl now : Z)
    : option (Result RevocationFileStore string) :=
  match content with
  | None => Some (Ok (store_empty token_ttl))
  | Some (Err e) => Some (Err e)
  | Some (Ok content) =>
      if existsb (λ l, negb (is_empty (trim l))) (content_lines content) then
        if in_runtime then None
        else Some (Ok (snd (load_from_content (store_empty token_ttl) now content)))
      else Some (Ok (store_empty token_ttl))
  end.

(** The line of an entry, with its line feed. *)
Definition entry_line (id : TokenId) (timestamp : Z) (reason : string) : string :=
  id +:+ String tab (rfc3339_print timestamp +:+ String tab (reason +:+ String line_feed "")).

(** [RevocationStore::revoke]: the file afterwards. *)
Definition revoke_file (s : RevocationFileStore) (now : Z) (file : string) (id : TokenId)
    (reason : string) : string :=
  if bool_decide (is_Some (rv_entries s !! id)) then file
  else file +:+ entry_line id now reason.

(** [RevocationStore::is_revoked]. *)
Definition is_revoked (s : RevocationFileStore) (id : TokenId) : bool :=
  bool_decide (is_Some (rv_entries s !! id)).

Definition entry_le (a b : RevocationEntry) : Prop :=
  (re_timestamp a < re_timestamp b)%Z ∨
  (re_timestamp a = re_timestamp b ∧ str_le (re_token_id a) (re_token_id b)).
#[export] Instance entry_le_dec a b : Decision (entry_le a b).
Proof. unfold entry_le. apply _. Defined.

(** The entries still worth sending. *)
Definition live_entries (s : RevocationFileStore) (now : Z) : list RevocationEntry :=
  filter (λ e, is_expired s e now = false) (snd <$> map_to_list (rv_entries s)).

(** [RevocationStore::current_set]. *)
Definition current_set (s : RevocationFileStore) (now : Z) : list RevocationEntry :=
  merge_sort entry_le (live_entries s now).

(** [RevocationStore::reload_from_file]: a missing file changes nothing. *)
Definition reload_from_file (s : RevocationFileStore) (now : Z)
    (content : option (Result string string))
    : Result (list RevocationEntry) string * RevocationFileStore :=
  match content with
  | None => (Ok [], s)
  | Some (Err e) => (Err e, s)
  | Some (Ok content) =>
      let '(new, s) := ingest s now (content_lines content) in (Ok new, s)
  end.

(** [RevocationStore::compact_file]: the new file. *)
Definition compact_file (s : RevocationFileStore) (now : Z) : string :=
  concat_files
    (merge_sort str_le
       ((λ e, entry_line (re_token_id e) (re_timestamp e) (re_reason e)) <$> live_entries s now)).

(** ** Reading a file into memory *)

(** What the loop leaves: the first unexpired entry of each token not yet known,
    nothing else, and every unexpired token of the file. *)
Lemma ingest_spec s now lines new s' :
  ingest s now lines = (new, s') →
  rv_token_ttl s' = rv_token_ttl s ∧ rv_skew_margin s' = rv_skew_margin s ∧
  (∀ id e, rv_entries s' !! id = Some e ↔
     rv_entries s !! id = Some e ∨ (rv_entries s !! id = None ∧ e ∈ new ∧ re_token_id e = id)) ∧
  NoDup (re_token_id <$> new) ∧
  (∀ e, e ∈ new → rv_entries s !! re_token_id e = None ∧ is_expired s e now = false ∧
     e ∈ omap (λ l, parse_line l now) lines) ∧
  (∀ e, e ∈ omap (λ l, parse_line l now) lines → is_expired s e now = false →
     is_Some (rv_entries s' !! re_token_id e)).
Proof.
  revert s new s'. induction lines as [|line lines IH]; intros s new s'; simpl.
  { intros [= <- <-]. split_and!; try done; try set_solver. constructor. }
  destruct (parse_line line now) as [e0|]; [|by apply IH].
  destruct (is_expired s e0 now) eqn:He0.
  { intros (?&?&?&?&Hn&Hs)%IH. split_and!; try done.
    - intros e He. destruct (Hn e He) as (?&?&?). set_solver.
    - intros e [-> |He]%elem_of_cons; [congruence|auto]. }
  case_bool_decide as Hk.
  { intros (?&?&Hl&?&Hn&Hs)%IH. split_and!; try done.
    - intros e He. destruct (Hn e He) as (?&?&?). set_solver.
    - intros e [-> |He]%elem_of_cons; [|auto]. destruct Hk as [e1 Hk].
      exists e1. apply Hl. by left. }
  apply eq_None_not_Some in Hk.
  destruct (ingest _ now lines) as [new1 s1] eqn:Hi. intros [= <- <-].
  apply IH in Hi as (Ht&Hm&Hl&Hd&Hn&Hs). simpl in *.
  assert (Hexp : ∀ e, is_expired (set_entries (<[re_token_id e0:=e0]> (rv_entries s)) s) e now
                 = is_expired s e now) by done.
  split_and!; try done.
  - intros id e. rewrite Hl. destruct (decide (re_token_id e0 = id)) as [<- |Hid].
    + rewrite lookup_insert_eq, Hk. split.
      * intros [[= ->] |[? _]]; [|done]. right. split_and!; set_solver.
      * intros [?|(_&[-> |Hin]%elem_of_cons&Hid)]; [done|by left|].
        destruct (Hn e Hin) as [Hc _]. rewrite Hid, lookup_insert_eq in Hc. done.
    + rewrite lookup_insert_ne by done. set_solver.
  - apply NoDup_cons. split; [|done]. intros (e & Hid & He)%list_elem_of_fmap.
    destruct (Hn e He) as [Hc _]. rewrite <-Hid, lookup_insert_eq in Hc. done.
  - intros e [-> |He]%elem_of_cons; [set_solver|]. destruct (Hn e He) as (Hc&?&?).
    split_and!; [|done|set_solver]. by apply lookup_insert_None in Hc as [].
  - intros e [-> |He]%elem_of_cons Hexp'; [|auto]. exists e0. apply Hl. left. by apply lookup_insert_eq.
Qed.

(** ** Lines *)

Lemma graphic_not_ws a : graphic a = true → ws1 a = false ∧ ∀ b, ws2 a b = false ∧ ∀ c, ws3 a b c = false.
Proof. by destruct a as [[] [] [] [] [] [] [] []]. Qed.

Lemma trim_start_graphic a s : graphic a = true → trim_start (String a s) = String a s.
Proof.
  intros (H1 & H2)%graphic_not_ws. simpl. rewrite H1.
  destruct s as [|b s]; [done|]. destruct (H2 b) as [-> H3].
  destruct s as [|c s]; [done|]. by rewrite H3.
Qed.

Lemma trim_end_graphic p s : str_forallb graphic p = true → trim_end (p +:+ s) = p +:+ trim_end s.
Proof.
  induction p as [|a p IH]; simpl; [done|]. intros [Ha Hp]%andb_true_iff.
  change (String a (p +:+ s)) with (String a (p +:+ s)).
  pose proof (trim_start_graphic a (p +:+ s) Ha) as E. simpl in E.
  rewrite E, decide_False by done. by rewrite IH.
Qed.

Lemma trim_start_contains c s : contains_char c s = false → contains_char c (trim_start s) = false.
Proof.
  cut (∀ n s, (String.length s ≤ n)%nat → contains_char c s = false → contains_char c (trim_start s) = false);
    [by eauto|].
  clear s. induction n as [|n IH]; intros [|a s] Hn Hs; simpl in *; try done; try lia.
  apply orb_false_iff in Hs as [Ha Hs].
  assert (Hall : contains_char c (String a s) = false) by (simpl; by rewrite Ha).
  destruct (ws1 a); [apply IH; [lia|done]|].
  destruct s as [|b s]; [done|]. destruct (ws2 a b).
  { apply IH; simpl in *; [lia|]. by apply orb_false_iff in Hs as []. }
  destruct s as [|d s]; [done|]. destruct (ws3 a b d); [|done].
  apply IH; simpl in *; [lia|]. apply orb_false_iff in Hs as [_ Hs]. by apply orb_false_iff in Hs as [].
Qed.

Lemma trim_end_contains c s : contains_char c s = false → contains_char c (trim_end s) = false.
Proof.
  induction s as [|a s IH]; [done|]. intros Hs. cbn [trim_end].
  case_decide; [done|]. simpl in *. apply orb_false_iff in Hs as [-> Hs]. simpl. by apply IH.
Qed.

Lemma trim_contains c s : contains_char c s = false → contains_char c (trim s) = false.
Proof. intros. by apply trim_end_contains, trim_start_contains. Qed.

Lemma forallb_not_contains f c s : f c = false → str_forallb f s = true → contains_char c s = false.
Proof.
  intros Hc. induction s as [|a s IH]; [done|]. simpl. intros [Ha Hs]%andb_true_iff.
  rewrite IH by done. rewrite orb_false_r. apply bool_decide_eq_false. congruence.
Qed.

Lemma id_char_graphic a : id_char a = true → graphic a = true.
Proof. by destruct a as [[] [] [] [] [] [] [] []]. Qed.

Context {TFL : TokenIdLaws TF} {RFL : Rfc3339Laws RF}.

Lemma token_id_graphic id :
  valid_token_id id = true → id ≠ "" ∧ str_forallb graphic id = true.
Proof.
  intros [Hne Hid]%token_id_shape. split; [done|].
  eapply str_forallb_impl; [|done]. apply id_char_graphic.
Qed.

Lemma graphic_no_tab p : str_forallb graphic p = true → contains_char tab p = false.
Proof. by apply forallb_not_contains. Qed.

Lemma graphic_no_lf p : str_forallb graphic p = true → contains_char line_feed p = false.
Proof. by apply forallb_not_contains. Qed.

(** The body of a line. *)
Definition entry_body (id : TokenId) (timestamp : Z) (reason : string) : string :=
  id +:+ String tab (rfc3339_print timestamp +:+ String tab reason).

Lemma entry_line_body id t reason :
  entry_line id t reason = entry_body id t reason +:+ String line_feed "".
Proof.
  unfold entry_line, entry_body. rewrite <-str_app_assoc. simpl. by rewrite <-str_app_assoc.
Qed.

Lemma trim_entry_body id t reason :
  valid_token_id id = true →
  trim (entry_body id t reason) =
    id +:+ String tab (rfc3339_print t +:+ trim_end (String tab reason)).
Proof.
  intros [Hne Hid]%token_id_graphic. unfold trim, entry_body.
  destruct id as [|a id]; [done|]. pose proof Hid as Hid'. simpl in Hid'.
  apply andb_true_iff in Hid' as [Ha _].
  change (trim_start (String a id +:+ ?x)) with (trim_start (String a (id +:+ x))).
  rewrite trim_start_graphic by done.
  change (String a (id +:+ ?x)) with (String a id +:+ x).
  rewrite trim_end_graphic by done. f_equal.
  destruct (rfc3339_shape t) as [Hp Hg]. destruct (rfc3339_print t) as [|b p] eqn:E; [done|].
  pose proof Hg as Hb. simpl in Hb. apply andb_true_iff in Hb as [Hb _].
  rewrite <-(trim_end_graphic (String b p)) by done.
  change (trim_end (String tab (String b p +:+ String tab reason))) with
    (if decide (trim_start (String b (p +:+ String tab reason)) = "") then ""
     else String tab (trim_end (String b p +:+ String tab reason))).
  by rewrite trim_start_graphic, decide_False by done.
Qed.

(** A line a store writes names its token, at the recorded time or, with a blank
    reason, at the time of reading. *)
Lemma parse_entry_body id t reason fallback :
  valid_token_id id = true →
  ∃ e, parse_line (entry_body id t reason) fallback = Some e ∧ re_token_id e = id ∧
    (re_timestamp e = t ∨ re_timestamp e = fallback).
Proof.
  intros Hid. pose proof (token_id_graphic _ Hid) as [Hne Hg].
  unfold parse_line. rewrite trim_entry_body by done.
  assert (is_empty (id +:+ String tab (rfc3339_print t +:+ trim_end (String tab reason))) = false) as ->
    by by destruct id.
  rewrite split_once_app by by apply graphic_no_tab. rewrite Hid. cbn [negb].
  destruct (rfc3339_shape t) as [Hp Hpg]. pose proof (graphic_no_tab _ Hpg) as Htab.
  change (Some ?x ≫= split_once tab) with (split_once tab x).
  assert (trim_end (String tab reason) = "" ∨ trim_end (String tab reason) = String tab (trim_end reason))
    as [-> | ->] by (cbn [trim_end]; case_decide; auto).
  - rewrite str_app_nil_r, (proj2 (split_once_None _ _) Htab). eauto.
  - rewrite split_once_app by done. rewrite rfc3339_roundtrip. eauto.
Qed.

(** Whether a line names a token, and its reason, do not depend on the time of
    reading. *)
Lemma parse_line_fallback line fb fb' e :
  parse_line line fb = Some e →
  ∃ e', parse_line line fb' = Some e' ∧ re_token_id e' = re_token_id e ∧
    (re_timestamp e' = re_timestamp e ∨ (re_timestamp e = fb ∧ re_timestamp e' = fb')).
Proof.
  unfold parse_line. destruct (is_empty (trim line)); [done|].
  set (parts := match split_once tab (trim line) with Some _ => _ | None => _ end).
  destruct parts as [raw_id rest].
  destruct (negb (valid_token_id raw_id)); [done|]. intros [= <-].
  eexists. split; [done|]. destruct (rest ≫= split_once tab) as [[raw_ts reason]|]; simpl; [|auto].
  destruct (rfc3339_parse raw_ts); simpl; auto.
Qed.

(** An entry that came from a line of a file. *)
Definition entry_wf (e : RevocationEntry) : Prop :=
  valid_token_id (re_token_id e) = true ∧ contains_char line_feed (re_reason e) = false.

Lemma split_once_contains c d s l r :
  split_once c s = Some (l, r) → contains_char d s = false → contains_char d r = false.
Proof.
  intros [-> _]%split_once_Some. rewrite contains_char_app. intros [_ H]%orb_false_iff.
  simpl in H. by apply orb_false_iff in H as [].
Qed.

Lemma parse_line_wf line fb e :
  contains_char line_feed line = false → parse_line line fb = Some e → entry_wf e.
Proof.
  intros Hl. unfold parse_line. apply trim_contains in Hl. revert Hl.
  generalize (trim line). intros l Hl. destruct (is_empty l); [done|].
  set (parts := match split_once tab l with Some _ => _ | None => _ end).
  destruct parts as [raw_id rest] eqn:Hs. unfold parts in Hs.
  destruct (negb (valid_token_id raw_id)) eqn:Hid; [done|]. intros [= <-]. boolify.
  destruct (rest ≫= split_once tab) as [[raw_ts reason]|] eqn:Hr; [|by split].
  split; [done|]. simpl. destruct rest as [rest|]; [|done]. simpl in Hr.
  eapply split_once_contains; [exact Hr|].
  destruct (split_once tab l) as [[i r]|] eqn:Hs'; simplify_eq.
  by eapply split_once_contains.
Qed.

(** ** Files *)

Definition terminated (file : string) : Prop :=
  file = "" ∨ ∃ f, file = f +:+ String line_feed "".

Lemma content_lines_app_lf f g :
  content_lines (f +:+ String line_feed g) = (content_lines f ++ content_lines g)%list.
Proof.
  unfold content_lines. induction f as [|a f IH]; simpl; [done|].
  case_decide; rewrite IH; [done|].
  pose proof (split_char_ne line_feed f). by destruct (split_char line_feed f).
Qed.

(** The entries a file holds, read at [fb]. *)
Definition parsed (content : string) (fb : Z) : list RevocationEntry :=
  omap (λ l, parse_line l fb) (content_lines content).

Lemma parsed_app file g fb : terminated file → parsed (file +:+ g) fb = (parsed file fb ++ parsed g fb)%list.
Proof.
  intros [-> | [f ->]]; [done|]. unfold parsed. rewrite <-str_app_assoc. simpl.
  rewrite !content_lines_app_lf, !omap_app. simpl. by rewrite app_nil_r.
Qed.

Lemma entry_body_no_lf id t reason :
  valid_token_id id = true → contains_char line_feed reason = false →
  contains_char line_feed (entry_body id t reason) = false.
Proof.
  intros [_ Hid]%token_id_graphic Hr. unfold entry_body. destruct (rfc3339_shape t) as [_ Ht].
  rewrite contains_char_app, (graphic_no_lf _ Hid). simpl.
  by rewrite contains_char_app, (graphic_no_lf _ Ht).
Qed.

Lemma parsed_entry_line id t reason fb :
  valid_token_id id = true → contains_char line_feed reason = false →
  ∃ e, parsed (entry_line id t reason) fb = [e] ∧ re_token_id e = id ∧
    (re_timestamp e = t ∨ re_timestamp e = fb).
Proof.
  intros Hid Hr. destruct (parse_entry_body id t reason fb Hid) as (e & He & Hi & Ht).
  exists e. split; [|done]. unfold parsed. rewrite entry_line_body, content_lines_app_lf.
  unfold content_lines. rewrite split_char_single by by apply entry_body_no_lf.
  simpl. by rewrite He.
Qed.

Lemma entry_line_terminated id t reason : terminated (entry_line id t reason).
Proof. right. eexists. apply entry_line_body. Qed.

Lemma terminated_app file g : terminated file → terminated g → terminated (file +:+ g).
Proof.
  intros Hf [-> | [f ->]]; [by rewrite str_app_nil_r|]. right. exists (file +:+ f). apply str_app_assoc.
Qed.

Lemma concat_terminated ls : Forall terminated ls → terminated (concat_files ls).
Proof. induction 1; simpl; [by left|by apply terminated_app]. Qed.

Lemma parsed_concat ls fb :
  Forall terminated ls → parsed (concat_files ls) fb = ls ≫= λ l, parsed l fb.
Proof.
  induction 1 as [|l ls Hl Hls IH]; simpl; [done|]. rewrite parsed_app by done. by rewrite IH.
Qed.

Lemma parsed_wf content fb : Forall entry_wf (parsed content fb).
Proof.
  apply Forall_forall. intros e (l & Hl & He)%list_elem_of_omap.
  eapply parse_line_wf; [|exact He].
  pose proof (split_char_no_sep line_feed content) as Hs. rewrite Forall_forall in Hs. by apply Hs.
Qed.

Lemma parsed_fallback content fb fb' e :
  e ∈ parsed content fb →
  ∃ e', e' ∈ parsed content fb' ∧ re_token_id e' = re_token_id e ∧
    (re_timestamp e' = re_timestamp e ∨ (re_timestamp e = fb ∧ re_timestamp e' = fb')).
Proof.
  intros (l & Hl & He)%list_elem_of_omap.
  destruct (parse_line_fallback _ _ fb' _ He) as (e' & He' & Hrest).
  exists e'. split; [|done]. apply list_elem_of_omap. eauto.
Qed.

(** ** A deployment

    The revocation file, where a missing one is empty, and the memory of the
    running server; the command line works on the same file.  [rt] says whether
    the process opens its store inside an asynchronous runtime. *)
Record Deployment := { dp_file : string; dp_server : option RevocationFileStore }.

Inductive RevocationStep :=
  | StepRevoke (rt : bool) (now : Z) (id : TokenId) (reason : string)
  | StepCompact (rt : bool) (now : Z)
  | StepReload (now : Z)
  | StepRestart (rt : bool) (now : Z).

Definition step_time (st : RevocationStep) : Z :=
  match st with
  | StepRevoke _ now _ _ | StepCompact _ now | StepReload now | StepRestart _ now => now
  end.

Section Steps.
Variable ttl : Z.

Definition opened (rt : bool) (now : Z) (d : Deployment) : option RevocationFileStore :=
  match try_new rt (Some (Ok (dp_file d))) ttl now with Some (Ok s) => Some s | _ => None end.

(** [run_revoke], [run_compact], the watcher's task and a start of the server.
    A step that panics leaves the file alone. *)
Definition run_step (d : Deployment) (st : RevocationStep) : Deployment :=
  match st with
  | StepRevoke rt now id reason =>
      match opened rt now d with
      | Some s => {| dp_file := revoke_file s now (dp_file d) id reason; dp_server := dp_server d |}
      | None => d
      end
  | StepCompact rt now =>
      match opened rt now d with
      | Some s => {| dp_file := compact_file s now; dp_server := dp_server d |}
      | None => d
      end
  | StepReload now =>
      {| dp_file := dp_file d;
         dp_server := (λ s, snd (reload_from_file s now (Some (Ok (dp_file d))))) <$> dp_server d |}
  | StepRestart rt now => {| dp_file := dp_file d; dp_server := opened rt now d |}
  end.

Definition run_steps (d : Deployment) (sts : list RevocationStep) : Deployment := foldl run_step d sts.

(** Whether the step did its work. *)
Definition step_ok (d : Deployment) (st : RevocationStep) : bool :=
  match st with
  | StepRevoke rt now _ _ | StepCompact rt now | StepRestart rt now =>
      bool_decide (is_Some (opened rt now d))
  | StepReload _ => bool_decide (is_Some (dp_server d))
  end.

(** The command line takes a parsed token id and an argument without a line
    feed. *)
Definition step_input (st : RevocationStep) : Prop :=
  match st with
  | StepRevoke _ _ id reason => valid_token_id id = true ∧ contains_char line_feed reason = false
  | _ => True
  end.

Lemma ingest_blank s now lines :
  existsb (λ l, negb (is_empty (trim l))) lines = false → ingest s now lines = ([], s).
Proof.
  induction lines as [|l lines IH]; simpl; [done|]. intros [Hl Hs]%orb_false_iff.
  unfold parse_line. apply negb_false_iff in Hl. rewrite Hl. by apply IH.
Qed.

Lemma opened_load rt now d s :
  opened rt now d = Some s → s = snd (ingest (store_empty ttl) now (content_lines (dp_file d))).
Proof.
  unfold opened, try_new, load_from_content. destruct existsb eqn:E.
  - destruct rt; [done|]. destruct ingest. simpl. by intros [= <-].
  - rewrite ingest_blank by done. by intros [= <-].
Qed.

(** ** No revocation is lost while its token can still be used

    [lo] is the earliest time the token can have been issued, so that
    [lo + ttl] bounds its expiry. *)
Variables (lo : Z) (id : TokenId).

Definition in_time (now : Z) : Prop := (lo ≤ now ≤ lo + ttl + REVOCATION_SET_SKEW_MARGIN)%Z.

Record store_ok (s : RevocationFileStore) : Prop := {
  so_ttl : rv_token_ttl s = ttl;
  so_margin : rv_skew_margin s = REVOCATION_SET_SKEW_MARGIN;
  so_entries : ∀ k e, rv_entries s !! k = Some e →
    re_token_id e = k ∧ entry_wf e ∧ (k = id → (lo ≤ re_timestamp e)%Z);
}.

Record file_ok (file : string) : Prop := {
  fo_terminated : terminated file;
  fo_recent : ∀ fb e, (lo ≤ fb)%Z → e ∈ parsed file fb → re_token_id e = id → (lo ≤ re_timestamp e)%Z;
}.

Definition recorded (file : string) : Prop := ∃ fb e, e ∈ parsed file fb ∧ re_token_id e = id.
Definition held (s : RevocationFileStore) : Prop := is_Some (rv_entries s !! id).

Lemma store_empty_ok : store_ok (store_empty ttl).
Proof. by split. Qed.

Lemma recent_unexpired s e now :
  store_ok s → in_time now → (lo ≤ re_timestamp e)%Z → is_expired s e now = false.
Proof.
  intros [Ht Hm _] [? ?] ?. unfold is_expired. rewrite Ht, Hm. apply Z.ltb_ge. lia.
Qed.

Lemma ingest_ok s now file new s' :
  ingest s now (content_lines file) = (new, s') →
  store_ok s → file_ok file → (lo ≤ now)%Z → store_ok s'.
Proof.
  intros (Ht&Hm&Hl&_&Hn&_)%ingest_spec [Ht0 Hm0 He0] [_ Hf] Hnow.
  split; [congruence|congruence|]. intros k e [Hk|(_&Hin&Hk)]%Hl; [by apply He0|].
  destruct (Hn e Hin) as (_&_&Hp). split_and!; [done| |].
  - pose proof (parsed_wf file now) as Hw. rewrite Forall_forall in Hw. by apply Hw.
  - intros ->. by eapply Hf.
Qed.

Lemma ingest_held s now file new s' :
  ingest s now (content_lines file) = (new, s') →
  store_ok s → file_ok file → in_time now → recorded file ∨ held s → held s'.
Proof.
  intros Hi%ingest_spec Hs Hf Hnow [(fb & e & He & Hid)|[e He]];
    destruct Hi as (_&_&Hl&_&_&Hall).
  - destruct (parsed_fallback _ _ now _ He) as (e' & He' & Hid' & _).
    unfold held. replace id with (re_token_id e') by congruence. apply Hall; [done|].
    apply recent_unexpired; [done|done|]. eapply Hf; [|exact He'|congruence]. apply Hnow.
  - exists e. apply Hl. by left.
Qed.

Lemma compact_lines_terminated s now :
  Forall terminated
    (merge_sort str_le
       ((λ e, entry_line (re_token_id e) (re_timestamp e) (re_reason e)) <$> live_entries s now)).
Proof.
  apply Forall_forall. intros l. rewrite merge_sort_Permutation.
  intros (e & -> & _)%list_elem_of_fmap. apply entry_line_terminated.
Qed.

(** What a compacted file holds is what is live in memory. *)
Lemma compact_parsed s now fb e' :
  store_ok s → e' ∈ parsed (compact_file s now) fb →
  ∃ k e, rv_entries s !! k = Some e ∧ is_expired s e now = false ∧ re_token_id e' = k ∧
    (re_timestamp e' = re_timestamp e ∨ re_timestamp e' = fb).
Proof.
  intros [_ _ Hs]. unfold compact_file. rewrite parsed_concat by apply compact_lines_terminated.
  intros (l & He' & Hl)%list_elem_of_bind. rewrite merge_sort_Permutation in Hl.
  apply list_elem_of_fmap in Hl as (e & -> & [Hexp He]%list_elem_of_filter).
  apply list_elem_of_fmap in He as ([k e1] & -> & Hk%elem_of_map_to_list). simpl in *.
  destruct (Hs _ _ Hk) as (Hid & [Hv Hr] & _).
  destruct (parsed_entry_line (re_token_id e1) (re_timestamp e1) (re_reason e1) fb Hv Hr)
    as (e2 & Hp & Hid2 & Hts).
  rewrite Hp in He'. apply list_elem_of_singleton in He' as ->.
  exists k, e1. split_and!; [done..|congruence|done].
Qed.

Lemma compact_recorded s now k e :
  store_ok s → rv_entries s !! k = Some e → is_expired s e now = false →
  ∃ e', e' ∈ parsed (compact_file s now) now ∧ re_token_id e' = k.
Proof.
  intros [_ _ Hs] Hk Hexp. destruct (Hs _ _ Hk) as (Hid & [Hv Hr] & _).
  destruct (parsed_entry_line (re_token_id e) (re_timestamp e) (re_reason e) now Hv Hr)
    as (e2 & Hp & Hid2 & Hts).
  exists e2. split; [|congruence]. unfold compact_file. rewrite parsed_concat by apply compact_lines_terminated.
  apply list_elem_of_bind. eexists. split; [rewrite Hp; by apply list_elem_of_singleton|].
  rewrite merge_sort_Permutation. apply list_elem_of_fmap. exists e. split; [done|].
  apply list_elem_of_filter. split; [done|]. apply list_elem_of_fmap. exists (k, e).
  split; [done|]. by apply elem_of_map_to_list.
Qed.

Lemma compact_ok s now : store_ok s → file_ok (compact_file s now).
Proof.
  intros Hs. split.
  - apply concat_terminated, compact_lines_terminated.
  - intros fb e' Hfb He' Hid. destruct (compact_parsed _ _ _ _ Hs He') as (k & e & Hk & _ & Hke & Ht).
    destruct (so_entries _ Hs _ _ Hk) as (_ & _ & Hlo). specialize (Hlo ltac:(congruence)).
    destruct Ht as [-> | ->]; lia.
Qed.

Lemma revoke_ok s now file k reason :
  file_ok file → (lo ≤ now)%Z → valid_token_id k = true → contains_char line_feed reason = false →
  file_ok (revoke_file s now file k reason).
Proof.
  intros [Ht Hf] Hnow Hv Hr. unfold revoke_file. case_bool_decide; [by split|]. split.
  - apply terminated_app; [done|]. apply entry_line_terminated.
  - intros fb e Hfb. rewrite parsed_app by done.
    destruct (parsed_entry_line k now reason fb Hv Hr) as (e2 & -> & _ & Hts).
    intros [He| ->%list_elem_of_singleton]%elem_of_app Hid; [by eapply Hf|].
    destruct Hts as [-> | ->]; lia.
Qed.

Lemma revoke_recorded s now file k reason :
  terminated file → valid_token_id k = true → contains_char line_feed reason = false →
  (recorded file → recorded (revoke_file s now file k reason)) ∧
  (k = id → rv_entries s !! id = None → recorded (revoke_file s now file k reason)).
Proof.
  intros Ht Hv Hr. unfold revoke_file. case_bool_decide as Hk.
  - split; [done|]. intros -> Hn. rewrite Hn in Hk. by apply is_Some_None in Hk.
  - split.
    + intros (fb & e & He & Hid). exists fb, e. split; [|done]. rewrite parsed_app by done. set_solver.
    + intros Hkid _. destruct (parsed_entry_line k now reason now Hv Hr) as (e2 & Hp & Hid & _).
      exists now, e2. split; [|congruence]. rewrite parsed_app, Hp by done. set_solver.
Qed.

Record deployment_ok (d : Deployment) : Prop := {
  do_file : file_ok (dp_file d);
  do_server : ∀ s, dp_server d = Some s → store_ok s;
}.

Lemma opened_ok rt now d s :
  opened rt now d = Some s → deployment_ok d → in_time now →
  store_ok s ∧ (recorded (dp_file d) ↔ held s).
Proof.
  intros ->%opened_load [Hf _] Hnow. pose proof store_empty_ok as He.
  destruct (ingest (store_empty ttl) now (content_lines (dp_file d))) as [new s] eqn:Hi. simpl.
  split; [|split].
  - eapply ingest_ok; [done..|apply Hnow].
  - intros Hr. eapply ingest_held; eauto.
  - intros [e Hk]. apply ingest_spec in Hi as (_&_&Hl&_&Hn&_). apply Hl in Hk as [Hk|(_&Hin&Hid)].
    + done.
    + exists now, e. split; [by apply Hn|done].
Qed.

Lemma reload_ok d s now :
  deployment_ok d → dp_server d = Some s → in_time now →
  store_ok (snd (reload_from_file s now (Some (Ok (dp_file d))))) ∧
  (recorded (dp_file d) ∨ held s → held (snd (reload_from_file s now (Some (Ok (dp_file d)))))).
Proof.
  intros [Hf Hs] Hd Hnow. specialize (Hs _ Hd). simpl.
  destruct (ingest s now (content_lines (dp_file d))) as [new s'] eqn:Hi. simpl.
  split; [eapply ingest_ok; [done..|apply Hnow]|]. intros Hr. by eapply ingest_held.
Qed.

Lemma run_step_ok d st :
  deployment_ok d → in_time (step_time st) → step_input st → deployment_ok (run_step d st).
Proof.
  intros Hd Hnow Hin. pose proof Hd as [Hf Hs].
  destruct st as [rt now k reason|rt now|now|rt now]; simpl in *.
  - destruct opened as [s|] eqn:Ho; [|done]. split; [|done]. simpl.
    destruct Hin. by apply revoke_ok; [|apply Hnow|..].
  - destruct opened as [s|] eqn:Ho; [|done]. split; [|done]. simpl.
    apply compact_ok. by eapply opened_ok.
  - split; [done|]. simpl. intros s (s0 & Hs0 & ->)%fmap_Some_1. by eapply reload_ok.
  - split; [done|]. simpl. intros s Ho. by eapply opened_ok.
Qed.

Lemma run_step_recorded d st :
  deployment_ok d → in_time (step_time st) → step_input st →
  recorded (dp_file d) → recorded (dp_file (run_step d st)).
Proof.
  intros Hd Hnow Hin Hr. destruct st as [rt now k reason|rt now|now|rt now]; simpl in *; try done.
  - destruct opened as [s|] eqn:Ho; [|done]. simpl. destruct Hin as [Hv Hf].
    by apply (proj1 (revoke_recorded s now (dp_file d) k reason (fo_terminated _ (do_file _ Hd)) Hv Hf)).
  - destruct opened as [s|] eqn:Ho; [|done]. simpl.
    destruct (opened_ok _ _ _ _ Ho Hd Hnow) as [Hs Hh]. destruct (proj1 Hh Hr) as [e He].
    destruct (compact_recorded s now id e Hs He) as (e' & He' & Hid); [|by exists now, e'].
    apply recent_unexpired; [done..|]. by apply (so_entries _ Hs _ _ He).
Qed.

(** A recorded revocation is in the memory of any server that reads the file
    afterwards, and stays there. *)
Lemma run_step_held d st :
  deployment_ok d → in_time (step_time st) → recorded (dp_file d) →
  match st with StepReload _ | StepRestart _ _ => True | _ => ∀ s, dp_server d = Some s → held s end →
  ∀ s, dp_server (run_step d st) = Some s → held s.
Proof.
  intros Hd Hnow Hr Hh s. destruct st as [rt now k reason|rt now|now|rt now]; simpl in *.
  - destruct opened; apply Hh.
  - destruct opened; apply Hh.
  - intros (s0 & Hs0 & ->)%fmap_Some_1. eapply reload_ok; [done..|by left].
  - intros Ho. by eapply opened_ok.
Qed.

Definition steps_ok (sts : list RevocationStep) : Prop :=
  Forall (λ st, in_time (step_time st) ∧ step_input st) sts.

Lemma run_steps_app d sts sts' : run_steps d (sts ++ sts') = run_steps (run_steps d sts) sts'.
Proof. apply foldl_app. Qed.

Lemma run_steps_cons d st sts : run_steps d (st :: sts) = run_steps (run_step d st) sts.
Proof. done. Qed.

Lemma run_steps_ok sts d : deployment_ok d → steps_ok sts → deployment_ok (run_steps d sts).
Proof.
  unfold run_steps. revert d. induction sts as [|st sts IH]; intros d Hd Hs; [done|].
  apply Forall_cons in Hs as [[Ht Hi] Hs]. simpl. apply IH; [|done]. by apply run_step_ok.
Qed.

Lemma run_steps_recorded sts d :
  deployment_ok d → steps_ok sts → recorded (dp_file d) → recorded (dp_file (run_steps d sts)).
Proof.
  unfold run_steps. revert d. induction sts as [|st sts IH]; intros d Hd Hs Hr; [done|].
  apply Forall_cons in Hs as [[Ht Hi] Hs]. simpl.
  apply IH; [by apply run_step_ok|done|by apply run_step_recorded].
Qed.

Lemma run_steps_held sts d :
  deployment_ok d → steps_ok sts → recorded (dp_file d) → (∀ s, dp_server d = Some s → held s) →
  ∀ s, dp_server (run_steps d sts) = Some s → held s.
Proof.
  unfold run_steps. revert d. induction sts as [|st sts IH]; intros d Hd Hs Hr Hh; [done|].
  apply Forall_cons in Hs as [[Ht Hi] Hs]. simpl.
  apply IH; [by apply run_step_ok|done|by apply run_step_recorded|].
  apply run_step_held; [done..|by destruct st].
Qed.

Lemma revoke_step_recorded d rt now reason :
  deployment_ok d → in_time now → step_input (StepRevoke rt now id reason) →
  step_ok d (StepRevoke rt now id reason) = true →
  recorded (dp_file (run_step d (StepRevoke rt now id reason))).
Proof.
  simpl. intros Hd Hnow [Hv Hr] [s Ho]%bool_decide_eq_true. rewrite Ho. simpl.
  destruct (opened_ok _ _ _ _ Ho Hd Hnow) as [Hs Hh].
  destruct (revoke_recorded s now (dp_file d) id reason (fo_terminated _ (do_file _ Hd)) Hv Hr) as [H1 H2].
  destruct (rv_entries s !! id) eqn:Hk; [|by apply H2]. apply H1, Hh. by exists r.
Qed.

Lemma held_delivered s now :
  store_ok s → held s → in_time now → ∃ e, e ∈ current_set s now ∧ re_token_id e = id.
Proof.
  intros Hs [e He] Hnow. destruct (so_entries _ Hs _ _ He) as (Hid & _ & Hlo). exists e. split; [|done].
  unfold current_set. rewrite merge_sort_Permutation. apply list_elem_of_filter. split.
  - apply recent_unexpired; [done..|by apply Hlo].
  - apply list_elem_of_fmap. exists (id, e). split; [done|]. by apply elem_of_map_to_list.
Qed.

Definition delivered_after (d : Deployment) (now : Z) : Prop :=
  ∀ s, dp_server d = Some s → ∃ e, e ∈ current_set s now ∧ re_token_id e = id.

(** Whatever the order of revocations, compactions, reloads and restarts,
    once the revocation of a token has been written and the server has read the
    file since, every set the server delivers names the token, for as long as
    the token can be valid on a clock within the skew margin.  [lo] bounds the
    token's issuance, so its expiry is at most [lo + ttl]; the file starts
    empty or with a complete last line, and mentions the token at no earlier
    time; every step happens after [lo].  A step that panics because it opens a
    store inside a runtime counts as not done. *)
Theorem revocation_delivered d rt t reason pre mid refresh post now :
  terminated (dp_file d) → dp_server d = None →
  (∀ fb e, e ∈ parsed (dp_file d) fb → re_token_id e ≠ id) →
  steps_ok (pre ++ StepRevoke rt t id reason :: mid ++ refresh :: post) →
  step_ok (run_steps d pre) (StepRevoke rt t id reason) = true →
  match refresh with StepReload _ | StepRestart _ _ => True | _ => False end →
  in_time now →
  delivered_after (run_steps d (pre ++ StepRevoke rt t id reason :: mid ++ refresh :: post)) now.
Proof.
  intros Hterm Hsrv Hnew Hs Hok Href Hnow.
  assert (Hd : deployment_ok d).
  { split; [split; [done|]|by rewrite Hsrv]. intros fb e _ He Hid. by destruct (Hnew fb e He). }
  unfold steps_ok in Hs. rewrite Forall_app, Forall_cons, Forall_app, Forall_cons in Hs.
  destruct Hs as (Hpre & [Ht Hi] & Hmid & [Htr Hir] & Hpost).
  rewrite run_steps_app, run_steps_cons, run_steps_app, run_steps_cons.
  set (d1 := run_step (run_steps d pre) (StepRevoke rt t id reason)).
  assert (Hd0 : deployment_ok (run_steps d pre)) by by apply run_steps_ok.
  assert (Hd1 : deployment_ok d1) by by apply run_step_ok.
  assert (Hr1 : recorded (dp_file d1)) by by apply revoke_step_recorded.
  pose proof (run_steps_ok _ _ Hd1 Hmid) as Hd2.
  pose proof (run_steps_recorded _ _ Hd1 Hmid Hr1) as Hr2.
  pose proof (run_step_ok _ _ Hd2 Htr Hir) as Hd3.
  pose proof (run_step_recorded _ _ Hd2 Htr Hir Hr2) as Hr3.
  intros s Hs5.
  apply held_delivered; [by eapply (do_server _ (run_steps_ok _ _ Hd3 Hpost))| |done].
  eapply run_steps_held; [exact Hd3|exact Hpost|exact Hr3| |exact Hs5].
  apply run_step_held; [done..|by destruct refresh].
Qed.

(** A process that opens its store inside a runtime panics as soon as the file
    holds a revocation. *)
Lemma recorded_panics file now :
  recorded file → try_new true (Some (Ok file)) ttl now = None.
Proof.
  intros (fb & e & (l & Hl & He)%list_elem_of_omap & _). unfold try_new.
  assert (existsb (λ l, negb (is_empty (trim l))) (content_lines file) = true) as ->; [|done].
  apply existsb_exists. exists l. split; [by apply list_elem_of_In|].
  unfold parse_line in He. by destruct (is_empty (trim l)).
Qed.

End Steps.

(** ** What subscribers see *)

#[local] Instance entry_le_total : Total entry_le.
Proof.
  intros a b. unfold entry_le, str_le.
  destruct (Z.lt_trichotomy (re_timestamp a) (re_timestamp b)) as [?|[Ht|?]]; auto.
  destruct (total String.le (re_token_id a) (re_token_id b)) as [H|H]; [left|right]; right;
    (split; [congruence|by apply Is_true_true]).
Qed.

(** The delivered set: every entry in memory that has not expired, once, oldest
    first. *)
Lemma current_set_exact s now :
  Sorted entry_le (current_set s now) ∧
  current_set s now ≡ₚ filter (λ e, is_expired s e now = false) (snd <$> map_to_list (rv_entries s)).
Proof. split; [apply Sorted_merge_sort; apply _|apply merge_sort_Permutation]. Qed.

(** A reload signals subscribers exactly when it changed what memory holds; what
    it returns is what it added. *)
Lemma reload_signals s now content new s' :
  reload_from_file s now (Some (Ok content)) = (Ok new, s') →
  (new = [] ↔ rv_entries s' = rv_entries s) ∧
  (∀ e, e ∈ new → rv_entries s !! re_token_id e = None ∧ rv_entries s' !! re_token_id e = Some e).
Proof.
  simpl. destruct ingest as [new0 s0] eqn:Hi. intros [= <- <-].
  apply ingest_spec in Hi as (_&_&Hl&_&Hn&_).
  assert (Hadd : ∀ e, e ∈ new0 → rv_entries s !! re_token_id e = None ∧ rv_entries s0 !! re_token_id e = Some e).
  { intros e He. destruct (Hn e He) as [Hnone _]. split; [done|]. apply Hl. by right. }
  split; [|done]. split.
  - intros ->. apply map_eq. intros i. apply option_eq. intros e. rewrite Hl. set_solver.
  - intros Heq. destruct new0 as [|e new0]; [done|]. destruct (Hadd e) as [H1 H2]; [set_solver|].
    congruence.
Qed.

End Store.

(** ** Samples *)
Module Samples.

(** Identifiers of a fixed length, as the code's are. *)
#[local] Instance ctok_format : TokenIdFormat :=
  λ s, starts_with "ctok_" s && (String.length s =? 9)%nat && str_forallb id_char s.
#[local] Instance ctok_laws : TokenIdLaws ctok_format.
Proof.
  split. intros s H. unfold valid_token_id, ctok_format in H. apply andb_true_iff in H as [H1 H2].
  split; [|done]. by intros ->.
Qed.

(** The binary digits of a time stand for its text. *)
Fixpoint time_bits (p : positive) : string :=
  match p with
  | xH => "."
  | xO p => String "0"%char (time_bits p)
  | xI p => String "1"%char (time_bits p)
  end.

Fixpoint time_unbits (s : string) : option positive :=
  match s with
  | "" => None
  | String c s =>
      if decide (c = "."%char) then Some xH
      else if decide (c = "0"%char) then xO <$> time_unbits s
      else xI <$> time_unbits s
  end.

#[local] Instance bit_time : Rfc3339 := {|
  rfc3339_print t :=
    match t with Z0 => "z" | Zpos p => String "p"%char (time_bits p) | Zneg p => String "n"%char (time_bits p) end;
  rfc3339_parse s :=
    match s with
    | String c s =>
        if decide (c = "z"%char) then Some Z0
        else if decide (c = "p"%char) then Zpos <$> time_unbits s
        else if decide (c = "n"%char) then Zneg <$> time_unbits s
        else None
    | "" => None
    end;
|}.

Lemma time_unbits_bits p : time_unbits (time_bits p) = Some p.
Proof. induction p as [p IH|p IH|]; simpl; [by rewrite IH..|done]. Qed.

Lemma time_bits_graphic p : str_forallb graphic (time_bits p) = true.
Proof. by induction p. Qed.

#[local] Instance bit_time_laws : Rfc3339Laws bit_time.
Proof.
  split.
  - intros [|p|p]; simpl; [done|by rewrite time_unbits_bits..].
  - intros [|p|p]; split; try done; apply time_bits_graphic.
Qed.

Definition ttl : Z := 3600 * nanos_per_sec.
Definition at_second (n : Z) : Z := n * nanos_per_sec.
Definition leaked : TokenId := "ctok_7b2e".
Definition other : TokenId := "ctok_0a9c".

(** The server started before, a bare hand-written line in the file, the command
    line compacting and the server reloading. *)
Definition start : Deployment := {| dp_file := other +:+ String line_feed ""; dp_server := None |}.

Definition before : list RevocationStep := [StepRestart false (at_second 5)].
Definition between : list RevocationStep := [StepCompact false (at_second 30)].
Definition after : list RevocationStep := [StepRevoke false (at_second 50) "ctok_f00d" "x"].
Definition revoke_leaked : RevocationStep := StepRevoke false (at_second 20) leaked "leaked in a log".

Definition all_steps : list RevocationStep :=
  before ++ revoke_leaked :: between ++ StepReload (at_second 40) :: after.

Definition final : Deployment := run_steps ttl start all_steps.

Lemma start_without_leaked fb e : e ∈ parsed (dp_file start) fb → re_token_id e ≠ leaked.
Proof.
  intros He. assert (Hp : re_token_id <$> parsed (dp_file start) fb = [other]) by (vm_compute; reflexivity).
  apply (list_elem_of_fmap_2 re_token_id) in He. rewrite Hp in He.
  apply list_elem_of_singleton in He. rewrite He. discriminate.
Qed.

Lemma revocation_delivered_witness :
  match dp_server final with
  | Some s => ∃ e, e ∈ current_set s (at_second 3800) ∧ re_token_id e = leaked
  | None => False
  end.
Proof.
  assert (Hs : match dp_server final with Some _ => True | None => False end) by (vm_compute; exact I).
  destruct (dp_server final) as [s|] eqn:E; [|destruct Hs].
  refine (revocation_delivered ttl 0 leaked start false (at_second 20) "leaked in a log" before between
            (StepReload (at_second 40)) after (at_second 3800) _ _ start_without_leaked _ _ I _ s E).
  - right. exists other. reflexivity.
  - reflexivity.
  - unfold steps_ok. repeat constructor; vm_compute; discriminate.
  - vm_compute. reflexivity.
  - split; vm_compute; discriminate.
Defined.

(** A hand-written last line without a line feed and the line [revoke] appends
    become one line that names neither token. *)
Lemma unterminated_line_loses_both :
  parsed (revoke_file (store_empty ttl) (at_second 20) other leaked "leaked in a log") (at_second 30) = [].
Proof. vm_compute. reflexivity. Qed.

(** A compaction drops what another process appended after it read the file. *)
Lemma compaction_races_revoke :
  let file := entry_line other (at_second 10) "old" in
  let compacting := snd (load_from_content (store_empty ttl) (at_second 20) file) in
  let file' := revoke_file compacting (at_second 21) file leaked "leaked in a log" in
  (re_token_id <$> parsed file' (at_second 22)) = [other; leaked] ∧
  (re_token_id <$> parsed (compact_file compacting (at_second 22)) (at_second 22)) = [other].
Proof. vm_compute. split; reflexivity. Qed.

(** The first revocation makes the server's next start, inside its runtime,
    panic. *)
Lemma server_cannot_restart :
  let d := run_step ttl {| dp_file := ""; dp_server := None |}
             (StepRevoke true (at_second 20) leaked "leaked in a log") in
  recorded leaked (dp_file d) ∧ dp_server (run_step ttl d (StepRestart true (at_second 30))) = None.
Proof.
  split; [|vm_compute; reflexivity].
  exists (at_second 30), {| re_token_id := leaked; re_reason := "leaked in a log"; re_timestamp := at_second 20 |}.
  split; [vm_compute; left|reflexivity].
Qed.

End Samples.
