(* ===== verification/AuthorityClient.v ===== *)
(** * The Authority client ([authority_client])

    The background tasks that keep a sidecar's policy and revocations current:
    the policy stream ([policy_bundle/mod.rs], [policy_bundle/mappings.rs]), the
    revocation stream ([revocation.rs]), the freshness watcher
    ([freshness.rs]), the end of a rejected run ([run_rejection.rs]) and the
    reconnect delays ([backoff.rs]).

    The tasks share the readiness flags, the published generation, the
    revocation store, the shutdown token and a [Notify].  A task is its phase:
    where it waits next.  One step runs one task from one wait to the next,
    except that a publication is three steps, because the watcher can run
    between the swap, the readiness flag and the notification.  Steps of
    different tasks interleave in any order; a step carries the clock reading
    and what the task was waiting for. *)

From S2P Require Import Prelude RustStr ActionClasses Core Mapping MappingGlob Redaction MappingTable Decision Json.
From S2P Require Import Normalizer Revocation Session Cedar Constraint Runtime Composio AuthorityRevocation.

#[local] Open Scope string_scope.

(** ** Reconnect delays ([backoff.rs]); durations in nanoseconds *)

Record ExponentialBackoff := { bo_min : Z; bo_max : Z; bo_current : Z }.

Definition backoff_new (min max : Z) : ExponentialBackoff :=
  {| bo_min := min; bo_max := Z.max max min; bo_current := min |}.

(** [next]; [jitter] is [Duration::mul_f64] by the drawn factor. *)
Definition backoff_next (jitter : Z → Z) (b : ExponentialBackoff) : Z * ExponentialBackoff :=
  let base := Z.min (bo_current b) (bo_max b) in
  let delay := Z.min (jitter base) (bo_max b) in
  (delay, {| bo_min := bo_min b; bo_max := bo_max b; bo_current := Z.min (base * 2) (bo_max b) |}).

Definition backoff_reset (b : ExponentialBackoff) : ExponentialBackoff :=
  {| bo_min := bo_min b; bo_max := bo_max b; bo_current := bo_min b |}.

(** ** Messages *)

Record ProtoMappingRule := {
  pm_method : option string;
  pm_host : string;
  pm_path : option string;
  pm_action_class : string;
}.

Record ActionMappingSnapshot := {
  ms_format_version : Z;
  ms_default_protected : bool;
  ms_rules : list ProtoMappingRule;
}.

(** The wire form of a policy bundle. *)
Record ProtoBundle := {
  wb_version : string;
  wb_policies : string;
  wb_entity_schema : string;
  wb_ttl_seconds : Z;
  wb_mappings : option ActionMappingSnapshot;
}.

(** A [tonic::Status], by its code. *)
Definition Code := Z.
Definition UNAUTHENTICATED : Code := 16%Z.

Inductive SidecarCredential := PreSharedKey | RuntimeBearer.

#[export] Instance sidecar_credential_eq_dec : EqDecision SidecarCredential.
Proof. solve_decision. Defined.

(** [rejects_run]. *)
Definition rejects_run (status : Code) (credentials : option SidecarCredential) : bool :=
  (status =? UNAUTHENTICATED)%Z && bool_decide (credentials = Some RuntimeBearer).

(** ** Admission of the mapping snapshot ([policy_bundle/mappings.rs]) *)

(** [str::parse::<http::Method>]: a method is its token. *)
Class MethodParse := method_parse : string → option Method.

Definition MAX_SNAPSHOT_RULES : Z := 10000.

(** [describe]. *)
Definition describe_rejection (e : MappingTableError) : string :=
  match e with
  | InvalidRulesFile detail => "mapping " +:+ detail
  | DuplicateRule index _ => "mapping rule " +:+ pretty index +:+ ": duplicate matcher"
  | NonExistingActionClass index _ => "mapping rule " +:+ pretty index +:+ ": unknown action class"
  end.

Section Compile.
Context {MP : MethodParse}.

Definition snapshot_rule (index : nat) (r : ProtoMappingRule) : Result MappingRuleConfig string :=
  let? method :=
    match pm_method r with
    | None => Ok None
    | Some m =>
        match method_parse m with
        | Some m => Ok (Some m)
        | None => Err ("mapping rule " +:+ pretty index +:+ ": invalid method")
        end
    end in
  Ok {| cfg_method := method; cfg_host := pm_host r; cfg_path := pm_path r;
        cfg_action_class := pm_action_class r |}.

Fixpoint snapshot_rules (index : nat) (rs : list ProtoMappingRule) : Result (list MappingRuleConfig) string :=
  match rs with
  | [] => Ok []
  | r :: rs =>
      let? c := snapshot_rule index r in
      let? cs := snapshot_rules (S index) rs in
      Ok (c :: cs)
  end.

(** [mappings::compile]. *)
Definition mappings_compile (snapshot : option ActionMappingSnapshot) : Result MappingTable string :=
  match snapshot with
  | None => Err "managed policy bundle requires an action mapping snapshot"
  | Some s =>
      if negb (ms_format_version s =? 1)%Z || negb (ms_default_protected s) then
        Err "mapping snapshot requires format version 1 and default_protected=true"
      else if (MAX_SNAPSHOT_RULES <? Z.of_nat (length (ms_rules s)))%Z then
        Err "mapping snapshot exceeds 10000 rules"
      else
        match ms_rules s with
        | [] => Ok empty_protected
        | rs =>
            let? configs := snapshot_rules 0 rs in
            map_err describe_rejection (from_managed_rules configs)
        end
  end.

End Compile.

(** ** Admission of a bundle ([policy_bundle/mod.rs]) *)

Definition MAX_VERSION_BYTES : nat := 256.

(** [is_valid_version]. *)
Definition is_valid_version (version : string) : bool :=
  negb (is_empty version) && (String.length version <=? MAX_VERSION_BYTES)%nat &&
  str_forallb graphic version.

(** The [BundleParser] trait; [now] is the instant the evaluator records. *)
Class BundleParser (P : Type) :=
  bundle_parse : Z → string → string → Z → string → Result P string.

(** [CedarBundleParser]. *)
#[export] Instance cedar_bundle_parser {HC : HttpCrate} {CC : CedarCrate} {UE : Utf8ErrorText}
    : BundleParser CedarPolicyEvaluator :=
  λ now policies entity_schema ttl_seconds version,
    map_err evaluator_error_display
      (from_bundle now (policy_bundle_new version policies entity_schema ttl_seconds)).

(** [canonical_rule_host_pattern] and [mapping_hosts_reference_composio]
    ([startup/pipeline.rs]). *)
Definition canonical_rule_host_pattern (host : string) : string :=
  let canonical := canonical_host host in
  match rsplit_once ":"%char canonical with
  | Some (name, port) =>
      if negb (is_empty name) && negb (is_empty port) &&
         str_forallb (λ b, is_ascii_digit b || bool_decide (b = "*"%char)) port
      then name else canonical
  | None => canonical
  end.

Definition mapping_hosts_reference_composio (hosts : list string) : bool :=
  existsb (λ host, let pattern := canonical_rule_host_pattern host in
                   existsb (glob_match pattern) PROTECTED_HOSTS) hosts.

(** What is written for status readers ([enforcement_publisher.rs]). *)
Record EnforcementState := {
  es_version : string;
  es_ttl_seconds : Z;
  es_swapped_at : string;
  es_expires_at : string;
}.

Definition swapped_now `{!Rfc3339} (wall : Z) (version : string) (ttl_seconds : Z) : EnforcementState :=
  {| es_version := version; es_ttl_seconds := ttl_seconds; es_swapped_at := rfc3339_print wall;
     es_expires_at := rfc3339_print (wall + ttl_seconds * nanos_per_sec) |}.

(** ** The tasks *)

(** The policy task: connecting, on the stream, having swapped or marked a
    generation, about to exit a rejected run, waiting to reconnect, stopped. *)
Inductive PolicyPhase :=
  | PolicyConnect
  | PolicyStream
  | PolicyMark (version : string) (ttl_seconds : Z)
  | PolicyNotify (version : string) (ttl_seconds : Z)
  | PolicyReject
  | PolicyWait (until : Z)
  | PolicyStopped.

(** The revocation task; on the stream, whether it has set readiness on this
    connection, whether it has warned, and when the grace ends. *)
Inductive RevocationPhase :=
  | RevocationConnect
  | RevocationStream (ready grace_elapsed : bool) (grace : Z)
  | RevocationReject
  | RevocationWait (until : Z)
  | RevocationStopped.

(** The freshness watcher: about to load the generation, sleeping until its
    deadline, waiting for a publication, stopped. *)
Inductive WatcherPhase :=
  | WatcherLoad
  | WatcherArmed (until : Z)
  | WatcherIdle
  | WatcherStopped.

Record ClientConfig := {
  cl_fail_closed_on_disconnect : bool;
  cl_readiness_grace : Z;
  cl_credentials : option SidecarCredential;
  (** whether there is a file for status readers *)
  cl_publishes : bool;
}.

Section Tasks.
Context {HC : HttpCrate} {P : Type} {PE : PolicyEvaluation P} {BP : BundleParser P} {MP : MethodParse}.
Context {RF : Rfc3339} {TF : TokenIdFormat}.
Context {S : Type} {RS : RevocationStore S}.
(** The text of a token id's parse error. *)
Variable token_id_error : string → string.

(** What the tasks share; [sh_notified] is the permit [notify_one] stores. *)
Record Shared := {
  sh_readiness : ReadinessState;
  sh_swappable : SwappablePolicyEvaluation P;
  sh_store : S;
  sh_cancelled : bool;
  sh_notified : bool;
  sh_enforcement : option EnforcementState;
}.

Definition set_readiness (r : ReadinessState) (h : Shared) : Shared :=
  {| sh_readiness := r; sh_swappable := sh_swappable h; sh_store := sh_store h;
     sh_cancelled := sh_cancelled h; sh_notified := sh_notified h; sh_enforcement := sh_enforcement h |}.
Definition set_swappable (w : SwappablePolicyEvaluation P) (h : Shared) : Shared :=
  {| sh_readiness := sh_readiness h; sh_swappable := w; sh_store := sh_store h;
     sh_cancelled := sh_cancelled h; sh_notified := sh_notified h; sh_enforcement := sh_enforcement h |}.
Definition set_store (s : S) (h : Shared) : Shared :=
  {| sh_readiness := sh_readiness h; sh_swappable := sh_swappable h; sh_store := s;
     sh_cancelled := sh_cancelled h; sh_notified := sh_notified h; sh_enforcement := sh_enforcement h |}.
Definition set_cancelled (h : Shared) : Shared :=
  {| sh_readiness := sh_readiness h; sh_swappable := sh_swappable h; sh_store := sh_store h;
     sh_cancelled := true; sh_notified := sh_notified h; sh_enforcement := sh_enforcement h |}.
Definition set_notified (n : bool) (h : Shared) : Shared :=
  {| sh_readiness := sh_readiness h; sh_swappable := sh_swappable h; sh_store := sh_store h;
     sh_cancelled := sh_cancelled h; sh_notified := n; sh_enforcement := sh_enforcement h |}.
Definition set_enforcement (e : option EnforcementState) (h : Shared) : Shared :=
  {| sh_readiness := sh_readiness h; sh_swappable := sh_swappable h; sh_store := sh_store h;
     sh_cancelled := sh_cancelled h; sh_notified := sh_notified h; sh_enforcement := e |}.

(** *** The policy task *)

Record PolicyBundleTask := {
  pt_phase : PolicyPhase;
  pt_backoff : ExponentialBackoff;
  pt_composio_coverage_active : bool;
}.

Definition policy_at (phase : PolicyPhase) (t : PolicyBundleTask) : PolicyBundleTask :=
  {| pt_phase := phase; pt_backoff := pt_backoff t;
     pt_composio_coverage_active := pt_composio_coverage_active t |}.

(** [PolicyBundleTask::compile_bundle]. *)
Definition compile_bundle (h : Shared) (now : Z) (b : ProtoBundle) : Result (RuntimeSnapshot P) string :=
  if (wb_ttl_seconds b =? 0)%Z || negb (is_valid_version (wb_version b)) then
    Err "bundle requires a positive TTL and printable-ASCII nonempty version"
  else
    let? table := mappings_compile (wb_mappings b) in
    let normalizer := with_mapping_table (pub_normalizer (Runtime.load (sh_swappable h))) table in
    let? policy := bundle_parse now (wb_policies b) (wb_entity_schema b) (wb_ttl_seconds b) (wb_version b) in
    Ok {| rt_policy := policy; rt_normalizer := normalizer; rt_ttl_seconds := wb_ttl_seconds b;
          rt_version := Some (wb_version b) |}.

(** [PolicyBundleTask::apply_bundle], up to the swap; a bundle that is missing
    or does not compile changes nothing. *)
Definition apply_bundle (h : Shared) (now : Z) (t : PolicyBundleTask) (bundle : option ProtoBundle)
    : Shared * PolicyBundleTask :=
  match bundle with
  | None => (h, t)
  | Some b =>
      match compile_bundle h now b with
      | Err _ => (h, t)
      | Ok snapshot =>
          let covers :=
            match wb_mappings b with
            | Some m => mapping_hosts_reference_composio (pm_host <$> ms_rules m)
            | None => false
            end in
          (set_swappable (swap_snapshot (sh_swappable h) now snapshot) h,
           {| pt_phase := PolicyMark (wb_version b) (wb_ttl_seconds b); pt_backoff := pt_backoff t;
              pt_composio_coverage_active := covers |})
      end
  end.

(** The end of a connection in [run]. *)
Definition policy_disconnected (cfg : ClientConfig) (jitter : Z → Z) (now : Z) (result : Result unit Code)
    (h : Shared) (t : PolicyBundleTask) : Shared * PolicyBundleTask :=
  if match result with Err status => rejects_run status (cl_credentials cfg) | Ok _ => false end then
    (set_readiness (reject_run (sh_readiness h)) h, policy_at PolicyReject t)
  else
    let '(delay, backoff) := backoff_next jitter (pt_backoff t) in
    (h, {| pt_phase := PolicyWait (now + delay); pt_backoff := backoff;
           pt_composio_coverage_active := pt_composio_coverage_active t |}).

(** What the policy task wakes up for. *)
Inductive PolicyEvent :=
  | PolicyOpened (answer : Result unit Code)
  | PolicyReceived (message : Result (option (option ProtoBundle)) Code)
  | PolicyContinues (wall : Z)
  | PolicyTimer
  | PolicyCancelled (inner : bool).

(** [PolicyBundleTask::run] and [run_once]; [PolicyCancelled true] is the arm of
    the inner loop.  [None]: the task is not waiting for this. *)
Definition policy_step (cfg : ClientConfig) (jitter : Z → Z) (now : Z) (ev : PolicyEvent)
    (h : Shared) (t : PolicyBundleTask) : option (Shared * PolicyBundleTask) :=
  match pt_phase t, ev with
  | PolicyConnect, PolicyOpened (Ok _) =>
      Some (h, {| pt_phase := PolicyStream; pt_backoff := backoff_reset (pt_backoff t);
                  pt_composio_coverage_active := pt_composio_coverage_active t |})
  | PolicyConnect, PolicyOpened (Err status) => Some (policy_disconnected cfg jitter now (Err status) h t)
  | PolicyStream, PolicyReceived (Err status) => Some (policy_disconnected cfg jitter now (Err status) h t)
  | PolicyStream, PolicyReceived (Ok None) => Some (policy_disconnected cfg jitter now (Ok tt) h t)
  | PolicyStream, PolicyReceived (Ok (Some update)) => Some (apply_bundle h now t update)
  | PolicyMark v ttl, PolicyContinues _ =>
      Some (set_readiness (mark_policy_bundle_swapped (sh_readiness h)) h, policy_at (PolicyNotify v ttl) t)
  | PolicyNotify v ttl, PolicyContinues wall =>
      let h := set_notified true h in
      Some (if cl_publishes cfg then set_enforcement (Some (swapped_now wall v ttl)) h else h,
            policy_at PolicyStream t)
  | PolicyReject, PolicyContinues _ => Some (set_cancelled h, policy_at PolicyStopped t)
  | PolicyWait until, PolicyTimer =>
      if (until <=? now)%Z then Some (h, policy_at PolicyConnect t) else None
  | PolicyStream, PolicyCancelled true =>
      if sh_cancelled h then Some (policy_disconnected cfg jitter now (Ok tt) h t) else None
  | (PolicyConnect | PolicyStream | PolicyWait _), PolicyCancelled false =>
      if sh_cancelled h then Some (h, policy_at PolicyStopped t) else None
  | _, _ => None
  end.

(** *** The revocation task *)

Record RevocationTask := {
  rk_phase : RevocationPhase;
  rk_backoff : ExponentialBackoff;
  rk_applied_a_set : bool;
}.

Definition revocation_at (phase : RevocationPhase) (t : RevocationTask) : RevocationTask :=
  {| rk_phase := phase; rk_backoff := rk_backoff t; rk_applied_a_set := rk_applied_a_set t |}.

(** [token_id_from_event], on the event's [token_id]. *)
Definition token_id_from_event (raw : string) : Result TokenId string :=
  if valid_token_id raw then Ok raw
  else Err ("invalid token id in revocation event: " +:+ token_id_error raw).

(** [RevocationTask::apply_set]: the first error ends it, with the earlier
    entries applied. *)
Fixpoint apply_set (set : list string) (s : S) : Result unit string * S :=
  match set with
  | [] => (Ok tt, s)
  | raw :: set =>
      match token_id_from_event raw with
      | Err e => (Err e, s)
      | Ok id =>
          match add_revocation s id with
          | (Err e, s) => (Err (token_error_display e), s)
          | (Ok _, s) => apply_set set s
          end
      end
  end.

(** [StreamError]. *)
Inductive StreamError := AuthorityStatus (status : Code) | LocalError (message : string).

(** The end of a connection in [run]. *)
Definition revocation_disconnected (cfg : ClientConfig) (jitter : Z → Z) (now : Z)
    (result : Result unit StreamError) (h : Shared) (t : RevocationTask) : Shared * RevocationTask :=
  if match result with
     | Err (AuthorityStatus status) => rejects_run status (cl_credentials cfg)
     | _ => false
     end then
    (set_readiness (reject_run (sh_readiness h)) h, revocation_at RevocationReject t)
  else
    let h := if cl_fail_closed_on_disconnect cfg
             then set_readiness (set_revocation_ready (sh_readiness h) false) h else h in
    let '(delay, backoff) := backoff_next jitter (rk_backoff t) in
    (h, {| rk_phase := RevocationWait (now + delay); rk_backoff := backoff;
           rk_applied_a_set := rk_applied_a_set t |}).

(** A set received on the stream: [ready] says whether this connection already
    made the store ready. *)
Definition revocation_received (cfg : ClientConfig) (jitter : Z → Z) (now : Z)
    (ready grace_elapsed : bool) (grace : Z) (set : list string) (h : Shared) (t : RevocationTask)
    : Shared * RevocationTask :=
  match apply_set set (sh_store h) with
  | (Err e, s) => revocation_disconnected cfg jitter now (Err (LocalError e)) (set_store s h) t
  | (Ok _, s) =>
      let h := set_store s h in
      (if ready then h else set_readiness (set_revocation_ready (sh_readiness h) true) h,
       {| rk_phase := RevocationStream true grace_elapsed grace;
          rk_backoff := backoff_reset (rk_backoff t); rk_applied_a_set := true |})
  end.

Inductive RevocationEvent :=
  | RevocationOpened (answer : Result unit Code)
  | RevocationReceived (message : Result (option (list string)) Code)
  | RevocationContinues
  | RevocationTimer
  | RevocationCancelled (inner : bool).

(** [RevocationTask::run] and [run_once]; the timer of the stream only warns. *)
Definition revocation_step (cfg : ClientConfig) (jitter : Z → Z) (now : Z) (ev : RevocationEvent)
    (h : Shared) (t : RevocationTask) : option (Shared * RevocationTask) :=
  match rk_phase t, ev with
  | RevocationConnect, RevocationOpened (Ok _) =>
      Some (h, revocation_at (RevocationStream false false (now + cl_readiness_grace cfg)) t)
  | RevocationConnect, RevocationOpened (Err status) =>
      Some (revocation_disconnected cfg jitter now (Err (AuthorityStatus status)) h t)
  | RevocationStream _ _ _, RevocationReceived (Err status) =>
      Some (revocation_disconnected cfg jitter now (Err (AuthorityStatus status)) h t)
  | RevocationStream _ _ _, RevocationReceived (Ok None) =>
      Some (revocation_disconnected cfg jitter now (Ok tt) h t)
  | RevocationStream ready elapsed grace, RevocationReceived (Ok (Some set)) =>
      Some (revocation_received cfg jitter now ready elapsed grace set h t)
  | RevocationStream ready elapsed grace, RevocationTimer =>
      if negb ready && negb elapsed && (grace <=? now)%Z
      then Some (h, revocation_at (RevocationStream ready true grace) t) else None
  | RevocationReject, RevocationContinues => Some (set_cancelled h, revocation_at RevocationStopped t)
  | RevocationWait until, RevocationTimer =>
      if (until <=? now)%Z then Some (h, revocation_at RevocationConnect t) else None
  | RevocationStream _ _ _, RevocationCancelled true =>
      if sh_cancelled h then Some (revocation_disconnected cfg jitter now (Ok tt) h t) else None
  | (RevocationConnect | RevocationStream _ _ _ | RevocationWait _), RevocationCancelled false =>
      if sh_cancelled h then Some (h, revocation_at RevocationStopped t) else None
  | _, _ => None
  end.

(** *** The freshness watcher *)

(** [FreshnessWatcher::refresh]. *)
Definition watcher_refresh (now : Z) (h : Shared) : Shared :=
  set_readiness
    (snd (refresh_policy_bundle_freshness (sh_readiness h)
            (is_fresh (Runtime.load (sh_swappable h)) now))) h.

Inductive WatcherEvent := WatcherLoads | WatcherWoken | WatcherTimer | WatcherCancelled.

(** [FreshnessWatcher::run]. *)
Definition watcher_step (now : Z) (ev : WatcherEvent) (h : Shared) (w : WatcherPhase)
    : option (Shared * WatcherPhase) :=
  match w, ev with
  | WatcherLoad, WatcherLoads =>
      let snapshot := Runtime.load (sh_swappable h) in
      Some (h, if bool_decide (is_Some (version snapshot)) && is_fresh snapshot now
               then WatcherArmed (pub_deadline snapshot) else WatcherIdle)
  | (WatcherArmed _ | WatcherIdle), WatcherWoken =>
      if sh_notified h then Some (set_notified false h, WatcherLoad) else None
  | WatcherArmed until, WatcherTimer =>
      if (until <=? now)%Z then Some (watcher_refresh now h, WatcherLoad) else None
  | (WatcherArmed _ | WatcherIdle), WatcherCancelled =>
      if sh_cancelled h then Some (h, WatcherStopped) else None
  | _, _ => None
  end.

(** *** Together *)

Record ClientState := {
  cs_shared : Shared;
  cs_policy : PolicyBundleTask;
  cs_revocation : RevocationTask;
  cs_watcher : WatcherPhase;
}.

Inductive ClientEvent :=
  | OnPolicy (ev : PolicyEvent)
  | OnRevocation (ev : RevocationEvent)
  | OnWatcher (ev : WatcherEvent)
  (** a request asks Stage 1 about a token *)
  | OnLookup (id : TokenId)
  (** the process is told to stop *)
  | OnShutdown.

Definition client_step (cfg : ClientConfig) (jitter : Z → Z) (now : Z) (ev : ClientEvent) (c : ClientState)
    : option ClientState :=
  match ev with
  | OnPolicy ev =>
      '(h, t) ← policy_step cfg jitter now ev (cs_shared c) (cs_policy c);
      Some {| cs_shared := h; cs_policy := t; cs_revocation := cs_revocation c; cs_watcher := cs_watcher c |}
  | OnRevocation ev =>
      '(h, t) ← revocation_step cfg jitter now ev (cs_shared c) (cs_revocation c);
      Some {| cs_shared := h; cs_policy := cs_policy c; cs_revocation := t; cs_watcher := cs_watcher c |}
  | OnWatcher ev =>
      '(h, w) ← watcher_step now ev (cs_shared c) (cs_watcher c);
      Some {| cs_shared := h; cs_policy := cs_policy c; cs_revocation := cs_revocation c; cs_watcher := w |}
  | OnLookup id =>
      Some {| cs_shared := set_store (snd (Revocation.is_revoked (sh_store (cs_shared c)) id)) (cs_shared c);
              cs_policy := cs_policy c; cs_revocation := cs_revocation c; cs_watcher := cs_watcher c |}
  | OnShutdown =>
      Some {| cs_shared := set_cancelled (cs_shared c); cs_policy := cs_policy c;
              cs_revocation := cs_revocation c; cs_watcher := cs_watcher c |}
  end.

(** [spawn_authority_client]: the sidecar starts with the deny-all generation
    and nothing ready. *)
Definition spawn_authority_client (min max : Z) (initial : SwappablePolicyEvaluation P) (store : S) : ClientState :=
  {| cs_shared := {| sh_readiness := readiness_default; sh_swappable := initial; sh_store := store;
                     sh_cancelled := false; sh_notified := false; sh_enforcement := None |};
     cs_policy := {| pt_phase := PolicyConnect; pt_backoff := backoff_new min max;
                     pt_composio_coverage_active := false |};
     cs_revocation := {| rk_phase := RevocationConnect; rk_backoff := backoff_new min max;
                         rk_applied_a_set := false |};
     cs_watcher := WatcherLoad |}.

(** One clocked step, and runs of them. *)
Record Tick := { tk_now : Z; tk_jitter : Z → Z; tk_event : ClientEvent }.

Fixpoint client_run (cfg : ClientConfig) (c : ClientState) (ticks : list Tick) : option ClientState :=
  match ticks with
  | [] => Some c
  | t :: ticks => c' ← client_step cfg (tk_jitter t) (tk_now t) (tk_event t) c; client_run cfg c' ticks
  end.

(** ** Runs *)

Fixpoint clocked (t : Z) (ticks : list Tick) : Prop :=
  match ticks with [] => True | k :: ticks => (t ≤ tk_now k)%Z ∧ clocked (tk_now k) ticks end.

Fixpoint last_time (t : Z) (ticks : list Tick) : Z :=
  match ticks with [] => t | k :: ticks => last_time (tk_now k) ticks end.

Lemma client_run_inv cfg (I : Z → ClientState → Prop) :
  (∀ t c c' k, I t c → (t ≤ tk_now k)%Z →
     client_step cfg (tk_jitter k) (tk_now k) (tk_event k) c = Some c' → I (tk_now k) c') →
  ∀ ticks t c c', I t c → clocked t ticks → client_run cfg c ticks = Some c' → I (last_time t ticks) c'.
Proof.
  intros Hstep ticks. induction ticks as [|k ticks IH]; intros t c c' Hi Hc Hr; simpl in *.
  - by simplify_eq.
  - destruct Hc as [Hk Hc]. apply bind_Some in Hr as (c1 & Hs & Hr). eauto.
Qed.

Lemma client_run_app cfg c ticks ticks' :
  client_run cfg c (ticks ++ ticks') = c' ← client_run cfg c ticks; client_run cfg c' ticks'.
Proof.
  revert c. induction ticks as [|k ticks IH]; intros c; simpl; [done|].
  by destruct client_step; simpl.
Qed.

(** What a step of each task may do to the shared state. *)
Ltac task_cases :=
  repeat match goal with
  | H : context [match ?x with _ => _ end] |- _ => destruct x eqn:?; simplify_eq/=
  | |- context [match ?x with _ => _ end] => destruct x eqn:?; simplify_eq/=
  end.

(** The flags change only by operations of the writer. *)
Lemma policy_step_readiness cfg jitter now ev h t h' t' :
  policy_step cfg jitter now ev h t = Some (h', t') →
  sh_store h' = sh_store h ∧ (sh_cancelled h = true → sh_cancelled h' = true) ∧
  (sh_readiness h' = sh_readiness h ∨
   (sh_readiness h' = mark_policy_bundle_swapped (sh_readiness h) ∧ ∃ v ttl, pt_phase t = PolicyMark v ttl) ∨
   (sh_readiness h' = reject_run (sh_readiness h) ∧ pt_phase t' = PolicyReject)).
Proof.
  unfold policy_step, policy_disconnected, apply_bundle. intros H.
  task_cases; simpl; (split_and!; [done|done|eauto 7]).
Qed.

Lemma revocation_step_readiness cfg jitter now ev h t h' t' :
  revocation_step cfg jitter now ev h t = Some (h', t') →
  sh_swappable h' = sh_swappable h ∧ sh_notified h' = sh_notified h ∧
  (sh_readiness h' = sh_readiness h ∨
   (∃ b, sh_readiness h' = set_revocation_ready (sh_readiness h) b) ∨
   (sh_readiness h' = reject_run (sh_readiness h) ∧ rk_phase t' = RevocationReject)).
Proof.
  unfold revocation_step, revocation_received, revocation_disconnected. intros H.
  task_cases; simpl; eauto 8.
Qed.

Lemma watcher_step_readiness now ev h w h' w' :
  watcher_step now ev h w = Some (h', w') →
  sh_store h' = sh_store h ∧ sh_swappable h' = sh_swappable h ∧ sh_cancelled h' = sh_cancelled h ∧
  (sh_readiness h' = sh_readiness h ∨
   (∃ until, w = WatcherArmed until ∧ w' = WatcherLoad ∧ (until ≤ now)%Z ∧ sh_notified h' = sh_notified h ∧
      sh_readiness h' = snd (refresh_policy_bundle_freshness (sh_readiness h)
                               (is_fresh (Runtime.load (sh_swappable h)) now)))).
Proof.
  unfold watcher_step, watcher_refresh. intros H. task_cases; simpl;
    try (split_and!; [done..|by left]).
  boolify. split_and!; try done. right. eexists. split_and!; done.
Qed.

(** ** Readiness is earned *)

(** The revocation flag is set only while the store holds a set, and with the
    fail-closed option only while the stream that delivered it lasts. *)
Definition revocation_inv (cfg : ClientConfig) (c : ClientState) : Prop :=
  let h := cs_shared c in
  let t := cs_revocation c in
  (match rk_phase t with RevocationStream true _ _ => rk_applied_a_set t = true | _ => True end) ∧
  (match rk_phase t with
   | RevocationStopped => sh_cancelled h = true
   | RevocationReject => run_rejected (sh_readiness h) = true
   | _ => True
   end) ∧
  (revocation_ready (sh_readiness h) = true →
     rk_applied_a_set t = true ∧
     (cl_fail_closed_on_disconnect cfg = true →
        match rk_phase t with
        | RevocationStream ready _ _ => ready = true
        | RevocationReject | RevocationStopped => True
        | _ => False
        end)).

Lemma revocation_ready_other r r' :
  r' = r ∨ r' = mark_policy_bundle_swapped r ∨ r' = reject_run r ∨
    (∃ b, r' = snd (refresh_policy_bundle_freshness r b)) →
  revocation_ready r' = revocation_ready r ∧ (run_rejected r = true → run_rejected r' = true).
Proof.
  destruct r as [[] [] [] []]; intros [-> |[-> |[-> |[[] ->]]]]; done.
Qed.

Lemma revocation_inv_step cfg jitter now ev c c' :
  client_step cfg jitter now ev c = Some c' → revocation_inv cfg c → revocation_inv cfg c'.
Proof.
  intros Hstep (H1 & H2 & H3). destruct ev as [ev|ev|ev|id|]; simpl in Hstep.
  - apply bind_Some in Hstep as ([h' t'] & Hs & [= <-]).
    apply policy_step_readiness in Hs as (_ & Hc & Hr).
    destruct (revocation_ready_other (sh_readiness (cs_shared c)) (sh_readiness h')) as [Hrr Hj];
      [naive_solver|].
    unfold revocation_inv. simpl. rewrite Hrr. split_and!; [done| |done].
    destruct (rk_phase (cs_revocation c)); auto.
  - apply bind_Some in Hstep as ([h' t'] & Hs & [= <-]). unfold revocation_inv in *. simpl in *.
    unfold revocation_step, revocation_received, revocation_disconnected in Hs.
    task_cases; simpl in *; naive_solver.
  - apply bind_Some in Hstep as ([h' w'] & Hs & [= <-]).
    apply watcher_step_readiness in Hs as (_ & _ & Hc & Hr).
    destruct (revocation_ready_other (sh_readiness (cs_shared c)) (sh_readiness h')) as [Hrr Hj];
      [naive_solver|].
    unfold revocation_inv. simpl. rewrite Hrr, Hc. split_and!; [done| |done].
    destruct (rk_phase (cs_revocation c)); auto.
  - by simplify_eq/=.
  - simplify_eq/=. unfold revocation_inv. simpl. split_and!; [done| |done].
    by destruct (rk_phase (cs_revocation c)).
Qed.

(** A generation that some bundle compiles to. *)
Definition accepted (pub : PublishedSnapshot P) : Prop :=
  ∃ h now b snapshot, compile_bundle h now b = Ok snapshot ∧ pub = into_published now snapshot.

Definition publishing (t : PolicyBundleTask) : bool :=
  match pt_phase t with PolicyMark _ _ | PolicyNotify _ _ => true | _ => false end.

(** Before the first accepted bundle nothing says that there is one. *)
Definition policy_inv (c : ClientState) : Prop :=
  let h := cs_shared c in
  let r := sh_readiness h in
  let pub := Runtime.load (sh_swappable h) in
  accepted pub ∨
  (policy_bundle_ready r = false ∧ policy_bundle_fresh r = false ∧ publishing (cs_policy c) = false ∧
   (∀ d, cs_watcher c ≠ WatcherArmed d) ∧ pub_version pub = None).

(** What the policy task does to the generation: it is replaced by an accepted
    one on the way into publishing, and publishing starts in no other way. *)
Lemma policy_step_swap cfg jitter now ev h t h' t' :
  policy_step cfg jitter now ev h t = Some (h', t') →
  (sh_swappable h' = sh_swappable h ∧ (publishing t' = true → publishing t = true)) ∨
  (accepted (Runtime.load (sh_swappable h')) ∧ publishing t' = true ∧ sh_readiness h' = sh_readiness h).
Proof.
  unfold policy_step, policy_disconnected, apply_bundle, publishing. intros H.
  task_cases; simpl in *; try (left; done).
  right. split; [|done]. by eexists _, _, _, _.
Qed.

(** The wake-up of the watcher is stored before publishing ends. *)
Lemma policy_step_notifies cfg jitter now ev h t h' t' :
  policy_step cfg jitter now ev h t = Some (h', t') →
  (sh_notified h = true → sh_notified h' = true) ∧
  (publishing t = true → publishing t' = true ∨ sh_notified h' = true) ∧
  (sh_readiness h' ≠ sh_readiness h → publishing t' = true ∨ run_rejected (sh_readiness h') = true).
Proof.
  unfold policy_step, policy_disconnected, apply_bundle, publishing. intros H.
  task_cases; simpl in *; (split_and!; [done|by auto|by auto]).
Qed.

Lemma accepted_version pub : accepted pub → is_Some (pub_version pub).
Proof.
  intros (h & now & b & snapshot & Hc & ->). unfold compile_bundle in Hc.
  destruct (_ || _); [done|]. destruct (mappings_compile _); [|done]. simpl in Hc.
  destruct (bundle_parse _ _ _ _ _); [|done]. simpl in Hc. simplify_eq. simpl. eauto.
Qed.

Lemma bundle_flags_revocation r b :
  policy_bundle_ready (set_revocation_ready r b) = policy_bundle_ready r ∧
  policy_bundle_fresh (set_revocation_ready r b) = policy_bundle_fresh r.
Proof. done. Qed.

Lemma watcher_never_armed now ev h w h' w' :
  watcher_step now ev h w = Some (h', w') → pub_version (Runtime.load (sh_swappable h)) = None →
  (∀ d, w ≠ WatcherArmed d) → ∀ d, w' ≠ WatcherArmed d.
Proof.
  intros Hs Hv Hw d ->. unfold watcher_step in Hs.
  assert (version (Runtime.load (sh_swappable h)) = None) as Hv' by exact Hv. rewrite Hv' in Hs.
  destruct w, ev; simpl in Hs; task_cases; naive_solver.
Qed.

Lemma policy_inv_step cfg jitter now ev c c' :
  client_step cfg jitter now ev c = Some c' → policy_inv c → policy_inv c'.
Proof.
  intros Hstep Hi. destruct ev as [ev|ev|ev|id|]; simpl in Hstep.
  - apply bind_Some in Hstep as ([h' t'] & Hs & [= <-]). unfold policy_inv in *; simpl in *.
    pose proof (policy_step_swap _ _ _ _ _ _ _ _ Hs) as [[-> Hp]|(Ha & _ & _)]; [|by left].
    apply policy_step_readiness in Hs as (_ & _ & Hr).
    destruct Hi as [Ha|(H1 & H2 & H3 & H4 & H5)]; [by left|]. right.
    destruct Hr as [-> |[(-> & v & ttl & Hph)|[-> _]]].
    + split_and!; try done. destruct (publishing t'); naive_solver.
    + unfold publishing in H3. by rewrite Hph in H3.
    + split_and!; try done. destruct (publishing t'); naive_solver.
  - apply bind_Some in Hstep as ([h' t'] & Hs & [= <-]). unfold policy_inv in *; simpl in *.
    apply revocation_step_readiness in Hs as (-> & _ & Hr).
    destruct Hi as [Ha|(H1 & H2 & H3 & H4 & H5)]; [by left|]. right.
    destruct Hr as [-> |[(b & ->)|[-> _]]]; done.
  - apply bind_Some in Hstep as ([h' w'] & Hs & [= <-]). unfold policy_inv in *; simpl in *.
    pose proof Hs as Hw. apply watcher_step_readiness in Hs as (_ & -> & _ & Hr).
    destruct Hi as [Ha|(H1 & H2 & H3 & H4 & H5)]; [by left|]. right.
    destruct Hr as [-> |(until & Hun & _)]; [|by destruct (H4 until)].
    split_and!; try done. by eapply watcher_never_armed.
  - by simplify_eq/=.
  - by simplify_eq/=.
Qed.

(** ** No lost wake-up *)

(** Someone will look at the generation no later than at its deadline. *)
Definition watched (c : ClientState) : Prop :=
  let h := cs_shared c in
  publishing (cs_policy c) = true ∨ sh_notified h = true ∨ cs_watcher c = WatcherLoad ∨
  cs_watcher c = WatcherArmed (pub_deadline (Runtime.load (sh_swappable h))).

#[local] Instance readiness_eq_dec : EqDecision ReadinessState.
Proof. solve_decision. Defined.

Definition watch_inv (t : Z) (c : ClientState) : Prop :=
  policy_inv c ∧ readiness_inv (sh_readiness (cs_shared c)) ∧
  (policy_bundle_fresh (sh_readiness (cs_shared c)) = true →
   (t < pub_deadline (Runtime.load (sh_swappable (cs_shared c))))%Z →
   cs_watcher c ≠ WatcherStopped → watched c).

Lemma policy_step_writes cfg jitter now ev h t h' t' :
  policy_step cfg jitter now ev h t = Some (h', t') →
  sh_readiness h' = sh_readiness h ∨ (∃ op, sh_readiness h' = readiness_step (sh_readiness h) op).
Proof.
  intros (_ & _ & [-> |[[-> _]|[-> _]]])%policy_step_readiness; [by left|right..].
  - by exists BundleSwapped.
  - by exists RunRejected.
Qed.

Lemma watch_inv_policy cfg jitter now ev c h' t' t :
  policy_step cfg jitter now ev (cs_shared c) (cs_policy c) = Some (h', t') →
  (t ≤ now)%Z → policy_inv c → readiness_inv (sh_readiness h') → watch_inv t c →
  policy_bundle_fresh (sh_readiness h') = true →
  (now < pub_deadline (Runtime.load (sh_swappable h')))%Z → cs_watcher c ≠ WatcherStopped →
  watched {| cs_shared := h'; cs_policy := t'; cs_revocation := cs_revocation c; cs_watcher := cs_watcher c |}.
Proof.
  intros Hs Ht _ Hri (_ & _ & Hw) Hf Hd Hst. unfold watched; simpl.
  destruct (policy_step_swap _ _ _ _ _ _ _ _ Hs) as [[Hsw Hp]|(_ & Hp & _)]; [|by left].
  destruct (policy_step_notifies _ _ _ _ _ _ _ _ Hs) as (Hn1 & Hn2 & Hn3). rewrite Hsw in *.
  destruct (decide (publishing t' = true)) as [|Hpt]; [by left|].
  assert (Hsame : sh_readiness h' = sh_readiness (cs_shared c)).
  { destruct (decide (sh_readiness h' = sh_readiness (cs_shared c))) as [|Hne]; [done|].
    destruct (Hn3 Hne) as [|Hrej]; [done|]. destruct (Hri Hrej) as [_ Hff]. congruence. }
  rewrite Hsame in Hf. destruct (Hw Hf ltac:(lia) Hst) as [Hpub|[Hnot|[Hl|Ha]]]; simpl in *; auto.
  destruct (Hn2 Hpub); auto.
Qed.

Lemma revocation_step_flags cfg jitter now ev h t h' t' :
  revocation_step cfg jitter now ev h t = Some (h', t') →
  ∃ ops, sh_readiness h' = readiness_run (sh_readiness h) ops ∧
    (policy_bundle_fresh (sh_readiness h') = true → policy_bundle_fresh (sh_readiness h) = true).
Proof.
  intros (_ & _ & [-> |[(b & ->)|[-> _]]])%revocation_step_readiness.
  - by exists [].
  - by exists [RevocationReady b].
  - by exists [RunRejected].
Qed.

Lemma watcher_step_watched now ev c h' w' t :
  watcher_step now ev (cs_shared c) (cs_watcher c) = Some (h', w') →
  (t ≤ now)%Z → watch_inv t c →
  policy_bundle_fresh (sh_readiness h') = true →
  (now < pub_deadline (Runtime.load (sh_swappable h')))%Z → w' ≠ WatcherStopped →
  watched {| cs_shared := h'; cs_policy := cs_policy c; cs_revocation := cs_revocation c; cs_watcher := w' |}.
Proof.
  intros Hs Ht (Hp & _ & Hw) Hf Hd Hst. unfold watched; simpl.
  destruct (watcher_step_readiness _ _ _ _ _ _ Hs) as (_ & Hsw & _ & Hr). rewrite Hsw in *.
  destruct Hr as [Hsame|(? & _ & -> & _)]; [|auto]. rewrite Hsame in Hf.
  unfold watcher_step in Hs.
  destruct (cs_watcher c) as [|until| |] eqn:Ew, ev; simpl in Hs; try done.
  - injection Hs as <- <-. destruct Hp as [Ha|(_ & Hf' & _)]; [|congruence].
    right. right. right.
    assert (is_Some (version (Runtime.load (sh_swappable (cs_shared c))))) as Hv by by apply accepted_version.
    by rewrite bool_decide_eq_true_2, (proj2 (Z.ltb_lt _ _) Hd).
  - destruct (sh_notified (cs_shared c)); [|done]. simplify_eq; auto.
  - destruct (until <=? now)%Z; [|done]. simplify_eq; auto.
  - destruct (sh_cancelled (cs_shared c)); [|done]. simplify_eq; done.
  - destruct (sh_notified (cs_shared c)); [|done]. simplify_eq; auto.
  - destruct (sh_cancelled (cs_shared c)); [|done]. simplify_eq; done.
Qed.

Lemma watch_inv_step cfg t c c' k :
  watch_inv t c → (t ≤ tk_now k)%Z →
  client_step cfg (tk_jitter k) (tk_now k) (tk_event k) c = Some c' → watch_inv (tk_now k) c'.
Proof.
  intros Hi Ht Hs. pose proof Hi as (Hp & Hr & Hw).
  split; [by eapply policy_inv_step|].
  destruct (tk_event k) as [ev|ev|ev|id|]; simpl in Hs.
  - apply bind_Some in Hs as ([h' t'] & Hs & [= <-]). simpl.
    assert (readiness_inv (sh_readiness h')) as Hr'.
    { destruct (policy_step_writes _ _ _ _ _ _ _ _ Hs) as [-> |[op ->]]; [done|].
      by apply readiness_step_inv. }
    split; [done|]. intros. by eapply watch_inv_policy.
  - apply bind_Some in Hs as ([h' t'] & Hs & [= <-]). simpl.
    destruct (revocation_step_flags _ _ _ _ _ _ _ _ Hs) as (ops & Hops & Hfr).
    destruct (revocation_step_readiness _ _ _ _ _ _ _ _ Hs) as (Hsw & Hn & Hwr).
    split.
    + destruct Hwr as [-> |[(b & ->)|[-> _]]]; [done| |done].
      apply (readiness_step_inv _ (RevocationReady b)), Hr.
    + unfold watched. simpl. rewrite Hsw, Hn. intros Hf Hd Hst. apply Hw; [by apply Hfr|lia|done].
  - apply bind_Some in Hs as ([h' w'] & Hs & [= <-]). simpl. split; [|intros; by eapply watcher_step_watched].
    destruct (watcher_step_readiness _ _ _ _ _ _ Hs) as (_ & _ & _ & [-> |(? & _ & _ & _ & _ & ->)]); [done|].
    by apply (readiness_step_inv _ (FreshnessRefreshed _)).
  - simplify_eq/=. split; [done|]. intros. apply Hw; [done|lia|done].
  - simplify_eq/=. split; [done|]. intros. apply Hw; [done|lia|done].
Qed.

Lemma spawn_watch_inv t min max initial store :
  pub_version (Runtime.load initial) = None → watch_inv t (spawn_authority_client min max initial store).
Proof. intros Hv. split_and!; [right; by split_and!|done|done]. Qed.

Lemma spawn_revocation_inv cfg min max initial store :
  revocation_inv cfg (spawn_authority_client min max initial store).
Proof. by split_and!. Qed.

(** [C30] No lost wake-up: while the sidecar reports a fresh policy bundle whose
    deadline lies ahead, the freshness watcher is asleep until exactly that
    deadline, or is about to look at the generation, whatever the interleaving
    of publications, reconnects and rejections with it; and when its timer
    fires, the flag becomes whether the generation in force is fresh. *)
Theorem freshness_watched cfg min max initial store ticks t c :
  pub_version (Runtime.load initial) = None → clocked t ticks →
  client_run cfg (spawn_authority_client min max initial store) ticks = Some c →
  (policy_bundle_fresh (sh_readiness (cs_shared c)) = true →
   (last_time t ticks < pub_deadline (Runtime.load (sh_swappable (cs_shared c))))%Z →
   cs_watcher c ≠ WatcherStopped → watched c) ∧
  ∀ jitter now c', client_step cfg jitter now (OnWatcher WatcherTimer) c = Some c' →
    policy_bundle_fresh (sh_readiness (cs_shared c')) =
      negb (run_rejected (sh_readiness (cs_shared c))) &&
      is_fresh (Runtime.load (sh_swappable (cs_shared c))) now.
Proof.
  intros Hv Hc Hr. split.
  - apply (client_run_inv cfg watch_inv (watch_inv_step cfg) _ _ _ _ (spawn_watch_inv t min max initial store Hv) Hc Hr).
  - intros jitter now c' Hs. simpl in Hs. apply bind_Some in Hs as ([h' w'] & Hs & [= <-]).
    unfold watcher_step, watcher_refresh, refresh_policy_bundle_freshness in Hs.
    destruct (cs_watcher c); try done. destruct (until <=? now)%Z; [|done].
    destruct (Bool.eqb _ _) eqn:E; simplify_eq/=; [|done]. by apply eqb_prop in E.
Qed.

(** ** A rejected run *)

Definition ending (c : ClientState) : Prop :=
  sh_cancelled (cs_shared c) = true ∨ pt_phase (cs_policy c) = PolicyReject ∨
  rk_phase (cs_revocation c) = RevocationReject.

Definition reject_inv (c : ClientState) : Prop :=
  readiness_inv (sh_readiness (cs_shared c)) ∧
  (run_rejected (sh_readiness (cs_shared c)) = true → ending c).

Lemma policy_step_ending cfg jitter now ev h t h' t' :
  policy_step cfg jitter now ev h t = Some (h', t') →
  sh_cancelled h = true ∨ pt_phase t = PolicyReject → sh_cancelled h' = true ∨ pt_phase t' = PolicyReject.
Proof.
  unfold policy_step, policy_disconnected, apply_bundle. intros H.
  task_cases; simpl in *; naive_solver.
Qed.

Lemma revocation_step_ending cfg jitter now ev h t h' t' :
  revocation_step cfg jitter now ev h t = Some (h', t') →
  (sh_cancelled h = true → sh_cancelled h' = true) ∧
  (rk_phase t = RevocationReject → sh_cancelled h' = true).
Proof.
  unfold revocation_step, revocation_received, revocation_disconnected. intros H.
  task_cases; simpl in *; naive_solver.
Qed.

Lemma run_rejected_step r op :
  run_rejected (readiness_step r op) = true → op = RunRejected ∨ run_rejected r = true.
Proof. destruct r as [[] [] [] []], op as [| |[]|[]]; auto. Qed.

Lemma reject_inv_step cfg jitter now ev c c' :
  client_step cfg jitter now ev c = Some c' → reject_inv c → reject_inv c'.
Proof.
  intros Hstep [Hr He]. destruct ev as [ev|ev|ev|id|]; simpl in Hstep.
  - apply bind_Some in Hstep as ([h' t'] & Hs & [= <-]).
    pose proof (policy_step_ending _ _ _ _ _ _ _ _ Hs) as Hend.
    destruct (policy_step_readiness _ _ _ _ _ _ _ _ Hs) as (_ & Hcan & Hrd).
    unfold reject_inv, ending in *; simpl. destruct Hrd as [-> |[[-> _]|[-> Hph]]].
    + split; [done|]. intros Hj%He. naive_solver.
    + split; [by apply (readiness_step_inv _ BundleSwapped)|].
      intros [?|Hj%He]%(run_rejected_step _ BundleSwapped); naive_solver.
    + split; [done|]. auto.
  - apply bind_Some in Hstep as ([h' t'] & Hs & [= <-]).
    destruct (revocation_step_ending _ _ _ _ _ _ _ _ Hs) as [Hcan Hend].
    destruct (revocation_step_readiness _ _ _ _ _ _ _ _ Hs) as (_ & _ & Hrd).
    unfold reject_inv, ending in *; simpl. destruct Hrd as [-> |[[b ->]|[-> Hph]]].
    + split; [done|]. intros Hj%He. naive_solver.
    + split; [by apply (readiness_step_inv _ (RevocationReady b))|]. simpl. intros Hj%He. naive_solver.
    + split; [done|]. auto.
  - apply bind_Some in Hstep as ([h' w'] & Hs & [= <-]).
    destruct (watcher_step_readiness _ _ _ _ _ _ Hs) as (_ & _ & Hc & Hrd).
    unfold reject_inv, ending in *; simpl. rewrite Hc.
    destruct Hrd as [-> |(? & _ & _ & _ & _ & ->)]; [done|].
    split; [by apply (readiness_step_inv _ (FreshnessRefreshed _))|].
    intros [?|Hj%He]%(run_rejected_step _ (FreshnessRefreshed _)); [done|naive_solver].
  - by simplify_eq/=.
  - simplify_eq/=. split; [done|]. intros _. by left.
Qed.

Lemma rejected_step cfg jitter now ev c c' :
  client_step cfg jitter now ev c = Some c' →
  run_rejected (sh_readiness (cs_shared c)) = true → run_rejected (sh_readiness (cs_shared c')) = true.
Proof.
  intros Hstep Hj. destruct ev as [ev|ev|ev|id|]; simpl in Hstep.
  - apply bind_Some in Hstep as ([h' t'] & Hs & [= <-]).
    destruct (policy_step_writes _ _ _ _ _ _ _ _ Hs) as [E|[op E]]; simpl; rewrite E; [done|].
    by apply readiness_step_rejected.
  - apply bind_Some in Hstep as ([h' t'] & Hs & [= <-]).
    destruct (revocation_step_readiness _ _ _ _ _ _ _ _ Hs) as (_ & _ & [E|[[b E]|[E _]]]); simpl; by rewrite E.
  - apply bind_Some in Hstep as ([h' w'] & Hs & [= <-]).
    destruct (watcher_step_readiness _ _ _ _ _ _ Hs) as (_ & _ & _ & [E|(? & _ & _ & _ & _ & E)]);
      simpl; rewrite E; [done|].
    by apply (readiness_step_rejected _ (FreshnessRefreshed _)).
  - by simplify_eq/=.
  - by simplify_eq/=.
Qed.

Lemma spawn_reject_inv min max initial store : reject_inv (spawn_authority_client min max initial store).
Proof. by split. Qed.

(** Once the Authority rejects the run, the sidecar is never ready again and its
    shutdown is under way. *)
Theorem rejection_ends_run cfg min max initial store ticks ticks' t c c' :
  clocked t (ticks ++ ticks') →
  client_run cfg (spawn_authority_client min max initial store) ticks = Some c →
  client_run cfg c ticks' = Some c' →
  run_rejected (sh_readiness (cs_shared c)) = true →
  fully_ready (sh_readiness (cs_shared c')) = false ∧ ending c'.
Proof.
  intros Hc Hr Hr' Hj.
  assert (Hall : client_run cfg (spawn_authority_client min max initial store) (ticks ++ ticks') = Some c')
    by by rewrite client_run_app, Hr.
  assert (Hinv : reject_inv c').
  { apply (client_run_inv cfg (λ _, reject_inv)
             (λ _ _ _ _ Hi _ Hs, reject_inv_step cfg _ _ _ _ _ Hs Hi) _ _ _ _ (spawn_reject_inv min max initial store) Hc Hall). }
  assert (Hj' : run_rejected (sh_readiness (cs_shared c')) = true).
  { clear Hc Hr Hall Hinv. revert c c' Hr' Hj. induction ticks' as [|k ks IH]; intros c c' Hr' Hj; simpl in *.
    { by simplify_eq. }
    apply bind_Some in Hr' as (c1 & Hs & Hr'). eapply IH; [exact Hr'|]. by eapply rejected_step. }
  destruct Hinv as [_ Hend]. split; [|by apply Hend]. unfold fully_ready. by rewrite Hj'.
Qed.

(** ** Applied revocations stay *)

Section Marks.
Context {L : RevocationLaws S}.

Lemma apply_set_spec set s : ∀ r s',
  apply_set set s = (r, s') → rs_ok s →
  rs_ok s' ∧ (∀ id, revoked s id → revoked s' id) ∧
  (r = Ok tt → Forall (λ id, valid_token_id id = true ∧ revoked s' id) set).
Proof.
  revert s. induction set as [|raw set IH]; intros s r s'; simpl.
  { intros [= <- <-] Hs. split_and!; auto. }
  unfold token_id_from_event. destruct (valid_token_id raw) eqn:Hv.
  2:{ intros [= <- <-] Hs. split_and!; auto. done. }
  destruct (add_revocation s raw) as [[[]|e] s1] eqn:Ha; intros H Hs;
    pose proof (add_revocation_ok s raw Hs) as Hs1; rewrite Ha in Hs1; simpl in Hs1.
  - destruct (IH _ _ _ H Hs1) as (Hok & Hkeep & Hall).
    pose proof (add_revocation_marks s raw Hs) as Hm. rewrite Ha in Hm. simpl in Hm.
    split_and!; [done| |].
    + intros id Hid. apply Hkeep. pose proof (add_revocation_keeps s raw id Hs Hid) as Hk. by rewrite Ha in Hk.
    + intros Hr. constructor; [split; [done|by apply Hkeep]|by apply Hall].
  - injection H as <- <-. split_and!; [done| |done].
    intros id Hid. pose proof (add_revocation_keeps s raw id Hs Hid) as Hk. by rewrite Ha in Hk.
Qed.

Lemma revocation_step_store cfg jitter now ev h t h' t' :
  revocation_step cfg jitter now ev h t = Some (h', t') →
  sh_store h' = sh_store h ∨ ∃ set, sh_store h' = snd (apply_set set (sh_store h)).
Proof.
  unfold revocation_step, revocation_received, revocation_disconnected. intros H.
  task_cases; simpl in *; try (by left); right; exists l; by rewrite Heqp.
Qed.

(** Marks survive every step of every task, and lookups. *)
Lemma client_step_marks cfg jitter now ev c c' :
  client_step cfg jitter now ev c = Some c' → rs_ok (sh_store (cs_shared c)) →
  rs_ok (sh_store (cs_shared c')) ∧
  ∀ id, revoked (sh_store (cs_shared c)) id → revoked (sh_store (cs_shared c')) id.
Proof.
  intros Hstep Hok. destruct ev as [ev|ev|ev|id|]; simpl in Hstep.
  - apply bind_Some in Hstep as ([h' t'] & Hs & [= <-]).
    destruct (policy_step_readiness _ _ _ _ _ _ _ _ Hs) as [E _]. simpl. by rewrite E.
  - apply bind_Some in Hstep as ([h' t'] & Hs & [= <-]). simpl.
    destruct (revocation_step_store _ _ _ _ _ _ _ _ Hs) as [E|[set E]]; rewrite E; [done|].
    destruct (apply_set set (sh_store (cs_shared c))) as [r s'] eqn:Ha.
    by destruct (apply_set_spec _ _ _ _ Ha Hok) as (? & ? & _).
  - apply bind_Some in Hstep as ([h' w'] & Hs & [= <-]).
    destruct (watcher_step_readiness _ _ _ _ _ _ Hs) as (E & _). simpl. by rewrite E.
  - simplify_eq/=. split; [by apply is_revoked_ok|]. intros. by apply is_revoked_keeps.
  - by simplify_eq/=.
Qed.

Lemma client_run_marks cfg ticks : ∀ c c',
  client_run cfg c ticks = Some c' → rs_ok (sh_store (cs_shared c)) →
  rs_ok (sh_store (cs_shared c')) ∧
  ∀ id, revoked (sh_store (cs_shared c)) id → revoked (sh_store (cs_shared c')) id.
Proof.
  induction ticks as [|k ticks IH]; intros c c' Hr Hok; simpl in Hr; [by simplify_eq|].
  apply bind_Some in Hr as (c1 & Hs & Hr).
  destruct (client_step_marks _ _ _ _ _ _ Hs Hok) as [Hok1 Hk1].
  destruct (IH _ _ Hr Hok1) as [Hok2 Hk2]. auto.
Qed.

(** A set that the stream task accepts is in the store. *)
Lemma received_set_marks cfg jitter now set c c1 :
  rs_ok (sh_store (cs_shared c)) →
  client_step cfg jitter now (OnRevocation (RevocationReceived (Ok (Some set)))) c = Some c1 →
  match rk_phase (cs_revocation c1) with RevocationStream _ _ _ => True | _ => False end →
  ∀ id, id ∈ set → revoked (sh_store (cs_shared c1)) id.
Proof.
  intros Hok Hs Hph id Hid. simpl in Hs.
  apply bind_Some in Hs as ([h' t'] & Hs & [= <-]). simpl in *.
  unfold revocation_step, revocation_received in Hs.
  destruct (rk_phase (cs_revocation c)) as [|r e g| | |]; try done. simplify_eq.
  destruct (apply_set set (sh_store (cs_shared c))) as [[[]|e'] s'] eqn:Ha.
  - destruct (apply_set_spec _ _ _ _ Ha Hok) as (Hok' & _ & Hall).
    injection Hs as <- <-. specialize (Hall eq_refl). rewrite Forall_forall in Hall.
    destruct (Hall id Hid) as [_ Hv]. by destruct r.
  - exfalso. unfold revocation_disconnected in Hs. task_cases; simpl in *; done.
Qed.

(** ** Readiness is earned, from what the run received *)

(** The tick [i] of a run of the client and the state it started in. *)
Definition at_tick (cfg : ClientConfig) (c0 : ClientState) (ticks : list Tick) (i : nat) (k : Tick)
    (c : ClientState) : Prop :=
  ticks !! i = Some k ∧ client_run cfg c0 (take i ticks) = Some c.

Definition delivers_bundle (k : Tick) (b : ProtoBundle) : Prop :=
  tk_event k = OnPolicy (PolicyReceived (Ok (Some (Some b)))).

Definition delivers_set (k : Tick) (set : list string) : Prop :=
  tk_event k = OnRevocation (RevocationReceived (Ok (Some set))).

(** The generation that bundle [b], received at [now], stands for: its own
    version, policies and mappings, valid for its time to live from then. *)
Definition generation_of (h : Shared) (now : Z) (b : ProtoBundle) (pub : PublishedSnapshot P) : Prop :=
  wb_ttl_seconds b ≠ 0%Z ∧ is_valid_version (wb_version b) = true ∧
  mappings_compile (wb_mappings b) = Ok (mapping_table (pub_normalizer pub)) ∧
  sensitive_query_params (pub_normalizer pub)
    = sensitive_query_params (pub_normalizer (Runtime.load (sh_swappable h))) ∧
  bundle_parse now (wb_policies b) (wb_entity_schema b) (wb_ttl_seconds b) (wb_version b)
    = Ok (pub_policy pub) ∧
  pub_version pub = Some (wb_version b) ∧ pub_ttl_seconds pub = wb_ttl_seconds b ∧
  pub_deadline pub = (now + wb_ttl_seconds b * nanos_per_sec)%Z.

(** The generation of the newest bundle of the run that stands for one. *)
Definition newest_generation (cfg : ClientConfig) (c0 : ClientState) (ticks : list Tick)
    (pub : PublishedSnapshot P) : Prop :=
  ∃ i k c b, at_tick cfg c0 ticks i k c ∧ delivers_bundle k b ∧
    generation_of (cs_shared c) (tk_now k) b pub ∧
    ∀ j k' c' b', i < j → at_tick cfg c0 ticks j k' c' → delivers_bundle k' b' →
      ∀ pub', ¬ generation_of (cs_shared c') (tk_now k') b' pub'.

(** Every entry of a set is a token id and revoked in the store. *)
Definition in_store (s : S) (set : list string) : Prop :=
  Forall (λ id, valid_token_id id = true ∧ revoked s id) set.

Definition applied_at (ticks : list Tick) (i : nat) (s : S) : Prop :=
  ∃ k set, ticks !! i = Some k ∧ delivers_set k set ∧ in_store s set.

(** Since tick [i] the revocation stream has delivered sets, all of them in the
    store, and done nothing else. *)
Definition uninterrupted (ticks : list Tick) (i : nat) (s : S) : Prop :=
  ∀ j k ev, i < j → ticks !! j = Some k → tk_event k = OnRevocation ev →
    ∃ set, ev = RevocationReceived (Ok (Some set)) ∧ in_store s set.

(** Induction over the past of a run. *)
Lemma client_run_past cfg c0 (I : list Tick → ClientState → Prop) :
  I [] c0 →
  (∀ past k c c', client_run cfg c0 past = Some c → I past c →
     client_step cfg (tk_jitter k) (tk_now k) (tk_event k) c = Some c' → I (past ++ [k])%list c') →
  ∀ ticks c, client_run cfg c0 ticks = Some c → I ticks c.
Proof.
  intros H0 Hstep ticks. induction ticks as [|k ticks IH] using rev_ind; intros c Hr.
  { by simplify_eq/=. }
  rewrite client_run_app in Hr. apply bind_Some in Hr as (c1 & Hr & Hs). simpl in Hs.
  apply bind_Some in Hs as (c2 & Hs & [= ->]). eauto.
Qed.

Lemma at_tick_snoc cfg c0 past k i k' c' :
  at_tick cfg c0 past i k' c' → at_tick cfg c0 (past ++ [k])%list i k' c'.
Proof.
  intros [Hi Hr]. split; [by apply lookup_app_l_Some|].
  by rewrite take_app_le by (apply lookup_lt_Some in Hi; lia).
Qed.

Lemma at_tick_snoc_inv cfg c0 past k c i k' c' :
  client_run cfg c0 past = Some c → at_tick cfg c0 (past ++ [k])%list i k' c' →
  at_tick cfg c0 past i k' c' ∨ (i = length past ∧ k' = k ∧ c' = c).
Proof.
  intros Hc [[Hi|[Hge Hi]]%lookup_app_Some Hr].
  - left. split; [done|]. by rewrite take_app_le in Hr by (apply lookup_lt_Some in Hi; lia).
  - apply list_lookup_singleton_Some in Hi as [Hl ->]. right.
    assert (i = length past) as -> by lia. rewrite take_app_length in Hr. by simplify_eq.
Qed.

Lemma at_tick_last cfg c0 past k c :
  client_run cfg c0 past = Some c → at_tick cfg c0 (past ++ [k])%list (length past) k c.
Proof. intros Hc. split; [by apply list_lookup_middle|]. by rewrite take_app_length. Qed.

Lemma compile_bundle_generation h now b :
  match compile_bundle h now b with
  | Ok snapshot => generation_of h now b (into_published now snapshot)
  | Err _ => ∀ pub, ¬ generation_of h now b pub
  end.
Proof.
  unfold compile_bundle, generation_of.
  destruct (wb_ttl_seconds b =? 0)%Z eqn:Ht; simpl; boolify; [naive_solver|].
  destruct (is_valid_version (wb_version b)) eqn:Hv; simpl; [|naive_solver].
  destruct (mappings_compile (wb_mappings b)) as [table|]; simpl; [|naive_solver].
  destruct (bundle_parse _ _ _ _ _); simpl; naive_solver.
Qed.

(** A step replaces the generation exactly when it receives a bundle that
    stands for one, with that one. *)
Lemma client_step_generation cfg k c c' :
  client_step cfg (tk_jitter k) (tk_now k) (tk_event k) c = Some c' →
  (Runtime.load (sh_swappable (cs_shared c')) = Runtime.load (sh_swappable (cs_shared c)) ∧
   ∀ b, delivers_bundle k b → ∀ pub, ¬ generation_of (cs_shared c) (tk_now k) b pub) ∨
  (∃ b, delivers_bundle k b ∧
     generation_of (cs_shared c) (tk_now k) b (Runtime.load (sh_swappable (cs_shared c')))).
Proof.
  unfold delivers_bundle. intros Hs. destruct (tk_event k) as [ev|ev|ev|id|] eqn:Hk; simpl in Hs.
  2:{ left. apply bind_Some in Hs as ([h' t'] & Hs & [= <-]).
      apply revocation_step_readiness in Hs as (Hw & _). simpl. by rewrite Hw. }
  2:{ left. apply bind_Some in Hs as ([h' w'] & Hs & [= <-]).
      apply watcher_step_readiness in Hs as (_ & Hw & _). simpl. by rewrite Hw. }
  2,3: left; by simplify_eq/=.
  apply bind_Some in Hs as ([h' t'] & Hs & [= <-]). simpl.
  unfold policy_step, policy_disconnected, apply_bundle in Hs.
  destruct (pt_phase (cs_policy c)), ev as [[]|[[[b|]|]|]| | |[]]; try done;
    try (left; task_cases; try simplify_eq/=; (split; [done|by intros ? [=]])).
  pose proof (compile_bundle_generation (cs_shared c) (tk_now k) b) as Hg.
  destruct (compile_bundle (cs_shared c) (tk_now k) b); simplify_eq/=; [right; by exists b|left].
  split; [done|]. by intros ? [= <-].
Qed.

Lemma run_generation cfg min max initial store ticks c :
  client_run cfg (spawn_authority_client min max initial store) ticks = Some c →
  newest_generation cfg (spawn_authority_client min max initial store) ticks
    (Runtime.load (sh_swappable (cs_shared c))) ∨
  Runtime.load (sh_swappable (cs_shared c)) = Runtime.load initial.
Proof.
  revert ticks c. apply (client_run_past _ _ (λ ticks c, newest_generation _ _ ticks _ ∨ _)); [by right|].
  intros past k c c' Hc Hi Hs.
  destruct (client_step_generation _ _ _ _ Hs) as [[-> Hno]|(b & Hb & Hg)].
  - destruct Hi as [(i & k1 & c1 & b & Hat & Hb & Hg & Hlast)|]; [left|by right].
    exists i, k1, c1, b. split_and!; [by apply at_tick_snoc|done|done|].
    intros j k' c2 b' Hij [Hj|(-> & -> & ->)]%(at_tick_snoc_inv _ _ _ _ c); [by eapply Hlast|apply Hno|done].
  - left. exists (length past), k, c, b. split_and!; [by apply at_tick_last|done|done|].
    intros j k' c2 b' Hij [Hj _]. apply lookup_lt_Some in Hj. rewrite length_app in Hj. simpl in Hj. lia.
Qed.

Lemma in_store_mono s s' set :
  (∀ id, revoked s id → revoked s' id) → in_store s set → in_store s' set.
Proof. intros Hk Hs. eapply Forall_impl; [exact Hs|]. naive_solver. Qed.

Lemma applied_at_snoc ticks i s s' k :
  (∀ id, revoked s id → revoked s' id) → applied_at ticks i s → applied_at (ticks ++ [k])%list i s'.
Proof.
  intros Hk (k1 & set & Hi & Hd & Hs). exists k1, set.
  split_and!; [by apply lookup_app_l_Some|done|by eapply in_store_mono].
Qed.

Lemma uninterrupted_snoc ticks i s s' k :
  (∀ id, revoked s id → revoked s' id) → uninterrupted ticks i s →
  (∀ ev, tk_event k = OnRevocation ev →
     ∃ set, ev = RevocationReceived (Ok (Some set)) ∧ in_store s' set) →
  uninterrupted (ticks ++ [k])%list i s'.
Proof.
  intros Hk Hu Hev j k' ev Hij [Hj|[_ Hj]]%lookup_app_Some He.
  - destruct (Hu _ _ _ Hij Hj He) as (set & -> & Hs). exists set. split; [done|by eapply in_store_mono].
  - apply list_lookup_singleton_Some in Hj as [_ <-]. by apply Hev.
Qed.

(** A step of the revocation task has put the set it received into the store,
    or it has not made the connection ready. *)
Lemma revocation_step_applies cfg jitter now ev h t h' t' :
  revocation_step cfg jitter now ev h t = Some (h', t') → rs_ok (sh_store h) →
  (∃ set, ev = RevocationReceived (Ok (Some set)) ∧ in_store (sh_store h') set) ∨
  (rk_applied_a_set t' = rk_applied_a_set t ∧ ∀ e g, rk_phase t' ≠ RevocationStream true e g).
Proof.
  intros Hs Hok. unfold revocation_step, revocation_received in Hs.
  destruct (rk_phase t) as [|[] e g| | |], ev as [[]|[[set|]|]| | |[]]; try done;
    try (right; unfold revocation_disconnected in Hs; task_cases; try simplify_eq/=;
         (split; [done|by intros ? ? [=]])).
  all: destruct (apply_set set (sh_store h)) as [[[]|err] s'] eqn:Ha.
  1,3: left; exists set; split; [done|]; injection Hs as <- <-;
    destruct (apply_set_spec _ _ _ _ Ha Hok) as (_ & _ & Hall); by apply Hall.
  all: right; unfold revocation_disconnected in Hs; task_cases; done.
Qed.

Definition sets_inv (ticks : list Tick) (c : ClientState) : Prop :=
  let s := sh_store (cs_shared c) in
  rs_ok s ∧
  (rk_applied_a_set (cs_revocation c) = true → ∃ i, applied_at ticks i s) ∧
  (∀ e g, rk_phase (cs_revocation c) = RevocationStream true e g →
     ∃ i, applied_at ticks i s ∧ uninterrupted ticks i s).

Lemma spawn_sets_inv min max initial store :
  rs_ok store → sets_inv [] (spawn_authority_client min max initial store).
Proof. intros Hok. split; [exact Hok|]. by split. Qed.

Lemma sets_inv_other past k c c' :
  sets_inv past c → rs_ok (sh_store (cs_shared c')) →
  (∀ id, revoked (sh_store (cs_shared c)) id → revoked (sh_store (cs_shared c')) id) →
  cs_revocation c' = cs_revocation c → (∀ ev, tk_event k ≠ OnRevocation ev) →
  sets_inv (past ++ [k])%list c'.
Proof.
  intros (_ & Hset & Hstream) Hok Hk Hc Hne. split; [done|]. rewrite Hc. split.
  - intros Ha. destruct (Hset Ha) as (i & Hi). exists i. by eapply applied_at_snoc.
  - intros e g Hp. destruct (Hstream _ _ Hp) as (i & Hi & Hu). exists i.
    split; [by eapply applied_at_snoc|]. eapply uninterrupted_snoc; naive_solver.
Qed.

Lemma sets_inv_step cfg past k c c' :
  sets_inv past c → client_step cfg (tk_jitter k) (tk_now k) (tk_event k) c = Some c' →
  sets_inv (past ++ [k])%list c'.
Proof.
  intros Hi Hs. pose proof Hi as (Hok & Hset & _).
  destruct (client_step_marks _ _ _ _ _ _ Hs Hok) as [Hok' Hk].
  destruct (tk_event k) as [ev|ev|ev|id|] eqn:He; simpl in Hs.
  1,3-5: apply (sets_inv_other _ _ c); try done; try (by intros ?; rewrite He).
  1,2: apply bind_Some in Hs as ([h' t'] & _ & [= <-]); done.
  1,2: by simplify_eq/=.
  apply bind_Some in Hs as ([h' t'] & Hs & [= <-]). split; [done|]. simpl in *.
  destruct (revocation_step_applies _ _ _ _ _ _ _ _ Hs Hok) as [(set & -> & Hin)|[Ha Hp]].
  - assert (applied_at (past ++ [k])%list (length past) (sh_store h')) as Hap.
    { exists k, set. split_and!; [by apply list_lookup_middle|by unfold delivers_set|done]. }
    split; intros; exists (length past); [done|split; [done|]].
    intros j k' ev Hj Hl. apply lookup_lt_Some in Hl. rewrite length_app in Hl. simpl in Hl. lia.
  - split; [|by intros e g Hph; destruct (Hp e g)]. rewrite Ha. intros Happ.
    destruct (Hset Happ) as (i & Hat). exists i. by eapply applied_at_snoc.
Qed.

(** [C29] Readiness is earned: in every state the client can reach, the sidecar
    counts as ready only if the generation in force is that of a bundle the
    run received, with that bundle's version, policies and mappings and its
    time to live counted from the receipt, and the newest such bundle; and a
    revocation set the run received is in the store, every entry of it; and, if
    disconnects are to fail closed, the stream has since that set delivered
    only further sets that are in the store too and is still up, shutdown
    apart. *)
Theorem client_ready_sound cfg min max initial store ticks t c :
  pub_version (Runtime.load initial) = None → rs_ok store → clocked t ticks →
  client_run cfg (spawn_authority_client min max initial store) ticks = Some c →
  fully_ready (sh_readiness (cs_shared c)) = true →
  newest_generation cfg (spawn_authority_client min max initial store) ticks
    (Runtime.load (sh_swappable (cs_shared c))) ∧
  (∃ i, applied_at ticks i (sh_store (cs_shared c))) ∧
  (cl_fail_closed_on_disconnect cfg = true →
     (∃ elapsed grace i, rk_phase (cs_revocation c) = RevocationStream true elapsed grace ∧
        applied_at ticks i (sh_store (cs_shared c)) ∧ uninterrupted ticks i (sh_store (cs_shared c))) ∨
     sh_cancelled (cs_shared c) = true).
Proof.
  intros Hv Hok Hc Hr Hready.
  destruct (client_run_inv cfg watch_inv (watch_inv_step cfg) _ _ _ _
              (spawn_watch_inv t min max initial store Hv) Hc Hr) as (Hp & _ & _).
  destruct (client_run_inv cfg (λ _, revocation_inv cfg)
              (λ _ _ _ _ Hi _ Hs, revocation_inv_step cfg _ _ _ _ _ Hs Hi) _ _ _ _
              (spawn_revocation_inv cfg min max initial store) Hc Hr) as (_ & Hph & Hrev).
  destruct (client_run_past cfg _ sets_inv (spawn_sets_inv min max initial store Hok)
              (λ past k c c' _ Hi Hs, sets_inv_step cfg past k c c' Hi Hs) _ _ Hr) as (_ & Hset & Hstream).
  unfold fully_ready in Hready. boolify.
  split.
  { destruct (run_generation _ _ _ _ _ _ _ Hr) as [|Hinit]; [done|].
    destruct Hp as [[v Hv']%accepted_version|(? & _)]; congruence. }
  destruct Hrev as [Happ Hfc]; [done|]. split; [by apply Hset|]. intros Hclosed. specialize (Hfc Hclosed).
  destruct (rk_phase (cs_revocation c)) as [|ready elapsed grace| | |]; try done.
  - subst ready. left. destruct (Hstream _ _ eq_refl) as (i & ? & ?). eauto 6.
  - congruence.
  - auto.
Qed.

End Marks.
End Tasks.

(** ** Bounded delays *)

(** Ten reconnects or ten thousand: the wait is never above the configured
    maximum, never below 85% of the minimum (or the maximum), and doubles until
    it gets there. *)
Fixpoint backoff_after (jitters : list (Z → Z)) (b : ExponentialBackoff) : ExponentialBackoff :=
  match jitters with [] => b | j :: js => backoff_after js (snd (backoff_next j b)) end.

Definition jitter_within (jitter : Z → Z) : Prop :=
  ∀ base, (0 ≤ base)%Z → (85 * base - 100 ≤ 100 * jitter base ≤ 115 * base + 100)%Z.

Lemma backoff_after_current js : ∀ b,
  (0 < bo_min b ≤ bo_current b ∧ bo_current b ≤ bo_max b)%Z →
  let b' := backoff_after js b in
  bo_min b' = bo_min b ∧ bo_max b' = bo_max b ∧
  bo_current b' = Z.min (bo_current b * 2 ^ Z.of_nat (length js)) (bo_max b).
Proof.
  induction js as [|j js IH]; intros b Hb; cbv zeta.
  - simpl. rewrite Z.mul_1_r. split_and!; [done..|lia].
  - change (backoff_after (j :: js) b) with (backoff_after js (snd (backoff_next j b))).
    destruct (IH (snd (backoff_next j b))) as (H1 & H2 & H3); [simpl; lia|].
    rewrite H1, H2, H3. simpl bo_min. simpl bo_max. simpl bo_current. split_and!; [done..|].
    simpl length. rewrite Nat2Z.inj_succ, Z.pow_succ_r by lia.
    pose proof (Z.pow_pos_nonneg 2 (Z.of_nat (length js)) ltac:(lia) ltac:(lia)).
    destruct (Z.min_spec (bo_current b) (bo_max b)) as [[? ->]|[? ->]];
    destruct (Z.min_spec (bo_current b * 2) (bo_max b)) as [[? E]|[? E]]; nia.
Qed.

(** Reconnect delays are bounded and back off: after any number of failed
    attempts the next delay is at most the configured maximum, at least 85% of
    the smaller of the maximum and the minimum doubled that many times, within
    one nanosecond, and a reset returns to the minimum. *)
Theorem backoff_bounded min max js j :
  (0 < min)%Z → jitter_within j →
  let b := backoff_after js (backoff_new min max) in
  let base := Z.min (min * 2 ^ Z.of_nat (length js)) (Z.max max min) in
  (fst (backoff_next j b) ≤ Z.max max min)%Z ∧
  (85 * base - 100 ≤ 100 * fst (backoff_next j b))%Z ∧
  bo_current (backoff_reset b) = min.
Proof.
  intros Hm Hj. cbv zeta.
  destruct (backoff_after_current js (backoff_new min max)) as (H1 & H2 & H3); [simpl; lia|].
  simpl in *. rewrite H1, H2, H3.
  pose proof (Z.pow_pos_nonneg 2 (Z.of_nat (length js)) ltac:(lia) ltac:(lia)) as Hp.
  set (base := Z.min (min * 2 ^ Z.of_nat (length js)) (Z.max max min)).
  assert (0 ≤ base ≤ Z.max max min)%Z as Hb by (unfold base; nia).
  rewrite (Z.min_l base) by lia. specialize (Hj base ltac:(lia)). lia.
Qed.

(** ** Samples *)
Module Samples.

Import AuthorityRevocation.Samples.
#[local] Existing Instance ctok_format.
#[local] Existing Instance bit_time.

(** A header map is its list; every method is accepted; a policy is a version. *)
#[local] Instance plain_http : HttpCrate := {|
  HeaderMap := list (string * string);
  hm_iter := id;
  hm_from_iter := id;
  hm_remove n := filter (λ kv, kv.1 ≠ n);
  header_name_from_bytes := Ok;
  authority_from_str := Ok;
|}.
#[local] Instance any_method : MethodParse := Some.
#[local] Instance constant_parser : BundleParser DenyAllPolicyEvaluation := λ _ _ _ _ _, Ok DenyAll.

(** A store that is its set. *)
#[local] Instance set_store_ops : RevocationStore (list string) := {|
  Revocation.is_revoked s t := (Ok (bool_decide (t ∈ s)), s);
  add_revocation s t := (Ok tt, t :: s);
|}.
#[local] Program Instance set_store_laws : RevocationLaws (list string) := {|
  rs_ok _ := True;
  revoked s t := t ∈ s;
|}.
Solve Obligations with (simpl; intros; rewrite ?bool_decide_eq_true_2 by done; set_solver).

Definition error_text (raw : string) : string := raw.

Definition initial : SwappablePolicyEvaluation DenyAllPolicyEvaluation :=
  from_snapshot 0 {| rt_policy := DenyAll; rt_normalizer := normalizer_new empty_protected;
                     rt_ttl_seconds := 0; rt_version := None |}.

Definition cfg : ClientConfig :=
  {| cl_fail_closed_on_disconnect := true; cl_readiness_grace := at_second 5;
     cl_credentials := Some RuntimeBearer; cl_publishes := true |}.

Definition bundle : ProtoBundle :=
  {| wb_version := "7"; wb_policies := "permit(principal,action,resource);"; wb_entity_schema := "{}";
     wb_ttl_seconds := 30;
     wb_mappings := Some {| ms_format_version := 1; ms_default_protected := true; ms_rules := [] |} |}.

Definition tick (second : Z) (ev : ClientEvent) : Tick :=
  {| tk_now := at_second second; tk_jitter := id; tk_event := ev |}.

Abbreviation start := (spawn_authority_client (at_second 1) (at_second 60) initial ([] : list string)).
Abbreviation run := (client_run error_text cfg start).

(** Both streams connect, a bundle and a set arrive. *)
Definition opening : list Tick :=
  [ tick 1 (OnWatcher WatcherLoads);
    tick 1 (OnPolicy (PolicyOpened (Ok tt)));
    tick 2 (OnPolicy (PolicyReceived (Ok (Some (Some bundle)))));
    tick 2 (OnPolicy (PolicyContinues (at_second 1000)));
    tick 2 (OnRevocation (RevocationOpened (Ok tt)));
    tick 3 (OnRevocation (RevocationReceived (Ok (Some [leaked]))));
    tick 3 (OnPolicy (PolicyContinues (at_second 1000)));
    tick 3 (OnWatcher WatcherWoken);
    tick 3 (OnWatcher WatcherLoads) ].

Lemma opening_clocked : clocked 0 opening.
Proof. unfold opening. simpl. repeat split; vm_compute; discriminate. Qed.

Lemma client_ready_sound_witness :
  match run opening with
  | Some c => fully_ready (sh_readiness (cs_shared c)) = true ∧
      pub_version (Runtime.load (sh_swappable (cs_shared c))) = Some "7" ∧
      newest_generation error_text cfg start opening (Runtime.load (sh_swappable (cs_shared c))) ∧
      ∃ i, applied_at opening i (sh_store (cs_shared c))
  | None => False
  end.
Proof.
  assert (Hv : match run opening with
               | Some c => fully_ready (sh_readiness (cs_shared c)) = true ∧
                   pub_version (Runtime.load (sh_swappable (cs_shared c))) = Some "7"
               | None => False
               end) by (vm_compute; split; reflexivity).
  destruct (run opening) as [c|] eqn:E; [|destruct Hv]. destruct Hv as [Hr Hver].
  destruct (client_ready_sound (L := set_store_laws) error_text cfg (at_second 1) (at_second 60) initial []
              opening 0 c
              eq_refl I opening_clocked E Hr) as (Hg & Hset & _).
  split; [exact Hr|]. split; [exact Hver|]. split; [exact Hg|exact Hset].
Defined.

Lemma freshness_watched_witness :
  match run opening with
  | Some c => policy_bundle_fresh (sh_readiness (cs_shared c)) = true ∧
      cs_watcher c = WatcherArmed (at_second 32) ∧ watched c
  | None => False
  end.
Proof.
  assert (Hv : match run opening with
               | Some c => policy_bundle_fresh (sh_readiness (cs_shared c)) = true ∧
                   cs_watcher c = WatcherArmed (at_second 32) ∧
                   (last_time 0 opening
                      < pub_deadline (Runtime.load (sh_swappable (cs_shared c))))%Z
               | None => False
               end) by (vm_compute; repeat split).
  destruct (run opening) as [c|] eqn:E; [|destruct Hv]. destruct Hv as (Hf & Hw & Hd).
  destruct (freshness_watched error_text cfg (at_second 1) (at_second 60) initial [] opening 0 c
              eq_refl opening_clocked E) as [Ha _].
  split; [exact Hf|]. split; [exact Hw|]. apply Ha; [exact Hf|exact Hd|]. rewrite Hw. discriminate.
Defined.

Lemma backoff_bounded_witness :
  let b := backoff_after [id; id; id] (backoff_new (at_second 1) (at_second 60)) in
  fst (backoff_next id b) = at_second 8 ∧ (fst (backoff_next id b) ≤ at_second 60)%Z.
Proof.
  split; [vm_compute; reflexivity|].
  refine (proj1 (backoff_bounded (at_second 1) (at_second 60) [id; id; id] id _ _));
    [vm_compute; reflexivity|]. intros base Hb. unfold id. lia.
Defined.

(** A watcher that gets to run only after a generation has expired finds it
    stale and waits for the next one: the flag stays set. *)
Definition late : list Tick :=
  [ tick 1 (OnWatcher WatcherLoads);
    tick 1 (OnPolicy (PolicyOpened (Ok tt)));
    tick 2 (OnPolicy (PolicyReceived (Ok (Some (Some bundle)))));
    tick 2 (OnPolicy (PolicyContinues (at_second 1000)));
    tick 2 (OnPolicy (PolicyContinues (at_second 1000)));
    tick 33 (OnWatcher WatcherWoken);
    tick 33 (OnWatcher WatcherLoads) ].

Lemma late_watcher_keeps_flag :
  match run late with
  | Some c => policy_bundle_fresh (sh_readiness (cs_shared c)) = true ∧
      is_fresh (Runtime.load (sh_swappable (cs_shared c))) (at_second 33) = false ∧
      cs_watcher c = WatcherIdle ∧ sh_notified (cs_shared c) = false
  | None => False
  end.
Proof. vm_compute. repeat split. Qed.

End Samples.
