(* ===== verification/RevocationFeed.v ===== *)
(** * From the Authority's revocations to a sidecar's Stage 1

    The server side of the revocation stream ([firma-authority/src/service.rs],
    [watch_revocations], with the reload task of [revocation.rs]) connected to
    the client of [AuthorityClient] by an ordered channel.  The reload task
    signals after it has written memory, a subscriber subscribes before it
    reads its first set, and each signal makes it send the whole set again: the
    steps are those between which the other side can run. *)

From stdpp Require Import sorting.
From S2P Require Import Prelude RustStr ActionClasses Core Redaction MappingTable Decision Json.
From S2P Require Import Normalizer Revocation Session Cedar Constraint Runtime AuthorityIssuance AuthorityRevocation AuthorityClient.

#[local] Open Scope string_scope.

(** ** The stream's server side *)

(** A [RevocationEvent] of the protocol. *)
Record WireRevocation := { wr_token_id : string; wr_reason : string; wr_timestamp : Z * Z }.

(** [entry_to_proto] and [set_to_proto]. *)
Definition entry_to_proto (e : RevocationEntry) : WireRevocation :=
  {| wr_token_id := re_token_id e; wr_reason := re_reason e;
     wr_timestamp := to_proto_timestamp (re_timestamp e) |}.

Definition set_to_proto (entries : list RevocationEntry) : list WireRevocation :=
  entry_to_proto <$> entries.

(** Where the subscriber's task of [watch_revocations] is: no subscriber,
    subscribed and about to read, waiting for a signal, woken and about to
    read. *)
Inductive FeedPhase := FeedClosed | FeedOpening | FeedWaiting | FeedReading.

(** [fd_due]: the reload task has new entries to signal; [fd_signal]: a signal,
    or the mark of missed ones, waits in the subscriber's receiver. *)
Record Feed := {
  fd_store : RevocationFileStore;
  fd_due : bool;
  fd_signal : bool;
  fd_phase : FeedPhase;
}.

Definition feed_close (f : Feed) : Feed :=
  {| fd_store := fd_store f; fd_due := fd_due f; fd_signal := false; fd_phase := FeedClosed |}.

Section Feed.
Context {TF : TokenIdFormat} {RF : Rfc3339}.

Inductive FeedEvent :=
  | FeedReloads (content : option (Result string string))
  | FeedSignals
  | FeedSubscribes
  | FeedReceives
  | FeedSends.

(** One step of the reload task or of the subscriber's task, and the message
    sent. *)
Definition feed_step (now : Z) (ev : FeedEvent) (f : Feed) : option (option (list WireRevocation) * Feed) :=
  match ev with
  | FeedReloads content =>
      if fd_due f then None
      else
        let '(result, s) := reload_from_file (fd_store f) now content in
        let due := match result with Ok (_ :: _) => true | _ => false end in
        Some (None, {| fd_store := s; fd_due := due; fd_signal := fd_signal f; fd_phase := fd_phase f |})
  | FeedSignals =>
      if fd_due f then
        Some (None, {| fd_store := fd_store f; fd_due := false;
                       fd_signal := match fd_phase f with FeedClosed => false | _ => true end;
                       fd_phase := fd_phase f |})
      else None
  | FeedSubscribes =>
      match fd_phase f with
      | FeedClosed =>
          Some (None, {| fd_store := fd_store f; fd_due := fd_due f; fd_signal := false;
                         fd_phase := FeedOpening |})
      | _ => None
      end
  | FeedReceives =>
      match fd_phase f with
      | FeedWaiting =>
          if fd_signal f then
            Some (None, {| fd_store := fd_store f; fd_due := fd_due f; fd_signal := false;
                           fd_phase := FeedReading |})
          else None
      | _ => None
      end
  | FeedSends =>
      match fd_phase f with
      | FeedOpening | FeedReading =>
          Some (Some (set_to_proto (current_set (fd_store f) now)),
                {| fd_store := fd_store f; fd_due := fd_due f; fd_signal := fd_signal f;
                   fd_phase := FeedWaiting |})
      | _ => None
      end
  end.

End Feed.

(** ** The connection *)

Section Link.
Context {HC : HttpCrate} {P : Type} {PE : PolicyEvaluation P} {BP : BundleParser P} {MP : MethodParse}.
Context {RF : Rfc3339} {TF : TokenIdFormat}.
Context {S : Type} {RS : RevocationStore S}.
Variable token_id_error : string → string.
Variable cfg : ClientConfig.

Record Link := {
  lk_feed : Feed;
  lk_channel : list (list WireRevocation);
  lk_client : ClientState (P := P) (S := S);
}.

Inductive LinkEvent :=
  | LinkFeed (ev : FeedEvent)
  | LinkDelivers
  | LinkClient (ev : ClientEvent).

(** A call that the client has left is closed, with what was under way. *)
Definition settle (l : Link) : Link :=
  match rk_phase (cs_revocation (lk_client l)) with
  | RevocationConnect | RevocationStream _ _ _ => l
  | _ => {| lk_feed := feed_close (lk_feed l); lk_channel := []; lk_client := lk_client l |}
  end.

(** Sets reach the client through the channel only, and a connection opens only
    to a subscribed task. *)
Definition client_may (l : Link) (ev : ClientEvent) : bool :=
  match ev with
  | OnRevocation (RevocationReceived (Ok (Some _))) => false
  | OnRevocation (RevocationOpened (Ok _)) =>
      match fd_phase (lk_feed l) with FeedClosed => false | _ => true end
  | _ => true
  end.

Definition link_step (jitter : Z → Z) (now : Z) (ev : LinkEvent) (l : Link) : option Link :=
  match ev with
  | LinkFeed FeedSubscribes =>
      match rk_phase (cs_revocation (lk_client l)) with
      | RevocationConnect =>
          '(_, f) ← feed_step now FeedSubscribes (lk_feed l);
          Some {| lk_feed := f; lk_channel := []; lk_client := lk_client l |}
      | _ => None
      end
  | LinkFeed ev =>
      '(m, f) ← feed_step now ev (lk_feed l);
      Some {| lk_feed := f; lk_channel := (lk_channel l ++ option_list m)%list; lk_client := lk_client l |}
  | LinkDelivers =>
      match lk_channel l with
      | [] => None
      | m :: channel =>
          c ← client_step token_id_error cfg jitter now
                (OnRevocation (RevocationReceived (Ok (Some (wr_token_id <$> m))))) (lk_client l);
          Some (settle {| lk_feed := lk_feed l; lk_channel := channel; lk_client := c |})
      end
  | LinkClient ev =>
      if client_may l ev then
        c ← client_step token_id_error cfg jitter now ev (lk_client l);
        Some (settle {| lk_feed := lk_feed l; lk_channel := lk_channel l; lk_client := c |})
      else None
  end.

Record LinkTick := { lt_now : Z; lt_jitter : Z → Z; lt_event : LinkEvent }.

Fixpoint link_run (l : Link) (ticks : list LinkTick) : option Link :=
  match ticks with
  | [] => Some l
  | t :: ticks => l' ← link_step (lt_jitter t) (lt_now t) (lt_event t) l; link_run l' ticks
  end.

Fixpoint link_clocked (t : Z) (ticks : list LinkTick) : Prop :=
  match ticks with [] => True | k :: ticks => (t ≤ lt_now k)%Z ∧ link_clocked (lt_now k) ticks end.

Fixpoint link_time (t : Z) (ticks : list LinkTick) : Z :=
  match ticks with [] => t | k :: ticks => link_time (lt_now k) ticks end.

(** ** Nothing is lost on the way *)

Context {L : RevocationLaws S}.

Definition covered (l : Link) (id : TokenId) : Prop :=
  revoked (sh_store (cs_shared (lk_client l))) id ∨
  ∃ m, m ∈ lk_channel l ∧ id ∈ wr_token_id <$> m.

Definition quiet (f : Feed) : Prop :=
  fd_phase f = FeedWaiting ∧ fd_due f = false ∧ fd_signal f = false.

Definition keyed (s : RevocationFileStore) : Prop :=
  ∀ k e, rv_entries s !! k = Some e → re_token_id e = k.

(** Whenever the server has nothing left to send, every live revocation is in
    the client's store or on its way. *)
Record link_inv (t : Z) (l : Link) : Prop := {
  li_store : rs_ok (sh_store (cs_shared (lk_client l)));
  li_keyed : keyed (fd_store (lk_feed l));
  li_covered : quiet (lk_feed l) → ∀ id e,
    rv_entries (fd_store (lk_feed l)) !! id = Some e →
    is_expired (fd_store (lk_feed l)) e t = false → covered l id;
}.

Lemma is_expired_earlier s e t now :
  (t ≤ now)%Z → is_expired s e now = false → is_expired s e t = false.
Proof. unfold is_expired. rewrite !Z.ltb_ge. lia. Qed.

Lemma reload_keyed s now content :
  keyed s → keyed (snd (reload_from_file s now content)).
Proof.
  intros Hk. destruct content as [[content|e]|]; simpl; [|done|done].
  destruct (ingest s now (content_lines content)) as [new s'] eqn:Hi. simpl.
  apply ingest_spec in Hi as (_ & _ & Hl & _). intros k e [Hold|(_ & _ & Hid)]%Hl; [by apply Hk|done].
Qed.

(** A reload that has nothing to signal has changed nothing. *)
Lemma reload_silent s now content r s' :
  reload_from_file s now content = (r, s') →
  match r with Ok (_ :: _) => False | _ => True end →
  rv_entries s' = rv_entries s ∧ (∀ e t, is_expired s' e t = is_expired s e t).
Proof.
  destruct content as [[content|e]|]; simpl; [|by intros [= <- <-]|by intros [= <- <-]].
  destruct (ingest s now (content_lines content)) as [new s1] eqn:Hi. intros [= <- <-].
  destruct new; [|done]. intros _. apply ingest_spec in Hi as (Ht & Hm & Hl & _). split.
  - apply map_eq. intros i. apply option_eq. intros e. rewrite Hl. set_solver.
  - intros e t. unfold is_expired. by rewrite Ht, Hm.
Qed.

Lemma covered_live s now id e :
  keyed s → rv_entries s !! id = Some e → is_expired s e now = false →
  id ∈ wr_token_id <$> set_to_proto (current_set s now).
Proof.
  intros Hk He Hx. unfold set_to_proto. rewrite <-list_fmap_compose. apply list_elem_of_fmap.
  exists e. split; [symmetry; by apply Hk|]. unfold current_set. rewrite merge_sort_Permutation.
  apply list_elem_of_filter. split; [done|]. apply list_elem_of_fmap. exists (id, e).
  split; [done|]. by apply elem_of_map_to_list.
Qed.

Lemma settle_client l : lk_client (settle l) = lk_client l.
Proof. unfold settle. by destruct (rk_phase _). Qed.

Lemma settle_store l : fd_store (lk_feed (settle l)) = fd_store (lk_feed l).
Proof. unfold settle. by destruct (rk_phase _). Qed.

(** After [settle] a quiet server has the client on the line. *)
Lemma settle_quiet l :
  quiet (lk_feed (settle l)) →
  settle l = l ∧
  match rk_phase (cs_revocation (lk_client l)) with
  | RevocationConnect | RevocationStream _ _ _ => True
  | _ => False
  end.
Proof. unfold settle. destruct (rk_phase _); intros [H _]; simpl in H; done. Qed.

Lemma link_inv_feed t now jitter ev l l' :
  link_step jitter now (LinkFeed ev) l = Some l' → (t ≤ now)%Z → link_inv t l → link_inv now l'.
Proof.
  intros Hs Ht [Hst Hk Hc]. destruct ev as [content| | | |]; simpl in Hs.
  - destruct (fd_due (lk_feed l)) eqn:Hdue; [done|].
    pose proof (reload_keyed (fd_store (lk_feed l)) now content Hk) as Hk'.
    destruct (reload_from_file (fd_store (lk_feed l)) now content) as [r s'] eqn:Hr.
    simplify_eq/=. rewrite app_nil_r. split; simpl; [done|done|].
    intros (Hph & Hd & Hsig) id e He Hx. simpl in *.
    destruct (reload_silent _ _ _ _ _ Hr) as [Hsame Hexp]; [by destruct r as [[]|]|].
    rewrite Hsame in He. rewrite Hexp in Hx.
    apply (Hc ltac:(done) id e He). by eapply is_expired_earlier.
  - destruct (fd_due (lk_feed l)); [|done]. simplify_eq/=. rewrite app_nil_r.
    split; simpl; [done|done|]. intros (Hph & _ & Hsig). simpl in *. by rewrite Hph in Hsig.
  - destruct (rk_phase (cs_revocation (lk_client l))); try done.
    destruct (fd_phase (lk_feed l)); try done. simplify_eq/=. split; simpl; [done|done|]. by intros [? _].
  - destruct (fd_phase (lk_feed l)); try done. destruct (fd_signal (lk_feed l)); [|done].
    simplify_eq/=. split; simpl; [done|done|]. by intros [? _].
  - assert (Hsend : l' = {| lk_feed := {| fd_store := fd_store (lk_feed l); fd_due := fd_due (lk_feed l);
                                          fd_signal := fd_signal (lk_feed l); fd_phase := FeedWaiting |};
                            lk_channel := (lk_channel l ++ [set_to_proto (current_set (fd_store (lk_feed l)) now)])%list;
                            lk_client := lk_client l |}).
    { destruct (fd_phase (lk_feed l)); try done; by injection Hs as <-. }
    subst l'. split; simpl; [done|done|]. intros _ id e He Hx. right. simpl.
    eexists. split; [|by eapply covered_live]. set_solver.
Qed.

Lemma link_inv_client t now l c ch :
  link_inv t l → (t ≤ now)%Z →
  rs_ok (sh_store (cs_shared c)) →
  (∀ id, covered l id → match rk_phase (cs_revocation c) with
                        | RevocationConnect | RevocationStream _ _ _ => True | _ => False end →
     covered {| lk_feed := lk_feed l; lk_channel := ch; lk_client := c |} id) →
  link_inv now (settle {| lk_feed := lk_feed l; lk_channel := ch; lk_client := c |}).
Proof.
  intros [Hst Hk Hc] Ht Hok Hcov. split; rewrite ?settle_client, ?settle_store; simpl; [done|done|].
  intros Hq id e He Hx. destruct (settle_quiet _ Hq) as [Hsame Hph]. rewrite Hsame in *. simpl in *.
  apply Hcov; [|done]. apply (Hc Hq id e He). by eapply is_expired_earlier.
Qed.

Lemma received_leaves_connect jitter now set c c' :
  client_step token_id_error cfg jitter now (OnRevocation (RevocationReceived (Ok (Some set)))) c = Some c' →
  rk_phase (cs_revocation c') ≠ RevocationConnect.
Proof.
  simpl. intros Hs. apply bind_Some in Hs as ([h' t'] & Hs & [= <-]).
  unfold revocation_step, revocation_received, revocation_disconnected in Hs.
  split_matches.
Qed.

Lemma link_inv_step t now jitter ev l l' :
  link_step jitter now ev l = Some l' → (t ≤ now)%Z → link_inv t l → link_inv now l'.
Proof.
  intros Hs Ht Hi. pose proof (li_store _ _ Hi) as Hst.
  destruct ev as [ev| |ev]; [by eapply link_inv_feed| |].
  - unfold link_step in Hs. destruct (lk_channel l) as [|m ch] eqn:Hch; [done|].
    apply bind_Some in Hs as (c & Hs & [= <-]).
    destruct (client_step_marks _ _ _ _ _ _ _ Hs Hst) as [Hok Hkeep].
    apply (link_inv_client t); [done..|]. intros id [Hr|(m' & Hm' & Hid)] Hph; [left; by apply Hkeep|].
    rewrite Hch in Hm'. apply elem_of_cons in Hm' as [-> |Hm']; [|right; by exists m'].
    left. eapply received_set_marks; [exact Hst|exact Hs| |done].
    pose proof (received_leaves_connect _ _ _ _ _ Hs) as Hne. revert Hph Hne.
    simpl. by destruct (rk_phase (cs_revocation c)).
  - unfold link_step in Hs. destruct (client_may l ev); [|done].
    apply bind_Some in Hs as (c & Hs & [= <-]).
    destruct (client_step_marks _ _ _ _ _ _ _ Hs Hst) as [Hok Hkeep].
    apply (link_inv_client t); [done..|]. intros id [Hr|Hm] Hph; [left; by apply Hkeep|by right].
Qed.

Lemma link_run_inv ticks : ∀ t l l',
  link_inv t l → link_clocked t ticks → link_run l ticks = Some l' → link_inv (link_time t ticks) l'.
Proof.
  induction ticks as [|k ticks IH]; intros t l l' Hi Hc Hr; simpl in *; [by simplify_eq|].
  destruct Hc as [Hk Hc]. apply bind_Some in Hr as (l1 & Hs & Hr).
  eapply IH; [|exact Hc|exact Hr]. by eapply link_inv_step.
Qed.

(** Before the first connection. *)
Definition link_start (s : RevocationFileStore) (min max : Z) (initial : SwappablePolicyEvaluation P) (store : S) : Link :=
  {| lk_feed := {| fd_store := s; fd_due := false; fd_signal := false; fd_phase := FeedClosed |};
     lk_channel := []; lk_client := spawn_authority_client min max initial store |}.

(** [C28] No revocation is lost between the Authority and Stage 1: whatever the
    order of reloads, signals, subscriptions, sends, deliveries, disconnects
    and requests, whenever the server's task for this sidecar waits with no
    signal due or queued and no message is under way, every unexpired
    revocation in the Authority's memory is answered as revoked by the store
    that Stage 1 asks. *)
Theorem revocation_enforced ttl min max initial store ticks t l id e :
  rs_ok store → link_clocked t ticks →
  link_run (link_start (store_empty ttl) min max initial store) ticks = Some l →
  quiet (lk_feed l) → lk_channel l = [] →
  rv_entries (fd_store (lk_feed l)) !! id = Some e →
  is_expired (fd_store (lk_feed l)) e (link_time t ticks) = false →
  fst (Revocation.is_revoked (sh_store (cs_shared (lk_client l))) id) = Ok true.
Proof.
  intros Hok Hc Hr Hq Hch He Hx.
  assert (Hi : link_inv (link_time t ticks) l).
  { eapply link_run_inv; [|exact Hc|exact Hr]. split; [done|done|]. by intros [? _]. }
  destruct (li_covered _ _ Hi Hq id e He Hx) as [Hrev|(m & Hm & _)].
  - apply is_revoked_reports; [apply Hi|done].
  - rewrite Hch in Hm. by apply elem_of_nil in Hm.
Qed.

End Link.

(** ** Samples *)
Module Samples.

Import AuthorityRevocation.Samples AuthorityClient.Samples.
#[local] Existing Instances ctok_format bit_time plain_http any_method constant_parser set_store_ops set_store_laws.

Definition on (second : Z) (ev : LinkEvent) : LinkTick :=
  {| lt_now := at_second second; lt_jitter := id; lt_event := ev |}.

Definition file : string := entry_line leaked (at_second 4) "leaked in a log".

(** The sidecar subscribes to an empty set; then the token is revoked. *)
Definition session : list LinkTick :=
  [ on 1 (LinkFeed FeedSubscribes);
    on 1 (LinkFeed FeedSends);
    on 2 (LinkClient (OnRevocation (RevocationOpened (Ok tt))));
    on 2 LinkDelivers;
    on 5 (LinkFeed (FeedReloads (Some (Ok file))));
    on 5 (LinkFeed FeedSignals);
    on 6 (LinkFeed FeedReceives);
    on 6 (LinkFeed FeedSends);
    on 7 LinkDelivers ].

Abbreviation from := (link_start (S := list string) (store_empty ttl) (at_second 1) (at_second 60) initial []).
Abbreviation ran := (link_run error_text cfg from session).

Lemma session_clocked : link_clocked 0 session.
Proof. unfold session. simpl. repeat split; vm_compute; discriminate. Qed.

Lemma revocation_enforced_witness :
  match ran with
  | Some l => fst (Revocation.is_revoked (sh_store (cs_shared (lk_client l))) leaked) = Ok true
  | None => False
  end.
Proof.
  assert (Hv : match ran with
               | Some l => fd_phase (lk_feed l) = FeedWaiting ∧ fd_due (lk_feed l) = false ∧
                   fd_signal (lk_feed l) = false ∧ lk_channel l = [] ∧
                   match rv_entries (fd_store (lk_feed l)) !! leaked with
                   | Some e => is_expired (fd_store (lk_feed l)) e (link_time 0 session) = false
                   | None => False
                   end
               | None => False
               end) by (vm_compute; repeat split).
  destruct ran as [l|] eqn:E; [|destruct Hv]. destruct Hv as (H1 & H2 & H3 & H4 & H5).
  destruct (rv_entries (fd_store (lk_feed l)) !! leaked) as [e|] eqn:He; [|destruct H5].
  exact (revocation_enforced error_text cfg ttl (at_second 1) (at_second 60) initial [] session 0 l leaked e
           I session_clocked E (conj H1 (conj H2 H3)) H4 He H5).
Defined.

End Samples.
