(* ===== verification/Seccomp.v ===== *)
(** * The managed seccomp filter ([firma-run/src/seccomp.rs])

    A policy file lists denied actions; they become system calls, the system
    calls a classic BPF program, the program a file with metadata that is
    checked before the sandbox uses it.  The program is the bytes the code
    writes; what the kernel makes of them is a parameter with the documented
    behaviour of the three instructions used.  What the file system answers is
    an argument; a path is its text. *)

From S2P Require Import Prelude RustStr Runtime Session LocalExec.

#[local] Open Scope string_scope.

(** ** Instructions *)

(** [struct sock_filter]. *)
Record SockFilter := { sf_code : Z; sf_jt : Z; sf_jf : Z; sf_k : Z }.

Definition FILTER_CODE_LD_W_ABS : Z := 0x20.
Definition FILTER_CODE_JMP_JEQ_K : Z := 0x15.
Definition FILTER_CODE_RET_K : Z := 0x06.

Definition SECCOMP_RET_KILL_PROCESS : Z := 0x80000000.
Definition SECCOMP_RET_ERRNO : Z := 0x00050000.
Definition SECCOMP_RET_ALLOW : Z := 0x7fff0000.

Definition SECCOMP_DATA_NR_OFFSET : Z := 0.
Definition SECCOMP_DATA_ARCH_OFFSET : Z := 4.
Definition EPERM_ERRNO : Z := 1.
Definition COMPILER_VERSION : string := "managed-seccomp-v2".
Definition POLICY_SCHEMA_VERSION : Z := 1.

(** The kernel's classic BPF machine on [struct seccomp_data]: [bpf_exec prog pc
    acc data] is what the program returns from instruction [pc] with
    accumulator [acc], [data] giving the 32-bit word at an offset. *)
Class BpfMachine := bpf_exec : list SockFilter → nat → Z → (Z → Z) → Z.

Class BpfLaws (BM : BpfMachine) := {
  (** [BPF_LD | BPF_W | BPF_ABS] *)
  bpf_ld : ∀ prog pc acc data i, prog !! pc = Some i → sf_code i = 0x20%Z →
    bpf_exec prog pc acc data = bpf_exec prog (S pc) (data (sf_k i)) data;
  (** [BPF_JMP | BPF_JEQ | BPF_K] *)
  bpf_jeq : ∀ prog pc acc data i, prog !! pc = Some i → sf_code i = 0x15%Z →
    bpf_exec prog pc acc data =
      bpf_exec prog (S pc + Z.to_nat (if (acc =? sf_k i)%Z then sf_jt i else sf_jf i)) acc data;
  (** [BPF_RET | BPF_K] *)
  bpf_ret : ∀ prog pc acc data i, prog !! pc = Some i → sf_code i = 0x06%Z →
    bpf_exec prog pc acc data = sf_k i;
}.

(** ** System calls *)

Inductive TargetArch := X86_64 | Aarch64.

#[export] Instance target_arch_eq_dec : EqDecision TargetArch.
Proof. solve_decision. Defined.

(** [TargetArch::as_str] and [audit_arch_value]. *)
Definition arch_as_str (a : TargetArch) : string :=
  match a with X86_64 => "x86_64" | Aarch64 => "aarch64" end.

Definition audit_arch_value (a : TargetArch) : Z :=
  match a with X86_64 => 0xC000003E | Aarch64 => 0xC00000B7 end.

Inductive SyscallId :=
  | Execve | Execveat | Rename | Renameat | Renameat2 | Rmdir
  | Setgid | Setresgid | Setresuid | Setuid | Unlink | Unlinkat.

#[export] Instance syscall_id_eq_dec : EqDecision SyscallId.
Proof. solve_decision. Defined.

(** In the derived order. *)
Definition all_syscalls : list SyscallId :=
  [Execve; Execveat; Rename; Renameat; Renameat2; Rmdir;
   Setgid; Setresgid; Setresuid; Setuid; Unlink; Unlinkat].

(** [SyscallId::name]. *)
Definition syscall_name (s : SyscallId) : string :=
  match s with
  | Execve => "execve" | Execveat => "execveat" | Rename => "rename" | Renameat => "renameat"
  | Renameat2 => "renameat2" | Rmdir => "rmdir" | Setgid => "setgid" | Setresgid => "setresgid"
  | Setresuid => "setresuid" | Setuid => "setuid" | Unlink => "unlink" | Unlinkat => "unlinkat"
  end.

(** [SyscallId::number_for_arch]. *)
Definition number_for_arch (s : SyscallId) (a : TargetArch) : option Z :=
  match a with
  | X86_64 =>
      Some match s with
           | Execve => 59 | Execveat => 322 | Rename => 82 | Renameat => 264 | Renameat2 => 316
           | Rmdir => 84 | Setgid => 106 | Setresgid => 119 | Setresuid => 117 | Setuid => 105
           | Unlink => 87 | Unlinkat => 263
           end%Z
  | Aarch64 =>
      match s with
      | Execve => Some 221 | Execveat => Some 281 | Rename | Rmdir | Unlink => None
      | Renameat => Some 38 | Renameat2 => Some 276 | Setgid => Some 144 | Setresgid => Some 149
      | Setresuid => Some 147 | Setuid => Some 146 | Unlinkat => Some 35
      end%Z
  end.

(** The arms of [map_actions_to_syscalls]. *)
Definition action_syscalls (action : string) : option (list SyscallId) :=
  if decide (action = "system.execute") then Some [Execve; Execveat]
  else if decide (action = "filesystem.delete") then
    Some [Unlink; Unlinkat; Rmdir; Rename; Renameat; Renameat2]
  else if decide (action = "credential.write") then Some [Setuid; Setgid; Setresuid; Setresgid]
  else None.

Fixpoint map_actions_loop (actions : list string) (syscalls : list SyscallId) (unsupported : list string)
    : list SyscallId * list string :=
  match actions with
  | [] => (syscalls, unsupported)
  | action :: actions =>
      match action_syscalls action with
      | Some ss => map_actions_loop actions (syscalls ++ ss)%list unsupported
      | None => map_actions_loop actions syscalls (unsupported ++ [action])%list
      end
  end.

(** [map_actions_to_syscalls]: the set is a [BTreeSet], read in order. *)
Definition map_actions_to_syscalls (actions : list string) : list SyscallId * list string :=
  let '(syscalls, unsupported) := map_actions_loop actions [] [] in
  (filter (λ s, s ∈ syscalls) all_syscalls, unsupported).

(** ** The program *)

(** [to_ne_bytes] on the little-endian targets. *)
Fixpoint le_bytes (n : nat) (z : Z) : string :=
  match n with
  | O => ""
  | S n => String (Ascii.ascii_of_N (Z.to_N (z mod 256))) (le_bytes n (z / 256))
  end.

Definition byte_str (z : Z) : string := String (Ascii.ascii_of_N (Z.to_N z)) "".

(** [emit_stmt] and [emit_jump]: the bytes appended. *)
Definition emit_jump (code k jt jf : Z) : string :=
  le_bytes 2 code +:+ byte_str jt +:+ byte_str jf +:+ le_bytes 4 k.

Definition emit_stmt (code k : Z) : string := emit_jump code k 0 0.

Fixpoint emit_denials (a : TargetArch) (denied : list SyscallId) : string * list string :=
  match denied with
  | [] => ("", [])
  | s :: denied =>
      let '(out, names) := emit_denials a denied in
      match number_for_arch s a with
      | None => (out, names)
      | Some nr =>
          (emit_jump FILTER_CODE_JMP_JEQ_K nr 0 1 +:+
           emit_stmt FILTER_CODE_RET_K (Z.lor SECCOMP_RET_ERRNO EPERM_ERRNO) +:+ out,
           syscall_name s :: names)
      end
  end.

(** [emit_bpf_program]. *)
Definition emit_bpf_program (a : TargetArch) (denied : list SyscallId) : string * list string :=
  let '(denials, names) := emit_denials a denied in
  (emit_stmt FILTER_CODE_LD_W_ABS SECCOMP_DATA_ARCH_OFFSET +:+
   emit_jump FILTER_CODE_JMP_JEQ_K (audit_arch_value a) 1 0 +:+
   emit_stmt FILTER_CODE_RET_K SECCOMP_RET_KILL_PROCESS +:+
   emit_stmt FILTER_CODE_LD_W_ABS SECCOMP_DATA_NR_OFFSET +:+
   denials +:+
   emit_stmt FILTER_CODE_RET_K SECCOMP_RET_ALLOW, names).

(** How the kernel reads the file: an array of [struct sock_filter]. *)
Fixpoint le_value (s : string) : Z :=
  match s with "" => 0 | String a s => byte a + 256 * le_value s end.

Fixpoint decode_program (s : string) : option (list SockFilter) :=
  match s with
  | "" => Some []
  | String c0 (String c1 (String jt (String jf (String k0 (String k1 (String k2 (String k3 s))))))) =>
      rest ← decode_program s;
      Some ({| sf_code := byte c0 + 256 * byte c1; sf_jt := byte jt; sf_jf := byte jf;
               sf_k := le_value (String k0 (String k1 (String k2 (String k3 "")))) |} :: rest)
  | _ => None
  end%Z.

(** ** The file holds the program *)

Lemma byte_of z : (0 ≤ z < 256)%Z → byte (Ascii.ascii_of_N (Z.to_N z)) = z.
Proof. intros H. unfold byte. rewrite Ascii.N_ascii_embedding by lia. lia. Qed.

Definition u16 (z : Z) : Prop := (0 ≤ z < 2 ^ 16)%Z.
Definition u8 (z : Z) : Prop := (0 ≤ z < 2 ^ 8)%Z.
Definition u32 (z : Z) : Prop := (0 ≤ z < 2 ^ 32)%Z.

Lemma decode_emit code k jt jf s :
  u16 code → u32 k → u8 jt → u8 jf →
  decode_program (emit_jump code k jt jf +:+ s) =
    rest ← decode_program s; Some ({| sf_code := code; sf_jt := jt; sf_jf := jf; sf_k := k |} :: rest).
Proof.
  unfold u16, u32, u8. intros Hc Hk Ht Hf. unfold emit_jump, byte_str. cbn [le_bytes String.append decode_program].
  rewrite !byte_of by (try apply Z.mod_pos_bound; lia). cbn [le_value].
  rewrite !byte_of by (try apply Z.mod_pos_bound; lia).
  destruct (decode_program s); [|done]. simpl. do 3 f_equal.
  - pose proof (Z.div_mod code 256). pose proof (Z.div_mod (code / 256) 256).
    pose proof (Z.mod_pos_bound code 256). assert (code / 256 < 256)%Z by (apply Z.div_lt_upper_bound; lia).
    rewrite (Z.mod_small (code / 256)) by (split; [apply Z.div_pos; lia|done]). lia.
  - rewrite !Z.div_div by lia. pose proof (Z.div_mod k 256). pose proof (Z.div_mod (k / 256) 256).
    pose proof (Z.div_mod (k / (256 * 256)) 256).
    rewrite !Z.div_div in * by lia.
    assert (k / (256 * 256 * 256) < 256)%Z by (apply Z.div_lt_upper_bound; lia).
    rewrite (Z.mod_small (k / (256 * 256 * 256))) by (split; [apply Z.div_pos; lia|done]). lia.
Qed.

(** The instructions of the program. *)
Definition insn (code k jt jf : Z) : SockFilter := {| sf_code := code; sf_jt := jt; sf_jf := jf; sf_k := k |}.

Definition denied_numbers (a : TargetArch) (denied : list SyscallId) : list Z :=
  omap (λ s, number_for_arch s a) denied.

Definition denial_insns (nrs : list Z) : list SockFilter :=
  nrs ≫= λ nr, [insn FILTER_CODE_JMP_JEQ_K nr 0 1;
                insn FILTER_CODE_RET_K (Z.lor SECCOMP_RET_ERRNO EPERM_ERRNO) 0 0].

Definition program (a : TargetArch) (denied : list SyscallId) : list SockFilter :=
  ([insn FILTER_CODE_LD_W_ABS SECCOMP_DATA_ARCH_OFFSET 0 0;
    insn FILTER_CODE_JMP_JEQ_K (audit_arch_value a) 1 0;
    insn FILTER_CODE_RET_K SECCOMP_RET_KILL_PROCESS 0 0;
    insn FILTER_CODE_LD_W_ABS SECCOMP_DATA_NR_OFFSET 0 0] ++
   denial_insns (denied_numbers a denied) ++ [insn FILTER_CODE_RET_K SECCOMP_RET_ALLOW 0 0])%list.

Lemma number_u32 s a nr : number_for_arch s a = Some nr → u32 nr.
Proof. unfold u32. destruct a, s; simpl; intros [= <-]; lia. Qed.

Lemma decode_denials a denied s :
  decode_program (fst (emit_denials a denied) +:+ s) =
    rest ← decode_program s; Some (denial_insns (denied_numbers a denied) ++ rest)%list.
Proof.
  induction denied as [|d denied IH]; [by simpl; destruct (decode_program s)|].
  cbn [emit_denials]. destruct (emit_denials a denied) as [out names]. cbn [fst] in IH.
  unfold denied_numbers in *. cbn [omap list_omap].
  destruct (number_for_arch d a) as [nr|] eqn:E; cbn [fst]; [|done].
  rewrite <-!str_app_assoc. unfold emit_stmt.
  rewrite !decode_emit by (try (by eapply number_u32); unfold u16, u32, u8; vm_compute; done).
  rewrite IH. by destruct (decode_program s).
Qed.

Lemma decode_emitted a denied : decode_program (fst (emit_bpf_program a denied)) = Some (program a denied).
Proof.
  unfold emit_bpf_program, program. pose proof (decode_denials a denied) as Hd.
  destruct (emit_denials a denied) as [out names]. cbn [fst] in *. unfold emit_stmt.
  rewrite <-(str_app_nil_r (emit_jump FILTER_CODE_RET_K SECCOMP_RET_ALLOW 0 0)).
  rewrite !decode_emit, Hd, decode_emit by (destruct a; unfold u16, u32, u8; vm_compute; done).
  done.
Qed.

(** ** What the program answers *)

Section Machine.
Context {BM : BpfMachine} {BL : BpfLaws BM}.

Lemma exec_denials prog data acc nrs : ∀ pc,
  drop pc prog = (denial_insns nrs ++ [insn FILTER_CODE_RET_K SECCOMP_RET_ALLOW 0 0])%list →
  bpf_exec prog pc acc data =
    if bool_decide (acc ∈ nrs) then Z.lor SECCOMP_RET_ERRNO EPERM_ERRNO else SECCOMP_RET_ALLOW.
Proof.
  induction nrs as [|nr nrs IH]; intros pc Hd; simpl in Hd.
  - erewrite bpf_ret; [|by rewrite <-(Nat.add_0_r pc), <-lookup_drop, Hd|done].
    by rewrite bool_decide_eq_false_2 by set_solver.
  - assert (H0 : prog !! pc = Some (insn FILTER_CODE_JMP_JEQ_K nr 0 1)).
    { by rewrite <-(Nat.add_0_r pc), <-lookup_drop, Hd. }
    assert (H1 : prog !! S pc = Some (insn FILTER_CODE_RET_K (Z.lor SECCOMP_RET_ERRNO EPERM_ERRNO) 0 0)).
    { by rewrite <-Nat.add_1_r, <-lookup_drop, Hd. }
    rewrite (bpf_jeq _ _ _ _ _ H0) by done. cbn [sf_k sf_jt sf_jf insn].
    destruct (Z.eqb_spec acc nr) as [-> |Hne].
    + simpl Z.to_nat. rewrite Nat.add_0_r, (bpf_ret _ _ _ _ _ H1) by done.
      by rewrite bool_decide_eq_true_2 by set_solver.
    + replace (S pc + Z.to_nat 1) with (2 + pc) by lia. rewrite IH.
      * destruct (decide (acc ∈ nrs)).
        -- rewrite !bool_decide_eq_true_2 by set_solver. done.
        -- rewrite !bool_decide_eq_false_2 by set_solver. done.
      * rewrite Nat.add_comm, <-drop_drop, Hd. done.
Qed.

Lemma exec_program a denied data acc :
  bpf_exec (program a denied) 0 acc data =
    if negb (data 4 =? audit_arch_value a)%Z then SECCOMP_RET_KILL_PROCESS
    else if bool_decide (data 0%Z ∈ denied_numbers a denied) then Z.lor SECCOMP_RET_ERRNO EPERM_ERRNO
    else SECCOMP_RET_ALLOW.
Proof.
  erewrite bpf_ld; [|done..]. erewrite bpf_jeq; [|done..].
  cbn [sf_k sf_jt sf_jf insn]. change SECCOMP_DATA_ARCH_OFFSET with 4%Z.
  destruct (data 4 =? audit_arch_value a)%Z; cbn [negb].
  - erewrite bpf_ld; [|done..]. by apply exec_denials.
  - by erewrite bpf_ret; [|done..].
Qed.

Lemma map_actions_loop_spec actions : ∀ ss un ss' un',
  map_actions_loop actions ss un = (ss', un') →
  (∀ s, s ∈ ss' ↔ s ∈ ss ∨ ∃ action l, action ∈ actions ∧ action_syscalls action = Some l ∧ s ∈ l) ∧
  un' = (un ++ filter (λ action, action_syscalls action = None) actions)%list.
Proof.
  induction actions as [|action actions IH]; intros ss un ss' un'; simpl.
  { intros [= <- <-]. rewrite app_nil_r. split; [|done]. set_solver. }
  destruct (action_syscalls action) as [l|] eqn:E; intros H; apply IH in H as [Hin Hun].
  - rewrite filter_cons_False by by rewrite E. split; [|done].
    intros s. rewrite Hin, elem_of_app. split.
    + intros [[?|?]|(a & l' & ? & ? & ?)]; [by left|right; exists action, l; set_solver|right; exists a, l'; set_solver].
    + intros [?|(a & l' & [-> |?]%elem_of_cons & Ha & ?)]; [auto|left; right; congruence|right; eauto].
  - rewrite filter_cons_True by done. split; [|by rewrite Hun, <-app_assoc].
    intros s. rewrite Hin. split.
    + intros [?|(a & l' & ? & ? & ?)]; [by left|right; exists a, l'; set_solver].
    + intros [?|(a & l' & [-> |?]%elem_of_cons & Ha & ?)]; [auto|congruence|right; eauto].
Qed.

(** What a list of denied actions means for a system call of an architecture. *)
Definition denies (a : TargetArch) (actions : list string) (nr : Z) : Prop :=
  ∃ action l s, action ∈ actions ∧ action_syscalls action = Some l ∧ s ∈ l ∧ number_for_arch s a = Some nr.

Lemma denied_numbers_spec a actions syscalls nr :
  map_actions_to_syscalls actions = (syscalls, []) → (nr ∈ denied_numbers a syscalls ↔ denies a actions nr).
Proof.
  unfold map_actions_to_syscalls. destruct (map_actions_loop actions [] []) as [ss un] eqn:E.
  intros [= <- ->]. apply map_actions_loop_spec in E as [Hin _].
  unfold denied_numbers, denies. rewrite list_elem_of_omap. split.
  - intros (s & [Hs _]%list_elem_of_filter & Hn). apply Hin in Hs as [[]%elem_of_nil|(action & l & ? & ? & ?)].
    by exists action, l, s.
  - intros (action & l & s & ? & ? & ? & Hn). exists s. split; [|done]. apply list_elem_of_filter.
    split; [apply Hin; right; eauto|]. destruct s; vm_compute; set_solver.
Qed.

(** [C31] The filter enforces the policy, exactly: for a policy whose actions are
    all supported, the bytes written are a program on which the kernel kills a
    process that calls through another architecture, refuses with [EPERM] every
    call the denied actions name on this architecture, and allows every other
    one. *)
Theorem filter_exact a actions syscalls :
  map_actions_to_syscalls actions = (syscalls, []) →
  ∃ prog, decode_program (fst (emit_bpf_program a syscalls)) = Some prog ∧ ∀ data,
    let answer := bpf_exec prog 0 0 data in
    (data 4%Z ≠ audit_arch_value a → answer = SECCOMP_RET_KILL_PROCESS) ∧
    (data 4%Z = audit_arch_value a → denies a actions (data 0%Z) →
       answer = Z.lor SECCOMP_RET_ERRNO EPERM_ERRNO) ∧
    (data 4%Z = audit_arch_value a → ¬ denies a actions (data 0%Z) → answer = SECCOMP_RET_ALLOW).
Proof.
  intros Hm. exists (program a syscalls). split; [apply decode_emitted|]. intros data. cbv zeta.
  rewrite exec_program. pose proof (denied_numbers_spec a actions syscalls (data 0%Z) Hm) as Hd.
  split_and!.
  - intros Hne. by rewrite (proj2 (Z.eqb_neq _ _) Hne).
  - intros -> Hy. rewrite Z.eqb_refl. simpl negb. cbv iota. by rewrite bool_decide_eq_true_2 by by apply Hd.
  - intros -> Hy. rewrite Z.eqb_refl. simpl negb. cbv iota.
    rewrite bool_decide_eq_false_2; [done|]. by rewrite Hd.
Qed.

End Machine.

(** ** The artifact *)

(** [sanitize_path_segment]: one character, of any encoded length, at a time. *)
Fixpoint sanitize_chars (s : string) : string :=
  match s with
  | "" => ""
  | String c s =>
      if is_ascii_alphanumeric c || bool_decide (c = "-"%char) || bool_decide (c = "_"%char) ||
         bool_decide (c = "."%char)
      then String c (sanitize_chars s)
      else if in_range 128 191 c then sanitize_chars s
      else String "_"%char (sanitize_chars s)
  end.

Definition sanitize_path_segment (value : string) : string :=
  let out := sanitize_chars value in
  let trimmed := trim_end_char "."%char (trim_start_char "."%char out) in
  if is_empty out || is_empty trimmed || bool_decide (out = ".") || bool_decide (out = "..")
  then "_" else out.

(** [Path::join]. *)
Definition path_join (p seg : string) : string :=
  if starts_with "/" seg then seg
  else if is_empty p || ends_with "/" p then p +:+ seg
  else p +:+ "/" +:+ seg.

(** [SeccompArtifactLayout::new] and its files. *)
Definition artifact_directory (root policy_id policy_version : string) (a : TargetArch) : string :=
  path_join (path_join (path_join root (sanitize_path_segment policy_id))
               (sanitize_path_segment policy_version)) (arch_as_str a).
Definition artifact_bpf (dir : string) : string := path_join dir "policy.bpf".
Definition artifact_metadata (dir : string) : string := path_join dir "policy.metadata.json".

(** [CedarSubsetPolicyFile], parsed. *)
Record CedarSubsetPolicyFile := {
  sp_policy_id : string;
  sp_policy_version : string;
  sp_default_action : string;
  sp_deny_actions : list string;
  sp_source_policy_refs : list string;
}.

Record SeccompArtifactMetadata := {
  sm_policy_schema_version : Z;
  sm_policy_id : string;
  sm_policy_version : string;
  sm_sha256 : string;
  sm_generated_at : string;
  sm_compiler_version : string;
  sm_target_arch : string;
  sm_default_action : string;
  sm_source_policy_refs : list string;
  sm_source_policy_sha256 : string;
  sm_denied_syscalls : list string;
}.

Inductive SeccompRuntimeMode := CompileOnLaunch | PrecompiledOnly.

Record SeccompPolicyConfig := {
  sc_source_policy_path : string;
  sc_artifact_dir : string;
  sc_runtime_mode : SeccompRuntimeMode;
}.

Record SeccompMaterialized := {
  sz_bpf_path : string;
  sz_metadata_path : string;
  sz_metadata : SeccompArtifactMetadata;
}.

(** [validate_policy_source]. *)
Definition validate_policy_source (p : CedarSubsetPolicyFile) : Result unit RunError :=
  if is_empty (trim (sp_policy_id p)) then Err (ConfigValidation "seccomp policy_id must not be empty")
  else if is_empty (trim (sp_policy_version p)) then
    Err (ConfigValidation "seccomp policy_version must not be empty")
  else if negb (bool_decide (sp_default_action p = "allow")) then
    Err (ConfigValidation ("seccomp policy default_action '" +:+ sp_default_action p +:+
                           "' is unsupported; only 'allow' is currently supported"))
  else Ok tt.

(** [expected_denied_syscalls]. *)
Definition expected_denied_syscalls (a : TargetArch) (syscalls : list SyscallId) : list string :=
  syscall_name <$> filter (λ s, is_Some (number_for_arch s a)) syscalls.

(** [is_valid_sha256_hex]. *)
Definition is_valid_sha256_hex (value : string) : bool :=
  (String.length value =? 64)%nat && str_forallb is_ascii_hexdigit value.

Definition expected_got (what expected got : string) : RunError :=
  ConfigValidation ("seccomp metadata " +:+ what +:+ " mismatch: expected " +:+ expected +:+ ", got " +:+ got).
Definition quote (s : string) : string := "'" +:+ s +:+ "'".

Section Artifact.
Context {SH : Sha256}.
(** [{:?}] of a list of strings. *)
Variable debug_strings : list string → string.

(** [validate_metadata_contract]. *)
Definition validate_metadata_contract (m : SeccompArtifactMetadata) (a : TargetArch)
    (p : CedarSubsetPolicyFile) (source_policy_sha256 : string) (expected : list string)
    : Result unit RunError :=
  if negb (sm_policy_schema_version m =? POLICY_SCHEMA_VERSION)%Z then
    Err (expected_got "policy_schema_version" (display_uint POLICY_SCHEMA_VERSION)
           (display_uint (sm_policy_schema_version m)))
  else if negb (bool_decide (sm_policy_id m = sp_policy_id p)) then
    Err (expected_got "policy_id" (quote (sp_policy_id p)) (quote (sm_policy_id m)))
  else if negb (bool_decide (sm_policy_version m = sp_policy_version p)) then
    Err (expected_got "policy_version" (quote (sp_policy_version p)) (quote (sm_policy_version m)))
  else if negb (bool_decide (sm_default_action m = sp_default_action p)) then
    Err (expected_got "default_action" (quote (sp_default_action p)) (quote (sm_default_action m)))
  else if negb (bool_decide (sm_target_arch m = arch_as_str a)) then
    Err (expected_got "target_arch" (quote (arch_as_str a)) (quote (sm_target_arch m)))
  else if is_empty (trim (sm_compiler_version m)) then
    Err (ConfigValidation "seccomp metadata compiler_version must not be empty")
  else if is_empty (trim (sm_generated_at m)) then
    Err (ConfigValidation "seccomp metadata generated_at must not be empty")
  else if bool_decide (sm_source_policy_refs m = []) then
    Err (ConfigValidation "seccomp metadata source_policy_refs must not be empty")
  else if negb (bool_decide (sm_source_policy_sha256 m = source_policy_sha256)) then
    Err (expected_got "source_policy_sha256" source_policy_sha256 (sm_source_policy_sha256 m))
  else if negb (bool_decide (sm_denied_syscalls m = expected)) then
    Err (expected_got "denied_syscalls" (debug_strings expected) (debug_strings (sm_denied_syscalls m)))
  else if negb (is_valid_sha256_hex (sm_sha256 m)) then
    Err (ConfigValidation ("seccomp metadata sha256 is invalid: " +:+ sm_sha256 m))
  else Ok tt.

(** [verify_artifact_checksum]; [file] is what reading the artifact gives. *)
Definition verify_artifact_checksum (bpf_path : string) (file : Result string string)
    (m : SeccompArtifactMetadata) : Result unit RunError :=
  let? bytes := map_err (λ e, ConfigValidation ("failed to read seccomp artifact " +:+ bpf_path +:+ ": " +:+ e)) file in
  let actual := sha256_hex bytes in
  if bool_decide (actual = sm_sha256 m) then Ok tt
  else Err (ConfigValidation ("seccomp checksum mismatch for " +:+ bpf_path +:+ ": expected " +:+
                              sm_sha256 m +:+ ", got " +:+ actual)).

End Artifact.

(** *** Trust in the paths *)

(** What [symlink_metadata] says. *)
Inductive FileKind := Regular | Directory | Symlink | OtherKind.
Record FileStat := { st_kind : FileKind; st_uid : Z; st_mode : Z }.

#[export] Instance file_kind_eq_dec : EqDecision FileKind.
Proof. solve_decision. Defined.

(** [{:o}] of at most nine bits. *)
Definition octal (z : Z) : string :=
  if (z <? 8)%Z then display_uint z
  else if (z <? 64)%Z then display_uint (z / 8) +:+ display_uint (z mod 8)
  else display_uint (z / 64) +:+ display_uint (z / 8 mod 8) +:+ display_uint (z mod 8).

(** [verify_owner_and_mode]. *)
Definition verify_owner_and_mode (path label : string) (current_uid owner_uid mode : Z) : Result unit RunError :=
  if negb (owner_uid =? current_uid)%Z then
    Err (ConfigValidation (label +:+ " owner mismatch for " +:+ path +:+ ": expected uid " +:+
                           display_uint current_uid +:+ ", got uid " +:+ display_uint owner_uid))
  else
    let perms := Z.land mode 511 in
    if negb (Z.land perms 2 =? 0)%Z then
      Err (ConfigValidation (label +:+ " has insecure permissions for " +:+ path +:+ ": mode " +:+
                             octal perms +:+ "; other-write bit is forbidden"))
    else Ok tt.

(** [read_non_symlink]. *)
Definition read_non_symlink (path label : string) (stat : Result FileStat string) : Result FileStat RunError :=
  let? meta := map_err (λ e, ConfigValidation ("failed to stat " +:+ label +:+ " " +:+ path +:+ ": " +:+ e)) stat in
  if bool_decide (st_kind meta = Symlink) then
    Err (ConfigValidation (label +:+ " must not be a symlink: " +:+ path))
  else Ok meta.

(** [verify_secure_dir] and [verify_secure_file]. *)
Definition verify_secure_dir (path : string) (current_uid : Z) (label : string) (stat : Result FileStat string)
    : Result unit RunError :=
  let? meta := read_non_symlink path label stat in
  if negb (bool_decide (st_kind meta = Directory)) then
    Err (ConfigValidation (label +:+ " must be a directory: " +:+ path))
  else verify_owner_and_mode path label current_uid (st_uid meta) (st_mode meta).

Definition verify_secure_file (path : string) (current_uid : Z) (label : string) (stat : Result FileStat string)
    : Result unit RunError :=
  let? meta := read_non_symlink path label stat in
  if negb (bool_decide (st_kind meta = Regular)) then
    Err (ConfigValidation (label +:+ " must be a regular file: " +:+ path))
  else verify_owner_and_mode path label current_uid (st_uid meta) (st_mode meta).

(** *** Materialisation *)

(** What the host answers. *)
Record SeccompHost := {
  sh_linux : bool;
  sh_arch : option TargetArch;
  sh_policy_source : Result string string;
  (** [toml::from_str] *)
  sh_toml : string → Result CedarSubsetPolicyFile string;
  sh_create_dir : string → Result unit string;
  (** [write_atomic] *)
  sh_write : string → string → Result unit RunError;
  sh_read_metadata : string → Result string string;
  (** [serde_json] both ways *)
  sh_metadata_parse : string → Result SeccompArtifactMetadata string;
  sh_metadata_print : SeccompArtifactMetadata → Result string string;
  sh_stat : string → Result FileStat string;
  sh_uid : Result Z string;
  sh_read : string → Result string string;
  sh_now_text : string;
}.

Section Materialize.
Context {SH : Sha256}.
Variable debug_strings : list string → string.
Variable host : SeccompHost.

(** [current_target_arch]. *)
Definition current_target_arch : Result TargetArch RunError :=
  match sh_arch host with
  | Some a => Ok a
  | None => Err (ConfigValidation "seccomp policy supports only x86_64 and aarch64 targets")
  end.

(** [parse_policy_source]: the policy and the digest of its source. *)
Definition parse_policy_source (path : string) : Result (CedarSubsetPolicyFile * string) RunError :=
  let? src := map_err (λ e, ConfigValidation ("failed to read seccomp policy " +:+ path +:+ ": " +:+ e))
                (sh_policy_source host) in
  let? parsed := map_err (λ e, ConfigValidation ("invalid seccomp policy " +:+ path +:+ ": " +:+ e))
                   (sh_toml host src) in
  Ok (parsed, sha256_hex src).

(** [verify_artifact_trust_paths]. *)
Definition verify_artifact_trust_paths (managed : SeccompPolicyConfig) (dir : string) : Result unit RunError :=
  let? uid := map_err (λ e, ConfigValidation ("failed to resolve runtime uid from /proc/self: " +:+ e)) (sh_uid host) in
  let? _ := verify_secure_dir (sc_artifact_dir managed) uid "seccomp artifact_dir" (sh_stat host (sc_artifact_dir managed)) in
  let? _ := verify_secure_dir dir uid "seccomp artifact leaf directory" (sh_stat host dir) in
  let? _ := verify_secure_file (artifact_bpf dir) uid "seccomp artifact" (sh_stat host (artifact_bpf dir)) in
  verify_secure_file (artifact_metadata dir) uid "seccomp metadata" (sh_stat host (artifact_metadata dir)).

(** The checks both modes end with. *)
Definition verify_artifact (managed : SeccompPolicyConfig) (a : TargetArch) (p : CedarSubsetPolicyFile)
    (source_sha : string) (expected : list string) (dir : string) (m : SeccompArtifactMetadata)
    : Result SeccompMaterialized RunError :=
  let? _ := verify_artifact_trust_paths managed dir in
  let? _ := validate_metadata_contract debug_strings m a p source_sha expected in
  let? _ := verify_artifact_checksum (artifact_bpf dir) (sh_read host (artifact_bpf dir)) m in
  Ok {| sz_bpf_path := artifact_bpf dir; sz_metadata_path := artifact_metadata dir; sz_metadata := m |}.

(** [compile_and_write_artifact]. *)
Definition compile_and_write_artifact (managed : SeccompPolicyConfig) (a : TargetArch)
    (p : CedarSubsetPolicyFile) (source_sha : string) (syscalls : list SyscallId) (expected : list string)
    (dir : string) : Result SeccompMaterialized RunError :=
  let? _ := map_err (λ e, ConfigValidation ("failed to create seccomp artifact dir " +:+ dir +:+ ": " +:+ e))
              (sh_create_dir host dir) in
  let '(bytes, effective) := emit_bpf_program a syscalls in
  let? _ := sh_write host (artifact_bpf dir) bytes in
  let m := {| sm_policy_schema_version := POLICY_SCHEMA_VERSION; sm_policy_id := sp_policy_id p;
              sm_policy_version := sp_policy_version p; sm_sha256 := sha256_hex bytes;
              sm_generated_at := sh_now_text host; sm_compiler_version := COMPILER_VERSION;
              sm_target_arch := arch_as_str a; sm_default_action := sp_default_action p;
              sm_source_policy_refs :=
                if bool_decide (sp_source_policy_refs p = []) then [sc_source_policy_path managed]
                else sp_source_policy_refs p;
              sm_source_policy_sha256 := source_sha; sm_denied_syscalls := effective |} in
  let? text := map_err (λ e, Internal ("failed to serialize seccomp metadata: " +:+ e)) (sh_metadata_print host m) in
  let? _ := sh_write host (artifact_metadata dir) text in
  verify_artifact managed a p source_sha expected dir m.

(** [read_metadata] and [load_precompiled_artifact]. *)
Definition read_metadata (path : string) : Result SeccompArtifactMetadata RunError :=
  let? bytes := map_err (λ e, ConfigValidation ("failed to read seccomp metadata " +:+ path +:+ ": " +:+ e))
                  (sh_read_metadata host path) in
  map_err (λ e, ConfigValidation ("failed to parse seccomp metadata " +:+ path +:+ ": " +:+ e))
    (sh_metadata_parse host bytes).

Definition load_precompiled_artifact (managed : SeccompPolicyConfig) (a : TargetArch)
    (p : CedarSubsetPolicyFile) (source_sha : string) (expected : list string) (dir : string)
    : Result SeccompMaterialized RunError :=
  let? m := read_metadata (artifact_metadata dir) in
  verify_artifact managed a p source_sha expected dir m.

(** [materialize_seccomp_policy]. *)
Definition materialize_seccomp_policy (managed : SeccompPolicyConfig) : Result SeccompMaterialized RunError :=
  if negb (sh_linux host) then Err (ConfigValidation "seccomp policy is supported only on Linux hosts")
  else
    let? a := current_target_arch in
    let? policy := parse_policy_source (sc_source_policy_path managed) in
    let '(p, source_sha) := policy in
    let? _ := validate_policy_source p in
    let '(syscalls, unsupported) := map_actions_to_syscalls (sp_deny_actions p) in
    match unsupported with
    | _ :: _ =>
        Err (ConfigValidation ("seccomp policy contains unsupported Cedar actions: " +:+ join ", " unsupported +:+
               "; supported deny actions are: system.execute, filesystem.delete, credential.write"))
    | [] =>
        let expected := expected_denied_syscalls a syscalls in
        let dir := artifact_directory (sc_artifact_dir managed) (sp_policy_id p) (sp_policy_version p) a in
        match sc_runtime_mode managed with
        | CompileOnLaunch => compile_and_write_artifact managed a p source_sha syscalls expected dir
        | PrecompiledOnly => load_precompiled_artifact managed a p source_sha expected dir
        end
    end.

(** [resolve_effective_seccomp], on the profile's policy. *)
Definition resolve_effective_seccomp (policy : option SeccompPolicyConfig)
    : Result (option SeccompMaterialized) RunError :=
  match policy with
  | None => Ok None
  | Some managed => let? m := materialize_seccomp_policy managed in Ok (Some m)
  end.

(** ** What an accepted artifact is *)

Definition trusted (uid : Z) (kind : FileKind) (path : string) : Prop :=
  ∃ st, sh_stat host path = Ok st ∧ st_kind st = kind ∧ st_uid st = uid ∧ Z.testbit (st_mode st) 1 = false.

Lemma owner_and_mode_ok path label uid owner mode :
  verify_owner_and_mode path label uid owner mode = Ok tt → owner = uid ∧ Z.testbit mode 1 = false.
Proof.
  unfold verify_owner_and_mode. destruct (owner =? uid)%Z eqn:E; [|done]. simpl.
  destruct (Z.land (Z.land mode 511) 2 =? 0)%Z eqn:E2; [|done]. intros _. boolify. split; [done|].
  assert (Z.testbit (Z.land (Z.land mode 511) 2) 1 = false) as H by (rewrite E2; apply Z.bits_0).
  rewrite !Z.land_spec in H. simpl in H. by rewrite !andb_true_r in H.
Qed.

Lemma secure_dir_ok path uid label :
  verify_secure_dir path uid label (sh_stat host path) = Ok tt → trusted uid Directory path.
Proof.
  unfold verify_secure_dir, read_non_symlink, trusted. destruct (sh_stat host path) as [st|]; [|done]. simpl.
  destruct (bool_decide (st_kind st = Symlink)); [done|]. simpl.
  destruct (bool_decide (st_kind st = Directory)) eqn:K; [|done]. boolify.
  intros [Ho Hm]%owner_and_mode_ok. eauto.
Qed.

Lemma secure_file_ok path uid label :
  verify_secure_file path uid label (sh_stat host path) = Ok tt → trusted uid Regular path.
Proof.
  unfold verify_secure_file, read_non_symlink, trusted. destruct (sh_stat host path) as [st|]; [|done]. simpl.
  destruct (bool_decide (st_kind st = Symlink)); [done|]. simpl.
  destruct (bool_decide (st_kind st = Regular)) eqn:K; [|done]. boolify.
  intros [Ho Hm]%owner_and_mode_ok. eauto.
Qed.

(** The metadata speaks of this policy on this architecture. *)
Record contract (m : SeccompArtifactMetadata) (a : TargetArch) (p : CedarSubsetPolicyFile)
    (source_sha : string) (expected : list string) : Prop := {
  ct_schema : sm_policy_schema_version m = POLICY_SCHEMA_VERSION;
  ct_id : sm_policy_id m = sp_policy_id p;
  ct_version : sm_policy_version m = sp_policy_version p;
  ct_default : sm_default_action m = sp_default_action p;
  ct_arch : sm_target_arch m = arch_as_str a;
  ct_source : sm_source_policy_sha256 m = source_sha;
  ct_denied : sm_denied_syscalls m = expected;
  ct_sha : is_valid_sha256_hex (sm_sha256 m) = true;
}.

Lemma contract_ok m a p source_sha expected :
  validate_metadata_contract debug_strings m a p source_sha expected = Ok tt →
  contract m a p source_sha expected.
Proof.
  unfold validate_metadata_contract. intros H.
  repeat match type of H with (if ?b then _ else _) = _ => destruct b eqn:?; [done|] end.
  boolify. by split.
Qed.

(** Both modes accept only an artifact that passes every check. *)
Lemma verify_artifact_ok managed a p source_sha expected dir m out :
  verify_artifact managed a p source_sha expected dir m = Ok out →
  out = {| sz_bpf_path := artifact_bpf dir; sz_metadata_path := artifact_metadata dir; sz_metadata := m |} ∧
  contract m a p source_sha expected ∧
  (∃ bytes, sh_read host (artifact_bpf dir) = Ok bytes ∧ sha256_hex bytes = sm_sha256 m) ∧
  (∃ uid, sh_uid host = Ok uid ∧ trusted uid Directory (sc_artifact_dir managed) ∧ trusted uid Directory dir ∧
     trusted uid Regular (artifact_bpf dir) ∧ trusted uid Regular (artifact_metadata dir)).
Proof.
  unfold verify_artifact, verify_artifact_trust_paths, verify_artifact_checksum.
  destruct (sh_uid host) as [uid|]; [|done]. simpl.
  destruct (verify_secure_dir (sc_artifact_dir managed) uid _ _) as [[]|] eqn:H1; [|done]. simpl.
  destruct (verify_secure_dir dir uid _ _) as [[]|] eqn:H2; [|done]. simpl.
  destruct (verify_secure_file (artifact_bpf dir) uid _ _) as [[]|] eqn:H3; [|done]. simpl.
  destruct (verify_secure_file (artifact_metadata dir) uid _ _) as [[]|] eqn:H4; [|done]. simpl.
  destruct (validate_metadata_contract _ m a p source_sha expected) as [[]|] eqn:H5; [|done]. simpl.
  destruct (sh_read host (artifact_bpf dir)) as [bytes|]; [|done]. simpl.
  destruct (bool_decide (sha256_hex bytes = sm_sha256 m)) eqn:H6; [|done]. simpl. intros [= <-]. boolify.
  split_and!; [done|by apply contract_ok|eauto|]. exists uid.
  split_and!; eauto using secure_dir_ok, secure_file_ok.
Qed.

Lemma emitted_names a syscalls : snd (emit_bpf_program a syscalls) = expected_denied_syscalls a syscalls.
Proof.
  assert (H : snd (emit_denials a syscalls) = expected_denied_syscalls a syscalls).
  { unfold expected_denied_syscalls. induction syscalls as [|s ss IH]; simpl; [done|].
    destruct (emit_denials a ss) as [out names]. simpl in IH. subst names.
    destruct (number_for_arch s a) as [nr|] eqn:E.
    - by rewrite filter_cons_True by (rewrite E; eauto).
    - rewrite filter_cons_False; [done|]. rewrite E. by intros [? ?]. }
  unfold emit_bpf_program. by destruct (emit_denials a syscalls).
Qed.

(** The sandbox gets only a filter it may trust: whatever the file system
    answers, a filter is used only if the policy is well formed and all its
    actions are supported, its directory, leaf and files belong to the running
    user, are no symbolic links and are not writable by others, its metadata
    names this policy, its source and this architecture's denied calls, and the
    file read back has the recorded digest.  When it was compiled at launch,
    that is the digest of the emitted program. *)
Theorem materialize_sound managed out :
  materialize_seccomp_policy managed = Ok out →
  ∃ a src p syscalls bytes uid,
    sh_policy_source host = Ok src ∧ sh_toml host src = Ok p ∧ sp_default_action p = "allow" ∧
    map_actions_to_syscalls (sp_deny_actions p) = (syscalls, []) ∧
    contract (sz_metadata out) a p (sha256_hex src) (expected_denied_syscalls a syscalls) ∧
    sh_read host (sz_bpf_path out) = Ok bytes ∧ sha256_hex bytes = sm_sha256 (sz_metadata out) ∧
    sh_uid host = Ok uid ∧ trusted uid Directory (sc_artifact_dir managed) ∧
    trusted uid Regular (sz_bpf_path out) ∧ trusted uid Regular (sz_metadata_path out) ∧
    (sc_runtime_mode managed = CompileOnLaunch →
       sha256_hex bytes = sha256_hex (fst (emit_bpf_program a syscalls))).
Proof.
  unfold materialize_seccomp_policy, current_target_arch, parse_policy_source.
  destruct (sh_linux host); [|done]. simpl. destruct (sh_arch host) as [a|]; [|done]. simpl.
  destruct (sh_policy_source host) as [src|]; [|done]. simpl.
  destruct (sh_toml host src) as [p|] eqn:Ht; [|done]. simpl.
  destruct (validate_policy_source p) as [[]|] eqn:Hv; [|done]. simpl.
  destruct (map_actions_to_syscalls (sp_deny_actions p)) as [syscalls [|]] eqn:Hm; [|done].
  assert (Hd : sp_default_action p = "allow").
  { unfold validate_policy_source in Hv. by split_matches; boolify. }
  set (dir := artifact_directory _ _ _ _). intros Hout.
  assert (∃ m, verify_artifact managed a p (sha256_hex src) (expected_denied_syscalls a syscalls) dir m = Ok out ∧
            (sc_runtime_mode managed = CompileOnLaunch → sm_sha256 m = sha256_hex (fst (emit_bpf_program a syscalls))))
    as (m & Hver & Hsha).
  { destruct (sc_runtime_mode managed).
    - unfold compile_and_write_artifact in Hout. destruct (sh_create_dir host dir); [|done]. simpl in Hout.
      destruct (emit_bpf_program a syscalls) as [bytes names]. destruct (sh_write host _ bytes); [|done].
      simpl in Hout. destruct (sh_metadata_print host _) as [text|]; [|done]. simpl in Hout.
      destruct (sh_write host _ text); [|done]. simpl in Hout. eexists. by split; [exact Hout|].
    - unfold load_precompiled_artifact in Hout. destruct (read_metadata _) as [m|]; [|done]. by exists m. }
  apply verify_artifact_ok in Hver as (-> & Hc & (bytes & Hr & Hs) & uid & Hu & T1 & T2 & T3 & T4).
  exists a, src, p, syscalls, bytes, uid. split_and!; try done.
  intros Hmode. by rewrite Hs, Hsha.
Qed.

End Materialize.

(** ** Where artifacts go *)

(** A path segment that stays where it is put. *)
Definition safe_segment (s : string) : Prop :=
  s ≠ "" ∧ s ≠ "." ∧ s ≠ ".." ∧ contains_char "/"%char s = false.

Lemma sanitize_chars_slash s : contains_char "/"%char (sanitize_chars s) = false.
Proof.
  induction s as [|c s IH]; [done|]. simpl.
  destruct (is_ascii_alphanumeric c || _ || _ || _) eqn:E; [|by destruct (in_range 128 191 c)].
  simpl. rewrite IH, orb_false_r. apply bool_decide_eq_false. by intros ->.
Qed.

Lemma sanitize_safe value : safe_segment (sanitize_path_segment value).
Proof.
  unfold sanitize_path_segment, safe_segment.
  destruct (is_empty (sanitize_chars value) || _ || _ || _) eqn:E; [done|]. boolify.
  split_and!; try done; [|apply sanitize_chars_slash]. intros Hn. by rewrite Hn in *.
Qed.

Lemma join_safe p seg : p ≠ "" → ends_with "/" p = false → safe_segment seg → path_join p seg = p +:+ "/" +:+ seg.
Proof.
  intros Hp He (_ & _ & _ & Hc). unfold path_join. rewrite He.
  destruct (starts_with "/" seg) eqn:E.
  { apply starts_with_spec in E as [r ->]. by rewrite contains_char_app in Hc. }
  unfold is_empty. by rewrite bool_decide_eq_false_2.
Qed.

Lemma ends_with_app x q : q ≠ "" → ends_with "/" (x +:+ q) = ends_with "/" q.
Proof.
  intros Hq. induction x as [|a x IH]; [done|]. rewrite <-IH. unfold ends_with. simpl.
  rewrite decide_False; [by destruct (strip_suffix "/" (x +:+ q))|].
  intros [= _ Hx]. by destruct x, q.
Qed.

Lemma ends_with_no_slash p seg : safe_segment seg → ends_with "/" (p +:+ "/" +:+ seg) = false.
Proof.
  intros (Hs & _ & _ & Hc). rewrite str_app_assoc, ends_with_app by done.
  destruct (ends_with "/" seg) eqn:E; [|done]. apply ends_with_spec in E as [r ->].
  rewrite contains_char_app in Hc. simpl in Hc. by rewrite orb_true_r in Hc.
Qed.

(** Whatever a policy calls itself, its artifact lies in a directory two safe
    names below the configured one: no identifier escapes it. *)
Theorem artifact_contained root policy_id policy_version a :
  root ≠ "" → ends_with "/" root = false →
  ∃ s1 s2, safe_segment s1 ∧ safe_segment s2 ∧
    artifact_bpf (artifact_directory root policy_id policy_version a) =
      root +:+ "/" +:+ s1 +:+ "/" +:+ s2 +:+ "/" +:+ arch_as_str a +:+ "/policy.bpf".
Proof.
  intros Hr He. pose proof (sanitize_safe policy_id) as H1. pose proof (sanitize_safe policy_version) as H2.
  exists (sanitize_path_segment policy_id), (sanitize_path_segment policy_version). split_and!; [done..|].
  assert (Ha : safe_segment (arch_as_str a)) by (by destruct a).
  assert (Hf : safe_segment "policy.bpf") by done.
  assert (Hne : ∀ p seg, p ≠ "" → p +:+ "/" +:+ seg ≠ "") by (by intros [|]).
  unfold artifact_bpf, artifact_directory.
  rewrite (join_safe root) by done.
  rewrite (join_safe (root +:+ _)) by auto using ends_with_no_slash.
  rewrite (join_safe (_ +:+ _) (arch_as_str a)) by auto using ends_with_no_slash.
  rewrite (join_safe _ "policy.bpf") by auto using ends_with_no_slash.
  by rewrite <-!str_app_assoc.
Qed.

(** ** Samples *)
Module Samples.

(** The machine, on the rest of the program. *)
Fixpoint run_insns (fuel : nat) (insns : list SockFilter) (acc : Z) (data : Z → Z) : Z :=
  match fuel, insns with
  | S fuel, i :: rest =>
      if (sf_code i =? 0x20)%Z then run_insns fuel rest (data (sf_k i)) data
      else if (sf_code i =? 0x15)%Z then
        run_insns fuel (drop (Z.to_nat (if (acc =? sf_k i)%Z then sf_jt i else sf_jf i)) rest) acc data
      else if (sf_code i =? 0x06)%Z then sf_k i
      else 0
  | _, _ => 0
  end%Z.

#[local] Instance machine : BpfMachine := λ prog pc acc data,
  run_insns (length (drop pc prog)) (drop pc prog) acc data.

Lemma run_insns_enough data fuel : ∀ fuel' insns acc,
  (length insns ≤ fuel)%nat → (length insns ≤ fuel')%nat →
  run_insns fuel insns acc data = run_insns fuel' insns acc data.
Proof.
  induction fuel as [|fuel IH]; intros fuel' [|i rest] acc H1 H2; simpl in *; try lia; try done.
  - by destruct fuel'.
  - by destruct fuel'.
  - destruct fuel' as [|fuel']; simpl in *; [lia|].
    destruct (sf_code i =? 32)%Z; [apply IH; lia|].
    destruct (sf_code i =? 21)%Z; [|done]. apply IH; rewrite length_drop; lia.
Qed.

Lemma drop_lookup (prog : list SockFilter) pc i : prog !! pc = Some i → drop pc prog = i :: drop (S pc) prog.
Proof. intros H. by rewrite (drop_S _ _ _ H). Qed.

#[local] Instance machine_laws : BpfLaws machine.
Proof.
  split; intros prog pc acc data i Hi Hc; unfold bpf_exec, machine; rewrite (drop_lookup _ _ _ Hi) at 1 2;
    cbn [length run_insns]; rewrite Hc; simpl Z.eqb; cbv iota.
  - done.
  - rewrite drop_drop. apply run_insns_enough; rewrite !length_drop; lia.
  - done.
Qed.

Definition data (arch nr : Z) (offset : Z) : Z :=
  if (offset =? 4)%Z then arch else if (offset =? 0)%Z then nr else 0%Z.

Definition actions : list string := ["credential.write"; "system.execute"].

Lemma filter_exact_witness :
  let syscalls := fst (map_actions_to_syscalls actions) in
  ∃ prog, decode_program (fst (emit_bpf_program X86_64 syscalls)) = Some prog ∧
    bpf_exec prog 0 0 (data 0xC000003E 59) = Z.lor SECCOMP_RET_ERRNO EPERM_ERRNO.
Proof.
  cbv zeta.
  destruct (filter_exact X86_64 actions (fst (map_actions_to_syscalls actions))) as (prog & Hp & H).
  { vm_compute. reflexivity. }
  exists prog. split; [exact Hp|]. destruct (H (data 0xC000003E 59)) as (_ & Hd & _).
  apply Hd; [reflexivity|]. exists "system.execute", [Execve; Execveat], Execve.
  split; [right; left|]. split; [reflexivity|]. split; [left|reflexivity].
Defined.

(** The same call through the x32 interface of an x86-64 kernel has the native
    architecture and another number: the filter allows it. *)
Lemma x32_execve_allowed :
  bpf_exec (program X86_64 (fst (map_actions_to_syscalls actions))) 0 0
    (data 0xC000003E (0x40000000 + 520)) = SECCOMP_RET_ALLOW.
Proof. vm_compute. reflexivity. Qed.

(** A toy digest of the right shape. *)
Fixpoint zeros (n : nat) : string := match n with O => "" | S n => String "0"%char (zeros n) end.
#[local] Instance toy_sha : Sha256 := λ s,
  let d := display_uint (Z.of_nat (String.length s)) in zeros (64 - String.length d) +:+ d.

Definition policy : CedarSubsetPolicyFile :=
  {| sp_policy_id := "../baseline"; sp_policy_version := "1"; sp_default_action := "allow";
     sp_deny_actions := actions; sp_source_policy_refs := [] |}.

Definition the_host : SeccompHost :=
  {| sh_linux := true; sh_arch := Some X86_64; sh_policy_source := Ok "src"; sh_toml _ := Ok policy;
     sh_create_dir _ := Ok tt; sh_write _ _ := Ok tt; sh_read_metadata _ := Err "none";
     sh_metadata_parse _ := Err "none"; sh_metadata_print _ := Ok "{}";
     sh_stat path := Ok {| st_kind := if ends_with ".bpf" path || ends_with ".json" path then Regular else Directory;
                           st_uid := 1000; st_mode := 493 |};
     sh_uid := Ok 1000%Z; sh_read _ := Ok (fst (emit_bpf_program X86_64 (fst (map_actions_to_syscalls actions))));
     sh_now_text := "2026-01-01T00:00:00Z" |}.

Definition managed : SeccompPolicyConfig :=
  {| sc_source_policy_path := "p.toml"; sc_artifact_dir := "/var/firma"; sc_runtime_mode := CompileOnLaunch |}.

Abbreviation materialized := (materialize_seccomp_policy (join ", ") the_host managed).

Lemma materialize_sound_witness :
  match materialized with
  | Ok out => sz_bpf_path out = "/var/firma/.._baseline/1/x86_64/policy.bpf" ∧
      ∃ bytes, sh_read the_host (sz_bpf_path out) = Ok bytes ∧ sha256_hex bytes = sm_sha256 (sz_metadata out)
  | Err _ => False
  end.
Proof.
  assert (Hv : match materialized with
               | Ok out => sz_bpf_path out = "/var/firma/.._baseline/1/x86_64/policy.bpf"
               | Err _ => False
               end) by (vm_compute; reflexivity).
  destruct materialized as [out|e] eqn:E; [|destruct Hv]. split; [exact Hv|].
  destruct (materialize_sound (join ", ") the_host managed out E)
    as (a & src & p & syscalls & bytes & uid & _ & _ & _ & _ & _ & Hr & Hs & _).
  exists bytes. split; [exact Hr|exact Hs].
Defined.

End Samples.
