(* ===== verification/EgressGuard.v ===== *)
(** * The loopback egress guard ([firma-run/src/egress_guard.rs])

    A seccomp program notifies a supervisor of every [connect(2)] of the agent;
    the supervisor reads the destination from the agent's memory and lets the
    call continue or refuses it.  Memory and [/proc] are arguments; bytes are
    numbers below 256. *)

From S2P Require Import Prelude RustStr Seccomp.

#[local] Open Scope string_scope.

(** ** Destinations *)

Inductive IpAddr := V4 (octets : list Z) | V6 (octets : list Z).

#[export] Instance ip_addr_eq_dec : EqDecision IpAddr.
Proof. solve_decision. Defined.

Record SocketAddr := { sa_ip : IpAddr; sa_port : Z }.

#[export] Instance socket_addr_eq_dec : EqDecision SocketAddr.
Proof. solve_decision. Defined.

Definition AF_INET : Z := 2.
Definition AF_INET6 : Z := 10.
Definition MAX_SOCKADDR_LEN : nat := 128.
Definition AUDIT_QUEUE_DEPTH : nat := 128.

(** [Ipv4Addr::is_loopback], [Ipv6Addr::is_loopback] and [to_ipv4_mapped]. *)
Definition v4_is_loopback (o : list Z) : bool := bool_decide (head o = Some 127%Z).

Definition v6_is_loopback (o : list Z) : bool :=
  bool_decide (o = (replicate 15 0%Z ++ [1%Z])%list).

Definition to_ipv4_mapped (o : list Z) : option (list Z) :=
  if bool_decide (take 12 o = (replicate 10 0%Z ++ [255%Z; 255%Z])%list) then Some (drop 12 o) else None.

(** [is_loopback]. *)
Definition is_loopback (ip : IpAddr) : bool :=
  match ip with
  | V4 o => v4_is_loopback o
  | V6 o => v6_is_loopback o || match to_ipv4_mapped o with Some m => v4_is_loopback m | None => false end
  end.

Inductive Verdict := AllowConnect | BlockConnect.

(** [classify]. *)
Definition classify (addr : SocketAddr) (allow_ports : list Z) : Verdict :=
  if negb (is_loopback (sa_ip addr)) then AllowConnect
  else if bool_decide (sa_port addr ∈ allow_ports) then AllowConnect else BlockConnect.

(** [parse_sockaddr]; the family is in host order, little-endian here, the port
    in network order. *)
Definition parse_sockaddr (bytes : list Z) : option SocketAddr :=
  match bytes with
  | f0 :: f1 :: _ =>
      let family := (f0 + 256 * f1)%Z in
      let port := (256 * nth 2 bytes 0 + nth 3 bytes 0)%Z in
      if (family =? AF_INET)%Z then
        if (length bytes <? 8)%nat then None
        else Some {| sa_ip := V4 (take 4 (drop 4 bytes)); sa_port := port |}
      else if (family =? AF_INET6)%Z then
        if (length bytes <? 24)%nat then None
        else Some {| sa_ip := V6 (take 16 (drop 8 bytes)); sa_port := port |}
      else None
  | _ => None
  end.

(** ** The host *)

Record GuardHost := {
  (** [process_vm_readv] of a process, an address and a length: the bytes read *)
  gh_vm_read : Z → Z → nat → Result (list Z) string;
  (** [/proc/<pid>/net/<leaf>]: [None] when it is not there *)
  gh_proc_net : Z → string → option (Result string string);
}.

(** [read_remote_mem]. *)
Definition read_remote_mem (host : GuardHost) (pid addr : Z) (len : nat) : Result (list Z) string :=
  let len := Nat.min len MAX_SOCKADDR_LEN in
  if (2 ^ 31 - 1 <? pid)%Z then Err "pid out of range"
  else
    let? buf := gh_vm_read host pid addr len in
    if negb (length buf =? len)%nat then Err "short process_vm_readv" else Ok buf.

Definition PROC_NET_TCP_LISTEN : string := "0A".
Definition PROC_NET_UDP_BOUND : string := "07".

(** One row of [collect_listening_ports]. *)
Definition listening_port (line listen_state : string) : option Z :=
  let fields := split_whitespace line in
  match fields !! 1, fields !! 3 with
  | Some local, Some state =>
      if bool_decide (state = listen_state) then
        let port_hex := match rsplit_once ":"%char local with Some (_, p) => p | None => local end in
        match from_str_radix 16 (2 ^ 16 - 1) port_hex with Ok p => Some p | Err _ => None end
      else None
  | _, _ => None
  end.

(** [collect_listening_ports]; a [BTreeSet] by its members. *)
Definition collect_listening_ports (table listen_state : string) (ports : list Z) : list Z :=
  (ports ++ omap (λ line, listening_port line listen_state) (split_char "010"%char table))%list.

Fixpoint collect_tables (host : GuardHost) (pid : Z) (leaves : list (string * string)) (ports : list Z)
    : Result (list Z) string :=
  match leaves with
  | [] => Ok ports
  | (leaf, state) :: leaves =>
      match gh_proc_net host pid leaf with
      | None => collect_tables host pid leaves ports
      | Some (Err e) => Err e
      | Some (Ok table) => collect_tables host pid leaves (collect_listening_ports table state ports)
      end
  end.

Definition proc_net_leaves : list (string * string) :=
  [("tcp", PROC_NET_TCP_LISTEN); ("tcp6", PROC_NET_TCP_LISTEN);
   ("udp", PROC_NET_UDP_BOUND); ("udp6", PROC_NET_UDP_BOUND)].

(** [netns_local_ports]. *)
Definition netns_local_ports (host : GuardHost) (pid : Z) : Result (list Z) string :=
  collect_tables host pid proc_net_leaves [].

(** ** Notifications *)

(** What [struct seccomp_notif] carries for a [connect]. *)
Record Notification := { nt_id : Z; nt_pid : Z; nt_addr_ptr : Z; nt_addr_len : Z }.

Inductive NotifOutcome := NotifAllow | NotifBlock (addr : option SocketAddr).

(** [classify_notification]. *)
Definition classify_notification (host : GuardHost) (req : Notification) (allow_ports : list Z) : NotifOutcome :=
  if (nt_addr_ptr req =? 0)%Z || (nt_addr_len req <? 2)%Z then NotifAllow
  else
    match read_remote_mem host (nt_pid req) (nt_addr_ptr req) (Z.to_nat (nt_addr_len req)) with
    | Err _ => NotifBlock None
    | Ok bytes =>
        match parse_sockaddr bytes with
        | None => NotifAllow
        | Some addr =>
            match classify addr allow_ports with
            | AllowConnect => NotifAllow
            | BlockConnect =>
                match netns_local_ports host (nt_pid req) with
                | Ok ports => if bool_decide (sa_port addr ∈ ports) then NotifAllow else NotifBlock (Some addr)
                | Err _ => NotifBlock (Some addr)
                end
            end
        end
    end.

Definition EACCES : Z := 13.
Definition USER_NOTIF_FLAG_CONTINUE : Z := 1.

Record NotifResponse := { nr_id : Z; nr_val : Z; nr_error : Z; nr_flags : Z }.

(** *** Audit hand-off *)

(** The queue of the delivery thread, what it has delivered, what was dropped. *)
Record AuditSink := { au_queue : list SocketAddr; au_delivered : list SocketAddr; au_dropped : Z }.

(** [AuditSink::send]: [alive] says whether the delivery thread still receives. *)
Definition audit_send (alive : bool) (s : AuditSink) (addr : SocketAddr) : AuditSink :=
  if alive && (length (au_queue s) <? AUDIT_QUEUE_DEPTH)%nat then
    {| au_queue := au_queue s ++ [addr]; au_delivered := au_delivered s; au_dropped := au_dropped s |}
  else
    {| au_queue := au_queue s; au_delivered := au_delivered s; au_dropped := wrap_u64 (au_dropped s + 1) |}.

(** One report taken by the delivery thread. *)
Definition audit_deliver (s : AuditSink) : AuditSink :=
  match au_queue s with
  | [] => s
  | addr :: queue =>
      {| au_queue := queue; au_delivered := au_delivered s ++ [addr]; au_dropped := au_dropped s |}
  end.

(** [handle_notification]: the answer sent, if any, and the sink; [id_valid] is
    what the kernel says of the notification before a refusal. *)
Definition handle_notification (host : GuardHost) (alive id_valid : bool) (allow_ports : list Z)
    (req : Notification) (audit : option AuditSink) : option NotifResponse * option AuditSink :=
  match classify_notification host req allow_ports with
  | NotifAllow =>
      (Some {| nr_id := nt_id req; nr_val := 0; nr_error := 0; nr_flags := USER_NOTIF_FLAG_CONTINUE |}, audit)
  | NotifBlock addr =>
      if negb id_valid then (None, audit)
      else
        (Some {| nr_id := nt_id req; nr_val := 0; nr_error := - EACCES; nr_flags := 0 |},
         match addr with Some addr => (λ s, audit_send alive s addr) <$> audit | None => audit end)
  end.

(** ** The notifying program *)

Definition SECCOMP_RET_USER_NOTIF : Z := 0x7fc00000.

Definition SYS_CONNECT_NR (a : TargetArch) : Z := match a with X86_64 => 42 | Aarch64 => 203 end.

Definition CONNECT_NOTIFY_PROG (a : TargetArch) : list SockFilter :=
  [ insn FILTER_CODE_LD_W_ABS SECCOMP_DATA_ARCH_OFFSET 0 0;
    insn FILTER_CODE_JMP_JEQ_K (audit_arch_value a) 0 3;
    insn FILTER_CODE_LD_W_ABS SECCOMP_DATA_NR_OFFSET 0 0;
    insn FILTER_CODE_JMP_JEQ_K (SYS_CONNECT_NR a) 0 1;
    insn FILTER_CODE_RET_K SECCOMP_RET_USER_NOTIF 0 0;
    insn FILTER_CODE_RET_K SECCOMP_RET_ALLOW 0 0 ].

(** ** The supervisor sees what the kernel sees *)

(** The memory layout of [struct sockaddr_in] and [sockaddr_in6], with whatever
    follows. *)
Definition port_bytes (port : Z) : list Z := [(port / 256)%Z; (port mod 256)%Z].

Definition encode_sockaddr (addr : SocketAddr) (flow rest : list Z) : list Z :=
  match sa_ip addr with
  | V4 o => ([2; 0] ++ port_bytes (sa_port addr) ++ o ++ rest)%Z%list
  | V6 o => ([10; 0] ++ port_bytes (sa_port addr) ++ flow ++ o ++ rest)%Z%list
  end.

Definition addr_wf (addr : SocketAddr) : Prop :=
  (0 ≤ sa_port addr < 2 ^ 16)%Z ∧ match sa_ip addr with V4 o => length o = 4 | V6 o => length o = 16 end.

Lemma parse_encode addr flow rest :
  addr_wf addr → length flow = 4 → parse_sockaddr (encode_sockaddr addr flow rest) = Some addr.
Proof.
  intros [Hp Ho] Hf. destruct addr as [ip port]. unfold encode_sockaddr, parse_sockaddr, port_bytes.
  cbn [sa_ip sa_port] in *.
  assert (Hport : (256 * (port / 256) + port mod 256)%Z = port) by (symmetry; apply Z.div_mod; lia).
  destruct ip as [o|o].
  - do 5 (destruct o as [|? o]; simpl in Ho; try lia). simpl. by rewrite Hport.
  - do 5 (destruct flow as [|? flow]; simpl in Hf; try lia).
    cbn -[take Nat.ltb Z.mul Z.div Z.modulo Z.add Z.eqb]. simpl Z.eqb. cbv iota.
    rewrite Hport. rewrite (proj2 (Nat.ltb_ge _ _)) by (rewrite length_app; lia).
    by rewrite drop_0, take_app_length'.
Qed.

(** Who listens on a port, by the tables. *)
Definition listens (host : GuardHost) (pid port : Z) : Prop :=
  ∃ leaf state table line, (leaf, state) ∈ proc_net_leaves ∧ gh_proc_net host pid leaf = Some (Ok table) ∧
    line ∈ split_char "010"%char table ∧ listening_port line state = Some port.

Lemma collect_tables_spec host pid leaves : ∀ ports out,
  collect_tables host pid leaves ports = Ok out →
  ∀ port, port ∈ out ↔ port ∈ ports ∨
    ∃ leaf state table line, (leaf, state) ∈ leaves ∧ gh_proc_net host pid leaf = Some (Ok table) ∧
      line ∈ split_char "010"%char table ∧ listening_port line state = Some port.
Proof.
  induction leaves as [|[leaf state] leaves IH]; intros ports out; simpl.
  { intros [= <-] port. split; [auto|]. intros [?|(? & ? & ? & ? & []%elem_of_nil & _)]. done. }
  destruct (gh_proc_net host pid leaf) as [[table|e]|] eqn:E; [|done|]; intros H port; rewrite (IH _ _ H).
  - unfold collect_listening_ports. rewrite elem_of_app, list_elem_of_omap. split.
    + intros [[?|(line & Hl & Hp)]|(l & s & t & ln & Hin & Hrest)]; [by left| |].
      * right. exists leaf, state, table, line. split; [by left|done].
      * right. exists l, s, t, ln. split; [by right|done].
    + intros [?|(l & s & t & ln & [[= -> ->]|Hin]%elem_of_cons & Ht & Hl & Hp)]; [auto| |].
      * left. right. exists ln. rewrite E in Ht. by injection Ht as <-.
      * right. by exists l, s, t, ln.
  - split.
    + intros [?|(l & s & t & ln & Hin & Hrest)]; [by left|]. right. exists l, s, t, ln. split; [by right|done].
    + intros [?|(l & s & t & ln & [[= -> ->]|Hin]%elem_of_cons & Ht & Hrest)]; [auto|congruence|].
      right. by exists l, s, t, ln.
Qed.

Lemma netns_local_ports_spec host pid ports :
  netns_local_ports host pid = Ok ports → ∀ port, port ∈ ports ↔ listens host pid port.
Proof.
  intros H port. rewrite (collect_tables_spec _ _ _ _ _ H). unfold listens. split.
  - by intros [[]%elem_of_nil|?].
  - by right.
Qed.

(** The guard's rule for a destination. *)
Definition refused (host : GuardHost) (pid : Z) (allow_ports : list Z) (addr : SocketAddr) : Prop :=
  is_loopback (sa_ip addr) = true ∧ (sa_port addr ∉ allow_ports) ∧
  match netns_local_ports host pid with
  | Ok _ => (¬ listens host pid (sa_port addr))
  | Err _ => True
  end.

Lemma classify_addr host req allow_ports addr bytes :
  nt_addr_ptr req ≠ 0%Z → (2 ≤ nt_addr_len req)%Z →
  read_remote_mem host (nt_pid req) (nt_addr_ptr req) (Z.to_nat (nt_addr_len req)) = Ok bytes →
  parse_sockaddr bytes = Some addr →
  (refused host (nt_pid req) allow_ports addr →
     classify_notification host req allow_ports = NotifBlock (Some addr)) ∧
  (¬ refused host (nt_pid req) allow_ports addr →
     classify_notification host req allow_ports = NotifAllow).
Proof.
  intros Hp Hl Hr Ha. unfold classify_notification, refused, classify.
  rewrite (proj2 (Z.eqb_neq _ _) Hp), (proj2 (Z.ltb_ge _ _) Hl). simpl. rewrite Hr, Ha.
  destruct (is_loopback (sa_ip addr)); simpl; [|split; [by intros []|done]].
  case_bool_decide as Hport; [split; [by intros (_ & ? & _)|done]|].
  destruct (netns_local_ports host (nt_pid req)) as [ports|e] eqn:Hn; [|naive_solver].
  pose proof (netns_local_ports_spec _ _ _ Hn (sa_port addr)) as Hs.
  case_bool_decide as Hin; split; try done; naive_solver.
Qed.

(** [C32] The guard decides on the destination the agent asked for: for a
    [connect] whose address structure, of either family and with any trailing
    bytes, is in the agent's memory, the supervisor refuses with [EACCES], and
    hands over for audit, exactly the loopback destinations on a port that is
    neither sanctioned nor listened on inside the jail, the latter being
    refused too when the tables cannot be read; every other call continues.
    An address that cannot be read is refused. *)
Theorem loopback_guarded host alive allow_ports req addr flow rest audit :
  addr_wf addr → length flow = 4 →
  (0 ≤ nt_pid req < 2 ^ 31)%Z → nt_addr_ptr req ≠ 0%Z →
  nt_addr_len req = Z.of_nat (length (encode_sockaddr addr flow rest)) →
  (length (encode_sockaddr addr flow rest) ≤ MAX_SOCKADDR_LEN)%nat →
  let answer := handle_notification host alive true allow_ports req audit in
  let continue := {| nr_id := nt_id req; nr_val := 0; nr_error := 0; nr_flags := USER_NOTIF_FLAG_CONTINUE |} in
  let refusal := {| nr_id := nt_id req; nr_val := 0; nr_error := - EACCES; nr_flags := 0 |} in
  (gh_vm_read host (nt_pid req) (nt_addr_ptr req) (length (encode_sockaddr addr flow rest))
     = Ok (encode_sockaddr addr flow rest) →
   (refused host (nt_pid req) allow_ports addr →
      answer = (Some refusal, (λ s, audit_send alive s addr) <$> audit)) ∧
   (¬ refused host (nt_pid req) allow_ports addr → answer = (Some continue, audit))) ∧
  (∀ e, gh_vm_read host (nt_pid req) (nt_addr_ptr req) (length (encode_sockaddr addr flow rest)) = Err e →
     answer = (Some refusal, audit)).
Proof.
  intros Hwf Hf Hpid Hptr Hlen Hmax. cbv zeta. set (bytes := encode_sockaddr addr flow rest) in *.
  assert (Hl2 : (2 ≤ nt_addr_len req)%Z).
  { rewrite Hlen. unfold bytes, encode_sockaddr. destruct (sa_ip addr); simpl; lia. }
  assert (Hmin : Nat.min (Z.to_nat (nt_addr_len req)) MAX_SOCKADDR_LEN = length bytes) by lia.
  assert (Hpr : (2 ^ 31 - 1 <? nt_pid req)%Z = false) by (apply Z.ltb_ge; lia).
  split.
  - intros Hr.
    assert (Hrm : read_remote_mem host (nt_pid req) (nt_addr_ptr req) (Z.to_nat (nt_addr_len req)) = Ok bytes).
    { unfold read_remote_mem. rewrite Hmin, Hpr, Hr. simpl. by rewrite Nat.eqb_refl. }
    destruct (classify_addr host req allow_ports addr bytes Hptr Hl2 Hrm (parse_encode _ _ _ Hwf Hf)) as [Hb Ha].
    unfold handle_notification. split; intros Hx; [by rewrite (Hb Hx)|by rewrite (Ha Hx)].
  - intros e Hr. unfold handle_notification, classify_notification, read_remote_mem.
    rewrite (proj2 (Z.eqb_neq _ _) Hptr), (proj2 (Z.ltb_ge _ _) Hl2). simpl orb. cbv iota.
    rewrite Hmin, Hpr, Hr. done.
Qed.

(** ** The notifying program *)

(** The kernel wakes the supervisor exactly for [connect] calls of the native
    architecture, and allows every other call. *)
Theorem notify_exact {BM : BpfMachine} {BL : BpfLaws BM} a data :
  bpf_exec (CONNECT_NOTIFY_PROG a) 0 0 data =
    if (data 4 =? audit_arch_value a)%Z && (data 0 =? SYS_CONNECT_NR a)%Z
    then SECCOMP_RET_USER_NOTIF else SECCOMP_RET_ALLOW.
Proof.
  erewrite bpf_ld; [|done..]. erewrite bpf_jeq; [|done..]. cbn [sf_k sf_jt sf_jf insn].
  change SECCOMP_DATA_ARCH_OFFSET with 4%Z. destruct (data 4 =? audit_arch_value a)%Z; cbn [andb].
  - erewrite bpf_ld; [|done..]. erewrite bpf_jeq; [|done..]. cbn [sf_k sf_jt sf_jf insn].
    change SECCOMP_DATA_NR_OFFSET with 0%Z.
    destruct (data 0 =? SYS_CONNECT_NR a)%Z; by erewrite bpf_ret; [|done..].
  - by erewrite bpf_ret; [|done..].
Qed.

(** ** Audit reports are counted *)

Inductive AuditOp := AuditSend (alive : bool) (addr : SocketAddr) | AuditDeliver.

Definition audit_step (s : AuditSink) (op : AuditOp) : AuditSink :=
  match op with AuditSend alive addr => audit_send alive s addr | AuditDeliver => audit_deliver s end.

Definition audit_empty : AuditSink := {| au_queue := []; au_delivered := []; au_dropped := 0 |}.

Definition sends (ops : list AuditOp) : list SocketAddr :=
  omap (λ op, match op with AuditSend _ a => Some a | AuditDeliver => None end) ops.

(** A burst never blocks the supervisor nor loses a report silently: delivered
    and queued reports are a subsequence, in order, of the refusals, the queue
    is bounded, and the rest is counted. *)
Theorem audit_conserved ops :
  (Z.of_nat (length ops) < 2 ^ 64)%Z →
  let s := foldl audit_step audit_empty ops in
  (au_delivered s ++ au_queue s)%list `sublist_of` sends ops ∧
  (length (au_queue s) ≤ AUDIT_QUEUE_DEPTH)%nat ∧
  Z.of_nat (length (sends ops)) = (Z.of_nat (length (au_delivered s) + length (au_queue s)) + au_dropped s)%Z ∧
  (0 ≤ au_dropped s ≤ Z.of_nat (length ops))%Z.
Proof.
  induction ops as [|op ops IH] using rev_ind; intros Hlen; cbv zeta.
  { simpl. split_and!; [done|lia|lia|lia|lia]. }
  rewrite length_app in Hlen. simpl in Hlen. destruct IH as (Hsub & Hq & Hc & Hd); [lia|]. cbv zeta in *.
  rewrite foldl_app. simpl. set (s := foldl audit_step audit_empty ops) in *.
  unfold sends. rewrite omap_app. fold (sends ops). rewrite !length_app. simpl.
  destruct op as [alive addr|]; simpl.
  - unfold audit_send. destruct (alive && _) eqn:E; simpl.
    + apply andb_true_iff in E as [_ E%Nat.ltb_lt]. rewrite length_app. simpl.
      split_and!; [|lia..]. rewrite app_assoc. by apply sublist_app.
    + assert (wrap_u64 (au_dropped s + 1) = au_dropped s + 1)%Z as ->.
      { unfold wrap_u64. apply Z.mod_small. lia. }
      split_and!; [by apply sublist_inserts_r|done|lia..].
  - unfold audit_deliver. rewrite app_nil_r. destruct (au_queue s) as [|addr queue] eqn:E; simpl.
    + rewrite E in *. split_and!; [done|simpl; lia|simpl in *; lia..].
    + rewrite length_app. simpl in *. split_and!; [|lia..]. by rewrite <-app_assoc.
Qed.

(** ** Samples *)
Module Samples.

Definition target : SocketAddr := {| sa_ip := V4 [127; 0; 0; 1]%Z; sa_port := 9999%Z |}.
Definition padding : list Z := replicate 8 0%Z.
Definition flow : list Z := [0; 0; 0; 0]%Z.

(** One listener inside the jail, on port 8000. *)
Definition table : string :=
  "  sl  local_address rem_address   st" +:+ String "010"%char
  "   0: 0100007F:1F40 00000000:0000 0A 00000000:00000000".

Definition jail (memory : list Z) : GuardHost :=
  {| gh_vm_read _ _ len := Ok (take len memory);
     gh_proc_net _ leaf := if bool_decide (leaf = "tcp") then Some (Ok table) else None |}.

Definition connect_to (addr : SocketAddr) : Notification :=
  {| nt_id := 7; nt_pid := 42; nt_addr_ptr := 4096;
     nt_addr_len := Z.of_nat (length (encode_sockaddr addr flow padding)) |}.

Lemma jail_ports : netns_local_ports (jail []) 42 = Ok [8000%Z].
Proof. vm_compute. reflexivity. Qed.

Lemma loopback_guarded_witness :
  handle_notification (jail (encode_sockaddr target flow padding)) true true [18080%Z] (connect_to target)
    (Some audit_empty)
  = (Some {| nr_id := 7; nr_val := 0; nr_error := -13; nr_flags := 0 |},
     Some (audit_send true audit_empty target)).
Proof.
  destruct (loopback_guarded (jail (encode_sockaddr target flow padding)) true [18080%Z] (connect_to target)
              target flow padding (Some audit_empty)) as [H _].
  - split; [vm_compute; split; [discriminate|reflexivity]|reflexivity].
  - reflexivity.
  - vm_compute. split; [discriminate|reflexivity].
  - discriminate.
  - reflexivity.
  - vm_compute. repeat constructor.
  - apply H; [reflexivity|]. split; [reflexivity|]. split.
    + intros [E|[]%elem_of_nil]%elem_of_cons. discriminate.
    + assert (Hn : netns_local_ports (jail (encode_sockaddr target flow padding)) (nt_pid (connect_to target))
                   = Ok [8000%Z]) by (vm_compute; reflexivity).
      rewrite Hn. intros Hl%(netns_local_ports_spec _ _ _ Hn).
      apply elem_of_cons in Hl as [E|[]%elem_of_nil]. discriminate.
Defined.

(** The unspecified address, which Linux delivers to the local host, is not
    loopback for the guard: the same port is reached without refusal or audit. *)
Definition unspecified : SocketAddr := {| sa_ip := V4 [0; 0; 0; 0]%Z; sa_port := 9999%Z |}.

Lemma unspecified_continues :
  handle_notification (jail (encode_sockaddr unspecified flow padding)) true true [18080%Z]
    (connect_to unspecified) (Some audit_empty)
  = (Some {| nr_id := 7; nr_val := 0; nr_error := 0; nr_flags := 1 |}, Some audit_empty).
Proof. vm_compute. reflexivity. Qed.

End Samples.
