(* ===== verification/AuditEvent.v ===== *)
(** * Signed audit events ([audit/builder.rs], [firma-audit-schema])

    The event a payload becomes, the text its signature covers and its wire
    form.  The signature scheme is a parameter; the digest signed is written as
    its hexadecimal text.  The clock and the generated identifier are
    arguments. *)

From S2P Require Import Prelude RustStr MappingHost ActionClasses Core Redaction MappingTable Decision Json.
From S2P Require Import Normalizer Session Cedar Constraint Runtime AuditRecord.

#[local] Open Scope string_scope.

Record ExecutionEvent := {
  ev_event_id : string;
  ev_session_id : string;
  ev_token_id : string;
  ev_agent_id : string;
  ev_action : string;
  ev_resource : string;
  ev_decision : AuditDecision;
  ev_deny_reason : string;
  ev_enforcement_latency_us : Z;
  ev_context_hash : string;
  ev_bundle_version : string;
  ev_timestamp : option Z;
  ev_dispatch_status : Z;
  ev_dispatch_latency_us : Z;
  ev_response_size : Z;
  ev_sandbox_id : string;
  ev_provenance : string;
  ev_thread_id : string;
  ev_parent_action_id : string;
  ev_signature : string;
  ev_run_evidence : option string;
}.

#[export] Instance audit_decision_eq_dec : EqDecision AuditDecision.
Proof. solve_decision. Defined.

#[export] Instance execution_event_eq_dec : EqDecision ExecutionEvent.
Proof. solve_decision. Defined.

(** [to_string] of a signed integer. *)
Definition display_signed (z : Z) : string :=
  if (z <? 0)%Z then String "-"%char (display_uint (- z)) else display_uint z.

(** The fields [signing_payload] feeds to the digest, in order. *)
Definition signed_fields (e : ExecutionEvent) : list string :=
  [ ev_event_id e; ev_session_id e; ev_token_id e; ev_agent_id e; ev_action e; ev_resource e;
    display_signed (audit_decision_repr (ev_decision e)); ev_deny_reason e;
    display_signed (ev_enforcement_latency_us e); ev_context_hash e; ev_bundle_version e;
    match ev_timestamp e with None => "0" | Some n => display_uint n end;
    display_signed (ev_dispatch_status e); display_signed (ev_dispatch_latency_us e);
    display_signed (ev_response_size e); ev_sandbox_id e; ev_provenance e; ev_thread_id e;
    ev_parent_action_id e ].

Definition newline_text : string := String "010"%char "".

(** [signing_payload]. *)
Definition signing_payload `{!Sha256} (e : ExecutionEvent) : string :=
  sha256_hex (join newline_text (signed_fields e)).

(** [SigningKey::sign] and the check a collector makes. *)
Class EventSigner := { event_sign : string → string; event_verify : string → string → bool }.

(** A signature is accepted for the payload it was made for and for no other. *)
Class EventSignerLaws (ES : EventSigner) := {
  event_sign_verify : ∀ payload, event_verify payload (event_sign payload) = true;
  event_verify_own : ∀ payload payload', event_verify payload' (event_sign payload) = true → payload' = payload;
}.

Section Builder.
Context {SH : Sha256} {ES : EventSigner}.

Definition set_signature (s : string) (e : ExecutionEvent) : ExecutionEvent :=
  {| ev_event_id := ev_event_id e; ev_session_id := ev_session_id e; ev_token_id := ev_token_id e;
     ev_agent_id := ev_agent_id e; ev_action := ev_action e; ev_resource := ev_resource e;
     ev_decision := ev_decision e; ev_deny_reason := ev_deny_reason e;
     ev_enforcement_latency_us := ev_enforcement_latency_us e; ev_context_hash := ev_context_hash e;
     ev_bundle_version := ev_bundle_version e; ev_timestamp := ev_timestamp e;
     ev_dispatch_status := ev_dispatch_status e; ev_dispatch_latency_us := ev_dispatch_latency_us e;
     ev_response_size := ev_response_size e; ev_sandbox_id := ev_sandbox_id e;
     ev_provenance := ev_provenance e; ev_thread_id := ev_thread_id e;
     ev_parent_action_id := ev_parent_action_id e; ev_signature := s; ev_run_evidence := ev_run_evidence e |}.

(** [EventBuilder::build]; [sandbox] is the builder's sandbox identity. *)
Definition build (sandbox : option string) (event_id : string) (now : Z) (p : AuditPayload) : ExecutionEvent :=
  let e :=
    {| ev_event_id := event_id; ev_session_id := ap_session_id p; ev_token_id := ap_token_id p;
       ev_agent_id := ap_agent_id p; ev_action := ap_action p; ev_resource := ap_resource p;
       ev_decision := ap_decision p; ev_deny_reason := ap_deny_reason p;
       ev_enforcement_latency_us := ap_enforcement_latency_us p; ev_context_hash := ap_context_hash p;
       ev_bundle_version := ap_bundle_version p; ev_timestamp := Some now;
       ev_dispatch_status := ap_dispatch_status p; ev_dispatch_latency_us := ap_dispatch_latency_us p;
       ev_response_size := ap_response_size p; ev_sandbox_id := default "" sandbox;
       ev_provenance := ap_provenance p; ev_thread_id := ap_thread_id p;
       ev_parent_action_id := ap_parent_action_id p; ev_signature := ""; ev_run_evidence := None |} in
  set_signature (event_sign (signing_payload e)) e.

End Builder.

(** ** The wire form *)

(** The protocol's [ExecutionEvent], with the decision's number and the timestamp
    split into seconds and nanoseconds. *)
Record WireEvent := {
  we_event_id : string;
  we_session_id : string;
  we_token_id : string;
  we_agent_id : string;
  we_action : string;
  we_resource : string;
  we_decision : Z;
  we_deny_reason : string;
  we_enforcement_latency_us : Z;
  we_context_hash : string;
  we_bundle_version : string;
  we_timestamp : option (Z * Z);
  we_signature : string;
  we_dispatch_status : Z;
  we_dispatch_latency_us : Z;
  we_response_size : Z;
  we_sandbox_id : string;
  we_provenance : string;
  we_thread_id : string;
  we_parent_action_id : string;
  we_run_evidence : option string;
}.

(** [as i64] and [as i32]. *)
Definition as_signed (bits z : Z) : Z :=
  let m := (z mod 2 ^ bits)%Z in if (m <? 2 ^ (bits - 1))%Z then m else (m - 2 ^ bits)%Z.

(** [execution_event_to_proto]. *)
Definition execution_event_to_proto (e : ExecutionEvent) : WireEvent :=
  {| we_event_id := ev_event_id e; we_session_id := ev_session_id e; we_token_id := ev_token_id e;
     we_agent_id := ev_agent_id e; we_action := ev_action e; we_resource := ev_resource e;
     we_decision := audit_decision_repr (ev_decision e); we_deny_reason := ev_deny_reason e;
     we_enforcement_latency_us := ev_enforcement_latency_us e; we_context_hash := ev_context_hash e;
     we_bundle_version := ev_bundle_version e;
     we_timestamp :=
       (λ nanos, (as_signed 64 (nanos / 1000000000), as_signed 32 (nanos mod 1000000000))%Z) <$> ev_timestamp e;
     we_signature := ev_signature e; we_dispatch_status := ev_dispatch_status e;
     we_dispatch_latency_us := ev_dispatch_latency_us e; we_response_size := ev_response_size e;
     we_sandbox_id := ev_sandbox_id e; we_provenance := ev_provenance e; we_thread_id := ev_thread_id e;
     we_parent_action_id := ev_parent_action_id e; we_run_evidence := ev_run_evidence e |}.

(** ** What the signature covers *)

(** The text fields of an event. *)
Definition text_fields (e : ExecutionEvent) : list string :=
  [ ev_event_id e; ev_session_id e; ev_token_id e; ev_agent_id e; ev_action e; ev_resource e;
    ev_deny_reason e; ev_context_hash e; ev_bundle_version e; ev_sandbox_id e; ev_provenance e;
    ev_thread_id e; ev_parent_action_id e ].

Definition one_line (e : ExecutionEvent) : Prop :=
  Forall (λ s, contains_char "010"%char s = false) (text_fields e).

Lemma join_newline_inj l : ∀ l',
  l ≠ [] → length l = length l' →
  Forall (λ s, contains_char "010"%char s = false) l → Forall (λ s, contains_char "010"%char s = false) l' →
  join newline_text l = join newline_text l' → l = l'.
Proof.
  intros l' Hne Hlen Hl Hl' Hj. apply (f_equal (split_char "010"%char)) in Hj.
  assert (Hs : ∀ k, k ≠ [] → Forall (λ s, contains_char "010"%char s = false) k →
            split_char "010"%char (join newline_text k) = k).
  { clear. induction k as [|w k IH]; intros Hk Hf; [done|]. apply Forall_cons in Hf as [Hw Hf].
    destruct k as [|w' k]; [by apply split_char_single|].
    change (join newline_text (w :: w' :: k)) with (w +:+ String "010"%char (join newline_text (w' :: k))).
    rewrite split_char_app by done. by rewrite IH. }
  assert (l' ≠ []) by (by destruct l, l').
  by rewrite (Hs l), (Hs l') in Hj.
Qed.

Lemma display_signed_no_lf z : contains_char "010"%char (display_signed z) = false.
Proof.
  assert (H : ∀ n, contains_char "010"%char (display_uint n) = false).
  { intros n. apply digits_no_char; [done|apply display_uint_digits]. }
  unfold display_signed. destruct (z <? 0)%Z; [|apply H]. simpl. by rewrite H.
Qed.

Lemma display_signed_inj z z' : display_signed z = display_signed z' → z = z'.
Proof.
  assert (Hd : ∀ n, ∃ c s, display_uint n = String c s ∧ c ≠ "-"%char).
  { intros n. pose proof (display_uint_digits n) as Hd. pose proof (display_uint_nonempty n) as Hn.
    destruct (display_uint n) as [|c s]; [done|]. exists c, s. split; [done|]. intros ->. done. }
  assert (Hi : ∀ m n, (0 ≤ m)%Z → (0 ≤ n)%Z → display_uint m = display_uint n → m = n).
  { intros m n Hm Hn H. unfold display_uint in H. apply (inj pretty) in H. lia. }
  unfold display_signed. destruct (z <? 0)%Z eqn:E, (z' <? 0)%Z eqn:E'; boolify.
  - intros [= H]. apply Hi in H; lia.
  - destruct (Hd z') as (c & s & -> & Hc). intros [= <- _]. done.
  - destruct (Hd z) as (c & s & -> & Hc). intros [= -> _]. done.
  - intros H. apply Hi in H; lia.
Qed.

Lemma audit_decision_repr_inj d d' : audit_decision_repr d = audit_decision_repr d' → d = d'.
Proof. by destruct d, d'. Qed.

(** Nanoseconds are a [u128]. *)
Definition timestamp_wf (e : ExecutionEvent) : Prop :=
  ∀ n, ev_timestamp e = Some n → (0 ≤ n)%Z.

Lemma signed_timestamp_inj (n n' : Z) : (0 ≤ n)%Z → (0 ≤ n')%Z → display_uint n = display_uint n' → n = n'.
Proof. intros Hn Hn' H. unfold display_uint in H. apply (inj pretty) in H. lia. Qed.

Lemma signed_fields_one_line e :
  one_line e → Forall (λ s, contains_char "010"%char s = false) (signed_fields e).
Proof.
  unfold one_line, text_fields, signed_fields. intros H. repeat (apply Forall_cons in H as [? H]).
  repeat apply Forall_cons_2; try done; try apply display_signed_no_lf.
  destruct (ev_timestamp e) as [n|]; [|done]. apply digits_no_char; [done|apply display_uint_digits].
Qed.

(** Every field before the signature, the timestamp as the number it is signed as. *)
Definition signed_view (e : ExecutionEvent) :=
  (ev_event_id e, ev_session_id e, ev_token_id e, ev_agent_id e, ev_action e, ev_resource e,
   (ev_decision e, ev_deny_reason e, ev_enforcement_latency_us e, ev_context_hash e, ev_bundle_version e),
   (default 0%Z (ev_timestamp e), ev_dispatch_status e, ev_dispatch_latency_us e, ev_response_size e),
   (ev_sandbox_id e, ev_provenance e, ev_thread_id e, ev_parent_action_id e)).

Lemma signed_fields_view e e' :
  timestamp_wf e → timestamp_wf e' → signed_fields e = signed_fields e' → signed_view e = signed_view e'.
Proof.
  unfold timestamp_wf, signed_fields, signed_view. intros Hw Hw' H.
  injection H as -> -> -> -> -> -> Hd -> Hl -> -> Ht Hs Hdl Hr -> -> -> ->.
  apply display_signed_inj, audit_decision_repr_inj in Hd as ->.
  apply display_signed_inj in Hl as ->. apply display_signed_inj in Hs as ->.
  apply display_signed_inj in Hdl as ->. apply display_signed_inj in Hr as ->.
  assert (default 0%Z (ev_timestamp e) = default 0%Z (ev_timestamp e')) as ->; [|done].
  destruct (ev_timestamp e) as [n|] eqn:E, (ev_timestamp e') as [n'|] eqn:E'; simpl; try done.
  - apply signed_timestamp_inj; eauto.
  - apply (signed_timestamp_inj n 0); eauto. lia.
  - apply (signed_timestamp_inj 0 n'); eauto. lia.
Qed.

Lemma view_signed_fields e e' : signed_view e = signed_view e' → signed_fields e = signed_fields e'.
Proof.
  unfold signed_view, signed_fields. intros [= -> -> -> -> -> -> -> -> -> -> -> Ht -> -> -> -> -> -> ->].
  assert (∀ e, match ev_timestamp e with None => "0" | Some n => display_uint n end
               = display_uint (default 0%Z (ev_timestamp e))) as Hd.
  { intros e0. by destruct (ev_timestamp e0). }
  by rewrite !Hd, Ht.
Qed.

(** The check of an event's own signature. *)
Definition event_accepted `{!Sha256, !EventSigner} (e : ExecutionEvent) : bool :=
  event_verify (signing_payload e) (ev_signature e).

Section Tamper.
Context {SH : Sha256} {ES : EventSigner}.

Lemma signing_payload_set_signature s e : signing_payload (set_signature s e) = signing_payload e.
Proof. done. Qed.

(** An audit event is tamper evident: the event a payload is built into
    carries a signature that verifies; and any event of single-line fields that
    carries the same signature verifies exactly when it agrees with the built one
    on every field before the signature, decision, reason, resource, timestamp,
    sandbox and provenance anchors included. *)
Theorem event_tamper_evident `{!EventSignerLaws ES, !Inj (=) (=) sha256_hex} sandbox event_id now p e' :
  let e := build sandbox event_id now p in
  (0 ≤ now)%Z → one_line e →
  event_accepted e = true ∧
  (one_line e' → timestamp_wf e' → ev_signature e' = ev_signature e →
    (event_accepted e' = true ↔ signed_view e' = signed_view e)).
Proof.
  intros e Hnow Hl. assert (Hacc : event_accepted e = true) by apply event_sign_verify.
  split; [exact Hacc|]. intros Hl' Hw' Hs. unfold event_accepted in *. rewrite Hs. split.
  - intros H. apply event_verify_own in H. unfold signing_payload in H. apply (inj sha256_hex) in H.
    apply join_newline_inj in H; [|done|done|by apply signed_fields_one_line|by apply signed_fields_one_line].
    apply signed_fields_view; [done| |exact H]. by intros n [= <-].
  - intros H. unfold signing_payload. by rewrite (view_signed_fields _ _ H).
Qed.

End Tamper.

(** The wire form loses nothing the signature covers: a timestamp within [i64]
    seconds is read back from its two parts. *)
Lemma wire_timestamp_roundtrip e n :
  ev_timestamp e = Some n → (0 ≤ n < 2 ^ 63 * 1000000000)%Z →
  ∃ s f, we_timestamp (execution_event_to_proto e) = Some (s, f) ∧ (s * 1000000000 + f = n)%Z.
Proof.
  intros E Hn. simpl. rewrite E. simpl. eexists _, _. split; [done|]. unfold as_signed.
  assert (Hq : (0 ≤ n / 1000000000 < 2 ^ 63)%Z).
  { split; [apply Z.div_pos; lia|]. apply Z.div_lt_upper_bound; lia. }
  assert (Hr : (0 ≤ n mod 1000000000 < 1000000000)%Z) by (apply Z.mod_pos_bound; lia).
  rewrite (Z.mod_small (n / _)) by lia. rewrite (Z.mod_small (n mod _) (2 ^ 32)) by lia.
  rewrite (proj2 (Z.ltb_lt (n / _) _)) by lia. rewrite (proj2 (Z.ltb_lt (n mod _) _)) by lia.
  pose proof (Z_div_mod_eq_full n 1000000000). lia.
Qed.

Module Samples.

(** A digest that is the text itself and a signature that is the payload, marked. *)
#[local] Instance text_digest : Sha256 := λ s, s.
#[local] Instance text_signer : EventSigner :=
  {| event_sign p := "sig:" +:+ p; event_verify p s := bool_decide (s = "sig:" +:+ p) |}.
#[local] Instance text_signer_laws : EventSignerLaws text_signer.
Proof.
  split; simpl; intros; [by apply bool_decide_eq_true|].
  by apply bool_decide_eq_true, (inj (String.append "sig:")) in H.
Qed.
#[local] Instance text_digest_inj : Inj (=) (=) sha256_hex.
Proof. by intros x y. Qed.

Definition sample_payload (session token : string) : AuditPayload :=
  {| ap_session_id := session; ap_token_id := token; ap_agent_id := "agent"; ap_action := "http_get";
     ap_resource := "example.com/a"; ap_decision := DDeny; ap_deny_reason := "no_match: x";
     ap_enforcement_latency_us := 12; ap_context_hash := "h"; ap_bundle_version := "1";
     ap_dispatch_status := 0; ap_dispatch_latency_us := 0; ap_response_size := 0;
     ap_provenance := ""; ap_thread_id := ""; ap_parent_action_id := "" |}.

Definition honest : ExecutionEvent := build (Some "sbx") "ev1" 5000 (sample_payload "s" "t").

(** Relabelling the decision of a signed denial is noticed. *)
Lemma event_tamper_evident_witness :
  event_accepted honest = true ∧
  event_accepted (set_signature (ev_signature honest)
    (build (Some "sbx") "ev1" 5000 (set_ap_decision DAllow "" (sample_payload "s" "t")))) = false.
Proof.
  destruct (event_tamper_evident (Some "sbx") "ev1" 5000 (sample_payload "s" "t")
    (set_signature (ev_signature honest)
      (build (Some "sbx") "ev1" 5000 (set_ap_decision DAllow "" (sample_payload "s" "t"))))) as [H1 H2].
  - lia.
  - repeat constructor.
  - split; [exact H1|]. apply not_true_iff_false. intros H. apply H2 in H.
    + vm_compute in H. discriminate H.
    + repeat constructor.
    + intros n [= <-]. lia.
    + reflexivity.
Defined.

(** Without the single-line condition the text does not determine the fields: a
    newline moved from the session to the token leaves the signature valid. *)
Lemma newline_moves_between_fields :
  let e := build None "ev1" 5000 (sample_payload ("s" +:+ newline_text +:+ "t") "u") in
  let e' := build None "ev1" 5000 (sample_payload "s" ("t" +:+ newline_text +:+ "u")) in
  ev_signature e = ev_signature e' ∧ ev_session_id e ≠ ev_session_id e'.
Proof. split; [reflexivity|]. vm_compute. discriminate. Qed.

End Samples.
