(* ===== verification/AuditWal.v ===== *)
(** * The audit journal ([audit/sink/wal], [audit/sink/submission.rs])

    The write-ahead sink appends each event to a queue file before it is sent,
    and removes it after a matching receipt or after it is in the rejection
    archive.  The model has the disk: a file has the bytes a sync made durable
    and the bytes written since, and a directory entry not yet synced may name
    an earlier file again.  An operation is the list of its disk actions.  An
    execution may stop at any action with an I/O error, a write then leaving
    any prefix of its bytes; a crash discards what was not synced, in any way.

    The JSON texts of events, scopes and archive entries are parameters
    ([serde_json]).  What the collector answers, when a wait times out and
    where the disk fails are inputs of the steps. *)

From S2P Require Import Prelude RustStr ActionClasses Core Redaction MappingTable Decision Json.
From S2P Require Import Normalizer Session Cedar Constraint Runtime AuditRecord AuthorityClient PersistentSession AuditEvent.

#[local] Open Scope string_scope.

Definition LF : ascii := "010"%char.

(** ** Files *)

(** A file's bytes: those a sync made durable and those written since. *)
Record Content := { ct_durable : string; ct_cached : string }.

Definition ct_visible (c : Content) : string := ct_durable c +:+ ct_cached c.

(** What the directory entry names, and what it may name again after a crash,
    because the directory was not synced since. *)
Record FileState := { fs_now : option Content; fs_prior : list (option Content) }.

Definition visible (f : FileState) : string := from_option ct_visible "" (fs_now f).

Definition absent_file : FileState := {| fs_now := None; fs_prior := [] |}.

(** The files of a journal: the queue, its scope and the rejection archive. *)
Inductive Target := Queue | ScopeFile | Archive.

#[export] Instance target_eq_dec : EqDecision Target.
Proof. solve_decision. Defined.

Definition Disk := Target → FileState.

Definition set_file (t : Target) (f : FileState) (d : Disk) : Disk :=
  λ t', if decide (t' = t) then f else d t'.

(** Disk actions: opening a file that may not exist, appending, [sync_all], the
    rename of [replace] and [sync_parent]. *)
Inductive DiskAction :=
| Touch (t : Target)
| WriteAt (t : Target) (bytes : string)
| SyncFile (t : Target)
| Rename (t : Target) (bytes : string)
| SyncParent.

Definition empty_content : Content := {| ct_durable := ""; ct_cached := "" |}.

Definition touch_file (f : FileState) : FileState :=
  match fs_now f with
  | Some _ => f
  | None => {| fs_now := Some empty_content; fs_prior := None :: fs_prior f |}
  end.

Definition write_content (bytes : string) (c : Content) : Content :=
  {| ct_durable := ct_durable c; ct_cached := ct_cached c +:+ bytes |}.

Definition sync_content (c : Content) : Content := {| ct_durable := ct_visible c; ct_cached := "" |}.

Definition on_content (g : Content → Content) (f : FileState) : FileState :=
  {| fs_now := g <$> fs_now f; fs_prior := fs_prior f |}.

Definition rename_file (bytes : string) (f : FileState) : FileState :=
  {| fs_now := Some {| ct_durable := bytes; ct_cached := "" |}; fs_prior := fs_now f :: fs_prior f |}.

Definition sync_entry (f : FileState) : FileState := {| fs_now := fs_now f; fs_prior := [] |}.

Definition disk_action (a : DiskAction) (d : Disk) : Disk :=
  match a with
  | Touch t => set_file t (touch_file (d t)) d
  | WriteAt t bytes => set_file t (on_content (write_content bytes) (d t)) d
  | SyncFile t => set_file t (on_content sync_content (d t)) d
  | Rename t bytes => set_file t (rename_file bytes (d t)) d
  | SyncParent => λ t, sync_entry (d t)
  end.

(** Where an operation stops: after [n] actions, the failing one, if a write,
    having written [k] bytes; a failing sync or rename may have happened or not. *)
Inductive Fault := NoFault | StopAt (n : nat) (k : nat) (happened : bool).

Definition failing_action (k : nat) (happened : bool) (a : DiskAction) (d : Disk) : Disk :=
  match a with
  | WriteAt t bytes => disk_action (WriteAt t (String.substring 0 k bytes)) d
  | _ => if happened then disk_action a d else d
  end.

Fixpoint run_actions (l : list DiskAction) (d : Disk) : Disk :=
  match l with [] => d | a :: l => run_actions l (disk_action a d) end.

(** The disk after an operation, and whether it completed. *)
Fixpoint exec (fault : Fault) (l : list DiskAction) (d : Disk) : Disk * bool :=
  match l with
  | [] => (d, true)
  | a :: l =>
      match fault with
      | NoFault => exec NoFault l (disk_action a d)
      | StopAt 0 k happened => (failing_action k happened a d, false)
      | StopAt (S n) k happened => exec (StopAt n k happened) l (disk_action a d)
      end
  end.

(** A crash: the directory may name an earlier file again, and bytes written since
    the last sync may be lost or garbled into [garbage]. *)
Definition crash_content (garbage : string) (c : Content) : Content :=
  {| ct_durable := ct_durable c +:+ (if decide (ct_cached c = "") then "" else garbage); ct_cached := "" |}.

Definition crash_file (fallback : nat) (garbage : string) (f : FileState) : FileState :=
  {| fs_now := crash_content garbage <$> default (fs_now f) (fs_prior f !! fallback); fs_prior := [] |}.

Definition crash_disk (fallback : Target → nat) (garbage : Target → string) (d : Disk) : Disk :=
  λ t, crash_file (fallback t) (garbage t) (d t).

(** ** Lines *)

(** [split_inclusive] at a byte. *)
Fixpoint split_inclusive (c : ascii) (s : string) : list string :=
  match s with
  | "" => []
  | String a s =>
      if decide (a = c) then String a "" :: split_inclusive c s
      else match split_inclusive c s with
           | [] => [String a ""]
           | w :: ws => String a w :: ws
           end
  end.

Definition concat_bytes (l : list string) : string := foldr String.append "" l.

Definition ends_with_lf (s : string) : bool :=
  match String.length s with
  | O => false
  | S n => match String.get n s with Some a => bool_decide (a = LF) | None => false end
  end.

(** [repair_tail], on the content it reads. *)
Definition repair_tail (t : Target) (d : Disk) : list DiskAction :=
  if decide (visible (d t) = "") then []
  else if ends_with_lf (visible (d t)) then [] else [WriteAt t (String LF ""); SyncFile t].

(** [replace]; the temporary file is private to it and synced before the rename. *)
Definition replace (t : Target) (bytes : string) : list DiskAction := [Rename t bytes; SyncParent].

(** ** Facts about lines *)

(** A byte sequence is whole lines when each of its lines ends. *)
Definition whole_lines (s : string) : Prop := s = "" ∨ ends_with_lf s = true.

Lemma ends_with_lf_cons a s : s ≠ "" → ends_with_lf (String a s) = ends_with_lf s.
Proof. by destruct s. Qed.

Lemma ends_with_lf_app s t : t ≠ "" → ends_with_lf (s +:+ t) = ends_with_lf t.
Proof.
  intros Ht. induction s as [|a s IH]; [done|]. change (String a s +:+ t) with (String a (s +:+ t)).
  rewrite ends_with_lf_cons; [exact IH|]. by destruct s, t.
Qed.

Lemma split_inclusive_nil c s : split_inclusive c s = [] → s = "".
Proof. destruct s as [|a s]; [done|]. simpl. case_decide; [done|]. by destruct (split_inclusive c s). Qed.

(** Splitting loses nothing. *)
Lemma concat_split_inclusive c s : concat_bytes (split_inclusive c s) = s.
Proof.
  induction s as [|a s IH]; [done|]. simpl. case_decide; [by rewrite <- IH at 2|].
  destruct (split_inclusive c s) as [|w ws] eqn:E; [by apply split_inclusive_nil in E as ->|].
  simpl in *. by rewrite IH.
Qed.

(** What follows whole lines is split on its own. *)
Lemma split_inclusive_app s t :
  whole_lines s → split_inclusive LF (s +:+ t) = (split_inclusive LF s ++ split_inclusive LF t)%list.
Proof.
  induction s as [|a s IH]; [done|]. intros [?|Hl]; [done|].
  change (String a s +:+ t) with (String a (s +:+ t)). simpl.
  destruct (decide (s = "")) as [->|Hs].
  { unfold ends_with_lf in Hl. simpl in Hl. apply bool_decide_eq_true in Hl as ->.
    by rewrite decide_True. }
  rewrite ends_with_lf_cons in Hl by done. rewrite IH by (by right). case_decide; [done|].
  destruct (split_inclusive LF s) as [|w ws] eqn:E; [|done]. by apply split_inclusive_nil in E.
Qed.

Lemma split_inclusive_line r :
  contains_char LF r = false → split_inclusive LF (r +:+ String LF "") = [r +:+ String LF ""].
Proof.
  induction r as [|a r IH]; [done|]. simpl. intros [Ha Hr]%orb_false_iff.
  rewrite IH by done. rewrite decide_False; [done|]. intros ->. by rewrite bool_decide_true in Ha.
Qed.

(** Every text is whole lines and an unfinished one. *)
Lemma whole_lines_split s : ∃ s1 s2, s = s1 +:+ s2 ∧ whole_lines s1 ∧ contains_char LF s2 = false.
Proof.
  induction s as [|a s (s1 & s2 & -> & Hw & Hc)]; [by exists "", ""; repeat split; left|].
  destruct (decide (s1 = "")) as [->|Hs1].
  - destruct (decide (a = LF)) as [->|Ha].
    + exists (String LF ""), s2. repeat split; [by right|done].
    + exists "", (String a s2). repeat split; [by left|]. simpl. by rewrite bool_decide_false by done.
  - exists (String a s1), s2. repeat split; [|done]. right. rewrite ends_with_lf_cons by done.
    by destruct Hw.
Qed.

Lemma split_inclusive_unfinished s :
  contains_char LF s = false → split_inclusive LF s = if decide (s = "") then [] else [s].
Proof.
  induction s as [|a s IH]; [done|]. simpl. intros [Ha Hs]%orb_false_iff.
  rewrite decide_False by (intros ->; by rewrite bool_decide_true in Ha).
  rewrite IH by done. by destruct s.
Qed.

(** A finished line stays a line whatever is appended. *)
Lemma line_kept w s t :
  ends_with_lf w = true → w ∈ split_inclusive LF s → w ∈ split_inclusive LF (s +:+ t).
Proof.
  intros Hw. destruct (whole_lines_split s) as (s1 & s2 & -> & Hs & Hc).
  replace ((s1 +:+ s2) +:+ t) with (s1 +:+ (s2 +:+ t)) by apply str_app_assoc.
  rewrite !split_inclusive_app by done. rewrite !elem_of_app. intros [?|Hin]; [by left|exfalso].
  rewrite split_inclusive_unfinished in Hin by done. case_decide; [by apply elem_of_nil in Hin|].
  apply list_elem_of_singleton in Hin as ->. clear -Hw Hc.
  induction s2 as [|a s IH]; [done|]. simpl in Hc. apply orb_false_iff in Hc as [Ha Hc].
  destruct (decide (s = "")) as [->|Hs].
  - unfold ends_with_lf in Hw. simpl in Hw. apply bool_decide_eq_true in Hw as ->.
    by rewrite bool_decide_true in Ha.
  - rewrite ends_with_lf_cons in Hw by done. auto.
Qed.

Lemma record_line j : ends_with_lf (j +:+ String LF "") = true.
Proof. by rewrite ends_with_lf_app. Qed.

(** ** The journal ([journal.rs]) *)

Record Scope := {
  sc_version : Z;
  sc_endpoint : string;
  sc_sidecar : option (string * string);
  sc_run : option string;
}.

#[export] Instance scope_eq_dec : EqDecision Scope.
Proof. solve_decision. Defined.

(** The identities a credential names. *)
Record CredentialIds := { ci_workspace : string; ci_sidecar : string; ci_run : option string }.

(** [Scope::new]. *)
Definition scope_new (endpoint : string) (credentials : option CredentialIds) : Scope :=
  {| sc_version := 1; sc_endpoint := endpoint;
     sc_sidecar := (λ c, (ci_workspace c, ci_sidecar c)) <$> credentials;
     sc_run := credentials ≫= ci_run |}.

Definition same_sidecar (a b : Scope) : bool :=
  (sc_version a =? sc_version b)%Z && bool_decide (sc_endpoint a = sc_endpoint b) &&
  bool_decide (sc_sidecar a = sc_sidecar b).

(** The texts [serde_json] writes and reads. *)
Class WalJson := {
  event_to_json : ExecutionEvent → option string;
  event_of_json : string → option ExecutionEvent;
  scope_to_json : Scope → string;
  scope_of_json : string → option Scope;
  archive_entry : string → string → string → string;
}.

(** Documented behaviour: compact JSON has no line feed, and what was written is
    read back, trailing whitespace included. *)
Class WalJsonLaws (WJ : WalJson) := {
  event_json_line : ∀ e j, event_to_json e = Some j → contains_char LF j = false;
  event_json_back : ∀ e j, event_to_json e = Some j → event_of_json (j +:+ String LF "") = Some e;
  scope_json_back : ∀ s, scope_of_json (scope_to_json s) = Some s;
  archive_entry_line : ∀ r code reason, contains_char LF (archive_entry r code reason) = false;
}.

Record Journal := { jr_max_bytes : Z; jr_size : Z; jr_records : list string }.

Definition zlen (s : string) : Z := Z.of_nat (String.length s).

Section Wal.
Context {WJ : WalJson}.

(** [Journal::open] once the lock is held: the actions on the way to the scope's
    verdict, to the capacity check and to the result. *)
Inductive ScopeVerdict := ScopeKept | ScopeWritten | ScopeRefused (message : string).

Definition scope_verdict (d : Disk) (scope : Scope) : ScopeVerdict :=
  match fs_now (d ScopeFile) with
  | Some c =>
      match scope_of_json (ct_visible c) with
      | None => ScopeRefused "invalid audit WAL scope"
      | Some stored =>
          if decide (stored = scope) then ScopeKept
          else if bool_decide (visible (d Queue) = "") && same_sidecar stored scope then ScopeWritten
          else ScopeRefused "audit WAL destination does not match its stored scope"
      end
  | None =>
      if decide (visible (d Queue) = "") then ScopeWritten
      else ScopeRefused "nonempty legacy audit WAL has no scope; explicit migration is required"
  end.

Definition scope_actions (v : ScopeVerdict) (scope : Scope) : list DiskAction :=
  match v with ScopeWritten => replace ScopeFile (scope_to_json scope) | _ => [] end.

(** The three parts of [open], each with where it stops. *)
Definition open_journal (f1 f2 f3 : Fault) (max_bytes : Z) (scope : Scope) (d : Disk)
    : Disk * Result Journal string :=
  let '(d, ok) := exec f1 [Touch Queue] d in
  if negb ok then (d, Err "io") else
  let v := scope_verdict d scope in
  match v with
  | ScopeRefused m => (d, Err m)
  | _ =>
      let '(d, ok) := exec f2 (scope_actions v scope ++ repair_tail Queue d)%list d in
      if negb ok then (d, Err "io") else
      let bytes := visible (d Queue) in
      if (max_bytes <? zlen bytes)%Z then
        (d, Err "audit WAL exceeds configured capacity; retained without eviction")
      else
        let '(d, ok) := exec f3 [SyncParent] d in
        if negb ok then (d, Err "io") else
        (d, Ok {| jr_max_bytes := max_bytes; jr_size := zlen bytes; jr_records := split_inclusive LF bytes |})
  end.

(** [Journal::append]. *)
Definition append (fault : Fault) (e : ExecutionEvent) (j : Journal) (d : Disk) : Disk * Result Journal string :=
  match event_to_json e with
  | None => (d, Err "cannot encode audit WAL event")
  | Some json =>
      let record := json +:+ String LF "" in
      if (jr_max_bytes j <? Z.min (jr_size j + zlen record) (2 ^ 64 - 1))%Z then
        (d, Err "audit WAL capacity exhausted; pending records retained")
      else
        let '(d, ok) := exec fault (Touch Queue :: repair_tail Queue d ++ [WriteAt Queue record; SyncFile Queue]) d in
        if negb ok then (d, Err "io") else
        (d, Ok {| jr_max_bytes := jr_max_bytes j; jr_size := jr_size j + zlen record;
                  jr_records := jr_records j ++ [record] |})
  end.

(** [Journal::reject]. *)
Definition reject (fault : Fault) (record code reason : string) (d : Disk) : Disk * bool :=
  exec fault
    (Touch Archive :: repair_tail Archive d ++
     [WriteAt Archive (archive_entry record code reason); WriteAt Archive (String LF "");
      SyncFile Archive; SyncParent])%list d.

(** [Journal::reclaim]. *)
Definition reclaim (fault : Fault) (count : nat) (j : Journal) (d : Disk) : Disk * Result Journal string :=
  if decide (count = 0%nat) then (d, Ok j) else
  let rest := drop count (jr_records j) in
  let bytes := concat_bytes rest in
  let '(d, ok) := exec fault (replace Queue bytes) d in
  if negb ok then (d, Err "io") else
  (d, Ok {| jr_max_bytes := jr_max_bytes j; jr_size := zlen bytes; jr_records := rest |}).

(** ** Delivery ([submission.rs]) *)

Record Receipt := { rc_durably_persisted : bool; rc_events_received : Z; rc_last_event_id : string }.

Inductive Submission := Persisted | Rejected (message : string) | Retry | RunRejected.

(** What one submission meets: the dial when there is no client, the metadata the
    credentials make, the collector's answer, and the deadline. *)
Inductive Reply := ReplyReceipt (r : Receipt) | ReplyStatus (code : Code) (message : string).

Record SubmitEnv := {
  sub_dial_ok : bool;
  sub_metadata_ok : bool;
  sub_reply : Reply;
  sub_in_time : bool;
}.

Definition INVALID_ARGUMENT : Code := 3%Z.

Definition receipt_matches (r : Receipt) (source_id : string) : bool :=
  rc_durably_persisted r && (rc_events_received r =? 1)%Z && bool_decide (rc_last_event_id r = source_id).

(** [submit] around [send]: the result and whether a client is kept. *)
Definition submit (credentials : option SidecarCredential) (client : bool) (e : ExecutionEvent) (env : SubmitEnv)
    : Submission * bool :=
  if negb client && negb (sub_dial_ok env) then (Retry, false)
  else if negb (sub_metadata_ok env) then (Retry, true)
  else if negb (sub_in_time env) then (Retry, true)
  else match sub_reply env with
       | ReplyReceipt r => if receipt_matches r (ev_event_id e) then (Persisted, true) else (Retry, true)
       | ReplyStatus code message =>
           if (code =? INVALID_ARGUMENT)%Z then (Rejected message, true)
           else if rejects_run code credentials then (RunRejected, true)
           else (Retry, false)
       end.

(** ** Replay and the sink's loop ([wal/mod.rs]) *)

Definition REPLAY_LIMIT : nat := 32.

(** What the loop meets at one record; the collector's receipts are logged. *)
Record RecordEnv := { re_cancelled : bool; re_submit : SubmitEnv; re_fault : Fault }.

Record ReplayState := {
  rp_disk : Disk;
  rp_client : bool;
  rp_receipts : list (ExecutionEvent * Receipt);
  rp_rejected : bool;
  rp_consumed : nat;
}.

Definition consume (d : Disk) (client : bool) (receipts : list (ExecutionEvent * Receipt)) (s : ReplayState)
    : ReplayState :=
  {| rp_disk := d; rp_client := client; rp_receipts := receipts; rp_rejected := rp_rejected s;
     rp_consumed := S (rp_consumed s) |}.

Definition leave (d : Disk) (client : bool) (rejected : bool) (s : ReplayState) : ReplayState :=
  {| rp_disk := d; rp_client := client; rp_receipts := rp_receipts s; rp_rejected := rp_rejected s || rejected;
     rp_consumed := rp_consumed s |}.

Definition log_receipt (e : ExecutionEvent) (reply : Reply) (l : list (ExecutionEvent * Receipt)) :=
  match reply with ReplyReceipt r => (l ++ [(e, r)])%list | ReplyStatus _ _ => l end.

(** The loop of [replay] over the records it takes; the flag is false when an
    archive write failed. *)
Fixpoint replay_records (credentials : option SidecarCredential) (env : nat → RecordEnv) (rs : list string)
    (s : ReplayState) : ReplayState * bool :=
  match rs with
  | [] => (s, true)
  | record :: rs =>
      if re_cancelled (env 0) then (s, true) else
      let next := λ n, env (S n) in
      match event_of_json record with
      | None =>
          let '(d, ok) := reject (re_fault (env 0)) record "malformed_record" "invalid audit JSON record" (rp_disk s) in
          if ok then replay_records credentials next rs (consume d (rp_client s) (rp_receipts s) s)
          else (leave d (rp_client s) false s, false)
      | Some e =>
          let '(outcome, client) := submit credentials (rp_client s) e (re_submit (env 0)) in
          match outcome with
          | Persisted =>
              replay_records credentials next rs
                (consume (rp_disk s) client (log_receipt e (sub_reply (re_submit (env 0))) (rp_receipts s)) s)
          | Rejected message =>
              let '(d, ok) := reject (re_fault (env 0)) record "invalid_argument" message (rp_disk s) in
              if ok then replay_records credentials next rs (consume d client (rp_receipts s) s)
              else (leave d client false s, false)
          | Retry => (leave (rp_disk s) client false s, true)
          | RunRejected => (leave (rp_disk s) client true s, true)
          end
      end
  end.

(** The sink: its credentials, its scope, its journal and whether it holds a
    connected client. *)
Record Sink := { sk_credentials : option SidecarCredential; sk_scope : Scope; sk_journal : Journal; sk_client : bool }.

(** An installation: the disk, the sink that holds the lock, whether the run was
    rejected, the events journaled so far with the scope of the sink that
    journaled them, and the receipts that arrived. *)
Record WalState := {
  ws_disk : Disk;
  ws_sink : option Sink;
  ws_rejected : bool;
  ws_journaled : list (Scope * ExecutionEvent);
  ws_receipts : list (ExecutionEvent * Receipt);
}.

(** What a [?] on the journal leaves: the sink goes on or has returned. *)
Definition with_journal (k : Sink) (client : bool) (r : Disk * Result Journal string) (rejected : bool)
    (journaled : list (Scope * ExecutionEvent)) (receipts : list (ExecutionEvent * Receipt)) : WalState :=
  {| ws_disk := r.1;
     ws_sink :=
       match r.2 with
       | Ok j => Some {| sk_credentials := sk_credentials k; sk_scope := sk_scope k; sk_journal := j; sk_client := client |}
       | Err _ => None
       end;
     ws_rejected := rejected; ws_journaled := journaled; ws_receipts := receipts |}.

(** [journal.append(event).await?]. *)
Definition sink_append (fault : Fault) (e : ExecutionEvent) (k : Sink) (s : WalState) : WalState :=
  let r := append fault e (sk_journal k) (ws_disk s) in
  with_journal k (sk_client k) r (ws_rejected s)
    (match r.2 with Ok _ => ws_journaled s ++ [(sk_scope k, e)] | Err _ => ws_journaled s end)%list
    (ws_receipts s).

(** [replay(journal, ...).await?]. *)
Definition sink_replay (env : nat → RecordEnv) (fault : Fault) (k : Sink) (s : WalState) : WalState :=
  let '(p, ok) :=
    replay_records (sk_credentials k) env (take REPLAY_LIMIT (jr_records (sk_journal k)))
      {| rp_disk := ws_disk s; rp_client := sk_client k; rp_receipts := ws_receipts s;
         rp_rejected := ws_rejected s; rp_consumed := 0 |} in
  with_journal k (rp_client p)
    (if ok then reclaim fault (rp_consumed p) (sk_journal k) (rp_disk p) else (rp_disk p, Err "io"))
    (rp_rejected p) (ws_journaled s) (rp_receipts p).

(** The sink returns and its lock is released. *)
Definition sink_returns (s : WalState) : WalState :=
  {| ws_disk := ws_disk s; ws_sink := None; ws_rejected := ws_rejected s; ws_journaled := ws_journaled s;
     ws_receipts := ws_receipts s |}.

(** The drain on shutdown. *)
Fixpoint sink_drain (l : list (ExecutionEvent * Fault)) (s : WalState) : WalState :=
  match l with
  | [] => sink_returns s
  | (e, fault) :: l =>
      match ws_sink s with
      | Some k => sink_drain l (sink_append fault e k s)
      | None => s
      end
  end.

(** Steps: a sink starts, one arm of its [select!] runs, or the machine crashes. *)
Inductive WalStep :=
| WalOpens (f1 f2 f3 : Fault) (max_bytes : Z) (credentials : option SidecarCredential) (scope : Scope)
| WalReceives (e : ExecutionEvent) (fault : Fault)
| WalTicks (env : nat → RecordEnv) (fault : Fault)
| WalChannelCloses (env : nat → RecordEnv) (fault : Fault)
| WalExits (buffered : list (ExecutionEvent * Fault))
| WalCrashes (fallback : Target → nat) (garbage : Target → string).

Definition wal_step (l : WalStep) (s : WalState) : WalState :=
  match l, ws_sink s with
  | WalOpens f1 f2 f3 max_bytes credentials scope, None =>
      let r := open_journal f1 f2 f3 max_bytes scope (ws_disk s) in
      {| ws_disk := r.1;
         ws_sink :=
           match r.2 with
           | Ok j => Some {| sk_credentials := credentials; sk_scope := scope; sk_journal := j; sk_client := false |}
           | Err _ => None
           end;
         ws_rejected := false; ws_journaled := ws_journaled s; ws_receipts := ws_receipts s |}
  | WalOpens _ _ _ _ _ _, Some _ => s
  | WalReceives e fault, Some k => sink_append fault e k s
  | WalTicks env fault, Some k => sink_replay env fault k s
  | WalChannelCloses env fault, Some k => sink_returns (sink_replay env fault k s)
  | WalExits buffered, Some _ => sink_drain buffered s
  | WalCrashes fallback garbage, _ =>
      {| ws_disk := crash_disk fallback garbage (ws_disk s); ws_sink := None; ws_rejected := ws_rejected s;
         ws_journaled := ws_journaled s; ws_receipts := ws_receipts s |}
  | _, None => s
  end.

Definition wal_initial : WalState :=
  {| ws_disk := λ _, absent_file; ws_sink := None; ws_rejected := false; ws_journaled := []; ws_receipts := [] |}.

Inductive wal_reachable : WalState → Prop :=
| wal_starts : wal_reachable wal_initial
| wal_steps s l : wal_reachable s → wal_reachable (wal_step l s).

(** ** What the disk keeps *)

(** The contents a file may have after a crash, before any loss of cached bytes. *)
Definition candidates (f : FileState) : list (option Content) := fs_now f :: fs_prior f.

(** A line is held when it survives every crash. *)
Definition holds_line (w : string) (f : FileState) : Prop :=
  Forall (λ oc, ∃ c, oc = Some c ∧ w ∈ split_inclusive LF (ct_durable c)) (candidates f).

(** A scope is pinned when every crash leaves it. *)
Definition scope_pinned (sc : Scope) (f : FileState) : Prop :=
  Forall (λ oc, ∃ c, oc = Some c ∧ ct_cached c = "" ∧ scope_of_json (ct_durable c) = Some sc) (candidates f).

(** Actions that do not replace [t], and those that leave [t] alone. *)
Definition keeps (t : Target) (a : DiskAction) : Prop :=
  match a with Rename t' _ => t' ≠ t | _ => True end.

Definition spares (t : Target) (a : DiskAction) : Prop :=
  match a with Touch t' | WriteAt t' _ | SyncFile t' | Rename t' _ => t' ≠ t | SyncParent => True end.

(** An execution preserves what each of its actions preserves, wherever it stops. *)
Lemma exec_preserves (A : DiskAction → Prop) (P : Disk → Prop) :
  (∀ a d, A a → P d → P (disk_action a d)) → (∀ t b b', A (WriteAt t b) → A (WriteAt t b')) →
  ∀ l fault d, Forall A l → P d → P (exec fault l d).1.
Proof.
  intros Ha Hw l. induction l as [|a l IH]; intros fault d HA HP; [done|].
  apply Forall_cons in HA as [HAa HA]. simpl. destruct fault as [|[|n] k happened]; auto.
  cbn [fst]. unfold failing_action. destruct a; try (destruct happened; [|done]); apply Ha; eauto.
Qed.

Lemma exec_complete l : ∀ fault d d', exec fault l d = (d', true) → d' = run_actions l d.
Proof.
  induction l as [|a l IH]; intros fault d d'; simpl; [by intros [= <-]|].
  destruct fault as [|[|n] k happened]; [apply IH|done|apply IH].
Qed.

Lemma run_actions_app l l' d : run_actions (l ++ l') d = run_actions l' (run_actions l d).
Proof. revert d. induction l as [|a l IH]; intros d; [done|apply IH]. Qed.

Lemma set_file_eq t f d : set_file t f d t = f.
Proof. unfold set_file. by rewrite decide_True. Qed.

Lemma set_file_ne t t' f d : t' ≠ t → set_file t f d t' = d t'.
Proof. intros. unfold set_file. by rewrite decide_False. Qed.

Lemma action_keeps_line w t a d :
  ends_with_lf w = true → keeps t a → holds_line w (d t) → holds_line w (disk_action a d t).
Proof.
  intros Hw Hk Hh. destruct a as [t'|t' b|t'|t' b|]; simpl in *.
  all: try (destruct (decide (t = t')) as [<-|]; [rewrite set_file_eq|by rewrite set_file_ne]).
  - pose proof Hh as [(c & E & _) _]%Forall_cons. unfold touch_file. by rewrite E.
  - apply Forall_cons in Hh as [(c & E & Hin) Hp]. apply Forall_cons. split; [|done].
    simpl. rewrite E. eexists; split; [done|exact Hin].
  - apply Forall_cons in Hh as [(c & E & Hin) Hp]. apply Forall_cons. split; [|done].
    simpl. rewrite E. eexists; split; [done|]. by apply line_kept.
  - done.
  - apply Forall_cons in Hh as [? _]. by repeat constructor.
Qed.

Lemma crash_keeps_line w n g f : ends_with_lf w = true → holds_line w f → holds_line w (crash_file n g f).
Proof.
  intros Hw Hh. repeat constructor. simpl.
  assert (Hc : ∃ c, default (fs_now f) (fs_prior f !! n) = Some c ∧ w ∈ split_inclusive LF (ct_durable c)).
  { apply Forall_cons in Hh as [? Hp]. destruct (fs_prior f !! n) eqn:E; [|done].
    by apply (Forall_lookup_1 _ _ _ _ Hp E). }
  destruct Hc as (c & -> & Hin). eexists. split; [done|]. by apply line_kept.
Qed.

Lemma action_keeps_scope sc a d :
  spares ScopeFile a → scope_pinned sc (d ScopeFile) → scope_pinned sc (disk_action a d ScopeFile).
Proof.
  intros Hs Hp. destruct a; simpl in *; try (by rewrite set_file_ne).
  apply Forall_cons in Hp as [? _]. by repeat constructor.
Qed.

Lemma crash_keeps_scope sc n g f : scope_pinned sc f → scope_pinned sc (crash_file n g f).
Proof.
  intros Hh. repeat constructor. simpl.
  assert (Hc : ∃ c, default (fs_now f) (fs_prior f !! n) = Some c ∧ ct_cached c = "" ∧
                 scope_of_json (ct_durable c) = Some sc).
  { apply Forall_cons in Hh as [? Hp]. destruct (fs_prior f !! n) eqn:E; [|done].
    by apply (Forall_lookup_1 _ _ _ _ Hp E). }
  destruct Hc as (c & -> & Hc & Hs). eexists. split; [done|]. simpl. rewrite decide_True by done.
  by rewrite str_app_nil_r.
Qed.

(** The scope file is only ever replaced whole. *)
Definition scope_synced (d : Disk) : Prop :=
  Forall (λ oc, ∀ c, oc = Some c → ct_cached c = "") (candidates (d ScopeFile)).

Definition scope_safe (a : DiskAction) : Prop :=
  match a with Touch t | WriteAt t _ | SyncFile t => t ≠ ScopeFile | _ => True end.

Lemma action_scope_synced a d : scope_safe a → scope_synced d → scope_synced (disk_action a d).
Proof.
  unfold scope_synced. intros Hs Hp. destruct a as [t|t b|t|t b|]; simpl in *; try (by rewrite set_file_ne).
  - destruct (decide (t = ScopeFile)) as [->|]; [rewrite set_file_eq|by rewrite set_file_ne].
    apply Forall_cons. split; [by intros c [= <-]|exact Hp].
  - apply Forall_cons in Hp as [? _]. by repeat constructor.
Qed.

Lemma spares_keeps t a : spares t a → keeps t a.
Proof. by destruct a. Qed.

Lemma repair_tail_actions t d A :
  A (WriteAt t (String LF "")) → A (SyncFile t) → Forall A (repair_tail t d).
Proof. intros. unfold repair_tail. repeat case_match; by repeat constructor. Qed.

Lemma exec_keeps_line w t l fault d :
  ends_with_lf w = true → Forall (keeps t) l → holds_line w (d t) → holds_line w ((exec fault l d).1 t).
Proof.
  intros Hw. apply (exec_preserves (keeps t) (λ d, holds_line w (d t))); [|done].
  intros. by apply action_keeps_line.
Qed.

Lemma exec_keeps_scope sc l fault d :
  Forall (spares ScopeFile) l → scope_pinned sc (d ScopeFile) →
  scope_pinned sc ((exec fault l d).1 ScopeFile).
Proof.
  apply (exec_preserves (spares ScopeFile) (λ d, scope_pinned sc (d ScopeFile))); [|done].
  intros. by apply action_keeps_scope.
Qed.

Lemma exec_scope_synced l fault d : Forall scope_safe l → scope_synced d → scope_synced (exec fault l d).1.
Proof. apply (exec_preserves scope_safe scope_synced); [apply action_scope_synced|done]. Qed.

(** ** What becomes of a journaled event *)

(** The collector answered it with a matching receipt. *)
Definition receipted (receipts : list (ExecutionEvent * Receipt)) (e : ExecutionEvent) : Prop :=
  ∃ rc, (e, rc) ∈ receipts ∧ receipt_matches rc (ev_event_id e) = true.

(** Its record is in the rejection archive, whatever crash comes. *)
Definition archived (d : Disk) (e : ExecutionEvent) : Prop :=
  ∃ j code reason, event_to_json e = Some j ∧
    holds_line (archive_entry (j +:+ String LF "") code reason +:+ String LF "") (d Archive).

(** Its record is in the queue, whatever crash comes. *)
Definition queued (d : Disk) (e : ExecutionEvent) : Prop :=
  ∃ j, event_to_json e = Some j ∧ holds_line (j +:+ String LF "") (d Queue).

Definition settled (d : Disk) (receipts : list (ExecutionEvent * Receipt)) (e : ExecutionEvent) : Prop :=
  receipted receipts e ∨ archived d e.

(** A journaled event is settled, or queued under the scope that journaled it. *)
Definition entry_ok (d : Disk) (receipts : list (ExecutionEvent * Receipt)) (sc : Scope) (e : ExecutionEvent) : Prop :=
  settled d receipts e ∨ (queued d e ∧ scope_pinned sc (d ScopeFile)).

(** What a live journal knows of the disk. *)
Definition journal_ok (d : Disk) (scope : Scope) (j : Journal) : Prop :=
  ∃ c, d Queue = {| fs_now := Some c; fs_prior := [] |} ∧ whole_lines (ct_visible c) ∧
    jr_records j = split_inclusive LF (ct_visible c) ∧ jr_size j = zlen (ct_visible c) ∧
    (jr_max_bytes j < 2 ^ 64 - 1 → jr_size j ≤ jr_max_bytes j)%Z ∧ scope_pinned scope (d ScopeFile).

Definition wal_inv (s : WalState) : Prop :=
  scope_synced (ws_disk s) ∧
  (∀ sc e, (sc, e) ∈ ws_journaled s → entry_ok (ws_disk s) (ws_receipts s) sc e) ∧
  (∀ k, ws_sink s = Some k → journal_ok (ws_disk s) (sk_scope k) (sk_journal k)).

(** Actions that replace no file and leave the scope alone. *)
Definition tame (a : DiskAction) : Prop := keeps Queue a ∧ keeps Archive a ∧ spares ScopeFile a.

Lemma tame_safe l : Forall tame l → Forall scope_safe l.
Proof. intros H. eapply Forall_impl; [exact H|]. by intros [] (? & ? & ?). Qed.

Lemma settled_exec l fault d receipts e :
  Forall (keeps Archive) l → settled d receipts e → settled (exec fault l d).1 receipts e.
Proof.
  intros Hl [?|(j & code & reason & Hj & Hh)]; [by left|]. right. exists j, code, reason. split; [done|].
  apply exec_keeps_line; [by apply record_line|done..].
Qed.

Lemma entry_exec l fault d receipts sc e :
  Forall tame l → entry_ok d receipts sc e → entry_ok (exec fault l d).1 receipts sc e.
Proof.
  intros Hl [Hs|[(j & Hj & Hh) Hp]].
  - left. apply settled_exec; [|done]. by eapply Forall_impl; [exact Hl|intros ? (? & ? & ?)].
  - right. split.
    + exists j. split; [done|]. apply exec_keeps_line; [apply record_line| |done].
      by eapply Forall_impl; [exact Hl|intros ? (? & ? & ?)].
    + apply exec_keeps_scope; [|done]. by eapply Forall_impl; [exact Hl|intros ? (? & ? & ?)].
Qed.

Lemma entry_receipts d receipts receipts' sc e :
  receipts ⊆ receipts' → entry_ok d receipts sc e → entry_ok d receipts' sc e.
Proof. intros Hsub [[(rc & Hin & Hm)|?]|?]; [left; left; exists rc; auto|left; by right|by right]. Qed.

Lemma crash_entry fallback garbage d receipts sc e :
  entry_ok d receipts sc e → entry_ok (crash_disk fallback garbage d) receipts sc e.
Proof.
  intros [[?|(j & code & reason & Hj & Hh)]|[(j & Hj & Hh) Hp]].
  - left. by left.
  - left. right. exists j, code, reason. split; [done|]. by apply crash_keeps_line; [apply record_line|].
  - right. split; [|by apply crash_keeps_scope]. exists j. split; [done|].
    by apply crash_keeps_line; [apply record_line|].
Qed.

Lemma crash_scope_synced fallback garbage d : scope_synced (crash_disk fallback garbage d).
Proof. repeat constructor. simpl. intros c. by destruct (default _ _) as [c'|]; intros [= <-]. Qed.

(** A queued line shows in the queue. *)
Lemma held_visible w f : ends_with_lf w = true → holds_line w f → w ∈ split_inclusive LF (visible f).
Proof.
  intros Hw [(c & E & Hin) _]%Forall_cons. unfold visible. rewrite E. by apply line_kept.
Qed.

Lemma held_nonempty w f : ends_with_lf w = true → holds_line w f → visible f ≠ "".
Proof. intros Hw Hh Hv. apply held_visible in Hh; [|done]. rewrite Hv in Hh. by apply elem_of_nil in Hh. Qed.

Lemma pinned_now sc f : scope_pinned sc f → ∃ c, fs_now f = Some c ∧ scope_of_json (ct_visible c) = Some sc.
Proof.
  intros [(c & E & Hc & Hs) _]%Forall_cons. exists c. split; [done|]. unfold ct_visible.
  by rewrite Hc, str_app_nil_r.
Qed.

(** ** Repairing the tail *)

Definition repaired (s : string) : string :=
  if decide (s = "") then s else if ends_with_lf s then s else s +:+ String LF "".

Lemma repaired_whole s : whole_lines (repaired s).
Proof.
  unfold repaired. case_decide; [by left|]. case_match; [by right|]. right. apply record_line.
Qed.

Lemma repair_tail_whole t d : whole_lines (visible (d t)) → repair_tail t d = [].
Proof. unfold repair_tail. intros [->|H]; [done|]. case_decide; [done|]. by rewrite H. Qed.

Lemma run_repair t d0 d c :
  visible (d0 t) = ct_visible c → fs_now (d t) = Some c →
  ∃ c', fs_now (run_actions (repair_tail t d0) d t) = Some c' ∧ ct_visible c' = repaired (ct_visible c) ∧
    ∀ t', t' ≠ t → run_actions (repair_tail t d0) d t' = d t'.
Proof.
  intros Hv Hn. unfold repair_tail, repaired. rewrite Hv. case_decide; [by exists c|].
  case_match; [by exists c|]. simpl. exists {| ct_durable := ct_visible c +:+ String LF ""; ct_cached := "" |}.
  split_and!.
  - rewrite !set_file_eq. simpl. rewrite Hn. simpl. unfold sync_content, ct_visible. simpl. by rewrite str_app_assoc.
  - apply str_app_nil_r.
  - intros t' Ht. by rewrite !set_file_ne.
Qed.

Context {WL : WalJsonLaws WJ}.

(** ** The operations keep the journaled events *)

Lemma repair_tame t d : t ≠ ScopeFile → Forall tame (repair_tail t d).
Proof. intros. apply repair_tail_actions; by repeat constructor. Qed.

(** Rewriting the scope is only done when no journaled event depends on it. *)
Lemma scope_exec d scope receipts sc e fault d0 :
  entry_ok d receipts sc e →
  match scope_verdict d scope with
  | ScopeRefused _ => True
  | v => entry_ok (exec fault (scope_actions v scope ++ repair_tail Queue d0) d).1 receipts sc e
  end.
Proof.
  intros [Hs|[(j & Hj & Hh) Hp]].
  - destruct (scope_verdict d scope); try done; left; apply settled_exec; try done; simpl;
      repeat (apply Forall_cons; split; [done|]); by apply repair_tail_actions.
  - assert (Hv : visible (d Queue) ≠ "") by (eapply held_nonempty; [apply record_line|done]).
    destruct (pinned_now _ _ Hp) as (c & E & Es). unfold scope_verdict. rewrite E, Es.
    case_decide; [|by rewrite bool_decide_false].
    apply entry_exec; [by apply repair_tame|]. right. split; [|done]. by exists j.
Qed.

Lemma open_entry f1 f2 f3 max_bytes scope d receipts sc e :
  entry_ok d receipts sc e → entry_ok (open_journal f1 f2 f3 max_bytes scope d).1 receipts sc e.
Proof.
  intros He. unfold open_journal.
  assert (H1 : entry_ok (exec f1 [Touch Queue] d).1 receipts sc e) by (apply entry_exec; [by repeat constructor|done]).
  destruct (exec f1 [Touch Queue] d) as [d1 []] eqn:E1; [|done]. cbn [fst negb] in *.
  pose proof (scope_exec d1 scope receipts sc e f2 d1 H1) as H2.
  destruct (scope_verdict d1 scope); [..|done].
  all: destruct (exec f2 _ d1) as [d2 []] eqn:E2; [|done]; cbn [fst negb] in *.
  all: case_match; [done|].
  all: assert (H3 : entry_ok (exec f3 [SyncParent] d2).1 receipts sc e) by (apply entry_exec; [by repeat constructor|done]).
  all: by destruct (exec f3 [SyncParent] d2) as [d3 []] eqn:E3.
Qed.

Lemma open_scope_synced f1 f2 f3 max_bytes scope d :
  scope_synced d → scope_synced (open_journal f1 f2 f3 max_bytes scope d).1.
Proof.
  intros He. unfold open_journal.
  assert (H1 : scope_synced (exec f1 [Touch Queue] d).1) by (apply exec_scope_synced; [by repeat constructor|done]).
  destruct (exec f1 [Touch Queue] d) as [d1 []] eqn:E1; [|done]. cbn [fst negb] in *.
  assert (H2 : scope_synced (exec f2 (scope_actions (scope_verdict d1 scope) scope ++ repair_tail Queue d1) d1).1).
  { apply exec_scope_synced; [|done]. apply Forall_app. split; [|by apply repair_tail_actions].
    destruct (scope_verdict d1 scope); by repeat constructor. }
  destruct (scope_verdict d1 scope); [..|done].
  all: destruct (exec f2 _ d1) as [d2 []] eqn:E2; [|done]; cbn [fst negb] in *.
  all: case_match; [done|].
  all: assert (H3 : scope_synced (exec f3 [SyncParent] d2).1) by (apply exec_scope_synced; [by repeat constructor|done]).
  all: by destruct (exec f3 [SyncParent] d2) as [d3 []] eqn:E3.
Qed.

(** An opened journal knows the queue, and its scope is the stored one. *)
Lemma scope_after_verdict d scope d0 c :
  scope_synced d → fs_now (d Queue) = Some c → visible (d0 Queue) = ct_visible c →
  match scope_verdict d scope with
  | ScopeRefused _ => True
  | v => let d' := run_actions (scope_actions v scope ++ repair_tail Queue d0) d in
      (∃ c', fs_now (d' Queue) = Some c' ∧ ct_visible c' = repaired (ct_visible c)) ∧
      ∃ c', fs_now (d' ScopeFile) = Some c' ∧ ct_cached c' = "" ∧ scope_of_json (ct_durable c') = Some scope
  end.
Proof.
  intros Hsync Hq H0. unfold scope_verdict.
  assert (Hw : let d' := run_actions (scope_actions ScopeWritten scope ++ repair_tail Queue d0) d in
      (∃ c', fs_now (d' Queue) = Some c' ∧ ct_visible c' = repaired (ct_visible c)) ∧
      ∃ c', fs_now (d' ScopeFile) = Some c' ∧ ct_cached c' = "" ∧ scope_of_json (ct_durable c') = Some scope).
  { cbv zeta. rewrite run_actions_app. simpl run_actions at 2 4.
    destruct (run_repair Queue d0 (λ t, sync_entry (set_file ScopeFile (rename_file (scope_to_json scope) (d ScopeFile)) d t)) c)
      as (c' & Hc' & Hv & Ho); [done|done|].
    split; [by exists c'|]. rewrite Ho by done. eexists. split; [done|]. split; [done|]. apply scope_json_back. }
  destruct (fs_now (d ScopeFile)) as [cs|] eqn:Es.
  - destruct (scope_of_json (ct_visible cs)) as [stored|] eqn:Ej; [|done]. case_decide as Heq.
    + subst stored. cbv zeta. simpl. destruct (run_repair Queue d0 d c) as (c' & Hc' & Hv & Ho); [done|done|].
      split; [by exists c'|]. rewrite Ho by done. exists cs.
      assert (Hc : ct_cached cs = "") by (apply Forall_cons in Hsync as [Hx _]; auto).
      split_and!; [done|done|]. rewrite <- Ej. unfold ct_visible. by rewrite Hc, str_app_nil_r.
    + by destruct (bool_decide _ && _).
  - by destruct (decide _).
Qed.

Lemma open_ok f1 f2 f3 max_bytes scope d d' j :
  scope_synced d → open_journal f1 f2 f3 max_bytes scope d = (d', Ok j) → journal_ok d' scope j.
Proof.
  intros Hsync. unfold open_journal.
  assert (H1 : scope_synced (exec f1 [Touch Queue] d).1) by (apply exec_scope_synced; [by repeat constructor|done]).
  destruct (exec f1 [Touch Queue] d) as [d1 []] eqn:E1; [|done]. cbn [fst negb] in *.
  assert (Hq : ∃ c, fs_now (d1 Queue) = Some c).
  { apply exec_complete in E1 as ->. simpl. rewrite set_file_eq. unfold touch_file.
    destruct (fs_now (d Queue)) eqn:E; simpl; eauto. }
  destruct Hq as [c Hc].
  assert (Hv : visible (d1 Queue) = ct_visible c) by (unfold visible; by rewrite Hc).
  pose proof (scope_after_verdict d1 scope d1 c H1 Hc Hv) as H2.
  destruct (scope_verdict d1 scope); [..|done].
  all: destruct (exec f2 _ d1) as [d2 []] eqn:E2; [|done]; cbn [negb]; apply exec_complete in E2; rewrite <- E2 in H2.
  all: destruct H2 as [(c' & Hc' & Hr) (cs & Hcs & Hcc & Hsj)].
  all: case_match eqn:Hm; [done|]; destruct (exec f3 [SyncParent] d2) as [d3 []] eqn:E3; [|done].
  all: cbn [negb]; intros [= <- <-]; apply exec_complete in E3 as ->; simpl.
  all: assert (Hvis : visible (d2 Queue) = ct_visible c') by (unfold visible; by rewrite Hc').
  all: exists c'; rewrite Hvis in *; apply Z.ltb_ge in Hm; split_and!; simpl; try done;
    [unfold sync_entry; by rewrite Hc'|rewrite Hr; apply repaired_whole|].
  all: repeat constructor; simpl; eauto.
Qed.

Lemma append_actions_tame record d : Forall tame (Touch Queue :: repair_tail Queue d ++ [WriteAt Queue record; SyncFile Queue]).
Proof.
  apply Forall_cons. split; [done|]. apply Forall_app. split; [by apply repair_tame|]. by repeat constructor.
Qed.

Lemma append_entry fault e0 j d receipts sc e :
  entry_ok d receipts sc e → entry_ok (append fault e0 j d).1 receipts sc e.
Proof.
  intros He. unfold append. destruct (event_to_json e0) as [json|]; [|done]. case_match; [done|].
  assert (H1 := entry_exec _ fault d receipts sc e (append_actions_tame (json +:+ String LF "") d) He).
  by destruct (exec fault _ d) as [d' []].
Qed.

Lemma append_scope_synced fault e j d : scope_synced d → scope_synced (append fault e j d).1.
Proof.
  intros He. unfold append. destruct (event_to_json e) as [json|]; [|done]. case_match; [done|].
  assert (H1 := exec_scope_synced _ fault d (tame_safe _ (append_actions_tame (json +:+ String LF "") d)) He).
  by destruct (exec fault _ d) as [d' []].
Qed.

Lemma zlen_app s t : zlen (s +:+ t) = (zlen s + zlen t)%Z.
Proof. unfold zlen. rewrite str_length_app. lia. Qed.

Lemma sync_written b c : ct_durable (sync_content (write_content b c)) = ct_visible c +:+ b.
Proof. unfold sync_content, write_content, ct_visible. simpl. apply str_app_assoc. Qed.

(** An append that returned put the record on disk as its own line. *)
Lemma append_ok fault e j d d' j' scope :
  journal_ok d scope j → append fault e j d = (d', Ok j') →
  journal_ok d' scope j' ∧ queued d' e ∧ jr_max_bytes j' = jr_max_bytes j.
Proof.
  intros (c & Hd & Hw & Hr & Hs & Hmax & Hp). unfold append.
  destruct (event_to_json e) as [json|] eqn:Ej; [|done]. set (record := json +:+ String LF "").
  destruct (_ <? _)%Z eqn:Hm; [done|].
  destruct (exec fault _ d) as [d1 []] eqn:E; [|done]. cbn [negb]. intros [= <- <-].
  assert (Hpin : scope_pinned scope (d1 ScopeFile)).
  { replace d1 with (exec fault (Touch Queue :: repair_tail Queue d ++ [WriteAt Queue record; SyncFile Queue]) d).1
      by (by rewrite E). apply exec_keeps_scope; [|done].
    by eapply Forall_impl; [apply append_actions_tame|intros ? (? & ? & ?)]. }
  apply exec_complete in E. rewrite repair_tail_whole in E by (by rewrite Hd).
  simpl in E. subst d1. rewrite !set_file_eq in *. rewrite Hd in *. unfold on_content in *. simpl in *.
  set (c' := sync_content (write_content record c)).
  assert (Hv : ct_durable c' = ct_visible c +:+ record) by apply sync_written.
  assert (Hline : split_inclusive LF record = [record]) by (by apply split_inclusive_line; eapply event_json_line).
  split; [|split; [|done]].
  - exists c'. assert (Hvis : ct_visible c' = ct_visible c +:+ record) by (unfold ct_visible at 1; by rewrite str_app_nil_r, Hv).
    rewrite Hvis. split_and!; simpl; try done.
    + right. rewrite ends_with_lf_app by (by destruct json). apply record_line.
    + by rewrite split_inclusive_app, Hline, Hr.
    + by rewrite zlen_app, Hs.
    + apply Z.ltb_ge in Hm. lia.
  - exists json. split; [done|]. rewrite set_file_eq. repeat constructor. simpl. eexists. split; [done|].
    rewrite Hv, split_inclusive_app, Hline by done. apply elem_of_app. right. by left.
Qed.

Lemma reject_tame record code reason d :
  Forall tame (Touch Archive :: repair_tail Archive d ++
     [WriteAt Archive (archive_entry record code reason); WriteAt Archive (String LF "");
      SyncFile Archive; SyncParent]).
Proof. apply Forall_cons. split; [done|]. apply Forall_app. split; [by apply repair_tame|]. by repeat constructor. Qed.

(** A rejection that returned is in the archive. *)
Lemma reject_ok fault record code reason d d' :
  reject fault record code reason d = (d', true) →
  holds_line (archive_entry record code reason +:+ String LF "") (d' Archive).
Proof.
  unfold reject. intros E%exec_complete. subst d'. simpl. rewrite run_actions_app.
  set (d1 := set_file Archive (touch_file (d Archive)) d).
  assert (Hc : ∃ c, fs_now (d1 Archive) = Some c ∧ visible (d Archive) = ct_visible c).
  { unfold d1. rewrite set_file_eq. unfold touch_file, visible. destruct (fs_now (d Archive)) eqn:E; simpl; [by eauto|].
    by exists empty_content. }
  destruct Hc as (c & Hc & Hv). destruct (run_repair Archive d d1 c Hv Hc) as (c' & Hc' & Hr & _).
  simpl. rewrite !set_file_eq. repeat constructor. simpl. rewrite Hc'. simpl. eexists. split; [done|].
  simpl. unfold ct_visible. simpl. unfold ct_visible in Hr.
  rewrite <- str_app_assoc, (str_app_assoc (ct_durable c')), Hr.
  rewrite split_inclusive_app by apply repaired_whole.
  rewrite split_inclusive_line by apply archive_entry_line. apply elem_of_app. right. by left.
Qed.

(** Rejections leave the queue as it is. *)
Lemma exec_spares_now t l fault d :
  Forall (spares t) l → fs_prior (d t) = [] → (exec fault l d).1 t = d t.
Proof.
  intros Hl Hp.
  cut ((exec fault l d).1 t = d t ∧ fs_prior ((exec fault l d).1 t) = []); [by intros [? _]|].
  apply (exec_preserves (spares t) (λ d', d' t = d t ∧ fs_prior (d' t) = [])); [|done|done|done].
  clear. intros a d' Ha [<- Hp]. destruct a; simpl in *; try (by rewrite set_file_ne).
  unfold sync_entry. destruct (d' t); simpl in *. by subst.
Qed.

(** ** Replay *)

(** What every part of a replay keeps. *)
Record advances (s s' : ReplayState) : Prop := {
  adv_synced : scope_synced (rp_disk s) → scope_synced (rp_disk s');
  adv_queue : fs_prior (rp_disk s Queue) = [] → rp_disk s' Queue = rp_disk s Queue;
  adv_entry sc e : entry_ok (rp_disk s) (rp_receipts s) sc e → entry_ok (rp_disk s') (rp_receipts s') sc e;
  adv_settled e : settled (rp_disk s) (rp_receipts s) e → settled (rp_disk s') (rp_receipts s') e;
  adv_pinned sc : scope_pinned sc (rp_disk s ScopeFile) → scope_pinned sc (rp_disk s' ScopeFile);
}.

#[local] Instance advances_preorder : PreOrder advances.
Proof.
  split; [by intros s; split|]. intros s1 s2 s3 H1 H2. split; intros; try (by apply H2, H1).
  rewrite (adv_queue _ _ H2); rewrite (adv_queue _ _ H1); done.
Qed.

(** Disk actions that replace nothing and spare the queue and the scope. *)
Lemma advances_exec l fault s s' :
  Forall tame l → Forall (spares Queue) l →
  rp_disk s' = (exec fault l (rp_disk s)).1 → rp_receipts s ⊆ rp_receipts s' → advances s s'.
Proof.
  intros Ht Hq Hd Hr.
  assert (Hk : Forall (keeps Archive) l) by (by eapply Forall_impl; [exact Ht|intros ? (? & ? & ?)]).
  split; rewrite ?Hd; intros.
  - by apply exec_scope_synced; [apply tame_safe|].
  - by apply exec_spares_now.
  - eapply entry_receipts; [exact Hr|]. by apply entry_exec.
  - destruct (settled_exec l fault (rp_disk s) (rp_receipts s) e Hk H) as [(rc & Hin & ?)|?]; [left|by right].
    exists rc. auto.
  - apply exec_keeps_scope; [|done]. by eapply Forall_impl; [exact Ht|intros ? (? & ? & ?)].
Qed.

Lemma advances_same s s' :
  rp_disk s' = rp_disk s → rp_receipts s ⊆ rp_receipts s' → advances s s'.
Proof. intros. by apply (advances_exec [] NoFault). Qed.

Lemma advances_reject fault record code reason s s' :
  rp_disk s' = (reject fault record code reason (rp_disk s)).1 → rp_receipts s' = rp_receipts s → advances s s'.
Proof.
  intros Hd Hr. eapply advances_exec; [apply reject_tame| |exact Hd|by rewrite Hr].
  apply Forall_cons. split; [done|]. apply Forall_app. split; [by apply repair_tail_actions|]. by repeat constructor.
Qed.

(** The records a replay consumed are settled. *)
Definition consumed_settled (s s' : ReplayState) (rs : list string) : Prop :=
  ∃ n, rp_consumed s' = (rp_consumed s + n)%nat ∧ (n ≤ length rs)%nat ∧
    ∀ e j, event_to_json e = Some j → (j +:+ String LF "") ∈ take n rs → settled (rp_disk s') (rp_receipts s') e.

Lemma consumed_none s s' rs : rp_consumed s' = rp_consumed s → consumed_settled s s' rs.
Proof. intros H. exists 0%nat. rewrite H. split_and!; [lia|lia|]. intros e j _ []%elem_of_nil. Qed.

Lemma consumed_cons s s1 s' record rs :
  rp_consumed s1 = S (rp_consumed s) → advances s1 s' →
  (∀ e j, event_to_json e = Some j → j +:+ String LF "" = record → settled (rp_disk s1) (rp_receipts s1) e) →
  consumed_settled s1 s' rs → consumed_settled s s' (record :: rs).
Proof.
  intros H1 Ha Hset (n & Hn & Hle & Hs). exists (S n). split_and!; [lia|simpl; lia|].
  intros e j Hj [He|He]%elem_of_cons; [|by eapply Hs]. eapply adv_settled; [exact Ha|]. eauto.
Qed.

Lemma submit_persisted credentials client e env c' :
  submit credentials client e env = (Persisted, c') →
  ∃ rc, sub_reply env = ReplyReceipt rc ∧ receipt_matches rc (ev_event_id e) = true.
Proof. unfold submit. intros H. repeat (case_match; simplify_eq/=). by eexists. Qed.

Lemma replay_records_spec credentials rs : ∀ env s s' ok,
  replay_records credentials env rs s = (s', ok) → advances s s' ∧ consumed_settled s s' rs.
Proof.
  induction rs as [|record rs IH]; intros env s s' ok; simpl.
  { intros [= <- <-]. split; [done|by apply consumed_none]. }
  destruct (re_cancelled (env 0)). { intros [= <- <-]. split; [done|by apply consumed_none]. }
  destruct (event_of_json record) as [e|] eqn:Ee.
  - destruct (submit credentials (rp_client s) e (re_submit (env 0))) as [[]] eqn:Es.
    + intros H. apply IH in H as [Ha Hc]. destruct (submit_persisted _ _ _ _ _ Es) as (rc & Hrc & Hm).
      assert (Hin : rp_receipts s ⊆ log_receipt e (sub_reply (re_submit (env 0))) (rp_receipts s)).
      { rewrite Hrc. intros x Hx. apply elem_of_app. by left. }
      split. { etrans; [|exact Ha]. by apply advances_same. }
      eapply (consumed_cons s); [|exact Ha| |exact Hc]; [done|]. intros e' j Hj <-.
      rewrite (event_json_back _ _ Hj) in Ee. simplify_eq. left. exists rc. split; [|done]. simpl.
      rewrite Hrc. apply elem_of_app. right. by left.
    + destruct (reject _ record _ message (rp_disk s)) as [d []] eqn:Er.
      * intros H. apply IH in H as [Ha Hc].
        split. { etrans; [|exact Ha]. eapply advances_reject; [|done]. by rewrite Er. }
        eapply (consumed_cons s); [|exact Ha| |exact Hc]; [done|]. intros e' j Hj <-. right.
        exists j, "invalid_argument", message. split; [done|]. by eapply reject_ok.
      * intros [= <- <-]. split; [|by apply consumed_none]. eapply advances_reject; [|done]. by rewrite Er.
    + intros [= <- <-]. split; [by apply advances_same|by apply consumed_none].
    + intros [= <- <-]. split; [by apply advances_same|by apply consumed_none].
  - destruct (reject _ record _ _ (rp_disk s)) as [d []] eqn:Er.
    + intros H. apply IH in H as [Ha Hc].
      split. { etrans; [|exact Ha]. eapply advances_reject; [|done]. by rewrite Er. }
      eapply (consumed_cons s); [|exact Ha| |exact Hc]; [done|]. intros e' j Hj <-.
      by rewrite (event_json_back _ _ Hj) in Ee.
    + intros [= <- <-]. split; [|by apply consumed_none]. eapply advances_reject; [|done]. by rewrite Er.
Qed.

(** ** Reclaiming *)

Definition is_line (w : string) : Prop := split_inclusive LF w = [w] ∧ ends_with_lf w = true.

Lemma split_is_line s : whole_lines s → Forall is_line (split_inclusive LF s).
Proof.
  induction s as [|a s IH]; [constructor|]. intros [?|Hl]; [done|]. simpl.
  assert (Hs : s ≠ "" → whole_lines s) by (intros; right; by rewrite ends_with_lf_cons in Hl).
  case_decide as Ha.
  - subst a. apply Forall_cons. split; [done|]. destruct (decide (s = "")) as [->|]; [constructor|auto].
  - destruct (decide (s = "")) as [->|Hne].
    { unfold ends_with_lf in Hl. simpl in Hl. by apply bool_decide_eq_true in Hl. }
    specialize (IH (Hs Hne)). destruct (split_inclusive LF s) as [|w ws] eqn:E; [by apply split_inclusive_nil in E|].
    apply Forall_cons in IH as [[Hw He] IH]. apply Forall_cons. split; [|done]. split.
    + simpl. rewrite decide_False by done. by rewrite Hw.
    + rewrite ends_with_lf_cons; [done|]. by intros ->.
Qed.

Lemma concat_whole l : Forall is_line l → whole_lines (concat_bytes l).
Proof.
  induction l as [|w l IH]; intros Hl; [by left|]. apply Forall_cons in Hl as [[_ Hw] Hl]. simpl.
  destruct (IH Hl) as [->|H]; [right; by rewrite str_app_nil_r|]. right.
  rewrite ends_with_lf_app; [done|]. by intros E; rewrite E in H.
Qed.

Lemma split_concat l : Forall is_line l → split_inclusive LF (concat_bytes l) = l.
Proof.
  induction l as [|w l IH]; intros Hl; [done|]. apply Forall_cons in Hl as [[Hw He] Hl]. simpl.
  rewrite split_inclusive_app by (by right). by rewrite Hw, IH.
Qed.

Lemma concat_bytes_app l l' : concat_bytes (l ++ l') = concat_bytes l +:+ concat_bytes l'.
Proof. induction l as [|w l IH]; [done|]. simpl. by rewrite IH, str_app_assoc. Qed.

Lemma zlen_nonneg s : (0 ≤ zlen s)%Z.
Proof. unfold zlen. lia. Qed.

Lemma concat_drop_length n s : (zlen (concat_bytes (drop n (split_inclusive LF s))) ≤ zlen s)%Z.
Proof.
  rewrite <- (concat_split_inclusive LF s) at 2. rewrite <- (take_drop n (split_inclusive LF s)) at 2.
  rewrite concat_bytes_app, zlen_app. pose proof (zlen_nonneg (concat_bytes (take n (split_inclusive LF s)))). lia.
Qed.

(** Replacing a file by one that has the line keeps it. *)
Lemma rename_keeps_line w b fault d :
  ends_with_lf w = true → w ∈ split_inclusive LF b → holds_line w (d Queue) →
  holds_line w ((exec fault (replace Queue b) d).1 Queue).
Proof.
  intros Hw Hb Hh.
  apply (exec_preserves (λ a, keeps Queue a ∨ a = Rename Queue b) (λ d, holds_line w (d Queue))); [| | |done].
  - intros a d' [Hk| ->] H; [by apply action_keeps_line|]. simpl. rewrite set_file_eq.
    apply Forall_cons. split; [|done]. by eexists.
  - intros t b1 b2 [?|?]; [by left|done].
  - constructor; [by right|]. constructor; [by left|constructor].
Qed.

Lemma reclaim_entry fault count j d scope receipts sc e :
  journal_ok d scope j →
  (∀ e js, event_to_json e = Some js → (js +:+ String LF "") ∈ take count (jr_records j) → settled d receipts e) →
  entry_ok d receipts sc e → entry_ok (reclaim fault count j d).1 receipts sc e.
Proof.
  intros (c & Hd & Hw & Hr & _) Hset He. unfold reclaim. case_decide; [done|].
  set (bytes := concat_bytes (drop count (jr_records j))).
  assert (Hcase : entry_ok (exec fault (replace Queue bytes) d).1 receipts sc e);
    [|by destruct (exec fault (replace Queue bytes) d) as [d' []]].
  destruct He as [Hs|[(js & Hj & Hh) Hp]]; [left; by apply settled_exec; [repeat constructor|]|].
  assert (Hin : (js +:+ String LF "") ∈ jr_records j).
  { rewrite Hr. replace (ct_visible c) with (visible (d Queue)) by (by rewrite Hd).
    by apply held_visible; [apply record_line|]. }
  rewrite <- (take_drop count (jr_records j)) in Hin. apply elem_of_app in Hin as [Hin|Hin].
  { left. apply settled_exec; [by repeat constructor|]. eauto. }
  right. split; [|by apply exec_keeps_scope; [repeat constructor|]]. exists js. split; [done|].
  apply rename_keeps_line; [apply record_line| |done]. unfold bytes. rewrite split_concat; [done|].
  apply Forall_drop. rewrite Hr. by apply split_is_line.
Qed.

Lemma reclaim_scope_synced fault count j d : scope_synced d → scope_synced (reclaim fault count j d).1.
Proof.
  intros H. unfold reclaim. case_decide; [done|].
  assert (H1 := exec_scope_synced (replace Queue (concat_bytes (drop count (jr_records j)))) fault d
                  ltac:(by repeat constructor) H).
  by destruct (exec fault _ d) as [d' []].
Qed.

Lemma reclaim_ok fault count j d d' j' scope :
  journal_ok d scope j → reclaim fault count j d = (d', Ok j') →
  journal_ok d' scope j' ∧ jr_records j' = drop count (jr_records j) ∧ jr_max_bytes j' = jr_max_bytes j.
Proof.
  intros Hok. unfold reclaim. case_decide as Hc; [intros [= <- <-]; by subst|].
  destruct Hok as (c & Hd & Hw & Hr & Hs & Hmax & Hp).
  set (rest := drop count (jr_records j)).
  assert (Hl : Forall is_line rest) by (apply Forall_drop; rewrite Hr; by apply split_is_line).
  assert (Hpin := exec_keeps_scope scope (replace Queue (concat_bytes rest)) fault d ltac:(by repeat constructor) Hp).
  destruct (exec fault _ d) as [d1 []] eqn:E; [|done]. cbn [negb fst] in *. intros [= <- <-].
  apply exec_complete in E. simpl in E. subst d1. simpl in *. split; [|done].
  exists {| ct_durable := concat_bytes rest; ct_cached := "" |}. rewrite ?set_file_eq in *.
  assert (Hv : ct_visible {| ct_durable := concat_bytes rest; ct_cached := "" |} = concat_bytes rest)
    by apply str_app_nil_r.
  rewrite Hv. split_and!; simpl; try done.
  - by apply concat_whole.
  - by rewrite split_concat.
  - intros Hm. specialize (Hmax Hm). pose proof (concat_drop_length count (ct_visible c)). unfold rest.
    rewrite Hr. lia.
Qed.

(** ** The invariant *)

Lemma append_inv fault e k s : ws_sink s = Some k → wal_inv s → wal_inv (sink_append fault e k s).
Proof.
  intros Hk (Hsy & He & Hj). specialize (Hj k Hk). unfold sink_append.
  assert (Hen : ∀ sc e', entry_ok (ws_disk s) (ws_receipts s) sc e' →
                  entry_ok (append fault e (sk_journal k) (ws_disk s)).1 (ws_receipts s) sc e')
    by (intros; by apply append_entry).
  assert (Hsy' := append_scope_synced fault e (sk_journal k) _ Hsy).
  destruct (append fault e (sk_journal k) (ws_disk s)) as [d [j|m]] eqn:E; simpl in *.
  - destruct (append_ok _ _ _ _ _ _ _ Hj E) as (Hok & Hq & _). split_and!; simpl; [done| |].
    + intros sc e' [Hin|Hin]%elem_of_app; [by auto|]. apply list_elem_of_singleton in Hin. simplify_eq.
      right. split; [done|]. by destruct Hok as (c & _ & _ & _ & _ & _ & Hp).
    + by intros k' [= <-].
  - split_and!; simpl; [done|by auto|done].
Qed.

Lemma replay_inv env fault k s : ws_sink s = Some k → wal_inv s → wal_inv (sink_replay env fault k s).
Proof.
  intros Hk (Hsy & He & Hj). specialize (Hj k Hk). unfold sink_replay.
  destruct (replay_records _ _ _ _) as [p ok] eqn:E. apply replay_records_spec in E as [Ha (n & Hn & Hle & Hset)].
  simpl in Hn. destruct Ha as [Hsy' Hq Hen _ Hpin]. simpl in *.
  assert (Hok : journal_ok (rp_disk p) (sk_scope k) (sk_journal k)).
  { destruct Hj as (c & Hd & Hw & Hr & Hs & Hmax & Hp). exists c. rewrite Hq by (by rewrite Hd). by split_and!; auto. }
  destruct ok; simpl; [|split_and!; simpl; [auto| |done]; by auto].
  split_and!; simpl.
  - apply reclaim_scope_synced. auto.
  - intros sc e Hin. eapply reclaim_entry; [exact Hok| |by auto]. intros e' js Hjs Hin'. apply (Hset e' js Hjs).
    rewrite Hn in Hin'. rewrite take_take, Nat.min_l; [done|]. rewrite length_take in Hle. lia.
  - intros k' Hk'. destruct (reclaim _ _ _ _) as [d' [j|]] eqn:Er; [|done]. simplify_eq/=.
    by apply (reclaim_ok _ _ _ _ _ _ _ Hok Er).
Qed.

Lemma returns_inv s : wal_inv s → wal_inv (sink_returns s).
Proof. intros (? & ? & ?). by split_and!. Qed.

Lemma drain_inv l : ∀ s, wal_inv s → wal_inv (sink_drain l s).
Proof.
  induction l as [|[e fault] l IH]; intros s Hs; [by apply returns_inv|]. simpl.
  destruct (ws_sink s) as [k|] eqn:E; [|done]. apply IH. by apply append_inv.
Qed.

Lemma wal_inv_step l s : wal_inv s → wal_inv (wal_step l s).
Proof.
  intros Hs. unfold wal_step. destruct l as [f1 f2 f3 mb cr sc| | | | |fb g]; destruct (ws_sink s) as [k|] eqn:Hk; try done.
  - destruct Hs as (Hsy & He & _). split_and!; simpl.
    + by apply open_scope_synced.
    + intros. apply open_entry. auto.
    + intros k Hk'. destruct (open_journal _ _ _ _ _ _) as [d [j|]] eqn:E; [|done]. simplify_eq/=. by eapply open_ok.
  - by apply append_inv.
  - by apply replay_inv.
  - by apply returns_inv, replay_inv.
  - by apply drain_inv.
  - destruct Hs as (Hsy & He & _). split_and!; simpl; [apply crash_scope_synced| |done]. intros. apply crash_entry. auto.
  - destruct Hs as (Hsy & He & _). split_and!; simpl; [apply crash_scope_synced| |done]. intros. apply crash_entry. auto.
Qed.

Lemma wal_reachable_inv s : wal_reachable s → wal_inv s.
Proof.
  induction 1 as [|s l _ IH]; [|by apply wal_inv_step].
  split_and!; [by repeat constructor|by intros ? ? []%elem_of_nil|done].
Qed.

(** [C34] The audit journal loses no event: in every state that openings,
    appends, replays, shutdowns, I/O errors at any action and crashes at any
    moment lead to, an event whose append returned is a line of the queue file,
    or the collector answered it with a matching durable receipt, or its record
    is a line of the rejection archive. *)
Theorem wal_no_loss s sc e :
  wal_reachable s → (sc, e) ∈ ws_journaled s →
  receipted (ws_receipts s) e ∨
  ∃ j, event_to_json e = Some j ∧
    (j +:+ String LF "" ∈ split_inclusive LF (visible (ws_disk s Queue)) ∨
     ∃ code reason, archive_entry (j +:+ String LF "") code reason +:+ String LF ""
                      ∈ split_inclusive LF (visible (ws_disk s Archive))).
Proof.
  intros Hr Hin. destruct (wal_reachable_inv s Hr) as (_ & He & _).
  destruct (He sc e Hin) as [[?|(j & code & reason & Hj & Hh)]|[(j & Hj & Hh) _]]; [by left|right; exists j..].
  - split; [done|]. right. exists code, reason. by apply held_visible; [apply record_line|].
  - split; [done|]. left. by apply held_visible; [apply record_line|].
Qed.

(** The journal is bound to its destination and to its run: in every
    reachable state, an event journaled under another scope than the one the
    running sink has is settled, so no sink is left to deliver the event of
    another run; and while a sink runs its queue file is exactly its records,
    within the configured capacity. *)
Theorem wal_scope_bound s k :
  wal_reachable s → ws_sink s = Some k →
  (∀ sc e, (sc, e) ∈ ws_journaled s → sc ≠ sk_scope k → settled (ws_disk s) (ws_receipts s) e) ∧
  visible (ws_disk s Queue) = concat_bytes (jr_records (sk_journal k)) ∧
  (jr_max_bytes (sk_journal k) < 2 ^ 64 - 1 →
     zlen (visible (ws_disk s Queue)) ≤ jr_max_bytes (sk_journal k))%Z.
Proof.
  intros Hr Hk. destruct (wal_reachable_inv s Hr) as (_ & He & Hj).
  destruct (Hj k Hk) as (c & Hd & _ & Hrec & Hs & Hm & Hp).
  assert (Hv : visible (ws_disk s Queue) = ct_visible c) by (by rewrite Hd).
  split_and!; [|by rewrite Hv, Hrec, concat_split_inclusive|by rewrite Hv, <- Hs].
  intros sc e Hin Hne. destruct (He sc e Hin) as [|[_ Hp']]; [done|]. exfalso. apply Hne.
  destruct (pinned_now _ _ Hp) as (c1 & E1 & S1). destruct (pinned_now _ _ Hp') as (c2 & E2 & S2).
  congruence.
Qed.

(** ** Delivery *)

(** A collector that commits every event and disks that work. *)
Definition healthy_env (rs : list string) (n : nat) : RecordEnv :=
  {| re_cancelled := false;
     re_submit :=
       {| sub_dial_ok := true; sub_metadata_ok := true; sub_in_time := true;
          sub_reply := ReplyReceipt {| rc_durably_persisted := true; rc_events_received := 1;
                                       rc_last_event_id := from_option ev_event_id "" (rs !! n ≫= event_of_json) |} |};
     re_fault := NoFault |}.

Fixpoint healthy_ticks (n : nat) (s : WalState) : WalState :=
  match n, ws_sink s with
  | S n, Some k => healthy_ticks n (wal_step (WalTicks (healthy_env (jr_records (sk_journal k))) NoFault) s)
  | _, _ => s
  end.

Lemma exec_no_fault l d : exec NoFault l d = (run_actions l d, true).
Proof. revert d. induction l as [|a l IH]; intros d; [done|apply IH]. Qed.

Lemma healthy_replay credentials rs : ∀ env s,
  (∀ n r, rs !! n = Some r → env n = healthy_env rs n) →
  ∃ s', replay_records credentials env rs s = (s', true) ∧ rp_consumed s' = (rp_consumed s + length rs)%nat.
Proof.
  induction rs as [|r rs IH]; intros env s Henv; [exists s; simpl; split; [done|lia]|].
  assert (Htail : ∀ n r', rs !! n = Some r' → (λ n, env (S n)) n = healthy_env rs n) by (intros n r'; apply (Henv (S n))).
  simpl. rewrite (Henv 0%nat r eq_refl). unfold healthy_env at 1. cbn [re_cancelled].
  destruct (event_of_json r) as [e|] eqn:Ee.
  - assert (Hs : submit credentials (rp_client s) e (re_submit (healthy_env (r :: rs) 0)) = (Persisted, true)).
    { unfold submit. simpl. rewrite andb_false_r. simpl. unfold receipt_matches. simpl. rewrite Ee. simpl.
      by rewrite bool_decide_true. }
    rewrite Hs. edestruct IH as (s' & -> & Hc); [exact Htail|]. exists s'. split; [done|]. rewrite Hc. simpl. lia.
  - unfold reject. rewrite exec_no_fault. edestruct IH as (s' & -> & Hc); [exact Htail|]. exists s'.
    split; [done|]. rewrite Hc. simpl. lia.
Qed.

Lemma healthy_tick s k :
  ws_sink s = Some k →
  let s' := wal_step (WalTicks (healthy_env (jr_records (sk_journal k))) NoFault) s in
  ws_journaled s' = ws_journaled s ∧
  ∃ k', ws_sink s' = Some k' ∧ jr_records (sk_journal k') = drop REPLAY_LIMIT (jr_records (sk_journal k)).
Proof.
  intros Hk. simpl. rewrite Hk. unfold sink_replay.
  set (rs := jr_records (sk_journal k)).
  edestruct (healthy_replay (sk_credentials k) (take REPLAY_LIMIT rs) (healthy_env rs)) as (p & -> & Hc).
  { intros n r Hn. assert (E : rs !! n = take REPLAY_LIMIT rs !! n).
    { rewrite Hn. by apply lookup_take_Some in Hn as [-> _]. }
    unfold healthy_env. by rewrite E. }
  split; [done|]. simpl in Hc. unfold reclaim. case_decide as Hz.
  - eexists. split; [done|]. simpl. rewrite Hz in Hc. rewrite length_take in Hc.
    fold rs. rewrite drop_ge; [|]; destruct rs; simpl in *; done || lia.
  - rewrite exec_no_fault. eexists. split; [done|]. simpl. rewrite Hc, length_take. simpl plus.
    destruct (decide (REPLAY_LIMIT ≤ length rs)%nat); [by rewrite Nat.min_l|].
    fold rs. rewrite Nat.min_r by lia. by rewrite !drop_ge by lia.
Qed.

(** What is journaled is delivered: with a collector that commits, a sink
    whose queue has at most [32 * n] records empties it in [n] ticks, and by
    then every event ever journaled has a matching receipt or is archived. *)
Theorem wal_delivers s k n :
  wal_reachable s → ws_sink s = Some k → (length (jr_records (sk_journal k)) ≤ REPLAY_LIMIT * n)%nat →
  let s' := healthy_ticks n s in
  visible (ws_disk s' Queue) = "" ∧
  ∀ sc e, (sc, e) ∈ ws_journaled s → settled (ws_disk s') (ws_receipts s') e.
Proof.
  revert s k. induction n as [|n IH]; intros s k Hr Hk Hlen.
  - simpl. destruct (wal_reachable_inv s Hr) as (_ & He & Hj).
    destruct (Hj k Hk) as (c & Hd & _ & Hrec & _). rewrite Hrec in Hlen.
    destruct (split_inclusive LF (ct_visible c)) eqn:E; [|simpl in Hlen; lia].
    assert (Hv : visible (ws_disk s Queue) = "") by (rewrite Hd; by apply split_inclusive_nil in E).
    split; [done|]. intros sc e Hin. destruct (He sc e Hin) as [|[(j & Hj' & Hh) _]]; [done|].
    by apply held_nonempty in Hh; [|apply record_line].
  - destruct (healthy_tick s k Hk) as (Hjn & k' & Hk' & Hrec). cbn [healthy_ticks]. rewrite Hk.
    destruct (IH _ k' (wal_steps s _ Hr) Hk') as [H1 H2].
    { rewrite Hrec, length_drop. lia. }
    split; [exact H1|]. intros sc e Hin. apply (H2 sc). by rewrite Hjn.
Qed.

End Wal.

Module Samples.

(** Texts of zeros and ones for what is countable. *)
Import PersistentSession.Samples.

#[local] Instance scope_countable : Countable Scope :=
  inj_countable' (λ s, (sc_version s, sc_endpoint s, sc_sidecar s, sc_run s))
    (λ '(v, e, c, r), {| sc_version := v; sc_endpoint := e; sc_sidecar := c; sc_run := r |})
    ltac:(by intros []).

Definition first : ExecutionEvent := AuditEvent.Samples.honest.
Definition second : ExecutionEvent := set_signature "other" first.

(** A codec of two events. *)
#[local] Instance two_events : WalJson := {|
  event_to_json e := if decide (e = first) then Some "{1}" else if decide (e = second) then Some "{2}" else None;
  event_of_json s := if decide (s = "{1}" +:+ String LF "") then Some first
                     else if decide (s = "{2}" +:+ String LF "") then Some second else None;
  scope_to_json s := bits (encode s);
  scope_of_json s := unbits s ≫= decode;
  archive_entry r code reason := bits (encode (r, code, reason)) |}.

#[local] Instance two_events_laws : WalJsonLaws two_events.
Proof.
  split; simpl.
  - intros e j. repeat case_decide; by intros [= <-].
  - intros e j. do 2 (case_decide; [subst; intros [= <-]; reflexivity|]). done.
  - intros s. rewrite unbits_bits. simpl. by rewrite decode_encode.
  - intros. apply (bits_line (encode (r, code, reason))).
Qed.

Definition run1 : Scope := scope_new "https://audit" (Some {| ci_workspace := "w"; ci_sidecar := "s"; ci_run := Some "r1" |}).
Definition run2 : Scope := scope_new "https://audit" (Some {| ci_workspace := "w"; ci_sidecar := "s"; ci_run := Some "r2" |}).

Fixpoint steps (l : list WalStep) (s : WalState) : WalState :=
  match l with [] => s | x :: l => steps l (wal_step x s) end.

Lemma steps_reachable l : ∀ s, wal_reachable s → wal_reachable (steps l s).
Proof. induction l as [|x l IH]; intros s Hs; [done|]. apply IH. by constructor. Qed.

(** Two appends; the second is torn by a crash after three bytes; the sink is
    opened again. *)
Definition torn : WalState :=
  steps [WalOpens NoFault NoFault NoFault 100 None run1; WalReceives first NoFault;
         WalReceives second (StopAt 1 2 false); WalCrashes (λ _, 9%nat) (λ _, "{2");
         WalOpens NoFault NoFault NoFault 100 None run1] wal_initial.

Lemma wal_no_loss_witness :
  ws_journaled torn = [(run1, first)] ∧
  (receipted (ws_receipts torn) first ∨ ∃ j, event_to_json first = Some j ∧
     (j +:+ String LF "" ∈ split_inclusive LF (visible (ws_disk torn Queue)) ∨
      ∃ code reason, archive_entry (j +:+ String LF "") code reason +:+ String LF ""
                       ∈ split_inclusive LF (visible (ws_disk torn Archive)))).
Proof.
  assert (Hj : ws_journaled torn = [(run1, first)]) by (vm_compute; reflexivity).
  split; [exact Hj|]. apply (wal_no_loss torn run1 first).
  - apply steps_reachable. constructor.
  - rewrite Hj. left.
Defined.

(** The torn record is a line of its own after the repair, behind the kept one. *)
Lemma torn_queue :
  split_inclusive LF (visible (ws_disk torn Queue)) = ["{1}" +:+ String LF ""; "{2" +:+ String LF ""].
Proof. vm_compute. reflexivity. Qed.

(** A queue with a record is not opened for another run; an empty one is. *)
Definition delivered : WalState :=
  steps [WalOpens NoFault NoFault NoFault 100 None run1; WalReceives first NoFault;
         WalExits []; WalOpens NoFault NoFault NoFault 100 None run2;
         WalOpens NoFault NoFault NoFault 100 None run1;
         WalTicks (healthy_env ["{1}" +:+ String LF ""]) NoFault; WalExits [];
         WalOpens NoFault NoFault NoFault 100 None run2] wal_initial.

Lemma wal_scope_bound_witness :
  ∃ k, ws_sink delivered = Some k ∧ sk_scope k = run2 ∧
    settled (ws_disk delivered) (ws_receipts delivered) first.
Proof.
  assert (H : match ws_sink delivered with Some k => sk_scope k = run2 | None => False end) by (vm_compute; reflexivity).
  destruct (ws_sink delivered) as [k|] eqn:Hk; [|destruct H]. exists k. split; [reflexivity|]. split; [exact H|].
  destruct (wal_scope_bound delivered k) as [Hs _].
  - apply steps_reachable. constructor.
  - exact Hk.
  - apply (Hs run1).
    + assert (Hj : ws_journaled delivered = [(run1, first)]) by (vm_compute; reflexivity). rewrite Hj. left.
    + rewrite H. intros E. vm_compute in E. discriminate E.
Defined.

Lemma wal_delivers_witness :
  visible (ws_disk (healthy_ticks 1 torn) Queue) = "" ∧
  settled (ws_disk (healthy_ticks 1 torn)) (ws_receipts (healthy_ticks 1 torn)) first.
Proof.
  assert (H : match ws_sink torn with
              | Some k => (length (jr_records (sk_journal k)) <=? REPLAY_LIMIT * 1)%nat = true
              | None => False end) by (vm_compute; reflexivity).
  destruct (ws_sink torn) as [k|] eqn:Hk; [|destruct H].
  destruct (wal_delivers torn k 1) as [H1 H2].
  - apply steps_reachable. constructor.
  - exact Hk.
  - by apply Nat.leb_le.
  - split; [exact H1|]. apply (H2 run1).
    assert (Hj : ws_journaled torn = [(run1, first)]) by (vm_compute; reflexivity). rewrite Hj. left.
Defined.

End Samples.
