(* ===== verification/AuditGrpc.v ===== *)
(** * The buffering audit sink ([audit/sink/grpc.rs])

    The sink streams events to a collector and, while no stream is up, appends
    them to a bounded buffer file that a reconnect replays on a stream of its
    own.  The run loop is a step function over the sink's context, the buffer
    file and a ledger of what became of every event.  Steps name what comes
    from outside: clocks, the answers of the collector, what the RPC task takes
    from its channel, and where the disk fails. *)

From S2P Require Import Prelude RustStr ActionClasses Core Redaction MappingTable Decision Json.
From S2P Require Import Normalizer Session Cedar Constraint Runtime AuditRecord AuthorityClient PersistentSession AuditEvent AuditWal.

#[local] Open Scope string_scope.

(** ** Constants, in nanoseconds *)

Definition RECONNECT_MIN_BACKOFF : Z := 250 * 1000 * 1000.
Definition RECONNECT_MAX_BACKOFF : Z := 30 * 1000 * 1000 * 1000.
Definition HEALTHY_STREAM_LIFETIME : Z := 10 * 1000 * 1000 * 1000.

(** The slots of the channel of a stream. *)
Definition STREAM_CAPACITY : nat := 256.

(** ** The run loop's state *)

(** A live stream: the events waiting in its channel, and whether the RPC task has
    dropped the receiving end. *)
Record StreamState := { st_queue : list ExecutionEvent; st_closed : bool }.

Record RunCtx := {
  rc_stream : option StreamState;
  rc_buffer_size : Z;
  rc_total_dropped : Z;
  rc_total_abandoned : Z;
  rc_backoff : ExponentialBackoff;
  rc_reconnect_at : Z;
  rc_stream_opened_at : option Z;
}.

Definition with_stream (s : option StreamState) (c : RunCtx) : RunCtx :=
  {| rc_stream := s; rc_buffer_size := rc_buffer_size c; rc_total_dropped := rc_total_dropped c;
     rc_total_abandoned := rc_total_abandoned c; rc_backoff := rc_backoff c; rc_reconnect_at := rc_reconnect_at c;
     rc_stream_opened_at := rc_stream_opened_at c |}.

Definition with_buffer (size dropped : Z) (c : RunCtx) : RunCtx :=
  {| rc_stream := rc_stream c; rc_buffer_size := size; rc_total_dropped := (rc_total_dropped c + dropped)%Z;
     rc_total_abandoned := rc_total_abandoned c; rc_backoff := rc_backoff c; rc_reconnect_at := rc_reconnect_at c;
     rc_stream_opened_at := rc_stream_opened_at c |}.

Definition with_abandoned (n : Z) (c : RunCtx) : RunCtx :=
  {| rc_stream := rc_stream c; rc_buffer_size := rc_buffer_size c; rc_total_dropped := rc_total_dropped c;
     rc_total_abandoned := (rc_total_abandoned c + n)%Z; rc_backoff := rc_backoff c; rc_reconnect_at := rc_reconnect_at c;
     rc_stream_opened_at := rc_stream_opened_at c |}.

Definition with_schedule (b : ExponentialBackoff) (at_ : Z) (opened : option Z) (c : RunCtx) : RunCtx :=
  {| rc_stream := rc_stream c; rc_buffer_size := rc_buffer_size c; rc_total_dropped := rc_total_dropped c;
     rc_total_abandoned := rc_total_abandoned c; rc_backoff := b; rc_reconnect_at := at_;
     rc_stream_opened_at := opened |}.

Inductive SinkError := EvidenceNeedsWal | AppendFailed (event_id : string).

(** [require_legacy_event]. *)
Definition require_legacy_event (e : ExecutionEvent) : Result unit SinkError :=
  match ev_run_evidence e with Some _ => Err EvidenceNeedsWal | None => Ok tt end.

Section Grpc.
Context {WJ : WalJson}.

(** ** The buffer file *)

(** Where a compaction fails: before it changes the file, between the truncation
    and the write, or in the write, which has then put [k] bytes. *)
Inductive CompactFault := CompactDone | CompactUnread | CompactUntruncated | CompactUnseeked | CompactCut (k : nat).

(** The newest lines that fit, the newest always; [kept] and the result are in file
    order. *)
Fixpoint keep_newest (target kept_bytes : Z) (kept rev_lines : list string) : list string :=
  match rev_lines with
  | [] => kept
  | line :: rest =>
      let line_bytes := (zlen line + 1)%Z in
      if (target <? kept_bytes + line_bytes)%Z && negb (bool_decide (kept = [])) then kept
      else keep_newest target (kept_bytes + line_bytes) (line :: kept) rest
  end.

Definition unlines_lf (ls : list string) : string := concat_bytes ((λ l, l +:+ String LF "") <$> ls).

(** [buffer_compact]: the file, the tracked size and the number of dropped events. *)
Definition buffer_compact (fault : CompactFault) (file : string) (size target : Z) : string * Z * Z :=
  match fault with
  | CompactUnread => (file, size, 0)
  | _ =>
      if negb (utf8_valid file) then (file, size, 0)
      else
        let ls := str_lines file in
        let kept := keep_newest target 0 [] (reverse ls) in
        let dropped := Z.of_nat (length ls - length kept) in
        let contents := unlines_lf kept in
        match fault with
        | CompactUntruncated => (file, size, 0)
        | CompactUnseeked => ("", size, 0)
        | CompactCut k => (String.substring 0 k contents, size, dropped)
        | _ => (contents, zlen contents, dropped)
        end
  end%Z.

(** The faults of one append: those of the compaction, and a write that stops. *)
Record AppendFault := { af_compact : CompactFault; af_cut : option nat }.

(** The compaction an append starts with, when its line would exceed the cap. *)
Definition make_room (fault : CompactFault) (file : string) (size max_bytes line_len : Z) : string * Z * Z :=
  if (max_bytes <? size + line_len)%Z then buffer_compact fault file size (max_bytes / 2) else (file, size, 0%Z).

(** [buffer_append]: the file, and the new size with the number of dropped events,
    or nothing when the write failed. *)
Definition buffer_append (fault : AppendFault) (file : string) (size max_bytes : Z) (e : ExecutionEvent)
    : string * option (Z * Z) :=
  match event_to_json e with
  | None => (file, Some (size, 0%Z))
  | Some json =>
      let line := json +:+ String LF "" in
      let '(file, size, dropped) := make_room (af_compact fault) file size max_bytes (zlen line) in
      match af_cut fault with
      | Some k => (file +:+ String.substring 0 k line, None)
      | None => (file +:+ line, Some (size + zlen line, dropped)%Z)
      end
  end.

(** The events an append evicts from the file, whether or not its write succeeds. *)
Definition append_evicts (fault : AppendFault) (file : string) (size max_bytes : Z) (e : ExecutionEvent)
    : list ExecutionEvent :=
  match event_to_json e with
  | None => []
  | Some json =>
      let '(_, _, dropped) := make_room (af_compact fault) file size max_bytes (zlen (json +:+ String LF "")) in
      omap event_of_json (take (Z.to_nat dropped) (str_lines file))
  end.

(** [buffer_read_all]; [ok] is whether the file could be read. *)
Definition buffer_read_all (ok : bool) (file : string) : list ExecutionEvent :=
  if ok && utf8_valid file then omap event_of_json (str_lines file) else [].

(** ** Streams *)

(** [try_send] on the channel of a stream. *)
Inductive SendOutcome := Sent (s : StreamState) | ChannelFull | ChannelClosed.

Definition try_send (s : StreamState) (e : ExecutionEvent) : SendOutcome :=
  if st_closed s then ChannelClosed
  else if (length (st_queue s) <? STREAM_CAPACITY)%nat then Sent {| st_queue := st_queue s ++ [e]; st_closed := false |}
  else ChannelFull.

(** What the RPC task does: it takes the oldest [n] events, and may end. *)
Definition rpc_takes (n : nat) (closes : bool) (s : StreamState) : list ExecutionEvent * StreamState :=
  (take n (st_queue s), {| st_queue := drop n (st_queue s); st_closed := st_closed s || closes |}).

(** [try_stream_send]; [yielded] is what the RPC task does during the yield.  The
    result is whether the event was queued, the stream, and what was taken. *)
Definition try_stream_send (yielded : nat * bool) (stream : option StreamState) (e : ExecutionEvent)
    : bool * option StreamState * list ExecutionEvent :=
  match stream with
  | None => (false, None, [])
  | Some s =>
      match try_send s e with
      | Sent s' => (true, Some s', [])
      | ChannelClosed => (false, Some s, [])
      | ChannelFull =>
          let '(taken, s) := rpc_takes yielded.1 yielded.2 s in
          match try_send s e with
          | Sent s' => (true, Some s', taken)
          | ChannelFull | ChannelClosed => (false, Some s, taken)
          end
      end
  end.

(** [abandoned_event_count]: the occupied slots of the channel when it looks.  The
    sink holds no permit meanwhile, since [try_send] returns before; what the RPC
    task still takes after the look is counted although it is not lost. *)
Definition abandoned_event_count (s : StreamState) : Z := Z.of_nat (length (st_queue s)).

(** [schedule_reconnect_after_loss]. *)
Definition schedule_reconnect_after_loss (now : Z) (jitter : Z → Z) (c : RunCtx) : RunCtx :=
  let healthy :=
    match rc_stream_opened_at c with
    | Some opened_at => (HEALTHY_STREAM_LIFETIME <=? now - opened_at)%Z
    | None => false
    end in
  if healthy then with_schedule (backoff_reset (rc_backoff c)) now None c
  else
    let '(delay, backoff) := backoff_next jitter (rc_backoff c) in
    with_schedule backoff (now + delay)%Z None c.

(** ** Reconnecting *)

Inductive Acknowledgment := Acknowledged (events_received : Z) | NotAcknowledged.

(** What one attempt meets: its clocks, whether each stream opens (a cancelled
    attempt does not), the read of the buffer, the sends by index, the answer to
    the half-close, the truncation and the jitter. *)
Record ReconnectEnv := {
  ce_started : Z;
  ce_finished : Z;
  ce_replay_opens : bool;
  ce_read_ok : bool;
  ce_sends : nat → bool;
  ce_ack : Acknowledgment;
  ce_truncate_ok : bool;
  ce_stream_opens : bool;
  ce_jitter : Z → Z;
}.

(** [replay_is_complete]; [usize::try_from] refuses a negative count. *)
Definition replay_is_complete (events_received : Z) (sent : nat) : bool :=
  (0 <=? events_received)%Z && (Z.of_nat sent <=? events_received)%Z.

(** [replay_acknowledged]: the file, and the batch that was acknowledged. *)
Definition replay_acknowledged (env : ReconnectEnv) (file : string)
    : option (string * (list ExecutionEvent * Z)) :=
  if negb (ce_replay_opens env) then None
  else
    let events := buffer_read_all (ce_read_ok env) file in
    if negb (forallb (ce_sends env) (seq 0 (length events))) then None
    else
      match ce_ack env with
      | NotAcknowledged => None
      | Acknowledged n =>
          if replay_is_complete n (length events)
          then Some (if ce_truncate_ok env then "" else file, (events, n)) else None
      end.

(** [reconnect]: whether the live stream opened, with the file, the size and the
    acknowledged batch. *)
Definition reconnect (env : ReconnectEnv) (file : string) (size : Z)
    : bool * string * Z * option (list ExecutionEvent * Z) :=
  if (0 <? size)%Z then
    match replay_acknowledged env file with
    | None => (false, file, size, None)
    | Some (file, batch) => (ce_stream_opens env, file, 0%Z, Some batch)
    end
  else (ce_stream_opens env, file, size, None).

(** [attempt_reconnect]. *)
Definition attempt_reconnect (env : ReconnectEnv) (file : string) (c : RunCtx)
    : RunCtx * string * option (list ExecutionEvent * Z) :=
  let '(opened, file, size, batch) := reconnect env file (rc_buffer_size c) in
  let c := with_buffer size 0 c in
  if opened then
    (with_schedule (rc_backoff c) (rc_reconnect_at c) (Some (ce_finished env))
       (with_stream (Some {| st_queue := []; st_closed := false |}) c), file, batch)
  else
    let '(delay, backoff) := backoff_next (ce_jitter env) (rc_backoff c) in
    (with_schedule backoff (ce_finished env + delay)%Z (rc_stream_opened_at c) c, file, batch).

(** ** Handling events *)

(** What one event meets: the clock and jitter of a lost stream, what the RPC task
    does during the yield, how many events of a lost stream it still takes after
    they were counted, and the disk. *)
Record EventEnv := {
  ee_now : Z;
  ee_jitter : Z → Z;
  ee_yielded : nat * bool;
  ee_drained : nat;
  ee_fault : AppendFault;
}.

(** What became of the events: those whose handling returned, and where they went.
    A batch that was acknowledged and left the file comes with the count the
    collector reported; [lg_past] is what earlier processes evicted or abandoned. *)
Record Ledger := {
  lg_handled : list ExecutionEvent;
  lg_taken : list ExecutionEvent;
  lg_abandoned : list ExecutionEvent;
  lg_left : list ExecutionEvent;
  lg_past : list ExecutionEvent;
  lg_acknowledged : list (list ExecutionEvent * Z);
  lg_evicted : list ExecutionEvent;
  lg_unserializable : list ExecutionEvent;
}.

Definition empty_ledger : Ledger :=
  {| lg_handled := []; lg_taken := []; lg_abandoned := []; lg_left := []; lg_past := []; lg_acknowledged := [];
     lg_evicted := []; lg_unserializable := [] |}.

(** The sink's process: nothing while it is not running. *)
Record GrpcState := {
  gs_max_bytes : Z;
  gs_file : string;
  gs_ctx : option RunCtx;
  gs_ledger : Ledger;
}.

Definition note_handled (e : ExecutionEvent) (l : Ledger) : Ledger :=
  {| lg_handled := e :: lg_handled l; lg_taken := lg_taken l; lg_abandoned := lg_abandoned l; lg_left := lg_left l; lg_past := lg_past l;
     lg_acknowledged := lg_acknowledged l; lg_evicted := lg_evicted l; lg_unserializable := lg_unserializable l |}.

Definition note_streams (taken abandoned left_ : list ExecutionEvent) (l : Ledger) : Ledger :=
  {| lg_handled := lg_handled l; lg_taken := lg_taken l ++ taken; lg_abandoned := lg_abandoned l ++ abandoned;
     lg_left := lg_left l ++ left_; lg_past := lg_past l; lg_acknowledged := lg_acknowledged l; lg_evicted := lg_evicted l;
     lg_unserializable := lg_unserializable l |}.

Definition note_buffer (evicted unserializable : list ExecutionEvent) (l : Ledger) : Ledger :=
  {| lg_handled := lg_handled l; lg_taken := lg_taken l; lg_abandoned := lg_abandoned l; lg_left := lg_left l; lg_past := lg_past l;
     lg_acknowledged := lg_acknowledged l; lg_evicted := lg_evicted l ++ evicted;
     lg_unserializable := lg_unserializable l ++ unserializable |}.

Definition note_batch (batch : list ExecutionEvent * Z) (l : Ledger) : Ledger :=
  {| lg_handled := lg_handled l; lg_taken := lg_taken l; lg_abandoned := lg_abandoned l; lg_left := lg_left l; lg_past := lg_past l;
     lg_acknowledged := lg_acknowledged l ++ [batch]; lg_evicted := lg_evicted l;
     lg_unserializable := lg_unserializable l |}.

Definition note_start (l : Ledger) : Ledger :=
  {| lg_handled := lg_handled l; lg_taken := lg_taken l; lg_abandoned := []; lg_left := lg_left l;
     lg_past := lg_past l ++ lg_abandoned l ++ lg_evicted l; lg_acknowledged := lg_acknowledged l; lg_evicted := [];
     lg_unserializable := lg_unserializable l |}.

(** The queue of the stream, if any. *)
Definition queued (c : RunCtx) : list ExecutionEvent := from_option st_queue [] (rc_stream c).

(** The loss of a stream in [handle_event] and in [drain_events]; the latter
    schedules no reconnect.  With the context, what the RPC task still takes of
    the events that were counted, and what is lost. *)
Definition lose_stream (draining : bool) (env : EventEnv) (c : RunCtx)
    : RunCtx * list ExecutionEvent * list ExecutionEvent :=
  match rc_stream c with
  | None => (c, [], [])
  | Some lost =>
      let c := with_abandoned (abandoned_event_count lost) (with_stream None c) in
      (if draining then with_schedule (rc_backoff c) (rc_reconnect_at c) None c
       else schedule_reconnect_after_loss (ee_now env) (ee_jitter env) c,
       take (ee_drained env) (st_queue lost), drop (ee_drained env) (st_queue lost))
  end.

(** [handle_event], and one round of [drain_events]: the context, the file, the
    ledger and the outcome. *)
Definition handle_event (draining : bool) (env : EventEnv) (max_bytes : Z) (e : ExecutionEvent)
    (c : RunCtx) (file : string) (l : Ledger) : RunCtx * string * Ledger * Result unit SinkError :=
  match require_legacy_event e with
  | Err err => (c, file, l, Err err)
  | Ok _ =>
      let '(sent, stream, taken) := try_stream_send (ee_yielded env) (rc_stream c) e in
      let c := with_stream stream c in
      let l := note_streams taken [] [] l in
      if sent then (c, file, note_handled e l, Ok tt)
      else
        let '(c, drained, abandoned) := lose_stream draining env c in
        let l := note_streams drained abandoned [] l in
        let lost := match event_to_json e with Some _ => [] | None => [e] end in
        let l := note_buffer (append_evicts (ee_fault env) file (rc_buffer_size c) max_bytes e) lost l in
        match buffer_append (ee_fault env) file (rc_buffer_size c) max_bytes e with
        | (file', None) => (c, file', l, Err (AppendFailed (ev_event_id e)))
        | (file', Some (size, dropped)) => (with_buffer size dropped c, file', note_handled e l, Ok tt)
        end
  end.

(** [close_stream] and the end of [run]: what is left in the stream's channel is the
    RPC task's. *)
Definition sink_ends (c : RunCtx) (file : string) (l : Ledger) (s : GrpcState) : GrpcState :=
  {| gs_max_bytes := gs_max_bytes s; gs_file := file; gs_ctx := None;
     gs_ledger := note_streams [] [] (queued c) l |}.

Definition sink_continues (c : RunCtx) (file : string) (l : Ledger) (s : GrpcState) : GrpcState :=
  {| gs_max_bytes := gs_max_bytes s; gs_file := file; gs_ctx := Some c; gs_ledger := l |}.

(** The loop of [drain_events]. *)
Fixpoint drain_events (events : list (ExecutionEvent * EventEnv)) (c : RunCtx) (file : string) (l : Ledger)
    (s : GrpcState) : GrpcState :=
  match events with
  | [] => sink_ends c file l s
  | (e, env) :: events =>
      match handle_event true env (gs_max_bytes s) e c file l with
      | (c, file, l, Ok _) => drain_events events c file l s
      | (c, file, l, Err _) => sink_ends c file l s
      end
  end.

(** [init_ctx], the file being open. *)
Definition init_ctx (now : Z) (read_ok : bool) (file : string) : Result RunCtx SinkError :=
  let retained := if (0 <? zlen file)%Z then buffer_read_all read_ok file else [] in
  if forallb (λ e, is_ok (require_legacy_event e)) retained then
    Ok {| rc_stream := None; rc_buffer_size := zlen file; rc_total_dropped := 0; rc_total_abandoned := 0;
          rc_backoff := backoff_new RECONNECT_MIN_BACKOFF RECONNECT_MAX_BACKOFF; rc_reconnect_at := now;
          rc_stream_opened_at := None |}
  else Err EvidenceNeedsWal.

(** The steps of a sink: it starts, takes an event, tries to connect once that is
    due, its RPC task works, it is cancelled with the events still to drain, or
    its process is killed. *)
Inductive GrpcStep :=
| SinkStarts (now : Z) (read_ok : bool)
| SinkReceives (e : ExecutionEvent) (env : EventEnv)
| SinkConnects (env : ReconnectEnv)
| RpcWorks (n : nat) (closes : bool)
| SinkCancelled (events : list (ExecutionEvent * EventEnv))
| SinkKilled.

Definition grpc_step (t : GrpcStep) (s : GrpcState) : GrpcState :=
  match t, gs_ctx s with
  | SinkStarts now read_ok, None =>
      match init_ctx now read_ok (gs_file s) with
      | Ok c => sink_continues c (gs_file s) (note_start (gs_ledger s)) s
      | Err _ => s
      end
  | SinkReceives e env, Some c =>
      match handle_event false env (gs_max_bytes s) e c (gs_file s) (gs_ledger s) with
      | (c, file, l, Ok _) => sink_continues c file l s
      | (c, file, l, Err _) => sink_ends c file l s
      end
  | SinkConnects env, Some c =>
      match rc_stream c with
      | Some _ => s
      | None =>
          if (rc_reconnect_at c <=? ce_started env)%Z then
            let '(c, file, batch) := attempt_reconnect env (gs_file s) c in
            let l := match batch with
                     | Some b => if ce_truncate_ok env then note_batch b (gs_ledger s) else gs_ledger s
                     | None => gs_ledger s
                     end in
            sink_continues c file l s
          else s
      end
  | RpcWorks n closes, Some c =>
      match rc_stream c with
      | None => s
      | Some st =>
          let '(taken, st) := rpc_takes n closes st in
          sink_continues (with_stream (Some st) c) (gs_file s) (note_streams taken [] [] (gs_ledger s)) s
      end
  | SinkCancelled events, Some c => drain_events events c (gs_file s) (gs_ledger s) s
  | SinkKilled, Some c => sink_ends c (gs_file s) (gs_ledger s) s
  | _, _ => s
  end.

(** ** Runs *)

Definition grpc_initial (max_bytes : Z) : GrpcState :=
  {| gs_max_bytes := max_bytes; gs_file := ""; gs_ctx := None; gs_ledger := empty_ledger |}.

(** A disk on which reads, truncations and compactions succeed, and which is not
    reopened with an unfinished line; appends may fail at any byte.  The code meets
    the other cases too, and loses events in them: [unreadable_buffer_cleared],
    [torn_tail_swallows_next] and [failed_compaction_goes_on] below. *)
Definition disk_sound (t : GrpcStep) (s : GrpcState) : Prop :=
  match t with
  | SinkStarts _ read_ok => read_ok = true ∧ whole_lines (gs_file s)
  | SinkReceives _ env => af_compact (ee_fault env) = CompactDone
  | SinkConnects env => ce_read_ok env = true ∧ ce_truncate_ok env = true
  | SinkCancelled events => Forall (λ x, af_compact (ee_fault x.2) = CompactDone) events
  | RpcWorks _ _ | SinkKilled => True
  end.

Definition step_events (t : GrpcStep) : list ExecutionEvent :=
  match t with SinkReceives e _ => [e] | SinkCancelled events => events.*1 | _ => [] end.

(** The states of a sink whose events satisfy [P]. *)
Inductive grpc_reachable (P : ExecutionEvent → Prop) (max_bytes : Z) : GrpcState → Prop :=
| grpc_reach_init : grpc_reachable P max_bytes (grpc_initial max_bytes)
| grpc_reach_step t s :
    grpc_reachable P max_bytes s → disk_sound t s → Forall P (step_events t) →
    grpc_reachable P max_bytes (grpc_step t s).

(** Documented behaviour of [serde_json] on events: compact UTF-8 text without line
    breaks, read back as it was written. *)
Class EventJsonLaws := {
  json_one_line : ∀ e j, event_to_json e = Some j → contains_char LF j = false ∧ strip_cr j = j;
  json_utf8 : ∀ e j, event_to_json e = Some j → utf8_valid j = true;
  json_back : ∀ e j, event_to_json e = Some j → event_of_json j = Some e;
}.
Context {EJ : EventJsonLaws}.

(** ** Facts about the buffer *)

Definition event_line (e : ExecutionEvent) : string := from_option (λ j, j +:+ String LF "") "" (event_to_json e).

Definition serializes (e : ExecutionEvent) : Prop := is_Some (event_to_json e).

Definition lines_text (held : list ExecutionEvent) : string := concat_bytes (event_line <$> held).

Lemma lines_text_app h1 h2 : lines_text (h1 ++ h2) = lines_text h1 +:+ lines_text h2.
Proof. unfold lines_text. by rewrite fmap_app, concat_bytes_app. Qed.

Lemma lines_text_cons e held : lines_text (e :: held) = event_line e +:+ lines_text held.
Proof. reflexivity. Qed.

Lemma unlines_lf_cons l ls : unlines_lf (l :: ls) = (l +:+ String LF "") +:+ unlines_lf ls.
Proof. reflexivity. Qed.

Lemma lines_text_read held : Forall serializes held →
  ∃ js, str_lines (lines_text held) = js ∧ Forall2 (λ e j, event_to_json e = Some j) held js.
Proof.
  induction held as [|e held IH]; intros Hs; [by exists []|]. apply Forall_cons in Hs as [[j Hj] Hs].
  destruct (IH Hs) as (js & E & H2). exists (j :: js). split; [|by constructor].
  unfold lines_text in *. simpl. unfold event_line at 1. rewrite Hj. simpl.
  rewrite <- (str_app_assoc j (String LF "") _). destruct (json_one_line e j Hj) as [Hl Hc].
  change (String LF "" +:+ ?x) with (String LF x). rewrite str_lines_cons by done. rewrite Hc. f_equal. exact E.
Qed.

Lemma lines_text_utf8 held : Forall serializes held → utf8_valid (lines_text held) = true.
Proof.
  induction held as [|e held IH]; intros Hs; [done|]. apply Forall_cons in Hs as [[j Hj] Hs].
  unfold lines_text. simpl. apply utf8_valid_app; [|by apply IH]. unfold event_line. rewrite Hj. simpl.
  apply utf8_valid_app; [by eapply json_utf8|done].
Qed.

Lemma read_all_held held js : Forall2 (λ e j, event_to_json e = Some j) held js → omap event_of_json js = held.
Proof. induction 1 as [|e j held js Hj _ IH]; [done|]. simpl. rewrite (json_back e j Hj). exact (f_equal (cons e) IH). Qed.

Lemma buffer_read_held held : Forall serializes held → buffer_read_all true (lines_text held) = held.
Proof.
  intros Hs. unfold buffer_read_all. rewrite lines_text_utf8 by done. simpl.
  destruct (lines_text_read held Hs) as (js & -> & H2). by apply read_all_held.
Qed.

(** What [keep_newest] keeps: a suffix, within the target or one line. *)
Definition text_bytes (ls : list string) : Z := foldr (λ l n, (zlen l + 1 + n)%Z) 0%Z ls.

Lemma keep_newest_spec target rl : ∀ kb kept,
  ∃ n, keep_newest target kb kept rl = (reverse (take n rl) ++ kept)%list ∧
    ∀ M, kb = text_bytes kept → (kept = [] ∨ kb ≤ Z.max target M)%Z → (∀ l, l ∈ rl → zlen l + 1 ≤ M)%Z →
      kept ≠ [] ∨ rl ≠ [] → (text_bytes (reverse (take n rl) ++ kept)%list ≤ Z.max target M)%Z.
Proof.
  induction rl as [|l rl IH]; intros kb kept; simpl.
  { exists 0%nat. split; [done|]. intros M -> [->|?] _ [?|?]; done. }
  destruct ((target <? kb + (zlen l + 1))%Z && negb (bool_decide (kept = []))) eqn:E.
  - exists 0%nat. split; [done|]. intros M -> [->|?] _ _; [by rewrite andb_false_r in E|done].
  - destruct (IH (kb + (zlen l + 1))%Z (l :: kept)) as (n & Hn & HM). exists (S n). simpl.
    rewrite reverse_cons, <- app_assoc. split; [exact Hn|]. intros M Hkb Hk Hl _. apply HM; [simpl; lia| |set_solver|by left].
    right. assert (zlen l + 1 ≤ M)%Z by (apply Hl; by left).
    apply andb_false_iff in E as [E|E]; [apply Z.ltb_ge in E; lia|].
    apply negb_false_iff, bool_decide_eq_true in E. rewrite E in Hkb. simpl in Hkb. lia.
Qed.

Lemma unlines_held held js :
  Forall2 (λ e j, event_to_json e = Some j) held js → unlines_lf js = lines_text held ∧ text_bytes js = zlen (lines_text held).
Proof.
  induction 1 as [|e j held js Hj _ [IH1 IH2]]; [done|]. rewrite lines_text_cons, unlines_lf_cons, IH1.
  simpl text_bytes. unfold event_line. rewrite Hj. simpl from_option. split; [done|].
  rewrite !zlen_app, IH2. change (zlen (String LF "")) with 1%Z. lia.
Qed.

Lemma text_le held M js :
  Forall2 (λ e j, event_to_json e = Some j) held js → (∀ e, e ∈ held → zlen (event_line e) ≤ M)%Z →
  ∀ l, l ∈ js → (zlen l + 1 ≤ M)%Z.
Proof.
  intros H2 HM l (i & Hi)%list_elem_of_lookup. destruct (Forall2_lookup_r _ _ _ _ _ H2 Hi) as (e & He & Hj).
  apply list_elem_of_lookup_2, HM in He. unfold event_line in He. rewrite Hj in He. simpl in He. rewrite zlen_app in He.
  change (zlen (String LF "")) with 1%Z in He. done.
Qed.

(** A compaction drops the oldest events and keeps the rest. *)
Lemma buffer_compact_spec held size target :
  Forall serializes held →
  ∃ n, buffer_compact CompactDone (lines_text held) size target
       = (lines_text (drop n held), zlen (lines_text (drop n held)), Z.of_nat n) ∧
    (n ≤ length held)%nat ∧ omap event_of_json (take n (str_lines (lines_text held))) = take n held ∧
    ∀ M, (∀ e, e ∈ held → zlen (event_line e) ≤ M)%Z → (0 ≤ target)%Z →
      (zlen (lines_text (drop n held)) ≤ Z.max target M)%Z.
Proof.
  intros Hs. destruct (lines_text_read held Hs) as (js & E & H2).
  unfold buffer_compact. rewrite lines_text_utf8 by done. cbn [negb]. cbv zeta. rewrite E.
  destruct (keep_newest_spec target (reverse js) 0%Z []) as (n & -> & HM). rewrite app_nil_r in *.
  assert (Hk : reverse (take n (reverse js)) = drop (length js - n) js).
  { by rewrite reverse_take, reverse_involutive, length_reverse. }
  rewrite Hk in *. set (m := (length js - n)%nat) in *. exists m.
  assert (H2d : Forall2 (λ e j, event_to_json e = Some j) (drop m held) (drop m js)) by (by apply Forall2_drop).
  destruct (unlines_held _ _ H2d) as [-> Hb]. split_and!.
  - f_equal. rewrite length_drop. f_equal. lia.
  - rewrite (Forall2_length _ _ _ H2). lia.
  - apply read_all_held. by apply Forall2_take.
  - intros M Hle Ht. rewrite <- Hb. destruct (decide (js = [])) as [->|Hne]; [rewrite drop_nil; simpl; lia|].
    apply HM; [done|by left| |].
    + intros l Hl. eapply text_le; [exact H2|exact Hle|]. by apply elem_of_reverse.
    + right. intros Hr. apply Hne. by apply (f_equal reverse) in Hr; rewrite reverse_involutive in Hr.
Qed.

(** ** Accounting *)

(** How often an event occurs in a list. *)
Fixpoint occ (x : ExecutionEvent) (l : list ExecutionEvent) : nat :=
  match l with [] => 0 | y :: l => (if decide (y = x) then 1 else 0) + occ x l end.

Lemma occ_app x l l' : occ x (l ++ l') = (occ x l + occ x l')%nat.
Proof. induction l as [|y l IH]; simpl; [done|]. rewrite IH. lia. Qed.

Lemma occ_take_drop x n l : occ x l = (occ x (take n l) + occ x (drop n l))%nat.
Proof. by rewrite <- occ_app, take_drop. Qed.

(** Every handling of an event is accounted for: the collector's stream took it, it
    waits in the channel [q], it was abandoned or left with a stream, it was
    evicted or cannot be serialised, a replay of it was acknowledged, or the
    buffer holds it. *)
Definition accounted (l : Ledger) (q held : list ExecutionEvent) : Prop :=
  ∀ x, (occ x (lg_handled l) ≤
    occ x (lg_taken l) + occ x q + (occ x (lg_abandoned l) + occ x (lg_left l) + occ x (lg_past l)) +
    (occ x (lg_evicted l) + occ x (lg_unserializable l)) + occ x (concat (lg_acknowledged l).*1) + occ x held)%nat.

Record books (l : Ledger) (q held : list ExecutionEvent) : Prop := {
  bk_accounted : accounted l q held;
  bk_acknowledged : Forall (λ b, (Z.of_nat (length b.1) ≤ b.2)%Z) (lg_acknowledged l);
  bk_unserializable : Forall (λ e, event_to_json e = None) (lg_unserializable l);
  bk_legacy : Forall (λ e, ev_run_evidence e = None) (lg_handled l);
}.

Definition kept (P : ExecutionEvent → Prop) (e : ExecutionEvent) : Prop :=
  serializes e ∧ ev_run_evidence e = None ∧ P e.

(** The cap, up to the longest line. *)
Definition file_bound (P : ExecutionEvent → Prop) (max_bytes : Z) (file : string) : Prop :=
  ∀ M, (∀ e, P e → zlen (event_line e) ≤ M)%Z → (zlen file ≤ Z.max max_bytes (Z.max (max_bytes / 2) M + M))%Z.

Record running (P : ExecutionEvent → Prop) (max_bytes : Z) (held : list ExecutionEvent)
    (c : RunCtx) (file : string) (l : Ledger) : Prop := {
  rn_file : file = lines_text held;
  rn_held : Forall (kept P) held;
  rn_size : rc_buffer_size c = zlen file;
  rn_dropped : rc_total_dropped c = Z.of_nat (length (lg_evicted l));
  rn_abandoned : (Z.of_nat (length (lg_abandoned l)) ≤ rc_total_abandoned c)%Z;
  rn_books : books l (queued c) held;
  rn_bound : file_bound P max_bytes file;
}.

(** A sink that ends may leave the beginning of a line behind. *)
Definition ending (P : ExecutionEvent → Prop) (max_bytes : Z) (q : list ExecutionEvent) (file : string) (l : Ledger) : Prop :=
  ∃ held torn, file = lines_text held +:+ torn ∧ Forall (kept P) held ∧
    (torn = "" ∨ ∃ e k, kept P e ∧ torn = String.substring 0 k (event_line e)) ∧
    books l q held ∧ file_bound P max_bytes file.

Lemma kept_serializes P held : Forall (kept P) held → Forall serializes held.
Proof. intros H. eapply Forall_impl; [exact H|]. by intros e [? _]. Qed.

Lemma running_ending P max_bytes held c file l : running P max_bytes held c file l → ending P max_bytes (queued c) file l.
Proof. intros [-> Hh _ _ _ Hb Hf]. exists held, "". split_and!; [by rewrite str_app_nil_r|done|by left|done|done]. Qed.

Lemma make_room_spec P held max_bytes line_len :
  Forall (kept P) held → (0 ≤ max_bytes)%Z →
  ∃ n, make_room CompactDone (lines_text held) (zlen (lines_text held)) max_bytes line_len
       = (lines_text (drop n held), zlen (lines_text (drop n held)), Z.of_nat n) ∧
    (n ≤ length held)%nat ∧ omap event_of_json (take n (str_lines (lines_text held))) = take n held ∧
    ∀ M, (∀ e, P e → zlen (event_line e) ≤ M)%Z → (line_len ≤ M)%Z →
      (zlen (lines_text (drop n held)) + line_len ≤ Z.max max_bytes (Z.max (max_bytes / 2) M + M))%Z.
Proof.
  intros Hh Hmax. unfold make_room. destruct (max_bytes <? _)%Z eqn:E.
  - destruct (buffer_compact_spec held (zlen (lines_text held)) (max_bytes / 2) (kept_serializes _ _ Hh)) as (n & -> & Hn & Ho & Hb).
    exists n. split; [done|]. split; [done|]. split; [done|]. intros M HM Hl. pose proof (Z.div_pos max_bytes 2 Hmax ltac:(lia)) as Hd.
    assert (Hle : ∀ e, e ∈ held → (zlen (event_line e) ≤ M)%Z).
    { rewrite Forall_forall in Hh. intros e (_ & _ & Hp)%Hh. by apply HM. }
    specialize (Hb M Hle Hd). lia.
  - exists 0%nat. rewrite drop_0. split; [done|]. split; [lia|]. split; [done|]. intros M _ _. apply Z.ltb_ge in E. lia.
Qed.

Lemma try_stream_send_spec y stream e sent stream' taken :
  try_stream_send y stream e = (sent, stream', taken) →
  ∀ x, (occ x taken + occ x (from_option st_queue [] stream') =
        occ x (from_option st_queue [] stream) + (if sent then occ x [e] else 0))%nat.
Proof.
  unfold try_stream_send. destruct stream as [st|]; [|by intros [= <- <- <-]].
  assert (Htry : ∀ s s', try_send s e = Sent s' → ∀ x, occ x (st_queue s') = (occ x (st_queue s) + occ x [e])%nat).
  { intros s s'. unfold try_send. destruct (st_closed s); [done|]. destruct (_ <? _)%nat; [|done]. intros [= <-] x. simpl. by rewrite occ_app. }
  destruct (try_send st e) as [s'| |] eqn:E.
  - intros [= <- <- <-] x. simpl. by rewrite (Htry _ _ E x).
  - destruct (rpc_takes y.1 y.2 st) as [taken0 s0] eqn:Et. unfold rpc_takes in Et. injection Et as <- <-.
    destruct (try_send {| st_queue := drop y.1 (st_queue st); st_closed := st_closed st || y.2 |} e) as [s'| |] eqn:E2;
      intros Eq x; injection Eq as <- <- <-; simpl; rewrite ?(Htry _ _ E2 x); simpl;
      rewrite (occ_take_drop x y.1 (st_queue st)); simpl; lia.
  - intros [= <- <- <-] x. simpl. lia.
Qed.

Lemma schedule_keeps now jitter c :
  let c' := schedule_reconnect_after_loss now jitter c in
  rc_stream c' = rc_stream c ∧ rc_buffer_size c' = rc_buffer_size c ∧ rc_total_dropped c' = rc_total_dropped c ∧
  rc_total_abandoned c' = rc_total_abandoned c.
Proof. unfold schedule_reconnect_after_loss. cbv zeta. destruct (match rc_stream_opened_at c with Some _ => _ | None => _ end); by split_and!. Qed.

Lemma lose_stream_spec draining env c c' tk ab :
  lose_stream draining env c = (c', tk, ab) →
  rc_stream c' = None ∧ queued c = (tk ++ ab)%list ∧ rc_buffer_size c' = rc_buffer_size c ∧
  rc_total_dropped c' = rc_total_dropped c ∧
  rc_total_abandoned c' = (rc_total_abandoned c + Z.of_nat (length (queued c)))%Z.
Proof.
  unfold lose_stream, queued. destruct (rc_stream c) as [lost|] eqn:Es; [|intros [= <- <- <-]; rewrite Es; split_and!; [done..|simpl; lia]].
  destruct draining; intros [= <- <- <-]; simpl; rewrite take_drop; [by split_and!|].
  destruct (schedule_keeps (ee_now env) (ee_jitter env) (with_abandoned (abandoned_event_count lost) (with_stream None c))) as (-> & -> & -> & ->).
  by split_and!.
Qed.

(** The books after an append: an event that is not serialised, one that is
    written, one whose write fails. *)
Lemma books_append l q held e n :
  books l q held → ev_run_evidence e = None →
  let lost := match event_to_json e with Some _ => [] | None => [e] end in
  let l' := note_buffer (match event_to_json e with Some _ => take n held | None => [] end) lost l in
  let held' := match event_to_json e with Some _ => drop n held | None => held end in
  books l' q held' ∧
  books (note_handled e l') q (match event_to_json e with Some _ => held' ++ [e] | None => held' end).
Proof.
  intros [Ha Hk Hu Hl] He. cbv zeta. split; split; simpl; try done; try (apply Forall_app; split; [done|]);
    try (destruct (event_to_json e) eqn:Ej; by repeat constructor); try (by constructor).
  - intros x. specialize (Ha x). simpl. rewrite !occ_app. destruct (event_to_json e); simpl; [rewrite (occ_take_drop x n held) in Ha|]; lia.
  - intros x. specialize (Ha x). simpl. rewrite !occ_app.
    destruct (event_to_json e); simpl; rewrite ?occ_app; simpl; [rewrite (occ_take_drop x n held) in Ha|]; lia.
Qed.

Lemma zlen_prefix k s : (zlen (String.substring 0 k s) ≤ zlen s)%Z.
Proof.
  revert k. induction s as [|a s IH]; intros [|k]; simpl; try (unfold zlen; simpl; lia).
  specialize (IH k). unfold zlen in *. simpl. lia.
Qed.

(** An append keeps the books, whether or not its write succeeds. *)
Lemma append_spec P max_bytes held e fault l q :
  (0 ≤ max_bytes)%Z → Forall (kept P) held → books l q held → file_bound P max_bytes (lines_text held) →
  af_compact fault = CompactDone → ev_run_evidence e = None → P e →
  let file := lines_text held in
  let lost := match event_to_json e with Some _ => [] | None => [e] end in
  let evicted := append_evicts fault file (zlen file) max_bytes e in
  let l' := note_buffer evicted lost l in
  match buffer_append fault file (zlen file) max_bytes e with
  | (file', None) => ending P max_bytes q file' l'
  | (file', Some (size, dropped)) =>
      dropped = Z.of_nat (length evicted) ∧ size = zlen file' ∧
      ∃ held', file' = lines_text held' ∧ Forall (kept P) held' ∧ books (note_handled e l') q held' ∧
        file_bound P max_bytes file'
  end.
Proof.
  intros Hmax Hh Hb Hf Hc Hev Hp. cbv zeta. unfold buffer_append, append_evicts. rewrite Hc.
  destruct (event_to_json e) as [j|] eqn:Ej.
  2:{ destruct (books_append l q held e 0 Hb Hev) as [_ H2]. rewrite Ej in H2. split_and!; [done..|]. by exists held. }
  destruct (make_room_spec P held max_bytes (zlen (j +:+ String LF "")) Hh Hmax) as (n & -> & Hn & Ho & Hbd).
  destruct (books_append l q held e n Hb Hev) as [H1 H2]. rewrite Ej in H1, H2. rewrite Nat2Z.id, Ho.
  assert (Hkd : Forall (kept P) (drop n held)) by (by apply Forall_drop).
  assert (Hline : event_line e = j +:+ String LF "") by (unfold event_line; by rewrite Ej).
  assert (Hke : kept P e) by (split; [by exists j|by split]).
  assert (Hroom : ∀ t, (zlen t ≤ zlen (j +:+ String LF ""))%Z → file_bound P max_bytes (lines_text (drop n held) +:+ t)).
  { intros t Ht M HM. rewrite zlen_app. assert (zlen (j +:+ String LF "") ≤ M)%Z by (rewrite <- Hline; by apply HM).
    specialize (Hbd M HM ltac:(lia)). lia. }
  destruct (af_cut fault) as [k|].
  - exists (drop n held), (String.substring 0 k (j +:+ String LF "")). split_and!; [done|done| |done|].
    + right. exists e, k. by rewrite Hline.
    + apply Hroom, zlen_prefix.
  - split_and!.
    + by rewrite length_take, Nat.min_l.
    + by rewrite (zlen_app (lines_text _)).
    + exists (drop n held ++ [e])%list. split_and!.
      * rewrite lines_text_app. unfold lines_text at 3. simpl. by rewrite Hline, str_app_nil_r.
      * apply Forall_app. split; [done|]. by constructor.
      * done.
      * by apply Hroom.
Qed.

(** Handling an event keeps a running sink's invariant, or ends it. *)
Lemma handle_event_spec draining env P max_bytes held e c file l :
  (0 ≤ max_bytes)%Z → running P max_bytes held c file l → af_compact (ee_fault env) = CompactDone → P e →
  match handle_event draining env max_bytes e c file l with
  | (c', file', l', Ok _) => ∃ held', running P max_bytes held' c' file' l'
  | (c', file', l', Err _) => ending P max_bytes (queued c') file' l'
  end.
Proof.
  intros Hmax Hr Hc Hp. unfold handle_event, require_legacy_event.
  destruct (ev_run_evidence e) eqn:Hev; [by eapply running_ending|].
  destruct (try_stream_send (ee_yielded env) (rc_stream c) e) as [[sent stream] taken] eqn:Es.
  pose proof (try_stream_send_spec _ _ _ _ _ _ Es) as Hocc. destruct Hr as [-> Hh Hsz Hd Ha Hb Hf].
  destruct Hb as [Hacc Hack Hun Hleg]. destruct sent.
  { exists held. split; simpl; try done; [by rewrite app_nil_r|]. split; simpl; try done; [|by constructor].
    intros x. specialize (Hacc x). specialize (Hocc x). simpl in *. rewrite !occ_app. unfold queued in *. simpl in *. lia. }
  destruct (lose_stream draining env (with_stream stream c)) as [[c1 tk] ab] eqn:El.
  destruct (lose_stream_spec _ _ _ _ _ _ El) as (Hs1 & Hq & Hsz1 & Hd1 & Ha1). unfold queued in *. simpl in *.
  set (l1 := note_streams tk ab [] (note_streams taken [] [] l)).
  assert (Hb1 : books l1 [] held).
  { split; simpl; try done. intros x. specialize (Hacc x). specialize (Hocc x). rewrite Hq in Hocc.
    simpl. rewrite !occ_app in *. simpl. lia. }
  pose proof (append_spec P max_bytes held e (ee_fault env) l1 [] Hmax Hh Hb1 Hf Hc Hev Hp) as Happ. cbv zeta in Happ.
  rewrite Hsz1, Hsz. destruct (buffer_append _ _ _ _ _) as [file' [[size dropped]|]].
  - destruct Happ as (-> & -> & held' & -> & Hh' & Hb' & Hf'). exists held'. split; simpl; try done.
    + rewrite Hd1, Hd, length_app. unfold l1. simpl. lia.
    + rewrite Ha1, Hq. unfold l1. simpl. rewrite !app_nil_r, !length_app. lia.
    + unfold queued. simpl. by rewrite Hs1.
  - by rewrite Hs1.
Qed.

(** ** The invariant of a sink *)

Definition grpc_inv (P : ExecutionEvent → Prop) (max_bytes : Z) (s : GrpcState) : Prop :=
  gs_max_bytes s = max_bytes ∧
  match gs_ctx s with
  | Some c => ∃ held, running P max_bytes held c (gs_file s) (gs_ledger s)
  | None => ending P max_bytes [] (gs_file s) (gs_ledger s)
  end.

Lemma sink_ends_inv P max_bytes c file l s :
  gs_max_bytes s = max_bytes → ending P max_bytes (queued c) file l → grpc_inv P max_bytes (sink_ends c file l s).
Proof.
  intros Hm (held & torn & -> & Hh & Ht & [Hacc Hack Hun Hleg] & Hf). split; [done|]. simpl. exists held, torn.
  split_and!; try done. split; simpl; try done. intros x. specialize (Hacc x). simpl. rewrite !occ_app. simpl. lia.
Qed.

Lemma sink_continues_inv P max_bytes held c file l s :
  gs_max_bytes s = max_bytes → running P max_bytes held c file l → grpc_inv P max_bytes (sink_continues c file l s).
Proof. intros Hm Hr. split; [done|]. by exists held. Qed.

Lemma drain_inv_grpc P max_bytes events : ∀ held c file l s,
  (0 ≤ max_bytes)%Z → gs_max_bytes s = max_bytes → running P max_bytes held c file l →
  Forall (λ x, af_compact (ee_fault x.2) = CompactDone) events → Forall P events.*1 →
  grpc_inv P max_bytes (drain_events events c file l s).
Proof.
  induction events as [|[e env] events IH]; intros held c file l s Hmax Hm Hr Hc HP; simpl.
  { apply sink_ends_inv; [done|]. by eapply running_ending. }
  apply Forall_cons in Hc as [Hc1 Hc]. apply Forall_cons in HP as [HP1 HP]. rewrite Hm.
  pose proof (handle_event_spec true env P max_bytes held e c file l Hmax Hr Hc1 HP1) as Hh.
  destruct (handle_event true env max_bytes e c file l) as [[[c' file'] l'] [[]|]].
  - destruct Hh as [held' Hr']. by eapply IH.
  - by apply sink_ends_inv.
Qed.

(** An unfinished beginning of a line is not a whole line. *)
Lemma substring_all k s : (String.length s ≤ k)%nat → String.substring 0 k s = s.
Proof. revert k. induction s as [|a s IH]; intros [|k] Hk; simpl in *; try done; [lia|]. by rewrite IH by lia. Qed.

Lemma substring_app_short k s t : (k ≤ String.length s)%nat → String.substring 0 k (s +:+ t) = String.substring 0 k s.
Proof.
  revert k. induction s as [|a s IH]; intros [|k] Hk; simpl in *; try done; try lia; [by destruct t|].
  f_equal. apply IH. lia.
Qed.

Lemma substring_no_char c k s : contains_char c s = false → contains_char c (String.substring 0 k s) = false.
Proof.
  revert k. induction s as [|a s IH]; intros [|k]; simpl; try done. intros [Ha Hs]%orb_false_iff. rewrite Ha. by apply IH.
Qed.

Lemma no_lf_unfinished s : contains_char LF s = false → ends_with_lf s = false.
Proof.
  induction s as [|a s IH]; [done|]. simpl. intros [Ha Hs]%orb_false_iff. destruct (decide (s = "")) as [->|Hne].
  - unfold ends_with_lf. simpl. by rewrite Ha.
  - rewrite ends_with_lf_cons by done. by apply IH.
Qed.

Lemma finished_torn held e k :
  serializes e → whole_lines (lines_text held +:+ String.substring 0 k (event_line e)) →
  String.substring 0 k (event_line e) = "" ∨ String.substring 0 k (event_line e) = event_line e.
Proof.
  intros [j Hj]. unfold event_line. rewrite Hj. simpl. intros Hw.
  destruct (json_one_line e j Hj) as [Hl _].
  destruct (decide (k ≤ String.length j)%nat) as [Hk|Hk].
  - left. rewrite substring_app_short in * by done. destruct (decide (String.substring 0 k j = "")) as [?|Hne]; [done|exfalso].
    destruct Hw as [Hw|Hw].
    + apply Hne. by destruct (lines_text held).
    + rewrite ends_with_lf_app in Hw by done. by rewrite no_lf_unfinished in Hw by (by apply substring_no_char).
  - right. apply substring_all. rewrite str_length_app. simpl. lia.
Qed.

Lemma start_inv P max_bytes now s c :
  grpc_inv P max_bytes s → gs_ctx s = None → whole_lines (gs_file s) → init_ctx now true (gs_file s) = Ok c →
  grpc_inv P max_bytes (sink_continues c (gs_file s) (note_start (gs_ledger s)) s).
Proof.
  intros [Hm Hi] Hn Hw Hc. rewrite Hn in Hi. destruct Hi as (held & torn & Hfile & Hh & Ht & Hb & Hf).
  assert (∃ held', gs_file s = lines_text held' ∧ Forall (kept P) held' ∧ books (gs_ledger s) [] held') as (held' & E & Hh' & Hb').
  { destruct Ht as [->|(e & k & Hk & ->)]; [exists held; rewrite str_app_nil_r in Hfile; by split|].
    rewrite Hfile in Hw. destruct (finished_torn held e k (proj1 Hk) Hw) as [E|E]; rewrite E in Hfile.
    - exists held. rewrite str_app_nil_r in Hfile. by split.
    - exists (held ++ [e])%list. rewrite lines_text_app. unfold lines_text at 2. simpl. rewrite str_app_nil_r.
      split; [done|]. split; [apply Forall_app; split; [done|by constructor]|].
      destruct Hb as [Hacc Hack Hun Hleg]. split; try done. intros x. specialize (Hacc x). rewrite occ_app. lia. }
  apply (sink_continues_inv P max_bytes held'); [done|].
  unfold init_ctx in Hc. destruct (forallb _ _); [|done]. injection Hc as <-. split; simpl; try done.
  destruct Hb' as [Hacc Hack Hun Hleg]. split; simpl; try done. intros x. specialize (Hacc x). simpl. rewrite !occ_app. simpl in *. lia.
Qed.

Lemma replay_acknowledged_spec env held file' events n :
  Forall serializes held → ce_read_ok env = true → ce_truncate_ok env = true →
  replay_acknowledged env (lines_text held) = Some (file', (events, n)) →
  file' = "" ∧ events = held ∧ (Z.of_nat (length events) ≤ n)%Z.
Proof.
  intros Hs Hr Ht. unfold replay_acknowledged. rewrite Hr, Ht, buffer_read_held by done.
  destruct (negb (ce_replay_opens env)); [done|]. destruct (negb (forallb _ _)); [done|].
  destruct (ce_ack env) as [k|]; [|done]. destruct (replay_is_complete k (length held)) eqn:E; [|done].
  intros [= <- <- <-]. unfold replay_is_complete in E. apply andb_true_iff in E as [_ E]. apply Z.leb_le in E. done.
Qed.

Lemma connect_inv P max_bytes env held c file l c' file' batch :
  running P max_bytes held c file l → rc_stream c = None → (0 ≤ max_bytes)%Z →
  ce_read_ok env = true → ce_truncate_ok env = true →
  attempt_reconnect env file c = (c', file', batch) →
  ∃ held', running P max_bytes held' c' file' (match batch with Some b => note_batch b l | None => l end).
Proof.
  intros Hr Hns Hmax Hro Hto. unfold attempt_reconnect.
  destruct (reconnect env file (rc_buffer_size c)) as [[[opened file1] size] b] eqn:E.
  assert (Hkeep : ∃ held', running P max_bytes held' (with_buffer size 0 c) file1 (match b with Some b => note_batch b l | None => l end)).
  { destruct Hr as [-> Hh Hsz Hd Ha [Hacc Hack Hun Hleg] Hf]. unfold reconnect in E. rewrite Hsz in E.
    destruct (0 <? zlen (lines_text held))%Z.
    - destruct (replay_acknowledged env (lines_text held)) as [[file2 [events n]]|] eqn:Er.
      + destruct (replay_acknowledged_spec _ _ _ _ _ (kept_serializes _ _ Hh) Hro Hto Er) as (-> & -> & Hn).
        injection E as <- <- <- <-. exists []. split; simpl; try done; [lia| |].
        * split; simpl; try done; [|apply Forall_app; split; [done|by constructor]].
          intros x. specialize (Hacc x). cbn [lg_acknowledged note_batch lg_handled lg_taken lg_abandoned lg_left lg_past lg_evicted lg_unserializable]. rewrite fmap_app, concat_app, occ_app. simpl. rewrite app_nil_r. unfold queued in *. simpl in *. lia.
        * intros M HM. change (zlen "") with 0%Z. lia.
      + injection E as <- <- <- <-. exists held. split; simpl; try done. lia.
    - injection E as <- <- <- <-. exists held. split; simpl; try done. lia. }
  destruct Hkeep as (held' & [Hf1 Hh1 Hsz1 Hd1 Ha1 Hb1 Hbd1]).
  destruct opened; intros [= <- <- <-]; exists held'; split; try done.
  unfold queued in *. simpl in *. by rewrite Hns in Hb1.
Qed.

Lemma grpc_step_inv P max_bytes t s :
  (0 ≤ max_bytes)%Z → grpc_inv P max_bytes s → disk_sound t s → Forall P (step_events t) →
  grpc_inv P max_bytes (grpc_step t s).
Proof.
  intros Hmax Hi Hd HP. pose proof Hi as [Hm Hc]. unfold grpc_step.
  destruct t as [now ro|e env|env|n closes|events|]; destruct (gs_ctx s) as [c|] eqn:Ec; try done.
  - destruct Hd as [-> Hw]. destruct (init_ctx now true (gs_file s)) as [c|] eqn:E; [|done]. by apply (start_inv P max_bytes now s c).
  - destruct Hc as [held Hr]. apply Forall_cons in HP as [HP _]. rewrite Hm.
    pose proof (handle_event_spec false env P max_bytes held e c _ _ Hmax Hr Hd HP) as Hh.
    destruct (handle_event false env max_bytes e c (gs_file s) (gs_ledger s)) as [[[c' file'] l'] [[]|]].
    + destruct Hh as [held' Hr']. by eapply sink_continues_inv.
    + by apply sink_ends_inv.
  - destruct Hc as [held Hr]. destruct Hd as [Hro Hto]. destruct (rc_stream c) eqn:Es; [done|].
    destruct (rc_reconnect_at c <=? ce_started env)%Z; [|done].
    destruct (attempt_reconnect env (gs_file s) c) as [[c' file'] batch] eqn:Ea. rewrite Hto.
    destruct (connect_inv P max_bytes env held c _ _ c' file' batch Hr Es Hmax Hro Hto Ea) as [held' Hr'].
    by apply (sink_continues_inv P max_bytes held').
  - destruct Hc as [held Hr]. destruct (rc_stream c) as [st|] eqn:Es; [|done]. simpl.
    apply (sink_continues_inv P max_bytes held); [done|]. destruct Hr as [Hf Hh Hsz Hdr Ha [Hacc Hack Hun Hleg] Hb].
    split; simpl; rewrite ?app_nil_r; try done. split; simpl; try done. intros x. specialize (Hacc x). unfold queued in *.
    rewrite Es in Hacc. simpl in *. rewrite !occ_app. rewrite (occ_take_drop x n (st_queue st)) in Hacc. simpl. lia.
  - destruct Hc as [held Hr]. by eapply drain_inv_grpc.
  - destruct Hc as [held Hr]. apply sink_ends_inv; [done|]. by eapply running_ending.
Qed.

Lemma grpc_reachable_inv P max_bytes s : (0 ≤ max_bytes)%Z → grpc_reachable P max_bytes s → grpc_inv P max_bytes s.
Proof.
  intros Hmax. induction 1 as [|t s _ IH Hd HP]; [|by apply grpc_step_inv].
  split; [done|]. exists [], "". split_and!; [done|constructor|by left| |].
  - split; [intros x; simpl; lia|constructor..].
  - intros M HM. change (zlen (gs_file (grpc_initial max_bytes))) with 0%Z. lia.
Qed.

(** ** Properties *)


(** The buffer file is bounded: when every event's line is at most [M] bytes,
    the file never exceeds the larger of the configured maximum and half of it
    (or one line) plus one line; so with lines of at most half the maximum it
    never exceeds the maximum, in any run and after any failed append. *)
Theorem grpc_buffer_bounded P max_bytes M s :
  (0 ≤ max_bytes)%Z → (∀ e, P e → zlen (event_line e) ≤ M)%Z → grpc_reachable P max_bytes s →
  (zlen (gs_file s) ≤ Z.max max_bytes (Z.max (max_bytes / 2) M + M))%Z ∧
  (M ≤ max_bytes / 2 → zlen (gs_file s) ≤ max_bytes)%Z.
Proof.
  intros Hmax HM Hr. destruct (grpc_reachable_inv _ _ _ Hmax Hr) as [_ Hi].
  assert (Hb : (zlen (gs_file s) ≤ Z.max max_bytes (Z.max (max_bytes / 2) M + M))%Z).
  { destruct (gs_ctx s) as [c|]; [destruct Hi as (held & [_ _ _ _ _ _ Hb])|destruct Hi as (held & torn & _ & _ & _ & _ & Hb)]; by apply Hb. }
  split; [done|]. intros Hle. pose proof (Z.mul_div_le max_bytes 2 ltac:(lia)). lia.
Qed.

(** ** Pacing *)

(** The least time between two attempts: the shortest jittered delay. *)
Definition MIN_SPACING : Z := 212499999.

Fixpoint spaced (times : list Z) : Prop :=
  match times with
  | later :: ((earlier :: _) as rest) => (earlier + MIN_SPACING ≤ later)%Z ∧ spaced rest
  | _ => True
  end.

Definition attempts (env : ReconnectEnv) (s : GrpcState) : bool :=
  match gs_ctx s with
  | Some c => bool_decide (rc_stream c = None) && (rc_reconnect_at c <=? ce_started env)%Z
  | None => false
  end.

(** Runs with a monotone clock, and the times of the connect attempts of the running
    process, the latest first; the disk may fail in any way. *)
Inductive timeline : Z → list Z → GrpcState → Prop :=
| tl_init max_bytes now : timeline now [] (grpc_initial max_bytes)
| tl_start now times s now' ro :
    timeline now times s → (now ≤ now')%Z → gs_ctx s = None → timeline now' [] (grpc_step (SinkStarts now' ro) s)
| tl_event now times s e env :
    timeline now times s → (now ≤ ee_now env)%Z → jitter_within (ee_jitter env) →
    timeline (ee_now env) times (grpc_step (SinkReceives e env) s)
| tl_connect now times s env :
    timeline now times s → (now ≤ ce_started env ≤ ce_finished env)%Z → jitter_within (ce_jitter env) →
    timeline (ce_finished env) (if attempts env s then ce_started env :: times else times) (grpc_step (SinkConnects env) s)
| tl_rpc now times s n closes : timeline now times s → timeline now times (grpc_step (RpcWorks n closes) s)
| tl_cancel now times s events : timeline now times s → timeline now times (grpc_step (SinkCancelled events) s)
| tl_kill now times s : timeline now times s → timeline now times (grpc_step SinkKilled s).

Definition backoff_ok (b : ExponentialBackoff) : Prop :=
  bo_min b = RECONNECT_MIN_BACKOFF ∧ bo_max b = RECONNECT_MAX_BACKOFF ∧
  (RECONNECT_MIN_BACKOFF ≤ bo_current b ≤ RECONNECT_MAX_BACKOFF)%Z.

Lemma backoff_next_ok j b :
  backoff_ok b → jitter_within j → (MIN_SPACING ≤ fst (backoff_next j b))%Z ∧ backoff_ok (snd (backoff_next j b)).
Proof.
  intros (Hmin & Hmax & Hc) Hj. unfold backoff_next, backoff_ok. simpl. rewrite Hmin, Hmax.
  specialize (Hj (Z.min (bo_current b) RECONNECT_MAX_BACKOFF)). unfold MIN_SPACING, RECONNECT_MIN_BACKOFF, RECONNECT_MAX_BACKOFF in *.
  split; [lia|]. split; [done|]. split; [done|]. lia.
Qed.

(** What pacing keeps of a running sink. *)
Definition paced (now : Z) (times : list Z) (c : RunCtx) : Prop :=
  backoff_ok (rc_backoff c) ∧
  match rc_stream c, times with
  | None, [] => True
  | None, t :: _ => (t ≤ now)%Z ∧ (t + MIN_SPACING ≤ rc_reconnect_at c)%Z
  | Some _, [] => False
  | Some _, t :: _ => (t ≤ now)%Z ∧ ∃ o, rc_stream_opened_at c = Some o ∧ (t ≤ o)%Z
  end.

Lemma schedule_paced now t j c :
  (t ≤ now)%Z → backoff_ok (rc_backoff c) → jitter_within j → (∀ o, rc_stream_opened_at c = Some o → (t ≤ o)%Z) →
  let c' := schedule_reconnect_after_loss now j c in
  backoff_ok (rc_backoff c') ∧ (t + MIN_SPACING ≤ rc_reconnect_at c')%Z.
Proof.
  intros Ht Hb Hj Ho. unfold schedule_reconnect_after_loss. cbv zeta.
  destruct (rc_stream_opened_at c) as [o|]; [destruct (HEALTHY_STREAM_LIFETIME <=? now - o)%Z eqn:E|].
  - simpl. split; [destruct Hb as (H1 & H2 & H3); split_and!; try done; simpl; rewrite H1; unfold RECONNECT_MIN_BACKOFF, RECONNECT_MAX_BACKOFF; lia|].
    apply Z.leb_le in E. specialize (Ho o eq_refl). unfold HEALTHY_STREAM_LIFETIME, MIN_SPACING in *. lia.
  - destruct (backoff_next_ok j _ Hb Hj) as [Hd Hb']. destruct (backoff_next j (rc_backoff c)) as [d b]. simpl in *. split; [done|lia].
  - destruct (backoff_next_ok j _ Hb Hj) as [Hd Hb']. destruct (backoff_next j (rc_backoff c)) as [d b]. simpl in *. split; [done|lia].
Qed.

Lemma handle_event_paced now times env max_bytes e c file l c' file' l' u :
  paced now times c → (now ≤ ee_now env)%Z → jitter_within (ee_jitter env) →
  handle_event false env max_bytes e c file l = (c', file', l', Ok u) → paced (ee_now env) times c'.
Proof.
  intros [Hb Hp] Hn Hj. unfold handle_event. destruct (require_legacy_event e); [|done].
  destruct (try_stream_send (ee_yielded env) (rc_stream c) e) as [[sent stream] taken] eqn:Es.
  assert (Hst : stream = None ↔ rc_stream c = None).
  { unfold try_stream_send in Es. destruct (rc_stream c) as [st|]; [|by simplify_eq].
    destruct (try_send st e); simpl in Es; [|destruct (try_send _ e)|]; simplify_eq; split; done. }
  destruct sent.
  - intros [= <- <- <- _]. split; [done|]. simpl. destruct stream as [st'|], (rc_stream c) as [st|], times as [|t times]; try done; try (exfalso; naive_solver).
    destruct Hp. split; [lia|done].
  - destruct (lose_stream false env (with_stream stream c)) as [[c1 tk] ab] eqn:El.
    assert (Hc1 : paced (ee_now env) times c1); [|destruct (buffer_append _ _ _ _ _) as [f [[size d]|]]; intros [= <- <- <- _]; exact Hc1].
    unfold lose_stream in El. simpl in El. destruct stream as [st'|].
    + destruct (rc_stream c) as [st|]; [|exfalso; naive_solver]. destruct times as [|t times]; [done|]. destruct Hp as (Ht & o & Ho & Hto).
      injection El as <- <- <-. set (c0 := with_abandoned _ _).
      destruct (schedule_paced (ee_now env) t (ee_jitter env) c0 ltac:(lia) Hb Hj) as [Hb' Hr].
      { unfold c0. simpl. rewrite Ho. by intros ? [= <-]. }
      split; [done|]. destruct (schedule_keeps (ee_now env) (ee_jitter env) c0) as (-> & _). simpl. split; [lia|done].
    + injection El as <- <- <-. assert (E : rc_stream c = None) by (by apply Hst). rewrite E in Hp. split; [done|]. simpl.
      destruct times as [|t times]; [done|]. destruct Hp. split; [lia|done].
Qed.

Lemma attempt_paced now times env file c c' file' batch :
  paced now times c → rc_stream c = None → (rc_reconnect_at c ≤ ce_started env)%Z →
  (now ≤ ce_started env ≤ ce_finished env)%Z → jitter_within (ce_jitter env) → spaced times →
  attempt_reconnect env file c = (c', file', batch) →
  paced (ce_finished env) (ce_started env :: times) c' ∧ spaced (ce_started env :: times).
Proof.
  intros [Hb Hp] Hs Hdue Hn Hj Hsp. rewrite Hs in Hp. unfold attempt_reconnect.
  destruct (reconnect env file (rc_buffer_size c)) as [[[opened file1] size] b].
  assert (Hspaced : spaced (ce_started env :: times)).
  { destruct times as [|t times]; [done|]. destruct Hp. split; [lia|done]. }
  destruct opened.
  - intros [= <- <- <-]. split; [|done]. split; [done|]. simpl. split; [lia|]. exists (ce_finished env). split; [done|lia].
  - destruct (backoff_next_ok (ce_jitter env) _ Hb Hj) as [Hd Hb']. cbn [rc_backoff with_buffer].
    destruct (backoff_next (ce_jitter env) (rc_backoff c)) as [d b']. cbn [fst snd] in *. intros [= <- <- <-]. split; [|done].
    split; [done|]. simpl. rewrite Hs. split; [lia|]. lia.
Qed.

Lemma drain_stops events : ∀ c file l s, gs_ctx (drain_events events c file l s) = None.
Proof.
  induction events as [|[e env] events IH]; intros c file l s; [done|]. simpl.
  destruct (handle_event _ _ _ _ _ _ _) as [[[c' file'] l'] [[]|]]; [apply IH|done].
Qed.

Lemma timeline_paced now times s :
  timeline now times s → spaced times ∧ ∀ c, gs_ctx s = Some c → paced now times c.
Proof.
  induction 1 as [max_bytes now|now times s now' ro _ [IH1 IH2] Hn Hc|now times s e env _ [IH1 IH2] Hn Hj
                 |now times s env _ [IH1 IH2] Hn Hj|now times s n closes _ [IH1 IH2]|now times s events _ [IH1 IH2]|now times s _ [IH1 IH2]].
  - by split.
  - split; [done|]. unfold grpc_step. rewrite Hc. unfold init_ctx. destruct (forallb _ _); [|rewrite Hc; done].
    intros c [= <-]. split; [by split_and!|done].
  - split; [done|]. unfold grpc_step. destruct (gs_ctx s) as [c|] eqn:Ec; [|by rewrite Ec].
    destruct (handle_event _ _ _ _ _ _ _) as [[[c' file'] l'] [u|]] eqn:E; [|done]. intros c0 [= <-].
    eapply handle_event_paced; [by apply IH2|done|done|exact E].
  - unfold grpc_step, attempts. destruct (gs_ctx s) as [c|] eqn:Ec; [|by rewrite Ec].
    destruct (rc_stream c) as [st|] eqn:Es.
    + rewrite bool_decide_eq_false_2 by done. simpl. split; [done|]. rewrite Ec. intros c0 [= <-].
      destruct (IH2 c eq_refl) as [Hb Hp]. split; [done|]. rewrite Es in *. destruct times; [done|]. destruct Hp. split; [lia|done].
    + rewrite bool_decide_eq_true_2 by done. simpl. destruct (rc_reconnect_at c <=? ce_started env)%Z eqn:E.
      * destruct (attempt_reconnect env (gs_file s) c) as [[c' file'] batch] eqn:Ea. apply Z.leb_le in E.
        destruct (attempt_paced now times env _ c c' file' batch (IH2 c eq_refl) Es E Hn Hj IH1 Ea) as [Hp Hsp].
        split; [done|]. by intros c0 [= <-].
      * split; [done|]. rewrite Ec. intros c0 [= <-]. destruct (IH2 c eq_refl) as [Hb Hp]. split; [done|]. rewrite Es in *.
        destruct times; [done|]. destruct Hp. split; [lia|done].
  - split; [done|]. unfold grpc_step. destruct (gs_ctx s) as [c|] eqn:Ec; [|by rewrite Ec].
    destruct (rc_stream c) as [st|] eqn:Es; [|rewrite Ec; exact IH2]. simpl. intros c0 [= <-].
    destruct (IH2 c eq_refl) as [Hb Hp]. rewrite Es in Hp. by split.
  - split; [done|]. unfold grpc_step. destruct (gs_ctx s) as [c|] eqn:Ec; [|by rewrite Ec]. by rewrite drain_stops.
  - split; [done|]. unfold grpc_step. destruct (gs_ctx s) as [c|] eqn:Ec; [done|by rewrite Ec].
Qed.

(** Redialing is paced whatever the collector does: with a monotone clock, two
    consecutive connect attempts of one process start at least 85% of the minimum
    backoff apart, also when every stream opens and breaks at once, since only a
    stream that lived ten seconds is redialed without delay. *)
Theorem reconnects_paced now times s : timeline now times s → spaced times.
Proof. intros H. by apply timeline_paced in H as [? _]. Qed.

End Grpc.

(** ** Samples *)

Module Samples.

Definition first : ExecutionEvent := AuditEvent.Samples.honest.
Definition second : ExecutionEvent := set_signature "other" first.

(** The text of the second event has a character of two bytes. *)
Definition text1 : string := "{1}".
Definition text2 : string := String "123"%char (String "195"%char (String "169"%char "}")).

(** A codec of two events; the other values are not used. *)
#[local] Instance codec : WalJson := {|
  event_to_json e := if decide (e = first) then Some text1 else if decide (e = second) then Some text2 else None;
  event_of_json s := if decide (s = text1) then Some first else if decide (s = text2) then Some second else None;
  scope_to_json _ := "";
  scope_of_json _ := None;
  archive_entry r _ _ := r;
|}.

#[local] Instance codec_laws : EventJsonLaws.
Proof.
  assert (Hne : second ≠ first) by (intros E; apply (f_equal ev_signature) in E; vm_compute in E; discriminate E).
  split; intros e j; simpl; (destruct (decide (e = first)) as [->|]; [intros [= <-]|
    destruct (decide (e = second)) as [->|]; [intros [= <-]|done]]); try (split; reflexivity); reflexivity.
Qed.

Definition no_fault : AppendFault := {| af_compact := CompactDone; af_cut := None |}.
Definition event_env (now : Z) (fault : AppendFault) : EventEnv :=
  {| ee_now := now; ee_jitter := id; ee_yielded := (0%nat, false); ee_drained := 0; ee_fault := fault |}.
Definition connect_env (now : Z) (read_ok : bool) (acknowledged : Z) (opens : bool) : ReconnectEnv :=
  {| ce_started := now; ce_finished := now; ce_replay_opens := true; ce_read_ok := read_ok; ce_sends := λ _, true;
     ce_ack := Acknowledged acknowledged; ce_truncate_ok := true; ce_stream_opens := opens; ce_jitter := id |}.

Definition steps (l : list GrpcStep) (s : GrpcState) : GrpcState := foldl (flip grpc_step) s l.

Lemma grpc_steps_reachable P max_bytes l : ∀ s,
  grpc_reachable P max_bytes s →
  (∀ n t, l !! n = Some t → disk_sound t (steps (take n l) s) ∧ Forall P (step_events t)) →
  grpc_reachable P max_bytes (steps l s).
Proof.
  induction l as [|t l IH]; intros s Hs Hl; [done|]. simpl. apply IH.
  - destruct (Hl 0%nat t eq_refl) as [Hd HP]. by apply grpc_reach_step.
  - intros n u Hn. exact (Hl (S n) u Hn).
Qed.





(** Three events in a buffer of ten bytes: the oldest is evicted. *)
Definition known (e : ExecutionEvent) : Prop := e = first ∨ e = second.
Definition full : GrpcState :=
  steps [SinkStarts 0 true; SinkReceives first (event_env 1 no_fault); SinkReceives second (event_env 1 no_fault);
         SinkReceives first (event_env 1 no_fault)] (grpc_initial 10).

Lemma full_reachable : grpc_reachable known 10 full.
Proof.
  apply grpc_steps_reachable; [constructor|]. intros [|[|[|[|n]]]] t Ht; try discriminate Ht; injection Ht as <-; split; try (by repeat constructor);
    try (left; reflexivity); (apply Forall_cons; split; [|constructor]); ((left; reflexivity) || (right; reflexivity)).
Qed.

Lemma known_lines e : known e → (zlen (event_line e) ≤ 5)%Z.
Proof. intros [->| ->]; vm_compute; discriminate. Qed.

Lemma grpc_buffer_bounded_witness :
  gs_file full = text2 +:+ String LF "" +:+ text1 +:+ String LF "" ∧
  lg_evicted (gs_ledger full) = [first] ∧ (zlen (gs_file full) ≤ 10)%Z.
Proof.
  split; [vm_compute; reflexivity|]. split; [vm_compute; reflexivity|].
  apply (grpc_buffer_bounded known 10 5 full).
  - vm_compute. discriminate.
  - exact known_lines.
  - exact full_reachable.
  - vm_compute. discriminate.
Defined.

(** A collector that refuses is redialed after the backoff. *)
Lemma id_jitter : jitter_within id.
Proof. intros base Hb. unfold id. lia. Qed.

Definition refused (now : Z) : ReconnectEnv := connect_env now true 0 false.

Lemma reconnects_paced_witness :
  timeline 250000000 [250000000; 0]%Z (steps [SinkStarts 0 true; SinkConnects (refused 0); SinkConnects (refused 250000000)] (grpc_initial 10)) ∧
  spaced [250000000; 0]%Z.
Proof.
  assert (H : timeline 250000000 [250000000; 0]%Z
    (steps [SinkStarts 0 true; SinkConnects (refused 0); SinkConnects (refused 250000000)] (grpc_initial 10))).
  { apply (tl_connect 0 [0%Z] (steps [SinkStarts 0 true; SinkConnects (refused 0)] (grpc_initial 10)) (refused 250000000)); [|split; vm_compute; discriminate|exact id_jitter].
    apply (tl_connect 0 [] (steps [SinkStarts 0 true] (grpc_initial 10)) (refused 0)); [|split; vm_compute; discriminate|exact id_jitter].
    apply (tl_start 0 [] (grpc_initial 10) 0 true); [constructor|vm_compute; discriminate|reflexivity]. }
  split; [exact H|]. exact (reconnects_paced _ _ _ H).
Defined.

(** ** What the disk can still lose *)

(** An append that stops inside a character leaves a buffer that is not UTF-8: after
    a restart it reads as empty, a replay of nothing is acknowledged, and the
    buffer with the earlier event is cleared. *)
Definition cut_character : GrpcState :=
  steps [SinkStarts 0 true; SinkReceives first (event_env 1 no_fault);
         SinkReceives second (event_env 2 {| af_compact := CompactDone; af_cut := Some 2%nat |});
         SinkStarts 3 true; SinkConnects (connect_env 4 true 0 true)] (grpc_initial 100).

Lemma unreadable_buffer_cleared :
  lg_handled (gs_ledger cut_character) = [first] ∧ gs_file cut_character = "" ∧
  lg_acknowledged (gs_ledger cut_character) = [([], 0%Z)] ∧ ¬ accounted (gs_ledger cut_character) [] [].
Proof.
  split_and!; [vm_compute; reflexivity..|]. intros H. specialize (H first). vm_compute in H. lia.
Qed.

(** An unfinished line swallows the next event after a restart, and the replay that
    skips it is acknowledged. *)
Definition torn_tail : GrpcState :=
  steps [SinkStarts 0 true; SinkReceives first (event_env 1 {| af_compact := CompactDone; af_cut := Some 2%nat |});
         SinkStarts 3 true; SinkReceives second (event_env 4 no_fault); SinkConnects (connect_env 5 true 0 true)]
    (grpc_initial 100).

Lemma torn_tail_swallows_next :
  lg_handled (gs_ledger torn_tail) = [second] ∧ gs_file torn_tail = "" ∧ ¬ accounted (gs_ledger torn_tail) [] [].
Proof.
  split_and!; [vm_compute; reflexivity..|]. intros H. specialize (H second). vm_compute in H. lia.
Qed.

(** A compaction whose rewrite fails loses the events it meant to keep; the append
    goes on and the counter has only the evicted one. *)
Definition cut_compaction : GrpcState :=
  steps [SinkStarts 0 true; SinkReceives first (event_env 1 no_fault); SinkReceives second (event_env 1 no_fault);
         SinkReceives first (event_env 1 {| af_compact := CompactCut 0; af_cut := None |})] (grpc_initial 10).

Lemma failed_compaction_goes_on :
  match gs_ctx cut_compaction with
  | Some c => rc_total_dropped c = 1%Z ∧ gs_file cut_compaction = text1 +:+ String LF "" ∧
      ¬ accounted (gs_ledger cut_compaction) (queued c) [first]
  | None => False
  end.
Proof. vm_compute. split; [reflexivity|]. split; [reflexivity|]. intros H. specialize (H second). vm_compute in H. lia. Qed.

End Samples.
