(* ===== verification/RustPath.v ===== *)
(** * Paths ([std::path], [firma-fs])

    A [Path] is the list of its components, which is what [Path]'s equality,
    order, [starts_with] and [strip_prefix] compare on Unix: repeated separators
    and inner [.] components do not count, a leading [.] does. *)

From S2P Require Import Prelude RustStr.
From stdpp Require Import sorting.

#[local] Open Scope string_scope.

Inductive Component := RootDir | CurDir | ParentDir | Normal (name : string).

#[export] Instance component_eq_dec : EqDecision Component.
Proof. solve_decision. Defined.

#[export] Instance component_countable : Countable Component.
Proof.
  refine (inj_countable'
    (λ c, match c with RootDir => inl 0%nat | CurDir => inl 1%nat | ParentDir => inl 2%nat | Normal s => inr s end)
    (λ x, match x with inl 0%nat => RootDir | inl 1%nat => CurDir | inl _ => ParentDir | inr s => Normal s end) _).
  by intros [].
Defined.

Definition Path := list Component.

(** [Path::components] of a text. *)
Definition segment (s : string) : option Component :=
  if decide (s = "") then None
  else if decide (s = ".") then None
  else if decide (s = "..") then Some ParentDir
  else Some (Normal s).

Definition path_of (s : string) : Path :=
  let segments := split_char "/"%char s in
  let head := match segments with
              | "" :: _ :: _ => [RootDir]
              | "." :: _ => [CurDir]
              | _ => []
              end in
  (head ++ omap segment segments)%list.

Definition path_root : Path := [RootDir].

Definition path_is_absolute (p : Path) : bool :=
  match p with RootDir :: _ => true | _ => false end.

(** [Path::join]. *)
Definition path_join (p q : Path) : Path :=
  if path_is_absolute q then q
  else if decide (p = []) then q
  else (p ++ filter (λ c, c ≠ CurDir) q)%list.

(** [Path::starts_with] and [Path::strip_prefix]. *)
Fixpoint path_strip_prefix (p base : Path) {struct base} : option Path :=
  match base, p with
  | [], _ => Some p
  | c :: base, d :: p => if decide (c = d) then path_strip_prefix p base else None
  | _ :: _, [] => None
  end.

Definition path_starts_with (p base : Path) : bool := bool_decide (is_Some (path_strip_prefix p base)).

(** [Path::file_name] and [Path::parent]. *)
Definition path_file_name (p : Path) : option string :=
  match last p with Some (Normal s) => Some s | _ => None end.

Definition path_parent (p : Path) : option Path :=
  match last p with
  | Some RootDir | None => None
  | Some _ => Some (removelast p)
  end.

(** [Path::ancestors]: the path and its parents. *)
Fixpoint ancestors_upto (n : nat) (p : Path) : list Path :=
  match n with
  | O => []
  | S n => p :: match path_parent p with Some q => ancestors_upto n q | None => [] end
  end.

Definition path_ancestors (p : Path) : list Path := ancestors_upto (S (length p)) p.

(** The order of paths: component by component. *)
Definition component_rank (c : Component) : nat :=
  match c with RootDir => 0 | CurDir => 1 | ParentDir => 2 | Normal _ => 3 end.

Fixpoint str_lt (s t : string) : bool :=
  match s, t with
  | _, "" => false
  | "", _ => true
  | String a s, String b t => if decide (a = b) then str_lt s t else (byte a <? byte b)%Z
  end.

Definition component_lt (c d : Component) : bool :=
  match c, d with
  | Normal s, Normal t => str_lt s t
  | _, _ => (component_rank c <? component_rank d)%nat
  end.

Fixpoint path_lt (p q : Path) : bool :=
  match p, q with
  | _, [] => false
  | [], _ => true
  | c :: p, d :: q => if decide (c = d) then path_lt p q else component_lt c d
  end.

Definition path_le (p q : Path) : Prop := path_lt q p = false.

#[export] Instance path_le_dec p q : Decision (path_le p q).
Proof. unfold path_le. apply _. Defined.

(** [normalize_absolute_path]: [.] and [..] removed without following links. *)
Definition normalize_step (acc : Path) (c : Component) : Path :=
  match c with
  | CurDir => acc
  | ParentDir => match last acc with Some (Normal _) => removelast acc | _ => acc end
  | RootDir => [RootDir]
  | Normal _ => (acc ++ [c])%list
  end.

Definition normalize_absolute_path (p : Path) : Path := foldl normalize_step [] p.

(** [FirmaConfigCandidateAncestors] with no ceiling: the [.firma] directory of
    every ancestor, the nearest first. *)
Definition CONFIG_DIR_NAME : string := ".firma".
Definition CONFIG_FILE_NAME : string := "firma.toml".

Definition config_candidates (start : Path) : list Path :=
  (λ dir, path_join dir [Normal CONFIG_DIR_NAME]) <$> path_ancestors start.

(** ** Facts *)

(** A clean path is the root followed by names. *)
Definition is_name (c : Component) : Prop := match c with Normal _ => True | _ => False end.

Definition clean (p : Path) : Prop := ∃ names, p = RootDir :: names ∧ Forall is_name names.

Lemma strip_prefix_app base p q : path_strip_prefix p base = Some q ↔ p = (base ++ q)%list.
Proof.
  revert p. induction base as [|c base IH]; intros p; [simpl; split; congruence|].
  destruct p as [|d p]; cbn [path_strip_prefix]; [split; discriminate|].
  destruct (decide (c = d)) as [<-|Hne]; [rewrite IH; simpl; split; [intros ->; reflexivity|intros [= ->]; reflexivity]|].
  split; [done|]. simpl. congruence.
Qed.

Lemma starts_with_prefix p base : path_starts_with p base = true ↔ base `prefix_of` p.
Proof.
  unfold path_starts_with. rewrite bool_decide_eq_true. split.
  - intros [q Hq%strip_prefix_app]. by exists q.
  - intros [q ->]. exists q. by apply strip_prefix_app.
Qed.

Lemma starts_with_not_prefix p base : path_starts_with p base = false ↔ ¬ base `prefix_of` p.
Proof. rewrite <- starts_with_prefix. by destruct (path_starts_with p base). Qed.

(** Two prefixes of one path are comparable. *)
Lemma prefix_comparable (p q r : Path) : p `prefix_of` r → q `prefix_of` r → p `prefix_of` q ∨ q `prefix_of` p.
Proof. intros. by apply prefix_weak_total with r. Qed.

Lemma names_no_root l : Forall is_name l → path_is_absolute l = false.
Proof. destruct l as [|[] l]; intros H; try done. apply Forall_cons in H as [[] _]. Qed.

Lemma names_filter l : Forall is_name l → filter (λ c, c ≠ CurDir) l = l.
Proof.
  induction l as [|c l IH]; intros H; [done|]. apply Forall_cons in H as [Hc H].
  rewrite filter_cons_True by (by destruct c). by rewrite IH.
Qed.

(** Joining names appends them. *)
Lemma join_names p l : p ≠ [] → Forall is_name l → path_join p l = (p ++ l)%list.
Proof.
  intros Hp Hl. unfold path_join. rewrite names_no_root by done. rewrite decide_False by done.
  by rewrite names_filter.
Qed.

Lemma clean_app p l : clean p → Forall is_name l → clean (p ++ l)%list.
Proof. intros (names & -> & Hn) Hl. exists (names ++ l)%list. split; [done|]. by apply Forall_app. Qed.

Lemma clean_nonempty p : clean p → p ≠ [].
Proof. by intros (? & -> & _). Qed.

(** What lies below a clean path, of a clean path, are names. *)
Lemma clean_suffix p l : p ≠ [] → clean (p ++ l)%list → Forall is_name l.
Proof.
  intros Hp (names & E & Hn). destruct p as [|c p]; [done|]. simplify_eq/=. by apply Forall_app in Hn as [_ ?].
Qed.

Lemma normalize_names acc l : Forall is_name l → foldl normalize_step acc l = (acc ++ l)%list.
Proof.
  revert acc. induction l as [|c l IH]; intros acc H; [by rewrite app_nil_r|]. apply Forall_cons in H as [Hc H].
  simpl. destruct c; try done. rewrite IH by done. unfold normalize_step. by rewrite <- (app_assoc acc [Normal name] l).
Qed.

(** A clean path is normal. *)
Lemma normalize_clean p : clean p → normalize_absolute_path p = p.
Proof. intros (names & -> & Hn). unfold normalize_absolute_path. simpl. by rewrite normalize_names. Qed.

(** Normalising an absolute path makes it clean. *)
Lemma normalize_is_clean p : path_is_absolute p = true → Forall (λ c, c ≠ RootDir) (tail p) → clean (normalize_absolute_path p).
Proof.
  destruct p as [|[] p]; try done. simpl. intros _ Hp. unfold normalize_absolute_path. simpl.
  assert (Hg : ∀ acc, clean acc → Forall (λ c, c ≠ RootDir) p → clean (foldl normalize_step acc p)); [|apply Hg; [by exists []|done]].
  clear. induction p as [|c p IH]; intros acc Hacc Hp; [done|]. apply Forall_cons in Hp as [Hc Hp]. simpl.
  apply IH; [|done]. destruct c; simpl; try done.
  - destruct (last acc) as [[]|] eqn:E; try done. destruct Hacc as (names & -> & Hn).
    destruct names as [|x names _] using rev_ind; [done|]. exists names. split.
    + change (RootDir :: names ++ [x])%list with ((RootDir :: names) ++ [x])%list. by rewrite removelast_last.
    + by apply Forall_app in Hn as [? _].
  - apply clean_app; [done|]. by constructor.
Qed.

(** A parent is a prefix; the ancestors of a clean path are its prefixes. *)
Lemma parent_app p c : c ≠ RootDir → path_parent (p ++ [c])%list = Some p.
Proof.
  intros Hc. unfold path_parent. rewrite last_snoc, removelast_last. by destruct c.
Qed.
