(* ===== verification/SandboxMounts.v ===== *)
(** * The sandbox's file system ([firma-run/backend/linux_bwrap])

    The planner that turns the mounts of a launch into the ordered arguments of
    [bwrap]: the host root, the mounts of the operator and the framework, and
    the masks over configuration, login state, the control plane's runtime and
    every foreign procfs.

    What the host answers (canonical paths, file types, the mount table, the
    environment) is a record.  Paths are components ([RustPath]); error texts
    are constructors with the paths they name.  [view] says what the mounts,
    performed in order, show at a path of the sandbox. *)

From S2P Require Import Prelude RustStr RustPath.
From stdpp Require Import sorting.

#[local] Open Scope string_scope.

(** ** Data ([backend/mod.rs], [config.rs]) *)

Record MountSpec := { ms_source : Path; ms_target : Path; ms_read_only : bool }.

Inductive SandboxInfrastructureKind := Passwd | Group | ResolverConfig.

Inductive SandboxMountAuthority :=
| OperatorProvided
| Framework
| SandboxInfrastructure (kind : SandboxInfrastructureKind).

Inductive SandboxMountPlacement := Overlay | FrameworkProtectedSubpath.

#[export] Instance infrastructure_kind_eq_dec : EqDecision SandboxInfrastructureKind.
Proof. solve_decision. Defined.
#[export] Instance mount_authority_eq_dec : EqDecision SandboxMountAuthority.
Proof. solve_decision. Defined.
#[export] Instance mount_placement_eq_dec : EqDecision SandboxMountPlacement.
Proof. solve_decision. Defined.

(** A prepared mount, and one whose source has been resolved. *)
Record SandboxMount := {
  sm_spec : MountSpec;
  sm_authority : SandboxMountAuthority;
  sm_placement : SandboxMountPlacement;
}.

Definition operator_provided (spec : MountSpec) : SandboxMount :=
  {| sm_spec := spec; sm_authority := OperatorProvided; sm_placement := Overlay |}.

Definition framework (spec : MountSpec) : SandboxMount :=
  {| sm_spec := spec; sm_authority := Framework; sm_placement := Overlay |}.

Definition framework_protected_subpath (spec : MountSpec) : SandboxMount :=
  {| sm_spec := spec; sm_authority := Framework; sm_placement := FrameworkProtectedSubpath |}.

Definition sandbox_infrastructure (kind : SandboxInfrastructureKind) (source target : Path) : SandboxMount :=
  {| sm_spec := {| ms_source := source; ms_target := target; ms_read_only := true |};
     sm_authority := SandboxInfrastructure kind; sm_placement := Overlay |}.

Record SandboxHandle := {
  hd_runtime_dir : Path;
  hd_sandbox_id : string;
  hd_mounts : list SandboxMount;
  hd_enforce_network_namespace : bool;
}.

(** The launch environment in key order ([ExecutionEnv] is a [BTreeMap]). *)
Definition ExecutionEnv := list (string * string).

Fixpoint env_get (env : ExecutionEnv) (key : string) : option string :=
  match env with
  | [] => None
  | (k, v) :: env => if decide (k = key) then Some v else env_get env key
  end.

Record LaunchSpec := {
  ls_executable : string;
  ls_args : list string;
  ls_cwd : Path;
  ls_env : ExecutionEnv;
  ls_config_file : option Path;
  ls_host_connection_dir : option Path;
  ls_trust_anchor : option Path;
}.

(** ** The host *)

Inductive IoError := NotFound | OtherIo (detail : string).

Inductive FileType := FtDir | FtFile | FtOther.

Record Host := {
  ho_canonicalize : Path → Result Path IoError;
  ho_absolute : Path → Result Path string;
  ho_metadata : Path → Result FileType IoError;
  ho_symlink : Path → Result bool IoError;
  ho_home : option string;
  ho_mountinfo : Result string string;
}.

Definition ho_exists (h : Host) (p : Path) : bool := is_ok (ho_metadata h p).
Definition ho_is_file (h : Host) (p : Path) : bool := match ho_metadata h p with Ok FtFile => true | _ => false end.
Definition ho_is_symlink (h : Host) (p : Path) : bool := match ho_symlink h p with Ok b => b | Err _ => false end.

(** The reasons of [RunError::Backend]. *)
Inductive MountError :=
| ResolveFailed (description : string) (path : Path)
| SourceUnresolved (source : Path)
| InfrastructureEscapes (source runtime : Path)
| InfrastructureInvalid (kind : SandboxInfrastructureKind) (target : Path)
| SourceInControlPlane (source control : Path)
| TargetReserved (target resolved : Path)
| ProcfsSource (source : Path)
| ProtectedTargetOutside (target : Path)
| DuplicateTargets (target : Path)
| OverlappingProtected (target other : Path)
| MalformedMountinfo (line : string)
| MountinfoUnreadable (detail : string)
| ProcfsUninspectable (point alias : Path)
| CwdUnresolved (cwd : Path)
| CwdInControlPlane (cwd control : Path)
| AnchorMasked (anchor control : Path)
| ConnectionUninspectable (dir : Path)
| ConnectionSource (source dir : Path)
| ConnectionOverlap (dir mounted : Path)
| SymlinkedConfigDir (dir : Path)
| ConfigDirUninspectable (dir : Path).

(** ** The runtime layout ([firma-runtime-state/runtime_paths.rs]) *)

Definition CA_DIR_NAME : string := "firma-ca".
Definition CA_CERT_FILE_NAME : string := "firma-ca.crt".
Definition CA_BUNDLE_FILE_NAME : string := "firma-ca-bundle.crt".
Definition CA_KEY_FILE_NAME : string := "firma-ca.key".
Definition GENERATED_CA_DIR_NAME : string := "generated-firma-ca".
Definition RUN_DIR_NAME : string := "run".

Definition run_entry (root : Path) (sandbox_id : string) : Path :=
  path_join (path_join root [Normal RUN_DIR_NAME]) [Normal sandbox_id].
Definition ca_dir (entry : Path) : Path := path_join entry [Normal CA_DIR_NAME].
Definition generated_ca_dir (root : Path) : Path := path_join root [Normal GENERATED_CA_DIR_NAME].

(** The public CA files of a run and of a long-lived Sidecar, in order, by path: a
    link at one of these paths and its target are not told apart. *)
Definition ca_material (root : Path) (sandbox_id : string) : list Path :=
  let entry := ca_dir (run_entry root sandbox_id) in
  let generated := generated_ca_dir root in
  [path_join entry [Normal CA_CERT_FILE_NAME]; path_join entry [Normal CA_BUNDLE_FILE_NAME];
   path_join generated [Normal CA_CERT_FILE_NAME]; path_join generated [Normal CA_BUNDLE_FILE_NAME]].

(** The private keys beside them. *)
Definition ca_keys (root : Path) (sandbox_id : string) : list Path :=
  [path_join (ca_dir (run_entry root sandbox_id)) [Normal CA_KEY_FILE_NAME];
   path_join (generated_ca_dir root) [Normal CA_KEY_FILE_NAME]].

(** ** Hardening *)

Record BwrapHardening := {
  bh_readonly_rootfs : bool;
  bh_runtime_home_isolation : bool;
  bh_mask_home_paths : list string;
}.

Definition parse_truthy (value : string) : bool :=
  bool_decide (to_ascii_lowercase (trim value) ∈ ["1"; "true"; "yes"; "on"]).

(** [BwrapHardening::from_env]. *)
Definition hardening_from_env (env : ExecutionEnv) : BwrapHardening :=
  {| bh_readonly_rootfs :=
       match env_get env "FIRMA_RUN_BWRAP_ROOTFS_MODE" with
       | Some mode => bool_decide (mode = "readonly")
       | None => false
       end;
     bh_runtime_home_isolation :=
       match env_get env "FIRMA_RUN_BWRAP_RUNTIME_HOME" with Some v => parse_truthy v | None => false end;
     bh_mask_home_paths :=
       match env_get env "FIRMA_RUN_BWRAP_MASK_HOME_PATHS" with
       | None => []
       | Some raw => filter (λ item, item ≠ "") (trim <$> split_char ","%char raw)
       end |}.

(** ** Plans *)

Inductive BwrapPlanRole := RLayout | ROperatorProvided | RFramework | RSandboxInfrastructure | RMask.

#[export] Instance plan_role_eq_dec : EqDecision BwrapPlanRole.
Proof. solve_decision. Defined.

Inductive BwrapPlanStep :=
| Bind (role : BwrapPlanRole) (source target : Path) (read_only : bool)
| Tmpfs (role : BwrapPlanRole) (target : Path)
| Dev (role : BwrapPlanRole) (target : Path)
| Proc (role : BwrapPlanRole) (target : Path).

#[export] Instance plan_step_eq_dec : EqDecision BwrapPlanStep.
Proof. solve_decision. Defined.

Definition step_target (s : BwrapPlanStep) : Path :=
  match s with Bind _ _ t _ | Tmpfs _ t | Dev _ t | Proc _ t => t end.

Definition BwrapMountPhase := list BwrapPlanStep.

Record BwrapMountPlan := {
  pl_layout : BwrapMountPhase;
  pl_overlays : BwrapMountPhase;
  pl_config_seals : BwrapMountPhase;
  pl_protected_subpaths : BwrapMountPhase;
  pl_procfs_seals : BwrapMountPhase;
  pl_control_plane_seals : BwrapMountPhase;
  pl_sandbox_runtime : BwrapMountPhase;
  pl_infrastructure : BwrapMountPhase;
  pl_connection_seals : BwrapMountPhase;
}.

(** The phases before the last, and all of them in the order of [emit]. *)
Definition plan_before_connections (p : BwrapMountPlan) : list BwrapPlanStep :=
  (pl_layout p ++ pl_overlays p ++ pl_config_seals p ++ pl_protected_subpaths p ++ pl_procfs_seals p ++
   pl_control_plane_seals p ++ pl_sandbox_runtime p ++ pl_infrastructure p)%list.

Definition plan_steps (p : BwrapMountPlan) : list BwrapPlanStep :=
  (plan_before_connections p ++ pl_connection_seals p)%list.

(** An argument of the command: a word or a path. *)
Inductive Arg := Word (s : string) | PathArg (p : Path).

(** [BwrapMountPhase::emit]. *)
Definition emit_step (s : BwrapPlanStep) : list Arg :=
  match s with
  | Bind _ source target ro => [Word (if ro then "--ro-bind" else "--bind"); PathArg source; PathArg target]
  | Tmpfs _ target => [Word "--tmpfs"; PathArg target]
  | Dev _ target => [Word "--dev"; PathArg target]
  | Proc _ target => [Word "--proc"; PathArg target]
  end.

Definition plan_emit (p : BwrapMountPlan) : list Arg := plan_steps p ≫= emit_step.

(** A mount whose source is canonical. *)
Record ValidatedMount := {
  vm_spec : MountSpec;
  vm_authority : SandboxMountAuthority;
  vm_placement : SandboxMountPlacement;
}.

(** ** Resolving paths *)

(** The loop of [resolve_path_allow_missing]: the nearest existing ancestor, then
    the names that do not exist yet. *)
Fixpoint resolve_loop (h : Host) (description : string) (path : Path) (fuel : nat) (candidate missing : Path)
    : Result Path MountError :=
  match fuel with
  | O => Err (ResolveFailed description path)
  | S fuel =>
      match ho_canonicalize h candidate with
      | Ok resolved => Ok (resolved ++ missing)%list
      | Err NotFound =>
          match path_file_name candidate, path_parent candidate with
          | Some name, Some parent => resolve_loop h description path fuel parent (Normal name :: missing)
          | _, _ => Err (ResolveFailed description path)
          end
      | Err (OtherIo _) => Err (ResolveFailed description path)
      end
  end.

Definition resolve_path_allow_missing (h : Host) (path : Path) (description : string) : Result Path MountError :=
  match ho_absolute h path with
  | Err _ => Err (ResolveFailed description path)
  | Ok absolute =>
      let normalized := normalize_absolute_path absolute in
      resolve_loop h description path (S (length normalized)) normalized []
  end.

(** ** The host's procfs mounts *)

Definition SANDBOX_PROCFS_TARGET : Path := [RootDir; Normal "proc"].

(** [char::from] a byte, as UTF-8. *)
Definition char_from (b : Z) : string :=
  if (b <? 128)%Z then String (Ascii.ascii_of_N (Z.to_N b)) ""
  else String (Ascii.ascii_of_N (Z.to_N (192 + b / 64))) (String (Ascii.ascii_of_N (Z.to_N (128 + b mod 64))) "").

Definition backslash : ascii := "092"%char.

(** [unescape_mountinfo_field]. *)
Fixpoint unescape_mountinfo_field (field : string) : string :=
  match field with
  | "" => ""
  | String x rest =>
      if decide (x = backslash) then
        match rest with
        | String a (String b (String c rest')) =>
            match from_str_radix 8 255 (String a (String b (String c ""))) with
            | Ok byte => char_from byte +:+ unescape_mountinfo_field rest'
            | Err _ => String backslash (unescape_mountinfo_field rest)
            end
        | _ => String backslash (unescape_mountinfo_field rest)
        end
      else String x (unescape_mountinfo_field rest)
  end.

(** [str::split_once] at a text. *)
Fixpoint split_once_str (pat s : string) : option (string * string) :=
  match RustStr.strip_prefix pat s with
  | Some rest => Some ("", rest)
  | None =>
      match s with
      | "" => None
      | String a s => (λ '(l, r), (String a l, r)) <$> split_once_str pat s
      end
  end.

(** One line of [from_mountinfo]: nothing for another file system. *)
Definition mountinfo_line (line : string) : Result (option Path) MountError :=
  match split_once_str " - " line with
  | None => Err (MalformedMountinfo line)
  | Some (mounted, mount_source) =>
      match split_whitespace mount_source with
      | [] => Err (MalformedMountinfo line)
      | fs_type :: _ =>
          if decide (fs_type = "proc") then
            match split_whitespace mounted !! 4%nat with
            | None => Err (MalformedMountinfo line)
            | Some mount_point =>
                Ok (Some (normalize_absolute_path (path_of (unescape_mountinfo_field mount_point))))
            end
          else Ok None
      end
  end.

Fixpoint mountinfo_points (lines : list string) : Result (list Path) MountError :=
  match lines with
  | [] => Ok []
  | line :: lines =>
      let? p := mountinfo_line line in
      let? ps := mountinfo_points lines in
      Ok (match p with Some p => p :: ps | None => ps end)
  end.

Definition HostProcfsMounts := list Path.

(** [from_mountinfo]: sorted, without duplicates. *)
Definition from_mountinfo (contents : string) : Result HostProcfsMounts MountError :=
  let lines := filter (λ line, trim line ≠ "") (str_lines contents) in
  let? points := mountinfo_points lines in
  Ok (merge_sort path_le (remove_dups points)).

Definition procfs_covers (points : HostProcfsMounts) (path : Path) : bool :=
  existsb (path_starts_with path) points.

(** [points_under]: relative to [source], strictly below it. *)
Definition points_under (points : HostProcfsMounts) (source : Path) : list Path :=
  omap (λ point, match path_strip_prefix point source with Some (c :: rel) => Some (c :: rel) | _ => None end) points.

(** ** Validation *)

Definition path_etc (name : string) : Path := [RootDir; Normal "etc"; Normal name].

(** [resolve_resolv_conf_target]. *)
Definition resolve_resolv_conf_target (h : Host) : Path :=
  let p := path_etc "resolv.conf" in
  if ho_is_symlink h p then match ho_canonicalize h p with Ok q => q | Err _ => p end else p.

Definition validate_reserved_target (h : Host) (target : Path) : Result unit MountError :=
  let? resolved := resolve_path_allow_missing h target "mount target" in
  if bool_decide (resolved ≠ path_root) && negb (path_starts_with resolved SANDBOX_PROCFS_TARGET) then Ok tt
  else Err (TargetReserved target resolved).

Definition validate_infrastructure_mount (h : Host) (kind : SandboxInfrastructureKind) (spec : MountSpec)
    : Result unit MountError :=
  let valid_target :=
    match kind with
    | Passwd => bool_decide (ms_target spec = path_etc "passwd")
    | Group => bool_decide (ms_target spec = path_etc "group")
    | ResolverConfig =>
        bool_decide (ms_target spec = path_etc "resolv.conf") ||
        bool_decide (ms_target spec = resolve_resolv_conf_target h)
    end in
  if ms_read_only spec && valid_target then Ok tt
  else Err (InfrastructureInvalid kind (ms_target spec)).

Definition is_strict_firma_subpath (target : Path) : bool :=
  existsb (λ a, bool_decide (path_file_name a = Some CONFIG_DIR_NAME))
    (tail (path_ancestors (normalize_absolute_path target))).

(** [validate_mounts], one mount. *)
Definition validate_mount (h : Host) (control sandbox : Path) (procfs : HostProcfsMounts) (m : SandboxMount)
    : Result ValidatedMount MountError :=
  let spec := sm_spec m in
  let? source :=
    match ho_canonicalize h (ms_source spec) with
    | Ok p => Ok p
    | Err _ => Err (SourceUnresolved (ms_source spec))
    end in
  let? _ :=
    match sm_authority m with
    | SandboxInfrastructure kind =>
        if path_starts_with source sandbox then validate_infrastructure_mount h kind spec
        else Err (InfrastructureEscapes source sandbox)
    | OperatorProvided | Framework =>
        if path_starts_with source control then Err (SourceInControlPlane source control) else Ok tt
    end in
  let? _ := validate_reserved_target h (ms_target spec) in
  if procfs_covers procfs source then Err (ProcfsSource source)
  else if bool_decide (sm_placement m = FrameworkProtectedSubpath) &&
          (negb (bool_decide (sm_authority m = Framework)) || negb (is_strict_firma_subpath (ms_target spec)))
  then Err (ProtectedTargetOutside (ms_target spec))
  else Ok {| vm_spec := {| ms_source := source; ms_target := ms_target spec; ms_read_only := ms_read_only spec |};
             vm_authority := sm_authority m; vm_placement := sm_placement m |}.

Fixpoint validate_each (h : Host) (control sandbox : Path) (procfs : HostProcfsMounts) (ms : list SandboxMount)
    : Result (list ValidatedMount) MountError :=
  match ms with
  | [] => Ok []
  | m :: ms =>
      let? v := validate_mount h control sandbox procfs m in
      let? vs := validate_each h control sandbox procfs ms in
      Ok (v :: vs)
  end.

Definition is_infrastructure (m : ValidatedMount) : bool :=
  match vm_authority m with SandboxInfrastructure _ => true | _ => false end.

Definition is_overlay (m : ValidatedMount) : bool := bool_decide (vm_placement m = Overlay).

Definition normal_target (m : ValidatedMount) : Path := normalize_absolute_path (ms_target (vm_spec m)).

(** The first pair of a list, in order, that a test refuses. *)
Fixpoint first_pair {E} (bad : Path → Path → bool) (report : Path → Path → E) (l : list Path) : Result unit E :=
  match l with
  | [] => Ok tt
  | p :: l =>
      match List.find (bad p) l with
      | Some q => Err (report p q)
      | None => first_pair bad report l
      end
  end.

Definition validate_overlay_destinations (ms : list ValidatedMount) : Result unit MountError :=
  let overlays := normal_target <$> filter (λ m, is_overlay m && negb (is_infrastructure m)) ms in
  let? _ := first_pair (λ p q, bool_decide (p = q)) (λ p _, DuplicateTargets p) overlays in
  let protected := normal_target <$> filter (λ m, negb (is_overlay m)) ms in
  first_pair (λ p q, path_starts_with p q || path_starts_with q p) OverlappingProtected protected.

Definition validate_mounts (h : Host) (handle : SandboxHandle) (control sandbox : Path) (procfs : HostProcfsMounts)
    : Result (list ValidatedMount) MountError :=
  let? ms := validate_each h control sandbox procfs (hd_mounts handle) in
  let? _ := validate_overlay_destinations ms in
  Ok ms.

(** ** Masks *)

Inductive MaskKind := MaskDir | MaskFile.

(** A phase being filled, and what it masks already. *)
Record Masking := { mk_phase : BwrapMountPhase; mk_masked : gmap Path MaskKind }.

Definition dev_null : Path := [RootDir; Normal "dev"; Normal "null"].

Definition emit_tmpfs (target : Path) (s : Masking) : Masking :=
  {| mk_phase := match mk_masked s !! target with
                 | None => (mk_phase s ++ [Tmpfs RMask target])%list
                 | Some _ => mk_phase s
                 end;
     mk_masked := <[target := MaskDir]> (mk_masked s) |}.

Definition emit_ro_bind_null (target : Path) (s : Masking) : Masking :=
  {| mk_phase := match mk_masked s !! target with
                 | None => (mk_phase s ++ [Bind RMask dev_null target true])%list
                 | Some _ => mk_phase s
                 end;
     mk_masked := <[target := MaskFile]> (mk_masked s) |}.

Definition mask_config_file_at (h : Host) (file : Path) (s : Masking) : Masking :=
  emit_ro_bind_null (match ho_canonicalize h file with Ok p => p | Err _ => file end) s.

Definition named_config_dir (p : Path) : bool := bool_decide (path_file_name p = Some CONFIG_DIR_NAME).

Definition config_file_in (dir : Path) : Path := path_join dir [Normal CONFIG_FILE_NAME].

(** [mask_firma_dir_at]. *)
Definition mask_firma_dir_at (h : Host) (dir : Path) (s : Masking) : Masking :=
  let finish target :=
    let s := if ho_is_symlink h (config_file_in target) then mask_config_file_at h (config_file_in target) s else s in
    emit_tmpfs target s in
  match ho_canonicalize h dir with
  | Ok canonical =>
      if named_config_dir canonical then finish canonical
      else mask_config_file_at h (config_file_in canonical) s
  | Err NotFound => s
  | Err (OtherIo _) => if named_config_dir dir then finish dir else s
  end.

(** [HOME] of the launch, else of the process; usable when absolute. *)
Definition launch_home (h : Host) (launch : LaunchSpec) : option string :=
  let home := match env_get (ls_env launch) "HOME" with Some v => Some v | None => ho_home h end in
  match home with
  | Some v => if bool_decide (v = "") || negb (RustStr.starts_with "/" v) then None else Some v
  | None => None
  end.

Definition host_home_firma_dir (h : Host) (launch : LaunchSpec) : option Path :=
  (λ home, path_join (path_of home) [Normal CONFIG_DIR_NAME]) <$> launch_home h launch.

Definition launch_config_file (launch : LaunchSpec) : option Path :=
  (λ f, if path_is_absolute f then f else path_join (ls_cwd launch) f) <$> ls_config_file launch.

Definition firma_parent (config_file : Path) : option Path :=
  match path_parent config_file with
  | Some parent => if named_config_dir parent then Some parent else None
  | None => None
  end.

(** [mask_firma_dir]. *)
Definition mask_firma_dir (h : Host) (launch : LaunchSpec) (phase : BwrapMountPhase) : Masking :=
  let s := {| mk_phase := phase; mk_masked := ∅ |} in
  let s := foldl (λ s dir, mask_firma_dir_at h dir s) s (config_candidates (ls_cwd launch)) in
  let cwd_firma := path_join (ls_cwd launch) [Normal CONFIG_DIR_NAME] in
  let s := if ho_exists h cwd_firma then s else emit_tmpfs cwd_firma s in
  let s := match host_home_firma_dir h launch with Some dir => mask_firma_dir_at h dir s | None => s end in
  match launch_config_file launch with
  | None => s
  | Some config_file =>
      match firma_parent config_file with
      | Some parent => mask_firma_dir_at h parent s
      | None => mask_config_file_at h config_file s
      end
  end.

(** [project_mount_aliases]: the masks again, where a mount shows them. *)
Definition alias_of (target relative : Path) : Path :=
  if decide (relative = []) then target else path_join target relative.

Definition project_alias (source target : Path) (s : Masking) (direct : Path * MaskKind) : Masking :=
  match path_strip_prefix direct.1 source with
  | None => s
  | Some relative =>
      match direct.2 with
      | MaskDir => emit_tmpfs (alias_of target relative) s
      | MaskFile => emit_ro_bind_null (alias_of target relative) s
      end
  end.

Definition project_mount (h : Host) (direct : list (Path * MaskKind)) (s : Masking) (mount : MountSpec) : Masking :=
  match ho_canonicalize h (ms_source mount) with
  | Err _ => s
  | Ok source => foldl (project_alias source (ms_target mount)) s direct
  end.

Definition pair_le (a b : Path * MaskKind) : Prop := path_le a.1 b.1.

#[export] Instance pair_le_dec a b : Decision (pair_le a b).
Proof. unfold pair_le. apply _. Defined.

Definition project_mount_aliases (h : Host) (mounts : list MountSpec) (s : Masking) : BwrapMountPhase :=
  let direct := merge_sort pair_le (map_to_list (mk_masked s)) in
  mk_phase (foldl (project_mount h direct) s mounts).

(** [mask_sensitive_paths]: the configured paths below the home that exist. *)
Definition mask_sensitive_paths (h : Host) (launch : LaunchSpec) (suffixes : list string) : BwrapMountPhase :=
  match launch_home h launch with
  | None => []
  | Some home =>
      omap (λ suffix, let path := path_of (home +:+ "/" +:+ suffix) in
                      if ho_exists h path then Some (Tmpfs RMask path) else None) suffixes
  end.

Definition bind_host_home (h : Host) (launch : LaunchSpec) : BwrapMountPhase :=
  match launch_home h launch with
  | None => []
  | Some home => [Bind RLayout (path_of home) (path_of home) false]
  end.

(** ** The phases *)

(** The layout of [append_filesystem_layout]. *)
Definition layout_phase (h : Host) (handle : SandboxHandle) (launch : LaunchSpec) (b : BwrapHardening)
    : BwrapMountPhase :=
  ((if bh_readonly_rootfs b then
      [Bind RLayout path_root path_root true;
       Tmpfs RLayout [RootDir; Normal "tmp"];
       Tmpfs RLayout [RootDir; Normal "var"; Normal "tmp"];
       Bind RLayout (ls_cwd launch) (ls_cwd launch) false;
       Bind RSandboxInfrastructure (hd_runtime_dir handle) (hd_runtime_dir handle) false] ++
      (if bh_runtime_home_isolation b then [] else bind_host_home h launch)
    else [Bind RLayout path_root path_root false]) ++
   [Dev RLayout [RootDir; Normal "dev"]; Proc RLayout SANDBOX_PROCFS_TARGET])%list.

(** The order of [emit_mounts]: by depth, then by path. *)
Definition mount_le (a b : ValidatedMount) : Prop :=
  let p := normal_target a in
  let q := normal_target b in
  (length p < length q)%nat ∨ (length p = length q ∧ path_le p q).

#[export] Instance mount_le_dec a b : Decision (mount_le a b).
Proof. unfold mount_le. apply _. Defined.

Definition mount_role (m : ValidatedMount) : BwrapPlanRole :=
  match vm_authority m with
  | OperatorProvided => ROperatorProvided
  | Framework => RFramework
  | SandboxInfrastructure _ => RSandboxInfrastructure
  end.

Definition mount_step (m : ValidatedMount) : BwrapPlanStep :=
  Bind (mount_role m) (ms_source (vm_spec m)) (ms_target (vm_spec m)) (ms_read_only (vm_spec m)).

(** [emit_mounts], by phase. *)
Definition overlay_steps (ms : list ValidatedMount) : BwrapMountPhase :=
  mount_step <$> filter (λ m, negb (is_infrastructure m) && is_overlay m) (merge_sort mount_le ms).
Definition protected_steps (ms : list ValidatedMount) : BwrapMountPhase :=
  mount_step <$> filter (λ m, negb (is_infrastructure m) && negb (is_overlay m)) (merge_sort mount_le ms).
Definition infrastructure_steps (ms : list ValidatedMount) : BwrapMountPhase :=
  mount_step <$> filter is_infrastructure (merge_sort mount_le ms).

(** [project_procfs_aliases]: one point of one mount; the state is the phase and
    the sealed paths. *)
Definition procfs_alias (h : Host) (mount : MountSpec) (acc : Result (BwrapMountPhase * list Path) MountError)
    (relative : Path) : Result (BwrapMountPhase * list Path) MountError :=
  let? (phase, sealed) := acc in
  let alias := normalize_absolute_path (path_join (ms_target mount) relative) in
  if existsb (path_starts_with alias) sealed then Ok (phase, sealed)
  else
    let point := path_join (ms_source mount) relative in
    match ho_metadata h point with
    | Ok FtDir => Ok (phase ++ [Proc RMask alias], sealed ++ [alias])%list
    | Ok _ => Ok (phase, sealed)
    | Err NotFound => Ok (phase, sealed)
    | Err (OtherIo _) => Err (ProcfsUninspectable point alias)
    end.

Definition procfs_mount (h : Host) (points : HostProcfsMounts)
    (acc : Result (BwrapMountPhase * list Path) MountError) (mount : MountSpec) :=
  foldl (procfs_alias h mount) acc (points_under points (ms_source mount)).

Definition project_procfs_aliases (h : Host) (mounts : list MountSpec) (points : HostProcfsMounts)
    : Result BwrapMountPhase MountError :=
  let? (phase, _) := foldl (procfs_mount h points) (Ok ([], [SANDBOX_PROCFS_TARGET])) mounts in
  Ok phase.

(** [mask_control_plane_runtime]: the seals and the restored runtime. *)
Definition mask_control_plane_runtime (h : Host) (mounts : list ValidatedMount) (runtime sandbox : Path)
    (launch : LaunchSpec) : Result (BwrapMountPhase * BwrapMountPhase) MountError :=
  match ho_canonicalize h (ls_cwd launch) with
  | Err _ => Err (CwdUnresolved (ls_cwd launch))
  | Ok cwd =>
      if path_starts_with cwd runtime then Err (CwdInControlPlane cwd runtime)
      else
        let s := emit_tmpfs runtime {| mk_phase := []; mk_masked := ∅ |} in
        Ok (project_mount_aliases h (vm_spec <$> mounts) s,
            if path_starts_with sandbox runtime
            then [Bind RSandboxInfrastructure sandbox sandbox false] else [])
  end.

(** [mount_ca_material]. *)
Definition mount_ca_material (h : Host) (control : Path) (sandbox_id : string) (anchor : option Path)
    : Result BwrapMountPhase MountError :=
  let restored := filter (ho_is_file h) (ca_material control sandbox_id) in
  let? _ :=
    match anchor with
    | None => Ok tt
    | Some a =>
        let? anchor_path := resolve_path_allow_missing h a "sidecar trust anchor" in
        if path_starts_with anchor_path control &&
           negb (existsb (λ c, match resolve_path_allow_missing h c "sidecar CA material" with
                               | Ok r => bool_decide (r = anchor_path)
                               | Err _ => false
                               end) restored)
        then Err (AnchorMasked anchor_path control) else Ok tt
    end in
  Ok ((λ p, Bind RSandboxInfrastructure p p true) <$> restored).

(** ** Login state *)

(** [host_path_exposed_at_target]: what the phases so far leave at [target]. *)
Definition exposed_step (target : Path) (exposed : bool) (s : BwrapPlanStep) : bool :=
  if path_starts_with target (step_target s) then
    match s with Bind role _ _ _ => negb (bool_decide (role = RMask)) | _ => false end
  else exposed.

Definition host_path_exposed_at_target (plan : BwrapMountPlan) (target : Path) : bool :=
  foldl (exposed_step target) false (plan_before_connections plan).

Definition is_required_layout (s : BwrapPlanStep) : bool :=
  match s with Bind role _ _ _ => bool_decide (role = RSandboxInfrastructure) | _ => false end.

(** One required mount of [reject_connection_mount_overlap]. *)
Definition reject_required (h : Host) (target mounted required : Path) : Result unit MountError :=
  let? resolved := resolve_path_allow_missing h required "required mount" in
  let lexical := normalize_absolute_path required in
  if path_starts_with target resolved || path_starts_with resolved target ||
     (path_starts_with target lexical || path_starts_with lexical target)
  then Err (ConnectionOverlap target mounted) else Ok tt.

Fixpoint reject_overlaps (h : Host) (target : Path) (steps : list BwrapPlanStep) : Result unit MountError :=
  match steps with
  | [] => Ok tt
  | Bind _ source mounted _ :: steps =>
      let? _ := reject_required h target mounted source in
      let? _ := reject_required h target mounted mounted in
      reject_overlaps h target steps
  | _ :: steps => reject_overlaps h target steps
  end.

Definition required_mounts (plan : BwrapMountPlan) : list BwrapPlanStep :=
  (filter is_required_layout (pl_layout plan) ++ pl_protected_subpaths plan ++ pl_sandbox_runtime plan ++
   pl_infrastructure plan)%list.

Definition reject_connection_mount_overlap (h : Host) (plan : BwrapMountPlan) (target : Path) : Result unit MountError :=
  reject_overlaps h target (required_mounts plan).

(** The candidates of [mask_connection_dirs], a [BTreeSet]. *)
Definition connection_candidates (launch : LaunchSpec) : list Path :=
  let guest :=
    match env_get (ls_env launch) "FIRMA_CONNECTION_DIR" with
    | Some v => if path_is_absolute (path_of v) then [path_of v] else []
    | None => []
    end in
  merge_sort path_le (remove_dups (option_list (ls_host_connection_dir launch) ++ guest)%list).

(** The targets one directory has through the mounts. *)
Fixpoint connection_aliases (resolved : Path) (mounts : list ValidatedMount) : Result (list Path) MountError :=
  match mounts with
  | [] => Ok []
  | m :: mounts =>
      let source := ms_source (vm_spec m) in
      if path_starts_with source resolved then Err (ConnectionSource source resolved)
      else
        let? rest := connection_aliases resolved mounts in
        Ok (match path_strip_prefix resolved source with
            | Some relative => normalize_absolute_path (path_join (ms_target (vm_spec m)) relative) :: rest
            | None => rest
            end)
  end.

(** The targets of one candidate. *)
Definition connection_targets_of (h : Host) (plan : BwrapMountPlan) (mounts : list ValidatedMount) (candidate : Path)
    : Result (list Path) MountError :=
  let? resolved := resolve_path_allow_missing h candidate "connection directory" in
  match ho_metadata h resolved with
  | Ok FtDir =>
      let? _ := reject_connection_mount_overlap h plan resolved in
      let? aliases := connection_aliases resolved mounts in
      Ok (resolved :: aliases)
  | Ok _ => Ok []
  | Err NotFound => Ok []
  | Err (OtherIo _) => Err (ConnectionUninspectable resolved)
  end.

Fixpoint connection_targets (h : Host) (plan : BwrapMountPlan) (mounts : list ValidatedMount) (cs : list Path)
    : Result (list Path) MountError :=
  match cs with
  | [] => Ok []
  | c :: cs =>
      let? ts := connection_targets_of h plan mounts c in
      let? rest := connection_targets h plan mounts cs in
      Ok (ts ++ rest)%list
  end.

Definition depth_le (p q : Path) : Prop := (length p ≤ length q)%nat.

#[export] Instance depth_le_dec p q : Decision (depth_le p q).
Proof. unfold depth_le. apply _. Defined.

(** The targets as a [BTreeSet], then by depth; what is sealed, the shallowest
    first. *)
Fixpoint connection_seals (h : Host) (plan : BwrapMountPlan) (masked : list Path) (ts : list Path)
    : Result BwrapMountPhase MountError :=
  match ts with
  | [] => Ok []
  | t :: ts =>
      let? _ := reject_connection_mount_overlap h plan t in
      if negb (host_path_exposed_at_target plan t) || existsb (path_starts_with t) masked
      then connection_seals h plan masked ts
      else
        let? rest := connection_seals h plan (t :: masked) ts in
        Ok (Tmpfs RMask t :: rest)
  end.

(** [mask_connection_dirs]. *)
Definition mask_connection_dirs (h : Host) (plan : BwrapMountPlan) (mounts : list ValidatedMount)
    (launch : LaunchSpec) : Result BwrapMountPhase MountError :=
  let? ts := connection_targets h plan mounts (connection_candidates launch) in
  connection_seals h plan [] (merge_sort depth_le (merge_sort path_le (remove_dups ts))).

(** ** The plan *)

Definition set_connection_seals (ph : BwrapMountPhase) (p : BwrapMountPlan) : BwrapMountPlan :=
  {| pl_layout := pl_layout p; pl_overlays := pl_overlays p; pl_config_seals := pl_config_seals p;
     pl_protected_subpaths := pl_protected_subpaths p; pl_procfs_seals := pl_procfs_seals p;
     pl_control_plane_seals := pl_control_plane_seals p; pl_sandbox_runtime := pl_sandbox_runtime p;
     pl_infrastructure := pl_infrastructure p; pl_connection_seals := ph |}.

(** [append_filesystem_layout]. *)
Definition append_filesystem_layout (h : Host) (handle : SandboxHandle) (mounts : list ValidatedMount)
    (control sandbox : Path) (launch : LaunchSpec) (b : BwrapHardening) (procfs : HostProcfsMounts)
    : Result BwrapMountPlan MountError :=
  let sensitive := if bh_readonly_rootfs b then mask_sensitive_paths h launch (bh_mask_home_paths b) else [] in
  let overlay_specs := vm_spec <$> filter is_overlay mounts in
  let config_seals := project_mount_aliases h overlay_specs (mask_firma_dir h launch sensitive) in
  let host_root_bind := {| ms_source := path_root; ms_target := path_root; ms_read_only := bh_readonly_rootfs b |} in
  let? procfs_seals := project_procfs_aliases h (host_root_bind :: (vm_spec <$> mounts)) procfs in
  let? (control_seals, restored) := mask_control_plane_runtime h mounts control sandbox launch in
  let? ca := mount_ca_material h control (hd_sandbox_id handle) (ls_trust_anchor launch) in
  let plan :=
    {| pl_layout := layout_phase h handle launch b; pl_overlays := overlay_steps mounts;
       pl_config_seals := config_seals; pl_protected_subpaths := protected_steps mounts;
       pl_procfs_seals := procfs_seals; pl_control_plane_seals := control_seals;
       pl_sandbox_runtime := (restored ++ ca)%list; pl_infrastructure := infrastructure_steps mounts;
       pl_connection_seals := [] |} in
  let? seals := mask_connection_dirs h plan mounts launch in
  Ok (set_connection_seals seals plan).

(** [BwrapMountPlan::build_against]; [root] is the runtime layout's root. *)
Definition build_against (h : Host) (root : Path) (handle : SandboxHandle) (launch : LaunchSpec) (b : BwrapHardening)
    (procfs : HostProcfsMounts) : Result BwrapMountPlan MountError :=
  let? control := resolve_path_allow_missing h root "control-plane runtime" in
  match ho_canonicalize h (hd_runtime_dir handle) with
  | Err _ => Err (ResolveFailed "sandbox runtime" (hd_runtime_dir handle))
  | Ok sandbox =>
      let? mounts := validate_mounts h handle control sandbox procfs in
      append_filesystem_layout h handle mounts control sandbox launch b procfs
  end.

(** [BwrapMountPlan::build]. *)
Definition build (h : Host) (root : Path) (handle : SandboxHandle) (launch : LaunchSpec) (b : BwrapHardening)
    : Result BwrapMountPlan MountError :=
  let? contents := map_err MountinfoUnreadable (ho_mountinfo h) in
  let? procfs := from_mountinfo contents in
  build_against h root handle launch b procfs.

(** [reject_symlinked_firma_dirs]; a directory checked twice is checked once. *)
Definition reject_symlinked_firma_dir (h : Host) (dir : Path) : Result unit MountError :=
  if negb (named_config_dir dir) then Ok tt
  else
    match ho_symlink h dir with
    | Ok true => Err (SymlinkedConfigDir dir)
    | Ok false => Ok tt
    | Err NotFound => Ok tt
    | Err (OtherIo _) => Err (ConfigDirUninspectable dir)
    end.

Fixpoint reject_all (h : Host) (dirs : list Path) : Result unit MountError :=
  match dirs with
  | [] => Ok tt
  | d :: dirs => let? _ := reject_symlinked_firma_dir h d in reject_all h dirs
  end.

Definition reject_symlinked_firma_dirs (h : Host) (launch : LaunchSpec) : Result unit MountError :=
  reject_all h
    (config_candidates (ls_cwd launch) ++ option_list (host_home_firma_dir h launch) ++
     option_list (launch_config_file launch ≫= firma_parent))%list.

(** The command line of [start_agent], up to the environment. *)
Definition start_agent_args (h : Host) (root : Path) (handle : SandboxHandle) (launch : LaunchSpec)
    (seccomp_fd : option string) : Result (list Arg) MountError :=
  let? _ := reject_symlinked_firma_dirs h launch in
  let? plan := build h root handle launch (hardening_from_env (ls_env launch)) in
  Ok ((Word <$> ["--die-with-parent"; "--new-session"; "--unshare-pid"]) ++
      (if hd_enforce_network_namespace handle then [Word "--unshare-net"] else []) ++
      match seccomp_fd with Some fd => [Word "--seccomp"; Word fd] | None => [] end ++
      plan_emit plan ++ [Word "--chdir"; PathArg (ls_cwd launch)])%list.

(** ** What a sandbox sees *)

(** Mounts in order: a bind shows the host's tree below its target, the others
    nothing of the host; a later mount hides an earlier one at and below its
    target.  [view steps p] is the host path visible at [p].  Targets are taken
    as they are spelled: no component of them is a symbolic link. *)
Definition view_step (p : Path) (v : option Path) (s : BwrapPlanStep) : option Path :=
  match path_strip_prefix p (step_target s) with
  | None => v
  | Some below => match s with Bind _ source _ _ => Some (source ++ below)%list | _ => None end
  end.

Definition view (steps : list BwrapPlanStep) (p : Path) : option Path := foldl (view_step p) None steps.
