(* ===== verification/SandboxSeals.v ===== *)
(** * What the sandbox's mounts hide

    The proofs about [SandboxMounts]: what validation establishes of a mount,
    what each phase of a plan shows and masks, and from these that the plan
    hides the control plane, the host's process file systems, the configuration
    and the login state. *)

From S2P Require Import Prelude RustStr RustPath SandboxMounts.
From stdpp Require Import sorting.

#[local] Open Scope string_scope.

(** ** Facts about views *)

Definition shows (s : BwrapPlanStep) (p shown : Path) : Prop :=
  ∃ role source target ro below,
    s = Bind role source target ro ∧ p = (target ++ below)%list ∧ shown = (source ++ below)%list.

Definition uncovered (p : Path) (s : BwrapPlanStep) : Prop := ¬ step_target s `prefix_of` p.

Lemma view_snoc l s p : view (l ++ [s])%list p = view_step p (view l p) s.
Proof. unfold view. by rewrite foldl_app. Qed.

(** What is visible is shown by one bind, and nothing after it covers the path:
    however the steps are cut in two, the bind is in the second part, or it is
    in the first and the second covers nothing. *)
Lemma view_bind l : ∀ p shown, view l p = Some shown →
  ∃ s, s ∈ l ∧ shows s p shown ∧
    ∀ a b, l = (a ++ b)%list → s ∈ b ∨ (s ∈ a ∧ Forall (uncovered p) b).
Proof.
  induction l as [|s l IH] using rev_ind; intros p shown; [done|]. rewrite view_snoc. unfold view_step.
  destruct (path_strip_prefix p (step_target s)) as [below|] eqn:E.
  - apply strip_prefix_app in E. destruct s as [role source target ro| | |]; try done. intros [= <-].
    exists (Bind role source target ro). split; [apply elem_of_app; right; by left|].
    split; [by exists role, source, target, ro, below|]. intros a b Hab.
    destruct b as [|x b _] using rev_ind.
    + right. rewrite app_nil_r in Hab. subst a. split; [apply elem_of_app; right; by left|constructor].
    + left. rewrite app_assoc in Hab. apply app_inj_2 in Hab as [_ [= <-]]; [|done]. apply elem_of_app. right. by left.
  - intros Hv. destruct (IH p shown Hv) as (s' & Hin & Hs & Hcut). exists s'.
    split; [apply elem_of_app; by left|]. split; [done|]. intros a b Hab.
    assert (Hu : uncovered p s). { intros [q Hq]. apply strip_prefix_app in Hq. congruence. }
    destruct b as [|x b _] using rev_ind.
    + right. rewrite app_nil_r in Hab. subst a. split; [apply elem_of_app; by left|constructor].
    + rewrite app_assoc in Hab. apply app_inj_2 in Hab as [Hab [= <-]]; [|done].
      destruct (Hcut a b Hab) as [?|[? ?]]; [left; apply elem_of_app; by left|right].
      split; [done|]. apply Forall_app. split; [done|]. by constructor.
Qed.

(** ** Facts about masks *)

(** Every masked path has a step of the phase on it. *)
Definition masking_ok (s : Masking) : Prop :=
  ∀ t, is_Some (mk_masked s !! t) → ∃ st, st ∈ mk_phase s ∧ step_target st = t.

(** A phase of masks: temporary file systems and binds of the null device. *)
Definition is_mask (s : BwrapPlanStep) : Prop :=
  match s with Bind role source _ _ => role = RMask ∧ source = dev_null | Tmpfs _ _ => True | _ => False end.

(** What every masking operation does: it keeps the invariant, adds masks only,
    forgets none. *)
Record masks (s s' : Masking) : Prop := {
  mask_ok : masking_ok s → masking_ok s';
  mask_kinds : Forall is_mask (mk_phase s) → Forall is_mask (mk_phase s');
  mask_grows t : is_Some (mk_masked s !! t) → is_Some (mk_masked s' !! t);
}.

#[export] Instance masks_preorder : PreOrder masks.
Proof. split; [by intros s; split|]. intros s1 s2 s3 [] []. split; auto. Qed.

Lemma masks_emit_step (st : BwrapPlanStep) k s s' :
  is_mask st →
  mk_phase s' = (match mk_masked s !! step_target st with None => mk_phase s ++ [st] | Some _ => mk_phase s end)%list →
  mk_masked s' = <[step_target st := k]> (mk_masked s) → masks s s'.
Proof.
  intros Hk Hp Hm. split; rewrite ?Hp, ?Hm.
  - intros Hok t Ht. unfold masking_ok in *. rewrite Hp. rewrite Hm in Ht.
    destruct (decide (t = step_target st)) as [->|Hne].
    + destruct (mk_masked s !! step_target st) eqn:E; [apply Hok; rewrite E; eauto|].
      exists st. split; [apply elem_of_app; right; by left|done].
    + rewrite lookup_insert_ne in Ht by done. destruct (Hok t Ht) as (x & Hx & ?). exists x. split; [|done].
      destruct (mk_masked s !! step_target st); [done|]. apply elem_of_app. by left.
  - intros Hf. destruct (mk_masked s !! step_target st); [done|]. apply Forall_app. split; [done|]. by constructor.
  - intros t Ht. destruct (decide (t = step_target st)) as [->|Hne].
    + rewrite lookup_insert_eq. eauto.
    + by rewrite lookup_insert_ne.
Qed.

Lemma masks_tmpfs t s : masks s (emit_tmpfs t s).
Proof. by apply (masks_emit_step (Tmpfs RMask t) MaskDir). Qed.

Lemma masks_null t s : masks s (emit_ro_bind_null t s).
Proof. by apply (masks_emit_step (Bind RMask dev_null t true) MaskFile). Qed.

Lemma tmpfs_masked t s : is_Some (mk_masked (emit_tmpfs t s) !! t).
Proof. simpl. rewrite lookup_insert_eq. eauto. Qed.

Lemma null_masked t s : is_Some (mk_masked (emit_ro_bind_null t s) !! t).
Proof. simpl. rewrite lookup_insert_eq. eauto. Qed.

Lemma masks_config_file h f s : masks s (mask_config_file_at h f s).
Proof. apply masks_null. Qed.

Lemma masks_firma_dir_at h dir s : masks s (mask_firma_dir_at h dir s).
Proof.
  assert (Hf : ∀ t, masks s (emit_tmpfs t (if ho_is_symlink h (config_file_in t)
                               then mask_config_file_at h (config_file_in t) s else s))).
  { intros t. etrans; [|apply masks_tmpfs]. destruct (ho_is_symlink h _); [apply masks_config_file|done]. }
  unfold mask_firma_dir_at. destruct (ho_canonicalize h dir) as [c|[]].
  - destruct (named_config_dir c); [apply Hf|apply masks_config_file].
  - done.
  - destruct (named_config_dir dir); [apply Hf|done].
Qed.

Lemma masks_foldl {A} (f : Masking → A → Masking) l s : (∀ s a, masks s (f s a)) → masks s (foldl f s l).
Proof. intros Hf. revert s. induction l as [|a l IH]; intros s; [done|]. simpl. etrans; [apply Hf|apply IH]. Qed.

Lemma masks_project_alias source target s d : masks s (project_alias source target s d).
Proof.
  unfold project_alias. destruct (path_strip_prefix d.1 source); [|done].
  destruct d.2; [apply masks_tmpfs|apply masks_null].
Qed.

Lemma masks_project_mount h direct s m : masks s (project_mount h direct s m).
Proof.
  unfold project_mount. destruct (ho_canonicalize h (ms_source m)); [|done].
  apply masks_foldl. intros. apply masks_project_alias.
Qed.

Lemma masks_firma_dir h launch phase : masks {| mk_phase := phase; mk_masked := ∅ |} (mask_firma_dir h launch phase).
Proof.
  unfold mask_firma_dir. set (s0 := {| mk_phase := phase; mk_masked := ∅ |}).
  set (s1 := foldl _ s0 _).
  assert (H1 : masks s0 s1) by (apply masks_foldl; intros; apply masks_firma_dir_at).
  set (s2 := if ho_exists _ _ then s1 else _).
  assert (H2 : masks s1 s2) by (unfold s2; destruct (ho_exists _ _); [done|apply masks_tmpfs]).
  set (s3 := match host_home_firma_dir h launch with Some dir => _ | None => s2 end).
  assert (H3 : masks s2 s3) by (unfold s3; destruct (host_home_firma_dir h launch); [apply masks_firma_dir_at|done]).
  etrans; [exact H1|]. etrans; [exact H2|]. etrans; [exact H3|].
  destruct (launch_config_file launch) as [f|]; [|done].
  destruct (firma_parent f); [apply masks_firma_dir_at|apply masks_config_file].
Qed.

Lemma empty_masking_ok phase : masking_ok {| mk_phase := phase; mk_masked := ∅ |}.
Proof. intros t [k Hk]. simpl in Hk. by rewrite lookup_empty in Hk. Qed.

(** Projecting covers every alias of every direct mask. *)
Lemma project_alias_masked source target s direct t k relative :
  (t, k) ∈ direct → path_strip_prefix t source = Some relative →
  is_Some (mk_masked (foldl (project_alias source target) s direct) !! alias_of target relative).
Proof.
  intros Hin Hs. apply list_elem_of_split in Hin as (l1 & l2 & ->). rewrite foldl_app. simpl.
  eapply mask_grows; [apply masks_foldl; intros; apply masks_project_alias|].
  unfold project_alias at 1. simpl. rewrite Hs. destruct k; [apply tmpfs_masked|apply null_masked].
Qed.

Lemma project_mount_aliases_spec h mounts s :
  masking_ok s → Forall is_mask (mk_phase s) →
  Forall is_mask (project_mount_aliases h mounts s) ∧
  (∀ t, is_Some (mk_masked s !! t) → ∃ st, st ∈ project_mount_aliases h mounts s ∧ step_target st = t) ∧
  ∀ m source t relative, m ∈ mounts → ho_canonicalize h (ms_source m) = Ok source →
    is_Some (mk_masked s !! t) → path_strip_prefix t source = Some relative →
    ∃ st, st ∈ project_mount_aliases h mounts s ∧ step_target st = alias_of (ms_target m) relative.
Proof.
  intros Hok Hk. unfold project_mount_aliases. set (direct := merge_sort pair_le (map_to_list (mk_masked s))).
  assert (Hm : masks s (foldl (project_mount h direct) s mounts))
    by (apply masks_foldl; intros; apply masks_project_mount).
  split_and!; [by apply Hm| |].
  - intros t Ht. by apply Hm; [|apply Hm].
  - intros m source t relative Hin Hc [k Ht] Hs. apply Hm; [done|].
    apply list_elem_of_split in Hin as (l1 & l2 & ->). rewrite foldl_app. simpl.
    eapply mask_grows; [apply masks_foldl; intros; apply masks_project_mount|].
    unfold project_mount at 1. rewrite Hc. apply (project_alias_masked _ _ _ _ t k); [|done].
    unfold direct. rewrite merge_sort_Permutation. by apply elem_of_map_to_list.
Qed.

(** ** Facts about resolved paths and mounts *)

(** Documented behaviour of [canonicalize]: an absolute path without links or dot
    components, which is its own canonical form. *)
Class HostLaws (h : Host) := {
  canonicalize_clean : ∀ p q, ho_canonicalize h p = Ok q → clean q;
  canonicalize_idem : ∀ p q, ho_canonicalize h p = Ok q → ho_canonicalize h q = Ok q;
}.

Section Planned.
Context (h : Host) {HL : HostLaws h}.

Lemma resolve_loop_clean description path fuel : ∀ candidate missing q,
  Forall is_name missing → resolve_loop h description path fuel candidate missing = Ok q → clean q.
Proof.
  induction fuel as [|fuel IH]; intros candidate missing q Hm; [done|]. simpl.
  destruct (ho_canonicalize h candidate) as [r|[]] eqn:E; [|destruct (path_file_name candidate), (path_parent candidate)|]; try done.
  - intros [= <-]. apply clean_app; [|done]. by eapply canonicalize_clean.
  - apply IH. by constructor.
Qed.

Lemma resolve_clean p d q : resolve_path_allow_missing h p d = Ok q → clean q.
Proof.
  unfold resolve_path_allow_missing. destruct (ho_absolute h p); [|done]. apply resolve_loop_clean. constructor.
Qed.

(** What validation establishes of a mount. *)
Record mount_ok (control sandbox : Path) (procfs : HostProcfsMounts) (m : ValidatedMount) : Prop := {
  mo_canonical : ho_canonicalize h (ms_source (vm_spec m)) = Ok (ms_source (vm_spec m));
  mo_clean : clean (ms_source (vm_spec m));
  mo_infrastructure : is_infrastructure m = true → sandbox `prefix_of` ms_source (vm_spec m);
  mo_outside : is_infrastructure m = false → ¬ control `prefix_of` ms_source (vm_spec m);
  mo_target : ∃ r, resolve_path_allow_missing h (ms_target (vm_spec m)) "mount target" = Ok r ∧
    r ≠ path_root ∧ ¬ SANDBOX_PROCFS_TARGET `prefix_of` r;
  mo_procfs : procfs_covers procfs (ms_source (vm_spec m)) = false;
}.

Lemma reserved_target_ok target u :
  validate_reserved_target h target = Ok u →
  ∃ r, resolve_path_allow_missing h target "mount target" = Ok r ∧ r ≠ path_root ∧ ¬ SANDBOX_PROCFS_TARGET `prefix_of` r.
Proof.
  unfold validate_reserved_target. destruct (resolve_path_allow_missing h target "mount target") as [r|]; [|done].
  destruct (bool_decide (r ≠ path_root)) eqn:Hr; [|done]. destruct (path_starts_with r SANDBOX_PROCFS_TARGET) eqn:Hs; [done|].
  intros _. exists r. split; [done|]. split; [by apply bool_decide_eq_true in Hr|by apply starts_with_not_prefix].
Qed.

Lemma validate_mount_ok control sandbox procfs sm m :
  validate_mount h control sandbox procfs sm = Ok m →
  mount_ok control sandbox procfs m ∧ ms_target (vm_spec m) = ms_target (sm_spec sm).
Proof.
  unfold validate_mount. destruct (ho_canonicalize h (ms_source (sm_spec sm))) as [source|] eqn:Hc; [|done].
  destruct (match sm_authority sm with OperatorProvided | Framework => _ | SandboxInfrastructure _ => _ end) as [[]|] eqn:Ha; [|done].
  destruct (validate_reserved_target h _) as [u|] eqn:Ht; [|done].
  destruct (procfs_covers procfs source) eqn:Hp; [done|]. destruct (_ && _); [done|]. intros [= <-]. split; [|done].
  split; simpl; [by eapply canonicalize_idem|by eapply canonicalize_clean| | |by eapply reserved_target_ok|done].
  - unfold is_infrastructure. simpl. destruct (sm_authority sm); try done. intros _.
    destruct (path_starts_with source sandbox) eqn:E; [by apply starts_with_prefix|done].
  - unfold is_infrastructure. simpl. destruct (sm_authority sm); try done; intros _;
      (destruct (path_starts_with source control) eqn:E; [done|by apply starts_with_not_prefix]).
Qed.

Lemma validate_each_ok control sandbox procfs ms vs :
  validate_each h control sandbox procfs ms = Ok vs →
  ∀ v, v ∈ vs → mount_ok control sandbox procfs v ∧ ∃ m, m ∈ ms ∧ ms_target (vm_spec v) = ms_target (sm_spec m).
Proof.
  revert vs. induction ms as [|m ms IH]; intros vs; simpl; [by intros [= <-] v []%elem_of_nil|].
  destruct (validate_mount h control sandbox procfs m) as [v0|] eqn:Ev; [|done].
  destruct (validate_each h control sandbox procfs ms) as [vs0|]; [|done]. intros [= <-] v [->|Hv]%elem_of_cons.
  - apply validate_mount_ok in Ev as [? ?]. split; [done|]. exists m. split; [by left|done].
  - destruct (IH vs0 eq_refl v Hv) as (? & m' & ? & ?). split; [done|]. exists m'. split; [by right|done].
Qed.

Lemma mount_steps_elem (P : ValidatedMount → bool) ms s :
  s ∈ mount_step <$> filter P (merge_sort mount_le ms) → ∃ m, s = mount_step m ∧ m ∈ ms ∧ P m = true.
Proof.
  intros (m & -> & [HP Hm]%list_elem_of_filter)%list_elem_of_fmap. exists m.
  rewrite merge_sort_Permutation in Hm. by destruct (P m).
Qed.

Lemma layout_binds handle launch b role source target ro :
  Bind role source target ro ∈ layout_phase h handle launch b → source = target ∧ role ≠ RMask.
Proof.
  unfold layout_phase. intros [Hl|Hl]%elem_of_app.
  - destruct (bh_readonly_rootfs b).
    + apply elem_of_app in Hl as [Hl|Hl].
      * repeat (apply elem_of_cons in Hl as [Heq|Hl]; [split; congruence|]). by apply elem_of_nil in Hl.
      * destruct (bh_runtime_home_isolation b); [by apply elem_of_nil in Hl|]. unfold bind_host_home in Hl.
        destruct (launch_home h launch); [|by apply elem_of_nil in Hl].
        apply list_elem_of_singleton in Hl. split; congruence.
    + apply list_elem_of_singleton in Hl. split; congruence.
  - repeat (apply elem_of_cons in Hl as [?|Hl]; [done|]). by apply elem_of_nil in Hl.
Qed.

Lemma sensitive_masks launch suffixes : Forall is_mask (mask_sensitive_paths h launch suffixes).
Proof.
  unfold mask_sensitive_paths. destruct (launch_home h launch); [|constructor].
  apply Forall_forall. intros st (suffix & _ & Hs)%list_elem_of_omap. cbv zeta in Hs. by case_match; simplify_eq.
Qed.

(** The pieces of a plan. *)
Record planned (root : Path) (handle : SandboxHandle) (launch : LaunchSpec) (b : BwrapHardening)
    (procfs : HostProcfsMounts) (plan : BwrapMountPlan) (control sandbox : Path) (mounts : list ValidatedMount) : Prop := {
  pd_control : resolve_path_allow_missing h root "control-plane runtime" = Ok control;
  pd_sandbox : ho_canonicalize h (hd_runtime_dir handle) = Ok sandbox;
  pd_mounts : validate_mounts h handle control sandbox procfs = Ok mounts;
  pd_layout : pl_layout plan = layout_phase h handle launch b;
  pd_overlays : pl_overlays plan = overlay_steps mounts;
  pd_config : pl_config_seals plan =
    project_mount_aliases h (vm_spec <$> filter is_overlay mounts)
      (mask_firma_dir h launch (if bh_readonly_rootfs b then mask_sensitive_paths h launch (bh_mask_home_paths b) else []));
  pd_protected : pl_protected_subpaths plan = protected_steps mounts;
  pd_procfs : project_procfs_aliases h
    ({| ms_source := path_root; ms_target := path_root; ms_read_only := bh_readonly_rootfs b |} :: (vm_spec <$> mounts))
    procfs = Ok (pl_procfs_seals plan);
  pd_seals : pl_control_plane_seals plan =
    project_mount_aliases h (vm_spec <$> mounts) (emit_tmpfs control {| mk_phase := []; mk_masked := ∅ |});
  pd_runtime : ∃ ca, mount_ca_material h control (hd_sandbox_id handle) (ls_trust_anchor launch) = Ok ca ∧
    pl_sandbox_runtime plan =
      ((if path_starts_with sandbox control then [Bind RSandboxInfrastructure sandbox sandbox false] else []) ++ ca)%list;
  pd_infrastructure : pl_infrastructure plan = infrastructure_steps mounts;
  pd_connections : mask_connection_dirs h (set_connection_seals [] plan) mounts launch = Ok (pl_connection_seals plan);
}.

Lemma build_planned root handle launch b procfs plan :
  build_against h root handle launch b procfs = Ok plan →
  ∃ control sandbox mounts, planned root handle launch b procfs plan control sandbox mounts.
Proof.
  unfold build_against, append_filesystem_layout, mask_control_plane_runtime.
  destruct (resolve_path_allow_missing h root _) as [control|] eqn:E1; [|done].
  destruct (ho_canonicalize h (hd_runtime_dir handle)) as [sandbox|] eqn:E2; [|done].
  destruct (validate_mounts _ _ _ _ _) as [mounts|] eqn:E3; [|done]. cbv zeta.
  destruct (project_procfs_aliases _ _ _) as [pf|] eqn:E4; [|done].
  destruct (ho_canonicalize h (ls_cwd launch)) as [cwd|]; [|done].
  destruct (path_starts_with cwd control); [done|].
  destruct (mount_ca_material _ _ _ _) as [ca|] eqn:E5; [|done].
  destruct (mask_connection_dirs _ _ _ _) as [seals|] eqn:E6; [|done]. intros [= <-].
  exists control, sandbox, mounts. split; try done. by exists ca.
Qed.

Lemma planned_mount_ok root handle launch b procfs plan control sandbox mounts m :
  planned root handle launch b procfs plan control sandbox mounts → m ∈ mounts →
  mount_ok control sandbox procfs m ∧ ∃ sm, sm ∈ hd_mounts handle ∧ ms_target (vm_spec m) = ms_target (sm_spec sm).
Proof.
  intros [_ _ Hv _ _ _ _ _ _ _ _ _]. unfold validate_mounts in Hv.
  destruct (validate_each _ _ _ _ _) as [vs|] eqn:E; [|done].
  destruct (validate_overlay_destinations vs); simplify_eq/=. by apply (validate_each_ok _ _ _ _ _ E).
Qed.

Lemma ca_bind control sandbox_id anchor ca s :
  mount_ca_material h control sandbox_id anchor = Ok ca → s ∈ ca →
  ∃ f, f ∈ ca_material control sandbox_id ∧ ho_is_file h f = true ∧ s = Bind RSandboxInfrastructure f f true.
Proof.
  unfold mount_ca_material. cbv zeta. destruct (match anchor with Some _ => _ | None => _ end); [|done].
  intros [= <-] (f & -> & [Hf Hin]%list_elem_of_filter)%list_elem_of_fmap. exists f.
  split; [done|]. split; [|done]. by destruct (ho_is_file h f).
Qed.

(** The files of the certificate authorities, spelled out. *)
Definition ca_material_names (sandbox_id : string) : list Path :=
  [Normal <$> [RUN_DIR_NAME; sandbox_id; CA_DIR_NAME; CA_CERT_FILE_NAME];
   Normal <$> [RUN_DIR_NAME; sandbox_id; CA_DIR_NAME; CA_BUNDLE_FILE_NAME];
   Normal <$> [GENERATED_CA_DIR_NAME; CA_CERT_FILE_NAME]; Normal <$> [GENERATED_CA_DIR_NAME; CA_BUNDLE_FILE_NAME]].
Definition ca_key_names (sandbox_id : string) : list Path :=
  [Normal <$> [RUN_DIR_NAME; sandbox_id; CA_DIR_NAME; CA_KEY_FILE_NAME]; Normal <$> [GENERATED_CA_DIR_NAME; CA_KEY_FILE_NAME]].

Lemma ca_paths control sandbox_id : control ≠ [] →
  ca_material control sandbox_id = app control <$> ca_material_names sandbox_id ∧
  ca_keys control sandbox_id = app control <$> ca_key_names sandbox_id.
Proof.
  intros Hc. unfold ca_keys, ca_material, ca_dir, run_entry, generated_ca_dir, ca_material_names, ca_key_names.
  rewrite !join_names by (try solve [repeat constructor]; intros E; by destruct control).
  rewrite <- !app_assoc. by split.
Qed.

Lemma ca_key_not_material control sandbox_id key f :
  control ≠ [] → key ∈ ca_keys control sandbox_id → f ∈ ca_material control sandbox_id →
  control `prefix_of` key ∧ ¬ f `prefix_of` key.
Proof.
  intros Hc. destruct (ca_paths control sandbox_id Hc) as [-> ->].
  intros (k & -> & Hk)%list_elem_of_fmap (l & -> & Hl)%list_elem_of_fmap. split; [by apply prefix_app_r|].
  intros [r E]%prefix_app_inv. unfold ca_key_names, ca_material_names in *.
  repeat (apply elem_of_cons in Hk as [->|Hk]; [repeat (apply elem_of_cons in Hl as [->|Hl]; [done|]); by apply elem_of_nil in Hl|]).
  by apply elem_of_nil in Hk.
Qed.

(** A suffix of a shown path below a mount's source, and the alias it has. *)
Lemma alias_covers (source target below base : Path) :
  target ≠ [] → clean source → clean base → base `prefix_of` (source ++ below)%list → ¬ base `prefix_of` source →
  ∃ relative, path_strip_prefix base source = Some relative ∧ relative ≠ [] ∧ Forall is_name relative ∧
    alias_of target relative = (target ++ relative)%list ∧ (target ++ relative)%list `prefix_of` (target ++ below)%list.
Proof.
  intros Ht Hcs Hcb Hpre Hnot.
  destruct (prefix_comparable base source (source ++ below)%list) as [?|[relative Hrel]]; [done|by exists below|done|].
  assert (Hne : relative ≠ []). { intros ->. apply Hnot. rewrite app_nil_r in Hrel. by subst. }
  assert (Hn : Forall is_name relative). { subst base. eapply clean_suffix; [|exact Hcb]. by apply clean_nonempty. }
  exists relative. split; [by apply strip_prefix_app|]. split; [done|]. split; [done|]. split.
  - unfold alias_of. rewrite decide_False by done. by apply join_names.
  - subst base. destruct Hpre as [k Hk]. rewrite <- app_assoc in Hk. apply app_inv_head in Hk as ->.
    rewrite app_assoc. by exists k.
Qed.

(** Seals of the control plane are all masks, at the runtime and at its aliases. *)
Lemma control_seals_spec control mounts :
  let seals := project_mount_aliases h (vm_spec <$> mounts) (emit_tmpfs control {| mk_phase := []; mk_masked := ∅ |}) in
  Forall is_mask seals ∧ (∃ st, st ∈ seals ∧ step_target st = control) ∧
  ∀ m relative, m ∈ mounts → ho_canonicalize h (ms_source (vm_spec m)) = Ok (ms_source (vm_spec m)) →
    path_strip_prefix control (ms_source (vm_spec m)) = Some relative →
    ∃ st, st ∈ seals ∧ step_target st = alias_of (ms_target (vm_spec m)) relative.
Proof.
  cbv zeta. set (s0 := {| mk_phase := []; mk_masked := ∅ |}). set (s := emit_tmpfs control s0).
  assert (Hm : masks s0 s) by apply masks_tmpfs.
  destruct (project_mount_aliases_spec h (vm_spec <$> mounts) s) as (H1 & H2 & H3).
  { apply Hm, empty_masking_ok. }
  { apply Hm. constructor. }
  split; [done|]. split; [apply H2, tmpfs_masked|]. intros m relative Hin Hc Hs.
  eapply H3; [by apply list_elem_of_fmap_2|exact Hc|apply tmpfs_masked|done].
Qed.

(** The targets of the mounts are spelled without links, as they resolve.  [bwrap]
    resolves a target when it mounts there, after the mounts before it, so what a
    linked target shows is not what [view] says. *)
Definition plain_targets (handle : SandboxHandle) : Prop :=
  ∀ m, m ∈ hd_mounts handle →
    resolve_path_allow_missing h (ms_target (sm_spec m)) "mount target" = Ok (ms_target (sm_spec m)).

(** Neither path is at or below the other. *)
Definition apart (p q : Path) : Prop := ¬ p `prefix_of` q ∧ ¬ q `prefix_of` p.

Lemma apart_below p q below : apart p q → ¬ p `prefix_of` (q ++ below)%list.
Proof. intros [H1 H2] H. destruct (prefix_comparable p q (q ++ below)%list H) as [?|?]; [by exists below|done|done]. Qed.

(** The loop over the procfs points: seals are procfs mounts, what is sealed
    stays sealed, and every directory's alias ends up below a sealed path. *)
Definition procfs_state (r : Result (BwrapMountPhase * list Path) MountError) : Prop :=
  ∀ phase sealed, r = Ok (phase, sealed) →
    Forall (λ s, ∃ t, s = Proc RMask t) phase ∧ sealed = SANDBOX_PROCFS_TARGET :: (step_target <$> phase).

Definition sealed_in (r r' : Result (BwrapMountPhase * list Path) MountError) : Prop :=
  ∀ phase' sealed', r' = Ok (phase', sealed') → ∃ phase sealed, r = Ok (phase, sealed) ∧ sealed ⊆ sealed'.

#[local] Instance sealed_in_preorder : PreOrder sealed_in.
Proof.
  split; [intros r ph se ->; by exists ph, se|]. intros r1 r2 r3 H1 H2 ph se E.
  destruct (H2 _ _ E) as (ph2 & se2 & E2 & Hs2). destruct (H1 _ _ E2) as (ph1 & se1 & E1 & Hs1).
  exists ph1, se1. split; [done|]. by etrans.
Qed.

Definition alias_sealed (mount : MountSpec) (relative : Path) (r : Result (BwrapMountPhase * list Path) MountError) : Prop :=
  ∀ phase sealed, r = Ok (phase, sealed) →
    ho_metadata h (path_join (ms_source mount) relative) = Ok FtDir →
    ∃ c, c ∈ sealed ∧ c `prefix_of` normalize_absolute_path (path_join (ms_target mount) relative).

Lemma procfs_alias_spec mount acc relative :
  (procfs_state acc → procfs_state (procfs_alias h mount acc relative)) ∧
  sealed_in acc (procfs_alias h mount acc relative) ∧
  alias_sealed mount relative (procfs_alias h mount acc relative).
Proof.
  unfold procfs_alias. destruct acc as [[ph se]|e]; [|by split_and!]. cbv zeta.
  set (alias := normalize_absolute_path (path_join (ms_target mount) relative)).
  destruct (existsb (path_starts_with alias) se) eqn:Ex.
  { split_and!; [done|done|]. intros ? ? [= <- <-] _. apply existsb_In in Ex as (c & Hc & Hp).
    exists c. split; [done|]. by apply starts_with_prefix. }
  assert (Hsame : ∀ r, r = Ok (ph, se) → (procfs_state (Ok (ph, se)) → procfs_state r) ∧ sealed_in (Ok (ph, se)) r).
  { intros r ->. by split. }
  destruct (ho_metadata h (path_join (ms_source mount) relative)) as [[]|[]] eqn:Em.
  - split_and!.
    + intros Hst ? ? [= <- <-]. destruct (Hst _ _ eq_refl) as [Hf ->]. split.
      * apply Forall_app. split; [done|]. constructor; [eauto|constructor].
      * rewrite fmap_app. done.
    + intros ? ? [= <- <-]. exists ph, se. split; [done|]. intros x Hx. apply elem_of_app. by left.
    + intros ? ? [= <- <-] _. exists alias. split; [apply elem_of_app; right; by left|done].
  - destruct (Hsame _ eq_refl). split_and!; try done. intros ? ? [= <- <-] Hd. unfold alias in *. congruence.
  - destruct (Hsame _ eq_refl). split_and!; try done. intros ? ? [= <- <-] Hd. congruence.
  - destruct (Hsame _ eq_refl). split_and!; try done. intros ? ? [= <- <-] Hd. congruence.
  - by split_and!.
Qed.

Lemma alias_sealed_grows mount relative r r' : sealed_in r r' → alias_sealed mount relative r → alias_sealed mount relative r'.
Proof.
  intros Hs Ha ph' se' E Hd. destruct (Hs _ _ E) as (ph & se & E0 & Hsub).
  destruct (Ha _ _ E0 Hd) as (c & Hc & Hp). exists c. auto.
Qed.

Lemma procfs_mount_spec points mount acc :
  (procfs_state acc → procfs_state (procfs_mount h points acc mount)) ∧
  sealed_in acc (procfs_mount h points acc mount) ∧
  ∀ relative, relative ∈ points_under points (ms_source mount) → alias_sealed mount relative (procfs_mount h points acc mount).
Proof.
  unfold procfs_mount. revert acc. induction (points_under points (ms_source mount)) as [|rel l IH]; intros acc; simpl.
  { split_and!; [done|done|]. by intros ? ?%elem_of_nil. }
  destruct (IH (procfs_alias h mount acc rel)) as (I1 & I2 & I3). destruct (procfs_alias_spec mount acc rel) as (A1 & A2 & A3).
  split_and!; [auto|by etrans|]. intros relative [->|Hin]%elem_of_cons; [|by apply I3].
  by eapply alias_sealed_grows.
Qed.

Lemma procfs_mounts_spec points ms acc :
  let r := foldl (procfs_mount h points) acc ms in
  (procfs_state acc → procfs_state r) ∧ sealed_in acc r ∧
  ∀ mount relative, mount ∈ ms → relative ∈ points_under points (ms_source mount) → alias_sealed mount relative r.
Proof.
  cbv zeta. revert acc. induction ms as [|m ms IH]; intros acc; simpl.
  { split_and!; [done|done|]. by intros ? ? ?%elem_of_nil. }
  destruct (IH (procfs_mount h points acc m)) as (I1 & I2 & I3). destruct (procfs_mount_spec points m acc) as (A1 & A2 & A3).
  split_and!; [auto|by etrans|]. intros mount relative [->|Hin]%elem_of_cons Hr; [|by apply I3].
  eapply alias_sealed_grows; [exact I2|]. by apply A3.
Qed.

(** Every directory alias of a mount is below the sandbox's own procfs or a seal. *)
Lemma project_procfs_spec ms points phase :
  project_procfs_aliases h ms points = Ok phase →
  Forall (λ s, ∃ t, s = Proc RMask t) phase ∧
  ∀ mount relative, mount ∈ ms → relative ∈ points_under points (ms_source mount) →
    ho_metadata h (path_join (ms_source mount) relative) = Ok FtDir →
    let alias := normalize_absolute_path (path_join (ms_target mount) relative) in
    SANDBOX_PROCFS_TARGET `prefix_of` alias ∨ ∃ s, s ∈ phase ∧ step_target s `prefix_of` alias.
Proof.
  unfold project_procfs_aliases.
  destruct (procfs_mounts_spec points ms (Ok ([], [SANDBOX_PROCFS_TARGET]))) as (Hst & _ & Hal).
  destruct (foldl _ _ _) as [[ph se]|] eqn:E; [|done]. intros [= <-].
  destruct (Hst) with (phase := ph) (sealed := se) as [Hf Hse]; [|done|].
  { intros ? ? [= <- <-]. split; [constructor|done]. }
  split; [done|]. intros mount relative Hm Hr Hd. cbv zeta.
  destruct (Hal mount relative Hm Hr ph se eq_refl Hd) as (c & Hc & Hp). rewrite Hse in Hc.
  apply elem_of_cons in Hc as [->|Hc]; [by left|right]. apply list_elem_of_fmap in Hc as (s & -> & Hs). eauto.
Qed.

(** ** Configuration directories *)

(** The directories [mask_firma_dir] considers: those of the ancestors of the
    working directory, of the home and of the configuration in use. *)
Definition config_dirs (launch : LaunchSpec) : list Path :=
  (config_candidates (ls_cwd launch) ++ option_list (host_home_firma_dir h launch) ++
   option_list (launch_config_file launch ≫= firma_parent))%list.

Lemma firma_dir_at_masked dir s canonical :
  ho_canonicalize h dir = Ok canonical → named_config_dir canonical = true →
  is_Some (mk_masked (mask_firma_dir_at h dir s) !! canonical).
Proof. intros Hc Hn. unfold mask_firma_dir_at. rewrite Hc, Hn. apply tmpfs_masked. Qed.

Lemma config_dir_masked launch phase dir canonical :
  dir ∈ config_dirs launch → ho_canonicalize h dir = Ok canonical → named_config_dir canonical = true →
  is_Some (mk_masked (mask_firma_dir h launch phase) !! canonical).
Proof.
  intros Hin Hc Hn. unfold mask_firma_dir. set (s0 := {| mk_phase := phase; mk_masked := ∅ |}).
  set (s1 := foldl _ s0 _). set (s2 := if ho_exists _ _ then s1 else _).
  set (s3 := match host_home_firma_dir h launch with Some dir => _ | None => s2 end).
  assert (H12 : masks s1 s2) by (unfold s2; destruct (ho_exists _ _); [done|apply masks_tmpfs]).
  assert (H23 : masks s2 s3) by (unfold s3; destruct (host_home_firma_dir h launch); [apply masks_firma_dir_at|done]).
  set (s4 := match launch_config_file launch with Some f => _ | None => s3 end).
  assert (H34 : masks s3 s4).
  { unfold s4. destruct (launch_config_file launch) as [f|]; [|done].
    destruct (firma_parent f); [apply masks_firma_dir_at|apply masks_config_file]. }
  unfold config_dirs in Hin. rewrite !elem_of_app in Hin. destruct Hin as [Hin|[Hin|Hin]].
  - apply (mask_grows _ _ H34), (mask_grows _ _ H23), (mask_grows _ _ H12). unfold s1.
    apply list_elem_of_split in Hin as (l1 & l2 & ->). rewrite foldl_app. simpl.
    eapply mask_grows; [apply masks_foldl; intros; apply masks_firma_dir_at|by apply firma_dir_at_masked].
  - apply (mask_grows _ _ H34). unfold s3. destruct (host_home_firma_dir h launch) as [d|]; [|by apply elem_of_nil in Hin].
    apply list_elem_of_singleton in Hin as <-. by apply firma_dir_at_masked.
  - unfold s4. destruct (launch_config_file launch) as [f|]; [|by apply elem_of_nil in Hin]. simpl in Hin.
    destruct (firma_parent f) as [d|]; [|by apply elem_of_nil in Hin].
    apply list_elem_of_singleton in Hin as <-. by apply firma_dir_at_masked.
Qed.

(** What the mounts of a launch may read: nothing at or below [dir], and for a
    protected subpath nothing above it either. *)
Definition mounts_avoid (handle : SandboxHandle) (dir : Path) : Prop :=
  ∀ m source, m ∈ hd_mounts handle → ho_canonicalize h (ms_source (sm_spec m)) = Ok source →
    ¬ dir `prefix_of` source ∧ (sm_placement m = FrameworkProtectedSubpath → ¬ source `prefix_of` dir).

Lemma validate_each_source control sandbox procfs ms vs v :
  validate_each h control sandbox procfs ms = Ok vs → v ∈ vs →
  ∃ m, m ∈ ms ∧ ho_canonicalize h (ms_source (sm_spec m)) = Ok (ms_source (vm_spec v)) ∧ vm_placement v = sm_placement m.
Proof.
  revert vs. induction ms as [|m ms IH]; intros vs; simpl; [by intros [= <-] []%elem_of_nil|].
  destruct (validate_mount h control sandbox procfs m) as [v0|] eqn:Ev; [|done].
  destruct (validate_each h control sandbox procfs ms) as [vs0|]; [|done]. intros [= <-] [->|Hv]%elem_of_cons.
  - exists m. split; [by left|]. revert Ev. unfold validate_mount.
    destruct (ho_canonicalize h (ms_source (sm_spec m))) as [source|]; [|done].
    destruct (match sm_authority m with OperatorProvided | Framework => _ | SandboxInfrastructure _ => _ end) as [[]|]; [|done].
    destruct (validate_reserved_target h _); [|done]. destruct (procfs_covers procfs source); [done|].
    destruct (_ && _); [done|]. by intros [= <-].
  - destruct (IH vs0 eq_refl Hv) as (m' & ? & ?). exists m'. split; [by right|done].
Qed.

(** ** Login state *)

Lemma connection_aliases_spec resolved ms ts :
  connection_aliases resolved ms = Ok ts →
  ∀ m, m ∈ ms → ¬ resolved `prefix_of` ms_source (vm_spec m) ∧
    ∀ relative, path_strip_prefix resolved (ms_source (vm_spec m)) = Some relative →
      normalize_absolute_path (path_join (ms_target (vm_spec m)) relative) ∈ ts.
Proof.
  revert ts. induction ms as [|m0 ms IH]; intros ts; simpl; [by intros _ m []%elem_of_nil|].
  destruct (path_starts_with _ resolved) eqn:Hst; [done|].
  destruct (connection_aliases resolved ms) as [rest|]; [|done]. intros [= <-] m [->|Hm]%elem_of_cons.
  - split; [by apply starts_with_not_prefix|]. intros relative ->. by left.
  - destruct (IH _ eq_refl m Hm) as [? Hal]. split; [done|]. intros relative Hr. specialize (Hal _ Hr).
    destruct (path_strip_prefix resolved (ms_source (vm_spec m0))); [by right|done].
Qed.

Lemma connection_seals_spec plan masked ts phase t :
  connection_seals h plan masked ts = Ok phase → t ∈ ts → host_path_exposed_at_target plan t = true →
  ∃ c, (c ∈ masked ∨ Tmpfs RMask c ∈ phase) ∧ c `prefix_of` t.
Proof.
  revert masked phase. induction ts as [|t0 ts IH]; intros masked phase; simpl; [by intros _ []%elem_of_nil|].
  destruct (reject_connection_mount_overlap h plan t0); [|done].
  destruct (negb (host_path_exposed_at_target plan t0) || existsb (path_starts_with t0) masked) eqn:Hskip.
  - intros E [->|Hin]%elem_of_cons He; [|by eapply IH]. rewrite He in Hskip. simpl in Hskip.
    apply existsb_In in Hskip as (c & Hc & Hp). exists c. split; [by left|by apply starts_with_prefix].
  - destruct (connection_seals h plan (t0 :: masked) ts) as [rest|] eqn:E; [|done].
    intros [= <-] [->|Hin]%elem_of_cons He; [exists t0; split; [right; by left|done]|].
    destruct (IH _ _ E Hin He) as (c & [[->|Hc]%elem_of_cons|Hc] & Hp).
    + exists t0. split; [right; by left|done].
    + exists c. split; [by left|done].
    + exists c. split; [right; by right|done].
Qed.

Lemma connection_targets_elem plan ms cs ts c :
  connection_targets h plan ms cs = Ok ts → c ∈ cs →
  ∃ ts', connection_targets_of h plan ms c = Ok ts' ∧ ts' ⊆ ts.
Proof.
  revert ts. induction cs as [|c0 cs IH]; intros ts; simpl; [by intros _ []%elem_of_nil|].
  destruct (connection_targets_of h plan ms c0) as [ts0|] eqn:E0; [|done].
  destruct (connection_targets h plan ms cs) as [rest|] eqn:E1; [|done]. intros [= <-] [->|Hin]%elem_of_cons.
  - exists ts0. split; [done|]. intros x Hx. apply elem_of_app. by left.
  - destruct (IH _ eq_refl Hin) as (ts' & ? & Hsub). exists ts'. split; [done|]. intros x Hx. apply elem_of_app. right. auto.
Qed.

(** What masking a login directory establishes of it. *)
Record store_masked (plan : BwrapMountPlan) (ms : list ValidatedMount) (seals : BwrapMountPhase) (store : Path) : Prop := {
  sk_required : reject_overlaps h store (required_mounts plan) = Ok tt;
  sk_sources : ∀ m, m ∈ ms → ¬ store `prefix_of` ms_source (vm_spec m);
  sk_direct : host_path_exposed_at_target plan store = true → ∃ c, Tmpfs RMask c ∈ seals ∧ c `prefix_of` store;
  sk_aliases : ∀ m relative, m ∈ ms → path_strip_prefix store (ms_source (vm_spec m)) = Some relative →
    let alias := normalize_absolute_path (path_join (ms_target (vm_spec m)) relative) in
    host_path_exposed_at_target plan alias = true → ∃ c, Tmpfs RMask c ∈ seals ∧ c `prefix_of` alias;
}.

Lemma connection_store_masked plan ms launch seals dir store :
  mask_connection_dirs h plan ms launch = Ok seals → dir ∈ connection_candidates launch →
  resolve_path_allow_missing h dir "connection directory" = Ok store → ho_metadata h store = Ok FtDir →
  store_masked plan ms seals store.
Proof.
  unfold mask_connection_dirs. destruct (connection_targets h plan ms _) as [ts|] eqn:Et; [|done]. intros Hs Hdir Hr Hm.
  destruct (connection_targets_elem _ _ _ _ _ Et Hdir) as (ts' & Hof & Hsub). unfold connection_targets_of in Hof.
  rewrite Hr, Hm in Hof. destruct (reject_connection_mount_overlap h plan store) as [[]|] eqn:Hrej; [|done].
  destruct (connection_aliases store ms) as [as_|] eqn:Ha; [|done]. injection Hof as <-.
  assert (Hseal : ∀ t, t ∈ store :: as_ → host_path_exposed_at_target plan t = true →
            ∃ c, Tmpfs RMask c ∈ seals ∧ c `prefix_of` t).
  { intros t Ht He. destruct (connection_seals_spec _ _ _ _ t Hs) as (c & [[]%elem_of_nil|Hc] & Hp); [|done|eauto].
    rewrite !merge_sort_Permutation, elem_of_remove_dups. auto. }
  pose proof (connection_aliases_spec _ _ _ Ha) as Hal. split.
  - exact Hrej.
  - intros m Hin. by apply Hal.
  - intros. apply Hseal; [by left|done].
  - intros m relative Hin Hstrip alias He. apply Hseal; [|done]. right. by apply Hal.
Qed.

(** A required bind whose source has no dot components is apart from the store. *)
Lemma required_apart store steps role source target ro :
  reject_overlaps h store steps = Ok tt → Bind role source target ro ∈ steps → clean source → apart store source.
Proof.
  induction steps as [|s steps IH]; simpl; [by intros _ []%elem_of_nil|].
  destruct s as [r0 s0 t0 o0| | |]; try (intros ? [?|?]%elem_of_cons ?; [done|auto]).
  destruct (reject_required h store t0 s0) as [[]|] eqn:Hr; [|done].
  destruct (reject_required h store t0 t0) as [[]|]; [|done]. intros Hrest [[= -> -> -> ->]|Hin]%elem_of_cons Hcl; [|auto].
  unfold reject_required in Hr. destruct (resolve_path_allow_missing h s0 _); [|done].
  rewrite normalize_clean in Hr by done. destruct (_ || _) eqn:Ho; [done|].
  apply orb_false_iff in Ho as [_ [H1 H2]%orb_false_iff]. split; by apply starts_with_not_prefix.
Qed.

(** A bind that nothing later covers leaves its target exposed. *)
Lemma exposed_after plan l1 s l2 t p :
  plan_before_connections plan = (l1 ++ s :: l2)%list → (∃ role source ro, s = Bind role source (step_target s) ro ∧ role ≠ RMask) →
  step_target s `prefix_of` t → t `prefix_of` p → Forall (uncovered p) l2 →
  host_path_exposed_at_target plan t = true.
Proof.
  intros E (role & source & ro & Hs & Hr) Hst Htp Hun. unfold host_path_exposed_at_target. rewrite E, foldl_app. simpl.
  assert (Hhere : exposed_step t (foldl (exposed_step t) false l1) s = true).
  { unfold exposed_step. rewrite (proj2 (starts_with_prefix _ _) Hst), Hs. by rewrite bool_decide_eq_false_2. }
  rewrite Hhere. clear -Htp Hun. induction l2 as [|x l2 IH]; [done|]. apply Forall_cons in Hun as [Hx Hun]. simpl.
  unfold exposed_step at 2. destruct (path_starts_with t (step_target x)) eqn:Hc; [|by apply IH].
  apply starts_with_prefix in Hc. exfalso. apply Hx. by etrans.
Qed.

Section OnePlan.
Context (root : Path) (handle : SandboxHandle) (launch : LaunchSpec) (b : BwrapHardening) (procfs : HostProcfsMounts).
Context (plan : BwrapMountPlan) (control sandbox : Path) (mounts : list ValidatedMount).
Hypothesis Hplan : planned root handle launch b procfs plan control sandbox mounts.

Lemma mount_target_clean m : plain_targets handle → m ∈ mounts → clean (ms_target (vm_spec m)).
Proof.
  intros Hp Hm. destruct (planned_mount_ok _ _ _ _ _ _ _ _ _ _ Hplan Hm) as (_ & sm & Hsm & ->).
  eapply resolve_clean. by apply Hp.
Qed.

Lemma config_masks : Forall is_mask (pl_config_seals plan).
Proof.
  rewrite (pd_config _ _ _ _ _ _ _ _ _ Hplan). eapply project_mount_aliases_spec.
  - eapply mask_ok; [apply masks_firma_dir|apply empty_masking_ok].
  - eapply mask_kinds; [apply masks_firma_dir|]. simpl.
    destruct (bh_readonly_rootfs b); [apply sensitive_masks|constructor].
Qed.

Lemma seal_masks : Forall is_mask (pl_control_plane_seals plan).
Proof. rewrite (pd_seals _ _ _ _ _ _ _ _ _ Hplan). apply control_seals_spec. Qed.

Lemma connection_tmpfs s : s ∈ pl_connection_seals plan → ∃ t, s = Tmpfs RMask t.
Proof.
  pose proof (pd_connections _ _ _ _ _ _ _ _ _ Hplan) as H. unfold mask_connection_dirs in H.
  destruct (connection_targets _ _ _ _) as [ts|]; [|done]. revert H. generalize (@nil Path) as masked.
  generalize (pl_connection_seals plan). induction (merge_sort depth_le (merge_sort path_le (remove_dups ts))) as [|t l IH];
    intros phase masked; simpl; [by intros [= <-] []%elem_of_nil|].
  destruct (reject_connection_mount_overlap _ _ _); [|done]. destruct (_ || _); [apply IH|].
  destruct (connection_seals _ _ _ l) as [rest|] eqn:E; [|done]. intros [= <-] [->|Hin]%elem_of_cons; [eauto|].
  by eapply IH.
Qed.

(** Where the bind that shows a path comes from: an identity bind of the layout, a
    mount of its phase, a null device, the sandbox's runtime or a CA file. *)
Lemma layout_shows s p shown : s ∈ pl_layout plan → shows s p shown → shown = p.
Proof.
  rewrite (pd_layout _ _ _ _ _ _ _ _ _ Hplan). intros Hs (role & source & target & ro & below & -> & -> & ->).
  apply layout_binds in Hs as [-> _]. done.
Qed.

Lemma mask_shows phase s p shown : Forall is_mask phase → s ∈ phase → shows s p shown → ∃ below, shown = (dev_null ++ below)%list.
Proof.
  intros Hf Hs (role & source & target & ro & below & -> & -> & ->). rewrite Forall_forall in Hf.
  destruct (Hf _ Hs) as [_ ->]. eauto.
Qed.

Lemma mount_shows (P : ValidatedMount → bool) s p shown :
  s ∈ mount_step <$> filter P (merge_sort mount_le mounts) → shows s p shown →
  ∃ m below, m ∈ mounts ∧ P m = true ∧ p = (ms_target (vm_spec m) ++ below)%list ∧
    shown = (ms_source (vm_spec m) ++ below)%list ∧ mount_ok control sandbox procfs m.
Proof.
  intros Hs (role & source & target & ro & below & E & -> & ->). apply mount_steps_elem in Hs as (m & -> & Hm & HP).
  injection E as _ <- <- _. exists m, below. split_and!; try done.
  by apply (planned_mount_ok _ _ _ _ _ _ _ _ _ _ Hplan).
Qed.

Lemma runtime_shows s p shown :
  s ∈ pl_sandbox_runtime plan → shows s p shown →
  shown = p ∧ (sandbox `prefix_of` shown ∨
    ∃ f, f ∈ ca_material control (hd_sandbox_id handle) ∧ f `prefix_of` shown).
Proof.
  destruct (pd_runtime _ _ _ _ _ _ _ _ _ Hplan) as (ca & Hca & ->).
  intros [Hs|Hs]%elem_of_app (role & source & target & ro & below & -> & -> & ->).
  - destruct (path_starts_with sandbox control); [|by apply elem_of_nil in Hs].
    apply list_elem_of_singleton in Hs. simplify_eq. split; [done|]. left. by exists below.
  - destruct (ca_bind _ _ _ _ _ Hca Hs) as (f & Hf & _ & E). simplify_eq. split; [done|]. right.
    exists f. split; [done|]. by exists below.
Qed.

Lemma control_clean : clean control.
Proof. eapply resolve_clean. apply (pd_control _ _ _ _ _ _ _ _ _ Hplan). Qed.

(** Whatever was bound before the seals of the control plane is hidden by them. *)
Lemma seal_covers p shown m below :
  plain_targets handle → m ∈ mounts → mount_ok control sandbox procfs m → is_infrastructure m = false →
  p = (ms_target (vm_spec m) ++ below)%list → shown = (ms_source (vm_spec m) ++ below)%list →
  control `prefix_of` shown → ∃ st, st ∈ pl_control_plane_seals plan ∧ step_target st `prefix_of` p.
Proof.
  intros Hpl Hm Hok Hi -> -> Hc.
  destruct (alias_covers (ms_source (vm_spec m)) (ms_target (vm_spec m)) below control) as (rel & Hs & _ & _ & Ha & Hp).
  { by apply clean_nonempty, mount_target_clean. }
  { apply Hok. }
  { apply control_clean. }
  { done. }
  { by apply Hok. }
  destruct (control_seals_spec control mounts) as (_ & _ & Hal).
  destruct (Hal m rel Hm (mo_canonical _ _ _ _ Hok) Hs) as (st & Hst & Ht).
  exists st. rewrite (pd_seals _ _ _ _ _ _ _ _ _ Hplan). split; [done|]. by rewrite Ht, Ha.
Qed.

(** The phases up to the seals of procfs, and from the seals of the control plane. *)
Definition phases_external : list BwrapPlanStep :=
  (pl_overlays plan ++ pl_config_seals plan ++ pl_protected_subpaths plan)%list.
Definition phases_mounted : list BwrapPlanStep := (pl_layout plan ++ phases_external)%list.
Definition phases_sealed : list BwrapPlanStep :=
  (pl_control_plane_seals plan ++ pl_sandbox_runtime plan ++ pl_infrastructure plan ++ pl_connection_seals plan)%list.

Lemma plan_phases : plan_steps plan = ((phases_mounted ++ pl_procfs_seals plan) ++ phases_sealed)%list.
Proof. unfold plan_steps, plan_before_connections, phases_mounted, phases_external, phases_sealed. by rewrite <- !app_assoc. Qed.

Lemma procfs_shows s p shown : s ∈ pl_procfs_seals plan → ¬ shows s p shown.
Proof.
  intros Hin (? & ? & ? & ? & ? & E & _).
  pose proof (project_procfs_spec _ _ _ (pd_procfs _ _ _ _ _ _ _ _ _ Hplan)) as [Hf _]. rewrite Forall_forall in Hf.
  destruct (Hf s Hin) as [t ->]. done.
Qed.

(** What the phases from the control plane's seals on show. *)
Lemma sealed_shows s p shown :
  s ∈ phases_sealed → shows s p shown →
  (∃ below, shown = (dev_null ++ below)%list) ∨ sandbox `prefix_of` shown ∨
  ∃ f, f ∈ ca_material control (hd_sandbox_id handle) ∧ f `prefix_of` shown.
Proof.
  unfold phases_sealed. rewrite !elem_of_app. intros [Hin|[Hin|[Hin|Hin]]] Hs.
  - left. by eapply mask_shows; [apply seal_masks|..].
  - right. by apply (runtime_shows s p).
  - rewrite (pd_infrastructure _ _ _ _ _ _ _ _ _ Hplan) in Hin.
    destruct (mount_shows _ _ _ _ Hin Hs) as (m & below & _ & Hi & _ & -> & Hok). right. left.
    apply prefix_app_r. by apply Hok.
  - apply connection_tmpfs in Hin as [t ->]. by destruct Hs as (? & ? & ? & ? & ? & ? & _).
Qed.

(** What the phases before show: the path itself, the null device, or a mount. *)
Definition shows_mount (p shown : Path) : Prop :=
  ∃ m below, m ∈ mounts ∧ is_infrastructure m = false ∧ p = (ms_target (vm_spec m) ++ below)%list ∧
    shown = (ms_source (vm_spec m) ++ below)%list ∧ mount_ok control sandbox procfs m.

Lemma external_shows s p shown :
  s ∈ phases_external → shows s p shown → (∃ below, shown = (dev_null ++ below)%list) ∨ shows_mount p shown.
Proof.
  unfold phases_external, shows_mount. rewrite !elem_of_app. intros [Hin|[Hin|Hin]] Hs.
  - rewrite (pd_overlays _ _ _ _ _ _ _ _ _ Hplan) in Hin. right.
    destruct (mount_shows _ _ _ _ Hin Hs) as (m & below & Hm & HP & Hp & Hsh & Hok). boolify. by exists m, below.
  - left. by eapply mask_shows; [apply config_masks|..].
  - rewrite (pd_protected _ _ _ _ _ _ _ _ _ Hplan) in Hin. right.
    destruct (mount_shows _ _ _ _ Hin Hs) as (m & below & Hm & HP & Hp & Hsh & Hok). boolify. by exists m, below.
Qed.

Lemma mounted_shows s p shown :
  s ∈ phases_mounted → shows s p shown →
  shown = p ∨ (∃ below, shown = (dev_null ++ below)%list) ∨ shows_mount p shown.
Proof.
  intros [Hin|Hin]%elem_of_app Hs; [left; by eapply layout_shows|right; by eapply external_shows].
Qed.

Lemma control_plane_hidden p shown :
  plain_targets handle → apart control dev_null →
  view (plan_steps plan) p = Some shown → control `prefix_of` shown →
  sandbox `prefix_of` shown ∨ ∃ f, f ∈ ca_material control (hd_sandbox_id handle) ∧ f `prefix_of` shown.
Proof.
  intros Hpl Hap Hv Hc. apply view_bind in Hv as (s & Hin & Hs & Hcut). rewrite plan_phases in Hin, Hcut.
  assert (Hdev : ∀ below, shown ≠ (dev_null ++ below)%list).
  { intros below ->. by apply apart_below in Hc. }
  destruct (Hcut _ _ eq_refl) as [Hlate|[Hearly Hun]].
  { destruct (sealed_shows _ _ _ Hlate Hs) as [[below E]|?]; [by apply Hdev in E|done]. }
  exfalso. rewrite Forall_forall in Hun.
  cut (∃ st, st ∈ pl_control_plane_seals plan ∧ step_target st `prefix_of` p).
  { intros (st & Hst & Hp). apply (Hun st); [|done]. apply elem_of_app. by left. }
  apply elem_of_app in Hearly as [Hearly|Hearly]; [|by apply (procfs_shows s p shown) in Hearly].
  destruct (mounted_shows _ _ _ Hearly Hs) as [->|[[below E]|(m & below & Hm & Hi & Hp & Hsh & Hok)]].
  - destruct (control_seals_spec control mounts) as (_ & (st & Hst & Ht) & _).
    exists st. rewrite (pd_seals _ _ _ _ _ _ _ _ _ Hplan), Ht. by split.
  - by apply Hdev in E.
  - by eapply seal_covers.
Qed.

(** A directory procfs point of the host that a path would show is below a seal. *)
Lemma points_under_elem point source relative :
  point ∈ procfs → path_strip_prefix point source = Some relative → relative ≠ [] → relative ∈ points_under procfs source.
Proof.
  intros Hin Hs Hne. unfold points_under. apply list_elem_of_omap. exists point. split; [done|]. rewrite Hs.
  by destruct relative.
Qed.

Lemma procfs_sealed p shown point :
  plain_targets handle → point ∈ procfs → clean point → point ≠ path_root → ho_metadata h point = Ok FtDir →
  point `prefix_of` shown → shown = p ∨ shows_mount p shown →
  SANDBOX_PROCFS_TARGET `prefix_of` p ∨ ∃ s, s ∈ pl_procfs_seals plan ∧ step_target s `prefix_of` p.
Proof.
  intros Hpl Hpt Hcl Hnr Hdir Hpre Hshow.
  assert (Hgoal : ∀ alias, alias `prefix_of` p →
    SANDBOX_PROCFS_TARGET `prefix_of` alias ∨ (∃ s, s ∈ pl_procfs_seals plan ∧ step_target s `prefix_of` alias) →
    SANDBOX_PROCFS_TARGET `prefix_of` p ∨ ∃ s, s ∈ pl_procfs_seals plan ∧ step_target s `prefix_of` p).
  { intros alias Ha [?|(s & ? & ?)]; [left; by etrans|right; exists s; split; [done|by etrans]]. }
  pose proof (project_procfs_spec _ _ _ (pd_procfs _ _ _ _ _ _ _ _ _ Hplan)) as [_ Hal].
  destruct Hshow as [->|(m & below & Hm & _ & -> & -> & Hok)].
  - destruct Hcl as (names & -> & Hn). destruct (decide (names = [])) as [->|Hne]; [done|].
    assert (Hj : path_join path_root names = RootDir :: names) by (by rewrite join_names).
    apply (Hgoal (RootDir :: names)); [done|].
    destruct (Hal {| ms_source := path_root; ms_target := path_root; ms_read_only := bh_readonly_rootfs b |} names) as [Ha|Ha].
    + by left.
    + eapply points_under_elem; [exact Hpt| |done]. by apply strip_prefix_app.
    + simpl. by rewrite Hj.
    + left. revert Ha. simpl ms_target. rewrite Hj, normalize_clean; [done|by exists names].
    + right. revert Ha. simpl ms_target. rewrite Hj, normalize_clean; [done|by exists names].
  - destruct (alias_covers (ms_source (vm_spec m)) (ms_target (vm_spec m)) below point) as (rel & Hs & Hne & Hn & _ & Hp).
    { by apply clean_nonempty, mount_target_clean. }
    { apply Hok. }
    { done. }
    { done. }
    { intros Hc. pose proof (mo_procfs _ _ _ _ Hok) as Hcov. unfold procfs_covers in Hcov. rewrite existsb_not_In in Hcov.
      specialize (Hcov point Hpt). by apply starts_with_not_prefix in Hcov. }
    assert (Hct : clean (ms_target (vm_spec m))) by (by apply mount_target_clean).
    apply (Hgoal _ Hp).
    assert (Hjt : path_join (ms_target (vm_spec m)) rel = (ms_target (vm_spec m) ++ rel)%list)
      by (apply join_names; [by apply clean_nonempty|done]).
    cut (SANDBOX_PROCFS_TARGET `prefix_of` normalize_absolute_path (path_join (ms_target (vm_spec m)) rel) ∨
      ∃ s, s ∈ pl_procfs_seals plan ∧ step_target s `prefix_of` normalize_absolute_path (path_join (ms_target (vm_spec m)) rel)).
    { rewrite Hjt, normalize_clean; [done|by apply clean_app]. }
    apply (Hal (vm_spec m) rel).
    + right. by apply list_elem_of_fmap_2.
    + by eapply points_under_elem.
    + rewrite join_names by (apply clean_nonempty, Hok || done). apply strip_prefix_app in Hs. by rewrite <- Hs.
Qed.

(** No mount is at, above or below the sandbox's procfs. *)
Lemma mount_off_procfs p shown : plain_targets handle → SANDBOX_PROCFS_TARGET `prefix_of` p → ¬ shows_mount p shown.
Proof.
  intros Hpl Hp (m & below & Hm & _ & -> & _ & Hok).
  destruct (planned_mount_ok _ _ _ _ _ _ _ _ _ _ Hplan Hm) as (_ & sm & Hsm & Ht).
  destruct (mo_target _ _ _ _ Hok) as (r & Hr & Hroot & Hproc). rewrite Ht, (Hpl sm Hsm), <- Ht in Hr. injection Hr as <-.
  pose proof (mount_target_clean m Hpl Hm) as (names & E & Hn). rewrite E in *.
  destruct names as [|n names]; [done|]. destruct Hp as [k Hk]. simplify_eq/=. apply Hproc. by exists names.
Qed.

Lemma layout_cut : ∃ l, pl_layout plan = (l ++ [Proc RLayout SANDBOX_PROCFS_TARGET])%list.
Proof.
  rewrite (pd_layout _ _ _ _ _ _ _ _ _ Hplan). unfold layout_phase. eexists.
  change [Dev RLayout [RootDir; Normal "dev"]; Proc RLayout SANDBOX_PROCFS_TARGET]
    with ([Dev RLayout [RootDir; Normal "dev"]] ++ [Proc RLayout SANDBOX_PROCFS_TARGET])%list.
  rewrite app_assoc. reflexivity.
Qed.

(** The last phases show nothing of what is apart from the runtimes. *)
Lemma ca_material_under f : f ∈ ca_material control (hd_sandbox_id handle) → control `prefix_of` f ∧ clean f.
Proof.
  assert (Hc := control_clean). destruct (ca_paths control (hd_sandbox_id handle) (clean_nonempty _ Hc)) as [-> _].
  intros (l & -> & Hl)%list_elem_of_fmap. split; [by apply prefix_app_r|]. apply clean_app; [done|].
  unfold ca_material_names in Hl. repeat (apply elem_of_cons in Hl as [->|Hl]; [repeat constructor|]). by apply elem_of_nil in Hl.
Qed.

Lemma sealed_apart s p shown point :
  apart point dev_null → apart point sandbox → apart point control → point `prefix_of` shown →
  s ∈ phases_sealed → ¬ shows s p shown.
Proof.
  intros Hdev Hsb Hct Hpre Hl Hs.
  destruct (sealed_shows _ _ _ Hl Hs) as [[below ->]|[[k ->]|(f & [[l ->] _]%ca_material_under & [k ->])]].
  - by apply apart_below in Hpre.
  - by apply apart_below in Hpre.
  - rewrite <- app_assoc in Hpre. by apply apart_below in Hpre.
Qed.

Lemma procfs_hidden p shown point :
  plain_targets handle → point ∈ procfs → clean point → ho_metadata h point = Ok FtDir →
  apart point dev_null → apart point sandbox → apart point control →
  view (plan_steps plan) p = Some shown → ¬ point `prefix_of` shown.
Proof.
  intros Hpl Hpt Hcl Hdir Hdev Hsb Hct Hv Hpre. apply view_bind in Hv as (s & Hin & Hs & Hcut).
  rewrite plan_phases in Hin, Hcut.
  assert (Hnr : point ≠ path_root).
  { intros ->. destruct Hdev as [Hd _]. apply Hd. by exists [Normal "dev"; Normal "null"]. }
  assert (Hnd : ∀ below, shown ≠ (dev_null ++ below)%list) by (intros below ->; by apply apart_below in Hpre).
  assert (Hlate : s ∉ phases_sealed) by (intros Hl; by apply (sealed_apart s p shown point)).
  assert (Hmid : s ∉ pl_procfs_seals plan) by (intros Hm; by apply (procfs_shows s p shown) in Hm).
  assert (Hm : s ∈ phases_mounted) by (rewrite !elem_of_app in Hin; tauto).
  assert (Hshow : shown = p ∨ shows_mount p shown).
  { destruct (mounted_shows _ _ _ Hm Hs) as [?|[[below E]|?]]; [by left|by apply Hnd in E|by right]. }
  destruct (procfs_sealed p shown point Hpl Hpt Hcl Hnr Hdir Hpre Hshow) as [Hproc|(st & Hst & Hcov)].
  - destruct layout_cut as [l Hl].
    destruct (Hcut l ([Proc RLayout SANDBOX_PROCFS_TARGET] ++ phases_external ++ pl_procfs_seals plan ++ phases_sealed))%list as [Hb|[_ Hun]].
    { unfold phases_mounted. rewrite Hl. by rewrite <- !app_assoc. }
    + apply elem_of_app in Hb as [Hb|Hb]; [apply list_elem_of_singleton in Hb as ->; by destruct Hs as (? & ? & ? & ? & ? & ? & _)|].
      apply elem_of_app in Hb as [Hb|Hb]; [|rewrite elem_of_app in Hb; tauto].
      destruct (external_shows _ _ _ Hb Hs) as [[below E]|Hsm]; [by apply Hnd in E|].
      by apply mount_off_procfs in Hsm.
    + rewrite Forall_forall in Hun. apply (Hun (Proc RLayout SANDBOX_PROCFS_TARGET)); [by left|done].
  - destruct (Hcut phases_mounted (pl_procfs_seals plan ++ phases_sealed))%list as [Hb|[_ Hun]].
    { by rewrite app_assoc. }
    + rewrite elem_of_app in Hb. tauto.
    + rewrite Forall_forall in Hun. apply (Hun st); [|done]. apply elem_of_app. by left.
Qed.

(** A mask of the configuration seals covers what was bound before it. *)
Lemma config_mask_covers dir canonical p shown :
  plain_targets handle → mounts_avoid handle canonical → dir ∈ config_dirs launch →
  ho_canonicalize h dir = Ok canonical → named_config_dir canonical = true →
  canonical `prefix_of` shown → shown = p ∨ shows_mount p shown →
  (∃ st, st ∈ pl_config_seals plan ∧ step_target st `prefix_of` p).
Proof.
  intros Hpl Hav Hdir Hc Hn Hpre Hshow. rewrite (pd_config _ _ _ _ _ _ _ _ _ Hplan).
  set (sens := if bh_readonly_rootfs b then _ else _).
  destruct (project_mount_aliases_spec h (vm_spec <$> filter is_overlay mounts) (mask_firma_dir h launch sens)) as (_ & Hdirect & Hal).
  { eapply mask_ok; [apply masks_firma_dir|apply empty_masking_ok]. }
  { eapply mask_kinds; [apply masks_firma_dir|]. unfold sens. simpl.
    destruct (bh_readonly_rootfs b); [apply sensitive_masks|constructor]. }
  assert (Hmasked := config_dir_masked launch sens dir canonical Hdir Hc Hn).
  destruct Hshow as [->|(m & below & Hm & _ & -> & -> & Hok)].
  { destruct (Hdirect _ Hmasked) as (st & Hst & Ht). exists st. by rewrite Ht. }
  pose proof (pd_mounts _ _ _ _ _ _ _ _ _ Hplan) as Hv. unfold validate_mounts in Hv.
  destruct (validate_each _ _ _ _ _) as [vs|] eqn:Ev; [|done]. destruct (validate_overlay_destinations vs); simplify_eq/=.
  destruct (validate_each_source _ _ _ _ _ _ Ev Hm) as (sm & Hsm & Hsrc & Hplace).
  destruct (Hav sm _ Hsm Hsrc) as [Hnot Hprot].
  destruct (alias_covers (ms_source (vm_spec m)) (ms_target (vm_spec m)) below canonical) as (rel & Hs & Hne & _ & Ha & Hp).
  { by apply clean_nonempty, mount_target_clean. }
  { apply Hok. }
  { by eapply canonicalize_clean. }
  { done. }
  { done. }
  assert (Hover : is_overlay m = true).
  { unfold is_overlay. apply bool_decide_eq_true. destruct (vm_placement m) eqn:E; [done|]. exfalso.
    apply Hprot; [congruence|]. apply strip_prefix_app in Hs as ->. by apply prefix_app_r. }
  destruct (Hal (vm_spec m) (ms_source (vm_spec m)) canonical rel) as (st & Hst & Ht); [|apply Hok|done|done|].
  { apply list_elem_of_fmap_2, list_elem_of_filter. by rewrite Hover. }
  exists st. split; [done|]. by rewrite Ht, Ha.
Qed.

(** A protected subpath shows nothing of a directory the mounts avoid. *)
Lemma protected_avoids canonical s p shown :
  clean canonical → mounts_avoid handle canonical → canonical `prefix_of` shown → s ∈ pl_protected_subpaths plan → ¬ shows s p shown.
Proof.
  intros Hcl Hav Hpre Hin Hs. rewrite (pd_protected _ _ _ _ _ _ _ _ _ Hplan) in Hin.
  destruct (mount_shows _ _ _ _ Hin Hs) as (m & below & Hm & HP & _ & -> & Hok).
  pose proof (pd_mounts _ _ _ _ _ _ _ _ _ Hplan) as Hv. unfold validate_mounts in Hv.
  destruct (validate_each _ _ _ _ _) as [vs|] eqn:Ev; [|done]. destruct (validate_overlay_destinations vs); simplify_eq/=.
  destruct (validate_each_source _ _ _ _ _ _ Ev Hm) as (sm & Hsm & Hsrc & Hplace).
  destruct (Hav sm _ Hsm Hsrc) as [Hnot Hprot].
  destruct (prefix_comparable canonical (ms_source (vm_spec m)) (ms_source (vm_spec m) ++ below)%list) as [?|?];
    [done|by apply prefix_app_r|done|]. apply Hprot; [|done].
  rewrite <- Hplace. apply andb_true_iff in HP as [_ HP]. unfold is_overlay in HP. by destruct (vm_placement m).
Qed.

Lemma config_hidden dir canonical p shown :
  plain_targets handle → mounts_avoid handle canonical → dir ∈ config_dirs launch →
  ho_canonicalize h dir = Ok canonical → named_config_dir canonical = true →
  apart canonical dev_null → apart canonical sandbox → apart canonical control →
  view (plan_steps plan) p = Some shown → ¬ canonical `prefix_of` shown.
Proof.
  intros Hpl Hav Hdir Hc Hn Hdev Hsb Hct Hv Hpre. apply view_bind in Hv as (s & Hin & Hs & Hcut).
  assert (Hcl : clean canonical) by (by eapply canonicalize_clean).
  assert (Hnd : ∀ below, shown ≠ (dev_null ++ below)%list) by (intros below ->; by apply apart_below in Hpre).
  assert (Hlate : s ∉ phases_sealed) by (intros Hl; by apply (sealed_apart s p shown canonical)).
  assert (Hmid : s ∉ pl_procfs_seals plan) by (intros Hm; by apply (procfs_shows s p shown) in Hm).
  assert (Hpr : s ∉ pl_protected_subpaths plan) by (intros Hm; by apply (protected_avoids canonical s p shown)).
  assert (Hcf : s ∉ pl_config_seals plan).
  { intros Hm. destruct (mask_shows _ s p shown config_masks Hm Hs) as [below E]. by apply Hnd in E. }
  assert (Hm : s ∈ phases_mounted) by (rewrite plan_phases, !elem_of_app in Hin; tauto).
  assert (Hshow : shown = p ∨ shows_mount p shown).
  { destruct (mounted_shows _ _ _ Hm Hs) as [?|[[below E]|?]]; [by left|by apply Hnd in E|by right]. }
  destruct (config_mask_covers _ _ _ _ Hpl Hav Hdir Hc Hn Hpre Hshow) as (st & Hst & Hcov).
  destruct (Hcut (pl_layout plan ++ pl_overlays plan)%list
              (pl_config_seals plan ++ pl_protected_subpaths plan ++ pl_procfs_seals plan ++ phases_sealed)%list) as [Hb|[_ Hun]].
  { rewrite plan_phases. unfold phases_mounted, phases_external. by rewrite <- !app_assoc. }
  - rewrite !elem_of_app in Hb. tauto.
  - rewrite Forall_forall in Hun. apply (Hun st); [|done]. apply elem_of_app. by left.
Qed.

(** The place where a bind that shows something of a login store would be sealed:
    below its target and above the path it shows it at. *)
Definition seal_point (s : BwrapPlanStep) (p : Path) : Prop :=
  (∃ role source ro, s = Bind role source (step_target s) ro ∧ role ≠ RMask) ∧
  ∃ t, step_target s `prefix_of` t ∧ t `prefix_of` p ∧
    (host_path_exposed_at_target plan t = true → ∃ c, Tmpfs RMask c ∈ pl_connection_seals plan ∧ c `prefix_of` t).

Lemma layout_seal_point store s p shown :
  store_masked plan mounts (pl_connection_seals plan) store →
  (∀ role source target ro, Bind role source target ro ∈ pl_layout plan → store `prefix_of` target → target = store) →
  s ∈ pl_layout plan → shows s p shown → store `prefix_of` shown → seal_point s p.
Proof.
  intros Hk Hin Hs Hsh Hpre. pose proof (layout_shows _ _ _ Hs Hsh) as ->.
  destruct Hsh as (role & source & target & ro & below & -> & -> & _). split.
  - exists role, source, ro. split; [done|]. rewrite (pd_layout _ _ _ _ _ _ _ _ _ Hplan) in Hs. by apply layout_binds in Hs as [_ ?].
  - exists store. simpl. split_and!; [|done|apply Hk].
    destruct (prefix_comparable target store (target ++ below)%list) as [?|Hst]; [by apply prefix_app_r|done|done|].
    by rewrite (Hin _ _ _ _ Hs Hst).
Qed.

Lemma mount_seal_point store (P : ValidatedMount → bool) s p shown :
  store_masked plan mounts (pl_connection_seals plan) store → plain_targets handle → clean store →
  s ∈ mount_step <$> filter P (merge_sort mount_le mounts) → shows s p shown → store `prefix_of` shown → seal_point s p.
Proof.
  intros Hk Hpl Hcl Hs Hsh Hpre. destruct (mount_steps_elem _ _ _ Hs) as (m & -> & Hm & _).
  destruct Hsh as (role & source & target & ro & below & E & -> & ->). injection E as Erole <- <- _.
  destruct (planned_mount_ok _ _ _ _ _ _ _ _ _ _ Hplan Hm) as [Hok _]. pose proof (mount_target_clean m Hpl Hm) as Hct.
  destruct (alias_covers (ms_source (vm_spec m)) (ms_target (vm_spec m)) below store) as (rel & Hst & _ & Hn & _ & Hp);
    [by apply clean_nonempty|apply Hok|done|done|by apply (sk_sources _ _ _ _ Hk)|].
  split; [unfold mount_step, mount_role; do 3 eexists; split; [done|by destruct (vm_authority m)]|].
  pose proof (sk_aliases _ _ _ _ Hk m rel Hm Hst) as Ha. cbv zeta in Ha.
  rewrite join_names, normalize_clean in Ha; [|by apply clean_app|by apply clean_nonempty|done].
  exists (ms_target (vm_spec m) ++ rel)%list. split_and!; [by apply prefix_app_r|done|done].
Qed.

Lemma required_hidden store s p shown :
  store_masked plan mounts (pl_connection_seals plan) store → clean sandbox →
  s ∈ (pl_sandbox_runtime plan ++ pl_infrastructure plan)%list → store `prefix_of` shown → ¬ shows s p shown.
Proof.
  intros Hk Hsb Hin Hpre (role & source & target & ro & below & -> & -> & ->).
  assert (Hcl : clean source).
  { apply elem_of_app in Hin as [Hin|Hin].
    - destruct (pd_runtime _ _ _ _ _ _ _ _ _ Hplan) as (ca & Hca & E). rewrite E in Hin. apply elem_of_app in Hin as [Hs|Hs].
      + destruct (path_starts_with sandbox control); [|by apply elem_of_nil in Hs]. apply list_elem_of_singleton in Hs. by simplify_eq.
      + destruct (ca_bind _ _ _ _ _ Hca Hs) as (f & Hf & _ & Ef). simplify_eq. by apply ca_material_under.
    - rewrite (pd_infrastructure _ _ _ _ _ _ _ _ _ Hplan) in Hin. destruct (mount_steps_elem _ _ _ Hin) as (m & E & Hm & _).
      injection E as -> -> -> ->. by apply (planned_mount_ok _ _ _ _ _ _ _ _ _ _ Hplan Hm). }
  assert (Hap : apart store source).
  { eapply required_apart; [apply (sk_required _ _ _ _ Hk)| |done].
    unfold required_mounts. rewrite !elem_of_app in *. destruct Hin as [?|?]; right; right; [left|right]; done. }
  by apply apart_below in Hpre.
Qed.

Lemma connection_hidden dir store p shown :
  plain_targets handle → dir ∈ connection_candidates launch →
  resolve_path_allow_missing h dir "connection directory" = Ok store → ho_metadata h store = Ok FtDir →
  (∀ role source target ro, Bind role source target ro ∈ layout_phase h handle launch b → store `prefix_of` target → target = store) →
  apart store dev_null → view (plan_steps plan) p = Some shown → ¬ store `prefix_of` shown.
Proof.
  intros Hpl Hdir Hres Hmeta Hlay Hdev Hv Hpre. apply view_bind in Hv as (s & Hin & Hs & Hcut).
  assert (Hk : store_masked plan mounts (pl_connection_seals plan) store).
  { destruct (connection_store_masked _ _ _ _ _ _ (pd_connections _ _ _ _ _ _ _ _ _ Hplan) Hdir Hres Hmeta). by split. }
  assert (Hcl : clean store) by (by eapply resolve_clean).
  assert (Hnd : ∀ below, shown ≠ (dev_null ++ below)%list) by (intros below ->; by apply apart_below in Hpre).
  assert (Hcs : s ∉ pl_connection_seals plan).
  { intros Hc. apply connection_tmpfs in Hc as [t ->]. by destruct Hs as (? & ? & ? & ? & ? & ? & _). }
  assert (Hb : s ∈ plan_before_connections plan) by (unfold plan_steps in Hin; rewrite elem_of_app in Hin; tauto).
  assert (Hsp : seal_point s p).
  { unfold plan_before_connections in Hb. rewrite !elem_of_app in Hb. destruct Hb as [Hb|[Hb|[Hb|[Hb|[Hb|[Hb|Hb]]]]]].
    - eapply layout_seal_point; eauto. rewrite (pd_layout _ _ _ _ _ _ _ _ _ Hplan). exact Hlay.
    - rewrite (pd_overlays _ _ _ _ _ _ _ _ _ Hplan) in Hb. exact (mount_seal_point store _ s p shown Hk Hpl Hcl Hb Hs Hpre).
    - exfalso. destruct (mask_shows _ s p shown config_masks Hb Hs) as [below E]. by apply Hnd in E.
    - rewrite (pd_protected _ _ _ _ _ _ _ _ _ Hplan) in Hb. exact (mount_seal_point store _ s p shown Hk Hpl Hcl Hb Hs Hpre).
    - by apply (procfs_shows s p shown) in Hb.
    - exfalso. destruct (mask_shows _ s p shown seal_masks Hb Hs) as [below E]. by apply Hnd in E.
    - exfalso. eapply (required_hidden store s p shown); eauto; [|by apply elem_of_app].
      eapply canonicalize_clean. apply (pd_sandbox _ _ _ _ _ _ _ _ _ Hplan). }
  destruct Hsp as (Hbind & t & Hst & Htp & Hseal). apply list_elem_of_split_r in Hb as (l1 & l2 & El & Hl2).
  destruct (Hcut (l1 ++ [s])%list (l2 ++ pl_connection_seals plan)%list) as [Hc|[_ Hun]].
  { unfold plan_steps. rewrite El. by rewrite <- !app_assoc. }
  - rewrite elem_of_app in Hc. tauto.
  - apply Forall_app in Hun as [Hun1 Hun2].
    destruct Hseal as (c & Hc & Hct); [by eapply exposed_after|].
    rewrite Forall_forall in Hun2. apply (Hun2 _ Hc). simpl. by etrans.
Qed.

End OnePlan.


End Planned.

(** ** Properties *)

(** [C33] No plan that [build_against] returns for mounts whose targets are spelled
    without symbolic links shows the control plane's runtime inside the sandbox:
    when a path of the sandbox shows a host path at or below the resolved runtime
    root, which is not [/dev/null] nor above or below it, that host path belongs
    to the sandbox's own runtime or is one of the public CA files; so a CA private
    key is visible, if at all, only as part of the sandbox's own runtime, and
    nowhere when it lies outside that.  A mount of an ancestor of the root shows
    the mask, not the root.  A target with a link, which [bwrap] resolves when it
    mounts, is not covered. *)
Theorem control_plane_sealed h {HL : HostLaws h} root handle launch b procfs plan control sandbox p shown :
  build_against h root handle launch b procfs = Ok plan →
  resolve_path_allow_missing h root "control-plane runtime" = Ok control →
  ho_canonicalize h (hd_runtime_dir handle) = Ok sandbox →
  plain_targets h handle → apart control dev_null →
  view (plan_steps plan) p = Some shown →
  (control `prefix_of` shown → sandbox `prefix_of` shown ∨
    ∃ f, f ∈ ca_material control (hd_sandbox_id handle) ∧ f `prefix_of` shown) ∧
  (shown ∈ ca_keys control (hd_sandbox_id handle) → sandbox `prefix_of` shown).
Proof.
  intros Hb Hc Hs Hpl Hap Hv. destruct (build_planned h _ _ _ _ _ _ Hb) as (c & s & ms & Hplan).
  assert (c = control) as -> by (pose proof (pd_control _ _ _ _ _ _ _ _ _ _ Hplan); congruence).
  assert (s = sandbox) as -> by (pose proof (pd_sandbox _ _ _ _ _ _ _ _ _ _ Hplan); congruence).
  assert (Hmain := control_plane_hidden h _ _ _ _ _ _ _ _ _ Hplan p shown Hpl Hap Hv). split; [exact Hmain|].
  intros Hk. assert (Hne : control ≠ []) by (by eapply clean_nonempty, control_clean).
  destruct Hmain as [?|(f & Hf & Hp)]; [|done|by destruct (ca_key_not_material _ _ _ f Hne Hk Hf)].
  destruct (ca_paths control (hd_sandbox_id handle) Hne) as [_ E]. rewrite E in Hk.
  apply list_elem_of_fmap in Hk as (l & -> & _). by apply prefix_app_r.
Qed.

(** A procfs mount of the host that is a directory shows through no path of
    the sandbox, whether it is reached through the root, through an operator's
    bind of one of its ancestors or through the sandbox's own [/proc]: the
    sandbox's process file system, or a fresh one, covers it. *)
Theorem host_procfs_sealed h {HL : HostLaws h} root handle launch b procfs plan control sandbox point p shown :
  build_against h root handle launch b procfs = Ok plan →
  resolve_path_allow_missing h root "control-plane runtime" = Ok control →
  ho_canonicalize h (hd_runtime_dir handle) = Ok sandbox →
  plain_targets h handle → point ∈ procfs → clean point → ho_metadata h point = Ok FtDir →
  apart point dev_null → apart point sandbox → apart point control →
  view (plan_steps plan) p = Some shown → ¬ point `prefix_of` shown.
Proof.
  intros Hb Hc Hs. destruct (build_planned h _ _ _ _ _ _ Hb) as (c & s & ms & Hplan).
  assert (c = control) as -> by (pose proof (pd_control _ _ _ _ _ _ _ _ _ _ Hplan); congruence).
  assert (s = sandbox) as -> by (pose proof (pd_sandbox _ _ _ _ _ _ _ _ _ _ Hplan); congruence).
  by apply (procfs_hidden h _ _ _ _ _ _ _ _ _ Hplan).
Qed.

(** No [.firma] directory the launch reads its configuration from (of an
    ancestor of the working directory, of the home, of the file in use) is
    visible in the sandbox, through the root or through a mount of one of its
    ancestors, provided no mount's source is itself at or below that directory
    and no protected subpath comes from above it. *)
Theorem config_dir_sealed h {HL : HostLaws h} root handle launch b procfs plan control sandbox dir canonical p shown :
  build_against h root handle launch b procfs = Ok plan →
  resolve_path_allow_missing h root "control-plane runtime" = Ok control →
  ho_canonicalize h (hd_runtime_dir handle) = Ok sandbox →
  plain_targets h handle → mounts_avoid h handle canonical →
  dir ∈ config_dirs h launch → ho_canonicalize h dir = Ok canonical → named_config_dir canonical = true →
  apart canonical dev_null → apart canonical sandbox → apart canonical control →
  view (plan_steps plan) p = Some shown → ¬ canonical `prefix_of` shown.
Proof.
  intros Hb Hc Hs. destruct (build_planned h _ _ _ _ _ _ Hb) as (c & s & ms & Hplan).
  assert (c = control) as -> by (pose proof (pd_control _ _ _ _ _ _ _ _ _ _ Hplan); congruence).
  assert (s = sandbox) as -> by (pose proof (pd_sandbox _ _ _ _ _ _ _ _ _ _ Hplan); congruence).
  intros. by eapply (config_hidden h _ _ _ _ _ _ _ _ _ Hplan).
Qed.

(** No host path of a login directory (the host's, or the one of
    [FIRMA_CONNECTION_DIR]) is visible in the sandbox, through whichever mounts,
    as long as the layout itself binds nothing strictly inside it. *)
Theorem connection_store_sealed h {HL : HostLaws h} root handle launch b procfs plan dir store p shown :
  build_against h root handle launch b procfs = Ok plan →
  plain_targets h handle → dir ∈ connection_candidates launch →
  resolve_path_allow_missing h dir "connection directory" = Ok store → ho_metadata h store = Ok FtDir →
  (∀ role source target ro, Bind role source target ro ∈ layout_phase h handle launch b →
    store `prefix_of` target → target = store) →
  apart store dev_null →
  view (plan_steps plan) p = Some shown → ¬ store `prefix_of` shown.
Proof.
  intros Hb. destruct (build_planned h _ _ _ _ _ _ Hb) as (c & s & ms & Hplan).
  intros. by eapply (connection_hidden h _ _ _ _ _ _ _ _ _ Hplan).
Qed.

(** ** Samples *)

Module Samples.

(** A host without links: the directories and files that exist. *)
Definition linkless (dirs files : list Path) : Host :=
  {| ho_canonicalize p := if decide (p ∈ dirs ++ files)%list then Ok p else Err NotFound;
     ho_absolute p := if path_is_absolute p then Ok p else Err "relative";
     ho_metadata p := if decide (p ∈ dirs) then Ok FtDir else if decide (p ∈ files) then Ok FtFile else Err NotFound;
     ho_symlink p := if decide (p ∈ dirs ++ files)%list then Ok false else Err NotFound;
     ho_home := None;
     ho_mountinfo := Ok "" |}.

Lemma linkless_laws dirs files : Forall clean (dirs ++ files)%list → HostLaws (linkless dirs files).
Proof.
  intros Hf. rewrite Forall_forall in Hf. split; simpl; intros p q; destruct (decide _) as [Hin|]; try done.
  - intros [= <-]. by apply Hf.
  - intros [= <-]. by rewrite decide_True.
Qed.

Definition dirs : list Path := Eval vm_compute in
  path_of <$> ["/"; "/dev"; "/proc"; "/tmp"; "/tmp/sb"; "/tmp/login"; "/tmp/login/w"; "/home/u/.firma/hooks"; "/srv"; "/srv/chroot"; "/srv/chroot/proc"; "/home"; "/home/u";
    "/home/u/.firma"; "/home/u/w"; "/home/u/w/.firma"; "/home/u/login"; "/home/u/login/w"; "/run"; "/run/firma"; "/run/firma/run";
    "/run/firma/run/s1"; "/run/firma/run/s1/firma-ca"].
Definition files : list Path := Eval vm_compute in
  path_of <$> ["/dev/null"; "/run/firma/run/s1/firma-ca/firma-ca.crt"; "/run/firma/run/s1/firma-ca/firma-ca.key";
    "/home/u/login/token"; "/home/u/.firma/firma.toml"].

Definition host : Host := linkless dirs files.

#[export] Instance host_laws : HostLaws host.
Proof.
  apply linkless_laws. unfold dirs, files. simpl app.
  repeat (apply Forall_cons; split; [eexists; split; [reflexivity|repeat constructor]|]). constructor.
Qed.

Definition root : Path := path_of "/run/firma".

(** Two operator binds: all of [/run] and all of [/srv]. *)
Definition prepared : SandboxHandle :=
  {| hd_runtime_dir := path_of "/tmp/sb"; hd_sandbox_id := "s1";
     hd_mounts := [operator_provided {| ms_source := path_of "/run"; ms_target := path_of "/mnt/run"; ms_read_only := true |};
                   operator_provided {| ms_source := path_of "/srv"; ms_target := path_of "/mnt/srv"; ms_read_only := true |};
                   operator_provided {| ms_source := path_of "/home"; ms_target := path_of "/mnt/home"; ms_read_only := true |}];
     hd_enforce_network_namespace := true |}.

Definition launch : LaunchSpec :=
  {| ls_executable := "/bin/sh"; ls_args := []; ls_cwd := path_of "/home/u/w"; ls_env := [("HOME", "/home/u")];
     ls_config_file := None; ls_host_connection_dir := Some (path_of "/home/u/login"); ls_trust_anchor := None |}.

Definition hard (ro : bool) : BwrapHardening :=
  {| bh_readonly_rootfs := ro; bh_runtime_home_isolation := false; bh_mask_home_paths := [".ssh"] |}.

Definition procfs : HostProcfsMounts := path_of <$> ["/proc"; "/srv/chroot/proc"].

Definition plan_of (r : Result BwrapMountPlan MountError) : BwrapMountPlan :=
  match r with
  | Ok p => p
  | Err _ => {| pl_layout := []; pl_overlays := []; pl_config_seals := []; pl_protected_subpaths := []; pl_procfs_seals := [];
                pl_control_plane_seals := []; pl_sandbox_runtime := []; pl_infrastructure := []; pl_connection_seals := [] |}
  end.

Definition plan : BwrapMountPlan := Eval vm_compute in plan_of (build_against host root prepared launch (hard true) procfs).

Lemma plan_built : build_against host root prepared launch (hard true) procfs = Ok plan.
Proof. vm_compute. reflexivity. Qed.

Lemma targets_plain : plain_targets host prepared.
Proof. intros m Hm. repeat (apply elem_of_cons in Hm as [->|Hm]; [vm_compute; reflexivity|]). by apply elem_of_nil in Hm. Qed.

(** Disjoint paths, by evaluation. *)
Ltac concrete_apart := split; intros [? E]; vm_compute in E; discriminate E.

Definition cert : Path := path_of "/run/firma/run/s1/firma-ca/firma-ca.crt".

Lemma control_plane_sealed_witness :
  view (plan_steps plan) cert = Some cert ∧ view (plan_steps plan) (path_of "/mnt/run/firma") = None ∧
  (path_of "/tmp/sb" `prefix_of` cert ∨ ∃ f, f ∈ ca_material root "s1" ∧ f `prefix_of` cert).
Proof.
  split; [vm_compute; reflexivity|]. split; [vm_compute; reflexivity|].
  apply (control_plane_sealed host root prepared launch (hard true) procfs plan root (path_of "/tmp/sb") cert cert plan_built).
  - vm_compute; reflexivity.
  - vm_compute; reflexivity.
  - exact targets_plain.
  - concrete_apart.
  - vm_compute; reflexivity.
  - exists (Normal <$> ["run"; "s1"; "firma-ca"; "firma-ca.crt"]). vm_compute; reflexivity.
Defined.

Lemma host_procfs_sealed_witness :
  view (plan_steps plan) (path_of "/mnt/srv/chroot") = Some (path_of "/srv/chroot") ∧
  ¬ path_of "/srv/chroot/proc" `prefix_of` path_of "/srv/chroot".
Proof.
  split; [vm_compute; reflexivity|].
  apply (host_procfs_sealed host root prepared launch (hard true) procfs plan root (path_of "/tmp/sb")
    (path_of "/srv/chroot/proc") (path_of "/mnt/srv/chroot") (path_of "/srv/chroot") plan_built).
  - vm_compute; reflexivity.
  - vm_compute; reflexivity.
  - exact targets_plain.
  - right. left.
  - exists (Normal <$> ["srv"; "chroot"; "proc"]). split; [vm_compute; reflexivity|repeat constructor].
  - vm_compute; reflexivity.
  - concrete_apart.
  - concrete_apart.
  - concrete_apart.
  - vm_compute; reflexivity.
Defined.

Definition home_firma : Path := path_of "/home/u/.firma".

Lemma home_avoided : mounts_avoid host prepared home_firma.
Proof.
  intros m source Hm. repeat (apply elem_of_cons in Hm as [->|Hm]; [intros [= <-]; split; [intros [? E]; vm_compute in E; discriminate E|done]|]).
  by apply elem_of_nil in Hm.
Qed.

Lemma config_dir_sealed_witness :
  view (plan_steps plan) (path_of "/mnt/home/u") = Some (path_of "/home/u") ∧
  view (plan_steps plan) (path_of "/mnt/home/u/.firma") = None ∧ ¬ home_firma `prefix_of` path_of "/home/u".
Proof.
  split; [vm_compute; reflexivity|]. split; [vm_compute; reflexivity|].
  apply (config_dir_sealed host root prepared launch (hard true) procfs plan root (path_of "/tmp/sb") home_firma home_firma
    (path_of "/mnt/home/u") (path_of "/home/u") plan_built).
  - vm_compute; reflexivity.
  - vm_compute; reflexivity.
  - exact targets_plain.
  - exact home_avoided.
  - apply (bool_decide_unpack _). vm_compute. exact I.
  - vm_compute; reflexivity.
  - vm_compute; reflexivity.
  - concrete_apart.
  - concrete_apart.
  - concrete_apart.
  - vm_compute; reflexivity.
Defined.

Definition login : Path := path_of "/home/u/login".

Lemma layout_outside role source target ro :
  Bind role source target ro ∈ layout_phase host prepared launch (hard true) → login `prefix_of` target → target = login.
Proof.
  intros Hin Hp. exfalso. revert Hin Hp.
  assert (Hf : Forall (λ s, path_starts_with (step_target s) login = false) (layout_phase host prepared launch (hard true))).
  { vm_compute. repeat constructor. }
  rewrite Forall_forall in Hf. intros Hin%Hf. by apply starts_with_not_prefix in Hin.
Qed.

Lemma connection_store_sealed_witness :
  view (plan_steps plan) (path_of "/mnt/home/u") = Some (path_of "/home/u") ∧
  view (plan_steps plan) (path_of "/mnt/home/u/login/token") = None ∧ ¬ login `prefix_of` path_of "/home/u".
Proof.
  split; [vm_compute; reflexivity|]. split; [vm_compute; reflexivity|].
  apply (connection_store_sealed host root prepared launch (hard true) procfs plan login login
    (path_of "/mnt/home/u") (path_of "/home/u") plan_built).
  - exact targets_plain.
  - apply (bool_decide_unpack _). vm_compute. exact I.
  - vm_compute; reflexivity.
  - vm_compute; reflexivity.
  - exact layout_outside.
  - concrete_apart.
  - vm_compute; reflexivity.
Defined.

(** A working directory strictly inside a login directory below [/tmp] stays
    visible under a read-only root: the mask is left out because the temporary
    file system already covers the directory itself. *)
Definition launch_inside : LaunchSpec :=
  {| ls_executable := "/bin/sh"; ls_args := []; ls_cwd := path_of "/tmp/login/w"; ls_env := [];
     ls_config_file := None; ls_host_connection_dir := Some (path_of "/tmp/login"); ls_trust_anchor := None |}.

Lemma workdir_inside_store_visible :
  match build_against host root prepared launch_inside (hard true) procfs with
  | Ok p => pl_connection_seals p = [] ∧ view (plan_steps p) (path_of "/tmp/login") = None ∧
            view (plan_steps p) (path_of "/tmp/login/w") = Some (path_of "/tmp/login/w")
  | Err _ => False
  end.
Proof. vm_compute. split; [reflexivity|split; reflexivity]. Qed.

(** A bind of a directory inside [.firma] is not masked; a bind of [.firma] itself
    is. *)
Definition handle_inside (source : string) : SandboxHandle :=
  {| hd_runtime_dir := path_of "/tmp/sb"; hd_sandbox_id := "s1";
     hd_mounts := [operator_provided {| ms_source := path_of source; ms_target := path_of "/mnt/x"; ms_read_only := true |}];
     hd_enforce_network_namespace := true |}.

Lemma mount_inside_config_visible :
  (λ p, view (plan_steps p) (path_of "/mnt/x")) <$>
    [plan_of (build_against host root (handle_inside "/home/u/.firma") launch (hard true) procfs);
     plan_of (build_against host root (handle_inside "/home/u/.firma/hooks") launch (hard true) procfs)]
  = [None; Some (path_of "/home/u/.firma/hooks")].
Proof. vm_compute. reflexivity. Qed.

End Samples.
