(* ===== verification/InterceptBody.v ===== *)
(** * Request bodies of the HTTP interceptor ([interceptor/http.rs])

    The bytes of all request bodies that are being read or handled count
    against one budget, an atomic counter that every connection's task
    updates.  A step is one action of one task: a frame of its body, the end
    or failure of the body, the drop of its guard, or the drop of the task
    itself.  [leaked] records what no guard will give back. *)

From S2P Require Import Prelude RustStr.

#[local] Open Scope string_scope.
#[local] Open Scope Z_scope.

Definition DEFAULT_MAX_REQUEST_BODY_BYTES : Z := 4 * 1024 * 1024.
Definition DEFAULT_TOTAL_BODY_BUDGET_BYTES : Z := 64 * 1024 * 1024.

Definition usize_max : Z := 2 ^ 64 - 1.

Definition checked_add (a b : Z) : option Z := if a + b <=? usize_max then Some (a + b) else None.
Definition checked_sub (a b : Z) : option Z := if b <=? a then Some (a - b) else None.

(** ** The budget *)

Record BodyBudget := { bb_used : Z; bb_ceiling : Z }.

Definition set_used (u : Z) (b : BodyBudget) : BodyBudget := {| bb_used := u; bb_ceiling := bb_ceiling b |}.

(** [try_acquire] and [try_release], each one atomic update. *)
Definition try_acquire (n : Z) (b : BodyBudget) : option BodyBudget :=
  if n =? 0 then Some b
  else match checked_add (bb_used b) n with
       | Some next => if next <=? bb_ceiling b then Some (set_used next b) else None
       | None => None
       end.

Definition try_release (n : Z) (b : BodyBudget) : option BodyBudget :=
  if n =? 0 then Some b else (λ u, set_used u b) <$> checked_sub (bb_used b) n.

(** The drop of a [BudgetGuard]: a failed release is ignored. *)
Definition drop_guard (reserved : Z) (b : BodyBudget) : BodyBudget :=
  if 0 <? reserved then default b (try_release reserved b) else b.

(** ** Reading a body *)

Inductive BodyError := BodyTooLarge | BodyOverflow | BudgetExceeded | BodyUnreadable (detail : string).

Definition body_error_display (max : Z) (e : BodyError) : string :=
  match e with
  | BodyTooLarge => "MALFORMED_REQUEST: request body exceeds " +:+ display_uint max +:+ " bytes limit"
  | BodyOverflow => "MALFORMED_REQUEST: request body size overflow"
  | BudgetExceeded => "MALFORMED_REQUEST: sidecar body budget exceeded"
  | BodyUnreadable detail => "MALFORMED_REQUEST: failed to read body: " +:+ detail
  end.

(** A task: it reads, with the bytes so far; it holds a read body and its guard; it
    is over. *)
Inductive Task := Reading (out : string) | Handling (body : option string) (reserved : Z) | Over.

(** The first check of [read_body_with_limit], on the upper bound of the size hint. *)
Definition start_reading (max : Z) (upper : option Z) : Result Task BodyError :=
  match upper with
  | Some u => if max <? u then Err BodyTooLarge else Ok (Reading "")
  | None => Ok (Reading "")
  end.

Inductive Frame := DataFrame (data : string) | OtherFrame.

(** One round of the loop: the budget, and the bytes read or the error with which
    the function returns, its guard dropped. *)
Definition read_frame (max : Z) (f : Frame) (out : string) (b : BodyBudget) : BodyBudget * Result string BodyError :=
  match f with
  | OtherFrame => (b, Ok out)
  | DataFrame data =>
      let len := Z.of_nat (String.length out) in
      match checked_add len (Z.of_nat (String.length data)) with
      | None => (drop_guard len b, Err BodyOverflow)
      | Some new_len =>
          if max <? new_len then (drop_guard len b, Err BodyTooLarge)
          else match try_acquire (Z.of_nat (String.length data)) b with
               | None => (drop_guard len b, Err BudgetExceeded)
               | Some b => (b, Ok (out +:+ data))
               end
      end
  end.

(** The end of the loop: the guard holds what was read. *)
Definition body_read (out : string) : Task :=
  Handling (if decide (out = "") then None else Some out) (Z.of_nat (String.length out)).

(** [read_body_with_limit] as one request sees it: each frame, or the failure to
    read it, with the budget found when its bytes are acquired. *)
Fixpoint read_frames (max : Z) (out : string) (frames : list (BodyBudget * Result Frame string))
    : Result (option string) BodyError :=
  match frames with
  | [] => match body_read out with Handling body _ => Ok body | _ => Ok None end
  | (_, Err e) :: _ => Err (BodyUnreadable e)
  | (b, Ok f) :: frames =>
      match read_frame max f out b with
      | (_, Ok out) => read_frames max out frames
      | (_, Err e) => Err e
      end
  end.

Definition read_body_with_limit (max : Z) (upper : option Z) (frames : list (BodyBudget * Result Frame string))
    : Result (option string) string :=
  map_err (body_error_display max)
    (match start_reading max upper with
     | Ok (Reading out) => read_frames max out frames
     | Ok _ => Ok None
     | Err e => Err e
     end).

(** ** Tasks together *)

Record Intake := {
  ik_max : Z;
  ik_budget : BodyBudget;
  ik_tasks : list Task;
  ik_leaked : Z;
}.

Inductive IntakeStep :=
| RequestStarts (upper : option Z)
| FrameArrives (i : nat) (f : Frame)
| BodyEnds (i : nat)
| BodyFails (i : nat)
| TaskDropped (i : nat)
| ResponseSent (i : nat).

Definition with_task (i : nat) (t : Task) (b : BodyBudget) (s : Intake) : Intake :=
  {| ik_max := ik_max s; ik_budget := b; ik_tasks := <[i := t]> (ik_tasks s); ik_leaked := ik_leaked s |}.

Definition leak (n : Z) (s : Intake) : Intake :=
  {| ik_max := ik_max s; ik_budget := ik_budget s; ik_tasks := ik_tasks s; ik_leaked := ik_leaked s + n |}.

(** A failed frame returns with the guard still at zero, and a task dropped while
    it reads drops its guard at zero: nothing is released. *)
Definition intake_step (t : IntakeStep) (s : Intake) : Intake :=
  match t with
  | RequestStarts upper =>
      match start_reading (ik_max s) upper with
      | Ok task => {| ik_max := ik_max s; ik_budget := ik_budget s; ik_tasks := (ik_tasks s ++ [task])%list; ik_leaked := ik_leaked s |}
      | Err _ => s
      end
  | FrameArrives i f =>
      match ik_tasks s !! i with
      | Some (Reading out) =>
          match read_frame (ik_max s) f out (ik_budget s) with
          | (b, Ok out) => with_task i (Reading out) b s
          | (b, Err _) => with_task i Over b s
          end
      | _ => s
      end
  | BodyEnds i =>
      match ik_tasks s !! i with
      | Some (Reading out) => with_task i (body_read out) (ik_budget s) s
      | _ => s
      end
  | BodyFails i =>
      match ik_tasks s !! i with
      | Some (Reading out) => leak (Z.of_nat (String.length out)) (with_task i Over (drop_guard 0 (ik_budget s)) s)
      | _ => s
      end
  | TaskDropped i =>
      match ik_tasks s !! i with
      | Some (Reading out) => leak (Z.of_nat (String.length out)) (with_task i Over (drop_guard 0 (ik_budget s)) s)
      | Some (Handling _ reserved) => with_task i Over (drop_guard reserved (ik_budget s)) s
      | _ => s
      end
  | ResponseSent i =>
      match ik_tasks s !! i with
      | Some (Handling _ reserved) => with_task i Over (drop_guard reserved (ik_budget s)) s
      | _ => s
      end
  end.

Definition intake_new (max ceiling : Z) : Intake :=
  {| ik_max := max; ik_budget := {| bb_used := 0; bb_ceiling := ceiling |}; ik_tasks := []; ik_leaked := 0 |}.

Inductive intake_reachable (max ceiling : Z) : Intake → Prop :=
| intake_init : intake_reachable max ceiling (intake_new max ceiling)
| intake_next t s : intake_reachable max ceiling s → intake_reachable max ceiling (intake_step t s).

(** ** Facts *)

(** The bytes a task accounts for. *)
Definition task_bytes (t : Task) : Z :=
  match t with Reading out => Z.of_nat (String.length out) | Handling _ reserved => reserved | Over => 0 end.

Definition total_bytes (l : list Task) : Z := foldr (λ t n, task_bytes t + n) 0 l.

Lemma total_app l l' : total_bytes (l ++ l') = total_bytes l + total_bytes l'.
Proof. induction l as [|t l IH]; simpl; [done|]. rewrite IH. lia. Qed.

Lemma total_insert l i t t' : l !! i = Some t → total_bytes (<[i := t']> l) = total_bytes l - task_bytes t + task_bytes t'.
Proof.
  revert i. induction l as [|x l IH]; intros [|i] H; simplify_eq/=; [lia|]. rewrite (IH i) by done. lia.
Qed.

(** What a task may hold: bytes within the limit, and a reservation of exactly its
    body. *)
Definition task_ok (max : Z) (t : Task) : Prop :=
  match t with
  | Reading out => Z.of_nat (String.length out) ≤ max
  | Handling body reserved =>
      reserved = Z.of_nat (String.length (default "" body)) ∧ reserved ≤ max
  | Over => True
  end.

Record intake_inv (max ceiling : Z) (s : Intake) : Prop := {
  iv_max : ik_max s = max;
  iv_ceiling : bb_ceiling (ik_budget s) = ceiling;
  iv_used : bb_used (ik_budget s) = total_bytes (ik_tasks s) + ik_leaked s;
  iv_bound : 0 ≤ ik_leaked s ∧ bb_used (ik_budget s) ≤ ceiling;
  iv_tasks : Forall (task_ok max) (ik_tasks s);
}.

Lemma task_bytes_nonneg max t : task_ok max t → 0 ≤ task_bytes t.
Proof. destruct t; simpl; lia. Qed.

Lemma task_bytes_total max l i t : Forall (task_ok max) l → l !! i = Some t → 0 ≤ task_bytes t ≤ total_bytes l.
Proof.
  intros Hf. revert i. induction Hf as [|x l Hx Hl IH]; intros [|i] H; simplify_eq/=.
  - pose proof (task_bytes_nonneg _ _ Hx). assert (0 ≤ total_bytes l); [|lia].
    clear -Hl. induction Hl as [|y l Hy Hl IH]; simpl; [lia|]. pose proof (task_bytes_nonneg _ _ Hy). lia.
  - pose proof (task_bytes_nonneg _ _ Hx). specialize (IH i H). lia.
Qed.

(** A release of what is held succeeds. *)
Lemma drop_guard_spec n b : 0 ≤ n ≤ bb_used b → drop_guard n b = set_used (bb_used b - n) b.
Proof.
  intros Hn. unfold drop_guard, try_release, checked_sub. destruct (0 <? n) eqn:E.
  - apply Z.ltb_lt in E. rewrite (proj2 (Z.eqb_neq n 0)) by lia. by rewrite (proj2 (Z.leb_le n (bb_used b))) by lia.
  - apply Z.ltb_ge in E. assert (n = 0) as -> by lia. rewrite Z.sub_0_r. by destruct b.
Qed.

Lemma try_acquire_spec n b b' :
  0 ≤ n → bb_used b ≤ bb_ceiling b → try_acquire n b = Some b' → b' = set_used (bb_used b + n) b ∧ bb_used b + n ≤ bb_ceiling b.
Proof.
  intros Hn Hle. unfold try_acquire, checked_add. destruct (n =? 0) eqn:E.
  - apply Z.eqb_eq in E as ->. intros [= <-]. rewrite Z.add_0_r. split; [by destruct b|done].
  - destruct (bb_used b + n <=? usize_max); [|done]. destruct (bb_used b + n <=? bb_ceiling b) eqn:E2; [|done].
    intros [= <-]. apply Z.leb_le in E2. by split.
Qed.

(** A task that becomes another one, the budget following. *)
Lemma with_task_inv max ceiling s i t t' b leaked :
  intake_inv max ceiling s → ik_tasks s !! i = Some t → task_ok max t' → 0 ≤ leaked →
  b = set_used (bb_used (ik_budget s) - task_bytes t + task_bytes t' + leaked) (ik_budget s) →
  bb_used b ≤ ceiling → intake_inv max ceiling (leak leaked (with_task i t' b s)).
Proof.
  intros [Hm Hc Hu [Hl Hb] Ht] Hi Hok Hlk -> Hle. split; simpl; try done.
  - rewrite (total_insert _ _ _ _ Hi). lia.
  - split; [lia|done].
  - by apply Forall_insert.
Qed.

Lemma leak_zero s : leak 0 s = s.
Proof. unfold leak. rewrite Z.add_0_r. by destruct s. Qed.

Lemma read_frame_inv max ceiling s i out f :
  intake_inv max ceiling s → ik_tasks s !! i = Some (Reading out) →
  match read_frame (ik_max s) f out (ik_budget s) with
  | (b, Ok out') => intake_inv max ceiling (with_task i (Reading out') b s)
  | (b, Err _) => intake_inv max ceiling (with_task i Over b s)
  end.
Proof.
  intros Hi Ht. pose proof Hi as [Hm Hc Hu [Hl Hb] Hf].
  pose proof (task_bytes_total _ _ _ _ Hf Ht) as Hbt. simpl in Hbt.
  assert (Hover : ∀ b, b = drop_guard (Z.of_nat (String.length out)) (ik_budget s) → intake_inv max ceiling (with_task i Over b s)).
  { intros b ->. rewrite <- (leak_zero (with_task _ _ _ _)). rewrite drop_guard_spec by lia.
    eapply with_task_inv; [done|done|done|lia| |simpl; lia]. simpl. f_equal. lia. }
  assert (Hok : task_ok max (Reading out)) by (by eapply Forall_lookup_1 in Hf).
  destruct f as [data|]; simpl.
  - destruct (checked_add _ _) as [new_len|] eqn:E; [|by apply Hover]. unfold checked_add in E.
    destruct (_ <=? usize_max); [|done]. injection E as <-.
    destruct (ik_max s <? _) eqn:Em; [by apply Hover|]. apply Z.ltb_ge in Em.
    destruct (try_acquire _ _) as [b|] eqn:Ea; [|by apply Hover].
    apply try_acquire_spec in Ea as [-> Hle]; [|lia|lia].
    rewrite <- (leak_zero (with_task _ _ _ _)). eapply with_task_inv; [done|done| |lia| |simpl; lia].
    + simpl. rewrite str_length_app. lia.
    + simpl. rewrite str_length_app. f_equal. lia.
  - rewrite <- (leak_zero (with_task _ _ _ _)). eapply with_task_inv; [done|done|done|lia| |lia].
    simpl. rewrite <- (Z.add_0_r (_ - _ + _)). destruct (ik_budget s). unfold set_used. simpl. f_equal. lia.
Qed.

Lemma intake_step_inv max ceiling t s : 0 ≤ max → intake_inv max ceiling s → intake_inv max ceiling (intake_step t s).
Proof.
  intros Hmax Hi. pose proof Hi as [Hm Hc Hu [Hl Hb] Hf].
  assert (Hrelease : ∀ i t, ik_tasks s !! i = Some t → intake_inv max ceiling (with_task i Over (drop_guard (task_bytes t) (ik_budget s)) s)).
  { intros i t0 Ht. pose proof (task_bytes_total _ _ _ _ Hf Ht). rewrite <- (leak_zero (with_task _ _ _ _)).
    rewrite drop_guard_spec by lia. eapply with_task_inv; [done|done|done|lia| |simpl; lia]. simpl. f_equal. lia. }
  assert (Hleak : ∀ i out, ik_tasks s !! i = Some (Reading out) →
            intake_inv max ceiling (leak (Z.of_nat (String.length out)) (with_task i Over (drop_guard 0 (ik_budget s)) s))).
  { intros i out Ht. eapply with_task_inv; [done|done|done|lia| |]; simpl.
    - destruct (ik_budget s). unfold drop_guard, set_used. simpl. f_equal. lia.
    - by destruct (ik_budget s). }
  destruct t as [upper|i f|i|i|i|i]; simpl.
  - unfold start_reading. assert (intake_inv max ceiling {| ik_max := ik_max s; ik_budget := ik_budget s;
      ik_tasks := (ik_tasks s ++ [Reading ""])%list; ik_leaked := ik_leaked s |}).
    { split; simpl; try done; [rewrite total_app; simpl; lia|]. apply Forall_app. split; [done|]. by constructor. }
    destruct upper as [u|]; [destruct (ik_max s <? u)|]; done.
  - destruct (ik_tasks s !! i) as [[out| |]|] eqn:Ht; try done.
    pose proof (read_frame_inv max ceiling s i out f Hi Ht) as H. by destruct (read_frame _ _ _ _) as [b [out'|]].
  - destruct (ik_tasks s !! i) as [[out| |]|] eqn:Ht; try done. rewrite <- (leak_zero (with_task _ _ _ _)).
    assert (task_ok max (Reading out)) as Hok by (by eapply Forall_lookup_1 in Hf). simpl in Hok.
    eapply with_task_inv; [done|done| |lia| |lia].
    + unfold body_read. simpl. case_decide; subst; simpl in *; lia.
    + simpl. destruct (ik_budget s). unfold set_used. simpl. f_equal. lia.
  - destruct (ik_tasks s !! i) as [[out| |]|] eqn:Ht; try done. by apply Hleak.
  - destruct (ik_tasks s !! i) as [[out|body r|]|] eqn:Ht; try done; [by apply Hleak|exact (Hrelease i _ Ht)].
  - destruct (ik_tasks s !! i) as [[out|body r|]|] eqn:Ht; try done. exact (Hrelease i _ Ht).
Qed.

Lemma intake_reachable_inv max ceiling s : 0 ≤ max → 0 ≤ ceiling → intake_reachable max ceiling s → intake_inv max ceiling s.
Proof. intros Hm Hc. induction 1 as [|t s _ IH]; [by split; try constructor; simpl|by apply intake_step_inv]. Qed.

(** ** Properties *)

(** [C13] Whatever the interleaving of the connections' tasks, the bodies that are
    read or handled never exceed the shared budget together nor the limit each,
    and the counter is exactly their bytes plus those of bodies that failed or
    whose task was dropped while reading: no release ever underflows, and
    without such bodies the whole budget is free again once every task is
    over. *)
Theorem body_budget_exact max ceiling s :
  0 ≤ max → 0 ≤ ceiling → intake_reachable max ceiling s →
  bb_used (ik_budget s) = total_bytes (ik_tasks s) + ik_leaked s ∧
  total_bytes (ik_tasks s) ≤ ceiling ∧ bb_used (ik_budget s) ≤ ceiling ∧
  Forall (task_ok max) (ik_tasks s) ∧
  (Forall (λ t, t = Over) (ik_tasks s) → bb_used (ik_budget s) = ik_leaked s).
Proof.
  intros Hm Hc Hr. destruct (intake_reachable_inv _ _ _ Hm Hc Hr) as [_ _ Hu [Hl Hb] Hf].
  split_and!; [done|lia|done|done|]. intros Ho. rewrite Hu.
  assert (total_bytes (ik_tasks s) = 0) as ->; [|lia]. clear -Ho. induction Ho as [|t l -> _ IH]; simpl; lia.
Qed.

(** A body that was read is the data of its frames, within the limit. *)
Definition frame_data (f : BodyBudget * Result Frame string) : string :=
  match f with (_, Ok (DataFrame data)) => data | _ => "" end.

Lemma join_nil_cons w l : join "" (w :: l) = w +:+ join "" l.
Proof. destruct l; simpl; [by rewrite str_app_nil_r|done]. Qed.

Lemma read_frames_data max out frames body :
  Z.of_nat (String.length out) ≤ max → read_frames max out frames = Ok body →
  default "" body = out +:+ join "" (frame_data <$> frames) ∧ Z.of_nat (String.length (default "" body)) ≤ max.
Proof.
  revert out. induction frames as [|[b [f|e]] frames IH]; intros out Hlen; simpl; [| |done].
  - case_decide as E; intros [= <-]; [subst out|]; simpl; by rewrite ?str_app_nil_r.
  - destruct (read_frame max f out b) as [b' [out'|]] eqn:E; [|done]. intros H.
    assert (Z.of_nat (String.length out') ≤ max ∧ out' = out +:+ frame_data (b, Ok f)) as [Hlen' ->].
    { destruct f as [data|]; simpl in *; [|simplify_eq; by rewrite str_app_nil_r].
      destruct (checked_add _ _) as [n|] eqn:En; [|done]. unfold checked_add in En.
      destruct (_ <=? usize_max); [|done]. injection En as <-. destruct (max <? _) eqn:Em; [done|].
      apply Z.ltb_ge in Em. destruct (try_acquire _ _); [|done]. injection E as _ <-.
      rewrite str_length_app. split; [lia|done]. }
    destruct (IH _ Hlen' H) as [-> Hle]. split; [|done]. rewrite <- str_app_assoc. f_equal.
    symmetry. apply (join_nil_cons (frame_data (b, Ok f)) (frame_data <$> frames)).
Qed.

Lemma read_body_with_limit_data max upper frames body :
  0 ≤ max → read_body_with_limit max upper frames = Ok body →
  default "" body = join "" (frame_data <$> frames) ∧ Z.of_nat (String.length (default "" body)) ≤ max.
Proof.
  intros Hm. unfold read_body_with_limit, start_reading.
  assert (∀ r, map_err (body_error_display max) (read_frames max "" frames) = Ok r →
            default "" r = join "" (frame_data <$> frames) ∧ Z.of_nat (String.length (default "" r)) ≤ max) as H.
  { intros r. destruct (read_frames max "" frames) as [b|] eqn:E; [|done]. intros [= <-].
    by apply (read_frames_data max ""). }
  destruct upper as [u|]; [destruct (max <? u); [done|]|]; apply H.
Qed.

(** What is leaked is never given back, and refuses other bodies for good: a body
    frame that does not fit beside the leaked bytes is refused in every later
    state, whatever the other tasks do. *)
Lemma leaked_monotone t s : ik_leaked s ≤ ik_leaked (intake_step t s).
Proof.
  destruct t as [upper|i f|i|i|i|i]; simpl.
  - by destruct (start_reading _ _).
  - destruct (ik_tasks s !! i) as [[]|]; simpl; try lia. by destruct (read_frame _ _ _ _) as [b []].
  - by destruct (ik_tasks s !! i) as [[]|].
  - destruct (ik_tasks s !! i) as [[]|]; simpl; lia.
  - destruct (ik_tasks s !! i) as [[]|]; simpl; lia.
  - by destruct (ik_tasks s !! i) as [[]|].
Qed.

Lemma intake_later max ceiling later : ∀ s,
  intake_reachable max ceiling s →
  intake_reachable max ceiling (foldl (flip intake_step) s later) ∧ ik_leaked s ≤ ik_leaked (foldl (flip intake_step) s later).
Proof.
  induction later as [|t later IH]; intros s Hr; simpl; [split; [done|lia]|].
  destruct (IH (intake_step t s)) as [? ?]; [by constructor|]. split; [done|]. etrans; [apply (leaked_monotone t s)|done].
Qed.

Lemma leak_refuses max ceiling s later n :
  0 ≤ max → 0 ≤ ceiling → intake_reachable max ceiling s → 0 < n → ceiling < ik_leaked s + n →
  try_acquire n (ik_budget (foldl (flip intake_step) s later)) = None.
Proof.
  intros Hm Hc Hr Hn Hle. destruct (intake_later max ceiling later s Hr) as [Hr' Hl'].
  revert Hr' Hl'. set (s' := foldl (flip intake_step) s later). intros Hr' Hl'.
  destruct (intake_reachable_inv _ _ _ Hm Hc Hr') as [_ Hcl Hu [_ _] Hf].
  assert (0 ≤ total_bytes (ik_tasks s')).
  { clear -Hf. induction Hf as [|y l Hy Hl IH]; simpl; [lia|]. pose proof (task_bytes_nonneg _ _ Hy). lia. }
  unfold try_acquire. rewrite (proj2 (Z.eqb_neq n 0)) by lia. unfold checked_add.
  destruct (_ <=? usize_max); [|done]. by rewrite (proj2 (Z.leb_gt _ _)) by lia.
Qed.

(** ** Samples *)

Module Samples.

(** Two bodies, one handled and answered, one refused over the budget. *)
Definition two_bodies : list IntakeStep :=
  [RequestStarts None; RequestStarts (Some 4); FrameArrives 0 (DataFrame "abc"); FrameArrives 1 (DataFrame "defg");
   BodyEnds 0; ResponseSent 0].

Definition after (l : list IntakeStep) : Intake := foldl (flip intake_step) (intake_new 4 6) l.

Lemma after_reachable l : intake_reachable 4 6 (after l).
Proof. unfold after. induction l as [|t l IH] using rev_ind; [constructor|]. rewrite foldl_app. by constructor. Qed.

Lemma body_budget_exact_witness :
  bb_used (ik_budget (after (take 3 two_bodies))) = 3 ∧ ik_tasks (after two_bodies) = [Over; Over] ∧
  bb_used (ik_budget (after two_bodies)) = ik_leaked (after two_bodies).
Proof.
  split; [vm_compute; reflexivity|]. split; [vm_compute; reflexivity|].
  apply (body_budget_exact 4 6 (after two_bodies)).
  - vm_compute. discriminate.
  - vm_compute. discriminate.
  - exact (after_reachable two_bodies).
  - vm_compute. repeat constructor.
Defined.

(** Two bodies that fail after their data have exhausted the budget: no body is
    accepted any more, although no task is left. *)
Definition failed_bodies : list IntakeStep :=
  [RequestStarts None; FrameArrives 0 (DataFrame "abc"); BodyFails 0;
   RequestStarts None; FrameArrives 1 (DataFrame "abc"); TaskDropped 1].

Lemma failed_bodies_exhaust later :
  ik_tasks (after failed_bodies) = [Over; Over] ∧
  try_acquire 1 (ik_budget (foldl (flip intake_step) (after failed_bodies) later)) = None.
Proof.
  split; [vm_compute; reflexivity|].
  apply (leak_refuses 4 6); [lia|lia|apply after_reachable|lia|vm_compute; reflexivity].
Qed.

End Samples.
