(* ===== verification/InterceptHosts.v ===== *)
(** * Destinations of intercepted requests ([interceptor/http.rs],
    [interceptor/https_mitm.rs])

    Which host a proxied request names, which hosts are decrypted, and the
    head of the request that enforcement judges: its host comes from the [Host]
    header or the request target for a plain request, and is held to the
    CONNECT target inside a decrypted tunnel.  An [Authority] is its text; its
    parts are what the [http] crate answers. *)

From S2P Require Import Prelude RustStr Core Mapping MappingHost Normalizer BodyEncoding.

#[local] Open Scope string_scope.

(** ** Authorities *)

(** [Authority::host] and [Authority::port_u16]. *)
Class AuthorityParts := {
  auth_host : Authority → string;
  auth_port_u16 : Authority → option Z;
}.

(** A name without brackets, and a bracketed literal. *)
Definition plain_name (n : string) : Prop :=
  contains_char ":"%char n = false ∧ contains_char "@"%char n = false ∧ starts_with "[" n = false.

Definition bare (s : string) : Prop :=
  contains_char "["%char s = false ∧ contains_char "]"%char s = false ∧ contains_char "@"%char s = false.

Definition bracketed (h : string) : string := "[" +:+ h +:+ "]".

Definition host_name (n : string) : Prop := plain_name n ∨ ∃ h, n = bracketed h ∧ bare h.

(** A port in digits. *)
Definition port_text (p : string) (v : Z) : Prop := is_valid_port p = true ∧ parse_u16 p = Ok v.

(** [name] or [name:port]. *)
Definition authority_text (n : string) (p : option string) : string :=
  match p with None => n | Some p => n +:+ ":" +:+ p end.

Section Hosts.
Context {HC : HttpCrate} {AP : AuthorityParts}.

(** A text that [Authority::from_str] accepts. *)
Definition valid_authority (a : Authority) : Prop := authority_from_str a = Ok a.

(** The grammar [[userinfo "@"] host [":" port]]: the parts of a text with and
    without a port, and the place of user information. *)
Class AuthorityLaws := {
  from_str_text s a : authority_from_str s = Ok a → a = s;
  host_without_port n : valid_authority n → host_name n → auth_host n = n ∧ auth_port_u16 n = None;
  host_with_port n p v :
    valid_authority (authority_text n (Some p)) → host_name n → port_text p v →
    auth_host (authority_text n (Some p)) = n ∧ auth_port_u16 (authority_text n (Some p)) = Some v;
  userinfo_ignored u a :
    valid_authority (u +:+ "@" +:+ a) → contains_char "@"%char a = false →
    auth_host (u +:+ "@" +:+ a) = auth_host a ∧ auth_port_u16 (u +:+ "@" +:+ a) = auth_port_u16 a;
  host_no_userinfo a : valid_authority a → contains_char "@"%char (auth_host a) = false;
  host_colon_bracketed a :
    valid_authority a → contains_char ":"%char (auth_host a) = true →
    ∃ h, auth_host a = bracketed h ∧ bare h;
  port_range a v : auth_port_u16 a = Some v → (0 ≤ v < 65536)%Z;
}.

(** ** Requests *)

(** The accessors of [http::Uri] and [hyper::Request] the interceptor uses. *)
Record Uri := {
  uri_text : string;
  uri_scheme : option string;
  uri_authority : option Authority;
  uri_host : option string;
  uri_port_u16 : option Z;
  uri_path_and_query : option string;
}.

Record Request := { hr_method : Method; hr_uri : Uri; hr_headers : HeaderMap }.

Definition TO_STR_ERROR : string := "failed to convert header to a str".

(** [headers.get(name).map(to_str).transpose()?]. *)
Definition header_str (name : string) (h : HeaderMap) : Result (option string) string :=
  match header_get name h with
  | None => Ok None
  | Some v => match to_str v with Some s => Ok (Some s) | None => Err TO_STR_ERROR end
  end.

(** The [Host] header as an authority, else the authority of the target. *)
Definition named_authority (req : Request) : Result (option Authority) string :=
  let? host := header_str "host" (hr_headers req) in
  match host with
  | Some s => let? a := authority_from_str s in Ok (Some a)
  | None => Ok (uri_authority (hr_uri req))
  end.

Definition MISSING_HOST : string := "MALFORMED_REQUEST: missing host".

(** [host_with_default_port]. *)
Definition host_with_default_port (req : Request) (is_connect : bool) : Result Authority string :=
  let? named := named_authority req in
  match named with
  | Some a => Ok a
  | None =>
      match uri_host (hr_uri req) with
      | Some h =>
          let port := default (if is_connect then 443 else 80)%Z (uri_port_u16 (hr_uri req)) in
          authority_from_str (h +:+ ":" +:+ display_uint port)
      | None => Err MISSING_HOST
      end
  end.

(** [strip_default_port]. *)
Definition strip_default_port (host : Authority) (is_https : bool) : Result Authority string :=
  let default_port := if is_https then ":443" else ":80" in
  if starts_with "[" host then Ok host
  else match strip_suffix default_port host with
       | Some host => authority_from_str host
       | None => Ok host
       end.

(** [extract_path]: [String::from_utf8_lossy] is the identity on the bytes of a
    string. *)
Fixpoint from_slash (s : string) : option string :=
  match s with
  | "" => None
  | String a s' => if decide (a = "/"%char) then Some s else from_slash s'
  end.

Definition extract_path (raw_path : string) : string :=
  match strip_prefix "http://" raw_path with
  | Some rest => default "/" (from_slash rest)
  | None =>
      match strip_prefix "https://" raw_path with
      | Some rest => default "/" (from_slash rest)
      | None => raw_path
      end
  end.

(** [build_raw_request_head]. *)
Definition build_raw_request_head (req : Request) (is_connect : bool) : Result RawRequest string :=
  let? host_with_port := host_with_default_port req is_connect in
  let path := if is_connect then "/" else extract_path (uri_text (hr_uri req)) in
  let is_https := is_connect || match uri_scheme (hr_uri req) with
                                | Some s => eq_ignore_ascii_case s "https"
                                | None => false
                                end in
  let? host := strip_default_port host_with_port is_https in
  Ok {| rq_method := hr_method req; rq_host := host; rq_path := path; rq_headers := hr_headers req;
        rq_body := None; rq_is_https := is_https |}.

(** ** CONNECT targets *)

Record ConnectTargetInfo := { ct_host : string; ct_port : Z; ct_authority : Authority }.

(** [trim_start_matches('[').trim_end_matches(']')]. *)
Definition trim_brackets (s : string) : string := trim_end_char "]"%char (trim_start_char "["%char s).

Definition socket_text (h : string) (port : Z) : string :=
  if contains_char ":"%char h then bracketed h +:+ ":" +:+ display_uint port
  else h +:+ ":" +:+ display_uint port.

(** [connect_target_info]. *)
Definition connect_target_info (authority : Authority) : Result ConnectTargetInfo string :=
  let parsed_host := to_ascii_lowercase (trim_brackets (auth_host authority)) in
  let port := default 443%Z (auth_port_u16 authority) in
  let? a := authority_from_str (socket_text parsed_host port) in
  Ok {| ct_host := parsed_host; ct_port := port; ct_authority := a |}.

(** [connect_target]: the address a tunnel dials. *)
Definition connect_target (authority : Authority) : string :=
  socket_text (trim_brackets (auth_host authority)) (default 443%Z (auth_port_u16 authority)).

(** [host_matches_connect_target]. *)
Definition host_matches_connect_target (requested connect : ConnectTargetInfo) : bool :=
  eq_ignore_ascii_case (ct_host requested) (ct_host connect) && (ct_port requested =? ct_port connect)%Z.

Definition HOST_MISMATCH : string := "MALFORMED_REQUEST: tunneled host mismatch with CONNECT target".

(** [build_raw_https_request_head]. *)
Definition build_raw_https_request_head (req : Request) (target : ConnectTargetInfo) : Result RawRequest string :=
  let? named := named_authority req in
  let? host_info := connect_target_info (default (ct_authority target) named) in
  if host_matches_connect_target host_info target then
    let? host := strip_default_port (ct_authority host_info) true in
    Ok {| rq_method := hr_method req; rq_host := host; rq_path := extract_path (uri_text (hr_uri req));
          rq_headers := hr_headers req; rq_body := None; rq_is_https := true |}
  else Err HOST_MISMATCH.

End Hosts.

Arguments AuthorityLaws {_} _.

(** ** Hosts that are decrypted *)

(** [normalize_host] of [https_mitm.rs], [normalize_patterns]. *)
Definition mitm_normalize_host (host : string) : string :=
  to_ascii_lowercase (trim_end_char "."%char (trim host)).

Definition normalize_patterns (patterns : list string) : list string := mitm_normalize_host <$> patterns.

(** [wildcard_match]: [prefix] is what precedes the suffix, its last dot included. *)
Definition wildcard_match (pattern value : string) : bool :=
  if decide (pattern = "*") then true
  else match strip_prefix "*." pattern with
       | Some suffix =>
           if is_empty suffix || contains_char "*"%char suffix then false
           else if negb (contains_char "."%char suffix) then false
           else if bool_decide (value = suffix) then false
           else match strip_suffix suffix value with
                | None => false
                | Some prefix => ends_with "." prefix && (1 <? String.length prefix)%nat
                end
       | None =>
           if contains_char "*"%char pattern then false else bool_decide (pattern = value)
       end.

(** [host_matches_any]. *)
Definition host_matches_any (host : string) (patterns : list string) : bool :=
  existsb (λ pattern, wildcard_match pattern (mitm_normalize_host host)) patterns.

(** [HttpsMitmRuntime]: the patterns are normalized when it is built. *)
Record HttpsMitmRuntime := {
  mr_enabled : bool;
  mr_intercept_hosts : list string;
  mr_bypass_hosts : list string;
  mr_strict_hosts : list string;
}.

Definition mitm_runtime_new (enabled : bool) (intercept bypass strict : list string) : HttpsMitmRuntime :=
  {| mr_enabled := enabled; mr_intercept_hosts := normalize_patterns intercept;
     mr_bypass_hosts := normalize_patterns bypass; mr_strict_hosts := normalize_patterns strict |}.

Definition should_intercept_host (r : HttpsMitmRuntime) (host : string) : bool :=
  if negb (mr_enabled r) then false
  else if host_matches_any host (mr_bypass_hosts r) then false
  else host_matches_any host (mr_intercept_hosts r).

Definition is_strict_host (r : HttpsMitmRuntime) (host : string) : bool :=
  host_matches_any host (mr_strict_hosts r).

(** ** Facts: brackets *)

Lemma trim_start_no d c s : contains_char d s = false → contains_char d (trim_start_char c s) = false.
Proof.
  induction s as [|a s IH]; [done|]. cbn. intros [Ha Hs]%orb_false_iff.
  destruct (decide (a = c)); [by apply IH|]. cbn. by rewrite Ha, Hs.
Qed.

Lemma trim_start_first c s : trim_start_char c s = "" ∨ ∃ a t, trim_start_char c s = String a t ∧ a ≠ c.
Proof. induction s as [|a s IH]; [by left|]. cbn. case_decide; [done|]. right. by exists a, s. Qed.

Lemma trim_start_none c s : contains_char c s = false → trim_start_char c s = s.
Proof.
  destruct s as [|a s]; [done|]. cbn. intros [Ha%bool_decide_eq_false _]%orb_false_iff. by rewrite decide_False.
Qed.

Lemma trim_end_none c s : contains_char c s = false → trim_end_char c s = s.
Proof.
  induction s as [|a s IH]; [done|]. cbn. intros [Ha%bool_decide_eq_false Hs]%orb_false_iff. rewrite IH by done.
  destruct s; [by rewrite decide_False|done].
Qed.

Lemma trim_brackets_bracketed h : bare h → trim_brackets (bracketed h) = h.
Proof.
  intros (H1 & H2 & _). unfold trim_brackets, bracketed. cbn [trim_start_char String.append].
  rewrite decide_True by done. destruct h as [|a h]; [done|].
  rewrite trim_start_none.
  - rewrite trim_end_char_snoc. by apply trim_end_none.
  - by rewrite contains_char_app, H1.
Qed.

Lemma trim_brackets_plain n : contains_char ":"%char n = false → contains_char "@"%char n = false → plain_name (trim_brackets n).
Proof.
  intros H1 H2. unfold plain_name, trim_brackets. split_and!.
  - by apply contains_trim_end, trim_start_no.
  - by apply contains_trim_end, trim_start_no.
  - destruct (trim_start_first "["%char n) as [->|(a & t & -> & Ha)]; [done|].
    destruct (trim_end_char_prefix "]"%char (String a t)) as [r Hr].
    apply (starts_bracket_prefix _ r). rewrite <- Hr, starts_bracket_cons. by apply bool_decide_eq_false.
Qed.

Lemma trim_brackets_idemp s : trim_brackets (trim_brackets s) = trim_brackets s.
Proof.
  unfold trim_brackets. destruct (trim_start_first "["%char s) as [->|(a & t & -> & Ha)]; [done|].
  set (u := trim_end_char "]"%char (String a t)).
  assert (trim_start_char "["%char u = u) as ->; [|by unfold u; rewrite trim_end_char_idemp].
  destruct (trim_end_char_prefix "]"%char (String a t)) as [r Hr]. fold u in Hr.
  destruct u as [|b u]; [done|]. injection Hr as <- _. cbn. by rewrite decide_False.
Qed.

Lemma trim_brackets_lower s : trim_brackets (to_ascii_lowercase s) = to_ascii_lowercase (trim_brackets s).
Proof.
  unfold trim_brackets. rewrite <- lower_trim_end by done. f_equal. induction s as [|a s IH]; [done|].
  unfold to_ascii_lowercase in *. cbn. pose proof (ascii_lower_eq "["%char a eq_refl eq_refl) as Hl.
  destruct (decide (a = "["%char)); [rewrite decide_True by tauto; apply IH|by rewrite decide_False by tauto].
Qed.

Lemma trim_brackets_none n : starts_with "[" n = false → contains_char "]"%char n = false → trim_brackets n = n.
Proof.
  intros H H2. unfold trim_brackets. replace (trim_start_char "["%char n) with n; [by apply trim_end_none|].
  destruct n as [|a n]; [done|]. rewrite starts_bracket_cons in H. apply bool_decide_eq_false in H.
  cbn. by rewrite decide_False.
Qed.

Lemma plain_name_lower n : plain_name n → plain_name (to_ascii_lowercase n).
Proof.
  intros (H1 & H2 & H3). unfold plain_name. by rewrite !contains_char_lower, starts_bracket_lower.
Qed.

Lemma bare_lower h : bare h → bare (to_ascii_lowercase h).
Proof. intros (H1 & H2 & H3). unfold bare. by rewrite !contains_char_lower. Qed.

Lemma bracketed_lower h : to_ascii_lowercase (bracketed h) = bracketed (to_ascii_lowercase h).
Proof. unfold bracketed, to_ascii_lowercase. by rewrite !str_map_app. Qed.

Lemma display_port_text p : (0 ≤ p < 65536)%Z → port_text (display_uint p) p.
Proof.
  intros Hp. split.
  - apply is_valid_port_spec. split; [apply display_uint_nonempty|apply display_uint_digits].
  - unfold parse_u16. apply parse_display. lia.
Qed.

(** ** Facts: targets *)

Section Targets.
Context {HC : HttpCrate} {AP : AuthorityParts} {AL : AuthorityLaws AP}.

(** The name in the authority of a target. *)
Definition target_name (t : ConnectTargetInfo) : string :=
  if contains_char ":"%char (ct_host t) then bracketed (ct_host t) else ct_host t.

Record target_ok (t : ConnectTargetInfo) : Prop := {
  to_text : ct_authority t = authority_text (target_name t) (Some (display_uint (ct_port t)));
  to_valid : valid_authority (ct_authority t);
  to_name : if contains_char ":"%char (ct_host t) then bare (ct_host t) else plain_name (ct_host t);
  to_trim : trim_brackets (target_name t) = ct_host t;
  to_lower : to_ascii_lowercase (ct_host t) = ct_host t;
  to_port : (0 ≤ ct_port t < 65536)%Z;
}.

Lemma socket_text_name h p t :
  ct_host t = h → ct_port t = p → socket_text h p = authority_text (target_name t) (Some (display_uint p)).
Proof. intros <- <-. unfold socket_text, target_name, authority_text. by destruct (contains_char _ _). Qed.

Lemma contains_bracketed c h : c ≠ "["%char → c ≠ "]"%char → contains_char c (bracketed h) = contains_char c h.
Proof.
  intros H1 H2. unfold bracketed. rewrite !contains_char_app. cbn.
  rewrite !bool_decide_false by congruence. cbn. by rewrite orb_false_r.
Qed.

Lemma connect_target_info_ok a t : valid_authority a → connect_target_info a = Ok t → target_ok t.
Proof.
  intros Ha. unfold connect_target_info. destruct (authority_from_str _) as [b|] eqn:E; [|done].
  intros [= <-]. pose proof (from_str_text _ _ E) as ->.
  set (h := to_ascii_lowercase (trim_brackets (auth_host a))) in *. set (p := default 443%Z (auth_port_u16 a)) in *.
  assert ((if contains_char ":"%char h then bare h else plain_name h) ∧
          trim_brackets (if contains_char ":"%char h then bracketed h else h) = h) as [Hn Ht].
  { destruct (contains_char ":"%char (auth_host a)) eqn:Hc.
    - destruct (host_colon_bracketed a Ha Hc) as (i & Hi & Hb). subst h. rewrite Hi in *.
      rewrite contains_bracketed in Hc by done. rewrite trim_brackets_bracketed by done.
      rewrite contains_char_lower, Hc by done. apply bare_lower in Hb.
      by rewrite trim_brackets_bracketed by done.
    - pose proof (trim_brackets_plain _ Hc (host_no_userinfo a Ha)) as Hp%plain_name_lower. fold h in Hp.
      pose proof Hp as (-> & _). split; [done|]. unfold h. by rewrite trim_brackets_lower, trim_brackets_idemp. }
  split; simpl; try done.
  - by apply socket_text_name.
  - apply to_ascii_lowercase_idemp.
  - unfold p. destruct (auth_port_u16 a) as [v|] eqn:Hv; simpl; [by eapply port_range|lia].
Qed.

Lemma target_host_name t : target_ok t → host_name (target_name t).
Proof.
  intros Ht. pose proof (to_name t Ht) as Hn. unfold target_name, host_name.
  destruct (contains_char _ _); [right; by eexists|by left].
Qed.

Lemma target_parts t :
  target_ok t → auth_host (ct_authority t) = target_name t ∧ auth_port_u16 (ct_authority t) = Some (ct_port t).
Proof.
  intros Ht. pose proof (target_host_name t Ht). destruct Ht as [Htx Hv _ _ _ Hp]. rewrite Htx in *.
  apply host_with_port; [done|done|]. by apply display_port_text.
Qed.

(** A tunnel dials the authority of its target, and a target names itself. *)
Lemma target_dialed t : target_ok t → connect_target (ct_authority t) = ct_authority t.
Proof.
  intros Ht. destruct (target_parts t Ht) as [Hh Hp]. unfold connect_target. rewrite Hh, Hp. simpl.
  rewrite (to_trim t Ht). rewrite (to_text t Ht). by apply socket_text_name.
Qed.

Lemma target_names_itself t : target_ok t → connect_target_info (ct_authority t) = Ok t.
Proof.
  intros Ht. destruct (target_parts t Ht) as [Hh Hp]. unfold connect_target_info. rewrite Hh, Hp. simpl.
  rewrite (to_trim t Ht), (to_lower t Ht). rewrite (socket_text_name _ _ t eq_refl eq_refl), <- (to_text t Ht).
  rewrite (to_valid t Ht). by destruct t.
Qed.

(** Host and port determine a target. *)
Lemma target_unique t t' :
  target_ok t → target_ok t' → host_matches_connect_target t t' = true → t = t'.
Proof.
  intros Ht Ht' [Hh%bool_decide_eq_true Hp%Z.eqb_eq]%andb_true_iff.
  rewrite (to_lower t Ht), (to_lower t' Ht') in Hh.
  assert (ct_authority t = ct_authority t') as Ha.
  { rewrite (to_text t Ht), (to_text t' Ht'). unfold target_name. by rewrite Hh, Hp. }
  destruct t, t'; simpl in *; by subst.
Qed.

Lemma target_matches_itself t : host_matches_connect_target t t = true.
Proof. unfold host_matches_connect_target, eq_ignore_ascii_case. by rewrite bool_decide_true, Z.eqb_refl. Qed.

(** A port other than 443 is not the suffix [:443]. *)
Lemma strip_443 n p :
  (0 ≤ p < 65536)%Z →
  strip_suffix ":443" (n +:+ ":" +:+ display_uint p) = if (p =? 443)%Z then Some n else None.
Proof.
  intros Hp. destruct (p =? 443)%Z eqn:E.
  - apply Z.eqb_eq in E as ->. by apply strip_suffix_Some.
  - destruct (strip_suffix _ _) as [r|] eqn:Hs; [|done]. exfalso. apply strip_suffix_Some in Hs.
    assert (contains_char ":"%char (display_uint p) = false) as Hc
      by (apply digits_no_char; [done|apply display_uint_digits]).
    pose proof (rsplit_once_app ":"%char n _ Hc) as H1. pose proof (rsplit_once_app ":"%char r "443" eq_refl) as H2.
    cbn in Hs. cbn in H1, H2. rewrite Hs in H1. rewrite H1 in H2. injection H2 as _ H2.
    pose proof (parse_display (2 ^ 16 - 1) p) as H3. rewrite H2 in H3. apply Z.eqb_neq in E.
    specialize (H3 ltac:(lia)). vm_compute in H3. congruence.
Qed.

(** The host that enforcement judges inside a tunnel. *)
Definition pinned_host (t : ConnectTargetInfo) : string :=
  if contains_char ":"%char (ct_host t) then ct_authority t
  else if (ct_port t =? 443)%Z then ct_host t else ct_authority t.

Lemma strip_target t host :
  target_ok t →
  strip_default_port (ct_authority t) true = Ok host ↔ host = pinned_host t ∧ valid_authority (pinned_host t).
Proof.
  intros Ht. pose proof (to_valid t Ht) as Hv. unfold strip_default_port, pinned_host.
  rewrite (to_text t Ht) in *. pose proof (to_name t Ht) as Hn.
  unfold authority_text, target_name in *. destruct (contains_char ":"%char (ct_host t)) eqn:Hc.
  - simpl in *. naive_solver.
  - assert (starts_with "[" (ct_host t +:+ ":" +:+ display_uint (ct_port t)) = false) as ->.
    { destruct Hn as (_ & _ & Hb). destruct (ct_host t); [done|]. cbn in *. by rewrite starts_bracket_cons in *. }
    rewrite strip_443 by apply (to_port t Ht). destruct (_ =? 443)%Z; [|naive_solver].
    split; [|by intros [-> ?]]. intros H. pose proof (from_str_text _ _ H) as ->. done.
Qed.

(** ** Facts: the normal form of an authority *)

(** A name as the grammar has it: not empty, visible, an IPv6 literal if bracketed. *)
Definition proper_name (n : string) : Prop :=
  n ≠ "" ∧ visible_str n = true ∧
  ((plain_name n ∧ contains_char "]"%char n = false) ∨
   ∃ h, n = bracketed h ∧ bare h ∧ contains_char ":"%char h = true).

Definition normal_name (n : string) : string :=
  if starts_with "[" n then to_ascii_lowercase n else to_ascii_lowercase (trim_end_char "."%char n).

Definition normal_form (n : string) (v : Z) : string :=
  if default_port (display_uint v) then normal_name n else normal_name n +:+ ":" +:+ display_uint v.

Lemma normal_name_lower n : normal_name (to_ascii_lowercase n) = normal_name n.
Proof.
  unfold normal_name. rewrite starts_bracket_lower. destruct (starts_with _ _).
  - apply to_ascii_lowercase_idemp.
  - by rewrite lower_trim_end, to_ascii_lowercase_idemp by done.
Qed.

Lemma proper_name_lower n : proper_name n → proper_name (to_ascii_lowercase n).
Proof.
  intros (Hne & Hv & Hn). split_and!; [by destruct n|by apply visible_lower|].
  destruct Hn as [[Hp Hc]|(h & -> & Hb & Hc)]; [left|right].
  - split; [by apply plain_name_lower|by rewrite contains_char_lower].
  - exists (to_ascii_lowercase h). rewrite bracketed_lower, contains_char_lower by done. by apply bare_lower in Hb.
Qed.

Lemma named_authority_valid req b :
  (∀ b, uri_authority (hr_uri req) = Some b → valid_authority b) →
  named_authority req = Ok (Some b) → valid_authority b.
Proof.
  intros Hu. unfold named_authority. destruct (header_str _ _) as [[s|]|]; [|naive_solver|done].
  destruct (authority_from_str s) as [a|] eqn:E; [|done]. intros [= <-].
  pose proof (from_str_text _ _ E) as ->. done.
Qed.

Lemma parse_digits_mono radix max max' acc s v :
  (max ≤ max')%Z → parse_digits radix max acc s = Ok v → parse_digits radix max' acc s = Ok v.
Proof.
  intros Hm. revert acc. induction s as [|a s IH]; intros acc; [done|]. cbn.
  destruct (to_digit radix a); [|done]. destruct (_ && _) eqn:E; [|done]. boolify.
  rewrite (proj2 (Z.leb_le _ _)), (proj2 (Z.leb_le _ max')) by lia. apply IH.
Qed.

Lemma port_canonical p v : port_text p v → is_valid_port p = true ∧ canonical_port p = display_uint v.
Proof.
  intros [Hp Hv]. split; [done|]. unfold canonical_port. enough (parse_u32 p = Ok v) as -> by done.
  unfold parse_u16, parse_u32 in *. unfold from_str_radix in *.
  destruct p as [|a [|b p]]; [done|case_decide..]; try done; by eapply parse_digits_mono; [|exact Hv].
Qed.

Lemma split_once2_first c d l r : contains_char c l = false → split_once2 c d (l +:+ String c (String d r)) = Some (l, r).
Proof.
  induction l as [|a l IH]; [intros _; cbn; rewrite decide_True by done; done|].
  cbn. intros [Ha%bool_decide_eq_false Hl]%orb_false_iff. specialize (IH Hl).
  destruct l as [|b l]; cbn in *; rewrite decide_False by tauto; [|by rewrite IH].
  rewrite decide_True by done. done.
Qed.

Lemma split_once2_absent c d l : contains_char c l = false → split_once2 c d (l +:+ String c "") = None.
Proof.
  induction l as [|a l IH]; [done|]. cbn. intros [Ha%bool_decide_eq_false Hl]%orb_false_iff. specialize (IH Hl).
  destruct l as [|b l]; cbn in *; rewrite decide_False by tauto; [done|by rewrite IH].
Qed.

Lemma normalize_with_port n p v :
  proper_name n → port_text p v → normalize_mapping_host (authority_text n (Some p)) = normal_form n v.
Proof.
  intros (Hne & Hv & Hn) [Hp Hcp]%port_canonical. unfold normalize_mapping_host, normal_form, authority_text.
  assert (visible_str (n +:+ ":" +:+ p) = true) as Hvis by (by rewrite !visible_app, Hv, (visible_port p)).
  destruct Hn as [[(Hc & _ & Hb) _]|(h & -> & Hb & _)].
  - rewrite split_mapping_plain; [|done|by destruct n; [|cbn in *; rewrite starts_bracket_cons in *]].
    rewrite <- (str_app_nil_r p) at 1. rewrite split_authority_port by done. unfold normal_name.
    rewrite Hcp, Hb. done.
  - rewrite split_mapping_bracket by done. unfold split_ipv6_authority.
    assert (to_ascii_lowercase (bracketed h +:+ ":" +:+ p)
            = String "["%char (to_ascii_lowercase h +:+ String "]"%char (String ":"%char p))) as ->.
    { unfold bracketed, to_ascii_lowercase. rewrite !str_map_app. cbn. f_equal.
      rewrite <- str_app_assoc. cbn. do 3 f_equal. by apply digits_lower, is_valid_port_spec. }
    destruct (bare_lower h Hb) as (Hb1 & Hb2 & _).
    pose proof (split_once2_first "]"%char ":"%char (String "["%char (to_ascii_lowercase h)) p) as E.
    cbn [String.append] in E. rewrite E by done. rewrite Hp, Hcp. unfold normal_name. simpl starts_with.
    by rewrite bracketed_lower.
Qed.

Lemma normalize_without_port n : proper_name n → normalize_mapping_host n = normal_form n 443.
Proof.
  intros (Hne & Hv & Hn). change (normal_form n 443) with (normal_name n). unfold normal_name.
  destruct Hn as [[(Hc & _ & Hb) _]|(h & -> & Hb & _)].
  - by rewrite Hb, normalize_plain.
  - unfold normalize_mapping_host. rewrite split_mapping_bracket by done. unfold split_ipv6_authority.
    rewrite bracketed_lower. destruct (bare_lower h Hb) as (Hb1 & Hb2 & _). unfold bracketed.
    pose proof (split_once2_absent "]"%char ":"%char (String "["%char (to_ascii_lowercase h))) as E.
    cbn [String.append] in *. by rewrite E by done.
Qed.

(** The name in the target of a proper authority. *)
Lemma target_of_proper n p v t :
  proper_name n → valid_authority (authority_text n p) →
  match p with None => v = 443%Z | Some p => port_text p v end →
  connect_target_info (authority_text n p) = Ok t →
  target_ok t ∧ target_name t = to_ascii_lowercase n ∧ ct_port t = v.
Proof.
  intros (Hne & Hvis & Hn) Hv Hp Ht. pose proof (connect_target_info_ok _ _ Hv Ht) as Hok. split; [done|].
  assert (host_name n) as Hhn by (destruct Hn as [[? _]|(h & ? & ? & _)]; [by left|by right; exists h]).
  assert (auth_host (authority_text n p) = n ∧ default 443%Z (auth_port_u16 (authority_text n p)) = v) as [Hh Hpv].
  { destruct p as [p|]; [by destruct (host_with_port n p v Hv Hhn Hp) as [-> ->]|].
    subst v. simpl in *. by destruct (host_without_port n Hv Hhn) as [-> ->]. }
  unfold connect_target_info in Ht. rewrite Hh, Hpv in Ht. destruct (authority_from_str _); [|done].
  injection Ht as <-. split; [|done]. unfold target_name. simpl. rewrite contains_char_lower by done.
  destruct Hn as [[(Hc & Hat & Hb) Hr]|(h & -> & Hb & Hc)].
  - rewrite (trim_brackets_none n) by done. by rewrite Hc.
  - rewrite trim_brackets_bracketed, Hc by done. by rewrite bracketed_lower.
Qed.

(** The head of a CONNECT: the host it names, without the default port. *)
Lemma connect_head req a raw :
  host_with_default_port req true = Ok a → build_raw_request_head req true = Ok raw →
  strip_default_port a true = Ok (rq_host raw) ∧ rq_is_https raw = true ∧ rq_path raw = "/" ∧
  rq_headers raw = hr_headers req ∧ rq_method raw = hr_method req.
Proof.
  intros Ha. unfold build_raw_request_head. rewrite Ha. simpl.
  destruct (strip_default_port a true) as [host|]; [|done]. by intros [= <-].
Qed.

Lemma strip_proper n p v host :
  proper_name n → match p with None => v = 443%Z | Some p => port_text p v end →
  strip_default_port (authority_text n p) true = Ok host →
  normalize_mapping_host host = normal_form n v.
Proof.
  intros Hn Hp. pose proof Hn as (Hne & Hvis & Hcase). unfold strip_default_port.
  assert (normalize_mapping_host (authority_text n p) = normal_form n v) as Hf.
  { destruct p; [by apply normalize_with_port|subst v; by apply normalize_without_port]. }
  destruct (starts_with "[" (authority_text n p)) eqn:Hb; [by intros [= <-]|].
  destruct (strip_suffix ":443" (authority_text n p)) as [r|] eqn:Hs; [|by intros [= <-]].
  intros H%from_str_text. subst host. apply strip_suffix_Some in Hs.
  assert (p = Some "443" ∧ n = r) as [-> ->].
  { assert (contains_char ":"%char n = false) as Hc.
    { destruct Hcase as [[(? & _) _]|(h & -> & _)]; [done|]. by destruct p. }
    destruct p as [p|]; simpl in Hs.
    - destruct Hp as [[_ Hd]%is_valid_port_spec _].
      pose proof (rsplit_once_app ":"%char n p (digits_no_char ":"%char p eq_refl Hd)) as H1.
      pose proof (rsplit_once_app ":"%char r "443" eq_refl) as H2. rewrite Hs in H1. simpl in H1, H2.
      rewrite H1 in H2. by simplify_eq.
    - rewrite Hs, contains_char_app in Hc. simpl in Hc. by rewrite orb_true_r in Hc. }
  rewrite normalize_without_port by done. destruct Hp as [_ Hp]. vm_compute in Hp. by injection Hp as <-.
Qed.

(** The target of a request names valid authorities only. *)
Definition uri_ok (req : Request) : Prop := ∀ b, uri_authority (hr_uri req) = Some b → valid_authority b.

Lemma host_with_default_port_valid req c a : uri_ok req → host_with_default_port req c = Ok a → valid_authority a.
Proof.
  intros Hu. unfold host_with_default_port. destruct (named_authority req) as [[b|]|] eqn:E; [|..|done].
  - intros [= <-]. by eapply named_authority_valid.
  - destruct (uri_host _); [|done]. intros H. pose proof (from_str_text _ _ H) as ->. done.
Qed.

(** An accepted head of a decrypted request: who it names, and what it becomes. *)
Lemma https_head_spec req t raw :
  target_ok t → uri_ok req →
  build_raw_https_request_head req t = Ok raw ↔
  (∃ named, named_authority req = Ok named ∧ connect_target_info (default (ct_authority t) named) = Ok t) ∧
  valid_authority (pinned_host t) ∧
  raw = {| rq_method := hr_method req; rq_host := pinned_host t; rq_path := extract_path (uri_text (hr_uri req));
           rq_headers := hr_headers req; rq_body := None; rq_is_https := true |}.
Proof.
  intros Ht Huri. unfold build_raw_https_request_head.
  destruct (named_authority req) as [named|] eqn:En; [|naive_solver].
  destruct (connect_target_info (default (ct_authority t) named)) as [info|] eqn:Ei;
    [|split; [done|intros ((? & [= <-] & ?) & _); congruence]].
  assert (target_ok info) as Hinfo.
  { eapply connect_target_info_ok; [|exact Ei]. destruct named as [b|]; [|apply (to_valid t Ht)].
    by eapply named_authority_valid. }
  destruct (host_matches_connect_target info t) eqn:Hm.
  - apply (target_unique _ _ Hinfo Ht) in Hm as ->. destruct (strip_default_port _ true) as [host|] eqn:Es.
    + pose proof Es as [-> Hv]%strip_target; [|done]. split; [intros [= <-]; by split_and!; [exists named|..]|by intros (_ & _ & ->)].
    + split; [done|]. intros (_ & Hv & _). pose proof (proj2 (strip_target t _ Ht) (conj eq_refl Hv)). congruence.
  - split; [done|]. intros ((named' & [= <-] & E) & _). rewrite Ei in E. injection E as ->.
    by rewrite target_matches_itself in Hm.
Qed.

(** ** Properties *)

(** A decrypted request is judged and sent as one to the CONNECT target:
    its head is accepted exactly when its first [Host] header, or else the
    authority of its target, names the host and port of the tunnel in any
    spelling, and then the host that enforcement sees is the tunnel's and
    nothing the agent wrote; a request for another host is refused. *)
Theorem mitm_host_pinned req a t raw :
  valid_authority a → connect_target_info a = Ok t → uri_ok req →
  build_raw_https_request_head req t = Ok raw ↔
  (∃ named, named_authority req = Ok named ∧ connect_target_info (default (ct_authority t) named) = Ok t) ∧
  valid_authority (pinned_host t) ∧
  raw = {| rq_method := hr_method req; rq_host := pinned_host t; rq_path := extract_path (uri_text (hr_uri req));
           rq_headers := hr_headers req; rq_body := None; rq_is_https := true |}.
Proof.
  intros Ha Hat Huri. apply https_head_spec; [|done]. by eapply connect_target_info_ok.
Qed.

(** The destination a CONNECT is judged on is the one its tunnel dials: for an
    authority in the form [host] or [host:port], the normal form of the host
    handed to enforcement is that of the address dialed, so no rule that
    matches the one misses the other. *)
Theorem connect_judged_is_dialed req n p v raw t :
  proper_name n → valid_authority (authority_text n p) →
  match p with None => v = 443%Z | Some p => port_text p v end →
  host_with_default_port req true = Ok (authority_text n p) →
  build_raw_request_head req true = Ok raw →
  connect_target_info (authority_text n p) = Ok t →
  normalize_mapping_host (rq_host raw) = normalize_mapping_host (connect_target (ct_authority t)) ∧
  connect_target (ct_authority t) = to_ascii_lowercase n +:+ ":" +:+ display_uint v.
Proof.
  intros Hn Hv Hp Ha Hraw Ht. apply (connect_head req _ raw Ha) in Hraw as (Hs & _).
  destruct (target_of_proper n p v t Hn Hv Hp Ht) as (Hok & Hname & Hport).
  rewrite (target_dialed t Hok), (to_text t Hok), Hname, Hport. split; [|done].
  rewrite (strip_proper n p v _ Hn Hp Hs). rewrite (normalize_with_port _ _ v).
  - unfold normal_form. by rewrite normal_name_lower.
  - by apply proper_name_lower.
  - apply display_port_text. rewrite <- Hport. apply (to_port t Hok).
Qed.

(** User information is judged as part of the host but not dialed. *)
Lemma userinfo_judged_not_dialed u a raw req t :
  valid_authority (u +:+ "@" +:+ a) → contains_char "@"%char a = false →
  host_with_default_port req true = Ok (u +:+ "@" +:+ a) → build_raw_request_head req true = Ok raw →
  connect_target_info (u +:+ "@" +:+ a) = Ok t →
  contains_char "@"%char (rq_host raw) = true ∧ connect_target_info a = Ok t.
Proof.
  intros Hv Hat Ha Hraw Ht. apply (connect_head req _ raw Ha) in Hraw as (Hs & _). split.
  - unfold strip_default_port in Hs. destruct (starts_with "[" (u +:+ "@" +:+ a)).
    { injection Hs as <-. rewrite !contains_char_app. simpl. by rewrite orb_true_r. }
    destruct (strip_suffix _ _) as [r|] eqn:E; cycle 1.
    { injection Hs as <-. rewrite !contains_char_app. simpl. by rewrite orb_true_r. }
    apply from_str_text in Hs as ->. apply strip_suffix_Some in E.
    assert (contains_char "@"%char (u +:+ "@" +:+ a) = true) as H.
    { rewrite !contains_char_app. simpl. by rewrite orb_true_r. }
    rewrite E, contains_char_app in H. simpl in H. by rewrite orb_false_r in H.
  - unfold connect_target_info in *. destruct (userinfo_ignored u a Hv Hat) as [E1 E2]. by rewrite E1, E2 in Ht.
Qed.

End Targets.

(** ** Host patterns *)

Lemma below_suffix suffix value :
  (∃ l, l ≠ "" ∧ value = l +:+ "." +:+ suffix) ↔
  (if bool_decide (value = suffix) then false
   else match strip_suffix suffix value with
        | None => false
        | Some prefix => ends_with "." prefix && (1 <? String.length prefix)%nat
        end) = true.
Proof.
  split.
  - intros (l & Hl & ->). rewrite bool_decide_false.
    + rewrite (proj2 (strip_suffix_Some suffix _ (l +:+ "."))) by (by rewrite str_app_assoc).
      apply andb_true_iff. split; [apply ends_with_spec; by eexists|]. apply Nat.ltb_lt.
      rewrite str_length_app. destruct l; [done|simpl; lia].
    + intros E. apply (f_equal String.length) in E. rewrite !str_length_app in E. simpl in E. lia.
  - destruct (bool_decide _); [done|]. destruct (strip_suffix suffix value) as [prefix|] eqn:E; [|done].
    apply strip_suffix_Some in E as ->. intros [[l ->]%ends_with_spec Hlen%Nat.ltb_lt]%andb_true_iff.
    exists l. rewrite <- str_app_assoc. split; [|done]. intros ->. simpl in Hlen. lia.
Qed.

(** A pattern matches everything, the names strictly below a suffix of two or more
    labels, or one name. *)
Lemma wildcard_match_spec pattern value :
  wildcard_match pattern value = true ↔
  pattern = "*" ∨
  (∃ suffix l, pattern = "*." +:+ suffix ∧ contains_char "."%char suffix = true ∧
     contains_char "*"%char suffix = false ∧ l ≠ "" ∧ value = l +:+ "." +:+ suffix) ∨
  (contains_char "*"%char pattern = false ∧ value = pattern).
Proof.
  unfold wildcard_match. destruct (decide (pattern = "*")) as [->|Hs]; [naive_solver|].
  destruct (strip_prefix "*." pattern) as [suffix|] eqn:Hp.
  - apply strip_prefix_Some in Hp as ->.
    assert (∀ P : Prop, (false = true ↔ P) ↔ ¬ P) as Hno by naive_solver.
    destruct (contains_char "*"%char suffix) eqn:Hc.
    { rewrite orb_true_r. apply Hno. intros [?|[(x & l & Hx & _ & Hc' & _)|[Hc' _]]]; [done| |].
      - apply str_app_inj_l in Hx as <-. congruence.
      - by cbn in Hc'. }
    rewrite orb_false_r. destruct (contains_char "."%char suffix) eqn:Hd; simpl negb; cycle 1.
    { destruct (is_empty suffix); apply Hno; (intros [?|[(x & l & Hx & Hd' & _)|[Hc' _]]]; [done| |by cbn in Hc']);
        apply str_app_inj_l in Hx as <-; congruence. }
    assert (is_empty suffix = false) as -> by (apply bool_decide_eq_false; by intros ->).
    rewrite <- below_suffix. split.
    + intros (l & ? & ->). right. left. by exists suffix, l.
    + intros [?|[(x & l & Hx & _ & _ & Hne & ->)|[Hc' _]]]; [done| |by cbn in Hc'].
      apply str_app_inj_l in Hx as <-. by exists l.
  - destruct (contains_char "*"%char pattern) eqn:Hc.
    + split; [done|]. intros [?|[(x & l & -> & _)|[? _]]]; [done| |congruence].
      by rewrite (proj2 (strip_prefix_Some "*." _ x)) in Hp.
    + rewrite bool_decide_eq_true. split; [intros ->; by right; right|].
      intros [?|[(x & l & -> & _)|[_ ->]]]; [done| |done]. by cbn in Hc.
Qed.

(** A host in the bypass list is never decrypted; a decrypted host matches the
    intercept list in its normal form. *)
Lemma should_intercept_spec r host :
  should_intercept_host r host = true ↔
  mr_enabled r = true ∧ host_matches_any host (mr_bypass_hosts r) = false ∧
  host_matches_any host (mr_intercept_hosts r) = true.
Proof.
  unfold should_intercept_host. destruct (mr_enabled r), (host_matches_any host (mr_bypass_hosts r)); simpl; naive_solver.
Qed.

(** ** Samples *)

Module Samples.

(** The parts of an authority: the text after the last [@], up to the first closing
    bracket or the first colon, and the digits after it. *)
Definition host_port (a : string) : string := match rsplit_once "@"%char a with Some (_, r) => r | None => a end.

Definition host_of (hp : string) : string :=
  if starts_with "[" hp then match split_once "]"%char hp with Some (h, _) => h +:+ "]" | None => hp end
  else match split_once ":"%char hp with Some (h, _) => h | None => hp end.

Definition accepts (a : string) : bool :=
  match strip_prefix "[" (host_port a) with
  | Some inner =>
      match split_once "]"%char inner with Some (h, _) => negb (contains_char "["%char h) | None => false end
  | None => negb (is_empty (host_port a))
  end.

#[local] Instance grammar_http : HttpCrate := {|
  HeaderMap := list (string * string);
  hm_iter := id;
  hm_from_iter := id;
  hm_remove n := filter (λ kv, kv.1 ≠ n);
  header_name_from_bytes := Ok;
  authority_from_str a := if accepts a then Ok a else Err "invalid authority";
|}.

#[local] Instance grammar_parts : AuthorityParts := {|
  auth_host a := host_of (host_port a);
  auth_port_u16 a := strip_prefix (host_of (host_port a) +:+ ":") (host_port a) ≫= (λ p, result_ok (parse_u16 p));
|}.

Lemma host_port_plain a : contains_char "@"%char a = false → host_port a = a.
Proof. intros H. unfold host_port. by rewrite (proj2 (rsplit_once_None _ _) H). Qed.

Lemma host_port_no_at a : contains_char "@"%char (host_port a) = false.
Proof.
  unfold host_port. destruct (rsplit_once _ a) as [[l r]|] eqn:E; [by apply rsplit_once_Some in E as [_ ?]|].
  by apply rsplit_once_None.
Qed.

(** What precedes a port is the host. *)
Lemma host_of_text n p : host_name n → match p with Some p => is_valid_port p = true | None => True end → host_of (authority_text n p) = n.
Proof.
  intros [(Hc & _ & Hb)|(h & -> & _ & Hr & _)] Hp; unfold host_of.
  - assert (starts_with "[" (authority_text n p) = false) as ->.
    { destruct p; [|done]. destruct n; [done|]. cbn in *. by rewrite starts_bracket_cons in *. }
    destruct p as [p|]; simpl; [by rewrite split_once_app|by rewrite (proj2 (split_once_None _ _))].
  - assert (∀ r, bracketed h +:+ r = (String "["%char h) +:+ String "]"%char r) as E.
    { intros r. unfold bracketed. cbn. by rewrite <- str_app_assoc. }
    assert (authority_text (bracketed h) p = String "["%char h +:+ String "]"%char (match p with Some p => ":" +:+ p | None => "" end)) as ->.
    { destruct p; simpl authority_text; [apply E|]. rewrite <- (str_app_nil_r (bracketed h)). apply E. }
    simpl starts_with. rewrite split_once_app; [done|]. by cbn.
Qed.

Lemma host_name_no_at n p :
  host_name n → match p with Some p => is_valid_port p = true | None => True end →
  contains_char "@"%char (authority_text n p) = false.
Proof.
  intros Hn Hp. assert (contains_char "@"%char n = false) as Hc.
  { destruct Hn as [(_ & ? & _)|(h & -> & _ & _ & ?)]; [done|]. by rewrite contains_bracketed. }
  destruct p as [p|]; [|done]. cbn. rewrite contains_char_app, Hc. cbn. apply digits_no_char; [done|].
  by apply is_valid_port_spec.
Qed.

Lemma host_colon_literal a :
  valid_authority a → contains_char ":"%char (auth_host a) = true → ∃ h, auth_host a = bracketed h ∧ bare h.
Proof.
  unfold valid_authority. cbn. pose proof (host_port_no_at a) as Hat. unfold accepts, host_of.
  destruct (strip_prefix "[" (host_port a)) as [inner|] eqn:Hb.
  - apply strip_prefix_Some in Hb. rewrite Hb in *. simpl starts_with. cbn iota.
    destruct (split_once "]"%char inner) as [[h r]|] eqn:E; [|done]. pose proof E as [-> Hr]%split_once_Some.
    destruct (contains_char "["%char h) eqn:Hl; [done|]. intros _ _. exists h.
    pose proof (split_once_app "]"%char (String "["%char h) r) as Es. cbn [String.append] in Es |- *.
    rewrite Es by (by cbn). split; [done|]. split_and!; [done|done|].
    rewrite (contains_char_app _ "["), (contains_char_app _ h) in Hat. by destruct (contains_char "@"%char h).
  - unfold starts_with. rewrite Hb. intros _. destruct (split_once ":"%char (host_port a)) as [[h r]|] eqn:E.
    + apply split_once_Some in E as [_ ->]. done.
    + apply split_once_None in E. by rewrite E.
Qed.

#[local] Instance grammar_laws : AuthorityLaws grammar_parts.
Proof.
  split.
  - intros s a. cbn. destruct (accepts s); [|done]. by intros [= <-].
  - intros n _ Hn. pose proof (host_name_no_at n None Hn I) as Hat. pose proof (host_of_text n None Hn I) as Hh.
    simpl in Hat, Hh. cbn. rewrite host_port_plain, Hh by done. split; [done|].
    destruct (strip_prefix (n +:+ ":") n) as [r|] eqn:E; [|done]. apply strip_prefix_Some in E.
    apply (f_equal String.length) in E. rewrite !str_length_app in E. simpl in E. lia.
  - intros n p v _ Hn [Hp Hv]. pose proof (host_name_no_at n (Some p) Hn Hp) as Hat.
    pose proof (host_of_text n (Some p) Hn Hp) as Hh. cbn. rewrite host_port_plain by done.
    cbn in Hh. rewrite Hh. split; [done|]. rewrite (proj2 (strip_prefix_Some (n +:+ ":") _ p)); [|by rewrite <- str_app_assoc].
    cbn. by rewrite Hv.
  - intros u a _ Ha. cbn. assert (host_port (u +:+ String "@"%char a) = host_port a) as ->; [|done].
    rewrite (host_port_plain a) by done. unfold host_port. by rewrite (rsplit_once_app "@"%char u a).
  - intros a _. cbn. pose proof (host_port_no_at a) as H. unfold host_of. destruct (starts_with _ _).
    + destruct (split_once _ _) as [[h r]|] eqn:E; [|done]. apply split_once_Some in E as [E _]. rewrite E in H.
      rewrite contains_char_app in H |- *. by apply orb_false_iff in H as [-> _].
    + destruct (split_once _ _) as [[h r]|] eqn:E; [|done]. apply split_once_Some in E as [E _]. rewrite E in H.
      rewrite contains_char_app in H. by apply orb_false_iff in H as [-> _].
  - intros a Hv. exact (host_colon_literal a Hv).
  - intros a v. cbn. destruct (strip_prefix _ _) as [p|]; [|done]. cbn. destruct (parse_u16 p) as [w|] eqn:E; [|done].
    intros [= <-]. unfold parse_u16 in E. apply from_str_radix_range in E; lia.
Qed.

(** A decrypted request for the tunnel's host, spelled differently, and one for
    another host. *)
Definition inner (host : string) : Request := {|
  hr_method := "GET";
  hr_uri := {| uri_text := "/v1/me"; uri_scheme := None; uri_authority := None; uri_host := None;
               uri_port_u16 := None; uri_path_and_query := Some "/v1/me" |};
  hr_headers := [("host", host)];
|}.

Definition api_target : ConnectTargetInfo :=
  {| ct_host := "api.example.com"; ct_port := 443; ct_authority := "api.example.com:443" |}.

Lemma mitm_host_pinned_witness :
  build_raw_https_request_head (inner "evil.example.net") api_target = Err HOST_MISMATCH ∧
  ∃ raw, build_raw_https_request_head (inner "API.example.com") api_target = Ok raw ∧ rq_host raw = "api.example.com".
Proof.
  split; [vm_compute; reflexivity|]. eexists. split.
  - apply (mitm_host_pinned (inner "API.example.com") "API.Example.com:443" api_target);
      [vm_compute; reflexivity|vm_compute; reflexivity|discriminate|].
    split; [exists (Some "API.example.com"); split; vm_compute; reflexivity|].
    split; [vm_compute; reflexivity|reflexivity].
  - vm_compute. reflexivity.
Defined.

Definition connect_to (host : string) : Request := {|
  hr_method := "CONNECT";
  hr_uri := {| uri_text := host; uri_scheme := None; uri_authority := Some host; uri_host := Some (host_of (host_port host));
               uri_port_u16 := None; uri_path_and_query := None |};
  hr_headers := [];
|}.

Lemma connect_judged_is_dialed_witness :
  (∃ raw, build_raw_request_head (connect_to "[2001:DB8::1]:08443") true = Ok raw ∧
     normalize_mapping_host (rq_host raw) = "[2001:db8::1]:8443") ∧
  normalize_mapping_host "API.Example.com" = normalize_mapping_host (connect_target "api.example.com:443") ∧
  connect_target "api.example.com:443" = "api.example.com:443".
Proof.
  split; [eexists; split; vm_compute; reflexivity|].
  refine (connect_judged_is_dialed (connect_to "API.Example.com:443") "API.Example.com" (Some "443") 443
            {| rq_method := "CONNECT"; rq_host := "API.Example.com"; rq_path := "/"; rq_headers := [];
               rq_body := None; rq_is_https := true |} api_target _ _ _ _ _ _).
  - split; [discriminate|]. split; [vm_compute; reflexivity|]. left. repeat split; vm_compute; reflexivity.
  - vm_compute. reflexivity.
  - split; vm_compute; reflexivity.
  - vm_compute. reflexivity.
  - vm_compute. reflexivity.
  - vm_compute. reflexivity.
Defined.

(** A rule for [internal.example.com] does not match a CONNECT to
    [x@internal.example.com], whose tunnel goes there all the same. *)
Lemma userinfo_evades_rule :
  match build_raw_request_head (connect_to "x@internal.example.com:443") true,
        connect_target_info "x@internal.example.com:443" with
  | Ok raw, Ok t =>
      normalize_mapping_host (rq_host raw) = "x@internal.example.com" ∧
      connect_target (ct_authority t) = "internal.example.com:443"
  | _, _ => False
  end.
Proof. vm_compute. split; reflexivity. Qed.

(** Brackets around a name are judged but not dialed. *)
Lemma brackets_evade_rule :
  match build_raw_request_head (connect_to "[internal.example.com]:443") true,
        connect_target_info "[internal.example.com]:443" with
  | Ok raw, Ok t =>
      normalize_mapping_host (rq_host raw) = "[internal.example.com]" ∧
      connect_target (ct_authority t) = "internal.example.com:443"
  | _, _ => False
  end.
Proof. vm_compute. split; reflexivity. Qed.

Example wildcard_examples :
  map (λ p, wildcard_match p "a.b.example.com")
    ["*"; "*.example.com"; "*.com"; "a.b.example.com"; "*.a.b.example.com"; "a.*.com"; "example.com"]
  = [true; true; false; true; false; false; false].
Proof. vm_compute. reflexivity. Qed.

End Samples.
