(* ===== verification/InterceptFraming.v ===== *)
(** * Bytes of intercepted connections ([interceptor/http.rs])

    What the interceptor reads and writes itself, outside an HTTP library: the
    first bytes of a CONNECT tunnel, which decide whether it carries TLS; the
    stream that gives these bytes back to the TLS acceptor; the upgrade request
    rendered for the upstream; and the head of the upstream's answer. *)

From S2P Require Import Prelude RustStr Core Mapping MappingHost Redaction Normalizer BodyEncoding InterceptHosts.

#[local] Open Scope string_scope.

Definition CR : ascii := "013"%char.
Definition LF : ascii := "010"%char.
Definition CRLF : string := String CR (String LF "").

(** ** The preface of a tunnel *)

Definition CONNECT_PREFACE_MAX_BYTES : nat := 32.

Definition is_crlf (b : ascii) : bool := bool_decide (b = CR) || bool_decide (b = LF).

(** [matches!(byte, 20..=23)]: a TLS content type. *)
Definition tls_content_type (b : ascii) : bool := in_range 20 23 b.

(** [read_connect_preface]: what was read and what is left of the input, [None]
    when the input ends first. *)
Fixpoint preface_loop (n : nat) (seen : bool) (payload : nat) (out input : string) : option (string * string) :=
  match n, input with
  | O, _ => Some (out, input)
  | S _, "" => None
  | S n, String b input =>
      let out := out +:+ String b "" in
      if negb seen && is_crlf b then preface_loop n false payload out input
      else if negb seen && negb (tls_content_type b) then Some (out, input)
      else
        let payload := S payload in
        if (5 <=? payload)%nat then Some (out, input) else preface_loop n true payload out input
  end.

Definition read_connect_preface (input : string) : option (string * string) :=
  preface_loop CONNECT_PREFACE_MAX_BYTES false 0 "" input.

(** [first_non_crlf_index]. *)
Fixpoint first_non_crlf_index (preface : string) : nat :=
  match preface with
  | "" => 0
  | String b s => if is_crlf b then S (first_non_crlf_index s) else 0
  end.

(** [is_likely_tls_record_header]: content type, version 3.0 to 3.4, a length. *)
Definition is_likely_tls_record_header (preface : string) (start : nat) : bool :=
  match str_drop start preface with
  | String t (String major (String minor (String l1 (String l2 _)))) =>
      tls_content_type t && bool_decide (byte major = 3%Z) && (byte minor <=? 4)%Z &&
      (0 <? byte l1 * 256 + byte l2)%Z
  | _ => false
  end.

(** [PrefetchedStream]: the bytes read ahead come before the inner stream. *)
Record PrefetchedStream := { ps_inner : string; ps_prefetched : string; ps_pos : nat }.

Definition prefetched_new (inner prefetched : string) : PrefetchedStream :=
  {| ps_inner := inner; ps_prefetched := str_take CONNECT_PREFACE_MAX_BYTES prefetched; ps_pos := 0 |}.

(** [poll_read] into a buffer with room for [room] bytes, where a read of the inner
    stream delivers [n] bytes, at most what fits. *)
Definition prefetched_read (room n : nat) (s : PrefetchedStream) : string * PrefetchedStream :=
  let len := String.length (ps_prefetched s) in
  if (ps_pos s <? len)%nat && (0 <? room)%nat then
    let to_copy := Nat.min (len - ps_pos s) room in
    (str_take to_copy (str_drop (ps_pos s) (ps_prefetched s)),
     {| ps_inner := ps_inner s; ps_prefetched := ps_prefetched s; ps_pos := ps_pos s + to_copy |})
  else
    (str_take (Nat.min n room) (ps_inner s),
     {| ps_inner := str_drop (Nat.min n room) (ps_inner s); ps_prefetched := ps_prefetched s; ps_pos := ps_pos s |}).

Fixpoint prefetched_reads (l : list (nat * nat)) (s : PrefetchedStream) : string * PrefetchedStream :=
  match l with
  | [] => ("", s)
  | (room, n) :: l =>
      let '(a, s) := prefetched_read room n s in
      let '(b, s) := prefetched_reads l s in (a +:+ b, s)
  end.

(** ** The upgrade request *)

Section Upgrade.
Context {HC : HttpCrate} {AP : AuthorityParts}.

(** [header_contains_token], [is_websocket_upgrade_request]. *)
Definition header_contains_token (headers : HeaderMap) (name token : string) : bool :=
  match header_get name headers ≫= to_str with
  | Some value => existsb (λ part, eq_ignore_ascii_case (trim part) token) (split_char ","%char value)
  | None => false
  end.

Definition is_websocket_upgrade_request (req : Request) : bool :=
  bool_decide (hr_method req = "GET") && header_contains_token (hr_headers req) "connection" "upgrade" &&
  match header_get "upgrade" (hr_headers req) ≫= to_str with
  | Some v => eq_ignore_ascii_case v "websocket"
  | None => false
  end.

Definition header_line (kv : string * string) : string := kv.1 +:+ ": " +:+ kv.2 +:+ CRLF.

(** A header of the agent that is forwarded. *)
Definition forwarded_header (injected : gmap string string) (kv : string * string) : bool :=
  negb (starts_with "x-firma-" kv.1) && bool_decide (injected !! kv.1 = None).

(** [build_upstream_handshake_request]: the lines, and the bytes. *)
Definition handshake_headers (headers : HeaderMap) (authority : Authority) (credentials : InjectedCredentials)
    : list (string * string) :=
  let injected := cred_headers credentials in
  let has_host := existsb (λ kv, eq_ignore_ascii_case kv.1 "host") (hm_iter headers) in
  (filter (λ kv, forwarded_header injected kv = true) (hm_iter headers) ++
   (if has_host then [] else [("Host", authority)]) ++
   map_to_list injected)%list.

Definition build_upstream_handshake_request (headers : HeaderMap) (authority : Authority)
    (path_and_query : string) (credentials : InjectedCredentials) : string :=
  "GET " +:+ path_and_query +:+ " HTTP/1.1" +:+ CRLF +:+
  join "" (header_line <$> handshake_headers headers authority credentials) +:+ CRLF.

(** ** The answer to it *)

Definition MAX_HEAD : Z := 64 * 1024.

(** [buf.windows(4).position(|w| w == b"\r\n\r\n")]: the head with its end, and what
    follows. *)
Fixpoint split_head (buf : string) : option (string * string) :=
  match strip_prefix (CRLF +:+ CRLF) buf with
  | Some rest => Some (CRLF +:+ CRLF, rest)
  | None => match buf with
            | "" => None
            | String a buf => prod_map (String a) id <$> split_head buf
            end
  end.

(** The reading loop, on what each [read] of at most 1024 bytes answers; an input
    that ended answers no bytes. *)
Fixpoint read_head_loop (buf : string) (chunks : list (Result string string)) : Result (string * string) string :=
  match chunks with
  | [] | Ok "" :: _ => Err "early eof while reading response head"
  | Err e :: _ => Err ("read failed: " +:+ e)
  | Ok chunk :: chunks =>
      let buf := buf +:+ chunk in
      if (MAX_HEAD <? Z.of_nat (String.length buf))%Z then Err "response head exceeds 64KiB"
      else match split_head buf with
           | Some (head, prefetched) => Ok (head, prefetched)
           | None => read_head_loop buf chunks
           end
  end.

(** [s.split("\r\n")]. *)
Fixpoint split_crlf (s : string) : list string :=
  match s with
  | "" => [""]
  | String a s' =>
      match s' with
      | String b s'' =>
          if decide (a = CR ∧ b = LF) then "" :: split_crlf s''
          else match split_crlf s' with w :: ws => String a w :: ws | [] => [String a ""] end
      | "" => [String a ""]
      end
  end.

Definition response_header (line : string) : option (string * string) :=
  if is_empty line then None
  else prod_map trim trim <$> split_once ":"%char line.

Definition parse_response_head (head : string) : Result (Z * list (string * string)) string :=
  if negb (utf8_valid head) then Err "response head is not valid UTF-8"
  else match split_crlf head with
       | [] => Err "missing status line"
       | status_line :: lines =>
           match split_whitespace status_line with
           | _ :: code :: _ =>
               let? status := map_err (λ e, "invalid status code: " +:+ int_error_display e) (parse_u16 code) in
               Ok (status, omap response_header lines)
           | _ => Err "malformed status line"
           end
       end.

(** [read_http_response_head]: the status, the headers, and the bytes read past the
    head. *)
Definition read_http_response_head (chunks : list (Result string string))
    : Result (Z * list (string * string) * string) string :=
  let? (head, prefetched) := read_head_loop "" chunks in
  let? (status, headers) := parse_response_head head in
  Ok (status, headers, prefetched).

End Upgrade.

(** ** Facts: pieces of strings *)

Lemma str_take_all n s : (String.length s ≤ n)%nat → str_take n s = s.
Proof. revert s. induction n as [|n IH]; intros [|a s] H; cbn in *; try done; [lia|]. by rewrite IH by lia. Qed.

Lemma str_drop_prefix n s t : (n ≤ String.length s)%nat → str_drop n (s +:+ t) = str_drop n s +:+ t.
Proof. revert s. induction n as [|n IH]; intros [|a s] H; cbn in *; try done; [lia|]. by rewrite IH by lia. Qed.

(** ** Facts: the preface *)

Lemma preface_loop_spec n seen payload out input preface rest :
  preface_loop n seen payload out input = Some (preface, rest) →
  ∃ more, preface = out +:+ more ∧ input = more +:+ rest ∧ (String.length more ≤ n)%nat.
Proof.
  revert seen payload out input. induction n as [|n IH]; intros seen payload out input.
  { destruct input; intros [= <- <-]; exists ""; by rewrite str_app_nil_r. }
  destruct input as [|b input]; [done|]. cbn [preface_loop].
  assert (∀ seen payload, preface_loop n seen payload (out +:+ String b "") input = Some (preface, rest) →
            ∃ more, preface = out +:+ more ∧ String b input = more +:+ rest ∧ (String.length more ≤ S n)%nat) as Hgo.
  { intros seen' payload' (more & -> & -> & Hlen)%IH. exists (String b more). rewrite <- str_app_assoc.
    split_and!; [done|done|simpl; lia]. }
  assert (∀ o i, Some (o, i) = Some (preface, rest) → o = out +:+ String b "" → i = input →
            ∃ more, preface = out +:+ more ∧ String b input = more +:+ rest ∧ (String.length more ≤ S n)%nat) as Hstop.
  { intros o i [= <- <-] -> ->. exists (String b ""). split_and!; [done|done|simpl; lia]. }
  destruct (negb seen && is_crlf b); [by apply Hgo|].
  destruct (negb seen && negb (tls_content_type b)); [by intros H; eapply Hstop|].
  destruct (5 <=? S payload)%nat; [by intros H; eapply Hstop|by apply Hgo].
Qed.

Lemma read_connect_preface_spec input preface rest :
  read_connect_preface input = Some (preface, rest) →
  input = preface +:+ rest ∧ (String.length preface ≤ CONNECT_PREFACE_MAX_BYTES)%nat.
Proof.
  unfold read_connect_preface. generalize CONNECT_PREFACE_MAX_BYTES.
  by intros n (more & -> & -> & Hlen)%preface_loop_spec.
Qed.

Lemma first_non_crlf_le s : (first_non_crlf_index s ≤ String.length s)%nat.
Proof. induction s as [|a s IH]; cbn; [lia|]. destruct (is_crlf a); lia. Qed.

Lemma first_non_crlf_only s : str_forallb is_crlf (str_take (first_non_crlf_index s) s) = true.
Proof. induction s as [|a s IH]; [done|]. cbn. destruct (is_crlf a) eqn:E; [|done]. cbn. by rewrite E, IH. Qed.

(** What a prefetched stream has still to deliver. *)
Definition pending (s : PrefetchedStream) : string := str_drop (ps_pos s) (ps_prefetched s) +:+ ps_inner s.

Lemma prefetched_read_pending room n s :
  (ps_pos s ≤ String.length (ps_prefetched s))%nat →
  (prefetched_read room n s).1 +:+ pending (prefetched_read room n s).2 = pending s ∧
  (ps_pos (prefetched_read room n s).2 ≤ String.length (ps_prefetched (prefetched_read room n s).2))%nat.
Proof.
  intros Hpos. unfold prefetched_read, pending. set (len := String.length (ps_prefetched s)) in *.
  destruct (ps_pos s <? len)%nat eqn:E1; [destruct (0 <? room)%nat eqn:E2|]; simpl.
  - split; [|fold len; apply Nat.ltb_lt in E1; lia].
    rewrite <- str_drop_drop, str_app_assoc, str_take_drop. done.
  - apply Nat.ltb_ge in E2. assert (room = 0)%nat as -> by lia. by rewrite Nat.min_0_r.
  - apply Nat.ltb_ge in E1. rewrite str_drop_all by (fold len; lia). simpl. by rewrite str_take_drop.
Qed.

Lemma prefetched_reads_pending l s :
  (ps_pos s ≤ String.length (ps_prefetched s))%nat →
  (prefetched_reads l s).1 +:+ pending (prefetched_reads l s).2 = pending s.
Proof.
  revert s. induction l as [|[room n] l IH]; intros s Hpos; [done|]. cbn [prefetched_reads].
  destruct (prefetched_read_pending room n s Hpos) as [H1 H2].
  destruct (prefetched_read room n s) as [a s1]. simpl in H1, H2. specialize (IH s1 H2).
  destruct (prefetched_reads l s1) as [b s2]. simpl in *. by rewrite <- str_app_assoc, IH.
Qed.

(** ** Facts: lines *)

Lemma split_crlf_app l r : contains_char CR l = false → split_crlf (l +:+ CRLF +:+ r) = l :: split_crlf r.
Proof.
  induction l as [|a l IH]; intros Hc.
  - cbn. by rewrite decide_True by done.
  - cbn in Hc. apply orb_false_iff in Hc as [Ha%bool_decide_eq_false Hl]. specialize (IH Hl).
    cbn [String.append split_crlf]. destruct (l +:+ CRLF +:+ r) as [|b s] eqn:E.
    { by destruct l. }
    rewrite decide_False by tauto. by rewrite IH.
Qed.

Lemma header_line_text kv : header_line kv = (kv.1 +:+ ": " +:+ kv.2) +:+ CRLF.
Proof. unfold header_line. by rewrite !str_app_assoc. Qed.

(** ** Facts: the end of a head *)

Lemma strip_prefix_more p s r t : strip_prefix p s = Some r → strip_prefix p (s +:+ t) = Some (r +:+ t).
Proof. intros ->%strip_prefix_Some. apply strip_prefix_Some. by rewrite str_app_assoc. Qed.

Lemma strip_prefix_less p s r t :
  (String.length p ≤ String.length s)%nat → strip_prefix p (s +:+ t) = Some r → is_Some (strip_prefix p s).
Proof.
  revert s. induction p as [|a p IH]; intros [|b s]; cbn; intros Hl H; [eauto..|lia|].
  destruct (decide (a = b)); [|done]. apply IH; [lia|done].
Qed.

Lemma split_head_app buf h r : split_head buf = Some (h, r) → buf = h +:+ r ∧ (4 ≤ String.length h)%nat.
Proof.
  revert h r. induction buf as [|a buf IH]; intros h r; [done|]. unfold split_head; fold split_head.
  destruct (strip_prefix _ _) as [rest|] eqn:E.
  - intros [= <- <-]. apply strip_prefix_Some in E. split; [done|cbn; lia].
  - destruct (split_head buf) as [[h' r']|] eqn:E'; [|done]. simpl. intros [= <- <-].
    destruct (IH h' r' eq_refl) as [-> Hl]. split; [done|simpl; lia].
Qed.

(** More bytes do not move the end of a head; an end within the bytes is found. *)
Lemma split_head_more buf t h r : split_head buf = Some (h, r) → split_head (buf +:+ t) = Some (h, r +:+ t).
Proof.
  revert h r. induction buf as [|a buf IH]; intros h r; [done|].
  intros H. pose proof H as [Hb Hl]%split_head_app. revert H. cbn [String.append].
  unfold split_head; fold split_head. destruct (strip_prefix _ (String a buf)) as [rest|] eqn:E.
  - intros [= <- <-]. pose proof (strip_prefix_more _ _ _ t E) as E'. cbn [String.append] in E'. by rewrite E'.
  - destruct (split_head buf) as [[h' r']|] eqn:Es; [|done]. intros [= <- <-].
    destruct (strip_prefix _ (String a (buf +:+ t))) as [x|] eqn:Ex; cycle 1.
    { by rewrite (IH h' r' eq_refl). }
    pose proof (strip_prefix_less (CRLF +:+ CRLF) (String a buf) x t) as [y Hy]; [|done|congruence].
    apply split_head_app in Es as [-> Hl']. cbn. rewrite str_length_app. lia.
Qed.

Lemma split_head_within buf t h r :
  split_head (buf +:+ t) = Some (h, r) → (String.length h ≤ String.length buf)%nat → ∃ r', split_head buf = Some (h, r').
Proof.
  revert h r. induction buf as [|a buf IH]; intros h r H Hl.
  { apply split_head_app in H as [_ ?]. cbn in Hl. lia. }
  revert H. cbn [String.append]. unfold split_head; fold split_head.
  destruct (strip_prefix _ (String a (buf +:+ t))) as [x|] eqn:Ex.
  - intros [= <- <-]. destruct (strip_prefix_less (CRLF +:+ CRLF) (String a buf) x t) as [y Hy]; [exact Hl|done|].
    rewrite Hy. by eexists.
  - destruct (split_head (buf +:+ t)) as [[h' r']|] eqn:Es; [|done]. intros [= <- <-].
    destruct (IH h' r' eq_refl) as [r0 Hr0]; [cbn in Hl; lia|].
    destruct (strip_prefix _ (String a buf)) as [y|] eqn:Ey; cycle 1.
    { rewrite Hr0. by eexists. }
    apply (strip_prefix_more _ _ _ t) in Ey. cbn [String.append] in Ey. congruence.
Qed.

Definition concat_str (l : list string) : string := join "" l.

Lemma concat_str_cons w l : concat_str (w :: l) = w +:+ concat_str l.
Proof. unfold concat_str. destruct l; simpl; [by rewrite str_app_nil_r|done]. Qed.

(** What the loop read: chunks whose bytes are the head and what follows it. *)
Lemma read_head_loop_sound buf chunks head prefetched :
  read_head_loop buf chunks = Ok (head, prefetched) →
  ∃ l rest, chunks = ((Ok <$> l) ++ rest)%list ∧ split_head (buf +:+ concat_str l) = Some (head, prefetched) ∧
    (Z.of_nat (String.length (head +:+ prefetched)) ≤ MAX_HEAD)%Z.
Proof.
  revert buf. induction chunks as [|[chunk|e] chunks IH]; intros buf; [done| |done]. cbn [read_head_loop].
  destruct chunk as [|a c]; [done|]. set (chunk := String a c).
  destruct (MAX_HEAD <? _)%Z eqn:Em; [done|]. apply Z.ltb_ge in Em.
  destruct (split_head (buf +:+ chunk)) as [[h r]|] eqn:E.
  - intros [= <- <-]. exists [chunk], chunks. split; [done|]. split; [exact E|].
    by apply split_head_app in E as [<- _].
  - intros (l & rest & -> & Hs & Hl)%IH. exists (chunk :: l), rest. split; [done|].
    by rewrite concat_str_cons, str_app_assoc.
Qed.

Lemma read_head_loop_complete l : ∀ buf head tail,
  Forall (λ c, (1 ≤ String.length c ≤ 1024)%nat) l →
  split_head (buf +:+ concat_str l) = Some (head, tail) → split_head buf = None →
  (Z.of_nat (String.length head) + 1023 ≤ MAX_HEAD)%Z →
  ∃ prefetched, read_head_loop buf (Ok <$> l) = Ok (head, prefetched).
Proof.
  induction l as [|c l IH]; intros buf head tail Hf Hs Hn Hl.
  { unfold concat_str in Hs. cbn in Hs. rewrite str_app_nil_r in Hs. congruence. }
  apply Forall_cons in Hf as [[Hc1 Hc2] Hf]. rewrite concat_str_cons, str_app_assoc in Hs.
  assert (String.length buf < String.length head)%nat as Hlt.
  { apply Nat.nle_gt. intros Hle. rewrite <- str_app_assoc in Hs.
    destruct (split_head_within _ _ _ _ Hs Hle) as [r' Hr']. congruence. }
  rewrite fmap_cons. cbn [read_head_loop]. destruct c as [|a c]; [cbn in Hc1; lia|]. set (chunk := String a c) in *.
  assert (String.length (buf +:+ chunk) = String.length buf + String.length chunk)%nat as Hlen by apply str_length_app.
  rewrite (proj2 (Z.ltb_ge _ _)) by lia.
  destruct (split_head (buf +:+ chunk)) as [[h r]|] eqn:E.
  - apply (split_head_more _ (concat_str l)) in E. rewrite E in Hs. injection Hs as -> _. by eexists.
  - by apply (IH _ _ tail).
Qed.

(** ** Facts: the headers of an upgrade *)

Section Handshake.
Context {HC : HttpCrate} {AP : AuthorityParts}.

(** A header a peer reads as one: a lower-case name without a colon, and no carriage
    return. *)
Definition header_ok (kv : string * string) : Prop :=
  to_ascii_lowercase kv.1 = kv.1 ∧ contains_char ":"%char kv.1 = false ∧
  contains_char CR kv.1 = false ∧ contains_char CR kv.2 = false.

Definition line_of (kv : string * string) : string := kv.1 +:+ ": " +:+ kv.2.

Lemma split_lines hs tail :
  Forall (λ kv : string * string, contains_char CR kv.1 = false ∧ contains_char CR kv.2 = false) hs →
  split_crlf (join "" (header_line <$> hs) +:+ tail) = ((line_of <$> hs) ++ split_crlf tail)%list.
Proof.
  induction 1 as [|kv hs [H1 H2] _ IH]; [done|]. rewrite !fmap_cons.
  fold (concat_str (header_line kv :: (header_line <$> hs))). rewrite concat_str_cons, header_line_text.
  assert (contains_char CR (line_of kv) = false) as Hc by (unfold line_of; by rewrite !contains_char_app, H1, H2).
  fold (line_of kv). rewrite <- (str_app_assoc (line_of kv)), <- (str_app_assoc (line_of kv)), <- (str_app_assoc CRLF).
  rewrite split_crlf_app by done. unfold concat_str. by rewrite IH.
Qed.

Lemma handshake_headers_elem headers authority credentials k v :
  (k, v) ∈ handshake_headers headers authority credentials ↔
  ((k, v) ∈ hm_iter headers ∧ starts_with "x-firma-" k = false ∧ cred_headers credentials !! k = None) ∨
  (k = "Host" ∧ v = authority ∧ ¬ ∃ kv, kv ∈ hm_iter headers ∧ eq_ignore_ascii_case kv.1 "host" = true) ∨
  cred_headers credentials !! k = Some v.
Proof.
  unfold handshake_headers. rewrite !elem_of_app, elem_of_map_to_list, list_elem_of_filter.
  unfold forwarded_header. cbn [fst]. rewrite andb_true_iff, negb_true_iff, bool_decide_eq_true.
  assert ((k, v) ∈ (if existsb (λ kv, eq_ignore_ascii_case kv.1 "host") (hm_iter headers) then [] else [("Host", authority)]) ↔
          (k = "Host" ∧ v = authority ∧ ¬ ∃ kv, kv ∈ hm_iter headers ∧ eq_ignore_ascii_case kv.1 "host" = true)) as ->; [|tauto].
  destruct (existsb _ _) eqn:E.
  - apply existsb_exists in E as (kv & Hin%list_elem_of_In & Hkv). split; [by intros ?%elem_of_nil|]. intros (_ & _ & []). eauto.
  - rewrite list_elem_of_singleton. split; [|naive_solver]. intros [= -> ->]. split_and!; [done|done|].
    intros (kv & Hin & Hkv). apply not_true_iff_false in E. apply E, existsb_exists. exists kv. by rewrite <- list_elem_of_In.
Qed.

(** A name that was injected is sent once. *)
Lemma injected_once headers authority credentials k v :
  to_ascii_lowercase k = k → cred_headers credentials !! k = Some v →
  filter (λ kv, kv.1 = k) (handshake_headers headers authority credentials) = [(k, v)].
Proof.
  intros Hk Hc. unfold handshake_headers. rewrite !filter_app.
  assert (∀ l : list (string * string), (∀ kv, kv ∈ l → kv.1 ≠ k) → filter (λ kv, kv.1 = k) l = []) as Hnone.
  { intros l Hl. apply elem_of_nil_inv. intros kv [Hkv Hin]%list_elem_of_filter. by apply (Hl kv). }
  rewrite Hnone, Hnone; cycle 1.
  { destruct (existsb _ _); intros kv; [by intros ?%elem_of_nil|]. intros ->%list_elem_of_singleton. cbn. by intros <-. }
  { intros [k' v'] [Hf _]%list_elem_of_filter Hk'. cbn in Hk'. subst k'. unfold forwarded_header in Hf. cbn [fst] in Hf.
    rewrite Hc in Hf. by rewrite andb_false_r in Hf. }
  simpl. apply Permutation_singleton_r, NoDup_Permutation.
  - apply NoDup_filter, NoDup_map_to_list.
  - apply NoDup_singleton.
  - intros [k' v']. rewrite list_elem_of_filter, elem_of_map_to_list, list_elem_of_singleton. naive_solver.
Qed.

(** ** Properties *)

(** The upgrade request that goes upstream says what it was meant to say: cut
    at its line ends it is the request line, one line per header and the empty
    line, with no line the agent could add; the headers are the agent's without
    the sidecar's own and without those that credentials replace, a host if the
    agent named none, and each injected credential exactly once. *)
Theorem handshake_exact headers authority path_and_query credentials :
  contains_char CR path_and_query = false → contains_char CR authority = false →
  Forall header_ok (hm_iter headers) → Forall header_ok (map_to_list (cred_headers credentials)) →
  let hs := handshake_headers headers authority credentials in
  split_crlf (build_upstream_handshake_request headers authority path_and_query credentials)
    = ("GET " +:+ path_and_query +:+ " HTTP/1.1") :: ((line_of <$> hs) ++ [""; ""])%list ∧
  Forall (λ kv, split_once ":"%char (line_of kv) = Some (kv.1, " " +:+ kv.2)) hs ∧
  (∀ k v, (k, v) ∈ hs → starts_with "x-firma-" k = true → cred_headers credentials !! k = Some v) ∧
  (∀ k v, cred_headers credentials !! k = Some v → filter (λ kv, kv.1 = k) hs = [(k, v)]).
Proof.
  intros Hp Ha Hh Hcr hs.
  assert (Forall (λ kv : string * string, contains_char ":"%char kv.1 = false ∧
            contains_char CR kv.1 = false ∧ contains_char CR kv.2 = false) hs) as Hok.
  { apply Forall_forall. intros [k v] [(Hin & _)|[(-> & -> & _)|Hin]]%handshake_headers_elem.
    - rewrite Forall_forall in Hh. destruct (Hh _ Hin) as (_ & ? & ? & ?). done.
    - done.
    - rewrite Forall_forall in Hcr. apply elem_of_map_to_list in Hin. by destruct (Hcr _ Hin) as (_ & ? & ? & ?). }
  split_and!.
  - unfold build_upstream_handshake_request. fold hs.
    replace ("GET " +:+ path_and_query +:+ " HTTP/1.1" +:+ CRLF +:+ join "" (header_line <$> hs) +:+ CRLF)
      with (("GET " +:+ path_and_query +:+ " HTTP/1.1") +:+ CRLF +:+ (join "" (header_line <$> hs) +:+ CRLF))
      by (by rewrite <- !str_app_assoc).
    rewrite split_crlf_app by (by rewrite !contains_char_app, Hp). f_equal.
    rewrite split_lines; [done|]. eapply Forall_impl; [exact Hok|]. naive_solver.
  - eapply Forall_impl; [exact Hok|]. intros [k v] (Hk & _). unfold line_of. by apply split_once_app.
  - intros k v [(_ & Hx & _)|[(-> & _)|Hin]]%handshake_headers_elem ?; [congruence|done|done].
  - intros k v Hin. apply injected_once; [|done]. rewrite Forall_forall in Hcr.
    apply (Hcr (k, v)). by apply elem_of_map_to_list.
Qed.

(** The bytes of a tunnel reach their reader unchanged.  What was read to look for TLS
    is a bounded beginning of what the agent sent; the TLS acceptor then reads,
    in reads of any sizes, exactly the rest of it after leading line ends. *)
Lemma tunnel_bytes_exact input preface rest reads :
  read_connect_preface input = Some (preface, rest) →
  let start := first_non_crlf_index preface in
  let '(out, s) := prefetched_reads reads (prefetched_new rest (str_drop start preface)) in
  input = preface +:+ rest ∧ (String.length preface ≤ CONNECT_PREFACE_MAX_BYTES)%nat ∧
  str_forallb is_crlf (str_take start input) = true ∧ out +:+ pending s = str_drop start input.
Proof.
  intros [-> Hl]%read_connect_preface_spec. cbn zeta. set (start := first_non_crlf_index preface).
  pose proof (first_non_crlf_le preface) as Hs. fold start in Hs.
  pose proof (prefetched_reads_pending reads (prefetched_new rest (str_drop start preface)) (Nat.le_0_l _)) as H.
  destruct (prefetched_reads reads _) as [out s]. simpl in H. split_and!; [done|done| |].
  - rewrite <- (first_non_crlf_only preface). fold start. f_equal. clear -Hs. revert Hs. generalize start.
    induction preface as [|a p IH]; intros [|n] Hs; cbn in *; try done; [lia|]. by rewrite IH by lia.
  - rewrite H. unfold pending, prefetched_new. cbn [ps_pos ps_prefetched ps_inner str_drop].
    rewrite str_drop_prefix by done. f_equal. apply str_take_all. rewrite str_drop_length. lia.
Qed.

(** The head of the upstream's answer does not depend on how it arrives: what is
    read is the answer up to its first empty line, at most 64 KiB with what came
    along, and nothing of the answer is lost; whatever the chunks, an answer whose
    head leaves room for one more read is accepted. *)
Lemma response_head_exact answer (l : list string) :
  concat_str l = answer → Forall (λ c, (1 ≤ String.length c ≤ 1024)%nat) l →
  (∀ head prefetched, read_head_loop "" (Ok <$> l) = Ok (head, prefetched) →
     ∃ unread, split_head answer = Some (head, prefetched +:+ unread) ∧ answer = head +:+ prefetched +:+ unread ∧
       (Z.of_nat (String.length (head +:+ prefetched)) ≤ MAX_HEAD)%Z) ∧
  (∀ head tail, split_head answer = Some (head, tail) → (Z.of_nat (String.length head) + 1023 ≤ MAX_HEAD)%Z →
     ∃ prefetched, read_head_loop "" (Ok <$> l) = Ok (head, prefetched)).
Proof.
  intros <- Hf. split.
  - intros head prefetched (l1 & rest & Hl & Hs & Hle)%read_head_loop_sound.
    assert (∃ l2, l = (l1 ++ l2)%list) as [l2 ->].
    { clear -Hl. revert l Hl. induction l1 as [|c l1 IH]; intros l Hl; [by exists l|].
      destruct l as [|c' l]; [done|]. rewrite !fmap_cons in Hl. simplify_list_eq.
      destruct (IH l) as [l2 ->]; [done|]. by exists l2. }
    assert (concat_str (l1 ++ l2) = concat_str l1 +:+ concat_str l2) as ->.
    { clear. induction l1 as [|c l1 IH]; [done|]. cbn [app]. by rewrite !concat_str_cons, IH, str_app_assoc. }
    cbn [String.append] in Hs. exists (concat_str l2). pose proof Hs as [Heq _]%split_head_app.
    split_and!; [by apply split_head_more|by rewrite Heq, str_app_assoc|done].
  - intros head tail Hs Hle. by apply (read_head_loop_complete l "" head tail).
Qed.

End Handshake.

(** ** Samples *)

Module Samples.

#[local] Existing Instance InterceptHosts.Samples.grammar_http.
#[local] Existing Instance InterceptHosts.Samples.grammar_parts.

Definition token (value : string) : InjectedCredentials := {| cred_headers := {[ "authorization" := value ]} |}.

Definition agent_headers : HeaderMap :=
  [("host", "api.example.com"); ("upgrade", "websocket"); ("authorization", "Bearer placeholder");
   ("x-firma-session-id", "s1")].

Lemma handshake_exact_witness :
  split_crlf (build_upstream_handshake_request agent_headers "api.example.com:443" "/ws" (token "Bearer secret"))
    = ["GET /ws HTTP/1.1"; "host: api.example.com"; "upgrade: websocket"; "authorization: Bearer secret"; ""; ""] ∧
  filter (λ kv, kv.1 = "authorization") (handshake_headers agent_headers "api.example.com:443" (token "Bearer secret"))
    = [("authorization", "Bearer secret")].
Proof.
  destruct (handshake_exact agent_headers "api.example.com:443" "/ws" (token "Bearer secret")) as (H1 & _ & _ & H2).
  - vm_compute. reflexivity.
  - vm_compute. reflexivity.
  - repeat constructor; vm_compute; reflexivity.
  - vm_compute map_to_list. repeat constructor; vm_compute; reflexivity.
  - split; [rewrite H1; vm_compute; reflexivity|]. apply H2. vm_compute. reflexivity.
Defined.

Definition answer_chunks : list string :=
  ["HTTP/1.1 101 Switching" +:+ CRLF +:+ "Upgrade: web"; "socket" +:+ CRLF +:+ String CR ""; String LF "frame"; "more"].

Lemma response_head_exact_witness :
  read_http_response_head (Ok <$> answer_chunks) = Ok (101%Z, [("Upgrade", "websocket")], "frame") ∧
  ∃ prefetched, read_head_loop "" (Ok <$> answer_chunks)
    = Ok ("HTTP/1.1 101 Switching" +:+ CRLF +:+ "Upgrade: websocket" +:+ CRLF +:+ CRLF, prefetched).
Proof.
  split; [vm_compute; reflexivity|].
  apply (response_head_exact (concat_str answer_chunks) answer_chunks eq_refl) with (tail := "framemore").
  - repeat constructor; vm_compute; lia.
  - vm_compute. reflexivity.
  - vm_compute. discriminate.
Defined.

(** Line ends before the TLS record are dropped; another protocol is kept whole. *)
Example preface_examples :
  (read_connect_preface (CRLF +:+ String "022"%char (String "003"%char (String "001"%char (String "000"%char (String "005"%char "hello"))))),
   read_connect_preface "SSH-2.0-x")
  = (Some (CRLF +:+ String "022"%char (String "003"%char (String "001"%char (String "000"%char (String "005"%char "")))), "hello"),
     Some ("S", "SH-2.0-x")).
Proof. vm_compute. reflexivity. Qed.

(** Only the first [Host] header of a decrypted request is held to the tunnel's
    target; an upgrade forwards them all. *)
Lemma second_host_forwarded :
  let headers := [("host", "api.example.com"); ("host", "internal.example.com"); ("upgrade", "websocket")] in
  let req := {| hr_method := "GET"; hr_uri := hr_uri (InterceptHosts.Samples.inner ""); hr_headers := headers |} in
  is_ok (build_raw_https_request_head req InterceptHosts.Samples.api_target) = true ∧
  ("host", "internal.example.com") ∈ handshake_headers headers "api.example.com:443" credentials_empty.
Proof. split; [vm_compute; reflexivity|]. apply handshake_headers_elem. left. split; [set_solver|done]. Qed.

(** A credential with a line end in it adds a header line of its own. *)
Lemma credential_adds_line :
  "x-role: admin" ∈ split_crlf (build_upstream_handshake_request agent_headers "api.example.com:443" "/ws"
                                  (token ("k1" +:+ CRLF +:+ "x-role: admin"))).
Proof. vm_compute. set_solver. Qed.

End Samples.
