(* ===== verification/InterceptHttp.v ===== *)
(** * The HTTP interceptor ([interceptor/http.rs])

    What the proxy does with a request of the agent: a plain request is read and
    handled; a CONNECT is decided, and its connection becomes a blind tunnel or
    a TLS server whose decrypted requests are handled one by one, upgrades to
    WebSocket included.  The handler is an interface here, with what it promises;
    the instance is the request handler of [Handler].  A run of the interceptor
    is a list of events: calls of the handler with their answers, the handler's
    effects, and what the interceptor itself does upstream. *)

From S2P Require Import Prelude RustStr ActionClasses Core Mapping Redaction MappingTable Decision Json.
From S2P Require Import Normalizer Lru Revocation CapabilityMap CapabilityValidation Session.
From S2P Require Import Cedar Constraint Runtime AuditRecord Pipeline Composio.
From S2P Require Import SecretRewrite SecretStore BodyEncoding SecretProvider Handler.
From S2P Require Import InterceptBody InterceptHosts InterceptFraming.

#[local] Open Scope string_scope.

Definition FIRMA_SESSION_ID_HEADER_NAME : string := "x-firma-session-id".

Section Types.
Context {HC : HttpCrate}.

(** [RequestHandler] as the interceptor sees it; the state is the handler's and of
    all it shares with other connections. *)
Class Guard (H : Type) := {
  gd_handle : H → RawRequest → string → option HandledResponse * list Effect * H;
  gd_handle_connect : H → RawRequest → string → ConnectDecision * list Effect * H;
  gd_authorize_upgrade : H → RawRequest → string → UpgradeAuthorization * list Effect * H;
}.

(** What the handler promises: every answer comes with its audit payload, except the
    permission to upgrade, whose payload is handed over. *)
Class GuardLaws {H : Type} (G : Guard H) := {
  gd_handle_audited h raw s r effects h' :
    gd_handle h raw s = (Some r, effects, h') → ∃ a, EAudit a ∈ effects;
  gd_connect_audited h raw s d effects h' :
    gd_handle_connect h raw s = (d, effects, h') → ∃ a, effects = [EAudit a];
  gd_upgrade_audited h raw s u effects h' :
    gd_authorize_upgrade h raw s = (u, effects, h') →
    match u with UpgradeAllow _ _ => effects = [] | _ => ∃ a, effects = [EAudit a] end;
}.

(** ** Responses and events *)

Inductive HttpReply :=
| RDispatched (d : DispatchedResponse)
| RDenied (status : Z) (reason : DenyReason) (detail : string)
| RAborted (status : Z) (reason : AbortReason) (detail : string)
| RText (status : Z) (detail : string)
| REstablished
| RSwitching (headers : list (string * string)).

Inductive NetEvent :=
| NHandle (raw : RawRequest) (session : string)
| NConnect (raw : RawRequest) (session : string) (d : ConnectDecision)
| NUpgrade (raw : RawRequest) (session : string) (u : UpgradeAuthorization)
| NEffect (e : Effect)
| NDial (target : string)
| NSend (data : string)
| NTunnel.

(** [dispatched_response], and the JSON bodies of refusals. *)
Definition respond (r : HandledResponse) : HttpReply :=
  match r with
  | HOk d | HPassthrough d => RDispatched d
  | HDeny reason detail _ => RDenied 403 reason detail
  | HAborted reason detail => RAborted 504 reason detail
  end.

(** [HeaderValue::from_str]. *)
Class HeaderValueParse := header_value_from_str : string → option string.

(** ** What an await answers *)

Inductive Awaited := Elapsed | Failed (e : string) | Completed.

Definition awaited (timeout : string) (failed : string → string) (a : Awaited) : Result unit string :=
  match a with Elapsed => Err timeout | Failed e => Err (failed e) | Completed => Ok tt end.

Record ConnectRelayLimits := { rl_setup_timeout : Z; rl_session_max : Z }.

(** The body of a request: the upper bound of its size hint and its frames. *)
Record BodyInput := { bi_upper : option Z; bi_frames : list (BodyBudget * Result Frame string) }.

(** What an upgrade meets: the upstream's TCP and TLS connect, the write of the
    request, the reads of the answer, then the agent's side and the run. *)
Record UpstreamInput := {
  ui_connect : Result unit string;
  ui_write : Result unit string;
  ui_chunks : list (Result string string);
  ui_downstream : Result unit string;
  ui_prefetch_write : Result unit string;
  ui_run_rejected : bool;
}.

(** A decrypted request. *)
Record InnerInput := { ii_request : Request; ii_body : BodyInput; ii_upstream : UpstreamInput }.

(** What a relay meets; [rx_rejected] is when the run is rejected: before the relay is
    polled, or while its [n]-th await is pending. *)
Record RelayInput := {
  rx_upgrade : Awaited;
  rx_dial : Awaited;
  rx_prefetch_write : Awaited;
  rx_copy : Awaited;
  rx_downstream : string;
  rx_downstream_end : Awaited;
  rx_tls : Awaited;
  rx_requests : list InnerInput;
  rx_serve : Awaited;
  rx_rejected : option nat;
}.

End Types.

Arguments Guard {_} H.
Arguments HttpReply {_}.
Arguments NetEvent {_}.

Section Interceptor.
Context {HC : HttpCrate} {AP : AuthorityParts} {HV : HeaderValueParse} {H : Type} {G : Guard H}.

(** ** Refusals before the pipeline *)

(** [resource_label_from_host], [header_session_id]. *)
Definition resource_label_from_host (host : string) : string := if is_empty host then "?" else host +:+ "/".

Definition header_session_id (req : Request) : string :=
  default "" (header_get FIRMA_SESSION_ID_HEADER_NAME (hr_headers req) ≫= to_str).

(** [HeaderMap::get_firma_session_id]. *)
Definition get_firma_session_id (headers : HeaderMap) : Result (option string) string :=
  header_str FIRMA_SESSION_ID_HEADER_NAME headers.

(** [deny_malformed], [deny_malformed_connect]. *)
Definition deny_malformed (session action host detail : string) : HttpReply * list NetEvent :=
  (RText 403 detail,
   [NEffect (emit_synthetic_deny session action (resource_label_from_host host) MalformedRequest detail)]).

Definition deny_malformed_connect (req : Request) (detail : string) : HttpReply * list NetEvent :=
  deny_malformed (header_session_id req) "network.connect"
    (default "" (result_ok (host_with_default_port req true))) detail.

Definition raw_with_body (raw : RawRequest) (body : option string) : RawRequest :=
  {| rq_method := rq_method raw; rq_host := rq_host raw; rq_path := rq_path raw; rq_headers := rq_headers raw;
     rq_body := body; rq_is_https := rq_is_https raw |}.

(** [build_raw_request], [build_raw_https_request]. *)
Definition build_raw_request (req : Request) (max : Z) (b : BodyInput) : Result RawRequest string :=
  let? raw := build_raw_request_head req false in
  let? body := read_body_with_limit max (bi_upper b) (bi_frames b) in
  Ok (raw_with_body raw body).

Definition build_raw_https_request (req : Request) (target : ConnectTargetInfo) (max : Z) (b : BodyInput)
    : Result RawRequest string :=
  let? raw := build_raw_https_request_head req target in
  let? body := read_body_with_limit max (bi_upper b) (bi_frames b) in
  Ok (raw_with_body raw body).

(** [handler.handle] and the response made of its answer. *)
Definition handle_raw (h : H) (raw : RawRequest) (session : string) : option HttpReply * list NetEvent * H :=
  let '(r, effects, h) := gd_handle h raw session in
  (respond <$> r, NHandle raw session :: (NEffect <$> effects), h).

(** [handle_request] for a method other than CONNECT. *)
Definition handle_plain_request (h : H) (req : Request) (max : Z) (b : BodyInput)
    : option HttpReply * list NetEvent * H :=
  let hint := header_session_id req in
  let deny host detail :=
    let '(r, ev) := deny_malformed hint "raw.http" host detail in (Some r, ev, h) in
  match host_with_default_port req false with
  | Err detail => deny "" detail
  | Ok host =>
      match build_raw_request req max b with
      | Err detail => deny host detail
      | Ok raw =>
          match get_firma_session_id (rq_headers raw) with
          | Err detail => deny host detail
          | Ok session => handle_raw h raw (default "" session)
          end
      end
  end.

(** ** Upgrades inside a tunnel *)

(** The session of a decrypted request: its own header, or the CONNECT's when it has
    none or a blank one. *)
Definition inner_session (connect_session : string) (session : option string) : string :=
  match session with
  | Some s => if is_empty (trim s) then connect_session else s
  | None => connect_session
  end.

(** [build_websocket_switching_response]: the headers it keeps. *)
Definition switching_headers (headers : list (string * string)) : list (string * string) :=
  omap (λ kv, match header_name_from_bytes kv.1, header_value_from_str kv.2 with
              | Ok n, Some v => Some (n, v)
              | _, _ => None
              end) headers.

(** The relay of an accepted upgrade, once the agent's side switched. *)
Definition websocket_relay (u : UpstreamInput) (prefetched : string) : list NetEvent :=
  match ui_downstream u with
  | Err _ => []
  | Ok _ =>
      if negb (is_empty prefetched) && negb (is_ok (ui_prefetch_write u)) then []
      else if ui_run_rejected u then [] else [NTunnel]
  end.

(** [handle_mitm_websocket_upgrade_request] after the authorization. *)
Definition relay_upgrade (req : Request) (target : ConnectTargetInfo) (credentials : InjectedCredentials)
    (payload : AuditPayload) (u : UpstreamInput) : HttpReply * list NetEvent :=
  let path_and_query := default "/" (uri_path_and_query (hr_uri req)) in
  let request := build_upstream_handshake_request (hr_headers req) (ct_authority target) path_and_query credentials in
  let failed detail :=
    (RAborted 504 ConnectorFailure detail, [NEffect (emit_upgrade_abort_audit payload ConnectorFailure detail)]) in
  let '(r, ev) :=
    match ui_connect u with
    | Err detail => failed ("upstream websocket connect failed: " +:+ detail)
    | Ok _ =>
        let '(r, ev) :=
          match ui_write u with
          | Err e => failed ("upstream websocket handshake write failed: " +:+ e)
          | Ok _ =>
              match read_http_response_head (ui_chunks u) with
              | Err detail => failed ("upstream websocket handshake read failed: " +:+ detail)
              | Ok (status, headers, prefetched) =>
                  let audit := NEffect (emit_upgrade_audit payload status (Z.of_nat (String.length prefetched))) in
                  if negb (status =? 101)%Z then
                    (RDenied 502 ConnectorNetworkError
                       ("upstream websocket upgrade rejected with status " +:+ display_uint status), [audit])
                  else (RSwitching (switching_headers headers), audit :: websocket_relay u prefetched)
              end
          end in
        (r, NSend request :: ev)
    end in
  (r, NDial (ct_authority target) :: ev).

(** [handle_mitm_websocket_upgrade_request]. *)
Definition handle_mitm_websocket_upgrade_request (h : H) (req : Request) (target : ConnectTargetInfo)
    (connect_session : string) (u : UpstreamInput) : HttpReply * list NetEvent * H :=
  let deny detail :=
    let '(r, ev) := deny_malformed connect_session "raw.http" (ct_host target) detail in (r, ev, h) in
  match build_raw_https_request_head req target with
  | Err detail => deny detail
  | Ok raw =>
      match get_firma_session_id (rq_headers raw) with
      | Err detail => deny detail
      | Ok session =>
          let session := inner_session connect_session session in
          let '(auth, effects, h) := gd_authorize_upgrade h raw session in
          let call := NUpgrade raw session auth :: (NEffect <$> effects) in
          match auth with
          | UpgradeAllow credentials payload =>
              let '(r, ev) := relay_upgrade req target credentials payload u in (r, call ++ ev, h)
          | UpgradeDeny reason detail => (RDenied 403 reason detail, call, h)
          | UpgradeAbort reason detail => (RAborted 504 reason detail, call, h)
          end%list
      end
  end.

Definition NESTED_CONNECT : string := "MALFORMED_REQUEST: nested CONNECT is not supported".

(** [handle_mitm_https_request]. *)
Definition handle_mitm_https_request (h : H) (i : InnerInput) (target : ConnectTargetInfo)
    (connect_session : string) (max : Z) : option HttpReply * list NetEvent * H :=
  let req := ii_request i in
  let deny detail :=
    let '(r, ev) := deny_malformed connect_session "raw.http" (ct_host target) detail in (Some r, ev, h) in
  if decide (hr_method req = "CONNECT") then
    (Some (RText 400 NESTED_CONNECT),
     [NEffect (emit_synthetic_deny connect_session "network.connect" (resource_label_from_host (ct_host target))
                 MalformedRequest NESTED_CONNECT)], h)
  else if is_websocket_upgrade_request req then
    let '(r, ev, h) := handle_mitm_websocket_upgrade_request h req target connect_session (ii_upstream i) in
    (Some r, ev, h)
  else
    match build_raw_https_request req target max (ii_body i) with
    | Err detail => deny detail
    | Ok raw =>
        match get_firma_session_id (rq_headers raw) with
        | Err detail => deny detail
        | Ok session => handle_raw h raw (inner_session connect_session session)
        end
    end.

(** The connection serves one request after another; an upgrade takes it over. *)
Fixpoint serve_inner (h : H) (l : list InnerInput) (target : ConnectTargetInfo) (connect_session : string) (max : Z)
    : list NetEvent * H :=
  match l with
  | [] => ([], h)
  | i :: l =>
      let '(r, ev, h) := handle_mitm_https_request h i target connect_session max in
      match r with
      | None | Some (RSwitching _) => (ev, h)
      | Some _ => let '(ev', h) := serve_inner h l target connect_session max in ((ev ++ ev')%list, h)
      end
  end.

(** ** Relays *)

Definition RUN_REJECTED_RELAY : string := "run rejected by the Authority; relay closed".

(** A relay is a sequence of awaits: the events that start one, and its outcome. *)
Definition Stage : Type := list NetEvent * Result unit string.

Fixpoint run_stages (l : list Stage) : list NetEvent * Result unit string :=
  match l with
  | [] => ([], Ok tt)
  | (ev, Err e) :: _ => (ev, Err e)
  | (ev, Ok _) :: l => let '(ev', r) := run_stages l in ((ev ++ ev')%list, r)
  end.

(** [unless_run_rejected]: nothing starts after an earlier rejection, and a rejection
    while an await is pending ends the relay there. *)
Definition unless_run_rejected (rejected : option nat) (relay : list Stage) : list NetEvent * Result unit string :=
  match rejected with
  | None => run_stages relay
  | Some O => ([], Err RUN_REJECTED_RELAY)
  | Some (S n) =>
      match relay !! n with
      | None => run_stages relay
      | Some (ev, _) =>
          match run_stages (take n relay) with
          | (ev', Ok _) => ((ev' ++ ev)%list, Err RUN_REJECTED_RELAY)
          | failed => failed
          end
      end
  end.

Definition upgrade_outcome (limits : ConnectRelayLimits) (x : RelayInput) : Result unit string :=
  awaited ("upgrade timed out after " +:+ duration_debug (rl_setup_timeout limits))
    (λ e, "upgrade failed: " +:+ e) (rx_upgrade x).

Definition dial_stage (limits : ConnectRelayLimits) (target : string) (x : RelayInput) : Stage :=
  ([NDial target],
   awaited ("upstream connect timed out after " +:+ duration_debug (rl_setup_timeout limits) +:+ " for " +:+ target)
     (λ e, "upstream connect failed for " +:+ target +:+ ": " +:+ e) (rx_dial x)).

Definition copy_stage (limits : ConnectRelayLimits) (x : RelayInput) : Stage :=
  ([NTunnel],
   awaited ("CONNECT tunnel exceeded " +:+ duration_debug (rl_session_max limits) +:+ " session cap")
     (λ e, "tunnel relay failed: " +:+ e) (rx_copy x)).

(** [relay_connect_tunnel]. *)
Definition relay_connect_tunnel (target : string) (limits : ConnectRelayLimits) (x : RelayInput)
    : list NetEvent * Result unit string :=
  unless_run_rejected (rx_rejected x)
    [([], upgrade_outcome limits x); dial_stage limits target x; copy_stage limits x].

(** [relay_connect_tunnel_from_stream_with_prefetch]. *)
Definition relay_connect_tunnel_from_stream_with_prefetch (target : Authority) (limits : ConnectRelayLimits)
    (prefetched : string) (x : RelayInput) : list NetEvent * Result unit string :=
  let write :=
    if is_empty prefetched then []
    else [([NSend prefetched],
           awaited ("upstream prefetch write timed out after " +:+ duration_debug (rl_setup_timeout limits) +:+
                    " for " +:+ target)
             (λ e, "upstream prefetch write failed for " +:+ target +:+ ": " +:+ e) (rx_prefetch_write x))] in
  unless_run_rejected (rx_rejected x) (dial_stage limits target x :: write ++ [copy_stage limits x])%list.

(** A byte as two hexadecimal digits. *)
Definition hex2 (b : Z) : string := String (hex_digit (b / 16)) (String (hex_digit (b mod 16)) "").

(** [deny_non_tls_strict_tunnel]. *)
Definition deny_non_tls_strict_tunnel (session : string) (target : ConnectTargetInfo) (first_non_crlf : Z) : NetEvent :=
  NEffect (emit_synthetic_deny session "network.connect" (resource_label_from_host (ct_host target)) FailClosed
    ("strict MITM requires TLS tunneled traffic; received non-TLS CONNECT preface (first_non_crlf=0x" +:+
     hex2 first_non_crlf +:+ ") for " +:+ ct_host target +:+
     ". Add the host to interceptor.https_mitm.bypass_hosts to tunnel it uninspected")).

(** [relay_connect_mitm] once the preface was read. *)
Definition relay_mitm_preface (h : H) (target : ConnectTargetInfo) (session : string) (max : Z)
    (limits : ConnectRelayLimits) (strict : bool) (preface : string) (x : RelayInput)
    : list NetEvent * Result unit string * H :=
  let tls_start := first_non_crlf_index preface in
  let first_non_crlf := match str_drop tls_start preface with String b _ => byte b | "" => 0%Z end in
  if negb (is_likely_tls_record_header preface tls_start) then
    if strict then ([deny_non_tls_strict_tunnel session target first_non_crlf], Ok tt, h)
    else
      let '(ev, r) := relay_connect_tunnel_from_stream_with_prefetch (ct_authority target) limits preface x in
      (ev, r, h)
  else
    match awaited ("downstream TLS handshake timed out after " +:+ duration_debug (rl_setup_timeout limits) +:+
                   " for " +:+ ct_host target)
            (λ e, "downstream TLS handshake failed for " +:+ ct_host target +:+ ": " +:+ e) (rx_tls x) with
    | Err e => ([], Err e, h)
    | Ok _ =>
        let '(ev, h) := serve_inner h (rx_requests x) target session max in
        (ev, awaited ("HTTPS MITM relay exceeded " +:+ duration_debug (rl_session_max limits) +:+
                      " session cap for " +:+ ct_host target)
               (λ e, "HTTPS MITM connection failed: " +:+ e) (rx_serve x), h)
    end.

(** [relay_connect_mitm]. *)
Definition relay_connect_mitm (h : H) (target : ConnectTargetInfo) (session : string) (max : Z)
    (limits : ConnectRelayLimits) (strict : bool) (x : RelayInput) : list NetEvent * Result unit string * H :=
  match upgrade_outcome limits x with
  | Err e => ([], Err e, h)
  | Ok _ =>
      match read_connect_preface (rx_downstream x) with
      | Some (preface, _) => relay_mitm_preface h target session max limits strict preface x
      | None =>
          let timeout := "downstream preface read timed out after " +:+ duration_debug (rl_setup_timeout limits) +:+
                         " for " +:+ ct_host target in
          ([], Err (match rx_downstream_end x with
                    | Failed e => "downstream preface read failed for " +:+ ct_host target +:+ ": " +:+ e
                    | _ => timeout
                    end), h)
      end
  end.

(** ** CONNECT *)

(** What [spawn_connect_relay] starts. *)
Inductive Relay :=
| BlindRelay (target : string)
| MitmRelay (strict : bool)
| DroppedRelay.

Definition spawn_connect_relay (target : string) (mitm prepared strict : bool) : Relay :=
  match mitm, prepared with
  | false, _ => BlindRelay target
  | true, true => MitmRelay strict
  | true, false => DroppedRelay
  end.

(** The task of a relay: a failure is audited. *)
Definition run_relay (h : H) (relay : Relay) (target : ConnectTargetInfo) (session : string) (max : Z)
    (limits : ConnectRelayLimits) (x : RelayInput) : list NetEvent * H :=
  let audited ev r :=
    match r with
    | Ok _ => ev
    | Err e => (ev ++ [NEffect (emit_connect_relay_failure_audit session (ct_host target) e)])%list
    end in
  match relay with
  | BlindRelay dialed => let '(ev, r) := relay_connect_tunnel dialed limits x in (audited ev r, h)
  | MitmRelay strict =>
      let '(ev, r, h) := relay_connect_mitm h target session max limits strict x in (audited ev r, h)
  | DroppedRelay => ([], h)
  end.

(** [preflight_mitm_acceptor]: whether an acceptor is prepared and whether the tunnel
    is decrypted, or the refusal; [acceptor] is what preparing one answers. *)
Definition preflight_mitm_acceptor (session : string) (target : ConnectTargetInfo) (candidate strict : bool)
    (acceptor : string → Result unit string) : Result (bool * bool) (HttpReply * list NetEvent) :=
  if candidate then
    match acceptor (ct_host target) with
    | Ok _ => Ok (true, true)
    | Err e =>
        if strict then
          let detail := "HTTPS_MITM_SETUP_FAILED: " +:+ e in
          Err (RDenied 403 FailClosed detail,
               [NEffect (emit_synthetic_deny session "network.connect" (resource_label_from_host (ct_host target))
                           FailClosed detail)])
        else Ok (false, false)
    end
  else Ok (false, false).

(** The response of a CONNECT, and the relay started with it; [Err] when the service
    fails and the connection is closed without a response. *)
Record ConnectOutcome := {
  co_response : Result HttpReply string;
  co_relay : option (Relay * ConnectTargetInfo * string);
}.

Definition refused (r : HttpReply) : ConnectOutcome := {| co_response := Ok r; co_relay := None |}.

(** [handle_connect_request]. *)
Definition handle_connect_request (h : H) (req : Request) (runtime : option HttpsMitmRuntime)
    (acceptor : string → Result unit string) : ConnectOutcome * list NetEvent * H :=
  let deny detail := let '(r, ev) := deny_malformed_connect req detail in (refused r, ev, h) in
  match build_raw_request_head req true with
  | Err detail => deny detail
  | Ok raw =>
      match get_firma_session_id (rq_headers raw) with
      | Err detail => deny detail
      | Ok session =>
          let session := default "" session in
          match (let? a := host_with_default_port req true in connect_target_info a) with
          | Err e => ({| co_response := Err e; co_relay := None |}, [], h)
          | Ok target =>
              let candidate := match runtime with Some r => should_intercept_host r (ct_host target) | None => false end in
              let strict := candidate && match runtime with Some r => is_strict_host r (ct_host target) | None => false end in
              match preflight_mitm_acceptor session target candidate strict acceptor with
              | Err (r, ev) => (refused r, ev, h)
              | Ok (prepared, mitm) =>
                  let '(decision, call, h) :=
                    if mitm && strict then (ConnectAllow, [], h)
                    else
                      let '(d, effects, h) := gd_handle_connect h raw session in
                      (d, NConnect raw session d :: (NEffect <$> effects), h) in
                  match decision with
                  | ConnectDeny reason detail => (refused (RDenied 403 reason detail), call, h)
                  | ConnectAbort reason detail => (refused (RAborted 504 reason detail), call, h)
                  | ConnectAllow =>
                      ({| co_response := Ok REstablished;
                          co_relay := Some (spawn_connect_relay (connect_target (ct_authority target)) mitm prepared strict,
                                            target, session) |}, call, h)
                  end
              end
          end
      end
  end.

(** A CONNECT and the relay it starts. *)
Definition serve_connect (h : H) (req : Request) (runtime : option HttpsMitmRuntime)
    (acceptor : string → Result unit string) (max : Z) (limits : ConnectRelayLimits) (x : RelayInput)
    : ConnectOutcome * list NetEvent * H :=
  let '(out, ev, h) := handle_connect_request h req runtime acceptor in
  match co_relay out with
  | Some (relay, target, session) =>
      let '(ev', h) := run_relay h relay target session max limits x in (out, (ev ++ ev')%list, h)
  | None => (out, ev, h)
  end.

(** [handle_request]: the outcome of a request, CONNECT or not. *)
Definition handle_request (h : H) (req : Request) (runtime : option HttpsMitmRuntime)
    (acceptor : string → Result unit string) (max : Z) (limits : ConnectRelayLimits) (b : BodyInput) (x : RelayInput)
    : option (Result HttpReply string) * list NetEvent * H :=
  if decide (hr_method req = "CONNECT") then
    let '(out, ev, h) := serve_connect h req runtime acceptor max limits x in (Some (co_response out), ev, h)
  else
    let '(r, ev, h) := handle_plain_request h req max b in (Ok <$> r, ev, h).

End Interceptor.

(** ** Facts: mediation *)

Section Mediation.
Context {HC : HttpCrate} {AP : AuthorityParts} {AL : AuthorityLaws AP} {HV : HeaderValueParse}
  {H : Type} {G : Guard H}.

(** What the interceptor itself does upstream. *)
Definition outward (e : NetEvent) : bool :=
  match e with NDial _ | NSend _ | NTunnel => true | _ => false end.

Definition dials (to : string) (e : NetEvent) : Prop := match e with NDial t => t = to | _ => True end.

(** Each outward event comes after one that grants it, and dials one address; [g] says
    whether a grant was seen before. *)
Fixpoint mediated (grants : NetEvent → Prop) (to : string) (g : Prop) (l : list NetEvent) : Prop :=
  match l with
  | [] => True
  | e :: l => (outward e = true → g ∧ dials to e) ∧ mediated grants to (g ∨ grants e) l
  end.

(** What grants a tunnel or an upgrade: the decision on the CONNECT, unless every
    decrypted request is judged instead; an authorized upgrade to its target. *)
Definition grants (strict : bool) (raw : RawRequest) (t : ConnectTargetInfo) (e : NetEvent) : Prop :=
  match e with
  | NConnect raw' _ ConnectAllow => strict = false ∧ raw' = raw
  | NUpgrade raw' _ (UpgradeAllow _ _) => rq_host raw' = pinned_host t ∧ rq_is_https raw' = true
  | _ => False
  end.

Lemma mediated_mono gr to (g g' : Prop) l : (g → g') → mediated gr to g l → mediated gr to g' l.
Proof.
  revert g g'. induction l as [|e l IH]; intros g g' Hg; [done|]. intros [He Hl]. split; [naive_solver|].
  eapply IH; [|exact Hl]. tauto.
Qed.

Lemma mediated_app gr to g l1 l2 :
  mediated gr to g (l1 ++ l2) ↔ mediated gr to g l1 ∧ mediated gr to (g ∨ Exists gr l1) l2.
Proof.
  revert g. induction l1 as [|e l1 IH]; intros g; simpl.
  - split; [intros Hm; split; [done|]|intros [_ Hm]]; eapply mediated_mono; [|exact Hm| |exact Hm]; [by left|].
    intros [?|Hn]; [done|by inversion Hn].
  - rewrite IH, (and_assoc (_ → _)). f_equiv. split; apply mediated_mono; rewrite Exists_cons; tauto.
Qed.

(** Events of the handler are not outward; after a grant, only the address matters. *)
Lemma mediated_quiet gr to g l : Forall (λ e, outward e = false) l → mediated gr to g l.
Proof. intros Hq. revert g. induction Hq as [|e l He _ IH]; intros g; [done|]. split; [congruence|apply IH]. Qed.

Lemma mediated_granted gr to (g : Prop) l : g → Forall (dials to) l → mediated gr to g l.
Proof. intros Hg Hd. revert g Hg. induction Hd as [|e l He _ IH]; intros g Hg; [done|]. split; [done|]. apply IH. by left. Qed.

Lemma effects_quiet (effects : list Effect) : Forall (λ e, outward e = false) (NEffect <$> effects).
Proof. apply Forall_fmap, Forall_true. done. Qed.

(** ** Facts: relays *)

Lemma run_stages_events l e : e ∈ (run_stages l).1 → ∃ st, st ∈ l ∧ e ∈ st.1.
Proof.
  induction l as [|[ev r] l IH]; simpl; [by intros ?%elem_of_nil|].
  destruct r as [[]|err]; simpl.
  - destruct (run_stages l) as [ev' r']. simpl in *. intros [?|[st [? ?]]%IH]%elem_of_app; [exists (ev, Ok tt)|exists st]; set_solver.
  - intros ?. exists (ev, Err err). set_solver.
Qed.

Lemma unless_run_rejected_events k l e : e ∈ (unless_run_rejected k l).1 → ∃ st, st ∈ l ∧ e ∈ st.1.
Proof.
  destruct k as [[|n]|]; simpl; [by intros ?%elem_of_nil| |apply run_stages_events].
  destruct (l !! n) as [[ev r]|] eqn:En; [|apply run_stages_events].
  assert (∀ st, st ∈ take n l → st ∈ l) as Hsub.
  { intros st Hst. rewrite <- (take_drop n l). apply elem_of_app. by left. }
  pose proof (λ e', run_stages_events (take n l) e') as Hrun.
  destruct (run_stages (take n l)) as [ev' [[]|err]]; simpl in *.
  - intros [?|?]%elem_of_app; [destruct (Hrun e) as (st & ? & ?); [done|]; exists st; auto|].
    exists (ev, r). split; [by eapply list_elem_of_lookup_2|done].
  - intros ?. destruct (Hrun e) as (st & ? & ?); [done|]. exists st; auto.
Qed.

Lemma relay_events (Q : NetEvent → Prop) k l :
  (∀ st, st ∈ l → Forall Q st.1) → Forall Q (unless_run_rejected k l).1.
Proof.
  intros Hl. apply Forall_forall. intros e (st & Hst & He)%unless_run_rejected_events.
  specialize (Hl st Hst). rewrite Forall_forall in Hl. by apply Hl.
Qed.

Lemma tunnel_events (Q : NetEvent → Prop) to limits x :
  Q (NDial to) → Q NTunnel → Forall Q (relay_connect_tunnel to limits x).1.
Proof.
  intros Hd Ht. apply relay_events. intros st Hst.
  repeat (apply elem_of_cons in Hst as [->|Hst]; [by repeat constructor|]). by apply elem_of_nil in Hst.
Qed.

Lemma prefetch_events (Q : NetEvent → Prop) to limits p x :
  Q (NDial to) → Q (NSend p) → Q NTunnel →
  Forall Q (relay_connect_tunnel_from_stream_with_prefetch to limits p x).1.
Proof.
  intros Hd Hs Ht. apply relay_events.
  intros st [->|[Hst| ->%list_elem_of_singleton]%elem_of_app]%elem_of_cons; [by repeat constructor| |by repeat constructor].
  destruct (is_empty p); [by apply elem_of_nil in Hst|]. apply list_elem_of_singleton in Hst as ->. by repeat constructor.
Qed.

(** ** Facts: decrypted requests *)

(** The requests judged inside a tunnel are for its target. *)
Definition held (t : ConnectTargetInfo) (e : NetEvent) : Prop :=
  match e with
  | NHandle raw _ | NUpgrade raw _ _ => rq_host raw = pinned_host t ∧ rq_is_https raw = true
  | NConnect _ _ _ => False
  | _ => True
  end.

Lemma effects_pinned t (effects : list Effect) : Forall (held t) (NEffect <$> effects).
Proof. apply Forall_fmap, Forall_true. done. Qed.

Lemma https_head_pinned req t raw :
  target_ok t → uri_ok req → build_raw_https_request_head req t = Ok raw →
  rq_host raw = pinned_host t ∧ rq_is_https raw = true.
Proof. intros Ht Hu (_ & _ & ->)%https_head_spec; done. Qed.

Lemma relay_upgrade_events req t c p u r ev gr (g : Prop) :
  relay_upgrade req t c p u = (r, ev) → g → mediated gr (ct_authority t) g ev ∧ Forall (held t) ev.
Proof.
  intros E Hg. assert (Forall (λ e, dials (ct_authority t) e ∧ held t e) ev) as Hf.
  { revert E. unfold relay_upgrade, websocket_relay. repeat case_match; intros; simplify_eq; by repeat constructor. }
  split; [apply mediated_granted; [done|]|]; eapply Forall_impl; [exact Hf|..|exact Hf|]; naive_solver.
Qed.

(** What the events of a decrypted tunnel are: judged requests for the target, and
    outward events only after an authorized upgrade. *)
Definition inner_events (t : ConnectTargetInfo) (strict : bool) (raw : RawRequest) (l : list NetEvent) : Prop :=
  mediated (grants strict raw t) (ct_authority t) False l ∧ Forall (held t) l.

Lemma inner_events_quiet t strict raw l :
  Forall (λ e, outward e = false ∧ held t e) l → inner_events t strict raw l.
Proof.
  intros Hl. split; [apply mediated_quiet|]; (eapply Forall_impl; [exact Hl|naive_solver]).
Qed.

Lemma handle_raw_inner h raw session r ev h' t strict raw0 :
  rq_host raw = pinned_host t → rq_is_https raw = true →
  handle_raw h raw session = (r, ev, h') → inner_events t strict raw0 ev.
Proof.
  intros Hh Hs. unfold handle_raw. destruct (gd_handle h raw session) as [[r' effects] h1]. intros [= <- <- <-].
  apply inner_events_quiet. constructor; [done|]. apply Forall_and. split; [apply effects_quiet|apply effects_pinned].
Qed.

Lemma handle_upgrade_inner h req t session u r ev h' strict raw0 :
  target_ok t → uri_ok req →
  handle_mitm_websocket_upgrade_request h req t session u = (r, ev, h') → inner_events t strict raw0 ev.
Proof.
  intros Ht Hu. unfold handle_mitm_websocket_upgrade_request, deny_malformed.
  destruct (build_raw_https_request_head req t) as [raw|] eqn:Hraw; cycle 1.
  { intros [= <- <- <-]. apply inner_events_quiet. by repeat constructor. }
  destruct (get_firma_session_id (rq_headers raw)) as [s|]; cycle 1.
  { intros [= <- <- <-]. apply inner_events_quiet. by repeat constructor. }
  destruct (https_head_pinned req t raw Ht Hu Hraw) as [Hhost Htls].
  destruct (gd_authorize_upgrade h raw (inner_session session s)) as [[auth effects] h1].
  assert (∀ u0 l, l = NUpgrade raw (inner_session session s) u0 :: (NEffect <$> effects) → inner_events t strict raw0 l) as Hcall.
  { intros u0 l ->. apply inner_events_quiet. constructor; [done|]. apply Forall_and. split; [apply effects_quiet|apply effects_pinned]. }
  destruct auth as [c p|reason detail|reason detail]; [|intros [= <- <- <-]; by eapply Hcall..].
  destruct (relay_upgrade req t c p u) as [r' ev'] eqn:Er. intros [= <- <- <-].
  destruct (Hcall (UpgradeAllow c p) _ eq_refl) as [Hm Hp].
  destruct (relay_upgrade_events req t c p u r' ev' (grants strict raw0 t)
              (False ∨ Exists (grants strict raw0 t) (NUpgrade raw (inner_session session s) (UpgradeAllow c p) :: (NEffect <$> effects))) Er)
    as [Hm' Hp']; [right; by left|]. rewrite app_comm_cons.
  split; [apply mediated_app; by split|apply Forall_app; by split].
Qed.

Lemma handle_inner h i t session max r ev h' strict raw0 :
  target_ok t → uri_ok (ii_request i) →
  handle_mitm_https_request h i t session max = (r, ev, h') → inner_events t strict raw0 ev.
Proof.
  intros Ht Hu. unfold handle_mitm_https_request, deny_malformed. destruct (decide _).
  { intros [= <- <- <-]. apply inner_events_quiet. by repeat constructor. }
  destruct (is_websocket_upgrade_request _).
  { destruct (handle_mitm_websocket_upgrade_request _ _ _ _ _) as [[r' ev'] h1] eqn:E. intros [= <- <- <-].
    by eapply handle_upgrade_inner. }
  unfold build_raw_https_request. destruct (build_raw_https_request_head _ t) as [raw|] eqn:Hraw; cycle 1.
  { intros [= <- <- <-]. apply inner_events_quiet. by repeat constructor. }
  destruct (read_body_with_limit _ _ _) as [body|]; cycle 1.
  { intros [= <- <- <-]. apply inner_events_quiet. by repeat constructor. }
  destruct (https_head_pinned _ t raw Ht Hu Hraw) as [Hhost Htls].
  destruct (get_firma_session_id _); [by apply handle_raw_inner|].
  intros [= <- <- <-]. apply inner_events_quiet. by repeat constructor.
Qed.

Lemma inner_events_app t strict raw l l' :
  inner_events t strict raw l → inner_events t strict raw l' → inner_events t strict raw (l ++ l').
Proof.
  intros [Hm Hp] [Hm' Hp']. split; [|apply Forall_app; by split]. apply mediated_app. split; [done|].
  eapply mediated_mono; [|exact Hm']. done.
Qed.

Lemma serve_inner_events h l t session max strict raw0 :
  target_ok t → Forall (λ i, uri_ok (ii_request i)) l →
  inner_events t strict raw0 (serve_inner h l t session max).1.
Proof.
  intros Ht Hl. revert h. induction Hl as [|i l Hi _ IH]; intros h; simpl; [by split; [|constructor]|].
  destruct (handle_mitm_https_request h i t session max) as [[r ev] h1] eqn:E.
  apply (handle_inner h i t session max r ev h1 strict raw0 Ht Hi) in E.
  assert (inner_events t strict raw0 (let '(ev', h2) := serve_inner h1 l t session max in ((ev ++ ev')%list, h2)).1).
  { specialize (IH h1). destruct (serve_inner h1 l t session max). by apply inner_events_app. }
  destruct r as [[]|]; done.
Qed.

(** What a relay that was granted does: everything it does upstream is granted by the
    decision on the CONNECT, or by an upgrade. *)
Lemma relay_connect_mitm_events h t session max limits strict x raw :
  target_ok t → Forall (λ i, uri_ok (ii_request i)) (rx_requests x) →
  let l := (relay_connect_mitm h t session max limits strict x).1.1 in
  mediated (grants strict raw t) (ct_authority t) (strict = false) l ∧ Forall (held t) l.
Proof.
  intros Ht Hx. unfold relay_connect_mitm, relay_mitm_preface.
  assert (∀ l, inner_events t strict raw l → mediated (grants strict raw t) (ct_authority t) (strict = false) l ∧ Forall (held t) l) as Hin.
  { intros l [Hm Hp]. split; [|done]. eapply mediated_mono; [|exact Hm]. done. }
  destruct (upgrade_outcome limits x); [|by apply Hin; split].
  destruct (read_connect_preface _) as [[preface rest]|]; [|by apply Hin; split].
  destruct (negb _).
  - destruct strict; [by apply Hin, inner_events_quiet; repeat constructor|].
    pose proof (prefetch_events (dials (ct_authority t)) (ct_authority t) limits preface x eq_refl I I) as Hd.
    pose proof (prefetch_events (held t) (ct_authority t) limits preface x I I I) as Hp.
    destruct (relay_connect_tunnel_from_stream_with_prefetch _ _ _ _). split; [by apply mediated_granted|done].
  - destruct (awaited _ _ _); [|by apply Hin; split].
    pose proof (serve_inner_events h (rx_requests x) t session max strict raw Ht Hx) as Hs.
    destruct (serve_inner _ _ _ _ _). by apply Hin.
Qed.

(** The head, the target and the mode of a CONNECT whose tunnel was opened. *)
Lemma handle_connect_request_opened h req runtime acceptor out ev h' relay t session :
  uri_ok req → handle_connect_request h req runtime acceptor = (out, ev, h') →
  co_relay out = Some (relay, t, session) →
  let candidate := match runtime with Some r => should_intercept_host r (ct_host t) | None => false end in
  let strict := candidate && match runtime with Some r => is_strict_host r (ct_host t) | None => false end in
  ∃ a raw,
    host_with_default_port req true = Ok a ∧ connect_target_info a = Ok t ∧ target_ok t ∧
    build_raw_request_head req true = Ok raw ∧ co_response out = Ok REstablished ∧
    ((candidate = true ∧ strict = true ∧ is_ok (acceptor (ct_host t)) = true ∧ relay = MitmRelay true ∧ ev = []) ∨
     (strict = false ∧ (∃ effects, ev = NConnect raw session ConnectAllow :: (NEffect <$> effects)) ∧
      relay = if candidate && is_ok (acceptor (ct_host t)) then MitmRelay false else BlindRelay (ct_authority t))).
Proof.
  intros Hu. unfold handle_connect_request, deny_malformed_connect, deny_malformed.
  destruct (build_raw_request_head req true) as [raw|] eqn:Hraw; [|by intros [= <- <- <-]].
  destruct (get_firma_session_id _) as [s|]; [|by intros [= <- <- <-]].
  destruct (host_with_default_port req true) as [a|] eqn:Ha; [|by intros [= <- <- <-]].
  destruct (connect_target_info a) as [t0|] eqn:Ht; [|by intros [= <- <- <-]].
  pose proof (connect_target_info_ok a t0 (host_with_default_port_valid _ _ _ Hu Ha) Ht) as Hok.
  pose proof (target_dialed t0 Hok) as Hdial.
  set (candidate := match runtime with Some r => should_intercept_host r (ct_host t0) | None => false end).
  set (strict := candidate && match runtime with Some r => is_strict_host r (ct_host t0) | None => false end).
  unfold preflight_mitm_acceptor.
  destruct candidate eqn:Hcand; [destruct (acceptor (ct_host t0)) as [[]|e] eqn:Hacc|];
    [destruct strict eqn:Hst|destruct strict eqn:Hst; [by intros [= <- <- <-]|]|]; cbn [andb];
    try (destruct (gd_handle_connect h raw (default "" s)) as [[d effects] h1];
         destruct d; [|by intros [= <- <- <-]..]);
    intros [= <- <- <-]; cbn [co_relay]; intros [= <- <- <-]; exists a, raw; fold candidate strict;
    rewrite Hcand, ?Hst, ?Hacc, ?Hdial; split_and!; try done; naive_solver.
Qed.

(** A relay of a granted tunnel, or of a strict one, whose grants come later. *)
Lemma run_relay_events h relay t session max limits x strict raw :
  target_ok t → Forall (λ i, uri_ok (ii_request i)) (rx_requests x) →
  relay = MitmRelay strict ∨ relay = BlindRelay (ct_authority t) ∧ strict = false →
  let l := (run_relay h relay t session max limits x).1 in
  mediated (grants strict raw t) (ct_authority t) (strict = false) l ∧ Forall (held t) l.
Proof.
  intros Ht Hx Hrelay. set (gr := grants strict raw t).
  assert (∀ ev e, mediated gr (ct_authority t) (strict = false) ev ∧ Forall (held t) ev →
            mediated gr (ct_authority t) (strict = false) (ev ++ [NEffect e]) ∧ Forall (held t) (ev ++ [NEffect e])) as Haud.
  { intros ev e [Hm Hp]. split; [apply mediated_app; split; [done|by split]|].
    apply Forall_app. split; [done|]. by repeat constructor. }
  destruct Hrelay as [->|[-> Hs]]; simpl.
  - pose proof (relay_connect_mitm_events h t session max limits strict x raw Ht Hx) as Hr.
    destruct (relay_connect_mitm _ _ _ _ _ _ _) as [[ev [[]|e]] h1]; simpl in *; [done|by apply Haud].
  - pose proof (tunnel_events (dials (ct_authority t)) (ct_authority t) limits x eq_refl I) as Hd.
    pose proof (tunnel_events (held t) (ct_authority t) limits x I I) as Hp.
    destruct (relay_connect_tunnel _ _ _) as [ev [[]|e]]; simpl in *; [|apply Haud]; (split; [by apply mediated_granted|done]).
Qed.

Lemma handle_connect_request_quiet h req runtime acceptor out ev h' :
  handle_connect_request h req runtime acceptor = (out, ev, h') →
  Forall (λ e, outward e = false) ev ∧ (co_relay out = None → co_response out ≠ Ok REstablished).
Proof.
  unfold handle_connect_request, deny_malformed_connect, deny_malformed, preflight_mitm_acceptor.
  repeat case_match; intros; simplify_eq/=; (split; [|done]); repeat constructor; apply effects_quiet.
Qed.

(** ** Properties *)

(** [C10] Nothing leaves through a CONNECT without a decision.  Whatever the agent
    sends and the upstream answers, the interceptor dials only the target the
    CONNECT named, and dials, sends or relays only after the decision on that
    CONNECT allowed it or an upgrade to the target was authorized; for a strict
    host the CONNECT's decision grants nothing and only upgrades do; every
    decrypted request is handed to enforcement as one to the target; and a
    refused CONNECT leaves no trace upstream. *)
Theorem connect_mediated h req runtime acceptor max limits x out ev h' :
  uri_ok req → Forall (λ i, uri_ok (ii_request i)) (rx_requests x) →
  serve_connect h req runtime acceptor max limits x = (out, ev, h') →
  match co_relay out with
  | None => Forall (λ e, outward e = false) ev ∧ co_response out ≠ Ok REstablished
  | Some (_, t, _) =>
      let strict := match runtime with
                    | Some r => should_intercept_host r (ct_host t) && is_strict_host r (ct_host t)
                    | None => false
                    end in
      ∃ a raw,
        host_with_default_port req true = Ok a ∧ connect_target_info a = Ok t ∧
        build_raw_request_head req true = Ok raw ∧
        mediated (grants strict raw t) (ct_authority t) False ev ∧
        (∀ raw' s, NHandle raw' s ∈ ev → rq_host raw' = pinned_host t ∧ rq_is_https raw' = true)
  end.
Proof.
  intros Hu Hx. unfold serve_connect. destruct (handle_connect_request h req runtime acceptor) as [[o ev0] h1] eqn:E.
  pose proof (handle_connect_request_quiet _ _ _ _ _ _ _ E) as [Hq Hn].
  destruct (co_relay o) as [[[relay t] session]|] eqn:Er; [|intros [= <- <- <-]; rewrite Er; auto].
  destruct (handle_connect_request_opened _ _ _ _ _ _ _ _ _ _ Hu E Er) as (a & raw & Ha & Ht & Hok & Hraw & _ & Hmode).
  destruct (run_relay h1 relay t session max limits x) as [ev1 h2] eqn:Erun. intros [= <- <- <-]. rewrite Er.
  exists a, raw. pose proof (run_relay_events h1 relay t session max limits x) as Hrun. rewrite Erun in Hrun.
  set (strict := match runtime with Some _ => _ | None => _ end).
  assert ((strict = true ∧ relay = MitmRelay true ∧ ev0 = []) ∨
          (strict = false ∧ (relay = MitmRelay false ∨ relay = BlindRelay (ct_authority t)) ∧
           ∃ effects, ev0 = NConnect raw session ConnectAllow :: (NEffect <$> effects))) as Hcases.
  { destruct Hmode as [(_ & Hst & _ & -> & ->)|(Hst & Hev & ->)]; [left|right].
    - split_and!; [|done..]. unfold strict. by destruct runtime.
    - split_and!; [unfold strict; by destruct runtime| |done].
      destruct (_ && is_ok _); auto. }
  assert (mediated (grants strict raw t) (ct_authority t) (strict = false) ev1 ∧ Forall (held t) ev1) as [Hm Hp].
  { apply Hrun; [done..|]. destruct Hcases as [(-> & -> & _)|(-> & [->| ->] & _)]; auto. }
  split_and!; [done..| |].
  - apply mediated_app. split; [by apply mediated_quiet|]. eapply mediated_mono; [|exact Hm]. intros Hs.
    destruct Hcases as [(Hs' & _)|(_ & _ & effects & ->)]; [congruence|]. right. by left.
  - intros raw' s [Hin|Hin]%elem_of_app; [|rewrite Forall_forall in Hp; by apply (Hp _ Hin)].
    destruct Hcases as [(_ & _ & ->)|(_ & _ & effects & ->)]; [by apply elem_of_nil in Hin|].
    apply elem_of_cons in Hin as [?|(? & ? & _)%list_elem_of_fmap]; done.
Qed.

End Mediation.

(** ** Facts: audit *)

Section Audit.
Context {HC : HttpCrate} {AP : AuthorityParts} {HV : HeaderValueParse} {H : Type} {G : Guard H} {GL : GuardLaws G}.

Definition audited_by (l : list NetEvent) : Prop := ∃ a, NEffect (EAudit a) ∈ l.

Lemma audited_effect session action resource reason detail :
  audited_by [NEffect (emit_synthetic_deny session action resource reason detail)].
Proof. eexists. by left. Qed.

Lemma audited_effects e (effects : list Effect) : (∃ a, EAudit a ∈ effects) → audited_by (e :: (NEffect <$> effects)).
Proof. intros [a Ha]. exists a. right. apply list_elem_of_fmap. by exists (EAudit a). Qed.

Lemma handle_raw_audited h raw session r ev h' : handle_raw h raw session = (Some r, ev, h') → audited_by ev.
Proof.
  unfold handle_raw. destruct (gd_handle h raw session) as [[[r'|] effects] h1] eqn:E; [|done].
  intros [= _ <- _]. apply audited_effects. by eapply gd_handle_audited.
Qed.

Lemma relay_upgrade_audited req t c p u r ev : relay_upgrade req t c p u = (r, ev) → audited_by ev.
Proof.
  unfold relay_upgrade. repeat case_match; intros; simplify_eq; eexists; repeat first [by left|right].
Qed.

Lemma handle_upgrade_audited h req t session u r ev h' :
  handle_mitm_websocket_upgrade_request h req t session u = (r, ev, h') → audited_by ev.
Proof.
  unfold handle_mitm_websocket_upgrade_request, deny_malformed.
  destruct (build_raw_https_request_head req t) as [raw|]; [|intros [= <- <- <-]; apply audited_effect].
  destruct (get_firma_session_id _) as [s|]; [|intros [= <- <- <-]; apply audited_effect].
  destruct (gd_authorize_upgrade _ _ _) as [[auth effects] h1] eqn:E. pose proof (gd_upgrade_audited _ _ _ _ _ _ E) as Ha.
  destruct auth as [c p|reason detail|reason detail].
  - destruct (relay_upgrade req t c p u) as [r' ev'] eqn:Er. intros [= <- <- <-].
    destruct (relay_upgrade_audited _ _ _ _ _ _ _ Er) as [a Hin]. exists a. rewrite app_comm_cons.
    apply elem_of_app. by right.
  - intros [= <- <- <-]. apply audited_effects. destruct Ha as [a ->]. exists a. by left.
  - intros [= <- <- <-]. apply audited_effects. destruct Ha as [a ->]. exists a. by left.
Qed.

(** Every response of the interceptor is audited: each answer to a plain
    request, to a decrypted request or upgrade, and to a CONNECT comes with an
    audit payload, malformed requests refused before enforcement included.  The
    one exception is a CONNECT to a strict host that is decrypted, whose requests
    are audited one by one. *)
Theorem intercept_audited h :
  (∀ req max b r ev h', handle_plain_request h req max b = (Some r, ev, h') → audited_by ev) ∧
  (∀ i t session max r ev h', handle_mitm_https_request h i t session max = (Some r, ev, h') → audited_by ev) ∧
  (∀ req runtime acceptor out ev h' r,
     handle_connect_request h req runtime acceptor = (out, ev, h') → co_response out = Ok r →
     audited_by ev ∨ ∃ t session, co_relay out = Some (MitmRelay true, t, session)).
Proof.
  split_and!.
  - intros req max b r ev h'. unfold handle_plain_request, deny_malformed.
    destruct (host_with_default_port req false); [|intros [= <- <- <-]; apply audited_effect].
    destruct (build_raw_request req max b) as [raw|]; [|intros [= <- <- <-]; apply audited_effect].
    destruct (get_firma_session_id _); [apply handle_raw_audited|intros [= <- <- <-]; apply audited_effect].
  - intros i t session max r ev h'. unfold handle_mitm_https_request, deny_malformed.
    destruct (decide _); [intros [= <- <- <-]; apply audited_effect|].
    destruct (is_websocket_upgrade_request _).
    { destruct (handle_mitm_websocket_upgrade_request _ _ _ _ _) as [[r' ev'] h1] eqn:E. intros [= <- <- <-].
      by eapply handle_upgrade_audited. }
    destruct (build_raw_https_request _ _ _ _) as [raw|]; [|intros [= <- <- <-]; apply audited_effect].
    destruct (get_firma_session_id _); [apply handle_raw_audited|intros [= <- <- <-]; apply audited_effect].
  - intros req runtime acceptor out ev h' r. unfold handle_connect_request, deny_malformed_connect, deny_malformed.
    destruct (build_raw_request_head req true) as [raw|]; [|intros [= <- <- <-] _; left; apply audited_effect].
    destruct (get_firma_session_id _) as [s|]; [|intros [= <- <- <-] _; left; apply audited_effect].
    destruct (host_with_default_port req true) as [a|]; [|by intros [= <- <- <-]].
    destruct (connect_target_info a) as [t|]; [|by intros [= <- <- <-]].
    set (candidate := match runtime with Some r => should_intercept_host r (ct_host t) | None => false end).
    set (strict := candidate && _). unfold preflight_mitm_acceptor.
    assert (∀ d effects h1, gd_handle_connect h raw (default "" s) = (d, effects, h1) →
              audited_by (NConnect raw (default "" s) d :: (NEffect <$> effects))) as Hc.
    { intros d effects h1 [a' ->]%gd_connect_audited. apply audited_effects. exists a'. by left. }
    destruct candidate; [destruct (acceptor _); destruct strict|];
      cbn [andb]; try (intros [= <- <- <-] _; left; apply audited_effect);
      try (destruct (gd_handle_connect h raw (default "" s)) as [[d effects] h1]; specialize (Hc _ _ _ eq_refl);
           destruct d; intros [= <- <- <-] _; by left).
    intros [= <- <- <-] _. right. by eexists _, _.
Qed.

End Audit.

(** ** The request handler keeps these promises *)

Section HandlerGuard.
Context {HC : HttpCrate} {SJ : SerdeJson} {UN : UnicodeNfc} {FU : FormUrlencoded}
  {PJ : ParamsJson} {TV : TokenVerifier} {RS : Type} {RSt : RevocationStore RS}
  {SH : Sha256} {St : Type} {SS : SessionStateStore St}
  {P : Type} {PE : PolicyEvaluation P} {Q : Type} {QE : PolicyEvaluation Q}
  {JT : JsonTree} {UP : UrlParse} {MP : MimeParse} {BC : BodyCodecs}
  {AC : AhoCorasick} {JU : JsonUnescape} {QX : QuickXml} {SE : SecretEncoders}
  {PP : PlaceholderParse} {M : Type} {SX : SecretExtract M}.

(** The handler with the state it shares: each call finds what other connections did
    to the state since the last one, and its own surroundings. *)
Record SharedHandler := {
  sh_handler : RequestHandler (P := P) (Q := Q) M;
  sh_env : nat → Env (St := St);
  sh_others : nat → PipelineState (RS := RS) (St := St) → PipelineState (RS := RS) (St := St);
  sh_calls : nat;
  sh_state : PipelineState (RS := RS) (St := St);
}.

Definition sh_after (g : SharedHandler) (st : PipelineState (RS := RS) (St := St)) : SharedHandler :=
  {| sh_handler := sh_handler g; sh_env := sh_env g; sh_others := sh_others g; sh_calls := S (sh_calls g);
     sh_state := st |}.

Definition sh_call {A} (f : RequestHandler (P := P) (Q := Q) M → Env (St := St) → PipelineState (RS := RS) (St := St) →
    A * list Effect * PipelineState (RS := RS) (St := St)) (g : SharedHandler) : A * list Effect * SharedHandler :=
  let '(r, effects, st) := f (sh_handler g) (sh_env g (sh_calls g)) (sh_others g (sh_calls g) (sh_state g)) in
  (r, effects, sh_after g st).

#[export] Instance handler_guard : Guard SharedHandler := {|
  gd_handle g raw s := sh_call (λ h env st, handle h env st raw s) g;
  gd_handle_connect g raw s := sh_call (λ h env st, handle_connect h env st raw s) g;
  gd_authorize_upgrade g raw s := sh_call (λ h env st, authorize_upgrade h env st raw s) g;
|}.

(** A run of the monitor that ends audited has audited. *)
Lemma monitor_run_audited ok p es : monitor_run ok p es PAudited → p ≠ PAudited → ∃ a, EAudit a ∈ es.
Proof.
  remember PAudited as q eqn:Hq. induction 1 as [p|p e q' es r Hs Hr IH]; [done|]. intros Hp. subst r.
  destruct e as [| | |a]; try (destruct IH as [a Ha]; [done|inversion Hs; simplify_eq; done|exists a; by right]).
  exists a. by left.
Qed.

Definition anything : Monitor := {| may_ask _ _ := True; may_send _ _ := True |}.

Lemma handle_audits (h : RequestHandler (P := P) (Q := Q) M) env st request session r effects st' :
  handle h env st request session = (Some r, effects, st') → ∃ a, EAudit a ∈ effects.
Proof.
  unfold handle. destruct (handle_composio h env st request session) as [[[r0 es] st0]|] eqn:Hc.
  - intros [= <- <- <-]. unfold handle_composio in Hc. destruct (rh_composio_catalogs h) as [catalogs|]; [|done].
    simpl in Hc. apply (monitor_run_audited anything PStart); [|done].
    destruct (decode (en_now env) request catalogs) as [| |actions|denial]; [done|..].
    + pose proof (composio_passthrough_runs anything h env request session (λ _ _ _ _ _ _, I)) as Hp.
      destruct (handle_composio_passthrough h env request session). simplify_eq. apply Hp.
    + pose proof (composio_actions_runs anything h env st request session actions (λ _ _ _, I)) as Hp.
      destruct (handle_composio_actions _ _ _ _ _ _) as [[r' es'] st'']. simplify_eq. apply Hp.
    + simplify_eq. apply monitor_run_audit.
  - destruct (enforce _ _ _ _ _ _) as [[d a] st0]. destruct (handle_enforced h env d a request) as [[[r0 a0]|] es]; [|done].
    intros [= <- <- <-]. exists a0. apply elem_of_app. right. by left.
Qed.

#[export] Instance handler_guard_laws : GuardLaws handler_guard.
Proof.
  split; intros g raw s r effects g'; cbn; unfold sh_call.
  - destruct (handle _ _ _ _ _) as [[o es] st] eqn:E. intros [= -> <- <-]. by eapply handle_audits.
  - unfold handle_connect. destruct (enforce _ _ _ _ _ _) as [[d a] st].
    destruct d; intros [= <- <- <-]; by eexists.
  - unfold authorize_upgrade. destruct (is_protected_host _); [intros [= <- <- <-]; simpl; eauto|].
    destruct (enforce _ _ _ _ _ _) as [[d a] st]. destruct d; intros [= <- <- <-]; simpl; eauto.
Qed.

(** A tunnel that was allowed was admitted by the pipeline. *)
Lemma connect_allowed_enforced (g : SharedHandler) raw s effects g' :
  gd_handle_connect g raw s = (ConnectAllow, effects, g') →
  ∃ d a st, enforce (rh_pipeline (sh_handler g)) (en_arrival (sh_env g (sh_calls g))) (en_moment (sh_env g (sh_calls g)))
              (sh_others g (sh_calls g) (sh_state g)) raw s = ((d, a), st) ∧
    match d with Allow _ _ _ | Modify _ _ _ _ => True | _ => False end.
Proof.
  cbn. unfold sh_call, handle_connect. destruct (enforce _ _ _ _ _ _) as [[d a] st].
  intros Heq. exists d, a, st. split; [done|]. by destruct d; simplify_eq/=.
Qed.

End HandlerGuard.

(** ** Samples *)

Module Samples.

#[local] Existing Instance InterceptHosts.Samples.grammar_http.
#[local] Existing Instance InterceptHosts.Samples.grammar_parts.
#[local] Existing Instance InterceptHosts.Samples.grammar_laws.
#[local] Instance any_value : HeaderValueParse := Some.

(** A guard that allows a list of hosts. *)
Definition payload (host : string) (d : AuditDecision) : AuditPayload := synthetic_payload "s" "sample" host d "".

#[local] Instance host_guard : Guard (list string) := {|
  gd_handle allowed raw s :=
    if decide (rq_host raw ∈ allowed)
    then (Some (HOk {| dr_status := 200; dr_headers := []; dr_body := "ok" |}), [EAudit (payload (rq_host raw) DAllow)], allowed)
    else (Some (HDeny PolicyDenied "no rule" CtxApi), [EAudit (payload (rq_host raw) DDeny)], allowed);
  gd_handle_connect allowed raw s :=
    if decide (rq_host raw ∈ allowed) then (ConnectAllow, [EAudit (payload (rq_host raw) DAllow)], allowed)
    else (ConnectDeny PolicyDenied "no rule", [EAudit (payload (rq_host raw) DDeny)], allowed);
  gd_authorize_upgrade allowed raw s :=
    if decide (rq_host raw ∈ allowed) then (UpgradeAllow credentials_empty (payload (rq_host raw) DAllow), [], allowed)
    else (UpgradeDeny PolicyDenied "no rule", [EAudit (payload (rq_host raw) DDeny)], allowed);
|}.

#[local] Instance host_guard_laws : GuardLaws host_guard.
Proof.
  split; intros allowed raw s r effects h'; cbn; case_decide; intros [= <- <- <-]; simpl; eauto.
  all: eexists; by left.
Qed.

Definition limits : ConnectRelayLimits := {| rl_setup_timeout := 10000000000; rl_session_max := 3600000000000 |}.

Definition no_upstream : UpstreamInput :=
  {| ui_connect := Err "refused"; ui_write := Ok tt; ui_chunks := []; ui_downstream := Ok tt;
     ui_prefetch_write := Ok tt; ui_run_rejected := false |}.

Definition relay_input (downstream : string) (requests : list Request) : RelayInput := {|
  rx_upgrade := Completed; rx_dial := Completed; rx_prefetch_write := Completed; rx_copy := Completed;
  rx_downstream := downstream; rx_downstream_end := Elapsed; rx_tls := Completed;
  rx_requests := (λ req, {| ii_request := req; ii_body := {| bi_upper := None; bi_frames := [] |};
                           ii_upstream := no_upstream |}) <$> requests;
  rx_serve := Completed; rx_rejected := None;
|}.

Definition tls_hello : string :=
  String "022"%char (String "003"%char (String "001"%char (String "000"%char (String "005"%char "hello")))).

Definition strict_runtime : HttpsMitmRuntime := mitm_runtime_new true ["*.example.com"] [] ["api.example.com"].

Abbreviation connect_sample runtime downstream requests :=
  (serve_connect ["api.example.com"] (InterceptHosts.Samples.connect_to "api.example.com:443") runtime (λ _, Ok tt)
     1024 limits (relay_input downstream requests)).

(** The events that matter, without payloads. *)
Definition shape (e : NetEvent) : string :=
  match e with
  | NHandle raw _ => "handle " +:+ rq_host raw
  | NConnect raw _ _ => "connect " +:+ rq_host raw
  | NUpgrade raw _ _ => "upgrade " +:+ rq_host raw
  | NEffect (EAudit a) => "audit " +:+ match ap_decision a with DAllow => "allow" | DDeny => "deny" | _ => "other" end
  | NEffect _ => "effect"
  | NDial t => "dial " +:+ t
  | NSend d => "send " +:+ d
  | NTunnel => "tunnel"
  end.

(** A blind tunnel; a decrypted one, with a request for its host and one for another;
    and a strict host that refuses another protocol. *)
Example connect_shapes :
  (shape <$> (connect_sample None "SSH-2.0" []).1.2,
   shape <$> (connect_sample (Some strict_runtime) tls_hello
                [InterceptHosts.Samples.inner "api.example.com"; InterceptHosts.Samples.inner "x.example.com"]).1.2,
   shape <$> (connect_sample (Some strict_runtime) "SSH-2.0" []).1.2)
  = (["connect api.example.com"; "audit allow"; "dial api.example.com:443"; "tunnel"],
     ["handle api.example.com"; "audit allow"; "audit deny"],
     ["audit deny"]).
Proof. vm_compute. reflexivity. Qed.

Definition blind_run := connect_sample None "SSH-2.0" [].

Lemma connect_mediated_witness :
  shape <$> blind_run.1.2 = ["connect api.example.com"; "audit allow"; "dial api.example.com:443"; "tunnel"] ∧
  match co_relay blind_run.1.1 with
  | Some (_, t, _) => ∃ raw, mediated (grants false raw t) (ct_authority t) False blind_run.1.2
  | None => False
  end.
Proof.
  split; [vm_compute; reflexivity|].
  assert (match co_relay blind_run.1.1 with Some _ => True | None => False end) as Hsome by (vm_compute; exact I).
  assert (blind_run = (blind_run.1.1, blind_run.1.2, blind_run.2)) as E by (destruct blind_run as [[? ?] ?]; reflexivity).
  pose proof (connect_mediated ["api.example.com"] (InterceptHosts.Samples.connect_to "api.example.com:443") None (λ _, Ok tt)
                1024 limits (relay_input "SSH-2.0" []) blind_run.1.1 blind_run.1.2 blind_run.2) as Hm.
  specialize (Hm ltac:(intros b Hb; injection Hb as <-; vm_compute; reflexivity) ltac:(constructor) E).
  destruct (co_relay blind_run.1.1) as [[[relay t] session]|]; [|destruct Hsome].
  destruct Hm as (a & raw & _ & _ & _ & Hmed & _). exists raw. exact Hmed.
Defined.

Definition refused_run := handle_plain_request ["api.example.com"] (InterceptHosts.Samples.inner "api.example.com") 1024
  {| bi_upper := Some 5000%Z; bi_frames := [] |}.

Lemma intercept_audited_witness : shape <$> refused_run.1.2 = ["audit deny"] ∧ audited_by refused_run.1.2.
Proof.
  split; [vm_compute; reflexivity|].
  assert (match refused_run.1.1 with Some _ => True | None => False end) as Hsome by (vm_compute; exact I).
  assert (refused_run = (refused_run.1.1, refused_run.1.2, refused_run.2)) as E by (destruct refused_run as [[? ?] ?]; reflexivity).
  pose proof (proj1 (intercept_audited ["api.example.com"]) (InterceptHosts.Samples.inner "api.example.com") 1024%Z
                {| bi_upper := Some 5000%Z; bi_frames := [] |}) as Ha.
  destruct refused_run.1.1 as [r|]; [|destruct Hsome]. exact (Ha r refused_run.1.2 refused_run.2 E).
Defined.

(** A run that was rejected before its relay was polled dials nothing; one rejected
    during the upstream connect relays nothing. *)
Example rejected_relays :
  let x k := {| rx_upgrade := Completed; rx_dial := Completed; rx_prefetch_write := Completed; rx_copy := Completed;
                rx_downstream := ""; rx_downstream_end := Elapsed; rx_tls := Completed; rx_requests := [];
                rx_serve := Completed; rx_rejected := Some k |} in
  (shape <$> (relay_connect_tunnel "h:443" limits (x 0)).1, shape <$> (relay_connect_tunnel "h:443" limits (x 2)).1)
  = ([], ["dial h:443"]).
Proof. vm_compute. reflexivity. Qed.

End Samples.
