(* ===== verification/InterceptHooks.v ===== *)
(** * The Unix socket and gRPC interceptors ([interceptor/unix_socket.rs], [grpc.rs])

    Two other ways a request of the agent reaches the handler: plain HTTP over a
    Unix socket, and a call of a gRPC hook that is told whether the action may go
    on.  Both build a [RawRequest] and hand it to the handler, here the interface
    [Guard] of [InterceptHttp].  Connections, sockets and the generated protocol
    code are left out, except for what becomes of the socket file. *)

From S2P Require Import Prelude RustStr ActionClasses Core Mapping Redaction MappingTable Decision Json.
From S2P Require Import Normalizer Lru Revocation CapabilityMap CapabilityValidation Session.
From S2P Require Import Cedar Constraint Runtime AuditRecord Pipeline Composio.
From S2P Require Import SecretRewrite SecretStore BodyEncoding SecretProvider Handler.
From S2P Require Import InterceptBody InterceptHosts InterceptFraming InterceptHttp.

#[local] Open Scope string_scope.

(** [InterceptorError]. *)
Inductive InterceptorError := BindFailed (detail : string) | ServerFailed (detail : string).

(** ** The socket file *)

(** What is at the path, what a connection to it meets, and the errors of the
    calls. *)
Inductive PathEntry := EntryMissing | EntrySocket | EntryOther | EntryUnreadable (error : string).

Inductive Probe := ProbeAccepted | ProbeNotFound | ProbeError (error : string).

Record BindEnv := {
  be_entry : PathEntry;
  be_probe : Probe;
  be_remove : option string;
  be_bind : option string;
}.

(** [refuse_existing_socket]. *)
Definition refuse_existing_socket (path : string) (probe : Probe) : Result unit InterceptorError :=
  match probe with
  | ProbeAccepted => Err (BindFailed ("socket " +:+ path +:+ " is already accepting connections"))
  | ProbeNotFound => Ok tt
  | ProbeError error =>
      Err (BindFailed ("refusing to replace existing socket " +:+ path +:+ " after probe error: " +:+ error))
  end.

(** [UnixSocketInterceptor::bind]: the listener or the error, and whether a file was
    removed. *)
Definition unix_bind (path : string) (env : BindEnv) : Result unit InterceptorError * bool :=
  let bound := match be_bind env with Some error => Err (BindFailed error) | None => Ok tt end in
  match be_entry env with
  | EntrySocket =>
      match refuse_existing_socket path (be_probe env) with
      | Err error => (Err error, false)
      | Ok _ => (bound, false)
      end
  | EntryOther =>
      match be_remove env with
      | Some error => (Err (BindFailed error), false)
      | None => (bound, true)
      end
  | EntryMissing => (bound, false)
  | EntryUnreadable error => (Err (BindFailed error), false)
  end.

(** ** Requests *)

(** [Method::from_str]; the error is its [Display]. *)
Class MethodParse := method_from_str : string → Result Method string.

(** [InterceptRequest]: the fields of the message, its headers in the order the map
    gives them. *)
Record InterceptRequest := {
  ir_method : string;
  ir_host : string;
  ir_path : string;
  ir_headers : list (string * string);
  ir_body : string;
  ir_session_id : string;
  ir_is_https : bool;
}.

Record InterceptResponse := { is_allowed : bool; is_reason : string }.

Section Hooks.
Context {HC : HttpCrate} {HV : HeaderValueParse} {MP : MethodParse} {H : Type} {G : Guard H}.

Definition body_bytes (body : string) : option string := if is_empty body then None else Some body.

(** [build_raw_request] of the Unix socket, on the body or the error it is read
    with. *)
Definition unix_build_raw_request (req : Request) (body : Result string string) : Result RawRequest string :=
  let? named := named_authority req in
  let? host := ok_or named MISSING_HOST in
  let? bytes := map_err (λ e, "MALFORMED_REQUEST: failed to read body: " +:+ e) body in
  Ok {| rq_method := hr_method req; rq_host := host;
        rq_path := default "/" (uri_path_and_query (hr_uri req)); rq_headers := hr_headers req;
        rq_body := body_bytes bytes; rq_is_https := false |}.

(** [handle_request] of the Unix socket. *)
Definition unix_handle_request (h : H) (req : Request) (body : Result string string)
    : option HttpReply * list NetEvent * H :=
  match unix_build_raw_request req body with
  | Err detail => (Some (RText 403 detail), [], h)
  | Ok raw =>
      match get_firma_session_id (rq_headers raw) with
      | Err detail => (Some (RText 403 detail), [], h)
      | Ok session => handle_raw h raw (default "" session)
      end
  end.

(** [headers.insert]: the last value of a name is kept. *)
Definition headers_insert (name value : string) (headers : list (string * string)) : list (string * string) :=
  (filter (λ kv, kv.1 ≠ name) headers ++ [(name, value)])%list.

(** The loop over the headers of the message. *)
Fixpoint hook_headers (l : list (string * string)) (headers : list (string * string))
    : Result (list (string * string)) string :=
  match l with
  | [] => Ok headers
  | (k, v) :: l =>
      let? name := map_err (λ e, "MALFORMED_REQUEST: invalid header " +:+ k +:+ ": " +:+ e)
                     (header_name_from_bytes k) in
      let? value := ok_or (header_value_from_str v)
                      ("MALFORMED_REQUEST: invalid value for header " +:+ k +:+
                       ": failed to parse header value") in
      hook_headers l (headers_insert name value headers)
  end.

(** The request of the message. *)
Definition hook_raw_request (req : InterceptRequest) : Result RawRequest string :=
  let? host := map_err (λ e, "MALFORMED_REQUEST: malformed host: " +:+ e) (authority_from_str (ir_host req)) in
  let? method := map_err (λ e, "MALFORMED_REQUEST: invalid method " +:+ ir_method req +:+ ": " +:+ e)
                   (method_from_str (ir_method req)) in
  let? headers := hook_headers (ir_headers req) [] in
  Ok {| rq_method := method; rq_host := host; rq_path := ir_path req; rq_headers := hm_from_iter headers;
        rq_body := body_bytes (ir_body req); rq_is_https := ir_is_https req |}.

(** The session of the message, or that of the metadata when it has none. *)
Definition hook_session (metadata : option string) (req : InterceptRequest) : string :=
  if is_empty (ir_session_id req) then default "" metadata else ir_session_id req.

Definition hook_answer (r : HandledResponse) : InterceptResponse :=
  match r with
  | HOk _ | HPassthrough _ => {| is_allowed := true; is_reason := "" |}
  | HDeny reason detail _ =>
      {| is_allowed := false; is_reason := deny_reason_display reason +:+ ": " +:+ detail |}
  | HAborted reason detail =>
      {| is_allowed := false; is_reason := "ABORT:" +:+ abort_code reason +:+ ": " +:+ detail |}
  end.

(** [GrpcInterceptor::intercept], once a handler is set; [metadata] is the session
    of the call's metadata when that is text. *)
Definition intercept (h : H) (metadata : option string) (req : InterceptRequest)
    : option InterceptResponse * list NetEvent * H :=
  match hook_raw_request req with
  | Err detail => (Some {| is_allowed := false; is_reason := detail |}, [], h)
  | Ok raw =>
      let session := hook_session metadata req in
      let '(r, effects, h) := gd_handle h raw session in
      (hook_answer <$> r, NHandle raw session :: (NEffect <$> effects), h)
  end.

End Hooks.

(** ** Facts *)

(** A socket that is in the way is never removed: [bind] fails, or the socket had
    disappeared. *)
Lemma socket_never_replaced path env r removed :
  be_entry env = EntrySocket → unix_bind path env = (r, removed) →
  removed = false ∧ (r = Ok tt → be_probe env = ProbeNotFound).
Proof.
  intros He. unfold unix_bind. rewrite He. unfold refuse_existing_socket.
  destruct (be_probe env); intros [= <- <-]; done.
Qed.

Section HookFacts.
Context {HC : HttpCrate} {HV : HeaderValueParse} {MP : MethodParse} {H : Type} {G : Guard H}.

(** What a request over the socket is judged as: its method, path and headers, the
    authority its [Host] names, or else its target, over plain HTTP. *)
Definition judged_as (req : Request) (raw : RawRequest) : Prop :=
  rq_method raw = hr_method req ∧ rq_path raw = default "/" (uri_path_and_query (hr_uri req)) ∧
  rq_headers raw = hr_headers req ∧ rq_is_https raw = false ∧
  named_authority req = Ok (Some (rq_host raw)).

(** A request over the socket is refused by the interceptor, with no trace, or is
    handled once, as it was read, and answered as the handler says. *)
Theorem unix_mediated h req body reply events h' :
  unix_handle_request h req body = (reply, events, h') →
  (∃ detail, reply = Some (RText 403 detail) ∧ events = [] ∧ h' = h) ∨
  ∃ raw session r effects,
    judged_as req raw ∧ gd_handle h raw session = (r, effects, h') ∧ reply = respond <$> r ∧
    events = NHandle raw session :: (NEffect <$> effects).
Proof.
  unfold unix_handle_request, unix_build_raw_request.
  destruct (named_authority req) as [[host|]|detail] eqn:Hn; cbn;
    [|intros [= <- <- <-]; left; by eexists..].
  destruct body as [bytes|e]; cbn; [|intros [= <- <- <-]; left; by eexists].
  destruct (get_firma_session_id _) as [session|detail]; [|intros [= <- <- <-]; left; by eexists].
  unfold handle_raw. destruct (gd_handle _ _ _) as [[r effects] h1] eqn:Hg. intros [= <- <- <-]. right.
  eexists _, _, r, effects. split; [|done]. by repeat split.
Qed.

(** The hook allows an action only when the handler forwarded it. *)
Theorem hook_allows_forwarded h metadata req answer events h' :
  intercept h metadata req = (Some answer, events, h') → is_allowed answer = true →
  ∃ raw session response effects,
    hook_raw_request req = Ok raw ∧ gd_handle h raw session = (Some response, effects, h') ∧
    forwarded response = true ∧ events = NHandle raw session :: (NEffect <$> effects).
Proof.
  unfold intercept. destruct (hook_raw_request req) as [raw|detail]; [|by intros [= <- <- <-]].
  destruct (gd_handle _ _ _) as [[r effects] h1] eqn:Hg. intros [= Hr <- <-] Ha.
  destruct r as [response|]; [|done]. injection Hr as <-.
  exists raw, (hook_session metadata req), response, effects. split_and!; [done|done| |done].
  by destruct response.
Qed.

End HookFacts.

Section HandlerHooks.
Context {HC : HttpCrate} {SJ : SerdeJson} {UN : UnicodeNfc} {FU : FormUrlencoded}
  {PJ : ParamsJson} {TV : TokenVerifier} {RS : Type} {RSt : RevocationStore RS}
  {SH : Sha256} {St : Type} {SS : SessionStateStore St}
  {P : Type} {PE : PolicyEvaluation P} {Q : Type} {QE : PolicyEvaluation Q}
  {JT : JsonTree} {UP : UrlParse} {MIP : MimeParse} {BC : BodyCodecs}
  {AC : AhoCorasick} {JU : JsonUnescape} {QX : QuickXml} {SE : SecretEncoders}
  {PP : PlaceholderParse} {M : Type} {SX : SecretExtract M}
  {HV : HeaderValueParse} {MP : MethodParse}.

(** A response the handler forwards is that of a call it made. *)
Lemma handle_forwards (h : RequestHandler (P := P) (Q := Q) M) env st request session r effects st' :
  handle h env st request session = (Some r, effects, st') → forwarded r = true →
  ∃ view, EDispatch view ∈ effects.
Proof.
  unfold handle. destruct (handle_composio h env st request session) as [[[r0 es] st0]|] eqn:Hc.
  - intros [= <- <- <-]. unfold handle_composio in Hc. destruct (rh_composio_catalogs h) as [catalogs|]; [|done].
    simpl in Hc. destruct (decode (en_now env) request catalogs) as [| |actions|denial]; [done|..].
    + pose proof (composio_passthrough_runs anything h env request session (λ _ _ _ _ _ _, I)) as Hp.
      destruct (handle_composio_passthrough h env request session). simplify_eq. apply Hp.
    + pose proof (composio_actions_runs anything h env st request session actions (λ _ _ _, I)) as Hp.
      destruct (handle_composio_actions _ _ _ _ _ _) as [[r' es'] st'']. simplify_eq. apply Hp.
    + by simplify_eq.
  - destruct (enforce _ _ _ _ _ _) as [[d a] st0].
    pose proof (handle_enforced_runs anything h env d a request) as Hp.
    destruct (handle_enforced h env d a request) as [[[r0 a0]|] es]; [|done].
    intros [= <- <- <-] Hf. destruct Hp as [_ Hp]; [done|done|]. destruct (Hp r0 a0 eq_refl Hf) as [view Hv].
    exists view. apply elem_of_app. by left.
Qed.

(** An action the hook allows has already been performed: its answer comes after
    the call of the sidecar, whose response it does not carry. *)
Lemma hook_allowed_already_sent (g : SharedHandler (P := P) (Q := Q) (M := M)) metadata req answer events g' :
  intercept g metadata req = (Some answer, events, g') → is_allowed answer = true →
  ∃ view, NEffect (EDispatch view) ∈ events.
Proof.
  intros Hi Ha. destruct (hook_allows_forwarded _ _ _ _ _ _ Hi Ha) as (raw & s & r & es & _ & Hg & Hf & ->).
  cbn in Hg. unfold sh_call in Hg. destruct (handle _ _ _ _ _) as [[o es'] st] eqn:E. injection Hg as -> -> <-.
  destruct (handle_forwards _ _ _ _ _ _ _ _ E Hf) as [view Hv]. exists view.
  apply elem_of_cons. right. by apply list_elem_of_fmap_2.
Qed.

End HandlerHooks.

(** ** Sample inputs *)

Module Samples.

#[local] Existing Instance InterceptHosts.Samples.grammar_http.
#[local] Existing Instance InterceptHttp.Samples.host_guard.
#[local] Existing Instance InterceptHttp.Samples.any_value.

(** A request without a host is refused without an audit payload. *)
Example malformed_unaudited :
  unix_handle_request ["api.example.com"]
    {| hr_method := "GET"; hr_uri := {| uri_text := "/v1"; uri_scheme := None; uri_authority := None;
         uri_host := None; uri_port_u16 := None; uri_path_and_query := Some "/v1" |};
       hr_headers := hm_from_iter [] |} (Ok "") =
  (Some (RText 403 MISSING_HOST), [], ["api.example.com"]).
Proof. by vm_compute. Qed.

End Samples.
