(* ===== verification/SecretMatcher.v ===== *)
(** * Secret matchers ([firma-secret-provider/src/matcher])

    How the secrets of a vault's output are found and replaced: the JSON matcher
    ([matcher/json.rs]), the regex matcher ([matcher/regex.rs]), the domains a
    secret is scoped to ([matcher/domain.rs]) and the configuration they are
    compiled from ([firma-config-schema/src/secret_matcher.rs]).  The [mint]
    callback is a function on a state of the caller's choice, and every rewrite
    returns the state it leaves.

    [serde_json_path], [regex], [http] and the JSON pointers of [serde_json] are
    parameters, with what their documentation promises of a location, a pointer
    and a match as laws. *)

From S2P Require Import Prelude RustStr Core Mapping MappingHost Json Redaction SecretRewrite SecretProvider.

#[local] Open Scope string_scope.
#[local] Open Scope nat_scope.

(** ** Configuration *)

Inductive SecretJsonSelectorScope := ScopeRecord | ScopeDocument.

Record SecretJsonSelector := { sj_path : string; sj_scope : SecretJsonSelectorScope }.

Inductive SecretNameSource := NamePath (path : string) | NameRecordKey.

Inductive SecretMatcher :=
| MatchJson (record_path value_path : string) (name : SecretNameSource)
    (item_selector domain_selector : option SecretJsonSelector)
| MatchRegex (pattern : string).

(** ** Parameters *)

(** A normalized path of [serde_json_path]: the keys and indices from the root. *)
Inductive Segment := SName (key : string) | SIndex (index : nat).
Abbreviation Location := (list Segment).

#[export] Instance segment_eq_dec : EqDecision Segment.
Proof. solve_decision. Defined.

Class JsonPathCrate := {
  JsonPath : Type;
  (** [JsonPath::parse]; the error is its [Display] *)
  jp_parse : string → Result JsonPath string;
  jp_query : JsonPath → Json → list Json;
  jp_query_located : JsonPath → Json → list (Location * Json);
  (** [NormalizedPath::to_json_pointer] *)
  to_json_pointer : Location → string;
}.

(** [root.pointer_mut(pointer)] followed by the assignment of the slot, when
    there is one. *)
Class JsonPointer := json_pointer_set : string → Json → Json → Json.

(** [serde_json::to_vec] of a value. *)
Class SerdeJsonWrite := json_to_vec : Json → Result string string.

(** [Uri::from_str], as the authority of the result. *)
Class UriCrate := uri_from_str : string → Result (option Authority) string.

(** A match of [regex]: the span of the whole match, and of each named group
    that took part in it. *)
Record Captures := { cap_span : Range; cap_named : list (string * Range) }.

Class RegexCrate := {
  Regex : Type;
  (** [Regex::new]; the error is its [Display] *)
  re_new : string → Result Regex string;
  re_capture_names : Regex → list (option string);
  re_captures_iter : Regex → string → list Captures;
}.

(** ** Errors ([matcher/error.rs]) *)

Inductive MatcherError :=
| MJsonPath (path reason : string)
| MRegex (error : string)
| MMissingGroup (missing found : string)
| MEmptyGroup (group : string)
| MJson (error : string)
| MNotUtf8
| MNoRecords
| MRecordSelectorMatchCount (selector : string) (record_index matches : nat)
| MDocumentSelectorMatchCount (selector : string) (matches : nat)
| MNonStringNode (selector : string) (record_index : nat)
| MEmptyNode (selector : string) (record_index : nat)
| MRecordKeyUnavailable (record_index : nat)
| MSerialize (error : string)
| MInvalidUri (uri error : string)
| MNoHostInUri (uri : string)
| MNoMatches
| MNoDomainMatched.

Definition show_nat (n : nat) : string := display_uint (Z.of_nat n).

(** [Display] of [MatcherError]. *)
Definition matcher_error_display (e : MatcherError) : string :=
  match e with
  | MJsonPath path reason => "invalid JSONPath `" +:+ path +:+ "`: " +:+ reason
  | MRegex error => "invalid regex: " +:+ error
  | MMissingGroup missing found =>
      "regex matcher must contain a named `" +:+ missing +:+ "` capture group, found " +:+ found
  | MEmptyGroup group => "regex matches an empty capture group: `" +:+ group +:+ "`"
  | MJson error => "vault output is not valid JSON: " +:+ error
  | MNotUtf8 => "vault output is not valid UTF-8"
  | MNoRecords => "json matcher record_path selected no records"
  | MRecordSelectorMatchCount selector record_index matches =>
      "json matcher " +:+ selector +:+ " selected " +:+ show_nat matches +:+ " node(s) in record " +:+
      show_nat record_index +:+ "; expected exactly one"
  | MDocumentSelectorMatchCount selector matches =>
      "json matcher " +:+ selector +:+ " selected " +:+ show_nat matches +:+
      " document node(s); expected at most one"
  | MNonStringNode selector record_index =>
      "json matcher " +:+ selector +:+ " selected a non-string node in record " +:+
      show_nat record_index
  | MEmptyNode selector record_index =>
      "json matcher " +:+ selector +:+ " selected a whitespace string in record " +:+
      show_nat record_index
  | MRecordKeyUnavailable record_index =>
      "json matcher name (record_key) has no parent key in record " +:+ show_nat record_index
  | MSerialize error => "failed to serialize rewritten output: " +:+ error
  | MInvalidUri uri error => "invalid uri " +:+ uri +:+ ": " +:+ error
  | MNoHostInUri uri => "no host uri " +:+ uri
  | MNoMatches => "no matches"
  | MNoDomainMatched => "no domain matched"
  end.

(** ** Small pieces of the standard library *)

(** [iter().enumerate().map(f).collect::<Result<Vec<_>, _>>()]. *)
Fixpoint try_imap {A B E} (f : nat → A → Result B E) (i : nat) (l : list A) : Result (list B) E :=
  match l with
  | [] => Ok []
  | x :: l => let? y := f i x in let? ys := try_imap f (S i) l in Ok (y :: ys)
  end.

(** [str::replace] of a pattern of two bytes. *)
Fixpoint replace2 (a b : ascii) (by_ : string) (s : string) : string :=
  match s with
  | EmptyString => ""
  | String c rest =>
      match rest with
      | String d tail =>
          if bool_decide (c = a ∧ d = b) then by_ +:+ replace2 a b by_ tail
          else String c (replace2 a b by_ rest)
      | EmptyString => s
      end
  end.

(** [NonEmptyStr::new]. *)
Definition non_empty_str (value : string) : option string :=
  let value := trim value in if is_empty value then None else Some value.

(** A [HashSet<Authority>]: authorities compare without case. *)
Definition hs_contains (a : Authority) (set : list Authority) : bool :=
  existsb (eq_ignore_ascii_case a) set.

Definition hs_insert (set : list Authority) (a : Authority) : list Authority :=
  if hs_contains a set then set else (set ++ [a])%list.

Definition hs_collect (l : list Authority) : list Authority := fold_left hs_insert l [].

(** ** Domains ([matcher/domain.rs]) *)

Section Domain.
Context {HC : HttpCrate} {UC : UriCrate}.

(** [remove_credentials]. *)
Definition remove_credentials (authority : Authority) : Result Authority string :=
  match split_once "@"%char authority with
  | None => Ok authority
  | Some (_, domain) => authority_from_str domain
  end.

(** [credentials.find("://")], the text up to and including it. *)
Fixpoint scheme_of (s : string) : string :=
  match s with
  | EmptyString => ""
  | String c rest =>
      if starts_with "://" s then "://"
      else match scheme_of rest with EmptyString => "" | scheme => String c scheme end
  end.

(** [redact_input_for_error]. *)
Definition redact_input_for_error (url : string) : string :=
  let url := match split_once "?"%char url with Some (base, _) => base | None => url end in
  match split_once "@"%char url with
  | None => url
  | Some (credentials, domain) => scheme_of credentials +:+ domain
  end.

(** The [map_err] of a URI that does not parse. *)
Definition invalid_uri {A} (url : string) (r : Result A string) : Result A MatcherError :=
  map_err (MInvalidUri (redact_input_for_error url)) r.

(** [parse_authority]. *)
Definition parse_authority (url : string) : Result Authority MatcherError :=
  match authority_from_str url with
  | Ok authority => invalid_uri url (remove_credentials authority)
  | Err _ =>
      let? uri := invalid_uri url (uri_from_str url) in
      let? authority := ok_or uri (MNoHostInUri (redact_input_for_error url)) in
      invalid_uri url (remove_credentials authority)
  end.

End Domain.

(** ** The [mint] callback *)

Record MintRequest := {
  mr_name : string;
  mr_secret : string;
  mr_domains : list Authority;
  mr_item : option string;
}.

(** ** JSON ([matcher/json.rs]) *)

Section Json.
Context {HC : HttpCrate} {UC : UriCrate}.
Context {JP : JsonPathCrate} {PT : JsonPointer} {SJ : SerdeJson} {SW : SerdeJsonWrite}.

Inductive CompiledName := CnPath (path : JsonPath) | CnRecordKey.

Record CompiledJsonSelector := { cs_path : JsonPath; cs_scope : SecretJsonSelectorScope }.

Record CompiledJsonMatcher := {
  jm_record : JsonPath;
  jm_value : JsonPath;
  jm_name : CompiledName;
  jm_item : option CompiledJsonSelector;
  jm_domain : option CompiledJsonSelector;
}.

Record JsonRecord := { jr_pointer : string; jr_node : Json }.
Record ValueHit := { vh_pointer : string; vh_value : string }.

(** [parse_path]. *)
Definition parse_path (path : string) : Result JsonPath MatcherError :=
  map_err (MJsonPath path) (jp_parse path).

(** [CompiledName::compile]. *)
Definition compile_name (source : SecretNameSource) : Result CompiledName MatcherError :=
  match source with
  | NamePath path => let? path := parse_path path in Ok (CnPath path)
  | NameRecordKey => Ok CnRecordKey
  end.

(** [CompiledJsonSelector::compile], under [Option::map] and [transpose]. *)
Definition compile_selector (selector : option SecretJsonSelector)
    : Result (option CompiledJsonSelector) MatcherError :=
  match selector with
  | None => Ok None
  | Some s => let? path := parse_path (sj_path s) in
              Ok (Some {| cs_path := path; cs_scope := sj_scope s |})
  end.

(** [CompiledJsonMatcher::compile]. *)
Definition compile_json (record_path value_path : string) (name : SecretNameSource)
    (item_selector domain_selector : option SecretJsonSelector)
    : Result CompiledJsonMatcher MatcherError :=
  let? record := parse_path record_path in
  let? value := parse_path value_path in
  let? name := compile_name name in
  let? item := compile_selector item_selector in
  let? domain := compile_selector domain_selector in
  Ok {| jm_record := record; jm_value := value; jm_name := name;
        jm_item := item; jm_domain := domain |}.

(** [one_record_node]. *)
Definition one_record_node (path : JsonPath) (record : JsonRecord) (selector : string)
    (record_index : nat) : Result (Json * string) MatcherError :=
  match jp_query_located path (jr_node record) with
  | [(location, node)] =>
      let relative := to_json_pointer location in
      Ok (node,
          match is_empty (jr_pointer record), is_empty relative with
          | true, _ => relative
          | _, true => jr_pointer record
          | false, false => jr_pointer record +:+ relative
          end)
  | located => Err (MRecordSelectorMatchCount selector record_index (length located))
  end.

(** [record_key_name]. *)
Definition record_key_name (record : JsonRecord) (record_index : nat)
    : Result string MatcherError :=
  if is_empty (jr_pointer record) then Err (MRecordKeyUnavailable record_index)
  else
    let segment := match rsplit_once "/"%char (jr_pointer record) with
                   | Some (_, segment) => segment
                   | None => jr_pointer record
                   end in
    let name := replace2 "~"%char "0"%char "~" (replace2 "~"%char "1"%char "/" segment) in
    ok_or (non_empty_str name) (MEmptyNode "name" record_index).

(** [CompiledJsonSelector::resolve_optional]. *)
Definition resolve_optional {T} (selector : CompiledJsonSelector) (root : Json)
    (records : list JsonRecord) (selector_name : string)
    (validate : string → string → nat → Result T MatcherError)
    : Result (list (option T)) MatcherError :=
  let checked (node : Json) (record_index : nat) : Result (option T) MatcherError :=
    match json_as_str node with
    | None => Ok None
    | Some s => let? v := validate s selector_name record_index in Ok (Some v)
    end in
  match cs_scope selector with
  | ScopeRecord =>
      try_imap (λ record_index record,
        let? (node, _) := one_record_node (cs_path selector) record selector_name record_index in
        checked node record_index) 0 records
  | ScopeDocument =>
      match jp_query (cs_path selector) root with
      | [] => Ok (repeat None (length records))
      | [node] => let? value := checked node 0 in Ok (repeat value (length records))
      | nodes => Err (MDocumentSelectorMatchCount selector_name (length nodes))
      end
  end.

(** The nodes of a domain selector at one root, as a set; [resolve_many] with
    [T := Authority] and [validate := parse_authority]. *)
Definition domain_set (selector_name : string) (record_index : nat) (nodes : list Json)
    : Result (list Authority) MatcherError :=
  let? domains :=
    try_imap (λ _ node,
      match json_as_str node with
      | None => Err (MNonStringNode selector_name record_index)
      | Some s => parse_authority s
      end) 0 nodes in
  match hs_collect domains with
  | [] => Err MNoDomainMatched
  | set => Ok set
  end.

(** [CompiledJsonSelector::resolve_many]. *)
Definition resolve_many (selector : CompiledJsonSelector) (root : Json)
    (records : list JsonRecord) (selector_name : string)
    : Result (list (list Authority)) MatcherError :=
  match cs_scope selector with
  | ScopeRecord =>
      try_imap (λ record_index record,
        domain_set selector_name record_index (jp_query (cs_path selector) (jr_node record)))
        0 records
  | ScopeDocument =>
      let? values := domain_set selector_name 0 (jp_query (cs_path selector) root) in
      Ok (repeat values (length records))
  end.

(** The records, the value hits and the names, as [rewrite] computes them. *)
Definition json_records (m : CompiledJsonMatcher) (root : Json) : list JsonRecord :=
  (λ '(location, node), {| jr_pointer := to_json_pointer location; jr_node := node |})
    <$> jp_query_located (jm_record m) root.

Definition value_hit (m : CompiledJsonMatcher) (record_index : nat) (record : JsonRecord)
    : Result ValueHit MatcherError :=
  let? (node, pointer) := one_record_node (jm_value m) record "value_path" record_index in
  let? value := ok_or (json_as_str node) (MNonStringNode "value_path" record_index) in
  Ok {| vh_pointer := pointer; vh_value := value |}.

Definition record_name (m : CompiledJsonMatcher) (record_index : nat) (record : JsonRecord)
    : Result string MatcherError :=
  match jm_name m with
  | CnPath path =>
      let? (node, _) := one_record_node path record "name" record_index in
      let? node := ok_or (json_as_str node) (MNonStringNode "name" record_index) in
      ok_or (non_empty_str node) (MEmptyNode "name" record_index)
  | CnRecordKey => record_key_name record record_index
  end.

Definition validate_item (item selector : string) (record_index : nat)
    : Result string MatcherError :=
  ok_or (non_empty_str item) (MEmptyNode selector record_index).

(** Everything [rewrite] resolves and validates before it mints. *)
Definition json_extract (m : CompiledJsonMatcher) (root : Json)
    : Result (list (ValueHit * string * option string * list Authority)) MatcherError :=
  let records := json_records m root in
  match records with
  | [] => Err MNoRecords
  | _ =>
      let? value_hits := try_imap (value_hit m) 0 records in
      let? names := try_imap (record_name m) 0 records in
      let? items :=
        match jm_item m with
        | None => Ok (repeat None (length records))
        | Some selector => resolve_optional selector root records "item_selector" validate_item
        end in
      let? domains :=
        match jm_domain m with
        | None => Ok (repeat [] (length records))
        | Some selector => resolve_many selector root records "domain_selector"
        end in
      Ok (zip (zip (zip value_hits names) items) domains)
  end.

Section Mint.
Context {S : Type} (mint : S → MintRequest → string * S).

(** The loop that mints and substitutes. *)
Fixpoint json_mint_loop (hits : list (ValueHit * string * option string * list Authority))
    (root : Json) (s : S) : Json * S :=
  match hits with
  | [] => (root, s)
  | (hit, name, item, domain) :: hits =>
      let '(placeholder, s) :=
        mint s {| mr_name := name; mr_secret := vh_value hit; mr_domains := domain;
                  mr_item := item |} in
      json_mint_loop hits (json_pointer_set (vh_pointer hit) (JString placeholder) root) s
  end.

(** [CompiledJsonMatcher::rewrite]. *)
Definition json_rewrite (m : CompiledJsonMatcher) (output : string) (s : S)
    : Result string MatcherError * S :=
  match map_err MJson (json_from_slice output) with
  | Err e => (Err e, s)
  | Ok root =>
      match json_extract m root with
      | Err e => (Err e, s)
      | Ok hits =>
          let '(root, s) := json_mint_loop hits root s in
          (map_err MSerialize (json_to_vec root), s)
      end
  end.

End Mint.
End Json.

(** ** Regex ([matcher/regex.rs]) *)

Section RegexMatcher.
Context {HC : HttpCrate} {UC : UriCrate} {RX : RegexCrate}.

Definition NAME : string := "name".
Definition VALUE : string := "value".
Definition DOMAIN : string := "domain".

Record CompiledRegexMatcher := { rm_pattern : Regex }.

(** [caps.name(group)], and [as_str] of a match. *)
Definition cap_name (caps : Captures) (group : string) : option Range :=
  snd <$> find (λ '(n, _), bool_decide (n = group)) (cap_named caps).

Definition cap_str (text : string) (r : Range) : string :=
  str_take (range_end r - range_start r) (str_drop (range_start r) text).

(** [CompiledRegexMatcher::groups]. *)
Definition groups (m : CompiledRegexMatcher) (caps : option (string * Captures)) : list string :=
  let names := omap id (re_capture_names (rm_pattern m)) in
  match caps with
  | None => names
  | Some (text, caps) =>
      List.filter (λ name, match cap_name caps name with
                           | Some cap => negb (is_empty (trim (cap_str text cap)))
                           | None => false
                           end) names
  end.

(** [CompiledRegexMatcher::compile]. *)
Definition compile_regex (pattern : string) : Result CompiledRegexMatcher MatcherError :=
  let? pattern := map_err MRegex (re_new pattern) in
  let m := {| rm_pattern := pattern |} in
  let groups := groups m None in
  if negb (bool_decide (VALUE ∈ groups)) then Err (MMissingGroup VALUE (join ", " groups))
  else if negb (bool_decide (NAME ∈ groups)) then Err (MMissingGroup NAME (join ", " groups))
  else Ok m.

(** One capture: the span of its value, and what is minted for it. *)
Definition regex_hit (m : CompiledRegexMatcher) (text : string) (has_domain : bool)
    (caps : Captures) : Result (Range * MintRequest) MatcherError :=
  let found := join ", " (groups m (Some (text, caps))) in
  let? value := ok_or (cap_name caps VALUE) (MMissingGroup VALUE found) in
  let? name := ok_or (cap_name caps NAME) (MMissingGroup NAME found) in
  let? name := ok_or (non_empty_str (cap_str text name)) (MEmptyGroup NAME) in
  let? domains :=
    match cap_name caps DOMAIN with
    | Some r => let? domain := parse_authority (cap_str text r) in Ok (hs_insert [] domain)
    | None => if has_domain then Err MNoDomainMatched else Ok []
    end in
  Ok (value, {| mr_name := name; mr_secret := cap_str text value; mr_domains := domains;
                mr_item := None |}).

(** [Item]. *)
Inductive RegexItem := ItemStr (s : string) | ItemMint (request : MintRequest).

(** The loop over the captures: the items and [last]. *)
Fixpoint regex_items (m : CompiledRegexMatcher) (text : string) (has_domain : bool)
    (last : nat) (items : list RegexItem) (captures : list Captures)
    : Result (list RegexItem * nat) MatcherError :=
  match captures with
  | [] => Ok (items, last)
  | caps :: captures =>
      let? (value, request) := regex_hit m text has_domain caps in
      regex_items m text has_domain (range_end value)
        (items ++ [ItemStr (cap_str text (mk_range last (range_start value))); ItemMint request])%list
        captures
  end.

Section Mint.
Context {S : Type} (mint : S → MintRequest → string * S).

(** The [flat_map] that mints. *)
Fixpoint render_items (items : list RegexItem) (s : S) : string * S :=
  match items with
  | [] => ("", s)
  | ItemStr str :: items =>
      let '(rest, s) := render_items items s in (str +:+ rest, s)
  | ItemMint request :: items =>
      let '(placeholder, s) := mint s request in
      let '(rest, s) := render_items items s in (placeholder +:+ rest, s)
  end.

(** [CompiledRegexMatcher::rewrite]. *)
Definition regex_rewrite (m : CompiledRegexMatcher) (output : string) (s : S)
    : Result string MatcherError * S :=
  if negb (utf8_valid output) then (Err MNotUtf8, s)
  else
    let has_domain := existsb (λ name, bool_decide (name = Some DOMAIN))
                        (re_capture_names (rm_pattern m)) in
    match regex_items m output has_domain 0 [] (re_captures_iter (rm_pattern m) output) with
    | Err e => (Err e, s)
    | Ok (items, last) =>
        if Nat.eqb last 0 then (Err MNoMatches, s)
        else
          let '(out, s) := render_items (items ++ [ItemStr (str_drop last output)])%list s in
          (Ok out, s)
    end.

End Mint.
End RegexMatcher.

(** ** [CompiledMatcher] ([matcher/mod.rs]) *)

Section Compiled.
Context {HC : HttpCrate} {UC : UriCrate} {RX : RegexCrate}.
Context {JP : JsonPathCrate} {PT : JsonPointer} {SJ : SerdeJson} {SW : SerdeJsonWrite}.

Inductive CompiledMatcher :=
| KindJson (m : CompiledJsonMatcher)
| KindRegex (m : CompiledRegexMatcher).

(** [CompiledMatcher::compile]. *)
Definition compile_matcher (spec : SecretMatcher) : Result CompiledMatcher MatcherError :=
  match spec with
  | MatchJson record_path value_path name item_selector domain_selector =>
      let? m := compile_json record_path value_path name item_selector domain_selector in
      Ok (KindJson m)
  | MatchRegex pattern => let? m := compile_regex pattern in Ok (KindRegex m)
  end.

(** [CompiledMatcher::rewrite]. *)
Definition compiled_rewrite {S} (mint : S → MintRequest → string * S) (m : CompiledMatcher)
    (output : string) (s : S) : Result string MatcherError * S :=
  match m with
  | KindJson m => json_rewrite mint m output s
  | KindRegex m => regex_rewrite mint m output s
  end.

(** [MatcherRule::compile], [PathAndMatcher::compile] and
    [HttpIntegrationSpec::compile]. *)
Definition compile_matcher_rule {A A' B} (compile : A → Result A' MatcherError) (rule : MatcherRule A B)
    : Result (MatcherRule A' B) MatcherError :=
  match rule with
  | SensitiveCommand a => let? a := compile a in Ok (SensitiveCommand a)
  | SafeCommand b => Ok (SafeCommand b)
  | BlockedCommand b => Ok (BlockedCommand b)
  end.

Definition compile_path (p : PathAndMatcher SecretMatcher)
    : Result (PathAndMatcher CompiledMatcher) MatcherError :=
  let? matcher := compile_matcher (pm_matcher p) in
  Ok {| pm_path := pm_path p; pm_matcher := matcher |}.

Definition compile_http_spec (spec : HttpIntegrationSpec SecretMatcher)
    : Result (HttpIntegrationSpec CompiledMatcher) MatcherError :=
  let? matchers := try_imap (λ _, compile_matcher_rule compile_path) 0 (hi_matchers spec) in
  Ok {| hi_provider_id := hi_provider_id spec; hi_host := hi_host spec; hi_matchers := matchers |}.

End Compiled.

(** ** Locations and pointers *)

Fixpoint loc_get (loc : Location) (j : Json) : option Json :=
  match loc with
  | [] => Some j
  | SName k :: loc => match j with JObject m => m !! k ≫= loc_get loc | _ => None end
  | SIndex i :: loc => match j with JArray l => l !! i ≫= loc_get loc | _ => None end
  end.

Fixpoint loc_set (loc : Location) (v : Json) (j : Json) : Json :=
  match loc with
  | [] => v
  | SName k :: loc =>
      match j with
      | JObject m => match m !! k with
                     | Some c => JObject (<[k := loc_set loc v c]> m)
                     | None => j
                     end
      | _ => j
      end
  | SIndex i :: loc =>
      match j with
      | JArray l => match l !! i with
                    | Some c => JArray (<[i := loc_set loc v c]> l)
                    | None => j
                    end
      | _ => j
      end
  end.

(** The text of a location as RFC 6901 writes it. *)
Fixpoint escape_token (s : string) : string :=
  match s with
  | EmptyString => ""
  | String c s =>
      (if bool_decide (c = "~"%char) then "~0"
       else if bool_decide (c = "/"%char) then "~1" else String c "") +:+ escape_token s
  end.

Definition segment_text (seg : Segment) : string :=
  match seg with SName k => escape_token k | SIndex i => show_nat i end.

Fixpoint rfc6901 (loc : Location) : string :=
  match loc with [] => "" | seg :: loc => "/" +:+ segment_text seg +:+ rfc6901 loc end.

(** What the documentation of [serde_json_path] and of [serde_json] promises:
    a located node is where its location says, its pointer is that location's,
    and a pointer to an existing node reaches that node. *)
Class JsonPathLaws (JP : JsonPathCrate) := {
  jp_query_nodes p j : jp_query p j = snd <$> jp_query_located p j;
  jp_located p j loc n : (loc, n) ∈ jp_query_located p j → loc_get loc j = Some n;
  pointer_rfc6901 loc : to_json_pointer loc = rfc6901 loc;
}.

Class JsonPointerLaws (PT : JsonPointer) :=
  pointer_set_spec loc v j n :
    loc_get loc j = Some n → json_pointer_set (rfc6901 loc) v j = loc_set loc v j.

Lemma rfc6901_app l l' : rfc6901 (l ++ l')%list = rfc6901 l +:+ rfc6901 l'.
Proof. induction l as [|seg l IH]; [done|]. simpl. by rewrite IH, str_app_assoc. Qed.

Lemma rfc6901_empty l : is_empty (rfc6901 l) = bool_decide (l = []).
Proof. by destruct l. Qed.

Lemma loc_get_app l l' j : loc_get (l ++ l')%list j = loc_get l j ≫= loc_get l'.
Proof.
  revert j. induction l as [|[k|i] l IH]; intros j; [done|..]; destruct j as [| | | | |a|o]; try done; simpl.
  - destruct (o !! k); [apply IH|done].
  - destruct (a !! i); [apply IH|done].
Qed.

Lemma loc_get_set loc v j n : loc_get loc j = Some n → loc_get loc (loc_set loc v j) = Some v.
Proof.
  revert j. induction loc as [|[k|i] loc IH]; intros j; [done|..]; destruct j as [| | | | |a|o]; try done; simpl.
  - destruct (o !! k) as [c|] eqn:E; [|done]. simpl. rewrite lookup_insert_eq. apply IH.
  - destruct (a !! i) as [c|] eqn:E; [|done]. simpl. rewrite list_lookup_insert_eq; [apply IH|].
    by apply lookup_lt_Some in E.
Qed.

(** Replacing a string by a string leaves every node but its ancestors. *)
Lemma loc_get_set_other loc q x v j :
  loc_get loc j = Some (JString x) → ¬ q `prefix_of` loc →
  loc_get q (loc_set loc (JString v) j) = loc_get q j.
Proof.
  revert q j. induction loc as [|seg loc IH]; intros q j Hg Hq.
  { simpl in *. injection Hg as ->. destruct q as [|[] q]; [|done..]. exfalso. by apply Hq. }
  destruct q as [|seg' q]; [exfalso; apply Hq, prefix_nil|].
  assert (∀ c, seg' = seg → loc_get loc c = Some (JString x) →
    loc_get q (loc_set loc (JString v) c) = loc_get q c) as IHq.
  { intros c -> Hc. apply (IH q c Hc). by intros Hp%(prefix_cons seg). }
  destruct seg as [k|i], j as [| | | | |a|o]; simpl in Hg; try done; simpl.
  - destruct (o !! k) as [c|] eqn:E; [|done]. destruct seg' as [k'|i']; simpl; [|done].
    destruct (decide (k = k')) as [<-|Hne]; [|by rewrite lookup_insert_ne].
    rewrite lookup_insert_eq, E. by apply IHq.
  - destruct (a !! i) as [c|] eqn:E; [|done]. destruct seg' as [k'|i']; simpl; [done|].
    destruct (decide (i = i')) as [<-|Hne]; [|by rewrite list_lookup_insert_ne].
    rewrite list_lookup_insert_eq by (by apply lookup_lt_Some in E). rewrite E. by apply IHq.
Qed.

(** Two string nodes are not one inside the other. *)
Lemma string_leaves loc q j x y :
  loc_get loc j = Some (JString x) → loc_get q j = Some (JString y) → q `prefix_of` loc → q = loc.
Proof.
  intros Hl Hq [rest ->]. rewrite loc_get_app, Hq in Hl. simpl in Hl.
  destruct rest as [|[] rest]; [by rewrite app_nil_r|done..].
Qed.

(** The unescaping of [record_key_name] undoes the escaping of a key. *)
Fixpoint half_escaped (s : string) : string :=
  match s with
  | EmptyString => ""
  | String c s => (if bool_decide (c = "~"%char) then "~0" else String c "") +:+ half_escaped s
  end.

Lemma replace2_skip a b by_ c s : c ≠ a → replace2 a b by_ (String c s) = String c (replace2 a b by_ s).
Proof. intros Hc. destruct s; [done|]. simpl. rewrite bool_decide_false; [done|]. by intros [? _]. Qed.

Lemma unescape_slash s : replace2 "~"%char "1"%char "/" (escape_token s) = half_escaped s.
Proof.
  induction s as [|c s IH]; [done|]. simpl. case_bool_decide as Ht; subst; [|case_bool_decide; subst].
  - cbn [String.app]. rewrite <-IH. by destruct (escape_token s).
  - cbn [String.app]. by rewrite <-IH.
  - rewrite <-IH. by apply replace2_skip.
Qed.

Lemma unescape_tilde s : replace2 "~"%char "0"%char "~" (half_escaped s) = s.
Proof.
  induction s as [|c s IH]; [done|]. simpl. case_bool_decide as Ht; subst.
  - simpl. by rewrite IH.
  - cbn [String.app]. rewrite replace2_skip by done. by rewrite IH.
Qed.

Lemma escape_no_slash s : contains_char "/"%char (escape_token s) = false.
Proof.
  induction s as [|c s IH]; [done|]. simpl. case_bool_decide as H1; [by subst|].
  case_bool_decide; [by subst|]. simpl. case_bool_decide; [done|]. apply IH.
Qed.

(** The key or the index of a segment, as [record_key] reads it. *)
Definition segment_name (seg : Segment) : string :=
  match seg with SName k => k | SIndex i => show_nat i end.

Lemma escape_digits s : str_forallb is_ascii_digit s = true → escape_token s = s.
Proof.
  induction s as [|c s IH]; [done|]. cbn. intros [Hc Hs]%andb_true_iff. rewrite IH by done.
  rewrite bool_decide_eq_false_2 by (by intros ->). by rewrite bool_decide_eq_false_2 by (by intros ->).
Qed.

Lemma segment_text_name seg : segment_text seg = escape_token (segment_name seg).
Proof. destruct seg; [done|]. symmetry. apply escape_digits, display_uint_digits. Qed.

(** ** What a rewrite does *)

Lemma try_imap_spec {A B E} (f : nat → A → Result B E) l : ∀ i ys,
  try_imap f i l = Ok ys → length ys = length l ∧
  ∀ k y, ys !! k = Some y → ∃ x, l !! k = Some x ∧ f (i + k) x = Ok y.
Proof.
  induction l as [|x l IH]; intros i ys; simpl; [by intros [= <-]|].
  destruct (f i x) as [y|] eqn:Ef; [|done]. destruct (try_imap f (S i) l) as [ys'|] eqn:Et; [|done].
  intros [= <-]. destruct (IH _ _ Et) as [Hl Hk]. split; [by simpl; rewrite Hl|].
  intros [|k] z; simpl; [intros [= <-]; exists x; by rewrite Nat.add_0_r|].
  intros Hz. destruct (Hk _ _ Hz) as (x' & ? & ?). exists x'. by rewrite <-Nat.add_succ_comm.
Qed.

(** The requests of a rewrite, minted in order. *)
Fixpoint run_mints {S} (mint : S → MintRequest → string * S) (requests : list MintRequest) (s : S)
    : list string * S :=
  match requests with
  | [] => ([], s)
  | r :: requests =>
      let '(ph, s) := mint s r in
      let '(phs, s) := run_mints mint requests s in (ph :: phs, s)
  end.

Lemma run_mints_length {S} (mint : S → MintRequest → string * S) rs : ∀ s phs s',
  run_mints mint rs s = (phs, s') → length phs = length rs.
Proof.
  induction rs as [|r rs IH]; intros s phs s'; simpl; [by intros [= <- _]|].
  destruct (mint s r) as [ph s1]. destruct (run_mints mint rs s1) as [phs' s2] eqn:E.
  intros [= <- _]. simpl. by rewrite (IH _ _ _ E).
Qed.

Definition hit_request (h : ValueHit * string * option string * list Authority) : MintRequest :=
  let '(hit, name, item, domain) := h in
  {| mr_name := name; mr_secret := vh_value hit; mr_domains := domain; mr_item := item |}.

Definition hit_of (h : ValueHit * string * option string * list Authority) : ValueHit := h.1.1.1.

Lemma hs_insert_ne set a : hs_insert set a ≠ [].
Proof. unfold hs_insert, hs_contains. destruct set; [done|]. simpl. by destruct (_ || _). Qed.

Section JsonFacts.
Context {HC : HttpCrate} {UC : UriCrate}.
Context {JP : JsonPathCrate} {PT : JsonPointer} {SJ : SerdeJson} {SW : SerdeJsonWrite}.
Context {JL : JsonPathLaws JP} {PL : JsonPointerLaws PT}.

(** The record at a location of the document. *)
Definition record_at (root : Json) (loc : Location) (r : JsonRecord) : Prop :=
  jr_pointer r = rfc6901 loc ∧ loc_get loc root = Some (jr_node r).

Lemma one_record_node_spec path root loc r selector i node ptr :
  record_at root loc r → one_record_node path r selector i = Ok (node, ptr) →
  ∃ rest, jp_query_located path (jr_node r) = [(rest, node)] ∧
    ptr = rfc6901 (loc ++ rest)%list ∧ loc_get (loc ++ rest)%list root = Some node.
Proof.
  intros [Hp Hg] H. unfold one_record_node in H.
  destruct (jp_query_located path (jr_node r)) as [|[rest n] [|]] eqn:E; [done| |done].
  injection H as <- <-. exists rest. split_and!; [done| |].
  - rewrite Hp, !pointer_rfc6901, !rfc6901_empty, rfc6901_app.
    destruct loc; simpl; [done|]. case_bool_decide; [subst; by rewrite str_app_nil_r|done].
  - rewrite loc_get_app, Hg. simpl. apply (jp_located path). rewrite E. by left.
Qed.

(** The name of a record read off its key is that key, trimmed. *)
Lemma record_key_spec root loc r i name :
  record_at root loc r → record_key_name r i = Ok name →
  name ≠ "" ∧ ∃ parent seg, loc = (parent ++ [seg])%list ∧ name = trim (segment_name seg).
Proof.
  intros [Hp _] H. unfold record_key_name in H. rewrite Hp, rfc6901_empty in H.
  destruct (bool_decide_reflect (loc = [])) as [|Hne]; [done|].
  destruct (exists_last Hne) as (parent & seg & ->). rewrite rfc6901_app in H. cbn [rfc6901] in H.
  rewrite segment_text_name, str_app_nil_r in H.
  change (rfc6901 parent +:+ ("/" +:+ escape_token (segment_name seg)))
    with (rfc6901 parent +:+ String "/" (escape_token (segment_name seg))) in H.
  rewrite rsplit_once_app in H by apply escape_no_slash.
  rewrite unescape_slash, unescape_tilde in H. unfold non_empty_str in H.
  destruct (is_empty (trim _)) eqn:E; [done|]. injection H as <-.
  apply bool_decide_eq_false in E. split; [done|]. by exists parent, seg.
Qed.

Lemma json_records_at m root k r :
  json_records m root !! k = Some r →
  ∃ loc, jp_query_located (jm_record m) root !! k = Some (loc, jr_node r) ∧ record_at root loc r.
Proof.
  unfold json_records. rewrite list_lookup_fmap. intros (lr & Hk & ->)%fmap_Some.
  destruct lr as [loc n]. exists loc. split; [done|]. split; simpl; [apply pointer_rfc6901|].
  eapply jp_located, list_elem_of_lookup_2, Hk.
Qed.

(** The name of a record as the matcher's configuration says it. *)
Definition named_as (m : CompiledJsonMatcher) (rloc : Location) (record : Json) (name : string) : Prop :=
  name ≠ "" ∧
  match jm_name m with
  | CnPath path => ∃ loc text, jp_query_located path record = [(loc, JString text)] ∧ name = trim text
  | CnRecordKey => ∃ parent seg, rloc = (parent ++ [seg])%list ∧ name = trim (segment_name seg)
  end.

(** The item a node names: the text of a string, none of any other value. *)
Definition item_text (node : Json) (item : option string) : Prop :=
  match node with
  | JString text => trim text ≠ "" ∧ item = Some (trim text)
  | _ => item = None
  end.

Definition item_as (m : CompiledJsonMatcher) (root record : Json) (item : option string) : Prop :=
  match jm_item m with
  | None => item = None
  | Some selector =>
      match cs_scope selector with
      | ScopeRecord => ∃ loc node, jp_query_located (cs_path selector) record = [(loc, node)] ∧ item_text node item
      | ScopeDocument =>
          (jp_query (cs_path selector) root = [] ∧ item = None) ∨
          ∃ node, jp_query (cs_path selector) root = [node] ∧ item_text node item
      end
  end.

(** The domains of a record: those its selector finds, in the record or in the
    document, each a string that is a host; none without a selector. *)
Definition scoped_as (m : CompiledJsonMatcher) (root record : Json) (domains : list Authority) : Prop :=
  match jm_domain m with
  | None => domains = []
  | Some selector =>
      let nodes := jp_query (cs_path selector) match cs_scope selector with
                                               | ScopeRecord => record
                                               | ScopeDocument => root
                                               end in
      domains ≠ [] ∧
      (∀ a, a ∈ domains → ∃ text, JString text ∈ nodes ∧ parse_authority text = Ok a) ∧
      (∀ node, node ∈ nodes → ∃ text a, node = JString text ∧ parse_authority text = Ok a ∧
         hs_contains a domains = true)
  end.

(** What a matcher finds in a document: for each record of [record_path], the
    string its [value_path] selects, where it is, and what is minted for it: its
    own name, item and domains. *)
Record extracted (m : CompiledJsonMatcher) (root : Json) (locs : list Location)
    (requests : list MintRequest) : Prop := {
  ex_some : locs ≠ [];
  ex_records : length locs = length (jp_query_located (jm_record m) root);
  ex_requests : length requests = length locs;
  ex_place : ∀ k loc, locs !! k = Some loc → ∃ rloc record rest node,
    jp_query_located (jm_record m) root !! k = Some (rloc, record) ∧
    jp_query_located (jm_value m) record = [(rest, node)] ∧ loc = (rloc ++ rest)%list;
  ex_secret : ∀ k loc r, locs !! k = Some loc → requests !! k = Some r →
    loc_get loc root = Some (JString (mr_secret r));
  ex_about : ∀ k r, requests !! k = Some r → ∃ rloc record,
    jp_query_located (jm_record m) root !! k = Some (rloc, record) ∧
    named_as m rloc record (mr_name r) ∧ item_as m root record (mr_item r) ∧
    scoped_as m root record (mr_domains r);
}.

Lemma hs_insert_contains set a : hs_contains a (hs_insert set a) = true.
Proof.
  unfold hs_insert. destruct (hs_contains a set) eqn:E; [done|]. unfold hs_contains.
  rewrite existsb_app. cbn. unfold eq_ignore_ascii_case. by rewrite bool_decide_true, orb_true_r.
Qed.

Lemma hs_insert_keeps set a b : hs_contains b set = true → hs_contains b (hs_insert set a) = true.
Proof.
  intros H. unfold hs_insert. destruct (hs_contains a set); [done|]. 
  unfold hs_contains in *. rewrite existsb_app. apply orb_true_iff. by left.
Qed.

Lemma hs_collect_spec l : ∀ set,
  (∀ a, a ∈ fold_left hs_insert l set → a ∈ set ∨ a ∈ l) ∧
  (∀ a, hs_contains a set = true ∨ a ∈ l → hs_contains a (fold_left hs_insert l set) = true).
Proof.
  induction l as [|x l IH]; intros set; cbn [fold_left].
  { split; [by left|]. intros a [?|?%not_elem_of_nil]; done. }
  destruct (IH (hs_insert set x)) as [H1 H2]. split.
  - intros a [Ha|Ha]%H1; [|right; by right]. unfold hs_insert in Ha. destruct (hs_contains x set); [by left|].
    apply elem_of_app in Ha as [?|Ha]; [by left|]. apply list_elem_of_singleton in Ha as ->. right. left.
  - intros a [Ha|Hin]; [|apply elem_of_cons in Hin as [->|Ha]]; apply H2; [left; by apply hs_insert_keeps|left; apply hs_insert_contains|by right].
Qed.

Lemma domain_set_spec selector i nodes set :
  domain_set selector i nodes = Ok set →
  set ≠ [] ∧ (∀ a, a ∈ set → ∃ text, JString text ∈ nodes ∧ parse_authority text = Ok a) ∧
  (∀ node, node ∈ nodes → ∃ text a, node = JString text ∧ parse_authority text = Ok a ∧
     hs_contains a set = true).
Proof.
  unfold domain_set. destruct (try_imap _ _ _) as [domains|] eqn:E; [|done].
  apply try_imap_spec in E as [Hlen Hk].
  destruct (hs_collect domains) as [|x set0] eqn:Ec; [done|]. intros [= <-].
  destruct (hs_collect_spec domains []) as [H1 H2]. unfold hs_collect in Ec. rewrite Ec in H1, H2.
  split_and!; [done| |].
  - intros a [Ha%not_elem_of_nil|Ha]%H1; [done|]. apply list_elem_of_lookup in Ha as [k Ha].
    destruct (Hk _ _ Ha) as (node & Hn & Hp). destruct node as [| | | |text| |]; try done. exists text.
    split; [by eapply list_elem_of_lookup_2|done].
  - intros node [k Hn]%list_elem_of_lookup. destruct (lookup_lt_is_Some_2 domains k) as [a Ha].
    { rewrite Hlen. by eapply lookup_lt_Some. }
    destruct (Hk _ _ Ha) as (node' & Hn' & Hp). rewrite Hn in Hn'. injection Hn' as <-.
    destruct node as [| | | |text| |]; try done. exists text, a. split_and!; [done..|].
    apply H2. right. by eapply list_elem_of_lookup_2.
Qed.

Lemma lookup_repeat {A} (x y : A) n k : repeat x n !! k = Some y → y = x.
Proof. intros H. apply list_elem_of_lookup_2, list_elem_of_In, repeat_spec in H. done. Qed.

Lemma domains_spec m root domains :
  match jm_domain m with
  | None => Ok (repeat [] (length (json_records m root)))
  | Some selector => resolve_many selector root (json_records m root) "domain_selector"
  end = Ok domains →
  length domains = length (json_records m root) ∧
  ∀ k r d, json_records m root !! k = Some r → domains !! k = Some d → scoped_as m root (jr_node r) d.
Proof.
  unfold scoped_as, resolve_many. destruct (jm_domain m) as [selector|].
  2:{ intros [= <-]. rewrite repeat_length. split; [done|]. by intros k r d _ ->%lookup_repeat. }
  destruct (cs_scope selector).
  - intros [Hl Hk]%try_imap_spec. split; [done|]. intros k r d Hr Hd.
    destruct (Hk _ _ Hd) as (r' & Hr' & Hset). rewrite Hr in Hr'. injection Hr' as <-.
    by apply domain_set_spec in Hset.
  - destruct (domain_set _ _ _) as [d|] eqn:E; [|done]. intros [= <-]. rewrite repeat_length.
    split; [done|]. intros k r d' _ ->%lookup_repeat. by apply domain_set_spec in E.
Qed.

Lemma item_checked node name i item :
  match json_as_str node with
  | None => Ok None
  | Some s => let? v := validate_item s name i in Ok (Some v)
  end = Ok item → item_text node item.
Proof.
  destruct node as [| | | |text| |]; cbn; try (by intros [= <-]).
  unfold validate_item, non_empty_str. destruct (is_empty (trim text)) eqn:E; [done|]. intros [= <-].
  by apply bool_decide_eq_false in E.
Qed.

Lemma items_spec m root items :
  match jm_item m with
  | None => Ok (repeat None (length (json_records m root)))
  | Some selector => resolve_optional selector root (json_records m root) "item_selector" validate_item
  end = Ok items →
  length items = length (json_records m root) ∧
  ∀ k r i, json_records m root !! k = Some r → items !! k = Some i → item_as m root (jr_node r) i.
Proof.
  unfold item_as, resolve_optional. destruct (jm_item m) as [selector|].
  2:{ intros [= <-]. rewrite repeat_length. split; [done|]. by intros k r i _ ->%lookup_repeat. }
  destruct (cs_scope selector).
  - intros [Hl Hk]%try_imap_spec. split; [done|]. intros k r i Hr Hi.
    destruct (Hk _ _ Hi) as (r' & Hr' & Hc). rewrite Hr in Hr'. injection Hr' as <-.
    destruct (one_record_node _ _ _ _) as [[node ptr]|] eqn:E; [|done].
    destruct (json_records_at _ _ _ _ Hr) as (rloc & _ & Hat).
    destruct (one_record_node_spec _ _ _ _ _ _ _ _ Hat E) as (rest & Hq & _).
    exists rest, node. split; [done|]. by eapply item_checked.
  - destruct (jp_query (cs_path selector) root) as [|node [|]]; [| |done].
    + intros [= <-]. rewrite repeat_length. split; [done|]. intros k r i _ ->%lookup_repeat. by left.
    + destruct (match json_as_str node with Some _ => _ | None => _ end) as [v|] eqn:Ev; [|done].
      intros [= <-]. rewrite repeat_length. split; [done|]. intros k r i _ ->%lookup_repeat.
      right. exists node. split; [done|]. by eapply item_checked.
Qed.

Lemma names_spec m root names :
  try_imap (record_name m) 0 (json_records m root) = Ok names →
  length names = length (json_records m root) ∧
  ∀ k r n rloc, json_records m root !! k = Some r → record_at root rloc r → names !! k = Some n →
    named_as m rloc (jr_node r) n.
Proof.
  intros [Hl Hk]%try_imap_spec. split; [done|]. intros k r n rloc Hr Hat Hn.
  destruct (Hk _ _ Hn) as (r' & Hr' & Hname). rewrite Hr in Hr'. injection Hr' as <-.
  unfold record_name in Hname. unfold named_as. destruct (jm_name m) as [path|].
  - destruct (one_record_node _ _ _ _) as [[node ptr]|] eqn:E; [|done].
    destruct (one_record_node_spec _ _ _ _ _ _ _ _ Hat E) as (rest & Hq & _).
    destruct node as [| | | |text| |]; try done. cbn in Hname. unfold non_empty_str in Hname.
    destruct (is_empty (trim text)) eqn:Et; [done|]. injection Hname as <-.
    apply bool_decide_eq_false in Et. split; [done|]. by exists rest, text.
  - by eapply record_key_spec.
Qed.

Lemma list_choice {A B} (P : nat → A → B → Prop) (l : list A) :
  (∀ k x, l !! k = Some x → ∃ y, P k x y) →
  ∃ l', length l' = length l ∧ ∀ k x y, l !! k = Some x → l' !! k = Some y → P k x y.
Proof.
  revert P. induction l as [|x l IH]; intros P HP; [by exists []|].
  destruct (HP 0 x eq_refl) as [y Hy]. destruct (IH (λ k, P (S k))) as (l' & Hl & Hk).
  { intros k x' Hx. by apply HP. }
  exists (y :: l'). split; [by simpl; rewrite Hl|]. intros [|k] x' y'; simpl; [by intros [= <-] [= <-]|].
  apply Hk.
Qed.

(** One value hit of a record. *)
Lemma value_hit_spec m root k hits hit :
  try_imap (value_hit m) 0 (json_records m root) = Ok hits → hits !! k = Some hit →
  ∃ loc rloc record rest node,
    jp_query_located (jm_record m) root !! k = Some (rloc, record) ∧
    jp_query_located (jm_value m) record = [(rest, node)] ∧ loc = (rloc ++ rest)%list ∧
    loc_get loc root = Some (JString (vh_value hit)) ∧ vh_pointer hit = rfc6901 loc.
Proof.
  intros [_ Hk]%try_imap_spec Hhit. destruct (Hk _ _ Hhit) as (r & Hr & Hv). simpl in Hv.
  destruct (json_records_at _ _ _ _ Hr) as (rloc & Hloc & Hat). unfold value_hit in Hv.
  destruct (one_record_node _ _ _ _) as [[node ptr]|] eqn:E; [|done].
  destruct (one_record_node_spec _ _ _ _ _ _ _ _ Hat E) as (rest & Hq & -> & Hg).
  destruct node as [| | | |v| |]; try done. injection Hv as <-.
  by exists (rloc ++ rest)%list, rloc, (jr_node r), rest, (JString v).
Qed.

Lemma zip_lookup {A B} (l : list A) (l' : list B) k x y :
  zip l l' !! k = Some (x, y) ↔ l !! k = Some x ∧ l' !! k = Some y.
Proof.
  rewrite lookup_zip_with_Some. split; [intros (a & b & [= -> ->] & ?); done|intros [??]; by exists x, y].
Qed.

Lemma json_extract_parts m root hits :
  json_extract m root = Ok hits →
  ∃ vhs names items domains,
    json_records m root ≠ [] ∧ try_imap (value_hit m) 0 (json_records m root) = Ok vhs ∧
    length names = length (json_records m root) ∧ length items = length (json_records m root) ∧
    length domains = length (json_records m root) ∧
    (∀ k r n i d rloc, json_records m root !! k = Some r → record_at root rloc r →
       names !! k = Some n → items !! k = Some i → domains !! k = Some d →
       named_as m rloc (jr_node r) n ∧ item_as m root (jr_node r) i ∧ scoped_as m root (jr_node r) d) ∧
    hits = zip (zip (zip vhs names) items) domains.
Proof.
  unfold json_extract. intros H. destruct (json_records m root) as [|r0 rs] eqn:Er; [done|].
  rewrite <-Er in *. destruct (try_imap (value_hit m) 0 _) as [vhs|] eqn:Ev; [|done].
  destruct (try_imap (record_name m) 0 _) as [names|] eqn:En; [|done]. cbn beta iota in H.
  destruct (match jm_item m with Some _ => _ | None => _ end) as [items|] eqn:Ei; [|done].
  destruct (match jm_domain m with Some _ => _ | None => _ end) as [domains|] eqn:Ed; [|done].
  injection H as <-. apply names_spec in En as [Hnl Hn]. apply items_spec in Ei as [Hil Hi].
  apply domains_spec in Ed as [Hdl Hd]. exists vhs, names, items, domains.
  split_and!; [by rewrite Er|done..| |done]. intros. split_and!; eauto.
Qed.

Lemma json_extract_spec m root hits :
  json_extract m root = Ok hits →
  ∃ locs, extracted m root locs (hit_request <$> hits) ∧
    ∀ k loc h, locs !! k = Some loc → hits !! k = Some h → vh_pointer (hit_of h) = rfc6901 loc.
Proof.
  intros (vhs & names & items & domains & Hne & Ev & Hnl & Hil & Hdl & Habout & ->)%json_extract_parts.
  assert (length (json_records m root) = length (jp_query_located (jm_record m) root)) as Hlr
    by apply length_fmap.
  pose proof (try_imap_spec _ _ _ _ Ev) as [Hvl Hvk].
  destruct (list_choice (λ k hit loc, ∃ rloc record rest node,
    jp_query_located (jm_record m) root !! k = Some (rloc, record) ∧
    jp_query_located (jm_value m) record = [(rest, node)] ∧ loc = (rloc ++ rest)%list ∧
    loc_get loc root = Some (JString (vh_value hit)) ∧ vh_pointer hit = rfc6901 loc) vhs)
    as (locs & Hll & Hloc); [intros k hit; by apply value_hit_spec|].
  exists locs. split; [split|].
  - intros ->. simpl in Hll. apply Hne, length_zero_iff_nil. lia.
  - by rewrite Hll, Hvl.
  - rewrite length_fmap, !length_zip_with. lia.
  - intros k loc Hk. destruct (lookup_lt_is_Some_2 vhs k) as [hit Hhit].
    { rewrite <-Hll. by eapply lookup_lt_Some. }
    destruct (Hloc _ _ _ Hhit Hk) as (rl & rec & rest & n & ? & ? & ? & _). by exists rl, rec, rest, n.
  - intros k loc r Hk. rewrite list_lookup_fmap. intros ([[[hit nm] it] d] & Hz & ->)%fmap_Some.
    apply zip_lookup in Hz as [[[Hh _]%zip_lookup _]%zip_lookup _].
    by destruct (Hloc _ _ _ Hh Hk) as (? & ? & ? & ? & _ & _ & _ & ? & _).
  - intros k r. rewrite list_lookup_fmap. intros ([[[hit nm] it] d] & Hz & ->)%fmap_Some.
    apply zip_lookup in Hz as [[[Hh Hn]%zip_lookup Hi]%zip_lookup Hd].
    destruct (Hvk _ _ Hh) as (rec & Hrec & _). destruct (json_records_at _ _ _ _ Hrec) as (rloc & Hr & Hat).
    exists rloc, (jr_node rec). split; [done|]. by eapply Habout.
  - intros k loc [[[hit nm] it] d] Hk Hz. apply zip_lookup in Hz as [[[Hh _]%zip_lookup _]%zip_lookup _].
    by destruct (Hloc _ _ _ Hh Hk) as (? & ? & ? & ? & _ & _ & _ & _ & ?).
Qed.

(** The loop in terms of locations. *)
Definition place (root : Json) (lp : Location * string) : Json :=
  loc_set lp.1 (JString lp.2) root.

Lemma json_mint_loop_spec {S} (mint : S → MintRequest → string * S) hits : ∀ locs root s root' s',
  length locs = length hits →
  (∀ k loc h, locs !! k = Some loc → hits !! k = Some h → vh_pointer (hit_of h) = rfc6901 loc) →
  (∀ loc, loc ∈ locs → ∃ x, loc_get loc root = Some (JString x)) →
  json_mint_loop mint hits root s = (root', s') →
  ∃ phs, run_mints mint (hit_request <$> hits) s = (phs, s') ∧
    root' = fold_left place (zip locs phs) root.
Proof.
  induction hits as [|[[[hit nm] it] d] hits IH]; intros locs root s root' s' Hl Hp Hs.
  { intros [= <- <-]. exists []. split; [done|]. by destruct locs. }
  destruct locs as [|loc locs]; [done|].
  pose proof (Hp 0 loc _ eq_refl eq_refl) as Hptr. unfold hit_of in Hptr. simpl in Hptr.
  rewrite fmap_cons. cbn [json_mint_loop run_mints hit_request].
  destruct (mint s _) as [ph s1] eqn:Em. destruct (Hs loc) as [x Hx]; [by left|].
  rewrite Hptr, (pointer_set_spec _ _ _ _ Hx).
  intros E. apply (IH locs) in E as (phs & Hr & ->).
  - exists (ph :: phs). by rewrite Hr.
  - by injection Hl.
  - intros k. exact (Hp (Datatypes.S k)).
  - intros q Hq. destruct (Hs q) as [y Hy]; [by right|]. destruct (decide (q = loc)) as [->|Hne].
    + exists ph. by eapply loc_get_set.
    + exists y. rewrite (loc_get_set_other _ _ x); [done|done|].
      intros Hpre. by apply Hne, (string_leaves loc q root x y).
Qed.

Definition leaves (root : Json) (lps : list (Location * string)) : Prop :=
  ∀ lp, lp ∈ lps → ∃ x, loc_get lp.1 root = Some (JString x).

Lemma place_leaf root lp q x :
  leaves root [lp] → loc_get q root = Some (JString x) →
  loc_get q (place root lp) = Some (JString (if decide (q = lp.1) then lp.2 else x)).
Proof.
  intros Hl Hq. destruct (Hl lp) as [y Hy]; [by left|]. unfold place.
  destruct (decide (q = lp.1)) as [->|Hne]; [by eapply loc_get_set|].
  rewrite (loc_get_set_other _ _ y); [done..|]. intros Hpre. by apply Hne, (string_leaves _ _ root y x).
Qed.

Lemma leaves_step root lp lps : leaves root (lp :: lps) → leaves (place root lp) lps.
Proof.
  intros Hl q Hq. destruct (Hl q) as [x Hx]; [by right|]. erewrite place_leaf; [eauto| |done].
  intros ? ->%list_elem_of_singleton. apply Hl. by left.
Qed.

Lemma leaves_head root lp lps : leaves root (lp :: lps) → leaves root [lp].
Proof. intros Hl ? ->%list_elem_of_singleton. apply Hl. by left. Qed.

Lemma placed_leaf lps : ∀ root loc x,
  leaves root lps → loc_get loc root = Some (JString x) →
  (∃ k ph, lps !! k = Some (loc, ph) ∧ loc_get loc (fold_left place lps root) = Some (JString ph)) ∨
  (∀ lp, lp ∈ lps → lp.1 ≠ loc) ∧ loc_get loc (fold_left place lps root) = Some (JString x).
Proof.
  induction lps as [|lp lps IH]; intros root loc x Hl Hx; simpl.
  { right. split; [|done]. by intros lp ?%not_elem_of_nil. }
  pose proof (place_leaf _ _ _ _ (leaves_head _ _ _ Hl) Hx) as Hp.
  destruct (IH _ _ _ (leaves_step _ _ _ Hl) Hp) as [(k & ph & Hk & Hg)|[Hn Hg]].
  { left. by exists (S k), ph. }
  destruct (decide (loc = lp.1)) as [->|Hne].
  - left. exists 0, lp.2. by destruct lp.
  - right. split; [|done]. by intros lp' [->|?]%elem_of_cons; [intros <-|apply Hn].
Qed.

Lemma placed_frame lps : ∀ root q,
  leaves root lps → (∀ lp, lp ∈ lps → ¬ q `prefix_of` lp.1) →
  loc_get q (fold_left place lps root) = loc_get q root.
Proof.
  induction lps as [|lp lps IH]; intros root q Hl Hq; [done|]. simpl.
  rewrite IH; [|by apply leaves_step|intros lp' ?; apply Hq; by right].
  destruct (Hl lp) as [x Hx]; [by left|]. apply (loc_get_set_other _ _ x); [done|]. apply Hq. by left.
Qed.

(** Where a document is after its secrets have been replaced: a placeholder
    minted for the string that was there at every place a secret was found, and
    the document as it was everywhere else. *)
Record replaced (root root' : Json) (locs : list Location) (phs : list string) : Prop := {
  rp_placed : ∀ loc, loc ∈ locs → ∃ k ph,
    locs !! k = Some loc ∧ phs !! k = Some ph ∧ loc_get loc root' = Some (JString ph);
  rp_frame : ∀ q, (∀ loc, loc ∈ locs → ¬ q `prefix_of` loc) → loc_get q root' = loc_get q root;
}.

Lemma placed_replaced root locs phs :
  length phs = length locs → (∀ loc, loc ∈ locs → ∃ x, loc_get loc root = Some (JString x)) →
  replaced root (fold_left place (zip locs phs) root) locs phs.
Proof.
  intros Hlen Hs.
  assert (leaves root (zip locs phs)) as Hl.
  { intros [loc ph] (k & Hk)%list_elem_of_lookup. apply zip_lookup in Hk as [Hk _].
    apply Hs. by eapply list_elem_of_lookup_2. }
  split.
  - intros loc (k0 & Hk0)%list_elem_of_lookup. destruct (Hs loc) as [x Hx]; [by eapply list_elem_of_lookup_2|].
    destruct (placed_leaf _ _ _ _ Hl Hx) as [(k & ph & [? ?]%zip_lookup & ?)|[Hn _]]; [by exists k, ph|].
    destruct (lookup_lt_is_Some_2 phs k0) as [ph Hph]; [rewrite Hlen; by eapply lookup_lt_Some|].
    exfalso. apply (Hn (loc, ph)); [|done]. apply (list_elem_of_lookup_2 _ k0). by apply zip_lookup.
  - intros q Hq. apply placed_frame; [done|]. intros [loc ph] (k & Hk)%list_elem_of_lookup.
    apply zip_lookup in Hk as [Hk _]. apply Hq. by eapply list_elem_of_lookup_2.
Qed.

(** A rewrite that succeeds minted for the extracted strings and replaced them. *)
Lemma json_rewrite_ok {S} (mint : S → MintRequest → string * S) m output s out s' :
  json_rewrite mint m output s = (Ok out, s') →
  ∃ root root' locs requests phs,
    json_from_slice output = Ok root ∧ json_to_vec root' = Ok out ∧
    extracted m root locs requests ∧ run_mints mint requests s = (phs, s') ∧
    replaced root root' locs phs.
Proof.
  unfold json_rewrite. destruct (json_from_slice output) as [root|] eqn:Ej; [|done]. simpl.
  destruct (json_extract m root) as [hits|] eqn:Ee; [|done].
  destruct (json_mint_loop mint hits root s) as [root' s''] eqn:El.
  destruct (json_extract_spec _ _ _ Ee) as (locs & Hex & Hp).
  assert (length locs = length hits) as Hlen by by rewrite <-(ex_requests _ _ _ _ Hex), length_fmap.
  assert (∀ loc, loc ∈ locs → ∃ x, loc_get loc root = Some (JString x)) as Hs.
  { intros loc (k & Hk)%list_elem_of_lookup.
    destruct (lookup_lt_is_Some_2 (hit_request <$> hits) k) as [r Hr].
    { rewrite length_fmap, <-Hlen. by eapply lookup_lt_Some. }
    exists (mr_secret r). by eapply (ex_secret _ _ _ _ Hex). }
  destruct (json_mint_loop_spec _ _ _ _ _ _ _ Hlen Hp Hs El) as (phs & Hrun & ->).
  destruct (json_to_vec _) as [out'|e] eqn:Eo; [|done]. simpl. intros [= <- <-].
  exists root, (fold_left place (zip locs phs) root), locs, (hit_request <$> hits), phs.
  split_and!; [done|done|done|done|]. apply placed_replaced; [|done].
  by rewrite (run_mints_length _ _ _ _ _ Hrun), length_fmap, Hlen.
Qed.

(** [C17] The JSON matcher replaces exactly the secrets, and all of them or none.
    When it succeeds, every record of [record_path] gave one string at its
    [value_path]; that string, and no other, was handed to [mint] for the record,
    in the order of the records, with the name, the item and the domains the
    selectors find for this very record; in the document that is written out a
    placeholder minted for it stands at its place, and every node that is not
    above such a place is the node it was.  When it fails, nothing was minted,
    except when the rewritten tree cannot be serialized. *)
Theorem json_rewrite_exact {S} (mint : S → MintRequest → string * S) m output s :
  match json_rewrite mint m output s with
  | (Err (MSerialize _), _) => True
  | (Err _, s') => s' = s
  | (Ok out, s') =>
      ∃ root root' locs requests phs,
        json_from_slice output = Ok root ∧ json_to_vec root' = Ok out ∧
        extracted m root locs requests ∧ run_mints mint requests s = (phs, s') ∧
        replaced root root' locs phs
  end.
Proof.
  destruct (json_rewrite mint m output s) as [[out|e] s'] eqn:E; [by apply json_rewrite_ok|].
  revert E. unfold json_rewrite. destruct (json_from_slice output) as [root|]; [|by intros [= <- <-]]. simpl.
  destruct (json_extract m root) as [hits|[]]; [|by intros [= <- <-]..].
  destruct (json_mint_loop _ _ _ _). destruct (json_to_vec _); [done|]. by intros [= <- <-].
Qed.

End JsonFacts.

(** ** Regex facts *)

(** [captures_iter] yields non-overlapping matches from left to right, each
    group inside its match. *)
Fixpoint matches_ok (cursor n : nat) (l : list Captures) : Prop :=
  match l with
  | [] => cursor ≤ n
  | caps :: l =>
      cursor ≤ range_start (cap_span caps) ∧
      Forall (λ '(_, r), range_start (cap_span caps) ≤ range_start r ∧ range_start r ≤ range_end r ∧
                         range_end r ≤ range_end (cap_span caps)) (cap_named caps) ∧
      matches_ok (range_end (cap_span caps)) n l
  end.

Class RegexLaws (RX : RegexCrate) :=
  captures_in_order p text : matches_ok 0 (String.length text) (re_captures_iter p text).

Lemma bytes_of_drop n s : bytes_of (str_drop n s) = drop n (bytes_of s).
Proof. revert s. induction n as [|n IH]; intros [|c s]; try done. apply IH. Qed.

Lemma bytes_of_take n s : bytes_of (str_take n s) = take n (bytes_of s).
Proof. revert s. induction n as [|n IH]; intros [|c s]; try done. cbn. by rewrite <-IH. Qed.

Lemma edits_ok_from c c' n rs : c' ≤ c → edits_ok c n rs → edits_ok c' n rs.
Proof. destruct rs; simpl; [lia|]. intros ? (? & ? & ?). split_and!; [lia|done..]. Qed.

Section RegexFacts.
Context {HC : HttpCrate} {UC : UriCrate} {RX : RegexCrate}.

(** The items of the hits of a text. *)
Fixpoint items_of (text : string) (last : nat) (hits : list (Range * MintRequest)) : list RegexItem :=
  match hits with
  | [] => []
  | (value, request) :: hits =>
      ItemStr (cap_str text (mk_range last (range_start value))) :: ItemMint request ::
      items_of text (range_end value) hits
  end.

Fixpoint end_of (last : nat) (hits : list (Range * MintRequest)) : nat :=
  match hits with [] => last | (value, _) :: hits => end_of (range_end value) hits end.

Lemma regex_items_spec m text has_domain captures : ∀ last items items' last',
  regex_items m text has_domain last items captures = Ok (items', last') →
  ∃ hits, Forall2 (λ caps h, regex_hit m text has_domain caps = Ok h) captures hits ∧
    items' = (items ++ items_of text last hits)%list ∧ last' = end_of last hits.
Proof.
  induction captures as [|caps captures IH]; intros last items items' last'; simpl.
  { intros [= <- <-]. exists []. by rewrite app_nil_r. }
  destruct (regex_hit m text has_domain caps) as [[value request]|] eqn:E; [|done].
  intros (hits & HF & -> & ->)%IH. exists ((value, request) :: hits).
  split_and!; [by constructor|by rewrite <-app_assoc|done].
Qed.

(** What is minted for a match: the text of its groups, and the host of its
    [domain] group, which is there when the pattern has one. *)
Definition captured_as (m : CompiledRegexMatcher) (text : string) (caps : Captures) (span : Range)
    (request : MintRequest) : Prop :=
  cap_name caps VALUE = Some span ∧ mr_secret request = cap_str text span ∧ mr_item request = None ∧
  (∃ r, cap_name caps NAME = Some r ∧ mr_name request = trim (cap_str text r) ∧ mr_name request ≠ "") ∧
  match cap_name caps DOMAIN with
  | Some r => ∃ a, parse_authority (cap_str text r) = Ok a ∧ mr_domains request = [a]
  | None => mr_domains request = [] ∧ Some DOMAIN ∉ re_capture_names (rm_pattern m)
  end.

Definition has_domain_group (m : CompiledRegexMatcher) : bool :=
  existsb (λ name, bool_decide (name = Some DOMAIN)) (re_capture_names (rm_pattern m)).

Lemma regex_hit_spec m text caps r request :
  regex_hit m text (has_domain_group m) caps = Ok (r, request) → captured_as m text caps r request.
Proof.
  unfold regex_hit, captured_as. destruct (cap_name caps VALUE) as [v|]; [|done]. simpl.
  destruct (cap_name caps NAME) as [n|]; [|done]. simpl. unfold non_empty_str.
  destruct (is_empty (trim (cap_str text n))) eqn:En; [done|]. apply bool_decide_eq_false in En. simpl.
  destruct (cap_name caps DOMAIN) as [d|].
  - destruct (parse_authority _) as [a|] eqn:Ep; [|done]. intros [= <- <-]. split_and!; [done..|eauto|].
    by exists a.
  - destruct (has_domain_group m) eqn:Eh; [done|]. intros [= <- <-]. split_and!; [done..|eauto|done|].
    intros Hd. assert (has_domain_group m = true); [|congruence]. apply existsb_exists.
    exists (Some DOMAIN). rewrite list_elem_of_In in Hd. split; [done|]. by rewrite bool_decide_true.
Qed.

Lemma cap_name_elem caps group r : cap_name caps group = Some r → (group, r) ∈ cap_named caps.
Proof.
  unfold cap_name. intros ([n r'] & Hf & ->)%fmap_Some. apply find_some in Hf as [Hin Hn].
  apply bool_decide_eq_true in Hn as ->. by apply list_elem_of_In.
Qed.

Lemma hits_edits_ok m text n captures hits : ∀ cursor,
  matches_ok cursor n captures →
  Forall2 (λ caps h, regex_hit m text (has_domain_group m) caps = Ok h) captures hits →
  edits_ok cursor n (fst <$> hits).
Proof.
  intros cursor Hm HF. revert cursor Hm.
  induction HF as [|caps [r request] captures hits Hh _ IH]; intros cursor Hm; [done|].
  destruct Hm as (H1 & Hg & Hm). apply regex_hit_spec in Hh as (Hv%cap_name_elem & _).
  rewrite Forall_forall in Hg. apply Hg in Hv. simpl. split_and!; [lia..|].
  eapply edits_ok_from; [|by apply IH]. lia.
Qed.

Lemma render_items_spec {S} (mint : S → MintRequest → string * S) text hits : ∀ last s out s',
  render_items mint (items_of text last hits ++ [ItemStr (str_drop (end_of last hits) text)])%list s
    = (out, s') →
  edits_ok last (String.length text) (fst <$> hits) →
  ∃ phs, run_mints mint (snd <$> hits) s = (phs, s') ∧
    splice (bytes_of text) last (zip (fst <$> hits) (bytes_of <$> phs)) = Some (bytes_of out).
Proof.
  induction hits as [|[r req] hits IH]; intros last s out s'; cbn [items_of end_of app render_items].
  { intros [= <- <-] Hle. exists []. split; [done|]. simpl in *. rewrite slice_some by (rewrite ?length_bytes_of; lia).
    rewrite str_app_nil_r, bytes_of_drop, take_ge by (rewrite length_drop; lia). done. }
  destruct (mint s req) as [ph s1] eqn:Em.
  destruct (render_items mint _ s1) as [rest s2] eqn:Er. intros [= <- <-] (Hlo & Hhi & Hok).
  simpl in Hlo, Hhi. pose proof (edits_ok_le _ _ _ Hok) as Hn. simpl in Hn. destruct (IH _ _ _ _ Er Hok) as (phs & Hr & Hs).
  exists (ph :: phs). rewrite !fmap_cons. cbn [run_mints snd fst]. rewrite Em, Hr. split; [done|].
  assert (∀ (A B : Type) (a : A) (b : B) l l', zip (a :: l) (b :: l') = (a, b) :: zip l l') as -> by done. cbn [splice].
  rewrite slice_some by (rewrite ?length_bytes_of; lia). rewrite Hs. simpl.
  unfold cap_str. simpl. by rewrite !bytes_of_app, bytes_of_take, bytes_of_drop.
Qed.

(** A text with the values of its matches replaced: the same gaps with the secrets
    in the one and the placeholders in the other, and the secrets where the
    matches are. *)
Definition regex_rewritten (m : CompiledRegexMatcher) (output out : string) (requests : list MintRequest)
    (phs : list string) : Prop :=
  ∃ spans gaps,
    spans ≠ [] ∧ Forall3 (captured_as m output) (re_captures_iter (rm_pattern m) output) spans requests ∧
    length phs = length requests ∧ length gaps = S (length requests) ∧
    bytes_of output = weave gaps ((λ r, bytes_of (mr_secret r)) <$> requests) ∧
    token_ranges 0 gaps ((λ r, bytes_of (mr_secret r)) <$> requests) = spans ∧
    bytes_of out = weave gaps (bytes_of <$> phs).

Lemma captured_texts m output captures hits :
  Forall2 (λ caps h, regex_hit m output (has_domain_group m) caps = Ok h) captures hits →
  Forall3 (captured_as m output) captures (fst <$> hits) (snd <$> hits) ∧
  texts_at (bytes_of output) (fst <$> hits) = (λ r, bytes_of (mr_secret r)) <$> (snd <$> hits).
Proof.
  induction 1 as [|caps [r q] captures hits Hh _ [IH1 IH2]]; [split; [constructor|done]|].
  apply regex_hit_spec in Hh. split; [by constructor|]. destruct Hh as (_ & Hs & _).
  rewrite !fmap_cons. etransitivity; [|exact (f_equal (cons (bytes_of (mr_secret q))) IH2)].
  unfold texts_at. rewrite fmap_cons. f_equal. rewrite Hs. unfold cap_str. cbn [fst].
  by rewrite bytes_of_take, bytes_of_drop.
Qed.

(** The regex matcher copies the text but for the spans of the [value] groups;
    each is handed to [mint] in order with what its match says of it, and replaced
    by what was minted.  On an error nothing was minted. *)
Lemma regex_rewrite_exact {RL : RegexLaws RX} {S} (mint : S → MintRequest → string * S) m output s :
  match regex_rewrite mint m output s with
  | (Err _, s') => s' = s
  | (Ok out, s') =>
      ∃ requests phs, run_mints mint requests s = (phs, s') ∧ regex_rewritten m output out requests phs
  end.
Proof.
  unfold regex_rewrite. destruct (utf8_valid output); [|done]. simpl.
  fold (has_domain_group m). destruct (regex_items _ _ _ _ _ _) as [[items last]|] eqn:E; [|done].
  apply regex_items_spec in E as (hits & HF & -> & ->). simpl.
  destruct (Nat.eqb (end_of 0 hits) 0) eqn:El; [done|].
  destruct (render_items _ _ _) as [out s'] eqn:Er.
  pose proof (hits_edits_ok _ _ _ _ _ _ (captures_in_order (rm_pattern m) output) HF) as Hok.
  destruct (render_items_spec _ _ _ _ _ _ _ Er Hok) as (phs & Hr & Hs).
  exists (snd <$> hits), phs. split; [done|]. destruct (captured_texts _ _ _ _ HF) as [HF3 Htexts].
  pose proof (run_mints_length _ _ _ _ _ Hr) as Hlen. rewrite length_fmap in Hlen.
  assert ((zip (fst <$> hits) (bytes_of <$> phs)).*1 = fst <$> hits) as Hz1
    by (apply fst_zip; rewrite !length_fmap; lia).
  destruct (splice_spec (bytes_of output) (zip (fst <$> hits) (bytes_of <$> phs)) 0)
    as (gaps & Hs' & Hg & _ & Hw & Hrs); [by rewrite Hz1, length_bytes_of|].
  rewrite Hs in Hs'. injection Hs' as Hout. rewrite Hz1, Htexts in Hw, Hrs.
  rewrite length_zip_with, !length_fmap, Hlen, Nat.min_id in Hg.
  exists (fst <$> hits), gaps. split_and!.
  - destruct hits; [by apply Nat.eqb_neq in El|done].
  - done.
  - by rewrite length_fmap.
  - by rewrite length_fmap.
  - by rewrite <- Hw, drop_0.
  - done.
  - rewrite Hout. f_equal. apply snd_zip. rewrite !length_fmap. lia.
Qed.

End RegexFacts.

(** ** Any matcher *)

Section CompiledFacts.
Context {HC : HttpCrate} {UC : UriCrate} {RX : RegexCrate}.
Context {JP : JsonPathCrate} {PT : JsonPointer} {SJ : SerdeJson} {SW : SerdeJsonWrite}.
Context {JL : JsonPathLaws JP} {PL : JsonPointerLaws PT} {RL : RegexLaws RX}.

(** An output in which the secrets a matcher finds are replaced by placeholders. *)
Definition rewritten (m : CompiledMatcher) (output out : string) (requests : list MintRequest)
    (phs : list string) : Prop :=
  match m with
  | KindJson m => ∃ root root' locs,
      json_from_slice output = Ok root ∧ json_to_vec root' = Ok out ∧
      extracted m root locs requests ∧ replaced root root' locs phs
  | KindRegex m => regex_rewritten m output out requests phs
  end.

Lemma compiled_rewrite_ok {S} (mint : S → MintRequest → string * S) m output s out s' :
  compiled_rewrite mint m output s = (Ok out, s') →
  ∃ requests phs, run_mints mint requests s = (phs, s') ∧ rewritten m output out requests phs.
Proof.
  destruct m as [m|m]; cbn [compiled_rewrite rewritten].
  - intros (root & root' & locs & requests & phs & ? & ? & ? & ? & ?)%json_rewrite_ok.
    exists requests, phs. split; [done|]. by exists root, root', locs.
  - intros H. pose proof (regex_rewrite_exact mint m output s) as Hx. by rewrite H in Hx.
Qed.

End CompiledFacts.

(** An [@] in the password: what follows it stays in the diagnostic. *)
Example redact_keeps_password_tail :
  redact_input_for_error "https://user:p@ss@vault example/" = "https://ss@vault example/".
Proof. reflexivity. Qed.

(** ** Samples *)

Module Samples.

(** A path is a list of keys; [None] is a wildcard. *)
Fixpoint sample_query (p : list (option string)) (j : Json) : list (Location * Json) :=
  match p with
  | [] => [([], j)]
  | Some k :: p =>
      match j with
      | JObject m =>
          match m !! k with
          | Some c => (λ ln, (SName k :: ln.1, ln.2)) <$> sample_query p c
          | None => []
          end
      | _ => []
      end
  | None :: p =>
      match j with
      | JObject m =>
          kc ← map_to_list m; (λ ln, (SName kc.1 :: ln.1, ln.2)) <$> sample_query p kc.2
      | JArray l =>
          ic ← imap pair l; (λ ln, (SIndex ic.1 :: ln.1, ln.2)) <$> sample_query p ic.2
      | _ => []
      end
  end.

Definition sample_path (text : string) : Result (list (option string)) string :=
  match split_char "."%char text with
  | "$" :: keys => Ok ((λ k, if bool_decide (k = "*") then None else Some k) <$> keys)
  | _ => Err "expected `$`"
  end.

Definition sample_jp : JsonPathCrate := {|
  JsonPath := list (option string);
  jp_parse := sample_path;
  jp_query p j := snd <$> sample_query p j;
  jp_query_located := sample_query;
  to_json_pointer := rfc6901;
|}.

Lemma sample_query_get p : ∀ j loc n, (loc, n) ∈ sample_query p j → loc_get loc j = Some n.
Proof.
  induction p as [|[k|] p IH]; intros j loc n; simpl.
  - by intros [= -> ->]%list_elem_of_singleton.
  - destruct j as [| | | | | |m]; try (by intros ?%not_elem_of_nil).
    destruct (m !! k) as [c|] eqn:E; [|by intros ?%not_elem_of_nil].
    intros ([l' n'] & [= -> ->] & Hin)%list_elem_of_fmap. simpl. rewrite E. by apply IH.
  - destruct j as [| | | | |l|m]; try (by intros ?%not_elem_of_nil).
    + intros ([i c] & ([l' n'] & [= -> ->] & Hq)%list_elem_of_fmap & Hin)%list_elem_of_bind.
      simpl. apply list_elem_of_lookup in Hq as [z Hz]. apply list_elem_of_lookup in Hin as [k Hk].
      rewrite list_lookup_imap in Hk. apply fmap_Some in Hk as (c' & Hl & [= -> ->]). rewrite Hl.
      apply IH. by eapply list_elem_of_lookup_2.
    + intros ([k c] & ([l' n'] & [= -> ->] & Hq)%list_elem_of_fmap & Hin)%list_elem_of_bind.
      apply elem_of_map_to_list in Hin. simpl. rewrite Hin. by apply IH.
Qed.

#[local] Instance sample_jp_laws : JsonPathLaws sample_jp.
Proof. split; [done| |done]. intros p j loc n. apply sample_query_get. Qed.

(** Pointers, token by token. *)
Definition unescape_token (t : string) : string :=
  replace2 "~"%char "0"%char "~" (replace2 "~"%char "1"%char "/" t).

Fixpoint tokens_set (ts : list string) (v : Json) (j : Json) : Json :=
  match ts with
  | [] => v
  | t :: ts =>
      match j with
      | JObject m => let k := unescape_token t in
                     match m !! k with
                     | Some c => JObject (<[k := tokens_set ts v c]> m)
                     | None => j
                     end
      | JArray l =>
          match from_str_radix 10 (Z.of_nat (length l)) t with
          | Ok i => match l !! Z.to_nat i with
                    | Some c => JArray (<[Z.to_nat i := tokens_set ts v c]> l)
                    | None => j
                    end
          | Err _ => j
          end
      | _ => j
      end
  end.

Definition sample_pointer : JsonPointer := λ ptr v j,
  tokens_set (List.tl (split_char "/"%char ptr)) v j.

Lemma segment_no_slash seg : contains_char "/"%char (segment_text seg) = false.
Proof. destruct seg; [apply escape_no_slash|]. apply digits_no_char; [done|]. apply display_uint_digits. Qed.

Lemma rfc6901_tokens loc : split_char "/"%char (rfc6901 loc) = "" :: (segment_text <$> loc).
Proof.
  assert (∀ t loc, contains_char "/"%char t = false →
    split_char "/"%char (t +:+ rfc6901 loc) = t :: (segment_text <$> loc)) as H.
  { clear. intros t loc. revert t. induction loc as [|seg loc IH]; intros t Ht; simpl.
    - by rewrite str_app_nil_r, split_char_single.
    - rewrite split_char_app by done. f_equal. apply IH, segment_no_slash. }
  by apply (H "").
Qed.

#[local] Instance sample_pointer_laws : JsonPointerLaws sample_pointer.
Proof.
  intros loc v j n Hg. unfold json_pointer_set, sample_pointer. rewrite rfc6901_tokens. simpl.
  revert j Hg. induction loc as [|[k|i] loc IH]; intros j Hg; [done|..];
    destruct j as [| | | | |l|m]; simpl in Hg; try done; simpl.
  - unfold unescape_token. rewrite unescape_slash, unescape_tilde.
    destruct (m !! k) as [c|] eqn:E; [|done]. do 2 f_equal. by apply IH.
  - destruct (l !! i) as [c|] eqn:E; [|done]. pose proof (lookup_lt_Some _ _ _ E).
    unfold show_nat. rewrite parse_display by lia. rewrite Nat2Z.id, E. do 2 f_equal. by apply IH.
Qed.

(** The output of [vault kv get], and where its two secrets are. *)
Definition kv_doc (user password : string) : Json :=
  JObject {["data" := JObject {["data" :=
    JObject (<["user" := JString user]> {["pass/word" := JString password]})]}]}.

Definition kv_at (key : string) : Location := [SName "data"; SName "data"; SName key].

#[local] Instance sample_from_slice : SerdeJson := λ s,
  if bool_decide (s = "kv") then Ok (kv_doc "root" "hunter2") else Err "expected value".

#[local] Instance sample_to_vec : SerdeJsonWrite := λ j,
  match loc_get (kv_at "user") j, loc_get (kv_at "pass/word") j with
  | Some (JString u), Some (JString p) => Ok (u +:+ ":" +:+ p)
  | _, _ => Ok ""
  end.

#[local] Existing Instance sample_jp.
#[local] Existing Instance sample_pointer.

Definition kv_matcher : @CompiledJsonMatcher sample_jp :=
  {| jm_record := [Some "data"; Some "data"; None]; jm_value := []; jm_name := CnRecordKey;
     jm_item := None; jm_domain := None |}.

(** The state is the log of what was minted. *)
Definition log_mint (s : list MintRequest) (r : MintRequest) : string * list MintRequest :=
  ("fsp_" +:+ mr_name r, (s ++ [r])%list).

Definition sample_http : HttpCrate := {|
  HeaderMap := unit; hm_iter _ := []; hm_from_iter _ := tt; hm_remove _ m := m;
  header_name_from_bytes s := Ok s; authority_from_str s := Ok s |}.
#[local] Existing Instance sample_http.
#[local] Instance sample_uri : UriCrate := λ s, Ok (Some s).

Lemma json_rewrite_exact_witness :
  fst (json_rewrite log_mint kv_matcher "kv" []) = Ok "fsp_user:fsp_pass/word" ∧
  match json_rewrite log_mint kv_matcher "kv" [] with
  | (Err (MSerialize _), _) => True
  | (Err _, s') => s' = []
  | (Ok out, s') =>
      ∃ root root' locs requests phs,
        json_from_slice "kv" = Ok root ∧ json_to_vec root' = Ok out ∧
        extracted kv_matcher root locs requests ∧ run_mints log_mint requests [] = (phs, s') ∧
        replaced root root' locs phs
  end.
Proof.
  split; [vm_compute; reflexivity|].
  apply (@json_rewrite_exact sample_http sample_uri sample_jp sample_pointer sample_from_slice
    sample_to_vec sample_jp_laws sample_pointer_laws).
Defined.

End Samples.
