(* ===== verification/SecretGateway.v ===== *)
(** * The secret gateway ([firma-secret-provider/src/gateway], [store.rs])

    The dictionary of secrets that [firma run] keeps ([store.rs]), the listener
    that serves it ([gateway/server.rs]) and the Sidecar's client of it
    ([gateway/client]): one line of JSON each way, on a fresh connection.  A
    stream is the bytes the other side sends and how it ends; what the network
    does to an exchange is the record [Link] of the client and [Conn] of the
    server.

    [serde_json] on the wire types and [base64] are parameters, with their round
    trips as laws.  The store is behind a lock that each request takes once, so
    the requests of concurrent connections are modelled in the order in which
    they take it. *)

From S2P Require Import Prelude RustStr Core Mapping MappingHost SecretRewrite Redaction SecretMatcher.

#[local] Open Scope string_scope.
#[local] Open Scope Z_scope.

(** ** The dictionary ([store.rs]) *)

Record SecretEntry := { se_value : string; se_domain : list Authority }.

Record SecretDictionary := { sd_by_placeholder : gmap string SecretEntry }.

(** [SecretStore::new], [insert], [resolve], [len] and [is_empty]. *)
Definition dictionary_new : SecretDictionary := {| sd_by_placeholder := ∅ |}.

Definition dictionary_insert (d : SecretDictionary) (placeholder : string)
    (domain : list Authority) (secret : string) : SecretDictionary :=
  {| sd_by_placeholder :=
       <[placeholder := {| se_value := secret; se_domain := domain |}]> (sd_by_placeholder d) |}.

Definition dictionary_resolve (d : SecretDictionary) (placeholder : string) (domain : Authority)
    : option string :=
  entry ← sd_by_placeholder d !! placeholder;
  if bool_decide (se_domain entry = []) || hs_contains domain (se_domain entry)
  then Some (se_value entry) else None.

Definition dictionary_len (d : SecretDictionary) : nat := size (sd_by_placeholder d).
Definition dictionary_is_empty (d : SecretDictionary) : bool := Nat.eqb (dictionary_len d) 0.

(** ** Wire types ([gateway/mod.rs]) *)

Record ResolveRequest := { rr_placeholders : list string; rr_domain : Authority }.
Record PushRequest := { pr_placeholder : string; pr_value_b64 : string; pr_domain : list Authority }.

Inductive GatewayRequest := Resolve (r : ResolveRequest) | Push (p : PushRequest).

Inductive PlaceholderResult := PrOk (secret_b64 : string) | PrErr (error : string).
Inductive PushResponse := PushOk (placeholder : string) | PushErr (error : string).

(** ** Parameters *)

Class Base64 := {
  b64_encode : string → string;
  (** [STANDARD.decode]; the error is its [Display] *)
  b64_decode : string → Result string string;
}.

Class Base64Laws (B : Base64) := b64_decode_encode s : b64_decode (b64_encode s) = Ok s.

(** [Display] of the [FromUtf8Error] of a byte string. *)
Class Utf8ErrorDisplay := utf8_error : string → string.

(** [serde_json] at the wire types; the errors are their [Display]. *)
Class GatewayWire := {
  request_to_json : GatewayRequest → Result string string;
  request_from_json : string → Result GatewayRequest string;
  results_to_json : list PlaceholderResult → Result string string;
  results_from_json : string → Result (list PlaceholderResult) string;
  result_to_json : PlaceholderResult → Result string string;
  push_to_json : PushResponse → Result string string;
  push_from_json : string → Result PushResponse string;
}.

(** ** Streams *)

Definition newline : ascii := "010"%char.

(** How the bytes of the other side end. *)
Inductive StreamEnd := Eof | ReadError (error : string).

Record Stream := { st_bytes : string; st_end : StreamEnd }.

(** [read_until(b'\n')] or [read_line] on [stream.take(limit)]: the bytes up to
    and including the newline, or all there are. *)
Definition read_until_newline (limit : Z) (s : Stream) : Result string string :=
  let avail := str_take (Z.to_nat limit) (st_bytes s) in
  match split_once newline avail with
  | Some (line, _) => Ok (line +:+ String newline "")
  | None =>
      if Z.of_nat (String.length avail) =? limit then Ok avail
      else match st_end s with Eof => Ok avail | ReadError e => Err e end
  end.

Record BoundedLine := { bl_bytes : string; bl_terminated : bool }.

(** [read_bounded_line] ([broker/mod.rs]). *)
Definition read_bounded_line (s : Stream) (max_bytes : Z) : Result BoundedLine string :=
  let? line := read_until_newline (sat_add_u64 max_bytes 1) s in
  Ok (match strip_suffix (String newline "") line with
      | Some line => {| bl_bytes := line; bl_terminated := true |}
      | None => {| bl_bytes := line; bl_terminated := false |}
      end).

(** [drain_remaining] ([broker/mod.rs]). *)
Definition drain_remaining (s : Stream) : Result unit string :=
  match st_end s with Eof => Ok tt | ReadError e => Err e end.

(** ** The listener ([gateway/server.rs]) *)

Record GatewayConfig := { gc_max_buffer_size : Z }.

(** One accepted connection: what the peer sends, what becomes of a write. *)
Record Conn := { cn_in : Stream; cn_write : Result unit string }.

(** What an exchange writes, and how it ends. *)
Record Reply := { rp_written : string; rp_result : Result unit string }.

Definition reply_nothing (error : string) : Reply := {| rp_written := ""; rp_result := Err error |}.

Section Server.
Context {B : Base64} {W : GatewayWire} {UD : Utf8ErrorDisplay}.

(** [write_json_line] of a serialized value. *)
Definition write_json_line (c : Conn) (json : Result string string) : Reply :=
  match json with
  | Err e => reply_nothing ("failed to serialize gateway response: " +:+ e)
  | Ok payload => {| rp_written := payload +:+ String newline ""; rp_result := cn_write c |}
  end.

(** [write_error_line]. *)
Definition write_error_line (c : Conn) (message : string) : Reply :=
  write_json_line c (result_to_json (PrErr message)).

(** [handle_resolve]. *)
Definition resolve_result (d : SecretDictionary) (domain : Authority) (placeholder : string)
    : PlaceholderResult :=
  match dictionary_resolve d placeholder domain with
  | None => PrErr ("unknown placeholder: " +:+ placeholder)
  | Some secret => PrOk (b64_encode secret)
  end.

Definition handle_resolve (request : ResolveRequest) (c : Conn) (d : SecretDictionary) : Reply :=
  write_json_line c
    (results_to_json (resolve_result d (rr_domain request) <$> rr_placeholders request)).

(** [handle_push]. *)
Definition handle_push (request : PushRequest) (c : Conn) (d : SecretDictionary)
    : Reply * SecretDictionary :=
  match b64_decode (pr_value_b64 request) with
  | Err e => (write_json_line c (push_to_json (PushErr ("invalid base64 value: " +:+ e))), d)
  | Ok bytes =>
      if negb (utf8_valid bytes)
      then (write_json_line c (push_to_json (PushErr ("invalid utf8 value: " +:+ utf8_error bytes))), d)
      else
        let d := dictionary_insert d (pr_placeholder request) (pr_domain request) bytes in
        (write_json_line c (push_to_json (PushOk (pr_placeholder request))), d)
  end.

(** [handle_protocol]. *)
Definition handle_protocol (config : GatewayConfig) (c : Conn) (d : SecretDictionary)
    : Reply * SecretDictionary :=
  match read_bounded_line (cn_in c) (gc_max_buffer_size config) with
  | Err e => (reply_nothing e, d)
  | Ok line =>
      if gc_max_buffer_size config <? Z.of_nat (String.length (bl_bytes line)) then
        let reply := write_error_line c "request too large" in
        (match rp_result reply with
         | Ok _ => {| rp_written := rp_written reply; rp_result := drain_remaining (cn_in c) |}
         | Err _ => reply
         end, d)
      else if negb (utf8_valid (bl_bytes line)) then (reply_nothing "gateway request is not UTF-8", d)
      else
        let trimmed := trim (bl_bytes line) in
        if is_empty trimmed then (reply_nothing "empty gateway request", d)
        else match request_from_json trimmed with
             | Err e => (write_error_line c ("malformed request: " +:+ e), d)
             | Ok (Resolve resolve) => (handle_resolve resolve c d, d)
             | Ok (Push push) => handle_push push c d
             end
  end.

(** [reject_mismatched_peer]: the uid the kernel reports against our own. *)
Definition reject_mismatched_peer (expected_uid : Z) (peer_uid : Result Z string)
    : Result unit string :=
  let? actual_uid := peer_uid in
  if negb (actual_uid =? expected_uid) then
    Err ("gateway peer uid mismatch: expected uid=" +:+ display_uint expected_uid +:+ " got uid=" +:+
         display_uint actual_uid)
  else Ok tt.

(** What becomes of the exchange of an accepted connection under its deadline:
    it completes, or it is dropped before or after the store was touched. *)
Inductive Fate := Completes | DroppedBefore | DroppedAfter.

Definition run_exchange (config : GatewayConfig) (c : Conn) (fate : Fate) (d : SecretDictionary)
    : Reply * SecretDictionary :=
  let timeout := reply_nothing "operation timeout" in
  match fate with
  | Completes => handle_protocol config c d
  | DroppedBefore => (timeout, d)
  | DroppedAfter => (timeout, snd (handle_protocol config c d))
  end.

(** A task of [serve_tcp], which has no peer to check, and of [serve_unix]. *)
Definition serve_tcp_conn (config : GatewayConfig) (c : Conn) (fate : Fate) (d : SecretDictionary)
    : Reply * SecretDictionary := run_exchange config c fate d.

Definition serve_unix_conn (config : GatewayConfig) (expected_uid : Z) (peer_uid : Result Z string)
    (c : Conn) (fate : Fate) (d : SecretDictionary) : Reply * SecretDictionary :=
  match reject_mismatched_peer expected_uid peer_uid with
  | Err error => (write_error_line c ("peer credential validation failed: " +:+ error), d)
  | Ok _ => run_exchange config c fate d
  end.

End Server.

(** [is_transient_accept_error], and the accept loop over what [accept] returns:
    the connections served before it stops. *)
Inductive AcceptErrorKind :=
| Interrupted | WouldBlock | ConnectionAborted | ConnectionReset | ConnectionRefused
| FdLimit | OtherKind.

Definition is_transient_accept_error (kind : AcceptErrorKind) : bool :=
  match kind with OtherKind => false | _ => true end.

Fixpoint accept_loop {A} (accepts : list (Result A AcceptErrorKind)) : list A :=
  match accepts with
  | [] => []
  | Ok conn :: accepts => conn :: accept_loop accepts
  | Err kind :: accepts =>
      if is_transient_accept_error kind then accept_loop accepts else []
  end.

(** ** The client ([gateway/client]) *)

Inductive TransportError :=
| TConnectionTimeout
| TOperationTimeout
| TConnect (error : string)
| TWrite (error : string)
| TFlush (error : string)
| TRead (error : string)
| TEmpty.

Inductive ProtocolViolation :=
| PvDeserialize (error : string)
| PvMismatch (results placeholders : nat)
| PvPushPlaceholderMismatch (expected actual : string)
| PvMaxBufferSizeExceeded.

Inductive GatewayClientError :=
| GTransport (endpoint : string) (source : TransportError)
| GProtocolViolation (source : ProtocolViolation)
| GRejected (error : string)
| GBug (error : string).

Inductive ResolveError := ReBase64 (error : string) | ReUtf8 | ReGateway (error : string).

(** [Display] of the errors. *)
Definition transport_error_display (e : TransportError) : string :=
  match e with
  | TConnectionTimeout => "connection timeout"
  | TOperationTimeout => "operation timeout"
  | TConnect e => "connect failed: " +:+ e
  | TWrite e => "write failed: " +:+ e
  | TFlush e => "flush failed: " +:+ e
  | TRead e => "read failed: " +:+ e
  | TEmpty => "connection closed without a response"
  end.

Definition protocol_violation_display (e : ProtocolViolation) : string :=
  match e with
  | PvDeserialize e => "failed to decode gateway response: " +:+ e
  | PvMismatch results placeholders =>
      "gateway returned " +:+ show_nat results +:+ " results for " +:+ show_nat placeholders +:+
      " placeholders"
  | PvPushPlaceholderMismatch expected actual =>
      "gateway returned placeholder " +:+ actual +:+ " after pushing " +:+ expected
  | PvMaxBufferSizeExceeded => "gateway max buffer size exceeded"
  end.

Definition gateway_client_error_display (e : GatewayClientError) : string :=
  match e with
  | GTransport endpoint source =>
      "secret gateway (" +:+ endpoint +:+ "): " +:+ transport_error_display source
  | GProtocolViolation e => "secret gateway protocol violation: " +:+ protocol_violation_display e
  | GRejected e => "gateway rejected the request: " +:+ e
  | GBug e => "bug: failed to serialize gateway request: " +:+ e
  end.

Definition resolve_error_display (e : ResolveError) : string :=
  match e with
  | ReBase64 e => "gateway returned invalid base64: " +:+ e
  | ReUtf8 => "gateway returned invalid utf8"
  | ReGateway e => "gateway error: " +:+ e
  end.

Record GatewayClient := { gw_endpoint : string; gw_config : GatewayConfig }.

(** What the network does to one exchange of the client: connecting, writing
    the request, the operation's deadline, and the response that comes back for
    the bytes written. *)
Record Exchange := {
  xc_connect : option TransportError;
  xc_write : option TransportError;
  xc_timeout : bool;
  xc_response : Stream;
}.

Definition transport_error {A} (g : GatewayClient) (source : TransportError)
    : Result A GatewayClientError := Err (GTransport (gw_endpoint g) source).

(** [connect] under its deadline, then [send_and_receive]; the bytes it writes
    are the payload and a newline. *)
Definition send_and_receive (g : GatewayClient) (x : Exchange) : Result string GatewayClientError :=
  match xc_connect x with
  | Some e => transport_error g e
  | None =>
      if xc_timeout x then transport_error g TOperationTimeout
      else match xc_write x with
      | Some e => transport_error g e
      | None =>
          let max := gc_max_buffer_size (gw_config g) in
          match read_until_newline (sat_add_u64 max 1) (xc_response x) with
          | Err e => transport_error g (TRead e)
          | Ok line =>
              if negb (utf8_valid line)
              then transport_error g (TRead "stream did not contain valid UTF-8")
              else if max <? Z.of_nat (String.length line)
              then Err (GProtocolViolation PvMaxBufferSizeExceeded)
              else if is_empty (trim line) then transport_error g TEmpty
              else Ok (trim line)
          end
      end
  end.

Section Client.
Context {B : Base64} {W : GatewayWire}.

(** The secret of one result. *)
Definition decode_result (r : PlaceholderResult) : Result string ResolveError :=
  match r with
  | PrOk secret_b64 =>
      let? buffer := map_err ReBase64 (b64_decode secret_b64) in
      if utf8_valid buffer then Ok buffer else Err ReUtf8
  | PrErr error => Err (ReGateway error)
  end.

(** [GatewayClient::resolve_batch]; [x] is the exchange its payload meets. *)
Definition resolve_batch (g : GatewayClient) (x : string → Exchange) (placeholders : list string)
    (domain : Authority) : Result (Result (list string) ResolveError) GatewayClientError :=
  match placeholders with
  | [] => Ok (Ok [])
  | _ =>
      let? payload :=
        map_err GBug (request_to_json (Resolve {| rr_placeholders := placeholders; rr_domain := domain |})) in
      let? response_line := send_and_receive g (x payload) in
      let? results :=
        map_err (λ e, GProtocolViolation (PvDeserialize e)) (results_from_json response_line) in
      if negb (Nat.eqb (length results) (length placeholders)) then
        Err (GProtocolViolation (PvMismatch (length results) (length placeholders)))
      else Ok (try_imap (λ _, decode_result) 0 results)
  end.

(** [GatewayClient::push_secret]. *)
Definition push_secret (g : GatewayClient) (x : string → Exchange) (placeholder value : string)
    (domain : list Authority) : Result string GatewayClientError :=
  let? payload :=
    map_err GBug (request_to_json (Push {| pr_placeholder := placeholder;
                                           pr_value_b64 := b64_encode value; pr_domain := domain |})) in
  let? response_line := send_and_receive g (x payload) in
  match push_from_json response_line with
  | Ok (PushOk returned) =>
      if bool_decide (returned = placeholder) then Ok returned
      else Err (GProtocolViolation (PvPushPlaceholderMismatch placeholder returned))
  | Ok (PushErr error) => Err (GRejected error)
  | Err error => Err (GProtocolViolation (PvDeserialize error))
  end.

End Client.

(** ** Client and server over one link *)

(** What the network and the deadlines do to an exchange: whether the client
    connects, how many bytes of the request reach the server and how its stream
    ends, the fate of the server's task, whether its write succeeds, how many
    bytes of its reply reach the client and how that stream ends. *)
Record Link := {
  ln_connect : option TransportError;
  ln_sent : nat;
  ln_server_end : StreamEnd;
  ln_fate : Fate;
  ln_server_write : Result unit string;
  ln_client_write : option TransportError;
  ln_timeout : bool;
  ln_received : nat;
  ln_client_end : StreamEnd;
}.

Section Composed.
Context {B : Base64} {W : GatewayWire} {UD : Utf8ErrorDisplay}.

Definition server_conn (ln : Link) (payload : string) : Conn :=
  {| cn_in := {| st_bytes := str_take (ln_sent ln) (payload +:+ String newline "");
                 st_end := ln_server_end ln |};
     cn_write := ln_server_write ln |}.

(** The server's side of the exchange: nothing when the client never connects. *)
Definition server_side (config : GatewayConfig) (ln : Link) (payload : string) (d : SecretDictionary)
    : Reply * SecretDictionary :=
  match ln_connect ln with
  | Some _ => (reply_nothing "no connection", d)
  | None => serve_tcp_conn config (server_conn ln payload) (ln_fate ln) d
  end.

Definition client_side (config : GatewayConfig) (ln : Link) (d : SecretDictionary) (payload : string)
    : Exchange :=
  {| xc_connect := ln_connect ln; xc_write := ln_client_write ln; xc_timeout := ln_timeout ln;
     xc_response :=
       {| st_bytes := str_take (ln_received ln) (rp_written (server_side config ln payload d).1);
          st_end := ln_client_end ln |} |}.

(** The calls of the client against the server, with the dictionary they leave. *)
Definition do_resolve (config : GatewayConfig) (g : GatewayClient) (ln : Link)
    (placeholders : list string) (domain : Authority) (d : SecretDictionary)
    : Result (Result (list string) ResolveError) GatewayClientError * SecretDictionary :=
  (resolve_batch g (client_side config ln d) placeholders domain,
   match placeholders with
   | [] => d
   | _ => match request_to_json (Resolve {| rr_placeholders := placeholders; rr_domain := domain |}) with
          | Ok payload => (server_side config ln payload d).2
          | Err _ => d
          end
   end).

Definition do_push (config : GatewayConfig) (g : GatewayClient) (ln : Link) (placeholder value : string)
    (domain : list Authority) (d : SecretDictionary)
    : Result string GatewayClientError * SecretDictionary :=
  (push_secret g (client_side config ln d) placeholder value domain,
   match request_to_json (Push {| pr_placeholder := placeholder; pr_value_b64 := b64_encode value;
                                  pr_domain := domain |}) with
   | Ok payload => (server_side config ln payload d).2
   | Err _ => d
   end).

End Composed.

(** ** Laws of the wire *)

(** A line of JSON: one line of UTF-8 text that starts and ends with a visible
    byte. *)
Definition wire_text (t : string) : Prop :=
  utf8_valid t = true ∧ contains_char newline t = false ∧
  (∃ c rest, t = String c rest ∧ visible c = true) ∧ trim t = t.

(** Two sets of hosts with the same members. *)
Definition same_hosts (d d' : list Authority) : Prop :=
  (d = [] ↔ d' = []) ∧ ∀ a, hs_contains a d = hs_contains a d'.

Inductive same_request : GatewayRequest → GatewayRequest → Prop :=
| same_resolve r : same_request (Resolve r) (Resolve r)
| same_push ph v d d' : same_hosts d d' →
    same_request (Push {| pr_placeholder := ph; pr_value_b64 := v; pr_domain := d |})
                 (Push {| pr_placeholder := ph; pr_value_b64 := v; pr_domain := d' |}).

(** The values of the Rust types: placeholders that parse, authorities. *)
Section Typed.
Context {HC : HttpCrate} {PP : PlaceholderParse}.

Definition typed_placeholder (ph : string) : Prop := placeholder_parses ph = true.
Definition typed_authority (a : Authority) : Prop := authority_from_str a = Ok a.

Definition typed_request (r : GatewayRequest) : Prop :=
  match r with
  | Resolve r => Forall typed_placeholder (rr_placeholders r) ∧ typed_authority (rr_domain r)
  | Push p => typed_placeholder (pr_placeholder p) ∧ Forall typed_authority (pr_domain p)
  end.

Definition typed_push (r : PushResponse) : Prop :=
  match r with PushOk ph => typed_placeholder ph | PushErr _ => True end.

(** [serde_json]: what it writes it reads back, a set up to the order of its
    members; what is cut short, or is of another shape, it refuses.  An error
    line is the [err] of a push response as well. *)
Class GatewayWireLaws (W : GatewayWire) := {
  request_wire r t : request_to_json r = Ok t → wire_text t;
  request_round r t : typed_request r → request_to_json r = Ok t →
    ∃ r', request_from_json t = Ok r' ∧ same_request r r';
  request_cut r t p q : request_to_json r = Ok t → t = p +:+ q → q ≠ "" →
    is_ok (request_from_json p) = false;
  results_wire l t : results_to_json l = Ok t → wire_text t;
  results_round l t : results_to_json l = Ok t → results_from_json t = Ok l;
  results_cut l t p q : results_to_json l = Ok t → t = p +:+ q → q ≠ "" →
    is_ok (results_from_json p) = false;
  result_wire r t : result_to_json r = Ok t → wire_text t;
  result_not_array r t p q : result_to_json r = Ok t → t = p +:+ q →
    is_ok (results_from_json p) = false;
  result_as_push e t : result_to_json (PrErr e) = Ok t → push_from_json t = Ok (PushErr e);
  result_cut r t p q : result_to_json r = Ok t → t = p +:+ q → q ≠ "" →
    is_ok (push_from_json p) = false;
  push_wire r t : push_to_json r = Ok t → wire_text t;
  push_round r t : typed_push r → push_to_json r = Ok t → push_from_json t = Ok r;
  push_cut r t p q : push_to_json r = Ok t → t = p +:+ q → q ≠ "" →
    is_ok (push_from_json p) = false;
  push_not_array r t p q : push_to_json r = Ok t → t = p +:+ q →
    is_ok (results_from_json p) = false;
}.
End Typed.
Arguments GatewayWireLaws {_ _} W.

(** ** Facts: lines *)

Lemma newline_not_visible : visible newline = false.
Proof. reflexivity. Qed.

Lemma str_take_prefix n s : ∃ q, s = str_take n s +:+ q.
Proof. exists (str_drop n s). by rewrite str_take_drop. Qed.


Lemma visible_ws c : visible c = true → ws1 c = false ∧ is_ascii c = true.
Proof. unfold visible. intros [Ha Hw%negb_true_iff]%andb_true_iff. done. Qed.

Lemma trim_start_head c s : visible c = true → trim_start (String c s) = String c s.
Proof.
  intros [Hw Ha]%visible_ws. simpl. rewrite Hw. destruct s as [|b s]; [done|].
  rewrite ws2_not_ascii by done. destruct s as [|d s]; [done|]. by rewrite ws3_not_ascii.
Qed.

Lemma trim_end_prefix s : ∃ q, s = trim_end s +:+ q.
Proof.
  induction s as [|a s [q IH]]; [by exists ""|]. cbn [trim_end].
  destruct (decide _); [by exists (String a s)|]. exists q. cbn. by f_equal.
Qed.

(** Trimming a part of a line of JSON gives a part of it. *)
Lemma trim_cut t p q :
  wire_text t → t = p +:+ q → trim p = "" ∨ ∃ q', t = trim p +:+ q'.
Proof.
  intros (_ & _ & (c & rest & Ht & Hc) & _) Hp. destruct p as [|a p]; [by left|]. right.
  assert (a = c) as -> by (rewrite Ht in Hp; cbn in Hp; congruence).
  unfold trim. rewrite trim_start_head by done. destruct (trim_end_prefix (String c p)) as [r Hr].
  exists (r +:+ q). rewrite str_app_assoc, <-Hr. done.
Qed.

Lemma trim_start_newline n : ∀ s, (String.length s ≤ n)%nat →
  trim_start (s +:+ String newline "") =
  if decide (trim_start s = "") then "" else trim_start s +:+ String newline "".
Proof.
  induction n as [|n IH]; intros [|a s] Hn; simpl in Hn; try lia; [done..|].
  cbn [String.app trim_start]. destruct (ws1 a) eqn:E1; [apply IH; lia|].
  destruct s as [|b s]; cbn [String.app].
  { assert (ws2 a newline = false) as ->. { unfold ws2. destruct (byte a =? 194); done. }
    by rewrite decide_False. }
  destruct (ws2 a b) eqn:E2; [apply IH; simpl in Hn; lia|]. destruct s as [|d s]; cbn [String.app].
  { assert (ws3 a b newline = false) as ->.
    { unfold ws3. change (byte newline =? 128) with false. change (byte newline =? 159) with false.
      change (in_range 128 138 newline || in_range 168 169 newline || (byte newline =? 175)) with false.
      by rewrite !andb_false_r. }
    by rewrite decide_False. }
  destruct (ws3 a b d) eqn:E3; [apply IH; simpl in Hn; lia|]. by rewrite decide_False.
Qed.

Lemma trim_end_newline s : trim_end (s +:+ String newline "") = trim_end s.
Proof.
  induction s as [|a s IH]; [done|]. cbn [String.app trim_end].
  change (String a (s +:+ String newline "")) with (String a s +:+ String newline "").
  rewrite (trim_start_newline _ (String a s) (le_n _)), IH.
  destruct (decide (trim_start (String a s) = "")) as [E|E]; [done|].
  destruct (decide _) as [E'|_]; [|done]. by destruct (trim_start (String a s)).
Qed.

Lemma trim_wire t : wire_text t → trim (t +:+ String newline "") = t.
Proof.
  intros (_ & _ & (c & rest & -> & Hc) & Ht). unfold trim in *.
  cbn [String.app]. rewrite trim_start_head by done. rewrite (trim_start_head c rest Hc) in Ht.
  change (String c (rest +:+ String newline "")) with (String c rest +:+ String newline "").
  by rewrite trim_end_newline.
Qed.

Lemma str_take_app_cut n s t :
  str_take n (s +:+ t) = if decide (n ≤ String.length s)%nat then str_take n s
                         else s +:+ str_take (n - String.length s) t.
Proof.
  revert n. induction s as [|a s IH]; intros [|n]; try done; simpl.
  rewrite IH. destruct (decide _), (decide _); try lia; done.
Qed.

(** What is read of a line of JSON of which [n] bytes arrive: a part of the
    line, or the line and its newline. *)
Lemma read_line_cases limit t n e line :
  wire_text t →
  read_until_newline limit {| st_bytes := str_take n (t +:+ String newline ""); st_end := e |} = Ok line →
  (∃ q, t = line +:+ q) ∨ line = t +:+ String newline "".
Proof.
  intros (_ & Hnl & _) H. unfold read_until_newline in H. cbn [st_bytes st_end] in H.
  assert (∃ k, str_take (Z.to_nat limit) (str_take n (t +:+ String newline "")) =
               str_take k (t +:+ String newline "")) as [k Hk].
  { generalize (t +:+ String newline ""), (Z.to_nat limit). clear. intros s m. exists (Nat.min m n).
    revert n s. induction m as [|m IH]; intros [|n] [|a s]; try done.
    simpl. by rewrite IH. }
  rewrite Hk in H. clear Hk. rewrite str_take_app_cut in H.
  destruct (decide (k ≤ String.length t)%nat) as [Hle|Hgt].
  - assert (contains_char newline (str_take k t) = false) as Hc.
    { destruct (str_take_prefix k t) as [q Hq]. rewrite Hq, contains_char_app in Hnl.
      by apply orb_false_iff in Hnl as [? _]. }
    left. apply split_once_None in Hc as Hn. rewrite Hn in H.
    assert (line = str_take k t) as -> by (destruct (Z.of_nat _ =? _); destruct e; congruence).
    apply str_take_prefix.
  - right. destruct (k - String.length t)%nat as [|j] eqn:Ej; [lia|].
    replace (str_take (S j) (String newline "")) with (String newline "") in H by (by destruct j).
    rewrite split_once_app in H by done. congruence.
Qed.

(** A line that fits is read whole. *)
Lemma read_line_whole limit t n e :
  wire_text t → Z.of_nat (S (String.length t)) ≤ limit → (String.length t < n)%nat →
  read_until_newline limit {| st_bytes := str_take n (t +:+ String newline ""); st_end := e |} =
  Ok (t +:+ String newline "").
Proof.
  intros (_ & Hnl & _) Hl Hn. unfold read_until_newline. cbn [st_bytes st_end].
  assert (∀ m, (String.length t < m)%nat →
    str_take m (t +:+ String newline "") = t +:+ String newline "") as H.
  { intros m Hm. rewrite str_take_app_cut, decide_False by lia.
    destruct (m - String.length t)%nat eqn:E; [lia|]. by destruct n0. }
  rewrite (H n Hn), H by lia. by rewrite split_once_app.
Qed.

(** ** Facts: one exchange *)

Section Facts.
Context {HC : HttpCrate} {PP : PlaceholderParse}.
Context {B : Base64} {W : GatewayWire} {UD : Utf8ErrorDisplay}.
Context {BL : Base64Laws B} {WL : GatewayWireLaws W}.

(** The replies that carry no answer: nothing, or an error line. *)
Definition error_reply (w : string) : Prop :=
  w = "" ∨ ∃ e t, result_to_json (PrErr e) = Ok t ∧ w = t +:+ String newline "".

Lemma write_error_reply c message : error_reply (rp_written (write_error_line c message)).
Proof.
  unfold write_error_line, write_json_line. destruct (result_to_json _) as [t|] eqn:E; [|by left].
  right. by exists message, t.
Qed.

Lemma bounded_line_cut t n e max line :
  wire_text t →
  read_bounded_line {| st_bytes := str_take n (t +:+ String newline ""); st_end := e |} max = Ok line →
  ∃ q, t = bl_bytes line +:+ q.
Proof.
  intros Ht. unfold read_bounded_line. destruct (read_until_newline _ _) as [l|] eqn:E; [|done].
  apply read_line_cases in E as [[q Hq]|El]; [| |done].
  - destruct (strip_suffix _ l) as [l'|] eqn:Es; intros [= <-]; [|by exists q].
    apply strip_suffix_Some in Es. subst l. exists (String newline "" +:+ q). by rewrite str_app_assoc.
  - subst l. destruct (strip_suffix _ _) as [l'|] eqn:Es; intros [= <-].
    + apply strip_suffix_Some in Es. exists "". rewrite str_app_nil_r. cbn [bl_bytes].
      clear -Es. revert l' Es. induction t as [|a t IH]; intros [|b l'] Es; try done.
      * by destruct l'.
      * by destruct t.
      * cbn in Es. injection Es as -> Es. f_equal. by apply IH.
    + exfalso. assert (strip_suffix (String newline "") (t +:+ String newline "") = Some t) as Hs
        by by apply strip_suffix_Some. by rewrite Hs in Es.
Qed.

(** The server acts on a request only when all of it arrived. *)
Lemma handle_protocol_cases config ln r t d :
  typed_request r → request_to_json r = Ok t →
  (error_reply (rp_written (handle_protocol config (server_conn ln t) d).1) ∧
   (handle_protocol config (server_conn ln t) d).2 = d) ∨
  ∃ r', same_request r r' ∧
    handle_protocol config (server_conn ln t) d =
    match r' with
    | Resolve q => (handle_resolve q (server_conn ln t) d, d)
    | Push p => handle_push p (server_conn ln t) d
    end.
Proof.
  intros Hty Hr. pose proof (request_wire _ _ Hr) as Ht. unfold handle_protocol.
  destruct (read_bounded_line _ _) as [line|] eqn:El; [|by left; split; [left|]].
  apply bounded_line_cut in El as [q Hq]; [|done].
  destruct (_ <? _).
  { left. split; [|done]. cbn [fst]. pose proof (write_error_reply (server_conn ln t) "request too large").
    by destruct (rp_result _). }
  destruct (utf8_valid (bl_bytes line)); [|by left; split; [left|]]. cbn [negb].
  destruct (trim_cut _ _ _ Ht Hq) as [He|[q' Hq']].
  { rewrite He. left. by split; [left|]. }
  destruct (is_empty _); [by left; split; [left|]|].
  destruct (decide (q' = "")) as [->|Hne].
  - rewrite str_app_nil_r in Hq'. rewrite <-Hq'.
    destruct (request_round _ _ Hty Hr) as (r' & -> & Hs). right. exists r'. by destruct r'.
  - pose proof (request_cut _ _ _ _ Hr Hq' Hne) as Hc.
    destruct (request_from_json _); [done|]. left. split; [|done]. apply write_error_reply.
Qed.

(** What the client reads of a reply. *)
Lemma received_cut g x t n :
  wire_text t → st_bytes (xc_response x) = str_take n (t +:+ String newline "") →
  ∀ line, send_and_receive g x = Ok line → ∃ q, t = line +:+ q.
Proof.
  intros Ht Hx line. unfold send_and_receive.
  destruct (xc_connect x); [done|]. destruct (xc_timeout x); [done|]. destruct (xc_write x); [done|].
  destruct (xc_response x) as [bytes e]. cbn in Hx. subst bytes.
  destruct (read_until_newline _ _) as [l|] eqn:E; [|done].
  destruct (utf8_valid l); [|done]. destruct (_ <? _); [done|]. cbn [negb].
  destruct (is_empty (trim l)) eqn:Ee; [done|]. intros [= <-].
  apply read_line_cases in E as [[q Hq]| ->]; [| |done].
  - destruct (trim_cut _ _ _ Ht Hq) as [He|?]; [by rewrite He in Ee|done].
  - rewrite trim_wire by done. exists "". by rewrite str_app_nil_r.
Qed.

Lemma received_nothing g x : st_bytes (xc_response x) = "" → is_ok (send_and_receive g x) = false.
Proof.
  intros Hx. unfold send_and_receive.
  destruct (xc_connect x); [done|]. destruct (xc_timeout x); [done|]. destruct (xc_write x); [done|].
  unfold read_until_newline. rewrite Hx. replace (str_take _ "") with "" by (by destruct (Z.to_nat _)).
  cbn [split_once]. destruct (_ =? _); [|destruct (st_end _)]; try done; cbn [utf8_valid negb];
    by destruct (_ <? _).
Qed.


Lemma str_take_empty n : str_take n "" = "".
Proof. by destruct n. Qed.

(** The client's part of an exchange whose server wrote [w]. *)
Lemma error_reply_push g x n w line :
  error_reply w → st_bytes (xc_response x) = str_take n w → send_and_receive g x = Ok line →
  ∀ ph, push_from_json line ≠ Ok (PushOk ph).
Proof.
  intros [->|(e & t & Ht & ->)] Hx Hs ph.
  { rewrite str_take_empty in Hx. pose proof (received_nothing g x Hx) as H. by rewrite Hs in H. }
  destruct (received_cut g x t n (result_wire _ _ Ht) Hx _ Hs) as [q Hq].
  destruct (decide (q = "")) as [->|Hne].
  - rewrite str_app_nil_r in Hq. subst line. by rewrite (result_as_push _ _ Ht).
  - pose proof (result_cut _ _ _ _ Ht Hq Hne) as H. by destruct (push_from_json line).
Qed.

Lemma error_reply_resolve g x n w line :
  error_reply w → st_bytes (xc_response x) = str_take n w → send_and_receive g x = Ok line →
  is_ok (results_from_json line) = false.
Proof.
  intros [->|(e & t & Ht & ->)] Hx Hs.
  { rewrite str_take_empty in Hx. pose proof (received_nothing g x Hx) as H. by rewrite Hs in H. }
  destruct (received_cut g x t n (result_wire _ _ Ht) Hx _ Hs) as [q Hq].
  by eapply result_not_array.
Qed.

(** The push of a string stores it and says so, whatever becomes of the reply. *)
Lemma handle_push_string ph v dom c d :
  utf8_valid v = true →
  handle_push {| pr_placeholder := ph; pr_value_b64 := b64_encode v; pr_domain := dom |} c d =
  (write_json_line c (push_to_json (PushOk ph)), dictionary_insert d ph dom v).
Proof. intros Hv. unfold handle_push. cbn. by rewrite b64_decode_encode, Hv. Qed.

(** What the server side of a push can do. *)
Lemma server_side_push config ln ph v dom t d :
  typed_request (Push {| pr_placeholder := ph; pr_value_b64 := b64_encode v; pr_domain := dom |}) →
  utf8_valid v = true →
  request_to_json (Push {| pr_placeholder := ph; pr_value_b64 := b64_encode v; pr_domain := dom |}) = Ok t →
  ((server_side config ln t d).2 = d ∧ error_reply (rp_written (server_side config ln t d).1)) ∨
  ∃ dom', same_hosts dom dom' ∧ (server_side config ln t d).2 = dictionary_insert d ph dom' v ∧
    (error_reply (rp_written (server_side config ln t d).1) ∨
     ∃ u, push_to_json (PushOk ph) = Ok u ∧
          rp_written (server_side config ln t d).1 = u +:+ String newline "").
Proof.
  intros Hty Hv Ht. unfold server_side. destruct (ln_connect ln); [by left; split; [|left]|].
  unfold serve_tcp_conn, run_exchange.
  destruct (handle_protocol_cases config ln _ _ d Hty Ht) as [[He Hd]|(r' & Hs & Hp)].
  { destruct (ln_fate ln); left; split; try done; by left. }
  inversion Hs as [|? ? ? dom' Hh]; subst. rewrite handle_push_string in Hp by done. rewrite Hp.
  destruct (ln_fate ln); [|by left; split; [|left]|]; right; exists dom'; (split_and!; [done..|]).
  - cbn [fst]. unfold write_json_line. destruct (push_to_json (PushOk ph)) as [u|]; [|by left; left].
    right. by exists u.
  - by left; left.
Qed.

(** A push stores the secret or leaves the dictionary, and is acknowledged only
    when it is stored. *)
Lemma do_push_spec config g ln ph v dom d :
  typed_placeholder ph → Forall typed_authority dom → utf8_valid v = true →
  ((do_push config g ln ph v dom d).2 = d ∧ is_ok (do_push config g ln ph v dom d).1 = false) ∨
  ∃ dom', same_hosts dom dom' ∧
    (do_push config g ln ph v dom d).2 = dictionary_insert d ph dom' v.
Proof.
  intros Hph Hdom Hv. unfold do_push, push_secret. cbn [fst snd].
  destruct (request_to_json _) as [t|] eqn:Ht; [|by left]. cbn.
  destruct (server_side_push config ln ph v dom t d) as [[Hd He]|(dom' & Hh & Hd & _)];
    [done..| |right; by exists dom'].
  left. split; [done|]. destruct (send_and_receive _ _) as [line|] eqn:Es; [|done]. cbn.
  pose proof (error_reply_push g (client_side config ln d t) (ln_received ln) _ line He eq_refl Es) as Hn.
  destruct (push_from_json line) as [[ph'|]|] eqn:Ep; try done. by destruct (Hn ph').
Qed.

(** An acknowledged push returns its own placeholder: whatever the server says. *)
Lemma push_secret_own g x ph v dom ph' : push_secret g x ph v dom = Ok ph' → ph' = ph.
Proof.
  unfold push_secret. destruct (request_to_json _); [|done]. cbn.
  destruct (send_and_receive _ _); [|done]. cbn. destruct (push_from_json _) as [[q|]|]; try done.
  case_bool_decide; [|done]. congruence.
Qed.

Lemma decode_results d host phs : ∀ k vs,
  try_imap (λ _, decode_result) k (resolve_result d host <$> phs) = Ok vs →
  Forall2 (λ ph v, dictionary_resolve d ph host = Some v) phs vs.
Proof.
  induction phs as [|ph phs IH]; intros k vs; [by intros [= <-]|]. rewrite fmap_cons. cbn [try_imap].
  unfold resolve_result at 1. destruct (dictionary_resolve d ph host) as [v|] eqn:E; [|done].
  cbn [decode_result]. rewrite b64_decode_encode. cbn. destruct (utf8_valid v); [|done].
  destruct (try_imap _ _ _) as [vs'|] eqn:Et; [|done]. intros [= <-]. constructor; [done|]. by eapply IH.
Qed.

(** What the server side of a resolve can do. *)
Lemma server_side_resolve config ln phs host t d :
  typed_request (Resolve {| rr_placeholders := phs; rr_domain := host |}) →
  request_to_json (Resolve {| rr_placeholders := phs; rr_domain := host |}) = Ok t →
  (server_side config ln t d).2 = d ∧
  (error_reply (rp_written (server_side config ln t d).1) ∨
   ∃ u, results_to_json (resolve_result d host <$> phs) = Ok u ∧
        rp_written (server_side config ln t d).1 = u +:+ String newline "").
Proof.
  intros Hty Ht. unfold server_side, serve_tcp_conn, run_exchange.
  destruct (ln_connect ln); [by split; [|left; left]|].
  destruct (handle_protocol_cases config ln _ _ d Hty Ht) as [[He Hd]|(r' & Hs & Hp)].
  { destruct (ln_fate ln); (split; [done|]); [by left|by left; left..]. }
  inversion Hs; subst. rewrite Hp. destruct (ln_fate ln); (split; [done|]); try (by left; left).
  cbn [fst]. unfold handle_resolve, write_json_line. cbn.
  destruct (results_to_json _) as [u|]; [|by left; left]. right. by exists u.
Qed.

(** A resolve leaves the dictionary, and what it returns is what it holds for
    that host. *)
Lemma do_resolve_spec config g ln phs host d :
  Forall typed_placeholder phs → typed_authority host →
  (do_resolve config g ln phs host d).2 = d ∧
  ∀ vs, (do_resolve config g ln phs host d).1 = Ok (Ok vs) →
    Forall2 (λ ph v, dictionary_resolve d ph host = Some v) phs vs.
Proof.
  intros Hph Hh. unfold do_resolve, resolve_batch. cbn [fst snd].
  destruct phs as [|ph0 phs0]; [by split; [|intros vs [= <-]]|].
  set (phs := ph0 :: phs0) in *. clearbody phs.
  destruct (request_to_json _) as [t|] eqn:Ht; [|done]. cbn.
  destruct (server_side_resolve config ln phs host t d) as [Hd Hw]; [done..|].
  split; [done|]. intros vs. destruct (send_and_receive _ _) as [line|] eqn:Es; [|done]. cbn.
  destruct Hw as [He|(u & Hu & Hw)].
  { pose proof (error_reply_resolve g (client_side config ln d t) (ln_received ln) _ line He eq_refl Es).
    by destruct (results_from_json line). }
  destruct (received_cut g (client_side config ln d t) u (ln_received ln) (results_wire _ _ Hu)) with line as [q Hq];
    [cbn; by rewrite Hw|done|].
  destruct (decide (q = "")) as [->|Hne].
  - rewrite str_app_nil_r in Hq. subst line. rewrite (results_round _ _ Hu). cbn.
    destruct (Nat.eqb _ _); [|done]. cbn. intros [= Hv]. by eapply decode_results.
  - pose proof (results_cut _ _ _ _ Hu Hq Hne). by destruct (results_from_json line).
Qed.


(** ** Facts: a link that loses nothing *)

(** The link carries [t] one way and [u] back, within both limits. *)
Record intact (config : GatewayConfig) (g : GatewayClient) (ln : Link) (t u : string) : Prop := {
  in_connect : ln_connect ln = None;
  in_sent : (String.length t < ln_sent ln)%nat;
  in_fate : ln_fate ln = Completes;
  in_write : ln_client_write ln = None;
  in_timeout : ln_timeout ln = false;
  in_received : (String.length u < ln_received ln)%nat;
  in_server_fits : Z.of_nat (String.length t) ≤ gc_max_buffer_size config < u64_max;
  in_client_fits : Z.of_nat (S (String.length u)) ≤ gc_max_buffer_size (gw_config g) < u64_max;
}.

Lemma strip_newline t : strip_suffix (String newline "") (t +:+ String newline "") = Some t.
Proof. by apply strip_suffix_Some. Qed.

Lemma wire_newline_valid t : wire_text t → utf8_valid (t +:+ String newline "") = true.
Proof. intros (Hu & _). by apply utf8_valid_app. Qed.

Lemma handle_protocol_whole config g ln r t u d :
  intact config g ln t u → typed_request r → request_to_json r = Ok t →
  ∃ r', same_request r r' ∧
    handle_protocol config (server_conn ln t) d =
    match r' with
    | Resolve q => (handle_resolve q (server_conn ln t) d, d)
    | Push p => handle_push p (server_conn ln t) d
    end.
Proof.
  intros Hi Hty Ht. pose proof (request_wire _ _ Ht) as Hw. destruct (in_server_fits _ _ _ _ _ Hi) as [Hf Hm].
  unfold handle_protocol, read_bounded_line. cbn [cn_in server_conn].
  rewrite read_line_whole; [|done| |by apply (in_sent _ _ _ _ _ Hi)]; [|unfold sat_add_u64; lia].
  rewrite strip_newline. cbn [bl_bytes]. rewrite (proj2 (Z.ltb_ge _ _)) by lia.
  destruct Hw as (Hu & _ & (c & rest & Hc & _) & Htr). rewrite Hu, Htr. cbn [negb].
  assert (is_empty t = false) as ->. { apply bool_decide_eq_false. by rewrite Hc. }
  destruct (request_round _ _ Hty Ht) as (r' & -> & Hs). exists r'. by destruct r'.
Qed.

Lemma receive_whole config g ln t u d :
  intact config g ln t u → wire_text u →
  rp_written (server_side config ln t d).1 = u +:+ String newline "" →
  send_and_receive g (client_side config ln d t) = Ok u.
Proof.
  intros Hi Hw Hr. destruct (in_client_fits _ _ _ _ _ Hi) as [Hf Hm]. unfold send_and_receive, client_side.
  cbn [xc_connect xc_write xc_timeout xc_response].
  rewrite (in_connect _ _ _ _ _ Hi), (in_write _ _ _ _ _ Hi), (in_timeout _ _ _ _ _ Hi), Hr.
  rewrite read_line_whole; [|done| |by apply (in_received _ _ _ _ _ Hi)]; [|unfold sat_add_u64; lia].
  rewrite wire_newline_valid by done. cbn [negb]. rewrite (proj2 (Z.ltb_ge _ _)).
  - rewrite trim_wire by done. destruct Hw as (_ & _ & (c & rest & -> & _) & _). done.
  - rewrite str_length_app. cbn [String.length]. lia.
Qed.

Lemma same_hosts_resolve dom dom' d ph v host :
  same_hosts dom dom' →
  dictionary_resolve (dictionary_insert d ph dom' v) ph host =
  if bool_decide (dom = []) || hs_contains host dom then Some v else None.
Proof.
  intros [He Hc]. unfold dictionary_resolve, dictionary_insert. cbn. rewrite lookup_insert_eq. cbn.
  by rewrite Hc, (bool_decide_ext _ _ He).
Qed.

Lemma server_side_intact config g ln t u d :
  intact config g ln t u → server_side config ln t d = handle_protocol config (server_conn ln t) d.
Proof.
  intros Hi. unfold server_side, serve_tcp_conn, run_exchange.
  by rewrite (in_connect _ _ _ _ _ Hi), (in_fate _ _ _ _ _ Hi).
Qed.

Lemma push_delivered config g ln ph v dom d t u :
  typed_placeholder ph → Forall typed_authority dom → utf8_valid v = true →
  request_to_json (Push {| pr_placeholder := ph; pr_value_b64 := b64_encode v; pr_domain := dom |}) = Ok t →
  push_to_json (PushOk ph) = Ok u → intact config g ln t u →
  ∃ dom', same_hosts dom dom' ∧
    do_push config g ln ph v dom d = (Ok ph, dictionary_insert d ph dom' v).
Proof.
  intros Hph Hdom Hv Ht Hu Hi.
  destruct (handle_protocol_whole config g ln
    (Push {| pr_placeholder := ph; pr_value_b64 := b64_encode v; pr_domain := dom |}) t u d Hi)
    as (r' & Hs & Hp); [done..|].
  inversion Hs as [|? ? ? dom' Hh]; subst. exists dom'. split; [done|].
  rewrite handle_push_string, <-(server_side_intact config g ln t u) in Hp by done.
  unfold do_push, push_secret. rewrite Ht, Hp. cbn.
  rewrite (receive_whole _ _ _ _ u); [|done|by eapply push_wire|by rewrite Hp, Hu].
  cbn. rewrite (push_round (PushOk ph) u Hph Hu). by rewrite bool_decide_eq_true_2.
Qed.

Lemma resolve_delivered config g ln phs host d t u :
  phs ≠ [] → Forall typed_placeholder phs → typed_authority host →
  request_to_json (Resolve {| rr_placeholders := phs; rr_domain := host |}) = Ok t →
  results_to_json (resolve_result d host <$> phs) = Ok u → intact config g ln t u →
  (do_resolve config g ln phs host d).1 =
    Ok (try_imap (λ _, decode_result) 0 (resolve_result d host <$> phs)).
Proof.
  intros Hne Hph Hh Ht Hu Hi.
  destruct (handle_protocol_whole config g ln
    (Resolve {| rr_placeholders := phs; rr_domain := host |}) t u d Hi) as (r' & Hs & Hp); [done..|].
  inversion Hs; subst. rewrite <-(server_side_intact config g ln t u) in Hp by done.
  unfold do_resolve, resolve_batch. cbn [fst]. destruct phs as [|ph0 phs0]; [done|].
  set (phs := ph0 :: phs0) in *. clearbody phs. rewrite Ht. cbn.
  rewrite (receive_whole _ _ _ _ u); [|done|by eapply results_wire|].
  - cbn. rewrite (results_round _ _ Hu). cbn. by rewrite length_fmap, Nat.eqb_refl.
  - rewrite Hp. unfold handle_resolve. cbn. by rewrite Hu.
Qed.

(** Over a link that loses nothing, a secret that is pushed is acknowledged
    under its own placeholder, and a later resolve of that placeholder gives the
    secret to every host of its scope (to every host at all when the scope is
    empty) and tells any other host that the placeholder is unknown. *)
Theorem gateway_delivers config g ln ln' ph v dom host d t u t' u' :
  typed_placeholder ph → Forall typed_authority dom → typed_authority host → utf8_valid v = true →
  request_to_json (Push {| pr_placeholder := ph; pr_value_b64 := b64_encode v; pr_domain := dom |}) = Ok t →
  push_to_json (PushOk ph) = Ok u → intact config g ln t u →
  let admitted := bool_decide (dom = []) || hs_contains host dom in
  request_to_json (Resolve {| rr_placeholders := [ph]; rr_domain := host |}) = Ok t' →
  results_to_json [if admitted then PrOk (b64_encode v)
                   else PrErr ("unknown placeholder: " +:+ ph)] = Ok u' →
  intact config g ln' t' u' →
  (do_push config g ln ph v dom d).1 = Ok ph ∧
  (do_resolve config g ln' [ph] host (do_push config g ln ph v dom d).2).1 =
    Ok (if admitted then Ok [v] else Err (ReGateway ("unknown placeholder: " +:+ ph))).
Proof.
  intros Hph Hdom Hhost Hv Ht Hu Hi admitted Ht' Hu' Hi'.
  destruct (push_delivered config g ln ph v dom d t u) as (dom' & Hh & ->); [done..|]. split; [done|].
  cbn [snd]. set (d1 := dictionary_insert d ph dom' v).
  assert (resolve_result d1 host ph =
    if admitted then PrOk (b64_encode v) else PrErr ("unknown placeholder: " +:+ ph)) as Hr.
  { unfold resolve_result, d1. rewrite (same_hosts_resolve dom) by done. fold admitted. by destruct admitted. }
  rewrite (resolve_delivered config g ln' [ph] host d1 t' u'); 
    [|done|by apply Forall_singleton|done|done|by cbn; rewrite Hr|done].
  cbn. rewrite Hr. destruct admitted; cbn; [|done]. by rewrite b64_decode_encode; cbn; rewrite Hv.
Qed.


(** ** Histories *)

(** What happens to the dictionary, in the order of its lock: a push of the
    Sidecar, a resolve, an insert by the broker of [firma run]. *)
Inductive Op :=
| OpPush (ln : Link) (ph v : string) (dom : list Authority)
| OpResolve (ln : Link) (phs : list string) (host : Authority)
| OpInsert (ph v : string) (dom : list Authority).

(** Whether the one who acted was told that it took effect. *)
Definition step (config : GatewayConfig) (g : GatewayClient) (op : Op) (d : SecretDictionary)
    : bool * SecretDictionary :=
  match op with
  | OpPush ln ph v dom =>
      let '(r, d) := do_push config g ln ph v dom d in (is_ok r, d)
  | OpResolve ln phs host =>
      let '(r, d) := do_resolve config g ln phs host d in (is_ok r, d)
  | OpInsert ph v dom => (true, dictionary_insert d ph dom v)
  end.

Definition typed_op (op : Op) : Prop :=
  match op with
  | OpPush _ ph v dom => typed_placeholder ph ∧ Forall typed_authority dom ∧ utf8_valid v = true
  | OpResolve _ phs host => Forall typed_placeholder phs ∧ typed_authority host
  | OpInsert _ _ _ => True
  end.

Inductive history (config : GatewayConfig) (g : GatewayClient)
    : list (Op * bool) → SecretDictionary → Prop :=
| history_start : history config g [] dictionary_new
| history_step log d op :
    history config g log d → typed_op op →
    history config g (log ++ [(op, (step config g op d).1)])%list (step config g op d).2.

(** The operation wrote [v] for [ph], scoped to [dom]. *)
Definition writes (op : Op) (ph v : string) (dom : list Authority) : Prop :=
  match op with
  | OpPush _ ph' v' dom' | OpInsert ph' v' dom' => ph' = ph ∧ v' = v ∧ dom' = dom
  | OpResolve _ _ _ => False
  end.

(** It is the last write of [ph]: none that was acknowledged came after it. *)
Definition last_write (log : list (Op * bool)) (ph v : string) (dom : list Authority) : Prop :=
  ∃ before op acked after, log = (before ++ (op, acked) :: after)%list ∧ writes op ph v dom ∧
    ∀ op' v' dom', (op', true) ∈ after → ¬ writes op' ph v' dom'.

Definition explained (log : list (Op * bool)) (d : SecretDictionary) : Prop :=
  ∀ ph e, sd_by_placeholder d !! ph = Some e →
    ∃ dom, same_hosts dom (se_domain e) ∧ last_write log ph (se_value e) dom.

Lemma explained_extend log d op acked :
  explained log d → (∀ ph v dom, acked = true → ¬ writes op ph v dom) →
  explained (log ++ [(op, acked)])%list d.
Proof.
  intros Hx Hn ph e He. destruct (Hx ph e He) as (dom & Hs & before & op0 & a0 & after & -> & Hw & Hl).
  exists dom. split; [done|]. exists before, op0, a0, (after ++ [(op, acked)])%list.
  split_and!; [by rewrite <-app_assoc|done|].
  intros op' v' dom' [Hin|[= -> <-]%list_elem_of_singleton]%elem_of_app; [by apply Hl|by apply Hn].
Qed.

Lemma explained_insert log d op acked ph v dom dom' :
  explained log d → writes op ph v dom → same_hosts dom dom' →
  explained (log ++ [(op, acked)])%list (dictionary_insert d ph dom' v).
Proof.
  intros Hx Hw Hs q e. unfold dictionary_insert. cbn. intros He.
  destruct (decide (ph = q)) as [<-|Hne].
  - rewrite lookup_insert_eq in He. injection He as <-. exists dom. split; [done|].
    exists log, op, acked, []. split_and!; [done..|]. by intros ? ? ? ?%not_elem_of_nil.
  - rewrite lookup_insert_ne in He by done.
    destruct (Hx q e He) as (dom0 & Hs0 & before & op0 & a0 & after & -> & Hw0 & Hl).
    exists dom0. split; [done|]. exists before, op0, a0, (after ++ [(op, acked)])%list.
    split_and!; [by rewrite <-app_assoc|done|].
    intros op' v' d' [Hin|[= -> _]%list_elem_of_singleton]%elem_of_app; [by apply Hl|].
    destruct op; cbn in *; intuition congruence.
Qed.

Lemma history_explained config g log d : history config g log d → explained log d.
Proof.
  induction 1 as [|log d op _ IH Hty]; [intros ph e He; cbn in He; by rewrite lookup_empty in He|].
  destruct op as [ln ph v dom|ln phs host|ph v dom]; cbn [step].
  - destruct Hty as (Hph & Hdom & Hv).
    pose proof (do_push_spec config g ln ph v dom d Hph Hdom Hv) as Hp.
    destruct (do_push config g ln ph v dom d) as [r d']. cbn [fst snd] in *.
    destruct Hp as [[-> Hr]|(dom' & Hs & ->)].
    + apply explained_extend; [done|]. intros; congruence.
    + by eapply explained_insert.
  - destruct Hty as [Hph Hh]. pose proof (do_resolve_spec config g ln phs host d Hph Hh) as [Hd _].
    destruct (do_resolve config g ln phs host d) as [r d']. cbn [fst snd] in *. subst d'.
    apply explained_extend; [done|]. by intros ? ? ? ? [].

  - by eapply explained_insert.
Qed.

(** [C15] The gateway is a dictionary, whatever the network does.  After any
    interleaving of pushes, resolves and inserts by the broker, over links that
    may cut a request or a reply at any byte, fail or time out at any point, a
    resolve that returns secrets returns, for each placeholder in the order
    asked, the secret of a write of that very placeholder that no acknowledged
    write has since replaced, and only to a host of that secret's scope; and it
    does not change the dictionary. *)
Theorem gateway_linearizes config g log d ln phs host vs :
  history config g log d → Forall typed_placeholder phs → typed_authority host →
  (do_resolve config g ln phs host d).1 = Ok (Ok vs) →
  (do_resolve config g ln phs host d).2 = d ∧
  Forall2 (λ ph v, ∃ dom, last_write log ph v dom ∧ (dom = [] ∨ hs_contains host dom = true)) phs vs.
Proof.
  intros Hh%history_explained Hph Hhost Hr.
  destruct (do_resolve_spec config g ln phs host d Hph Hhost) as [Hd Hvs]. split; [done|].
  eapply Forall2_impl; [by apply Hvs|]. intros ph v Hres. unfold dictionary_resolve in Hres.
  destruct (sd_by_placeholder d !! ph) as [e|] eqn:He; [|done]. cbn in Hres.
  destruct (Hh ph e He) as (dom & [Hempty Hc] & Hl). exists dom.
  destruct (bool_decide (se_domain e = [])) eqn:Hb.
  - injection Hres as <-. split; [done|]. left. apply Hempty. by apply bool_decide_eq_true in Hb.
  - destruct (hs_contains host (se_domain e)) eqn:Hm; [|done]. injection Hres as <-.
    split; [done|]. right. by rewrite Hc.
Qed.

(** The client on its own, against any peer: a batch comes back whole or not at
    all, and a push is acknowledged only under the placeholder it sent. *)
Lemma resolve_batch_whole g x phs host vs :
  resolve_batch g x phs host = Ok (Ok vs) → length vs = length phs.
Proof.
  unfold resolve_batch. destruct phs as [|ph phs]; [by intros [= <-]|].
  destruct (request_to_json _); [|done]. cbn. destruct (send_and_receive _ _); [|done]. cbn.
  destruct (results_from_json _) as [results|]; [|done]. cbn [map_err].
  destruct (Nat.eqb (length results) _) eqn:E; [|done]. cbn. intros [= [Hl _]%try_imap_spec].
  apply Nat.eqb_eq in E. by rewrite Hl, E.
Qed.

(** A peer of another user reaches neither the protocol nor the dictionary. *)
Lemma other_user_refused config expected uid c fate d :
  uid ≠ expected →
  (serve_unix_conn config expected (Ok uid) c fate d).2 = d ∧
  error_reply (rp_written (serve_unix_conn config expected (Ok uid) c fate d).1).
Proof.
  intros Hne. unfold serve_unix_conn, reject_mismatched_peer. cbn.
  rewrite (proj2 (Z.eqb_neq _ _) Hne). split; [done|]. apply write_error_reply.
Qed.

End Facts.

(** ** Samples *)

(** A wire format with the laws: a tag, fields of letters, a final dot. *)
Module Samples.

Definition nibble (n : N) : ascii := Ascii.ascii_of_N (97 + n).
Definition unnibble (c : ascii) : N := (Ascii.N_of_ascii c - 97)%N.

Fixpoint letters (s : string) : string :=
  match s with
  | EmptyString => ""
  | String c s =>
      String (nibble (Ascii.N_of_ascii c / 16)) (String (nibble (Ascii.N_of_ascii c mod 16)) (letters s))
  end.

Fixpoint unletters (s : string) : string :=
  match s with
  | String a (String b s) =>
      String (Ascii.ascii_of_N (16 * unnibble a + unnibble b)) (unletters s)
  | _ => ""
  end.

Lemma unletters_letters s : unletters (letters s) = s.
Proof. induction s as [|c s IH]; [done|]. cbn [letters unletters]. rewrite IH. by destruct c as [[] [] [] [] [] [] [] []]. Qed.

Definition letter (c : ascii) : bool := in_range 97 112 c.

Lemma letters_letter s : str_forallb letter (letters s) = true.
Proof. induction s as [|c s IH]; [done|]. cbn. rewrite IH. by destruct c as [[] [] [] [] [] [] [] []]. Qed.

Definition field (s : string) : string := "," +:+ letters s.

Fixpoint fields (fs : list string) : string :=
  match fs with [] => "" | f :: fs => field f +:+ fields fs end.

Definition enc (tag : ascii) (fs : list string) : string := String tag (fields fs +:+ ".").

Definition dec (s : string) : option (ascii * list string) :=
  match strip_suffix "." s with
  | Some (String tag body) => Some (tag, unletters <$> List.tl (split_char ","%char body))
  | _ => None
  end.

Lemma letters_no c s : letter c = false → contains_char c (letters s) = false.
Proof.
  intros Hc. pose proof (letters_letter s) as H. revert H. generalize (letters s).
  induction s0 as [|a s0 IH]; [done|]. cbn. intros [Ha Hs]%andb_true_iff. rewrite IH by done.
  case_bool_decide; [congruence|done].
Qed.

Lemma fields_split t fs :
  contains_char ","%char t = false → split_char ","%char (t +:+ fields fs) = t :: (letters <$> fs).
Proof.
  revert t. induction fs as [|f fs IH]; intros t Ht; cbn.
  - by rewrite str_app_nil_r, split_char_single.
  - rewrite split_char_app by done. f_equal. apply IH. by apply letters_no.
Qed.

Lemma dec_enc tag fs : dec (enc tag fs) = Some (tag, fs).
Proof.
  unfold dec, enc.
  assert (strip_suffix "." (String tag (fields fs +:+ ".")) = Some (String tag (fields fs))) as ->
    by by apply strip_suffix_Some.
  change (fields fs) with ("" +:+ fields fs). rewrite fields_split by done. cbn. do 2 f_equal.
  induction fs as [|f fs IH]; [done|]. cbn. by rewrite unletters_letters, IH.
Qed.

Lemma fields_no_dot fs : contains_char "."%char (fields fs) = false.
Proof. induction fs as [|f fs IH]; [done|]. cbn. by rewrite contains_char_app, letters_no, IH. Qed.

Lemma dec_cut tag fs p q : tag ≠ "."%char → enc tag fs = p +:+ q → q ≠ "" → dec p = None.
Proof.
  intros Htag H Hq. unfold dec. destruct (strip_suffix "." p) as [b|] eqn:E; [|done].
  apply strip_suffix_Some in E. subst p. exfalso.
  change (enc tag fs) with (String tag (fields fs) +:+ ".") in H. rewrite <-str_app_assoc in H.
  assert (∀ b x y, contains_char "."%char x = false → x +:+ "." = b +:+ String "." y → y = "") as K.
  { clear. induction b as [|a b IH]; intros [|c x] y Hx; cbn; intros Hy; simplify_eq.
    - done.
    - by destruct b.
    - cbn in Hx. apply orb_false_iff in Hx as [_ Hx]. by eapply IH. }
  apply Hq, (K b (String tag (fields fs)) q); [|done]. cbn. rewrite fields_no_dot, orb_false_r.
  by apply bool_decide_eq_false.
Qed.

Lemma enc_visible tag fs : visible tag = true → visible_str (enc tag fs) = true.
Proof.
  intros Ht. unfold enc, visible_str. cbn. rewrite Ht. cbn. rewrite str_forallb_app. apply andb_true_iff. split; [|done].
  induction fs as [|f fs IH]; [done|]. cbn. rewrite str_forallb_app, IH, andb_true_r.
  apply (str_forallb_impl letter); [|apply letters_letter]. intros c. by destruct c as [[] [] [] [] [] [] [] []].
Qed.

Lemma enc_wire tag fs : visible tag = true → wire_text (enc tag fs).
Proof.
  intros Ht. pose proof (enc_visible tag fs Ht) as Hv. split_and!.
  - apply utf8_valid_ascii. apply (str_forallb_impl visible); [|done]. by intros c [_ ?]%visible_ws.
  - revert Hv. generalize (enc tag fs). induction s as [|a s IH]; [done|]. cbn. intros [Ha Hs]%andb_true_iff.
    rewrite IH by done. case_bool_decide; [by subst|done].
  - by exists tag, (fields fs +:+ ".").
  - by apply trim_visible.
Qed.

Definition result_field (r : PlaceholderResult) : string :=
  match r with PrOk s => "o" +:+ s | PrErr s => "e" +:+ s end.
Definition field_result (s : string) : PlaceholderResult :=
  match s with String "o" s => PrOk s | String _ s => PrErr s | EmptyString => PrErr "" end.

#[local] Instance letters_wire : GatewayWire := {|
  request_to_json r :=
    Ok (match r with
        | Resolve r => enc "r" (rr_domain r :: rr_placeholders r)
        | Push p => enc "q" (pr_placeholder p :: pr_value_b64 p :: pr_domain p)
        end);
  request_from_json s :=
    match dec s with
    | Some (tag, a :: fs) =>
        if bool_decide (tag = "r"%char) then Ok (Resolve {| rr_placeholders := fs; rr_domain := a |})
        else match fs with
             | v :: d => Ok (Push {| pr_placeholder := a; pr_value_b64 := v; pr_domain := d |})
             | [] => Err "missing field"
             end
    | _ => Err "expected request"
    end;
  results_to_json l := Ok (enc "[" (result_field <$> l));
  results_from_json s :=
    match dec s with
    | Some (tag, fs) => if bool_decide (tag = "["%char) then Ok (field_result <$> fs) else Err "expected array"
    | None => Err "EOF"
    end;
  result_to_json r := Ok (match r with PrOk s => enc "o" [s] | PrErr s => enc "e" [s] end);
  push_to_json r := Ok (match r with PushOk s => enc "p" [s] | PushErr s => enc "e" [s] end);
  push_from_json s :=
    match dec s with
    | Some (tag, [f]) => if bool_decide (tag = "p"%char) then Ok (PushOk f)
                         else if bool_decide (tag = "e"%char) then Ok (PushErr f) else Err "unknown variant"
    | _ => Err "EOF"
    end;
|}.

#[local] Instance plain_base64 : Base64 := {| b64_encode s := s; b64_decode s := Ok s |}.
#[local] Instance plain_base64_laws : Base64Laws plain_base64.
Proof. by intros s. Qed.

Lemma dec_none_or_whole tag fs p q :
  tag ≠ "."%char → enc tag fs = p +:+ q → dec p = None ∨ dec p = Some (tag, fs).
Proof.
  intros Ht Hp. destruct (decide (q = "")) as [->|Hq]; [|left; by eapply dec_cut].
  rewrite str_app_nil_r in Hp. right. by rewrite <-Hp, dec_enc.
Qed.

#[local] Instance letters_wire_laws {HC : HttpCrate} {PP : PlaceholderParse} : GatewayWireLaws letters_wire.
Proof.
  split.
  - intros [r|r] t [= <-]; by apply enc_wire.
  - intros [r|[ph v d]] t _ [= <-]; eexists; cbn; rewrite dec_enc; cbn; (split; [done|]).
    + destruct r. constructor.
    + by constructor.
  - intros [r|r] t p q [= <-] Hp Hq; cbn -[enc] in *;
      (erewrite dec_cut; [reflexivity| |exact Hp|exact Hq]; discriminate).
  - intros l t [= <-]; by apply enc_wire.
  - intros l t [= <-]; cbn. rewrite dec_enc. cbn. f_equal.
    induction l as [|[s|s] l IH]; [done|..]; cbn; by rewrite IH.
  - intros l t p q [= <-] Hp Hq; cbn -[enc] in *;
      (erewrite dec_cut; [reflexivity| |exact Hp|exact Hq]; discriminate).
  - intros [r|r] t [= <-]; by apply enc_wire.
  - intros [r|r] t p q [= <-] Hp; cbn -[enc] in *;
      (eapply dec_none_or_whole in Hp; [destruct Hp as [E|E]; rewrite E; reflexivity|discriminate]).
  - intros e t [= <-]; cbn. by rewrite dec_enc.
  - intros [r|r] t p q [= <-] Hp Hq; cbn -[enc] in *;
      (erewrite dec_cut; [reflexivity| |exact Hp|exact Hq]; discriminate).
  - intros [r|r] t [= <-]; by apply enc_wire.
  - intros [r|r] t _ [= <-]; cbn; by rewrite dec_enc.
  - intros [r|r] t p q [= <-] Hp Hq; cbn -[enc] in *;
      (erewrite dec_cut; [reflexivity| |exact Hp|exact Hq]; discriminate).
  - intros [r|r] t p q [= <-] Hp; cbn -[enc] in *;
      (eapply dec_none_or_whole in Hp; [destruct Hp as [E|E]; rewrite E; reflexivity|discriminate]).
Qed.


#[local] Existing Instance SecretMatcher.Samples.sample_http.
#[local] Instance prefix_placeholder : PlaceholderParse := starts_with "fsp_".
#[local] Instance plain_utf8_error : Utf8ErrorDisplay := λ _, "invalid utf-8 sequence".

Definition sample_config : GatewayConfig := {| gc_max_buffer_size := 200 |}.
Definition sample_client : GatewayClient :=
  {| gw_endpoint := "unix:///run/gateway.sock"; gw_config := sample_config |}.

Definition whole_link : Link :=
  {| ln_connect := None; ln_sent := 300; ln_server_end := Eof; ln_fate := Completes;
     ln_server_write := Ok tt; ln_client_write := None; ln_timeout := false;
     ln_received := 300; ln_client_end := Eof |}.

(** The reply of the first push is lost after the server stored the secret. *)
Definition cut_link : Link :=
  {| ln_connect := None; ln_sent := 300; ln_server_end := Eof; ln_fate := DroppedAfter;
     ln_server_write := Ok tt; ln_client_write := None; ln_timeout := true;
     ln_received := 3; ln_client_end := ReadError "reset" |}.

Definition push_a : Op := OpPush cut_link "fsp_a" "s3cret" ["api.example"].
Definition after_push : SecretDictionary := (step sample_config sample_client push_a dictionary_new).2.

Lemma gateway_linearizes_witness :
  (do_resolve sample_config sample_client whole_link ["fsp_a"] "API.example" after_push).1
    = Ok (Ok ["s3cret"]) ∧
  (do_resolve sample_config sample_client whole_link ["fsp_a"] "API.example" after_push).2 = after_push ∧
  Forall2 (λ ph v, ∃ dom, last_write [(push_a, false)] ph v dom ∧
             (dom = [] ∨ hs_contains "API.example" dom = true)) ["fsp_a"] ["s3cret"].
Proof.
  split; [vm_compute; reflexivity|].
  apply (gateway_linearizes sample_config sample_client [(push_a, false)] after_push whole_link
           ["fsp_a"] "API.example" ["s3cret"]).
  - assert ((step sample_config sample_client push_a dictionary_new).1 = false) as <-
      by (vm_compute; reflexivity).
    apply (history_step sample_config sample_client [] dictionary_new push_a); [constructor|].
    split_and!; [reflexivity| |reflexivity]. by repeat constructor.
  - by repeat constructor.
  - reflexivity.
  - vm_compute; reflexivity.
Defined.

Lemma gateway_delivers_witness :
  (do_push sample_config sample_client whole_link "fsp_b" "s3cret" ["api.example"] dictionary_new).1
    = Ok "fsp_b" ∧
  (do_resolve sample_config sample_client whole_link ["fsp_b"] "evil.example"
     (do_push sample_config sample_client whole_link "fsp_b" "s3cret" ["api.example"] dictionary_new).2).1
    = Ok (Err (ReGateway "unknown placeholder: fsp_b")).
Proof.
  eapply (gateway_delivers sample_config sample_client whole_link whole_link "fsp_b" "s3cret"
           ["api.example"] "evil.example" dictionary_new);
    [reflexivity|by repeat constructor|reflexivity|reflexivity|reflexivity|reflexivity| |
     reflexivity|reflexivity|].
  - split; vm_compute; try reflexivity; try lia; split; (discriminate || reflexivity).
  - split; vm_compute; try reflexivity; try lia; split; (discriminate || reflexivity).
Defined.

End Samples.
