(* ===== verification/SecretBroker.v ===== *)
(** * The secret broker ([firma-secret-provider/src/broker], [firma-run/src/secret])

    The shim inside the sandbox asks the broker outside it to run a vault CLI
    ([broker/client], [firma-secret-shim.rs]); the broker serves one request per
    connection ([broker/server.rs]), runs the real tool and replaces the secrets
    of its output by placeholders ([secret/serve.rs], [secret/accept.rs]).

    A child process is the sequence of reads of its two pipes and the status it
    ends with.  [serde_json] at the wire types and [base64] are parameters. *)

From S2P Require Import Prelude RustStr Core Mapping MappingHost Json SecretRewrite Redaction SecretProvider.
From S2P Require Import SecretMatcher SecretGateway RustPath.

#[local] Open Scope string_scope.
#[local] Open Scope Z_scope.

(** ** Wire types ([broker/mod.rs]) *)

Definition BROKER_CONTROL_VERSION : Z := 1.

Record BrokerRequest := { bq_bin : string; bq_args : list string }.

Inductive BrokerOutputChunk := OutStdout (bytes : string) | OutStderr (bytes : string).
Inductive BrokerResponseChunk := RcStdout (data : string) | RcStderr (data : string).

Inductive BrokerExitStatus := Exited (code : Z) | Signaled (signal : Z) | UnknownStatus.

(** [BrokerExitStatus::from] on [status.code()] and [status.signal()]. *)
Definition exit_status_from (code signal : option Z) : BrokerExitStatus :=
  match code, signal with
  | Some code, _ => Exited code
  | None, Some signal => Signaled signal
  | None, None => UnknownStatus
  end.

Inductive BrokerResponse :=
| Executed (output : list BrokerResponseChunk) (status : BrokerExitStatus)
| Rejected (error : string).

Record BrokerOutput := { bo_output : list BrokerOutputChunk; bo_status : BrokerExitStatus }.

Inductive DecodedBrokerResponse := DecExecuted (output : BrokerOutput) | DecRejected (error : string).

Inductive BrokerResponseDecodeError :=
| DecStdout (index : nat) (source : string)
| DecStderr (index : nat) (source : string).

Section Response.
Context {B : Base64}.

(** [BrokerResponse::executed]. *)
Definition encode_chunk (chunk : BrokerOutputChunk) : BrokerResponseChunk :=
  match chunk with
  | OutStdout bytes => RcStdout (b64_encode bytes)
  | OutStderr bytes => RcStderr (b64_encode bytes)
  end.

Definition response_executed (output : list BrokerOutputChunk) (status : BrokerExitStatus)
    : BrokerResponse := Executed (encode_chunk <$> output) status.

(** [BrokerResponse::decode]. *)
Definition decode_chunk (index : nat) (chunk : BrokerResponseChunk)
    : Result BrokerOutputChunk BrokerResponseDecodeError :=
  match chunk with
  | RcStdout data => let? bytes := map_err (DecStdout index) (b64_decode data) in Ok (OutStdout bytes)
  | RcStderr data => let? bytes := map_err (DecStderr index) (b64_decode data) in Ok (OutStderr bytes)
  end.

Definition response_decode (r : BrokerResponse)
    : Result DecodedBrokerResponse BrokerResponseDecodeError :=
  match r with
  | Executed output status =>
      let? output := try_imap decode_chunk 0 output in
      Ok (DecExecuted {| bo_output := output; bo_status := status |})
  | Rejected error => Ok (DecRejected error)
  end.

End Response.

(** ** Parameters *)

(** [serde_json] at the wire types.  [raw_request] is the request before its
    binary's name is validated; [serde_custom] the error of a failed validation,
    for a text and a message; [readiness_version] the version of a readiness
    request. *)
Class BrokerWire := {
  bw_request_to_json : BrokerRequest → Result string string;
  raw_request : string → Result (string * list string) string;
  serde_custom : string → string → string;
  readiness_version : Json → Result Z string;
  response_to_vec : BrokerResponse → Result string string;
  response_from_str : string → Result BrokerResponse string;
  ready_to_vec : Z → Result string string;
}.

(** [Display] of [BinaryNameError]. *)
Definition binary_name_error_display (e : BinaryNameError) : string :=
  match e with
  | BnEmpty => "binary name must not be empty"
  | BnNotBasename value => "binary name must be a single path component: " +:+ value
  end.

(** [from_str::<BrokerRequest>], with the [Deserialize] of [BinaryName]. *)
Definition request_from_str {W : BrokerWire} (s : string) : Result BrokerRequest string :=
  let? (bin, args) := raw_request s in
  let? bin := map_err (λ e, serde_custom s (binary_name_error_display e)) (binary_name_new bin) in
  Ok {| bq_bin := bin; bq_args := args |}.

(** ** The listener ([broker/server.rs]) *)

Record BrokerConfig := { bc_max_request_size : Z; bc_max_response_size : Z }.

Inductive AcceptError := AeListener (error : string) | AeConnection (error : string).

Section Server.
Context {B : Base64} {W : BrokerWire} {SJ : SerdeJson}.
Context {H : Type} (handler : BrokerRequest → H → BrokerResponse * H).

(** [serialize_response] of a serialized value. *)
Definition serialize_response (json : Result string string) (max : Z)
    : Result (option string) string :=
  let? payload := map_err (λ e, "failed to serialize broker response: " +:+ e) json in
  if max <? Z.of_nat (String.length payload) then Ok None
  else Ok (Some (payload +:+ String newline "")).

Definition write_payload (c : Conn) (payload : string) : Reply :=
  {| rp_written := payload; rp_result := cn_write c |}.

(** [write_response]. *)
Definition write_response (c : Conn) (response : BrokerResponse) (max : Z) : Reply :=
  match serialize_response (response_to_vec response) max with
  | Err e => reply_nothing e
  | Ok (Some payload) => write_payload c payload
  | Ok None =>
      match serialize_response (response_to_vec (Rejected "response too large")) max with
      | Err e => reply_nothing e
      | Ok (Some payload) => write_payload c payload
      | Ok None =>
          reply_nothing "configured max_response_bytes is smaller than the smallest error response"
      end
  end.

(** [write_serializable_response] of the readiness response. *)
Definition write_ready (c : Conn) (max : Z) : Reply :=
  match serialize_response (ready_to_vec BROKER_CONTROL_VERSION) max with
  | Err e => reply_nothing e
  | Ok (Some payload) => write_payload c payload
  | Ok None => write_response c (Rejected "response too large") max
  end.

(** [handle_control_request]. *)
Definition handle_control_request (c : Conn) (value : Json) (max : Z) : Reply :=
  match readiness_version value with
  | Err e => write_response c (Rejected ("malformed broker control request: " +:+ e)) max
  | Ok version =>
      if negb (version =? BROKER_CONTROL_VERSION) then
        write_response c
          (Rejected ("unsupported broker control version " +:+ display_uint version +:+
                     "; expected " +:+ display_uint BROKER_CONTROL_VERSION)) max
      else write_ready c max
  end.

(** [handle_connection]. *)
Definition handle_broker_connection (config : BrokerConfig) (c : Conn) (h : H) : Reply * H :=
  let max := bc_max_response_size config in
  match read_bounded_line (cn_in c) (bc_max_request_size config) with
  | Err e => (reply_nothing e, h)
  | Ok line =>
      if bc_max_request_size config <? Z.of_nat (String.length (bl_bytes line)) then
        let reply := write_response c (Rejected "request too large") max in
        (match rp_result reply with
         | Ok _ => {| rp_written := rp_written reply; rp_result := drain_remaining (cn_in c) |}
         | Err _ => reply
         end, h)
      else if negb (bl_terminated line) then (reply_nothing "broker request is not newline-terminated", h)
      else if negb (utf8_valid (bl_bytes line)) then (reply_nothing "broker request is not UTF-8", h)
      else
        let trimmed := trim (bl_bytes line) in
        if is_empty trimmed then (write_response c (Rejected "empty broker request") max, h)
        else match json_from_slice trimmed with
        | Err e => (write_response c (Rejected ("malformed broker request: " +:+ e)) max, h)
        | Ok value =>
            match json_get "control" value with
            | Some _ => (handle_control_request c value max, h)
            | None =>
                match request_from_str trimmed with
                | Ok request =>
                    let '(response, h) := handler request h in
                    (write_response c response max, h)
                | Err e => (write_response c (Rejected ("malformed broker request: " +:+ e)) max, h)
                end
            end
        end
  end.

(** [reject_mismatched_peer] of the broker. *)
Definition reject_broker_peer (expected_uid : Z) (peer_uid : Result Z string) : Result unit string :=
  let? actual_uid := peer_uid in
  if negb (actual_uid =? expected_uid) then
    Err ("broker peer uid mismatch: expected uid=" +:+ display_uint expected_uid +:+ " got uid=" +:+
         display_uint actual_uid)
  else Ok tt.

(** What [listener.accept()] gives: an error of the listener, a TCP stream, or a
    Unix stream with the uid of its peer. *)
Inductive Accepted :=
| AcceptFailed (error : string)
| AcceptedTcp (c : Conn)
| AcceptedUnix (c : Conn) (peer_uid : Result Z string).

(** [BrokerListener::accept_one]; an exchange past its deadline is dropped
    before or after the handler ran. *)
Definition bounded_exchange (config : BrokerConfig) (c : Conn) (fate : Fate) (h : H)
    : Result unit AcceptError * string * H :=
  let timeout := Err (AeConnection "broker connection exceeded operation timeout") in
  let '(reply, h') := handle_broker_connection config c h in
  match fate with
  | Completes => (map_err AeConnection (rp_result reply), rp_written reply, h')
  | DroppedBefore => (timeout, "", h)
  | DroppedAfter => (timeout, "", h')
  end.

Definition accept_one (config : BrokerConfig) (expected_uid : Z) (a : Accepted) (fate : Fate) (h : H)
    : Result unit AcceptError * string * H :=
  match a with
  | AcceptFailed e => (Err (AeListener e), "", h)
  | AcceptedTcp c => bounded_exchange config c fate h
  | AcceptedUnix c peer_uid =>
      match reject_broker_peer expected_uid peer_uid with
      | Err error =>
          let response := Rejected ("peer credential validation failed: " +:+ error) in
          (Err (AeConnection error),
           rp_written (write_response c response (bc_max_response_size config)), h)
      | Ok _ => bounded_exchange config c fate h
      end
  end.

(** [serve_forever] ([secret/accept.rs]): only an error of the listener stops it. *)
Fixpoint serve_forever (config : BrokerConfig) (expected_uid : Z) (accepts : list (Accepted * Fate))
    (h : H) : H :=
  match accepts with
  | [] => h
  | (a, fate) :: accepts =>
      let '(result, _, h) := accept_one config expected_uid a fate h in
      match result with
      | Err (AeListener _) => h
      | Ok _ | Err (AeConnection _) => serve_forever config expected_uid accepts h
      end
  end.

End Server.

(** ** The socket file ([broker/server.rs]) *)

Record SocketIdentity := { si_device : Z; si_inode : Z }.

#[export] Instance socket_identity_eq_dec : EqDecision SocketIdentity.
Proof. solve_decision. Defined.

(** What [symlink_metadata] says of a path: whether it is a socket, and which. *)
Record Metadata := { md_is_socket : bool; md_identity : SocketIdentity }.

Inductive FsError := FsNotFound | FsRefused | FsOther (error : string).

Inductive PrepareError := PrOccupied | PrActive | PrChanged | PrIo (e : FsError).

(** What the file system answers, call by call: the metadata, the connect probe,
    the metadata again, the removal. *)
Record SocketProbe := {
  sp_first : Result Metadata FsError;
  sp_connect : Result unit FsError;
  sp_second : Result Metadata FsError;
  sp_remove : Result unit FsError;
}.

(** [remove_socket_if_same], and whether the file was removed. *)
Definition remove_socket_if_same (second : Result Metadata FsError) (remove : Result unit FsError)
    (expected : SocketIdentity) : Result bool FsError * bool :=
  match second with
  | Err FsNotFound => (Ok false, false)
  | Err e => (Err e, false)
  | Ok metadata =>
      if negb (bool_decide (md_identity metadata = expected)) then (Ok false, false)
      else match remove with Ok _ => (Ok true, true) | Err e => (Err e, false) end
  end.

(** [prepare_unix_socket_path], and whether it removed a file. *)
Definition prepare_unix_socket_path (p : SocketProbe) : Result unit PrepareError * bool :=
  match sp_first p with
  | Err FsNotFound => (Ok tt, false)
  | Err e => (Err (PrIo e), false)
  | Ok metadata =>
      if negb (md_is_socket metadata) then (Err PrOccupied, false)
      else match sp_connect p with
      | Ok _ => (Err PrActive, false)
      | Err FsRefused =>
          match remove_socket_if_same (sp_second p) (sp_remove p) (md_identity metadata) with
          | (Ok true, removed) => (Ok tt, removed)
          | (Ok false, removed) => (Err PrChanged, removed)
          | (Err e, removed) => (Err (PrIo e), removed)
          end
      | Err FsNotFound => (Ok tt, false)
      | Err e => (Err (PrIo e), false)
      end
  end.

(** ** The client ([broker/client]) *)

Inductive UnavailableError := UConnectionTimeout | UConnect (error : string).
Inductive OutcomeUnknownError :=
| OOperationTimeout | OWrite (error : string) | ORead (error : string) | OEmpty | OUnterminatedResponse.
Inductive PeerAuthenticationError :=
| PaCredential (error : string) | PaUidMismatch (expected_uid actual_uid : Z).
Inductive BrokerViolation :=
| BvDeserialize (error : string) | BvOutput (error : BrokerResponseDecodeError)
| BvInvalidUtf8 | BvResponseTooLarge.

(** The errors of a client, which has one endpoint: the [endpoint] the first
    three carry for display is left out. *)
Inductive BrokerClientError :=
| BeUnavailable (source : UnavailableError)
| BeOutcomeUnknown (source : OutcomeUnknownError)
| BePeerAuthentication (source : PeerAuthenticationError)
| BeProtocolViolation (source : BrokerViolation)
| BeRejected (error : string)
| BeInvalidEndpoint (error : string)
| BeInvalidBinaryName (source : BinaryNameError)
| BeRequestTooLarge (size max : Z)
| BeBug (error : string).

(** What the network does to one call: the connection, the uid of the broker's
    socket (a TCP endpoint has none), the write, the deadline, the response. *)
Record BrokerExchange := {
  bx_connect : option UnavailableError;
  bx_peer_uid : option (Result Z string);
  bx_write : option string;
  bx_timeout : bool;
  bx_response : Stream;
}.

Section Client.
Context {B : Base64} {W : BrokerWire}.

(** [validate_broker_peer_credentials]. *)
Definition validate_broker_peer_credentials (expected_uid : Z) (peer_uid : Result Z string)
    : Result unit BrokerClientError :=
  match peer_uid with
  | Err e => Err (BePeerAuthentication (PaCredential e))
  | Ok actual_uid =>
      if negb (actual_uid =? expected_uid)
      then Err (BePeerAuthentication (PaUidMismatch expected_uid actual_uid)) else Ok tt
  end.

(** [BrokerClient::connect]. *)
Definition broker_connect (expected_uid : Z) (x : BrokerExchange) : Result unit BrokerClientError :=
  match bx_connect x with
  | Some e => Err (BeUnavailable e)
  | None => match bx_peer_uid x with
            | None => Ok tt
            | Some peer_uid => validate_broker_peer_credentials expected_uid peer_uid
            end
  end.

(** [BrokerClient::send_and_receive]. *)
Definition broker_send_and_receive {T} (config : BrokerConfig) (x : BrokerExchange)
    (exec : BrokerResponse → Result T BrokerClientError) : Result T BrokerClientError :=
  let unknown e := Err (BeOutcomeUnknown e) in
  if bx_timeout x then unknown OOperationTimeout
  else match bx_write x with
  | Some e => unknown (OWrite e)
  | None =>
      match read_bounded_line (bx_response x) (bc_max_response_size config) with
      | Err e => unknown (ORead e)
      | Ok line =>
          if bc_max_response_size config <? Z.of_nat (String.length (bl_bytes line))
          then Err (BeProtocolViolation BvResponseTooLarge)
          else if negb (bl_terminated line) then
            if is_empty (bl_bytes line) then unknown OEmpty else unknown OUnterminatedResponse
          else if negb (utf8_valid (bl_bytes line)) then Err (BeProtocolViolation BvInvalidUtf8)
          else
            let trimmed := trim (bl_bytes line) in
            if is_empty trimmed then unknown OEmpty
            else match response_from_str trimmed with
                 | Err e => Err (BeProtocolViolation (BvDeserialize e))
                 | Ok response => exec response
                 end
      end
  end.

(** [BrokerClient::request]; [x] is the exchange the payload meets. *)
Definition broker_request {T} (config : BrokerConfig) (uid : Z) (x : string → BrokerExchange)
    (request : BrokerRequest) (exec : BrokerResponse → Result T BrokerClientError)
    : Result T BrokerClientError :=
  let? payload := map_err BeBug (bw_request_to_json request) in
  if bc_max_request_size config <? Z.of_nat (String.length payload) then
    Err (BeRequestTooLarge (Z.of_nat (String.length payload)) (bc_max_request_size config))
  else
    let? _ := broker_connect uid (x payload) in
    broker_send_and_receive config (x payload) exec.

(** The closure of [run]. *)
Definition run_response (response : BrokerResponse) : Result BrokerOutput BrokerClientError :=
  match response_decode response with
  | Ok (DecExecuted output) => Ok output
  | Ok (DecRejected error) => Err (BeRejected error)
  | Err error => Err (BeProtocolViolation (BvOutput error))
  end.

(** [BrokerClient::run]. *)
Definition broker_run (config : BrokerConfig) (uid : Z) (x : string → BrokerExchange) (bin : string)
    (args : list string) : Result BrokerOutput BrokerClientError :=
  let? bin := map_err BeInvalidBinaryName (binary_name_new bin) in
  broker_request config uid x {| bq_bin := bin; bq_args := args |} run_response.

End Client.

(** ** The shim ([firma-secret-shim.rs]) *)

(** The stdout and stderr the shim replays, and its exit code. *)
Fixpoint replay_output (output : list BrokerOutputChunk) : string * string :=
  match output with
  | [] => ("", "")
  | OutStdout bytes :: output => let '(out, err) := replay_output output in (bytes +:+ out, err)
  | OutStderr bytes :: output => let '(out, err) := replay_output output in (out, bytes +:+ err)
  end.

(** [u8::try_from]. *)
Definition u8_or (default : Z) (z : Z) : Z := if (0 <=? z) && (z <=? 255) then z else default.

(** [128_i32.saturating_add(signal)]. *)
Definition exit_code (status : BrokerExitStatus) : Z :=
  match status with
  | Exited code => if code =? 0 then 0 else u8_or 1 code
  | Signaled signal => u8_or 1 (Z.min (128 + signal) (2 ^ 31 - 1))
  | UnknownStatus => 1
  end.

(** The part of [main] and [run] after the endpoint is known, on streams that
    take what is written: what is printed on each, and the exit code. *)
Definition shim_main (result : Result BrokerOutput BrokerClientError)
    (error_display : BrokerClientError → string) : string * string * Z :=
  match result with
  | Err error => ("", "firma-secret-shim: " +:+ error_display error +:+ String newline "", 1)
  | Ok output =>
      let '(out, err) := replay_output (bo_output output) in (out, err, exit_code (bo_status output))
  end.

(** ** Dispatch of a request ([secret/serve.rs]) *)

(** What is spawned: the program, its arguments and its whole environment. *)
Record Launch := { la_program : Path; la_args : list string; la_env : gmap string string }.

(** One read of a pipe of the child; an empty one is the end of the pipe. *)
Inductive PipeRead := ReadStdout (r : Result string string) | ReadStderr (r : Result string string).

(** A child: whether it starts, the reads in the order [select!] sees them, and
    the code and signal it ends with. *)
Record Child := {
  ch_spawn : Result unit string;
  ch_reads : list PipeRead;
  ch_wait : Result (option Z * option Z) string;
}.

Record ServeEnv := {
  sv_vars : gmap string string;
  sv_real_bin_dir : option Path;
  sv_capture_limit : Z;
  sv_child : Launch → Child;
  sv_fresh : nat → string;
}.

(** [chunks_from_output]. *)
Definition chunks_from_output (stdout stderr : string) : list BrokerOutputChunk :=
  if is_empty stdout && is_empty stderr then [OutStdout ""]
  else ((if is_empty stdout then [] else [OutStdout stdout]) ++
        (if is_empty stderr then [] else [OutStderr stderr]))%list.

(** The environment of the child: [env_clear], the credential variables that
    are set, and [PATH]. *)
Definition forward_var (vars env : gmap string string) (var : string) : gmap string string :=
  match vars !! var with Some val => <[var := val]> env | None => env end.

Definition child_env (vars : gmap string string) (credential_env_vars : list string)
    : gmap string string :=
  forward_var vars (foldl (forward_var vars) ∅ credential_env_vars) "PATH".

(** The loop of [run_subprocess]; [None] when the pipes never end, which only
    the deadline of the connection stops. *)
Definition exceeded (stream : string) (limit : Z) : string :=
  "tool " +:+ stream +:+ " exceeded capture limit " +:+ display_uint limit +:+ " bytes".

Fixpoint capture (limit : Z) (reads : list PipeRead) (out err : string) (out_done err_done : bool)
    : option (Result (string * string) string) :=
  if out_done && err_done then Some (Ok (out, err))
  else match reads with
  | [] => None
  | ReadStdout r :: reads =>
      if out_done then capture limit reads out err out_done err_done
      else match r with
      | Err e => Some (Err ("failed to read tool stdout: " +:+ e))
      | Ok bytes =>
          if is_empty bytes then capture limit reads out err true err_done
          else let out := out +:+ bytes in
               if limit <? Z.of_nat (String.length out) then Some (Err (exceeded "stdout" limit))
               else capture limit reads out err out_done err_done
      end
  | ReadStderr r :: reads =>
      if err_done then capture limit reads out err out_done err_done
      else match r with
      | Err e => Some (Err ("failed to read tool stderr: " +:+ e))
      | Ok bytes =>
          if is_empty bytes then capture limit reads out err out_done true
          else let err := err +:+ bytes in
               if limit <? Z.of_nat (String.length err) then Some (Err (exceeded "stderr" limit))
               else capture limit reads out err out_done err_done
      end
  end.

Definition launch_of (env : ServeEnv) (bin : string) (args credential_env_vars : list string) : Launch :=
  {| la_program := match sv_real_bin_dir env with
                   | None => path_of bin
                   | Some dir => path_join dir (path_of bin)
                   end;
     la_args := args; la_env := child_env (sv_vars env) credential_env_vars |}.

(** [run_subprocess]. *)
Definition run_subprocess (env : ServeEnv) (launch : Launch)
    : option (Result (string * string * BrokerExitStatus) string) :=
  let child := sv_child env launch in
  match ch_spawn child with
  | Err e => Some (Err ("failed to spawn subprocess: " +:+ e))
  | Ok _ =>
      captured ← capture (sv_capture_limit env) (ch_reads child) "" "" false false;
      Some (let? (out, err) := captured in
            let? (code, signal) :=
              map_err (λ e, "failed to wait for subprocess: " +:+ e) (ch_wait child) in
            Ok (out, err, exit_status_from code signal))
  end.

(** The secrets extracted so far: how many placeholders were drawn, and what
    each stands for. *)
Record Pending := { pd_next : nat; pd_secrets : list (string * list Authority * string) }.

Definition mint_pending (fresh : nat → string) (s : Pending) (r : MintRequest) : string * Pending :=
  let placeholder := fresh (pd_next s) in
  (placeholder,
   {| pd_next := S (pd_next s);
      pd_secrets := pd_secrets s ++ [(placeholder, mr_domains r, mr_secret r)] |}%list).

Definition store_pending (d : SecretDictionary) (p : string * list Authority * string)
    : SecretDictionary :=
  let '(placeholder, domains, secret) := p in dictionary_insert d placeholder domains secret.

Section Serve.
Context {B : Base64} {HC : HttpCrate} {UC : UriCrate} {RX : RegexCrate}.
Context {JP : JsonPathCrate} {PT : JsonPointer} {SJ : SerdeJson} {SW : SerdeJsonWrite}.

(** [serve_request]: the response, the dictionary, and what was spawned. *)
Definition serve_request (env : ServeEnv) (request : BrokerRequest)
    (spec : option (CliIntegrationSpec SecretMatcher)) (d : SecretDictionary)
    : option (BrokerResponse * SecretDictionary * option Launch) :=
  let bin := bq_bin request in
  let args := bq_args request in
  match spec with
  | None => Some (Rejected ("unconfigured binary " +:+ bin), d, None)
  | Some spec =>
      match resolve_args spec args with
      | Blocked => Some (Rejected ("blocked command: " +:+ bin +:+ " " +:+ join " " args), d, None)
      | PassThrough =>
          let launch := launch_of env bin args (ci_credential_env_vars spec) in
          r ← run_subprocess env launch;
          Some (match r with
                | Ok (out, err, status) => response_executed (chunks_from_output out err) status
                | Err error => Rejected error
                end, d, Some launch)
      | UseMatcher matcher =>
          match compile_matcher matcher with
          | Err error =>
              Some (Rejected ("matcher compile error: " +:+ matcher_error_display error), d, None)
          | Ok compiled =>
              let launch := launch_of env bin (rewrite_args spec args) (ci_credential_env_vars spec) in
              r ← run_subprocess env launch;
              Some (match r with
                    | Err error => (Rejected error, d, Some launch)
                    | Ok (out, err, status) =>
                        match compiled_rewrite (mint_pending (sv_fresh env)) compiled out
                                {| pd_next := 0; pd_secrets := [] |} with
                        | (Err error, _) =>
                            (Rejected ("secret extraction failed: " +:+ matcher_error_display error),
                             d, Some launch)
                        | (Ok rewritten, pending) =>
                            (response_executed (chunks_from_output rewritten err) status,
                             foldl store_pending d (pd_secrets pending), Some launch)
                        end
                    end)
          end
      end
  end.

End Serve.

(** ** Facts: a mediated command *)

(** What a pipe delivers before its end. *)
Fixpoint stdout_of (reads : list PipeRead) : string :=
  match reads with
  | [] => ""
  | ReadStdout (Ok bytes) :: reads => if is_empty bytes then "" else bytes +:+ stdout_of reads
  | _ :: reads => stdout_of reads
  end.

Fixpoint stderr_of (reads : list PipeRead) : string :=
  match reads with
  | [] => ""
  | ReadStderr (Ok bytes) :: reads => if is_empty bytes then "" else bytes +:+ stderr_of reads
  | _ :: reads => stderr_of reads
  end.

Definition still (done_ : bool) (s : string) : string := if done_ then "" else s.

(** A capture that succeeds has all of both pipes, each within the limit. *)
Lemma capture_exact limit reads : ∀ out err od ed out' err',
  Z.of_nat (String.length out) ≤ limit → Z.of_nat (String.length err) ≤ limit →
  capture limit reads out err od ed = Some (Ok (out', err')) →
  out' = out +:+ still od (stdout_of reads) ∧ err' = err +:+ still ed (stderr_of reads) ∧
  Z.of_nat (String.length out') ≤ limit ∧ Z.of_nat (String.length err') ≤ limit.
Proof.
  induction reads as [|r reads IH]; intros out err od ed out' err' Ho He; simpl.
  { destruct od, ed; simpl; try done. intros [= <- <-]. by rewrite !str_app_nil_r. }
  destruct (od && ed) eqn:Hd.
  { apply andb_true_iff in Hd as [-> ->]. intros [= <- <-]. by rewrite !str_app_nil_r. }
  destruct r as [r|r].
  - destruct od; simpl in *.
    { intros H. apply IH in H; [|done..]. destruct r; exact H. }
    destruct r as [bytes|]; [|done]. destruct (is_empty bytes) eqn:Eb.
    { intros H. by apply IH in H. }
    destruct (limit <? _) eqn:El; [done|]. apply Z.ltb_ge in El. intros H. apply IH in H; [|done..].
    simpl in H. by rewrite str_app_assoc.
  - destruct ed; simpl in *.
    { intros H. apply IH in H; [|done..]. destruct r; exact H. }
    destruct r as [bytes|]; [|done]. destruct (is_empty bytes) eqn:Eb.
    { intros H. by apply IH in H. }
    destruct (limit <? _) eqn:El; [done|]. apply Z.ltb_ge in El. intros H. apply IH in H; [|done..].
    simpl in H. by rewrite (str_app_assoc err).
Qed.

(** The child sees the credential variables and [PATH], as they are set, and
    nothing else. *)
Lemma child_env_only vars creds k v :
  child_env vars creds !! k = Some v → vars !! k = Some v ∧ (k ∈ creds ∨ k = "PATH").
Proof.
  assert (∀ env var, forward_var vars env var !! k = Some v →
    (vars !! k = Some v ∧ k = var) ∨ env !! k = Some v) as Hf.
  { intros env var. unfold forward_var. destruct (vars !! var) as [val|] eqn:E; [|by right].
    destruct (decide (var = k)) as [->|Hne]; [|rewrite lookup_insert_ne by done; by right].
    rewrite lookup_insert_eq. intros [= <-]. by left. }
  unfold child_env. intros [[? ->]|H]%Hf; [by split; [|right]|].
  assert (∀ creds env, foldl (forward_var vars) env creds !! k = Some v →
    env !! k = Some v ∨ (vars !! k = Some v ∧ k ∈ creds)) as Hg.
  { clear -Hf. induction creds as [|c creds IH]; intros env; simpl; [by left|].
    intros [[[? ->]|?]%Hf|[? ?]]%IH; [right|by left|right]; (split; [done|]); [by left|by right]. }
  apply Hg in H as [H|[? ?]]; [by rewrite lookup_empty in H|]. by split; [|left].
Qed.

Lemma replay_chunks out err : replay_output (chunks_from_output out err) = (out, err).
Proof.
  unfold chunks_from_output, is_empty.
  destruct (bool_decide (out = "")) eqn:Eo, (bool_decide (err = "")) eqn:Ee; simpl;
    rewrite ?bool_decide_eq_true, ?bool_decide_eq_false in *; subst; by rewrite ?str_app_nil_r.
Qed.

Lemma decode_executed {B : Base64} {BL : Base64Laws B} output status :
  response_decode (response_executed output status) =
  Ok (DecExecuted {| bo_output := output; bo_status := status |}).
Proof.
  unfold response_decode, response_executed.
  assert (∀ k, try_imap decode_chunk k (encode_chunk <$> output) = Ok output) as H.
  { induction output as [|[b|b] output IH]; intros k; [done|..]; rewrite fmap_cons;
      cbn [try_imap encode_chunk decode_chunk]; rewrite b64_decode_encode; cbn; by rewrite IH. }
  by rewrite H.
Qed.

(** What is pending after a run of requests. *)
Lemma run_mints_pending fresh rs : ∀ s phs s',
  run_mints (mint_pending fresh) rs s = (phs, s') →
  phs = fresh <$> seq (pd_next s) (length rs) ∧
  pd_secrets s' = (pd_secrets s ++ zip_with (λ ph r, (ph, mr_domains r, mr_secret r)) phs rs)%list.
Proof.
  induction rs as [|r rs IH]; intros s phs s'; simpl; [intros [= <- <-]; by rewrite app_nil_r|].
  destruct (run_mints _ rs _) as [phs' s2] eqn:E. intros [= <- <-].
  apply IH in E as [-> Hs]. simpl in *. split; [done|]. rewrite Hs, <-app_assoc. done.
Qed.

(** The last of distinct insertions are all there. *)
Lemma store_pending_lookup ps : ∀ d ph dom v,
  NoDup (fst ∘ fst <$> ps) → (ph, dom, v) ∈ ps →
  sd_by_placeholder (foldl store_pending d ps) !! ph = Some {| se_value := v; se_domain := dom |}.
Proof.
  assert (∀ ps d ph, ph ∉ (fst ∘ fst <$> ps) →
    sd_by_placeholder (foldl store_pending d ps) !! ph = sd_by_placeholder d !! ph) as Hother.
  { clear. induction ps as [|[[q dom] v] ps IH]; intros d ph Hn; [done|]. simpl in *.
    rewrite IH by set_solver. cbn. apply lookup_insert_ne. set_solver. }
  induction ps as [|[[q dom'] v'] ps IH]; intros d ph dom v Hnd Hin; [by apply not_elem_of_nil in Hin|].
  apply NoDup_cons in Hnd as [Hq Hnd]. simpl. apply elem_of_cons in Hin as [[= -> -> ->]|Hin].
  - rewrite Hother by done. cbn. apply lookup_insert_eq.
  - by apply IH.
Qed.

Section ServeFacts.
Context {B : Base64} {HC : HttpCrate} {UC : UriCrate} {RX : RegexCrate}.
Context {JP : JsonPathCrate} {PT : JsonPointer} {SJ : SerdeJson} {SW : SerdeJsonWrite}.
Context {BL : Base64Laws B} {JL : JsonPathLaws JP} {PL : JsonPointerLaws PT} {RL : RegexLaws RX}.

(** A response that is not an execution left the dictionary alone, and only an
    invocation that the integration classifies was launched. *)
Lemma serve_request_launch env request spec d resp d' launch :
  serve_request env request spec d = Some (resp, d', launch) →
  (∀ e, resp = Rejected e → d' = d) ∧
  ∀ l, launch = Some l → ∃ s args, spec = Some s ∧ resolve_args s (bq_args request) ≠ Blocked ∧
    l = launch_of env (bq_bin request) args (ci_credential_env_vars s) ∧
    (args = bq_args request ∨ args = rewrite_args s (bq_args request)).
Proof.
  unfold serve_request. destruct spec as [s|]; [|by intros [= <- <- <-]].
  destruct (resolve_args s (bq_args request)) as [m| |] eqn:Er; [| |by intros [= <- <- <-]].
  - destruct (compile_matcher m) as [compiled|]; [|by intros [= <- <- <-]].
    destruct (run_subprocess _ _) as [[[[out err] status]|]|]; [| |done]; simpl.
    + destruct (compiled_rewrite _ _ _ _) as [[rewritten|] pending]; intros [= <- <- <-];
        (split; [by intros ?|]); intros l [= <-];
        exists s, (rewrite_args s (bq_args request)); rewrite Er; by split_and!; [..|right].
    + intros [= <- <- <-]. split; [done|]. intros l [= <-].
      exists s, (rewrite_args s (bq_args request)). rewrite Er. by split_and!; [..|right].
  - destruct (run_subprocess _ _) as [r|]; [|done]. simpl. intros [= <- <- <-]. split; [done|].
    intros l [= <-]. exists s, (bq_args request). rewrite Er. by split_and!; [..|left].
Qed.

Lemma run_subprocess_exact env launch out err status :
  0 ≤ sv_capture_limit env →
  run_subprocess env launch = Some (Ok (out, err, status)) →
  out = stdout_of (ch_reads (sv_child env launch)) ∧ err = stderr_of (ch_reads (sv_child env launch)) ∧
  Z.of_nat (String.length out) ≤ sv_capture_limit env ∧
  Z.of_nat (String.length err) ≤ sv_capture_limit env.
Proof.
  intros Hl. unfold run_subprocess. destruct (ch_spawn _); [|done].
  destruct (capture _ _ _ _ _ _) as [[[o e]|]|] eqn:E; [|done..]. simpl.
  destruct (ch_wait _) as [[code signal]|]; [|done]. intros [= <- <- _].
  by apply capture_exact in E.
Qed.

(** [C14] The stdout of a mediated command reaches the agent without its secrets,
    and every placeholder in it works.  Where the placeholders drawn are distinct
    and the broker executes a command that is mediated by a matcher, what the shim
    prints on stdout is what the tool printed, rewritten by that matcher: for a
    regex, the same text, and for JSON, the same document written out again, with
    a placeholder in place of every secret found and nothing else changed; the
    dictionary already answers each placeholder with its own secret, to the
    domains the matcher found for that secret and to no other host (to every host
    when it found none because none is configured).  The stderr of the tool is
    forwarded as it is, and is no part of this. *)
Theorem broker_mediates env request s d resp d' launch matcher output status :
  0 ≤ sv_capture_limit env →
  (∀ i j, sv_fresh env i = sv_fresh env j → i = j) →
  serve_request env request (Some s) d = Some (resp, d', launch) →
  resolve_args s (bq_args request) = UseMatcher matcher →
  response_decode resp = Ok (DecExecuted {| bo_output := output; bo_status := status |}) →
  ∃ l m requests phs,
    launch = Some l ∧ compile_matcher matcher = Ok m ∧
    rewritten m (stdout_of (ch_reads (sv_child env l))) (replay_output output).1 requests phs ∧
    length phs = length requests ∧ NoDup phs ∧
    ∀ k ph r host, phs !! k = Some ph → requests !! k = Some r →
      dictionary_resolve d' ph host =
      if bool_decide (mr_domains r = []) || hs_contains host (mr_domains r)
      then Some (mr_secret r) else None.
Proof.
  intros Hlim Hinj Hs Hr Hd. unfold serve_request in Hs. rewrite Hr in Hs.
  destruct (compile_matcher matcher) as [m|e] eqn:Em; [|injection Hs as <- _ _; by cbn in Hd].
  destruct (run_subprocess _ _) as [[[[out err] st]|]|] eqn:Erun; [|injection Hs as <- _ _; by cbn in Hd|done].
  cbn [mbind option_bind] in Hs.
  destruct (compiled_rewrite _ m out _) as [[text|e] pending] eqn:Hx; [|injection Hs as <- _ _; by cbn in Hd].
  injection Hs as <- <- <-. rewrite decode_executed in Hd. injection Hd as <- <-.
  apply compiled_rewrite_ok in Hx as (requests & phs & Hrun & Hrep).
  apply run_mints_pending in Hrun as [-> Hp]. simpl in Hp.
  apply run_subprocess_exact in Erun as [-> _]; [|done].
  eexists _, m, requests, (sv_fresh env <$> seq 0 (length requests)).
  assert (NoDup (sv_fresh env <$> seq 0 (length requests))) as Hnd
    by (apply NoDup_fmap_2; [intros i j; apply Hinj|apply NoDup_seq]).
  split_and!; try done; [by rewrite replay_chunks|by rewrite length_fmap, length_seq|].
  intros k ph r host Hph Hreq. unfold dictionary_resolve. rewrite Hp.
  erewrite store_pending_lookup; [done| |].
  - erewrite fmap_zip_with_l; [exact Hnd|done|].
    by rewrite length_fmap, length_seq.
  - apply (list_elem_of_lookup_2 _ k). apply lookup_zip_with_Some. by exists ph, r.
Qed.

End ServeFacts.

(** ** Client and server over one link *)

Record BrokerLink := {
  lk_connect : option UnavailableError;
  (** the uid of the broker's socket as the shim sees it, and the shim's uid as
      the broker sees it; TCP has neither *)
  lk_broker_uid : option (Result Z string);
  lk_shim_uid : option (Result Z string);
  lk_sent : nat;
  lk_server_end : StreamEnd;
  lk_fate : Fate;
  lk_server_write : Result unit string;
  lk_client_write : option string;
  lk_timeout : bool;
  lk_received : nat;
  lk_client_end : StreamEnd;
}.

(** What the documentation of [serde_json] promises of the wire types. *)
Class BrokerWireLaws (W : BrokerWire) (SJ : SerdeJson) := {
  broker_request_wire r t : bw_request_to_json r = Ok t → wire_text t;
  broker_request_value r t : bw_request_to_json r = Ok t →
    ∃ v, json_from_slice t = Ok v ∧ json_get "control" v = None;
  broker_request_round r t : bw_request_to_json r = Ok t → raw_request t = Ok (bq_bin r, bq_args r);
  broker_response_wire r t : response_to_vec r = Ok t → wire_text t;
  broker_response_round r t : response_to_vec r = Ok t → response_from_str t = Ok r;
}.

Section Composed.
Context {B : Base64} {W : BrokerWire} {SJ : SerdeJson}.
Context {H : Type} (handler : BrokerRequest → H → BrokerResponse * H).

(** The client closes the connection without a byte when it does not accept the
    peer. *)
Definition lk_conn (uid : Z) (lk : BrokerLink) (payload : string) : Conn :=
  {| cn_in :=
       {| st_bytes :=
            match lk_broker_uid lk with
            | None => str_take (lk_sent lk) (payload +:+ String newline "")
            | Some peer => match validate_broker_peer_credentials uid peer with
                           | Ok _ => str_take (lk_sent lk) (payload +:+ String newline "")
                           | Err _ => ""
                           end
            end;
          st_end := lk_server_end lk |};
     cn_write := lk_server_write lk |}.

Definition broker_side (config : BrokerConfig) (uid : Z) (lk : BrokerLink) (payload : string) (h : H)
    : string * H :=
  match lk_connect lk with
  | Some _ => ("", h)
  | None =>
      let c := lk_conn uid lk payload in
      let a := match lk_shim_uid lk with None => AcceptedTcp c | Some u => AcceptedUnix c u end in
      let '(_, written, h) := accept_one handler config uid a (lk_fate lk) h in (written, h)
  end.

Definition shim_side (config : BrokerConfig) (uid : Z) (lk : BrokerLink) (h : H) (payload : string)
    : BrokerExchange :=
  {| bx_connect := lk_connect lk; bx_peer_uid := lk_broker_uid lk; bx_write := lk_client_write lk;
     bx_timeout := lk_timeout lk;
     bx_response := {| st_bytes := str_take (lk_received lk) (broker_side config uid lk payload h).1;
                       st_end := lk_client_end lk |} |}.

(** One call of the shim, with the state it leaves behind the broker: a call
    that is refused before it connects reaches no one. *)
Definition do_run (config : BrokerConfig) (uid : Z) (lk : BrokerLink) (bin : string)
    (args : list string) (h : H) : Result BrokerOutput BrokerClientError * H :=
  (broker_run config uid (shim_side config uid lk h) bin args,
   match binary_name_new bin with
   | Err _ => h
   | Ok bin =>
       match bw_request_to_json {| bq_bin := bin; bq_args := args |} with
       | Err _ => h
       | Ok payload =>
           if bc_max_request_size config <? Z.of_nat (String.length payload) then h
           else (broker_side config uid lk payload h).2
       end
   end).

End Composed.

Section LinkFacts.
Context {B : Base64} {W : BrokerWire} {SJ : SerdeJson} {WL : BrokerWireLaws W SJ}.
Context {H : Type} (handler : BrokerRequest → H → BrokerResponse * H).

Lemma bounded_line_terminated t n e max line :
  wire_text t →
  read_bounded_line {| st_bytes := str_take n (t +:+ String newline ""); st_end := e |} max = Ok line →
  bl_terminated line = true → bl_bytes line = t.
Proof.
  intros Ht. unfold read_bounded_line. destruct (read_until_newline _ _) as [l|] eqn:E; [|done].
  apply read_line_cases in E as [[q Hq]|El]; [| |done].
  - destruct (strip_suffix _ l) as [l'|] eqn:Es; intros [= <-]; [|done].
    apply strip_suffix_Some in Es. destruct Ht as (_ & Hn & _). subst l.
    rewrite Hq, !contains_char_app in Hn. cbn in Hn. by rewrite orb_true_r in Hn.
  - subst l. rewrite strip_newline. by intros [= <-].
Qed.

(** What the broker writes is nothing or a response. *)
Definition broker_reply (w : string) : Prop :=
  w = "" ∨ ∃ r t, response_to_vec r = Ok t ∧ w = t +:+ String newline "".

Lemma serialize_written json max p :
  serialize_response json max = Ok (Some p) → ∃ t, json = Ok t ∧ p = t +:+ String newline "".
Proof.
  unfold serialize_response. destruct json as [t|]; [|done]. cbn. destruct (_ <? _); [done|].
  intros [= <-]. by exists t.
Qed.

(** A response goes out as itself, or as a rejection, or not at all. *)
Lemma write_response_written c r max :
  rp_written (write_response c r max) = "" ∨
  ∃ r' t, response_to_vec r' = Ok t ∧ rp_written (write_response c r max) = t +:+ String newline "" ∧
    (r' = r ∨ ∃ e, r' = Rejected e).
Proof.
  unfold write_response. destruct (serialize_response (response_to_vec r) max) as [[p|]|] eqn:E; [| |by left].
  - apply serialize_written in E as (t & Ht & ->). right. exists r, t. by split_and!; [..|left].
  - destruct (serialize_response (response_to_vec (Rejected _)) max) as [[p|]|] eqn:E'; [|by left..].
    apply serialize_written in E' as (t & Ht & ->). right. exists (Rejected "response too large"), t.
    split_and!; [done..|]. right. by eexists.
Qed.

(** What a run can be told by what the broker wrote. *)
Lemma broker_receive config x r t n :
  response_to_vec r = Ok t → st_bytes (bx_response x) = str_take n (t +:+ String newline "") →
  ∀ out, broker_send_and_receive config x run_response = Ok out → run_response r = Ok out.
Proof.
  intros Ht Hx out. unfold broker_send_and_receive. destruct (bx_timeout x); [done|].
  destruct (bx_write x); [done|]. destruct (bx_response x) as [bytes e]. cbn in Hx. subst bytes.
  pose proof (broker_response_wire _ _ Ht) as Hw.
  destruct (read_bounded_line _ _) as [line|] eqn:El; [|done]. destruct (_ <? _); [done|].
  destruct (bl_terminated line) eqn:Eb; [|by cbn; destruct (is_empty _)].
  rewrite (bounded_line_terminated _ _ _ _ _ Hw El Eb). cbn [negb].
  destruct (utf8_valid t); [|done]. cbn [negb]. destruct Hw as (_ & _ & _ & ->).
  destruct (is_empty t); [done|]. by rewrite (broker_response_round _ _ Ht).
Qed.

Lemma broker_receive_nothing config x out :
  st_bytes (bx_response x) = "" → broker_send_and_receive config x run_response ≠ Ok out.
Proof.
  intros Hx. unfold broker_send_and_receive. destruct (bx_timeout x); [done|].
  destruct (bx_write x); [done|]. unfold read_bounded_line, read_until_newline. rewrite Hx, str_take_empty.
  cbn [split_once]. destruct (_ =? _); [|destruct (st_end _)]; cbn; try done; by destruct (_ <? _).
Qed.


Definition rejected_reply (w : string) : Prop :=
  w = "" ∨ ∃ e t, response_to_vec (Rejected e) = Ok t ∧ w = t +:+ String newline "".

Lemma write_rejected c e max : rejected_reply (rp_written (write_response c (Rejected e) max)).
Proof.
  destruct (write_response_written c (Rejected e) max) as [->|(r' & t & Ht & -> & [->|[e' ->]])];
    [by left|right; by eexists _, t..].
Qed.

Lemma binary_name_new_same bin b : binary_name_new bin = Ok b → b = bin ∧ binary_name_new b = Ok b.
Proof.
  intros E. assert (b = bin) as ->; [|done]. unfold binary_name_new in E.
  destruct (is_empty bin); [done|]. destruct (_ || _); [done|]. congruence.
Qed.

(** The handler runs when the whole request arrived, and only then. *)
Lemma handle_connection_cases config c bin args t n e h :
  binary_name_new bin = Ok bin →
  bw_request_to_json {| bq_bin := bin; bq_args := args |} = Ok t →
  cn_in c = {| st_bytes := str_take n (t +:+ String newline ""); st_end := e |} ∨
  cn_in c = {| st_bytes := ""; st_end := e |} →
  (rejected_reply (rp_written (handle_broker_connection handler config c h).1) ∧
   (handle_broker_connection handler config c h).2 = h) ∨
  handle_broker_connection handler config c h =
    (write_response c (handler {| bq_bin := bin; bq_args := args |} h).1 (bc_max_response_size config),
     (handler {| bq_bin := bin; bq_args := args |} h).2).
Proof.
  intros Hbin Ht Hc. pose proof (broker_request_wire _ _ Ht) as Hw.
  assert (∀ line, read_bounded_line (cn_in c) (bc_max_request_size config) = Ok line →
    bl_terminated line = true → bl_bytes line = t) as Hline.
  { intros line. destruct Hc as [-> | ->]; [by apply bounded_line_terminated|].
    unfold read_bounded_line, read_until_newline. rewrite str_take_empty. cbn [split_once].
    destruct (_ =? _); [|destruct e]; try done; cbn; by intros [= <-]. }
  unfold handle_broker_connection.
  destruct (read_bounded_line _ _) as [line|] eqn:El; [|by left; split; [left|]].
  destruct (_ <? _).
  { left. split; [|done]. cbn [fst]. pose proof (write_rejected c "request too large" (bc_max_response_size config)).
    by destruct (rp_result _). }
  destruct (bl_terminated line) eqn:Eb; [|by left; split; [left|]]. cbn [negb].
  rewrite (Hline line eq_refl Eb). destruct (utf8_valid t); [|by left; split; [left|]]. cbn [negb].
  destruct Hw as (_ & _ & (a & rest & Ha & _) & ->).
  assert (is_empty t = false) as ->. { apply bool_decide_eq_false. by rewrite Ha. }
  destruct (broker_request_value _ _ Ht) as (v & -> & ->).
  unfold request_from_str. rewrite (broker_request_round _ _ Ht). cbn. rewrite Hbin. cbn.
  right. by destruct (handler _ h).
Qed.

(** The broker's side of a call: nothing happens and no output comes back, or
    the handler ran once and what comes back is its response or a rejection. *)
Lemma broker_side_cases config uid lk bin args t h :
  binary_name_new bin = Ok bin →
  bw_request_to_json {| bq_bin := bin; bq_args := args |} = Ok t →
  let request := {| bq_bin := bin; bq_args := args |} in
  (rejected_reply (broker_side handler config uid lk t h).1 ∧ (broker_side handler config uid lk t h).2 = h) ∨
  ((broker_side handler config uid lk t h).2 = (handler request h).2 ∧
   (rejected_reply (broker_side handler config uid lk t h).1 ∨
    ∃ u, response_to_vec (handler request h).1 = Ok u ∧
         (broker_side handler config uid lk t h).1 = u +:+ String newline "")).
Proof.
  intros Hbin Ht request. unfold broker_side. destruct (lk_connect lk); [by left; split; [left|]|].
  set (c := lk_conn uid lk t).
  assert (cn_in c = {| st_bytes := str_take (lk_sent lk) (t +:+ String newline ""); st_end := lk_server_end lk |} ∨
          cn_in c = {| st_bytes := ""; st_end := lk_server_end lk |}) as Hc.
  { unfold c, lk_conn. cbn. destruct (lk_broker_uid lk) as [p|]; [|by left].
    destruct (validate_broker_peer_credentials uid p); [by left|by right]. }
  pose proof (handle_connection_cases config c bin args t _ _ h Hbin Ht Hc) as Hh.
  assert (∀ x, x = bounded_exchange handler config c (lk_fate lk) h →
    let '(_, w, h') := x in
    (rejected_reply w ∧ h' = h) ∨
    (h' = (handler request h).2 ∧
     (rejected_reply w ∨ ∃ u, response_to_vec (handler request h).1 = Ok u ∧ w = u +:+ String newline ""))) as Hx.
  { intros x ->. unfold bounded_exchange. destruct Hh as [[Hr Hd]|Hr].
    - destruct (handle_broker_connection _ _ _ _) as [reply h']. cbn in *. subst h'.
      destruct (lk_fate lk); left; split; try done; by left.
    - rewrite Hr. fold request. destruct (lk_fate lk); cbn; [|by left; split; [left|]|right; by split; [|left; left]].
      right. split; [done|].
      destruct (write_response_written c (handler request h).1 (bc_max_response_size config))
        as [->|(r' & u & Hu & -> & [->|[e' ->]])]; [by left; left|right; by exists u|left; right; by exists e', u]. }
  destruct (lk_shim_uid lk) as [u|]; cbn [accept_one]; [destruct (reject_broker_peer uid u)|].
  - specialize (Hx _ eq_refl). by destruct (bounded_exchange _ _ _ _ _) as [[? ?] ?].
  - left. split; [apply write_rejected|done].
  - specialize (Hx _ eq_refl). by destruct (bounded_exchange _ _ _ _ _) as [[? ?] ?].
Qed.

(** A request that stays empty reaches no handler. *)
Lemma broker_side_unsent config uid lk p t h :
  lk_broker_uid lk = Some p → is_ok (validate_broker_peer_credentials uid p) = false →
  (broker_side handler config uid lk t h).2 = h.
Proof.
  intros Hp Hv. unfold broker_side. destruct (lk_connect lk); [done|].
  assert (∀ c, st_bytes (cn_in c) = "" → (handle_broker_connection handler config c h).2 = h) as Hh.
  { intros c Hc. unfold handle_broker_connection, read_bounded_line, read_until_newline. rewrite Hc, str_take_empty.
    cbn [split_once]. destruct (_ =? _); [|destruct (st_end _)]; try done; cbn; by destruct (_ <? _). }
  assert (∀ x, x = bounded_exchange handler config (lk_conn uid lk t) (lk_fate lk) h → x.2 = h) as Hx.
  { intros x ->. unfold bounded_exchange. rewrite (surjective_pairing (handle_broker_connection _ _ _ _)), Hh.
    - by destruct (lk_fate lk).
    - unfold lk_conn. cbn. rewrite Hp. by destruct (validate_broker_peer_credentials uid p). }
  destruct (lk_shim_uid lk) as [u|]; cbn [accept_one]; [destruct (reject_broker_peer uid u); [|done]|];
    specialize (Hx _ eq_refl); by destruct (bounded_exchange _ _ _ _ _) as [[? ?] ?].
Qed.

(** What the shim accepts is the handler's. *)
Lemma broker_output_own config uid lk bin args t h out :
  binary_name_new bin = Ok bin →
  bw_request_to_json {| bq_bin := bin; bq_args := args |} = Ok t →
  broker_send_and_receive config (shim_side handler config uid lk h t) run_response = Ok out →
  (broker_side handler config uid lk t h).2 = (handler {| bq_bin := bin; bq_args := args |} h).2 ∧
  response_decode (handler {| bq_bin := bin; bq_args := args |} h).1 = Ok (DecExecuted out).
Proof.
  intros Hbin Ht Hs. set (request := {| bq_bin := bin; bq_args := args |}).
  assert (¬ rejected_reply (broker_side handler config uid lk t h).1) as Hn.
  { intros [Hw|(e & u & Hu & Hw)].
    - apply (broker_receive_nothing _ _ _) in Hs; [done|]. cbn. by rewrite Hw, str_take_empty.
    - assert (run_response (Rejected e) = Ok out) as Hr; [|done].
      eapply (broker_receive config _ (Rejected e) u (lk_received lk)); [done| |exact Hs]. cbn. by rewrite Hw. }
  destruct (broker_side_cases config uid lk bin args t h Hbin Ht) as [[? _]|[Hh [?|(u & Hu & Hw)]]]; [done..|].
  split; [done|].
  assert (run_response (handler request h).1 = Ok out) as Hr.
  { eapply (broker_receive config _ _ u (lk_received lk)); [exact Hu| |exact Hs]. cbn. by rewrite Hw. }
  unfold run_response in Hr. destruct (response_decode _) as [[o|]|]; congruence.
Qed.

(** The errors of an exchange that was begun. *)
Definition begun_error (e : BrokerClientError) : Prop :=
  match e with BeOutcomeUnknown _ | BeProtocolViolation _ | BeRejected _ => True | _ => False end.

Lemma broker_send_errors config x e :
  broker_send_and_receive config x run_response = Err e → begun_error e.
Proof.
  unfold broker_send_and_receive.
  destruct (bx_timeout x); [by intros [= <-]|]. destruct (bx_write x); [by intros [= <-]|].
  destruct (read_bounded_line _ _) as [line|]; [|by intros [= <-]]. destruct (_ <? _); [by intros [= <-]|].
  destruct (bl_terminated line); cbn [negb]; [|destruct (is_empty _); by intros [= <-]].
  destruct (utf8_valid _); cbn [negb]; [|by intros [= <-]]. destruct (is_empty _); [by intros [= <-]|].
  destruct (response_from_str _) as [r|]; [|by intros [= <-]]. unfold run_response.
  destruct (response_decode r) as [[]|]; by intros [= <-].
Qed.

(** [C16] A vault CLI runs at most once per call of the shim, and the shim knows
    what it may not repeat.  Whatever the network does to the exchange (a
    connection that fails, a peer that is not the same user, a request or a
    response cut at any byte, a deadline at any point), either nothing ran or
    the broker ran the one request the shim made; output that the shim accepts
    is the output of that run, decoded; and an error other than
    [OutcomeUnknown], a rejection or a protocol violation means that nothing
    ran. *)
Theorem broker_run_once config uid lk bin args (h : H) :
  let request := {| bq_bin := bin; bq_args := args |} in
  let '(r, h') := do_run handler config uid lk bin args h in
  (h' = h ∨ h' = (handler request h).2) ∧
  (∀ out, r = Ok out →
     h' = (handler request h).2 ∧ response_decode (handler request h).1 = Ok (DecExecuted out)) ∧
  (∀ e, r = Err e →
     match e with
     | BeUnavailable _ | BePeerAuthentication _ | BeInvalidBinaryName _ | BeRequestTooLarge _ _ | BeInvalidEndpoint _
     | BeBug _ => h' = h
     | BeOutcomeUnknown _ | BeProtocolViolation _ | BeRejected _ => True
     end).
Proof.
  cbn zeta. unfold do_run, broker_run. set (request := {| bq_bin := bin; bq_args := args |}).
  destruct (binary_name_new bin) as [b|] eqn:Eb.
  2: { split_and!; [by left|done|by intros ? [= <-]]. }
  destruct (binary_name_new_same _ _ Eb) as [-> Hbin]. cbn [map_err]. unfold broker_request. fold request.
  destruct (bw_request_to_json request) as [t|] eqn:Et.
  2: { split_and!; [by left|done|by intros ? [= <-]]. }
  cbn [map_err]. destruct (_ <? _).
  { split_and!; [by left|done|by intros ? [= <-]]. }
  split_and!.
  - destruct (broker_side_cases config uid lk bin args t h Hbin Et) as [[_ ?]|[? _]]; [by left|by right].
  - intros out. destruct (broker_connect uid _) as [[]|]; [|done]. by apply broker_output_own.
  - intros e. unfold broker_connect. cbn [bx_connect bx_peer_uid shim_side].
    destruct (lk_connect lk) as [u|] eqn:Ec.
    { intros [= <-]. unfold broker_side. by rewrite Ec. }
    destruct (lk_broker_uid lk) as [p|] eqn:Ep; [destruct (validate_broker_peer_credentials uid p) eqn:Ev|].
    + intros He. pose proof (broker_send_errors _ _ _ He). by destruct e.
    + intros [= <-]. pose proof (broker_side_unsent config uid lk p t h Ep) as Hu. rewrite Ev in Hu.
      by destruct e0; auto.
    + intros He. pose proof (broker_send_errors _ _ _ He). by destruct e.
Qed.

End LinkFacts.

(** Preparing the socket's path removes a file only when it is the very socket
    that refused a connection. *)
Lemma prepare_removes p :
  (prepare_unix_socket_path p).2 = true →
  ∃ m m', sp_first p = Ok m ∧ md_is_socket m = true ∧ sp_connect p = Err FsRefused ∧
    sp_second p = Ok m' ∧ md_identity m' = md_identity m.
Proof.
  unfold prepare_unix_socket_path, remove_socket_if_same.
  destruct (sp_first p) as [m|[]]; try done. destruct (md_is_socket m) eqn:Es; [|done]. cbn [negb].
  destruct (sp_connect p) as [|[]]; try done. destruct (sp_second p) as [m'|[]]; try done.
  case_bool_decide as Hi; [|done]. cbn [negb]. intros _. by exists m, m'.
Qed.

(** ** Samples *)

Module Samples.

#[local] Existing Instance SecretGateway.Samples.plain_base64.
#[local] Existing Instance SecretGateway.Samples.plain_base64_laws.
#[local] Existing Instance SecretMatcher.Samples.sample_jp.
#[local] Existing Instance SecretMatcher.Samples.sample_jp_laws.
#[local] Existing Instance SecretMatcher.Samples.sample_pointer.
#[local] Existing Instance SecretMatcher.Samples.sample_pointer_laws.
#[local] Existing Instance SecretMatcher.Samples.sample_http.
#[local] Existing Instance SecretMatcher.Samples.sample_uri.
#[local] Existing Instance SecretMatcher.Samples.sample_from_slice.
#[local] Existing Instance SecretMatcher.Samples.sample_to_vec.
#[local] Instance no_regex : RegexCrate :=
  {| Regex := unit; re_new _ := Err "unsupported"; re_capture_names _ := []; re_captures_iter _ _ := [] |}.

#[local] Instance no_regex_laws : RegexLaws no_regex.
Proof. intros p text. cbn. lia. Qed.

(** [vault kv get], mediated. *)
Definition kv_matcher_spec : SecretMatcher := MatchJson "$.data.data.*" "$" NameRecordKey None None.

Definition kv_spec : CliIntegrationSpec SecretMatcher :=
  {| ci_binary_name := "vault"; ci_provider_id := "hashicorp-vault";
     ci_credential_env_vars := ["VAULT_TOKEN"]; ci_stripped_options := []; ci_forbidden_options := [];
     ci_matchers := [SensitiveCommand
       {| cm_command := {| cp_argv := ["kv"; "get"]; cp_match_kind := Prefix |};
          cm_matcher := kv_matcher_spec; cm_stripped_options := [];
          cm_append_options := ["-format"; "json"] |}] |}.

Fixpoint tally (n : nat) : string := match n with O => "fsp_" | S n => String "a" (tally n) end.

Lemma tally_inj i j : tally i = tally j → i = j.
Proof. revert j. induction i as [|i IH]; intros [|j]; simpl; try done. intros [= H]. f_equal. by apply IH. Qed.

Definition kv_env : ServeEnv :=
  {| sv_vars := {["VAULT_TOKEN" := "t"]}; sv_real_bin_dir := None; sv_capture_limit := 100;
     sv_child _ := {| ch_spawn := Ok tt;
                      ch_reads := [ReadStdout (Ok "kv"); ReadStderr (Ok ""); ReadStdout (Ok "")];
                      ch_wait := Ok (Some 0, None) |};
     sv_fresh := tally |}.

Definition kv_request : BrokerRequest := {| bq_bin := "vault"; bq_args := ["kv"; "get"; "secret/app"] |}.

Definition kv_served : BrokerResponse * SecretDictionary * option Launch :=
  default (Rejected "", dictionary_new, None)
    (serve_request kv_env kv_request (Some kv_spec) dictionary_new).

Lemma broker_mediates_witness :
  ∃ l m requests phs,
    kv_served.2 = Some l ∧
    compile_matcher (MatchJson "$.data.data.*" "$" NameRecordKey None None) = Ok m ∧
    rewritten m (stdout_of (ch_reads (sv_child kv_env l))) (replay_output [OutStdout "fsp_:afsp_"]).1
      requests phs ∧
    length phs = length requests ∧ NoDup phs ∧
    ∀ k ph r host, phs !! k = Some ph → requests !! k = Some r →
      dictionary_resolve kv_served.1.2 ph host =
      if bool_decide (mr_domains r = []) || hs_contains host (mr_domains r)
      then Some (mr_secret r) else None.
Proof.
  apply (broker_mediates kv_env kv_request kv_spec dictionary_new kv_served.1.1 kv_served.1.2 kv_served.2
           (MatchJson "$.data.data.*" "$" NameRecordKey None None) [OutStdout "fsp_:afsp_"] (Exited 0)).
  - done.
  - intros i j. apply tally_inj.
  - vm_compute; reflexivity.
  - vm_compute; reflexivity.
  - vm_compute; reflexivity.
Defined.

(** ** A wire for the second sample *)

Import SecretGateway.Samples.

Definition chunk_field (c : BrokerResponseChunk) : string :=
  match c with RcStdout s => "o" +:+ s | RcStderr s => "e" +:+ s end.
Definition field_chunk (s : string) : BrokerResponseChunk :=
  match s with String "o" s => RcStdout s | String _ s => RcStderr s | EmptyString => RcStderr "" end.

#[local] Instance letters_broker : BrokerWire := {|
  bw_request_to_json r := Ok (enc "b" (bq_bin r :: bq_args r));
  raw_request s := match dec s with Some (_, bin :: args) => Ok (bin, args) | _ => Err "expected request" end;
  serde_custom _ e := e;
  readiness_version _ := Err "missing field";
  response_to_vec r :=
    match r with
    | Executed output (Exited 0) => Ok (enc "x" (chunk_field <$> output))
    | Executed _ _ => Err "unsupported status"
    | Rejected e => Ok (enc "e" [e])
    end;
  response_from_str s :=
    match dec s with
    | Some (tag, fs) =>
        if bool_decide (tag = "x"%char) then Ok (Executed (field_chunk <$> fs) (Exited 0))
        else match fs with [e] => Ok (Rejected e) | _ => Err "expected response" end
    | None => Err "EOF"
    end;
  ready_to_vec _ := Err "unsupported";
|}.

Definition any_value : SerdeJson := λ s, match dec s with Some _ => Ok JNull | None => Err "EOF" end.

Lemma letters_broker_laws : BrokerWireLaws letters_broker any_value.
Proof.
  split.
  - intros r t [= <-]. by apply enc_wire.
  - intros r t [= <-]. exists JNull. cbn. unfold json_from_slice, any_value. by rewrite dec_enc.
  - intros r t [= <-]. cbn. by rewrite dec_enc.
  - intros [output [[]| |]|e] t H; try done; injection H as <-; by apply enc_wire.
  - intros [output [[]| |]|e] t H; try done; injection H as <-; cbn; rewrite dec_enc; [|done]. cbn. f_equal. f_equal.
    induction output as [|[s|s] output IH]; [done|..]; rewrite !fmap_cons, IH; done.
Qed.

(** The response is lost: the tool ran, and the shim says it may have. *)
Definition count_handler (r : BrokerRequest) (n : nat) : BrokerResponse * nat :=
  (response_executed [OutStdout "out"] (Exited 0), S n).

Definition lost_link : BrokerLink :=
  {| lk_connect := None; lk_broker_uid := Some (Ok 1000); lk_shim_uid := Some (Ok 1000); lk_sent := 200;
     lk_server_end := Eof; lk_fate := Completes; lk_server_write := Ok tt; lk_client_write := None;
     lk_timeout := false; lk_received := 4; lk_client_end := Eof |}.

Definition broker_config : BrokerConfig := {| bc_max_request_size := 100; bc_max_response_size := 100 |}.

Lemma broker_run_once_witness :
  do_run (SJ := any_value) count_handler broker_config 1000 lost_link "vault" ["status"] 0%nat
    = (Err (BeOutcomeUnknown OUnterminatedResponse), 1%nat) ∧
  let request := {| bq_bin := "vault"; bq_args := ["status"] |} in
  let '(r, h') := do_run (SJ := any_value) count_handler broker_config 1000 lost_link "vault" ["status"] 0%nat in
  (h' = 0%nat ∨ h' = (count_handler request 0%nat).2) ∧
  (∀ out, r = Ok out →
     h' = (count_handler request 0%nat).2 ∧
     response_decode (count_handler request 0%nat).1 = Ok (DecExecuted out)) ∧
  (∀ e, r = Err e →
     match e with
     | BeUnavailable _ | BePeerAuthentication _ | BeInvalidBinaryName _ | BeRequestTooLarge _ _ | BeInvalidEndpoint _
     | BeBug _ => h' = 0%nat
     | BeOutcomeUnknown _ | BeProtocolViolation _ | BeRejected _ => True
     end).
Proof.
  split; [vm_compute; reflexivity|].
  apply (broker_run_once (WL := letters_broker_laws) count_handler broker_config 1000 lost_link
           "vault" ["status"] 0%nat).
Defined.

End Samples.
