(* ===== verification/SecretRegistry.v ===== *)
(** * The built-in vault integrations ([firma-secret-provider/src/registry.rs])

    The specs of the four vault CLIs that [firma run] knows, as data, and the
    registry they are looked up in.  The theorems are about every command line
    the agent can make: what is launched, with which arguments, and what the
    output goes through. *)

From S2P Require Import Prelude RustStr Mapping SecretProvider SecretMatcher.

#[local] Open Scope string_scope.
#[local] Open Scope nat_scope.
#[local] Open Scope list_scope.

(** [FlagSpec::value], [FlagSpec::valueless], [FlagSpec::attached_value]
    ([firma-config-schema/src/secret_provider/cli.rs]). *)
Definition flag_value (name : string) : FlagSpec :=
  {| fs_name := name; takes_value := true; allow_attached_value := false |}.
Definition flag_valueless (name : string) : FlagSpec :=
  {| fs_name := name; takes_value := false; allow_attached_value := false |}.
Definition flag_attached_value (name : string) : FlagSpec :=
  {| fs_name := name; takes_value := true; allow_attached_value := true |}.

(** [CommandPattern::prefix] and [CommandPattern::exact] ([spec/cli.rs]). *)
Definition pattern_prefix (argv : list string) : CommandPattern :=
  {| cp_argv := argv; cp_match_kind := Prefix |}.
Definition pattern_exact (argv : list string) : CommandPattern :=
  {| cp_argv := argv; cp_match_kind := Exact |}.

Definition CliSpec : Type := CliIntegrationSpec SecretMatcher.
Definition CliRule : Type := MatcherRule (CommandAndMatcher SecretMatcher) CommandPattern.

Definition blocked (argv : list string) : CliRule := BlockedCommand (pattern_prefix argv).
Definition safe (argv : list string) : CliRule := SafeCommand (pattern_prefix argv).

(** [bws_spec]. *)
Definition bws_spec : CliSpec := {|
  ci_binary_name := "bws";
  ci_provider_id := "bitwarden";
  ci_credential_env_vars := ["BWS_ACCESS_TOKEN"];
  ci_stripped_options := [];
  ci_forbidden_options :=
    [flag_value "--server-url"; flag_attached_value "-u"; flag_value "--config-file";
     flag_attached_value "-f"; flag_value "--profile"; flag_attached_value "-p"];
  ci_matchers :=
    [blocked ["run"];
     blocked ["secret"; "create"];
     blocked ["secret"; "edit"];
     blocked ["secret"; "delete"];
     blocked ["project"; "create"];
     blocked ["project"; "edit"];
     blocked ["project"; "delete"];
     SensitiveCommand {|
       cm_command := pattern_prefix ["secret"; "list"];
       cm_matcher := MatchJson "$[*]" "$.value" (NamePath "$.key") None None;
       cm_stripped_options := [flag_value "--output"; flag_attached_value "-o"];
       cm_append_options := ["--output"; "json"] |};
     SensitiveCommand {|
       cm_command := pattern_prefix ["secret"; "get"];
       cm_matcher := MatchJson "$" "$.value" (NamePath "$.key") None None;
       cm_stripped_options := [flag_value "--output"; flag_attached_value "-o"];
       cm_append_options := ["--output"; "json"] |};
     safe ["project"; "list"];
     safe ["project"; "get"]];
|}.

(** The [concat!] of the record path of [op_spec]. *)
Definition op_public_types : list string :=
  ["ADDRESS"; "CREDIT_CARD_TYPE"; "DATE"; "EMAIL"; "GENDER"; "MENU"; "MONTH_YEAR"; "PHONE";
   "REFERENCE"; "URL"].

Definition op_record_path : string :=
  "$.fields[?(" +:+ join " && " ((λ t, "@.type != " +:+ quote +:+ t +:+ quote) <$> op_public_types) +:+ ")]".

(** [op_spec]. *)
Definition op_spec : CliSpec := {|
  ci_binary_name := "op";
  ci_provider_id := "1password";
  ci_credential_env_vars := ["OP_SERVICE_ACCOUNT_TOKEN"];
  ci_stripped_options := [];
  ci_forbidden_options := [flag_value "--config"];
  ci_matchers :=
    [blocked ["read"];
     blocked ["inject"];
     blocked ["document"];
     SensitiveCommand {|
       cm_command := pattern_prefix ["item"; "get"];
       cm_matcher :=
         MatchJson op_record_path "$.value" (NamePath "$.label")
           (Some {| sj_path := "$.title"; sj_scope := ScopeDocument |})
           (Some {| sj_path := "$.urls[*].href"; sj_scope := ScopeDocument |});
       cm_stripped_options := [flag_value "--format"];
       cm_append_options := ["--format"; "json"] |};
     safe ["whoami"];
     safe ["account"; "list"];
     safe ["vault"; "list"];
     safe ["item"; "list"]];
|}.

(** [vault_spec]. *)
Definition vault_spec : CliSpec := {|
  ci_binary_name := "vault";
  ci_provider_id := "hashicorp-vault";
  ci_credential_env_vars := ["VAULT_TOKEN"; "VAULT_ADDR"; "VAULT_NAMESPACE"];
  ci_stripped_options := [flag_value "-namespace"; flag_value "--namespace"];
  ci_forbidden_options :=
    [flag_value "-address"; flag_value "--address"; flag_value "-agent-address";
     flag_value "--agent-address"; flag_valueless "-tls-skip-verify";
     flag_valueless "--tls-skip-verify"; flag_value "-ca-cert"; flag_value "--ca-cert";
     flag_value "-ca-path"; flag_value "--ca-path"; flag_value "-client-cert";
     flag_value "--client-cert"; flag_value "-client-key"; flag_value "--client-key";
     flag_value "-tls-server-name"; flag_value "--tls-server-name"];
  ci_matchers :=
    [blocked ["read"];
     blocked ["kv"; "put"];
     blocked ["kv"; "patch"];
     blocked ["kv"; "delete"];
     blocked ["kv"; "destroy"];
     blocked ["kv"; "rollback"];
     blocked ["kv"; "undelete"];
     blocked ["kv"; "metadata"];
     SensitiveCommand {|
       cm_command := pattern_prefix ["kv"; "get"];
       cm_matcher := MatchJson "$.data.data.*" "$" NameRecordKey None None;
       cm_stripped_options := [flag_value "-format"; flag_value "--format"];
       cm_append_options := ["-format"; "json"] |};
     safe ["kv"; "list"];
     safe ["list"];
     safe ["status"];
     safe ["policy"; "list"]];
|}.

(** [doppler_spec]. *)
Definition doppler_spec : CliSpec := {|
  ci_binary_name := "doppler";
  ci_provider_id := "doppler";
  ci_credential_env_vars := ["DOPPLER_TOKEN"];
  ci_stripped_options :=
    [flag_value "--project"; flag_attached_value "-p"; flag_value "--config"; flag_attached_value "-c"];
  ci_forbidden_options :=
    [flag_value "--api-host"; flag_valueless "--no-verify-tls"; flag_value "--config-dir";
     flag_value "--configuration"; flag_valueless "--print-config"];
  ci_matchers :=
    [blocked ["run"];
     blocked ["secrets"; "get"];
     blocked ["secrets"; "substitute"];
     blocked ["secrets"; "set"];
     blocked ["secrets"; "upload"];
     blocked ["secrets"; "delete"];
     blocked ["secrets"; "notes"];
     SensitiveCommand {|
       cm_command := pattern_prefix ["secrets"; "download"];
       cm_matcher := MatchJson "$.*" "$" NameRecordKey None None;
       cm_stripped_options :=
         [flag_value "--format"; flag_value "--fallback"; flag_value "--fallback-passphrase";
          flag_valueless "--fallback-only"; flag_valueless "--fallback-readonly";
          flag_valueless "--offline"];
       cm_append_options := ["--format"; "json"; "--no-file"; "--no-fallback"] |};
     SensitiveCommand {|
       cm_command := pattern_exact ["secrets"];
       cm_matcher := MatchJson "$.*" "$.computed" NameRecordKey None None;
       cm_stripped_options := [flag_valueless "--json"; flag_valueless "--raw"];
       cm_append_options := ["--json"] |};
     safe ["me"];
     safe ["projects"; "list"];
     safe ["environments"; "list"];
     safe ["configs"; "list"]];
|}.

(** [IntegrationRegistry]: [with_builtins], [for_binary], [push]. *)
Record IntegrationRegistry := { ir_specs : gmap string CliSpec }.

Definition builtins : list CliSpec := [bws_spec; op_spec; vault_spec; doppler_spec].

Definition registry_push (r : IntegrationRegistry) (spec : CliSpec) : IntegrationRegistry :=
  {| ir_specs := <[ci_binary_name spec := spec]> (ir_specs r) |}.

Definition with_builtins : IntegrationRegistry :=
  foldl registry_push {| ir_specs := ∅ |} builtins.

Definition for_binary (r : IntegrationRegistry) (binary_name : string) : option CliSpec :=
  ir_specs r !! binary_name.

(** ** What is launched *)

(** No token matches an option of each list: no name of one list is a prefix of
    a name of the other. *)
Definition apart (io co : list FlagSpec) : bool :=
  forallb (λ o, forallb (λ o', negb (starts_with (fs_name o) (fs_name o'))
                               && negb (starts_with (fs_name o') (fs_name o))) co) io.

(** Whose value is pending: an option of the integration's ([true]) or one of
    the command's ([false]). *)
Definition pending_after (io co : list FlagSpec) (a : string) : option bool :=
  match find (match_option_token a) (io ++ co) with
  | Some o => if takes_value o && negb (has_embedded_value a o)
              then Some (existsb (match_option_token a) io) else None
  | None => None
  end.

(** No value of an integration's option is spelled like an option that is
    stripped. *)
Fixpoint values_clean (io co : list FlagSpec) (pending : option bool) (args : list string) : bool :=
  match args with
  | [] => true
  | a :: args =>
      match pending with
      | Some own => (negb own || negb (existsb (match_option_token a) co)) && values_clean io co None args
      | None => if is_dashdash a then true else values_clean io co (pending_after io co a) args
      end
  end.

Definition clean_args (s : CliSpec) (args : list string) : bool :=
  forallb (λ rule, values_clean (ci_stripped_options s) (cm_stripped_options rule) None args)
    (omap as_sensitive_command (ci_matchers s)).

Lemma match_token_prefix a o : match_option_token a o = true → starts_with (fs_name o) a = true.
Proof.
  unfold match_option_token. rewrite starts_with_spec. intros [[H|H]%orb_true_iff|H]%orb_true_iff.
  - apply bool_decide_eq_true in H as ->. exists "". by rewrite str_app_nil_r.
  - destruct (strip_prefix _ a) as [r|] eqn:E; [|done]. exists r. by apply strip_prefix_Some.
  - apply andb_true_iff in H as [_ H]. destruct (strip_prefix _ a) as [r|] eqn:E; [|done].
    exists r. by apply strip_prefix_Some.
Qed.

(** Two prefixes of one text are prefixes of each other. *)
Lemma prefixes_nested p q a :
  starts_with p a = true → starts_with q a = true → starts_with p q = true ∨ starts_with q p = true.
Proof.
  rewrite !starts_with_spec. intros [r ->] [r' H]. revert q H.
  induction p as [|c p IH]; intros q H; [left; by exists q|].
  destruct q as [|c' q]; [right; by eexists|]. cbn in H. injection H as -> H.
  destruct (IH _ H) as [[x ->]|[x ->]]; [left|right]; by exists x.
Qed.

Lemma apart_no_match io co a :
  apart io co = true → existsb (match_option_token a) co = true → existsb (match_option_token a) io = false.
Proof.
  intros Ha (o' & Hin' & Hm')%existsb_exists. apply not_true_is_false.
  intros (o & Hin & Hm)%existsb_exists. unfold apart in Ha. rewrite forallb_forall in Ha.
  specialize (Ha o Hin). rewrite forallb_forall in Ha. specialize (Ha o' Hin').
  apply andb_true_iff in Ha as [H1%negb_true_iff H2%negb_true_iff].
  apply match_token_prefix in Hm, Hm'. destruct (prefixes_nested _ _ _ Hm Hm'); congruence.
Qed.

Lemma find_existsb {A} (f : A → bool) l : existsb f l = bool_decide (is_Some (find f l)).
Proof. induction l as [|x l IH]; [done|]. simpl. destruct (f x); [done|]. apply IH. Qed.

Lemma find_app {A} (f : A → bool) l l' :
  find f (l ++ l') = match find f l with Some x => Some x | None => find f l' end.
Proof. induction l as [|x l IH]; [done|]. simpl. by destruct (f x). Qed.

Lemma find_apart io co a o :
  apart io co = true → find (match_option_token a) co = Some o →
  find (match_option_token a) (io ++ co) = Some o ∧ existsb (match_option_token a) io = false.
Proof.
  intros Ha Hf. assert (existsb (match_option_token a) io = false) as Hn.
  { apply (apart_no_match io co); [done|]. rewrite find_existsb, Hf. done. }
  split; [|done]. rewrite find_app. rewrite find_existsb in Hn.
  destruct (find _ io); [done|]. done.
Qed.

(** A token that is kept leaves a scan of the rest, with the same verdict. *)
Lemma scan_kept io co a args words :
  is_dashdash a = false → find (match_option_token a) co = None →
  scan_words (io ++ co) false false (a :: args) = (words, false) →
  values_clean io co None (a :: args) = true →
  ∃ p w, scan_words (io ++ co) false (bool_decide (is_Some p)) args = (w, false) ∧
    values_clean io co p args = true ∧ bool_decide (p = Some false) = false.
Proof.
  intros Ed Ef Hs Hc. cbn [scan_words values_clean negb andb] in *. rewrite Ed in Hs, Hc.
  unfold pending_after in Hc. rewrite find_app, Ef in Hs, Hc.
  destruct (find (match_option_token a) io) as [o|] eqn:Ei.
  - assert (existsb (match_option_token a) io = true) as Hio by (rewrite find_existsb, Ei; done).
    rewrite Hio in Hc. destruct (takes_value o && negb (has_embedded_value a o)).
    + by exists (Some true), words.
    + by exists None, words.
  - destruct (starts_with "-" a); [by exists None, words|].
    destruct (scan_words _ _ _ _) as [w m] eqn:Es. exists None, w.
    assert (m = false) as -> by congruence. done.
Qed.

(** A token that is stripped too, and its value goes with it. *)
Lemma scan_stripped io co a o args words :
  apart io co = true → is_dashdash a = false → find (match_option_token a) co = Some o →
  scan_words (io ++ co) false false (a :: args) = (words, false) →
  values_clean io co None (a :: args) = true →
  ∃ p, scan_words (io ++ co) false (bool_decide (is_Some p)) args = (words, false) ∧
    values_clean io co p args = true ∧
    bool_decide (p = Some false) = takes_value o && negb (has_embedded_value a o).
Proof.
  intros Ha Ed Ef Hs Hc. cbn [scan_words values_clean negb andb] in *. rewrite Ed in Hs, Hc.
  unfold pending_after in Hc. destruct (find_apart io co a o Ha Ef) as [Hf Hn]. rewrite Hf in Hs, Hc. rewrite Hn in Hc.
  destruct (takes_value o && negb (has_embedded_value a o)); [by exists (Some false)|by exists None].
Qed.

(** What is kept is before the end of options, and is no stripped option. *)
Lemma remove_loop_clean io co args : ∀ p words,
  apart io co = true → scan_words (io ++ co) false (bool_decide (is_Some p)) args = (words, false) →
  values_clean io co p args = true →
  ∃ kept rest, remove_loop co (bool_decide (p = Some false)) args = kept ++ rest ∧
    (rest = [] ∨ ∃ r, rest = "--" :: r) ∧ kept `sublist_of` before_dashdash args ∧
    Forall (λ a, is_dashdash a = false ∧ existsb (match_option_token a) co = false) kept.
Proof.
  induction args as [|a args IH]; intros p words Ha Hs Hc.
  { exists [], []. by split_and!; [|left|..]. }
  cbn [remove_loop before_dashdash]. destruct p as [own|].
  - cbn [scan_words values_clean] in *. rewrite bool_decide_eq_true_2 in Hs by done. cbn [orb] in Hs.
    apply andb_true_iff in Hc as [Hown Hc].
    destruct (is_dashdash a) eqn:Ed; [by destruct (scan_words _ _ _ _)|]. cbn [orb] in Hs.
    destruct (scan_words _ _ _ _) as [w m] eqn:Es. assert (m = false) as -> by congruence.
    destruct (IH None w) as (kept & rest & Hr & Hrest & Hsub & Hk); [done|exact Es|done|].
    rewrite bool_decide_eq_false_2 in Hr by done. destruct own.
    + rewrite bool_decide_eq_false_2 by done. cbn in Hown. apply negb_true_iff in Hown.
      assert (find (match_option_token a) co = None) as ->.
      { rewrite find_existsb in Hown. by destruct (find _ co). }
      rewrite Hr. exists (a :: kept), rest. split_and!; [done|done|by apply sublist_skip|by constructor].
    + rewrite bool_decide_eq_true_2 by done. rewrite Hr. exists kept, rest.
      split_and!; [done|done|by apply sublist_cons|done].
  - rewrite bool_decide_eq_false_2 in Hs by (by intros [? ?]).
    rewrite bool_decide_eq_false_2 by done. destruct (is_dashdash a) eqn:Ed.
    { apply bool_decide_eq_true in Ed as ->. exists [], ("--" :: args).
      split_and!; [done|right; by eexists|done|done]. }
    destruct (find (match_option_token a) co) as [o|] eqn:Ef.
    + destruct (scan_stripped io co a o args words) as (p' & Hs' & Hc' & Hp'); [done..|].
      destruct (IH p' words Ha Hs' Hc') as (kept & rest & Hr & Hrest & Hsub & Hk). rewrite Hp' in Hr. rewrite Hr.
      exists kept, rest. split_and!; [done|done|by apply sublist_cons|done].
    + destruct (scan_kept io co a args words) as (p' & w' & Hs' & Hc' & Hp'); [done..|].
      destruct (IH p' w' Ha Hs' Hc') as (kept & rest & Hr & Hrest & Hsub & Hk). rewrite Hp' in Hr. rewrite Hr.
      exists (a :: kept), rest. split_and!; [done|done|by apply sublist_skip|].
      constructor; [split; [done|]|done]. by rewrite find_existsb, Ef.
Qed.

Lemma insert_before_split kept rest added :
  Forall (λ a, is_dashdash a = false) kept → (rest = [] ∨ ∃ r, rest = "--" :: r) →
  insert_before_dashdash (kept ++ rest) added = kept ++ added ++ rest.
Proof.
  intros Hk Hr. unfold insert_before_dashdash.
  assert (default (length (kept ++ rest)) (position is_dashdash (kept ++ rest)) = length kept) as ->.
  { induction Hk as [|a kept Ha Hk IH]; simpl.
    - destruct Hr as [->|[r ->]]; done.
    - rewrite Ha. destruct (position _ _) as [i|]; simpl in *; by rewrite IH. }
  by rewrite take_app_length, drop_app_length.
Qed.

(** The rule that mediates is the one whose options are applied. *)
Lemma rewrite_rule (s : CliSpec) args m :
  resolve_args s args = UseMatcher m →
  contains_any_option args (ci_forbidden_options s) = false ∧
  ∃ rule, SensitiveCommand rule ∈ ci_matchers s ∧ cm_matcher rule = m ∧
    match_args (cm_command rule) args (ci_stripped_options s) (cm_stripped_options rule) = CMatches ∧
    rewrite_args s args =
      insert_before_dashdash (remove_options args (cm_stripped_options rule)) (cm_append_options rule).
Proof.
  unfold resolve_args, rewrite_args. destruct (contains_any_option _ _); [done|].
  destruct (existsb _ _); [done|]. intros H. split; [done|].
  pose proof (resolve_sensitive_spec s args (omap as_sensitive_command (ci_matchers s))) as Hs.
  destruct (resolve_sensitive s args _) as [r|].
  - rewrite H in Hs. destruct Hs as (rule & Hf & ->). rewrite Hf. exists rule.
    apply find_some in Hf as [Hin Hm]. apply bool_decide_eq_true in Hm. split_and!; [|done..].
    apply list_elem_of_In, list_elem_of_omap in Hin as ([a|a|a] & Hr & [= <-]). done.
  - pose proof (resolve_safe_spec s args (omap as_safe_command (ci_matchers s))) as Hp. by rewrite H in Hp.
Qed.

(** ** The built-ins *)

(** Each built-in passes the validation that a configured one must pass, its
    options and those of its commands are apart, and what it forces is nothing
    it forbids. *)
Lemma builtins_valid : Forall (λ s, cli_spec_new s = Ok s) builtins.
Proof. repeat constructor. Qed.

Lemma builtins_apart s rule :
  s ∈ builtins → SensitiveCommand rule ∈ ci_matchers s →
  apart (ci_stripped_options s) (cm_stripped_options rule) = true ∧
  contains_any_option (cm_append_options rule) (ci_forbidden_options s) = false ∧
  Forall (λ a, is_dashdash a = false) (cm_append_options rule).
Proof.
  intros Hs Hr.
  assert (Forall (λ s, Forall (λ r, match r with
    | SensitiveCommand rule =>
        apart (ci_stripped_options s) (cm_stripped_options rule) = true ∧
        contains_any_option (cm_append_options rule) (ci_forbidden_options s) = false ∧
        Forall (λ a, is_dashdash a = false) (cm_append_options rule)
    | _ => True end) (ci_matchers s)) builtins) as H by (repeat constructor).
  rewrite Forall_forall in H. specialize (H s Hs). rewrite Forall_forall in H. exact (H _ Hr).
Qed.

Lemma builtins_found s : s ∈ builtins → for_binary with_builtins (ci_binary_name s) = Some s.
Proof. unfold builtins. rewrite !elem_of_cons, elem_of_nil. intros [->|[->|[->|[->|[]]]]]; reflexivity. Qed.

Lemma before_dashdash_app kept rest :
  Forall (λ a, is_dashdash a = false) kept → before_dashdash (kept ++ rest) = kept ++ before_dashdash rest.
Proof. induction 1 as [|a kept Ha _ IH]; [done|]. simpl. by rewrite Ha, IH. Qed.

Lemma before_dashdash_rest rest : rest = [] ∨ (∃ r, rest = "--" :: r) → before_dashdash rest = [].
Proof. by intros [->|[r ->]]. Qed.

Lemma contains_any_sublist args options kept :
  contains_any_option args options = false → kept `sublist_of` before_dashdash args →
  Forall (λ a, existsb (match_option_token a) options = false) kept.
Proof.
  intros Hn Hs. apply Forall_forall. intros a Ha. apply not_true_is_false. intros Hm.
  unfold contains_any_option in Hn. apply not_true_iff_false in Hn. apply Hn, existsb_exists.
  exists a. split; [|done]. apply list_elem_of_In. by eapply elem_of_sublist.
Qed.

(** [C18] A mediated command of a built-in runs with the output options forced and
    without a forbidden one.  For every command line that a built-in mediates,
    in which no value of the integration's own options is spelled like an option
    to strip: what is launched is a part of the command line in its order, none
    of it an option to strip or to forbid in any of its spellings (separate,
    after [=], attached), then the forced options, then what the agent put after
    [--]; and the launched command line as a whole has no forbidden option. *)
Theorem mediated_argv_forced s args m :
  s ∈ builtins → resolve_args s args = UseMatcher m → clean_args s args = true →
  ∃ rule kept rest,
    SensitiveCommand rule ∈ ci_matchers s ∧ cm_matcher rule = m ∧
    rewrite_args s args = kept ++ cm_append_options rule ++ rest ∧
    (rest = [] ∨ ∃ r, rest = "--" :: r) ∧ kept `sublist_of` before_dashdash args ∧
    Forall (λ a, existsb (match_option_token a)
                   (cm_stripped_options rule ++ ci_forbidden_options s) = false) kept ∧
    contains_any_option (rewrite_args s args) (ci_forbidden_options s) = false.
Proof.
  intros Hs Hr Hc. destruct (rewrite_rule s args m Hr) as (Hforb & rule & Hin & Hm & Hmatch & Hrw).
  destruct (builtins_apart s rule Hs Hin) as (Hapart & Happ & Hdd).
  assert (∃ words, scan_words (ci_stripped_options s ++ cm_stripped_options rule) false false args
            = (words, false)) as [words Hscan].
  { unfold match_args, command_matches in Hmatch. destruct (scan_words _ _ _ _) as [w [|]]; [|by exists w].
    by destruct (negb _). }
  assert (values_clean (ci_stripped_options s) (cm_stripped_options rule) None args = true) as Hclean.
  { unfold clean_args in Hc. rewrite forallb_forall in Hc. apply Hc, list_elem_of_In, list_elem_of_omap.
    by exists (SensitiveCommand rule). }
  destruct (remove_loop_clean _ _ args None words Hapart Hscan Hclean) as (kept & rest & Hk & Hrest & Hsub & Hall).
  rewrite bool_decide_eq_false_2 in Hk by done. unfold remove_options in Hrw. rewrite Hk in Hrw.
  assert (Forall (λ a, is_dashdash a = false) kept) as Hkd by (eapply Forall_impl; [exact Hall|]; naive_solver).
  rewrite insert_before_split in Hrw by done.
  pose proof (contains_any_sublist _ _ _ Hforb Hsub) as Hf.
  exists rule, kept, rest. split_and!; try done.
  - apply Forall_forall. intros a Ha. rewrite Forall_forall in Hall, Hf. destruct (Hall a Ha) as [_ H1].
    by rewrite existsb_app, H1, (Hf a Ha).
  - rewrite Hrw. unfold contains_any_option in *. rewrite before_dashdash_app by done.
    rewrite before_dashdash_app, (before_dashdash_rest rest), app_nil_r by done.
    assert (before_dashdash (cm_append_options rule) = cm_append_options rule) as Hbd.
    { rewrite <-(app_nil_r (cm_append_options rule)) at 1. rewrite before_dashdash_app by done. apply app_nil_r. }
    rewrite Hbd in Happ. rewrite existsb_app, Happ, orb_false_r. by apply existsb_not_In, Forall_forall.
Qed.

(** An integration without options of its own has no values to mistake. *)
Lemma clean_without_options (s : CliSpec) args : ci_stripped_options s = [] → clean_args s args = true.
Proof.
  intros Hs. apply forallb_forall. intros rule _. rewrite Hs. clear Hs.
  assert (∀ p, p ≠ Some true → values_clean [] (cm_stripped_options rule) p args = true) as H; [|by apply H].
  induction args as [|a args IH]; intros p Hp; [done|]. cbn [values_clean].
  destruct p as [[]|]; [done| |].
  - cbn. by apply IH.
  - destruct (is_dashdash a); [done|]. apply IH. unfold pending_after.
    destruct (find _ _); [|done]. by destruct (_ && _).
Qed.

(** Without the condition the conclusion fails.  The value of [--project] is the
    text [--format], which classification skips and [remove_options] strips,
    together with the [--] after it; what the agent put behind [--] then comes
    before any, and is launched as options. *)
Definition smuggling_args : list string :=
  ["secrets"; "download"; "--project"; "--format"; "--"; "app"; "--api-host"; "https://evil.example"].

Lemma forbidden_option_smuggled :
  (∃ m, resolve_args doppler_spec smuggling_args = UseMatcher m) ∧
  rewrite_args doppler_spec smuggling_args =
    ["secrets"; "download"; "--project"; "app"; "--api-host"; "https://evil.example";
     "--format"; "json"; "--no-file"; "--no-fallback"] ∧
  contains_any_option (rewrite_args doppler_spec smuggling_args) (ci_forbidden_options doppler_spec) = true.
Proof. split_and!; [by eexists|reflexivity|reflexivity]. Qed.

Lemma forbidden_address_smuggled :
  let args := ["kv"; "get"; "-namespace"; "-format"; "--"; "ns"; "-address=https://evil.example"; "secret/app"] in
  (∃ m, resolve_args vault_spec args = UseMatcher m) ∧
  rewrite_args vault_spec args =
    ["kv"; "get"; "-namespace"; "ns"; "-address=https://evil.example"; "secret/app"; "-format"; "json"].
Proof. split; [by eexists|reflexivity]. Qed.

(** ** Samples *)

Module Samples.

Definition download_args : list string :=
  ["secrets"; "download"; "--project"; "app"; "--fallback=/tmp/f"; "--format"; "env"; "--"; "out"].

Lemma mediated_argv_forced_witness :
  rewrite_args doppler_spec download_args =
    ["secrets"; "download"; "--project"; "app"; "--format"; "json"; "--no-file"; "--no-fallback"; "--"; "out"] ∧
  ∃ rule kept rest,
    SensitiveCommand rule ∈ ci_matchers doppler_spec ∧
    cm_matcher rule = MatchJson "$.*" "$" NameRecordKey None None ∧
    rewrite_args doppler_spec download_args = kept ++ cm_append_options rule ++ rest ∧
    (rest = [] ∨ ∃ r, rest = "--" :: r) ∧ kept `sublist_of` before_dashdash download_args ∧
    Forall (λ a, existsb (match_option_token a)
                   (cm_stripped_options rule ++ ci_forbidden_options doppler_spec) = false) kept ∧
    contains_any_option (rewrite_args doppler_spec download_args) (ci_forbidden_options doppler_spec) = false.
Proof.
  split; [vm_compute; reflexivity|].
  apply (mediated_argv_forced doppler_spec download_args).
  - do 3 right. left.
  - reflexivity.
  - reflexivity.
Defined.

End Samples.
