(* ===== verification/Credentials.v ===== *)
(** * Credential injection ([firma-sidecar/src/credential], [startup/credential.rs])

    The validated credential entries of the configuration ([config/mod.rs]), the
    injector built from them at startup, and its providers: environment values
    read once, files rendered by Vault Agent read at every call, or both.

    The environment of the process is a map, the file system what
    [read_to_string] answers for a path; a path is its text, which is all these
    files use of it.  The iteration order of the configuration's map is
    arbitrary: it is the order of the list of entries. *)

From S2P Require Import Prelude RustStr Core Pipeline SecretGateway.

#[local] Open Scope string_scope.

(** ** Configuration ([firma-config-schema/src/sidecar/infra.rs], [config/mod.rs]) *)

Inductive CredentialMode := ModeBasic | ModeVault.
Inductive CredentialTransform := GithubPatBasic.

(** [schema_infra::CredentialConfig]. *)
Record SchemaCredentialConfig := {
  scc_mode : CredentialMode;
  scc_target_host : string;
  scc_header : string;
  scc_prefix : option string;
  scc_transform : option CredentialTransform;
  scc_value_from_env : option string;
  scc_secret_path : option string;
}.

(** [CredentialConfig], with its header parsed. *)
Record CredentialConfig := {
  cc_mode : CredentialMode;
  cc_target_host : string;
  cc_header : string;
  cc_prefix : option string;
  cc_transform : option CredentialTransform;
  cc_value_from_env : option string;
  cc_secret_path : option string;
}.

Inductive CredentialConfigError :=
| EmptyTargetHost
| InvalidHeader (header : string)
| PrefixWithTransform
| ValueFromEnvRequired
| SecretPathRequired.

Section Config.
Context {HC : HttpCrate}.

(** [s.unwrap_or("").trim().is_empty()]. *)
Definition blank (s : option string) : bool := is_empty (trim (default "" s)).

(** [CredentialConfig::try_from]. *)
Definition credential_config_try_from (s : SchemaCredentialConfig)
    : Result CredentialConfig CredentialConfigError :=
  if is_empty (trim (scc_target_host s)) then Err EmptyTargetHost
  else
    let? header := map_err (λ _, InvalidHeader (scc_header s)) (header_name_from_bytes (scc_header s)) in
    if bool_decide (is_Some (scc_transform s)) && bool_decide (is_Some (scc_prefix s))
    then Err PrefixWithTransform
    else
      let? _ :=
        match scc_mode s with
        | ModeBasic => if blank (scc_value_from_env s) then Err ValueFromEnvRequired else Ok tt
        | ModeVault => if blank (scc_secret_path s) then Err SecretPathRequired else Ok tt
        end in
      Ok {| cc_mode := scc_mode s; cc_target_host := scc_target_host s; cc_header := header;
            cc_prefix := scc_prefix s; cc_transform := scc_transform s;
            cc_value_from_env := scc_value_from_env s; cc_secret_path := scc_secret_path s |}.

End Config.

(** ** Providers ([credential/provider]) *)

Record VaultSecretEntry := {
  vs_header_name : string;
  vs_value_prefix : option string;
  vs_value_transform : option CredentialTransform;
  vs_secret_path : string;
}.

Abbreviation BasicCredentials := (gmap string (gmap string string)).
Abbreviation VaultEntries := (gmap string (list VaultSecretEntry)).

(** [dyn CredentialInjector], with the provider it is. *)
Inductive Injector :=
| NullCredentialInjector
| BasicCredentialInjector (credentials : BasicCredentials)
| VaultCredentialInjector (entries : VaultEntries)
| CompositeCredentialInjector (basic : BasicCredentials) (vault : VaultEntries).

(** What [std::fs::read_to_string] answers. *)
Definition FileReads : Type := string → Result string string.

(** [std::env::var]; a value that is not Unicode counts as not set. *)
Abbreviation ProcessEnv := (gmap string string).

Section Providers.
Context {B : Base64}.

(** [render_secret_value]; the two enums of transforms are one here, their
    mapping ([map_transform]) being the identity. *)
Definition render_secret_value (raw : string) (prefix : option string)
    (transform : option CredentialTransform) : string :=
  match transform with
  | Some GithubPatBasic => "Basic " +:+ b64_encode ("x-access-token:" +:+ raw)
  | None => match prefix with None => raw | Some prefix => prefix +:+ raw end
  end.

(** [BasicCredentialInjector::inject]. *)
Definition basic_inject (credentials : BasicCredentials) (connector_id : string)
    : Result InjectedCredentials CredentialInjectionError :=
  ok_or ((λ headers, {| cred_headers := headers |}) <$> credentials !! connector_id)
    (UnknownConnector connector_id).

(** [read_secret_file]. *)
Definition read_secret_file (fs : FileReads) (path : string) : Result string string :=
  let? s := fs path in Ok (trim s).

(** The loop of [VaultCredentialInjector::inject]. *)
Fixpoint vault_headers (fs : FileReads) (connector_id : string) (secrets : list VaultSecretEntry)
    (headers : gmap string string) : Result (gmap string string) CredentialInjectionError :=
  match secrets with
  | [] => Ok headers
  | entry :: secrets =>
      let? raw := map_err (λ e, FetchFailed connector_id
                    ("failed to read secret file '" +:+ vs_secret_path entry +:+ "': " +:+ e))
                    (read_secret_file fs (vs_secret_path entry)) in
      let value := render_secret_value raw (vs_value_prefix entry) (vs_value_transform entry) in
      vault_headers fs connector_id secrets (<[vs_header_name entry := value]> headers)
  end.

(** [VaultCredentialInjector::inject]. *)
Definition vault_inject (fs : FileReads) (entries : VaultEntries) (connector_id : string)
    : Result InjectedCredentials CredentialInjectionError :=
  let? secrets := ok_or (entries !! connector_id) (UnknownConnector connector_id) in
  let? headers := vault_headers fs connector_id secrets ∅ in
  Ok {| cred_headers := headers |}.

(** [inject] of the injector, [CompositeCredentialInjector::inject] included;
    neither the envelope nor the target is read by any of them. *)
Definition injector_inject (i : Injector) (fs : FileReads) (connector_id : string)
    : Result InjectedCredentials CredentialInjectionError :=
  match i with
  | NullCredentialInjector => Ok credentials_empty
  | BasicCredentialInjector credentials => basic_inject credentials connector_id
  | VaultCredentialInjector entries => vault_inject fs entries connector_id
  | CompositeCredentialInjector basic vault =>
      match basic_inject basic connector_id with
      | Ok creds => Ok creds
      | Err (UnknownConnector _) => vault_inject fs vault connector_id
      | Err e => Err e
      end
  end.

(** ** Construction ([startup/credential.rs]) *)

(** [basic_map.entry(host).or_default().insert(header, value)] and the push. *)
Definition basic_insert (m : BasicCredentials) (host header value : string) : BasicCredentials :=
  <[host := <[header := value]> (default ∅ (m !! host))]> m.
Definition vault_push (m : VaultEntries) (host : string) (entry : VaultSecretEntry) : VaultEntries :=
  <[host := (default [] (m !! host) ++ [entry])%list]> m.

(** One entry of the loop of [build_credential_injector]. *)
Definition load_entry (vars : ProcessEnv) (label : string) (entry : CredentialConfig)
    (maps : BasicCredentials * VaultEntries) : Result (BasicCredentials * VaultEntries) string :=
  let '(basic_map, vault_map) := maps in
  match cc_mode entry with
  | ModeBasic =>
      let? env_name := ok_or (cc_value_from_env entry)
        ("credentials." +:+ label +:+ ": value_from_env required for basic mode") in
      let? raw_value := ok_or (vars !! env_name)
        ("credentials." +:+ label +:+ ": env var '" +:+ env_name +:+
         "' not set: environment variable not found") in
      if is_empty (trim raw_value)
      then Err ("credentials." +:+ label +:+ ": env var '" +:+ env_name +:+ "' is empty")
      else
        let value := render_secret_value raw_value (cc_prefix entry) (cc_transform entry) in
        Ok (basic_insert basic_map (cc_target_host entry) (cc_header entry) value, vault_map)
  | ModeVault =>
      let? secret_path := ok_or (cc_secret_path entry)
        ("credentials." +:+ label +:+ ": secret_path required for vault mode") in
      Ok (basic_map,
          vault_push vault_map (cc_target_host entry)
            {| vs_header_name := cc_header entry; vs_value_prefix := cc_prefix entry;
               vs_value_transform := cc_transform entry; vs_secret_path := secret_path |})
  end.

Fixpoint load_entries (vars : ProcessEnv) (creds : list (string * CredentialConfig))
    (maps : BasicCredentials * VaultEntries) : Result (BasicCredentials * VaultEntries) string :=
  match creds with
  | [] => Ok maps
  | (label, entry) :: creds =>
      let? maps := load_entry vars label entry maps in load_entries vars creds maps
  end.

(** [build_credential_injector]. *)
Definition build_credential_injector (vars : ProcessEnv) (creds : list (string * CredentialConfig))
    : Result Injector string :=
  match creds with
  | [] => Ok NullCredentialInjector
  | _ =>
      let? (basic_map, vault_map) := load_entries vars creds (∅, ∅) in
      Ok (match bool_decide (basic_map = ∅), bool_decide (vault_map = ∅) with
          | false, true => BasicCredentialInjector basic_map
          | true, false => VaultCredentialInjector vault_map
          | false, false => CompositeCredentialInjector basic_map vault_map
          | true, true => NullCredentialInjector
          end)
  end.

(** ** Facts *)

(** The value an entry stands for: its environment variable as it was at
    startup, or its file as it is now, rendered. *)
Definition entry_value (vars : ProcessEnv) (fs : FileReads) (entry : CredentialConfig)
    : option string :=
  let render raw := render_secret_value raw (cc_prefix entry) (cc_transform entry) in
  match cc_mode entry with
  | ModeBasic => name ← cc_value_from_env entry; render <$> vars !! name
  | ModeVault => path ← cc_secret_path entry; render <$> result_ok (read_secret_file fs path)
  end.

Definition configured (vars : ProcessEnv) (fs : FileReads) (creds : list (string * CredentialConfig))
    (host header value : string) : Prop :=
  ∃ label entry, (label, entry) ∈ creds ∧ cc_target_host entry = host ∧ cc_header entry = header ∧
    entry_value vars fs entry = Some value.

(** What the maps hold while the entries are loaded. *)
Record loaded (vars : ProcessEnv) (creds : list (string * CredentialConfig))
    (maps : BasicCredentials * VaultEntries) : Prop := {
  ld_basic : ∀ host headers header value,
    maps.1 !! host = Some headers → headers !! header = Some value →
    ∀ fs, configured vars fs creds host header value;
  ld_vault : ∀ host entries e,
    maps.2 !! host = Some entries → e ∈ entries →
    ∀ fs raw, read_secret_file fs (vs_secret_path e) = Ok raw →
    configured vars fs creds host (vs_header_name e)
      (render_secret_value raw (vs_value_prefix e) (vs_value_transform e));
}.

Lemma configured_mono vars fs creds creds' host header value :
  (∀ x, x ∈ creds → x ∈ creds') → configured vars fs creds host header value →
  configured vars fs creds' host header value.
Proof. intros Hs (label & entry & Hin & ?). exists label, entry. split; [by apply Hs|done]. Qed.

Lemma loaded_mono vars creds creds' maps :
  (∀ x, x ∈ creds → x ∈ creds') → loaded vars creds maps → loaded vars creds' maps.
Proof. intros Hs [Hb Hv]. split; intros; (eapply configured_mono; [done|]); eauto. Qed.

Lemma load_entry_loaded vars creds label entry maps maps' :
  loaded vars creds maps → load_entry vars label entry maps = Ok maps' →
  loaded vars (creds ++ [(label, entry)])%list maps'.
Proof.
  intros Hl He.
  assert (loaded vars (creds ++ [(label, entry)])%list maps) as [Hb Hv].
  { eapply loaded_mono; [|done]. intros. apply elem_of_app. by left. }
  assert ((label, entry) ∈ (creds ++ [(label, entry)])%list) as Hin
    by (apply elem_of_app; right; by apply list_elem_of_singleton).
  destruct maps as [bm vm]. unfold load_entry in He.
  destruct (cc_mode entry) eqn:Hmode.
  - destruct (cc_value_from_env entry) as [name|] eqn:En; [|done]. simpl in He.
    destruct (vars !! name) as [raw|] eqn:Er; [|done]. simpl in He.
    destruct (is_empty _); [done|]. injection He as <-. split; [|done].
    intros host headers header value Hh Hv' fs. cbn [fst] in *. unfold basic_insert in Hh.
    destruct (decide (host = cc_target_host entry)) as [->|Hne];
      [|rewrite lookup_insert_ne in Hh by done; by eapply Hb].
    rewrite lookup_insert_eq in Hh. injection Hh as <-.
    destruct (decide (header = cc_header entry)) as [->|Hne].
    + rewrite lookup_insert_eq in Hv'. injection Hv' as <-. exists label, entry. split_and!; try done.
      unfold entry_value. by rewrite Hmode, En; simpl; rewrite Er.
    + rewrite lookup_insert_ne in Hv' by done. destruct (bm !! _) as [hs|] eqn:Eh; [by eapply Hb|].
      simpl in Hv'. by rewrite lookup_empty in Hv'.
  - destruct (cc_secret_path entry) as [path|] eqn:Ep; [|done]. simpl in He. injection He as <-.
    split; [done|]. intros host entries e Hh Hin' fs raw Hr. cbn [snd] in *. unfold vault_push in Hh.
    destruct (decide (host = cc_target_host entry)) as [->|Hne];
      [|rewrite lookup_insert_ne in Hh by done; by eapply Hv].
    rewrite lookup_insert_eq in Hh. injection Hh as <-.
    apply elem_of_app in Hin' as [Hin'| ->%list_elem_of_singleton].
    + destruct (vm !! _) as [es|] eqn:Eh; [by eapply Hv|by apply not_elem_of_nil in Hin'].
    + exists label, entry. split_and!; try done. unfold entry_value. rewrite Hmode, Ep. simpl in *.
      by rewrite Hr.
Qed.

Lemma load_entries_loaded vars creds : ∀ before maps maps',
  loaded vars before maps → load_entries vars creds maps = Ok maps' →
  loaded vars (before ++ creds)%list maps'.
Proof.
  induction creds as [|[label entry] creds IH]; intros before maps maps' Hl; simpl.
  { intros [= <-]. by rewrite app_nil_r. }
  destruct (load_entry _ _ _ _) as [maps1|] eqn:E; [|done]. intros He.
  pose proof (load_entry_loaded _ _ _ _ _ _ Hl E) as Hl1.
  replace (before ++ (label, entry) :: creds)%list with ((before ++ [(label, entry)]) ++ creds)%list
    by by rewrite <-app_assoc.
  by eapply IH.
Qed.

Lemma vault_headers_spec fs id secrets : ∀ headers headers' h v,
  vault_headers fs id secrets headers = Ok headers' → headers' !! h = Some v →
  headers !! h = Some v ∨
  ∃ e raw, e ∈ secrets ∧ vs_header_name e = h ∧ read_secret_file fs (vs_secret_path e) = Ok raw ∧
    v = render_secret_value raw (vs_value_prefix e) (vs_value_transform e).
Proof.
  induction secrets as [|e secrets IH]; intros headers headers' h v; simpl.
  { intros [= <-]. by left. }
  destruct (read_secret_file fs (vs_secret_path e)) as [raw|] eqn:Er; [|done]. simpl. intros Hv Hh.
  destruct (IH _ _ _ _ Hv Hh) as [Hl|(e' & raw' & Hin & ?)].
  - destruct (decide (h = vs_header_name e)) as [->|Hne].
    + rewrite lookup_insert_eq in Hl. injection Hl as <-. right. exists e, raw. split_and!; try done. by left.
    + rewrite lookup_insert_ne in Hl by done. by left.
  - right. exists e', raw'. split; [by right|done].
Qed.

Lemma vault_inject_configured vars fs creds bm vm id c h v :
  loaded vars creds (bm, vm) → vault_inject fs vm id = Ok c → cred_headers c !! h = Some v →
  configured vars fs creds id h v.
Proof.
  intros [_ Hv]. unfold vault_inject. destruct (vm !! id) as [secrets|] eqn:Es; [|done]. simpl.
  destruct (vault_headers _ _ _ _) as [headers|] eqn:Eh; [|done]. intros [= <-]. simpl. intros Hl.
  destruct (vault_headers_spec _ _ _ _ _ _ _ Eh Hl) as [Hl'|(e & raw & Hin & <- & Hr & ->)].
  { by rewrite lookup_empty in Hl'. }
  by eapply Hv.
Qed.

Lemma basic_inject_configured vars fs creds bm vm id c h v :
  loaded vars creds (bm, vm) → basic_inject bm id = Ok c → cred_headers c !! h = Some v →
  configured vars fs creds id h v.
Proof.
  intros [Hb _]. unfold basic_inject. destruct (bm !! id) as [headers|] eqn:Eb; [|done].
  intros [= <-] Hl. by eapply Hb.
Qed.

(** A credential is only ever handed out for the host its entry names, with the
    value of that entry. *)
Lemma injector_configured vars fs creds inj id c h v :
  build_credential_injector vars creds = Ok inj → injector_inject inj fs id = Ok c →
  cred_headers c !! h = Some v → configured vars fs creds id h v.
Proof.
  intros Hbuild Hi Hl. destruct creds as [|x creds]; cbn [build_credential_injector] in Hbuild.
  { injection Hbuild as <-. injection Hi as <-. cbn in Hl. by rewrite lookup_empty in Hl. }
  destruct (load_entries vars (x :: creds) (∅, ∅)) as [[bm vm]|] eqn:El; [|done].
  injection Hbuild as <-.
  assert (loaded vars (x :: creds) (bm, vm)) as Hld.
  { apply (load_entries_loaded _ _ [] (∅, ∅)); [|done].
    split; intros ? ? ? ? Hf; cbn in *; by rewrite lookup_empty in *. }
  destruct (bool_decide (bm = ∅)), (bool_decide (vm = ∅)); cbn [injector_inject] in Hi.
  - injection Hi as <-. cbn in Hl. by rewrite lookup_empty in Hl.
  - by eapply vault_inject_configured.
  - by eapply basic_inject_configured.
  - destruct (basic_inject bm id) as [c'|[i|i r]] eqn:Eb.
    + injection Hi as ->. by eapply basic_inject_configured.
    + by eapply vault_inject_configured.
    + done.
Qed.

(** A host with an environment credential never gets its file credentials. *)
Lemma vault_shadowed basic vault fs id headers :
  basic !! id = Some headers →
  injector_inject (CompositeCredentialInjector basic vault) fs id = Ok {| cred_headers := headers |}.
Proof. intros Hb. simpl. unfold basic_inject. by rewrite Hb. Qed.

End Providers.
