(* ===== verification/HttpConnector.v ===== *)
(** * The HTTP connector ([firma-sidecar/src/connector/provider/http.rs])

    The request the connector builds from an authorized view and what it does
    with the answer, the registry built from the configuration
    ([config/connector.rs], [startup/connector.rs]), and the composition with the
    normalizer, the handler and the credential injector: what is judged, what is
    sent, and to which host a credential goes.

    The [reqwest] client is a parameter: whether the builder accepts a request,
    when the permit of the rate limiter comes, when the head and the body of the
    answer arrive and what they are.  So is the URL parser behind it, with the
    rules of the URL standard that matter here. *)

From S2P Require Import Prelude RustStr Core Mapping MappingHost MappingTable Json Normalizer Redaction Decision.
From S2P Require Import Lru Revocation Session Cedar Pipeline.
From S2P Require Import Handler SecretGateway Credentials.

#[local] Open Scope string_scope.

(** ** Configuration ([config/connector.rs]) *)

Record RateLimitConfig := { rl_rps : Z; rl_burst : Z }.

(** [HttpConnectorConfig]; durations are in nanoseconds. *)
Record HttpConnectorConfig := { hc_timeout : Z; hc_rate_limit : option RateLimitConfig }.

(** The schema's and the validated entry of a host have the same fields. *)
Record HostConnectorConfig := { hcc_host : string; hcc_rps : Z; hcc_burst : Z; hcc_timeout : Z }.

Record ConnectorConfig := { cnc_default_timeout : Z; cnc_hosts : list HostConnectorConfig }.

Inductive ConnectorConfigError := HostEmpty (host : string) | DuplicateHost (host : string).

(** [HostConnectorConfig::try_from]. *)
Definition host_config_try_from (s : HostConnectorConfig) : option HostConnectorConfig :=
  if is_empty (trim (hcc_host s)) then None else Some s.

(** The loop of [ConnectorConfig::try_from]. *)
Fixpoint validate_hosts (seen : gset string) (hosts : list HostConnectorConfig)
    : Result (list HostConnectorConfig) ConnectorConfigError :=
  match hosts with
  | [] => Ok []
  | host :: hosts =>
      let? validated := ok_or (host_config_try_from host) (HostEmpty (hcc_host host)) in
      if bool_decide (hcc_host validated ∈ seen) then Err (DuplicateHost (hcc_host validated))
      else let? rest := validate_hosts ({[hcc_host validated]} ∪ seen) hosts in Ok (validated :: rest)
  end.

Definition connector_config_try_from (s : ConnectorConfig)
    : Result ConnectorConfig ConnectorConfigError :=
  let? hosts := validate_hosts ∅ (cnc_hosts s) in
  Ok {| cnc_default_timeout := cnc_default_timeout s; cnc_hosts := hosts |}.

(** ** The connector *)

Definition HTTP_DEFAULT_TIMEOUT : Z := 30000000000.

(** [GenericHttpConnector]: what its configuration says; the client itself is
    the same for all. *)
Record GenericHttpConnector := { gh_rate_limiter : option RateLimitConfig; gh_timeout : Z }.

(** [GenericHttpConnector::new] with a client that builds. *)
Definition connector_new (config : HttpConnectorConfig) : GenericHttpConnector :=
  {| gh_rate_limiter := hc_rate_limit config; gh_timeout := hc_timeout config |}.

Definition default_for_unconfigured : GenericHttpConnector :=
  connector_new {| hc_timeout := HTTP_DEFAULT_TIMEOUT; hc_rate_limit := None |}.

Record ReqwestErrorFlags := {
  is_timeout : bool; is_connect : bool; is_request : bool;
  is_body : bool; is_decode : bool; is_builder : bool;
}.

(** A [reqwest::Error]: its flags and its [Display]. *)
Record ReqwestError := { re_flags : ReqwestErrorFlags; re_display : string }.

Inductive ConnectorErrorKind := KTimeout | KNetwork | KInvalidRequest.

Definition classify_reqwest_error (flags : ReqwestErrorFlags) : ConnectorErrorKind :=
  if is_timeout flags then KTimeout
  else if is_builder flags then KInvalidRequest
  else KNetwork.

Definition reqwest_error_message (err : ReqwestError) : string :=
  let flags := re_flags err in
  let prefix :=
    if is_connect flags then "connect"
    else if is_body flags then "body"
    else if is_decode flags then "decode"
    else if is_request flags then "request"
    else "transport" in
  prefix +:+ ": " +:+ re_display err.

Definition map_reqwest_error (err : ReqwestError) (configured : Z) : ConnectorError :=
  match classify_reqwest_error (re_flags err) with
  | KTimeout => CTimeout configured
  | KNetwork => CNetwork (reqwest_error_message err)
  | KInvalidRequest => CInvalidRequest (re_display err)
  end.

(** What the connector hands to [reqwest]: the method, the URL as text, the
    pairs given to [query], the headers in the order they are appended, the
    body. *)
Record OutboundRequest := {
  ob_method : string;
  ob_url : string;
  ob_query : list (string * string);
  ob_headers : list (string * string);
  ob_body : option string;
}.

Section Connector.
Context {HC : HttpCrate}.

(** What comes of a request that was sent: when the head and when the body
    arrive, in nanoseconds from the start of the dispatch ([None]: never), and
    what they are.  The client has the default redirect policy, so a head may be
    the answer of a host a redirect named. *)
Record HttpExchange := {
  hx_head_at : option Z;
  hx_head : Result (Z * HeaderMap) ReqwestError;
  hx_body_at : option Z;
  hx_body : Result string ReqwestError;
}.

Record HttpWorld := {
  hw_permit_at : option Z;
  hw_build : OutboundRequest → Result unit ReqwestError;
  hw_execute : OutboundRequest → HttpExchange;
  hw_elapsed : Z;
}.

(** [tokio::time::timeout]: the inner future is polled before the deadline. *)
Definition before_deadline (deadline : Z) (at_ : option Z) : bool :=
  match at_ with Some t => (t <=? deadline)%Z | None => false end.

(** [acquire_permit]. *)
Definition acquire_permit (c : GenericHttpConnector) (w : HttpWorld) : option Z :=
  match gh_rate_limiter c with Some _ => hw_permit_at w | None => Some 0%Z end.

Definition outbound_scheme (intent : ExecutionIntent) : string :=
  if String.eqb (raw_transport intent) "https" then "https" else "http".

Definition outbound_resource (intent : ExecutionIntent) (http : HttpParams) : string :=
  let resource_display := resource_display intent in
  if bool_decide (hp_query http = ∅) then resource_display
  else match split_once "?"%char resource_display with
       | Some (resource, _) => resource
       | None => resource_display
       end.

(** The headers: the agent's, but for those that are injected, then the
    injected ones. *)
Definition outbound_headers (headers : HeaderMap) (injected : gmap string string)
    : list (string * string) :=
  (filter (λ kv, injected !! kv.1 = None) (hm_iter headers) ++ map_to_list injected)%list.

(** The request builder of [dispatch_inner]. *)
Definition outbound (view : TransportView) (http : HttpParams) : OutboundRequest :=
  let intent := env_intent (tv_envelope view) in
  {| ob_method := http_method_as_str (hp_method http);
     ob_url := outbound_scheme intent +:+ "://" +:+ outbound_resource intent http;
     ob_query := map_to_list (hp_query http);
     ob_headers := outbound_headers (hp_headers http) (cred_headers (tv_credentials view));
     ob_body := hp_body http |}.

(** [dispatch_inner] under the deadline of [dispatch]: the result, and what was
    put on the wire. *)
Definition dispatch_inner (c : GenericHttpConnector) (w : HttpWorld) (view : TransportView)
    (http : HttpParams) : Result ConnectorResponse ConnectorError * option OutboundRequest :=
  let timeout := gh_timeout c in
  if negb (before_deadline timeout (acquire_permit c w)) then (Err (CTimeout timeout), None)
  else
    let request := outbound view http in
    match hw_build w request with
    | Err err => (Err (map_reqwest_error err timeout), None)
    | Ok _ =>
        let x := hw_execute w request in
        (if negb (before_deadline timeout (hx_head_at x)) then Err (CTimeout timeout)
         else
           let? (status, headers) := map_err (λ err, map_reqwest_error err timeout) (hx_head x) in
           if negb (before_deadline timeout (hx_body_at x)) then Err (CTimeout timeout)
           else
             let? body := map_err (λ err, map_reqwest_error err timeout) (hx_body x) in
             Ok {| cn_status := status; cn_headers := headers; cn_body := body;
                   cn_dispatch_latency := hw_elapsed w;
                   cn_response_size := Z.of_nat (String.length body) |}, Some request)
    end.

(** [GenericHttpConnector::dispatch]. *)
Definition http_dispatch (c : GenericHttpConnector) (w : HttpWorld) (view : TransportView)
    : Result ConnectorResponse ConnectorError * option OutboundRequest :=
  match params (env_intent (tv_envelope view)) with
  | Http http => dispatch_inner c w view http
  | _ => (Err (CInvalidRequest "non-HTTP params cannot be dispatched by GenericHttpConnector"), None)
  end.

(** The connector the handler is given. *)
Definition http_connector (w : HttpWorld) (c : GenericHttpConnector) : Connector :=
  λ view, fst (http_dispatch c w view).

(** [build_connector_registry] ([startup/connector.rs]), over the world each
    host's connector lives in. *)
Definition build_connector_registry (w : string → HttpWorld) (cfg : ConnectorConfig)
    : ConnectorRegistry :=
  let default :=
    if (cnc_default_timeout cfg =? 30000000000)%Z then default_for_unconfigured
    else connector_new {| hc_timeout := cnc_default_timeout cfg; hc_rate_limit := None |} in
  fold_left (λ registry host_cfg,
    register_host registry (hcc_host host_cfg)
      (http_connector (w (hcc_host host_cfg))
        (connector_new {| hc_timeout := hcc_timeout host_cfg;
                          hc_rate_limit := Some {| rl_rps := hcc_rps host_cfg;
                                                   rl_burst := hcc_burst host_cfg |} |})))
    (cnc_hosts cfg) (registry_new (http_connector (w "") default)).

End Connector.

(** ** The URL standard

    [Url::parse] of an [http] or [https] URL: its host and its path. *)
Class UrlTarget := url_target : string → option (string * string).

Definition plain_char (a : ascii) : bool :=
  is_ascii_alphanumeric a || bool_decide (a ∈ ["-"%char; "."%char; "_"%char; "~"%char; "%"%char]).

(** The spellings of a dot segment. *)
Definition dot_spellings : list string := ["."; ".."; "%2e"; ".%2e"; "%2e."; "%2e%2e"].

Definition plain_segment (s : string) : bool :=
  str_forallb plain_char s && negb (bool_decide (to_ascii_lowercase s ∈ dot_spellings)).

Definition plain_path (path : string) : bool :=
  starts_with "/" path && forallb plain_segment (split_char "/"%char path).

Definition host_char (a : ascii) : bool :=
  is_ascii_digit a || is_ascii_lower a || bool_decide (a ∈ ["-"%char; "."%char]).

(** A lower-case domain name, not an address: its last label starts with a
    letter. *)
Definition plain_host (host : string) : bool :=
  str_forallb host_char host &&
  match match rsplit_once "."%char host with Some (_, label) => label | None => host end with
  | String a _ => is_ascii_lower a
  | EmptyString => false
  end.

(** What the standard says of such URLs: where the parse succeeds, a plain host
    and a plain path are as written, whatever the query; and a segment spelled
    [%2e%2e] is a [..]. *)
Class UrlTargetLaws (U : UrlTarget) := {
  url_plain : ∀ scheme host path h p,
    scheme = "http" ∨ scheme = "https" → plain_host host = true → plain_path path = true →
    url_target (scheme +:+ "://" +:+ host +:+ path) = Some (h, p) → h = host ∧ p = path;
  url_query_apart : ∀ scheme host path query,
    scheme = "http" ∨ scheme = "https" → plain_host host = true → plain_path path = true →
    url_target (scheme +:+ "://" +:+ host +:+ path +:+ "?" +:+ query) =
    url_target (scheme +:+ "://" +:+ host +:+ path);
  url_encoded_dots : ∀ scheme host a b h p,
    scheme = "http" ∨ scheme = "https" → plain_host host = true →
    plain_segment a = true → plain_segment b = true →
    url_target (scheme +:+ "://" +:+ host +:+ "/" +:+ a +:+ "/%2e%2e/" +:+ b) = Some (h, p) →
    h = host ∧ p = "/" +:+ b;
}.

(** ** Facts: headers *)



Section Facts.
Context {HC : HttpCrate} {HL : HttpCrateLaws HC} {SJ : SerdeJson} {UN : UnicodeNfc}
  {FU : FormUrlencoded} {U : UrlTarget} {UL : UrlTargetLaws U}.


Lemma outbound_headers_elem headers injected kv :
  kv ∈ outbound_headers headers injected →
  injected !! kv.1 = Some kv.2 ∨ injected !! kv.1 = None ∧ kv ∈ hm_iter headers.
Proof.
  unfold outbound_headers. intros [H|H]%elem_of_app.
  - apply list_elem_of_filter in H. by right.
  - destruct kv. apply elem_of_map_to_list in H. by left.
Qed.

(** What is put on the wire is the request built from the view. *)
Lemma http_dispatch_sent c w view r out :
  http_dispatch c w view = (r, Some out) →
  ∃ http, params (env_intent (tv_envelope view)) = Http http ∧ out = outbound view http ∧
    before_deadline (gh_timeout c) (acquire_permit c w) = true ∧ hw_build w out = Ok tt.
Proof.
  unfold http_dispatch, dispatch_inner.
  destruct (params _) as [http|?|?] eqn:Hp; [|done..].
  destruct (before_deadline _ _) eqn:Et; [|done]. simpl. destruct (hw_build _ _) as [[]|] eqn:Hb; [|done].
  intros [= _ <-]. exists http. done.
Qed.

(** A response is the one the client gave for that request, in time. *)
Lemma http_dispatch_response c w view resp sent :
  http_dispatch c w view = (Ok resp, sent) →
  ∃ out headers, sent = Some out ∧
    hx_head (hw_execute w out) = Ok (cn_status resp, headers) ∧ cn_headers resp = headers ∧
    hx_body (hw_execute w out) = Ok (cn_body resp) ∧
    before_deadline (gh_timeout c) (hx_body_at (hw_execute w out)) = true ∧
    cn_response_size resp = Z.of_nat (String.length (cn_body resp)).
Proof.
  unfold http_dispatch, dispatch_inner. destruct (params _) as [http|?|?]; [|done..].
  destruct (before_deadline _ _); [|done]. simpl. destruct (hw_build _ _); [|done].
  intros [= Hr <-]. eexists _, (cn_headers resp). split; [done|]. revert Hr.
  destruct (before_deadline _ (hx_head_at _)); [|done]. simpl.
  destruct (hx_head _) as [[status headers]|]; [|done]. simpl.
  destruct (before_deadline _ (hx_body_at _)) eqn:Hb; [|done]. simpl.
  destruct (hx_body _) as [body|]; [|done]. simpl. intros [= <-]. done.
Qed.

(** ** Facts: the registry *)

Lemma validate_hosts_distinct hosts : ∀ seen out,
  validate_hosts seen hosts = Ok out →
  NoDup (hcc_host <$> out) ∧ ∀ host, host ∈ hcc_host <$> out → host ∉ seen.
Proof.
  induction hosts as [|x hosts IH]; intros seen out; cbn [validate_hosts].
  { intros [= <-]. split; [constructor|]. by intros ? ?%not_elem_of_nil. }
  unfold host_config_try_from. destruct (is_empty _); [done|]. cbn [ok_or].
  destruct (bool_decide _) eqn:Hs; [done|]. apply bool_decide_eq_false in Hs.
  destruct (validate_hosts _ hosts) as [rest|] eqn:Hr; [|done]. intros [= <-].
  destruct (IH _ _ Hr) as [Hnd Hfresh]. rewrite fmap_cons. split.
  - constructor; [|done]. intros Hin. apply (Hfresh _ Hin). set_solver.
  - intros host [->|Hin]%elem_of_cons; [done|]. specialize (Hfresh _ Hin). set_solver.
Qed.

Definition host_connector (w : string → HttpWorld) (h : HostConnectorConfig) : Connector :=
  http_connector (w (hcc_host h))
    (connector_new {| hc_timeout := hcc_timeout h;
                      hc_rate_limit := Some {| rl_rps := hcc_rps h; rl_burst := hcc_burst h |} |}).

Lemma register_all_select w hosts : ∀ registry,
  let built := fold_left (λ reg h, register_host reg (hcc_host h) (host_connector w h)) hosts registry in
  (∀ host, host ∉ hcc_host <$> hosts → registry_select built host = registry_select registry host) ∧
  (NoDup (hcc_host <$> hosts) → ∀ h, h ∈ hosts →
     registry_select built (hcc_host h) = host_connector w h).
Proof.
  induction hosts as [|x hosts IH]; intros registry; cbn [fold_left].
  { split; [done|]. by intros _ ? ?%not_elem_of_nil. }
  destruct (IH (register_host registry (hcc_host x) (host_connector w x))) as [Hout Hin].
  rewrite fmap_cons. split.
  - intros host [Hne Hn]%not_elem_of_cons. etrans; [by apply Hout|].
    unfold registry_select, register_host. simpl. by rewrite lookup_insert_ne.
  - intros [Hx Hnd]%NoDup_cons h [->|Hh]%elem_of_cons; [|by apply Hin].
    etrans; [by apply Hout|]. unfold registry_select, register_host. simpl. by rewrite lookup_insert_eq.
Qed.

(** Every host of a validated configuration gets the connector of its own entry,
    every other one the default. *)
Lemma registry_per_host w s cfg :
  connector_config_try_from s = Ok cfg →
  (∀ h, h ∈ cnc_hosts cfg →
     registry_select (build_connector_registry w cfg) (hcc_host h) = host_connector w h) ∧
  (∀ host, host ∉ hcc_host <$> cnc_hosts cfg →
     registry_select (build_connector_registry w cfg) host =
     http_connector (w "") (connector_new {| hc_timeout := cnc_default_timeout cfg; hc_rate_limit := None |})).
Proof.
  unfold connector_config_try_from. destruct (validate_hosts ∅ _) as [hosts|] eqn:Hv; [|done].
  intros [= <-]. apply validate_hosts_distinct in Hv as [Hnd _]. unfold build_connector_registry. simpl.
  edestruct (register_all_select w hosts) as [Hout Hin]. split.
  - intros h Hh. by apply Hin.
  - intros host Hh. etrans; [by apply Hout|]. unfold registry_select, registry_new. simpl.
    rewrite lookup_empty. simpl. by destruct (Z.eqb_spec (cnc_default_timeout s) 30000000000) as [->|].
Qed.

(** ** Facts: the target *)

Lemma plain_no_char (f : ascii → bool) c s :
  f c = false → str_forallb f s = true → contains_char c s = false.
Proof.
  intros Hc. induction s as [|a s IH]; [done|]. simpl. intros [Ha Hs]%andb_true_iff.
  rewrite IH by done. rewrite orb_false_r. apply bool_decide_eq_false_2. intros ->. congruence.
Qed.

Lemma plain_host_no_char c host :
  host_char c = false → plain_host host = true → contains_char c host = false.
Proof. intros Hc [Hh _]%andb_true_iff. by eapply plain_no_char. Qed.

Lemma plain_path_no_char c path :
  plain_char c = false → c ≠ "/"%char → plain_path path = true → contains_char c path = false.
Proof.
  intros Hc Hs [_ Hp]%andb_true_iff. rewrite <-(join_split "/"%char path).
  revert Hp. generalize (split_char "/"%char path). intros l.
  induction l as [|x l IH]; [done|]. cbn [forallb]. intros [Hx Hl]%andb_true_iff.
  apply andb_true_iff in Hx as [Hx _]. apply (plain_no_char _ c) in Hx; [|done].
  destruct l as [|y l]; [done|].
  change (contains_char c (x +:+ ("/" +:+ join "/" (y :: l))) = false).
  rewrite !contains_char_app, Hx, (IH Hl). cbn. by rewrite bool_decide_eq_false_2.
Qed.

(** The pairs of the agent's query. *)
Definition agent_query (r : RawRequest) : gmap string string :=
  match split_once "?"%char (rq_path r) with
  | Some (_, query) => if is_empty query then ∅ else parse_query_string query
  | None => ∅
  end.



(** A decision that forwards [e] with [creds]. *)
Definition admits (d : EnforcementDecision) (e : ExecutionEnvelope) (creds : InjectedCredentials)
    : Prop :=
  match d with
  | Allow _ e' creds' => e' = e ∧ creds' = creds
  | Modify _ e' _ creds' => e' = e ∧ creds' = creds
  | _ => False
  end.

Lemma strip_firma_headers_elem h kv : kv ∈ hm_iter (strip_firma_headers h) → kv ∈ hm_iter h.
Proof. unfold strip_firma_headers. rewrite hm_from_iter_elem, list_elem_of_filter. tauto. Qed.

(** The view of a decision, field by field. *)
Lemma sends_view d r e creds view p :
  admits d e creds → params (env_intent e) = Http p → sends d r view →
  tv_credentials view = creds ∧
  resource (env_intent (tv_envelope view)) = resource (env_intent e) ∧
  raw_transport (env_intent (tv_envelope view)) = raw_transport (env_intent e) ∧
  ∃ http, params (env_intent (tv_envelope view)) = Http http ∧ hp_method http = hp_method p ∧
    hp_body http = rq_body r ∧
    hp_query http = match split_once "?"%char (rq_path r) with
                    | Some (_, query) => if is_empty query then hp_query p else parse_query_string query
                    | None => hp_query p
                    end ∧
    (∀ kv, kv ∈ hm_iter (hp_headers http) → kv ∈ hm_iter (rq_headers r)).
Proof.
  intros Ha Hp Hs. destruct d; simpl in Ha; try done; destruct Ha as [-> ->]; simpl in Hs.
  - subst view. unfold hydrate_dispatch_http_fields. simpl. rewrite Hp. simpl. split_and!; try done.
    eexists. split_and!; try done. apply strip_firma_headers_elem.
  - destruct Hs as [<- Hm]. split; [done|]. revert Hm. unfold modification_apply, hydrate_dispatch_http_fields.
    rewrite Hp. simpl. destruct modifications. intros [= <-]. simpl. split_and!; try done.
    eexists. split_and!; try done. simpl. intros kv [Hk _]%hm_remove_elem. by apply strip_firma_headers_elem.
Qed.


(** The URL handed over: the dispatch host and the canonical path, and a query
    only if the agent sent one. *)
Lemma sent_url n now r env e creds d view c w res out :
  let host := normalize_dispatch_host (rq_host r) (rq_is_https r) in
  normalize n now r = Ok env → env_intent e = ne_intent env →
  admits d e creds → sends d r view → http_dispatch c w view = (res, Some out) →
  contains_char "?"%char (host +:+ request_path r) = false →
  ∃ scheme, (scheme = "http" ∨ scheme = "https") ∧
    (ob_url out = scheme +:+ "://" +:+ host +:+ request_path r ∨
     is_Some (split_once "?"%char (rq_path r)) ∧
     ∃ q, ob_url out = scheme +:+ "://" +:+ host +:+ request_path r +:+ "?" +:+ q).
Proof.
  intros host Hn He Ha Hs Hd Hq.
  destruct (normalize_sound n now r env Hn) as (_ & _ & p0 & _ & _ & _ & Hrh & Hrp & Hp0 & _).
  rewrite <-He in Hrh, Hrp, Hp0.
  destruct (sends_view d r e creds view p0 Ha Hp0 Hs) as (_ & Hres & Hraw & http & Hhttp & _).
  destruct (http_dispatch_sent _ _ _ _ _ Hd) as (http' & Hhttp' & -> & _).
  rewrite Hhttp in Hhttp'. injection Hhttp' as <-. cbn [ob_url outbound].
  exists (outbound_scheme (env_intent (tv_envelope view))).
  split; [unfold outbound_scheme; destruct (String.eqb _ _); auto|].
  unfold outbound_resource, resource_display. rewrite Hres, Hrh. cbn [default from_option id]. fold host.
  destruct Hrp as [->|(q & Hsq & ->)]; cbn [default from_option id].
  - left. by rewrite (proj2 (split_once_None _ _) Hq), Tauto.if_same.
  - replace (split_once "?"%char (host +:+ request_path r +:+ "?" +:+ redact_query n q.2))
      with (Some (host +:+ request_path r, redact_query n q.2))
      by (symmetry; apply split_once_Some; split; [by rewrite str_app_assoc|done]).
    destruct (bool_decide _); [right|by left]. split; [by rewrite Hsq|by eexists].
Qed.

(** Where a request with a plain host and a plain path goes. *)
Lemma sent_target n now r env e creds d view c w res out h p :
  normalize n now r = Ok env → env_intent e = ne_intent env →
  admits d e creds → sends d r view → http_dispatch c w view = (res, Some out) →
  plain_host (normalize_dispatch_host (rq_host r) (rq_is_https r)) = true →
  plain_path (request_path r) = true → url_target (ob_url out) = Some (h, p) →
  h = normalize_dispatch_host (rq_host r) (rq_is_https r) ∧ p = request_path r.
Proof.
  intros Hn He Ha Hs Hd Hhost Hpath Hu.
  destruct (sent_url n now r env e creds d view c w res out) as (scheme & Hsch & Hurl); try done.
  { rewrite contains_char_app, (plain_host_no_char "?"%char), (plain_path_no_char "?"%char) by done. done. }
  destruct Hurl as [Hurl|[_ [q Hurl]]]; rewrite Hurl in Hu; [|rewrite url_query_apart in Hu by done];
    by eapply url_plain in Hu.
Qed.

Lemma split_char_head c l r :
  contains_char c l = false → head (split_char c (l +:+ String c r)) = Some l.
Proof.
  induction l as [|a l IH]; cbn; [intros _; by rewrite decide_True by done|].
  intros [Ha%bool_decide_eq_false Hl]%orb_false_iff. rewrite decide_False by done.
  specialize (IH Hl). destruct (split_char c (l +:+ String c r)); [done|]. cbn in *. by injection IH as ->.
Qed.

Lemma extract_host_first host path :
  contains_char "/"%char host = false → starts_with "/" path = true →
  extract_host (host +:+ path) = host.
Proof.
  intros Hh [rest ->]%starts_with_spec. unfold extract_host.
  change (host +:+ ("/" +:+ rest)) with (host +:+ String "/"%char rest). by rewrite split_char_head.
Qed.


(** [C12] A credential is sent only to the host it is configured for.  With the
    injector built from the configuration, in a request with a plain host and a
    plain path that the pipeline admitted and the connector hands to the HTTP
    client, every header is one the agent sent or the value of an entry that names
    this header and, as its target, the very host of the URL the client is given.
    What the client does when the answer is a redirect is outside. *)
Theorem credentials_reach_their_host {B : Base64} {St : Type} (m : Moment (St := St)) vars fs creds inj claims mods
    n now r env e view c w res out h p name v :
  build_credential_injector vars creds = Ok inj →
  (∀ e' id target, at_inject m e' id target = injector_inject inj fs id) →
  normalize n now r = Ok env → env_intent e = ne_intent env →
  sends (inject_credentials m claims e mods) r view → http_dispatch c w view = (res, Some out) →
  plain_host (normalize_dispatch_host (rq_host r) (rq_is_https r)) = true →
  plain_path (request_path r) = true → url_target (ob_url out) = Some (h, p) →
  (name, v) ∈ ob_headers out →
  (name, v) ∈ hm_iter (rq_headers r) ∨ configured vars fs creds h name v.
Proof.
  intros Hb Hi Hn He Hs Hd Hhost Hpath Hu Hin.
  destruct (inject_credentials_cases m claims e mods) as [(cr & Hcr & Hdec)|[detail Hdec]];
    rewrite Hdec in Hs; [|done].
  assert (admits (match mods with Some spec => Modify claims e spec cr | None => Allow claims e cr end) e cr)
    as Ha by by destruct mods.
  destruct (sent_target n now r env e cr _ view c w res out h p Hn He Ha Hs Hd Hhost Hpath Hu) as [-> ->].
  destruct (normalize_sound n now r env Hn) as (_ & _ & p0 & _ & _ & _ & Hrh & Hrp & Hp0 & _).
  rewrite <-He in Hrh, Hrp, Hp0.
  destruct (sends_view _ r e cr view p0 Ha Hp0 Hs) as (Htv & _ & _ & http & Hhttp & _ & _ & _ & Hhs).
  destruct (http_dispatch_sent _ _ _ _ _ Hd) as (http' & Hhttp' & -> & _).
  rewrite Hhttp in Hhttp'. injection Hhttp' as <-. cbn [outbound ob_headers] in Hin. rewrite Htv in Hin.
  apply outbound_headers_elem in Hin as [Hv|[_ ?]]; [right|left; auto]. cbn [fst snd] in Hv.
  set (host := normalize_dispatch_host _ _) in *.
  assert (extract_host (resource_display (env_intent e)) = host) as Hx.
  { unfold resource_display. rewrite Hrh. apply andb_true_iff in Hpath as [Hsl _].
    apply extract_host_first; [by apply plain_host_no_char|].
    apply starts_with_spec in Hsl as [rest Hrest].
    destruct Hrp as [->|(q & _ & ->)]; cbn [default from_option id]; rewrite Hrest; by apply starts_with_spec; eexists. }
  rewrite Hx, !Hi in Hcr. destruct Hcr as [Hcr|[-> _]]; [|cbn in Hv; by rewrite lookup_empty in Hv].
  by eapply injector_configured.
Qed.

(** The path is judged as written, but a segment spelled [%2e%2e] is resolved by
    the URL parser: a request for [/public/%2e%2e/admin] is classified by the rule
    of that text and sent to [/admin]. *)
Lemma encoded_dots_unjudged n now r env e creds d view c w res out h p :
  rq_path r = "/public/%2e%2e/admin" →
  normalize n now r = Ok env → env_intent e = ne_intent env →
  admits d e creds → sends d r view → http_dispatch c w view = (res, Some out) →
  plain_host (normalize_dispatch_host (rq_host r) (rq_is_https r)) = true →
  url_target (ob_url out) = Some (h, p) →
  (∃ host rule, find_match (mapping_table n) (rq_method r) host "/public/%2e%2e/admin" =
     Matched rule) ∧ p = "/admin".
Proof.
  intros Hr Hn He Ha Hs Hd Hhost Hu.
  assert (request_path r = "/public/%2e%2e/admin") as Hpath by (unfold request_path; rewrite Hr; reflexivity).
  destruct (normalize_sound n now r env Hn) as (host & rule & _ & _ & Hm & _). rewrite Hpath in Hm.
  split; [by exists host, rule|].
  destruct (sent_url n now r env e creds d view c w res out) as (scheme & Hsch & Hurl); try done.
  { rewrite Hpath, contains_char_app, (plain_host_no_char "?"%char) by done. done. }
  rewrite Hr, Hpath in Hurl. destruct Hurl as [Hurl|[[? [=]] _]]. rewrite Hurl in Hu.
  by apply (url_encoded_dots scheme _ "public" "admin" h p) in Hu as [_ ?].
Qed.

End Facts.

(** ** Samples *)

Module Samples.
Import CapabilityValidation.Samples Pipeline.Samples.
#[local] Existing Instances list_http list_http_laws plain_form.
#[local] Existing Instances Pipeline.Samples.no_json Pipeline.Samples.ascii_nfc no_params
  sample_policy sample_verifier Revocation.sample_hash Revocation.sample_sizing Lru.assoc_lru Lru.assoc_lru_laws
  Session.Samples.hex_sha.
#[local] Existing Instance SecretGateway.Samples.plain_base64.

(** A reading of the URL standard on the URLs its rules above speak of. *)
Definition after_scheme (s : string) : option string :=
  match strip_prefix "https://" s with Some rest => Some rest | None => strip_prefix "http://" s end.

#[local] Instance sample_url : UrlTarget := λ s,
  rest ← after_scheme s;
  '(host, rest) ← split_once "/"%char rest;
  let path := "/" +:+ default rest (fst <$> split_once "?"%char rest) in
  if plain_path path then Some (host, path)
  else match split_char "/"%char path with
       | [_; _; "%2e%2e"; b] => Some (host, "/" +:+ b)
       | _ => None
       end.

Lemma after_scheme_app scheme rest :
  scheme = "http" ∨ scheme = "https" → after_scheme (scheme +:+ "://" +:+ rest) = Some rest.
Proof. by intros [->| ->]. Qed.

Lemma sample_url_parts scheme host rest :
  scheme = "http" ∨ scheme = "https" → plain_host host = true →
  url_target (scheme +:+ "://" +:+ host +:+ String "/"%char rest) =
  let path := "/" +:+ default rest (fst <$> split_once "?"%char rest) in
  if plain_path path then Some (host, path)
  else match split_char "/"%char path with
       | [_; _; "%2e%2e"; b] => Some (host, "/" +:+ b)
       | _ => None
       end.
Proof.
  intros Hs Hh. unfold url_target, sample_url. rewrite after_scheme_app by done. cbn [mbind option_bind].
  by rewrite split_once_app by (by apply plain_host_no_char).
Qed.

#[local] Instance sample_url_laws : UrlTargetLaws sample_url.
Proof.
  split.
  - intros scheme host path h p Hs Hh Hp. pose proof Hp as Hp'.
    apply andb_true_iff in Hp' as [[rest ->]%starts_with_spec _].
    change ("/" +:+ rest) with (String "/"%char rest) at 1. rewrite sample_url_parts by done.
    assert (contains_char "?"%char ("/" +:+ rest) = false) as Hq by by apply plain_path_no_char.
    cbn in Hq. rewrite (proj2 (split_once_None _ _) Hq). cbn [default from_option id fmap option_fmap option_map].
    cbv zeta. rewrite Hp. by intros [= <- <-].
  - intros scheme host path query Hs Hh Hp. pose proof Hp as Hp'.
    apply andb_true_iff in Hp' as [[rest ->]%starts_with_spec _].
    assert (contains_char "?"%char ("/" +:+ rest) = false) as Hq by by apply plain_path_no_char.
    change (("/" +:+ rest) +:+ "?" +:+ query) with (String "/"%char (rest +:+ String "?"%char query)).
    change ("/" +:+ rest) with (String "/"%char rest).
    cbn in Hq. rewrite !sample_url_parts by done. rewrite split_once_app by done. by rewrite (proj2 (split_once_None _ _) Hq).
  - intros scheme host a b h p Hs Hh [Ha _]%andb_true_iff [Hb _]%andb_true_iff.
    change ("/" +:+ a +:+ "/%2e%2e/" +:+ b) with (String "/"%char (a +:+ "/%2e%2e/" +:+ b)).
    rewrite sample_url_parts by done.
    apply (plain_no_char _ "/"%char) in Ha as Ha1; [|done]. apply (plain_no_char _ "?"%char) in Ha; [|done].
    apply (plain_no_char _ "/"%char) in Hb as Hb1; [|done]. apply (plain_no_char _ "?"%char) in Hb; [|done].
    assert (contains_char "?"%char (a +:+ "/%2e%2e/" +:+ b) = false) as Hq
      by (rewrite !contains_char_app, Ha, Hb; done).
    rewrite (proj2 (split_once_None _ _) Hq). cbn [default from_option id fmap option_fmap option_map]. cbv zeta.
    assert (split_char "/"%char ("/" +:+ a +:+ "/%2e%2e/" +:+ b) = [""; a; "%2e%2e"; b]) as Hsp.
    { change (split_char "/"%char ("" +:+ String "/"%char (a +:+ String "/"%char ("%2e%2e" +:+ String "/"%char b))) = [""; a; "%2e%2e"; b]).
      by rewrite !split_char_app_sep, !split_char_single. }
    unfold plain_path. rewrite Hsp. cbn [forallb]. 
    assert (plain_segment "%2e%2e" = false) as -> by reflexivity.
    rewrite !andb_false_r. cbn [andb]. by intros [= <- <-].
Qed.

Definition sample_world : HttpWorld :=
  {| hw_permit_at := None; hw_build _ := Ok tt; hw_elapsed := 6;
     hw_execute _ := {| hx_head_at := Some 5%Z; hx_head := Ok (200%Z, []);
                        hx_body_at := Some 6%Z; hx_body := Ok "ok" |} |}.

Definition agent_request : RawRequest :=
  {| rq_method := "GET"; rq_host := "API.GitHub.com:443"; rq_path := "/repos//x?q=a%20b&q=1&flag";
     rq_headers := [("accept", "*/*"); ("authorization", "Bearer agent"); ("x-firma-run", "1")];
     rq_body := None; rq_is_https := true |}.

Definition sample_env_vars : gmap string string := {[ "GITHUB_TOKEN" := "s3cret" ]}.
Definition sample_entries : list (string * CredentialConfig) :=
  [("github", {| cc_mode := ModeBasic; cc_target_host := "api.github.com";
                 cc_header := "authorization"; cc_prefix := Some "Bearer "; cc_transform := None;
                 cc_value_from_env := Some "GITHUB_TOKEN"; cc_secret_path := None |});
   ("other", {| cc_mode := ModeVault; cc_target_host := "example.com"; cc_header := "x-key";
                cc_prefix := None; cc_transform := None; cc_value_from_env := None;
                cc_secret_path := Some "/run/key" |})].

Definition no_files : FileReads := λ _, Err "not found".

Definition sample_injector : Injector :=
  match build_credential_injector sample_env_vars sample_entries with
  | Ok inj => inj
  | Err _ => NullCredentialInjector
  end.

Definition injecting : Moment (St := Session.LruSessionStateStore) :=
  {| at_readiness := at_readiness sample_moment; at_validate := 50; at_stage2 := 20;
     at_task := at_task sample_moment; at_inject := λ _ id _, injector_inject sample_injector no_files id;
     at_latency := 5000; at_final := 30; race_signals := id; race_outcome := id;
     race_provenance := id |}.

(** The intent the request is judged on, and its envelope. *)
Definition sample_intent : ExecutionIntent :=
  {| action_class := "code.read";
     resource := <["provider" := "github"]>
       (<["path" := "/repos/x?q=a%20b&q=1&flag"]> {[ "host" := "api.github.com" ]});
     params := Http {| hp_method := GET; hp_headers := [("accept", "*/*"); ("x-firma-run", "1")]; hp_body := None;
                       hp_query := {[ "q" := "1" ]} |};
     raw_transport := "https"; raw_action_ref := "GET /repos//x?q=a%20b&q=1&flag" |}.

Definition sample_judged : NormalizedEnvelope := {| ne_intent := sample_intent; ne_timestamp := 7 |}.

Definition sample_envelope : ExecutionEnvelope :=
  {| env_intent := sample_intent; capability := "t1";
     metadata := {| md_session_id := "s"; md_agent_id := "alice"; md_timestamp := 7;
                    md_trace_id := None; md_risk_score := None; md_thread_id := None;
                    md_parent_action_id := None |};
     provenance := None |}.

Definition sample_creds : InjectedCredentials :=
  {| cred_headers := {[ "authorization" := "Bearer s3cret" ]} |}.

Definition sample_view : TransportView :=
  {| tv_envelope := hydrate_dispatch_http_fields sample_envelope agent_request;
     tv_credentials := sample_creds |}.

Definition sample_out : OutboundRequest :=
  {| ob_method := "GET"; ob_url := "https://api.github.com/repos/x"; ob_query := [("q", "1")];
     ob_headers := [("accept", "*/*"); ("authorization", "Bearer s3cret")]; ob_body := None |}.

Definition sample_result : Result ConnectorResponse ConnectorError * option OutboundRequest :=
  http_dispatch default_for_unconfigured sample_world sample_view.

Lemma sample_normalized : normalize (normalizer_new sample_rules) 7 agent_request = Ok sample_judged.
Proof. vm_compute. reflexivity. Qed.

Lemma sample_dispatched : sample_result = (sample_result.1, Some sample_out).
Proof. vm_compute. reflexivity. Qed.

Lemma sample_target : url_target (ob_url sample_out) = Some ("api.github.com", "/repos/x").
Proof. vm_compute. reflexivity. Qed.

(** The query of the agent reaches the client as written, percent signs
    included, for the client to encode. *)
Example query_sent_undecoded :
  map_to_list (agent_query {| rq_method := "GET"; rq_host := "h"; rq_path := "/s?q=a%20b"; rq_headers := [];
                              rq_body := None; rq_is_https := true |}) = [("q", "a%20b")].
Proof. vm_compute. reflexivity. Qed.


Lemma credentials_reach_their_host_witness :
  ("authorization", "Bearer s3cret") ∈ rq_headers agent_request ∨
  configured sample_env_vars no_files sample_entries "api.github.com" "authorization" "Bearer s3cret".
Proof.
  apply (credentials_reach_their_host injecting sample_env_vars no_files sample_entries sample_injector
    (sample_claims "alice" "t1") None (normalizer_new sample_rules) 7 agent_request sample_judged
    sample_envelope sample_view default_for_unconfigured
    sample_world sample_result.1 sample_out "api.github.com" "/repos/x" "authorization" "Bearer s3cret");
    [vm_compute; reflexivity|intros; reflexivity|exact sample_normalized|reflexivity
    |vm_compute; reflexivity|exact sample_dispatched|vm_compute; reflexivity|vm_compute; reflexivity
    |exact sample_target|right; left].
Defined.

End Samples.
