(* ===== verification/ConnectionStore.v ===== *)
(** * The connection store ([firma-connection-store])

    What [firma login] keeps between runs: one record in a private directory and
    one secret, in the credential store of the operating system or, on demand,
    in the record.  Every change is made under an exclusive lock by the protocol
    of [store.rs]: store the new secret, publish the new record by an atomic
    rename, flush the directory, retire the old secret.

    The machine is the connection file and the credential store; the errors of
    the calls to both are parameters of each operation, which also lists the
    changes it makes in order, so that a crash between any two of them can be
    told.  [serde_json] at the record, [Url::parse] and the random bytes are
    parameters.  The platform is Unix. *)

From S2P Require Import Prelude RustStr RustPath.

#[local] Open Scope string_scope.
#[local] Open Scope Z_scope.

(** ** Values ([model.rs]) *)

Inductive OriginMode := OriginProduction | OriginDevelopmentLoopback.

#[export] Instance origin_mode_eq_dec : EqDecision OriginMode.
Proof. solve_decision. Defined.

(** A [Url] is its serialization, an identifier its text. *)
Record Connection := {
  co_origin : string;
  co_origin_mode : OriginMode;
  co_workspace_id : string;
  co_membership_id : string;
}.

#[export] Instance connection_eq_dec : EqDecision Connection.
Proof. solve_decision. Defined.

Inductive SecretPolicy := NativeOnly | AllowPlaintextFile.

Inductive Backend := BackendNone | BackendNative | BackendFile.

#[export] Instance backend_eq_dec : EqDecision Backend.
Proof. solve_decision. Defined.

Inductive LoadedSecret := LoadedNone | LoadedNative (secret : string) | LoadedFile (secret : string).

Definition loaded_secret (l : LoadedSecret) : option string :=
  match l with LoadedNone => None | LoadedNative s | LoadedFile s => Some s end.

Definition loaded_backend (l : LoadedSecret) : Backend :=
  match l with
  | LoadedNone => BackendNone
  | LoadedNative _ => BackendNative
  | LoadedFile _ => BackendFile
  end.

Record SavedConnection := { sc_connection : Connection; sc_secret : LoadedSecret }.

Inductive Durability := Durable | Uncertain.

Record Replaced := {
  rd_backend : Backend;
  rd_durability : Durability;
  rd_stale_secret_left : bool;
}.

Inductive Removed := RemovedNothing | RemovedExisting (durability : Durability) (stale_secret_left : bool).

(** ** Errors ([error.rs]) *)

Inductive IoErr := IoNotFound | IoPermissionDenied | IoLoop | IoOther.

Inductive NativeFailure := NfBadData | NfOther (detail : string).

(** The paths are those of the store; only the file within it is kept. *)
Inductive StoreError :=
| NoConfigDirectory
| RelativeDirectory
| UnprotectedPath (path : string)
| StoreIo (action path : string) (source : IoErr)
| StoreLock (source : IoErr)
| Randomness
| StoreEncode
| CorruptConnection (reason : string)
| RecordTooLarge
| NativeStorageUnavailable (reason : string)
| StoreNative (failure : NativeFailure)
| SecretMissing
| PlaintextFileUnsupported.

(** ** Connection ids ([id.rs]) *)

(** [ConnectionId::generate] on the random bytes. *)
Fixpoint hex_of (bytes : list Z) : string :=
  match bytes with
  | [] => ""
  | byte :: bytes =>
      String (hex_digit (Z.shiftr byte 4)) (String (hex_digit (Z.land byte 15)) (hex_of bytes))
  end.

Definition is_lower_hex (a : ascii) : bool := is_ascii_digit a || in_range 97 102 a.

(** [ConnectionId::parse]. *)
Definition connection_id_parse (value : string) : option string :=
  if Nat.eqb (String.length value) 32 && str_forallb is_lower_hex value then Some value else None.

(** ** The record ([record.rs]) *)

Definition RECORD_VERSION : Z := 1.
Definition MAX_RECORD_BYTES : Z := 16 * 1024 * 1024.

Inductive SecretField := SecretNone | SecretNative | SecretFile (value : string).

(** [RecordOut] and [RecordIn]. *)
Record RecordFields := {
  rf_version : Z;
  rf_connection_id : string;
  rf_origin : string;
  rf_development_loopback : bool;
  rf_workspace_id : string;
  rf_membership_id : string;
  rf_secret : SecretField;
}.

(** [serde_json] at the record; the error of a parse is its line and column. *)
Class RecordJson := {
  record_to_json : RecordFields → option string;
  record_from_json : string → Result RecordFields (Z * Z);
}.

Definition newline_char : ascii := "010"%char.

(** What is printed can be read back, with a final newline. *)
Class RecordJsonLaws (J : RecordJson) :=
  record_roundtrip : ∀ r s, record_to_json r = Some s →
    record_from_json (s +:+ String newline_char "") = Ok r.

(** [Url::parse], up to serialization. *)
Class UrlText := url_parse : string → option string.

(** A validated record. *)
Record StoredRecord := { sr_id : string; sr_connection : Connection; sr_secret : SecretField }.

Section Records.
Context {J : RecordJson} {U : UrlText}.

(** [encode]: the size of the text is counted before it is written. *)
Definition record_encode (id : string) (connection : Connection) (secret : SecretField)
    : Result string StoreError :=
  match record_to_json
          {| rf_version := RECORD_VERSION; rf_connection_id := id; rf_origin := co_origin connection;
             rf_development_loopback :=
               bool_decide (co_origin_mode connection = OriginDevelopmentLoopback);
             rf_workspace_id := co_workspace_id connection;
             rf_membership_id := co_membership_id connection; rf_secret := secret |} with
  | None => Err StoreEncode
  | Some text =>
      if Z.of_nat (String.length text) <? MAX_RECORD_BYTES then Ok (text +:+ String newline_char "")
      else Err RecordTooLarge
  end.

(** [validate]; every secret field is supported on Unix. *)
Definition validate_record (record : RecordFields) : Result StoredRecord StoreError :=
  if negb (rf_version record =? RECORD_VERSION)
  then Err (CorruptConnection ("unsupported version " +:+ display_uint (rf_version record)))
  else
    let? id := ok_or (connection_id_parse (rf_connection_id record))
                 (CorruptConnection "invalid connection id") in
    let? origin := ok_or (url_parse (rf_origin record)) (CorruptConnection "invalid origin") in
    Ok {| sr_id := id;
          sr_connection :=
            {| co_origin := origin;
               co_origin_mode := if rf_development_loopback record then OriginDevelopmentLoopback
                                 else OriginProduction;
               co_workspace_id := rf_workspace_id record;
               co_membership_id := rf_membership_id record |};
          sr_secret := rf_secret record |}.

(** [decode]. *)
Definition record_decode (bytes : string) : Result StoredRecord StoreError :=
  match record_from_json bytes with
  | Err (line, column) =>
      Err (CorruptConnection ("invalid JSON at line " +:+ display_uint line +:+ ", column " +:+
                              display_uint column))
  | Ok record => validate_record record
  end.

End Records.

(** ** The credential store ([native.rs]) *)

(** [keyring_core::Error]. *)
Inductive KeyringError :=
| NoStorageAccess | PlatformFailure | NoDefaultStore | NoEntry | BadEncoding | BadDataFormat
| Ambiguous | OtherKeyringError.

Inductive NativeError :=
| NeUnavailable (reason : string)
| NeNoEntry
| NeFailed (failure : NativeFailure).

(** [classify]. *)
Definition classify_keyring (error : KeyringError) : NativeError :=
  match error with
  | NoStorageAccess | PlatformFailure =>
      NeUnavailable "the platform credential store cannot be accessed"
  | NoDefaultStore => NeUnavailable "no credential store exists on this platform"
  | NoEntry => NeNoEntry
  | BadEncoding | BadDataFormat => NeFailed NfBadData
  | Ambiguous => NeFailed (NfOther "more than one credential matches the connection")
  | OtherKeyringError => NeFailed (NfOther "the credential store refused the operation")
  end.

Definition native_failure_display (f : NativeFailure) : string :=
  match f with NfBadData => "the stored secret is malformed" | NfOther detail => detail end.

(** What goes wrong with one use of the credential store: its creation, the
    entry, the operation on it.  A failed operation changes nothing. *)
Record KeyringFault := {
  kf_backend : option KeyringError;
  kf_build : option KeyringError;
  kf_operation : option KeyringError;
}.

Definition no_fault : KeyringFault :=
  {| kf_backend := None; kf_build := None; kf_operation := None |}.

(** [NativeStore::backend] and [NativeStore::entry]. *)
Definition native_entry (fault : KeyringFault) : Result unit NativeError :=
  match kf_backend fault with
  | Some error =>
      Err (match classify_keyring error with
           | NeFailed failure => NeUnavailable (native_failure_display failure)
           | other => other
           end)
  | None => match kf_build fault with Some error => Err (classify_keyring error) | None => Ok tt end
  end.

(** [NativeStore::set], [get] and [delete]. *)
Definition native_set (fault : KeyringFault) : Result unit NativeError :=
  let? _ := native_entry fault in
  match kf_operation fault with Some error => Err (classify_keyring error) | None => Ok tt end.

Definition native_get (fault : KeyringFault) (keyring : gmap string string) (id : string)
    : Result string NativeError :=
  let? _ := native_entry fault in
  match kf_operation fault with
  | Some error => Err (classify_keyring error)
  | None => ok_or (keyring !! id) NeNoEntry
  end.

Definition native_delete (fault : KeyringFault) : Result unit NativeError :=
  let? _ := native_entry fault in
  match kf_operation fault with
  | Some NoEntry => Ok tt
  | Some error => Err (classify_keyring error)
  | None => Ok tt
  end.

(** [native_error] ([store.rs]). *)
Definition native_error (error : NativeError) : StoreError :=
  match error with
  | NeUnavailable reason => NativeStorageUnavailable reason
  | NeNoEntry => SecretMissing
  | NeFailed failure => StoreNative failure
  end.

(** ** Files ([file.rs]) *)

Definition CONNECTION_FILE : string := "connection.json".
Definition LOCK_FILE : string := "connection.lock".

Inductive FileKind := KRegular | KDirectory | KSymlink | KOtherKind.

#[export] Instance file_kind_eq_dec : EqDecision FileKind.
Proof. solve_decision. Defined.

Record FileMeta := { fm_kind : FileKind; fm_uid : Z; fm_mode : Z; fm_len : Z }.

Definition GROUP_OR_OTHER : Z := 63.

(** [ensure_private] and [ensure_private_temporary]; [euid] is the effective
    user. *)
Definition ensure_private (euid : Z) (metadata : FileMeta) (path : string) (kind : FileKind)
    : Result unit StoreError :=
  if bool_decide (fm_kind metadata = kind) && (fm_uid metadata =? euid) &&
     (Z.land (fm_mode metadata) GROUP_OR_OTHER =? 0)
  then Ok tt else Err (UnprotectedPath path).

Definition ensure_private_temporary (euid : Z) (metadata : FileMeta) : Result unit StoreError :=
  let? _ := ensure_private euid metadata "temporary" KRegular in
  if Z.land (fm_mode metadata) 511 =? 384 then Ok tt else Err (UnprotectedPath "temporary").

(** The connection file of the directory. *)
Record FileNode := { fd_meta : FileMeta; fd_bytes : string }.

(** [open_error]: [O_NOFOLLOW] on a symbolic link fails with [ELOOP]. *)
Definition open_error (path : string) (error : IoErr) : StoreError :=
  match error with IoLoop => UnprotectedPath path | _ => StoreIo "open" path error end.

(** What goes wrong while the connection file is read, and the reads its bytes
    come in. *)
Record ReadFault := {
  rt_open : option IoErr;
  rt_inspect : option IoErr;
  rt_reads : string → list (Result string IoErr);
}.

(** [bounded_capacity]. *)
Definition bounded_capacity (len : Z) : Result unit StoreError :=
  if MAX_RECORD_BYTES <? len then Err RecordTooLarge else Ok tt.

(** [read_bounded]: an empty read is the end of the file. *)
Fixpoint read_bounded (reads : list (Result string IoErr)) (bytes : string) : Result string StoreError :=
  match reads with
  | [] => Ok bytes
  | Err error :: _ => Err (StoreIo "read" CONNECTION_FILE error)
  | Ok chunk :: reads =>
      if is_empty chunk then Ok bytes
      else if MAX_RECORD_BYTES <? Z.of_nat (String.length bytes) + Z.of_nat (String.length chunk)
      then Err RecordTooLarge
      else read_bounded reads (bytes +:+ chunk)
  end.

(** [open_connection], on the file in its place. *)
Definition open_connection (euid : Z) (fault : ReadFault) (file : option FileNode)
    : Result (option FileNode) StoreError :=
  match rt_open fault, file with
  | Some IoNotFound, _ => Ok None
  | Some error, _ => Err (open_error CONNECTION_FILE error)
  | None, None => Ok None
  | None, Some node =>
      if bool_decide (fm_kind (fd_meta node) = KSymlink)
      then Err (open_error CONNECTION_FILE IoLoop)
      else match rt_inspect fault with
           | Some error => Err (StoreIo "inspect" CONNECTION_FILE error)
           | None =>
               let? _ := ensure_private euid (fd_meta node) CONNECTION_FILE KRegular in
               let? _ := bounded_capacity (fm_len (fd_meta node)) in
               Ok (Some node)
           end
  end.

Section Files.
Context {J : RecordJson} {U : UrlText}.

(** [file::read]. *)
Definition file_read (euid : Z) (fault : ReadFault) (file : option FileNode)
    : Result (option StoredRecord) StoreError :=
  let? opened := open_connection euid fault file in
  match opened with
  | None => Ok None
  | Some node =>
      let? bytes := read_bounded (rt_reads fault (fd_bytes node)) "" in
      let? record := record_decode bytes in
      Ok (Some record)
  end.

End Files.

(** What goes wrong while a new file is written and published, and the mode its
    temporary file gets. *)
Record WriteFault := {
  wt_create : option IoErr;
  wt_write : option IoErr;
  wt_sync : option IoErr;
  wt_inspect : option IoErr;
  wt_mode : Z;
  wt_persist : option IoErr;
}.

Definition io_step (fault : option IoErr) (action path : string) : Result unit StoreError :=
  match fault with Some error => Err (StoreIo action path error) | None => Ok tt end.

(** [prepare_temporary]: the node that will be renamed. *)
Definition prepare_temporary (euid : Z) (fault : WriteFault) (bytes : string)
    : Result FileNode StoreError :=
  let? _ := io_step (wt_create fault) "create a temporary file in" "" in
  let? _ := io_step (wt_write fault) "write" "temporary" in
  let? _ := io_step (wt_sync fault) "flush" "temporary" in
  let? _ := io_step (wt_inspect fault) "inspect" "temporary" in
  let metadata := {| fm_kind := KRegular; fm_uid := euid; fm_mode := wt_mode fault;
                     fm_len := Z.of_nat (String.length bytes) |} in
  let? _ := ensure_private_temporary euid metadata in
  Ok {| fd_meta := metadata; fd_bytes := bytes |}.

(** The loop of [flush_dir]: the ancestors of the directory are flushed up to
    [sync_up_to]; [sync] says which flush succeeds. *)
Fixpoint flush_ancestors (sync : Path → bool) (sync_up_to : Path) (l : list Path) : Durability :=
  match l with
  | [] => Uncertain
  | ancestor :: l =>
      if negb (sync ancestor) then Uncertain
      else if bool_decide (ancestor = sync_up_to) then Durable
      else flush_ancestors sync sync_up_to l
  end.

Definition flush_dir (sync : Path → bool) (dir sync_up_to : Path) : Durability :=
  flush_ancestors sync sync_up_to (path_ancestors dir).

(** ** Changes

    What an operation does to the machine, in order. *)
Inductive Change :=
| KeyringSet (id secret : string)
| KeyringDelete (id : string)
| FileRename (node : FileNode)
| FileUnlink
| DirFlush.

Record Machine := { mc_file : option FileNode; mc_keyring : gmap string string }.

Definition apply_change (m : Machine) (c : Change) : Machine :=
  match c with
  | KeyringSet id secret => {| mc_file := mc_file m; mc_keyring := <[id := secret]> (mc_keyring m) |}
  | KeyringDelete id => {| mc_file := mc_file m; mc_keyring := delete id (mc_keyring m) |}
  | FileRename node => {| mc_file := Some node; mc_keyring := mc_keyring m |}
  | FileUnlink => {| mc_file := None; mc_keyring := mc_keyring m |}
  | DirFlush => m
  end.

Definition apply_changes (m : Machine) (cs : list Change) : Machine := fold_left apply_change cs m.

Definition flush_change (d : Durability) : list Change :=
  match d with Durable => [DirFlush] | Uncertain => [] end.

(** [file::write] and [file::remove]. *)
Definition file_write (euid : Z) (fault : WriteFault) (flush : Durability) (bytes : string)
    : Result Durability StoreError * list Change :=
  match prepare_temporary euid fault bytes with
  | Err error => (Err error, [])
  | Ok node =>
      match wt_persist fault with
      | Some error => (Err (StoreIo "replace" CONNECTION_FILE error), [])
      | None => (Ok flush, FileRename node :: flush_change flush)
      end
  end.

Definition file_remove (file : option FileNode) (unlink : option IoErr) (flush : Durability)
    : Result (option Durability) StoreError * list Change :=
  match unlink, file with
  | Some IoNotFound, _ => (Ok None, [])
  | Some error, _ => (Err (StoreIo "remove" CONNECTION_FILE error), [])
  | None, None => (Ok None, [])
  | None, Some _ => (Ok (Some flush), FileUnlink :: flush_change flush)
  end.

(** [check_dir], [existing_dir] and [open_lock], on what the calls answer. *)
Definition check_dir (euid : Z) (metadata : Result FileMeta IoErr) : Result unit StoreError :=
  let? metadata := map_err (StoreIo "inspect" "") metadata in ensure_private euid metadata "" KDirectory.

Definition existing_dir (euid : Z) (metadata : Result FileMeta IoErr) : Result bool StoreError :=
  match metadata with
  | Ok metadata => let? _ := ensure_private euid metadata "" KDirectory in Ok true
  | Err IoNotFound => Ok false
  | Err error => Err (StoreIo "inspect" "" error)
  end.

Definition open_lock (euid : Z) (opened : Result (Result FileMeta IoErr) IoErr) : Result unit StoreError :=
  let? metadata := map_err (open_error LOCK_FILE) opened in
  let? metadata := map_err (StoreIo "inspect" LOCK_FILE) metadata in
  ensure_private euid metadata LOCK_FILE KRegular.

(** [ConnectionStore::lock], which [shared] and [exclusive] wait for. *)
Definition store_lock (euid : Z) (dir : Result FileMeta IoErr) (opened : Result (Result FileMeta IoErr) IoErr)
    (acquired : option IoErr) : Result unit StoreError :=
  let? _ := check_dir euid dir in
  let? _ := open_lock euid opened in
  match acquired with Some error => Err (StoreLock error) | None => Ok tt end.

(** ** The store ([store.rs]) *)

(** The store and everything that can go wrong in one operation of it: the
    effective user, the directory, the faults, and the random bytes
    [ConnectionId::generate] is filled with. *)
Record StoreWorld := {
  sw_euid : Z;
  sw_read : ReadFault;
  sw_get : KeyringFault;
  sw_set : KeyringFault;
  sw_delete_new : KeyringFault;
  sw_delete_old : KeyringFault;
  sw_random : option (list Z);
  sw_write : WriteFault;
  sw_unlink : option IoErr;
  sw_dir : Path;
  sw_sync_up_to : Path;
  sw_dir_sync : Path → bool;
}.

Definition sw_flush (w : StoreWorld) : Durability :=
  flush_dir (sw_dir_sync w) (sw_dir w) (sw_sync_up_to w).

Inductive PreviousNative := PreviousNone | PreviousKnown (id : string) | PreviousUnknown.

Section Store.
Context {J : RecordJson} {U : UrlText}.

(** [ConnectionStore::load]. *)
Definition store_load (w : StoreWorld) (m : Machine) : Result (option SavedConnection) StoreError :=
  let? record := file_read (sw_euid w) (sw_read w) (mc_file m) in
  match record with
  | None => Ok None
  | Some record =>
      let? secret :=
        match sr_secret record with
        | SecretNone => Ok LoadedNone
        | SecretFile secret => Ok (LoadedFile secret)
        | SecretNative =>
            let? secret := map_err native_error (native_get (sw_get w) (mc_keyring m) (sr_id record)) in
            Ok (LoadedNative secret)
        end in
      Ok (Some {| sc_connection := sr_connection record; sc_secret := secret |})
  end.

(** [current_native_id]. *)
Definition current_native_id (w : StoreWorld) (m : Machine) : Result PreviousNative StoreError :=
  match file_read (sw_euid w) (sw_read w) (mc_file m) with
  | Ok (Some record) =>
      match sr_secret record with
      | SecretNative => Ok (PreviousKnown (sr_id record))
      | _ => Ok PreviousNone
      end
  | Ok None | Err PlaintextFileUnsupported => Ok PreviousNone
  | Err (CorruptConnection _) | Err RecordTooLarge | Err (UnprotectedPath _) => Ok PreviousUnknown
  | Err (StoreIo _ _ IoPermissionDenied) => Ok PreviousUnknown
  | Err error => Err error
  end.

(** [prepare_file] and [prepare]: the bytes to publish, where the secret went,
    and the change made on the way. *)
Definition prepare_file (id : string) (connection : Connection) (secret : string)
    : Result (string * Backend) StoreError :=
  let? bytes := record_encode id connection (SecretFile secret) in Ok (bytes, BackendFile).

Definition store_prepare (w : StoreWorld) (id : string) (connection : Connection) (secret : option string)
    (policy : SecretPolicy) : Result (string * Backend) StoreError * list Change :=
  match secret with
  | None => (let? bytes := record_encode id connection SecretNone in Ok (bytes, BackendNone), [])
  | Some secret =>
      match record_encode id connection SecretNative with
      | Err error => (Err error, [])
      | Ok native_record =>
          match native_set (sw_set w) with
          | Ok _ => (Ok (native_record, BackendNative), [KeyringSet id secret])
          | Err (NeUnavailable reason) =>
              (match policy with
               | NativeOnly => Err (NativeStorageUnavailable reason)
               | AllowPlaintextFile => prepare_file id connection secret
               end, [])
          | Err error => (Err (native_error error), [])
          end
      end
  end.

(** [stale_secret_left_after_retirement]. *)
Definition retire (w : StoreWorld) (previous : PreviousNative) : bool * list Change :=
  match previous with
  | PreviousNone => (false, [])
  | PreviousKnown id =>
      match native_delete (sw_delete_old w) with
      | Ok _ => (false, [KeyringDelete id])
      | Err _ => (true, [])
      end
  | PreviousUnknown => (true, [])
  end.

(** The deletion of a credential that belongs to nothing, whose outcome is
    ignored. *)
Definition discard (w : StoreWorld) (backend : Backend) (id : string) : list Change :=
  if bool_decide (backend = BackendNative) then
    match native_delete (sw_delete_new w) with Ok _ => [KeyringDelete id] | Err _ => [] end
  else [].

(** [ConnectionStore::replace]. *)
Definition store_replace (w : StoreWorld) (connection : Connection) (secret : option string)
    (policy : SecretPolicy) (m : Machine) : Result Replaced StoreError * list Change :=
  match current_native_id w m with
  | Err error => (Err error, [])
  | Ok previous =>
      match sw_random w with
      | None => (Err Randomness, [])
      | Some random =>
          let id := hex_of random in
          match store_prepare w id connection secret policy with
          | (Err error, changes) => (Err error, changes)
          | (Ok (bytes, backend), changes) =>
              match file_write (sw_euid w) (sw_write w) (sw_flush w) bytes with
              | (Err error, _) => (Err error, (changes ++ discard w backend id)%list)
              | (Ok durability, published) =>
                  let '(stale, retired) := retire w previous in
                  (Ok {| rd_backend := backend; rd_durability := durability;
                         rd_stale_secret_left := stale |},
                   (changes ++ published ++ retired)%list)
              end
          end
      end
  end.

(** [ConnectionStore::remove]. *)
Definition store_remove (w : StoreWorld) (m : Machine) : Result Removed StoreError * list Change :=
  match current_native_id w m with
  | Err error => (Err error, [])
  | Ok previous =>
      match file_remove (mc_file m) (sw_unlink w) (sw_flush w) with
      | (Err error, _) => (Err error, [])
      | (Ok None, _) => (Ok RemovedNothing, [])
      | (Ok (Some durability), unlinked) =>
          let '(stale, retired) := retire w previous in
          (Ok (RemovedExisting durability stale), (unlinked ++ retired)%list)
      end
  end.

End Store.

(** ** Facts *)

(** [Durable] means that the directory and every ancestor up to [sync_up_to] was
    flushed. *)
Lemma flush_ancestors_durable sync up l :
  flush_ancestors sync up l = Durable →
  ∃ before after, l = (before ++ up :: after)%list ∧ Forall (λ p, sync p = true) (before ++ [up])%list.
Proof.
  induction l as [|p l IH]; [done|]. cbn. destruct (sync p) eqn:Hs; [|done]. cbn.
  destruct (bool_decide (p = up)) eqn:Hp.
  - intros _. apply bool_decide_eq_true in Hp as ->. exists [], l. by repeat constructor.
  - intros H. destruct (IH H) as (before & after & -> & Hf). exists (p :: before), after.
    by split; [|constructor].
Qed.

Section StoreFacts.
Context {J : RecordJson} {JL : RecordJsonLaws J} {U : UrlText}.

(** A world in which the file and the credential store can be read. *)
Record reads_well (w : StoreWorld) : Prop := {
  rw_open : rt_open (sw_read w) = None;
  rw_inspect : rt_inspect (sw_read w) = None;
  rw_reads : ∀ bytes, ∃ chunks, rt_reads (sw_read w) bytes = Ok <$> chunks ∧
    Forall (λ c, c ≠ "") chunks ∧ String.concat "" chunks = bytes;
  rw_get : sw_get w = no_fault;
}.

Lemma concat_cons c cs : String.concat "" (c :: cs) = c +:+ String.concat "" cs.
Proof. destruct cs; [by rewrite str_app_nil_r|done]. Qed.

Lemma read_bounded_whole chunks : ∀ bytes,
  Forall (λ c, c ≠ "") chunks →
  Z.of_nat (String.length (bytes +:+ String.concat "" chunks)) ≤ MAX_RECORD_BYTES →
  read_bounded (Ok <$> chunks) bytes = Ok (bytes +:+ String.concat "" chunks).
Proof.
  induction chunks as [|c chunks IH]; intros bytes Hne Hlen.
  { cbn. by rewrite str_app_nil_r. }
  apply Forall_cons in Hne as [Hc Hne]. rewrite concat_cons in *. rewrite fmap_cons. cbn [read_bounded].
  unfold is_empty. rewrite bool_decide_eq_false_2 by done.
  rewrite str_app_assoc in *. rewrite !str_length_app in Hlen.
  destruct (Z.ltb_spec MAX_RECORD_BYTES (Z.of_nat (String.length bytes) + Z.of_nat (String.length c))); [lia|].
  apply IH; [done|]. rewrite !str_length_app. lia.
Qed.

(** A record that was encoded decodes to what was encoded, and is not too large
    to be read. *)
Lemma decode_encode id connection secret bytes :
  record_encode id connection secret = Ok bytes → connection_id_parse id = Some id →
  url_parse (co_origin connection) = Some (co_origin connection) →
  record_decode bytes = Ok {| sr_id := id; sr_connection := connection; sr_secret := secret |} ∧
  Z.of_nat (String.length bytes) ≤ MAX_RECORD_BYTES.
Proof.
  intros He Hid Hu. unfold record_encode in He.
  destruct (record_to_json _) as [text|] eqn:Ej; [|done].
  destruct (Z.ltb_spec (Z.of_nat (String.length text)) MAX_RECORD_BYTES); [|done]. injection He as <-.
  split; [|rewrite str_length_app; cbn; lia].
  unfold record_decode. rewrite (record_roundtrip _ _ Ej). unfold validate_record. cbn.
  rewrite Hid. cbn. rewrite Hu. cbn. destruct connection as [origin mode ws mb]. cbn. by destruct mode.
Qed.

(** The reads of a file that succeed give its bytes. *)
Lemma read_bounded_bytes chunks : ∀ bytes b,
  Forall (λ c, c ≠ "") chunks → read_bounded (Ok <$> chunks) bytes = Ok b →
  b = bytes +:+ String.concat "" chunks.
Proof.
  induction chunks as [|c chunks IH]; intros bytes b Hne.
  { cbn. rewrite str_app_nil_r. congruence. }
  apply Forall_cons in Hne as [Hc Hne]. rewrite concat_cons, fmap_cons. cbn [read_bounded].
  unfold is_empty. rewrite bool_decide_eq_false_2 by done. destruct (_ <? _); [done|].
  rewrite str_app_assoc. by apply IH.
Qed.

(** Two loads without a fault agree. *)
Lemma file_read_agree w w' file x y :
  reads_well w → reads_well w' → sw_euid w = sw_euid w' →
  file_read (sw_euid w) (sw_read w) file = Ok x → file_read (sw_euid w') (sw_read w') file = Ok y → x = y.
Proof.
  intros [Ho Hi Hr _] [Ho' Hi' Hr' _] <-. unfold file_read, open_connection. rewrite Ho, Hi, Ho', Hi'.
  destruct file as [node|]; [|cbn; congruence]. case_bool_decide; [done|].
  destruct (ensure_private _ _ _ _); [|done]. cbn. destruct (bounded_capacity _); [|done]. cbn.
  destruct (Hr (fd_bytes node)) as (cs & -> & Hne & Hb), (Hr' (fd_bytes node)) as (cs' & -> & Hne' & Hb').
  destruct (read_bounded (Ok <$> cs) "") as [b|] eqn:E; [|done].
  destruct (read_bounded (Ok <$> cs') "") as [b'|] eqn:E'; [|done].
  apply read_bounded_bytes in E as ->; [|done]. apply read_bounded_bytes in E' as ->; [|done].
  cbn. rewrite Hb, Hb'. destruct (record_decode _); cbn; congruence.
Qed.

Lemma load_agree w w' m x y :
  reads_well w → reads_well w' → sw_euid w = sw_euid w' →
  store_load w m = Ok x → store_load w' m = Ok y → x = y.
Proof.
  intros Hr Hr' He. unfold store_load.
  destruct (file_read (sw_euid w) _ _) as [r|] eqn:E; [|done].
  destruct (file_read (sw_euid w') _ _) as [r'|] eqn:E'; [|done]. cbn.
  pose proof (file_read_agree _ _ _ _ _ Hr Hr' He E E') as <-.
  rewrite (rw_get _ Hr), (rw_get _ Hr'). congruence.
Qed.

(** The node a write publishes reads back as the record that was written. *)
Lemma published_reads w w' flush bytes d node rest id connection secret :
  file_write (sw_euid w) (sw_write w) flush bytes = (Ok d, FileRename node :: rest) →
  record_encode id connection secret = Ok bytes → connection_id_parse id = Some id →
  url_parse (co_origin connection) = Some (co_origin connection) →
  reads_well w' → sw_euid w' = sw_euid w →
  file_read (sw_euid w') (sw_read w') (Some node) =
    Ok (Some {| sr_id := id; sr_connection := connection; sr_secret := secret |}).
Proof.
  intros Hw He Hid Hu [Ho Hi Hr _] Heq. destruct (decode_encode _ _ _ _ He Hid Hu) as [Hd Hlen].
  unfold file_write in Hw. destruct (prepare_temporary _ _ bytes) as [n|] eqn:Ep; [|done].
  destruct (wt_persist _); [done|]. injection Hw as _ <- _.
  unfold prepare_temporary in Ep. repeat (destruct (io_step _ _ _); [|done]).
  unfold ensure_private_temporary in Ep. cbv zeta in Ep.
  destruct (ensure_private _ _ _ _) as [[]|] eqn:Epr; [|done].
  destruct (Z.land _ 511 =? 384); [|done]. injection Ep as <-.
  unfold file_read, open_connection. rewrite Ho, Hi, Heq. cbn [fd_meta fm_kind fm_len fd_bytes].
  rewrite bool_decide_eq_false_2 by done.
  unfold ensure_private in *. destruct (_ && _); [|done]. unfold bounded_capacity.
  destruct (Z.ltb_spec MAX_RECORD_BYTES (Z.of_nat (String.length bytes))); [lia|]. cbn.
  destruct (Hr bytes) as (chunks & -> & Hne & <-). rewrite read_bounded_whole by done. cbn. by rewrite Hd.
Qed.

(** The credential a load reads is the one of the record alone. *)
Lemma load_keyring w file k k' :
  (∀ r, file_read (sw_euid w) (sw_read w) file = Ok (Some r) → k !! sr_id r = k' !! sr_id r) →
  store_load w {| mc_file := file; mc_keyring := k |} = store_load w {| mc_file := file; mc_keyring := k' |}.
Proof.
  intros Hk. unfold store_load. cbn. destruct (file_read _ _ file) as [[r|]|]; [|done..].
  destruct (sr_secret r); [done| |done]. unfold native_get. by rewrite (Hk r).
Qed.

(** ** Crashes

    A crash falls between two changes; a rename or removal that was not flushed
    may be undone by it.  What the credential store accepted, it keeps; and so
    does a file that was renamed into place: [prepare_temporary] syncs its bytes
    before, and gives up when that fails. *)
Inductive crash (m : Machine) (cs : list Change) : Machine → Prop :=
| crash_between before after :
    cs = (before ++ after)%list → crash m cs (apply_changes m before)
| crash_unflushed before after :
    cs = (before ++ after)%list → DirFlush ∉ before →
    crash m cs {| mc_file := mc_file m; mc_keyring := mc_keyring (apply_changes m before) |}.

(** The id of the new connection is not that of the record in place. *)
Definition fresh (w : StoreWorld) (m : Machine) (id : string) : Prop :=
  ∀ r, file_read (sw_euid w) (sw_read w) (mc_file m) = Ok (Some r) → sr_id r ≠ id.

(** What a load finds of a secret that went to [backend]. *)
Definition stored (backend : Backend) (secret : option string) : LoadedSecret :=
  match backend, secret with
  | BackendNative, Some secret => LoadedNative secret
  | BackendFile, Some secret => LoadedFile secret
  | _, _ => LoadedNone
  end.

Definition set_changes (id : string) (secret : option string) (backend : Backend) : list Change :=
  match backend, secret with BackendNative, Some secret => [KeyringSet id secret] | _, _ => [] end.

Lemma load_fresh w m k id :
  fresh w m id → delete id k = delete id (mc_keyring m) →
  store_load w {| mc_file := mc_file m; mc_keyring := k |} = store_load w m.
Proof.
  intros Hf Hk. destruct m as [file k0]. apply load_keyring. intros r Hr. pose proof (Hf r Hr) as Hne.
  cbn in Hk. by rewrite <- (lookup_delete_ne k id), Hk, lookup_delete_ne.
Qed.

Lemma load_deleted w file k old :
  reads_well w →
  store_load w {| mc_file := file; mc_keyring := delete old k |} = store_load w {| mc_file := file; mc_keyring := k |} ∨
  store_load w {| mc_file := file; mc_keyring := delete old k |} = Err SecretMissing.
Proof.
  intros [_ _ _ Hg]. unfold store_load. cbn. destruct (file_read _ _ file) as [[r|]|]; cbn; [|by left..].
  destruct (sr_secret r); [by left| |by left]. rewrite Hg. cbn.
  destruct (decide (old = sr_id r)) as [->|Hne].
  - right. by rewrite lookup_delete_eq.
  - left. by rewrite lookup_delete_ne.
Qed.

(** [prepare]: what it stored, and what it is about to publish. *)
Lemma prepare_ok w id connection secret policy bytes backend changes :
  store_prepare w id connection secret policy = (Ok (bytes, backend), changes) →
  changes = set_changes id secret backend ∧
  ∃ field, record_encode id connection field = Ok bytes ∧
    match field with
    | SecretNone => secret = None ∧ backend = BackendNone
    | SecretNative => is_Some secret ∧ backend = BackendNative
    | SecretFile s => secret = Some s ∧ backend = BackendFile ∧ policy = AllowPlaintextFile
    end.
Proof.
  unfold store_prepare. destruct secret as [s|].
  - destruct (record_encode _ _ SecretNative) as [native|] eqn:En; [|done].
    destruct (native_set _) as [[]|[]].
    + intros [= <- <- <-]. split; [done|]. by exists SecretNative.
    + destruct policy; [done|]. unfold prepare_file.
      destruct (record_encode _ _ (SecretFile s)) eqn:Ef; [|done]. intros [= <- <- <-].
      split; [done|]. by exists (SecretFile s).
    + done.
    + done.
  - destruct (record_encode _ _ _) eqn:En; [|done]. intros [= <- <- <-]. split; [done|]. by exists SecretNone.
Qed.

Lemma prepare_err w id connection secret policy e changes :
  store_prepare w id connection secret policy = (Err e, changes) → changes = [].
Proof. unfold store_prepare. intros H. repeat case_match; congruence. Qed.

(** Once the record is in its place, a load finds what was given. *)
Lemma load_published w w' id connection secret policy bytes backend changes d node rest k :
  store_prepare w id connection secret policy = (Ok (bytes, backend), changes) →
  file_write (sw_euid w) (sw_write w) (sw_flush w) bytes = (Ok d, FileRename node :: rest) →
  connection_id_parse id = Some id → url_parse (co_origin connection) = Some (co_origin connection) →
  reads_well w' → sw_euid w' = sw_euid w →
  (∀ s, secret = Some s → backend = BackendNative → k !! id = Some s) →
  store_load w' {| mc_file := Some node; mc_keyring := k |} =
    Ok (Some {| sc_connection := connection; sc_secret := stored backend secret |}).
Proof.
  intros Hp Hw Hid Hu Hr He Hk. apply prepare_ok in Hp as (_ & field & Hf & Hb).
  unfold store_load. cbn [mc_file]. rewrite (published_reads _ _ _ _ _ _ _ _ _ _ Hw Hf Hid Hu Hr He). cbn.
  destruct field as [| |s].
  - by destruct Hb as [-> ->].
  - destruct Hb as [[s ->] ->]. rewrite (rw_get _ Hr). cbn. by rewrite (Hk s).
  - by destruct Hb as (-> & -> & _).
Qed.

Definition retire_changes (old : option string) : list Change :=
  match old with Some old => [KeyringDelete old] | None => [] end.

(** [retire] deletes a credential other than the new one. *)
Lemma retire_other w m previous id stale retired :
  current_native_id w m = Ok previous → retire w previous = (stale, retired) →
  ∃ old, retired = retire_changes old ∧ (fresh w m id → old ≠ Some id).
Proof.
  intros Hc Hr. destruct previous as [|old|]; cbn in Hr.
  - injection Hr as <- <-. by exists None.
  - destruct (native_delete _); injection Hr as <- <-; [|by exists None].
    exists (Some old). split; [done|]. intros Hf [= ->]. unfold current_native_id in Hc.
    destruct (file_read _ _ _) as [[r|]|] eqn:Er; repeat case_match; simplify_eq. by apply (Hf r).
  - injection Hr as <- <-. by exists None.
Qed.

Lemma file_write_ok euid fault flush bytes d changes :
  file_write euid fault flush bytes = (Ok d, changes) →
  d = flush ∧ ∃ node, changes = FileRename node :: flush_change flush.
Proof. unfold file_write. intros H. repeat case_match; simplify_eq. eauto. Qed.

Definition keyring_after (m : Machine) (cs : list Change) : gmap string string :=
  mc_keyring (apply_changes m cs).

(** Where a crash can leave a replacement: the old file with or without the new
    credential; the new file with it, before or after the old one was deleted; or,
    when the rename was not flushed, the old file without the old credential. *)
Lemma crash_cases m id secret backend node flush old m' :
  crash m (set_changes id secret backend ++ (FileRename node :: flush_change flush) ++
           retire_changes old)%list m' →
  let k1 := keyring_after m (set_changes id secret backend) in
  let k2 := keyring_after m (set_changes id secret backend ++ retire_changes old)%list in
  (m' = {| mc_file := mc_file m; mc_keyring := mc_keyring m |} ∨
   m' = {| mc_file := mc_file m; mc_keyring := k1 |}) ∨
  (m' = {| mc_file := Some node; mc_keyring := k1 |} ∨
   m' = {| mc_file := Some node; mc_keyring := k2 |}) ∨
  (flush = Uncertain ∧ m' = {| mc_file := mc_file m; mc_keyring := k2 |}).
Proof.
  assert (set_changes id secret backend = [] ∨ ∃ i s, set_changes id secret backend = [KeyringSet i s])
    as Hset by (destruct backend, secret; cbn; eauto).
  revert Hset. generalize (set_changes id secret backend). intros set Hset H.
  destruct m as [file k]. unfold keyring_after.
  inversion H as [before after Hcs|before after Hcs Hn]; subst m'; clear H;
    destruct Hset as [->|(i & s & ->)], flush, old; cbn in *;
    repeat (destruct before as [|? before];
      [cbn in *; simplify_eq/=; first [tauto|exfalso; apply Hn; set_solver]|cbn in *; simplify_eq/=]).
Qed.

Lemma set_changes_keyring m id secret backend :
  let k := keyring_after m (set_changes id secret backend) in
  mc_file (apply_changes m (set_changes id secret backend)) = mc_file m ∧
  delete id k = delete id (mc_keyring m) ∧
  (∀ s, secret = Some s → backend = BackendNative → k !! id = Some s).
Proof.
  unfold keyring_after. destruct backend, secret; cbn; try done. split_and!; [done| |].
  - apply delete_insert_eq.
  - intros s' [= ->] _. apply lookup_insert_eq.
Qed.

Lemma retire_keyring m id old (s : string) cs :
  old ≠ Some id → keyring_after m cs !! id = Some s →
  keyring_after m (cs ++ retire_changes old)%list !! id = Some s.
Proof.
  unfold keyring_after, apply_changes. intros Ho Hk. rewrite fold_left_app. destruct old as [old|]; [|done].
  cbn. rewrite lookup_delete_ne; [done|congruence].
Qed.

(** The random bytes are the sixteen of an id. *)
Lemma hex_of_parse bytes :
  length bytes = 16%nat → Forall (λ b, 0 ≤ b < 256) bytes →
  connection_id_parse (hex_of bytes) = Some (hex_of bytes).
Proof.
  intros Hl Hb. unfold connection_id_parse.
  assert (String.length (hex_of bytes) = (2 * length bytes)%nat) as ->.
  { clear. induction bytes as [|b bytes IH]; cbn; [done|]. rewrite IH. lia. }
  rewrite Hl. cbn [Nat.mul Nat.add Nat.eqb andb].
  assert (str_forallb is_lower_hex (hex_of bytes) = true) as ->; [|done].
  clear Hl. induction Hb as [|b bytes Hb _ IH]; [done|]. cbn [hex_of str_forallb]. rewrite IH, andb_true_r.
  assert (∀ n, 0 ≤ n < 16 → is_lower_hex (hex_digit n) = true) as Hd.
  { intros n Hn. assert (∃ k, (k < 16)%nat ∧ n = Z.of_nat k) as (k & Hk & ->)
      by (exists (Z.to_nat n); lia).
    do 16 (destruct k as [|k]; [done|]). lia. }
  rewrite !Hd; [done| |].
  - change 15 with (Z.ones 4). rewrite Z.land_ones by lia. apply Z.mod_pos_bound. lia.
  - rewrite Z.shiftr_div_pow2 by lia. change (2 ^ 4) with 16. split; [apply Z.div_pos; lia|].
    apply Z.div_lt_upper_bound; lia.
Qed.

(** Changes to the credential of [id] alone. *)
Definition touches (id : string) (c : Change) : Prop :=
  match c with
  | KeyringSet i _ | KeyringDelete i => i = id
  | FileRename _ | FileUnlink => False
  | DirFlush => True
  end.

Lemma touches_only id cs : ∀ m,
  Forall (touches id) cs →
  mc_file (apply_changes m cs) = mc_file m ∧
  delete id (mc_keyring (apply_changes m cs)) = delete id (mc_keyring m).
Proof.
  induction cs as [|c cs IH]; intros m Hf; [done|]. apply Forall_cons in Hf as [Hc Hf].
  destruct (IH (apply_change m c) Hf) as [H1 H2]. unfold apply_changes in *. cbn [fold_left].
  rewrite H1, H2. destruct c; cbn in *; simplify_eq; try done.
  - by rewrite delete_insert_eq.
  - by rewrite delete_delete_eq.
Qed.

Lemma touches_load w id cs m m' :
  Forall (touches id) cs → fresh w m id → crash m cs m' → store_load w m' = store_load w m.
Proof.
  intros Hf Hr Hc. destruct m as [file k].
  inversion Hc as [before after ->|before after -> _]; subst m'; apply Forall_app in Hf as [Hb _];
    destruct (touches_only _ _ {| mc_file := file; mc_keyring := k |} Hb) as [Hm Hk].
  - destruct (apply_changes _ before) as [f' k']. cbn in *. subst f'. by apply (load_fresh _ _ _ id Hr).
  - by apply (load_fresh _ _ _ id Hr).
Qed.

(** The machine after a replacement that was not interrupted. *)
Lemma apply_replacement m id secret backend node flush old :
  apply_changes m (set_changes id secret backend ++ (FileRename node :: flush_change flush) ++
                   retire_changes old)%list =
  {| mc_file := Some node;
     mc_keyring := keyring_after m (set_changes id secret backend ++ retire_changes old)%list |}.
Proof.
  unfold keyring_after, apply_changes. rewrite !fold_left_app. cbn.
  destruct backend, secret, flush, old; done.
Qed.

Lemma load_retired w m cs old :
  reads_well w →
  let k2 := keyring_after m (cs ++ retire_changes old)%list in
  store_load w {| mc_file := mc_file m; mc_keyring := k2 |} =
    store_load w {| mc_file := mc_file m; mc_keyring := keyring_after m cs |} ∨
  store_load w {| mc_file := mc_file m; mc_keyring := k2 |} = Err SecretMissing.
Proof.
  unfold keyring_after, apply_changes. intros Hr. rewrite fold_left_app. destruct old as [old|]; [|by left].
  by apply load_deleted.
Qed.

Lemma set_changes_touch id secret backend : Forall (touches id) (set_changes id secret backend).
Proof. destruct backend, secret; cbn; repeat constructor. Qed.

Lemma discard_touch w backend id : Forall (touches id) (discard w backend id).
Proof. unfold discard. repeat case_match; repeat constructor. Qed.

(** A replacement that fails touched the new credential alone. *)
Lemma replace_err w connection secret policy m random e cs :
  sw_random w = Some random → store_replace w connection secret policy m = (Err e, cs) →
  Forall (touches (hex_of random)) cs.
Proof.
  intros Hr. unfold store_replace. rewrite Hr.
  destruct (current_native_id w m) as [previous|]; [|intros [= <- <-]; constructor].
  cbv zeta. destruct (store_prepare _ _ _ _ _) as [[[bytes backend]|e'] changes] eqn:Ep.
  - apply prepare_ok in Ep as [-> _].
    destruct (file_write _ _ _ _) as [[d|e'] published]; [by destruct (retire _ _)|].
    intros [= <- <-]. apply Forall_app. split; [apply set_changes_touch|apply discard_touch].
  - apply prepare_err in Ep as ->. intros [= <- <-]. constructor.
Qed.

(** A replacement that succeeds: its changes, in their order. *)
Lemma replace_ok w connection secret policy m r cs :
  store_replace w connection secret policy m = (Ok r, cs) →
  ∃ random bytes changes node old, let id := hex_of random in
    sw_random w = Some random ∧
    store_prepare w id connection secret policy = (Ok (bytes, rd_backend r), changes) ∧
    file_write (sw_euid w) (sw_write w) (sw_flush w) bytes =
      (Ok (rd_durability r), FileRename node :: flush_change (rd_durability r)) ∧
    cs = (set_changes id secret (rd_backend r) ++ (FileRename node :: flush_change (rd_durability r)) ++
          retire_changes old)%list ∧
    (fresh w m id → old ≠ Some id).
Proof.
  unfold store_replace. destruct (current_native_id w m) as [previous|] eqn:Ec; [|done].
  destruct (sw_random w) as [random|]; [|done]. cbv zeta.
  destruct (store_prepare _ _ _ _ _) as [[[bytes backend]|e'] changes] eqn:Ep; [|done].
  destruct (file_write _ _ _ _) as [[d|e'] published] eqn:Ef; [|done].
  destruct (retire w previous) as [stale retired] eqn:Er. intros [= <- <-]. cbn.
  pose proof (file_write_ok _ _ _ _ _ _ Ef) as [-> [node ->]].
  destruct (retire_other _ _ _ (hex_of random) _ _ Ec Er) as (old & -> & Hold).
  exists random, bytes, changes, node, old. split_and!; [done..| |done].
  by apply prepare_ok in Ep as [-> _].
Qed.

(** The record a later load starts from is read without a fault, by the user who
    wrote it; the id is new and the origin its own serialization. *)
Record replaceable (w w' : StoreWorld) (m : Machine) (connection : Connection) : Prop := {
  rp_reads : reads_well w';
  rp_euid : sw_euid w' = sw_euid w;
  rp_origin : url_parse (co_origin connection) = Some (co_origin connection);
  rp_random : ∀ random, sw_random w = Some random →
    (length random = 16%nat ∧ Forall (λ b, 0 ≤ b < 256) random) ∧
    fresh w m (hex_of random) ∧ fresh w' m (hex_of random);
}.

(** The outcomes of a replacement, for a later load. *)
Definition replaced (w' : StoreWorld) (m : Machine) (connection : Connection) (secret : option string)
    (outcome : Result Replaced StoreError) (m' : Machine) : Prop :=
  match outcome with
  | Err _ => store_load w' m' = store_load w' m
  | Ok r => store_load w' m' = Ok (Some {| sc_connection := connection;
                                     sc_secret := stored (rd_backend r) secret |})
  end.

(** A replacement that succeeds is what a later load finds. *)
Lemma replace_loads w w' connection secret policy m r cs :
  replaceable w w' m connection → store_replace w connection secret policy m = (Ok r, cs) →
  replaced w' m connection secret (Ok r) (apply_changes m cs).
Proof.
  intros [Hr He Hu Hrand] Hrep.
  apply replace_ok in Hrep as (random & bytes & changes & node & old & Hra & Hp & Hw & -> & Hold).
  destruct (Hrand _ Hra) as ([Hl Hb] & Hf & Hf'). rewrite apply_replacement.
  eapply load_published; eauto using hex_of_parse. intros s Hs Hn.
  apply retire_keyring; [by apply Hold|]. by apply set_changes_keyring.
Qed.

(** [C36] A change of the saved connection is atomic.  When [replace] succeeds,
    a later load gives the new connection with the secret it was given, from the
    backend the result names; when it fails, for any error at any call, a load
    gives what it gave before.  A crash between any two of the changes it makes,
    which may also undo a rename that was not flushed, leaves a store from which a
    load gives the one or the other, whole: the record of one connection is never
    read with the secret of the other, nor with none, except that a store whose
    directory could not be flushed may come back as the previous record with its
    secret already deleted, which a load reports as missing. *)
Theorem replace_atomic w w' connection secret policy m :
  replaceable w w' m connection →
  let '(outcome, cs) := store_replace w connection secret policy m in
  replaced w' m connection secret outcome (apply_changes m cs) ∧
  ∀ m', crash m cs m' →
    store_load w' m' = store_load w' m ∨ replaced w' m connection secret outcome m' ∨
    (∃ r, outcome = Ok r ∧ rd_durability r = Uncertain) ∧ store_load w' m' = Err SecretMissing.
Proof.
  intros Hre. destruct (store_replace w connection secret policy m) as [[r|e] cs] eqn:Hrep.
  - split; [by apply (replace_loads w _ _ _ policy)|]. destruct Hre as [Hr He Hu Hrand].
    apply replace_ok in Hrep as (random & bytes & changes & node & old & Hra & Hp & Hw & -> & Hold).
    destruct (Hrand _ Hra) as ([Hl Hb] & Hf & Hf'). specialize (Hold Hf).
    pose proof (hex_of_parse _ Hl Hb) as Hid. set (id := hex_of random) in *.
    assert (∀ k, _ → replaced w' m connection secret (Ok r) {| mc_file := Some node; mc_keyring := k |})
      as Hnew by (intros k; exact (load_published _ _ _ _ _ _ _ _ _ _ _ _ k Hp Hw Hid Hu Hr He)).
    destruct (set_changes_keyring m id secret (rd_backend r)) as (_ & Hk1 & Hk).
    pose proof (λ s Hs Hn, retire_keyring m id old s _ Hold (Hk s Hs Hn)) as Hk2.
    intros m' [[->| ->]|[[->| ->]|[Hd ->]]]%crash_cases.
    + left. by apply (load_fresh _ _ _ id Hf').
    + left. by apply (load_fresh _ _ _ id Hf').
    + right. left. by apply Hnew.
    + right. left. by apply Hnew.
    + destruct (load_retired w' m (set_changes id secret (rd_backend r)) old Hr) as [Hl'|Hl'].
      * left. rewrite Hl'. by apply (load_fresh _ _ _ id Hf').
      * right. right. eauto.
  - destruct Hre as [_ _ _ Hrand]. destruct (sw_random w) as [random|] eqn:Hra.
    + destruct (Hrand _ eq_refl) as (_ & _ & Hf'). pose proof (replace_err _ _ _ _ _ _ _ _ Hra Hrep) as Ht.
      split; [|intros m' Hc; left; by apply (touches_load _ _ _ _ _ Ht)].
      apply (touches_load _ _ _ _ _ Ht Hf'), (crash_between _ _ cs []). by rewrite app_nil_r.
    + assert (cs = []) as -> by (unfold store_replace in Hrep; rewrite Hra in Hrep; by repeat case_match; simplify_eq).
      split; [done|]. intros m' Hc. left. destruct m.
      by inversion Hc as [[|] ? Hcs|[|] ? Hcs]; simplify_eq/=.
Qed.

(** [remove] is atomic in the same way: it changes nothing, or a later load finds
    no connection. *)
Theorem remove_atomic w w' m outcome cs :
  reads_well w' → store_remove w m = (outcome, cs) →
  match outcome with
  | Ok (RemovedExisting durability _) =>
      store_load w' (apply_changes m cs) = Ok None ∧
      ∀ m', crash m cs m' → store_load w' m' = store_load w' m ∨ store_load w' m' = Ok None ∨
        durability = Uncertain ∧ store_load w' m' = Err SecretMissing
  | _ => cs = []
  end.
Proof.
  intros Hr. unfold store_remove. destruct (current_native_id w m) as [previous|] eqn:Ec; [|by intros [= <- <-]].
  destruct (file_remove _ _ _) as [[[d|]|] unlinked] eqn:Ef; [|by intros [= <- <-]..].
  assert (unlinked = FileUnlink :: flush_change d) as ->.
  { unfold file_remove in Ef. by repeat case_match; simplify_eq. }
  destruct (retire w previous) as [stale retired] eqn:Er. intros [= <- <-]. cbn match.
  destruct (retire_other _ _ _ "" _ _ Ec Er) as (old & -> & _).
  assert (∀ k, store_load w' {| mc_file := None; mc_keyring := k |} = Ok None) as Hnone.
  { intros k. unfold store_load, file_read, open_connection. cbn. by rewrite (rw_open _ Hr). }
  destruct m as [file k]. split; [by destruct d, old; cbn|].
  intros m' [before after Hcs|before after Hcs Hn];
    destruct d, old as [old|]; cbn in *;
    repeat (destruct before as [|? before]; [cbn in *; simplify_eq/=;
      first [by left|by right; left|exfalso; apply Hn; set_solver|idtac]|cbn in *; simplify_eq/=]).
  destruct (load_deleted w' file k old Hr) as [->| ->]; auto.
Qed.

End StoreFacts.

(** ** Sample inputs *)

Module Samples.

#[local] Instance secret_field_eq_dec : EqDecision SecretField.
Proof. solve_decision. Defined.

#[local] Instance record_fields_eq_dec : EqDecision RecordFields.
Proof. solve_decision. Defined.

Definition production (workspace : string) : Connection :=
  {| co_origin := "https://app.openfirma.dev/"; co_origin_mode := OriginProduction;
     co_workspace_id := workspace; co_membership_id := "mb_1" |}.

Definition old_id : string := "000102030405060708090a0b0c0d0e0f".
Definition new_random : list Z := [255; 254; 253; 252; 251; 250; 249; 248; 247; 246; 245; 244; 243; 242; 241; 240].

Definition fields (id workspace : string) : RecordFields :=
  {| rf_version := 1; rf_connection_id := id; rf_origin := "https://app.openfirma.dev/";
     rf_development_loopback := false; rf_workspace_id := workspace; rf_membership_id := "mb_1";
     rf_secret := SecretNative |}.

(** The two records of the samples, and their texts. *)
Definition old_text : string := "{1;0001;ws_1;native}".
Definition new_text : string := "{1;fffe;ws_2;native}".

#[local] Instance sample_json : RecordJson :=
  {| record_to_json r :=
       if decide (r = fields old_id "ws_1") then Some old_text
       else if decide (r = fields (hex_of new_random) "ws_2") then Some new_text else None;
     record_from_json s :=
       if decide (s = old_text +:+ String newline_char "") then Ok (fields old_id "ws_1")
       else if decide (s = new_text +:+ String newline_char "") then Ok (fields (hex_of new_random) "ws_2")
       else Err (1, 1) |}.

#[local] Instance sample_json_laws : RecordJsonLaws sample_json.
Proof.
  intros r s. cbn [record_to_json record_from_json sample_json].
  repeat case_decide; intros [= <-]; subst; by vm_compute.
Qed.

#[local] Instance sample_url : UrlText := λ s, Some s.

Definition old_node : FileNode :=
  {| fd_meta := {| fm_kind := KRegular; fm_uid := 1000; fm_mode := 33152; fm_len := 21 |};
     fd_bytes := old_text +:+ String newline_char "" |}.

Definition store : Machine := {| mc_file := Some old_node; mc_keyring := {[ old_id := "old secret" ]} |}.

(** A world without faults; [sync] says which directories can be flushed. *)
Definition world (sync : bool) : StoreWorld :=
  {| sw_euid := 1000;
     sw_read := {| rt_open := None; rt_inspect := None;
                   rt_reads := λ s, if is_empty s then [] else [Ok s] |};
     sw_get := no_fault; sw_set := no_fault; sw_delete_new := no_fault; sw_delete_old := no_fault;
     sw_random := Some new_random;
     sw_write := {| wt_create := None; wt_write := None; wt_sync := None; wt_inspect := None;
                    wt_mode := 33152; wt_persist := None |};
     sw_unlink := None; sw_dir := path_of "/home/u/.config/firma";
     sw_sync_up_to := path_of "/home/u/.config/firma";
     sw_dir_sync := λ _, sync |}.

Lemma world_reads sync : reads_well (world sync).
Proof.
  split; [done|done| |done]. intros bytes. cbn. unfold is_empty. case_bool_decide.
  - subst. exists []. by split_and!.
  - exists [bytes]. split_and!; [done|by repeat constructor|done].
Qed.

Lemma world_fresh sync : fresh (world sync) store (hex_of new_random).
Proof. intros r H. vm_compute in H. injection H as <-. by vm_compute. Qed.

Lemma replace_atomic_witness :
  replaceable (world true) (world true) store (production "ws_2") ∧
  let '(outcome, cs) := store_replace (world true) (production "ws_2") (Some "new secret") NativeOnly store in
  replaced (world true) store (production "ws_2") (Some "new secret") outcome (apply_changes store cs).
Proof.
  assert (replaceable (world true) (world true) store (production "ws_2")) as Hr.
  { split; [apply world_reads|done|done|]. intros random [= <-].
    split; [split; [done|by repeat constructor]|]. split; apply world_fresh. }
  split; [exact Hr|].
  pose proof (replace_atomic (world true) (world true) (production "ws_2") (Some "new secret") NativeOnly
    store Hr) as H.
  destruct (store_replace _ _ _ _ _) as [outcome cs]. exact (proj1 H).
Defined.

(** What a crash brings back of a replacement whose rename was not flushed: the
    old record, whose secret was deleted. *)
Example unflushed_loses_secret :
  let '(outcome, cs) := store_replace (world false) (production "ws_2") (Some "new secret") NativeOnly store in
  (∃ r, outcome = Ok r ∧ rd_durability r = Uncertain) ∧
  ∃ m', crash store cs m' ∧ store_load (world true) m' = Err SecretMissing ∧
    store_load (world true) store =
      Ok (Some {| sc_connection := production "ws_1"; sc_secret := LoadedNative "old secret" |}).
Proof.
  destruct (store_replace _ _ _ _ _) as [outcome cs] eqn:E. vm_compute in E. injection E as <- <-.
  split; [by eexists|]. eexists. split; [eapply (crash_unflushed _ _ _ []); [by rewrite app_nil_r|]|].
  - set_solver.
  - by vm_compute.
Qed.

End Samples.
