(* ===== verification/LoginClient.v ===== *)
(** * The token client of [firma login] ([firma-login])

    The origin of the Control Plane ([origin.rs], with the URL checks of
    [firma-config-utils/src/http.rs]), its refusals ([refusal.rs]) and the
    requests that exchange, renew, revoke and prove a credential
    ([protocol.rs]).  A request is the value sent, its answer a parameter: a
    response, or the transport error it failed with.  [url::Url] is read through
    [UrlView] and [serde_json] at the response types through [TokenJson]. *)

From S2P Require Import Prelude RustStr ConnectionStore.

#[local] Open Scope string_scope.
#[local] Open Scope Z_scope.

(** ** Origins *)

(** [url::Host]: an address is its number. *)
Inductive Host := HostDomain (domain : string) | HostIpv4 (address : Z) | HostIpv6 (address : Z).

(** What [url::Url] says of a URL. *)
Record UrlParts := {
  up_scheme : string;
  up_host : option Host;
  up_username : string;
  up_password : option string;
  up_path : string;
  up_query : option string;
  up_fragment : option string;
  up_ascii_origin : string;
}.

Class UrlView := url_parts : string → UrlParts.

Inductive HttpUrlError :=
| UrlMissingHost | UrlCredentials | UrlPath | UrlQuery | UrlFragment | UrlUnsupportedScheme
| UrlRequiresHttps | UrlHttpRequiresLoopback.

(** The policies [Https], [HttpsOrLoopbackHttp] and [HttpOrHttps]. *)
Inductive SchemePolicy := Https | HttpsOrLoopbackHttp | HttpOrHttps.

Definition is_loopback_host (host : Host) : bool :=
  match host with
  | HostDomain domain => eq_ignore_ascii_case domain "localhost"
  | HostIpv4 address => Z.shiftr address 24 =? 127
  | HostIpv6 address => address =? 1
  end.

Definition scheme_check (policy : SchemePolicy) (scheme : string) (host : Host)
    : Result unit HttpUrlError :=
  match policy with
  | Https =>
      if bool_decide (scheme = "https") then Ok tt
      else if bool_decide (scheme = "http") then Err UrlRequiresHttps
      else Err UrlUnsupportedScheme
  | HttpsOrLoopbackHttp =>
      if bool_decide (scheme = "https") then Ok tt
      else if bool_decide (scheme = "http") then
        if is_loopback_host host then Ok tt else Err UrlHttpRequiresLoopback
      else Err UrlUnsupportedScheme
  | HttpOrHttps =>
      if bool_decide (scheme = "https") || bool_decide (scheme = "http") then Ok tt
      else Err UrlUnsupportedScheme
  end.

Inductive PathRule := PathRoot | PathAny.

Definition validate_url (policy : SchemePolicy) (path : PathRule) (url : UrlParts)
    : Result unit HttpUrlError :=
  match up_host url with
  | None => Err UrlMissingHost
  | Some host =>
      if negb (is_empty (up_username url)) || bool_decide (is_Some (up_password url))
      then Err UrlCredentials
      else if match path with PathRoot => negb (bool_decide (up_path url = "/")) | PathAny => false end
      then Err UrlPath
      else if bool_decide (is_Some (up_query url)) then Err UrlQuery
      else if bool_decide (is_Some (up_fragment url)) then Err UrlFragment
      else scheme_check policy (up_scheme url) host
  end.

(** [ControlPlaneOriginError] and its conversion. *)
Inductive ControlPlaneOriginError :=
| OriginMissingHost | OriginUserInfo | OriginPath | OriginQuery | OriginFragment
| OriginRequiresHttps | OriginDevelopmentHttpRequiresLoopback | OriginUnsupportedScheme.

Definition origin_error_from (error : HttpUrlError) : ControlPlaneOriginError :=
  match error with
  | UrlMissingHost => OriginMissingHost
  | UrlCredentials => OriginUserInfo
  | UrlPath => OriginPath
  | UrlQuery => OriginQuery
  | UrlFragment => OriginFragment
  | UrlUnsupportedScheme => OriginUnsupportedScheme
  | UrlRequiresHttps => OriginRequiresHttps
  | UrlHttpRequiresLoopback => OriginDevelopmentHttpRequiresLoopback
  end.

Inductive OriginValidationMode := ModeProduction | ModeDevelopmentLoopback.

(** [LoginCommand]. *)
Record LoginCommand := { lc_origin : string; lc_development_loopback : bool }.

Definition login_command_display (c : LoginCommand) : string :=
  "firma login --control-plane-origin " +:+ lc_origin c +:+
  (if lc_development_loopback c then " --development-loopback" else "").

Section Origins.
Context {U : UrlView}.

(** [ControlPlaneOrigin::new] and [saved]; an origin is its URL. *)
Definition control_plane_origin (url : string) (mode : OriginValidationMode)
    : Result string ControlPlaneOriginError :=
  let policy := match mode with
                | ModeProduction => Https
                | ModeDevelopmentLoopback => HttpsOrLoopbackHttp
                end in
  let? _ := map_err origin_error_from (validate_url policy PathRoot (url_parts url)) in Ok url.

Definition origin_saved (connection : Connection) : Result string ControlPlaneOriginError :=
  control_plane_origin (co_origin connection)
    match co_origin_mode connection with
    | OriginProduction => ModeProduction
    | OriginDevelopmentLoopback => ModeDevelopmentLoopback
    end.

(** [LoginCommand::saved]. *)
Definition login_command (connection : Connection) : LoginCommand :=
  {| lc_origin := up_ascii_origin (url_parts (co_origin connection));
     lc_development_loopback := bool_decide (co_origin_mode connection = OriginDevelopmentLoopback) |}.

End Origins.

(** ** Refusals ([refusal.rs]) *)

Inductive LoginRefusal :=
| AccessDenied | TemporarilyUnavailable | InvalidGrant | InvalidToken | ServerError | OtherRefusal.

#[export] Instance login_refusal_eq_dec : EqDecision LoginRefusal.
Proof. solve_decision. Defined.

(** [LoginRefusal::from_code]. *)
Definition refusal_from_code (code : string) : LoginRefusal :=
  if bool_decide (code = "access_denied") then AccessDenied
  else if bool_decide (code = "temporarily_unavailable") then TemporarilyUnavailable
  else if bool_decide (code = "invalid_grant") then InvalidGrant
  else if bool_decide (code = "invalid_token") then InvalidToken
  else if bool_decide (code = "server_error") then ServerError
  else OtherRefusal.

(** ** Responses ([protocol.rs]) *)

Definition CLIENT_ID : string := "firma-cli".
Definition TOKEN_PATH : string := "/api/agent-flow/v1/authorizations/token".
Definition REVOKE_PATH : string := "/api/agent-flow/v1/authorizations/revoke".
Definition CURRENT_PATH : string := "/api/agent-flow/v1/sessions/workspace/current".
Definition MAX_TOKEN_RESPONSE_BYTES : Z := 4 * 1024.

(** A transport error of [reqwest]: whether [is_connect] says it failed while
    connecting. *)
Record TransportFailure := { tf_connect : bool }.

Inductive NativeTokenError :=
| NtInvalidCode
| NtEntropy
| NtFailureAndRevocationUnconfirmed (failure revocation : NativeTokenError)
| NtTransport (error : TransportFailure)
| NtRefused (refusal : LoginRefusal)
| NtRejected (status : Z)
| NtInvalidResponse.

(** A response: its status, the text of its first [Content-Type] when it has one
    that is text, and the chunks its body comes in. *)
Record TokenResponseHttp := {
  th_status : Z;
  th_content_type : option string;
  th_chunks : list (Result string TransportFailure);
}.

Abbreviation Answer := (Result TokenResponseHttp TransportFailure).

(** [bounded_body]: [None] when the body is too long. *)
Fixpoint bounded_body (chunks : list (Result string TransportFailure)) (body : string)
    : Result (option string) NativeTokenError :=
  match chunks with
  | [] => Ok (Some body)
  | Err error :: _ => Err (NtTransport error)
  | Ok chunk :: chunks =>
      if MAX_TOKEN_RESPONSE_BYTES <? Z.of_nat (String.length body) + Z.of_nat (String.length chunk)
      then Ok None
      else bounded_body chunks (body +:+ chunk)
  end.

Definition is_client_error (status : Z) : bool := (400 <=? status) && (status <? 500).
Definition is_server_error (status : Z) : bool := (500 <=? status) && (status <? 600).

(** [TokenResponse]. *)
Record TokenResponse := {
  tk_access_token : string;
  tk_token_type : string;
  tk_workspace_id : string;
  tk_membership_id : string;
  tk_expires_in : Z;
}.

(** [serde_json] at [ErrorBody], [RefreshTokenResponse], [TokenResponse] and
    [WorkspaceResponse]; [expires_in] is an [i64]. *)
Class TokenJson := {
  error_of_json : string → option string;
  refresh_of_json : string → option (option string);
  token_of_json : string → option TokenResponse;
  workspace_of_json : string → option (string * string);
}.

(** The media type of [json_body]. *)
Definition is_json_content (content_type : option string) : bool :=
  match content_type with
  | None => false
  | Some text =>
      eq_ignore_ascii_case (trim (default "" (head (split_char ";"%char text)))) "application/json"
  end.

(** [json_body]. *)
Definition json_body (response : TokenResponseHttp) : Result string NativeTokenError :=
  if negb (is_json_content (th_content_type response)) then Err NtInvalidResponse
  else
    let? body := bounded_body (th_chunks response) "" in
    ok_or body NtInvalidResponse.

(** [is_retryable_status]. *)
Definition is_retryable_status (status : Z) : bool :=
  bool_decide (status ∈ [408; 429; 500; 502; 503; 504]).

Inductive AuthorizationScope := AccessOnly | OfflineAccess.

(** [NativeAccessGrant]; [expires_in] in milliseconds. *)
Record NativeAccessGrant := {
  ng_workspace_id : string;
  ng_membership_id : string;
  ng_expires_in : Z;
  ng_access_token : string;
  ng_refresh_token : option string;
}.

(** [into_session_parts]. *)
Definition into_session_parts (grant : NativeAccessGrant)
    : Result (string * string * Z * string * string) NativeTokenError :=
  let? refresh_token := ok_or (ng_refresh_token grant) NtInvalidResponse in
  Ok (ng_access_token grant, refresh_token, ng_expires_in grant, ng_workspace_id grant,
      ng_membership_id grant).

(** [AuthenticatedConnection]. *)
Record AuthenticatedConnection := {
  ac_workspace_id : string;
  ac_membership_id : string;
  ac_access_token : string;
  ac_refresh_token : option string;
}.

(** [AuthorizedTokenExchange]: the code and verifier of either proof. *)
Record AuthorizedTokenExchange := {
  ax_redirect_uri : string;
  ax_code : string;
  ax_verifier : string;
  ax_scope : AuthorizationScope;
}.

(** What the client sends: a form, with its idempotency key if any, or the
    request that proves an access token. *)
Inductive TokenRequest :=
| PostForm (origin path : string) (key : option string) (form : list (string * string))
| GetCurrent (origin : string) (bearer : string).

(** [IdempotencyKey::header_value]. *)
Definition header_value (key : string) : string := quote +:+ key +:+ quote.

Definition exchange_request (origin : string) (exchange : AuthorizedTokenExchange) : TokenRequest :=
  PostForm origin TOKEN_PATH None
    [("grant_type", "authorization_code"); ("client_id", CLIENT_ID); ("code", ax_code exchange);
     ("code_verifier", ax_verifier exchange); ("redirect_uri", ax_redirect_uri exchange)].

Definition refresh_request (origin token key : string) : TokenRequest :=
  PostForm origin TOKEN_PATH (Some (header_value key))
    [("grant_type", "refresh_token"); ("client_id", CLIENT_ID); ("refresh_token", token)].

Definition revoke_request (origin token : string) : TokenRequest :=
  PostForm origin REVOKE_PATH None
    [("client_id", CLIENT_ID); ("token", token); ("token_type_hint", "refresh_token")].

Section Client.
Context {J : TokenJson}.

(** [oauth_refusal]. *)
Definition oauth_refusal (response : TokenResponseHttp) : option LoginRefusal :=
  match bounded_body (th_chunks response) "" with
  | Ok (Some body) => refusal_from_code <$> error_of_json body
  | _ => None
  end.

Definition refused_error (response : TokenResponseHttp) : NativeTokenError :=
  match oauth_refusal response with
  | Some refusal => NtRefused refusal
  | None => NtRejected (th_status response)
  end.

(** [bounded_json_body]. *)
Definition bounded_json_body (response : TokenResponseHttp) : Result string NativeTokenError :=
  let status := th_status response in
  if is_client_error status || is_server_error status then Err (refused_error response)
  else if negb (status =? 200) then Err (NtRejected status)
  else json_body response.

(** The checks of a token response [exchange] and [refresh] share: an access
    token, a positive life and a type it understands. *)
Definition token_usable (response : TokenResponse) : bool :=
  negb (is_empty (tk_access_token response)) && (0 <? tk_expires_in response) &&
  eq_ignore_ascii_case (tk_token_type response) "bearer".

Definition grant_of (response : TokenResponse) (refresh_token : option string) : NativeAccessGrant :=
  {| ng_workspace_id := tk_workspace_id response; ng_membership_id := tk_membership_id response;
     ng_expires_in := tk_expires_in response * 1000; ng_access_token := tk_access_token response;
     ng_refresh_token := refresh_token |}.

(** [NativeTokenClient::refresh], on the answer to its request. *)
Definition refresh (answer : Answer) : Result NativeAccessGrant NativeTokenError :=
  let? response := map_err NtTransport answer in
  let? body := bounded_json_body response in
  let? refresh_token := ok_or (refresh_of_json body) NtInvalidResponse in
  let? token := ok_or (token_of_json body) NtInvalidResponse in
  if negb (token_usable token) || match refresh_token with Some t => is_empty t | None => true end
  then Err NtInvalidResponse
  else Ok (grant_of token refresh_token).

(** [NativeTokenClient::revoke], on the answer to its request. *)
Definition revoke_answer (answer : Answer) : Result unit NativeTokenError :=
  let? response := map_err NtTransport answer in
  let status := th_status response in
  if status =? 200 then Ok tt
  else if is_client_error status || is_server_error status then Err (refused_error response)
  else Err (NtRejected status).

(** [failure_after_revocation], with the request it makes. *)
Definition failure_after_revocation (origin : string) (failure : NativeTokenError) (token : string)
    (revocation : Answer) : NativeTokenError * list TokenRequest :=
  (match revoke_answer revocation with
   | Ok _ => failure
   | Err error => NtFailureAndRevocationUnconfirmed failure error
   end, [revoke_request origin token]).

(** [NativeTokenClient::exchange], on the answers to its request and to the
    revocation that may follow. *)
Definition exchange_body (origin : string) (scope : AuthorizationScope) (body : string)
    (revocation : Answer) : Result NativeAccessGrant NativeTokenError * list TokenRequest :=
  match refresh_of_json body with
  | None => (Err NtInvalidResponse, [])
  | Some refresh_token =>
      match scope, refresh_token with
      | AccessOnly, Some token =>
          if negb (is_empty token) then
            let '(error, sent) := failure_after_revocation origin NtInvalidResponse token revocation in
            (Err error, sent)
          else (Err NtInvalidResponse, [])
      | _, _ =>
          (let? token := ok_or (token_of_json body) NtInvalidResponse in
           if negb (token_usable token) ||
              match refresh_token with Some t => is_empty t | None => false end
           then Err NtInvalidResponse
           else match scope, refresh_token with
                | OfflineAccess, None => Err NtInvalidResponse
                | _, _ => Ok (grant_of token refresh_token)
                end, [])
      end
  end.

Definition token_exchange (origin : string) (x : AuthorizedTokenExchange) (answer revocation : Answer)
    : Result NativeAccessGrant NativeTokenError * list TokenRequest :=
  let request := exchange_request origin x in
  match (let? response := map_err NtTransport answer in bounded_json_body response) with
  | Err error => (Err error, [request])
  | Ok body =>
      let '(result, sent) := exchange_body origin (ax_scope x) body revocation in
      (result, request :: sent)
  end.

(** [NativeTokenClient::prove]. *)
Definition proof_of (grant : NativeAccessGrant) (answer : Answer) : Result unit NativeTokenError :=
  let? response := map_err NtTransport answer in
  let? body := bounded_json_body response in
  let? current := ok_or (workspace_of_json body) NtInvalidResponse in
  if bool_decide (current = (ng_workspace_id grant, ng_membership_id grant)) then Ok tt
  else Err NtInvalidResponse.

Definition prove (origin : string) (grant : NativeAccessGrant) (answer revocation : Answer)
    : Result AuthenticatedConnection NativeTokenError * list TokenRequest :=
  let request := GetCurrent origin (ng_access_token grant) in
  match proof_of grant answer with
  | Err error =>
      match ng_refresh_token grant with
      | Some token =>
          let '(error, sent) := failure_after_revocation origin error token revocation in
          (Err error, request :: sent)
      | None => (Err error, [request])
      end
  | Ok _ =>
      (Ok {| ac_workspace_id := ng_workspace_id grant; ac_membership_id := ng_membership_id grant;
             ac_access_token := ng_access_token grant; ac_refresh_token := ng_refresh_token grant |},
       [request])
  end.

End Client.

(** ** Facts *)

Section ClientFacts.
Context {J : TokenJson}.

(** A grant whose identity could not be proved has its renewable credential
    revoked: the request is sent, and an error that does not say otherwise means
    that the Control Plane confirmed it. *)
Lemma prove_revokes origin grant token answer revocation e sent :
  ng_refresh_token grant = Some token → prove origin grant answer revocation = (Err e, sent) →
  revoke_request origin token ∈ sent ∧
  ((∃ failure unconfirmed, e = NtFailureAndRevocationUnconfirmed failure unconfirmed) ∨
   revoke_answer revocation = Ok tt).
Proof.
  intros Ht. unfold prove. destruct (proof_of grant answer) as [|error]; [done|]. rewrite Ht. cbn.
  intros [= <- <-]. split; [set_solver|]. destruct (revoke_answer revocation) as [[]|]; eauto.
Qed.

(** A grant that was renewed has an access token and a successor. *)
Lemma refresh_ok answer grant :
  refresh answer = Ok grant →
  ng_access_token grant ≠ "" ∧ 0 < ng_expires_in grant ∧
  ∃ token, ng_refresh_token grant = Some token ∧ token ≠ "".
Proof.
  unfold refresh. intros H. destruct (map_err _ answer) as [response|]; [|done]. cbn in H.
  destruct (bounded_json_body response) as [body|]; [|done]. cbn in H.
  destruct (refresh_of_json body) as [[t|]|]; [| |done]; cbn in H;
    (destruct (token_of_json body) as [token|]; [|done]); cbn in H; [|by rewrite orb_true_r in H].
  destruct (token_usable token) eqn:Hu; [|done]. cbn in H.
  destruct (is_empty t) eqn:Ht; [done|]. injection H as <-. cbn.
  unfold token_usable in Hu. apply andb_true_iff in Hu as [[Ha He]%andb_true_iff _].
  unfold is_empty in *. apply negb_true_iff, bool_decide_eq_false in Ha.
  apply bool_decide_eq_false in Ht. apply Z.ltb_lt in He. split_and!; [done|lia|]. eauto.
Qed.

(** A bounded body is no longer than its bound. *)
Lemma bounded_body_length chunks : ∀ body b,
  Z.of_nat (String.length body) ≤ MAX_TOKEN_RESPONSE_BYTES →
  bounded_body chunks body = Ok (Some b) → Z.of_nat (String.length b) ≤ MAX_TOKEN_RESPONSE_BYTES.
Proof.
  induction chunks as [|[c|e] chunks IH]; intros body b Hb H; cbn in H; [congruence| |done].
  destruct (Z.ltb_spec MAX_TOKEN_RESPONSE_BYTES
    (Z.of_nat (String.length body) + Z.of_nat (String.length c))); [done|].
  eapply IH; [|done]. rewrite str_length_app. lia.
Qed.

End ClientFacts.

(** A saved origin was checked under the mode of its login: over plain HTTP it is
    a loopback host. *)
Lemma origin_saved_scheme {U : UrlView} connection origin :
  origin_saved connection = Ok origin →
  origin = co_origin connection ∧
  (up_scheme (url_parts origin) = "https" ∨
   co_origin_mode connection = OriginDevelopmentLoopback ∧ up_scheme (url_parts origin) = "http" ∧
   ∃ host, up_host (url_parts origin) = Some host ∧ is_loopback_host host = true).
Proof.
  unfold origin_saved, control_plane_origin. intros H. cbv zeta in H.
  destruct (validate_url _ _ _) as [[]|] eqn:E; [|done]. cbn in H. injection H as <-. split; [done|].
  unfold validate_url in E. destruct (up_host _) as [host|] eqn:Eh; [|done].
  repeat (case_match; [done|]). destruct (co_origin_mode connection); cbn in E.
  - case_bool_decide; [by left|]. by case_bool_decide.
  - case_bool_decide; [by left|]. case_bool_decide; [|done].
    destruct (is_loopback_host host) eqn:El; [|done]. right. eauto 10.
Qed.

(** ** Sample inputs *)

Module Samples.

#[local] Instance sample_token_json : TokenJson :=
  {| error_of_json := λ _, None;
     refresh_of_json := λ _, Some (Some "R0");
     token_of_json := λ _, Some {| tk_access_token := "A0"; tk_token_type := "mac"; tk_workspace_id := "ws_1";
                                   tk_membership_id := "mb_1"; tk_expires_in := 900 |};
     workspace_of_json := λ _, None |}.

Definition answered : Answer :=
  Ok {| th_status := 200; th_content_type := Some "application/json; charset=utf-8";
        th_chunks := [Ok "{...}"] |}.

(** A renewable credential that comes with a token of another type is dropped
    without being revoked. *)
Example unusable_grant_not_revoked :
  let x := {| ax_redirect_uri := "http://127.0.0.1:9/callback"; ax_code := "c"; ax_verifier := "v";
              ax_scope := OfflineAccess |} in
  token_exchange "https://app.openfirma.dev/" x answered answered =
    (Err NtInvalidResponse, [exchange_request "https://app.openfirma.dev/" x]).
Proof. by vm_compute. Qed.

End Samples.
