(* ===== verification/LoginSession.v ===== *)
(** * Access from a saved login ([firma-login/src/session.rs])

    [NativeSession] turns the renewable credential of the connection store into
    short-lived access.  A renewal consumes the credential at the Control Plane,
    which answers a repeated request only under the idempotency key of the first:
    the session keeps credential, key and the lock of the store until it knows
    the outcome, saves the successor before it gives access, and asks for a new
    login once the credential can no longer be used safely.

    A call is a function of the moments its awaits end at, and of the point it is
    dropped at, if it is: clock, store, random key and answers are its
    environment.  The store is an interface, [SessionStore], which
    [firma-connection-store] implements. *)

From S2P Require Import Prelude RustStr ConnectionStore LoginClient.

#[local] Open Scope string_scope.
#[local] Open Scope Z_scope.

(** ** The store, as a session sees it *)

Class SessionStore := {
  Stored : Type;
  StoreFault : Type;
  store_get : StoreFault → Stored → Result (option SavedConnection) StoreError;
  store_put : StoreFault → Connection → string → SecretPolicy → Stored → Result Replaced StoreError * Stored;
  store_sound : StoreFault → Stored → Prop;
}.

(** Reads agree, and a connection read and put back with another secret is read
    with that secret. *)
Class SessionStoreLaws (S : SessionStore) := {
  get_agrees f f' st x y :
    store_sound f st → store_sound f' st → store_get f st = Ok x → store_get f' st = Ok y → x = y;
  put_gets f f' f'' st st' saved secret policy r x :
    store_sound f st → store_get f st = Ok (Some saved) → store_sound f' st →
    store_put f' (sc_connection saved) secret policy st = (Ok r, st') →
    store_sound f'' st' → store_get f'' st' = Ok x →
    x = Some {| sc_connection := sc_connection saved; sc_secret := stored (rd_backend r) (Some secret) |};
}.

(** ** State *)

Definition EARLY_REFRESH : Z := 60 * 1000.
Definition REFRESH_ATTEMPTS : nat := 3.
Definition RECOVERY_WINDOW : Z := 90 * 1000.

(** The latest [Instant] in milliseconds: its seconds are an [i64]. *)
Definition INSTANT_MAX : Z := i64_max * 1000 + 999.

Record SessionAccess := { sa_token : string; sa_origin : string; sa_workspace_id : string }.

Record CachedAccess := { ca_access : SessionAccess; ca_login : LoginCommand; ca_refresh_after : Z }.

(** The guard is the exclusive lock of the store, which is held as long as the
    value lives. *)
Record PendingRefresh := {
  pr_saved : SavedConnection;
  pr_origin : string;
  pr_key : string;
  pr_policy : SecretPolicy;
  pr_started_at : Z;
  pr_outcome_unknown : bool;
}.

Definition set_unknown (p : PendingRefresh) (unknown : bool) : PendingRefresh :=
  {| pr_saved := pr_saved p; pr_origin := pr_origin p; pr_key := pr_key p; pr_policy := pr_policy p;
     pr_started_at := pr_started_at p; pr_outcome_unknown := unknown |}.

Record NativeSession := {
  ns_cached : option CachedAccess;
  ns_pending : option PendingRefresh;
  ns_login_required : option LoginCommand;
}.

Definition session_new : NativeSession :=
  {| ns_cached := None; ns_pending := None; ns_login_required := None |}.

Definition forget_access (s : NativeSession) : NativeSession :=
  {| ns_cached := None; ns_pending := ns_pending s; ns_login_required := ns_login_required s |}.

Inductive SessionError :=
| LoginRequired (login : LoginCommand)
| LoginExpired (login : LoginCommand)
| MissingConnection
| MissingCredential (login : LoginCommand)
| NotRenewable (login : LoginCommand)
| BlockingTask
| SessionStoreError (error : StoreError)
| SessionOrigin (error : ControlPlaneOriginError)
| TokenSetup (error : NativeTokenError)
| RenewalRefused (login : LoginCommand) (source : NativeTokenError)
| RefreshFailed (login : LoginCommand) (source : NativeTokenError)
| SaveAfterRefresh (login : LoginCommand) (source : StoreError)
| IdentityMismatch (login : LoginCommand).

(** What becomes of a future: it returns, is dropped at an await, or panics. *)
Inductive Awaited (A : Type) := Returned (a : A) | Dropped | Panicked.
Arguments Returned {A} a.
Arguments Dropped {A}.
Arguments Panicked {A}.

(** What a session does that matters: a renewal sent, which may have reached the
    Control Plane; a successor saved; access given; and the store changed by
    another process. *)
Inductive SessionEvent :=
| SentRefresh (origin token key : string) (reached : bool)
| SavedSuccessor (access : SessionAccess) (successor : string)
| GaveAccess (access : SessionAccess)
| StoreChanged.

(** ** Renewal *)

(** [is_retryable]. *)
Definition is_retryable (error : NativeTokenError) : bool :=
  match error with
  | NtTransport _ | NtRefused TemporarilyUnavailable | NtRefused ServerError => true
  | NtRejected status => is_retryable_status status
  | _ => false
  end.

(** One network attempt: its answer, and whether the future is dropped in the
    delay after it; or the future dropped before the answer. *)
Inductive Attempt := Answered (answer : Answer) (dropped_after : bool) | Unanswered.

(** [reqwest] failed while connecting: nothing was sent. *)
Definition is_connect_failure {A} (result : Result A NativeTokenError) : bool :=
  match result with Err (NtTransport error) => tf_connect error | _ => false end.

Section Renewal.
Context {J : TokenJson} {UV : UrlView} {S : SessionStore}.

(** [refresh_with_retry], with [remaining] attempts to go, the [n]th next. *)
Fixpoint refresh_loop (remaining n : nat) (attempts : nat → Attempt) (p : PendingRefresh)
    : Awaited (Result NativeAccessGrant NativeTokenError) * PendingRefresh * list SessionEvent :=
  match remaining with
  | O => (Panicked, p, [])
  | Datatypes.S remaining =>
      let previously_unknown := pr_outcome_unknown p in
      let p := set_unknown p true in
      match loaded_secret (sc_secret (pr_saved p)) with
      | None => (Returned (Err NtInvalidResponse), p, [])
      | Some credential =>
          match attempts n with
          | Unanswered => (Dropped, p, [SentRefresh (pr_origin p) credential (pr_key p) true])
          | Answered answer dropped_after =>
              let result := refresh answer in
              let connect := is_connect_failure result in
              let p := if connect then set_unknown p previously_unknown else p in
              let sent := SentRefresh (pr_origin p) credential (pr_key p) (negb connect) in
              match result with
              | Ok grant => (Returned (Ok grant), p, [sent])
              | Err error =>
                  if negb (Nat.eqb remaining 0) && is_retryable error then
                    if dropped_after then (Dropped, p, [sent])
                    else
                      let '(out, p', events) := refresh_loop remaining (n + 1) attempts p in
                      (out, p', sent :: events)
                  else (Returned (Err error), p, [sent])
              end
          end
      end
  end.

Definition refresh_with_retry (attempts : nat → Attempt) (p : PendingRefresh) :=
  refresh_loop REFRESH_ATTEMPTS 1 attempts p.

(** What [prepare_refresh] meets: a failed task or lock, the store, an HTTP client
    that cannot be built, the random key, and the time. *)
Record PrepareEnv := {
  pe_join_failed : bool;
  pe_lock : option StoreError;
  pe_store : StoreFault;
  pe_client : option NativeTokenError;
  pe_key : option string;
  pe_now : Z;
}.

Definition prepare_refresh (env : PrepareEnv) (st : Stored) : Result PendingRefresh SessionError :=
  if pe_join_failed env then Err BlockingTask
  else
    let? _ := match pe_lock env with Some e => Err (SessionStoreError e) | None => Ok tt end in
    let? loaded := map_err SessionStoreError (store_get (pe_store env) st) in
    let? saved := ok_or loaded MissingConnection in
    let login := login_command (sc_connection saved) in
    let? _ := ok_or (loaded_secret (sc_secret saved)) (NotRenewable login) in
    let? policy := match loaded_backend (sc_secret saved) with
                   | BackendFile => Ok AllowPlaintextFile
                   | BackendNative => Ok NativeOnly
                   | BackendNone => Err (MissingCredential login)
                   end in
    let? origin := map_err SessionOrigin (origin_saved (sc_connection saved)) in
    let? _ := match pe_client env with Some e => Err (TokenSetup e) | None => Ok tt end in
    let? key := ok_or (pe_key env) (TokenSetup NtEntropy) in
    Ok {| pr_saved := saved; pr_origin := origin; pr_key := key; pr_policy := policy;
          pr_started_at := pe_now env; pr_outcome_unknown := false |}.

(** How the blocking save ends for the future that awaits it; a save that is no
    longer awaited still runs, a task that failed may have run. *)
Inductive SaveEnd := SaveAwaited | SaveDropped | SaveTaskFailed (ran : bool).

Record SaveEnv := { sv_fault : StoreFault; sv_end : SaveEnd }.

Definition saved_events (r : Result Replaced StoreError) (access : SessionAccess) (successor : string)
    : list SessionEvent :=
  match r with Ok _ => [SavedSuccessor access successor] | Err _ => [] end.

(** [complete_refresh]. *)
Definition complete_refresh (env : SaveEnv) (p : PendingRefresh) (grant : NativeAccessGrant) (st : Stored)
    : Awaited (Result CachedAccess SessionError) * Stored * list SessionEvent :=
  let connection := sc_connection (pr_saved p) in
  let login := login_command connection in
  match into_session_parts grant with
  | Err source => (Returned (Err (RenewalRefused login source)), st, [])
  | Ok (token, successor, expires_in, workspace_id, membership_id) =>
      if negb (bool_decide (workspace_id = co_workspace_id connection)) ||
         negb (bool_decide (membership_id = co_membership_id connection))
      then (Returned (Err (IdentityMismatch login)), st, [])
      else
        let access := {| sa_token := token; sa_origin := pr_origin p; sa_workspace_id := workspace_id |} in
        let '(result, st') := store_put (sv_fault env) connection successor (pr_policy p) st in
        let saved := saved_events result access successor in
        match sv_end env with
        | SaveTaskFailed false => (Returned (Err BlockingTask), st, [])
        | SaveTaskFailed true => (Returned (Err BlockingTask), st', saved)
        | SaveDropped => (Dropped, st', saved)
        | SaveAwaited =>
            match result with
            | Err source => (Returned (Err (SaveAfterRefresh login source)), st', saved)
            | Ok _ =>
                let refresh_after := pr_started_at p + Z.max 0 (expires_in - EARLY_REFRESH) in
                if INSTANT_MAX <? refresh_after then (Panicked, st', saved)
                else (Returned (Ok {| ca_access := access; ca_login := login;
                                      ca_refresh_after := refresh_after |}), st', saved)
            end
        end
  end.

(** ** [NativeSession::access_token] *)

(** The clock at its two readings, the preparation if a new renewal is needed
    ([None] when the future is dropped in it), the attempts and the save. *)
Record CallEnv := {
  cv_now : Z;
  cv_elapsed_at : Z;
  cv_prepare : option PrepareEnv;
  cv_attempts : nat → Attempt;
  cv_save : SaveEnv;
}.

Abbreviation CallResult :=
  (Awaited (Result SessionAccess SessionError) * NativeSession * Stored * list SessionEvent)%type.

(** The end of a call whose renewal was answered with a grant. *)
Definition finish_refresh (env : CallEnv) (s : NativeSession) (st : Stored) (p : PendingRefresh)
    (grant : NativeAccessGrant) (sent : list SessionEvent) : CallResult :=
  let login := login_command (sc_connection (pr_saved p)) in
  let s := {| ns_cached := ns_cached s; ns_pending := None; ns_login_required := Some login |} in
  let '(done, st', saved) := complete_refresh (cv_save env) p grant st in
  match done with
  | Returned (Ok cached) =>
      (Returned (Ok (ca_access cached)),
       {| ns_cached := Some cached; ns_pending := None; ns_login_required := None |}, st',
       (sent ++ saved ++ [GaveAccess (ca_access cached)])%list)
  | Returned (Err error) => (Returned (Err error), s, st', (sent ++ saved)%list)
  | Dropped => (Dropped, s, st', (sent ++ saved)%list)
  | Panicked => (Panicked, s, st', (sent ++ saved)%list)
  end.

(** The renewal of a call, with the pending refresh in the session. *)
Definition renew (env : CallEnv) (s : NativeSession) (st : Stored) (p : PendingRefresh) : CallResult :=
  let login := login_command (sc_connection (pr_saved p)) in
  let with_pending pending :=
    {| ns_cached := ns_cached s; ns_pending := pending; ns_login_required := ns_login_required s |} in
  let '(outcome, p', sent) := refresh_with_retry (cv_attempts env) p in
  match outcome with
  | Dropped => (Dropped, with_pending (Some p'), st, sent)
  | Panicked => (Panicked, with_pending (Some p'), st, sent)
  | Returned (Err source) =>
      if negb (is_retryable source) then
        (Returned (Err match source with
                       | NtRefused InvalidGrant => LoginExpired login
                       | _ => RenewalRefused login source
                       end),
         {| ns_cached := ns_cached s; ns_pending := None; ns_login_required := Some login |}, st, sent)
      else
        (Returned (Err (RefreshFailed login source)),
         with_pending (if pr_outcome_unknown p' then Some p' else None), st, sent)
  | Returned (Ok grant) => finish_refresh env s st p' grant sent
  end.

(** The cached access that need not be renewed yet. *)
Definition fresh_access (env : CallEnv) (s : NativeSession) : option CachedAccess :=
  match ns_cached s with
  | Some cached => if cv_now env <? ca_refresh_after cached then Some cached else None
  | None => None
  end.

Definition access_token (env : CallEnv) (s : NativeSession) (st : Stored) : CallResult :=
  match ns_login_required s with
  | Some login => (Returned (Err (LoginRequired login)), s, st, [])
  | None =>
      match fresh_access env s with
      | Some cached => (Returned (Ok (ca_access cached)), s, st, [GaveAccess (ca_access cached)])
      | None =>
          match ns_pending s with
          | Some p =>
              if pr_outcome_unknown p && (RECOVERY_WINDOW <=? Z.max 0 (cv_elapsed_at env - pr_started_at p))
              then
                let login := login_command (sc_connection (pr_saved p)) in
                (Returned (Err (LoginRequired login)),
                 {| ns_cached := ns_cached s; ns_pending := None; ns_login_required := Some login |}, st, [])
              else renew env s st p
          | None =>
              match cv_prepare env with
              | None => (Dropped, s, st, [])
              | Some prepare =>
                  match prepare_refresh prepare st with
                  | Err error => (Returned (Err error), s, st, [])
                  | Ok p => renew env s st p
                  end
              end
          end
      end
  end.

End Renewal.

(** ** Runs

    Calls of one session, with [forget_access] between them; other processes
    change the store only while its lock is free. *)
Section Runs.
Context {J : TokenJson} {UV : UrlView} {S : SessionStore} {SL : SessionStoreLaws S}.

(** The store faults of a call are sound for the store it meets; the lock keeps
    it as it is until the save. *)
Definition env_sound (env : CallEnv) (st : Stored) : Prop :=
  (∀ prepare, cv_prepare env = Some prepare → store_sound (pe_store prepare) st) ∧
  store_sound (sv_fault (cv_save env)) st.

Inductive session_run (st0 : Stored) : NativeSession → Stored → list SessionEvent → Prop :=
| run_new : session_run st0 session_new st0 []
| run_access s st t env out s' st' events :
    session_run st0 s st t → env_sound env st → access_token env s st = (out, s', st', events) →
    session_run st0 s' st' (t ++ events)
| run_forget s st t : session_run st0 s st t → session_run st0 (forget_access s) st t
| run_other s st st' t :
    session_run st0 s st t → ns_pending s = None → session_run st0 s st' (t ++ [StoreChanged]).

(** [R] may be used again: it was saved, or the store was changed. *)
Definition clears (R : string) (e : SessionEvent) : Prop :=
  match e with SavedSuccessor _ R' => R' = R | StoreChanged => True | _ => False end.

(** [R] may have been consumed under [k]. *)
Definition spent (t : list SessionEvent) (R k : string) : Prop :=
  ∃ t1 o t2, t = (t1 ++ SentRefresh o R k true :: t2)%list ∧ Forall (λ e, ¬ clears R e) t2.

(** Every renewal used the one key its credential may have been consumed under. *)
Definition key_stable (t : list SessionEvent) : Prop :=
  ∀ t1 o R k b t2, t = (t1 ++ SentRefresh o R k b :: t2)%list → ∀ k', spent t1 R k' → k' = k.

Lemma spent_snoc t e R k :
  spent (t ++ [e])%list R k →
  (∃ o, e = SentRefresh o R k true) ∨ spent t R k ∧ ¬ clears R e.
Proof.
  intros (t1 & o & t2 & Ht & Hc). destruct t2 as [|x t2 _] using rev_ind.
  - apply app_inj_tail in Ht as [_ ->]. eauto.
  - rewrite app_comm_cons, app_assoc in Ht. apply app_inj_tail in Ht as [-> ->].
    apply Forall_app in Hc as [Hc Hx]. right. split; [by exists t1, o, t2|]. by inversion Hx.
Qed.

Lemma key_stable_snoc t e :
  key_stable t →
  (∀ o R k b, e = SentRefresh o R k b → ∀ k', spent t R k' → k' = k) → key_stable (t ++ [e])%list.
Proof.
  intros Hs He t1 o R k b t2 Ht. destruct t2 as [|x t2 _] using rev_ind.
  - apply app_inj_tail in Ht as [-> ->]. by apply (He o R k b).
  - rewrite app_comm_cons, app_assoc in Ht. apply app_inj_tail in Ht as [-> _]. by apply (Hs _ o _ _ b t2).
Qed.

(** What the renewals of one pending refresh add to a trace. *)
Definition sends (o R k : string) (e : SessionEvent) : Prop := ∃ b, e = SentRefresh o R k b.

Lemma sends_spent o R k ev : ∀ t R' k',
  Forall (sends o R k) ev → spent (t ++ ev)%list R' k' →
  spent t R' k' ∨ R' = R ∧ k' = k ∧ SentRefresh o R k true ∈ ev.
Proof.
  induction ev as [|e ev IH] using rev_ind; intros t R' k' Hf; [rewrite app_nil_r; auto|].
  apply Forall_app in Hf as [Hf He]. apply Forall_singleton in He as [b ->].
  rewrite app_assoc. intros [[o' [= <- <- <- ->]]|[Hs _]]%spent_snoc.
  - right. set_solver.
  - destruct (IH _ _ _ Hf Hs) as [|(-> & -> & Hin)]; [by left|]. right. set_solver.
Qed.

Lemma sends_stable o R k ev : ∀ t,
  Forall (sends o R k) ev → key_stable t → (∀ k', spent t R k' → k' = k) → key_stable (t ++ ev)%list.
Proof.
  induction ev as [|e ev IH] using rev_ind; intros t Hf Ht Hk; [by rewrite app_nil_r|].
  apply Forall_app in Hf as [Hf He]. apply Forall_singleton in He as [b ->].
  rewrite app_assoc. apply key_stable_snoc; [by apply IH|]. intros o' R' k0 b' [= <- <- <- <-] k' Hs.
  destruct (sends_spent _ _ _ _ _ _ _ Hf Hs) as [|(_ & -> & _)]; auto.
Qed.

(** [refresh_with_retry] sends the credential of the pending refresh, under its
    key, to its origin, at most three times; what may have reached the Control
    Plane leaves the outcome unknown. *)
Lemma refresh_loop_spec attempts R remaining : ∀ n p out p' ev,
  refresh_loop remaining n attempts p = (out, p', ev) →
  loaded_secret (sc_secret (pr_saved p)) = Some R →
  p' = set_unknown p (pr_outcome_unknown p') ∧
  Forall (sends (pr_origin p) R (pr_key p)) ev ∧ (length ev ≤ remaining)%nat ∧
  (pr_outcome_unknown p = true → pr_outcome_unknown p' = true) ∧
  (SentRefresh (pr_origin p) R (pr_key p) true ∈ ev → pr_outcome_unknown p' = true).
Proof.
  induction remaining as [|remaining IH]; intros n p out p' ev; cbn [refresh_loop].
  { intros [= <- <- <-] _. destruct p. split_and!; [done|constructor|done|done|set_solver]. }
  intros H HR. cbn [set_unknown pr_saved] in H. rewrite HR in H.
  destruct (attempts n) as [answer dropped|].
  2:{ injection H as <- <- <-. split_and!; [done|repeat constructor; by eexists|cbn; lia|done|done]. }
  destruct (refresh answer) as [grant|error] eqn:Er.
  { injection H as <- <- <-. split_and!; [done|repeat constructor; by eexists|cbn; lia|done|done]. }
  set (connect := is_connect_failure (Err error)) in *.
  set (p1 := if connect then _ else _) in H.
  assert (p1 = set_unknown p (pr_outcome_unknown p1)) as Hp1 by (by destruct connect, p).
  assert (pr_outcome_unknown p = true → pr_outcome_unknown p1 = true) as Hu1 by (by destruct connect).
  assert (negb connect = true → pr_outcome_unknown p1 = true) as Hc1 by (by destruct connect).
  assert (pr_origin p1 = pr_origin p ∧ pr_key p1 = pr_key p ∧ pr_saved p1 = pr_saved p) as (Ho & Hk & Hsv)
    by (by rewrite Hp1).
  rewrite Ho, Hk in H.
  assert (∀ b, SentRefresh (pr_origin p) R (pr_key p) true ∈ [SentRefresh (pr_origin p) R (pr_key p) b] →
    b = true) as Hin by (intros b ?%list_elem_of_singleton; congruence).
  destruct (negb (Nat.eqb remaining 0) && is_retryable error).
  - destruct dropped.
    { injection H as <- <- <-. split_and!; [done|repeat constructor; by eexists|cbn; lia|done|eauto]. }
    destruct (refresh_loop remaining (n + 1) attempts p1) as [[out1 p2] ev1] eqn:El.
    injection H as <- <- <-. destruct (IH _ _ _ _ _ El) as (H1 & H2 & H3 & H4 & H5); [by rewrite Hsv|].
    rewrite Ho, Hk in *. split_and!; [rewrite H1, Hp1; by destruct p|constructor; [by eexists|done]|cbn; lia|eauto|].
    intros [Heq|Hev]%elem_of_cons; [injection Heq; eauto|eauto].
  - injection H as <- <- <-. split_and!; [done|repeat constructor; by eexists|cbn; lia|done|eauto].
Qed.

(** No credential a load can find has been spent. *)
Definition unspent_store (t : list SessionEvent) (st : Stored) : Prop :=
  ∀ f saved R k, store_sound f st → store_get f st = Ok (Some saved) →
    loaded_secret (sc_secret saved) = Some R → ¬ spent t R k.

(** A pending refresh: its credential is the one of the store, spent under no key
    but its own, and if its outcome is known under none. *)
Definition pending_ok (t : list SessionEvent) (st : Stored) (p : PendingRefresh) : Prop :=
  (∃ f, store_sound f st ∧ store_get f st = Ok (Some (pr_saved p))) ∧
  ∃ R, loaded_secret (sc_secret (pr_saved p)) = Some R ∧
    ∀ k, spent t R k → k = pr_key p ∧ pr_outcome_unknown p = true.

(** Access is given only after its successor was saved. *)
Definition saved_first (t : list SessionEvent) : Prop :=
  ∀ t1 a t2, t = (t1 ++ GaveAccess a :: t2)%list → ∃ R, SavedSuccessor a R ∈ t1.

Definition cached_ok (t : list SessionEvent) (s : NativeSession) : Prop :=
  ∀ c, ns_cached s = Some c → ∃ R, SavedSuccessor (ca_access c) R ∈ t.

Record trace_ok (t : list SessionEvent) (s : NativeSession) : Prop := {
  to_stable : key_stable t;
  to_saved : saved_first t;
  to_cached : cached_ok t s;
}.

Record session_inv (t : list SessionEvent) (s : NativeSession) (st : Stored) : Prop := {
  si_trace : trace_ok t s;
  si_unspent : ns_login_required s = None → ns_pending s = None → unspent_store t st;
  si_pending : ∀ p, ns_pending s = Some p → ns_login_required s = None ∧ pending_ok t st p;
}.

Definition is_send (e : SessionEvent) : bool := match e with SentRefresh _ _ _ _ => true | _ => false end.
Definition is_gave (e : SessionEvent) : bool := match e with GaveAccess _ => true | _ => false end.

Lemma saved_first_snoc t e :
  saved_first t → (∀ a, e = GaveAccess a → ∃ R, SavedSuccessor a R ∈ t) → saved_first (t ++ [e])%list.
Proof.
  intros Hs He t1 a t2 Ht. destruct t2 as [|x t2 _] using rev_ind.
  - apply app_inj_tail in Ht as [-> ->]. by apply He.
  - rewrite app_comm_cons, app_assoc in Ht. apply app_inj_tail in Ht as [-> _]. by apply (Hs _ _ t2).
Qed.

(** An event other than a renewal or access. *)
Lemma trace_ok_other t s e : trace_ok t s → is_send e = false → is_gave e = false → trace_ok (t ++ [e])%list s.
Proof.
  intros [Hk Hs Hc] H1 H2. split.
  - apply key_stable_snoc; [done|]. by intros ? ? ? ? ->.
  - apply saved_first_snoc; [done|]. by intros ? ->.
  - intros c Hin. destruct (Hc c Hin) as [R HR]. exists R. set_solver.
Qed.

(** Access that is cached, or was just saved. *)
Lemma trace_ok_gave t s a R :
  trace_ok t s → SavedSuccessor a R ∈ t → trace_ok (t ++ [GaveAccess a])%list s.
Proof.
  intros [Hk Hs Hc] HR. split.
  - apply key_stable_snoc; [done|]. by intros ? ? ? ? ?.
  - apply saved_first_snoc; [done|]. intros ? [= ->]. eauto.
  - intros c Hin. destruct (Hc c Hin) as [R' HR']. exists R'. set_solver.
Qed.

Lemma trace_ok_sends t s o R k ev :
  trace_ok t s → Forall (sends o R k) ev → (∀ k', spent t R k' → k' = k) → trace_ok (t ++ ev)%list s.
Proof.
  intros [Hk Hs Hc] Hf Hkey. split; [by apply (sends_stable o R k)| |].
  - clear Hk Hkey. induction ev as [|e ev IH] using rev_ind; [by rewrite app_nil_r|].
    apply Forall_app in Hf as [Hf He]. apply Forall_singleton in He as [b ->].
    rewrite app_assoc. apply saved_first_snoc; [by apply IH|done].
  - intros c Hin. destruct (Hc c Hin) as [R' HR']. exists R'. set_solver.
Qed.

Lemma trace_ok_session t s s' : trace_ok t s → ns_cached s' = ns_cached s → trace_ok t s'.
Proof. intros [Hk Hs Hc] He. split; [done..|]. intros c. rewrite He. apply Hc. Qed.

(** [prepare_refresh] takes the credential of the store. *)
Lemma prepare_pending t st env p :
  unspent_store t st → store_sound (pe_store env) st → prepare_refresh env st = Ok p → pending_ok t st p.
Proof.
  intros Hu Hs. unfold prepare_refresh. destruct (pe_join_failed env); [done|].
  destruct (pe_lock env); [done|]. cbn. destruct (store_get (pe_store env) st) as [[saved|]|] eqn:Eg; [|done..].
  cbn. destruct (loaded_secret (sc_secret saved)) as [R|] eqn:ER; [|done]. cbn. intros H.
  assert (pr_saved p = saved) as Hp.
  { destruct (loaded_backend _); [done|..]; cbn in H; (destruct (origin_saved _); [|done]); cbn in H;
      (destruct (pe_client env); [done|]); cbn in H; (destruct (pe_key env); [|done]); cbn in H;
      by injection H as <-. }
  split; [exists (pe_store env); by rewrite Hp|]. exists R. rewrite Hp. split; [done|].
  intros k Hk. by destruct (Hu _ _ _ _ Hs Eg ER Hk).
Qed.

(** The outcome of [complete_refresh] that gives access: the successor is what the
    store now holds. *)
Lemma complete_saved env p grant st st' cached saved f :
  complete_refresh env p grant st = (Returned (Ok cached), st', saved) →
  store_sound f st → store_get f st = Ok (Some (pr_saved p)) → store_sound (sv_fault env) st →
  ∃ successor, saved = [SavedSuccessor (ca_access cached) successor] ∧
    ∀ f' x, store_sound f' st' → store_get f' st' = Ok x → ∃ c,
      x = Some c ∧ ∀ R, loaded_secret (sc_secret c) = Some R → R = successor.
Proof.
  intros H Hf Hg Hs. unfold complete_refresh in H.
  destruct (into_session_parts grant) as [[[[[token successor] expires] ws] mb]|]; [|done].
  destruct (_ || _); [done|]. destruct (store_put _ _ _ _ _) as [result st1] eqn:Ep.
  destruct (sv_end env) as [| |[]]; [|done..]. destruct result as [r|]; [|done]. cbv zeta in H.
  destruct (_ <? _); [done|]. injection H as <- <- <-. exists successor. split; [done|].
  intros f' x Hf' Hx. eexists. split; [exact (put_gets _ _ _ _ _ _ _ _ _ _ Hf Hg Hs Ep Hf' Hx)|]. intros R. cbn.
  by destruct (rd_backend r); intros [= <-].
Qed.

Lemma complete_events env p grant st done st' saved :
  complete_refresh env p grant st = (done, st', saved) →
  saved = [] ∨ ∃ a R, saved = [SavedSuccessor a R].
Proof.
  unfold complete_refresh. intros H.
  destruct (into_session_parts grant) as [[[[[token successor] expires] ws] mb]|]; [|by injection H as <- <- <-; left].
  destruct (_ || _); [by injection H as <- <- <-; left|].
  destruct (store_put _ _ _ _ _) as [[r|] st1]; cbn in H;
    repeat case_match; injection H as <- <- <-; eauto.
Qed.

(** A pending refresh after its renewals. *)
Lemma sent_pending t st p p' out ev attempts :
  pending_ok t st p → refresh_with_retry attempts p = (out, p', ev) →
  pending_ok (t ++ ev)%list st p' ∧ (∀ s, trace_ok t s → trace_ok (t ++ ev)%list s) ∧
  (pr_outcome_unknown p' = false → unspent_store (t ++ ev)%list st).
Proof.
  intros [Hg (R & HR & Hsp)] Hl.
  destruct (refresh_loop_spec _ _ _ _ _ _ _ _ Hl HR) as (Hp & Hf & _ & Hu & Hr).
  assert (pr_saved p' = pr_saved p ∧ pr_key p' = pr_key p) as [Hsv Hk] by (by rewrite Hp).
  assert (∀ k, spent (t ++ ev)%list R k → k = pr_key p' ∧ pr_outcome_unknown p' = true) as Hs'.
  { intros k Hs. rewrite Hk. destruct (sends_spent _ _ _ _ _ _ _ Hf Hs) as [Ht|(_ & -> & Hin)]; [|auto].
    destruct (Hsp _ Ht). auto. }
  split_and!.
  - split; [by rewrite Hsv|]. exists R. by rewrite Hsv.
  - intros s Ht. apply (trace_ok_sends _ _ _ _ _ _ Ht Hf). intros k' Hk'. by apply Hsp.
  - intros Hun f saved R' k Hsd Hgt HR' Hspent. destruct Hg as (f0 & Hsd0 & Hg0).
    pose proof (get_agrees _ _ _ _ _ Hsd Hsd0 Hgt Hg0) as [= ->]. rewrite HR in HR'. injection HR' as <-.
    destruct (Hs' _ Hspent). congruence.
Qed.

Lemma finish_inv t s st p env grant sent out s' st' ev :
  trace_ok (t ++ sent)%list s → pending_ok (t ++ sent)%list st p →
  store_sound (sv_fault (cv_save env)) st →
  finish_refresh env s st p grant sent = (out, s', st', ev) → session_inv (t ++ ev)%list s' st'.
Proof.
  intros Ht [(f & Hf & Hg) _] Hs. unfold finish_refresh.
  destruct (complete_refresh (cv_save env) p grant st) as [[done st1] saved] eqn:Ec.
  assert (∀ s', ns_cached s' = ns_cached s → trace_ok (t ++ sent ++ saved)%list s') as Htr.
  { intros s1 Hs1. apply (trace_ok_session _ s); [|done]. rewrite app_assoc.
    destruct (complete_events _ _ _ _ _ _ _ Ec) as [->|(a & R & ->)]; [by rewrite app_nil_r|].
    by apply trace_ok_other. }
  destruct done as [[cached|]| |]; intros [= <- <- <- <-]; try (split; [by apply Htr|done|done]).
  destruct (complete_saved _ _ _ _ _ _ _ _ Ec Hf Hg Hs) as (R & -> & Hload).
  split; [| |done].
  - rewrite !app_assoc. destruct (Htr s eq_refl) as [Hk Hsf _]. rewrite app_assoc in Hk, Hsf.
    apply (trace_ok_gave _ _ _ R); [|set_solver]. split; [done..|].
    intros c [= <-]. exists R. set_solver.
  - intros _ _ f' sv R' k Hsd Hgt HR'. destruct (Hload _ _ Hsd Hgt) as (c & [= <-] & Hc).
    rewrite (Hc _ HR'). rewrite !app_assoc. intros [[? [=]]|[[[? [=]]|[_ Hn]]%spent_snoc _]]%spent_snoc.
    by apply Hn.
Qed.

Lemma renew_inv t s st p env out s' st' ev :
  trace_ok t s → ns_login_required s = None → pending_ok t st p →
  store_sound (sv_fault (cv_save env)) st →
  renew env s st p = (out, s', st', ev) → session_inv (t ++ ev)%list s' st'.
Proof.
  intros Ht Hl Hp Hs. unfold renew.
  destruct (refresh_with_retry (cv_attempts env) p) as [[outcome p'] sent] eqn:Er.
  destruct (sent_pending _ _ _ _ _ _ _ Hp Er) as (Hp' & Htr & Hun).
  assert (session_inv (t ++ sent)%list {| ns_cached := ns_cached s; ns_pending := Some p';
    ns_login_required := ns_login_required s |} st) as Hkept.
  { split; [by apply (trace_ok_session _ s); [apply Htr|]|done|]. by intros ? [= <-]. }
  destruct outcome as [[grant|source]| |].
  - apply finish_inv; auto.
  - destruct (is_retryable source); cbn [negb].
    + destruct (pr_outcome_unknown p') eqn:Hu; intros [= <- <- <- <-]; [done|].
      split; [by apply (trace_ok_session _ s); [apply Htr|]|auto|done].
    + intros [= <- <- <- <-]. split; [by apply (trace_ok_session _ s); [apply Htr|]|done|done].
  - by intros [= <- <- <- <-].
  - by intros [= <- <- <- <-].
Qed.

Lemma access_inv t s st env out s' st' ev :
  session_inv t s st → env_sound env st → access_token env s st = (out, s', st', ev) →
  session_inv (t ++ ev)%list s' st'.
Proof.
  intros Hi [Hpr Hs]. pose proof Hi as [Ht Hu Hp]. unfold access_token.
  destruct (ns_login_required s) as [login|] eqn:El; [intros [= <- <- <- <-]; by rewrite app_nil_r|].
  destruct (fresh_access env s) as [cached|] eqn:Ef.
  - intros [= <- <- <- <-]. assert (ns_cached s = Some cached) as Hc.
    { unfold fresh_access in Ef. destruct (ns_cached s); [|done]. by case_match; simplify_eq. }
    destruct (to_cached _ _ Ht _ Hc) as [R HR].
    assert (∀ R k, spent (t ++ [GaveAccess (ca_access cached)])%list R k → spent t R k) as Hsp
      by (by intros ? ? [[? [=]]|[? _]]%spent_snoc).
    split; [by apply (trace_ok_gave _ _ _ R)| |].
    + intros _ Hn f sv R' k Hsd Hg HR' Hk. by apply (Hu eq_refl Hn f sv R' k Hsd Hg HR'), Hsp.
    + intros p Hpp. split; [done|]. destruct (Hp p Hpp) as [_ [Hg (R' & HR' & Hk)]].
      split; [done|]. exists R'. split; [done|]. intros k Hk'. by apply Hk, Hsp.
  - destruct (ns_pending s) as [p|] eqn:Ep.
    + destruct (_ && _); [|apply renew_inv; [done..|by apply Hp|done]].
      intros [= <- <- <- <-]. rewrite app_nil_r. split; [by apply (trace_ok_session _ s)|done|done].
    + destruct (cv_prepare env) as [prepare|] eqn:Epr; [|intros [= <- <- <- <-]; by rewrite app_nil_r].
      destruct (prepare_refresh prepare st) as [p|] eqn:Eprep;
        [|intros [= <- <- <- <-]; by rewrite app_nil_r].
      apply renew_inv; [done|done| |done]. eapply prepare_pending; eauto.
Qed.

Lemma session_run_inv st0 s st t : session_run st0 s st t → session_inv t s st.
Proof.
  induction 1 as [|s st t env out s' st' ev _ IH Hs Ha|s st t _ [Ht Hu Hp]|s st st' t _ [Ht Hu Hp] Hn].
  - split; [split|intros _ _ ? ? ? ? _ _ _ (? & ? & ? & []%app_cons_not_nil & _)|done].
    + intros ? ? ? ? ? ? []%app_cons_not_nil.
    + intros ? ? ? []%app_cons_not_nil.
    + done.
  - by eapply access_inv.
  - split; [|done|done]. destruct Ht as [Hk Hsf _]. by split.
  - split; [by apply trace_ok_other| |intros p Hp']; [|congruence].
    intros _ _ f sv R k _ _ _ [[? [=]]|[_ []]]%spent_snoc. done.
Qed.

#[local] Instance clears_dec R e : Decision (clears R e).
Proof. destruct e; cbn; apply _. Defined.

(** [C37] A renewable credential is never put at risk.  In any run of a session,
    whatever the Control Plane, the network and the store answer, wherever a call
    is dropped and whatever other processes do while the lock is free: a
    credential that may have reached the Control Plane under one idempotency key
    is never sent under another, unless it was saved as a successor or another
    process changed the store in between; and access is given only after the
    credential that succeeds it was saved. *)
Theorem renewal_safe st0 s st t :
  session_run st0 s st t →
  (∀ t1 o1 R k1 t2 o2 k2 b t3,
    t = (t1 ++ SentRefresh o1 R k1 true :: t2 ++ SentRefresh o2 R k2 b :: t3)%list →
    k1 ≠ k2 → ∃ e, e ∈ t2 ∧ clears R e) ∧
  (∀ t1 a t2, t = (t1 ++ GaveAccess a :: t2)%list → ∃ successor, SavedSuccessor a successor ∈ t1).
Proof.
  intros [[Hk Hsf _] _ _]%session_run_inv. split; [|done].
  intros t1 o1 R k1 t2 o2 k2 b t3 -> Hne. destruct (decide (Exists (clears R) t2)) as [He|He].
  - apply Exists_exists in He as (e & Hin & Hc). eauto.
  - apply not_Exists_Forall in He; [|apply _]. destruct Hne.
    apply (Hk (t1 ++ SentRefresh o1 R k1 true :: t2)%list o2 R k2 b t3).
    + by rewrite <- app_assoc, app_comm_cons.
    + by exists t1, o1, t2.
Qed.

(** Once a login is required, a session sends nothing. *)
Lemma login_required_final env s st login :
  ns_login_required s = Some login →
  access_token env s st = (Returned (Err (LoginRequired login)), s, st, []).
Proof. intros H. unfold access_token. by rewrite H. Qed.

(** A call sends a credential at most three times. *)
Lemma renew_bounded env s st p out s' st' ev :
  is_Some (loaded_secret (sc_secret (pr_saved p))) →
  renew env s st p = (out, s', st', ev) →
  (length (List.filter is_send ev) ≤ REFRESH_ATTEMPTS)%nat.
Proof.
  intros [R HR] H. unfold renew in H.
  destruct (refresh_with_retry _ p) as [[outcome p'] sent] eqn:Er.
  destruct (refresh_loop_spec _ _ _ _ _ _ _ _ Er HR) as (_ & _ & Hlen & _).
  assert (∀ l, (length (List.filter is_send l) ≤ length l)%nat) as Hle by apply filter_length_le.
  destruct outcome as [[grant|]| |]; [|repeat case_match..]; simplify_eq; try (etrans; [apply Hle|done]).
  unfold finish_refresh in H. destruct (complete_refresh _ _ _ _) as [[done st1] saved] eqn:Ec.
  destruct (complete_events _ _ _ _ _ _ _ Ec) as [->|(a & R' & ->)];
    repeat case_match; simplify_eq; rewrite !List.filter_app, !length_app; cbn;
    pose proof (Hle sent); lia.
Qed.

End Runs.

(** ** The connection store as the store of a session *)

(** A parsed URL is its own serialization. *)
Class UrlTextLaws (U : UrlText) := url_parse_idem : ∀ s o, url_parse s = Some o → url_parse o = Some o.

Section FileStore.
Context {RJ : RecordJson} {RL : RecordJsonLaws RJ} {UT : UrlText} {UL : UrlTextLaws UT}.

(** The user the store belongs to. *)
Variable user : Z.

(** A load fails or reads without a fault, and a new id is not that of the record
    in place. *)
Definition world_sound (w : StoreWorld) (m : Machine) : Prop :=
  sw_euid w = user ∧ (reads_well w ∨ ∃ e, store_load w m = Err e) ∧
  ∀ random, sw_random w = Some random →
    (length random = 16%nat ∧ Forall (λ b, 0 ≤ b < 256) random) ∧
    ∀ w', sw_euid w' = user → reads_well w' ∨ w' = w → fresh w' m (hex_of random).

Definition file_put (w : StoreWorld) (connection : Connection) (secret : string) (policy : SecretPolicy)
    (m : Machine) : Result Replaced StoreError * Machine :=
  let '(outcome, changes) := store_replace w connection (Some secret) policy m in
  (outcome, apply_changes m changes).

#[local] Instance file_session_store : SessionStore :=
  {| Stored := Machine; StoreFault := StoreWorld; store_get := store_load; store_put := file_put;
     store_sound := world_sound |}.

Lemma load_origin w m saved :
  store_load w m = Ok (Some saved) →
  url_parse (co_origin (sc_connection saved)) = Some (co_origin (sc_connection saved)).
Proof.
  unfold store_load. destruct (file_read _ _ _) as [[r|]|] eqn:E; [|done..]. cbn.
  intros H. assert (sc_connection saved = sr_connection r) as ->.
  { destruct (sr_secret r); cbn in H; [by injection H as <-| |by injection H as <-].
    by destruct (native_get _ _ _); cbn in H; [injection H as <-|]. }
  unfold file_read in E. destruct (open_connection _ _ _) as [[node|]|]; [|done..]. cbn in E.
  destruct (read_bounded _ _) as [bytes|]; [|done]. cbn in E.
  destruct (record_decode bytes) as [r'|] eqn:Ed; [|done]. injection E as ->.
  unfold record_decode in Ed. destruct (record_from_json bytes) as [fields|[? ?]]; [|done].
  unfold validate_record in Ed. destruct (negb _); [done|]. destruct (connection_id_parse _); [|done].
  cbn in Ed. destruct (url_parse (rf_origin fields)) as [o|] eqn:Eu; [|done]. cbn in Ed.
  injection Ed as <-. cbn. by eapply url_parse_idem.
Qed.

#[local] Instance file_session_store_laws : SessionStoreLaws file_session_store.
Proof.
  assert (∀ w m x, world_sound w m → store_load w m = Ok x → reads_well w) as Hrw.
  { intros w m x (_ & [?|[e He]] & _) Hx; [done|congruence]. }
  split; cbn.
  - intros f f' st x y Hf Hf' Hx Hy.
    apply (load_agree f f' st); [by eapply Hrw|by eapply Hrw| |done..].
    destruct Hf as [-> _], Hf' as [-> _]. done.
  - intros f f' f'' st st' saved secret policy r x Hf Hg Hf' Hput Hf'' Hx. unfold file_put in Hput.
    destruct (store_replace _ _ _ _ _) as [outcome changes] eqn:Er. injection Hput as -> <-.
    assert (replaceable f' f'' st (sc_connection saved)) as Hr.
    { destruct Hf' as (He' & _ & Hrand). split; [by eapply Hrw| |by eapply load_origin|].
      - destruct Hf'' as [-> _]. done.
      - intros random Hra. destruct (Hrand _ Hra) as [Hv Hfr]. split; [done|]. split.
        + apply Hfr; [done|by right].
        + apply Hfr; [by destruct Hf''|]. left. by eapply Hrw. }
    pose proof (replace_loads _ _ _ _ _ _ _ _ Hr Er) as Hl. cbn in Hl. congruence.
Qed.

End FileStore.

(** ** Sample inputs *)

Module Samples.

#[local] Existing Instance ConnectionStore.Samples.secret_field_eq_dec.
#[local] Existing Instance ConnectionStore.Samples.record_fields_eq_dec.
#[local] Existing Instance ConnectionStore.Samples.sample_url.
Import ConnectionStore.Samples.

Definition next_text : string := "{1;fffe;ws_1;native}".

#[local] Instance session_json : RecordJson :=
  {| record_to_json r :=
       if decide (r = fields old_id "ws_1") then Some old_text
       else if decide (r = fields (hex_of new_random) "ws_1") then Some next_text else None;
     record_from_json s :=
       if decide (s = old_text +:+ String newline_char "") then Ok (fields old_id "ws_1")
       else if decide (s = next_text +:+ String newline_char "") then Ok (fields (hex_of new_random) "ws_1")
       else Err (1, 1) |}.

#[local] Instance session_json_laws : RecordJsonLaws session_json.
Proof.
  intros r s. cbn [record_to_json record_from_json session_json].
  repeat case_decide; intros [= <-]; subst; by vm_compute.
Qed.

#[local] Instance sample_url_laws : UrlTextLaws sample_url.
Proof. by intros s o [= ->]. Qed.

#[local] Instance https_view : UrlView := λ s,
  {| up_scheme := "https"; up_host := Some (HostDomain "app.openfirma.dev"); up_username := "";
     up_password := None; up_path := "/"; up_query := None; up_fragment := None;
     up_ascii_origin := "https://app.openfirma.dev" |}.

#[local] Instance grant_json : TokenJson :=
  {| error_of_json := λ _, None;
     refresh_of_json := λ _, Some (Some "R1");
     token_of_json := λ _, Some {| tk_access_token := "A1"; tk_token_type := "Bearer"; tk_workspace_id := "ws_1";
                                   tk_membership_id := "mb_1"; tk_expires_in := 900 |};
     workspace_of_json := λ _, None |}.

#[local] Existing Instance file_session_store.
#[local] Existing Instance file_session_store_laws.

#[local] Instance sample_store : SessionStore := file_session_store 1000.
#[local] Instance sample_store_laws : SessionStoreLaws sample_store := file_session_store_laws 1000.

Definition answer (status : Z) : Answer :=
  Ok {| th_status := status; th_content_type := Some "application/json"; th_chunks := [Ok "{...}"] |}.

(** The Control Plane is busy, then grants. *)
Definition busy_then_granted : CallEnv :=
  {| cv_now := 0; cv_elapsed_at := 0;
     cv_prepare := Some {| pe_join_failed := false; pe_lock := None; pe_store := world true : StoreFault;
                           pe_client := None; pe_key := Some "key-1"; pe_now := 0 |};
     cv_attempts := λ n, Answered (answer (if Nat.eqb n 1 then 503 else 200)) false;
     cv_save := {| sv_fault := world true : StoreFault; sv_end := SaveAwaited |} |}.

Definition access1 : SessionAccess :=
  {| sa_token := "A1"; sa_origin := "https://app.openfirma.dev/"; sa_workspace_id := "ws_1" |}.

Definition events1 : list SessionEvent :=
  [SentRefresh "https://app.openfirma.dev/" "old secret" "key-1" true;
   SentRefresh "https://app.openfirma.dev/" "old secret" "key-1" true;
   SavedSuccessor access1 "R1"; GaveAccess access1].

Definition store1 : Stored := store.

Definition old_record : StoredRecord :=
  {| sr_id := old_id; sr_connection := production "ws_1"; sr_secret := SecretNative |}.

Lemma old_read : file_read (sw_euid (world true)) (sw_read (world true)) (mc_file store) = Ok (Some old_record).
Proof. by vm_compute. Qed.

Lemma world_is_sound : env_sound busy_then_granted store1.
Proof.
  assert (world_sound 1000 (world true) store) as Hw.
  { split; [done|]. split; [left; apply world_reads|]. intros random [= <-].
    split; [split; [done|by repeat constructor]|]. intros w' He Hw' r Hr.
    assert (Some r = Some old_record) as [= ->]; [|by vm_compute].
    destruct Hw' as [Hw'| ->]; [|rewrite old_read in Hr; congruence].
    apply (file_read_agree w' (world true) (mc_file store)); [done|apply world_reads|done|done|apply old_read]. }
  split; [by intros ? [= <-]|done].
Qed.

Lemma busy_access : ∃ s st, access_token busy_then_granted session_new store1 =
  (Returned (Ok access1), s, st, events1).
Proof. eexists _, _. vm_compute. reflexivity. Qed.

Lemma renewal_safe_witness : ∃ s st,
  session_run store1 s st events1 ∧
  ∃ successor, SavedSuccessor access1 successor ∈ take 3 events1.
Proof.
  destruct busy_access as (s & st & Ha). exists s, st.
  assert (session_run store1 s st events1) as Hr.
  { exact (run_access _ _ _ [] _ _ _ _ _ (run_new _) world_is_sound Ha). }
  split; [exact Hr|]. exact (proj2 (renewal_safe _ _ _ _ Hr) (take 3 events1) access1 [] eq_refl).
Defined.

(** The life of the access token is added to the clock unchecked: a very long one
    panics, after the successor was saved. *)
#[local] Instance long_json : TokenJson :=
  {| error_of_json := λ _, None;
     refresh_of_json := λ _, Some (Some "R1");
     token_of_json := λ _, Some {| tk_access_token := "A1"; tk_token_type := "Bearer"; tk_workspace_id := "ws_1";
                                   tk_membership_id := "mb_1"; tk_expires_in := i64_max |};
     workspace_of_json := λ _, None |}.

Definition later : CallEnv :=
  {| cv_now := 3600000; cv_elapsed_at := 3600000;
     cv_prepare := Some {| pe_join_failed := false; pe_lock := None; pe_store := world true : StoreFault;
                           pe_client := None; pe_key := Some "key-1"; pe_now := 3600000 |};
     cv_attempts := λ n, Answered (answer 200) false;
     cv_save := {| sv_fault := world true : StoreFault; sv_end := SaveAwaited |} |}.

Example long_life_panics : ∃ s st, access_token (J := long_json) later session_new store1 =
  (Panicked, s, st, [SentRefresh "https://app.openfirma.dev/" "old secret" "key-1" true;
                     SavedSuccessor access1 "R1"]).
Proof. eexists _, _. vm_compute. reflexivity. Qed.

End Samples.
