(* ===== verification/ControlPlane.v ===== *)
(** * Authenticated requests to the Control Plane ([firma-login/src/control_plane])

    [ControlPlaneClient] sends requests with the access of a session to the
    origin that issued it.  A start creates a run and returns its credential once,
    so it is never repeated but after a refused token; a close may be repeated,
    since the first one wins.  The session and its store are those of
    [LoginSession]; the answers and the JSON of the bodies are parameters.  The
    resolution of an agent is left out. *)

From S2P Require Import Prelude RustStr ConnectionStore LoginClient LoginSession.

#[local] Open Scope string_scope.
#[local] Open Scope Z_scope.

Definition CONTRACT_VERSION : Z := 1.
Definition API_PATH : list string := ["api"; "agent-flow"; "v1"].
Definition MAX_PROBLEM_CODE_LEN : nat := 64.
Definition REQUEST_ATTEMPTS : nat := 3.

(** Delays in seconds. *)
Definition RETRY_DELAY : Z := 1.

(** ** Errors *)

Inductive ControlPlaneError :=
| CpSession (error : SessionError)
| CpUnauthorized
| CpAccessDenied
| CpRunNotClosable
| CpAgentNotFound (handle : string)
| CpRefused (status : Z) (code : string) (request_id : option string)
| CpIncompatibleServer
| CpUnavailable (status : Z) (request_id : option string)
| CpTransport (error : TransportFailure).

(** [request_id_suffix]. *)
Definition request_id_suffix (request_id : option string) : string :=
  match request_id with Some id => "; request id " +:+ id | None => "" end.

(** [is_retryable] of a repeatable request. *)
Definition cp_is_retryable (error : ControlPlaneError) : bool :=
  match error with
  | CpTransport _ => true
  | CpUnavailable status _ => is_retryable_status status
  | _ => false
  end.

(** [unexpected]. *)
Definition unexpected (error : NativeTokenError) : ControlPlaneError :=
  match error with NtTransport source => CpTransport source | _ => CpIncompatibleServer end.

(** ** Bodies *)

(** [ProblemCode::try_from]. *)
Definition problem_code (value : string) : option string :=
  if negb (is_empty value) && Nat.leb (String.length value) MAX_PROBLEM_CODE_LEN &&
     str_forallb (λ a, is_ascii_lower a || is_ascii_digit a || Ascii.eqb a "_"%char) value
  then Some value else None.

Inductive RunState := RunActive | RunTerminal.

#[export] Instance run_state_eq_dec : EqDecision RunState.
Proof. solve_decision. Defined.

Inductive CloseOutcome := CloseCompleted | CloseFailed | CloseCancelled.

Inductive RecordedOutcome :=
| RecordedCompleted | RecordedFailed | RecordedCancelled | RecordedExpired | RecordedKeyExpired
| RecordedAgentDeleted.

Definition recorded_as_str (o : RecordedOutcome) : string :=
  match o with
  | RecordedCompleted => "completed"
  | RecordedFailed => "failed"
  | RecordedCancelled => "cancelled"
  | RecordedExpired => "expired"
  | RecordedKeyExpired => "key_expired"
  | RecordedAgentDeleted => "agent_deleted"
  end.

Definition recorded_from (o : CloseOutcome) : RecordedOutcome :=
  match o with
  | CloseCompleted => RecordedCompleted
  | CloseFailed => RecordedFailed
  | CloseCancelled => RecordedCancelled
  end.

Record StartedBody := {
  sb_contract_version : Z;
  sb_run_id : string;
  sb_state : RunState;
  sb_sidecar_id : option string;
  sb_token_type : string;
  sb_access_token : string;
}.

Record StartedRun := { st_run_id : string; st_sidecar_id : string; st_credential : string }.

Record ClosedBody := {
  cb_contract_version : Z;
  cb_run_id : string;
  cb_state : RunState;
  cb_outcome : option RecordedOutcome;
}.

(** [serde_json] at [StartBody], [StartedBody], [CloseBody], [ClosedBody] and
    [ProblemBody], the code of the last before it is checked. *)
Class ControlPlaneJson := {
  start_to_json : string → string → option string;
  started_of_json : string → option StartedBody;
  close_to_json : CloseOutcome → option string;
  closed_of_json : string → option ClosedBody;
  problem_of_json : string → option (string * option string);
}.

(** A response, with the text of its [Retry-After]. *)
Record ApiResponse := { ar_http : TokenResponseHttp; ar_retry_after : option string }.

Definition is_success (status : Z) : bool := (200 <=? status) && (status <? 300).
Definition is_redirection (status : Z) : bool := (300 <=? status) && (status <? 400).

(** The delay [post_once] reads from a response. *)
Definition retry_delay (response : ApiResponse) : Z :=
  match ar_retry_after response with
  | Some value =>
      if negb (is_empty value) && str_forallb is_ascii_digit value
      then Z.min (match parse_u64 value with Ok n => n | Err _ => u64_max end) 15
      else RETRY_DELAY
  | None => RETRY_DELAY
  end.

(** ** The client *)

(** A request to the Control Plane, and whether it was answered with 401. *)
Record ApiRequest := {
  aq_origin : string;
  aq_segments : list string;
  aq_bearer : string;
  aq_body : option string;
}.

Inductive ClientEvent :=
| OfSession (e : SessionEvent)
| SentRequest (request : ApiRequest) (refused_token : bool).

Section Client.
Context {J : TokenJson} {UV : UrlView} {S : SessionStore} {CJ : ControlPlaneJson}.

(** What one request meets: the environment of the session, an HTTP client that
    cannot be built, the answer ([None] when the future is dropped before it), and
    whether the future is dropped while the body is read or in the delay that
    follows. *)
Record SendEnv := {
  se_call : CallEnv;
  se_build : option TransportFailure;
  se_answer : option (Result ApiResponse TransportFailure);
  se_dropped_in_body : bool;
  se_dropped_after : bool;
}.

(** The HTTP client is kept for the origin it was built for. *)
Record ControlPlaneClient := { cp_session : NativeSession; cp_http : option string }.

Definition client_new : ControlPlaneClient := {| cp_session := session_new; cp_http := None |}.

Definition drop_connections (c : ControlPlaneClient) : ControlPlaneClient :=
  {| cp_session := cp_session c; cp_http := None |}.

Abbreviation ClientOutcome A := (Awaited A * ControlPlaneClient * Stored * list ClientEvent)%type.

(** [send]: the Workspace the token speaks for, with the response. *)
Definition send (env : SendEnv) (segments : list string) (body : option string)
    (c : ControlPlaneClient) (st : Stored) : ClientOutcome (Result (string * ApiResponse) ControlPlaneError) :=
  let '(access, session, st', events) := access_token (se_call env) (cp_session c) st in
  let c := {| cp_session := session; cp_http := cp_http c |} in
  let events := OfSession <$> events in
  match access with
  | Dropped => (Dropped, c, st', events)
  | Panicked => (Panicked, c, st', events)
  | Returned (Err error) => (Returned (Err (CpSession error)), c, st', events)
  | Returned (Ok access) =>
      let built := bool_decide (cp_http c = Some (sa_origin access)) in
      match (if built then None else se_build env) with
      | Some error => (Returned (Err (CpTransport error)), c, st', events)
      | None =>
          let c := {| cp_session := session; cp_http := Some (sa_origin access) |} in
          let request := {| aq_origin := sa_origin access; aq_segments := (API_PATH ++ segments)%list;
                            aq_bearer := sa_token access; aq_body := body |} in
          let sent refused := (events ++ [SentRequest request refused])%list in
          match se_answer env with
          | None => (Dropped, c, st', sent false)
          | Some (Err error) => (Returned (Err (CpTransport error)), c, st', sent false)
          | Some (Ok response) =>
              (Returned (Ok (sa_workspace_id access, response)), c, st',
               sent (th_status (ar_http response) =? 401))
          end
      end
  end.

(** [renew_access]. *)
Definition renew_access (env : CallEnv) (c : ControlPlaneClient) (st : Stored)
    : ClientOutcome (Result unit ControlPlaneError) :=
  let '(access, session, st', events) := access_token env (cp_session c) st in
  (match access with
   | Dropped => Dropped
   | Panicked => Panicked
   | Returned (Err error) => Returned (Err (CpSession error))
   | Returned (Ok _) => Returned (Ok tt)
   end, {| cp_session := session; cp_http := cp_http c |}, st', OfSession <$> events).

(** [refusal]. *)
Definition refusal (response : ApiResponse) : ControlPlaneError :=
  let status := th_status (ar_http response) in
  let problem :=
    match bounded_body (th_chunks (ar_http response)) "" with
    | Ok (Some body) =>
        '(raw, request_id) ← problem_of_json body; code ← problem_code raw; Some (code, request_id)
    | _ => None
    end in
  if status =? 403 then
    if bool_decide (fst <$> problem = Some "run_not_closable") then CpRunNotClosable else CpAccessDenied
  else if is_redirection status || (status =? 400) then CpIncompatibleServer
  else if (status =? 408) || (status =? 429) then CpUnavailable status (problem ≫= snd)
  else if is_client_error status then
    match problem with
    | Some (code, request_id) => CpRefused status code request_id
    | None => CpIncompatibleServer
    end
  else CpUnavailable status (problem ≫= snd).

(** [accepted]. *)
Definition accepted (response : ApiResponse) (expected : list Z) (c : ControlPlaneClient)
    : Result ApiResponse ControlPlaneError * ControlPlaneClient :=
  let status := th_status (ar_http response) in
  if bool_decide (status ∈ expected) then (Ok response, c)
  else if is_success status || is_redirection status then (Err CpIncompatibleServer, c)
  else if status =? 401 then
    (Err CpUnauthorized,
     {| cp_session := forget_access (cp_session c); cp_http := cp_http c |})
  else (Err (refusal response), c).

(** [post_once]: an error comes with the delay before another attempt. *)
Definition post_once (env : SendEnv) (segments : list string) (body : string) (expected : list Z)
    (c : ControlPlaneClient) (st : Stored) : ClientOutcome (Result string (ControlPlaneError * Z)) :=
  let '(sent, c, st, events) := send env segments (Some body) c st in
  match sent with
  | Dropped => (Dropped, c, st, events)
  | Panicked => (Panicked, c, st, events)
  | Returned (Err error) => (Returned (Err (error, RETRY_DELAY)), c, st, events)
  | Returned (Ok (_, response)) =>
      if se_dropped_in_body env && negb (th_status (ar_http response) =? 401) then (Dropped, c, st, events)
      else
        let '(outcome, c) := accepted response expected c in
        (Returned match outcome with
                  | Err error => Err (error, retry_delay response)
                  | Ok response => map_err (λ e, (unexpected e, RETRY_DELAY)) (json_body (ar_http response))
                  end, c, st, events)
  end.

(** [post_renewing]. *)
Definition post_renewing (env env' : SendEnv) (segments : list string) (body : string)
    (expected : list Z) (c : ControlPlaneClient) (st : Stored) : ClientOutcome (Result string ControlPlaneError) :=
  let strip r := match r with
                 | Dropped => Dropped
                 | Panicked => Panicked
                 | Returned r => Returned (map_err fst r)
                 end in
  let '(first, c, st, events) := post_once env segments body expected c st in
  match first with
  | Returned (Err (CpUnauthorized, _)) =>
      let '(second, c, st, events') := post_once env' segments body expected c st in
      (strip second, c, st, (events ++ events')%list)
  | _ => (strip first, c, st, events)
  end.

(** [post_with_retries]: [fuel] bounds the attempts that may still be made. *)
Fixpoint post_loop (fuel n attempt : nat) (refreshed : bool) (envs : nat → SendEnv)
    (segments : list string) (body : string) (expected : list Z) (c : ControlPlaneClient) (st : Stored)
    : ClientOutcome (Result string ControlPlaneError) :=
  let '(answer, c, st, events) := post_once (envs n) segments body expected c st in
  let again attempt refreshed :=
    match fuel with
    | O => (Panicked, c, st, events)
    | Datatypes.S fuel =>
        let '(out, c, st, events') :=
          post_loop fuel (n + 1) attempt refreshed envs segments body expected c st in
        (out, c, st, (events ++ events')%list)
    end in
  match answer with
  | Dropped => (Dropped, c, st, events)
  | Panicked => (Panicked, c, st, events)
  | Returned (Ok answer) => (Returned (Ok answer), c, st, events)
  | Returned (Err (error, delay)) =>
      match error, refreshed with
      | CpUnauthorized, false => again attempt true
      | _, _ =>
          if Nat.ltb attempt REQUEST_ATTEMPTS && cp_is_retryable error then
            if se_dropped_after (envs n) then (Dropped, c, st, events)
            else again (attempt + 1)%nat refreshed
          else (Returned (Err error), c, st, events)
      end
  end.

Definition post_with_retries := post_loop REQUEST_ATTEMPTS 0 1 false.

(** [start_run]. *)
Definition started (body : string) : Result StartedRun ControlPlaneError :=
  let? b := ok_or (started_of_json body) CpIncompatibleServer in
  match sb_state b, sb_sidecar_id b with
  | RunActive, Some sidecar_id =>
      if (sb_contract_version b =? CONTRACT_VERSION) && eq_ignore_ascii_case (sb_token_type b) "bearer" &&
         negb (is_empty (sb_access_token b))
      then Ok {| st_run_id := sb_run_id b; st_sidecar_id := sidecar_id; st_credential := sb_access_token b |}
      else Err CpIncompatibleServer
  | _, _ => Err CpIncompatibleServer
  end.

Definition start_run (env env' : SendEnv) (handle generation : string) (c : ControlPlaneClient)
    (st : Stored) : ClientOutcome (Result StartedRun ControlPlaneError) :=
  match start_to_json handle generation with
  | None => (Returned (Err CpIncompatibleServer), c, st, [])
  | Some request =>
      let '(answer, c, st, events) := post_renewing env env' ["runs"] request [201] c st in
      (match answer with
       | Dropped => Dropped
       | Panicked => Panicked
       | Returned (Err (CpRefused status code request_id)) =>
           Returned (Err (if (status =? 404) && bool_decide (code = "agent_not_found")
                          then CpAgentNotFound handle else CpRefused status code request_id))
       | Returned (Err error) => Returned (Err error)
       | Returned (Ok body) => Returned (started body)
       end, c, st, events)
  end.

(** [close_run]. *)
Definition closed (run_id body : string) : Result RecordedOutcome ControlPlaneError :=
  let? b := ok_or (closed_of_json body) CpIncompatibleServer in
  match cb_state b, cb_outcome b with
  | RunTerminal, Some recorded =>
      if (cb_contract_version b =? CONTRACT_VERSION) && bool_decide (cb_run_id b = run_id)
      then Ok recorded else Err CpIncompatibleServer
  | _, _ => Err CpIncompatibleServer
  end.

Definition close_run (envs : nat → SendEnv) (run_id : string) (outcome : CloseOutcome)
    (c : ControlPlaneClient) (st : Stored) : ClientOutcome (Result RecordedOutcome ControlPlaneError) :=
  match close_to_json outcome with
  | None => (Returned (Err CpIncompatibleServer), c, st, [])
  | Some request =>
      let '(answer, c, st, events) :=
        post_with_retries envs ["runs"; run_id; "close"] request [200] c st in
      (match answer with
       | Dropped => Dropped
       | Panicked => Panicked
       | Returned (Err error) => Returned (Err error)
       | Returned (Ok body) => Returned (closed run_id body)
       end, c, st, events)
  end.

End Client.

(** ** Facts *)

Section Facts.
Context {J : TokenJson} {UV : UrlView} {S : SessionStore} {CJ : ControlPlaneJson}.

(** The requests of a trace, and whether each was refused its token. *)
Definition requests (events : list ClientEvent) : list (ApiRequest * bool) :=
  omap (λ e, match e with SentRequest q refused => Some (q, refused) | OfSession _ => None end) events.

Lemma requests_app l l' : requests (l ++ l')%list = (requests l ++ requests l')%list.
Proof. apply omap_app. Qed.

Lemma requests_session l : requests (OfSession <$> l) = [].
Proof. by induction l. Qed.

(** The access a session returns is access it gave. *)
Lemma access_gave env s st a s' st' events :
  access_token env s st = (Returned (Ok a), s', st', events) → GaveAccess a ∈ events.
Proof.
  assert (∀ p, renew env s st p = (Returned (Ok a), s', st', events) → GaveAccess a ∈ events) as Hr.
  { intros p. unfold renew. destruct (refresh_with_retry _ p) as [[[[grant|source]| |] p'] sent]; [|by case_match..|done|done].
    unfold finish_refresh. destruct (complete_refresh _ _ _ _) as [[[[cached|]| |] st1] saved]; [|done..].
    intros [= <- <- <- <-]. set_solver. }
  unfold access_token. repeat case_match; try done; try apply Hr. intros [= <- <- <- <-]. set_solver.
Qed.

(** A request goes with a token of the session to the origin that issued it. *)
Definition authorized (events : list ClientEvent) (segments : list string) (q : ApiRequest) : Prop :=
  ∃ a, OfSession (GaveAccess a) ∈ events ∧ aq_origin q = sa_origin a ∧ aq_bearer q = sa_token a ∧
    aq_segments q = (API_PATH ++ segments)%list.

Lemma send_spec env segments body c st out c' st' events :
  send env segments body c st = (out, c', st', events) →
  (requests events = [] ∧ ∀ r, out ≠ Returned (Ok r)) ∨
  ∃ q refused, requests events = [(q, refused)] ∧ authorized events segments q ∧ aq_body q = body ∧
    (∀ ws r, out = Returned (Ok (ws, r)) →
       refused = (th_status (ar_http r) =? 401) ∧ se_answer env = Some (Ok r)) ∧
    ((∀ r, out ≠ Returned (Ok r)) → refused = false).
Proof.
  unfold send. destruct (access_token _ _ _) as [[[access session] st1] ev] eqn:Ea.
  destruct access as [[a|]| |];
    [|intros [= <- <- <- <-]; left; by rewrite requests_session..].
  apply access_gave in Ea.
  destruct (if bool_decide _ then None else se_build env);
    [intros [= <- <- <- <-]; left; by rewrite requests_session|].
  assert (∀ b, authorized ((OfSession <$> ev) ++ [SentRequest {| aq_origin := sa_origin a;
      aq_segments := API_PATH ++ segments; aq_bearer := sa_token a; aq_body := body |} b])%list segments
    {| aq_origin := sa_origin a; aq_segments := API_PATH ++ segments; aq_bearer := sa_token a;
       aq_body := body |}) as Hau.
  { intros b. exists a. split_and!; [|done..]. apply elem_of_app. left. by apply list_elem_of_fmap_2. }
  destruct (se_answer env) as [[response|error]|]; intros [= <- <- <- <-]; right;
    (eexists _, _; split; [by rewrite requests_app, requests_session|]);
    (split; [apply Hau|]); split_and!; try done.
  - by intros ws r [= _ <-].
  - intros H. by destruct (H (sa_workspace_id a, response)).
Qed.

Lemma send_error env segments body c st e c' st' events :
  send env segments body c st = (Returned (Err e), c', st', events) → e ≠ CpUnauthorized.
Proof.
  unfold send. destruct (access_token _ _ _) as [[[access session] st1] ev].
  intros H. repeat case_match; by simplify_eq.
Qed.

Lemma refusal_not_unauthorized r : refusal r ≠ CpUnauthorized.
Proof. unfold refusal. by repeat case_match. Qed.

Lemma accepted_unauthorized r expected c outcome c' :
  401 ∉ expected → accepted r expected c = (outcome, c') →
  (th_status (ar_http r) =? 401) = true ↔
  ∃ d, @Returned (Result string (ControlPlaneError * Z)) match outcome with
       | Err error => Err (error, retry_delay r)
       | Ok response => map_err (λ e, (unexpected e, RETRY_DELAY)) (json_body (ar_http response))
       end = Returned (Err (CpUnauthorized, d)).
Proof.
  intros H401. unfold accepted. case_bool_decide as Hin.
  { intros [= <- <-]. split; [intros Hs%Z.eqb_eq; by rewrite Hs in Hin|]. intros [d [= Hd]].
    destruct (json_body _) as [|[]]; by cbn in Hd. }
  destruct (Z.eqb_spec (th_status (ar_http r)) 401) as [->|Hne].
  { cbn. intros [= <- <-]. split; [|done]. intros _. by eexists. }
  destruct (_ || _); intros [= <- <-]; (split; [done|]); intros [d [=]].
  by destruct (refusal_not_unauthorized r).
Qed.

(** The request was answered with a status. *)
Definition answered (env : SendEnv) (status : Z) : Prop :=
  ∃ r, se_answer env = Some (Ok r) ∧ th_status (ar_http r) = status.

(** The request was answered with an expected status and a body of JSON. *)
Definition answered_with (env : SendEnv) (expected : list Z) (body : string) : Prop :=
  ∃ r, se_answer env = Some (Ok r) ∧ th_status (ar_http r) ∈ expected ∧ json_body (ar_http r) = Ok body.

(** One attempt sends at most one request, and reports a refused token only for a
    request that was answered with one. *)
Lemma post_once_spec env segments body expected c st out c' st' events :
  401 ∉ expected → post_once env segments body expected c st = (out, c', st', events) →
  (requests events = [] ∧ ∀ d, out ≠ Returned (Err (CpUnauthorized, d))) ∨
  ∃ q refused, requests events = [(q, refused)] ∧ authorized events segments q ∧ aq_body q = Some body ∧
    (refused = true ↔ ∃ d, out = Returned (Err (CpUnauthorized, d))) ∧
    (refused = true → answered env 401).
Proof.
  intros H401. unfold post_once.
  destruct (send env segments (Some body) c st) as [[[sent c1] st1] ev] eqn:Es.
  pose proof (send_error env segments (Some body) c st) as He. rewrite Es in He.
  apply send_spec in Es as [[Hr Hn]|(q & refused & Hr & Ha & Hb & Hok & Hno)].
  - destruct sent as [[[ws r]|e]| |]; [by destruct (Hn (ws, r))|..]; intros [= <- <- <- <-]; left;
      (split; [done|]); intros d; [|done|done]. intros [= ->]. by destruct (He CpUnauthorized c1 st1 ev).
  - intros H. right. exists q, refused.
    enough (events = ev ∧ (refused = true ↔ ∃ d, out = Returned (Err (CpUnauthorized, d))) ∧
            (refused = true → answered env 401)) as [-> ?] by done.
    destruct sent as [[[ws r]|e]| |].
    + destruct (Hok ws r eq_refl) as [-> Hans].
      assert ((th_status (ar_http r) =? 401) = true → answered env 401) as H1.
      { intros H1%Z.eqb_eq. by exists r. }
      destruct (se_dropped_in_body env && _) eqn:Ed.
      { injection H as <- <- <- <-. split; [done|]. apply andb_true_iff in Ed as [_ ->%negb_true_iff].
        split; [|done]. split; [done|]. by intros [? [=]]. }
      destruct (accepted r expected c1) as [outcome c2] eqn:Eacc. injection H as <- <- <- <-.
      split; [done|]. split; [|done]. exact (accepted_unauthorized _ _ _ _ _ H401 Eacc).
    + injection H as <- <- <- <-. split; [done|]. rewrite Hno by done. split; [|done]. split; [done|].
      intros [d [= -> _]]. by destruct (He CpUnauthorized c1 st1 ev).
    + injection H as <- <- <- <-. split; [done|]. rewrite Hno by done. split; [|done]. split; [done|]. by intros [? [=]].
    + injection H as <- <- <- <-. split; [done|]. rewrite Hno by done. split; [|done]. split; [done|]. by intros [? [=]].
Qed.

(** A body is returned from the accepted answer to a request. *)
Lemma post_once_answered env segments body expected c st answer c' st' events :
  401 ∉ expected → post_once env segments body expected c st = (Returned (Ok answer), c', st', events) →
  ∃ q, requests events = [(q, false)] ∧ answered_with env expected answer.
Proof.
  intros H401 Hp. unfold post_once in Hp.
  destruct (send _ _ _ _ _) as [[[sent c1] st1] ev] eqn:Es.
  destruct sent as [[[ws r]|]| |]; [|done..].
  apply send_spec in Es as [[_ Hn]|(q & b & Hq & _ & _ & Hok & _)]; [by destruct (Hn (ws, r))|].
  destruct (Hok ws r eq_refl) as [-> Hans]. destruct (se_dropped_in_body env && _); [done|].
  unfold accepted in Hp. case_bool_decide as Hin.
  - injection Hp as Hj <- <- <-. exists q. destruct (json_body (ar_http r)) as [text|] eqn:Ej; [|done].
    injection Hj as ->. split; [|by exists r]. rewrite Hq.
    destruct (Z.eqb_spec (th_status (ar_http r)) 401) as [He|]; [by rewrite He in Hin|done].
  - repeat case_match; by simplify_eq.
Qed.

Lemma authorized_app l l' segments q :
  (authorized l segments q → authorized (l ++ l')%list segments q) ∧
  (authorized l' segments q → authorized (l ++ l')%list segments q).
Proof. split; intros (a & Ha & ?); exists a; (split; [set_solver|done]). Qed.

Lemma post_renewing_spec env env' segments body expected c st out c' st' events :
  401 ∉ expected → post_renewing env env' segments body expected c st = (out, c', st', events) →
  (requests events = [] ∨ (∃ q refused, requests events = [(q, refused)]) ∨
   ∃ q q' refused, requests events = [(q, true); (q', refused)] ∧ answered env 401) ∧
  (∀ q refused, (q, refused) ∈ requests events → authorized events segments q ∧ aq_body q = Some body) ∧
  (∀ answer, out = Returned (Ok answer) →
     (∃ q, requests events = [(q, false)] ∧ answered_with env expected answer) ∨
     (∃ q q', requests events = [(q, true); (q', false)] ∧ answered_with env' expected answer)).
Proof.
  intros H401. unfold post_renewing.
  destruct (post_once env segments body expected c st) as [[[first c1] st1] ev] eqn:E1.
  pose proof E1 as P1. apply post_once_spec in E1; [|done].
  assert ((∃ d, first = Returned (Err (CpUnauthorized, d))) ∨
    ∀ d, first ≠ Returned (Err (CpUnauthorized, d))) as [[d ->]|Hn].
  { destruct first as [[|[[] ?]]| |]; (left; by eexists) || by right. }
  - destruct (post_once env' segments body expected c1 st1) as [[[second c2] st2] ev'] eqn:E2.
    pose proof E2 as P2. apply post_once_spec in E2; [|done]. intros [= <- <- <- <-].
    destruct E1 as [[_ Hno]|(q & b & Hq & Hau & Hb1 & Hb & H1)]; [by destruct (Hno d)|].
    assert (b = true) as -> by (apply Hb; eauto). rewrite requests_app, Hq.
    split_and!.
    + destruct E2 as [[-> _]|(q' & b' & -> & _)]; cbn; eauto 10.
    + intros q0 r0 [Hin|Hin]%elem_of_app.
      * apply list_elem_of_singleton in Hin as [= -> ->]. split; [by apply (proj1 (authorized_app ev ev' _ _))|done].
      * destruct E2 as [[E2 _]|(q' & b' & E2 & Hau' & Hb' & _)]; rewrite E2 in Hin; [by apply elem_of_nil in Hin|].
        apply list_elem_of_singleton in Hin as [= -> ->]. split; [by apply (proj2 (authorized_app ev ev' _ _))|done].
    + intros answer H. right. destruct second as [[body'|]| |]; [|done..]. injection H as ->.
      apply post_once_answered in P2 as (q' & -> & Hw); [|done]. by exists q, q'.
  - intros H. assert (events = ev ∧ ∀ answer, out = Returned (Ok answer) → first = Returned (Ok answer)) as [-> Hout].
    { destruct first as [[a|[e d]]| |].
      - injection H as <- <- <- <-. by split; [|intros ? [= ->]].
      - destruct e; try (by injection H as <- <- <- <-). by destruct (Hn d).
      - by injection H as <- <- <- <-.
      - by injection H as <- <- <- <-. }
    split_and!.
    + destruct E1 as [[-> _]|(q & b & -> & _)]; eauto 10.
    + destruct E1 as [[-> _]|(q & b & -> & Hau & Hb & _)]; [by intros ? ? ?%elem_of_nil|].
      intros q0 r0 [= -> ->]%list_elem_of_singleton. done.
    + intros answer ->%Hout. left. by apply post_once_answered in P1.
Qed.

(** The run that the body of an answer describes: of this version of the contract,
    active, with a Sidecar and a bearer credential. *)
Definition describes (body : string) (run : StartedRun) : Prop :=
  ∃ b, started_of_json body = Some b ∧ sb_contract_version b = 1 ∧ sb_state b = RunActive ∧
    eq_ignore_ascii_case (sb_token_type b) "bearer" = true ∧ sb_access_token b ≠ "" ∧
    st_run_id run = sb_run_id b ∧ sb_sidecar_id b = Some (st_sidecar_id run) ∧
    st_credential run = sb_access_token b.

Lemma started_ok body run : started body = Ok run → describes body run.
Proof.
  unfold started. destruct (started_of_json body) as [b|] eqn:Eb; [|done]. cbn. intros H. exists b.
  repeat case_match; simplify_eq. cbn. boolify. unfold is_empty in *. boolify. done.
Qed.

(** [C40] A start is never repeated.  Whatever the session, the network and the
    Control Plane do, [start_run] sends nothing, one request, or two of which the
    first was answered with 401, which the Control Plane answers before any
    write: of the requests of one start at most one can have created a run.  Each
    carries this start's body and a token the session gave, to the origin that
    issued it.  A run is returned only when the last of them was answered with 201
    and a body of JSON that is of this version of the contract and describes an
    active run with a Sidecar and a bearer credential, and it is that run. *)
Theorem start_at_most_once env env' handle generation c st out c' st' events :
  start_run env env' handle generation c st = (out, c', st', events) →
  (requests events = [] ∨ (∃ q refused, requests events = [(q, refused)]) ∨
   ∃ q q' refused, requests events = [(q, true); (q', refused)] ∧ answered env 401) ∧
  (∀ q refused, (q, refused) ∈ requests events →
     authorized events ["runs"] q ∧ aq_body q = start_to_json handle generation) ∧
  (∀ run, out = Returned (Ok run) → ∃ body,
     describes body run ∧
     ((∃ q, requests events = [(q, false)] ∧ answered_with env [201] body) ∨
      (∃ q q', requests events = [(q, true); (q', false)] ∧ answered_with env' [201] body))).
Proof.
  unfold start_run. destruct (start_to_json handle generation) as [request|].
  2:{ intros [= <- <- <- <-]. split_and!; [by left|by intros ? ? ?%elem_of_nil|done]. }
  destruct (post_renewing _ _ _ _ _ _ _) as [[[answer c1] st1] ev] eqn:Ep.
  apply post_renewing_spec in Ep as (Hshape & Hau & Hok); [|set_solver].
  intros [= <- <- <- <-]. split_and!; [done|done|]. intros run Hrun.
  destruct answer as [[body|[]]| |]; try done. injection Hrun as Hrun.
  exists body. split; [by apply started_ok|]. by apply Hok.
Qed.

(** A repeatable request: the attempts that may still be made. *)
Definition attempts_left (attempt : nat) (refreshed : bool) : nat :=
  (REQUEST_ATTEMPTS - attempt) + (if refreshed then 0 else 1).

(** The fuel of [post_with_retries] is enough: more changes nothing. *)
Lemma post_loop_fuel segments body expected envs fuel : ∀ n attempt refreshed c st,
  (attempts_left attempt refreshed ≤ fuel)%nat →
  post_loop (fuel + 1) n attempt refreshed envs segments body expected c st =
  post_loop fuel n attempt refreshed envs segments body expected c st.
Proof.
  induction fuel as [|fuel IH]; intros n attempt refreshed c st Hle;
    cbn [post_loop Nat.add]; unfold attempts_left in *;
    destruct (post_once _ _ _ _ _ _) as [[[answer c1] st1] ev];
    destruct answer as [[|[error d]]| |]; try done.
  - assert (Nat.ltb attempt REQUEST_ATTEMPTS = false) as -> by (apply Nat.ltb_ge; lia).
    destruct error, refreshed; try done; cbn in Hle; lia.
  - destruct (Nat.ltb_spec attempt REQUEST_ATTEMPTS); cbn [andb];
      destruct error, refreshed; try done;
      try (destruct (cp_is_retryable _); [|done]; destruct (se_dropped_after _); [done|]);
      by rewrite IH by (cbv iota; unfold REQUEST_ATTEMPTS in *; cbv iota in *; lia).
Qed.

(** A close sends at most four requests. *)
Lemma post_loop_requests segments body expected envs fuel : ∀ n attempt refreshed c st out c' st' events,
  401 ∉ expected →
  post_loop fuel n attempt refreshed envs segments body expected c st = (out, c', st', events) →
  (length (requests events) ≤ fuel + 1)%nat.
Proof.
  induction fuel as [|fuel IH]; intros n attempt refreshed c st out c' st' events H401;
    cbn [post_loop]; destruct (post_once _ _ _ _ _ _) as [[[answer c1] st1] ev] eqn:Ep;
    apply post_once_spec in Ep; try done;
    assert (length (requests ev) ≤ 1)%nat as Hlen
      by (destruct Ep as [[-> _]|(? & ? & -> & _)]; cbn; lia).
  - intros H. assert (events = ev) as ->; [|lia].
    destruct answer as [[|[error d]]| |]; repeat case_match; by simplify_eq.
  - intros H.
    assert (events = ev ∨ ∃ n' a' r' c2 st2 out' c3 st3 ev', events = (ev ++ ev')%list ∧
      post_loop fuel n' a' r' envs segments body expected c2 st2 = (out', c3, st3, ev'))
      as [->|(n' & a' & r' & c2 & st2 & out' & c3 & st3 & ev' & -> & Hrec)]; [|lia|].
    { destruct answer as [[|[error d]]| |]; repeat case_match; simplify_eq; eauto 20. }
    rewrite requests_app, length_app. pose proof (IH _ _ _ _ _ _ _ _ _ H401 Hrec). lia.
Qed.

(** A close is reported as recorded only from a terminal record of this run. *)
Lemma close_run_ok envs run_id outcome c st recorded c' st' events :
  close_run envs run_id outcome c st = (Returned (Ok recorded), c', st', events) →
  (length (requests events) ≤ 4)%nat ∧
  ∃ body b, closed_of_json body = Some b ∧ cb_run_id b = run_id ∧ cb_state b = RunTerminal ∧
    cb_outcome b = Some recorded ∧ cb_contract_version b = CONTRACT_VERSION.
Proof.
  unfold close_run. destruct (close_to_json outcome) as [request|]; [|done].
  destruct (post_with_retries _ _ _ _ _ _) as [[[answer c1] st1] ev] eqn:Ep.
  apply post_loop_requests in Ep; [|set_solver]. intros H.
  destruct answer as [[body|]| |]; [|done..]. injection H as Hc <- <- <-. split; [done|].
  unfold closed in Hc. destruct (closed_of_json body) as [b|] eqn:Eb; [|done]. cbn in Hc. exists body, b.
  destruct (cb_state b); [done|]. destruct (cb_outcome b); [|done].
  destruct (Z.eqb_spec (cb_contract_version b) CONTRACT_VERSION); [|done]. cbn in Hc.
  case_bool_decide; [|done]. by injection Hc as ->.
Qed.

End Facts.

(** ** Sample inputs *)

Module Samples.

Import LoginSession.Samples.
#[local] Existing Instance https_view.
#[local] Existing Instance grant_json.
#[local] Existing Instance ConnectionStore.Samples.sample_url.
#[local] Existing Instance session_json.
#[local] Existing Instance sample_store.

#[local] Instance sample_cp_json : ControlPlaneJson :=
  {| start_to_json := λ _ _, Some "{start}";
     started_of_json := λ _, Some {| sb_contract_version := 1; sb_run_id := "run_1"; sb_state := RunActive;
                                     sb_sidecar_id := Some "sidecar_1"; sb_token_type := "Bearer";
                                     sb_access_token := "runtime" |};
     close_to_json := λ _, Some "{close}";
     closed_of_json := λ _, None;
     problem_of_json := λ _, None |}.

Definition api (status : Z) : ApiResponse :=
  {| ar_http := {| th_status := status; th_content_type := Some "application/json"; th_chunks := [Ok "{}"] |};
     ar_retry_after := None |}.

Definition env_answered (status : Z) : SendEnv :=
  {| se_call := busy_then_granted; se_build := None; se_answer := Some (Ok (api status));
     se_dropped_in_body := false; se_dropped_after := false |}.

Definition start_request : ApiRequest :=
  {| aq_origin := "https://app.openfirma.dev/"; aq_segments := ["api"; "agent-flow"; "v1"; "runs"];
     aq_bearer := "A1"; aq_body := Some "{start}" |}.

(** A start whose first token is accepted. *)
Lemma started_once : ∃ c st, start_run (env_answered 201) (env_answered 201) "agent" "7" client_new store1 =
  (Returned (Ok {| st_run_id := "run_1"; st_sidecar_id := "sidecar_1"; st_credential := "runtime" |}), c, st,
   ((OfSession <$> events1) ++ [SentRequest start_request false])%list).
Proof. eexists _, _. vm_compute. reflexivity. Qed.

Lemma start_at_most_once_witness :
  ∃ body, describes body {| st_run_id := "run_1"; st_sidecar_id := "sidecar_1"; st_credential := "runtime" |} ∧
    answered_with (env_answered 201) [201] body.
Proof.
  destruct started_once as (c & st & H).
  destruct (proj2 (proj2 (start_at_most_once _ _ _ _ _ _ _ _ _ _ H)) _ eq_refl)
    as (body & Hd & [(q & _ & Ha)|(q & q' & _ & Ha)]); exists body; split; assumption.
Defined.

End Samples.
