(* ===== verification/LoginCallback.v ===== *)
(** * The callback of a browser login ([firma-login/src/redirect.rs], [pkce.rs])

    [firma login] waits on a loopback port for the one redirect that carries its
    state.  Any local process, and any web page, can send requests there: what the
    listener accepts is decided here.  The terminal variant, without a listener,
    pairs a pasted code with the same attempt ([protocol.rs]).

    The pairs of a query come from [url::form_urlencoded], a parameter; the HTTP
    server and its shutdown are left out. *)

From S2P Require Import Prelude RustStr ConnectionStore LoginClient.

#[local] Open Scope string_scope.
#[local] Open Scope Z_scope.

Definition MAX_AUTHORIZATION_CODE_BYTES : Z := 512.
Definition TERMINAL_REDIRECT : string := "http://127.0.0.1:9/callback".
Definition LANDING_PATH : string := "/agent-flow/authorizations/returned".

(** The decoded pairs of a query. *)
Class FormUrlencoded := form_parse : string → list (string * string).

(** ** The query *)

(** [CallbackParameters]. *)
Record CallbackParameters := {
  cp_code : option string;
  cp_state : option string;
  cp_error : option string;
}.

Definition no_parameters : CallbackParameters := {| cp_code := None; cp_state := None; cp_error := None |}.

Inductive Slot := SlotCode | SlotState | SlotError.

Definition slot_of (name : string) : option Slot :=
  if bool_decide (name = "code") then Some SlotCode
  else if bool_decide (name = "state") then Some SlotState
  else if bool_decide (name = "error") then Some SlotError
  else None.

Definition slot_value (s : Slot) (p : CallbackParameters) : option string :=
  match s with SlotCode => cp_code p | SlotState => cp_state p | SlotError => cp_error p end.

Definition slot_replace (s : Slot) (value : string) (p : CallbackParameters) : CallbackParameters :=
  match s with
  | SlotCode => {| cp_code := Some value; cp_state := cp_state p; cp_error := cp_error p |}
  | SlotState => {| cp_code := cp_code p; cp_state := Some value; cp_error := cp_error p |}
  | SlotError => {| cp_code := cp_code p; cp_state := cp_state p; cp_error := Some value |}
  end.

(** [CallbackParameters::insert]; [None] is [CallbackFailure::InvalidQuery]. *)
Definition parameters_insert (name value : string) (p : CallbackParameters) : option CallbackParameters :=
  match slot_of name with
  | None => Some p
  | Some s =>
      if is_empty value || bool_decide (is_Some (slot_value s p)) then None
      else Some (slot_replace s value p)
  end.

Inductive ParsedCallback := CallbackCode (code : string) | CallbackRejected (refusal : LoginRefusal).

(** [AuthorizationState::matches_callback]. *)
Definition matches_callback (expected received : string) : bool :=
  Nat.eqb (String.length expected) (String.length received) && bool_decide (expected = received).

(** [CallbackParameters::finish]. *)
Definition parameters_finish (expected_state : string) (p : CallbackParameters) : option ParsedCallback :=
  match cp_code p, cp_state p, cp_error p with
  | Some code, Some state, None =>
      if matches_callback expected_state state &&
         (Z.of_nat (String.length code) <=? MAX_AUTHORIZATION_CODE_BYTES)
      then Some (CallbackCode code) else None
  | None, Some state, Some error =>
      if matches_callback expected_state state then Some (CallbackRejected (refusal_from_code error)) else None
  | _, _, _ => None
  end.

Fixpoint insert_all (pairs : list (string * string)) (p : CallbackParameters) : option CallbackParameters :=
  match pairs with
  | [] => Some p
  | (name, value) :: pairs => p ← parameters_insert name value p; insert_all pairs p
  end.

(** [parse_query], on the decoded pairs. *)
Definition parse_pairs (pairs : list (string * string)) (expected_state : string) : option ParsedCallback :=
  p ← insert_all pairs no_parameters; parameters_finish expected_state p.

(** ** The listener *)

(** [has_expected_host], on the [Host] headers of the request. *)
Definition has_expected_host (hosts : list string) (expected_host : string) : bool :=
  match hosts with [host] => bool_decide (host = expected_host) | _ => false end.

(** [LoopbackRedirectUri::host_header]. *)
Definition host_header (port : Z) : string := "127.0.0.1:" +:+ display_uint port.

Inductive CallbackResponse :=
| BadHost | BadCallback | DeadlineElapsed | AlreadyHandled | NoLongerAccepted
| LandGranted | LandRefused.

(** What the browser is answered: the status and body, or the page it is sent on
    to. *)
Definition response_status (r : CallbackResponse) : Z :=
  match r with
  | BadHost | BadCallback => 400
  | DeadlineElapsed => 408
  | AlreadyHandled => 409
  | NoLongerAccepted => 410
  | LandGranted | LandRefused => 303
  end.

Record CallbackRequest := {
  cq_hosts : list string;
  cq_query : option string;
  cq_now : Z;
}.

(** [CallbackServerState]: the attempt, its deadline, and whether the sender of
    its outcome is still there. *)
Record CallbackServerState := {
  sv_expected_host : string;
  sv_expected_state : string;
  sv_deadline : Z;
  sv_sender : bool;
}.

Section Listener.
Context {FU : FormUrlencoded}.

(** [parse_query]. *)
Definition parse_query (query expected_state : string) : option ParsedCallback :=
  parse_pairs (form_parse query) expected_state.

(** What a request would deliver. *)
Definition request_callback (s : CallbackServerState) (q : CallbackRequest) : option ParsedCallback :=
  query ← cq_query q; parse_query query (sv_expected_state s).

(** [receive_callback]: the answer, the outcome sent to the waiting login if any,
    and whether the sender is left; [receiver] says whether the login still waits
    for it. *)
Definition receive_callback (s : CallbackServerState) (receiver : bool) (q : CallbackRequest)
    : CallbackResponse * option ParsedCallback * CallbackServerState :=
  if negb (has_expected_host (cq_hosts q) (sv_expected_host s)) then (BadHost, None, s)
  else
    match request_callback s q with
    | None => (BadCallback, None, s)
    | Some callback =>
        if sv_deadline s <=? cq_now q then (DeadlineElapsed, None, s)
        else if negb (sv_sender s) then (AlreadyHandled, None, s)
        else
          let s' := {| sv_expected_host := sv_expected_host s; sv_expected_state := sv_expected_state s;
                       sv_deadline := sv_deadline s; sv_sender := false |} in
          if negb receiver then (NoLongerAccepted, None, s')
          else (match callback with CallbackCode _ => LandGranted | CallbackRejected _ => LandRefused end,
                Some callback, s')
    end.

(** The requests the listener meets, in the order their handlers take the sender,
    while the login waits. *)
Fixpoint serve_callbacks (s : CallbackServerState) (qs : list CallbackRequest)
    : list CallbackResponse * list ParsedCallback :=
  match qs with
  | [] => ([], [])
  | q :: qs =>
      let '(response, delivered, s) := receive_callback s true q in
      let '(responses, more) := serve_callbacks s qs in
      (response :: responses, (match delivered with Some d => [d] | None => [] end ++ more)%list)
  end.

End Listener.

(** ** Terminal delivery *)

Definition is_ascii_graphic (a : ascii) : bool := in_range 33 126 a.

(** [TerminalAuthorizationRequest::complete], for the verifier and scope of its
    attempt. *)
Definition terminal_complete (verifier : string) (scope : AuthorizationScope) (code : string)
    : Result AuthorizedTokenExchange NativeTokenError :=
  let code := trim code in
  if is_empty code || (MAX_AUTHORIZATION_CODE_BYTES <? Z.of_nat (String.length code)) ||
     negb (str_forallb is_ascii_graphic code)
  then Err NtInvalidCode
  else Ok {| ax_redirect_uri := TERMINAL_REDIRECT; ax_code := code; ax_verifier := verifier;
             ax_scope := scope |}.

(** The query of the authorization URL. *)
Definition authorize_pairs (redirect_uri state challenge : string) (scope : AuthorizationScope)
    : list (string * string) :=
  ([("response_type", "code"); ("client_id", CLIENT_ID); ("redirect_uri", redirect_uri); ("state", state);
    ("code_challenge", challenge); ("code_challenge_method", "S256")] ++
   match scope with OfflineAccess => [("scope", "offline_access")] | AccessOnly => [] end)%list.

(** ** Facts *)

#[export] Instance slot_eq_dec : EqDecision Slot.
Proof. solve_decision. Defined.

(** The values a query gives to a slot. *)
Definition values (s : Slot) (pairs : list (string * string)) : list string :=
  omap (λ nv, if decide (slot_of nv.1 = Some s) then Some nv.2 else None) pairs.

Lemma slot_value_replace s s' v p :
  slot_value s' (slot_replace s v p) = if decide (s = s') then Some v else slot_value s' p.
Proof. by destruct s, s'. Qed.

(** The slot after the pairs were inserted: what it was, or the one value, which is
    not empty, given to an empty slot. *)
Definition slot_ok (s : Slot) (pairs : list (string * string)) (p p' : CallbackParameters) : Prop :=
  values s pairs = [] ∧ slot_value s p' = slot_value s p ∨
  ∃ v, values s pairs = [v] ∧ v ≠ "" ∧ slot_value s p = None ∧ slot_value s p' = Some v.

Lemma insert_all_ok pairs : ∀ p p',
  insert_all pairs p = Some p' → ∀ s, slot_ok s pairs p p'.
Proof.
  induction pairs as [|[name value] pairs IH]; intros p p' H s; [injection H as <-; by left|].
  cbn in H. apply bind_Some in H as (p1 & Hi & H). specialize (IH _ _ H s). unfold slot_ok, values in *.
  cbn [omap list_omap fst snd]. unfold parameters_insert in Hi.
  destruct (slot_of name) as [s0|] eqn:Es; [|injection Hi as <-; by rewrite decide_False by done].
  destruct (is_empty value) eqn:Ev; [done|]. cbn in Hi.
  destruct (bool_decide_reflect (is_Some (slot_value s0 p))) as [|Hn]; [done|]. injection Hi as <-.
  apply eq_None_not_Some in Hn. rewrite slot_value_replace in IH.
  destruct (decide (s0 = s)) as [->|Hne].
  - rewrite decide_True by done. right. exists value. unfold is_empty in Ev. apply bool_decide_eq_false in Ev.
    destruct IH as [[-> ->]|(v & _ & _ & [=] & _)]. done.
  - by rewrite decide_False by congruence.
Qed.

Lemma insert_all_some pairs : ∀ p,
  (∀ s, values s pairs = [] ∨ ∃ v, values s pairs = [v] ∧ v ≠ "" ∧ slot_value s p = None) →
  is_Some (insert_all pairs p).
Proof.
  induction pairs as [|[name value] pairs IH]; intros p Hp; [by eexists|]. cbn. unfold parameters_insert.
  unfold values in Hp. cbn [omap list_omap fst snd] in Hp.
  destruct (slot_of name) as [s0|] eqn:Es.
  - pose proof (Hp s0) as H0. rewrite decide_True in H0 by done.
    destruct H0 as [[=]|(v & [= -> Hv] & Hne & Hnone)].
    unfold is_empty. rewrite bool_decide_eq_false_2 by done. rewrite Hnone. cbn. apply IH. intros s.
    specialize (Hp s). rewrite slot_value_replace. destruct (decide (s0 = s)) as [->|Hne'].
    + left. exact Hv.
    + by rewrite decide_False in Hp by congruence.
  - cbn. apply IH. intros s. specialize (Hp s). by rewrite decide_False in Hp.
Qed.

(** The query of a grant: its one code and the state of the attempt, and no
    error. *)
Definition grants (pairs : list (string * string)) (expected code : string) : Prop :=
  values SlotCode pairs = [code] ∧ values SlotState pairs = [expected] ∧ values SlotError pairs = [] ∧
  code ≠ "" ∧ expected ≠ "" ∧ Z.of_nat (String.length code) ≤ MAX_AUTHORIZATION_CODE_BYTES.

Definition rejects (pairs : list (string * string)) (expected error : string) : Prop :=
  values SlotCode pairs = [] ∧ values SlotState pairs = [expected] ∧ values SlotError pairs = [error] ∧
  error ≠ "" ∧ expected ≠ "".

Lemma matches_callback_eq a b : matches_callback a b = true ↔ a = b.
Proof.
  unfold matches_callback. rewrite andb_true_iff, bool_decide_eq_true. split; [by intros [_ ?]|].
  intros ->. by rewrite Nat.eqb_refl.
Qed.

(** What was inserted, slot by slot. *)
Lemma insert_all_values pairs p s :
  insert_all pairs no_parameters = Some p →
  values s pairs = match slot_value s p with Some v => [v] | None => [] end ∧
  slot_value s p ≠ Some "".
Proof.
  intros H. destruct (insert_all_ok _ _ _ H s) as [[-> ->]|(v & -> & Hv & _ & ->)]; [by destruct s|].
  split; [done|congruence].
Qed.

Lemma parse_pairs_exact pairs expected callback :
  parse_pairs pairs expected = Some callback ↔
  match callback with
  | CallbackCode code => grants pairs expected code
  | CallbackRejected refusal => ∃ error, rejects pairs expected error ∧ refusal = refusal_from_code error
  end.
Proof.
  unfold parse_pairs. split.
  - intros (p & Hp & Hf)%bind_Some.
    destruct (insert_all_values _ _ SlotCode Hp) as [Hc Hc'], (insert_all_values _ _ SlotState Hp) as [Hs Hs'],
      (insert_all_values _ _ SlotError Hp) as [He He'].
    unfold parameters_finish, grants, rejects in *. cbn in *.
    destruct (cp_code p) as [code|], (cp_state p) as [state|], (cp_error p) as [error|]; try done;
      destruct (matches_callback expected state) eqn:Hm; try done; apply matches_callback_eq in Hm as <-.
    + destruct (Z.leb_spec (Z.of_nat (String.length code)) MAX_AUTHORIZATION_CODE_BYTES); [|done].
      injection Hf as <-. split_and!; try done; congruence.
    + injection Hf as <-. exists error. split; [|done]. split_and!; try done; congruence.
  - intros H. assert (is_Some (insert_all pairs no_parameters)) as [p Hp].
    { apply insert_all_some. intros s. destruct callback; [destruct H as (? & ? & ? & ? & ? & ?)|
        destruct H as (e & (? & ? & ? & ? & ?) & _)]; destruct s; eauto. }
    rewrite Hp. cbn. pose proof (insert_all_values _ _ SlotCode Hp) as [Hc _].
    pose proof (insert_all_values _ _ SlotState Hp) as [Hs _].
    pose proof (insert_all_values _ _ SlotError Hp) as [He _]. unfold parameters_finish. cbn in *.
    destruct callback as [code|refusal].
    + destruct H as (H1 & H2 & H3 & _ & _ & Hlen). rewrite H1 in Hc. rewrite H2 in Hs. rewrite H3 in He.
      destruct (cp_code p), (cp_state p), (cp_error p); try done. injection Hc as <-. injection Hs as <-.
      rewrite (proj2 (matches_callback_eq _ _)) by done.
      destruct (Z.leb_spec (Z.of_nat (String.length code)) MAX_AUTHORIZATION_CODE_BYTES); [done|lia].
    + destruct H as (error & (H1 & H2 & H3 & _) & ->). rewrite H1 in Hc. rewrite H2 in Hs. rewrite H3 in He.
      destruct (cp_code p), (cp_state p), (cp_error p); try done. injection Hs as <-. injection He as <-.
      by rewrite (proj2 (matches_callback_eq _ _)) by done.
Qed.

Section Callbacks.
Context {FU : FormUrlencoded}.

(** A request that completes the attempt: for the one host of the listener, before
    the deadline, with a query that grants or refuses this attempt. *)
Definition completes (s : CallbackServerState) (q : CallbackRequest) (callback : ParsedCallback) : Prop :=
  cq_hosts q = [sv_expected_host s] ∧ cq_now q < sv_deadline s ∧
  ∃ query, cq_query q = Some query ∧
    match callback with
    | CallbackCode code => grants (form_parse query) (sv_expected_state s) code
    | CallbackRejected refusal =>
        ∃ error, rejects (form_parse query) (sv_expected_state s) error ∧ refusal = refusal_from_code error
    end.

Definition landing (callback : ParsedCallback) : CallbackResponse :=
  match callback with CallbackCode _ => LandGranted | CallbackRejected _ => LandRefused end.

Lemma has_expected_host_eq hosts host : has_expected_host hosts host = true ↔ hosts = [host].
Proof.
  destruct hosts as [|h [|? ?]]; cbn; [done| |done]. rewrite bool_decide_eq_true. split; [by intros ->|].
  by intros [= ->].
Qed.

Lemma request_callback_exact s q callback :
  has_expected_host (cq_hosts q) (sv_expected_host s) = true ∧ request_callback s q = Some callback ∧
  cq_now q < sv_deadline s ↔ completes s q callback.
Proof.
  unfold completes, request_callback, parse_query. rewrite has_expected_host_eq. split.
  - intros (Hh & (query & Hq & Hp)%bind_Some & Hd). split_and!; [done|done|]. exists query.
    split; [done|]. by apply parse_pairs_exact.
  - intros (Hh & Hd & query & Hq & Hp). split_and!; [done| |done]. rewrite Hq. cbn. by apply parse_pairs_exact.
Qed.

(** One request, while the attempt is pending. *)
Lemma receive_pending s q :
  sv_sender s = true →
  (∃ callback, completes s q callback ∧
     receive_callback s true q =
       (landing callback, Some callback,
        {| sv_expected_host := sv_expected_host s; sv_expected_state := sv_expected_state s;
           sv_deadline := sv_deadline s; sv_sender := false |})) ∨
  (∀ callback, ¬ completes s q callback) ∧
  ∃ r, receive_callback s true q = (r, None, s) ∧ 400 ≤ response_status r.
Proof.
  intros Hs. pose proof (request_callback_exact s q) as He. unfold receive_callback.
  destruct (has_expected_host _ _) eqn:Hh; cbn.
  2:{ right. split; [|by eexists]. intros c Hc. by apply He in Hc as [? _]. }
  destruct (request_callback s q) as [callback|] eqn:Hr.
  2:{ right. split; [|by eexists]. intros c Hc. by apply He in Hc as (_ & ? & _). }
  destruct (Z.leb_spec (sv_deadline s) (cq_now q)).
  { right. split; [|by eexists]. intros c Hc. apply He in Hc as (_ & _ & ?). lia. }
  left. exists callback. split; [by apply He|]. by rewrite Hs.
Qed.

(** After the outcome was sent, nothing completes it again. *)
Lemma serve_handled qs : ∀ s,
  sv_sender s = false →
  snd (serve_callbacks s qs) = [] ∧ Forall (λ r, 400 ≤ response_status r) (fst (serve_callbacks s qs)).
Proof.
  induction qs as [|q qs IH]; intros s Hs; [done|]. cbn.
  assert (∃ r, receive_callback s true q = (r, None, s) ∧ 400 ≤ response_status r) as (r & -> & Hr).
  { unfold receive_callback. rewrite Hs. cbn [negb].
    repeat case_match; (eexists; split; [reflexivity|done]). }
  destruct (IH s Hs) as [Hd Hf]. destruct (serve_callbacks s qs) as [responses more]. cbn in *. subst. auto.
Qed.

(** [C39] Only the redirect of this login completes it.  Whatever requests reach the
    listener, in whatever order, the login gets exactly the first one that names
    the host of the listener and no other, comes before the deadline and carries
    the state of the attempt once, with one code of bounded length and no error,
    or one error and no code; its browser alone is sent on, to the page of its
    outcome.  Every other request is answered with an error: those before it leave
    the attempt pending, those after it cannot replace it. *)
Theorem callback_exact s qs :
  sv_sender s = true →
  let '(responses, delivered) := serve_callbacks s qs in
  (∃ before q after callback responses1 responses2,
    qs = (before ++ q :: after)%list ∧ completes s q callback ∧
    Forall (λ q', ∀ c, ¬ completes s q' c) before ∧
    delivered = [callback] ∧ responses = (responses1 ++ landing callback :: responses2)%list ∧
    length responses1 = length before ∧
    Forall (λ r, 400 ≤ response_status r) (responses1 ++ responses2)%list) ∨
  Forall (λ q, ∀ c, ¬ completes s q c) qs ∧ delivered = [] ∧
    Forall (λ r, 400 ≤ response_status r) responses.
Proof.
  intros Hs. induction qs as [|q qs IH]; [by right|]. cbn.
  destruct (receive_pending s q Hs) as [(callback & Hc & ->)|(Hn & r & -> & Hr)].
  - set (s' := Build_CallbackServerState _ _ _ _). destruct (serve_handled qs s' eq_refl) as [Hd Hf].
    destruct (serve_callbacks s' qs) as [responses more]. cbn in *. subst more. left.
    exists [], q, qs, callback, [], responses. by split_and!.
  - destruct (serve_callbacks s qs) as [responses more].
    destruct IH as [(before & q' & after & callback & r1 & r2 & -> & Hq' & Hb & -> & -> & Hl & Hf)|(Ha & -> & Hf)].
    + left. exists (q :: before), q', after, callback, (r :: r1), r2. cbn. split_and!; auto.
    + right. auto.
Qed.

End Callbacks.

(** ** Sample inputs *)

Module Samples.

(** A query of plain pairs. *)
#[local] Instance sample_form : FormUrlencoded := λ query,
  (λ part, default (part, "") (split_once "="%char part)) <$> split_char "&"%char query.

Definition server : CallbackServerState :=
  {| sv_expected_host := host_header 49152; sv_expected_state := "s3cret"; sv_deadline := 120000;
     sv_sender := true |}.

Definition request (host query : string) (now : Z) : CallbackRequest :=
  {| cq_hosts := [host]; cq_query := Some query; cq_now := now |}.

(** A forged state, a page that used another name of the host, the redirect, and a
    repetition of it. *)
Definition session : list CallbackRequest :=
  [request "127.0.0.1:49152" "code=evil&state=guess" 10;
   request "localhost:49152" "code=c1&state=s3cret" 20;
   request "127.0.0.1:49152" "code=c1&state=s3cret&session_state=x" 30;
   request "127.0.0.1:49152" "code=c2&state=s3cret" 40].

Example session_served :
  serve_callbacks server session = ([BadCallback; BadHost; LandGranted; AlreadyHandled], [CallbackCode "c1"]).
Proof. by vm_compute. Qed.

Lemma callback_exact_witness :
  sv_sender server = true ∧
  ∃ q callback, q ∈ session ∧ completes server q callback ∧ [CallbackCode "c1"] = [callback].
Proof.
  split; [reflexivity|]. pose proof (callback_exact server session eq_refl) as H. rewrite session_served in H.
  destruct H as [(before & q & after & callback & r1 & r2 & Hqs & Hc & _ & Hd & _)|(_ & [=] & _)].
  exists q, callback. split; [rewrite Hqs; set_solver|]. done.
Defined.

End Samples.
