(* ===== verification/StackStop.v ===== *)
(** * Stopping a stack ([firma-process-orchestrator/src/stop.rs], [state_lease.rs])

    A stack is a list of processes with files in a state directory: a pid file
    each, and [stack.lock], which names the generation the files belong to.
    Stopping it signals the processes one at a time, dependents first, and removes
    the files once every process is known to be gone, and only while they still
    belong to the generation that was stopped.

    The components of a stack are named by a topology, whose names are safe as file
    names and distinct.

    The clock moves by what each call takes and by the sleeps of the code; what
    the operating system answers to the [n]th call is a parameter.  A process is
    the id that was stored for it.  A generation is its UUID in hyphenated form; UUID
    parsing and Unicode lowercasing are parameters. *)

From S2P Require Import Prelude RustStr.

#[local] Open Scope string_scope.
#[local] Open Scope Z_scope.

Definition HARD_TERMINATION_SETTLEMENT : Z := 2000.
Definition TARGET_POLL_INTERVAL : Z := 50.

(** The variants of [OrchestratorError] that arise here; the others are their
    text. *)
Inductive OrchestratorError :=
| RuntimeStateBusy
| InvalidStackGeneration
| InvalidComponentName (name : string)
| DuplicateComponentName (name : string)
| TerminationTimeout (timeout_secs : Z)
| OrchestratorOther (detail : string).

Inductive ShutdownError := TeardownUncertain (error : OrchestratorError) | StateCleanup (error : OrchestratorError).

Definition into_orchestrator_error (e : ShutdownError) : OrchestratorError :=
  match e with TeardownUncertain error | StateCleanup error => error end.

(** [FirstError::record]. *)
Definition record_first (first : option OrchestratorError) (error : OrchestratorError) : option OrchestratorError :=
  match first with None => Some error | Some _ => first end.

(** ** Topology *)

Class Lowercase := to_lowercase : string → string.

Definition is_ascii_control (a : ascii) : bool := (byte a <? 32) || (byte a =? 127).

(** [char::is_control] for some character of a UTF-8 text: the ASCII controls, and
    U+0080 to U+009F. *)
Fixpoint any_control (s : string) : bool :=
  match s with
  | "" => false
  | String a s' =>
      is_ascii_control a || match s' with String b _ => (byte a =? 194) && in_range 128 159 b | "" => false end
      || any_control s'
  end.

Definition is_reserved_char (a : ascii) : bool :=
  existsb (Ascii.eqb a) ["/"; "092"; ":"; "*"; "?"; "034"; "<"; ">"; "|"]%char.

Definition superscript (b : ascii) : string := String "194"%char (String b "").

(** [is_windows_device_name]. *)
Definition is_windows_device_name (name : string) : bool :=
  let basename := to_ascii_uppercase match split_once "."%char name with Some (l, _) => l | None => name end in
  let number := match strip_prefix "COM" basename with Some n => Some n | None => strip_prefix "LPT" basename end in
  bool_decide (basename ∈ ["CON"; "PRN"; "AUX"; "NUL"])
  || match number with
     | Some n => bool_decide (n ∈ ["1"; "2"; "3"; "4"; "5"; "6"; "7"; "8"; "9"; superscript "185";
                                   superscript "178"; superscript "179"])
     | None => false
     end.

(** [is_safe_name]. *)
Definition is_safe_name (name : string) : bool :=
  negb (is_empty name) && negb (bool_decide (name = ".")) && negb (bool_decide (name = ".."))
  && negb (ends_with "." name || ends_with " " name) && negb (is_windows_device_name name)
  && negb (any_control name || negb (str_forallb (λ a, negb (is_reserved_char a)) name)).

(** [StackTopology::new]: the names in startup order. *)
Fixpoint topology_from `{Lowercase} (seen : gset string) (names : list string) : Result (list string) OrchestratorError :=
  match names with
  | [] => Ok []
  | name :: names =>
      if negb (is_safe_name name) then Err (InvalidComponentName name)
      else if bool_decide (to_lowercase name ∈ seen) then Err (DuplicateComponentName name)
      else let? rest := topology_from ({[to_lowercase name]} ∪ seen) names in Ok (name :: rest)
  end.

Definition topology_new `{Lowercase} (names : list string) : Result (list string) OrchestratorError :=
  topology_from ∅ names.

(** ** Files *)

(** The state directory: its entries and their text. *)
Abbreviation StateDir := (gmap string string).

(** What fails when an entry is read or removed. *)
Record DirFaults := { df_read : string → option string; df_remove : string → option string }.

Class UuidText := uuid_parse : string → option string.

(** [UserProcessId::new] on Unix: a positive [i32]. *)
Definition user_process_id (raw : Z) : option Z := if (0 <? raw) && (raw <=? 2 ^ 31 - 1) then Some raw else None.

Definition pid_text (pid : Z) : string := display_uint pid +:+ String "010"%char "".

(** [pidfile::read]. *)
Definition pidfile_read (f : DirFaults) (dir : StateDir) (name : string) : Result (option Z) OrchestratorError :=
  match df_read f name, dir !! name with
  | Some e, _ => Err (OrchestratorOther e)
  | None, None => Ok None
  | None, Some text =>
      let value := default text (strip_suffix (String "010"%char "") text) in
      match (raw ← result_ok (parse_u32 value); user_process_id raw) with
      | Some pid => if bool_decide (text = pid_text pid) then Ok (Some pid)
                    else Err (OrchestratorOther "invalid pidfile")
      | None => Err (OrchestratorOther "invalid pidfile")
      end
  end.

(** [pidfile::write]: an error before the rename leaves the directory as it was,
    one of the flush after it does not. *)
Definition pidfile_write (before after : option string) (name : string) (pid : Z) (dir : StateDir)
    : Result unit OrchestratorError * StateDir :=
  match before, after with
  | Some e, _ => (Err (OrchestratorOther e), dir)
  | None, Some e => (Err (OrchestratorOther e), <[name := pid_text pid]> dir)
  | None, None => (Ok tt, <[name := pid_text pid]> dir)
  end.

(** [pidfile::remove] and [remove_startup_report_dir]. *)
Definition dir_remove (f : DirFaults) (name : string) (dir : StateDir) : Result unit OrchestratorError * StateDir :=
  match df_remove f name with
  | Some e => (Err (OrchestratorOther e), dir)
  | None => (Ok tt, delete name dir)
  end.

Definition STACK_LOCK : string := "stack.lock".
Definition STACK_PID : string := "stack.pid".
Definition pid_file (name : string) : string := name +:+ ".pid".
Definition listen_file (name : string) : string := name +:+ ".listen".
Definition supervisor_ready_path (pid : Z) : string := "stack." +:+ display_uint pid +:+ ".ready".
Definition supervisor_attached_path (pid : Z) : string := "stack." +:+ display_uint pid +:+ ".attached".
Definition startup_report_dir (generation : string) : string := ".startup-" +:+ generation.

(** ** Teardown *)

(** What is done to the processes, in order. *)
Inductive StopEvent :=
| Collected (error : option OrchestratorError)
| Probed (target : Z) (exists_ : Result bool OrchestratorError)
| SignalledSoft (target : Z)
| SignalledHard (target : Z) (error : option OrchestratorError)
| Rechecked (target : Z) (exists_ : Result bool OrchestratorError).

(** The operating system: how long the [n]th call takes, and what it answers. *)
Record StopEnv := {
  sp_delay : nat → Z;
  sp_probe : nat → Z → Result bool OrchestratorError;
  sp_hard : nat → Z → option OrchestratorError;
  sp_collect : nat → option OrchestratorError;
}.

(** The local variables of [stop_inner], the clock and the trace. *)
Record StopState := {
  ss_n : nat;
  ss_clock : Z;
  ss_teardown : option OrchestratorError;
  ss_hard : option OrchestratorError;
  ss_forced : bool;
  ss_disappeared : bool;
  ss_uncertain : bool;
  ss_settlement : option Z;
  ss_trace : list StopEvent;
}.

Definition stop_start (now : Z) : StopState :=
  {| ss_n := 0; ss_clock := now; ss_teardown := None; ss_hard := None; ss_forced := false;
     ss_disappeared := true; ss_uncertain := false; ss_settlement := None; ss_trace := [] |}.

Section Teardown.
Variable env : StopEnv.

(** A call: time passes, and it is recorded. *)
Definition called (e : StopEvent) (s : StopState) : StopState :=
  {| ss_n := ss_n s + 1; ss_clock := ss_clock s + sp_delay env (ss_n s); ss_teardown := ss_teardown s;
     ss_hard := ss_hard s; ss_forced := ss_forced s; ss_disappeared := ss_disappeared s;
     ss_uncertain := ss_uncertain s; ss_settlement := ss_settlement s; ss_trace := (ss_trace s ++ [e])%list |}.

Definition set_teardown (e : OrchestratorError) (s : StopState) : StopState :=
  {| ss_n := ss_n s; ss_clock := ss_clock s; ss_teardown := record_first (ss_teardown s) e;
     ss_hard := ss_hard s; ss_forced := ss_forced s; ss_disappeared := ss_disappeared s;
     ss_uncertain := ss_uncertain s; ss_settlement := ss_settlement s; ss_trace := ss_trace s |}.

Definition set_uncertain (s : StopState) : StopState :=
  {| ss_n := ss_n s; ss_clock := ss_clock s; ss_teardown := ss_teardown s; ss_hard := ss_hard s;
     ss_forced := ss_forced s; ss_disappeared := ss_disappeared s; ss_uncertain := true;
     ss_settlement := ss_settlement s; ss_trace := ss_trace s |}.

Definition set_remaining (s : StopState) : StopState :=
  {| ss_n := ss_n s; ss_clock := ss_clock s; ss_teardown := ss_teardown s; ss_hard := ss_hard s;
     ss_forced := ss_forced s; ss_disappeared := false; ss_uncertain := ss_uncertain s;
     ss_settlement := ss_settlement s; ss_trace := ss_trace s |}.

Definition set_forced (s : StopState) : StopState :=
  {| ss_n := ss_n s; ss_clock := ss_clock s; ss_teardown := ss_teardown s; ss_hard := ss_hard s;
     ss_forced := true; ss_disappeared := ss_disappeared s; ss_uncertain := ss_uncertain s;
     ss_settlement := ss_settlement s; ss_trace := ss_trace s |}.

Definition set_hard (e : OrchestratorError) (s : StopState) : StopState :=
  {| ss_n := ss_n s; ss_clock := ss_clock s; ss_teardown := ss_teardown s;
     ss_hard := record_first (ss_hard s) e; ss_forced := ss_forced s; ss_disappeared := ss_disappeared s;
     ss_uncertain := ss_uncertain s; ss_settlement := ss_settlement s; ss_trace := ss_trace s |}.

Definition set_settlement (d : Z) (s : StopState) : StopState :=
  {| ss_n := ss_n s; ss_clock := ss_clock s; ss_teardown := ss_teardown s; ss_hard := ss_hard s;
     ss_forced := ss_forced s; ss_disappeared := ss_disappeared s; ss_uncertain := ss_uncertain s;
     ss_settlement := Some d; ss_trace := ss_trace s |}.

(** [collect_owned], with what its error does; whether it succeeded. *)
Definition collect_owned (s : StopState) : bool * StopState :=
  let result := sp_collect env (ss_n s) in
  let s := called (Collected result) s in
  match result with
  | None => (true, s)
  | Some error => (false, set_uncertain (set_teardown error s))
  end.

(** [target_may_exist]. *)
Definition target_may_exist (t : Z) (s : StopState) : bool * StopState :=
  let result := sp_probe env (ss_n s) t in
  let s := called (Probed t result) s in
  match result with
  | Ok exists_ => (exists_, s)
  | Err error => (true, set_teardown error s)
  end.

(** [sleep_until]. *)
Definition sleep_until (deadline : Z) (s : StopState) : StopState :=
  {| ss_n := ss_n s; ss_clock := ss_clock s + Z.min TARGET_POLL_INTERVAL (Z.max 0 (deadline - ss_clock s));
     ss_teardown := ss_teardown s; ss_hard := ss_hard s; ss_forced := ss_forced s;
     ss_disappeared := ss_disappeared s; ss_uncertain := ss_uncertain s; ss_settlement := ss_settlement s;
     ss_trace := ss_trace s |}.

(** The loops poll at most once per interval. *)
Definition polls (deadline now : Z) : nat := Z.to_nat (Z.max 0 (deadline - now) / TARGET_POLL_INTERVAL) + 2.

(** The loop after the soft signal; [None] when it runs out of fuel. *)
Fixpoint soft_loop (fuel : nat) (t deadline : Z) (s : StopState) : option StopState :=
  if bool_decide (ss_teardown s = None) && (ss_clock s <? deadline) then
    match fuel with
    | O => None
    | S fuel =>
        let '(collected, s) := collect_owned s in
        if negb collected then Some s
        else
          let '(present, s) := target_may_exist t s in
          if negb present then Some s else soft_loop fuel t deadline (sleep_until deadline s)
    end
  else Some s.

(** The loop after the hard signal. *)
Fixpoint hard_loop (fuel : nat) (t deadline : Z) (s : StopState) : option StopState :=
  let '(_, s) := collect_owned s in
  let '(present, s) := target_may_exist t s in
  if negb present then Some (if ss_uncertain s then set_remaining s else s)
  else if deadline <=? ss_clock s then Some (set_remaining s)
  else match fuel with
       | O => None
       | S fuel => hard_loop fuel t deadline (sleep_until deadline s)
       end.

(** Whether a target that was found absent lets the loop go on. *)
Definition absent (s : StopState) : StopState := if ss_uncertain s then set_remaining s else s.

(** The result of [signal_soft] is only logged.  [signal_hard] and what its error means. *)
Definition hard_signal (t : Z) (s : StopState) : StopState :=
  let result := sp_hard env (ss_n s) t in
  let s := called (SignalledHard t result) s in
  match result with
  | None => set_forced s
  | Some error =>
      let exists_ := sp_probe env (ss_n s) t in
      let s := called (Rechecked t exists_) s in
      match exists_ with Ok false => s | _ => set_hard error s end
  end.

(** One round of the loop of [stop_inner]; it goes on while [ss_disappeared]. *)
Definition settle_target (deadline : Z) (t : Z) (s : StopState) : option StopState :=
  let '(_, s) := collect_owned s in
  let '(present, s) := target_may_exist t s in
  if negb present then Some (absent s)
  else
    let s := called (SignalledSoft t) s in
    match soft_loop (polls deadline (ss_clock s)) t deadline s with
    | None => None
    | Some s =>
        let '(present, s) := target_may_exist t s in
        if negb present then Some (absent s)
        else
          let s := hard_signal t s in
          let hard_deadline := default (ss_clock s + HARD_TERMINATION_SETTLEMENT) (ss_settlement s) in
          let s := set_settlement hard_deadline s in
          hard_loop (polls hard_deadline (ss_clock s)) t hard_deadline s
    end.

(** The loop of [stop_inner], over the targets in teardown order. *)
Fixpoint settle_targets (deadline : Z) (l : list Z) (s : StopState) : option StopState :=
  match l with
  | [] => Some s
  | t :: l =>
      match settle_target deadline t s with
      | None => None
      | Some s => if ss_disappeared s then settle_targets deadline l s else Some s
      end
  end.

End Teardown.

(** [StopTargets::teardown_order]: the components in startup order. *)
Definition teardown_order (components : list Z) (supervisor : option Z) : list Z :=
  (reverse components ++ match supervisor with Some t => [t] | None => [] end)%list.

(** [resolve]. *)
Definition resolve (first_teardown first_hard : option OrchestratorError) (targets_disappeared : bool)
    (timeout : OrchestratorError) : option OrchestratorError :=
  match first_teardown with
  | Some error => Some error
  | None => if targets_disappeared then None else Some (default timeout first_hard)
  end.

(** ** Cleanup *)

Section Cleanup.
Context {UU : UuidText}.

(** [StateLease::load]: the generation of the directory. *)
Definition lease_load (f : DirFaults) (dir : StateDir) : Result (option string) OrchestratorError :=
  match df_read f STACK_LOCK, dir !! STACK_LOCK with
  | Some e, _ => Err (OrchestratorOther e)
  | None, None => Ok None
  | None, Some value =>
      if is_empty (trim value) then Ok None
      else match uuid_parse (trim value) with
           | Some generation => Ok (Some generation)
           | None => Err InvalidStackGeneration
           end
  end.

(** [StateLease::try_claim]: the lock is published complete, and never over another. *)
Definition lease_try_claim (fault : option string) (generation : string) (dir : StateDir)
    : Result (option string) OrchestratorError * StateDir :=
  match fault, dir !! STACK_LOCK with
  | Some e, _ => (Err (OrchestratorOther e), dir)
  | None, Some _ => (Ok None, dir)
  | None, None => (Ok (Some generation), <[STACK_LOCK := generation +:+ String "010"%char ""]> dir)
  end.

(** The removals of [cleanup_generation], each attempted, the first error kept. *)
Fixpoint remove_all (f : DirFaults) (names : list string) (first : option OrchestratorError) (dir : StateDir)
    : option OrchestratorError * StateDir :=
  match names with
  | [] => (first, dir)
  | name :: names =>
      let '(result, dir) := dir_remove f name dir in
      remove_all f names match result with Ok _ => first | Err e => record_first first e end dir
  end.

Definition component_files (names : list string) : list string :=
  concat ((λ name, [pid_file name; listen_file name]) <$> names).

(** What a cleanup removes before [stack.lock], given what [stack.pid] holds. *)
Definition generation_files (owner : Result (option Z) OrchestratorError) (names : list string)
    (lease : option string) : list string :=
  (match owner with
   | Ok (Some pid) => [supervisor_ready_path pid; supervisor_attached_path pid]
   | _ => []
   end ++ component_files names
   ++ match lease with Some g => [startup_report_dir g] | None => [] end
   ++ match owner with Ok _ => [STACK_PID] | Err _ => [] end)%list.

(** [cleanup_generation]. *)
Definition cleanup_generation (f : DirFaults) (names : list string) (lease : option string) (dir : StateDir)
    : Result unit OrchestratorError * StateDir :=
  match lease_load f dir with
  | Err e => (Err e, dir)
  | Ok current =>
      if negb (bool_decide (current = lease)) then (Ok tt, dir)
      else
        let owner := pidfile_read f dir STACK_PID in
        let first := match owner with Err e => Some e | Ok _ => None end in
        match remove_all f (generation_files owner names lease) first dir with
        | (Some e, dir) => (Err e, dir)
        | (None, dir) => dir_remove f STACK_LOCK dir
        end
  end.

(** [CleanupLock]: the answer of [try_acquire] is part of [LockTry]. *)
Inductive CleanupLock :=
| LockHeld
| LockTry (acquired : Result bool OrchestratorError)
| LockRetain (error : OrchestratorError).

(** [cleanup]. *)
Definition cleanup (f : DirFaults) (names : list string) (lease : option string) (lock : CleanupLock)
    (dir : StateDir) : Result unit OrchestratorError * StateDir :=
  match lock with
  | LockHeld => cleanup_generation f names lease dir
  | LockTry (Err e) => (Err e, dir)
  | LockTry (Ok false) => (Err RuntimeStateBusy, dir)
  | LockTry (Ok true) => cleanup_generation f names lease dir
  | LockRetain error => (Err error, dir)
  end.

(** [stop_inner]; [dir] is the directory when it is cleaned up.  The outcome is
    whether a hard signal was needed. *)
Definition stop_inner (env : StopEnv) (f : DirFaults) (now timeout : Z) (names : list string)
    (components : list Z) (supervisor : option Z) (lease : option string) (lock : CleanupLock) (dir : StateDir)
    : option (Result bool ShutdownError * StateDir * list StopEvent) :=
  match settle_targets env (now + timeout) (teardown_order components supervisor) (stop_start now) with
  | None => None
  | Some s =>
      match resolve (ss_teardown s) (ss_hard s) (ss_disappeared s)
              (TerminationTimeout (HARD_TERMINATION_SETTLEMENT / 1000)) with
      | Some error => Some (Err (TeardownUncertain error), dir, ss_trace s)
      | None =>
          let '(result, dir) := cleanup f names lease lock dir in
          Some (match result with Ok _ => Ok (ss_forced s) | Err e => Err (StateCleanup e) end, dir, ss_trace s)
      end
  end.

Fixpoint read_targets (f : DirFaults) (dir : StateDir) (names : list string) : Result (list Z) OrchestratorError :=
  match names with
  | [] => Ok []
  | name :: names =>
      let? target := pidfile_read f dir (pid_file name) in
      let? targets := read_targets f dir names in
      Ok (match target with Some t => t :: targets | None => targets end)
  end.

(** A stop from outside has no children to collect. *)
Definition without_children (env : StopEnv) : StopEnv :=
  {| sp_delay := sp_delay env; sp_probe := sp_probe env; sp_hard := sp_hard env; sp_collect := λ _, None |}.

(** [stop_expected_generation], which [stop_components] calls without and
    [stop_generation] with a generation.  The transaction is held throughout; the
    processes may still write to the directory while they are stopped, so
    [dir_then] is the directory when it is cleaned up. *)
Definition stop_expected_generation (env : StopEnv) (f : DirFaults) (dir_exists : bool)
    (acquire : option OrchestratorError)
    (now timeout : Z) (names : list string) (expected : option string) (dir dir_then : StateDir)
    : option (Result bool OrchestratorError * StateDir * list StopEvent) :=
  if negb dir_exists then Some (Ok false, dir, []) else
  match acquire with
  | Some e => Some (Err e, dir, [])
  | None =>
      let found := match lease_load f dir, expected with
                   | Ok lease, _ => Ok (lease, LockHeld)
                   | Err InvalidStackGeneration, None => Ok (None, LockRetain InvalidStackGeneration)
                   | Err e, _ => Err e
                   end in
      match found with
      | Err e => Some (Err e, dir, [])
      | Ok (lease, lock) =>
          if match expected with Some g => negb (bool_decide (lease = Some g)) | None => false end
          then Some (Ok false, dir, [])
          else
            let targets := let? supervisor := pidfile_read f dir STACK_PID in
                           let? components := read_targets f dir names in
                           Ok (supervisor, components) in
            match targets with
            | Err e => Some (Err e, dir, [])
            | Ok (supervisor, components) =>
                match stop_inner (without_children env) f now timeout names components supervisor lease lock
                        dir_then with
                | None => None
                | Some (result, dir, trace) => Some (map_err into_orchestrator_error result, dir, trace)
                end
            end
      end
  end.

(** [stop_owned]: the stack of the current process; its children are collected, so
    [env] says what collecting them gives. *)
Definition stop_owned (env : StopEnv) (f : DirFaults) (now timeout : Z) (names : list string)
    (components : list Z) (lease : string) (acquired : Result bool OrchestratorError) (dir : StateDir)
    : option (Result bool ShutdownError * StateDir * list StopEvent) :=
  stop_inner env f now timeout names components None (Some lease) (LockTry acquired) dir.

End Cleanup.

(** ** The order of a teardown *)

(** The events of one target. *)
Definition about (t : Z) (e : StopEvent) : Prop :=
  match e with Collected _ => True | Probed t' _ | SignalledSoft t' | SignalledHard t' _ | Rechecked t' _ => t' = t end.

(** A call that left no doubt. *)
Definition clean (e : StopEvent) : Prop :=
  match e with Collected (Some _) | Probed _ (Err _) => False | _ => True end.

(** A teardown in order: each target is dealt with on its own, and the next one only
    after it was found absent; [b] says whether all were. *)
Inductive teardown : list Z → list StopEvent → bool → Prop :=
| teardown_done : teardown [] [] true
| teardown_gone t l events rest b :
    Forall (about t) (events ++ [Probed t (Ok false)])%list → teardown l rest b →
    teardown (t :: l) ((events ++ [Probed t (Ok false)]) ++ rest)%list b
| teardown_stuck t l events : Forall (about t) events → teardown (t :: l) events false.

(** A hard signal that was accepted. *)
Definition accepted (e : StopEvent) : bool := match e with SignalledHard _ None => true | _ => false end.

Section TeardownFacts.
Variable env : StopEnv.
Hypothesis delays : ∀ n, 0 ≤ sp_delay env n.

(** What a part of a teardown adds. *)
Definition adds (P : StopEvent → Prop) (s s' : StopState) (events : list StopEvent) : Prop :=
  ss_clock s ≤ ss_clock s' ∧
  ss_trace s' = (ss_trace s ++ events)%list ∧ Forall P events ∧
  (ss_teardown s' = None ↔ ss_teardown s = None ∧ Forall clean events) ∧
  ss_forced s' = ss_forced s || existsb accepted events.

Definition grows (t : Z) (s s' : StopState) : Prop := ∃ events, adds (about t) s s' events.

(** The last call found the target absent. *)
Definition ends (t : Z) (s s' : StopState) : Prop :=
  ∃ events, ss_trace s' = (ss_trace s ++ events ++ [Probed t (Ok false)])%list.

(** The five parts, without splitting the equivalence. *)
Ltac split_adds := refine (conj _ (conj _ (conj _ (conj _ _)))).

Lemma adds_trans P s s' s'' e e' : adds P s s' e → adds P s' s'' e' → adds P s s'' (e ++ e')%list.
Proof.
  intros (Hc & He & Ha & Hn & Hf) (Hc' & He' & Ha' & Hn' & Hf'). split_adds; [lia| | | |].
  - by rewrite He', He, app_assoc.
  - by apply Forall_app.
  - rewrite Hn', Hn, Forall_app. tauto.
  - by rewrite Hf', Hf, existsb_app, orb_assoc.
Qed.

Lemma adds_mono (P Q : StopEvent → Prop) s s' e : (∀ x, P x → Q x) → adds P s s' e → adds Q s s' e.
Proof. intros H (Hc & He & Ha & Hn & Hf). split_adds; eauto using Forall_impl. Qed.

(** Steps that are not calls. *)
Lemma adds_nil P s s' :
  ss_clock s ≤ ss_clock s' → ss_trace s' = ss_trace s → ss_teardown s' = ss_teardown s →
  ss_forced s' = ss_forced s → adds P s s' [].
Proof. intros Hc Ht Hd Hf. split_adds; [done|by rewrite app_nil_r|done| |by rewrite Hf, orb_false_r].
  rewrite Hd. split; [done|tauto]. Qed.

Lemma grows_refl t s : grows t s s.
Proof. exists []. by apply adds_nil. Qed.

Lemma grows_trans t s s' s'' : grows t s s' → grows t s' s'' → grows t s s''.
Proof. intros [e H] [e' H']. exists (e ++ e')%list. by eapply adds_trans. Qed.

Lemma grows_ends t s s' s'' : grows t s s' → ends t s' s'' → ends t s s''.
Proof. intros [e (_ & He & _)] [e' H']. exists (e ++ e')%list. by rewrite H', He, <- !app_assoc. Qed.

Lemma same_grows t s s' :
  ss_clock s ≤ ss_clock s' → ss_trace s' = ss_trace s → ss_teardown s' = ss_teardown s →
  ss_forced s' = ss_forced s → grows t s s'.
Proof. intros. exists []. by apply adds_nil. Qed.

Lemma called_grows t e s : about t e → clean e → accepted e = false → grows t s (called env e s).
Proof.
  intros Ha Hc Hx. exists [e]. split_adds; cbn.
  - pose proof (delays (ss_n s)). lia.
  - done.
  - by constructor.
  - rewrite Forall_singleton. tauto.
  - by rewrite Hx, !orb_false_r.
Qed.

(** A call whose error is recorded. *)
Lemma called_error_grows t e error s s' :
  about t e → ¬ clean e → accepted e = false → ss_clock s' = ss_clock (called env e s) →
  ss_trace s' = (ss_trace s ++ [e])%list → ss_teardown s' = record_first (ss_teardown s) error →
  ss_forced s' = ss_forced s → grows t s s'.
Proof.
  intros Ha Hcl Hx Hc Ht Hr Hf. exists [e]. split_adds.
  - rewrite Hc. cbn. pose proof (delays (ss_n s)). lia.
  - done.
  - by constructor.
  - rewrite Hr, Forall_singleton. destruct (ss_teardown s); cbn; split; [done|by intros [? ?]|done|by intros [? ?]].
  - cbn. by rewrite Hf, Hx, !orb_false_r.
Qed.

Lemma collect_grows t s b s' : collect_owned env s = (b, s') → grows t s s'.
Proof.
  unfold collect_owned. destruct (sp_collect env (ss_n s)) as [error|] eqn:E; intros [= <- <-].
  - apply (called_error_grows t (Collected (Some error)) error); cbn; tauto || done.
  - by apply called_grows.
Qed.

Lemma probe_grows t s b s' :
  target_may_exist env t s = (b, s') → grows t s s' ∧ (b = false → ends t s s').
Proof.
  unfold target_may_exist. destruct (sp_probe env (ss_n s) t) as [x|error] eqn:E; intros [= <- <-].
  - split; [by apply called_grows|]. intros ->. by exists [].
  - split; [|done]. apply (called_error_grows t (Probed t (Err error)) error); cbn; tauto || done.
Qed.

Lemma sleep_grows t deadline s : grows t s (sleep_until deadline s).
Proof. apply same_grows; try done. cbn. unfold TARGET_POLL_INTERVAL. lia. Qed.

Lemma absent_grows t s s' : grows t s s' → grows t s (absent s').
Proof. intros H. unfold absent. destruct (ss_uncertain s'); [|done]. eapply grows_trans; [done|by apply same_grows]. Qed.

Lemma absent_ends t s s' : ends t s s' → ss_disappeared (absent s') = true → ends t s (absent s').
Proof. unfold absent. by destruct (ss_uncertain s'). Qed.

Lemma grows_clock t s s' : grows t s s' → ss_clock s ≤ ss_clock s'.
Proof. by intros [e (Hc & _)]. Qed.

(** Enough polls to reach the deadline. *)
Definition enough (fuel : nat) (deadline clock : Z) : Prop :=
  deadline ≤ clock ∨ (deadline - clock) / TARGET_POLL_INTERVAL + 1 ≤ Z.of_nat fuel.

Lemma polls_enough deadline now : enough (polls deadline now) deadline now.
Proof.
  unfold enough, polls. destruct (Z.le_gt_cases deadline now) as [|H]; [by left|right].
  rewrite Z.max_r by lia. unfold TARGET_POLL_INTERVAL.
  pose proof (Z.div_pos (deadline - now) 50 ltac:(lia) ltac:(lia)).
  rewrite Nat2Z.inj_add, Z2Nat.id by lia. lia.
Qed.

Lemma enough_sleep fuel deadline clock s :
  clock < deadline → clock ≤ ss_clock s → enough (S fuel) deadline clock →
  enough fuel deadline (ss_clock (sleep_until deadline s)).
Proof.
  unfold enough, sleep_until, TARGET_POLL_INTERVAL. cbn [ss_clock]. intros Hlt Hle [|H]; [lia|].
  destruct (Z.le_gt_cases (deadline - ss_clock s) 50); [left; lia|right].
  rewrite Z.min_l by lia.
  assert ((deadline - (ss_clock s + 50)) / 50 ≤ (deadline - clock) / 50 - 1); [|lia].
  replace ((deadline - clock) / 50 - 1) with ((deadline - clock - 50) / 50)
    by (replace (deadline - clock - 50) with (deadline - clock + -1 * 50) by lia; rewrite Z.div_add; lia).
  apply Z.div_le_mono; lia.
Qed.

Lemma soft_loop_ends t deadline fuel : ∀ s,
  enough fuel deadline (ss_clock s) →
  ∃ s', soft_loop env fuel t deadline s = Some s' ∧ grows t s s'.
Proof.
  induction fuel as [|fuel IH]; intros s He; cbn [soft_loop];
    destruct (bool_decide (ss_teardown s = None)); cbn [andb]; try (eauto using grows_refl);
    destruct (Z.ltb_spec (ss_clock s) deadline) as [Hlt|]; try (eauto using grows_refl).
  { destruct He as [|H]; [lia|]. unfold TARGET_POLL_INTERVAL in H.
    pose proof (Z.div_pos (deadline - ss_clock s) 50 ltac:(lia) ltac:(lia)). lia. }
  destruct (collect_owned env s) as [collected s1] eqn:Ec. pose proof (collect_grows t _ _ _ Ec) as H1.
  destruct collected; cbn [negb]; [|eauto].
  destruct (target_may_exist env t s1) as [present s2] eqn:Ep. apply probe_grows in Ep as [H2 _].
  pose proof (grows_trans _ _ _ _ H1 H2) as H12. destruct present; cbn [negb]; [|eauto].
  destruct (IH (sleep_until deadline s2)) as (s3 & -> & H3).
  { apply (enough_sleep fuel deadline (ss_clock s)); [done|by eapply grows_clock|done]. }
  exists s3. split; [done|]. eapply grows_trans; [done|]. eapply grows_trans; [apply sleep_grows|done].
Qed.

Lemma hard_loop_ends t deadline fuel : ∀ s,
  enough fuel deadline (ss_clock s) →
  ∃ s', hard_loop env fuel t deadline s = Some s' ∧ grows t s s' ∧ (ss_disappeared s' = true → ends t s s').
Proof.
  induction fuel as [|fuel IH]; intros s He; cbn [hard_loop];
    destruct (collect_owned env s) as [collected s1] eqn:Ec; pose proof (collect_grows t _ _ _ Ec) as H1;
    destruct (target_may_exist env t s1) as [present s2] eqn:Ep; apply probe_grows in Ep as [H2 Hf];
    pose proof (grows_trans _ _ _ _ H1 H2) as H12; pose proof (grows_clock _ _ _ H12) as Hc;
    (destruct present; cbn [negb];
      [|exists (absent s2); split_and!; [done|by apply absent_grows|apply absent_ends; eauto using grows_ends]]);
    (destruct (Z.leb_spec deadline (ss_clock s2)) as [|Hlt];
      [eexists; split_and!; [done|eapply grows_trans; [done|by apply same_grows]|done]|]).
  - destruct He as [|H]; [lia|]. unfold TARGET_POLL_INTERVAL in H.
    pose proof (Z.div_pos (deadline - ss_clock s) 50 ltac:(lia) ltac:(lia)). lia.
  - destruct (IH (sleep_until deadline s2)) as (s3 & -> & H3 & Hs3).
    { apply (enough_sleep fuel deadline (ss_clock s)); [lia|done|done]. }
    assert (grows t s (sleep_until deadline s2)) by (eapply grows_trans; [done|apply sleep_grows]).
    exists s3. split_and!; [done|by eapply grows_trans|]. eauto using grows_ends.
Qed.

Lemma hard_signal_grows t s : grows t s (hard_signal env t s).
Proof.
  unfold hard_signal. destruct (sp_hard env (ss_n s) t) as [error|].
  - set (s1 := called env (SignalledHard t (Some error)) s).
    eapply (grows_trans _ _ s1); [by apply called_grows|]. set (s2 := called env (Rechecked t _) s1).
    assert (grows t s1 s2) by by apply called_grows.
    destruct (sp_probe env (ss_n s1) t) as [[]|]; [|done|]; (eapply grows_trans; [done|by apply same_grows]).
  - exists [SignalledHard t None]. split_adds; cbn.
    + pose proof (delays (ss_n s)). lia.
    + done.
    + by constructor.
    + rewrite Forall_singleton. cbn. tauto.
    + by rewrite orb_true_r.
Qed.

Lemma settle_target_ends deadline t s :
  ∃ s', settle_target env deadline t s = Some s' ∧ grows t s s' ∧ (ss_disappeared s' = true → ends t s s').
Proof.
  unfold settle_target. destruct (collect_owned env s) as [c s1] eqn:Ec. pose proof (collect_grows t _ _ _ Ec) as H1.
  destruct (target_may_exist env t s1) as [present s2] eqn:Ep. apply probe_grows in Ep as [H2 Hf].
  pose proof (grows_trans _ _ _ _ H1 H2) as H12. destruct present; cbn [negb].
  2:{ exists (absent s2). split_and!; [done|by apply absent_grows|apply absent_ends; eauto using grows_ends]. }
  set (s3 := called env (SignalledSoft t) s2).
  assert (grows t s s3) as H3 by (eapply grows_trans; [done|by apply called_grows]).
  destruct (soft_loop_ends t deadline (polls deadline (ss_clock s3)) s3) as (s4 & -> & H4); [apply polls_enough|].
  pose proof (grows_trans _ _ _ _ H3 H4) as H34.
  destruct (target_may_exist env t s4) as [present s5] eqn:Ep. apply probe_grows in Ep as [H5 Hf5].
  pose proof (grows_trans _ _ _ _ H34 H5) as H35. destruct present; cbn [negb].
  2:{ exists (absent s5). split_and!; [done|by apply absent_grows|apply absent_ends; eauto using grows_ends]. }
  pose proof (hard_signal_grows t s5) as H6. set (s6 := hard_signal env t s5) in *.
  set (d := default _ _). assert (grows t s (set_settlement d s6)) as H7.
  { eapply grows_trans; [done|]. eapply grows_trans; [done|]. by apply same_grows. }
  destruct (hard_loop_ends t d (polls d (ss_clock (set_settlement d s6))) (set_settlement d s6))
    as (s8 & H8 & H9 & H10); [apply polls_enough|].
  exists s8. split_and!; [done|by eapply grows_trans|]. eauto using grows_ends.
Qed.

Lemma settle_targets_ends deadline l : ∀ s, ss_disappeared s = true →
  ∃ s' events, settle_targets env deadline l s = Some s' ∧ adds (λ _, True) s s' events ∧
    teardown l events (ss_disappeared s').
Proof.
  induction l as [|t l IH]; intros s Hs; cbn [settle_targets].
  { exists s, []. rewrite Hs. split_and!; [done|by apply adds_nil|constructor]. }
  destruct (settle_target_ends deadline t s) as (s1 & -> & [e He] & Hd).
  pose proof (adds_mono _ (λ _, True) _ _ _ ltac:(done) He) as Hany.
  destruct (ss_disappeared s1) eqn:E.
  - destruct (Hd eq_refl) as [e' He']. destruct He as (_ & He & Ha & _). rewrite He in He'.
    apply app_inv_head in He' as ->.
    destruct (IH s1 E) as (s2 & e2 & -> & H2 & Ht). exists s2, ((e' ++ [Probed t (Ok false)]) ++ e2)%list.
    split_and!; [done|by eapply adds_trans|by constructor].
  - exists s1, e. rewrite E. split_and!; [done..|]. apply teardown_stuck. apply He.
Qed.

End TeardownFacts.

(** ** Cleaning up *)

Section CleanupFacts.
Context {UU : UuidText}.

Lemma remove_all_spec f names : ∀ first dir first' dir',
  remove_all f names first dir = (first', dir') →
  (∀ n, dir' !! n = if bool_decide (n ∈ names ∧ df_remove f n = None) then None else dir !! n) ∧
  match first' with
  | None => first = None ∧ ∀ n, n ∈ names → df_remove f n = None
  | Some e => first = Some e ∨ ∃ n m, n ∈ names ∧ df_remove f n = Some m ∧ e = OrchestratorOther m
  end.
Proof.
  induction names as [|name names IH]; intros first dir first' dir'; cbn [remove_all].
  { intros [= -> ->]. split; [intros n; by rewrite bool_decide_false by set_solver|].
    destruct first'; [by left|]. split; [done|set_solver]. }
  unfold dir_remove. destruct (df_remove f name) as [e|] eqn:Ef; intros [Hl Hf]%IH.
  - split.
    + intros n. rewrite Hl. apply (f_equal (λ b : bool, if b then None else dir !! n)), bool_decide_ext.
      rewrite elem_of_cons. split; [tauto|]. intros [[->|?] ?]; [congruence|done].
    + destruct first' as [e'|].
      2:{ destruct Hf as [Hf _]. by destruct first. }
      destruct Hf as [Hf|(n & m & Hn & Hm)].
      * destruct first; [by left|right]. injection Hf as <-. exists name, e.
        split_and!; [apply elem_of_cons; by left|done|done].
      * right. exists n, m. split_and!; [apply elem_of_cons; by right|apply Hm..].
  - split.
    + intros n. rewrite Hl. destruct (decide (n = name)) as [->|Hne].
      * rewrite lookup_delete_eq, (bool_decide_true (name ∈ name :: names ∧ _))
          by (split; [apply elem_of_cons; by left|done]).
        by case_bool_decide.
      * rewrite lookup_delete_ne by done. apply (f_equal (λ b : bool, if b then None else dir !! n)), bool_decide_ext.
        rewrite elem_of_cons. naive_solver.
    + destruct first' as [e'|].
      { destruct Hf as [Hf|(n & m & Hn & Hm)]; [by left|right]. exists n, m.
        split_and!; [apply elem_of_cons; by right|apply Hm..]. }
      destruct Hf as [-> Hf]. split; [done|].
      intros n [->|Hn]%elem_of_cons; [done|by apply Hf].
Qed.

Lemma stack_lock_apart owner names lease : STACK_LOCK ∉ generation_files owner names lease.
Proof.
  assert (∀ p q, ends_with q STACK_LOCK = false → STACK_LOCK ≠ p +:+ q) as He.
  { intros p q Hq Heq. assert (ends_with q STACK_LOCK = true) by (apply ends_with_spec; eauto). congruence. }
  unfold generation_files. rewrite !not_elem_of_app. split_and!.
  - destruct owner as [[pid|]|]; try set_solver.
    rewrite !not_elem_of_cons. unfold supervisor_ready_path, supervisor_attached_path. split_and!; [| |set_solver].
    + rewrite str_app_assoc. by apply He.
    + rewrite str_app_assoc. by apply He.
  - unfold component_files. rewrite list_elem_of_In, in_concat. intros (l & Hl & Hin).
    apply list_elem_of_In, list_elem_of_fmap in Hl as (name & -> & _).
    destruct Hin as [H|[H|[]]]; symmetry in H; by apply He in H.
  - destruct lease; [|set_solver]. rewrite list_elem_of_singleton. done.
  - destruct owner; set_solver.
Qed.

(** The files of a generation beside its lock, by name: two for each component,
    two for the supervisor that [stack.pid] names, the startup reports, and
    [stack.pid] itself, unless it cannot be read. *)
Inductive file_of (f : DirFaults) (names : list string) (lease : option string) (dir : StateDir) : string → Prop :=
| file_pid name : name ∈ names → file_of f names lease dir (name +:+ ".pid")
| file_listen name : name ∈ names → file_of f names lease dir (name +:+ ".listen")
| file_ready pid : pidfile_read f dir "stack.pid" = Ok (Some pid) →
    file_of f names lease dir ("stack." +:+ display_uint pid +:+ ".ready")
| file_attached pid : pidfile_read f dir "stack.pid" = Ok (Some pid) →
    file_of f names lease dir ("stack." +:+ display_uint pid +:+ ".attached")
| file_startup g : lease = Some g → file_of f names lease dir (".startup-" +:+ g)
| file_stack_pid owner : pidfile_read f dir "stack.pid" = Ok owner → file_of f names lease dir "stack.pid".

Lemma generation_files_spec f names lease dir n :
  n ∈ generation_files (pidfile_read f dir STACK_PID) names lease ↔ file_of f names lease dir n.
Proof.
  assert (∀ n, n ∈ component_files names ↔ ∃ name, name ∈ names ∧ (n = pid_file name ∨ n = listen_file name)) as Hc.
  { intros m. unfold component_files. rewrite list_elem_of_In, in_concat. split.
    - intros (l & Hl & Hin). apply list_elem_of_In, list_elem_of_fmap in Hl as (name & -> & Hname).
      exists name. split; [done|]. by destruct Hin as [H|[H|[]]]; [left|right].
    - intros (name & Hname & Hm). exists [pid_file name; listen_file name].
      split; [apply list_elem_of_In, list_elem_of_fmap; eauto|]. destruct Hm as [->| ->]; cbn; auto. }
  unfold generation_files. rewrite !elem_of_app, Hc. split.
  - intros [H|[(name & Hname & [->| ->])|[H|H]]]; [|by constructor..| |].
    + destruct (pidfile_read f dir STACK_PID) as [[pid|]|] eqn:E; [|set_solver..].
      apply list_elem_of_In in H as [<-|[<-|[]]]; by constructor.
    + destruct lease; [|set_solver]. apply list_elem_of_singleton in H as ->. by constructor.
    + destruct (pidfile_read f dir STACK_PID) as [owner|] eqn:E; [|set_solver].
      apply list_elem_of_singleton in H as ->. by apply (file_stack_pid _ _ _ _ owner).
  - destruct 1 as [name Hn|name Hn|pid H|pid H|g ->|owner H].
    + right; left. eauto.
    + right; left. eauto.
    + left. fold STACK_PID in H. rewrite H. cbn. set_solver.
    + left. fold STACK_PID in H. rewrite H. cbn. set_solver.
    + right; right; left. set_solver.
    + right; right; right. fold STACK_PID in H. rewrite H. set_solver.
Qed.

(** The files of the generation and its lock are gone, and nothing else. *)
Definition cleaned (f : DirFaults) (names : list string) (lease : option string) (dir dir' : StateDir) : Prop :=
  (∀ n, n = "stack.lock" ∨ file_of f names lease dir n → dir' !! n = None) ∧
  (∀ n, n ≠ "stack.lock" → ¬ file_of f names lease dir n → dir' !! n = dir !! n).

(** The files of the generation that can be removed are gone; the lock is still
    there, and so is everything else. *)
Definition retained (f : DirFaults) (names : list string) (lease : option string) (dir dir' : StateDir) : Prop :=
  (∀ n, file_of f names lease dir n → df_remove f n = None → dir' !! n = None) ∧
  (∀ n, ¬ (file_of f names lease dir n ∧ df_remove f n = None) → dir' !! n = dir !! n) ∧
  dir' !! "stack.lock" = dir !! "stack.lock".

(** Why a cleanup keeps the lock: [stack.pid] cannot be read, or a file of the
    generation or the lock itself cannot be removed. *)
Definition cannot_clean (f : DirFaults) (names : list string) (lease : option string) (dir : StateDir)
    (e : OrchestratorError) : Prop :=
  pidfile_read f dir "stack.pid" = Err e ∨
  ∃ n m, (n = "stack.lock" ∨ file_of f names lease dir n) ∧ df_remove f n = Some m ∧ e = OrchestratorOther m.

(** The cleanup may go ahead. *)
Definition granted (lock : CleanupLock) : Prop := lock = LockHeld ∨ lock = LockTry (Ok true).

(** What keeps a cleanup from starting. *)
Definition refused (f : DirFaults) (lock : CleanupLock) (dir : StateDir) (e : OrchestratorError) : Prop :=
  lock = LockRetain e ∨ lock = LockTry (Err e) ∨ (lock = LockTry (Ok false) ∧ e = RuntimeStateBusy) ∨
  (granted lock ∧ lease_load f dir = Err e).

(** The directory belongs to another generation. *)
Definition replaced (f : DirFaults) (lease : option string) (dir : StateDir) : Prop :=
  ∃ other, lease_load f dir = Ok other ∧ other ≠ lease.

(** The three ends of a cleanup. *)
Definition cleanup_outcome (f : DirFaults) (names : list string) (lease : option string) (lock : CleanupLock)
    (dir : StateDir) (result : Result unit OrchestratorError) (dir' : StateDir) : Prop :=
  match result with
  | Ok _ =>
      granted lock ∧
      ((lease_load f dir = Ok lease ∧ cleaned f names lease dir dir') ∨ (replaced f lease dir ∧ dir' = dir))
  | Err e =>
      (refused f lock dir e ∧ dir' = dir) ∨
      (granted lock ∧ lease_load f dir = Ok lease ∧ cannot_clean f names lease dir e ∧
       retained f names lease dir dir')
  end.

Lemma remove_generation_spec f names lease dir :
  let owner := pidfile_read f dir STACK_PID in
  let '(first, d) := remove_all f (generation_files owner names lease)
                       match owner with Err e => Some e | Ok _ => None end dir in
  retained f names lease dir d ∧
  match first with
  | Some e => cannot_clean f names lease dir e
  | None => ∀ n, file_of f names lease dir n → df_remove f n = None
  end.
Proof.
  cbn zeta. pose proof (stack_lock_apart (pidfile_read f dir STACK_PID) names lease) as Hapart.
  destruct (remove_all _ _ _ dir) as [first d] eqn:Er. apply remove_all_spec in Er as [Hl Hf]. split.
  - split_and!.
    + intros n Hn Hr. rewrite Hl, bool_decide_true; [done|]. by rewrite generation_files_spec.
    + intros n Hn. rewrite Hl, bool_decide_false; [done|]. by rewrite generation_files_spec.
    + rewrite Hl, bool_decide_false; [done|]. tauto.
  - destruct first as [e|].
    + destruct Hf as [Ho|(n & m & Hn & Hf & ->)].
      * left. fold STACK_PID. destruct (pidfile_read f dir STACK_PID); by simplify_eq.
      * right. exists n, m. split_and!; [right; by apply generation_files_spec|done|done].
    + intros n Hn. apply Hf. by apply generation_files_spec.
Qed.

Lemma cleanup_generation_spec f names lease lock dir result dir' :
  granted lock → cleanup_generation f names lease dir = (result, dir') →
  cleanup_outcome f names lease lock dir result dir'.
Proof.
  intros Hg. unfold cleanup_generation, cleanup_outcome.
  destruct (lease_load f dir) as [current|e] eqn:El.
  2:{ intros [= <- <-]. left. split; [|done]. by repeat right. }
  destruct (bool_decide_reflect (current = lease)) as [->|Hne]; cbn [negb].
  2:{ intros [= <- <-]. split; [done|]. right. split; [by exists current|done]. }
  pose proof (remove_generation_spec f names lease dir) as Hr. cbn zeta in Hr.
  destruct (remove_all _ _ _ dir) as [[e|] d]; destruct Hr as [Hr Hf].
  { intros [= <- <-]. by right. }
  unfold dir_remove. destruct (df_remove f STACK_LOCK) as [m|] eqn:Em; intros [= <- <-].
  { right. split_and!; try done. right. exists STACK_LOCK, m. auto. }
  split; [done|]. left. split; [done|]. destruct Hr as (Hgone & Hkept & _). split.
  - intros n [->|Hn]; [apply lookup_delete_eq|]. apply lookup_delete_None. right. apply Hgone; [done|by apply Hf].
  - intros n Hne Hn. rewrite lookup_delete_ne by done. apply Hkept. tauto.
Qed.

Lemma cleanup_spec f names lease lock dir result dir' :
  cleanup f names lease lock dir = (result, dir') → cleanup_outcome f names lease lock dir result dir'.
Proof.
  destruct lock as [|[[]|]|]; cbn [cleanup].
  1: apply cleanup_generation_spec; by left.
  1: apply cleanup_generation_spec; by right.
  all: intros [= <- <-]; left; split; [|done]; unfold refused; auto.
Qed.

(** [C38] A teardown always ends, and is orderly: each process is dealt with on its
    own, and the next one only after it was found absent, dependents before what
    they depend on.  Unless every process was found absent and no collection and no
    deciding probe failed, the teardown is reported uncertain and the directory is
    untouched.  Otherwise the cleanup reports success when it removed exactly the
    files of the generation that was stopped and its lock, or found the directory
    another generation's and left it as it is; it is refused, with the directory
    untouched, when the lock is to be kept, was not acquired or names no
    generation; and when [stack.pid] cannot be read or a removal fails it reports
    that, having removed the other files of the generation and kept the lock. *)
Theorem stop_orderly env f now timeout names components supervisor lease lock dir :
  (∀ n, 0 ≤ sp_delay env n) →
  ∃ result dir' trace gone,
    stop_inner env f now timeout names components supervisor lease lock dir = Some (result, dir', trace) ∧
    teardown (teardown_order components supervisor) trace gone ∧
    match result with
    | Err (TeardownUncertain _) => dir' = dir ∧ ¬ (gone = true ∧ Forall clean trace)
    | Err (StateCleanup e) =>
        gone = true ∧ Forall clean trace ∧
        ((refused f lock dir e ∧ dir' = dir) ∨
         (granted lock ∧ lease_load f dir = Ok lease ∧ cannot_clean f names lease dir e ∧
          retained f names lease dir dir'))
    | Ok forced =>
        gone = true ∧ Forall clean trace ∧ forced = existsb accepted trace ∧ granted lock ∧
        ((lease_load f dir = Ok lease ∧ cleaned f names lease dir dir') ∨ (replaced f lease dir ∧ dir' = dir))
    end.
Proof.
  intros Hd. destruct (settle_targets_ends env Hd (now + timeout) (teardown_order components supervisor)
    (stop_start now) eq_refl) as (s & trace & Hs & (_ & Ht & _ & Hc & Hf) & Hord).
  cbn in Ht, Hc, Hf. unfold stop_inner. rewrite Hs, Ht. unfold resolve.
  destruct (ss_teardown s) as [error|].
  { exists (Err (TeardownUncertain error)), dir, trace, (ss_disappeared s). split; [done|]. split; [done|].
    split; [done|]. intros [_ H]. by assert (Some error = None) by by apply Hc. }
  destruct (ss_disappeared s).
  2:{ eexists (Err (TeardownUncertain _)), dir, trace, false. split; [done|]. split; [done|]. by split; [|intros [? _]]. }
  assert (Forall clean trace) by by apply Hc.
  destruct (cleanup f names lease lock dir) as [result dir'] eqn:Eu. apply cleanup_spec in Eu.
  exists (match result with Ok _ => Ok (ss_forced s) | Err e => Err (StateCleanup e) end), dir', trace, true.
  split; [done|]. split; [done|]. destruct result; cbn in Eu; split_and!; try done; apply Eu.
Qed.

End CleanupFacts.

(** ** Fencing and files *)

Section Fencing.
Context {UU : UuidText}.

(** A rollback of a generation that does not own the directory touches nothing. *)
Theorem stop_generation_fenced env f dir_exists acquire now timeout names g dir dir_then :
  lease_load f dir ≠ Ok (Some g) →
  ∃ result, stop_expected_generation env f dir_exists acquire now timeout names (Some g) dir dir_then =
    Some (result, dir, []).
Proof.
  intros H. unfold stop_expected_generation. destruct dir_exists; cbn [negb]; [|eauto].
  destruct acquire as [e|]; [eauto|]. destruct (lease_load f dir) as [lease|e]; [|destruct e; eauto].
  rewrite bool_decide_false by congruence. cbn [negb]. eauto.
Qed.

(** A generation claims only a free directory, and is then the one that is loaded. *)
Theorem claim_exclusive f g dir result dir' :
  df_read f STACK_LOCK = None → uuid_parse g = Some g → trim (g +:+ String "010"%char "") = g → g ≠ "" →
  lease_try_claim None g dir = (result, dir') →
  (is_Some (dir !! STACK_LOCK) ∧ result = Ok None ∧ dir' = dir) ∨
  (dir !! STACK_LOCK = None ∧ result = Ok (Some g) ∧ lease_load f dir' = Ok (Some g)).
Proof.
  intros Hf Hu Ht Hg. unfold lease_try_claim. destruct (dir !! STACK_LOCK) eqn:E; intros [= <- <-]; [left; eauto|right].
  split_and!; [done..|]. unfold lease_load. rewrite Hf, lookup_insert_eq, Ht, Hu.
  unfold is_empty. by rewrite bool_decide_false.
Qed.

End Fencing.

(** What was written is what is read, and what is read was written. *)
Theorem pidfile_roundtrip f name pid dir :
  df_read f name = None → 0 < pid ≤ 2 ^ 31 - 1 →
  pidfile_read f (pidfile_write None None name pid dir).2 name = Ok (Some pid).
Proof.
  intros Hf Hp. unfold pidfile_read, pidfile_write. cbn [snd]. rewrite Hf, lookup_insert_eq.
  assert (strip_suffix (String "010"%char "") (pid_text pid) = Some (display_uint pid)) as ->
    by by apply strip_suffix_Some.
  cbn [default from_option id]. unfold parse_u32. rewrite parse_display by (unfold u32_max; lia). cbn. unfold user_process_id.
  destruct (Z.ltb_spec 0 pid); [|lia]. destruct (Z.leb_spec pid (2 ^ 31 - 1)); [|lia]. cbn [andb].
  by rewrite bool_decide_true.
Qed.

Theorem pidfile_read_canonical f dir name pid :
  pidfile_read f dir name = Ok (Some pid) → dir !! name = Some (pid_text pid) ∧ 0 < pid ≤ 2 ^ 31 - 1.
Proof.
  unfold pidfile_read. destruct (df_read f name); [done|]. destruct (dir !! name) as [text|]; [|done].
  destruct (result_ok _ ≫= user_process_id) as [p|] eqn:E; [|done].
  case_bool_decide as Ht; [|done]. intros [= <-]. split; [by rewrite Ht|].
  destruct (result_ok _) as [raw|]; [|done]. cbn in E. unfold user_process_id in E.
  destruct (Z.ltb_spec 0 raw); [|done]. destruct (Z.leb_spec raw (2 ^ 31 - 1)); cbn in E; [|done]. by simplify_eq.
Qed.

(** The names of a topology are those given, safe, and distinct without regard to case. *)
Theorem topology_distinct `{Lowercase} names l :
  topology_new names = Ok l →
  l = names ∧ NoDup (to_lowercase <$> names) ∧ Forall (λ n, is_safe_name n = true) names.
Proof.
  unfold topology_new. assert (∀ names seen l, topology_from seen names = Ok l →
    l = names ∧ NoDup (to_lowercase <$> names) ∧ Forall (λ n, is_safe_name n = true) names ∧
    ∀ n, n ∈ to_lowercase <$> names → n ∉ seen) as Hg.
  2:{ intros Ht. apply Hg in Ht. tauto. }
  clear names l. induction names as [|name names IH]; intros seen l; cbn [topology_from].
  { intros [= <-]. split_and!; [done|constructor..|]. set_solver. }
  destruct (is_safe_name name) eqn:Es; cbn [negb]; [|done]. case_bool_decide as Hin; [done|].
  destruct (topology_from _ names) as [rest|] eqn:Er; [|done]. intros [= <-].
  apply IH in Er as (-> & Hnd & Hs & Hd). cbn [fmap list_fmap]. split_and!; [done| |by constructor|].
  - constructor; [|done]. intros Hn. apply Hd in Hn. set_solver.
  - intros n [->|Hn]%elem_of_cons; [done|]. apply Hd in Hn. set_solver.
Qed.

(** ** Examples *)

Module Samples.

(** UUIDs are the texts [g1] and [g2]. *)
#[local] Instance sample_uuid : UuidText := λ s, if bool_decide (s ∈ ["g1"; "g2"]) then Some s else None.

#[local] Instance sample_lowercase : Lowercase := to_ascii_lowercase.

Definition no_faults : DirFaults := {| df_read := λ _, None; df_remove := λ _, None |}.

Definition nl : string := String "010"%char "".

(** A running stack, beside a file that is not its own. *)
Definition running : StateDir :=
  list_to_map [("stack.lock", "g1" +:+ nl); ("stack.pid", "5" +:+ nl); ("stack.5.ready", "");
               ("authority.pid", "10" +:+ nl); ("sidecar.pid", "20" +:+ nl); ("sidecar.listen", "x");
               ("notes.txt", "keep")].

Definition names : list string := ["authority"; "sidecar"].

(** The sidecar, 20, outlives the grace that all share, so the authority, 10, gets
    none; the supervisor, 5, has exited. *)
Definition stubborn : StopEnv :=
  {| sp_delay := λ _, 5;
     sp_probe := λ n t, Ok (if t =? 20 then (Nat.ltb n 10) else if t =? 10 then (Nat.ltb n 17) else false);
     sp_hard := λ _ _, None; sp_collect := λ _, None |}.

Example stubborn_stop :
  stop_expected_generation stubborn no_faults true None 0 60 names None running running =
    Some (Ok true, {["notes.txt" := "keep"]},
      [Collected None; Probed 20 (Ok true); SignalledSoft 20; Collected None; Probed 20 (Ok true);
       Probed 20 (Ok true); SignalledHard 20 None; Collected None; Probed 20 (Ok true);
       Collected None; Probed 20 (Ok false);
       Collected None; Probed 10 (Ok true); SignalledSoft 10; Probed 10 (Ok true);
       SignalledHard 10 None; Collected None; Probed 10 (Ok false); Collected None; Probed 5 (Ok false)]).
Proof. vm_compute. reflexivity. Qed.

(** A probe that fails leaves every file, even when the process is then gone. *)
Example uncertain_stop :
  let env := {| sp_delay := λ _, 5;
                sp_probe := λ n t, if Nat.eqb n 1 then Err (OrchestratorOther "EIO") else Ok false;
                sp_hard := λ _ _, None; sp_collect := λ _, None |} in
  stop_inner env no_faults 0 60 names [10; 20] (Some 5) (Some "g1") LockHeld running =
    Some (Err (TeardownUncertain (OrchestratorOther "EIO")), running,
      [Collected None; Probed 20 (Err (OrchestratorOther "EIO")); SignalledSoft 20; Probed 20 (Ok false);
       Collected None; Probed 10 (Ok false); Collected None; Probed 5 (Ok false)]).
Proof. vm_compute. reflexivity. Qed.

(** A file that cannot be removed keeps [stack.lock]. *)
Example partial_cleanup :
  let f := {| df_read := λ _, None;
              df_remove := λ n, if bool_decide (n = "sidecar.pid") then Some "EPERM" else None |} in
  let '(result, dir) := cleanup f names (Some "g1") (LockTry (Ok true)) running in
  result = Err (OrchestratorOther "EPERM") ∧ dir !! STACK_LOCK = Some ("g1" +:+ nl) ∧ dir !! "sidecar.listen" = None.
Proof. vm_compute. repeat split. Qed.

(** A stack that was replaced is left alone; a malformed generation is stopped, and kept. *)
Example stale_rollback :
  stop_expected_generation stubborn no_faults true None 0 60 names (Some "g2") running running =
    Some (Ok false, running, []).
Proof. vm_compute. reflexivity. Qed.

Example malformed_generation :
  let bad := <["stack.lock" := "?"]> running in
  (λ r, (r.1.1, bool_decide (r.1.2 = bad), length r.2)) <$>
    stop_expected_generation stubborn no_faults true None 0 60 names None bad bad =
    Some (Err InvalidStackGeneration, true, 20%nat).
Proof. vm_compute. reflexivity. Qed.

(** A component may be called [stack], although its pid file is the supervisor's. *)
Example component_named_stack :
  topology_new ["stack"; "sidecar"] = Ok ["stack"; "sidecar"] ∧ pid_file "stack" = STACK_PID.
Proof. by vm_compute. Qed.

Example topology_names :
  topology_new ["Sidecar"; "sidecar"] = Err (DuplicateComponentName "sidecar") ∧
  topology_new ["com1.x"] = Err (InvalidComponentName "com1.x") ∧
  topology_new ["a/b"] = Err (InvalidComponentName "a/b").
Proof. by vm_compute. Qed.

(** [stop_orderly] for the stack above. *)
Lemma stop_orderly_witness :
  ∃ result dir' trace gone,
    stop_inner stubborn no_faults 0 60 names [10; 20] (Some 5) (Some "g1") LockHeld running =
      Some (result, dir', trace) ∧
    teardown [20; 10; 5] trace gone ∧ result = Ok (existsb accepted trace) ∧ gone = true ∧
    cleaned no_faults names (Some "g1") running dir'.
Proof.
  destruct (stop_orderly stubborn no_faults 0 60 names [10; 20] (Some 5) (Some "g1") LockHeld running)
    as (result & dir' & trace & gone & Hs & Ht & H); [intros n; by vm_compute|].
  exists result, dir', trace, gone. split; [done|]. split; [done|].
  assert (∃ forced, result = Ok forced) as [forced ->].
  { exists true. vm_compute in Hs. by injection Hs. }
  destruct H as (Hg & _ & Hf & _ & Hc). split; [by rewrite Hf|]. split; [done|].
  destruct Hc as [[_ Hc]|[(other & Ho & Hne) _]]; [done|]. vm_compute in Ho. by injection Ho as <-.
Defined.

End Samples.
